(* ===== verification/_CoqProject ===== *)
-Q . S2P
Prelude.v
Tokens.v
GoStrings.v
GoNumbers.v
Lexer.v
LexerFacts.v
LexerProps.v
GoInline.v
GoFloat.v
Ast.v
AstString.v
Migration.v
Parser.v
ParserExpr.v
ParserStmt.v
ParserServices.v
ParserTop.v
ParserFacts.v
ParserProps.v
ParserGrammar.v
Runtime.v
Optimizer.v
OptimizerProps.v
LockStore.v
LockProps.v
GoPath.v
Cache.v
Bloom.v
RateLimiter.v
CircuitBreaker.v
GoTime.v
Cron.v
CronProps.v
Semver.v
GoHeap.v
PriorityQueue.v
TimeWheel.v
GoSort.v
Rebalancer.v
WorkflowDag.v
Workflow.v
WorkflowFacts.v
WorkflowProps.v
WorkflowLive.v
WorkflowHandlers.v
TypeCheck.v
Analyze.v
TypeProps.v
Resp3.v
HashRing.v
Erasure.v
Wal.v
BrokerGuards.v
Broker.v
BrokerFacts.v
BrokerProps.v
BrokerOrder.v
GoFs.v
Vault.v
VaultObjects.v
VaultBulk.v
VaultFacts.v
VaultProps.v
VaultLocks.v
MeshRegistry.v
MeshClient.v
MeshProps.v
MeshRouting.v
Core.v
AuthStores.v
Auth.v
AuthProps.v
GatewayParts.v
Gateway.v
GatewayProps.v
VaultAuth.v
VaultS3.v
VaultS3Props.v
Secrets.v
Pool.v
