(* ===== verification/Prelude.v ===== *)
(** * A verification library for Pranor

    Pranor (the Go repository under [src/]) is a platform of small services
    around a programming language.  [src/lang] compiles programs in the Pranor
    language to Go: a lexer, a parser, analyzers, an optimizer of the syntax
    tree and a code generator, with a runtime library for the generated code.
    Around it are services: an API gateway ([src/gate]), a message broker
    ([src/pulse]), an object store ([src/vault]), a cache ([src/cache]), a
    scheduler ([src/chrono]), a lock service ([src/lock]), a package hub
    ([src/hub]), a workflow engine, a mesh registry, authentication, secrets,
    a connection pooler ([src/pool]), a console, and a shared library ([src/core]).

    This development translates the parts that carry the algorithms into
    executable definitions and proves what makes them correct.

    ** Files

    - [Prelude]: tactics, 64-bit wrap-around, bounded loops ([while] with the
      lemmas that enough fuel gives the result), list scanning.
    - [GoStrings], [GoNumbers], [GoFloat], [GoTime], [GoPath]: what the source
      uses of Go's standard library ([strings], [strconv], [fmt] on floats,
      IEEE binary64 through [SpecFloat], [time] with its layouts,
      [path.Match]).
    - [Tokens], [Lexer], [LexerFacts], [LexerProps]:
      [lang/compiler/lexer.go].  The [Lexer] record is the Go struct, one
      definition per method.  [GoInline] is [ReadGoInlineSignatureAndBody].
    - [Ast], [AstString]: the syntax trees and their [String] methods
      ([ast.go]).
    - [Parser], [ParserExpr], [ParserStmt], [ParserServices], [ParserTop],
      [Migration]: the parser ([parser.go] and [parser_*.go]), one definition
      per method, in a state monad over the [Parser] record with panics, early
      returns and fuel; [ParserTop] ties the recursive knot.  [ParserFacts] is
      a program logic for how much a method reads and its use on
      every method, [ParserProps] and [ParserGrammar] the theorems.
    - [Runtime], [Optimizer], [OptimizerProps]: the operators of generated programs on dynamic values
      ([lang/runtime/perf.go] and the dispatch in [codegen_expr.go]) and the
      optimizer ([optimizer.go]).
    - [LockStore], [LockProps]: [lock/pkg/storage/store.go] and the reload of
      [file_store.go].  Lock objects live on a heap, because the table, the
      shared owners and the callers alias them.  A request that has to wait is
      three steps: up to the [select], the grant, the timeout.
    - [Cache]: [cache/pkg/cache/cache.go]; [Bloom]:
      [cache/pkg/bloom/bloom.go].
    - [RateLimiter], [CircuitBreaker]: [gate/pkg/ratelimit] and
      [gate/pkg/circuitbreaker].  [GatewayParts]: the parts of the gateway
      ([gate/pkg/proxy]: response cache, validation, IP lists, framing,
      concurrency limiter, latency breaker, balancing, canaries); [Gateway]:
      its handler, a sequence of stages over the state, cut where a request
      waits, and the step relation of requests and administration;
      [GatewayProps]: the theorems.  The classes [Hash], [Json], [Regexp],
      [Net] and [Codecs] stand for hashing, JSON, regular expressions,
      addresses and the decoding of tokens and bodies.
    - [Cron], [CronProps]: [chrono/pkg/cron/cron.go].
    - [Semver]: [hub/pkg/resolution/resolution.go].
    - [TypeCheck], [Analyze], [TypeProps]: the type checker
      ([analyze_typecheck.go], [symbol_table.go]), the flow and injection
      analyses ([analyze_flow.go], [analyze_security.go]) and their theorems.
    - [WorkflowDag] (with a module [Designer]), [Workflow],
      [WorkflowHandlers]: the workflow engine ([flow/pkg/engine/dag.go], [designer.go], the types of
      [flow/pkg/storage/store.go]) and its HTTP handlers.  A run is a state
      transformer over the instance, the table of instances and a world; the
      class [World] holds what the engine asks of network, files, clock and
      stores.  [WorkflowFacts] is a weakest-precondition logic for runs,
      [WorkflowProps], [WorkflowLive] and the end of [WorkflowHandlers] the
      theorems.
    - [GoHeap], [PriorityQueue], [TimeWheel], [GoSort], [Rebalancer]: the queue,
      the timing wheel and the partition assignment of the broker
      ([pulse/pkg/broker]), with [container/heap] and [sort].
    - [Wal]: the write-ahead log ([pulse/pkg/storage/wal.go]); the
      file is a list of bytes, a write may fail after any number of them.
    - [BrokerGuards], [Broker]: the broker engine ([pulse/pkg/broker/engine.go])
      with deduplication, rate limit, schemas and topic patterns.  Channels
      are buffers on a heap, because subscriptions, snapshots and subscribers
      share them; a dispatch round is made of the steps [take_message],
      [snapshot] and [deliver], between which other operations run, and
      [dispatch] is a round that nothing interrupts.  The class [Host] holds environment, JSON codec and
      transforms.  [BrokerFacts], [BrokerProps] and [BrokerOrder] have the
      invariant and the theorems.
    - [HashRing], [Erasure] (with a module [VectorClock]): placement, clocks
      and erasure coding of the object store ([vault/pkg/cluster/placement.go],
      [vectorclock/crdt_repl.go], [erasure/reed_solomon.go]).
    - [GoFs], [Vault], [VaultObjects], [VaultBulk]: the local store of the
      object store ([vault/pkg/storage]: buckets; objects with versions, locks,
      tags, quotas, compression and encryption; listings, uploads in parts,
      expiry, journal, recovery and restore).  [GoFs] is the file system, a
      finite map from paths to files and directories; the embedded database is
      a pair of maps.  The class [Codec] holds hashes, compression and cipher.
      [VaultFacts] has the invariant and its preservation,
      [VaultProps] and [VaultLocks] the theorems and what goes
      wrong outside of their hypotheses.
    - [VaultAuth]: credentials, tokens, request signatures, pre-signed
      addresses, policies and tenant limits of the object store
      ([vault/pkg/auth], [vault/pkg/ratelimit]); [VaultS3]: its S3 interface
      ([vault/pkg/s3], [vault/pkg/cluster/raft_node.go]), the whole way of a
      request through a node to the local store of [Vault], with routing,
      erasure coding, consensus and console, and the goroutines it leaves behind
      ([background]: access log and batch jobs).  The classes [Keyed],
      [Outside] and [ReedSolomon] stand for the keyed hash, for decoders,
      sandbox and language model, and for the erasure code with the law that
      enough shards give the data back; the record [Network] has the answers
      of the other nodes.  [VaultS3Props] shows that requests are runs of the
      operations of [VaultProps], and has the theorems and what the interface
      does not guard against.
    - [Secrets]: the secret manager ([secret/pkg/storage],
      [secret/pkg/handlers], [secret/main.go]): three stores behind the class
      [SecretStore], the audit log, the handlers and the server.  The class
      [SecretCodec] has cipher, keyed hash and encodings, the class
      [AuditedStore] what the handlers rely on.
    - [Pool]: the connection pooler ([pool/pkg]): the pool and the requests
      that use it as a state machine ([World], [step], [reachable]) over a
      store of shared connections, the class [Manager] with the pool and the
      health checks around it, query routing, statements, migrations and the
      handlers.
    - [Resp3]: the Redis protocol server of the cache
      ([cache/pkg/server/resp3.go]).
    - [MeshRegistry]: the registry of the service mesh with its handlers, its
      topology and its lock store ([mesh/pkg/registry], [mesh/pkg/lock]);
      [MeshClient]: the client ([mesh/pkg/client], [mesh/pkg/resilience]), a
      state monad over the transport and a tape of what is read from clock,
      network and random source.  The class [DiscoveryBackend] is another
      registry behind it.  [MeshProps] and [MeshRouting] have the theorems.
    - [Core]: access policies, retries, tokens, middleware and the
      transactional outbox (module [Outbox]) of the shared library ([core]).  A handler takes a request and a state to a reply and
      a state, a middleware takes a handler to a handler.  The class [Jwt]
      signs and verifies.
    - [AuthStores]: token store, velocity limiter, WebAuthn, one-time codes and
      encryption keys of the authentication service ([auth/pkg]); [Auth]: its
      handlers, routes and persistence ([auth/pkg/handlers], [auth/main.go]) on
      the middleware of [Core]; [AuthProps]: what every handler does to users
      and sessions, and the theorems on runs.  The classes [Crypto] and [Json]
      stand for cryptography and the decoding of bodies.

    ** What the theorems show

    - Lexer: the token stream of every text ends with end of file; tokens that
      are written out are read back; positions are exact; [dedent] only removes
      leading blanks; inline Go is cut at the balancing brace.
    - Parser: operator expressions are read as the reference grammar says
      (precedence, associativity, calls, members, indexing, assignment), every
      statement form is parsed in finitely many steps, and the loop over a
      program ends unless error recovery gets stuck, which it does on some
      erroneous programs.
    - Optimizer: the output is in normal form, a second pass changes nothing,
      and the execution of statements is preserved with respect to the dynamic
      operators of the runtime, for constants below 2^53 where they are
      compared or meet a float.
    - Locks: fencing tokens increase over every reachable state, an unexpired
      exclusive lease is taken over only when its owner releases it or its
      client has gone silent, the deadlock check decides
      reachability in the wait-for graph, a release hands the lock to a waiter
      of highest priority.
    - Cache and Bloom filter: the cache refines an abstract LRU cache and stays
      within its bound; the filter has no false negatives and never indexes out
      of range.
    - Gateway: whatever requests and administration come in whatever order, a
      request reaches a backend only after all checks of its route, made in the
      state in which it arrived, and those of its target, in the state in which
      it was sent; the counts
      of connections, slots and queue places are exact; the response cache
      gives back what was stored last; canaries are promoted step by step and
      isolated when they fail.  The rate limiter never admits more than the limit in any window,
      refuses no more than it must, and its delay is sufficient; the breaker
      trips on exactly the configured run of failures, isolates while open, and
      the half-open state decides on its probes.
    - Scheduler: cron fields match what they denote, the next run of a well-formed
      expression is the earliest minute that it selects, a tick starts a job once, retries and job chains
      are bounded and follow their links.
    - Hub: the resolved version is a maximal match whatever the order of the
      map, caret ranges are npm's, manifests are read back as printed.
    - Outbox: events are published in order, exactly the published ones are
      marked, and a failure stops the run.

    - Type checker: accepting a type where another is expected is sound for the
      values of the runtime, and a function that passes the checks, with its
      types known and its names declared once, returns a value of its declared
      type.
    - Workflows: the cycle check decides circular dependency; tasks start only
      after their dependencies, a run always ends unless a classification is
      malformed, reported success means every task is done, and an accepted
      definition with distinct names and known dependencies runs to completion
      when its actions succeed; a rollback makes the calls of the compensations
      in reverse order of completion.
    - Broker: the heap queue behaves like an ordered list, the wheel fires each
      task on its tick, every partition has exactly one owner after a rebalance.  The log survives
      a crash in the middle of a write.  In every reachable engine a dispatch
      round, with other operations between its steps, gives a message once to
      each subscriber with room and to one member of each group, unless one of
      them unsubscribes before the sends; and a producer's repeated message goes nowhere; a topic is
      an ordered queue for its subscribers.
    - Object store: placement is consistent hashing, replicas' clocks converge,
      a lost shard is determined by the others, and a quorum write reports the
      writes that succeeded.  Over every run of operations (with clean names, small
      uploads and neither restart nor restore) the store gives back
      what it accepted, keeps locked versions and respects quotas.  Through
      the S3 interface the requests and goroutines of a node (access log, batch
      jobs) are a run of these operations on the buckets they name, a get
      returns what was put, nothing but restores and batch jobs changes
      anything without proof of identity and permission of the policy, a policy decides exactly as its
      statements say, a pre-signed address is valid for exactly its time, and
      an object in shards survives the loss of its parity.
    - Secret manager: the encrypted file store answers as the store in memory
      across rotations and restarts with the key in force, no secret is shown
      without a key or token and a record in the audit log, and the last hash of the log stands for all
      of it.
    - Connection pooler: a connection is with one request at a time, waiters
      are served in turn, queries go by their first word, and a migration is
      applied once.
    - Redis protocol: values are read back as written, and pipelined commands
      are answered in order.
    - Mesh: the registry lists exactly the instances that were heard of in
      time, leases exclude, requests reach only live instances whose breaker
      allows it, and round robin is fair.
    - Shared library: an access decision depends only on the set of statements,
      with denial before permission; a retried call ends with the answer of its
      last attempt.
    - Authentication: a revoked or exchanged token is refused ever after, as long
      as restarts load the sessions, the lockout bounds the rate of guesses, requests keep to their tenant,
      registered users can log in; tokens, blocked keys and encrypted secrets
      are exactly what the history of operations makes them.

    Theorems without a claim number at the end of some files record behaviour
    of the code that looks unintended.

    ** Modelling conventions

    Integers are [Z], wrapped at 64 bits where the source can overflow.
    Strings are byte strings.  Instants and durations are nanoseconds; every
    operation that reads the clock takes the instants as arguments, and
    theorems on sequences of operations hold for every choice the stated
    hypotheses on the clock allow.  Maps are [gmap]; where the iteration order
    of a Go map matters it is an argument.  An operation under a mutex is one
    step.  A panic is [None], in the parser [Panic].

    Loops that are not structural carry fuel.  In the lexer the fuel is the
    length of the text plus one and is proved to be enough ([lex_reaches_eof]
    and the lemmas of [LexerFacts]); the wait-for walk has one round per
    waiting owner ([hasCycle_spec]); the methods of the parser need a depth and
    a number of rounds linear in the unread input ([methods_ok]), and
    [ParseProgram] has none on some inputs ([import_never_ends]); the search for the next run has one round
    per minute up to its two-year limit ([next_cron_spec]); a cron field with a
    step of zero has no sufficient fuel, which [zero_step_diverges] states.  The depth-first search has one level per
    name ([dfs_fuel]), a workflow run one round per task and one to notice the
    end ([wp_rounds]), and the parser of the Redis protocol one level per byte
    of the input ([parse_write]).  Recovery of a log has one round per byte
    ([recover_frames]).

    Parameters stand for what is not in the repository: the broker and the
    store of the outbox, the backend of the cache, HTTP outcomes of jobs, hash
    functions, signatures, compression and cipher, the logarithm of the platform, and [sort.Slice], of which only the documented
    result is assumed ([SortSlice]).  Case folding outside of ASCII is the class
    [Casing].

    ** What is not modelled

    The code generator and the runtime services, whose meaning is that of the
    generated Go program; the language server, command line and consoles, which
    are input and output; of the services the parts that are network code or
    call other engines (select queries and the WebAssembly sandbox of the
    object store, cluster membership, healing and replication, protocol
    bridges, edge and AI routing, notifications); and the services
    listed as such in the manifest. *)

(** Shared prelude: notation, tactics and the generic facts on machine
    integers, bounded loops and lists that the component files use. *)

From stdpp Require Export prelude strings gmap list fin_maps pretty.
From Stdlib Require Export ZArith Ascii Lia.
#[global] Set Default Proof Using "Type".
#[export] Set Warnings "-clear-no-such-hyp".

(** ** Scopes *)

Declare Scope go_scope.
Delimit Scope go_scope with go.

(** ** Tactics *)

(** Case analysis on every [match]/[if] scrutinee of the goal, keeping the
    equations. *)
Ltac split_matches :=
  repeat match goal with
  | |- context [match ?x with _ => _ end] => destruct x eqn:?
  end.

(** Same, in a hypothesis. *)
Ltac split_matches_in H :=
  repeat match type of H with
  | context [match ?x with _ => _ end] => destruct x eqn:?
  end.

(** Open a conjunction in the goal and try to close each part. *)
Ltac splits := repeat match goal with |- _ /\ _ => split end.

(** Boolean connectives and decisions to propositions, everywhere. *)
Ltac boolify :=
  repeat match goal with
  | H : _ && _ = true |- _ => apply andb_prop in H; destruct H
  | H : _ && _ = false |- _ => apply andb_false_iff in H
  | H : _ || _ = false |- _ => apply orb_false_elim in H; destruct H
  | H : _ || _ = true |- _ => apply orb_prop in H
  | H : negb _ = true |- _ => apply negb_true_iff in H
  | H : negb _ = false |- _ => apply negb_false_iff in H
  | H : bool_decide _ = true |- _ => apply bool_decide_eq_true in H
  | H : bool_decide _ = false |- _ => apply bool_decide_eq_false in H
  | H : (_ <? _)%Z = true |- _ => apply Z.ltb_lt in H
  | H : (_ <? _)%Z = false |- _ => apply Z.ltb_ge in H
  | H : (_ <=? _)%Z = true |- _ => apply Z.leb_le in H
  | H : (_ <=? _)%Z = false |- _ => apply Z.leb_gt in H
  | H : (_ =? _)%Z = true |- _ => apply Z.eqb_eq in H
  | H : (_ =? _)%Z = false |- _ => apply Z.eqb_neq in H
  end.

Create HintDb go.

(** ** Machine integers *)

Section Int64.
Local Open Scope Z_scope.

Definition min_int64 : Z := - 2 ^ 63.
Definition max_int64 : Z := 2 ^ 63 - 1.

(** Go's [int64]/[int] arithmetic: the mathematical result reduced to the
    two's complement range. *)
Definition wrap64 (z : Z) : Z := (z + 2 ^ 63) mod 2 ^ 64 - 2 ^ 63.

Definition in_int64 (z : Z) : Prop := min_int64 <= z <= max_int64.

#[global] Instance in_int64_dec z : Decision (in_int64 z).
Proof. unfold in_int64. apply _. Defined.

Lemma wrap64_range z : in_int64 (wrap64 z).
Proof.
  unfold in_int64, wrap64, min_int64, max_int64.
  pose proof (Z.mod_pos_bound (z + 2 ^ 63) (2 ^ 64)). lia.
Qed.

Lemma wrap64_id z : in_int64 z -> wrap64 z = z.
Proof.
  unfold in_int64, wrap64, min_int64, max_int64. intros H.
  rewrite Z.mod_small; lia.
Qed.

Lemma wrap64_idemp z : wrap64 (wrap64 z) = wrap64 z.
Proof. apply wrap64_id, wrap64_range. Qed.

(** [uint64] arithmetic. *)
Definition wrapu64 (z : Z) : Z := z mod 2 ^ 64.

Lemma wrapu64_range z : 0 <= wrapu64 z < 2 ^ 64.
Proof. unfold wrapu64. apply Z.mod_pos_bound. lia. Qed.
End Int64.

#[export] Hint Resolve wrap64_range wrap64_idemp : go.

(** ** Bounded loops

    [while fuel c f s] runs [for c(s) { s = f(s) }] for at most [fuel]
    rounds.  [while_unfold] shows that, when a measure bounded by the fuel
    decreases at each round, the bound is never reached: the loop satisfies
    the equation of the unbounded loop. *)

Section While.
Context {S : Type}.

Fixpoint while (fuel : nat) (c : S -> bool) (f : S -> S) (s : S) : S :=
  match fuel with
  | O => s
  | Datatypes.S n => if c s then while n c f (f s) else s
  end.

Context (c : S -> bool) (f : S -> S) (I : S -> Prop) (m : S -> nat).
Hypothesis I_step : forall s, I s -> c s = true -> I (f s).
Hypothesis m_step : forall s, I s -> c s = true -> m (f s) < m s.

Lemma while_exit fuel s : I s -> m s < fuel -> c (while fuel c f s) = false.
Proof using I_step m_step.
  revert s. induction fuel as [|n IH]; intros s HI Hm; [lia|]. cbn.
  destruct (c s) eqn:Hc; [|done].
  apply IH; [by apply I_step|]. specialize (m_step s HI Hc). lia.
Qed.

Lemma while_inv fuel s : I s -> I (while fuel c f s).
Proof using I_step.
  revert s. induction fuel as [|n IH]; intros s HI; [done|]. cbn.
  destruct (c s) eqn:Hc; [|done]. auto.
Qed.

Lemma while_fuel fuel1 fuel2 s :
  I s -> m s < fuel1 -> m s < fuel2 ->
  while fuel1 c f s = while fuel2 c f s.
Proof using I_step m_step.
  revert fuel2 s. induction fuel1 as [|n IH]; intros [|n'] s HI H1 H2; try lia.
  cbn. destruct (c s) eqn:Hc; [|done].
  pose proof (m_step s HI Hc). apply IH; auto; lia.
Qed.

Lemma while_unfold fuel1 fuel2 s :
  I s -> m s < fuel1 -> m s <= fuel2 ->
  while fuel1 c f s = if c s then while fuel2 c f (f s) else s.
Proof using I_step m_step.
  intros HI H1 H2. destruct fuel1 as [|n]; [lia|]. cbn.
  destruct (c s) eqn:Hc; [|done].
  pose proof (m_step s HI Hc). apply while_fuel; auto; lia.
Qed.
End While.

(** ** Prefix scans of lists *)

Section Scan.
Context {A : Type} (p : A -> bool).

Fixpoint take_while (l : list A) : list A :=
  match l with
  | [] => []
  | x :: l => if p x then x :: take_while l else []
  end.

Fixpoint drop_while (l : list A) : list A :=
  match l with
  | [] => []
  | x :: l' => if p x then drop_while l' else l
  end.

Lemma take_drop_while l : take_while l ++ drop_while l = l.
Proof. induction l as [|x l IH]; cbn; [done|]. destruct (p x); cbn; by rewrite ?IH. Qed.

Lemma take_while_all l : forallb p (take_while l) = true.
Proof. induction l as [|x l IH]; cbn; [done|]. destruct (p x) eqn:E; cbn; by rewrite ?E. Qed.

Lemma drop_while_head l x l' : drop_while l = x :: l' -> p x = false.
Proof.
  induction l as [|y l IH]; cbn; [done|].
  destruct (p y) eqn:E; [done|]. by intros [= -> ->].
Qed.

Lemma drop_while_drop l : drop_while l = drop (length (take_while l)) l.
Proof. induction l as [|x l IH]; cbn; [done|]. by destruct (p x). Qed.

(** Scanning a block of accepted bytes followed by a rejected one. *)
Lemma take_while_app l1 l2 :
  forallb p l1 = true -> hd_error l2 = None \/ (exists x l, l2 = x :: l /\ p x = false) ->
  take_while (l1 ++ l2) = l1.
Proof.
  intros H1 H2. induction l1 as [|x l1 IH]; cbn in *.
  - destruct H2 as [H2 | (x & l & -> & Hx)]; [by destruct l2|]. cbn. by rewrite Hx.
  - apply andb_prop in H1 as [Hx H1]. rewrite Hx. by rewrite IH.
Qed.

Lemma drop_while_app l1 l2 :
  forallb p l1 = true -> hd_error l2 = None \/ (exists x l, l2 = x :: l /\ p x = false) ->
  drop_while (l1 ++ l2) = l2.
Proof.
  intros H1 H2. rewrite drop_while_drop, take_while_app by done. apply drop_app_length.
Qed.
End Scan.

(** ** Lists *)

Lemma omap_ext_in {A B} (f g : A -> option B) (l : list A) :
  (forall x, x ∈ l -> f x = g x) -> omap f l = omap g l.
Proof.
  induction l as [|x l IH]; cbn; [done|]. intros H. rewrite (H x) by left.
  rewrite IH; [done|]. intros y Hy. apply H. by right.
Qed.
