(* ===== verification/Tokens.v ===== *)
(** * Tokens of the Pranor language

    The token vocabulary of [lang/compiler/lexer.go]: the token types with
    their string values, tokens with their source position, the keyword
    table and the two lookups on it. *)

From S2P Require Import Prelude.
Local Open Scope string_scope.
Local Open Scope list_scope.

(** ** Token types

    [TokenType] is a Go string type with a fixed set of constants; the
    constants are constructors and [TokenType_string] gives their values. *)

Inductive TokenType :=
  | TOKEN_EOF
  | TOKEN_ILLEGAL
  | TOKEN_IDENT
  | TOKEN_INT
  | TOKEN_FLOAT
  | TOKEN_STRING
  | TOKEN_DURATION
  | TOKEN_AUTH
  | TOKEN_MAIL
  | TOKEN_SEARCH
  | TOKEN_BROKER
  | TOKEN_AI
  | TOKEN_SERVER
  | TOKEN_ROUTE
  | TOKEN_EVERY
  | TOKEN_CRON
  | TOKEN_SUBSCRIBE
  | TOKEN_TRANSFORM
  | TOKEN_POLICY
  | TOKEN_PUBLISH
  | TOKEN_SPAWN
  | TOKEN_FN
  | TOKEN_LET
  | TOKEN_RETURN
  | TOKEN_IMPORT
  | TOKEN_EXTERN
  | TOKEN_FROM
  | TOKEN_TRY
  | TOKEN_CATCH
  | TOKEN_DATABASE
  | TOKEN_CACHE
  | TOKEN_MATCH
  | TOKEN_FSTRING
  | TOKEN_AND
  | TOKEN_OR
  | TOKEN_ENUM
  | TOKEN_TOOL
  | TOKEN_LIMIT
  | TOKEN_MIGRATION
  | TOKEN_IF
  | TOKEN_ELSE
  | TOKEN_FOR
  | TOKEN_IN
  | TOKEN_TRUE
  | TOKEN_FALSE
  | TOKEN_NIL
  | TOKEN_STRUCT
  | TOKEN_SELF
  | TOKEN_EXPORT
  | TOKEN_INTERFACE
  | TOKEN_MIDDLEWARE
  | TOKEN_USE
  | TOKEN_AWAIT
  | TOKEN_DECLARE
  | TOKEN_MODULE
  | TOKEN_AS
  | TOKEN_WS
  | TOKEN_CORS
  | TOKEN_RATE_LIMIT
  | TOKEN_MOCK
  | TOKEN_ACTOR
  | TOKEN_WORKFLOW
  | TOKEN_STREAM
  | TOKEN_YIELD
  | TOKEN_STORE
  | TOKEN_VERSION
  | TOKEN_RESILIENT
  | TOKEN_RETRIES
  | TOKEN_CIRCUIT_BREAKER
  | TOKEN_INJECT
  | TOKEN_GRAPHQL
  | TOKEN_MACRO
  | TOKEN_NOTIFY
  | TOKEN_APP
  | TOKEN_AGENT
  | TOKEN_TABLE
  | TOKEN_EVENT_STORE
  | TOKEN_COMMAND
  | TOKEN_EMIT
  | TOKEN_CACHED
  | TOKEN_ASSIGN
  | TOKEN_ARROW
  | TOKEN_RET_ARROW
  | TOKEN_PLUS
  | TOKEN_MINUS
  | TOKEN_ASTERISK
  | TOKEN_SLASH
  | TOKEN_PERCENT
  | TOKEN_COMMA
  | TOKEN_LPAREN
  | TOKEN_RPAREN
  | TOKEN_LBRACE
  | TOKEN_RBRACE
  | TOKEN_LBRACKET
  | TOKEN_RBRACKET
  | TOKEN_DOT
  | TOKEN_COLON
  | TOKEN_TEST
  | TOKEN_ASSERT
  | TOKEN_PLUS_ASSIGN
  | TOKEN_MINUS_ASSIGN
  | TOKEN_ASTERISK_ASSIGN
  | TOKEN_SLASH_ASSIGN
  | TOKEN_PERCENT_ASSIGN
  | TOKEN_AMPERSAND
  | TOKEN_PIPE
  | TOKEN_PIPE_ARROW
  | TOKEN_CARET
  | TOKEN_SHIFT_LEFT
  | TOKEN_SHIFT_RIGHT
  | TOKEN_EQ
  | TOKEN_NEQ
  | TOKEN_LT
  | TOKEN_GT
  | TOKEN_LTE
  | TOKEN_GTE
  | TOKEN_BANG
  | TOKEN_QUESTION_DOT
  | TOKEN_QUESTION
  | TOKEN_SPREAD
  | TOKEN_TYPE
  | TOKEN_VALIDATE
  | TOKEN_BREAK
  | TOKEN_CONTINUE
  | TOKEN_BEFORE_EACH
  | TOKEN_AFTER_EACH
  | TOKEN_TIMEOUT
  | TOKEN_MESH
  | TOKEN_ON
  | TOKEN_LOCK
  | TOKEN_UNLOCK
  | TOKEN_BUCKET
  | TOKEN_GATE
  | TOKEN_JOB
  | TOKEN_RAG.

Definition TokenType_string (t : TokenType) : string :=
  match t with
  | TOKEN_EOF => "EOF"
  | TOKEN_ILLEGAL => "ILLEGAL"
  | TOKEN_IDENT => "IDENT"
  | TOKEN_INT => "INT"
  | TOKEN_FLOAT => "FLOAT"
  | TOKEN_STRING => "STRING"
  | TOKEN_DURATION => "DURATION"
  | TOKEN_AUTH => "AUTH"
  | TOKEN_MAIL => "MAIL"
  | TOKEN_SEARCH => "SEARCH"
  | TOKEN_BROKER => "BROKER"
  | TOKEN_AI => "AI"
  | TOKEN_SERVER => "SERVER"
  | TOKEN_ROUTE => "ROUTE"
  | TOKEN_EVERY => "EVERY"
  | TOKEN_CRON => "CRON"
  | TOKEN_SUBSCRIBE => "SUBSCRIBE"
  | TOKEN_TRANSFORM => "TRANSFORM"
  | TOKEN_POLICY => "POLICY"
  | TOKEN_PUBLISH => "PUBLISH"
  | TOKEN_SPAWN => "SPAWN"
  | TOKEN_FN => "FN"
  | TOKEN_LET => "LET"
  | TOKEN_RETURN => "RETURN"
  | TOKEN_IMPORT => "IMPORT"
  | TOKEN_EXTERN => "EXTERN"
  | TOKEN_FROM => "FROM"
  | TOKEN_TRY => "TRY"
  | TOKEN_CATCH => "CATCH"
  | TOKEN_DATABASE => "DATABASE"
  | TOKEN_CACHE => "CACHE"
  | TOKEN_MATCH => "MATCH"
  | TOKEN_FSTRING => "FSTRING"
  | TOKEN_AND => "AND"
  | TOKEN_OR => "OR"
  | TOKEN_ENUM => "ENUM"
  | TOKEN_TOOL => "TOOL"
  | TOKEN_LIMIT => "LIMIT"
  | TOKEN_MIGRATION => "MIGRATION"
  | TOKEN_IF => "IF"
  | TOKEN_ELSE => "ELSE"
  | TOKEN_FOR => "FOR"
  | TOKEN_IN => "IN"
  | TOKEN_TRUE => "TRUE"
  | TOKEN_FALSE => "FALSE"
  | TOKEN_NIL => "NIL"
  | TOKEN_STRUCT => "STRUCT"
  | TOKEN_SELF => "SELF"
  | TOKEN_EXPORT => "EXPORT"
  | TOKEN_INTERFACE => "INTERFACE"
  | TOKEN_MIDDLEWARE => "MIDDLEWARE"
  | TOKEN_USE => "USE"
  | TOKEN_AWAIT => "AWAIT"
  | TOKEN_DECLARE => "DECLARE"
  | TOKEN_MODULE => "MODULE"
  | TOKEN_AS => "AS"
  | TOKEN_WS => "WS"
  | TOKEN_CORS => "CORS"
  | TOKEN_RATE_LIMIT => "RATE_LIMIT"
  | TOKEN_MOCK => "MOCK"
  | TOKEN_ACTOR => "ACTOR"
  | TOKEN_WORKFLOW => "WORKFLOW"
  | TOKEN_STREAM => "STREAM"
  | TOKEN_YIELD => "YIELD"
  | TOKEN_STORE => "STORE"
  | TOKEN_VERSION => "VERSION"
  | TOKEN_RESILIENT => "RESILIENT"
  | TOKEN_RETRIES => "RETRIES"
  | TOKEN_CIRCUIT_BREAKER => "CIRCUIT_BREAKER"
  | TOKEN_INJECT => "INJECT"
  | TOKEN_GRAPHQL => "GRAPHQL"
  | TOKEN_MACRO => "MACRO"
  | TOKEN_NOTIFY => "NOTIFY"
  | TOKEN_APP => "APP"
  | TOKEN_AGENT => "AGENT"
  | TOKEN_TABLE => "TABLE"
  | TOKEN_EVENT_STORE => "EVENT_STORE"
  | TOKEN_COMMAND => "COMMAND"
  | TOKEN_EMIT => "EMIT"
  | TOKEN_CACHED => "CACHED"
  | TOKEN_ASSIGN => "="
  | TOKEN_ARROW => "=>"
  | TOKEN_RET_ARROW => "->"
  | TOKEN_PLUS => "+"
  | TOKEN_MINUS => "-"
  | TOKEN_ASTERISK => "*"
  | TOKEN_SLASH => "/"
  | TOKEN_PERCENT => "%"
  | TOKEN_COMMA => ","
  | TOKEN_LPAREN => "("
  | TOKEN_RPAREN => ")"
  | TOKEN_LBRACE => "{"
  | TOKEN_RBRACE => "}"
  | TOKEN_LBRACKET => "["
  | TOKEN_RBRACKET => "]"
  | TOKEN_DOT => "."
  | TOKEN_COLON => ":"
  | TOKEN_TEST => "TEST"
  | TOKEN_ASSERT => "ASSERT"
  | TOKEN_PLUS_ASSIGN => "+="
  | TOKEN_MINUS_ASSIGN => "-="
  | TOKEN_ASTERISK_ASSIGN => "*="
  | TOKEN_SLASH_ASSIGN => "/="
  | TOKEN_PERCENT_ASSIGN => "%="
  | TOKEN_AMPERSAND => "&"
  | TOKEN_PIPE => "|"
  | TOKEN_PIPE_ARROW => "|>"
  | TOKEN_CARET => "^"
  | TOKEN_SHIFT_LEFT => "<<"
  | TOKEN_SHIFT_RIGHT => ">>"
  | TOKEN_EQ => "=="
  | TOKEN_NEQ => "!="
  | TOKEN_LT => "<"
  | TOKEN_GT => ">"
  | TOKEN_LTE => "<="
  | TOKEN_GTE => ">="
  | TOKEN_BANG => "!"
  | TOKEN_QUESTION_DOT => "?."
  | TOKEN_QUESTION => "?"
  | TOKEN_SPREAD => "..."
  | TOKEN_TYPE => "TYPE"
  | TOKEN_VALIDATE => "VALIDATE"
  | TOKEN_BREAK => "BREAK"
  | TOKEN_CONTINUE => "CONTINUE"
  | TOKEN_BEFORE_EACH => "BEFORE_EACH"
  | TOKEN_AFTER_EACH => "AFTER_EACH"
  | TOKEN_TIMEOUT => "TIMEOUT"
  | TOKEN_MESH => "MESH"
  | TOKEN_ON => "ON"
  | TOKEN_LOCK => "LOCK"
  | TOKEN_UNLOCK => "UNLOCK"
  | TOKEN_BUCKET => "BUCKET"
  | TOKEN_GATE => "GATE"
  | TOKEN_JOB => "JOB"
  | TOKEN_RAG => "RAG"
  end.

(** All the constants, in the order of the source. *)
Definition all_TokenTypes : list TokenType :=
  [TOKEN_EOF; TOKEN_ILLEGAL; TOKEN_IDENT; TOKEN_INT; TOKEN_FLOAT;
   TOKEN_STRING; TOKEN_DURATION; TOKEN_AUTH; TOKEN_MAIL; TOKEN_SEARCH;
   TOKEN_BROKER; TOKEN_AI; TOKEN_SERVER; TOKEN_ROUTE; TOKEN_EVERY;
   TOKEN_CRON; TOKEN_SUBSCRIBE; TOKEN_TRANSFORM; TOKEN_POLICY; TOKEN_PUBLISH;
   TOKEN_SPAWN; TOKEN_FN; TOKEN_LET; TOKEN_RETURN; TOKEN_IMPORT;
   TOKEN_EXTERN; TOKEN_FROM; TOKEN_TRY; TOKEN_CATCH; TOKEN_DATABASE;
   TOKEN_CACHE; TOKEN_MATCH; TOKEN_FSTRING; TOKEN_AND; TOKEN_OR;
   TOKEN_ENUM; TOKEN_TOOL; TOKEN_LIMIT; TOKEN_MIGRATION; TOKEN_IF;
   TOKEN_ELSE; TOKEN_FOR; TOKEN_IN; TOKEN_TRUE; TOKEN_FALSE;
   TOKEN_NIL; TOKEN_STRUCT; TOKEN_SELF; TOKEN_EXPORT; TOKEN_INTERFACE;
   TOKEN_MIDDLEWARE; TOKEN_USE; TOKEN_AWAIT; TOKEN_DECLARE; TOKEN_MODULE;
   TOKEN_AS; TOKEN_WS; TOKEN_CORS; TOKEN_RATE_LIMIT; TOKEN_MOCK;
   TOKEN_ACTOR; TOKEN_WORKFLOW; TOKEN_STREAM; TOKEN_YIELD; TOKEN_STORE;
   TOKEN_VERSION; TOKEN_RESILIENT; TOKEN_RETRIES; TOKEN_CIRCUIT_BREAKER; TOKEN_INJECT;
   TOKEN_GRAPHQL; TOKEN_MACRO; TOKEN_NOTIFY; TOKEN_APP; TOKEN_AGENT;
   TOKEN_TABLE; TOKEN_EVENT_STORE; TOKEN_COMMAND; TOKEN_EMIT; TOKEN_CACHED;
   TOKEN_ASSIGN; TOKEN_ARROW; TOKEN_RET_ARROW; TOKEN_PLUS; TOKEN_MINUS;
   TOKEN_ASTERISK; TOKEN_SLASH; TOKEN_PERCENT; TOKEN_COMMA; TOKEN_LPAREN;
   TOKEN_RPAREN; TOKEN_LBRACE; TOKEN_RBRACE; TOKEN_LBRACKET; TOKEN_RBRACKET;
   TOKEN_DOT; TOKEN_COLON; TOKEN_TEST; TOKEN_ASSERT; TOKEN_PLUS_ASSIGN;
   TOKEN_MINUS_ASSIGN; TOKEN_ASTERISK_ASSIGN; TOKEN_SLASH_ASSIGN; TOKEN_PERCENT_ASSIGN; TOKEN_AMPERSAND;
   TOKEN_PIPE; TOKEN_PIPE_ARROW; TOKEN_CARET; TOKEN_SHIFT_LEFT; TOKEN_SHIFT_RIGHT;
   TOKEN_EQ; TOKEN_NEQ; TOKEN_LT; TOKEN_GT; TOKEN_LTE;
   TOKEN_GTE; TOKEN_BANG; TOKEN_QUESTION_DOT; TOKEN_QUESTION; TOKEN_SPREAD;
   TOKEN_TYPE; TOKEN_VALIDATE; TOKEN_BREAK; TOKEN_CONTINUE; TOKEN_BEFORE_EACH;
   TOKEN_AFTER_EACH; TOKEN_TIMEOUT; TOKEN_MESH; TOKEN_ON; TOKEN_LOCK;
   TOKEN_UNLOCK; TOKEN_BUCKET; TOKEN_GATE; TOKEN_JOB; TOKEN_RAG].

Definition TokenType_of_string (s : string) : option TokenType :=
  list_find (fun t => TokenType_string t = s) all_TokenTypes ≫= fun p => Some p.2.

(** The constants have pairwise distinct values: a value determines its
    constant. *)
Lemma TokenType_of_to_string t : TokenType_of_string (TokenType_string t) = Some t.
Proof. destruct t; vm_compute; reflexivity. Qed.

#[global] Instance TokenType_string_inj : Inj (=) (=) TokenType_string.
Proof.
  intros t1 t2 H. apply (f_equal TokenType_of_string) in H.
  rewrite !TokenType_of_to_string in H. by injection H.
Qed.

#[global] Instance TokenType_eq_dec : EqDecision TokenType.
Proof.
  refine (fun t1 t2 => cast_if (decide (TokenType_string t1 = TokenType_string t2)));
    [by apply TokenType_string_inj | by intros ->].
Defined.

Notation "t1 =t t2" := (bool_decide (t1 = t2 :> TokenType))
  (at level 70, no associativity) : go_scope.

(** ** Tokens *)

Record Token := mkToken {
  Type_ : TokenType;
  Literal : string;
  Line : Z;
  Col : Z }.

#[global] Instance Token_eq_dec : EqDecision Token.
Proof. solve_decision. Defined.

(** ** Keywords *)

Definition keywords_list : list (string * TokenType) :=
  [("auth", TOKEN_AUTH);
   ("mail", TOKEN_MAIL);
   ("search", TOKEN_SEARCH);
   ("broker", TOKEN_BROKER);
   ("ai", TOKEN_AI);
   ("server", TOKEN_SERVER);
   ("route", TOKEN_ROUTE);
   ("every", TOKEN_EVERY);
   ("cron", TOKEN_CRON);
   ("subscribe", TOKEN_SUBSCRIBE);
   ("transform", TOKEN_TRANSFORM);
   ("policy", TOKEN_POLICY);
   ("publish", TOKEN_PUBLISH);
   ("spawn", TOKEN_SPAWN);
   ("fn", TOKEN_FN);
   ("let", TOKEN_LET);
   ("return", TOKEN_RETURN);
   ("import", TOKEN_IMPORT);
   ("extern", TOKEN_EXTERN);
   ("from", TOKEN_FROM);
   ("try", TOKEN_TRY);
   ("catch", TOKEN_CATCH);
   ("database", TOKEN_DATABASE);
   ("cache", TOKEN_CACHE);
   ("match", TOKEN_MATCH);
   ("test", TOKEN_TEST);
   ("assert", TOKEN_ASSERT);
   ("enum", TOKEN_ENUM);
   ("tool", TOKEN_TOOL);
   ("limit", TOKEN_LIMIT);
   ("migration", TOKEN_MIGRATION);
   ("if", TOKEN_IF);
   ("else", TOKEN_ELSE);
   ("for", TOKEN_FOR);
   ("in", TOKEN_IN);
   ("true", TOKEN_TRUE);
   ("false", TOKEN_FALSE);
   ("nil", TOKEN_NIL);
   ("struct", TOKEN_STRUCT);
   ("self", TOKEN_SELF);
   ("export", TOKEN_EXPORT);
   ("interface", TOKEN_INTERFACE);
   ("middleware", TOKEN_MIDDLEWARE);
   ("use", TOKEN_USE);
   ("await", TOKEN_AWAIT);
   ("declare", TOKEN_DECLARE);
   ("module", TOKEN_MODULE);
   ("as", TOKEN_AS);
   ("ws", TOKEN_WS);
   ("type", TOKEN_TYPE);
   ("validate", TOKEN_VALIDATE);
   ("break", TOKEN_BREAK);
   ("continue", TOKEN_CONTINUE);
   ("beforeEach", TOKEN_BEFORE_EACH);
   ("afterEach", TOKEN_AFTER_EACH);
   ("timeout", TOKEN_TIMEOUT);
   ("cors", TOKEN_CORS);
   ("rate_limit", TOKEN_RATE_LIMIT);
   ("mock", TOKEN_MOCK);
   ("actor", TOKEN_ACTOR);
   ("workflow", TOKEN_WORKFLOW);
   ("inject", TOKEN_INJECT);
   ("graphql", TOKEN_GRAPHQL);
   ("stream", TOKEN_STREAM);
   ("yield", TOKEN_YIELD);
   ("store", TOKEN_STORE);
   ("version", TOKEN_VERSION);
   ("resilient", TOKEN_RESILIENT);
   ("retries", TOKEN_RETRIES);
   ("circuit_breaker", TOKEN_CIRCUIT_BREAKER);
   ("notify", TOKEN_NOTIFY);
   ("app", TOKEN_APP);
   ("agent", TOKEN_AGENT);
   ("table", TOKEN_TABLE);
   ("mesh", TOKEN_MESH);
   ("on", TOKEN_ON);
   ("lock", TOKEN_LOCK);
   ("unlock", TOKEN_UNLOCK);
   ("bucket", TOKEN_BUCKET);
   ("gate", TOKEN_GATE);
   ("job", TOKEN_JOB);
   ("rag", TOKEN_RAG);
   ("event_store", TOKEN_EVENT_STORE);
   ("command", TOKEN_COMMAND);
   ("emit", TOKEN_EMIT);
   ("cached", TOKEN_CACHED)].

Definition keywords : gmap string TokenType := list_to_map keywords_list.

Definition lookupIdent (ident : string) : TokenType :=
  match keywords !! ident with
  | Some tok => tok
  | None => TOKEN_IDENT
  end.

(** The source ranges over the values of the map; membership does not depend
    on the order. *)
Definition isKeywordToken (t : TokenType) : bool :=
  existsb (fun kw => bool_decide (kw.2 = t)) keywords_list.

(** ** Facts *)

Lemma keywords_list_nodup : NoDup keywords_list.*1.
Proof. apply (bool_decide_unpack _). vm_compute. exact I. Qed.

Lemma keywords_lookup k t : keywords !! k = Some t <-> (k, t) ∈ keywords_list.
Proof. symmetry. apply elem_of_list_to_map, keywords_list_nodup. Qed.
