(* ===== verification/GoStrings.v ===== *)
(** * The part of Go's [strings] and [strconv] packages the components use

    Go strings are byte sequences; a Rocq [string] is a sequence of 8-bit
    characters, one per byte.  The functions below are those of Go's standard
    library on such sequences. *)

From S2P Require Import Prelude.
Local Open Scope string_scope.
Local Open Scope list_scope.

Definition nl : ascii := "010".
Definition quote : ascii := "034".
Definition backslash : ascii := "092".
Definition NUL : ascii := "000".

Abbreviation bytes := (list ascii).

Definition str (b : bytes) : string := String.string_of_list_ascii b.
Definition byt (s : string) : bytes := String.list_ascii_of_string s.

#[global] Arguments str : simpl never.
#[global] Arguments byt : simpl never.

Lemma str_byt s : str (byt s) = s.
Proof. apply String.string_of_list_ascii_of_string. Qed.

Lemma byt_str b : byt (str b) = b.
Proof. apply String.list_ascii_of_string_of_list_ascii. Qed.

Lemma byt_app s1 s2 : byt (s1 +:+ s2) = byt s1 ++ byt s2.
Proof.
  induction s1 as [|c s1 IH]; [done|].
  change (c :: byt (s1 +:+ s2) = c :: byt s1 ++ byt s2). by rewrite IH.
Qed.

Lemma str_app b1 b2 : str (b1 ++ b2) = str b1 +:+ str b2.
Proof.
  induction b1 as [|c b1 IH]; [done|].
  change (String c (str (b1 ++ b2)) = String c (str b1 +:+ str b2)). by rewrite IH.
Qed.

Lemma byt_inj s1 s2 : byt s1 = byt s2 -> s1 = s2.
Proof. intros H. by rewrite <- (str_byt s1), <- (str_byt s2), H. Qed.

(** [string(b)] for a byte [b]: the UTF-8 encoding of the code point [b]. *)
Definition string_of_byte (b : ascii) : string :=
  let n := N_of_ascii b in
  if (n <? 128)%N then String b ""
  else String (ascii_of_N (192 + n / 64)) (String (ascii_of_N (128 + n mod 64)) "").

(** ** Prefixes and suffixes *)

Fixpoint bytes_HasPrefix (s p : bytes) {struct p} : bool :=
  match p, s with
  | [], _ => true
  | c :: p', d :: s' => bool_decide (c = d) && bytes_HasPrefix s' p'
  | _ :: _, [] => false
  end.

Definition HasPrefix (s p : string) : bool := bytes_HasPrefix (byt s) (byt p).

Definition HasSuffix (s p : string) : bool :=
  bytes_HasPrefix (rev (byt s)) (rev (byt p)).

Definition TrimPrefix (s p : string) : string :=
  if HasPrefix s p then str (drop (String.length p) (byt s)) else s.

Definition TrimSuffix (s p : string) : string :=
  if HasSuffix s p then str (take (String.length s - String.length p) (byt s)) else s.

Lemma length_byt s : length (byt s) = String.length s.
Proof.
  induction s as [|c s IH]; [done|].
  change (S (length (byt s)) = S (String.length s)). by rewrite IH.
Qed.

Lemma bytes_HasPrefix_iff s p : bytes_HasPrefix s p = true <-> exists r, s = p ++ r.
Proof.
  revert s. induction p as [|c p IH]; intros s; cbn.
  - split; [intros _; by exists s | done].
  - destruct s as [|d s]; [split; [done | intros [r [=]]]|].
    rewrite andb_true_iff, bool_decide_eq_true, IH. split.
    + intros [-> [r ->]]. by exists r.
    + intros [r [= -> ->]]. split; [done|]. by exists r.
Qed.

Lemma HasPrefix_iff s p : HasPrefix s p = true <-> exists r, s = p +:+ r.
Proof.
  unfold HasPrefix. rewrite bytes_HasPrefix_iff. split; intros [r H].
  - exists (str r). apply byt_inj. by rewrite byt_app, byt_str.
  - exists (byt r). by rewrite H, byt_app.
Qed.

Lemma HasPrefix_trans s p q : HasPrefix s p = true -> HasPrefix p q = true -> HasPrefix s q = true.
Proof. rewrite !HasPrefix_iff. intros [r ->] [r' ->]. exists (r' +:+ r). apply byt_inj. by rewrite !byt_app, app_assoc. Qed.

Lemma TrimPrefix_app p r : TrimPrefix (p +:+ r) p = r.
Proof.
  unfold TrimPrefix. replace (HasPrefix (p +:+ r) p) with true
    by (symmetry; apply HasPrefix_iff; by exists r).
  rewrite byt_app, <- length_byt, drop_app_length. apply str_byt.
Qed.

Lemma HasSuffix_iff s p : HasSuffix s p = true <-> exists r, s = r +:+ p.
Proof.
  unfold HasSuffix. rewrite bytes_HasPrefix_iff. split; intros [r H].
  - exists (str (rev r)). apply byt_inj. rewrite byt_app, byt_str.
    by rewrite <- (rev_involutive (byt s)), H, rev_app_distr, rev_involutive.
  - exists (rev (byt r)). by rewrite H, byt_app, rev_app_distr.
Qed.

Lemma TrimSuffix_app r p : TrimSuffix (r +:+ p) p = r.
Proof.
  unfold TrimSuffix. replace (HasSuffix (r +:+ p) p) with true
    by (symmetry; apply HasSuffix_iff; by exists r).
  rewrite <- !length_byt, byt_app, length_app, Nat.add_sub, take_app_length.
  apply str_byt.
Qed.

(** ** Searching and splitting *)

(** [strings.Split(s, sep)] for a one-byte separator. *)
Fixpoint bytes_Split (sep : ascii) (s : bytes) : list bytes :=
  match s with
  | [] => [[]]
  | c :: s' =>
      if decide (c = sep) then [] :: bytes_Split sep s'
      else match bytes_Split sep s' with
           | [] => [[c]]
           | w :: ws => (c :: w) :: ws
           end
  end.

Definition Split (s : string) (sep : ascii) : list string :=
  map str (bytes_Split sep (byt s)).

(** [strings.Join]. *)
Definition Join (l : list string) (sep : string) : string :=
  match l with
  | [] => ""
  | x :: l => fold_left (fun acc y => acc +:+ sep +:+ y) l x
  end.

(** [strings.Contains(s, c)] for a one-byte pattern. *)
Definition ContainsByte (s : string) (c : ascii) : bool :=
  existsb (fun d => bool_decide (d = c)) (byt s).

(** [strings.Contains]. *)
Fixpoint bytes_Contains (s p : bytes) : bool :=
  bytes_HasPrefix s p ||
  match s with [] => false | _ :: s' => bytes_Contains s' p end.

Definition Contains (s p : string) : bool := bytes_Contains (byt s) (byt p).

(** First occurrence of [sep]: the bytes before it and the bytes after it. *)
Fixpoint bytes_Cut (s sep : bytes) : option (bytes * bytes) :=
  if bytes_HasPrefix s sep then Some ([], drop (length sep) s)
  else match s with
       | [] => None
       | c :: s' => match bytes_Cut s' sep with
                    | Some (b, a) => Some (c :: b, a)
                    | None => None
                    end
       end.

(** [strings.SplitN(s, sep, 2)], [sep] not empty. *)
Definition SplitN2 (s sep : string) : list string :=
  match bytes_Cut (byt s) (byt sep) with
  | Some (b, a) => [str b; str a]
  | None => [s]
  end.

Lemma bytes_Cut_first c k r : c ∉ k -> bytes_Cut (k ++ c :: r) [c] = Some (k, r).
Proof.
  induction k as [|x k IH]; intros Hk.
  - cbn. by rewrite bool_decide_true, drop_0.
  - apply not_elem_of_cons in Hk as [Hx Hk]. cbn [app bytes_Cut bytes_HasPrefix].
    rewrite bool_decide_false by congruence. cbn. by rewrite IH.
Qed.

(** Text cut at its first colon. *)
Lemma cut_colon v r : ":"%char ∉ byt v -> SplitN2 (v +:+ ":" +:+ r) ":" = [v; r].
Proof.
  intros Hv. unfold SplitN2. rewrite !byt_app. change (byt ":" ++ byt r) with (":"%char :: byt r). change (byt ":") with [":"%char].
  rewrite bytes_Cut_first by done. by rewrite !str_byt.
Qed.

(** ** White space

    [unicode.IsSpace] in UTF-8: the encodings of the white-space code
    points.  [strings.TrimSpace] and [strings.Fields] cut at them. *)

Definition ascii_spaces : list bytes :=
  [["009"%char]; ["010"%char]; ["011"%char]; ["012"%char]; ["013"%char]; [" "%char]].

Definition wide_spaces : list bytes :=
  [["194"; "133"]; ["194"; "160"]; ["225"; "154"; "128"];
   ["226"; "128"; "128"]; ["226"; "128"; "129"]; ["226"; "128"; "130"];
   ["226"; "128"; "131"]; ["226"; "128"; "132"]; ["226"; "128"; "133"];
   ["226"; "128"; "134"]; ["226"; "128"; "135"]; ["226"; "128"; "136"];
   ["226"; "128"; "137"]; ["226"; "128"; "138"]; ["226"; "128"; "168"];
   ["226"; "128"; "169"]; ["226"; "128"; "175"]; ["226"; "129"; "159"];
   ["227"; "128"; "128"]]%char.

Definition spaces : list bytes := ascii_spaces ++ wide_spaces.

(** The number of bytes of the white-space code point [s] starts with, if
    any. *)
Definition space_at (s : bytes) : option nat :=
  match list_find (fun w => bytes_HasPrefix s w = true) spaces with
  | Some (_, w) => Some (length w)
  | None => None
  end.

Fixpoint trim_left (fuel : nat) (pre : bytes -> option nat) (s : bytes) : bytes :=
  match fuel with
  | O => s
  | S n => match pre s with
           | Some k => trim_left n pre (drop k s)
           | None => s
           end
  end.

Definition space_at_end (s : bytes) : option nat :=
  match list_find (fun w => bytes_HasPrefix s (rev w) = true) spaces with
  | Some (_, w) => Some (length w)
  | None => None
  end.

Definition bytes_TrimSpace (s : bytes) : bytes :=
  let s := trim_left (length s) space_at s in
  rev (trim_left (length s) space_at_end (rev s)).

Definition TrimSpace (s : string) : string := str (bytes_TrimSpace (byt s)).

(** [strings.Fields]: maximal runs of non-space bytes. *)
Fixpoint fields_aux (fuel : nat) (cur : bytes) (s : bytes) : list bytes :=
  match fuel with
  | O => []
  | S n =>
      match s with
      | [] => if decide (cur = []) then [] else [rev cur]
      | c :: s' =>
          match space_at s with
          | Some k => (if decide (cur = []) then [] else [rev cur])
                      ++ fields_aux n [] (drop k s)
          | None => fields_aux n (c :: cur) s'
          end
      end
  end.

Definition Fields (s : string) : list string :=
  map str (fields_aux (S (String.length s)) [] (byt s)).

(** ** Numbers *)

Definition isDigitb (c : ascii) : bool :=
  Ascii.leb "0" c && Ascii.leb c "9".

Definition digit_val (c : ascii) : Z := (Z.of_N (N_of_ascii c) - 48)%Z.

Definition digits_val (l : bytes) : Z :=
  fold_left (fun acc c => acc * 10 + digit_val c)%Z l 0%Z.

(** [strconv.Atoi]: an optional sign, then at least one digit, and a value
    in range. *)
Definition Atoi (s : string) : option Z :=
  let parse (neg : bool) (ds : bytes) :=
    if decide (ds = []) then None
    else if forallb isDigitb ds then
      let v := (if neg then - digits_val ds else digits_val ds)%Z in
      if decide (in_int64 v) then Some v else None
    else None in
  match byt s with
  | "+"%char :: ds => parse false ds
  | "-"%char :: ds => parse true ds
  | ds => parse false ds
  end.

(** The value that [strconv.Atoi] returns along with an error, which callers
    may ignore: the nearest bound when out of range, else zero. *)
Definition Atoi_value (s : string) : Z :=
  let parse (neg : bool) (ds : bytes) :=
    if negb (bool_decide (ds = [])) && forallb isDigitb ds
    then Z.max min_int64 (Z.min max_int64 (if neg then - digits_val ds else digits_val ds))
    else 0%Z in
  match byt s with
  | "+"%char :: ds => parse false ds
  | "-"%char :: ds => parse true ds
  | ds => parse false ds
  end.

(** [strconv.FormatInt(v, 10)]. *)
Definition FormatInt (v : Z) : string := pretty v.

Definition FormatBool (b : bool) : string := if b then "true" else "false".

(** Go's [<] on strings: lexicographic on bytes. *)
Fixpoint bytes_ltb (a b : bytes) : bool :=
  match a, b with
  | [], _ :: _ => true
  | c :: a', d :: b' => if decide (c = d) then bytes_ltb a' b' else Ascii.ltb c d
  | _, [] => false
  end.

Definition string_ltb (a b : string) : bool := bytes_ltb (byt a) (byt b).

(** ** Facts on splitting and joining *)

Lemma bytes_Split_nonempty sep s : bytes_Split sep s <> [].
Proof. destruct s as [|c s]; cbn; [done|]. case_decide; [done|]. by destruct bytes_Split. Qed.

(** No piece of a split contains the separator. *)
Lemma bytes_Split_no_sep sep s : Forall (fun w => sep ∉ w) (bytes_Split sep s).
Proof.
  induction s as [|c s IH]; cbn; [repeat constructor; set_solver|].
  case_decide as Hc.
  - constructor; [set_solver | done].
  - destruct (bytes_Split sep s) as [|w ws].
    + apply Forall_singleton. rewrite list_elem_of_singleton. congruence.
    + apply Forall_cons in IH as [Hw Hws]. apply Forall_cons. split; [|done].
      rewrite not_elem_of_cons. split; [congruence | done].
Qed.

(** Joining the pieces of a split with the separator gives the string back. *)
Fixpoint bytes_join (sep : ascii) (l : list bytes) : bytes :=
  match l with
  | [] => []
  | [w] => w
  | w :: ws => w ++ sep :: bytes_join sep ws
  end.

Lemma bytes_join_cons sep w ws :
  ws <> [] -> bytes_join sep (w :: ws) = w ++ sep :: bytes_join sep ws.
Proof. by destruct ws. Qed.

Lemma bytes_join_Split sep s : bytes_join sep (bytes_Split sep s) = s.
Proof.
  induction s as [|c s IH]; cbn [bytes_Split]; [done|].
  case_decide as Hc.
  - rewrite bytes_join_cons by apply bytes_Split_nonempty. cbn. by rewrite IH, Hc.
  - pose proof (bytes_Split_nonempty sep s).
    destruct (bytes_Split sep s) as [|w [|w' ws]]; [done| |].
    + cbn in *. by rewrite IH.
    + rewrite bytes_join_cons in * by done. cbn. cbn in IH. by rewrite IH.
Qed.

Lemma bytes_Split_app sep w s :
  sep ∉ w -> bytes_Split sep (w ++ sep :: s) = w :: bytes_Split sep s.
Proof.
  intros Hw. induction w as [|c w IH]; cbn.
  - by rewrite decide_True.
  - rewrite not_elem_of_cons in Hw. destruct Hw as [Hc Hw].
    rewrite decide_False by done. by rewrite IH.
Qed.

Lemma bytes_Split_no sep w : sep ∉ w -> bytes_Split sep w = [w].
Proof.
  induction w as [|c w IH]; cbn; [done|]. intros Hw.
  rewrite not_elem_of_cons in Hw. destruct Hw as [Hc Hw].
  rewrite decide_False by done. by rewrite IH.
Qed.

Lemma bytes_Split_join sep l :
  l <> [] -> Forall (fun w => sep ∉ w) l -> bytes_Split sep (bytes_join sep l) = l.
Proof.
  induction l as [|w [|w' ws] IH]; intros Hne Hall; [done| |].
  - rewrite Forall_singleton in Hall. by apply (bytes_Split_no sep w).
  - apply Forall_cons in Hall as [? ?]. rewrite bytes_join_cons by done.
    rewrite bytes_Split_app by done. by rewrite IH.
Qed.

Lemma str_app_assoc a b c : (a +:+ b) +:+ c = a +:+ (b +:+ c).
Proof. apply byt_inj. rewrite !byt_app. by rewrite app_assoc. Qed.

Lemma Join_byt l sep :
  byt (Join l (String sep "")) = bytes_join sep (map byt l).
Proof.
  destruct l as [|x l]; [done|]. cbn [Join].
  revert x. induction l as [|y l IH]; intros x; [done|]. cbn [fold_left].
  rewrite IH. cbn [map]. rewrite !byt_app. destruct l as [|z l].
  - done.
  - cbn [map]. rewrite !bytes_join_cons by done.
    change (byt (String sep "")) with [sep].
    by rewrite <- !app_assoc, <- !app_comm_cons, app_nil_l.
Qed.

Lemma Split_Join l sep :
  l <> [] -> Forall (fun w => sep ∉ byt w) l ->
  Split (Join l (String sep "")) sep = l.
Proof.
  intros Hne Hall. unfold Split. rewrite Join_byt, bytes_Split_join.
  - rewrite map_map. rewrite <- (map_id l) at 2. apply map_ext, str_byt.
  - by destruct l.
  - by apply Forall_map.
Qed.

Lemma Join_Split s sep : Join (Split s sep) (String sep "") = s.
Proof.
  apply byt_inj. rewrite Join_byt. unfold Split. rewrite map_map.
  rewrite (map_ext _ (fun x => x)) by (intros; apply byt_str).
  by rewrite map_id, bytes_join_Split.
Qed.

Lemma Split_no_sep s sep : Forall (fun w => sep ∉ byt w) (Split s sep).
Proof.
  unfold Split. apply Forall_map. eapply Forall_impl; [apply bytes_Split_no_sep|].
  intros w Hw. cbn. by rewrite byt_str.
Qed.

Lemma Split_nonempty s sep : Split s sep <> [].
Proof. unfold Split. pose proof (bytes_Split_nonempty sep (byt s)). by destruct bytes_Split. Qed.

(** [strings.ToLower], as far as the comparison with ASCII words depends on
    it: the ASCII letters, and the two other characters with an ASCII lower
    case (U+0130 and U+212A). *)
Fixpoint lower_ascii (s : bytes) : bytes :=
  match s with
  | "196"%char :: "176"%char :: r => "i"%char :: lower_ascii r
  | "226"%char :: "132"%char :: "170"%char :: r => "k"%char :: lower_ascii r
  | c :: r =>
      (if Ascii.leb "A" c && Ascii.leb c "Z" then ascii_of_N (N_of_ascii c + 32) else c) :: lower_ascii r
  | [] => []
  end.

Definition ToLower (s : string) : string := str (lower_ascii (byt s)).

(** ** Letter case of arbitrary text

    Outside ASCII, [strings.ToLower] and [strings.EqualFold] follow the
    tables of the Unicode standard.  Clients that lower the case of names
    take them as a parameter, of which only the behaviour on ASCII text is
    fixed. *)

Definition ascii_text (s : string) : Prop := Forall (fun c => (N_of_ascii c < 128)%N) (byt s).

(** [strings.ToUpper] of ASCII. *)
Definition ToUpper (s : string) : string :=
  str ((fun c => let n := N_of_ascii c in if (97 <=? n)%N && (n <=? 122)%N then ascii_of_N (n - 32) else c) <$> byt s).

Class Casing := {
  lower : string -> string;
  upper : string -> string;
  EqualFold : string -> string -> bool;
  lower_ascii_text : forall s, ascii_text s -> lower s = ToLower s;
  upper_ascii_text : forall s, ascii_text s -> upper s = ToUpper s;
  EqualFold_ascii_text : forall s t, ascii_text s -> ascii_text t -> EqualFold s t = bool_decide (ToLower s = ToLower t) }.

#[local, refine] Instance ascii_casing : Casing := {| lower := ToLower; upper := ToUpper; EqualFold s t := bool_decide (ToLower s = ToLower t) |}.
Proof. all: done. Defined.
