(* ===== verification/GoNumbers.v ===== *)
(** * Decimal numbers in text

    What [strconv.Atoi] and the byte searches do on decimal numbers, shared by
    the components that parse them. *)

From stdpp Require Import pretty.
From S2P Require Import Prelude GoStrings.
Local Open Scope string_scope.
Local Open Scope Z_scope.
Local Open Scope list_scope.

(** ** Numbers *)

(** A decimal number of at most 18 digits. *)
Definition number (ds : string) : Prop :=
  byt ds <> [] /\ forallb isDigitb (byt ds) = true /\ (length (byt ds) <= 18)%nat.

#[global] Instance number_dec ds : Decision (number ds).
Proof. unfold number. apply _. Defined.

Definition num (ds : string) : Z := digits_val (byt ds).

Lemma digit_val_range c : isDigitb c = true -> 0 <= digit_val c <= 9.
Proof. destruct c as [[] [] [] [] [] [] [] []]; vm_compute; intros; split; discriminate || congruence. Qed.

Lemma digits_val_range l acc :
  forallb isDigitb l = true -> 0 <= acc ->
  0 <= fold_left (fun a c => a * 10 + digit_val c) l acc < (acc + 1) * 10 ^ Z.of_nat (length l).
Proof.
  revert acc. induction l as [|c l IH]; intros acc Hd Hacc; cbn [fold_left length].
  - cbn. lia.
  - cbn in Hd. apply andb_prop in Hd as [Hc Hd]. apply digit_val_range in Hc.
    destruct (IH (acc * 10 + digit_val c) Hd) as [H1 H2]; [lia|]. split; [done|].
    rewrite Nat2Z.inj_succ, Z.pow_succ_r by lia.
    assert (0 < 10 ^ Z.of_nat (length l)) by (apply Z.pow_pos_nonneg; lia). nia.
Qed.

Lemma num_range ds : number ds -> 0 <= num ds < 10 ^ 18.
Proof.
  intros (_ & Hd & Hl). destruct (digits_val_range (byt ds) 0 Hd) as [H1 H2]; [lia|].
  split; [done|]. eapply Z.lt_le_trans; [exact H2|]. rewrite Z.mul_1_l.
  apply Z.pow_le_mono_r; lia.
Qed.

Lemma not_digit c l : isDigitb c = false -> forallb isDigitb l = true -> c ∉ l.
Proof.
  intros Hc Hl Hin. rewrite forallb_forall in Hl. specialize (Hl c (proj1 (list_elem_of_In _ _) Hin)). congruence.
Qed.

Lemma Atoi_number ds : number ds -> Atoi ds = Some (num ds).
Proof.
  intros Hn. pose proof (num_range _ Hn) as Hr. destruct Hn as (Hne & Hd & _).
  assert (G : (if decide (byt ds = []) then None
     else if forallb isDigitb (byt ds) then
       if decide (in_int64 (digits_val (byt ds))) then Some (digits_val (byt ds)) else None
     else None) = Some (num ds)).
  { rewrite decide_False, Hd, decide_True; try done. unfold in_int64, min_int64, max_int64, num in *. lia. }
  unfold Atoi. destruct (byt ds) as [|c l] eqn:E; [done|]. cbn in Hd. apply andb_prop in Hd as [Hc _].
  destruct c as [[] [] [] [] [] [] [] []]; try discriminate Hc; exact G.
Qed.

(** ** Text without a separator *)

Lemma byt_String c s : byt (String c s) = c :: byt s.
Proof. done. Qed.

Lemma ContainsByte_elem s c : ContainsByte s c = bool_decide (c ∈ byt s).
Proof.
  unfold ContainsByte. induction (byt s) as [|d l IH]; cbn.
  - symmetry. apply bool_decide_eq_false. by intros ?%elem_of_nil.
  - rewrite IH. destruct (bool_decide_reflect (d = c)) as [->|Hne]; cbn.
    + symmetry. apply bool_decide_eq_true. left.
    + apply bool_decide_ext. rewrite elem_of_cons. naive_solver.
Qed.

Lemma number_free ds c : number ds -> isDigitb c = false -> c ∉ byt ds.
Proof. intros (_ & Hd & _) Hc. by apply not_digit. Qed.

(** ** Text without white space *)

(** The visible ASCII characters. *)
Definition graphic (c : ascii) : bool := (33 <=? N_of_ascii c)%N && (N_of_ascii c <=? 126)%N.

Lemma space_at_graphic c s : graphic c = true -> space_at (c :: s) = None.
Proof. intros H. destruct c as [[] [] [] [] [] [] [] []]; try discriminate H; reflexivity. Qed.

Lemma space_at_end_graphic c s : graphic c = true -> space_at_end (c :: s) = None.
Proof. intros H. destruct c as [[] [] [] [] [] [] [] []]; try discriminate H; reflexivity. Qed.

Lemma trim_left_stop pre n s : pre s = None -> trim_left n pre s = s.
Proof. destruct n; cbn; [done|]. by intros ->. Qed.

Lemma TrimSpace_graphic s : forallb graphic (byt s) = true -> TrimSpace s = s.
Proof.
  intros H. unfold TrimSpace, bytes_TrimSpace. destruct (byt s) as [|c l] eqn:E.
  - cbn. rewrite <- (str_byt s), E. done.
  - rewrite (trim_left_stop space_at) by (cbn in H; apply andb_prop in H as [? _]; by apply space_at_graphic).
    rewrite (trim_left_stop space_at_end); [by rewrite rev_involutive, <- E, str_byt|].
    destruct (rev (c :: l)) as [|d r] eqn:R; [by apply (f_equal length) in R; rewrite length_rev in R|].
    apply space_at_end_graphic. rewrite forallb_forall in H. apply H.
    apply in_rev. rewrite R. by left.
Qed.

Lemma fields_aux_graphic n cur s :
  forallb graphic s = true -> (length s < n)%nat -> rev cur ++ s <> [] ->
  fields_aux n cur s = [rev cur ++ s].
Proof.
  revert cur s. induction n as [|n IH]; intros cur s Hg Hn Hne; [lia|]. cbn [fields_aux].
  destruct s as [|c s].
  - rewrite decide_False; [by rewrite app_nil_r|]. intros ->. done.
  - cbn in Hg. apply andb_prop in Hg as [Hc Hg]. rewrite space_at_graphic by done.
    rewrite IH; [cbn; by rewrite <- app_assoc|done|cbn in Hn; lia|]. cbn. by destruct (rev cur).
Qed.

Lemma Fields_graphic s : s <> "" -> forallb graphic (byt s) = true -> Fields s = [s].
Proof.
  intros Hne Hg. unfold Fields. rewrite fields_aux_graphic; [cbn; by rewrite str_byt|done|by rewrite length_byt; lia|].
  cbn. intros E. apply Hne. by rewrite <- (str_byt s), E.
Qed.

Lemma digit_graphic c : isDigitb c = true -> graphic c = true.
Proof. intros H. destruct c as [[] [] [] [] [] [] [] []]; try discriminate H; reflexivity. Qed.

Lemma number_graphic ds : number ds -> forallb graphic (byt ds) = true.
Proof.
  intros (_ & Hd & _). rewrite forallb_forall in *. intros c Hc. by apply digit_graphic, Hd.
Qed.

(** ** Printing and reading decimal integers, and integers as bytes *)

Local Open Scope string_scope.
Local Open Scope list_scope.

Lemma digits_val_snoc ds c : digits_val (ds ++ [c]) = (digits_val ds * 10 + digit_val c)%Z.
Proof. unfold digits_val. by rewrite fold_left_app. Qed.

Lemma pretty_N_char_digit x : (x < 10)%N -> isDigitb (pretty_N_char x) = true /\ digit_val (pretty_N_char x) = Z.of_N x.
Proof.
  intros H. assert (Hx : x ∈ [0; 1; 2; 3; 4; 5; 6; 7; 8; 9]%N).
  { destruct (decide (x ∈ [0; 1; 2; 3; 4; 5; 6; 7; 8; 9]%N)) as [|Hn]; [done|]. exfalso.
    repeat rewrite not_elem_of_cons in Hn. lia. }
  repeat (apply elem_of_cons in Hx as [->|Hx]; [by vm_compute|]). by apply not_elem_of_nil in Hx.
Qed.

(** The digits of a number, before the text already printed. *)
Lemma pretty_N_go_digits x s :
  exists ds, byt (pretty_N_go x s) = ds ++ byt s /\ forallb isDigitb ds = true /\ digits_val ds = Z.of_N x /\ ((0 < x)%N -> ds <> []).
Proof.
  revert s. induction (N.lt_wf_0 x) as [x _ IH]. intros s. destruct (decide (0 < x)%N) as [Hx|Hx].
  - rewrite pretty_N_go_step by done.
    destruct (IH (x `div` 10)%N ltac:(apply N.div_lt; lia) (String (pretty_N_char (x `mod` 10)) s)) as (ds & E & Hd & Hv & _).
    destruct (pretty_N_char_digit (x `mod` 10)%N) as [H1 H2]; [by apply N.mod_lt|].
    exists (ds ++ [pretty_N_char (x `mod` 10)]). split; [|split; [|split]].
    + rewrite E. cbn. rewrite <- app_assoc. done.
    + rewrite forallb_app. rewrite Hd. cbn. by rewrite H1.
    + rewrite digits_val_snoc, Hv, H2. pose proof (N.div_mod x 10 ltac:(lia)). lia.
    + intros _ H. by apply app_eq_nil in H as [_ ?].
  - assert (x = 0%N) as -> by lia. exists []. rewrite pretty_N_go_0. repeat split; (done || lia).
Qed.

Lemma pretty_N_digits x :
  forallb isDigitb (byt (pretty x)) = true /\ digits_val (byt (pretty x)) = Z.of_N x /\ byt (pretty x) <> [].
Proof.
  unfold pretty, pretty_N. destruct (decide (x = 0)%N) as [->|Hx]; [by vm_compute|].
  destruct (pretty_N_go_digits x "") as (ds & E & Hd & Hv & Hne). rewrite E. change (byt "") with (@nil ascii). rewrite app_nil_r.
  repeat split; [done|done|]. apply Hne. lia.
Qed.

Lemma FormatInt_pos x : FormatInt (Zpos x) = pretty (Npos x).
Proof. done. Qed.

Lemma FormatInt_neg x : FormatInt (Zneg x) = "-" +:+ pretty (Npos x).
Proof. done. Qed.

Lemma Atoi_FormatInt z : in_int64 z -> Atoi (FormatInt z) = Some z.
Proof.
  intros Hz. destruct z as [|x|x].
  - done.
  - rewrite FormatInt_pos. destruct (pretty_N_digits (Npos x)) as (Hd & Hv & Hne).
    assert (G : (if decide (byt (pretty (Npos x)) = []) then None
      else if forallb isDigitb (byt (pretty (Npos x))) then
       if decide (in_int64 (digits_val (byt (pretty (Npos x))))) then Some (digits_val (byt (pretty (Npos x)))) else None
      else None) = Some (Zpos x)).
    { rewrite decide_False, Hd, Hv by done. by rewrite decide_True. }
    unfold Atoi. destruct (byt (pretty (Npos x))) as [|c l] eqn:E; [done|]. cbn in Hd. apply andb_prop in Hd as [Hc _].
    destruct c as [[] [] [] [] [] [] [] []]; try discriminate Hc; exact G.
  - rewrite FormatInt_neg. destruct (pretty_N_digits (Npos x)) as (Hd & Hv & Hne). unfold Atoi. rewrite byt_app.
    change (byt "-") with ["-"%char]. cbn [app]. rewrite decide_False, Hd, Hv by done. by rewrite decide_True.
Qed.

(** A printed number is made of digits and a sign. *)
Definition int_byte (c : ascii) : bool := isDigitb c || bool_decide (c = "-"%char).

Lemma FormatInt_bytes z : forallb int_byte (byt (FormatInt z)) = true.
Proof.
  assert (Hall : forall x, forallb int_byte (byt (pretty (Npos x))) = true).
  { intros x. destruct (pretty_N_digits (Npos x)) as (Hd & _). rewrite forallb_forall in *. intros c Hc.
    unfold int_byte. by rewrite (Hd c Hc). }
  destruct z as [|x|x]; [done|apply Hall|]. rewrite FormatInt_neg, byt_app, forallb_app. by rewrite Hall.
Qed.

Lemma FormatInt_without z x : int_byte x = false -> x ∉ byt (FormatInt z).
Proof.
  intros Hx Hin. pose proof (FormatInt_bytes z) as H. rewrite forallb_forall in H.
  apply list_elem_of_In, H in Hin. congruence.
Qed.

(** ** Integers as bytes, most significant first (encoding/binary) *)

Local Open Scope Z_scope.

Definition byte_of (v : Z) : ascii := ascii_of_N (Z.to_N (v mod 256)).
Definition of_byte (c : ascii) : Z := Z.of_N (N_of_ascii c).

(** The [n] low bytes of [v], most significant first. *)
Fixpoint big_endian (n : nat) (v : Z) : bytes :=
  match n with
  | O => []
  | S n => byte_of (v / 256 ^ Z.of_nat n) :: big_endian n v
  end.

Definition of_big_endian (b : bytes) : Z := fold_left (fun acc c => acc * 256 + of_byte c) b 0.

Definition PutUint32 (v : Z) : bytes := big_endian 4 v.
Definition PutUint64 (v : Z) : bytes := big_endian 8 v.
Definition Uint32 (b : bytes) : Z := of_big_endian b.
Definition Uint64 (b : bytes) : Z := of_big_endian b.

Lemma of_byte_of v : of_byte (byte_of v) = v mod 256.
Proof.
  unfold of_byte, byte_of. pose proof (Z.mod_pos_bound v 256 ltac:(lia)).
  rewrite N_ascii_embedding by lia. rewrite Z2N.id by lia. done.
Qed.

Lemma length_big_endian n v : length (big_endian n v) = n.
Proof. induction n; cbn; congruence. Qed.

Lemma big_endian_roundtrip n v acc :
  fold_left (fun acc c => acc * 256 + of_byte c) (big_endian n v) acc = acc * 256 ^ Z.of_nat n + v mod 256 ^ Z.of_nat n.
Proof.
  revert acc. induction n as [|n IH]; intros acc; cbn [big_endian fold_left].
  - cbn. rewrite Z.mod_1_r. lia.
  - rewrite IH, of_byte_of. rewrite Nat2Z.inj_succ, Z.pow_succ_r by lia.
    assert (Hp : 0 < 256 ^ Z.of_nat n) by (apply Z.pow_pos_nonneg; lia).
    rewrite (Z.mul_comm 256 (256 ^ Z.of_nat n)), Z.rem_mul_r by lia. ring.
Qed.

Lemma of_big_endian_roundtrip n v : of_big_endian (big_endian n v) = v mod 256 ^ Z.of_nat n.
Proof. unfold of_big_endian. rewrite big_endian_roundtrip. lia. Qed.

Lemma Uint32_Put v : 0 <= v < 2 ^ 32 -> Uint32 (PutUint32 v) = v.
Proof. intros H. unfold Uint32, PutUint32. rewrite of_big_endian_roundtrip. by apply Z.mod_small. Qed.

Lemma Uint64_Put v : Uint64 (PutUint64 v) = wrapu64 v.
Proof. unfold Uint64, PutUint64. rewrite of_big_endian_roundtrip. done. Qed.

Lemma wrap64_wrapu64 v : in_int64 v -> wrap64 (wrapu64 v) = v.
Proof.
  unfold in_int64, min_int64, max_int64, wrap64, wrapu64. intros H.
  rewrite Zplus_mod_idemp_l. rewrite Z.mod_small; lia.
Qed.

(** ** Hexadecimal *)

Definition hex_digit (n : N) : ascii := if (n <? 10)%N then ascii_of_N (48 + n) else ascii_of_N (87 + n).

Definition hex_bytes (b : bytes) : bytes :=
  concat ((fun c => [hex_digit (N_of_ascii c / 16); hex_digit (N_of_ascii c mod 16)]) <$> b).

(** [hex.EncodeToString], and [%x] of a byte slice. *)
Definition hex (b : bytes) : string := str (hex_bytes b).

Definition from_hex (c : ascii) : option N :=
  let n := N_of_ascii c in
  if (48 <=? n)%N && (n <=? 57)%N then Some (n - 48)%N
  else if (97 <=? n)%N && (n <=? 102)%N then Some (n - 87)%N
  else if (65 <=? n)%N && (n <=? 70)%N then Some (n - 55)%N
  else None.

(** [hex.DecodeString]; [None] for a byte that is no digit and for an odd
    number of them. *)
Fixpoint unhex (s : bytes) : option bytes :=
  match s with
  | [] => Some []
  | [_] => None
  | a :: b :: s =>
      match from_hex a, from_hex b, unhex s with
      | Some x, Some y, Some r => Some (ascii_of_N (16 * x + y) :: r)
      | _, _, _ => None
      end
  end.

Lemma from_hex_digit n : (n < 16)%N -> from_hex (hex_digit n) = Some n.
Proof.
  intros H. destruct (decide (n < 10)%N) as [Hs|Hs]; unfold hex_digit, from_hex.
  - rewrite (proj2 (N.ltb_lt _ _) Hs), N_ascii_embedding by lia.
    rewrite (proj2 (N.leb_le 48 _)), (proj2 (N.leb_le _ 57)) by lia. cbn. f_equal. lia.
  - rewrite (proj2 (N.ltb_ge n 10)), N_ascii_embedding by lia.
    rewrite (proj2 (N.leb_gt _ 57)), (proj2 (N.leb_le 97 _)), (proj2 (N.leb_le _ 102)) by lia.
    rewrite andb_false_r. cbn. f_equal. lia.
Qed.

Lemma unhex_hex b : unhex (hex_bytes b) = Some b.
Proof.
  induction b as [|c b IH]; [done|]. unfold hex_bytes in *. cbn [fmap list_fmap concat app unhex].
  assert (Hc : (N_of_ascii c < 256)%N) by apply N_ascii_bounded.
  rewrite !from_hex_digit; [|apply N.mod_lt; lia|apply N.Div0.div_lt_upper_bound; lia].
  rewrite IH, <- N.div_mod by lia. by rewrite ascii_N_embedding.
Qed.
