(* ===== verification/Lexer.v ===== *)
(** * The lexer of the Pranor language ([lang/compiler/lexer.go])

    [Lexer] is the Go struct; every method is a function from a lexer state
    to a result and the next state.  The [for] loops are [while] loops whose
    bound, one more than the length of the input, is never reached
    ([NextToken_unfold] and the loop lemmas of [LexerFacts]). *)

From S2P Require Import Prelude GoStrings Tokens.
Local Open Scope string_scope.
Local Open Scope list_scope.

(** ** State *)

Record Lexer := mkLexer {
  input : bytes;
  position : nat;      (** current position in input *)
  readPosition : nat;  (** current reading position in input *)
  ch : ascii;          (** current byte under examination *)
  line : Z;
  col : Z }.

Definition readChar (l : Lexer) : Lexer :=
  mkLexer (input l)
    (readPosition l)
    (S (readPosition l))
    (match input l !! readPosition l with
     | None => NUL
     | Some c => c
     end)
    (line l)
    (col l + 1).

Definition NewLexer (s : string) : Lexer :=
  readChar (mkLexer (byt s) 0 0 NUL 1 0).

Definition peekChar (l : Lexer) : ascii :=
  match input l !! readPosition l with
  | None => NUL
  | Some c => c
  end.

(** [if l.ch == '\n' { l.line++; l.col = 0 }] *)
Definition count_newline (l : Lexer) : Lexer :=
  if decide (ch l = nl)
  then mkLexer (input l) (position l) (readPosition l) (ch l) (line l + 1) 0
  else l.

(** [l.input[a:b]] *)
Definition slice (s : bytes) (a b : nat) : string := str (take (b - a) (drop a s)).

Definition loop (c : Lexer -> bool) (f : Lexer -> Lexer) (l : Lexer) : Lexer :=
  while (S (length (input l))) c f l.

(** ** Character classes *)

Definition isLetter (c : ascii) : bool :=
  (Ascii.leb "a" c && Ascii.leb c "z") || (Ascii.leb "A" c && Ascii.leb c "Z")
  || Ascii.eqb c "_".

Definition isDigit (c : ascii) : bool := Ascii.leb "0" c && Ascii.leb c "9".

Definition isSpaceCh (c : ascii) : bool :=
  Ascii.eqb c " " || Ascii.eqb c "009" || Ascii.eqb c "010" || Ascii.eqb c "013".

(** ** Scanning loops *)

Definition skipWhitespace (l : Lexer) : Lexer :=
  loop (fun l => isSpaceCh (ch l)) (fun l => readChar (count_newline l)) l.

Definition skipComment (l : Lexer) : Lexer :=
  let l := readChar (readChar l) in
  let l := loop (fun l => negb (Ascii.eqb (ch l) nl) && negb (Ascii.eqb (ch l) NUL))
             readChar l in
  if decide (ch l = nl) then readChar (count_newline l) else l.

Definition isIdentCh (c : ascii) : bool := isLetter c || isDigit c || Ascii.eqb c "_".

Definition readIdentifier (l : Lexer) : string * Lexer :=
  let l' := loop (fun l => isIdentCh (ch l)) readChar l in
  (slice (input l) (position l) (position l'), l').

Definition readDigits (l : Lexer) : Lexer := loop (fun l => isDigit (ch l)) readChar l.

Definition readNumberOrDurationOrFloat (l : Lexer) : string * TokenType * Lexer :=
  let start := position l in
  let l := readDigits l in
  if Ascii.eqb (ch l) "." && isDigit (peekChar l) then
    let l := readDigits (readChar l) in
    (slice (input l) start (position l), TOKEN_FLOAT, l)
  else if Ascii.eqb (ch l) "m" && Ascii.eqb (peekChar l) "s" then
    let l := readChar (readChar l) in
    (slice (input l) start (position l), TOKEN_DURATION, l)
  else if Ascii.eqb (ch l) "s" || Ascii.eqb (ch l) "m" || Ascii.eqb (ch l) "h" then
    let l := readChar l in
    (slice (input l) start (position l), TOKEN_DURATION, l)
  else (slice (input l) start (position l), TOKEN_INT, l).

(** The byte an escape sequence stands for, [None] when the backslash is
    kept. *)
Definition unescape (next : ascii) : option ascii :=
  if decide (next = quote) then Some quote
  else if decide (next = backslash) then Some backslash
  else if decide (next = "n"%char) then Some nl
  else if decide (next = "r"%char) then Some "013"%char
  else if decide (next = "t"%char) then Some "009"%char
  else None.

Definition readString_step (st : Lexer * bytes) : Lexer * bytes :=
  let '(l, buf) := st in
  let plain := (readChar (count_newline l), buf ++ [ch l]) in
  if decide (ch l = backslash) then
    match unescape (peekChar l) with
    | Some c => (readChar (readChar l), buf ++ [c])
    | None => plain
    end
  else plain.

Definition readString (l : Lexer) : string * Lexer :=
  let l := readChar l in
  let '(l, buf) :=
    while (S (length (input l)))
      (fun st => negb (Ascii.eqb (ch st.1) quote) && negb (Ascii.eqb (ch st.1) NUL))
      readString_step (l, []) in
  let l := if decide (ch l = quote) then readChar l else l in
  (str buf, l).

(** ** Raw strings *)

Definition isBlankCh (c : ascii) : bool := Ascii.eqb c " " || Ascii.eqb c "009".

Definition isBlankLine (s : string) : bool :=
  bool_decide (String.length (TrimSpace s) = 0).

Fixpoint common_bytes (a b : bytes) : bytes :=
  match a, b with
  | x :: a', y :: b' => if decide (x = y) then x :: common_bytes a' b' else []
  | _, _ => []
  end.

(** One iteration of the first loop of [dedent] on a line. *)
Definition dedent_prefix (acc : option bytes) (line : string) : option bytes :=
  if isBlankLine line then acc
  else
    let leading := take_while isBlankCh (byt line) in
    match acc with
    | None => Some leading
    | Some p => Some (common_bytes p leading)
    end.

(** One iteration of the second loop of [dedent]. *)
Definition dedent_line (prefix : string) (line : string) : string :=
  if HasPrefix line prefix then TrimPrefix line prefix
  else str (drop_while isBlankCh (byt line)).

Definition dedent (s : string) : string :=
  let lines := Split s nl in
  if bool_decide (length lines <= 1) then s
  else match fold_left dedent_prefix lines None with
       | None => s
       | Some [] => s
       | Some p => Join (map (dedent_line (str p)) lines) (String nl "")
       end.

Definition readRawString (l : Lexer) : string * Lexer :=
  let l := readChar l in
  let '(l, buf) :=
    while (S (length (input l)))
      (fun st => negb (Ascii.eqb (ch st.1) "`") && negb (Ascii.eqb (ch st.1) NUL))
      (fun st => (readChar (count_newline st.1), st.2 ++ [ch st.1])) (l, []) in
  let l := if decide (ch l = "`"%char) then readChar l else l in
  (dedent (str buf), l).

(** ** NextToken *)

Definition tok_at (l : Lexer) (t : TokenType) (lit : string) : Token :=
  mkToken t lit (line l) (col l).

(** A one-byte token: the switch falls through to the final [readChar]. *)
Definition emit1 (l : Lexer) (t : TokenType) : Token * Lexer :=
  (tok_at l t (string_of_byte (ch l)), readChar l).

(** A two-byte token: two [readChar] and a return. *)
Definition emit2 (l : Lexer) (t : TokenType) (lit : string) : Token * Lexer :=
  (tok_at l t lit, readChar (readChar l)).

(** Cases ['+'] to ['%'] of the switch, comments apart. *)
Definition lex_arith (l : Lexer) : option (Token * Lexer) :=
  match ch l with
  | "+"%char => Some (if Ascii.eqb (peekChar l) "=" then emit2 l TOKEN_PLUS_ASSIGN "+="
                      else emit1 l TOKEN_PLUS)
  | "-"%char => Some (if Ascii.eqb (peekChar l) ">" then emit2 l TOKEN_RET_ARROW "->"
                      else if Ascii.eqb (peekChar l) "=" then emit2 l TOKEN_MINUS_ASSIGN "-="
                      else emit1 l TOKEN_MINUS)
  | "="%char => Some (if Ascii.eqb (peekChar l) ">" then emit2 l TOKEN_ARROW "=>"
                      else if Ascii.eqb (peekChar l) "=" then emit2 l TOKEN_EQ "=="
                      else emit1 l TOKEN_ASSIGN)
  | "*"%char => Some (if Ascii.eqb (peekChar l) "=" then emit2 l TOKEN_ASTERISK_ASSIGN "*="
                      else emit1 l TOKEN_ASTERISK)
  | "/"%char => Some (if Ascii.eqb (peekChar l) "=" then emit2 l TOKEN_SLASH_ASSIGN "/="
                      else emit1 l TOKEN_SLASH)
  | "%"%char => Some (if Ascii.eqb (peekChar l) "=" then emit2 l TOKEN_PERCENT_ASSIGN "%="
                      else emit1 l TOKEN_PERCENT)
  | _ => None
  end.

(** Cases ['&'] to [']'] of the switch. *)
Definition lex_punct (l : Lexer) : option (Token * Lexer) :=
  match ch l with
  | "&"%char => Some (if Ascii.eqb (peekChar l) "&" then emit2 l TOKEN_AND "&&"
                      else emit1 l TOKEN_AMPERSAND)
  | "|"%char => Some (if Ascii.eqb (peekChar l) ">" then emit2 l TOKEN_PIPE_ARROW "|>"
                      else if Ascii.eqb (peekChar l) "|" then emit2 l TOKEN_OR "||"
                      else emit1 l TOKEN_PIPE)
  | "^"%char => Some (emit1 l TOKEN_CARET)
  | ","%char => Some (emit1 l TOKEN_COMMA)
  | "."%char =>
      Some (if Ascii.eqb (peekChar l) "."
               && bool_decide (readPosition l < length (input l))
               && bool_decide (input l !! readPosition l = Some "."%char)
            then (tok_at l TOKEN_SPREAD "...", readChar (readChar (readChar l)))
            else emit1 l TOKEN_DOT)
  | "?"%char => Some (if Ascii.eqb (peekChar l) "." then emit2 l TOKEN_QUESTION_DOT "?."
                      else emit1 l TOKEN_QUESTION)
  | ":"%char => Some (emit1 l TOKEN_COLON)
  | "@"%char => Some (emit1 l TOKEN_MACRO)
  | "("%char => Some (emit1 l TOKEN_LPAREN)
  | ")"%char => Some (emit1 l TOKEN_RPAREN)
  | "{"%char => Some (emit1 l TOKEN_LBRACE)
  | "}"%char => Some (emit1 l TOKEN_RBRACE)
  | "["%char => Some (emit1 l TOKEN_LBRACKET)
  | "]"%char => Some (emit1 l TOKEN_RBRACKET)
  | _ => None
  end.

Definition lex_ident (l : Lexer) : Token * Lexer :=
  let '(lit, l') := readIdentifier l in (tok_at l (lookupIdent lit) lit, l').

(** The default case of the switch. *)
Definition lex_default (l : Lexer) : Token * Lexer :=
  if isLetter (ch l) then lex_ident l
  else if isDigit (ch l) then
    let '(lit, t, l') := readNumberOrDurationOrFloat l in (tok_at l t lit, l')
  else match ch l with
  | "!"%char => if Ascii.eqb (peekChar l) "=" then emit2 l TOKEN_NEQ "!="
                else emit1 l TOKEN_BANG
  | "<"%char => if Ascii.eqb (peekChar l) "=" then emit2 l TOKEN_LTE "<="
                else if Ascii.eqb (peekChar l) "<" then emit2 l TOKEN_SHIFT_LEFT "<<"
                else emit1 l TOKEN_LT
  | ">"%char => if Ascii.eqb (peekChar l) "=" then emit2 l TOKEN_GTE ">="
                else if Ascii.eqb (peekChar l) ">" then emit2 l TOKEN_SHIFT_RIGHT ">>"
                else emit1 l TOKEN_GT
  | _ => emit1 l TOKEN_ILLEGAL
  end.

Definition with_string (l : Lexer) (t : TokenType) (r : string * Lexer) : Token * Lexer :=
  (tok_at l t r.1, r.2).

(** The switch of [NextToken] after white space, comments apart. *)
Definition lex_token (l : Lexer) : Token * Lexer :=
  match lex_arith l with
  | Some r => r
  | None =>
  match lex_punct l with
  | Some r => r
  | None =>
    if decide (ch l = "f"%char) then
      if decide (peekChar l = quote) then with_string l TOKEN_FSTRING (readString (readChar l))
      else if decide (peekChar l = "`"%char)
           then with_string l TOKEN_FSTRING (readRawString (readChar l))
      else lex_ident l
    else if decide (ch l = "`"%char) then with_string l TOKEN_STRING (readRawString l)
    else if decide (ch l = quote) then with_string l TOKEN_STRING (readString l)
    else if decide (ch l = NUL) then (tok_at l TOKEN_EOF "", readChar l)
    else lex_default l
  end end.

(** One call of [NextToken], its recursive call (after a comment) as a
    parameter. *)
Definition NextToken_body (rec : Lexer -> Token * Lexer) (l : Lexer) : Token * Lexer :=
  let l := skipWhitespace l in
  if decide (ch l = "/"%char /\ peekChar l = "/"%char) then rec (skipComment l)
  else lex_token l.

Fixpoint NextToken_fuel (n : nat) (l : Lexer) : Token * Lexer :=
  match n with
  | O => (tok_at l TOKEN_EOF "", l)
  | S n => NextToken_body (NextToken_fuel n) l
  end.

Definition NextToken (l : Lexer) : Token * Lexer :=
  NextToken_fuel (S (length (input l))) l.

(** The stream of tokens a client that stops at [TOKEN_EOF] reads, at most
    [n] of them. *)
Fixpoint tokens (n : nat) (l : Lexer) : list Token :=
  match n with
  | O => []
  | S n =>
      let '(t, l') := NextToken l in
      if decide (Type_ t = TOKEN_EOF) then [t] else t :: tokens n l'
  end.

Definition lex (s : string) : list Token := tokens (S (String.length s)) (NewLexer s).
