(* ===== verification/LexerFacts.v ===== *)
(** * Scanning lemmas of the lexer

    What each scanning routine of [Lexer] consumes, as statements about the
    unread part of the input: shared by the theorems of [LexerProps]. *)

From S2P Require Import Prelude GoStrings Tokens Lexer.
Local Open Scope string_scope.
Local Open Scope list_scope.

(** ** Well-formed states

    The invariant of the struct: the reading position is one ahead and [ch]
    is the byte at the current position, 0 past the end. *)

Definition wf (l : Lexer) : Prop :=
  readPosition l = S (position l) /\
  ch l = default NUL (input l !! position l).

(** The unread input. *)
Definition rest (l : Lexer) : bytes := drop (position l) (input l).

Lemma wf_NewLexer s : wf (NewLexer s).
Proof. split; [done|]. unfold NewLexer, readChar. cbn. by destruct (byt s). Qed.

Lemma rest_NewLexer s : rest (NewLexer s) = byt s.
Proof. done. Qed.

Lemma wf_readChar l : wf l -> wf (readChar l).
Proof. intros [_ _]. split; [done|]. unfold readChar. cbn. by destruct (_ !! _). Qed.

Lemma wf_count_newline l : wf l -> wf (count_newline l).
Proof. unfold count_newline. case_decide; done. Qed.

#[export] Hint Resolve wf_NewLexer wf_readChar wf_count_newline : go.

Lemma hd_drop (s : bytes) n : hd NUL (drop n s) = default NUL (s !! n).
Proof. revert n. induction s as [|c s IH]; intros [|n]; cbn; auto. Qed.

Lemma tail_drop (s : bytes) n : tail (drop n s) = drop (S n) s.
Proof. revert n. induction s as [|c s IH]; intros [|n]; cbn; auto. Qed.

Lemma ch_rest l : wf l -> ch l = hd NUL (rest l).
Proof. intros [_ ->]. unfold rest. by rewrite hd_drop. Qed.

Lemma peek_rest l : wf l -> peekChar l = hd NUL (tail (rest l)).
Proof.
  intros [H _]. unfold peekChar, rest. rewrite H, tail_drop, hd_drop.
  by destruct (_ !! _).
Qed.

Lemma rest_readChar l : wf l -> rest (readChar l) = tail (rest l).
Proof. intros [H _]. unfold rest. cbn. by rewrite tail_drop, H. Qed.

Lemma rest_count_newline l : rest (count_newline l) = rest l.
Proof. unfold count_newline, rest. by case_decide. Qed.

Lemma input_count_newline l : input (count_newline l) = input l.
Proof. unfold count_newline. by case_decide. Qed.

Lemma rest_length l : length (rest l) <= length (input l).
Proof. unfold rest. rewrite length_drop. lia. Qed.

(** ** Consuming input

    [consumes l w l']: [l'] is [l] after reading the bytes [w]. *)

Definition consumes (l : Lexer) (w : bytes) (l' : Lexer) : Prop :=
  wf l' /\ input l' = input l /\ rest l = w ++ rest l' /\
  position l' = position l + length w.

(** Source positions: the line and column after a byte. *)
Definition lc_step (p : Z * Z) (c : ascii) : Z * Z :=
  if decide (c = nl) then (p.1 + 1, 1)%Z else (p.1, p.2 + 1)%Z.

Definition lc (l : Lexer) : Z * Z := (line l, col l).

(** [advances l w l']: [consumes], and the line and column counters followed
    the bytes read. *)
Definition advances (l : Lexer) (w : bytes) (l' : Lexer) : Prop :=
  consumes l w l' /\ lc l' = fold_left lc_step w (lc l).

Lemma advances_consumes l w l' : advances l w l' -> consumes l w l'.
Proof. by intros [H _]. Qed.

Lemma consumes_refl l : wf l -> consumes l [] l.
Proof. intros H. repeat split; try apply H; cbn; lia. Qed.

Lemma advances_refl l : wf l -> advances l [] l.
Proof. intros H. split; [by apply consumes_refl | done]. Qed.

Lemma consumes_trans l1 w1 l2 w2 l3 :
  consumes l1 w1 l2 -> consumes l2 w2 l3 -> consumes l1 (w1 ++ w2) l3.
Proof.
  intros (? & Hi & Hr & Hp) (? & Hi' & Hr' & Hp'). split; [done|]. split; [congruence|]. split.
  - by rewrite Hr, Hr', app_assoc.
  - rewrite length_app. lia.
Qed.

Lemma advances_trans l1 w1 l2 w2 l3 :
  advances l1 w1 l2 -> advances l2 w2 l3 -> advances l1 (w1 ++ w2) l3.
Proof.
  intros [H1 E1] [H2 E2]. split; [by eapply consumes_trans|].
  by rewrite E2, E1, fold_left_app.
Qed.

Lemma consumes_wf l w l' : consumes l w l' -> wf l'.
Proof. by intros [H _]. Qed.

Lemma advances_wf l w l' : advances l w l' -> wf l'.
Proof. by intros [[H _] _]. Qed.

Lemma consumes_rest l w l' : consumes l w l' -> rest l = w ++ rest l'.
Proof. by intros (_ & _ & H & _). Qed.

Lemma advances_rest l w l' : advances l w l' -> rest l = w ++ rest l'.
Proof. by intros [(_ & _ & H & _) _]. Qed.

Lemma advances_rest_eq l w l' r :
  advances l w l' -> rest l = w ++ r -> rest l' = r.
Proof. intros H E. apply advances_rest in H. rewrite E in H. by apply app_inv_head in H. Qed.

Lemma consumes_slice l w l' :
  consumes l w l' -> slice (input l) (position l) (position l') = str w.
Proof.
  intros (_ & _ & Hr & Hp). unfold slice. f_equal. rewrite Hp, Nat.add_comm, Nat.add_sub.
  fold (rest l). rewrite Hr. apply take_app_length.
Qed.

#[export] Hint Resolve advances_consumes consumes_refl advances_refl consumes_wf advances_wf : go.

(** *** Single bytes *)

Lemma readChar_consumes l c r :
  wf l -> rest l = c :: r -> consumes l [c] (readChar l).
Proof.
  intros Hw Hr. split; [by apply wf_readChar|]. split; [done|]. split.
  - rewrite rest_readChar by done. by rewrite Hr.
  - cbn. destruct Hw as [-> _]. lia.
Qed.

Lemma readChar_advances l c r :
  wf l -> rest l = c :: r -> c <> nl -> advances l [c] (readChar l).
Proof.
  intros Hw Hr Hc. split; [by eapply readChar_consumes|].
  cbn. unfold lc_step. by rewrite decide_False.
Qed.

Lemma count_readChar_advances l c r :
  wf l -> rest l = c :: r -> advances l [c] (readChar (count_newline l)).
Proof.
  intros Hw Hr. assert (Hc : ch l = c) by (rewrite ch_rest, Hr by done; done).
  split.
  - unfold count_newline. case_decide; by eapply readChar_consumes in Hr.
  - unfold count_newline, lc. cbn. unfold lc_step. rewrite <- Hc.
    case_decide; by destruct l.
Qed.

Lemma readChar2_advances l c d r :
  wf l -> rest l = c :: d :: r -> c <> nl -> d <> nl ->
  advances l [c; d] (readChar (readChar l)).
Proof.
  intros Hw Hr Hc Hd. change [c; d] with ([c] ++ [d]).
  eapply advances_trans; [by eapply readChar_advances|].
  eapply readChar_advances; auto with go. by rewrite rest_readChar, Hr.
Qed.

(** *** Loops *)

Section Loops.
Context (p : ascii -> bool) (f : Lexer -> Lexer).
Hypothesis p_NUL : p NUL = false.

Lemma loop_advances_fuel n l :
  (forall l c r, wf l -> rest l = c :: r -> p c = true -> advances l [c] (f l)) ->
  wf l -> length (rest l) < n ->
  advances l (take_while p (rest l)) (while n (fun l => p (ch l)) f l).
Proof using p_NUL.
  intros Hf. revert l. induction n as [|n IH]; intros l Hw Hn; [lia|]. cbn.
  rewrite ch_rest by done. destruct (rest l) as [|c r] eqn:Hr; cbn.
  - rewrite p_NUL. auto with go.
  - destruct (p c) eqn:Hc; [|auto with go].
    pose proof (Hf l c r Hw Hr Hc) as Hadv.
    assert (Hr' : rest (f l) = r) by (eapply advances_rest_eq; eauto).
    change (c :: take_while p r) with ([c] ++ take_while p r).
    eapply advances_trans; [done|]. rewrite <- Hr'.
    apply IH; [eauto with go|]. rewrite Hr'. cbn in Hn. lia.
Qed.

Lemma loop_advances l :
  (forall l c r, wf l -> rest l = c :: r -> p c = true -> advances l [c] (f l)) ->
  wf l -> advances l (take_while p (rest l)) (loop (fun l => p (ch l)) f l).
Proof using p_NUL.
  intros Hf Hw. apply loop_advances_fuel; try done.
  pose proof (rest_length l). lia.
Qed.
End Loops.

Lemma skipWhitespace_advances l :
  wf l -> advances l (take_while isSpaceCh (rest l)) (skipWhitespace l).
Proof.
  intros Hw. apply loop_advances; try done.
  intros l' c r Hw' Hr _. by eapply count_readChar_advances.
Qed.

Lemma isIdentCh_not_nl c : isIdentCh c = true -> c <> nl.
Proof. by intros H ->. Qed.

Lemma isDigit_not_nl c : isDigit c = true -> c <> nl.
Proof. by intros H ->. Qed.

Lemma readIdentifier_spec l :
  wf l ->
  let w := take_while isIdentCh (rest l) in
  exists l', readIdentifier l = (str w, l') /\ advances l w l'.
Proof.
  intros Hw w. unfold readIdentifier.
  assert (Hadv : advances l w (loop (fun l => isIdentCh (ch l)) readChar l)).
  { apply loop_advances; try done. intros l' c r ? Hr Hc.
    eapply readChar_advances; eauto using isIdentCh_not_nl. }
  eexists. split; [|exact Hadv]. f_equal.
  by apply consumes_slice, advances_consumes.
Qed.

Lemma readDigits_advances l :
  wf l -> advances l (take_while isDigit (rest l)) (readDigits l).
Proof.
  intros Hw. apply loop_advances; try done. intros l' c r ? Hr Hc.
  eapply readChar_advances; eauto using isDigit_not_nl.
Qed.

(** *** Non-empty rests *)

Lemma ch_nonnull_rest l : wf l -> ch l <> NUL -> rest l = ch l :: tail (rest l).
Proof. intros Hw. rewrite ch_rest by done. by destruct (rest l). Qed.

Lemma ch_eq_rest l c : wf l -> ch l = c -> c <> NUL -> rest l = c :: tail (rest l).
Proof. intros Hw <- Hc. by apply ch_nonnull_rest. Qed.

Lemma peek_eq_rest l c d :
  wf l -> ch l = c -> c <> NUL -> peekChar l = d -> d <> NUL ->
  rest l = c :: d :: tail (tail (rest l)).
Proof.
  intros Hw Hc Hc0 Hd Hd0. rewrite peek_rest in Hd by done.
  rewrite (ch_eq_rest l c) in * by done. cbn in *.
  destruct (tail (rest l)) as [|x r]; cbn in *; congruence.
Qed.

(** *** Numbers *)

Definition number_type (t : TokenType) : Prop :=
  t = TOKEN_INT \/ t = TOKEN_FLOAT \/ t = TOKEN_DURATION.

Lemma readNumber_spec l :
  wf l -> isDigit (ch l) = true ->
  exists w t l', readNumberOrDurationOrFloat l = (str w, t, l') /\
    w <> [] /\ number_type t /\ advances l w l'.
Proof.
  intros Hw Hd. unfold readNumberOrDurationOrFloat.
  pose proof (readDigits_advances l Hw) as Hadv.
  assert (Hne : take_while isDigit (rest l) <> []).
  { rewrite (ch_nonnull_rest l) by (done || by intros E; rewrite E in Hd). cbn. by rewrite Hd. }
  set (w := take_while isDigit (rest l)) in *. set (l1 := readDigits l) in *.
  assert (Hw1 : wf l1) by eauto with go.
  assert (Hin : forall w' l', advances l w' l' ->
    slice (input l') (position l) (position l') = str w').
  { intros w' l' Ha. destruct Ha as [Hc _]. destruct (Hc) as (_ & -> & _).
    by apply consumes_slice. }
  destruct (Ascii.eqb (ch l1) "." && isDigit (peekChar l1)) eqn:C1.
  { apply andb_prop in C1 as [E1%Ascii.eqb_eq _].
    pose proof (ch_eq_rest l1 _ Hw1 E1 ltac:(done)) as Hr.
    assert (Ha : advances l (w ++ ["."%char] ++ take_while isDigit (rest (readChar l1)))
                   (readDigits (readChar l1))).
    { eapply advances_trans; [done|]. eapply advances_trans.
      - by eapply readChar_advances.
      - apply readDigits_advances. auto with go. }
    rewrite (Hin _ _ Ha). eexists _, _, _. split; [done|]. split; [by destruct w|].
    split; [right; by left | done]. }
  destruct (Ascii.eqb (ch l1) "m" && Ascii.eqb (peekChar l1) "s") eqn:C2.
  { apply andb_prop in C2 as [E2%Ascii.eqb_eq E2'%Ascii.eqb_eq].
    pose proof (peek_eq_rest l1 _ _ Hw1 E2 ltac:(done) E2' ltac:(done)) as Hr.
    assert (Ha : advances l (w ++ ["m"; "s"]%char) (readChar (readChar l1))).
    { eapply advances_trans; [done|]. by eapply readChar2_advances. }
    rewrite (Hin _ _ Ha). eexists _, _, _. split; [done|]. split; [by destruct w|].
    split; [right; by right | done]. }
  destruct (Ascii.eqb (ch l1) "s" || _ || _) eqn:C3.
  { assert (ch l1 <> NUL /\ ch l1 <> nl) as [Hn1 Hn2]
      by (split; intros E; rewrite E in C3; discriminate).
    pose proof (ch_nonnull_rest l1 Hw1 Hn1) as Hr.
    assert (Ha : advances l (w ++ [ch l1]) (readChar l1)).
    { eapply advances_trans; [done|]. by eapply readChar_advances. }
    rewrite (Hin _ _ Ha). eexists _, _, _. split; [done|]. split; [by destruct w|].
    split; [right; by right | done]. }
  rewrite (Hin _ _ Hadv). eexists _, _, _. split; [done|]. split; [done|].
  split; [by left | done].
Qed.

(** *** String literals *)

Lemma unescape_not_NUL c d : unescape c = Some d -> c <> NUL /\ c <> nl.
Proof.
  intros H. split; intros ->; vm_compute in H; discriminate.
Qed.

(** One round of the loop of [readString] reads one or two bytes. *)
Lemma readString_step_advances l buf :
  wf l -> ch l <> NUL ->
  exists w c, w <> [] /\ (readString_step (l, buf)).2 = buf ++ [c] /\
    advances l w (readString_step (l, buf)).1.
Proof.
  intros Hw Hn. pose proof (ch_nonnull_rest l Hw Hn) as Hr. unfold readString_step.
  destruct (decide (ch l = backslash)) as [Hb|Hb].
  - destruct (unescape (peekChar l)) as [c|] eqn:Hu.
    + destruct (unescape_not_NUL _ _ Hu) as [Hp1 Hp2].
      exists [backslash; peekChar l], c. split; [done|]. split; [done|]. cbn.
      eapply readChar2_advances; [done | | done | done].
      by apply peek_eq_rest.
    + exists [ch l], (ch l). split; [done|]. split; [done|].
      by eapply count_readChar_advances.
  - exists [ch l], (ch l). split; [done|]. split; [done|].
    by eapply count_readChar_advances.
Qed.

Definition string_cond (st : Lexer * bytes) : bool :=
  negb (Ascii.eqb (ch st.1) quote) && negb (Ascii.eqb (ch st.1) NUL).

Lemma string_cond_true st : string_cond st = true -> ch st.1 <> quote /\ ch st.1 <> NUL.
Proof.
  unfold string_cond. intros H. boolify. by rewrite !Ascii.eqb_neq in *.
Qed.

Lemma readString_loop n l buf :
  wf l -> length (rest l) < n ->
  let r := while n string_cond readString_step (l, buf) in
  string_cond r = false /\ exists w, advances l w r.1.
Proof.
  revert l buf. induction n as [|n IH]; intros l buf Hw Hn; [lia|].
  cbn zeta. cbn [while]. destruct (string_cond (l, buf)) eqn:Hc.
  - apply string_cond_true in Hc as [_ Hc]. cbn in Hc.
    destruct (readString_step_advances l buf Hw Hc) as (w & c & Hw0 & _ & Ha).
    destruct (readString_step (l, buf)) as [l' buf']. cbn in Ha.
    destruct (IH l' buf') as [H1 [w' H2]]; [eauto with go | |].
    + apply advances_rest in Ha. rewrite Ha, length_app in Hn. destruct w; [done|].
      cbn in Hn. lia.
    + split; [done|]. exists (w ++ w'). by eapply advances_trans.
  - split; [done|]. exists []. auto with go.
Qed.

Lemma close_advances l c :
  wf l -> c <> nl -> c <> NUL ->
  exists w, advances l w (if decide (ch l = c) then readChar l else l).
Proof.
  intros Hw Hnl Hn. case_decide as Hc.
  - exists [c]. eapply readChar_advances; [done | | done]. by eapply ch_eq_rest.
  - exists []. auto with go.
Qed.

Lemma readString_spec l r :
  wf l -> rest l = quote :: r ->
  exists s w l', readString l = (s, l') /\ w <> [] /\ advances l w l'.
Proof.
  intros Hw Hr. unfold readString. fold string_cond.
  pose proof (readChar_advances l quote r Hw Hr ltac:(done)) as H0.
  set (l1 := readChar l) in *.
  destruct (readString_loop (S (length (input l1))) l1 []) as [_ [w Ha]];
    [eauto with go | pose proof (rest_length l1); lia |].
  destruct (while _ _ _ _) as [l2 buf]. cbn in Ha.
  destruct (close_advances l2 quote) as [w' Ha']; [eauto with go | done | done |].
  eexists _, ([quote] ++ (w ++ w')), _. split; [done|]. split; [done|].
  eapply advances_trans; [done|]. by eapply advances_trans.
Qed.

Definition raw_cond (st : Lexer * bytes) : bool :=
  negb (Ascii.eqb (ch st.1) "`") && negb (Ascii.eqb (ch st.1) NUL).

Definition raw_step (st : Lexer * bytes) : Lexer * bytes :=
  (readChar (count_newline st.1), st.2 ++ [ch st.1]).

Definition not_raw_end (c : ascii) : bool := negb (Ascii.eqb c "`") && negb (Ascii.eqb c NUL).

(** The loop of [readRawString] reads up to the closing backtick. *)
Lemma readRaw_loop n l buf :
  wf l -> length (rest l) < n ->
  exists l', while n raw_cond raw_step (l, buf)
    = (l', buf ++ take_while not_raw_end (rest l)) /\
  advances l (take_while not_raw_end (rest l)) l'.
Proof.
  revert l buf. induction n as [|n IH]; intros l buf Hw Hn; [lia|].
  cbn [while]. unfold raw_cond. cbn [fst]. rewrite ch_rest by done.
  destruct (rest l) as [|c r] eqn:Hr.
  - exists l. cbn. rewrite app_nil_r. auto with go.
  - cbn [hd take_while]. change (negb (Ascii.eqb c "`") && negb (Ascii.eqb c NUL))
      with (not_raw_end c).
    destruct (not_raw_end c) eqn:Hc.
    + pose proof (count_readChar_advances l c r Hw Hr) as Ha.
      unfold raw_step at 2. cbn [fst snd].
      destruct (IH (readChar (count_newline l)) (buf ++ [ch l])) as (l' & E & Ha').
      * auto with go.
      * rewrite (advances_rest_eq l [c] _ r) by done. cbn in Hn. lia.
      * exists l'. unfold raw_cond in E. rewrite E.
        rewrite (advances_rest_eq l [c] _ r) by done.
        rewrite (advances_rest_eq l [c] _ r) in Ha' by done.
        rewrite ch_rest, Hr by done. cbn. split; [by rewrite <- app_assoc|].
        change (c :: take_while not_raw_end r) with ([c] ++ take_while not_raw_end r).
        by eapply advances_trans.
    + exists l. rewrite app_nil_r. auto with go.
Qed.

Lemma readRawString_spec l r :
  wf l -> rest l = "`"%char :: r ->
  exists s w l', readRawString l = (s, l') /\ w <> [] /\ advances l w l'.
Proof.
  intros Hw Hr. unfold readRawString. fold raw_cond raw_step.
  pose proof (readChar_advances l "`"%char r Hw Hr ltac:(done)) as H0.
  set (l1 := readChar l) in *.
  destruct (readRaw_loop (S (length (input l1))) l1 []) as (l2 & E & Ha);
    [eauto with go | pose proof (rest_length l1); lia |].
  change (while _ _ _ _) with (while (S (length (input l1))) raw_cond raw_step (l1, [])).
  rewrite E.
  destruct (close_advances l2 "`"%char) as [w' Ha']; [eauto with go | done | done |].
  eexists _, ([_] ++ (_ ++ w')), _. split; [done|]. split; [done|].
  eapply advances_trans; [done|]. by eapply advances_trans.
Qed.

(** *** Comments *)

Lemma skipComment_advances l r :
  wf l -> rest l = "/"%char :: "/"%char :: r ->
  exists w, w <> [] /\ advances l w (skipComment l).
Proof.
  intros Hw Hr. unfold skipComment.
  pose proof (readChar2_advances l _ _ r Hw Hr ltac:(done) ltac:(done)) as H0.
  set (l1 := readChar (readChar l)) in *.
  set (p := fun c => negb (Ascii.eqb c nl) && negb (Ascii.eqb c NUL)).
  assert (H1 : advances l1 (take_while p (rest l1)) (loop (fun l => p (ch l)) readChar l1)).
  { apply loop_advances; [done | | eauto with go]. intros l' c r' ? Hr' Hc.
    eapply readChar_advances; eauto. intros ->. discriminate. }
  change (loop (fun l => negb (Ascii.eqb (ch l) nl) && negb (Ascii.eqb (ch l) NUL)) readChar l1)
    with (loop (fun l => p (ch l)) readChar l1).
  set (l2 := loop _ _ _) in *.
  case_decide as Hc.
  - eexists (["/"; "/"]%char ++ (_ ++ [nl])). split; [done|].
    eapply advances_trans; [done|]. eapply advances_trans; [done|].
    eapply count_readChar_advances; [eauto with go|].
    apply ch_eq_rest; [eauto with go | done | done].
  - eexists (["/"; "/"]%char ++ _). split; [done|]. by eapply advances_trans.
Qed.

(** ** One token *)

(** Tokens whose literal is the source text itself. *)
Definition verbatim (t : TokenType) : Prop :=
  t <> TOKEN_STRING /\ t <> TOKEN_FSTRING /\ t <> TOKEN_ILLEGAL /\
  t <> TOKEN_SPREAD /\ t <> TOKEN_EOF.

(** [reads l w l']: [w] was read, the position and the counters apart. *)
Definition reads (l : Lexer) (w : bytes) (l' : Lexer) : Prop :=
  wf l' /\ input l' = input l /\ rest l = w ++ rest l'.

Lemma consumes_reads l w l' : consumes l w l' -> reads l w l'.
Proof. by intros (? & ? & ? & _). Qed.

(** What a call that found a token at [l] returns: the position of [l], some
    input read, position and counters exact unless the token is a spread. *)
Definition token_spec (l : Lexer) (r : Token * Lexer) : Prop :=
  exists w, w <> [] /\ Line r.1 = line l /\ Col r.1 = col l /\
    reads l w r.2 /\
    (Type_ r.1 <> TOKEN_SPREAD -> advances l w r.2) /\
    (verbatim (Type_ r.1) -> Literal r.1 = str w) /\
    Type_ r.1 <> TOKEN_EOF.

Lemma token_spec_intro l w t lit l' :
  w <> [] -> advances l w l' -> t <> TOKEN_EOF -> (verbatim t -> lit = str w) ->
  token_spec l (tok_at l t lit, l').
Proof.
  intros. exists w. repeat split; cbn; auto; try apply H0.
Qed.

Lemma emit1_spec l t :
  wf l -> ch l <> NUL -> ch l <> nl -> t <> TOKEN_EOF ->
  (N_of_ascii (ch l) < 128)%N \/ t = TOKEN_ILLEGAL ->
  token_spec l (emit1 l t).
Proof.
  intros Hw Hn Hnl Ht Hlit. apply token_spec_intro with [ch l]; [done | | done |].
  - eapply readChar_advances; [done | | done]. by apply ch_nonnull_rest.
  - intros Hv. destruct Hlit as [Hlit | ->]; [|by destruct Hv as (_ & _ & [] & _)].
    unfold string_of_byte. apply N.ltb_lt in Hlit. by rewrite Hlit.
Qed.

Lemma emit2_spec l t c d :
  wf l -> ch l = c -> peekChar l = d -> c <> NUL -> d <> NUL -> c <> nl -> d <> nl ->
  t <> TOKEN_EOF -> token_spec l (emit2 l t (str [c; d])).
Proof.
  intros Hw Hc Hd ? ? ? ? Ht. apply token_spec_intro with [c; d]; [done | | done | done].
  eapply readChar2_advances; [done | | done | done]. by apply peek_eq_rest.
Qed.

Lemma lex_ident_spec l : wf l -> isLetter (ch l) = true -> token_spec l (lex_ident l).
Proof.
  intros Hw Hl. unfold lex_ident.
  destruct (readIdentifier_spec l Hw) as (l' & -> & Ha).
  assert (Hch : ch l <> NUL) by (intros E; by rewrite E in Hl).
  rewrite (ch_nonnull_rest l Hw Hch) in *. cbn [take_while] in *.
  assert (Hi : isIdentCh (ch l) = true) by (unfold isIdentCh; by rewrite Hl).
  rewrite Hi in *.
  eapply token_spec_intro; [| exact Ha | | done]; [done|].
  unfold lookupIdent. destruct (keywords !! _) as [t|] eqn:Hk; [|done].
  apply keywords_lookup in Hk. apply list_elem_of_In in Hk. cbn in Hk.
  intros ->. repeat (destruct Hk as [Hk|Hk]; [discriminate|]). done.
Qed.

Lemma with_string_spec l t r :
  t = TOKEN_STRING \/ t = TOKEN_FSTRING ->
  (exists s w l', r = (s, l') /\ w <> [] /\ advances l w l') ->
  token_spec l (with_string l t r).
Proof.
  intros Ht (s & w & l' & -> & Hw & Ha). apply token_spec_intro with w; try done.
  - by destruct Ht as [-> | ->].
  - intros (H1 & H2 & _). by destruct Ht.
Qed.

Ltac ascii_cases c := destruct c as [[] [] [] [] [] [] [] []].

Ltac emit_tac :=
  match goal with
  | |- token_spec _ (if Ascii.eqb ?a ?b then _ else _) =>
      let E := fresh "E" in
      destruct (Ascii.eqb a b) eqn:E; [apply Ascii.eqb_eq in E | clear E]; emit_tac
  | Hc : ch ?l = _ |- token_spec ?l (emit1 ?l _) =>
      apply emit1_spec; rewrite ?Hc; try done; by left
  | Hc : ch ?l = ?c |- token_spec ?l (emit2 ?l _ _) =>
      by (eapply emit2_spec; eauto)
  end.

Lemma lex_arith_spec l r : wf l -> lex_arith l = Some r -> token_spec l r.
Proof.
  intros Hw. unfold lex_arith. destruct (ch l) as [b0 b1 b2 b3 b4 b5 b6 b7] eqn:Hc.
  destruct b0, b1, b2, b3, b4, b5, b6, b7; try discriminate; intros [= <-]; emit_tac.
Qed.

Lemma lex_spread_spec l :
  wf l -> ch l = "."%char -> peekChar l = "."%char ->
  token_spec l (tok_at l TOKEN_SPREAD "...", readChar (readChar (readChar l))).
Proof.
  intros Hw Hc Hd.
  pose proof (peek_eq_rest l _ _ Hw Hc ltac:(done) Hd ltac:(done)) as Hr.
  set (r := tail (tail (rest l))) in *.
  exists (["."; "."]%char ++ take 1 r). split; [done|]. split; [done|]. split; [done|].
  split; [|split; [done | split; [by intros (_ & _ & _ & [] & _) | done]]].
  split; [cbn; auto with go|]. split; [done|].
  cbn [snd]. rewrite !rest_readChar by auto with go. rewrite Hr. cbn. by destruct r.
Qed.

Lemma lex_punct_spec l r : wf l -> lex_punct l = Some r -> token_spec l r.
Proof.
  intros Hw. unfold lex_punct. destruct (ch l) as [b0 b1 b2 b3 b4 b5 b6 b7] eqn:Hc.
  destruct b0, b1, b2, b3, b4, b5, b6, b7; try discriminate; intros [= <-];
    try emit_tac.
  destruct (Ascii.eqb (peekChar l) ".") eqn:E; cbn [andb]; [|emit_tac].
  apply Ascii.eqb_eq in E. case_match; [by apply lex_spread_spec | emit_tac].
Qed.

Lemma lex_default_spec l : wf l -> ch l <> NUL -> ch l <> nl -> token_spec l (lex_default l).
Proof.
  intros Hw Hn Hnl. unfold lex_default.
  destruct (isLetter (ch l)) eqn:Hl; [by apply lex_ident_spec|].
  destruct (isDigit (ch l)) eqn:Hd.
  - destruct (readNumber_spec l Hw Hd) as (w & t & l' & -> & Hw' & Ht & Ha).
    apply token_spec_intro with w; try done. destruct Ht as [-> | [-> | ->]]; done.
  - destruct (ch l) as [b0 b1 b2 b3 b4 b5 b6 b7] eqn:Hc.
    destruct b0, b1, b2, b3, b4, b5, b6, b7; try emit_tac;
      apply emit1_spec; try done; try (by rewrite Hc); by right.
Qed.

Lemma lex_token_spec l :
  wf l -> ch l <> NUL -> ch l <> nl -> token_spec l (lex_token l).
Proof.
  intros Hw Hn Hnl. unfold lex_token.
  destruct (lex_arith l) eqn:E1; [by eapply lex_arith_spec|].
  destruct (lex_punct l) eqn:E2; [by eapply lex_punct_spec|].
  pose proof (ch_nonnull_rest l Hw Hn) as Hr.
  destruct (decide (ch l = "f"%char)) as [Hf|Hf].
  - assert (Ha : advances l ["f"%char] (readChar l)).
    { eapply readChar_advances; [done | | done]. by rewrite Hf in Hr. }
    assert (Hp : forall c, peekChar l = c -> c <> NUL ->
      rest (readChar l) = c :: tail (tail (rest l))).
    { intros c Hp Hc. rewrite rest_readChar by done.
      by rewrite (peek_eq_rest l _ _ Hw Hf ltac:(done) Hp Hc) at 1. }
    assert (Hpre : forall r : string * Lexer, (exists s w l', r = (s, l') /\ w <> [] /\ advances (readChar l) w l') ->
      exists s w l', r = (s, l') /\ w <> [] /\ advances l w l').
    { intros ? (s & w & l' & -> & ? & Ha'). exists s, (["f"%char] ++ w), l'.
      split; [done|]. split; [done|]. by eapply advances_trans. }
    destruct (decide (peekChar l = quote)) as [Hq|_].
    { apply with_string_spec; [by right|]. apply Hpre.
      eapply readString_spec; eauto with go. }
    destruct (decide (peekChar l = "`"%char)) as [Hq|_].
    { apply with_string_spec; [by right|]. apply Hpre.
      eapply readRawString_spec; eauto with go. }
    apply lex_ident_spec; [done|]. by rewrite Hf.
  - destruct (decide (ch l = "`"%char)) as [Hq|_].
    { apply with_string_spec; [by left|]. eapply readRawString_spec; [done|].
      by rewrite Hq in Hr. }
    destruct (decide (ch l = quote)) as [Hq|_].
    { apply with_string_spec; [by left|]. eapply readString_spec; [done|].
      by rewrite Hq in Hr. }
    rewrite decide_False by done. by apply lex_default_spec.
Qed.
