(* ===== verification/LexerProps.v ===== *)
(** * Theorems on the lexer

    Termination and completeness of the token stream, exactness of the
    source positions, the round trip from tokens to text and back, and the
    behaviour of raw strings and of the spread operator. *)

From S2P Require Import Prelude GoStrings Tokens Lexer LexerFacts.
Local Open Scope string_scope.
Local Open Scope list_scope.

(** ** NextToken *)

Lemma skipWhitespace_stops l : wf l -> isSpaceCh (ch (skipWhitespace l)) = false.
Proof.
  intros Hw. pose proof (skipWhitespace_advances l Hw) as Ha.
  assert (rest (skipWhitespace l) = drop_while isSpaceCh (rest l)) as Hr.
  { eapply advances_rest_eq; [done|]. by rewrite take_drop_while. }
  rewrite ch_rest, Hr by eauto with go.
  destruct (drop_while isSpaceCh (rest l)) eqn:E; [done|]. by apply drop_while_head in E.
Qed.

Lemma skipWhitespace_not_nl l : wf l -> ch (skipWhitespace l) <> nl.
Proof. intros Hw E. pose proof (skipWhitespace_stops l Hw) as H. by rewrite E in H. Qed.

(** The recursive call of [NextToken] starts further in the input. *)
Lemma comment_advances l :
  wf l -> ch (skipWhitespace l) = "/"%char -> peekChar (skipWhitespace l) = "/"%char ->
  exists w, w <> [] /\ advances l w (skipComment (skipWhitespace l)).
Proof.
  intros Hw Hc Hp. pose proof (skipWhitespace_advances l Hw) as Ha.
  destruct (skipComment_advances (skipWhitespace l) (tail (tail (rest (skipWhitespace l)))))
    as (w & Hne & Ha').
  - eauto with go.
  - apply peek_eq_rest; eauto with go.
  - exists (take_while isSpaceCh (rest l) ++ w). split; [by destruct w, take_while|].
    by eapply advances_trans.
Qed.

Lemma advances_shorter l w l' :
  advances l w l' -> w <> [] -> length (rest l') < length (rest l).
Proof.
  intros Ha Hw. apply advances_rest in Ha. rewrite Ha, length_app.
  destruct w; [done|]. cbn. lia.
Qed.

Lemma NextToken_fuel_irrel n1 n2 l :
  wf l -> length (rest l) < n1 -> length (rest l) < n2 ->
  NextToken_fuel n1 l = NextToken_fuel n2 l.
Proof.
  revert n2 l. induction n1 as [|n1 IH]; intros [|n2] l Hw H1 H2; try lia.
  cbn. unfold NextToken_body. case_decide as Hc; [|done]. destruct Hc as [Hc Hp].
  destruct (comment_advances l Hw Hc Hp) as (w & Hne & Ha).
  pose proof (advances_shorter _ _ _ Ha Hne). apply IH; eauto with go; lia.
Qed.

(** The equation of the source: the bound on the recursion is never reached. *)
Lemma NextToken_eq l : wf l -> NextToken l = NextToken_body NextToken l.
Proof.
  intros Hw. unfold NextToken at 1. cbn [NextToken_fuel]. unfold NextToken_body.
  case_decide as Hc; [|done]. destruct Hc as [Hc Hp].
  destruct (comment_advances l Hw Hc Hp) as (w & Hne & Ha).
  pose proof (advances_shorter _ _ _ Ha Hne). pose proof (rest_length l).
  pose proof (rest_length (skipComment (skipWhitespace l))).
  apply NextToken_fuel_irrel; eauto with go; lia.
Qed.

(** A call skips a gap of white space and comments and then either reports
    the end of the input or returns a token as specified by [token_spec]. *)
Lemma NextToken_cases l :
  wf l ->
  exists gap l1, advances l gap l1 /\
    ((ch l1 = NUL /\ NextToken l = (tok_at l1 TOKEN_EOF "", readChar l1)) \/
     (ch l1 <> NUL /\ token_spec l1 (NextToken l))).
Proof.
  remember (length (rest l)) as n eqn:Hn. revert l Hn.
  induction (lt_wf n) as [n _ IH]. intros l -> Hw. rewrite NextToken_eq by done.
  unfold NextToken_body. pose proof (skipWhitespace_advances l Hw) as Ha0.
  case_decide as Hc.
  - destruct Hc as [Hc Hp]. destruct (comment_advances l Hw Hc Hp) as (w & Hne & Ha).
    destruct (IH _ (advances_shorter _ _ _ Ha Hne) _ eq_refl) as (gap & l1 & Hg & Hcase);
      [eauto with go|].
    exists (w ++ gap), l1. split; [by eapply advances_trans | done].
  - eexists _, (skipWhitespace l). split; [exact Ha0|].
    assert (Hw1 : wf (skipWhitespace l)) by eauto with go.
    destruct (decide (ch (skipWhitespace l) = NUL)) as [E|E].
    + left. split; [done|]. unfold lex_token, lex_arith, lex_punct. rewrite E. done.
    + right. split; [done|]. apply lex_token_spec; auto using skipWhitespace_not_nl.
Qed.

(** The token stream of every source text is finite: reading tokens from
    a fresh lexer reaches [TOKEN_EOF], once, within one token per input byte
    plus one. *)
Theorem lex_reaches_eof (s : string) :
  exists ts e, lex s = ts ++ [e] /\ Type_ e = TOKEN_EOF /\
    Forall (fun t => Type_ t <> TOKEN_EOF) ts.
Proof.
  unfold lex.
  assert (forall n l, wf l -> length (rest l) < n ->
    exists ts e, tokens n l = ts ++ [e] /\ Type_ e = TOKEN_EOF /\
      Forall (fun t => Type_ t <> TOKEN_EOF) ts) as H.
  { induction n as [|n IH]; intros l Hw Hn; [lia|]. cbn [tokens].
    destruct (NextToken_cases l Hw) as (gap & l1 & Hg & [[_ ->] | [_ Ht]]).
    - exists [], (tok_at l1 TOKEN_EOF ""). done.
    - destruct (NextToken l) as [t l2]. destruct Ht as (w & Hne & _ & _ & (Hw2 & _ & Hr) & _ & _ & Hneof).
      cbn in *. rewrite decide_False by done.
      destruct (IH l2) as (ts & e & -> & He & Hall); [done| |].
      + apply advances_rest in Hg. rewrite Hg, Hr, !length_app in Hn.
        destruct w; [done|]. cbn in Hn. lia.
      + exists (t :: ts), e. split; [done|]. split; [done|]. by constructor. }
  apply H; [apply wf_NewLexer|]. rewrite rest_NewLexer, length_byt. lia.
Qed.

(** ** Source positions *)

(** Line and column of the point after the prefix [p] of a text. *)
Definition linecol (p : bytes) : Z * Z := fold_left lc_step p (1, 1)%Z.

Lemma tokens_positions n l p :
  wf l -> lc l = linecol p ->
  Forall (fun t => Type_ t <> TOKEN_SPREAD) (tokens n l) ->
  Forall (fun t => exists p' r, rest l = p' ++ r /\ (Line t, Col t) = linecol (p ++ p') /\
    (verbatim (Type_ t) -> exists r', r = byt (Literal t) ++ r')) (tokens n l).
Proof.
  revert l p. induction n as [|n IH]; intros l p Hw Hp Hall; [constructor|].
  cbn [tokens] in *.
  destruct (NextToken_cases l Hw) as (gap & l1 & Hg & Hcase).
  assert (Hlc : lc l1 = linecol (p ++ gap)).
  { destruct Hg as [_ ->]. unfold linecol. by rewrite fold_left_app, Hp. }
  pose proof (advances_rest _ _ _ Hg) as Hr1.
  destruct Hcase as [[_ E] | [_ Ht]].
  - rewrite E in *. cbn. constructor; [|constructor].
    exists gap, (rest l1). split; [done|]. split; [exact Hlc|].
    by intros (_ & _ & _ & _ & []).
  - destruct (NextToken l) as [t l2].
    destruct Ht as (w & Hne & HL & HC & _ & Hadv & Hlit & Hneof). cbn in *.
    rewrite decide_False in * by done. apply Forall_cons in Hall as [Hns Hall].
    specialize (Hadv Hns). pose proof (advances_rest _ _ _ Hadv) as Hr2.
    constructor.
    + exists gap, (rest l1). split; [done|]. split; [by rewrite HL, HC|].
      intros Hv. rewrite (Hlit Hv), byt_str. eauto.
    + specialize (IH l2 (p ++ gap ++ w)).
      eapply Forall_impl; [apply IH; try done|].
      * eauto with go.
      * destruct Hadv as [_ ->]. rewrite Hlc. unfold linecol. by rewrite !fold_left_app.
      * intros t' (p' & r & Hr & E & Hv). exists (gap ++ w ++ p'), r.
        rewrite Hr1, Hr2, Hr, <- !app_assoc in *. auto.
Qed.

(** Token positions are exact.  In a source text without spread tokens,
    every token carries the line and the column of a point of the text, and
    for tokens other than strings and illegal bytes the text at that point
    is the token's literal. *)
Theorem lex_positions_exact (s : string) :
  Forall (fun t => Type_ t <> TOKEN_SPREAD) (lex s) ->
  Forall (fun t => exists p r, byt s = p ++ r /\ (Line t, Col t) = linecol p /\
    (verbatim (Type_ t) -> exists r', r = byt (Literal t) ++ r')) (lex s).
Proof.
  intros H. eapply Forall_impl.
  - by apply (tokens_positions _ _ []); [apply wf_NewLexer | |].
  - intros t (p & r & Hr & E & Hv). rewrite rest_NewLexer in Hr. eauto.
Qed.

Definition sample_source : string :=
  "let total = count + 10ms // sum
  return total".

Lemma lex_positions_exact_witness :
  Forall (fun t => exists p r, byt sample_source = p ++ r /\ (Line t, Col t) = linecol p /\
    (verbatim (Type_ t) -> exists r', r = byt (Literal t) ++ r')) (lex sample_source).
Proof.
  apply (lex_positions_exact sample_source).
  apply (bool_decide_unpack _). vm_compute. exact I.
Defined.

(** ** Spread *)

(** Wherever the text continues with two dots, [NextToken] returns a
    spread token and drops the next byte as well, whatever it is: the check
    for the third dot looks at the second one. *)
Theorem two_dots_lex_as_spread (l : Lexer) (c : ascii) (r : bytes) :
  wf l -> rest l = "."%char :: "."%char :: c :: r ->
  (NextToken l).1 = mkToken TOKEN_SPREAD "..." (line l) (col l) /\
  rest (NextToken l).2 = r.
Proof.
  intros Hw Hr.
  assert (Hc : ch l = "."%char) by (by rewrite ch_rest, Hr).
  assert (Hp : peekChar l = "."%char) by (by rewrite peek_rest, Hr).
  assert (Hi : input l !! readPosition l = Some "."%char).
  { unfold peekChar in Hp. destruct (input l !! readPosition l); [by rewrite Hp | done]. }
  assert (Hs : skipWhitespace l = l).
  { unfold skipWhitespace, loop. cbn [while]. by rewrite Hc. }
  assert (NextToken l = (tok_at l TOKEN_SPREAD "...", readChar (readChar (readChar l)))) as ->.
  { rewrite NextToken_eq by done. unfold NextToken_body. rewrite Hs.
    rewrite decide_False by (rewrite Hc; by intros [? _]).
    unfold lex_token, lex_arith, lex_punct. rewrite Hc, Hp. cbn [Ascii.eqb andb].
    rewrite bool_decide_eq_true_2 by (by apply lookup_lt_Some in Hi).
    by rewrite bool_decide_eq_true_2. }
  split; [done|]. cbn [snd]. rewrite !rest_readChar by auto with go. by rewrite Hr.
Qed.

Lemma two_dots_lex_as_spread_witness :
  (NextToken (NewLexer "..x+1")).1 = mkToken TOKEN_SPREAD "..." 1 1 /\
  rest (NextToken (NewLexer "..x+1")).2 = byt "+1".
Proof.
  apply (two_dots_lex_as_spread (NewLexer "..x+1") "x"); [apply wf_NewLexer | reflexivity].
Defined.

(** ** Round trip *)

(** The text of a byte inside a double-quoted literal. *)
Definition escape_byte (c : ascii) : bytes :=
  if decide (c = quote) then [backslash; quote]
  else if decide (c = backslash) then [backslash; backslash]
  else if decide (c = nl) then [backslash; "n"%char]
  else if decide (c = "013"%char) then [backslash; "r"%char]
  else if decide (c = "009"%char) then [backslash; "t"%char]
  else [c].

Definition escape (s : bytes) : bytes := concat (map escape_byte s).

(** Operators and delimiters of one byte and of two bytes, with their text. *)
Definition operators1 : list (TokenType * ascii) :=
  [(TOKEN_PLUS, "+"); (TOKEN_MINUS, "-"); (TOKEN_ASSIGN, "="); (TOKEN_ASTERISK, "*");
   (TOKEN_SLASH, "/"); (TOKEN_PERCENT, "%"); (TOKEN_AMPERSAND, "&"); (TOKEN_PIPE, "|");
   (TOKEN_CARET, "^"); (TOKEN_COMMA, ","); (TOKEN_DOT, "."); (TOKEN_QUESTION, "?");
   (TOKEN_COLON, ":"); (TOKEN_MACRO, "@"); (TOKEN_LPAREN, "("); (TOKEN_RPAREN, ")");
   (TOKEN_LBRACE, "{"); (TOKEN_RBRACE, "}"); (TOKEN_LBRACKET, "["); (TOKEN_RBRACKET, "]");
   (TOKEN_BANG, "!"); (TOKEN_LT, "<"); (TOKEN_GT, ">")]%char.

Definition operators2 : list (TokenType * (ascii * ascii)) :=
  [(TOKEN_PLUS_ASSIGN, ("+", "=")); (TOKEN_RET_ARROW, ("-", ">")); (TOKEN_MINUS_ASSIGN, ("-", "="));
   (TOKEN_ARROW, ("=", ">")); (TOKEN_EQ, ("=", "=")); (TOKEN_ASTERISK_ASSIGN, ("*", "="));
   (TOKEN_SLASH_ASSIGN, ("/", "=")); (TOKEN_PERCENT_ASSIGN, ("%", "=")); (TOKEN_AND, ("&", "&"));
   (TOKEN_PIPE_ARROW, ("|", ">")); (TOKEN_OR, ("|", "|")); (TOKEN_QUESTION_DOT, ("?", "."));
   (TOKEN_NEQ, ("!", "=")); (TOKEN_LTE, ("<", "=")); (TOKEN_SHIFT_LEFT, ("<", "<"));
   (TOKEN_GTE, (">", "=")); (TOKEN_SHIFT_RIGHT, (">", ">"))]%char.

Definition duration_units : list bytes :=
  [["m"; "s"]; ["s"]; ["m"]; ["h"]]%char.

(** [token_text t lit w]: [w] is a way to write the token of type [t] with
    literal [lit]. *)
Inductive token_text : TokenType -> string -> bytes -> Prop :=
  | text_word c w :
      isLetter c = true -> forallb isIdentCh w = true ->
      token_text (lookupIdent (str (c :: w))) (str (c :: w)) (c :: w)
  | text_int ds :
      ds <> [] -> forallb isDigit ds = true -> token_text TOKEN_INT (str ds) ds
  | text_float ds es :
      ds <> [] -> forallb isDigit ds = true -> es <> [] -> forallb isDigit es = true ->
      token_text TOKEN_FLOAT (str (ds ++ "."%char :: es)) (ds ++ "."%char :: es)
  | text_duration ds u :
      ds <> [] -> forallb isDigit ds = true -> u ∈ duration_units ->
      token_text TOKEN_DURATION (str (ds ++ u)) (ds ++ u)
  | text_string s :
      NUL ∉ s -> token_text TOKEN_STRING (str s) (quote :: escape s ++ [quote])
  | text_fstring s :
      NUL ∉ s -> token_text TOKEN_FSTRING (str s) ("f"%char :: quote :: escape s ++ [quote])
  | text_op1 t c :
      (t, c) ∈ operators1 -> token_text t (str [c]) [c]
  | text_op2 t c d :
      (t, (c, d)) ∈ operators2 -> token_text t (str [c; d]) [c; d]
  | text_spread : token_text TOKEN_SPREAD "..." ["."; "."; "."]%char.

(** What may follow a token in a rendered text. *)
Definition delimited (r : bytes) : Prop := r = [] \/ exists r', r = " "%char :: r'.

Lemma delimited_hd r : delimited r -> hd NUL r = NUL \/ hd NUL r = " "%char.
Proof. intros [-> | [r' ->]]; auto. Qed.

Lemma delimited_scan (p : ascii -> bool) w r :
  p " "%char = false -> forallb p w = true -> delimited r ->
  take_while p (w ++ r) = w /\ drop_while p (w ++ r) = r.
Proof.
  intros Hp Hw Hr.
  assert (hd_error r = None \/ exists x l, r = x :: l /\ p x = false) as H.
  { destruct Hr as [-> | [r' ->]]; [by left|]. right. eauto. }
  split; [by apply take_while_app | by apply drop_while_app].
Qed.

(** *** Words *)

Lemma letter_not_op l :
  isLetter (ch l) = true -> lex_arith l = None /\ lex_punct l = None /\
  ch l <> NUL /\ ch l <> quote /\ ch l <> "`"%char.
Proof.
  unfold lex_arith, lex_punct. destruct (ch l) as [b0 b1 b2 b3 b4 b5 b6 b7]. intros H.
  destruct b0, b1, b2, b3, b4, b5, b6, b7; try discriminate H; repeat split; discriminate.
Qed.

Lemma isLetter_isIdentCh c : isLetter c = true -> isIdentCh c = true.
Proof. unfold isIdentCh. by intros ->. Qed.

Lemma lex_word l c w r :
  wf l -> isLetter c = true -> forallb isIdentCh w = true -> delimited r ->
  rest l = (c :: w) ++ r ->
  exists l', lex_token l = (tok_at l (lookupIdent (str (c :: w))) (str (c :: w)), l') /\
    advances l (c :: w) l'.
Proof.
  intros Hw Hc Hcs Hr E.
  assert (Hch : ch l = c) by (by rewrite ch_rest, E).
  rewrite <- Hch in Hc. destruct (letter_not_op l Hc) as (E1 & E2 & E3 & E4 & E5).
  assert (Hid : exists l', lex_ident l = (tok_at l (lookupIdent (str (c :: w))) (str (c :: w)), l') /\
    advances l (c :: w) l').
  { unfold lex_ident. destruct (readIdentifier_spec l Hw) as (l' & -> & Ha).
    rewrite E in *. destruct (delimited_scan isIdentCh (c :: w) r) as [Ht _]; try done.
    { cbn. rewrite <- Hch. by rewrite (isLetter_isIdentCh _ Hc), Hcs. }
    rewrite Ht in *. eauto. }
  unfold lex_token. rewrite E1, E2. unfold lex_default. rewrite Hc.
  assert (Hpk : peekChar l <> quote /\ peekChar l <> "`"%char).
  { rewrite peek_rest, E by done. cbn. destruct w as [|d w]; cbn.
    - destruct (delimited_hd r Hr) as [-> | ->]; done.
    - cbn in Hcs. apply andb_prop in Hcs as [Hd _]. split; intros ->; discriminate. }
  destruct Hpk as [Hp1 Hp2].
  destruct (decide (ch l = "f"%char)).
  - by rewrite !decide_False.
  - by rewrite !decide_False.
Qed.

(** *** Numbers *)

Lemma digit_not_op l :
  isDigit (ch l) = true -> lex_arith l = None /\ lex_punct l = None /\
  ch l <> NUL /\ ch l <> quote /\ ch l <> "`"%char /\ ch l <> "f"%char /\
  isLetter (ch l) = false.
Proof.
  unfold lex_arith, lex_punct. destruct (ch l) as [b0 b1 b2 b3 b4 b5 b6 b7]. intros H.
  destruct b0, b1, b2, b3, b4, b5, b6, b7; try discriminate H; repeat split; discriminate.
Qed.

(** A token that starts with a digit is read by the number routine. *)
Lemma lex_number l lit t l' :
  isDigit (ch l) = true -> readNumberOrDurationOrFloat l = (lit, t, l') ->
  lex_token l = (tok_at l t lit, l').
Proof.
  intros Hd E. destruct (digit_not_op l Hd) as (E1 & E2 & E3 & E4 & E5 & E6 & E7).
  unfold lex_token. rewrite E1, E2. unfold lex_default. rewrite E7, Hd, E.
  by rewrite !decide_False.
Qed.

(** The text of a number: digits, then nothing, a fraction or a unit. *)
Inductive number_text : TokenType -> bytes -> bytes -> Prop :=
  | number_int r : delimited r -> number_text TOKEN_INT [] r
  | number_float es r :
      es <> [] -> forallb isDigit es = true -> delimited r ->
      number_text TOKEN_FLOAT ("."%char :: es) r
  | number_duration u r :
      u ∈ duration_units -> delimited r -> number_text TOKEN_DURATION u r.

Lemma readNumber_text l ds t w r :
  wf l -> forallb isDigit ds = true -> number_text t w r -> rest l = ds ++ w ++ r ->
  exists l', readNumberOrDurationOrFloat l = (str (ds ++ w), t, l') /\ advances l (ds ++ w) l'.
Proof.
  intros Hw Hds Hn E. unfold readNumberOrDurationOrFloat.
  pose proof (readDigits_advances l Hw) as Ha. set (l1 := readDigits l) in *.
  assert (Hstop : exists x y, (w ++ r = [] \/ w ++ r = x :: y) /\ isDigit (hd NUL (w ++ r)) = false).
  { inversion Hn as [r' Hd | es r' _ _ _ | u r' Hu _]; subst.
    - exists " "%char, (tail r). destruct Hd as [-> | [r' ->]]; auto.
    - eexists _, _. split; [by right | done].
    - apply list_elem_of_In in Hu.
      destruct Hu as [<- | [<- | [<- | [<- | []]]]]; eexists _, _; (split; [by right | done]). }
  assert (Ht : take_while isDigit (rest l) = ds).
  { rewrite E. apply take_while_app; [done|].
    destruct Hstop as (x & y & [Hx | Hx] & Hd); rewrite Hx in *; [by left|]. right. eauto. }
  rewrite Ht in Ha. clear Ht. assert (Hw1 : wf l1) by eauto with go.
  assert (Hr1 : rest l1 = w ++ r) by (by eapply advances_rest_eq).
  assert (Hin : forall w' l', advances l w' l' ->
    slice (input l') (position l) (position l') = str w').
  { intros w' l' Ha'. destruct Ha' as [Hc _]. destruct (Hc) as (_ & -> & _).
    by apply consumes_slice. }
  rewrite (ch_rest l1), (peek_rest l1), Hr1 by done.
  inversion Hn as [r' Hd | es r' Hne Hes Hd | u r' Hu Hd]; subst.
  - assert (Hh : hd NUL r = NUL \/ hd NUL r = " "%char) by (by apply delimited_hd).
    cbn [app]. exists l1. rewrite app_nil_r. split; [|done].
    rewrite <- (Hin _ _ Ha). destruct Hh as [-> | ->]; done.
  - destruct es as [|e es]; [done|]. cbn in Hes. apply andb_prop in Hes as [He Hes].
    cbn [app hd tail]. rewrite He. cbn [Ascii.eqb andb].
    assert (Ha2 : advances l1 ["."%char] (readChar l1)) by (by eapply readChar_advances).
    pose proof (readDigits_advances (readChar l1) ltac:(auto with go)) as Ha3.
    assert (Hr2 : rest (readChar l1) = (e :: es) ++ r) by (by eapply advances_rest_eq).
    rewrite Hr2 in Ha3. destruct (delimited_scan isDigit (e :: es) r) as [Ht2 _]; try done.
    { cbn. by rewrite He, Hes. }
    rewrite Ht2 in Ha3.
    pose proof (advances_trans _ _ _ _ _ Ha (advances_trans _ _ _ _ _ Ha2 Ha3)) as Ha4.
    eexists. split; [|exact Ha4]. f_equal. f_equal. by apply Hin.
  - assert (Hh : hd NUL r = NUL \/ hd NUL r = " "%char) by (by apply delimited_hd).
    apply list_elem_of_In in Hu.
    destruct Hu as [<- | [<- | [<- | [<- | []]]]];
      cbn [app hd tail Ascii.eqb andb orb Bool.eqb]; cbn [app] in Hr1.
    + assert (Ha2 : advances l (ds ++ ["m"; "s"]%char) (readChar (readChar l1))).
      { eapply advances_trans; [done|]. by eapply readChar2_advances. }
      eexists. split; [|done]. f_equal. f_equal. by apply Hin.
    + assert (Ha2 : advances l (ds ++ ["s"]%char) (readChar l1)).
      { eapply advances_trans; [done|]. by eapply readChar_advances. }
      eexists. split; [|done]. f_equal. f_equal. by apply Hin.
    + assert (Ha2 : advances l (ds ++ ["m"]%char) (readChar l1)).
      { eapply advances_trans; [done|]. by eapply readChar_advances. }
      eexists. split; [|done]. destruct Hh as [-> | ->]; cbn [Ascii.eqb andb orb Bool.eqb];
        f_equal; f_equal; by apply Hin.
    + assert (Ha2 : advances l (ds ++ ["h"]%char) (readChar l1)).
      { eapply advances_trans; [done|]. by eapply readChar_advances. }
      eexists. split; [|done]. f_equal. f_equal. by apply Hin.
Qed.

Lemma lex_number_text l ds t w r :
  wf l -> ds <> [] -> forallb isDigit ds = true -> number_text t w r ->
  rest l = (ds ++ w) ++ r ->
  exists l', lex_token l = (tok_at l t (str (ds ++ w)), l') /\ advances l (ds ++ w) l'.
Proof.
  intros Hw Hne Hds Hn E. rewrite <- app_assoc in E.
  destruct (readNumber_text l ds t w r Hw Hds Hn E) as (l' & El & Ha).
  exists l'. split; [|done]. eapply lex_number; [|done].
  rewrite ch_rest, E by done. destruct ds as [|d ds]; [done|]. cbn in *. by destruct (isDigit d).
Qed.

(** *** Strings *)

Lemma string_cond_at l buf c r :
  wf l -> rest l = c :: r -> c <> quote -> c <> NUL -> string_cond (l, buf) = true.
Proof.
  intros Hw Hr H1 H2. unfold string_cond. cbn. rewrite ch_rest, Hr by done. cbn.
  rewrite !(proj2 (Ascii.eqb_neq _ _)) by done. done.
Qed.

Lemma string_step_escape l buf c r :
  wf l -> c <> NUL -> rest l = escape_byte c ++ r ->
  string_cond (l, buf) = true /\
  exists l', readString_step (l, buf) = (l', buf ++ [c]) /\ advances l (escape_byte c) l'.
Proof.
  intros Hw Hc Hr.
  assert (Hesc : forall e, unescape e = Some c -> rest l = backslash :: e :: r ->
    string_cond (l, buf) = true /\
    exists l', readString_step (l, buf) = (l', buf ++ [c]) /\ advances l [backslash; e] l').
  { intros e He Hr'. destruct (unescape_not_NUL e c He) as [He1 He2].
    split; [by eapply string_cond_at|]. unfold readString_step.
    rewrite decide_True by (by rewrite ch_rest, Hr').
    rewrite peek_rest, Hr' by done. cbn [tail hd]. rewrite He.
    eexists. split; [done|]. by eapply readChar2_advances. }
  unfold escape_byte in *.
  repeat (case_decide; [subst c; by apply Hesc|]).
  split; [by eapply string_cond_at|]. unfold readString_step.
  assert (Hch : ch l = c) by (by rewrite ch_rest, Hr).
  rewrite decide_False by congruence. rewrite Hch.
  eexists. split; [done|]. by eapply count_readChar_advances.
Qed.

Lemma readString_loop_escape s n l buf r :
  wf l -> NUL ∉ s -> rest l = escape s ++ quote :: r -> length (rest l) < n ->
  exists l', while n string_cond readString_step (l, buf) = (l', buf ++ s) /\
    advances l (escape s) l'.
Proof.
  revert n l buf. induction s as [|c s IH]; intros n l buf Hw Hs Hr Hn.
  - exists l. rewrite app_nil_r. split; [|by apply advances_refl].
    destruct n as [|n]; [lia|]. cbn [while].
    assert (string_cond (l, buf) = false) as ->; [|done].
    unfold string_cond. cbn. by rewrite ch_rest, Hr.
  - apply not_elem_of_cons in Hs as [Hc Hs].
    change (escape (c :: s)) with (escape_byte c ++ escape s) in *.
    rewrite <- app_assoc in Hr.
    destruct (string_step_escape l buf c _ Hw (not_eq_sym Hc) Hr) as (H1 & l1 & H2 & Ha).
    destruct n as [|n]; [lia|]. cbn [while]. rewrite H1, H2.
    pose proof (advances_rest_eq _ _ _ _ Ha Hr) as Hr1.
    destruct (IH n l1 (buf ++ [c])) as (l2 & E & Ha2); [eauto with go | done | done | |].
    + rewrite Hr, Hr1, !length_app in *. unfold escape_byte in Hn.
      repeat case_decide; cbn in *; lia.
    + exists l2. rewrite E, <- app_assoc. split; [done|]. by eapply advances_trans.
Qed.

Lemma readString_escape l s r :
  wf l -> NUL ∉ s -> rest l = quote :: escape s ++ quote :: r ->
  exists l', readString l = (str s, l') /\ advances l (quote :: escape s ++ [quote]) l'.
Proof.
  intros Hw Hs Hr. unfold readString. fold string_cond.
  pose proof (readChar_advances l _ _ Hw Hr ltac:(done)) as Ha0.
  set (l1 := readChar l) in *.
  assert (Hr1 : rest l1 = escape s ++ quote :: r) by (by eapply advances_rest_eq).
  destruct (readString_loop_escape s (S (length (input l1))) l1 [] r) as (l2 & -> & Ha1);
    [eauto with go | done | done | pose proof (rest_length l1); lia |].
  assert (Hr2 : rest l2 = quote :: r) by (by eapply advances_rest_eq).
  assert (Hw2 : wf l2) by eauto with go.
  rewrite decide_True by (by rewrite ch_rest, Hr2).
  eexists. split; [done|].
  change (quote :: escape s ++ [quote]) with ([quote] ++ (escape s ++ [quote])).
  eapply advances_trans; [done|]. eapply advances_trans; [done|].
  by eapply readChar_advances.
Qed.

Lemma lex_string l s r :
  wf l -> NUL ∉ s -> rest l = (quote :: escape s ++ [quote]) ++ r ->
  exists l', lex_token l = (tok_at l TOKEN_STRING (str s), l') /\
    advances l (quote :: escape s ++ [quote]) l'.
Proof.
  intros Hw Hs Hr. cbn in Hr. rewrite <- app_assoc in Hr.
  destruct (readString_escape l s r Hw Hs Hr) as (l' & E & Ha).
  exists l'. split; [|done].
  assert (Hch : ch l = quote) by (by rewrite ch_rest, Hr).
  unfold lex_token, lex_arith, lex_punct, with_string. by rewrite Hch, E.
Qed.

Lemma lex_fstring l s r :
  wf l -> NUL ∉ s -> rest l = ("f"%char :: quote :: escape s ++ [quote]) ++ r ->
  exists l', lex_token l = (tok_at l TOKEN_FSTRING (str s), l') /\
    advances l ("f"%char :: quote :: escape s ++ [quote]) l'.
Proof.
  intros Hw Hs Hr. cbn in Hr. rewrite <- app_assoc in Hr.
  assert (Hch : ch l = "f"%char) by (by rewrite ch_rest, Hr).
  assert (Hp : peekChar l = quote) by (by rewrite peek_rest, Hr).
  pose proof (readChar_advances l _ _ Hw Hr ltac:(done)) as Ha0.
  destruct (readString_escape (readChar l) s r) as (l' & E & Ha);
    [auto with go | done | by eapply advances_rest_eq |].
  exists l'. split.
  - unfold lex_token, lex_arith, lex_punct, with_string. by rewrite Hch, Hp, E.
  - change ("f"%char :: quote :: escape s ++ [quote])
      with (["f"%char] ++ (quote :: escape s ++ [quote])).
    by eapply advances_trans.
Qed.

(** *** Operators *)

Lemma operators1_lex t c l :
  (t, c) ∈ operators1 -> ch l = c -> peekChar l = NUL \/ peekChar l = " "%char ->
  lex_token l = (tok_at l t (str [c]), readChar l).
Proof.
  intros H Hc Hp. apply list_elem_of_In in H. unfold operators1 in H.
  unfold lex_token, lex_arith, lex_punct, lex_default, emit1. rewrite Hc.
  repeat (destruct H as [[= <- <-] | H]; [destruct Hp as [Hp | Hp]; rewrite ?Hp; reflexivity|]).
  destruct H.
Qed.

Lemma operators2_lex t c d l :
  (t, (c, d)) ∈ operators2 -> ch l = c -> peekChar l = d ->
  lex_token l = emit2 l t (str [c; d]).
Proof.
  intros H Hc Hp. apply list_elem_of_In in H. unfold operators2 in H.
  unfold lex_token, lex_arith, lex_punct, lex_default. rewrite Hc, Hp.
  repeat (destruct H as [[= <- <- <-] | H]; [reflexivity|]). destruct H.
Qed.

Lemma operators_not_nl :
  Forall (fun p => p.2 <> nl /\ p.2 <> NUL /\ isSpaceCh p.2 = false) operators1 /\
  Forall (fun p => p.2.1 <> nl /\ p.2.2 <> nl /\ p.2.1 <> NUL /\ p.2.2 <> NUL /\
                   isSpaceCh p.2.1 = false /\ p.2 <> ("/", "/")%char) operators2.
Proof. split; apply (bool_decide_unpack _); vm_compute; exact I. Qed.

(** *** Any token *)

(** The first bytes of a token text start no white space and no comment. *)
Lemma token_text_start t lit w r :
  token_text t lit w -> delimited r ->
  exists c w', w = c :: w' /\ isSpaceCh c = false /\
    ~ (c = "/"%char /\ hd NUL (w' ++ r) = "/"%char).
Proof.
  destruct operators_not_nl as [H1 H2].
  assert (Hdig : forall d, isDigit d = true -> isSpaceCh d = false /\ d <> "/"%char).
  { intros d Hd. split; [|by intros ->]. by destruct d as [[] [] [] [] [] [] [] []]. }
  intros Ht Hr. destruct Ht as [c w Hc _ | ds Hne Hds | ds es Hne Hds _ _ | ds u Hne Hds _
    | s _ | s _ | t c Hin | t c d Hin | ].
  - exists c, w. split; [done|]. split; [|by intros [-> _]].
    by destruct c as [[] [] [] [] [] [] [] []].
  - destruct ds as [|d ds]; [done|]. apply andb_prop in Hds as [Hd _].
    destruct (Hdig d Hd). eexists _, _. split; [done|]. split; [done|]. by intros [? _].
  - destruct ds as [|d ds]; [done|]. apply andb_prop in Hds as [Hd _].
    destruct (Hdig d Hd). eexists _, _. split; [done|]. split; [done|]. by intros [? _].
  - destruct ds as [|d ds]; [done|]. apply andb_prop in Hds as [Hd _].
    destruct (Hdig d Hd). eexists _, _. split; [done|]. split; [done|]. by intros [? _].
  - eexists _, _. split; [done|]. split; [done|]. by intros [? _].
  - eexists _, _. split; [done|]. split; [done|]. by intros [? _].
  - rewrite Forall_forall in H1. destruct (H1 _ Hin) as (_ & _ & Hs).
    exists c, []. split; [done|]. split; [done|]. cbn. intros [_ E].
    destruct (delimited_hd r Hr) as [E' | E']; rewrite E' in E; discriminate.
  - rewrite Forall_forall in H2. destruct (H2 _ Hin) as (_ & _ & _ & _ & Hs & Hcd).
    exists c, [d]. split; [done|]. split; [done|]. cbn. intros [-> ->]. done.
  - eexists _, _. split; [done|]. split; [done|]. by intros [? _].
Qed.

Lemma lex_token_text l t lit w r :
  wf l -> token_text t lit w -> delimited r -> rest l = w ++ r ->
  exists l', lex_token l = (tok_at l t lit, l') /\ advances l w l'.
Proof.
  destruct operators_not_nl as [H1 H2].
  intros Hw Ht Hr E. destruct Ht as [c w Hc Hcs | ds Hne Hds | ds es Hne Hds Hes Hes'
    | ds u Hne Hds Hu | s Hs | s Hs | t c Hin | t c d Hin | ].
  - by eapply lex_word.
  - rewrite <- (app_nil_r ds) in E. rewrite <- (app_nil_r ds).
    eapply lex_number_text; eauto. by constructor.
  - eapply lex_number_text; eauto. by constructor.
  - eapply lex_number_text; eauto. by constructor.
  - by eapply lex_string.
  - by eapply lex_fstring.
  - rewrite Forall_forall in H1. destruct (H1 _ Hin) as (Hn1 & Hn2 & _).
    exists (readChar l). split.
    + apply operators1_lex; [done | by rewrite ch_rest, E|].
      rewrite peek_rest, E by done. by apply delimited_hd.
    + by eapply readChar_advances.
  - rewrite Forall_forall in H2. destruct (H2 _ Hin) as (Hn1 & Hn2 & Hn3 & Hn4 & _).
    exists (readChar (readChar l)). split.
    + apply operators2_lex; [done | by rewrite ch_rest, E | by rewrite peek_rest, E].
    + by apply (readChar2_advances l c d r).
  - assert (Hc : ch l = "."%char) by (by rewrite ch_rest, E).
    assert (Hp : peekChar l = "."%char) by (by rewrite peek_rest, E).
    assert (Hi : input l !! readPosition l = Some "."%char).
    { unfold peekChar in Hp. destruct (input l !! readPosition l); [by rewrite Hp | done]. }
    exists (readChar (readChar (readChar l))). split.
    + unfold lex_token, lex_arith, lex_punct. rewrite Hc, Hp. cbn [Ascii.eqb andb].
      rewrite bool_decide_eq_true_2 by (by apply lookup_lt_Some in Hi).
      by rewrite bool_decide_eq_true_2.
    + change ["."; "."; "."]%char with (["."; "."]%char ++ ["."]%char).
      assert (Ha : advances l ["."; "."]%char (readChar (readChar l)))
        by (by apply (readChar2_advances l _ _ ("."%char :: r))).
      eapply advances_trans; [done|]. eapply readChar_advances; [eauto with go | | done].
      by apply (advances_rest_eq l _ _ ("."%char :: r) Ha).
Qed.

(** A rendered token list: every token preceded by a space. *)
Definition render (ws : list bytes) : bytes := concat (map (cons " "%char) ws).

Lemma render_delimited ws : delimited (render ws).
Proof. destruct ws as [|w ws]; [by left | right]. eexists. done. Qed.

Lemma NextToken_text l t lit w r :
  wf l -> token_text t lit w -> delimited r -> rest l = " "%char :: w ++ r ->
  exists tok l', NextToken l = (tok, l') /\ Type_ tok = t /\ Literal tok = lit /\
    wf l' /\ rest l' = r.
Proof.
  intros Hw Ht Hr E. destruct (token_text_start t lit w r Ht Hr) as (c & w' & -> & Hs & Hcm).
  pose proof (skipWhitespace_advances l Hw) as Ha0. rewrite E in Ha0.
  cbn [take_while isSpaceCh Ascii.eqb Bool.eqb orb app] in Ha0. rewrite Hs in Ha0.
  assert (Hw1 : wf (skipWhitespace l)) by eauto with go.
  assert (Hr1 : rest (skipWhitespace l) = (c :: w') ++ r) by (by eapply advances_rest_eq).
  destruct (lex_token_text _ _ _ _ _ Hw1 Ht Hr Hr1) as (l' & El & Ha).
  eexists _, l'. split; [|split; [|split; [|split; [eauto with go | by eapply advances_rest_eq]]]].
  - rewrite NextToken_eq by done. unfold NextToken_body.
    rewrite ch_rest, peek_rest, Hr1 by done. rewrite decide_False by exact Hcm. exact El.
  - done.
  - done.
Qed.

(** C38: lexing is a left inverse of writing tokens.  Any list of tokens,
    each written in any of its forms ([token_text]: words, numbers,
    durations, strings with their escapes, operators) after a space, is
    read back as the same token types and literals followed by the end of
    file. *)
Theorem lex_render (ts : list (TokenType * string * bytes)) :
  Forall (fun x => token_text x.1.1 x.1.2 x.2) ts ->
  map (fun t => (Type_ t, Literal t)) (lex (str (render (map snd ts)))) =
  map fst ts ++ [(TOKEN_EOF, "")].
Proof.
  intros Hts. unfold lex.
  assert (forall n l, wf l -> rest l = render (map snd ts) -> length (rest l) < n ->
    map (fun t => (Type_ t, Literal t)) (tokens n l) = map fst ts ++ [(TOKEN_EOF, "")]) as H.
  { induction Hts as [|[[t lit] w] ts Ht Hts IH]; intros n l Hw Hr Hn.
    - destruct n as [|n]; [lia|]. cbn [tokens].
      destruct (NextToken_cases l Hw) as (gap & l1 & Hg & [[_ ->] | [Hc _]]); [done|].
      exfalso. apply Hc. apply advances_rest in Hg as Hg'. rewrite Hr in Hg'. cbn in Hg'.
      rewrite ch_rest by eauto with go. by destruct gap, (rest l1).
    - change (render (map snd ((t, lit, w) :: ts)))
        with (" "%char :: w ++ render (map snd ts)) in Hr.
      destruct n as [|n]; [lia|]. cbn [tokens].
      destruct (NextToken_text l t lit w _ Hw Ht (render_delimited _) Hr)
        as (tok & l' & -> & HT & HL & Hw' & Hr').
      assert (Hneof : t <> TOKEN_EOF).
      { clear -Ht. intros ->. inversion Ht as [c w' ? Hl| | | | | |t c Hin|t c d Hin|]; subst.
        - unfold lookupIdent in *. destruct (keywords !! _) as [t|] eqn:Hk; [|done]. subst t.
          apply keywords_lookup in Hk. apply list_elem_of_In in Hk.
          repeat (destruct Hk as [Hk|Hk]; [discriminate|]). done.
        - apply list_elem_of_In in Hin. repeat (destruct Hin as [Hin|Hin]; [discriminate|]). done.
        - apply list_elem_of_In in Hin. repeat (destruct Hin as [Hin|Hin]; [discriminate|]). done. }
      rewrite decide_False by congruence. cbn. rewrite HT, HL. f_equal.
      apply IH; [done | done |]. rewrite Hr, Hr' in *. cbn in Hn. rewrite length_app in Hn. lia. }
  apply H; [apply wf_NewLexer | rewrite rest_NewLexer; apply byt_str |].
  rewrite rest_NewLexer, length_byt. lia.
Qed.

Definition sample_tokens : list (TokenType * string * bytes) :=
  [(TOKEN_LET, "let", byt "let"); (TOKEN_IDENT, "x1", byt "x1"); (TOKEN_ASSIGN, "=", byt "=");
   (TOKEN_STRING, String quote (String nl "b"),
    [quote; backslash; quote; backslash; "n"; "b"; quote]%char);
   (TOKEN_PIPE_ARROW, "|>", byt "|>"); (TOKEN_DURATION, "15ms", byt "15ms")].

Lemma lex_render_witness :
  Forall (fun x => token_text x.1.1 x.1.2 x.2) sample_tokens /\
  map (fun t => (Type_ t, Literal t)) (lex (str (render (map snd sample_tokens)))) =
  map fst sample_tokens ++ [(TOKEN_EOF, "")].
Proof.
  assert (H : Forall (fun x => token_text x.1.1 x.1.2 x.2) sample_tokens).
  { repeat apply Forall_cons_2; [| | | | | |apply Forall_nil_2]; cbn.
    - apply (text_word "l" ["e"; "t"]%char); reflexivity.
    - apply (text_word "x" ["1"]%char); reflexivity.
    - apply (text_op1 TOKEN_ASSIGN "="). apply (bool_decide_unpack _). exact I.
    - apply (text_string [quote; nl; "b"%char]). apply (bool_decide_unpack _). exact I.
    - apply (text_op2 TOKEN_PIPE_ARROW "|" ">"). apply (bool_decide_unpack _). exact I.
    - apply (text_duration ["1"; "5"]%char ["m"; "s"]%char); [done | done |].
      apply (bool_decide_unpack _). exact I. }
  split; [exact H | apply (lex_render sample_tokens H)].
Defined.

(** ** Raw strings *)

Lemma common_bytes_prefix a b :
  (exists r, a = common_bytes a b ++ r) /\ (exists r, b = common_bytes a b ++ r).
Proof.
  revert b. induction a as [|x a IH]; intros b; cbn; [split; eauto|].
  destruct b as [|y b]; [split; eauto|]. case_decide as E; [|split; eauto].
  subst y. destruct (IH b) as [[r1 H1] [r2 H2]].
  split; [exists r1 | exists r2]; cbn; by f_equal.
Qed.

(** [p] is the part of the indentation shared by the lines seen so far. *)
Definition indent_of (p : bytes) (line : string) : Prop :=
  isBlankLine line = false -> exists r, take_while isBlankCh (byt line) = p ++ r.

Lemma dedent_prefix_spec lines acc p :
  fold_left dedent_prefix lines acc = Some p ->
  Forall (indent_of p) lines /\ (forall q, acc = Some q -> exists r, q = p ++ r).
Proof.
  revert acc. induction lines as [|line lines IH]; intros acc; cbn [fold_left].
  - intros ->. split; [constructor|]. intros q [= ->]. exists []. by rewrite app_nil_r.
  - intros H. destruct (IH _ H) as [Hall Hacc]. unfold dedent_prefix in *.
    destruct (isBlankLine line) eqn:Hb.
    + split; [|done]. constructor; [|done]. intros Hb'. congruence.
    + set (lead := take_while isBlankCh (byt line)) in *. destruct acc as [q|].
      * destruct (common_bytes_prefix q lead) as [[r1 H1] [r2 H2]].
        destruct (Hacc _ eq_refl) as [r Hr]. rewrite Hr, <- app_assoc in H1, H2.
        split; [constructor; [intros _; eauto | done]|]. intros q' [= <-]. eauto.
      * destruct (Hacc _ eq_refl) as [r Hr].
        split; [constructor; [intros _; eauto | done] | done].
Qed.

Lemma forallb_prefix (f : ascii -> bool) p r :
  forallb f (p ++ r) = true -> forallb f p = true.
Proof. rewrite forallb_app. by intros [? _]%andb_prop. Qed.

Lemma dedent_prefix_blank lines acc p :
  fold_left dedent_prefix lines acc = Some p ->
  (forall q, acc = Some q -> forallb isBlankCh q = true) -> forallb isBlankCh p = true.
Proof.
  revert acc. induction lines as [|line lines IH]; intros acc; cbn [fold_left].
  - intros -> H. by apply H.
  - intros H Hacc. apply (IH _ H). unfold dedent_prefix. intros q.
    destruct (isBlankLine line); [by apply Hacc|]. destruct acc as [q'|]; intros [= <-].
    + destruct (common_bytes_prefix q' (take_while isBlankCh (byt line))) as [[r Hr] _].
      specialize (Hacc _ eq_refl). rewrite Hr in Hacc. by eapply forallb_prefix.
    + apply take_while_all.
Qed.

(** A line after [dedent]: some blanks fewer, and for a line with text,
    exactly the shared indentation fewer. *)
Definition dedented (p : bytes) (line line' : string) : Prop :=
  (exists b, forallb isBlankCh b = true /\ byt line = b ++ byt line') /\
  (isBlankLine line = false -> byt line = p ++ byt line').

Lemma dedent_line_spec p line :
  forallb isBlankCh p = true -> indent_of p line -> dedented p line (dedent_line (str p) line).
Proof.
  intros Hp Hi. unfold dedent_line. destruct (HasPrefix line (str p)) eqn:Hpre.
  - apply HasPrefix_iff in Hpre as [r Hr]. subst line. rewrite TrimPrefix_app.
    unfold dedented. rewrite byt_app, byt_str. split; [by exists p | done].
  - split.
    + exists (take_while isBlankCh (byt line)). split; [apply take_while_all|].
      by rewrite byt_str, take_drop_while.
    + intros Hb. destruct (Hi Hb) as [r Hr]. exfalso.
      assert (HasPrefix line (str p) = true); [|congruence].
      apply HasPrefix_iff. exists (str (r ++ drop_while isBlankCh (byt line))).
      apply byt_inj. rewrite byt_app, !byt_str, app_assoc, <- Hr. by rewrite take_drop_while.
Qed.

(** [dedent] keeps the lines of a raw string and only removes
    indentation: one block of blanks, the same for every line with text, so
    relative indentation is unchanged; lines of white space only lose
    leading blanks. *)
Theorem dedent_uniform (s : string) :
  exists p, forallb isBlankCh p = true /\
    Forall2 (dedented p) (Split s nl) (Split (dedent s) nl).
Proof.
  assert (Hid : exists p, forallb isBlankCh p = true /\
    Forall2 (dedented p) (Split s nl) (Split s nl)).
  { exists []. split; [done|]. apply Forall2_same_length_lookup_2; [done|].
    intros i x y Hx Hy. rewrite Hx in Hy. injection Hy as ->. split; [by exists [] | done]. }
  unfold dedent. case_bool_decide; [done|].
  destruct (fold_left dedent_prefix (Split s nl) None) as [p|] eqn:E; [|done].
  destruct (dedent_prefix_spec _ _ _ E) as [Hall _].
  pose proof (dedent_prefix_blank _ _ _ E ltac:(done)) as Hp.
  destruct p as [|c p]; [done|]. set (p' := c :: p) in *.
  assert (Hd : Forall2 (dedented p') (Split s nl) (map (dedent_line (str p')) (Split s nl))).
  { apply Forall2_fmap_r, Forall_Forall2_diag. eapply Forall_impl; [exact Hall|].
    intros line Hl. by apply dedent_line_spec. }
  exists p'. split; [done|]. rewrite Split_Join; [done | |].
  - pose proof (Split_nonempty s nl). by destruct (Split s nl).
  - apply Forall_map. eapply Forall_impl; [|intros x Hx; exact Hx].
    pose proof (Split_no_sep s nl) as Hns. apply Forall_forall. intros line Hin.
    rewrite Forall_forall in Hns. specialize (Hns _ Hin).
    rewrite Forall_forall in Hall.
    destruct (dedent_line_spec p' line Hp (Hall _ Hin)) as [(b & _ & Hb) _].
    rewrite Hb, not_elem_of_app in Hns. by destruct Hns.
Qed.
