(* ===== verification/GoInline.v ===== *)
(** * Inline Go functions ([ReadGoInlineSignatureAndBody], [lang/compiler/lexer.go])

    The lexer entry point that cuts the signature and the body of an
    [@inline go fn] out of the source text, with its own scanner for Go
    comments and strings, and the theorem that both parts are exact slices of
    the source. *)

From S2P Require Import Prelude GoStrings Tokens Lexer LexerFacts.
Local Open Scope string_scope.
Local Open Scope list_scope.

(** ** Model *)

(** [for pos >= 0 && l.input[pos] != '(' { pos-- }] from [pos = n - 1]:
    [None] is an index out of range, [Some None] is [pos < 0]. *)
Fixpoint back_scan (s : bytes) (n : nat) : option (option nat) :=
  match n with
  | O => Some None
  | S k => match s !! k with
           | None => None
           | Some c => if decide (c = "("%char) then Some (Some k) else back_scan s k
           end
  end.

Definition scan_to_brace (l : Lexer) : Lexer :=
  loop (fun l => negb (Ascii.eqb (ch l) "{") && negb (Ascii.eqb (ch l) NUL))
    (fun l => readChar (count_newline l)) l.

Definition skip_line_comment (l : Lexer) : Lexer :=
  loop (fun l => negb (Ascii.eqb (ch l) nl) && negb (Ascii.eqb (ch l) NUL)) readChar
    (readChar (readChar l)).

Definition skip_block_comment (l : Lexer) : Lexer :=
  let l := loop (fun l => negb (Ascii.eqb (ch l) "*" && Ascii.eqb (peekChar l) "/")
                          && negb (Ascii.eqb (ch l) NUL))
             (fun l => readChar (count_newline l)) (readChar (readChar l)) in
  if decide (ch l = NUL) then l else readChar (readChar l).

Definition go_string_step (l : Lexer) : Lexer :=
  let l := count_newline l in
  let l := if decide (ch l = backslash) then readChar l else l in
  readChar l.

Definition skip_go_string (l : Lexer) : Lexer :=
  let l := loop (fun l => negb (Ascii.eqb (ch l) quote) && negb (Ascii.eqb (ch l) NUL))
             go_string_step (readChar l) in
  if decide (ch l = quote) then readChar l else l.

Definition skip_go_raw (l : Lexer) : Lexer :=
  let l := loop (fun l => negb (Ascii.eqb (ch l) "`") && negb (Ascii.eqb (ch l) NUL))
             (fun l => readChar (count_newline l)) (readChar l) in
  if decide (ch l = "`"%char) then readChar l else l.

(** One iteration of the body scan; the state is the lexer and
    [braceCount]. *)
Definition go_body_step (st : Lexer * Z) : Lexer * Z :=
  let '(l, n) := st in
  let l := count_newline l in
  if Ascii.eqb (ch l) "/" && Ascii.eqb (peekChar l) "/" then (skip_line_comment l, n)
  else if Ascii.eqb (ch l) "/" && Ascii.eqb (peekChar l) "*" then (skip_block_comment l, n)
  else if Ascii.eqb (ch l) quote then (skip_go_string l, n)
  else if Ascii.eqb (ch l) "`" then (skip_go_raw l, n)
  else
    let n' := (if Ascii.eqb (ch l) "{" then n + 1
               else if Ascii.eqb (ch l) "}" then n - 1 else n)%Z in
    (if (0 <? n')%Z then readChar l else l, n').

Definition go_body_cond (st : Lexer * Z) : bool :=
  (0 <? st.2)%Z && negb (Ascii.eqb (ch st.1) NUL).

Inductive inline_result :=
  | InlineOk (signature body : string)
  | InlineErr (msg : string)
  | InlinePanic.

Definition ReadGoInlineSignatureAndBody (l : Lexer) : inline_result * Lexer :=
  match back_scan (input l) (position l) with
  | None => (InlinePanic, l)
  | Some None => (InlineErr "expected '(' for inline Go function signature", l)
  | Some (Some sigStart) =>
      let l := scan_to_brace l in
      if decide (ch l = NUL) then
        (InlineErr "expected '{' after inline Go function signature", l)
      else
        let sigEnd := position l in
        let signature := TrimSpace (slice (input l) sigStart sigEnd) in
        let l := readChar l in
        let bodyStart := position l in
        let '(l, braceCount) :=
          while (S (S (length (input l)))) go_body_cond go_body_step (l, 1%Z) in
        if (0 <? braceCount)%Z then
          (InlineErr "unmatched '{' in inline Go function body", l)
        else
          let body := slice (input l) bodyStart (position l) in
          (InlineOk signature body, readChar l)
  end.

(** ** What the scanner reads *)

(** [gets l l']: [l'] is [l] after reading some input, or the input is
    exhausted. *)
Definition gets (l l' : Lexer) : Prop :=
  wf l' /\ input l' = input l /\ ((exists w, consumes l w l') \/ rest l' = []).

Lemma gets_refl l : wf l -> gets l l.
Proof. intros Hw. split; [done|]. split; [done|]. left. exists []. auto with go. Qed.

Lemma gets_trans l1 l2 l3 :
  gets l1 l2 -> gets l2 l3 -> gets l1 l3.
Proof.
  intros (H1 & E1 & C1) (H2 & E2 & C2). split; [done|]. split; [congruence|].
  destruct C2 as [[w2 C2] | C2]; [|by right].
  destruct C1 as [[w1 C1] | C1].
  - left. exists (w1 ++ w2). by eapply consumes_trans.
  - right. apply consumes_rest in C2. rewrite C1 in C2. by destruct w2, (rest l3).
Qed.

Lemma gets_readChar l : wf l -> gets l (readChar l).
Proof.
  intros Hw. split; [auto with go|]. split; [done|].
  destruct (rest l) as [|c r] eqn:Hr.
  - right. by rewrite rest_readChar, Hr.
  - left. exists [c]. by eapply readChar_consumes.
Qed.

Lemma gets_count_newline l : wf l -> gets l (count_newline l).
Proof.
  intros Hw. split; [auto with go|]. split; [apply input_count_newline|].
  left. exists []. split; [auto with go|]. split; [apply input_count_newline|].
  split; [by rewrite rest_count_newline|]. unfold count_newline. case_decide; cbn; lia.
Qed.

Lemma gets_wf l l' : gets l l' -> wf l'.
Proof. by intros [H _]. Qed.

#[local] Hint Resolve gets_refl gets_readChar gets_count_newline gets_wf : go.

Lemma gets_while n c f l :
  (forall l, wf l -> gets l (f l)) -> wf l -> gets l (while n c f l).
Proof.
  intros Hf. revert l. induction n as [|n IH]; intros l Hw; cbn; [auto with go|].
  destruct (c l); [|auto with go]. eapply gets_trans; [by apply Hf|]. eauto with go.
Qed.

Lemma gets_go_string_step l : wf l -> gets l (go_string_step l).
Proof.
  intros Hw. unfold go_string_step.
  apply (gets_trans l (count_newline l)); [auto with go|].
  assert (wf (count_newline l)) by auto with go.
  case_decide; eauto 6 using gets_trans with go.
Qed.

#[local] Hint Resolve gets_go_string_step : go.

(** One iteration either meets the last closing brace and stays there, or
    reads at least one byte and leaves the count positive. *)
Lemma go_body_step_cases l n :
  wf l -> ch l <> NUL -> (0 < n)%Z ->
  let r := go_body_step (l, n) in
  (gets l r.1 /\ rest r.1 = rest l /\ ch r.1 = "}"%char /\ r.2 = 0%Z) \/
  (gets l r.1 /\ gets (readChar (count_newline l)) r.1 /\ (0 < r.2)%Z).
Proof.
  intros Hw Hn0 Hn. cbn zeta. unfold go_body_step.
  assert (Hw1 : wf (count_newline l)) by auto with go.
  assert (Hr : rest (count_newline l) = rest l) by apply rest_count_newline.
  assert (Hgl : gets l (count_newline l)) by auto with go.
  set (m := count_newline l) in *.
  assert (Hget : forall l', gets (readChar m) l' -> gets l l').
  { intros l' H. eapply gets_trans; [exact Hgl|]. eapply gets_trans; [by apply gets_readChar | done]. }
  assert (Hw2 : gets (readChar m) (readChar (readChar m))) by auto with go.
  assert (Hw3 : gets (readChar m) (readChar m)) by auto with go.
  assert (Hloop : forall c f p, (forall l, wf l -> gets l (f l)) -> gets (readChar m) p ->
    gets (readChar m) (loop c f p)).
  { intros c f p Hf Hp. eapply gets_trans; [exact Hp|]. apply gets_while; eauto with go. }
  assert (Hstep : forall l, wf l -> gets l (readChar (count_newline l)))
    by eauto 6 using gets_trans with go.
  assert (Hright : forall l', gets (readChar m) l' -> (0 < n)%Z ->
    gets l l' /\ gets (readChar m) l' /\ (0 < n)%Z) by auto.
  destruct (Ascii.eqb (ch m) "/" && Ascii.eqb (peekChar m) "/");
    [right; apply Hright; [unfold skip_line_comment; apply Hloop; auto with go | done]|].
  destruct (Ascii.eqb (ch m) "/" && Ascii.eqb (peekChar m) "*").
  { right. apply Hright; [|done]. unfold skip_block_comment. case_decide; [apply Hloop; auto with go|].
    do 2 (eapply gets_trans; [|apply gets_readChar; eauto 8 with go]). apply Hloop; auto with go. }
  destruct (Ascii.eqb (ch m) quote).
  { right. apply Hright; [|done]. unfold skip_go_string. case_decide; [|apply Hloop; auto with go].
    eapply gets_trans; [|apply gets_readChar; eauto 8 with go]. apply Hloop; auto with go. }
  destruct (Ascii.eqb (ch m) "`").
  { right. apply Hright; [|done]. unfold skip_go_raw. case_decide; [|apply Hloop; auto with go].
    eapply gets_trans; [|apply gets_readChar; eauto 8 with go]. apply Hloop; auto with go. }
  destruct (Ascii.eqb (ch m) "{"); [|destruct (Ascii.eqb (ch m) "}") eqn:E];
    cbn zeta; destruct (0 <? _)%Z eqn:Hpos; cbn [fst snd]; boolify; try lia;
    try (right; split; [by apply Hget|]; split; [done | lia]).
  left. apply Ascii.eqb_eq in E. split; [done|]. split; [done|]. split; [done | lia].
Qed.

Lemma gets_length l l' : gets l l' -> length (rest l') <= length (rest l).
Proof.
  intros (_ & _ & [[w C] | ->]); [|cbn; lia].
  apply consumes_rest in C. rewrite C, length_app. lia.
Qed.

(** The scan of a body ends, before the bound, at its closing brace or at
    the end of the input. *)
Lemma go_body_loop fuel l n :
  wf l -> (0 < n)%Z -> length (rest l) < fuel ->
  let r := while (S fuel) go_body_cond go_body_step (l, n) in
  gets l r.1 /\ ((r.2 = 0%Z /\ ch r.1 = "}"%char) \/ ((0 < r.2)%Z /\ ch r.1 = NUL)).
Proof.
  revert l n. induction fuel as [|fuel IH]; intros l n Hw Hn Hf; [lia|].
  cbn zeta. remember (S fuel) as fuel' eqn:Ef. cbn [while].
  assert (Hcond : go_body_cond (l, n) = negb (Ascii.eqb (ch l) NUL)).
  { unfold go_body_cond. cbn [fst snd]. by replace (0 <? n)%Z with true by lia. }
  rewrite Hcond. destruct (Ascii.eqb (ch l) NUL) eqn:Hc; cbn [negb].
  - apply Ascii.eqb_eq in Hc. split; [auto with go|]. by right.
  - apply Ascii.eqb_neq in Hc.
    destruct (go_body_step_cases l n Hw Hc Hn) as [(Hg & Hr & Hch & Hz) | (Hg & Hg' & Hpos)];
      destruct (go_body_step (l, n)) as [l1 n1]; cbn [fst snd] in *.
    + subst n1 fuel'. cbn. split; [done|]. by left.
    + assert (Hlen : length (rest l1) < fuel).
      { apply gets_length in Hg'. rewrite rest_readChar, rest_count_newline in Hg' by auto with go.
        rewrite (ch_nonnull_rest l Hw Hc) in Hf. cbn in Hf. lia. }
      subst fuel'. destruct (IH l1 n1) as [Hg1 Hend]; [eauto with go | done | done |].
      split; [by eapply gets_trans | done].
Qed.

Lemma back_scan_spec s n k :
  back_scan s n = Some (Some k) -> k < n /\ s !! k = Some "("%char.
Proof.
  induction n as [|n IH]; cbn; [done|].
  destruct (s !! n) as [c|] eqn:E; [|done]. case_decide as Hc.
  - intros [= ->]. subst c. split; [lia | done].
  - intros H. destruct (IH H). split; [lia | done].
Qed.

(** When [ReadGoInlineSignatureAndBody] succeeds, the text from the
    opening parenthesis splits as signature, opening brace, body, closing
    brace and the text the lexer goes on with; the returned signature is the
    first part without surrounding white space and the returned body is the
    second part byte for byte. *)
Theorem inline_go_slices (l l' : Lexer) (signature body : string) :
  wf l -> ReadGoInlineSignatureAndBody l = (InlineOk signature body, l') ->
  exists sigStart sig, sigStart < position l /\ input l !! sigStart = Some "("%char /\
    signature = TrimSpace (str sig) /\
    drop sigStart (input l) = sig ++ "{"%char :: byt body ++ "}"%char :: rest l' /\ wf l'.
Proof.
  intros Hw. unfold ReadGoInlineSignatureAndBody.
  destruct (back_scan (input l) (position l)) as [[k|]|] eqn:Hk; try done.
  apply back_scan_spec in Hk as [Hkp Hk].
  set (p := fun c => negb (Ascii.eqb c "{") && negb (Ascii.eqb c NUL)).
  assert (Ha : advances l (take_while p (rest l)) (scan_to_brace l)).
  { apply (loop_advances p); [done | | done].
    intros l0 c r Hw0 Hr _. by eapply count_readChar_advances. }
  assert (Hr1 : rest (scan_to_brace l) = drop_while p (rest l)).
  { eapply advances_rest_eq; [done|]. by rewrite take_drop_while. }
  set (l1 := scan_to_brace l) in *. assert (Hw1 : wf l1) by eauto with go.
  case_decide as Hn; [done|].
  assert (Hb : ch l1 = "{"%char).
  { pose proof (ch_nonnull_rest l1 Hw1 Hn) as Hr. rewrite Hr1 in Hr at 1.
    apply drop_while_head in Hr. unfold p in Hr. apply andb_false_iff in Hr as [Hr|Hr]; boolify;
      by apply Ascii.eqb_eq in Hr. }
  pose proof (ch_eq_rest l1 _ Hw1 Hb ltac:(done)) as Hr2.
  destruct (go_body_loop (S (length (input (readChar l1)))) (readChar l1) 1) as [Hg Hend];
    [auto with go | lia | pose proof (rest_length (readChar l1)); lia |].
  destruct (while _ _ _ _) as [l2 n2]. cbn [fst snd] in Hg, Hend.
  destruct (0 <? n2)%Z eqn:Hn2; [done|]. boolify.
  destruct Hend as [[_ Hc] | [? _]]; [|lia]. intros [= <- <- <-].
  destruct Hg as (Hw2 & Hi2 & [[w Hcons] | Hr]);
    [|by rewrite ch_rest, Hr in Hc by done].
  assert (Hi1 : input l1 = input l) by (by destruct Ha as [(_ & -> & _) _]).
  exists k, (take (position l1 - k) (drop k (input l))).
  split; [done|]. split; [done|]. split; [unfold slice; by rewrite Hi1|].
  split; [|auto with go].
  assert (Hp : k <= position l1) by (destruct Ha as [(_ & _ & _ & ->) _]; lia).
  change (readPosition l1) with (position (readChar l1)).
  rewrite Hi2, (consumes_slice _ _ _ Hcons), byt_str.
  rewrite rest_readChar by done. rewrite <- (ch_eq_rest l2 _ Hw2 Hc) by done.
  rewrite <- (consumes_rest _ _ _ Hcons), rest_readChar, <- Hr2 by done.
  unfold rest. rewrite Hi1. rewrite <- (take_drop (position l1 - k) (drop k (input l))) at 1.
  f_equal. rewrite drop_drop. f_equal. lia.
Qed.

Definition inline_sample : string := "fn f(a int) int { if a { return 1 } return 2 } rest".

(** The lexer of [inline_sample] after it read the opening parenthesis. *)
Definition inline_start : Lexer := Nat.iter 3 (fun l => (NextToken l).2) (NewLexer inline_sample).

Lemma inline_go_slices_witness :
  exists sigStart sig, sigStart < position inline_start /\
    input inline_start !! sigStart = Some "("%char /\
    "(a int) int" = TrimSpace (str sig) /\
    drop sigStart (input inline_start) =
      sig ++ "{"%char :: byt " if a { return 1 } return 2 "
          ++ "}"%char :: rest (ReadGoInlineSignatureAndBody inline_start).2 /\
    wf (ReadGoInlineSignatureAndBody inline_start).2.
Proof.
  apply (inline_go_slices inline_start _ "(a int) int" " if a { return 1 } return 2 ").
  - split; reflexivity.
  - vm_compute. reflexivity.
Defined.
