(* ===== verification/GoFloat.v ===== *)
(** * Go's [float64]

    IEEE 754 binary64 arithmetic, from the executable specification of the
    standard library ([SpecFloat] at precision 53), the conversion from
    integers, and the two ways the source prints floats: [%f] and the
    shortest form of [fmt.Sprint]. *)

From Stdlib Require Import SpecFloat.
From S2P Require Import Prelude GoStrings.
Local Open Scope Z_scope.

Definition float64 : Type := spec_float.

#[global] Instance float64_eq_dec : EqDecision float64.
Proof. solve_decision. Defined.

Definition fadd : float64 -> float64 -> float64 := SFadd 53 1024.
Definition fsub : float64 -> float64 -> float64 := SFsub 53 1024.
Definition fmul : float64 -> float64 -> float64 := SFmul 53 1024.
Definition fdiv : float64 -> float64 -> float64 := SFdiv 53 1024.
Definition fneg : float64 -> float64 := SFopp.
Definition feqb : float64 -> float64 -> bool := SFeqb.
Definition fltb : float64 -> float64 -> bool := SFltb.
Definition fleb : float64 -> float64 -> bool := SFleb.

Definition fzero : float64 := S754_zero false.

(** [float64(z)], rounding to nearest even. *)
Definition float_of_Z (z : Z) : float64 := binary_normalize 53 1024 z 0 false.

(** The quotient [p / q] of two integers, correctly rounded ([p >= 0], [q > 0]). *)
Definition float_of_ratio (p q : Z) : float64 :=
  if p =? 0 then fzero
  else let '(m, e, loc) := SFdiv_core_binary 53 1024 p 0 q 0 in
       binary_round_aux 53 1024 false m e loc.

(** [int(f)]: the conversion truncates; outside the range of [int] it gives
    the least one. *)
Definition truncate_float (f : float64) : Z :=
  match f with
  | S754_finite s m e =>
      let v := if 0 <=? e then Z.pos m * 2 ^ e else Z.pos m / 2 ^ (- e) in
      let v := if s then - v else v in
      if (min_int64 <=? v) && (v <=? max_int64) then v else min_int64
  | S754_zero _ => 0
  | _ => min_int64
  end.

(** ** Printing *)

(** [p / q] rounded to the nearest integer, ties to even. *)
Definition round_div (p q : Z) : Z :=
  let d := p / q in
  match Z.compare (2 * (p mod q)) q with
  | Lt => d
  | Gt => d + 1
  | Eq => if Z.even d then d else d + 1
  end.

(** [m * 2^e * 10^k] as a fraction. *)
Definition scaled (m : positive) (e k : Z) : Z * Z :=
  (Zpos m * 2 ^ Z.max e 0 * 10 ^ Z.max k 0, 2 ^ Z.max (- e) 0 * 10 ^ Z.max (- k) 0).

(** Decimal digits of [z >= 0], padded with zeros on the left to [n] digits. *)
Definition pad_digits (n : nat) (z : Z) : string :=
  let s := pretty z in
  str (replicate (n - String.length s) "0"%char ++ byt s).

Definition sign_str (s : bool) : string := (if s then "-" else "")%string.

(** [fmt.Sprintf("%f", x)]: six digits after the point. *)
Definition fmt_f (x : float64) : string :=
  match x with
  | S754_nan => "NaN"
  | S754_infinity s => if s then "-Inf" else "+Inf"
  | S754_zero s => sign_str s +:+ "0.000000"
  | S754_finite s m e =>
      let '(p, q) := scaled m e 6 in
      let v := round_div p q in
      sign_str s +:+ pretty (v / 10 ^ 6) +:+ "." +:+ pad_digits 6 (v mod 10 ^ 6)
  end%string.

(** The decimal exponent of the leading digit of [m * 2^e]. *)
Definition decimal_exp (m : positive) (e : Z) : Z :=
  let guess := (Z.log2 (Zpos m) + e) * 1233 / 4096 in
  let above k := let '(p, q) := scaled m e (- k) in q <=? p in
  if above (guess + 1) then guess + 1 else if above guess then guess else guess - 1.

(** The decimals of [n] significant digits just below and just above
    [m * 2^e], as [d * 10^k], and whether the lower one is the closer. *)
Definition decimals (m : positive) (e : Z) (n : Z) : Z * Z * bool :=
  let k := decimal_exp m e - (n - 1) in
  let '(p, q) := scaled m e (- k) in
  (p / q, k, round_div p q =? p / q).

Definition float_of_decimal (d k : Z) : float64 :=
  float_of_ratio (d * 10 ^ Z.max k 0) (10 ^ Z.max (- k) 0).

(** The shortest decimal that rounds to [m * 2^e], closest first. *)
Fixpoint shortest (fuel : nat) (n : Z) (m : positive) (e : Z) : Z * Z :=
  let '(d, k, low) := decimals m e n in
  let ok d := bool_decide (float_of_decimal d k = S754_finite false m e) in
  let best := if low then d else d + 1 in
  let other := if low then d + 1 else d in
  if ok best then (best, k)
  else if ok other then (other, k)
  else match fuel with
       | O => (best, k)
       | S f => shortest f (n + 1) m e
       end.

Fixpoint strip_zeros (fuel : nat) (d k : Z) : Z * Z :=
  match fuel with
  | O => (d, k)
  | S f => if d mod 10 =? 0 then strip_zeros f (d / 10) (k + 1) else (d, k)
  end.

(** [fmt.Sprint(x)] ([%v]): shortest digits, exponent form when the decimal
    exponent is below -4 or at least 6. *)
Definition fmt_v (x : float64) : string :=
  match x with
  | S754_nan => "NaN"
  | S754_infinity s => if s then "-Inf" else "+Inf"
  | S754_zero s => sign_str s +:+ "0"
  | S754_finite s m e =>
      let '(d0, k0) := shortest 17 1 m e in
      let '(d, k) := strip_zeros 20 d0 k0 in
      let ds := pretty d in
      let n := Z.of_nat (String.length ds) in
      let x := n - 1 + k in
      sign_str s +:+
      (if ((x <? -4) || (6 <=? x))%Z then
         str (take 1 (byt ds)) +:+
         (if (1 <? n)%Z then "." +:+ str (drop 1 (byt ds)) else "") +:+
         "e" +:+ (if (x <? 0)%Z then "-" else "+") +:+ pad_digits 2 (Z.abs x)
       else if (0 <=? k)%Z then ds +:+ str (replicate (Z.to_nat k) "0"%char)
       else if (0 <=? x)%Z then
         str (take (Z.to_nat (x + 1)) (byt ds)) +:+ "." +:+ str (drop (Z.to_nat (x + 1)) (byt ds))
       else "0." +:+ str (replicate (Z.to_nat (- x - 1)) "0"%char) +:+ ds)
  end%string.

(** ** Conversion of small integers is exact *)

Lemma digits2_pos_log2 p : Zpos (digits2_pos p) = Z.log2 (Zpos p) + 1.
Proof.
  induction p as [p IH|p IH|]; cbn [digits2_pos]; [| |done].
  - rewrite Pos2Z.inj_succ, IH. rewrite Pos2Z.inj_xI, Z.log2_succ_double by lia. lia.
  - rewrite Pos2Z.inj_succ, IH. rewrite Pos2Z.inj_xO, Z.log2_double by lia. lia.
Qed.

Lemma iter_xO m d : Zpos (Pos.iter xO m d) = Zpos m * 2 ^ Zpos d.
Proof.
  revert m. induction d as [|d IH] using Pos.peano_ind; intros m; [cbn; lia|].
  rewrite Pos.iter_succ, Pos2Z.inj_xO, IH, Pos2Z.inj_succ, Z.pow_succ_r by lia. lia.
Qed.

Lemma log2_shift m k : 0 <= k -> Z.log2 (Zpos m * 2 ^ k) = Z.log2 (Zpos m) + k.
Proof. intros Hk. rewrite Z.log2_mul_pow2 by lia. lia. Qed.

(** The exact form of a positive integer below [2^53]. *)
Lemma binary_round_small s m :
  Zpos m < 2 ^ 53 ->
  let k := 52 - Z.log2 (Zpos m) in
  exists m', Zpos m' = Zpos m * 2 ^ k /\
    binary_round 53 1024 s m 0 = S754_finite s m' (- k).
Proof.
  intros Hm k.
  assert (Hlog : 0 <= Z.log2 (Zpos m) <= 52).
  { split; [apply Z.log2_nonneg|]. apply Z.lt_succ_r. apply Z.log2_lt_pow2; lia. }
  assert (Hk : 0 <= k <= 52) by (unfold k; lia).
  assert (Hround : forall m', Zpos m' = Zpos m * 2 ^ k ->
    binary_round_aux 53 1024 s (Zpos m') (- k) loc_Exact = S754_finite s m' (- k)).
  { intros m' Hm'. unfold binary_round_aux, shr_fexp.
    assert (E : forall z, fexp 53 1024 (Zdigits2 (Zpos m') + z) - z = fexp 53 1024 (53 + z) - z).
    { intros z. do 2 f_equal. cbn [Zdigits2]. rewrite digits2_pos_log2, Hm', log2_shift by lia.
      unfold k. lia. }
    rewrite E. unfold fexp at 1, emin. replace (Z.max _ _ - - k) with 0 by lia.
    cbn [shr shr_record_of_loc round_nearest_even loc_of_shr_record shr_m].
    rewrite E. unfold fexp at 1, emin. replace (Z.max _ _ - - k) with 0 by lia.
    cbn [shr shr_record_of_loc shr_m]. by replace (- k <=? 1024 - 53) with true by lia. }
  unfold binary_round, shl_align.
  replace (fexp 53 1024 (Zpos (digits2_pos m) + 0)) with (- k)
    by (rewrite digits2_pos_log2; unfold fexp, emin, k; lia).
  destruct (- k - 0) as [|d|d] eqn:Hd; [|lia|].
  - assert (k = 0) as Hk0 by lia. exists m. rewrite Hk0 in *. split; [lia|].
    apply Hround. lia.
  - assert (k = Zpos d) as Hkd by lia. exists (Pos.iter xO m d).
    assert (Hx : Zpos (Pos.iter xO m d) = Zpos m * 2 ^ k) by (by rewrite iter_xO, Hkd).
    split; [done|]. by apply Hround.
Qed.

(** The comparison of the floats of two such integers is that of the
    integers. *)
Lemma compare_shifted m1 m2 m1' m2' :
  let k1 := 52 - Z.log2 (Zpos m1) in
  let k2 := 52 - Z.log2 (Zpos m2) in
  0 <= k1 -> 0 <= k2 -> Zpos m1' = Zpos m1 * 2 ^ k1 -> Zpos m2' = Zpos m2 * 2 ^ k2 ->
  match Z.compare (- k1) (- k2) with
  | Lt => Lt
  | Gt => Gt
  | Eq => Pos.compare_cont Eq m1' m2'
  end = Z.compare (Zpos m1) (Zpos m2).
Proof.
  intros k1 k2 H1 H2 E1 E2.
  destruct (Z.compare_spec (- k1) (- k2)) as [E|E|E].
  - change (Pos.compare_cont Eq m1' m2') with (Z.compare (Zpos m1') (Zpos m2')).
    assert (k1 = k2) as Hk by lia. rewrite E1, E2, Hk.
    symmetry. apply Zmult_compare_compat_r. pose proof (Z.pow_pos_nonneg 2 k2). lia.
  - symmetry. apply Z.compare_lt_iff. apply Z.log2_lt_cancel. unfold k1, k2 in *. lia.
  - symmetry. apply Z.compare_gt_iff. apply Z.log2_lt_cancel. unfold k1, k2 in *. lia.
Qed.

Lemma float_compare_small a b :
  Z.abs a < 2 ^ 53 -> Z.abs b < 2 ^ 53 ->
  SFcompare (float_of_Z a) (float_of_Z b) = Some (Z.compare a b).
Proof.
  intros Ha Hb. unfold float_of_Z.
  assert (Hlog : forall m, Zpos m < 2 ^ 53 -> 0 <= 52 - Z.log2 (Zpos m)).
  { intros m Hm. enough (Z.log2 (Zpos m) < 53) by lia. apply Z.log2_lt_pow2; lia. }
  destruct a as [|p|p], b as [|q|q]; cbn [binary_normalize];
    repeat match goal with
    | |- context [binary_round 53 1024 ?s ?m 0] =>
        let m' := fresh m in let E := fresh "E" in let R := fresh "R" in
        destruct (binary_round_small s m ltac:(lia)) as (m' & E & R); rewrite R; clear R
    end; cbn [SFcompare]; try done; f_equal.
  - apply compare_shifted; auto; apply Hlog; lia.
  - change (Z.compare (Zneg p) (Zneg q)) with (CompOpp (Z.compare (Zpos p) (Zpos q))).
    rewrite <- (compare_shifted p q p0 q0) by (auto; apply Hlog; lia). by destruct (Z.compare _ _).
Qed.

Lemma fltb_small a b :
  Z.abs a < 2 ^ 53 -> Z.abs b < 2 ^ 53 -> fltb (float_of_Z a) (float_of_Z b) = (a <? b).
Proof.
  intros Ha Hb. unfold fltb, SFltb. rewrite float_compare_small by done.
  unfold Z.ltb. by destruct (a ?= b).
Qed.

Lemma fleb_small a b :
  Z.abs a < 2 ^ 53 -> Z.abs b < 2 ^ 53 -> fleb (float_of_Z a) (float_of_Z b) = (a <=? b).
Proof.
  intros Ha Hb. unfold fleb, SFleb. rewrite float_compare_small by done.
  unfold Z.leb. by destruct (a ?= b).
Qed.
