(* ===== verification/Ast.v ===== *)
(** * Syntax trees of the Pranor language ([lang/compiler/ast.go])

    One constructor per node type of the source, with the fields of the
    struct in order.  [ENil], [SNil] and [NoBlock] are Go's nil interface
    values and nil block pointers, which the tree may hold after a syntax
    error or for an absent part. *)

From S2P Require Import Prelude GoStrings GoFloat Tokens.
#[local] Set Warnings "-register-all".

(** ** Parts without subtrees *)

Record DBColumn := mkDBColumn { dbc_name : string; dbc_type : string }.
Record DBTable := mkDBTable { dbt_name : string; dbt_columns : list DBColumn }.

Record ColumnDef := mkColumnDef {
  cd_name : string; cd_type : string; cd_primary : bool; cd_autoincrement : bool;
  cd_required : bool; cd_unique : bool; cd_default : option string }.

Record StructField := mkStructField { sf_name : string; sf_type : string }.

Record InterfaceMethod := mkInterfaceMethod {
  im_name : string; im_params : list string; im_paramTypes : list string;
  im_returnType : string }.

Record DeclareModuleFunc := mkDeclareModuleFunc {
  dmf_name : string; dmf_params : list string; dmf_paramTypes : list string;
  dmf_returnType : string; dmf_multiReturn : bool }.

Record DeclareModuleRoute := mkDeclareModuleRoute {
  dmr_method : string; dmr_path : string; dmr_paramTypes : list string;
  dmr_returnType : string }.

(** The fields of a route other than its token and body. *)
Record RouteHead := mkRouteHead {
  rt_method : string; rt_path : string; rt_param : string; rt_limitRate : Z;
  rt_limitPeriod : string; rt_middlewares : list string; rt_stream : bool;
  rt_returnType : string }.

(** The fields of a function declaration other than its token and body. *)
Record FnHead := mkFnHead {
  fn_name : string; fn_typeParams : list string; fn_typeConstraints : list string;
  fn_params : list string; fn_paramTypes : list string; fn_returnType : string;
  fn_isResilient : bool; fn_retries : Z; fn_timeout : string;
  fn_hasCircuitBreaker : bool; fn_isCached : bool }.

(** ** Expressions, statements, blocks *)

Inductive expr : Type :=
  | ENil
  | SpawnExpr (tok : Token) (call limit : expr)
  | AssertExpr (tok : Token) (cond : expr)
  | AssignExpr (tok : Token) (name : string) (value : expr)
  | MemberAssignExpr (tok : Token) (object : expr) (field : string) (value : expr)
  | IndexAssignExpr (tok ltok : Token) (left index value : expr)
  | Identifier (tok : Token) (value : string)
  | StringLiteral (tok : Token) (value : string)
  | FStringLiteral (tok : Token) (value : string)
  | IntegerLiteral (tok : Token) (value : Z)
  | FloatLiteral (tok : Token) (value : float64)
  | ArrayLiteral (tok : Token) (elements : list expr)
  | SpreadElement (tok : Token) (value : expr)
  | DurationLiteral (tok : Token) (value : string)
  | MemberExpr (tok : Token) (object : expr) (field : string)
  | CallExpr (tok : Token) (function : expr) (typeArgs : list string) (arguments : list expr)
  | MapLiteral (tok : Token) (pairs : list (string * expr)) (keyOrder : list string)
      (spreads : list (Z * expr)) (concurrentMap : bool)
  | InfixExpr (tok : Token) (left : expr) (operator : string) (right : expr)
  | PrefixExpr (tok : Token) (operator : string) (right : expr)
  | IndexExpr (tok : Token) (left index : expr)
  | CompoundAssignExpr (tok : Token) (name operator : string) (value : expr)
  | SliceExpr (tok : Token) (left start stop : expr)
  | BooleanLiteral (tok : Token) (value : bool)
  | NilLiteral (tok : Token)
  | AwaitExpr (tok : Token) (value : expr)
  | ErrorPropExpr (tok : Token) (value : expr)
  | FnLiteral (tok : Token) (params paramTypes : list string) (body : block)
      (isArrow : bool) (arrowExpr : expr)
  | StructLiteral (tok : Token) (typeName : string) (typeArgs : list string)
      (fields : list (string * expr)) (keyOrder : list string)
  | SelfExpr (tok : Token)
  | OptionalMemberExpr (tok : Token) (object : expr) (field : string)
with stmt : Type :=
  | SNil
  | ImportStmt (tok : TokenType) (path : string) (names : list string)
  | ExternFnStmt (tok : Token) (name : string) (params : list string) (source : string)
  | GoInlineFnStmt (tok : Token) (name signature body : string)
  | BrokerStmt (tok : Token) (value : expr)
  | AiStmt (tok : Token) (value : expr)
  | ServerStmt (tok : Token) (value : expr) (tls : bool) (certFile keyFile : string)
  | CorsStmt (tok : Token) (origins : list string)
  | RateLimitStmt (tok : Token) (limitRate : Z) (limitPeriod : string)
  | DatabaseStmt (tok : Token) (value : expr)
  | AppStmt (tok : Token) (name : string) (body : block)
  | CacheStmt (tok : Token) (value : expr)
  | AuthStmt (tok : Token) (value : expr)
  | MailStmt (tok : Token) (value : expr)
  | NotifyStmt (tok : Token) (value : expr)
  | StoreStmt (tok : Token) (value : expr)
  | SearchStmt (tok : Token) (value : expr)
  | RouteStmt (tok : Token) (head : RouteHead) (body : block)
  | ToolStmt (tok : Token) (name description param : string) (body : block)
  | AgentDecl (tok : Token) (name system model : string) (tools : list string)
  | MigrationStmt (tok : Token) (name : string) (body : block) (tables : list DBTable)
  | TableDecl (tok : Token) (name : string) (columns : list ColumnDef)
  | EveryStmt (tok : Token) (interval : expr) (body : block)
  | CronStmt (tok : Token) (cron : expr) (body : block)
  | SubscribeStmt (tok : Token) (topic : expr) (param : string) (body : block)
  | TransformStmt (tok : Token) (topic : expr) (param : string) (body : block)
  | PolicyStmt (tok : Token) (name param : string) (body : block)
  | PublishStmt (tok : Token) (topic value : expr)
  | SpawnStmt (tok : Token) (call limit : expr)
  | MatchStmt (tok : Token) (value : expr) (cases : list (expr * block))
  | TestStmt (tok : Token) (name timeout : string) (body : block)
  | MockStmt (tok : Token) (target : expr) (body : block)
  | BeforeEachStmt (tok : Token) (body : block)
  | AfterEachStmt (tok : Token) (body : block)
  | LetStmt (tok : Token) (name : string) (names : list string) (type_ : string) (value : expr)
  | ReturnStmt (tok : Token) (value : expr)
  | YieldStmt (tok : Token) (value : expr)
  | BlockStmt (tok : Token) (statements : list stmt)
  | FnDecl (tok : Token) (head : FnHead) (body : block)
  | VersionBlockStmt (tok : Token) (version : string) (statements : list stmt)
  | ExprStmt (tok : Token) (value : expr)
  | TryCatchStmt (tok : Token) (tryBody : block) (param : string) (catchBody : block)
  | EnumStmt (tok : Token) (name : string) (members : list string) (values : list (string * expr))
  | IfStmt (tok : Token) (condition : expr) (body elseBody : block)
  | ForStmt (tok : Token) (variable keyVar : string) (iterable : expr) (isRange : bool) (body : block)
  | BreakStmt (tok : Token)
  | ContinueStmt (tok : Token)
  | StructDecl (tok : Token) (name : string) (typeParams typeConstraints : list string)
      (fields : list StructField)
  | MethodDecl (tok : Token) (typeName name : string) (params paramTypes : list string)
      (returnType : string) (body : block)
  | ExportStmt (tok : Token) (inner : stmt)
  | InterfaceDecl (tok : Token) (name : string) (methods : list InterfaceMethod)
  | MiddlewareDecl (tok : Token) (name param : string) (body : block)
  | DeclareModuleStmt (tok : Token) (pkgPath : string) (functions : list DeclareModuleFunc)
      (routes : list DeclareModuleRoute)
  | GoPackageImport (tok : Token) (alias path : string)
  | WsStmt (tok : Token) (path param : string) (body : block)
  | DestructureLetStmt (tok : Token) (fields : list string) (value : expr)
  | TypeAliasStmt (tok : Token) (name baseType : string)
  | ValidateStmt (tok : Token) (required optional : list string)
  | ActorDecl (tok : Token) (name : string) (params paramTypes : list string) (body : block)
  | WorkflowDecl (tok : Token) (name param : string) (body : block)
  | InjectStmt (tok : Token) (name interfaceName : string)
  | GraphQLStmt (tok : Token) (path : string) (body : block)
  | MacroStmt (tok : Token) (name : string) (args : list string)
  | MeshStmt (tok : Token) (body : block)
  | OnStmt (tok : Token) (topic param : string) (body : block)
  | LockStmt (tok : Token) (key : expr) (body : block)
  | BucketStmt (tok : Token) (name : string) (body : block)
  | GateStmt (tok : Token) (name : string) (body : block)
  | JobStmt (tok : Token) (name spec : string) (body : block)
  | RagStmt (tok : Token) (source : string) (body : block)
  | EmitStmt (tok : Token) (event : string) (payload : expr)
  | CommandDecl (tok : Token) (name : string) (params : list string) (body : block)
  | EventStoreStmt (tok : Token) (name : string) (commands handlers : list stmt)
with block : Type :=
  | NoBlock
  | Block (tok : Token) (statements : list stmt).

Record Program := mkProgram { Statements : list stmt }.

(** ** Size and induction

    Theorems on trees go by induction on the number of nodes. *)

Section Sum.
Context {A : Type} (f : A -> nat).
Fixpoint sum_of (l : list A) : nat :=
  match l with [] => 0 | x :: l => f x + sum_of l end.

Lemma sum_of_in x l : x ∈ l -> f x <= sum_of l.
Proof. induction 1; cbn; lia. Qed.
End Sum.

Fixpoint expr_size (e : expr) : nat :=
  S match e with
  | SpawnExpr _ a b | MemberAssignExpr _ a _ b | InfixExpr _ a _ b | IndexExpr _ a b =>
      expr_size a + expr_size b
  | AssertExpr _ a | AssignExpr _ _ a | SpreadElement _ a | MemberExpr _ a _
  | PrefixExpr _ _ a | CompoundAssignExpr _ _ _ a | AwaitExpr _ a | ErrorPropExpr _ a
  | OptionalMemberExpr _ a _ => expr_size a
  | IndexAssignExpr _ _ a b c | SliceExpr _ a b c => expr_size a + expr_size b + expr_size c
  | ArrayLiteral _ l => sum_of expr_size l
  | CallExpr _ f _ l => expr_size f + sum_of expr_size l
  | MapLiteral _ ps _ ss _ =>
      sum_of (fun p => expr_size p.2) ps + sum_of (fun p => expr_size p.2) ss
  | StructLiteral _ _ _ ps _ => sum_of (fun p => expr_size p.2) ps
  | FnLiteral _ _ _ b _ a => block_size b + expr_size a
  | _ => 0
  end
with stmt_size (s : stmt) : nat :=
  S match s with
  | BrokerStmt _ a | AiStmt _ a | ServerStmt _ a _ _ _ | DatabaseStmt _ a | CacheStmt _ a
  | AuthStmt _ a | MailStmt _ a | NotifyStmt _ a | StoreStmt _ a | SearchStmt _ a
  | LetStmt _ _ _ _ a | ReturnStmt _ a | YieldStmt _ a | ExprStmt _ a
  | DestructureLetStmt _ _ a | EmitStmt _ _ a => expr_size a
  | PublishStmt _ a b | SpawnStmt _ a b => expr_size a + expr_size b
  | AppStmt _ _ b | RouteStmt _ _ b | ToolStmt _ _ _ _ b | MigrationStmt _ _ b _
  | PolicyStmt _ _ _ b | TestStmt _ _ _ b | BeforeEachStmt _ b | AfterEachStmt _ b
  | FnDecl _ _ b | MethodDecl _ _ _ _ _ _ b | MiddlewareDecl _ _ _ b
  | WsStmt _ _ _ b | ActorDecl _ _ _ _ b | WorkflowDecl _ _ _ b | GraphQLStmt _ _ b
  | MeshStmt _ b | OnStmt _ _ _ b | BucketStmt _ _ b | GateStmt _ _ b | JobStmt _ _ _ b
  | RagStmt _ _ b | CommandDecl _ _ _ b => block_size b
  | EveryStmt _ a b | CronStmt _ a b | SubscribeStmt _ a _ b | TransformStmt _ a _ b
  | MockStmt _ a b | LockStmt _ a b | ForStmt _ _ _ a _ b => expr_size a + block_size b
  | MatchStmt _ a cs => expr_size a + sum_of (fun c => expr_size c.1 + block_size c.2) cs
  | BlockStmt _ ss | VersionBlockStmt _ _ ss => sum_of stmt_size ss
  | TryCatchStmt _ b _ c => block_size b + block_size c
  | EnumStmt _ _ _ ps => sum_of (fun p => expr_size p.2) ps
  | IfStmt _ a b c => expr_size a + block_size b + block_size c
  | ExportStmt _ s => stmt_size s
  | EventStoreStmt _ _ cs hs => sum_of stmt_size cs + sum_of stmt_size hs
  | _ => 0
  end
with block_size (b : block) : nat :=
  S match b with
  | NoBlock => 0
  | Block _ ss => sum_of stmt_size ss
  end.
