(* ===== verification/AstString.v ===== *)
(** * Printing of syntax trees (the [String] methods of [lang/compiler/ast.go])

    One definition per method, on the texts of the node's children.  [None] is
    a panic: calling [String] on a nil expression, statement or block. *)

From S2P Require Import Prelude GoStrings Tokens Ast.
Local Open Scope string_scope.
Local Open Scope list_scope.

(** ** Concatenation *)

Abbreviation text := (option string).

Fixpoint cat (l : list text) : text :=
  match l with
  | [] => Some ""
  | x :: l => s ← x; r ← cat l; Some (s +:+ r)
  end.

Definition join (l : list text) (sep : string) : text := ss ← mapM id l; Some (Join ss sep).

Definition tx (s : string) : text := Some s.
Definition newline : text := Some (String nl "").
Definition quoted (s : string) : text := Some (String quote (s +:+ String quote "")).

Definition is_ENil (e : expr) : bool := match e with ENil => true | _ => false end.

(** ** Statements *)

Definition ImportStmt_String (names : list string) (path : string) : text :=
  if (0 <? length names)%nat
  then cat [tx "import { "; tx (Join names ", "); tx " } from "; quoted path; newline]
  else cat [tx "import "; quoted path; newline].

Definition ExternFnStmt_String (name : string) (params : list string) (source : string) : text :=
  cat [tx "extern fn "; tx name; tx "("; tx (Join params ", "); tx ") from "; quoted source; newline].

Definition GoInlineFnStmt_String (name signature body : string) : text :=
  cat [tx "@inline go fn "; tx name; tx signature; tx " {"; newline; tx body; newline; tx "}"; newline].

(** [broker], [ai], [server], [database], [cache], [auth], [mail], [notify],
    [store], [search], [return] and [yield]: a keyword and a value. *)
Definition value_String (keyword : string) (value : text) : text := cat [tx keyword; value; newline].

Definition CorsStmt_String : text := cat [tx "cors ..."; newline].
Definition RateLimitStmt_String : text := cat [tx "rate_limit ..."; newline].

Definition AppStmt_String (name : string) (body : text) : text :=
  cat [tx "app "; tx name; tx " "; body; newline].

Definition RouteStmt_String (h : RouteHead) (body : text) : text :=
  cat [tx "route "; quoted (rt_method h); tx " "; quoted (rt_path h); tx " ("; tx (rt_param h); tx ") ";
       body; newline].

Definition ToolStmt_String (name description param : string) (body : text) : text :=
  cat [tx "tool "; quoted name; tx " "; quoted description; tx " ("; tx param; tx ") "; body; newline].

Definition AgentDecl_String (name : string) : text := cat [tx "agent "; tx name; tx " { ... }"; newline].

Definition MigrationStmt_String (name : string) (body : text) : text :=
  cat [tx "migration "; quoted name; tx " "; body; newline].

Definition TableDecl_String (name : string) : text := cat [tx "table "; tx name; tx " { ... }"; newline].

Definition EveryStmt_String (interval body : text) : text := cat [tx "every "; interval; tx " "; body; newline].
Definition CronStmt_String (cron body : text) : text := cat [tx "cron "; cron; tx " "; body; newline].

Definition SubscribeStmt_String (topic : text) (param : string) (body : text) : text :=
  cat [tx "subscribe "; topic; tx " ("; tx param; tx ") "; body; newline].
Definition TransformStmt_String (topic : text) (param : string) (body : text) : text :=
  cat [tx "transform "; topic; tx " ("; tx param; tx ") "; body; newline].
Definition PolicyStmt_String (name param : string) (body : text) : text :=
  cat [tx "policy "; tx name; tx " ("; tx param; tx ") "; body; newline].

Definition PublishStmt_String (topic value : text) : text := cat [tx "publish "; topic; tx " "; value; newline].

(** The limit is absent ([None]) or an expression. *)
Definition SpawnExpr_String (limit : option text) (call : text) : text :=
  match limit with
  | Some limit => cat [tx "spawn("; limit; tx ") "; call]
  | None => cat [tx "spawn "; call]
  end.
Definition SpawnStmt_String (limit : option text) (call : text) : text :=
  match limit with
  | Some limit => cat [tx "spawn("; limit; tx ") "; call; newline]
  | None => cat [tx "spawn "; call; newline]
  end.

(** A case without value is the default case. *)
Definition MatchCase_String (c : option text * text) : text :=
  match c.1 with
  | Some value => cat [value; tx " => "; c.2; newline]
  | None => cat [tx "_ => "; c.2; newline]
  end.
Definition MatchStmt_String (value : text) (cases : list (option text * text)) : text :=
  cat [tx "match "; value; tx " {"; newline; cat (map MatchCase_String cases); tx "}"; newline].

Definition TestStmt_String (name : string) (body : text) : text :=
  cat [tx "test "; tx name; tx " {"; body; tx "}"; newline].
Definition MockStmt_String (target body : text) : text := cat [tx "mock "; target; tx " "; body].
Definition BeforeEachStmt_String (body : text) : text := cat [tx "beforeEach "; body; newline].
Definition AfterEachStmt_String (body : text) : text := cat [tx "afterEach "; body; newline].

Definition LetStmt_String (name : string) (names : list string) (value : text) : text :=
  if (1 <? length names)%nat
  then cat [tx "let "; tx (Join names ", "); tx " = "; value; newline]
  else cat [tx "let "; tx name; tx " = "; value; newline].

Definition BlockStmt_String (statements : list text) : text := cat [tx "{ "; cat statements; tx " }"].

Definition FnDecl_String (h : FnHead) (body : text) : text :=
  cat [tx "fn "; tx (fn_name h); tx "("; tx (Join (fn_params h) ", "); tx ") "; body; newline].

Definition VersionBlockStmt_String (version : string) (statements : list text) : text :=
  cat [tx "version "; quoted version; tx " {"; newline; cat statements; tx "}"; newline].

Definition TryCatchStmt_String (tryBody : text) (param : string) (catchBody : text) : text :=
  cat [tx "try "; tryBody; tx " catch ("; tx param; tx ") "; catchBody; newline].

Definition EnumStmt_String (name : string) (members : list string) : text :=
  cat [tx "enum "; tx name; tx " { "; tx (Join members ", "); tx " }"; newline].

Definition IfStmt_String (condition body : text) (elseBody : option text) : text :=
  cat [tx "if "; condition; tx " "; body;
       match elseBody with Some e => cat [tx " else "; e] | None => tx "" end; newline].

Definition ForStmt_String (variable keyVar : string) (iterable : text) (isRange : bool) (body : text) : text :=
  if isRange then
    if negb (bool_decide (keyVar = "")) then
      cat [tx "for "; tx keyVar; tx ", "; tx variable; tx " in "; iterable; tx " "; body; newline]
    else cat [tx "for "; tx variable; tx " in "; iterable; tx " "; body; newline]
  else cat [tx "for "; iterable; tx " "; body; newline].

Definition BreakStmt_String : text := cat [tx "break"; newline].
Definition ContinueStmt_String : text := cat [tx "continue"; newline].

Definition StructDecl_String (name : string) (fields : list StructField) : text :=
  cat [tx "struct "; tx name; tx " { ";
       tx (Join (map (fun f => sf_name f +:+ ": " +:+ sf_type f) fields) ", "); tx " }"; newline].

Definition MethodDecl_String (typeName name : string) (params : list string) (body : text) : text :=
  cat [tx "fn "; tx typeName; tx "."; tx name; tx "("; tx (Join params ", "); tx ") "; body; newline].

Definition ExportStmt_String (inner : text) : text := cat [tx "export "; inner].

Definition InterfaceDecl_String (name : string) (methods : list InterfaceMethod) : text :=
  cat [tx "interface "; tx name; tx " { ";
       tx (Join (map (fun m => "fn " +:+ im_name m +:+ "()") methods) "; "); tx " }"; newline].

Definition MiddlewareDecl_String (name param : string) (body : text) : text :=
  cat [tx "middleware "; tx name; tx "("; tx param; tx ") "; body; newline].

Definition DeclareModuleStmt_String (pkgPath : string) : text :=
  cat [tx "declare module "; quoted pkgPath; tx " { ... }"; newline].

Definition GoPackageImport_String (alias path : string) : text :=
  cat [tx "import "; tx alias; tx " from "; quoted path; newline].

Definition WsStmt_String (path param : string) (body : text) : text :=
  cat [tx "ws "; quoted path; tx " ("; tx param; tx ") "; body; newline].

Definition DestructureLetStmt_String (fields : list string) (value : text) : text :=
  cat [tx "let { "; tx (Join fields ", "); tx " } = "; value; newline].

Definition TypeAliasStmt_String (name baseType : string) : text :=
  cat [tx "type "; tx name; tx " = "; tx baseType; newline].

Definition ValidateStmt_String : text := cat [tx "validate { ... }"; newline].

(** Indexing [ParamTypes] past its end panics. *)
Fixpoint actor_params (params paramTypes : list string) : option (list string) :=
  match params, paramTypes with
  | [], _ => Some []
  | n :: ps, t :: ts => l ← actor_params ps ts; Some ((n +:+ ": " +:+ t) :: l)
  | _ :: _, [] => None
  end.
Definition ActorDecl_String (name : string) (params paramTypes : list string) (body : text) : text :=
  cat [tx "actor "; tx name; tx "("; (ps ← actor_params params paramTypes; Some (Join ps ", ")); tx ") ";
       body; newline].

Definition WorkflowDecl_String (name param : string) (body : text) : text :=
  cat [tx "workflow "; tx name; tx "("; tx param; tx ") "; body; newline].
Definition InjectStmt_String (name interfaceName : string) : text :=
  cat [tx "inject "; tx name; tx ": "; tx interfaceName; newline].
Definition GraphQLStmt_String (path : string) (body : text) : text :=
  cat [tx "graphql "; tx path; tx " "; body; newline].
Definition MacroStmt_String (name : string) (args : list string) : text :=
  cat [tx "@"; tx name; tx "("; tx (Join args ", "); tx ")"; newline].
Definition MeshStmt_String (body : text) : text := cat [tx "mesh "; body; newline].
Definition OnStmt_String (topic param : string) (body : text) : text :=
  cat [tx "on "; quoted topic; tx " ("; tx param; tx ") "; body; newline].
Definition LockStmt_String (key body : text) : text := cat [tx "lock "; key; tx " "; body; newline].
Definition BucketStmt_String (name : string) (body : text) : text :=
  cat [tx "bucket "; tx name; tx " "; body; newline].
Definition GateStmt_String (name : string) (body : text) : text :=
  cat [tx "gate "; tx name; tx " "; body; newline].
Definition JobStmt_String (name spec : string) (body : text) : text :=
  cat [tx "job "; tx name; tx " "; tx spec; tx " "; body; newline].
Definition RagStmt_String (source : string) (body : text) : text :=
  cat [tx "rag "; quoted source; tx " "; body; newline].
Definition EmitStmt_String (event : string) (payload : text) : text :=
  cat [tx "emit "; quoted event; tx " "; payload; newline].
Definition CommandDecl_String (name : string) (params : list string) (body : text) : text :=
  cat [tx "command "; tx name; tx " ("; tx (Join params ", "); tx ") "; body; newline].
Definition EventStoreStmt_String (name : string) (commands handlers : list text) : text :=
  let line t := cat [Some (String "009" ""); t] in
  cat [tx "event_store "; quoted name; tx " {"; newline; cat (map line commands); cat (map line handlers);
       tx "}"; newline].

(** ** Expressions *)

Definition AssertExpr_String (cond : text) : text := cat [tx "assert "; cond].
Definition AssignExpr_String (name : string) (value : text) : text := cat [tx name; tx " = "; value].
Definition MemberAssignExpr_String (object : text) (field : string) (value : text) : text :=
  cat [object; tx "."; tx field; tx " = "; value].
Definition IndexExpr_String (left index : text) : text := cat [tx "("; left; tx "["; index; tx "])"].
Definition IndexAssignExpr_String (left index value : text) : text :=
  cat [IndexExpr_String left index; tx " = "; value].
Definition FStringLiteral_String (value : string) : text := cat [tx "f"; quoted value].
Definition ArrayLiteral_String (elements : list text) : text := cat [tx "["; join elements ", "; tx "]"].
Definition SpreadElement_String (value : text) : text := cat [tx "..."; value].
Definition MemberExpr_String (object : text) (field : string) : text := cat [object; tx "."; tx field].
Definition CallExpr_String (function : text) (arguments : list text) : text :=
  cat [function; tx "("; join arguments ", "; tx ")"].

(** The value under a key of a map that the tree holds as a list. *)
Fixpoint pair_of {A} (k : string) (l : list (string * A)) : option A :=
  match l with
  | [] => None
  | (k', v) :: l => if bool_decide (k = k') then Some v else pair_of k l
  end.

Definition MapLiteral_String (pairs : list (string * text)) (keyOrder : list string) : text :=
  cat [tx "{"; join (map (fun k => v ← pair_of k pairs; cat [quoted k; tx ": "; v]) keyOrder) ", "; tx "}"].
Definition StructLiteral_String (typeName : string) (fields : list (string * text)) (keyOrder : list string) : text :=
  cat [tx typeName; tx " { "; join (map (fun k => v ← pair_of k fields; cat [tx k; tx ": "; v]) keyOrder) ", ";
       tx " }"].
Definition InfixExpr_String (left : text) (operator : string) (right : text) : text :=
  cat [tx "("; left; tx " "; tx operator; tx " "; right; tx ")"].
Definition PrefixExpr_String (operator : string) (right : text) : text :=
  cat [tx "("; tx operator; right; tx ")"].
Definition CompoundAssignExpr_String (name operator : string) (value : text) : text :=
  cat [tx name; tx " "; tx operator; tx " "; value].
Definition SliceExpr_String (left : text) (start stop : option text) : text :=
  cat [left; tx "["; default (tx "") start; tx ":"; default (tx "") stop; tx "]"].
Definition AwaitExpr_String (value : text) : text := cat [tx "await "; value].
Definition ErrorPropExpr_String (value : text) : text := cat [value; tx "?"].
Definition FnLiteral_String (params : list string) (body : text) (isArrow : bool) (arrowExpr : text) : text :=
  if isArrow then cat [tx (Join params ", "); tx " => "; arrowExpr]
  else cat [tx "fn("; tx (Join params ", "); tx ") "; body].
Definition OptionalMemberExpr_String (object : text) (field : string) : text := cat [object; tx "?."; tx field].

(** ** All nodes *)

(** A part that may be nil. *)
Definition part_of (e : expr) (t : text) : option text := if is_ENil e then None else Some t.

Fixpoint expr_String (e : expr) : text :=
  match e with
  | ENil => None
  | SpawnExpr _ c l => SpawnExpr_String (part_of l (expr_String l)) (expr_String c)
  | AssertExpr _ c => AssertExpr_String (expr_String c)
  | AssignExpr _ n v => AssignExpr_String n (expr_String v)
  | MemberAssignExpr _ o f v => MemberAssignExpr_String (expr_String o) f (expr_String v)
  | IndexAssignExpr _ _ l i v => IndexAssignExpr_String (expr_String l) (expr_String i) (expr_String v)
  | Identifier _ v => tx v
  | StringLiteral _ v => quoted v
  | FStringLiteral _ v => FStringLiteral_String v
  | IntegerLiteral t _ | FloatLiteral t _ | BooleanLiteral t _ => tx (Literal t)
  | ArrayLiteral _ es => ArrayLiteral_String (map expr_String es)
  | SpreadElement _ v => SpreadElement_String (expr_String v)
  | DurationLiteral _ v => tx v
  | MemberExpr _ o f => MemberExpr_String (expr_String o) f
  | CallExpr _ f _ args => CallExpr_String (expr_String f) (map expr_String args)
  | MapLiteral _ ps ko _ _ => MapLiteral_String (map (fun p => (p.1, expr_String p.2)) ps) ko
  | InfixExpr _ l op r => InfixExpr_String (expr_String l) op (expr_String r)
  | PrefixExpr _ op r => PrefixExpr_String op (expr_String r)
  | IndexExpr _ l i => IndexExpr_String (expr_String l) (expr_String i)
  | CompoundAssignExpr _ n op v => CompoundAssignExpr_String n op (expr_String v)
  | SliceExpr _ l s t =>
      SliceExpr_String (expr_String l) (part_of s (expr_String s)) (part_of t (expr_String t))
  | NilLiteral _ => tx "nil"
  | AwaitExpr _ v => AwaitExpr_String (expr_String v)
  | ErrorPropExpr _ v => ErrorPropExpr_String (expr_String v)
  | FnLiteral _ ps _ b arr a => FnLiteral_String ps (block_String b) arr (expr_String a)
  | StructLiteral _ n _ fs ko => StructLiteral_String n (map (fun p => (p.1, expr_String p.2)) fs) ko
  | SelfExpr _ => tx "self"
  | OptionalMemberExpr _ o f => OptionalMemberExpr_String (expr_String o) f
  end
with stmt_String (s : stmt) : text :=
  match s with
  | SNil => None
  | ImportStmt _ p ns => ImportStmt_String ns p
  | ExternFnStmt _ n ps src => ExternFnStmt_String n ps src
  | GoInlineFnStmt _ n sg b => GoInlineFnStmt_String n sg b
  | BrokerStmt _ v => value_String "broker " (expr_String v)
  | AiStmt _ v => value_String "ai " (expr_String v)
  | ServerStmt _ v _ _ _ => value_String "server " (expr_String v)
  | CorsStmt _ _ => CorsStmt_String
  | RateLimitStmt _ _ _ => RateLimitStmt_String
  | DatabaseStmt _ v => value_String "database " (expr_String v)
  | AppStmt _ n b => AppStmt_String n (block_String b)
  | CacheStmt _ v => value_String "cache " (expr_String v)
  | AuthStmt _ v => value_String "auth " (expr_String v)
  | MailStmt _ v => value_String "mail " (expr_String v)
  | NotifyStmt _ v => value_String "notify " (expr_String v)
  | StoreStmt _ v => value_String "store " (expr_String v)
  | SearchStmt _ v => value_String "search " (expr_String v)
  | RouteStmt _ h b => RouteStmt_String h (block_String b)
  | ToolStmt _ n d p b => ToolStmt_String n d p (block_String b)
  | AgentDecl _ n _ _ _ => AgentDecl_String n
  | MigrationStmt _ n b _ => MigrationStmt_String n (block_String b)
  | TableDecl _ n _ => TableDecl_String n
  | EveryStmt _ i b => EveryStmt_String (expr_String i) (block_String b)
  | CronStmt _ c b => CronStmt_String (expr_String c) (block_String b)
  | SubscribeStmt _ t p b => SubscribeStmt_String (expr_String t) p (block_String b)
  | TransformStmt _ t p b => TransformStmt_String (expr_String t) p (block_String b)
  | PolicyStmt _ n p b => PolicyStmt_String n p (block_String b)
  | PublishStmt _ t v => PublishStmt_String (expr_String t) (expr_String v)
  | SpawnStmt _ c l => SpawnStmt_String (part_of l (expr_String l)) (expr_String c)
  | MatchStmt _ v cs =>
      MatchStmt_String (expr_String v)
        (map (fun c => (part_of c.1 (expr_String c.1), block_String c.2)) cs)
  | TestStmt _ n _ b => TestStmt_String n (block_String b)
  | MockStmt _ t b => MockStmt_String (expr_String t) (block_String b)
  | BeforeEachStmt _ b => BeforeEachStmt_String (block_String b)
  | AfterEachStmt _ b => AfterEachStmt_String (block_String b)
  | LetStmt _ n ns _ v => LetStmt_String n ns (expr_String v)
  | ReturnStmt _ v => value_String "return " (expr_String v)
  | YieldStmt _ v => value_String "yield " (expr_String v)
  | BlockStmt _ ss => BlockStmt_String (map stmt_String ss)
  | FnDecl _ h b => FnDecl_String h (block_String b)
  | VersionBlockStmt _ v ss => VersionBlockStmt_String v (map stmt_String ss)
  | ExprStmt _ v => expr_String v
  | TryCatchStmt _ t p c => TryCatchStmt_String (block_String t) p (block_String c)
  | EnumStmt _ n ms _ => EnumStmt_String n ms
  | IfStmt _ c b eb =>
      IfStmt_String (expr_String c) (block_String b)
        (match eb with NoBlock => None | _ => Some (block_String eb) end)
  | ForStmt _ v k it rg b => ForStmt_String v k (expr_String it) rg (block_String b)
  | BreakStmt _ => BreakStmt_String
  | ContinueStmt _ => ContinueStmt_String
  | StructDecl _ n _ _ fs => StructDecl_String n fs
  | MethodDecl _ t n ps _ _ b => MethodDecl_String t n ps (block_String b)
  | ExportStmt _ i => ExportStmt_String (stmt_String i)
  | InterfaceDecl _ n ms => InterfaceDecl_String n ms
  | MiddlewareDecl _ n p b => MiddlewareDecl_String n p (block_String b)
  | DeclareModuleStmt _ p _ _ => DeclareModuleStmt_String p
  | GoPackageImport _ a p => GoPackageImport_String a p
  | WsStmt _ pa p b => WsStmt_String pa p (block_String b)
  | DestructureLetStmt _ fs v => DestructureLetStmt_String fs (expr_String v)
  | TypeAliasStmt _ n t => TypeAliasStmt_String n t
  | ValidateStmt _ _ _ => ValidateStmt_String
  | ActorDecl _ n ps pts b => ActorDecl_String n ps pts (block_String b)
  | WorkflowDecl _ n p b => WorkflowDecl_String n p (block_String b)
  | InjectStmt _ n i => InjectStmt_String n i
  | GraphQLStmt _ p b => GraphQLStmt_String p (block_String b)
  | MacroStmt _ n args => MacroStmt_String n args
  | MeshStmt _ b => MeshStmt_String (block_String b)
  | OnStmt _ t p b => OnStmt_String t p (block_String b)
  | LockStmt _ k b => LockStmt_String (expr_String k) (block_String b)
  | BucketStmt _ n b => BucketStmt_String n (block_String b)
  | GateStmt _ n b => GateStmt_String n (block_String b)
  | JobStmt _ n sp b => JobStmt_String n sp (block_String b)
  | RagStmt _ src b => RagStmt_String src (block_String b)
  | EmitStmt _ e p => EmitStmt_String e (expr_String p)
  | CommandDecl _ n ps b => CommandDecl_String n ps (block_String b)
  | EventStoreStmt _ n cs hs => EventStoreStmt_String n (map stmt_String cs) (map stmt_String hs)
  end
with block_String (b : block) : text :=
  match b with
  | NoBlock => None
  | Block _ ss => BlockStmt_String (map stmt_String ss)
  end.

Definition Program_String (p : Program) : text := cat (map stmt_String (Statements p)).
