(* ===== verification/Migration.v ===== *)
(** * Table schemas of migrations ([parseMigrationStatement] and
    [splitColumns] of [lang/compiler/parser_services.go])

    The parser reads [CREATE TABLE] statements out of the string literals of a
    migration.  The two regular expressions are written out as matchers. *)

From S2P Require Import Prelude GoStrings Tokens Ast.
Local Open Scope string_scope.
Local Open Scope list_scope.

(** The columns of a table definition: split at the commas outside of
    parentheses. *)
Fixpoint split_columns (s current : bytes) (parenDepth : Z) : list bytes :=
  match s with
  | [] => if bool_decide (current = []) then [] else [current]
  | c :: s =>
      let parenDepth := if Ascii.eqb c "(" then (parenDepth + 1)%Z
                        else if Ascii.eqb c ")" then (parenDepth - 1)%Z else parenDepth in
      if Ascii.eqb c "," && (parenDepth =? 0)%Z then current :: split_columns s [] parenDepth
      else split_columns s (current ++ [c]) parenDepth
  end.

Definition splitColumns (colDefsStr : string) : list string := map str (split_columns (byt colDefsStr) [] 0).

(** ** Regular expressions *)

(** [\s] *)
Definition re_space (c : ascii) : bool :=
  bool_decide (c ∈ ["009"%char; "010"%char; "012"%char; "013"%char; " "%char]).

(** A literal word under the flag [i]; U+017F folds to [s], U+212A to [k]. *)
Fixpoint re_word (w s : bytes) : option bytes :=
  match w with
  | [] => Some s
  | c :: w =>
      match s with
      | "197"%char :: "191"%char :: r => if Ascii.eqb c "s" then re_word w r else None
      | "226"%char :: "132"%char :: "170"%char :: r => if Ascii.eqb c "k" then re_word w r else None
      | d :: r => if bool_decide (lower_ascii [d] = [c]) then re_word w r else None
      | [] => None
      end
  end.

(** [\s+] *)
Definition re_spaces1 (s : bytes) : option bytes :=
  match s with c :: _ => if re_space c then Some (drop_while re_space s) else None | [] => None end.

(** Letters, digits and underscores under the flag [i]: what matches, and the
    rest. *)
Fixpoint re_name (s : bytes) : bytes * bytes :=
  match s with
  | "197"%char :: "191"%char :: r => let '(n, r) := re_name r in ("197"%char :: "191"%char :: n, r)
  | "226"%char :: "132"%char :: "170"%char :: r =>
      let '(n, r) := re_name r in ("226"%char :: "132"%char :: "170"%char :: n, r)
  | c :: r =>
      if isDigitb c || Ascii.eqb c "_" || (Ascii.leb "A" c && Ascii.leb c "Z") || (Ascii.leb "a" c && Ascii.leb c "z")
      then let '(n, r) := re_name r in (c :: n, r)
      else ([], s)
  | [] => ([], [])
  end.

(** What stands before the last closing parenthesis. *)
Fixpoint before_last_paren (s : bytes) : option bytes :=
  match s with
  | [] => None
  | c :: s =>
      match before_last_paren s with
      | Some b => Some (c :: b)
      | None => if Ascii.eqb c ")" then Some [] else None
      end
  end.

(** The name, optional spaces, and the text between an opening parenthesis
    and the last closing one on its line. *)
Definition re_table (s : bytes) : option (bytes * bytes) :=
  let '(n, r) := re_name s in
  match n, drop_while re_space r with
  | _ :: _, "("%char :: r =>
      b ← before_last_paren (take_while (fun c => negb (Ascii.eqb c nl)) r); Some (n, b)
  | _, _ => None
  end.

(** [create table], optionally [if not exists], and a table, at the start of
    the text; the optional group is tried first. *)
Definition re_create_at (s : bytes) : option (bytes * bytes) :=
  s ← re_word (byt "create") s;
  s ← re_spaces1 s;
  s ← re_word (byt "table") s;
  s ← re_spaces1 s;
  let guarded :=
    s ← re_word (byt "if") s; s ← re_spaces1 s;
    s ← re_word (byt "not") s; s ← re_spaces1 s;
    s ← re_word (byt "exists") s; s ← re_spaces1 s;
    re_table s in
  match guarded with Some m => Some m | None => re_table s end.

(** [FindStringSubmatch]: the leftmost match. *)
Fixpoint re_create (s : bytes) : option (bytes * bytes) :=
  match re_create_at s with
  | Some m => Some m
  | None => match s with [] => None | _ :: s => re_create s end
  end.

(** [Split] with [\s+]. *)
Fixpoint re_split (s current : bytes) (in_space : bool) : list bytes :=
  match s with
  | [] => [current]
  | c :: s =>
      if re_space c then
        if in_space then re_split s current true else current :: re_split s [] true
      else re_split s (current ++ [c]) false
  end.

(** ** Tables *)

(** [strings.Trim] with the quotes and brackets of SQL names. *)
Definition sql_quote (c : ascii) : bool := bool_decide (c ∈ ["096"%char; quote; "["%char; "]"%char]).
Definition trim_quotes (s : bytes) : bytes := rev (drop_while sql_quote (rev (drop_while sql_quote s))).

Definition sql_type (colTypeRaw : string) : string :=
  if Contains colTypeRaw "int" then "int"
  else if Contains colTypeRaw "double" || Contains colTypeRaw "float" || Contains colTypeRaw "real" ||
          Contains colTypeRaw "numeric" || Contains colTypeRaw "decimal" then "float64"
  else if Contains colTypeRaw "bool" then "bool"
  else "string".

Definition is_constraint (colDefLower : string) : bool :=
  HasPrefix colDefLower "primary key" || HasPrefix colDefLower "foreign key" || HasPrefix colDefLower "unique" ||
  HasPrefix colDefLower "check" || HasPrefix colDefLower "constraint".

Definition column_of (colDef : string) : list DBColumn :=
  let colDefStr := TrimSpace colDef in
  if bool_decide (colDefStr = "") then []
  else if is_constraint (ToLower colDefStr) then []
  else match re_split (byt colDefStr) [] false with
  | n :: t :: _ => [mkDBColumn (str (trim_quotes n)) (sql_type (ToLower (str t)))]
  | _ => []
  end.

Definition table_of_sql (text : string) : list DBTable :=
  let sql := TrimSpace text in
  if Contains (ToLower sql) "create table" then
    match re_create (byt sql) with
    | Some (tableName, colDefsStr) =>
        [mkDBTable (str tableName) (flat_map column_of (splitColumns (str colDefsStr)))]
    | None => []
    end
  else [].

Definition table_of_stmt (s : stmt) : list DBTable :=
  match s with
  | ExprStmt _ (CallExpr _ (MemberExpr _ (Identifier _ obj) field) _ (StringLiteral _ text :: _)) =>
      if bool_decide (obj = "db") && (bool_decide (field = "query") || bool_decide (field = "querySafe"))
      then table_of_sql text else []
  | _ => []
  end.

Definition tables_of (statements : list stmt) : list DBTable := flat_map table_of_stmt statements.

Example create_table_example :
  table_of_sql " CREATE Table  if not exists users (id INTEGER primary key, price DECIMAL(10,2), UNIQUE (id));" =
    [mkDBTable "users" [mkDBColumn "id" "int"; mkDBColumn "price" "float64"]].
Proof. vm_compute. reflexivity. Qed.
