(* ===== verification/Parser.v ===== *)
(** * The parser: state and shared helpers ([lang/compiler/parser.go])

    A parser holds the lexer, the current token, one token of lookahead, the
    error messages and the path prefix of the enclosing version block.  The
    methods of the Go type are state transformers.  A method may panic (a type
    assertion on nil), and recursion and loops carry fuel. *)

From S2P Require Import Prelude GoStrings Tokens Lexer Ast.
Local Open Scope string_scope.
Local Open Scope list_scope.

Record Parser := mkParser {
  pl : Lexer;
  curToken : Token;
  peekToken : Token;
  errors : list string;
  currentVersionPrefix : string }.

(** ** Computations *)

Inductive result (A : Type) :=
  | Ret (a : A) (p : Parser)
  | Panic
  | NoFuel.
Arguments Ret {A} a p.
Arguments Panic {A}.
Arguments NoFuel {A}.

Definition M (A : Type) : Type := Parser -> result A.

Definition ret {A} (a : A) : M A := fun p => Ret a p.
Definition bind {A B} (m : M A) (k : A -> M B) : M B := fun p =>
  match m p with Ret a p' => k a p' | Panic => Panic | NoFuel => NoFuel end.

Declare Scope parser_scope.
Delimit Scope parser_scope with parser.
Notation "x <- m ; k" := (bind m (fun x => k)) (at level 100, m at level 99, k at level 200) : parser_scope.
Notation "m >> k" := (bind m (fun _ : unit => k)) (at level 100, k at level 200, right associativity) : parser_scope.
#[global] Open Scope parser_scope.

Definition panic {A} : M A := fun _ => Panic.
Definition no_fuel {A} : M A := fun _ => NoFuel.

(** [if !c { return r }; k] *)
Notation "'check' c 'or' r ; k" := (bind c (fun b : bool => if b then k else ret r))
  (at level 100, c at level 99, r at level 99, k at level 200, only parsing).

(** A loop [for c { body }] over the locals [s].  The body may leave the
    enclosing method with a result ([inr]). *)
Fixpoint loop {St R : Type} (fuel : nat) (c : M bool) (body : St -> M (St + R)) (s : St) : M (St + R) :=
  match fuel with
  | O => no_fuel
  | S n =>
      b <- c;
      if b then
        r <- body s;
        match r with inl s => loop n c body s | inr r => ret (inr r) end
      else ret (inl s)
  end.

(** A loop, then the rest of the method with the final locals. *)
Notation "'for' s ':=' m ; k" :=
  (bind m (fun r => match r with inl s => k | inr r => ret r end))
  (at level 100, s name, m at level 99, k at level 200, only parsing).

Definition continue {S R} (s : S) : M (S + R) := ret (inl s).
Definition return_ {S R} (r : R) : M (S + R) := ret (inr r).

(** A loop that never leaves its method. *)
Fixpoint every {St : Type} (fuel : nat) (c : M bool) (body : St -> M St) (s : St) : M St :=
  match fuel with
  | O => no_fuel
  | S n => b <- c; if b then s <- body s; every n c body s else ret s
  end.

(** ** Tokens *)

Definition cur : M Token := fun p => Ret (curToken p) p.
Definition peek : M Token := fun p => Ret (peekToken p) p.
Definition cur_is (t : TokenType) : M bool := fun p => Ret (bool_decide (Type_ (curToken p) = t)) p.
Definition peek_is (t : TokenType) : M bool := fun p => Ret (bool_decide (Type_ (peekToken p) = t)) p.
Definition lit : M string := fun p => Ret (Literal (curToken p)) p.

Definition notb (m : M bool) : M bool := b <- m; ret (negb b).
Definition andb_ (m n : M bool) : M bool := b <- m; if b then n else ret false.
Definition orb_ (m n : M bool) : M bool := b <- m; if b then ret true else n.

(** The loop conditions of the source: until a closing token or the end. *)
Definition peek_until (t : TokenType) : M bool := andb_ (notb (peek_is t)) (notb (peek_is TOKEN_EOF)).
Definition cur_until (t : TokenType) : M bool := andb_ (notb (cur_is t)) (notb (cur_is TOKEN_EOF)).

Definition nextToken : M unit := fun p =>
  let '(t, l) := NextToken (pl p) in
  Ret tt (mkParser l (peekToken p) t (errors p) (currentVersionPrefix p)).

Definition set_cur (t : Token) : M unit := fun p =>
  Ret tt (mkParser (pl p) t (peekToken p) (errors p) (currentVersionPrefix p)).

Definition retype (ty : TokenType) (t : Token) : Token := mkToken ty (Literal t) (Line t) (Col t).

(** [p.curToken.Type = TOKEN_IDENT] *)
Definition cur_as_ident : M unit := t <- cur; set_cur (retype TOKEN_IDENT t).

Definition set_prefix (pfx : string) : M unit := fun p =>
  Ret tt (mkParser (pl p) (curToken p) (peekToken p) (errors p) pfx).

(** ** Errors *)

Definition append_error (msg : string) : M unit := fun p =>
  Ret tt (mkParser (pl p) (curToken p) (peekToken p) (errors p ++ [msg]) (currentVersionPrefix p)).

Definition at_position (t : Token) (msg : string) : string :=
  "[Line " +:+ FormatInt (Line t) +:+ ", Col " +:+ FormatInt (Col t) +:+ "] " +:+ msg.

Definition addError (msg : string) : M unit := t <- cur; append_error (at_position t msg).

Definition peekError (ty : TokenType) : M unit :=
  t <- peek;
  append_error (at_position t ("expected next token to be " +:+ TokenType_string ty +:+ ", got " +:+
    TokenType_string (Type_ t) +:+ " instead")).

Definition expectPeek (ty : TokenType) : M bool :=
  t <- peek;
  if bool_decide (Type_ t = ty) then nextToken >> ret true
  else if bool_decide (ty = TOKEN_IDENT) && isKeywordToken (Type_ t) then
    nextToken >> cur_as_ident >> ret true
  else peekError ty >> ret false.

(** ** Precedences *)

Definition LOWEST : nat := 1.
Definition ASSIGN : nat := 2.
Definition PIPE : nat := 3.
Definition LOGICAL : nat := 4.
Definition COMPARE : nat := 5.
Definition SUM : nat := 6.
Definition PRODUCT : nat := 7.
Definition CALL : nat := 8.
Definition MEMBER : nat := 9.
Definition INDEX : nat := 10.

Definition precedences (t : TokenType) : option nat :=
  match t with
  | TOKEN_PIPE_ARROW => Some PIPE
  | TOKEN_OR | TOKEN_AND => Some LOGICAL
  | TOKEN_ARROW | TOKEN_ASSIGN | TOKEN_PLUS_ASSIGN | TOKEN_MINUS_ASSIGN | TOKEN_ASTERISK_ASSIGN
  | TOKEN_SLASH_ASSIGN | TOKEN_PERCENT_ASSIGN => Some ASSIGN
  | TOKEN_EQ | TOKEN_NEQ | TOKEN_LT | TOKEN_GT | TOKEN_LTE | TOKEN_GTE => Some COMPARE
  | TOKEN_PIPE | TOKEN_CARET | TOKEN_PLUS | TOKEN_MINUS => Some SUM
  | TOKEN_AMPERSAND | TOKEN_SHIFT_LEFT | TOKEN_SHIFT_RIGHT | TOKEN_ASTERISK | TOKEN_SLASH
  | TOKEN_PERCENT => Some PRODUCT
  | TOKEN_LPAREN => Some CALL
  | TOKEN_DOT | TOKEN_QUESTION_DOT => Some MEMBER
  | TOKEN_LBRACKET => Some INDEX
  | TOKEN_QUESTION => Some CALL
  | _ => None
  end.

(** The lookahead methods read tokens from a copy of the lexer. *)
Definition ahead (l : Lexer) : TokenType * Lexer := let '(t, l') := NextToken l in (Type_ t, l').

Definition isParamListFollowedByBrace (l : Lexer) : bool :=
  let '(t1, l1) := ahead l in
  if negb (bool_decide (t1 = TOKEN_IDENT)) then false
  else let '(t2, l2) := ahead l1 in
       if negb (bool_decide (t2 = TOKEN_RPAREN)) then false
       else let '(t3, _) := ahead l2 in bool_decide (t3 = TOKEN_LBRACE).

Definition peekPrecedence : M nat := fun p =>
  let t := Type_ (peekToken p) in
  Ret (if bool_decide (t = TOKEN_LPAREN) && isParamListFollowedByBrace (pl p) then LOWEST
       else default LOWEST (precedences t)) p.

Definition curPrecedence : M nat := t <- cur; ret (default LOWEST (precedences (Type_ t))).

Definition NewParser (l : Lexer) : Parser :=
  let '(t1, l1) := NextToken l in
  let '(t2, l2) := NextToken l1 in
  mkParser l2 t1 t2 [] "".

(** ** Blocks and shared lists *)

Section Blocks.
Context (parseStatement : M stmt) (fuel : nat).

(** Statements until the closing brace, each followed by one token. *)
Definition statements_until : M (list stmt) :=
  every fuel (cur_until TOKEN_RBRACE)
    (fun ss => s <- parseStatement; nextToken >>
              ret (match s with SNil => ss | _ => ss ++ [s] end)) [].

Definition parseBlockStatement : M block :=
  t <- cur;
  nextToken >>
  ss <- statements_until;
  ret (Block t ss).
End Blocks.
