(* ===== verification/ParserExpr.v ===== *)
(** * Parsing of expressions ([lang/compiler/parser_expr.go], and the function
    literals of [parser_functions.go])

    A Pratt parser: a prefix method per token that can start an expression, an
    infix method per operator.  The methods that recurse through
    [parseExpression], blocks or type annotations take these as parameters;
    [ParserTop] ties the knot. *)

From S2P Require Import Prelude GoStrings GoFloat Tokens Lexer Ast Parser.
Local Open Scope string_scope.
Local Open Scope list_scope.

(** ** Literals ([strconv]) *)

Definition is_octal (c : ascii) : bool := isDigitb c && Ascii.leb c "7".

Definition octal_val (l : bytes) : Z := foldl (fun acc c => acc * 8 + digit_val c)%Z 0%Z l.

(** [ParseInt(s, 0, 64)] on the digit strings the lexer produces: a leading
    zero selects base 8. *)
Definition ParseInt0 (s : string) : option Z :=
  let b := byt s in
  let in_range v := if (v <=? max_int64)%Z then Some v else None in
  if negb (forallb isDigitb b) then None
  else match b with
  | [] => None
  | c :: r =>
      if Ascii.eqb c "0" && negb (bool_decide (r = [])) then
        if forallb is_octal r then in_range (octal_val r) else None
      else in_range (digits_val b)
  end.

(** [ParseFloat(s, 64)] on digits, a dot and digits; an infinite result is a
    range error. *)
Definition ParseFloat (s : string) : option float64 :=
  match Split s "." with
  | [i; f] =>
      let x := float_of_ratio (digits_val (byt i ++ byt f)) (10 ^ Z.of_nat (String.length f)) in
      match x with SpecFloat.S754_infinity _ => None | _ => Some x end
  | _ => None
  end.

(** [m[k] = v] on a map that the tree holds as a list. *)
Fixpoint map_set {A} (k : string) (v : A) (l : list (string * A)) : list (string * A) :=
  match l with
  | [] => [(k, v)]
  | (k', v') :: l => if bool_decide (k = k') then (k, v) :: l else (k', v') :: map_set k v l
  end.

(** ** Lookahead *)

(** Identifiers and commas up to the matching bracket, followed by [close];
    at most 20 tokens. *)
Fixpoint generic_ahead (i : nat) (depth : nat) (close : TokenType) (l : Lexer) : bool :=
  match i with
  | O => false
  | S i =>
      let '(t, l) := ahead l in
      match t with
      | TOKEN_LBRACKET => generic_ahead i (S depth) close l
      | TOKEN_RBRACKET =>
          match depth with
          | S d => generic_ahead i d close l
          | O => bool_decide ((ahead l).1 = close)
          end
      | TOKEN_EOF => false
      | TOKEN_IDENT | TOKEN_COMMA => generic_ahead i depth close l
      | _ => false
      end
  end.

Definition isGenericCallAhead (l : Lexer) : bool := generic_ahead 20 0 TOKEN_LPAREN l.
Definition isGenericStructLiteralAhead (l : Lexer) : bool := generic_ahead 20 0 TOKEN_LBRACE l.

Definition isStructLiteralAhead (l : Lexer) : bool :=
  let '(t1, l1) := ahead l in
  if bool_decide (t1 = TOKEN_RBRACE) then true
  else if negb (bool_decide (t1 = TOKEN_IDENT)) then false
  else bool_decide ((ahead l1).1 = TOKEN_COLON).

Definition look (f : Lexer -> bool) : M bool := fun p => Ret (f (pl p)) p.

(** [if p.peekToken.Type == t { p.nextToken() }] *)
Definition skip_peek (t : TokenType) : M unit := b <- peek_is t; if b then nextToken else ret tt.

(** The identifiers of a list that ends before [close]. *)
Definition ident_list (fuel : nat) (close : TokenType) : M (list string) :=
  every fuel (peek_until close)
    (fun ns =>
       nextToken >>
       t <- cur;
       skip_peek TOKEN_COMMA >>
       ret (if bool_decide (Type_ t = TOKEN_IDENT) then ns ++ [Literal t] else ns)) [].

(** ** Methods *)

Section Methods.
Context (parseExpression : nat -> M expr) (parseStatement : M stmt) (parseTypeAnnotation : M string)
  (fuel : nat).

Definition parsePrefixExpression : M expr :=
  t <- cur;
  nextToken >>
  r <- parseExpression PRODUCT;
  ret (PrefixExpr t (Literal t) r).

Definition parseIntegerLiteral : M expr :=
  t <- cur;
  match ParseInt0 (Literal t) with
  | Some v => ret (IntegerLiteral t v)
  | None => addError ("could not parse " +:+ String quote (Literal t +:+ String quote " as integer")) >> ret ENil
  end.

Definition parseFloatLiteral : M expr :=
  t <- cur;
  match ParseFloat (Literal t) with
  | Some v => ret (FloatLiteral t v)
  | None => addError ("could not parse " +:+ String quote (Literal t +:+ String quote " as float")) >> ret ENil
  end.

Definition parseStringLiteral : M expr := t <- cur; ret (StringLiteral t (Literal t)).
Definition parseDurationLiteral : M expr := t <- cur; ret (DurationLiteral t (Literal t)).
Definition parseFStringLiteral : M expr := t <- cur; ret (FStringLiteral t (Literal t)).
Definition parseBooleanLiteral : M expr :=
  t <- cur; ret (BooleanLiteral t (bool_decide (Type_ t = TOKEN_TRUE))).
Definition parseNilLiteral : M expr := t <- cur; ret (NilLiteral t).
Definition parseSelfExpression : M expr := t <- cur; ret (SelfExpr t).

(** Keywords that stand for themselves in expressions. *)
Definition parseCacheIdentifier : M expr := t <- cur; ret (Identifier t (Literal t)).
Definition parseAiIdentifier : M expr := t <- cur; ret (Identifier t "ai").
Definition parseMailIdentifier : M expr := t <- cur; ret (Identifier t "mail").
Definition parseStoreIdentifier : M expr := t <- cur; ret (Identifier t "store").
Definition parseSearchIdentifier : M expr := t <- cur; ret (Identifier t "search").
Definition parseWorkflowIdentifier : M expr := t <- cur; ret (Identifier t (Literal t)).
Definition parseValidateIdentifier : M expr := t <- cur; ret (Identifier t "validate").
Definition parseAuthIdentifier : M expr := t <- cur; ret (Identifier t "auth").

Definition parseStructLiteral (typeName : string) : M expr :=
  t <- cur;
  for s := loop fuel (peek_until TOKEN_RBRACE)
    (fun s =>
       nextToken >>
       f <- cur;
       if negb (bool_decide (Type_ f = TOKEN_IDENT)) then
         addError ("expected field name in struct literal, got " +:+ TokenType_string (Type_ f)) >> return_ ENil
       else
         check expectPeek TOKEN_COLON or inr ENil;
         nextToken >>
         v <- parseExpression LOWEST;
         skip_peek TOKEN_COMMA >>
         continue (map_set (Literal f) v s.1, s.2 ++ [Literal f])) ([], []);
  check expectPeek TOKEN_RBRACE or ENil;
  ret (StructLiteral t typeName [] s.1 s.2).

Definition parseExpressionList (close : TokenType) : M (list expr) :=
  b <- peek_is close;
  if b then nextToken >> ret []
  else
    nextToken >>
    e <- parseExpression LOWEST;
    es <- every fuel (peek_is TOKEN_COMMA)
      (fun es => nextToken >> nextToken >> e <- parseExpression LOWEST; ret (es ++ [e])) [e];
    check expectPeek close or [];
    ret es.

(** After an identifier: a generic call, a generic struct literal, a struct
    literal, or nothing.  The type assertion on the result of
    [parseStructLiteral] panics when it is nil. *)
Definition parseIdentifier : M expr :=
  t <- cur;
  let ident := Identifier t (Literal t) in
  let plain :=
    b <- andb_ (peek_is TOKEN_LBRACE) (look isStructLiteralAhead);
    if b then nextToken >> parseStructLiteral (Literal t) else ret ident in
  b <- peek_is TOKEN_LBRACKET;
  if b then
    g <- look isGenericCallAhead;
    if g then
      nextToken >>
      typeArgs <- ident_list fuel TOKEN_RBRACKET;
      nextToken >>
      c <- peek_is TOKEN_LPAREN;
      if c then
        nextToken >>
        tok <- cur;
        args <- parseExpressionList TOKEN_RPAREN;
        ret (CallExpr tok ident typeArgs args)
      else plain
    else
      g <- look isGenericStructLiteralAhead;
      if g then
        nextToken >>
        typeArgs <- ident_list fuel TOKEN_RBRACKET;
        nextToken >>
        c <- peek_is TOKEN_LBRACE;
        if c then
          nextToken >>
          e <- parseStructLiteral (Literal t);
          match e with
          | StructLiteral tok n _ fs ko => ret (StructLiteral tok n typeArgs fs ko)
          | _ => panic
          end
        else plain
      else plain
  else plain.

Definition parseElement : M expr :=
  t <- cur;
  if bool_decide (Type_ t = TOKEN_SPREAD) then
    nextToken >> e <- parseExpression LOWEST; ret (SpreadElement t e)
  else parseExpression LOWEST.

Definition parseArrayLiteral : M expr :=
  t <- cur;
  b <- peek_is TOKEN_RBRACKET;
  if b then nextToken >> ret (ArrayLiteral t [])
  else
    nextToken >>
    e <- parseElement;
    es <- every fuel (peek_is TOKEN_COMMA)
      (fun es => nextToken >> nextToken >> e <- parseElement; ret (es ++ [e])) [e];
    check expectPeek TOKEN_RBRACKET or ENil;
    ret (ArrayLiteral t es).

(** The locals of [parseMapLiteral]: pairs, key order, spreads, entry index. *)
Definition map_locals : Type := list (string * expr) * list string * list (Z * expr) * Z.

Definition add_pair (k : string) (v : expr) (s : map_locals) : map_locals :=
  let '(ps, ko, sp, i) := s in (map_set k v ps, ko ++ [k], sp, (i + 1)%Z).

Definition add_spread (v : expr) (s : map_locals) : map_locals :=
  let '(ps, ko, sp, i) := s in (ps, ko, sp ++ [(i, v)], (i + 1)%Z).

Definition map_entry (s : map_locals) : M (map_locals + expr) :=
  nextToken >>
  t <- cur;
  if bool_decide (Type_ t = TOKEN_SPREAD) then
    nextToken >>
    e <- parseExpression LOWEST;
    skip_peek TOKEN_COMMA >>
    continue (add_spread e s)
  else if negb (bool_decide (Type_ t = TOKEN_STRING)) && negb (bool_decide (Type_ t = TOKEN_IDENT)) then
    addError ("expected map key, got " +:+ TokenType_string (Type_ t)) >> return_ ENil
  else
    c <- peek_is TOKEN_COLON;
    if bool_decide (Type_ t = TOKEN_IDENT) && negb c then
      skip_peek TOKEN_COMMA >>
      continue (add_pair (Literal t) (Identifier t (Literal t)) s)
    else
      check expectPeek TOKEN_COLON or inr ENil;
      nextToken >>
      v <- parseExpression LOWEST;
      skip_peek TOKEN_COMMA >>
      continue (add_pair (Literal t) v s).

Definition parseMapLiteral : M expr :=
  t <- cur;
  for s := loop fuel (peek_until TOKEN_RBRACE) map_entry ([], [], [], 0%Z);
  check expectPeek TOKEN_RBRACE or ENil;
  let '(ps, ko, sp, _) := s in ret (MapLiteral t ps ko sp false).

Definition parseGroupedExpression : M expr :=
  nextToken >>
  e <- parseExpression LOWEST;
  check expectPeek TOKEN_RPAREN or ENil;
  ret e.

Definition parseAssertExpression : M expr :=
  t <- cur; nextToken >> c <- parseExpression LOWEST; ret (AssertExpr t c).

Definition parseAwaitExpression : M expr :=
  t <- cur; nextToken >> v <- parseExpression LOWEST; ret (AwaitExpr t v).

Definition parseSpawnExpression : M expr :=
  t <- cur;
  b <- peek_is TOKEN_LPAREN;
  for limit := (if b then
      nextToken >> nextToken >>
      l <- parseExpression LOWEST;
      check expectPeek TOKEN_RPAREN or inr ENil;
      continue l
    else continue ENil);
  nextToken >>
  c <- parseExpression LOWEST;
  ret (SpawnExpr t c limit).

Definition parseStreamExpression : M expr :=
  t <- cur;
  nextToken >>
  v <- parseExpression PRODUCT;
  ret (CallExpr (mkToken TOKEN_LPAREN "(" (Line t) (Col t)) (Identifier t "stream") [] [v]).

(** A parameter and its type: a name and, after a colon, what [type_] reads. *)
Definition parse_param (type_ : M string) : M (string * string) :=
  nextToken >>
  n <- lit;
  b <- peek_is TOKEN_COLON;
  if b then nextToken >> nextToken >> ty <- type_; ret (n, ty) else ret (n, "").

(** A parameter list up to its closing parenthesis. *)
Definition parse_params (type_ : M string) : M (list (string * string)) :=
  b <- peek_is TOKEN_RPAREN;
  if b then ret []
  else
    x <- parse_param type_;
    every fuel (peek_is TOKEN_COMMA)
      (fun xs => nextToken >> x <- parse_param type_; ret (xs ++ [x])) [x].

Definition parseFnLiteral : M expr :=
  t <- cur;
  check expectPeek TOKEN_LPAREN or ENil;
  ps <- parse_params parseTypeAnnotation;
  check expectPeek TOKEN_RPAREN or ENil;
  check expectPeek TOKEN_LBRACE or ENil;
  b <- parseBlockStatement parseStatement fuel;
  ret (FnLiteral t ps.*1 ps.*2 b false ENil).

(** ** Infix methods *)

Definition parseInfixExpression (left : expr) : M expr :=
  t <- cur;
  precedence <- curPrecedence;
  nextToken >>
  r <- parseExpression precedence;
  ret (InfixExpr t left (Literal t) r).

Definition parseCallExpression (function : expr) : M expr :=
  t <- cur; args <- parseExpressionList TOKEN_RPAREN; ret (CallExpr t function [] args).

(** The field after a dot, keywords included. *)
Definition field_name : M (option string) :=
  t <- peek;
  if bool_decide (Type_ t = TOKEN_IDENT) || isKeywordToken (Type_ t) then
    nextToken >> cur_as_ident >> f <- lit; ret (Some f)
  else peekError TOKEN_IDENT >> ret None.

Definition parseMemberExpression (left : expr) : M expr :=
  t <- cur; f <- field_name; ret (match f with Some f => MemberExpr t left f | None => ENil end).

Definition parseOptionalMemberExpression (left : expr) : M expr :=
  t <- cur; f <- field_name; ret (match f with Some f => OptionalMemberExpr t left f | None => ENil end).

Definition parseAssignmentExpression (left : expr) : M expr :=
  t <- cur;
  match left with
  | Identifier _ n => nextToken >> v <- parseExpression LOWEST; ret (AssignExpr t n v)
  | MemberExpr _ o f => nextToken >> v <- parseExpression LOWEST; ret (MemberAssignExpr t o f v)
  | IndexExpr lt l i => nextToken >> v <- parseExpression LOWEST; ret (IndexAssignExpr t lt l i v)
  | _ => addError "left side of assignment must be an identifier, member expression, or index expression" >>
         ret ENil
  end.

Definition parseIndexExpression (left : expr) : M expr :=
  t <- cur;
  nextToken >>
  c <- cur_is TOKEN_COLON;
  if c then
    nextToken >>
    b <- cur_is TOKEN_RBRACKET;
    stop <- (if b then ret ENil else parseExpression LOWEST);
    check expectPeek TOKEN_RBRACKET or ENil;
    ret (SliceExpr t left ENil stop)
  else
    start <- parseExpression LOWEST;
    c <- peek_is TOKEN_COLON;
    if c then
      nextToken >> nextToken >>
      b <- cur_is TOKEN_RBRACKET;
      if b then ret (SliceExpr t left start ENil)
      else
        stop <- parseExpression LOWEST;
        check expectPeek TOKEN_RBRACKET or ENil;
        ret (SliceExpr t left start stop)
    else
      check expectPeek TOKEN_RBRACKET or ENil;
      ret (IndexExpr t left start).

Definition parseCompoundAssignExpression (left : expr) : M expr :=
  t <- cur;
  match left with
  | Identifier _ n => nextToken >> v <- parseExpression LOWEST; ret (CompoundAssignExpr t n (Literal t) v)
  | _ => addError "left side of compound assignment must be an identifier" >> ret ENil
  end.

Definition parseErrorPropExpression (left : expr) : M expr := t <- cur; ret (ErrorPropExpr t left).

Definition parsePipeExpression (left : expr) : M expr :=
  precedence <- curPrecedence;
  t <- cur;
  nextToken >>
  right <- parseExpression precedence;
  ret (match right with
       | ENil => ENil
       | CallExpr tok f ta args => CallExpr tok f ta (left :: args)
       | _ => CallExpr (mkToken TOKEN_LPAREN "(" (Line t) (Col t)) right [] [left]
       end).

Definition parseArrowFunction (left : expr) : M expr :=
  t <- cur;
  let params := match left with Identifier _ n => [n] | _ => [] end in
  nextToken >>
  e <- parseExpression LOWEST;
  ret (FnLiteral t params (replicate (length params) "") NoBlock true e).

(** ** The registered methods *)

Definition prefixParseFns (t : TokenType) : option (M expr) :=
  match t with
  | TOKEN_IDENT => Some parseIdentifier
  | TOKEN_INT => Some parseIntegerLiteral
  | TOKEN_FLOAT => Some parseFloatLiteral
  | TOKEN_STRING => Some parseStringLiteral
  | TOKEN_DURATION => Some parseDurationLiteral
  | TOKEN_LBRACE => Some parseMapLiteral
  | TOKEN_LBRACKET => Some parseArrayLiteral
  | TOKEN_LPAREN => Some parseGroupedExpression
  | TOKEN_FSTRING => Some parseFStringLiteral
  | TOKEN_CACHE => Some parseCacheIdentifier
  | TOKEN_AI => Some parseAiIdentifier
  | TOKEN_AUTH => Some parseAuthIdentifier
  | TOKEN_MAIL => Some parseMailIdentifier
  | TOKEN_STORE => Some parseStoreIdentifier
  | TOKEN_SEARCH => Some parseSearchIdentifier
  | TOKEN_WORKFLOW => Some parseWorkflowIdentifier
  | TOKEN_STREAM => Some parseStreamExpression
  | TOKEN_ASSERT => Some parseAssertExpression
  | TOKEN_TRUE | TOKEN_FALSE => Some parseBooleanLiteral
  | TOKEN_NIL => Some parseNilLiteral
  | TOKEN_SELF => Some parseSelfExpression
  | TOKEN_AWAIT => Some parseAwaitExpression
  | TOKEN_SPAWN => Some parseSpawnExpression
  | TOKEN_FN => Some parseFnLiteral
  | TOKEN_VALIDATE => Some parseValidateIdentifier
  | TOKEN_MINUS | TOKEN_BANG => Some parsePrefixExpression
  | _ => None
  end.

Definition infixParseFns (t : TokenType) : option (expr -> M expr) :=
  match t with
  | TOKEN_PLUS | TOKEN_MINUS | TOKEN_ASTERISK | TOKEN_SLASH | TOKEN_PERCENT | TOKEN_AMPERSAND
  | TOKEN_PIPE | TOKEN_CARET | TOKEN_SHIFT_LEFT | TOKEN_SHIFT_RIGHT | TOKEN_EQ | TOKEN_NEQ
  | TOKEN_LT | TOKEN_GT | TOKEN_LTE | TOKEN_GTE | TOKEN_OR | TOKEN_AND => Some parseInfixExpression
  | TOKEN_PIPE_ARROW => Some parsePipeExpression
  | TOKEN_LPAREN => Some parseCallExpression
  | TOKEN_DOT => Some parseMemberExpression
  | TOKEN_QUESTION_DOT => Some parseOptionalMemberExpression
  | TOKEN_LBRACKET => Some parseIndexExpression
  | TOKEN_ASSIGN => Some parseAssignmentExpression
  | TOKEN_PLUS_ASSIGN | TOKEN_MINUS_ASSIGN | TOKEN_ASTERISK_ASSIGN | TOKEN_SLASH_ASSIGN
  | TOKEN_PERCENT_ASSIGN => Some parseCompoundAssignExpression
  | TOKEN_ARROW => Some parseArrowFunction
  | TOKEN_QUESTION => Some parseErrorPropExpression
  | _ => None
  end.

(** The operators that follow, as long as they bind tighter. *)
Definition binds_tighter (precedence : nat) : M bool :=
  andb_ (notb (peek_is TOKEN_EOF)) (q <- peekPrecedence; ret (precedence <? q)%nat).

Definition infix_step (left : expr) : M (expr + expr) :=
  t <- peek;
  match infixParseFns (Type_ t) with
  | None => return_ left
  | Some infix => nextToken >> e <- infix left; continue e
  end.

(** One call of [parseExpression]. *)
Definition parseExpression_body (precedence : nat) : M expr :=
  t <- cur;
  let rest (prefix : M expr) :=
    left <- prefix;
    for e := loop fuel (binds_tighter precedence) infix_step left;
    ret e in
  match prefixParseFns (Type_ t) with
  | Some prefix => rest prefix
  | None =>
      if isKeywordToken (Type_ t) then cur_as_ident >> rest parseIdentifier
      else addError ("no prefix parse function for " +:+ TokenType_string (Type_ t) +:+ " found") >> ret ENil
  end.
End Methods.
