(* ===== verification/ParserStmt.v ===== *)
(** * Parsing of statements, declarations and types
    ([lang/compiler/parser_stmt.go], [parser_controlflow.go],
    [parser_functions.go], [parser_types.go])

    As for expressions, the methods a statement parser recurses through are
    parameters. *)

From S2P Require Import Prelude GoStrings GoFloat Tokens Lexer Ast Parser ParserExpr.
Local Open Scope string_scope.
Local Open Scope list_scope.

(** [strings.ToUpper(s[:1]) + s[1:]]; a first byte that is not ASCII is not
    a letter, and becomes U+FFFD. *)
Definition upper_byte (c : ascii) : bytes :=
  if Ascii.leb "a" c && Ascii.leb c "z" then [ascii_of_N (N_of_ascii c - 32)]
  else if (N_of_ascii c <? 128)%N then [c]
  else ["239"; "191"; "189"]%char.

Definition capitalizeFirst (s : string) : string :=
  match byt s with [] => s | c :: r => str (upper_byte c ++ r) end.

(** [val, _ := strconv.Atoi(s)]: the value, which on a range error of digits
    is the greatest one. *)
Definition Atoi_value (s : string) : Z :=
  match Atoi s with Some v => v | None => if negb (bool_decide (s = "")) && forallb isDigitb (byt s) then max_int64 else 0%Z end.

Section Methods.
Context (parseExpression : nat -> M expr) (parseStatement : M stmt) (parseTypeAnnotation : M string)
  (parseIfStatement : M stmt) (fuel : nat).

Local Abbreviation parseBlockStatement := (parseBlockStatement parseStatement fuel).
Local Abbreviation parse_params := (parse_params fuel).

Definition parseExpressionStatement : M stmt := t <- cur; e <- parseExpression LOWEST; ret (ExprStmt t e).

(** ** Types *)

(** The arguments [[T, ...]] of a generic type, in brackets. *)
Definition type_args (baseType : string) : M string :=
  nextToken >>
  args <- every fuel (peek_until TOKEN_RBRACKET)
    (fun args => nextToken >> a <- parseTypeAnnotation; skip_peek TOKEN_COMMA >> ret (args ++ [a])) [];
  b <- expectPeek TOKEN_RBRACKET;
  ret (if b then baseType +:+ "[" +:+ Join args ", " +:+ "]" else baseType).

(** A simple, generic or array type. *)
Definition base_type : M string :=
  t <- cur;
  if bool_decide (Type_ t = TOKEN_LBRACKET) then
    r <- peek_is TOKEN_RBRACKET;
    if r then
      nextToken >> nextToken >>
      n <- lit;
      let baseType := "[]" +:+ n in
      g <- peek_is TOKEN_LBRACKET;
      if g then type_args baseType else ret baseType
    else ret (Literal t)
  else
    g <- peek_is TOKEN_LBRACKET;
    if g then type_args (Literal t) else ret (Literal t).

Definition parseTypeAnnotation_body : M string :=
  baseType <- base_type;
  q <- peek_is TOKEN_QUESTION;
  baseType <- (if q then nextToken >> ret (baseType +:+ "?") else ret baseType);
  u <- peek_is TOKEN_PIPE;
  if u then
    nextToken >> nextToken >>
    rightType <- parseTypeAnnotation;
    ret (baseType +:+ "|" +:+ rightType)
  else ret baseType.

(** Optional type parameters [[T, U: Constraint]] of a declaration. *)
Definition type_params {R} (nil_ : R) : M (list string * list string + R) :=
  b <- peek_is TOKEN_LBRACKET;
  if b then
    nextToken >>
    r <- every fuel (peek_until TOKEN_RBRACKET)
      (fun r =>
         nextToken >>
         t <- cur;
         r' <- (if bool_decide (Type_ t = TOKEN_IDENT) then
                  c <- peek_is TOKEN_COLON;
                  if c then nextToken >> nextToken >> k <- lit; ret (r.1 ++ [Literal t], r.2 ++ [k])
                  else ret (r.1 ++ [Literal t], r.2 ++ [""])
                else ret r);
         skip_peek TOKEN_COMMA >>
         ret r') ([], []);
    check expectPeek TOKEN_RBRACKET or inr nil_;
    continue r
  else continue ([], []).

Definition parseStructDeclaration : M stmt :=
  t <- cur;
  check expectPeek TOKEN_IDENT or SNil;
  n <- lit;
  for tp := type_params SNil;
  check expectPeek TOKEN_LBRACE or SNil;
  for fs := loop fuel (peek_until TOKEN_RBRACE)
    (fun fs =>
       nextToken >>
       f <- cur;
       if negb (bool_decide (Type_ f = TOKEN_IDENT)) && negb (isKeywordToken (Type_ f)) then
         addError ("expected field name in struct, got " +:+ TokenType_string (Type_ f)) >> return_ SNil
       else
         cur_as_ident >>
         check expectPeek TOKEN_COLON or inr SNil;
         nextToken >>
         ty <- parseTypeAnnotation;
         skip_peek TOKEN_COMMA >>
         continue (fs ++ [mkStructField (Literal f) ty])) [];
  check expectPeek TOKEN_RBRACE or SNil;
  ret (StructDecl t n tp.1 tp.2 fs).

(** The return type after [->], as the source reads it there. *)
Definition return_type (type_ : M string) : M string :=
  b <- peek_is TOKEN_RET_ARROW;
  if b then nextToken >> nextToken >> type_ else ret "".

Definition interface_method (ms : list InterfaceMethod) : M (list InterfaceMethod + stmt) :=
  nextToken >>
  t <- cur;
  if negb (bool_decide (Type_ t = TOKEN_FN)) then
    addError ("expected 'fn' in interface body, got " +:+ TokenType_string (Type_ t)) >> return_ SNil
  else
    check expectPeek TOKEN_IDENT or inr SNil;
    n <- lit;
    check expectPeek TOKEN_LPAREN or inr SNil;
    ps <- parse_params lit;
    check expectPeek TOKEN_RPAREN or inr SNil;
    rt <- return_type lit;
    continue (ms ++ [mkInterfaceMethod n ps.*1 ps.*2 rt]).

Definition parseInterfaceDeclaration : M stmt :=
  t <- cur;
  check expectPeek TOKEN_IDENT or SNil;
  n <- lit;
  check expectPeek TOKEN_LBRACE or SNil;
  for ms := loop fuel (peek_until TOKEN_RBRACE) interface_method [];
  check expectPeek TOKEN_RBRACE or SNil;
  ret (InterfaceDecl t n ms).

Definition parseEnumStatement : M stmt :=
  t <- cur;
  check expectPeek TOKEN_IDENT or SNil;
  n <- lit;
  check expectPeek TOKEN_LBRACE or SNil;
  s <- every fuel (peek_until TOKEN_RBRACE)
    (fun s =>
       nextToken >>
       m <- cur;
       s' <- (if bool_decide (Type_ m = TOKEN_IDENT) then
                a <- peek_is TOKEN_ASSIGN;
                if a then
                  nextToken >> nextToken >>
                  v <- parseExpression LOWEST;
                  ret (s.1 ++ [Literal m], map_set (Literal m) v s.2)
                else ret (s.1 ++ [Literal m], s.2)
              else ret s);
       skip_peek TOKEN_COMMA >>
       ret s') ([], []);
  check expectPeek TOKEN_RBRACE or SNil;
  ret (EnumStmt t n s.1 s.2).

Definition parseTypeAliasStatement : M stmt :=
  t <- cur;
  check expectPeek TOKEN_IDENT or SNil;
  n <- lit;
  check expectPeek TOKEN_ASSIGN or SNil;
  nextToken >>
  b <- parseTypeAnnotation;
  ret (TypeAliasStmt t n b).

Definition parseValidateStatement : M stmt :=
  t <- cur;
  check expectPeek TOKEN_LBRACE or SNil;
  for s := loop fuel (peek_until TOKEN_RBRACE)
    (fun s : list string * list string =>
       nextToken >>
       k <- cur;
       for s' := (if bool_decide (Type_ k = TOKEN_IDENT) then
                    check expectPeek TOKEN_STRING or inr (inr SNil);
                    key <- lit;
                    continue (if bool_decide (Literal k = "required") then (s.1 ++ [key], s.2)
                              else if bool_decide (Literal k = "optional") then (s.1, s.2 ++ [key])
                              else s)
                  else continue s);
       skip_peek TOKEN_COMMA >>
       continue s') ([], []);
  check expectPeek TOKEN_RBRACE or SNil;
  ret (ValidateStmt t s.1 s.2).

(** ** Functions *)

(** The clauses after the head of a function: retries, timeout, circuit
    breaker. *)
Definition is_clause (t : TokenType) : bool :=
  match t with TOKEN_RETRIES | TOKEN_TIMEOUT | TOKEN_CIRCUIT_BREAKER => true | _ => false end.

Definition fn_clause (s : Z * string * bool) : M (Z * string * bool + stmt) :=
  let '(retries, timeout, breaker) := s in
  t <- peek;
  match Type_ t with
  | TOKEN_RETRIES =>
      nextToken >>
      check expectPeek TOKEN_INT or inr SNil;
      n <- lit;
      continue (Atoi_value n, timeout, breaker)
  | TOKEN_TIMEOUT => nextToken >> nextToken >> d <- lit; continue (retries, d, breaker)
  | _ => nextToken >> continue (retries, timeout, true)
  end.

Definition parseMethodDeclaration (fnToken : Token) (typeName methodName : string) : M stmt :=
  check expectPeek TOKEN_LPAREN or SNil;
  ps <- parse_params parseTypeAnnotation;
  check expectPeek TOKEN_RPAREN or SNil;
  rt <- return_type parseTypeAnnotation;
  check expectPeek TOKEN_LBRACE or SNil;
  b <- parseBlockStatement;
  ret (MethodDecl fnToken typeName methodName ps.*1 ps.*2 rt b).

Definition parseFnDeclaration : M stmt :=
  flags <- every fuel (orb_ (cur_is TOKEN_RESILIENT) (cur_is TOKEN_CACHED))
    (fun f => r <- cur_is TOKEN_RESILIENT; nextToken >> ret (if r then (true, f.2) else (f.1, true)))
    (false, false);
  fnToken <- cur;
  if negb (bool_decide (Type_ fnToken = TOKEN_FN)) then ret SNil
  else
    check expectPeek TOKEN_IDENT or SNil;
    firstName <- lit;
    d <- peek_is TOKEN_DOT;
    if d then
      nextToken >>
      check expectPeek TOKEN_IDENT or SNil;
      methodName <- lit;
      parseMethodDeclaration fnToken firstName methodName
    else
      for tp := type_params SNil;
      check expectPeek TOKEN_LPAREN or SNil;
      ps <- parse_params parseTypeAnnotation;
      check expectPeek TOKEN_RPAREN or SNil;
      rt <- return_type parseTypeAnnotation;
      for c := loop fuel (t <- peek; ret (is_clause (Type_ t))) fn_clause (0%Z, "", false);
      check expectPeek TOKEN_LBRACE or SNil;
      b <- parseBlockStatement;
      ret (FnDecl fnToken
             (mkFnHead firstName tp.1 tp.2 ps.*1 ps.*2 rt flags.1 c.1.1 c.1.2 c.2 flags.2) b).

(** ** Imports and externs *)

Definition parseImportStatement : M stmt :=
  a <- peek;
  if bool_decide (Type_ a = TOKEN_IDENT) then
    nextToken >>
    check expectPeek TOKEN_FROM or SNil;
    check expectPeek TOKEN_STRING or SNil;
    t <- cur;
    ret (GoPackageImport t (Literal a) (Literal t))
  else
    t <- cur;
    b <- peek_is TOKEN_LBRACE;
    if b then
      nextToken >>
      ns <- ident_list fuel TOKEN_RBRACE;
      check expectPeek TOKEN_RBRACE or SNil;
      check expectPeek TOKEN_FROM or SNil;
      check expectPeek TOKEN_STRING or SNil;
      path <- lit;
      ret (ImportStmt (Type_ t) path ns)
    else
      check expectPeek TOKEN_STRING or SNil;
      path <- lit;
      ret (ImportStmt (Type_ t) path []).

(** Names separated by commas up to a closing parenthesis. *)
Definition name_list : M (list string) :=
  b <- peek_is TOKEN_RPAREN;
  if b then ret []
  else
    nextToken >>
    n <- lit;
    every fuel (peek_is TOKEN_COMMA) (fun ns => nextToken >> nextToken >> n <- lit; ret (ns ++ [n])) [n].

Definition parseExternBlockFn (sourcePkg : string) : M stmt :=
  t <- cur;
  check expectPeek TOKEN_IDENT or SNil;
  n <- lit;
  check expectPeek TOKEN_LPAREN or SNil;
  ps <- name_list;
  check expectPeek TOKEN_RPAREN or SNil;
  f <- peek_is TOKEN_FROM;
  for goFuncName := (if f then
      nextToken >>
      check expectPeek TOKEN_STRING or inr SNil;
      g <- lit;
      continue g
    else continue (capitalizeFirst n));
  ret (ExternFnStmt t n ps (sourcePkg +:+ ":" +:+ goFuncName)).

Definition add_stmt (ss : list stmt) (s : stmt) : list stmt :=
  match s with SNil => ss | _ => ss ++ [s] end.

Definition parseExternStatement : M stmt :=
  t <- cur;
  f <- peek_is TOKEN_FROM;
  if f then
    nextToken >>
    check expectPeek TOKEN_STRING or SNil;
    sourcePkg <- lit;
    check expectPeek TOKEN_LBRACE or SNil;
    bt <- cur;
    nextToken >>
    ss <- every fuel (cur_until TOKEN_RBRACE)
      (fun ss =>
         fn <- cur_is TOKEN_FN;
         ss' <- (if fn then s <- parseExternBlockFn sourcePkg; ret (add_stmt ss s) else ret ss);
         nextToken >>
         ret ss') [];
    ret (BlockStmt bt ss)
  else
    check expectPeek TOKEN_FN or SNil;
    check expectPeek TOKEN_IDENT or SNil;
    n <- lit;
    check expectPeek TOKEN_LPAREN or SNil;
    ps <- name_list;
    check expectPeek TOKEN_RPAREN or SNil;
    check expectPeek TOKEN_FROM or SNil;
    check expectPeek TOKEN_STRING or SNil;
    src <- lit;
    ret (ExternFnStmt t n ps src).

(** ** Simple statements *)

Definition parseLetStatement : M stmt :=
  letToken <- cur;
  b <- peek_is TOKEN_LBRACE;
  if b then
    nextToken >>
    fs <- ident_list fuel TOKEN_RBRACE;
    check expectPeek TOKEN_RBRACE or SNil;
    check expectPeek TOKEN_ASSIGN or SNil;
    nextToken >>
    v <- parseExpression LOWEST;
    ret (DestructureLetStmt letToken fs v)
  else
    check expectPeek TOKEN_IDENT or SNil;
    n <- lit;
    for ns := loop fuel (peek_is TOKEN_COMMA)
      (fun ns =>
         nextToken >>
         check expectPeek TOKEN_IDENT or inr SNil;
         n <- lit;
         continue (ns ++ [n])) [n];
    c <- peek_is TOKEN_COLON;
    ty <- (if c && (length ns =? 1)%nat then nextToken >> nextToken >> parseTypeAnnotation else ret "");
    check expectPeek TOKEN_ASSIGN or SNil;
    nextToken >>
    v <- parseExpression LOWEST;
    ret (LetStmt letToken n ns ty v).

Definition parseReturnStatement : M stmt :=
  t <- cur; nextToken >> v <- parseExpression LOWEST; ret (ReturnStmt t v).
Definition parseYieldStatement : M stmt :=
  t <- cur; nextToken >> v <- parseExpression LOWEST; ret (YieldStmt t v).

Definition parseTestStatement : M stmt :=
  t <- cur;
  n <- orb_ (peek_is TOKEN_IDENT) (peek_is TOKEN_STRING);
  if negb n then peekError TOKEN_IDENT >> ret SNil
  else
    nextToken >>
    name <- lit;
    w <- peek_is TOKEN_TIMEOUT;
    timeout <- (if w then
        nextToken >>
        i <- peek_is TOKEN_INT;
        nextToken >>
        d <- lit;
        ret (if i then d +:+ "s" else d)
      else ret "");
    check expectPeek TOKEN_LBRACE or SNil;
    b <- parseBlockStatement;
    ret (TestStmt t name timeout b).

Definition parsePublishStatement : M stmt :=
  t <- cur;
  nextToken >>
  topic <- parseExpression LOWEST;
  nextToken >>
  v <- parseExpression LOWEST;
  ret (PublishStmt t topic v).

Definition parseSpawnStatement : M stmt :=
  t <- cur;
  b <- peek_is TOKEN_LPAREN;
  for limit := (if b then
      nextToken >> nextToken >>
      l <- parseExpression LOWEST;
      check expectPeek TOKEN_RPAREN or inr SNil;
      continue l
    else continue ENil);
  nextToken >>
  c <- parseExpression LOWEST;
  ret (SpawnStmt t c limit).

Definition parseBeforeEachStatement : M stmt :=
  t <- cur; check expectPeek TOKEN_LBRACE or SNil; b <- parseBlockStatement; ret (BeforeEachStmt t b).
Definition parseAfterEachStatement : M stmt :=
  t <- cur; check expectPeek TOKEN_LBRACE or SNil; b <- parseBlockStatement; ret (AfterEachStmt t b).

Definition parseMockStatement : M stmt :=
  t <- cur;
  nextToken >>
  target <- parseExpression LOWEST;
  check expectPeek TOKEN_LBRACE or SNil;
  b <- parseBlockStatement;
  ret (MockStmt t target b).

Definition parseActorDeclaration : M stmt :=
  t <- cur;
  check expectPeek TOKEN_IDENT or SNil;
  n <- lit;
  check expectPeek TOKEN_LPAREN or SNil;
  ps <- parse_params parseTypeAnnotation;
  check expectPeek TOKEN_RPAREN or SNil;
  check expectPeek TOKEN_LBRACE or SNil;
  b <- parseBlockStatement;
  ret (ActorDecl t n ps.*1 ps.*2 b).

Definition parseWorkflowDeclaration : M stmt :=
  t <- cur;
  check expectPeek TOKEN_IDENT or SNil;
  n <- lit;
  check expectPeek TOKEN_LPAREN or SNil;
  r <- peek_is TOKEN_RPAREN;
  param <- (if r then ret "" else x <- parse_param parseTypeAnnotation; ret x.1);
  check expectPeek TOKEN_RPAREN or SNil;
  check expectPeek TOKEN_LBRACE or SNil;
  b <- parseBlockStatement;
  ret (WorkflowDecl t n param b).

(** The version, without quotes around it. *)
Definition bare_version (v : string) : string :=
  match byt v with
  | c :: r =>
      if Ascii.eqb c quote && (1 <=? length r)%nat && bool_decide (last r = Some quote)
      then str (removelast r) else v
  | [] => v
  end.

Definition version_prefix (oldPrefix version : string) : string :=
  let pfx := if negb (bool_decide (oldPrefix = "")) && negb (bool_decide (last (byt oldPrefix) = Some "/"%char))
             then oldPrefix +:+ "/" else oldPrefix in
  pfx +:+ version.

Definition parseVersionBlock : M stmt :=
  t <- cur;
  check expectPeek TOKEN_STRING or SNil;
  v <- lit;
  let version := bare_version v in
  check expectPeek TOKEN_LBRACE or SNil;
  nextToken >>
  oldPrefix <- (fun p => Ret (currentVersionPrefix p) p);
  set_prefix (version_prefix oldPrefix version) >>
  ss <- statements_until parseStatement fuel;
  set_prefix oldPrefix >>
  b <- cur_is TOKEN_RBRACE;
  if b then ret (VersionBlockStmt t version ss)
  else addError "expected closing brace '}' for version block" >> ret SNil.

(** ** Control flow *)

Definition parseIfStatement_body : M stmt :=
  t <- cur;
  nextToken >>
  c <- parseExpression LOWEST;
  check expectPeek TOKEN_LBRACE or SNil;
  b <- parseBlockStatement;
  e <- peek_is TOKEN_ELSE;
  if e then
    nextToken >>
    i <- peek_is TOKEN_IF;
    if i then
      nextToken >>
      elseIf <- parseIfStatement;
      et <- cur;
      ret (IfStmt t c b (match elseIf with SNil => NoBlock | _ => Block et [elseIf] end))
    else
      check expectPeek TOKEN_LBRACE or SNil;
      eb <- parseBlockStatement;
      ret (IfStmt t c b eb)
  else ret (IfStmt t c b NoBlock).

(** What the head of a [for] declares: variable, key variable, iterable. *)
Definition for_head : M (string * string * expr * bool + stmt) :=
  v <- cur;
  k <- peek;
  if bool_decide (Type_ v = TOKEN_IDENT) && bool_decide (Type_ k = TOKEN_IN) then
    nextToken >> nextToken >>
    it <- parseExpression LOWEST;
    continue (Literal v, "", it, true)
  else if bool_decide (Type_ v = TOKEN_IDENT) && bool_decide (Type_ k = TOKEN_COMMA) then
    nextToken >>
    check expectPeek TOKEN_IDENT or inr SNil;
    x <- lit;
    check expectPeek TOKEN_IN or inr SNil;
    nextToken >>
    it <- parseExpression LOWEST;
    continue (x, Literal v, it, true)
  else it <- parseExpression LOWEST; continue ("", "", it, false).

Definition parseForStatement : M stmt :=
  t <- cur;
  nextToken >>
  for h := for_head;
  check expectPeek TOKEN_LBRACE or SNil;
  b <- parseBlockStatement;
  let '(v, k, it, rg) := h in ret (ForStmt t v k it rg b).

Definition match_case (cs : list (expr * block)) : M (list (expr * block) + stmt) :=
  t <- cur;
  v <- (if bool_decide (Type_ t = TOKEN_IDENT) && bool_decide (Literal t = "_") then ret ENil
        else parseExpression ASSIGN);
  nextToken >>
  a <- cur_is TOKEN_ARROW;
  if negb a then addError "expected => after match case value" >> return_ SNil
  else
    nextToken >>
    o <- cur_is TOKEN_LBRACE;
    if negb o then addError "expected { after match case arrow" >> return_ SNil
    else
      b <- parseBlockStatement;
      nextToken >>
      continue (cs ++ [(v, b)]).

Definition parseMatchStatement : M stmt :=
  t <- cur;
  nextToken >>
  v <- parseExpression LOWEST;
  check expectPeek TOKEN_LBRACE or SNil;
  nextToken >>
  for cs := loop fuel (cur_until TOKEN_RBRACE) match_case [];
  ret (MatchStmt t v cs).

Definition parseTryCatchStatement : M stmt :=
  t <- cur;
  check expectPeek TOKEN_LBRACE or SNil;
  tb <- parseBlockStatement;
  check expectPeek TOKEN_CATCH or SNil;
  check expectPeek TOKEN_LPAREN or SNil;
  check expectPeek TOKEN_IDENT or SNil;
  param <- lit;
  check expectPeek TOKEN_RPAREN or SNil;
  check expectPeek TOKEN_LBRACE or SNil;
  cb <- parseBlockStatement;
  ret (TryCatchStmt t tb param cb).
End Methods.
