(* ===== verification/ParserServices.v ===== *)
(** * Parsing of service declarations ([lang/compiler/parser_services.go])

    The statements that declare servers, routes, stores, schedules and the
    like. *)

From S2P Require Import Prelude GoStrings GoFloat Tokens Lexer GoInline Ast AstString Migration Parser ParserExpr ParserStmt.
Local Open Scope string_scope.
Local Open Scope list_scope.

(** The path of a route inside version blocks. *)
Definition versioned_path (prefix path : string) : string :=
  if bool_decide (prefix = "") then path
  else
    let pfx := if HasPrefix prefix "/" then prefix else "/" +:+ prefix in
    let pfx := TrimSuffix pfx "/" in
    let pth := if HasPrefix path "/" then path else "/" +:+ path in
    pfx +:+ pth.

Section Methods.
Context (parseExpression : nat -> M expr) (parseStatement : M stmt) (parseTypeAnnotation : M string)
  (fuel : nat).

Local Abbreviation parseBlockStatement := (parseBlockStatement parseStatement fuel).

(** ** Keyword and value *)

(** The statements that are a keyword and an expression. *)
Definition keyword_value (make : Token -> expr -> stmt) : M stmt :=
  t <- cur; nextToken >> v <- parseExpression LOWEST; ret (make t v).

Definition parseBrokerStatement : M stmt := keyword_value BrokerStmt.
Definition parseAiStatement : M stmt := keyword_value AiStmt.
Definition parseAuthStatement : M stmt := keyword_value AuthStmt.
Definition parseMailStatement : M stmt := keyword_value MailStmt.
Definition parseNotifyStatement : M stmt := keyword_value NotifyStmt.
Definition parseStoreStatement : M stmt := keyword_value StoreStmt.
Definition parseSearchStatement : M stmt := keyword_value SearchStmt.
Definition parseDatabaseStatement : M stmt := keyword_value DatabaseStmt.
Definition parseCacheStatement : M stmt := keyword_value CacheStmt.

Definition parseServerStatement : M stmt :=
  t <- cur;
  nextToken >>
  v <- parseExpression LOWEST;
  k <- peek;
  if bool_decide (Type_ k = TOKEN_IDENT) && bool_decide (Literal k = "tls") then
    nextToken >>
    check expectPeek TOKEN_STRING or SNil;
    cert <- lit;
    check expectPeek TOKEN_STRING or SNil;
    key <- lit;
    ret (ServerStmt t v true cert key)
  else ret (ServerStmt t v false "" "").

(** ** Blocks with a head *)

Definition parseAppStatement : M stmt :=
  t <- cur;
  check orb_ (expectPeek TOKEN_IDENT) (expectPeek TOKEN_STRING) or SNil;
  n <- lit;
  check expectPeek TOKEN_LBRACE or SNil;
  b <- parseBlockStatement;
  ret (AppStmt t n b).

(** [(param) { body }] *)
Definition param_body : M (string * block + stmt) :=
  check expectPeek TOKEN_LPAREN or inr SNil;
  check expectPeek TOKEN_IDENT or inr SNil;
  param <- lit;
  check expectPeek TOKEN_RPAREN or inr SNil;
  check expectPeek TOKEN_LBRACE or inr SNil;
  b <- parseBlockStatement;
  continue (param, b).

Definition parseToolStatement : M stmt :=
  t <- cur;
  check expectPeek TOKEN_STRING or SNil;
  n <- lit;
  check expectPeek TOKEN_STRING or SNil;
  d <- lit;
  for x := param_body;
  ret (ToolStmt t n d x.1 x.2).

Definition parseMigrationStatement : M stmt :=
  t <- cur;
  check expectPeek TOKEN_STRING or SNil;
  n <- lit;
  check expectPeek TOKEN_LBRACE or SNil;
  b <- parseBlockStatement;
  ret (MigrationStmt t n b (match b with Block _ ss => tables_of ss | NoBlock => [] end)).

(** The statements [keyword expression { body }]. *)
Definition value_body (make : Token -> expr -> block -> stmt) : M stmt :=
  t <- cur;
  nextToken >>
  v <- parseExpression LOWEST;
  check expectPeek TOKEN_LBRACE or SNil;
  b <- parseBlockStatement;
  ret (make t v b).

Definition parseEveryStatement : M stmt := value_body EveryStmt.
Definition parseCronStatement : M stmt := value_body CronStmt.
Definition parseLockStatement : M stmt := value_body LockStmt.

Definition parseSubscribeStatement : M stmt :=
  t <- cur; nextToken >> topic <- parseExpression LOWEST; for x := param_body; ret (SubscribeStmt t topic x.1 x.2).
Definition parseTransformStatement : M stmt :=
  t <- cur; nextToken >> topic <- parseExpression LOWEST; for x := param_body; ret (TransformStmt t topic x.1 x.2).

Definition parsePolicyStatement : M stmt :=
  t <- cur; check expectPeek TOKEN_IDENT or SNil; n <- lit; for x := param_body; ret (PolicyStmt t n x.1 x.2).
Definition parseWsStatement : M stmt :=
  t <- cur; check expectPeek TOKEN_STRING or SNil; n <- lit; for x := param_body; ret (WsStmt t n x.1 x.2).
Definition parseOnStatement : M stmt :=
  t <- cur; check expectPeek TOKEN_STRING or SNil; n <- lit; for x := param_body; ret (OnStmt t n x.1 x.2).

Definition parseMiddlewareDeclaration : M stmt :=
  t <- cur;
  nextToken >>
  n <- cur;
  if negb (bool_decide (Type_ n = TOKEN_IDENT)) && negb (isKeywordToken (Type_ n)) then
    append_error ("expected middleware name, got " +:+ TokenType_string (Type_ n)) >> ret SNil
  else for x := param_body; ret (MiddlewareDecl t (Literal n) x.1 x.2).

(** The statements [keyword name { body }], the name a token of a type. *)
Definition name_body (ty : TokenType) (make : Token -> string -> block -> stmt) : M stmt :=
  t <- cur;
  check expectPeek ty or SNil;
  n <- lit;
  check expectPeek TOKEN_LBRACE or SNil;
  b <- parseBlockStatement;
  ret (make t n b).

Definition parseGraphQLStatement : M stmt := name_body TOKEN_STRING GraphQLStmt.
Definition parseBucketStatement : M stmt := name_body TOKEN_IDENT BucketStmt.
Definition parseGateStatement : M stmt := name_body TOKEN_IDENT GateStmt.
Definition parseRagStatement : M stmt := name_body TOKEN_STRING RagStmt.

Definition parseMeshStatement : M stmt :=
  t <- cur; check expectPeek TOKEN_LBRACE or SNil; b <- parseBlockStatement; ret (MeshStmt t b).

Definition parseJobStatement : M stmt :=
  t <- cur;
  check expectPeek TOKEN_IDENT or SNil;
  n <- lit;
  nextToken >>
  spec <- lit;
  check expectPeek TOKEN_LBRACE or SNil;
  b <- parseBlockStatement;
  ret (JobStmt t n spec b).

(** ** Agents *)

Definition tool_names (el : expr) : list string :=
  match el with Identifier _ v | StringLiteral _ v => [v] | _ => [] end.

Definition agent_entry (s : string * string * list string) : M (string * string * list string + stmt) :=
  let '(system, model, tools) := s in
  k <- cur;
  for s' := (if bool_decide (Type_ k = TOKEN_IDENT) then
      check expectPeek TOKEN_COLON or inr (inr SNil);
      nextToken >>
      v <- parseExpression LOWEST;
      let valStr := match v with StringLiteral _ x | Identifier _ x => x | _ => "" end in
      let tools := match v with ArrayLiteral _ els => tools ++ flat_map tool_names els | _ => tools end in
      continue (if bool_decide (Literal k = "system") then (valStr, model, tools)
                else if bool_decide (Literal k = "model") then (system, valStr, tools)
                else (system, model, tools))
    else continue s);
  nextToken >>
  continue s'.

Definition parseAgentDeclaration : M stmt :=
  t <- cur;
  check expectPeek TOKEN_IDENT or SNil;
  n <- lit;
  check expectPeek TOKEN_LBRACE or SNil;
  nextToken >>
  for s := loop fuel (cur_until TOKEN_RBRACE) agent_entry ("", "", []);
  let '(system, model, tools) := s in ret (AgentDecl t n system model tools).

(** ** Routes *)

(** [limit 10/second] *)
Definition rate_limit : M (Z * string + stmt) :=
  check expectPeek TOKEN_INT or inr SNil;
  n <- lit;
  match Atoi n with
  | None => return_ SNil
  | Some val =>
      check expectPeek TOKEN_SLASH or inr SNil;
      check expectPeek TOKEN_IDENT or inr SNil;
      period <- lit;
      continue (val, period)
  end.

(** [expr.String()], which panics on a nil part. *)
Definition text_of (e : expr) : M string :=
  match expr_String e with Some s => ret s | None => panic end.

(** [use [auth, logging]] *)
Definition middlewares : M (list string + stmt) :=
  check expectPeek TOKEN_LBRACKET or inr SNil;
  ms <- every fuel (peek_until TOKEN_RBRACKET)
    (fun ms =>
       nextToken >>
       e <- parseExpression LOWEST;
       ms' <- (if is_ENil e then ret ms else s <- text_of e; ret (ms ++ [s]));
       skip_peek TOKEN_COMMA >>
       ret ms') [];
  check expectPeek TOKEN_RBRACKET or inr SNil;
  continue ms.

Definition route_suffix (s : bool * string) : M (bool * string) :=
  b <- peek_is TOKEN_STREAM;
  if b then nextToken >> ret (true, s.2)
  else nextToken >> nextToken >> ty <- parseTypeAnnotation; ret (s.1, ty).

Definition parseRouteStatement : M stmt :=
  t <- cur;
  check expectPeek TOKEN_STRING or SNil;
  method <- lit;
  check expectPeek TOKEN_STRING or SNil;
  path <- lit;
  prefix <- (fun p => Ret (currentVersionPrefix p) p);
  check expectPeek TOKEN_LPAREN or SNil;
  check expectPeek TOKEN_IDENT or SNil;
  param <- lit;
  check expectPeek TOKEN_RPAREN or SNil;
  l <- peek_is TOKEN_LIMIT;
  for limit := (if l then nextToken >> rate_limit else continue (0%Z, ""));
  u <- peek_is TOKEN_USE;
  for ms := (if u then nextToken >> middlewares else continue []);
  s <- every fuel (orb_ (peek_is TOKEN_STREAM) (peek_is TOKEN_RET_ARROW)) route_suffix (false, "");
  check expectPeek TOKEN_LBRACE or SNil;
  b <- parseBlockStatement;
  ret (RouteStmt t
         (mkRouteHead method (versioned_path prefix path) param limit.1 limit.2 ms s.1 s.2) b).

Definition parseRateLimitStatement : M stmt :=
  t <- cur; for r := rate_limit; ret (RateLimitStmt t r.1 r.2).

(** ** Tables *)

Definition set_primary (c : ColumnDef) := mkColumnDef (cd_name c) (cd_type c) true (cd_autoincrement c) (cd_required c) (cd_unique c) (cd_default c).
Definition set_autoincrement (c : ColumnDef) := mkColumnDef (cd_name c) (cd_type c) (cd_primary c) true (cd_required c) (cd_unique c) (cd_default c).
Definition set_required (c : ColumnDef) := mkColumnDef (cd_name c) (cd_type c) (cd_primary c) (cd_autoincrement c) true (cd_unique c) (cd_default c).
Definition set_unique (c : ColumnDef) := mkColumnDef (cd_name c) (cd_type c) (cd_primary c) (cd_autoincrement c) (cd_required c) true (cd_default c).
Definition set_default (d : string) (c : ColumnDef) := mkColumnDef (cd_name c) (cd_type c) (cd_primary c) (cd_autoincrement c) (cd_required c) (cd_unique c) (Some d).

(** One annotation after [@]; [inr] leaves the loop over annotations. *)
Definition column_annotation (col : ColumnDef) : M (ColumnDef + ColumnDef) :=
  nextToken >>
  stop <- orb_ (cur_is TOKEN_EOF) (cur_is TOKEN_RBRACE);
  if stop then return_ col
  else
    a <- lit;
    let annotation := ToLower a in
    if bool_decide (annotation = "primary") then nextToken >> continue (set_primary col)
    else if bool_decide (annotation = "autoincrement") then nextToken >> continue (set_autoincrement col)
    else if bool_decide (annotation = "required") then nextToken >> continue (set_required col)
    else if bool_decide (annotation = "unique") then nextToken >> continue (set_unique col)
    else if bool_decide (annotation = "default") then
      nextToken >>
      o <- cur_is TOKEN_LPAREN;
      if o then
        nextToken >>
        d <- lit;
        nextToken >>
        c <- cur_is TOKEN_RPAREN;
        (if c then nextToken else ret tt) >>
        continue (set_default d col)
      else continue col
    else nextToken >> continue col.

Definition table_column (cols : list ColumnDef) : M (list ColumnDef + list ColumnDef) :=
  n <- lit;
  nextToken >>
  stop <- orb_ (cur_is TOKEN_RBRACE) (cur_is TOKEN_EOF);
  if stop then return_ cols
  else
    ty <- lit;
    nextToken >>
    r <- loop fuel (cur_is TOKEN_MACRO) column_annotation (mkColumnDef n ty false false false false None);
    continue (cols ++ [match r with inl c | inr c => c end]).

Definition parseTableDeclaration : M stmt :=
  t <- cur;
  check expectPeek TOKEN_IDENT or SNil;
  n <- lit;
  check expectPeek TOKEN_LBRACE or SNil;
  nextToken >>
  r <- loop fuel (cur_until TOKEN_RBRACE) table_column [];
  ret (TableDecl t n (match r with inl cs | inr cs => cs end)).

(** ** Declared modules *)

(** A parameter after a comma has to be an identifier here. *)
Definition module_params : M (list (string * string) + stmt) :=
  b <- peek_is TOKEN_RPAREN;
  if b then continue []
  else
    x <- parse_param lit;
    loop fuel (peek_is TOKEN_COMMA)
      (fun xs =>
         nextToken >>
         check expectPeek TOKEN_IDENT or inr SNil;
         n <- lit;
         c <- peek_is TOKEN_COLON;
         ty <- (if c then nextToken >> nextToken >> lit else ret "");
         continue (xs ++ [(n, ty)])) [x].

Definition module_fn : M (DeclareModuleFunc + stmt) :=
  m <- peek_is TOKEN_BANG;
  (if m then nextToken else ret tt) >>
  check expectPeek TOKEN_IDENT or inr SNil;
  n <- lit;
  check expectPeek TOKEN_LPAREN or inr SNil;
  for ps := (r <- module_params; ret (match r with inl ps => inl ps | inr s => inr (inr s) end));
  check expectPeek TOKEN_RPAREN or inr SNil;
  rt <- return_type lit;
  continue (mkDeclareModuleFunc n ps.*1 ps.*2 rt m).

Definition module_route : M (DeclareModuleRoute + stmt) :=
  ok <- orb_ (peek_is TOKEN_STRING) (peek_is TOKEN_IDENT);
  if negb ok then
    k <- peek;
    addError ("expected string or identifier for route method, got " +:+ TokenType_string (Type_ k)) >>
    return_ SNil
  else
    nextToken >>
    method <- lit;
    check expectPeek TOKEN_STRING or inr SNil;
    path <- lit;
    check expectPeek TOKEN_LPAREN or inr SNil;
    b <- peek_is TOKEN_RPAREN;
    pts <- (if b then ret [] else x <- parse_param lit; ret [x.2]);
    check expectPeek TOKEN_RPAREN or inr SNil;
    rt <- return_type lit;
    continue (mkDeclareModuleRoute method path pts rt).

Definition module_item (s : list DeclareModuleFunc * list DeclareModuleRoute) :
    M (list DeclareModuleFunc * list DeclareModuleRoute + stmt) :=
  nextToken >>
  t <- cur;
  match Type_ t with
  | TOKEN_FN => r <- module_fn; ret (match r with inl f => inl (s.1 ++ [f], s.2) | inr x => inr x end)
  | TOKEN_ROUTE => r <- module_route; ret (match r with inl f => inl (s.1, s.2 ++ [f]) | inr x => inr x end)
  | _ =>
      addError ("expected 'fn' or 'route' in declare module body, got " +:+ TokenType_string (Type_ t)) >>
      return_ SNil
  end.

Definition parseDeclareStatement : M stmt :=
  t <- cur;
  check expectPeek TOKEN_MODULE or SNil;
  check expectPeek TOKEN_STRING or SNil;
  pkg <- lit;
  check expectPeek TOKEN_LBRACE or SNil;
  for s := loop fuel (peek_until TOKEN_RBRACE) module_item ([], []);
  check expectPeek TOKEN_RBRACE or SNil;
  ret (DeclareModuleStmt t pkg s.1 s.2).

(** ** Other statements *)

Definition parseExportStatement : M stmt :=
  t <- cur;
  nextToken >>
  inner <- parseStatement;
  ret (match inner with SNil => SNil | _ => ExportStmt t inner end).

Definition parseCorsStatement : M stmt :=
  t <- cur;
  check expectPeek TOKEN_LBRACE or SNil;
  o <- andb_ (expectPeek TOKEN_IDENT) (k <- lit; ret (bool_decide (k = "origins")));
  if negb o then addError "expected 'origins' keyword in cors block" >> ret SNil
  else
    check expectPeek TOKEN_COLON or SNil;
    nextToken >>
    k <- cur;
    for origins := (match Type_ k with
      | TOKEN_LBRACKET =>
          os <- every fuel (peek_until TOKEN_RBRACKET)
            (fun os =>
               nextToken >>
               x <- cur;
               skip_peek TOKEN_COMMA >>
               ret (if bool_decide (Type_ x = TOKEN_STRING) then os ++ [Literal x] else os)) [];
          check expectPeek TOKEN_RBRACKET or inr SNil;
          continue os
      | TOKEN_STRING => continue [Literal k]
      | _ => addError "expected string or list of strings for cors origins" >> return_ SNil
      end);
    check expectPeek TOKEN_RBRACE or SNil;
    ret (CorsStmt t origins).

Definition parseInjectStatement : M stmt :=
  t <- cur;
  check expectPeek TOKEN_IDENT or SNil;
  n <- lit;
  check expectPeek TOKEN_COLON or SNil;
  check expectPeek TOKEN_IDENT or SNil;
  i <- lit;
  ret (InjectStmt t n i).

(** The error texts of [ReadGoInlineSignatureAndBody]. *)
Definition inline_body (macroToken : Token) (fnName : string) : M stmt := fun p =>
  match ReadGoInlineSignatureAndBody (pl p) with
  | (InlineOk sig body, l) =>
      let '(t, l') := NextToken l in
      Ret (GoInlineFnStmt macroToken fnName sig body)
        (mkParser l' (mkToken TOKEN_RBRACE "}" (Line macroToken) (Col macroToken)) t (errors p)
           (currentVersionPrefix p))
  | (InlineErr msg, l) =>
      Ret SNil (mkParser l (curToken p) (peekToken p) (errors p ++ [msg]) (currentVersionPrefix p))
  | (InlinePanic, _) => Panic
  end.

Definition inline_go (macroToken : Token) : M stmt :=
  nextToken >>
  k <- peek;
  if negb (bool_decide (Type_ k = TOKEN_FN)) && negb (bool_decide (Literal k = "fn")) then
    append_error "expected 'fn' after @inline go" >> ret SNil
  else
    nextToken >>
    check expectPeek TOKEN_IDENT or SNil;
    fnName <- lit;
    inline_body macroToken fnName.

Definition parseMacroStatement : M stmt :=
  t <- cur;
  check expectPeek TOKEN_IDENT or SNil;
  n <- lit;
  k <- peek;
  if bool_decide (n = "inline") && bool_decide (Literal k = "go") then inline_go t
  else
    b <- peek_is TOKEN_LPAREN;
    if b then
      nextToken >>
      args <- name_list fuel;
      check expectPeek TOKEN_RPAREN or SNil;
      ret (MacroStmt t n args)
    else ret (MacroStmt t n []).

Definition parseCommandDeclaration : M stmt :=
  t <- cur;
  check expectPeek TOKEN_IDENT or SNil;
  n <- lit;
  check expectPeek TOKEN_LPAREN or SNil;
  ps <- name_list fuel;
  check expectPeek TOKEN_RPAREN or SNil;
  check expectPeek TOKEN_LBRACE or SNil;
  b <- parseBlockStatement;
  ret (CommandDecl t n ps b).

Definition event_store_item (s : list stmt * list stmt) : M (list stmt * list stmt) :=
  t <- cur;
  match Type_ t with
  | TOKEN_COMMAND => c <- parseCommandDeclaration; nextToken >> ret (add_stmt s.1 c, s.2)
  | TOKEN_ON => h <- parseOnStatement; nextToken >> ret (s.1, add_stmt s.2 h)
  | _ => nextToken >> ret s
  end.

Definition parseEventStoreStatement : M stmt :=
  t <- cur;
  check expectPeek TOKEN_STRING or SNil;
  n <- lit;
  check expectPeek TOKEN_LBRACE or SNil;
  nextToken >>
  s <- every fuel (cur_until TOKEN_RBRACE) event_store_item ([], []);
  ret (EventStoreStmt t n s.1 s.2).

Definition parseEmitStatement : M stmt :=
  t <- cur;
  check expectPeek TOKEN_STRING or SNil;
  e <- lit;
  nextToken >>
  p <- parseExpression LOWEST;
  ret (EmitStmt t e p).
End Methods.
