(* ===== verification/ParserTop.v ===== *)
(** * The parser as a whole ([parseStatement], [synchronize] and
    [ParseProgram] of [lang/compiler/parser.go])

    The methods call each other recursively; [methods n] are the methods with
    recursion depth and loop rounds at most [n]. *)

From S2P Require Import Prelude GoStrings GoFloat Tokens Lexer Ast Parser ParserExpr ParserStmt ParserServices.
Local Open Scope string_scope.
Local Open Scope list_scope.

Record Methods := mkMethods {
  parseExpression : nat -> M expr;
  parseStatement : M stmt;
  parseTypeAnnotation : M string;
  parseIfStatement : M stmt }.

Section Statement.
Context (ms : Methods) (fuel : nat).

Local Abbreviation E := (parseExpression ms).
Local Abbreviation S := (parseStatement ms).
Local Abbreviation T := (parseTypeAnnotation ms).
Local Abbreviation expression := (parseExpressionStatement E).

(** A keyword followed by a dot starts an expression. *)
Definition unless_peek (t : TokenType) (m : M stmt) : M stmt :=
  b <- peek_is t; if b then expression else m.

Definition parseStatement_body : M stmt :=
  t <- cur;
  match Type_ t with
  | TOKEN_IMPORT => parseImportStatement fuel
  | TOKEN_EXTERN => parseExternStatement fuel
  | TOKEN_BROKER => parseBrokerStatement E
  | TOKEN_AI => parseAiStatement E
  | TOKEN_SERVER => parseServerStatement E
  | TOKEN_APP => parseAppStatement S fuel
  | TOKEN_AGENT => parseAgentDeclaration E fuel
  | TOKEN_ROUTE => parseRouteStatement E S T fuel
  | TOKEN_TOOL => parseToolStatement S fuel
  | TOKEN_EVERY => parseEveryStatement E S fuel
  | TOKEN_CRON => parseCronStatement E S fuel
  | TOKEN_SUBSCRIBE => parseSubscribeStatement E S fuel
  | TOKEN_TRANSFORM => parseTransformStatement E S fuel
  | TOKEN_POLICY => parsePolicyStatement S fuel
  | TOKEN_PUBLISH => parsePublishStatement E
  | TOKEN_SPAWN => parseSpawnStatement E
  | TOKEN_LET => parseLetStatement E T fuel
  | TOKEN_RETURN => parseReturnStatement E
  | TOKEN_YIELD => parseYieldStatement E
  | TOKEN_VERSION => parseVersionBlock S fuel
  | TOKEN_RESILIENT | TOKEN_CACHED | TOKEN_FN => parseFnDeclaration S T fuel
  | TOKEN_TRY => parseTryCatchStatement S fuel
  | TOKEN_MAIL => unless_peek TOKEN_DOT (parseMailStatement E)
  | TOKEN_NOTIFY => unless_peek TOKEN_DOT (parseNotifyStatement E)
  | TOKEN_STORE => unless_peek TOKEN_DOT (parseStoreStatement E)
  | TOKEN_SEARCH => unless_peek TOKEN_DOT (parseSearchStatement E)
  | TOKEN_AUTH => parseAuthStatement E
  | TOKEN_DATABASE => parseDatabaseStatement E
  | TOKEN_CACHE => unless_peek TOKEN_DOT (parseCacheStatement E)
  | TOKEN_MATCH => parseMatchStatement E S fuel
  | TOKEN_TEST => parseTestStatement S fuel
  | TOKEN_MOCK => parseMockStatement E S fuel
  | TOKEN_ENUM => parseEnumStatement E fuel
  | TOKEN_MIGRATION => parseMigrationStatement S fuel
  | TOKEN_TABLE => parseTableDeclaration fuel
  | TOKEN_IF => parseIfStatement ms
  | TOKEN_FOR => parseForStatement E S fuel
  | TOKEN_STRUCT => parseStructDeclaration T fuel
  | TOKEN_ACTOR => parseActorDeclaration S T fuel
  | TOKEN_WORKFLOW => unless_peek TOKEN_DOT (parseWorkflowDeclaration S T fuel)
  | TOKEN_INTERFACE => parseInterfaceDeclaration fuel
  | TOKEN_INJECT => parseInjectStatement
  | TOKEN_GRAPHQL => parseGraphQLStatement S fuel
  | TOKEN_MACRO => parseMacroStatement fuel
  | TOKEN_MIDDLEWARE => parseMiddlewareDeclaration S fuel
  | TOKEN_DECLARE => parseDeclareStatement fuel
  | TOKEN_WS => parseWsStatement S fuel
  | TOKEN_TYPE => parseTypeAliasStatement T
  | TOKEN_VALIDATE => unless_peek TOKEN_LPAREN (parseValidateStatement fuel)
  | TOKEN_MESH => parseMeshStatement S fuel
  | TOKEN_ON => parseOnStatement S fuel
  | TOKEN_LOCK => parseLockStatement E S fuel
  | TOKEN_BUCKET => parseBucketStatement S fuel
  | TOKEN_GATE => parseGateStatement S fuel
  | TOKEN_JOB => parseJobStatement S fuel
  | TOKEN_RAG => parseRagStatement S fuel
  | TOKEN_EVENT_STORE => parseEventStoreStatement S fuel
  | TOKEN_EMIT => parseEmitStatement E
  | TOKEN_EXPORT => parseExportStatement S
  | TOKEN_BREAK => ret (BreakStmt t)
  | TOKEN_CONTINUE => ret (ContinueStmt t)
  | TOKEN_CORS => parseCorsStatement fuel
  | TOKEN_RATE_LIMIT => parseRateLimitStatement
  | TOKEN_BEFORE_EACH => parseBeforeEachStatement S fuel
  | TOKEN_AFTER_EACH => parseAfterEachStatement S fuel
  | _ => expression
  end.
End Statement.

Fixpoint methods (n : nat) : Methods :=
  match n with
  | O => mkMethods (fun _ => no_fuel) no_fuel no_fuel no_fuel
  | Datatypes.S n =>
      let ms := methods n in
      mkMethods
        (parseExpression_body (parseExpression ms) (parseStatement ms) (parseTypeAnnotation ms) n)
        (parseStatement_body ms n)
        (parseTypeAnnotation_body (parseTypeAnnotation ms) n)
        (parseIfStatement_body (parseExpression ms) (parseStatement ms) (parseIfStatement ms) n)
  end.

(** ** Programs *)

Definition is_sync (t : TokenType) : bool :=
  match t with
  | TOKEN_IMPORT | TOKEN_EXTERN | TOKEN_BROKER | TOKEN_AI | TOKEN_SERVER | TOKEN_ROUTE
  | TOKEN_TOOL | TOKEN_FN | TOKEN_LET | TOKEN_EVERY | TOKEN_CRON | TOKEN_SUBSCRIBE
  | TOKEN_DATABASE | TOKEN_CACHE | TOKEN_STRUCT | TOKEN_INTERFACE | TOKEN_MIDDLEWARE
  | TOKEN_WS | TOKEN_ACTOR | TOKEN_WORKFLOW | TOKEN_EVENT_STORE => true
  | _ => false
  end.

Definition synchronize (n : nat) : M unit :=
  every n (t <- cur; ret (negb (bool_decide (Type_ t = TOKEN_EOF)) && negb (is_sync (Type_ t))))
    (fun _ => nextToken) tt.

Definition error_count : M nat := fun p => Ret (length (errors p)) p.

(** One round of the loop of [ParseProgram]. *)
Definition program_step (n : nat) (ss : list stmt) : M (list stmt) :=
  prevErrorsLen <- error_count;
  s <- parseStatement (methods n);
  errorsLen <- error_count;
  (if (prevErrorsLen <? errorsLen)%nat then synchronize n else nextToken) >>
  ret (add_stmt ss s).

(** [n] bounds the rounds and the work of each. *)
Definition ParseProgram (n : nat) : M Program :=
  ss <- every n (notb (cur_is TOKEN_EOF)) (program_step n) [];
  ret (mkProgram ss).

(** The program and the error messages of a source text. *)
Definition parse (n : nat) (source : string) : result Program := ParseProgram n (NewParser (NewLexer source)).
