(* ===== verification/ParserFacts.v ===== *)
(** * How much the parser reads

    A program logic for the parser's methods: [runs m p Q] holds when [m]
    started in [p] does not run out of fuel, and if it returns, its result and
    final state satisfy [Q].  Progress is measured by the unread input. *)

From S2P Require Import Prelude GoStrings GoFloat Tokens Lexer LexerFacts LexerProps GoInline Ast AstString.
From S2P Require Import Parser ParserExpr ParserStmt ParserServices ParserTop.
Local Open Scope string_scope.
Local Open Scope list_scope.

Definition runs {A} (m : M A) (p : Parser) (Q : A -> Parser -> Prop) : Prop :=
  match m p with Ret a p' => Q a p' | Panic => True | NoFuel => False end.

Lemma runs_mono {A} (m : M A) p (Q Q' : A -> Parser -> Prop) :
  runs m p Q -> (forall a p', Q a p' -> Q' a p') -> runs m p Q'.
Proof. unfold runs. destruct (m p); auto. Qed.

Lemma runs_bind {A B} (m : M A) (k : A -> M B) p Q :
  runs m p (fun a p' => runs (k a) p' Q) -> runs (bind m k) p Q.
Proof. unfold runs, bind. by destruct (m p). Qed.

Lemma runs_ret {A} (a : A) p (Q : A -> Parser -> Prop) : Q a p -> runs (ret a) p Q.
Proof. done. Qed.

Lemma runs_panic {A} p (Q : A -> Parser -> Prop) : runs panic p Q.
Proof. done. Qed.

(** ** Progress *)

(** Tokens other than the end count one. *)
Definition live (t : Token) : nat := if decide (Type_ t = TOKEN_EOF) then 0 else 1.

(** What is left to read; the current token weighs less than the ones
    ahead. *)
Definition room (p : Parser) : nat := live (peekToken p) + length (rest (pl p)).
Definition size (p : Parser) : nat := 2 * room p + live (curToken p).

Definition good (p : Parser) : Prop := wf (pl p).

Lemma NextToken_reads l :
  wf l -> wf (NextToken l).2 /\ live (NextToken l).1 + length (rest (NextToken l).2) <= length (rest l).
Proof.
  intros Hw. destruct (NextToken_cases l Hw) as (gap & l1 & Hg & [[_ ->]|[_ Ht]]); cbn [fst snd].
  - assert (wf l1) by eauto with go. split; [auto with go|]. rewrite rest_readChar by done.
    apply advances_rest in Hg. rewrite Hg, length_app. unfold live. cbn [tok_at Type_]. rewrite decide_True by done. destruct (rest l1); cbn; lia.
  - destruct (NextToken l) as [t l2]. destruct Ht as (w & Hne & _ & _ & (Hw2 & _ & Hr) & _ & _ & Hneof).
    cbn in *. split; [done|]. apply advances_rest in Hg. rewrite Hg, Hr, !length_app.
    destruct w; [done|]. unfold live. case_decide; cbn; lia.
Qed.

Lemma live_le t : live t <= 1.
Proof. unfold live. case_decide; lia. Qed.

Lemma live_type t : Type_ t <> TOKEN_EOF -> live t = 1.
Proof. intros H. unfold live. by rewrite decide_False. Qed.

Lemma live_neq t : live t = 1 -> Type_ t <> TOKEN_EOF.
Proof. intros H E. unfold live in H. by rewrite decide_True in H. Qed.

(** The state and the cursor do not change. *)
Definition same (p p' : Parser) : Prop :=
  pl p' = pl p /\ curToken p' = curToken p /\ peekToken p' = peekToken p.

Lemma same_size p p' : same p p' -> size p' = size p.
Proof. intros (H1 & H2 & H3). unfold size, room. by rewrite H1, H2, H3. Qed.

Lemma same_good p p' : same p p' -> good p -> good p'.
Proof. intros (H1 & _). unfold good. by rewrite H1. Qed.

(** ** Rules for the primitives *)

Section Rules.
Context {B : Type} (Q : B -> Parser -> Prop) (p : Parser).

Lemma runs_cur (k : Token -> M B) : runs (k (curToken p)) p Q -> runs (bind cur k) p Q.
Proof. done. Qed.
Lemma runs_peek (k : Token -> M B) : runs (k (peekToken p)) p Q -> runs (bind peek k) p Q.
Proof. done. Qed.
Lemma runs_lit (k : string -> M B) : runs (k (Literal (curToken p))) p Q -> runs (bind lit k) p Q.
Proof. done. Qed.
Lemma runs_look f (k : bool -> M B) : runs (k (f (pl p))) p Q -> runs (bind (look f) k) p Q.
Proof. done. Qed.
Lemma runs_peekPrecedence (k : nat -> M B) : (forall n, runs (k n) p Q) -> runs (bind peekPrecedence k) p Q.
Proof. intros H. apply H. Qed.
Lemma runs_curPrecedence (k : nat -> M B) : (forall n, runs (k n) p Q) -> runs (bind curPrecedence k) p Q.
Proof. intros H. apply H. Qed.
Lemma runs_error_count (k : nat -> M B) : runs (k (length (errors p))) p Q -> runs (bind error_count k) p Q.
Proof. done. Qed.

Lemma runs_cur_is t (k : bool -> M B) :
  (Type_ (curToken p) = t -> runs (k true) p Q) -> (Type_ (curToken p) <> t -> runs (k false) p Q) ->
  runs (bind (cur_is t) k) p Q.
Proof.
  intros H1 H2. change (runs (k (bool_decide (Type_ (curToken p) = t))) p Q). case_bool_decide; auto.
Qed.

Lemma runs_peek_is t (k : bool -> M B) :
  (Type_ (peekToken p) = t -> runs (k true) p Q) -> (Type_ (peekToken p) <> t -> runs (k false) p Q) ->
  runs (bind (peek_is t) k) p Q.
Proof.
  intros H1 H2. change (runs (k (bool_decide (Type_ (peekToken p) = t))) p Q). case_bool_decide; auto.
Qed.

Lemma runs_nextToken (k : unit -> M B) :
  good p ->
  (forall p', good p' -> curToken p' = peekToken p ->
     size p' + live (curToken p) + live (peekToken p) <= size p -> runs (k tt) p' Q) ->
  runs (bind nextToken k) p Q.
Proof.
  intros Hg H. unfold runs, bind, nextToken. destruct (NextToken_reads (pl p) Hg) as [Hw Hl].
  destruct (NextToken (pl p)) as [t l]. cbn in *. apply H; [done|done|].
  unfold size, room. cbn. lia.
Qed.

Lemma runs_append_error msg (k : unit -> M B) :
  (forall p', same p p' -> runs (k tt) p' Q) -> runs (bind (append_error msg) k) p Q.
Proof. intros H. apply H. done. Qed.
Lemma runs_addError msg (k : unit -> M B) :
  (forall p', same p p' -> runs (k tt) p' Q) -> runs (bind (addError msg) k) p Q.
Proof. intros H. apply H. done. Qed.
Lemma runs_peekError t (k : unit -> M B) :
  (forall p', same p p' -> runs (k tt) p' Q) -> runs (bind (peekError t) k) p Q.
Proof. intros H. apply H. done. Qed.
Lemma runs_set_prefix x (k : unit -> M B) :
  (forall p', same p p' -> runs (k tt) p' Q) -> runs (bind (set_prefix x) k) p Q.
Proof. intros H. apply H. done. Qed.
Lemma runs_get_prefix (k : string -> M B) :
  (forall x, runs (k x) p Q) -> runs (bind (fun p => Ret (currentVersionPrefix p) p) k) p Q.
Proof. intros H. apply H. Qed.

Lemma runs_cur_as_ident (k : unit -> M B) :
  good p -> Type_ (curToken p) <> TOKEN_EOF ->
  (forall p', good p' -> size p' = size p -> Type_ (curToken p') = TOKEN_IDENT -> peekToken p' = peekToken p ->
     runs (k tt) p' Q) ->
  runs (bind cur_as_ident k) p Q.
Proof.
  intros Hg Hc H. apply H; [done| |done|done]. unfold size, room. cbn. by rewrite (live_type _ Hc).
Qed.

(** [expectPeek]: either a token was read, or only an error was recorded. *)
Lemma runs_expectPeek t (k : bool -> M B) :
  good p -> t <> TOKEN_EOF ->
  (forall p', good p' -> size p' < size p -> Type_ (curToken p') = t -> runs (k true) p' Q) ->
  (forall p', same p p' -> runs (k false) p' Q) ->
  runs (bind (expectPeek t) k) p Q.
Proof.
  intros Hg Ht Htrue Hfalse. apply runs_bind. unfold expectPeek. apply runs_bind.
  change (runs (if bool_decide (Type_ (peekToken p) = t) then nextToken >> ret true
    else if bool_decide (t = TOKEN_IDENT) && isKeywordToken (Type_ (peekToken p))
    then nextToken >> cur_as_ident >> ret true else peekError t >> ret false) p
    (fun a p' => runs (k a) p' Q)).
  case_bool_decide as E.
  - unfold runs at 1, bind, nextToken. destruct (NextToken_reads (pl p) Hg) as [Hw Hl].
    destruct (NextToken (pl p)) as [t' l]. cbn in *. apply Htrue; [done| |done].
    unfold size, room. cbn. rewrite !(live_type (peekToken p)) by congruence. lia.
  - destruct (bool_decide (t = TOKEN_IDENT) && isKeywordToken (Type_ (peekToken p))) eqn:E'.
    + apply andb_true_iff in E' as [->%bool_decide_eq_true Hk].
      unfold runs at 1, bind, nextToken. destruct (NextToken_reads (pl p) Hg) as [Hw Hl].
      destruct (NextToken (pl p)) as [t' l]. cbn in *. apply Htrue; [done| |done].
      assert (Type_ (peekToken p) <> TOKEN_EOF) by (intros H; by rewrite H in Hk).
      unfold size, room. cbn [pl curToken peekToken]. rewrite (live_type (peekToken p)) by done.
      pose proof (live_le (retype TOKEN_IDENT (peekToken p))). unfold retype in *. lia.
    + by apply Hfalse.
Qed.
End Rules.

(** A method that ends a block is followed by nothing. *)
Lemma runs_last {A} (m : M A) p Q : runs (bind m ret) p Q -> runs m p Q.
Proof. unfold runs, bind. by destruct (m p). Qed.

(** ** Loops *)

(** A condition that only inspects the state. *)
Definition inspects (c : M bool) : Prop := forall p, exists b, c p = Ret b p.

(** Reads, and leaves no more than it found. *)
Definition ok {A} (m : M A) (p : Parser) : Prop :=
  runs m p (fun _ p' => good p' /\ size p' <= size p).

(** A round of a loop makes progress, or leaves the method. *)
Definition shrinks {A} (m : M A) (p : Parser) : Prop :=
  runs m p (fun _ p' => good p' /\ size p' < size p).
Definition round {A B} (m : M (A + B)) (p : Parser) : Prop :=
  runs m p (fun r p' => good p' /\ (size p' < size p \/ (exists x, r = inr x) /\ size p' <= size p)).

Lemma every_ok {St} fuel c (body : St -> M St) s p :
  inspects c -> good p -> size p < fuel ->
  (forall s p', good p' -> size p' <= size p -> c p' = Ret true p' ->
     shrinks (body s) p') ->
  ok (every fuel c body s) p.
Proof.
  intros Hc Hg. revert s p Hg. induction fuel as [|n IH]; intros s p Hg Hn Hb; [lia|].
  cbn [every]. apply runs_bind. destruct (Hc p) as [[] E]; unfold runs; rewrite E; [|by split].
  apply runs_bind. eapply runs_mono; [by apply Hb|]. intros s' p' [Hg' Hs'].
  eapply runs_mono; [apply IH; [done|lia|]|].
  - intros s'' p'' ? ? ?. apply Hb; [done|lia|done].
  - intros _ p'' [? ?]. split; [done|lia].
Qed.

Lemma loop_ok {St R} fuel c (body : St -> M (St + R)) s p :
  inspects c -> good p -> size p < fuel ->
  (forall s p', good p' -> size p' <= size p -> c p' = Ret true p' ->
     round (body s) p') ->
  ok (loop fuel c body s) p.
Proof.
  intros Hc Hg. revert s p Hg. induction fuel as [|n IH]; intros s p Hg Hn Hb; [lia|].
  cbn [loop]. apply runs_bind. destruct (Hc p) as [[] E]; unfold runs; rewrite E; [|by split].
  apply runs_bind. eapply runs_mono; [by apply Hb|]. intros [s'|r] p' [Hg' Hs']; cbn beta iota.
  - assert (size p' < size p) by (destruct Hs' as [|[[x Hx] _]]; done).
    eapply runs_mono; [apply IH; [done|lia|]|].
    + intros s'' p'' ? ? ?. apply Hb; [done|lia|done].
    + intros _ p'' [? ?]. split; [done|lia].
  - split; [done|]. lia.
Qed.

#[global] Arguments size : simpl never.
#[global] Arguments live : simpl never.

(** ** Conditions *)

Create HintDb parse.

Lemma inspects_cur_is t : inspects (cur_is t).
Proof. by eexists. Qed.
Lemma inspects_peek_is t : inspects (peek_is t).
Proof. by eexists. Qed.
Lemma inspects_notb c : inspects c -> inspects (notb c).
Proof. intros H p. destruct (H p) as [b E]. exists (negb b). unfold notb, bind. by rewrite E. Qed.
Lemma inspects_andb c d : inspects c -> inspects d -> inspects (andb_ c d).
Proof.
  intros Hc Hd p. destruct (Hc p) as [b E]. unfold andb_, bind. rewrite E. destruct b; [apply Hd|by exists false].
Qed.
Lemma inspects_orb c d : inspects c -> inspects d -> inspects (orb_ c d).
Proof.
  intros Hc Hd p. destruct (Hc p) as [b E]. unfold orb_, bind. rewrite E. destruct b; [by exists true|apply Hd].
Qed.
Lemma inspects_cur_token (f : Token -> bool) : inspects (t <- cur; ret (f t)).
Proof. by eexists. Qed.
Lemma inspects_peek_token (f : Token -> bool) : inspects (t <- peek; ret (f t)).
Proof. by eexists. Qed.
Lemma inspects_peek_until t : inspects (peek_until t).
Proof. apply inspects_andb; apply inspects_notb, inspects_peek_is. Qed.
Lemma inspects_cur_until t : inspects (cur_until t).
Proof. apply inspects_andb; apply inspects_notb, inspects_cur_is. Qed.
Lemma inspects_binds q : inspects (binds_tighter q).
Proof. apply inspects_andb; [apply inspects_notb, inspects_peek_is|]. by eexists. Qed.

#[export] Hint Resolve inspects_cur_is inspects_peek_is inspects_notb inspects_andb inspects_orb : parse.
#[export] Hint Resolve inspects_cur_token inspects_peek_token inspects_peek_until inspects_cur_until inspects_binds : parse.

(** What a condition says when it holds. *)
Lemma peek_until_true t p : peek_until t p = Ret true p -> Type_ (peekToken p) <> TOKEN_EOF.
Proof.
  unfold peek_until, andb_, notb, bind, peek_is, ret. case_bool_decide; cbn; [done|]. by case_bool_decide.
Qed.
Lemma cur_until_true t p :
  cur_until t p = Ret true p -> Type_ (curToken p) <> TOKEN_EOF /\ Type_ (curToken p) <> t.
Proof.
  unfold cur_until, andb_, notb, bind, cur_is, ret. case_bool_decide as E; cbn; [done|].
  intros H. split; [|done]. intros E'. by rewrite E' in H.
Qed.
Lemma peek_is_true t p : peek_is t p = Ret true p -> Type_ (peekToken p) = t.
Proof. unfold peek_is. by case_bool_decide. Qed.
Lemma cur_is_true t p : cur_is t p = Ret true p -> Type_ (curToken p) = t.
Proof. unfold cur_is. by case_bool_decide. Qed.
Lemma orb_peek_true t u p :
  orb_ (peek_is t) (peek_is u) p = Ret true p -> Type_ (peekToken p) = t \/ Type_ (peekToken p) = u.
Proof. unfold orb_, bind, peek_is, ret. case_bool_decide; [by left|]. case_bool_decide; [by right|done]. Qed.
Lemma orb_cur_true t u p :
  orb_ (cur_is t) (cur_is u) p = Ret true p -> Type_ (curToken p) = t \/ Type_ (curToken p) = u.
Proof. unfold orb_, bind, cur_is, ret. case_bool_decide; [by left|]. case_bool_decide; [by right|done]. Qed.
Lemma binds_tighter_true q p : binds_tighter q p = Ret true p -> Type_ (peekToken p) <> TOKEN_EOF.
Proof. unfold binds_tighter, andb_, notb, bind, peek_is, ret. by case_bool_decide. Qed.
Lemma clause_true p :
  (t <- peek; ret (is_clause (Type_ t))) p = Ret true p -> Type_ (peekToken p) <> TOKEN_EOF.
Proof. cbn. intros [= H] E. by rewrite E in H. Qed.

Lemma keyword_live t : isKeywordToken (Type_ t) = true -> Type_ t <> TOKEN_EOF.
Proof. intros H E. by rewrite E in H. Qed.

(** ** Automation *)

Lemma ok_bind {A B} (m : M A) (k : A -> M B) p Q :
  ok m p -> (forall a p', good p' -> size p' <= size p -> runs (k a) p' Q) -> runs (bind m k) p Q.
Proof. intros Hm Hk. apply runs_bind. eapply runs_mono; [exact Hm|]. intros a p' []. by apply Hk. Qed.

Lemma same_facts p p' :
  same p p' -> good p -> good p' /\ size p' = size p /\ curToken p' = curToken p /\ peekToken p' = peekToken p.
Proof. intros H Hg. split; [by eapply same_good|]. split; [by apply same_size|]. apply H. Qed.

Lemma size_room p : size p = 2 * room p + live (curToken p).
Proof. done. Qed.

Lemma bind_assoc_runs {A B C} (m : M A) (k : A -> M B) (h : B -> M C) p Q :
  runs (bind m (fun a => bind (k a) h)) p Q -> runs (bind (bind m k) h) p Q.
Proof. unfold runs, bind. by destruct (m p). Qed.

(** Facts on [live] that follow from what is known of token types. *)
Ltac saturate :=
  repeat match goal with
  | H : peek_until _ _ = Ret true _ |- _ => apply peek_until_true in H
  | H : cur_until _ _ = Ret true _ |- _ => apply cur_until_true in H as [? ?]
  | H : peek_is _ _ = Ret true _ |- _ => apply peek_is_true in H
  | H : cur_is _ _ = Ret true _ |- _ => apply cur_is_true in H
  | H : orb_ (peek_is _) (peek_is _) _ = Ret true _ |- _ => apply orb_peek_true in H as [H|H]
  | H : orb_ (cur_is _) (cur_is _) _ = Ret true _ |- _ => apply orb_cur_true in H as [H|H]
  | H : binds_tighter _ _ = Ret true _ |- _ => apply binds_tighter_true in H
  | H : bind peek (fun t => ret (is_clause (Type_ t))) _ = Ret true _ |- _ => apply clause_true in H
  | H : bool_decide _ = true |- _ => apply bool_decide_eq_true in H
  | H : bool_decide _ = false |- _ => apply bool_decide_eq_false in H
  | H : negb _ = true |- _ => apply negb_true_iff in H
  | H : negb _ = false |- _ => apply negb_false_iff in H
  | H : _ && _ = true |- _ => apply andb_true_iff in H as [? ?]
  | H : _ || _ = true |- _ => apply orb_true_iff in H as [H|H]
  | H : _ && _ = false |- _ => apply andb_false_iff in H as [H|H]
  | H : isKeywordToken (Type_ _) = true |- _ => apply keyword_live in H
  end;
  repeat match goal with
  | H : Type_ ?t <> TOKEN_EOF |- _ => apply live_type in H
  | H : Type_ ?t = ?c |- _ =>
      assert (live t = 1) by (apply live_type; rewrite H; discriminate); clear H
  | H : @eq Token ?t ?u |- _ => assert (live t = live u) by (by rewrite H); clear H
  end.

(** Every state's size, in terms of its tokens. *)
Ltac parities :=
  repeat match goal with
  | H : good ?p |- _ => pose proof (size_room p); pose proof (live_le (curToken p)); clear H
  end.

Ltac sizes := solve [lia | saturate; lia | saturate; parities; lia].

Ltac finish :=
  lazymatch goal with
  | |- _ /\ _ => split; finish
  | |- good _ => assumption
  | |- _ \/ _ => first [left; sizes | right; split; [by eexists | sizes]]
  | |- _ => sizes
  end.

(** Discharges the premises of a method's rule. *)
Ltac premise :=
  lazymatch goal with
  | |- good _ => assumption
  | |- inspects _ => auto with parse
  | |- _ <> _ => first [discriminate | assumption | apply live_neq; sizes]
  | |- _ => sizes
  end.

#[export] Hint Extern 1 (_ < _) => sizes : parse.
#[export] Hint Extern 1 (live _ = 1) => sizes : parse.
#[export] Hint Extern 1 (_ <= _) => sizes : parse.
#[export] Hint Extern 1 (_ <> _) => premise : parse.

(** One step through a method. *)
Ltac step :=
  cbn beta iota zeta;
  lazymatch goal with
  | |- ok _ _ => first [solve [eauto 4 with parse] | unfold ok]
  | |- round _ _ => first [solve [eauto 4 with parse] | unfold round]
  | |- shrinks _ _ => first [solve [eauto 4 with parse] | unfold shrinks]
  | |- runs (ret _) _ _ => apply runs_ret; finish
  | |- runs (return_ _) _ _ => apply runs_ret; finish
  | |- runs (continue _) _ _ => apply runs_ret; finish
  | |- runs panic _ _ => exact I
  | |- runs (bind (ret _) _) _ _ => apply runs_bind, runs_ret
  | |- runs (bind (return_ _) _) _ _ => apply runs_bind, runs_ret
  | |- runs (bind (continue _) _) _ _ => apply runs_bind, runs_ret
  | |- runs (bind panic _) _ _ => exact I
  | |- runs (bind (bind _ _) _) _ _ => apply bind_assoc_runs
  | |- runs (bind (andb_ _ _) _) _ _ => unfold andb_
  | |- runs (bind (orb_ _ _) _) _ _ => unfold orb_
  | |- runs (bind (notb _) _) _ _ => unfold notb
  | |- runs (bind cur _) _ _ => apply runs_cur
  | |- runs (bind peek _) _ _ => apply runs_peek
  | |- runs (bind lit _) _ _ => apply runs_lit
  | |- runs (bind (look _) _) _ _ => apply runs_look
  | |- runs (bind peekPrecedence _) _ _ => apply runs_peekPrecedence; intros ?
  | |- runs (bind curPrecedence _) _ _ => apply runs_curPrecedence; intros ?
  | |- runs (bind (cur_is _) _) _ _ => apply runs_cur_is; intros ?
  | |- runs (bind (peek_is _) _) _ _ => apply runs_peek_is; intros ?
  | |- runs (bind nextToken _) _ _ => apply runs_nextToken; [assumption|intros ? ? ? ?]
  | |- runs (bind (expectPeek _) _) _ _ =>
      apply runs_expectPeek; [assumption|premise|intros ? ? ? ?|intros ? ?]
  | |- runs (bind (append_error _) _) _ _ => apply runs_append_error; intros ? ?
  | |- runs (bind (addError _) _) _ _ => apply runs_addError; intros ? ?
  | |- runs (bind (peekError _) _) _ _ => apply runs_peekError; intros ? ?
  | |- runs (bind (set_prefix _) _) _ _ => apply runs_set_prefix; intros ? ?
  | |- runs (bind (fun p => Ret (currentVersionPrefix p) p) _) _ _ => apply runs_get_prefix; intros ?
  | |- runs (bind cur_as_ident _) _ _ => apply runs_cur_as_ident; [assumption|premise|intros ? ? ? ? ?]
  | |- runs (bind (if ?b then _ else _) _) _ _ => apply ok_bind; [unfold ok; destruct b eqn:?|intros ? ? ? ?]
  | |- runs (bind (match ?x with _ => _ end) _) _ _ => apply ok_bind; [unfold ok; destruct x eqn:?|intros ? ? ? ?]
  | |- runs (bind (every _ _ _ _) _) _ _ => apply ok_bind; [apply every_ok; [auto with parse|assumption|sizes|intros]|intros ? ? ? ?]
  | |- runs (bind (loop _ _ _ _) _) _ _ => apply ok_bind; [apply loop_ok; [auto with parse|assumption|sizes|intros]|intros ? ? ? ?]
  | |- runs (bind ?m _) _ _ => apply ok_bind; [solve [eauto 4 with parse]|intros ? ? ? ?]
  | |- runs (if ?b then _ else _) _ _ => destruct b eqn:?
  | |- runs (match ?x with _ => _ end) _ _ => destruct x eqn:?
  | |- runs _ _ _ => apply runs_last
  end;
  repeat match goal with
  | H : same ?p ?p' |- _ => apply same_facts in H as (? & ? & ? & ?); [|assumption]
  end.

(** ** Every method of the parser *)

#[local] Set Default Proof Using "Type*".

Ltac method f := intros; unfold f; repeat step.

(** ** Lists of names *)

Lemma ok_skip_peek t p : t <> TOKEN_EOF -> good p -> ok (skip_peek t) p.
Proof. intros Ht Hg. unfold skip_peek. repeat step. Qed.
#[export] Hint Resolve ok_skip_peek : parse.

Lemma ok_ident_list fuel close p : good p -> size p < fuel -> ok (ident_list fuel close) p.
Proof. intros. unfold ident_list. repeat step. Qed.
#[export] Hint Resolve ok_ident_list : parse.

Lemma ok_lit p : good p -> ok lit p.
Proof. done. Qed.
#[export] Hint Resolve ok_lit : parse.

(** A parameter reads at least its name, when there is one. *)
Lemma ok_parse_param type_ p :
  good p -> (forall p', good p' -> size p' < size p -> ok type_ p') -> ok (parse_param type_) p.
Proof. intros. unfold parse_param. repeat step. Qed.
#[export] Hint Resolve ok_parse_param : parse.

Lemma ok_parse_params fuel type_ p :
  good p -> size p < fuel -> (forall p', good p' -> size p' < size p -> ok type_ p') ->
  ok (parse_params fuel type_) p.
Proof.
  intros Hg Hf HT. unfold parse_params. repeat step.
Qed.

Lemma ok_name_list fuel p : good p -> size p < fuel -> ok (name_list fuel) p.
Proof. intros. unfold name_list. repeat step. Qed.
#[export] Hint Resolve ok_parse_params ok_name_list : parse.

Lemma ok_field_name p : good p -> ok field_name p.
Proof. method field_name. Qed.
#[export] Hint Resolve ok_field_name : parse.

Lemma ok_return_type type_ p :
  good p -> (forall p', good p' -> size p' < size p -> ok type_ p') -> ok (return_type type_) p.
Proof. intros ?; method return_type. Qed.
#[export] Hint Resolve ok_return_type : parse.

Lemma ok_rate_limit p : good p -> ok rate_limit p.
Proof. method rate_limit. Qed.
Lemma ok_text_of x p : good p -> ok (text_of x) p.
Proof. method text_of. Qed.
Lemma ok_module_route p : good p -> ok module_route p.
Proof. method module_route. Qed.
Lemma ok_parseInjectStatement p : good p -> ok parseInjectStatement p.
Proof. method parseInjectStatement. Qed.
#[export] Hint Resolve ok_rate_limit ok_text_of ok_module_route : parse.
Lemma ok_parseRateLimitStatement p : good p -> ok parseRateLimitStatement p.
Proof. method parseRateLimitStatement. Qed.

Lemma inline_gets l : wf l -> gets l (ReadGoInlineSignatureAndBody l).2.
Proof.
  intros Hw. unfold ReadGoInlineSignatureAndBody.
  destruct (back_scan _ _) as [[sigStart|]|]; [|by apply gets_refl..].
  assert (Hs : gets l (scan_to_brace l)).
  { apply gets_while; [|done]. intros l1 H1. eapply gets_trans; [by apply gets_count_newline|].
    apply gets_readChar. by eapply gets_wf, gets_count_newline. }
  case_decide; [done|].
  set (l0 := readChar (scan_to_brace l)).
  assert (H0 : gets l l0) by (eapply gets_trans; [done|]; apply gets_readChar; by eapply gets_wf).
  destruct (go_body_loop (S (length (input l0))) l0 1) as [H1 _];
    [by eapply gets_wf|lia|pose proof (rest_length l0); lia|].
  cbv zeta. fold l0. destruct (while _ _ _ _) as [l2 n2]. cbn [fst] in H1. pose proof (gets_trans _ _ _ H0 H1) as H2.
  destruct (0 <? n2)%Z; [done|]. eapply gets_trans; [done|]. apply gets_readChar. by eapply gets_wf.
Qed.

(** The scan for the closing brace of an inline body only reads. *)
Lemma ok_inline_body t n p : good p -> live (curToken p) = 1 -> ok (inline_body t n) p.
Proof.
  intros Hg Hl. pose proof (inline_gets (pl p) Hg) as Hr. unfold ok, runs, inline_body.
  destruct (ReadGoInlineSignatureAndBody (pl p)) as [[sig body|msg|] l]; [| |done]; cbn in Hr.
  - destruct (NextToken_reads l (gets_wf _ _ Hr)) as [Hw Hn]. apply gets_length in Hr.
    destruct (NextToken l) as [t' l']. cbn in *. split; [done|]. unfold size, room. cbn. rewrite Hl.
    pose proof (live_le (mkToken TOKEN_RBRACE "}" (Line t) (Col t))). lia.
  - split; [by eapply gets_wf|]. apply gets_length in Hr. unfold size, room. cbn. lia.
Qed.
#[export] Hint Resolve ok_inline_body : parse.

Lemma ok_inline_go t p : good p -> ok (inline_go t) p.
Proof. method inline_go. Qed.
#[export] Hint Resolve ok_inline_go : parse.

Lemma ok_parseMacroStatement fuel p : good p -> size p < fuel -> ok (parseMacroStatement fuel) p.
Proof. method parseMacroStatement. Qed.

Section Methods.
Context (E : nat -> M expr) (S : M stmt) (T : M string) (fuel s e : nat).
Hypothesis HE : forall q p, good p -> size p < e -> ok (E q) p.
Hypothesis HS : forall p, good p -> size p < s -> ok S p.
Hypothesis HT : forall p, good p -> size p < e -> ok T p.
Hypothesis Hse : s <= e.
Hypothesis Hef : e < fuel.


Lemma ok_statements_until p : good p -> size p < s -> ok (statements_until S fuel) p.
Proof. method statements_until. Qed.
#[local] Hint Resolve ok_statements_until : parse.

Lemma ok_parseBlockStatement p : good p -> size p < s -> ok (parseBlockStatement S fuel) p.
Proof. method parseBlockStatement. Qed.
#[local] Hint Resolve ok_parseBlockStatement : parse.

(** ** Expressions *)

Lemma ok_parseExpressionList close p :
  close <> TOKEN_EOF -> good p -> size p < e + live (curToken p) -> ok (parseExpressionList E fuel close) p.
Proof. intros Hc. method parseExpressionList. Qed.
#[local] Hint Resolve ok_parseExpressionList : parse.

Lemma ok_parseStructLiteral n p : good p -> size p < e -> ok (parseStructLiteral E fuel n) p.
Proof. method parseStructLiteral. Qed.
#[local] Hint Resolve ok_parseStructLiteral : parse.

Lemma ok_parseElement p : good p -> size p < e -> ok (parseElement E) p.
Proof. method parseElement. Qed.
#[local] Hint Resolve ok_parseElement : parse.

Lemma round_map_entry x p :
  good p -> size p <= e -> live (peekToken p) = 1 -> round (map_entry E x) p.
Proof. unfold round. method map_entry. Qed.
#[local] Hint Resolve round_map_entry : parse.

Lemma ok_parseIdentifier p :
  good p -> size p <= s -> live (curToken p) = 1 -> ok (parseIdentifier E fuel) p.
Proof. method parseIdentifier. Qed.
#[local] Hint Resolve ok_parseIdentifier : parse.

(** The method registered for a token, run on that token. *)
Lemma ok_prefix p m :
  good p -> size p <= s -> prefixParseFns E S T fuel (Type_ (curToken p)) = Some m -> live (curToken p) = 1 -> ok m p.
Proof.
  intros Hg Hs Hm Hl.
  assert (ok (parseIdentifier E fuel) p) by eauto with parse.
  assert (ok (parseFnLiteral S T fuel) p) by method parseFnLiteral.
  assert (ok (parseSpawnExpression E) p) by method parseSpawnExpression.
  assert (ok (parseMapLiteral E fuel) p) by method parseMapLiteral.
  assert (ok (parseArrayLiteral E fuel) p) by method parseArrayLiteral.
  assert (ok (parseGroupedExpression E) p) by method parseGroupedExpression.
  assert (ok (parsePrefixExpression E) p) by method parsePrefixExpression.
  assert (ok (parseStreamExpression E) p) by method parseStreamExpression.
  assert (ok (parseAssertExpression E) p) by method parseAssertExpression.
  assert (ok (parseAwaitExpression E) p) by method parseAwaitExpression.
  assert (ok parseIntegerLiteral p) by method parseIntegerLiteral.
  assert (ok parseFloatLiteral p) by method parseFloatLiteral.
  destruct (Type_ (curToken p)); inversion Hm; subst; try assumption; done.
Qed.

(** The operator methods run on the operator. *)
Lemma ok_infix p m left :
  good p -> size p < s -> infixParseFns E fuel (Type_ (curToken p)) = Some m -> ok (m left) p.
Proof.
  intros Hg Hs Hm.
  assert (ok (parseInfixExpression E left) p) by method parseInfixExpression.
  assert (ok (parsePipeExpression E left) p) by method parsePipeExpression.
  assert (ok (parseCallExpression E fuel left) p) by method parseCallExpression.
  assert (ok (parseMemberExpression left) p) by method parseMemberExpression.
  assert (ok (parseOptionalMemberExpression left) p) by method parseOptionalMemberExpression.
  assert (ok (parseIndexExpression E left) p) by method parseIndexExpression.
  assert (ok (parseAssignmentExpression E left) p) by method parseAssignmentExpression.
  assert (ok (parseCompoundAssignExpression E left) p) by method parseCompoundAssignExpression.
  assert (ok (parseArrowFunction E left) p) by method parseArrowFunction.
  assert (ok (parseErrorPropExpression left) p) by method parseErrorPropExpression.
  destruct (Type_ (curToken p)); inversion Hm; subst; assumption.
Qed.

Lemma round_infix_step left p :
  good p -> size p <= s -> live (peekToken p) = 1 -> round (infix_step E fuel left) p.
Proof.
  intros Hg Hs Hl. unfold round, infix_step. step.
  destruct (infixParseFns E fuel (Type_ (peekToken p))) as [m|] eqn:Hm; [|repeat step].
  step. apply ok_bind; [|intros; repeat step]. apply ok_infix; [done|sizes|congruence].
Qed.
#[local] Hint Resolve round_infix_step : parse.

Lemma ok_parseExpression_body q p :
  good p -> size p <= s -> ok (parseExpression_body E S T fuel q) p.
Proof.
  intros Hg Hs.
  assert (Hrest : forall m p, good p -> size p <= s -> ok m p ->
    ok (left <- m; for e := loop fuel (binds_tighter q) (infix_step E fuel) left; ret e) p).
  { clear p Hg Hs. intros m p Hg Hs Hm. unfold ok. apply ok_bind; [done|]. intros. repeat step. }
  unfold parseExpression_body. step. step.
  destruct (prefixParseFns _ _ _ _ _) as [m|] eqn:Hm.
  - apply Hrest; [done..|]. eapply ok_prefix; [done..|]. apply live_type. intros He. by rewrite He in Hm.
  - destruct (isKeywordToken _) eqn:Hk; [|repeat step].
    step. apply runs_last. apply ok_bind; [|intros; repeat step].
    apply Hrest; [done|sizes|]. apply ok_parseIdentifier; [done|sizes|sizes].
Qed.

(** ** Types *)

Lemma ok_type_args b p :
  good p -> size p <= e -> live (peekToken p) = 1 -> ok (type_args T fuel b) p.
Proof. method type_args. Qed.
#[local] Hint Resolve ok_type_args : parse.

Lemma ok_base_type p : good p -> size p <= e -> ok (base_type T fuel) p.
Proof. method base_type. Qed.
#[local] Hint Resolve ok_base_type : parse.

Lemma ok_parseTypeAnnotation_body p : good p -> size p <= e -> ok (parseTypeAnnotation_body T fuel) p.
Proof. method parseTypeAnnotation_body. Qed.

Lemma ok_type_params {R} (r : R) p : good p -> size p <= e -> ok (type_params fuel r) p.
Proof. intros; unfold type_params; repeat step. Qed.
#[local] Hint Resolve ok_type_params : parse.

Lemma round_interface_method x p :
  good p -> size p <= e -> live (peekToken p) = 1 -> round (interface_method fuel x) p.
Proof. method interface_method. Qed.
#[local] Hint Resolve round_interface_method : parse.

(** ** Statements *)

(** A statement method starts on the token that selects it. *)
Definition starts (p : Parser) : Prop :=
  good p /\ size p <= s /\ size p < e /\ live (curToken p) = 1.

Ltac statement f := intros (? & ? & ? & ?); unfold f; repeat step.

Lemma ok_parseStructDeclaration p : starts p -> ok (parseStructDeclaration T fuel) p.
Proof. statement parseStructDeclaration. Qed.
Lemma ok_parseInterfaceDeclaration p : starts p -> ok (parseInterfaceDeclaration fuel) p.
Proof. statement parseInterfaceDeclaration. Qed.
Lemma ok_parseEnumStatement p : starts p -> ok (parseEnumStatement E fuel) p.
Proof. statement parseEnumStatement. Qed.
Lemma ok_parseTypeAliasStatement p : starts p -> ok (parseTypeAliasStatement T) p.
Proof. statement parseTypeAliasStatement. Qed.
Lemma ok_parseValidateStatement p : starts p -> ok (parseValidateStatement fuel) p.
Proof. statement parseValidateStatement. Qed.

Lemma ok_parseMethodDeclaration t n m p : good p -> size p < s -> ok (parseMethodDeclaration S T fuel t n m) p.
Proof. method parseMethodDeclaration. Qed.
#[local] Hint Resolve ok_parseMethodDeclaration : parse.

Lemma round_fn_clause x p : good p -> size p <= s -> size p < e -> live (peekToken p) = 1 -> round (fn_clause x) p.
Proof. unfold round. method fn_clause. Qed.
#[local] Hint Resolve round_fn_clause : parse.
Lemma ok_parseFnDeclaration p : starts p -> ok (parseFnDeclaration S T fuel) p.
Proof. statement parseFnDeclaration. Qed.
Lemma ok_parseImportStatement p : starts p -> ok (parseImportStatement fuel) p.
Proof. statement parseImportStatement. Qed.
Lemma ok_parseExternBlockFn k p : good p -> size p < e -> ok (parseExternBlockFn fuel k) p.
Proof. method parseExternBlockFn. Qed.
#[local] Hint Resolve ok_parseExternBlockFn : parse.
Lemma ok_parseExternStatement p : starts p -> ok (parseExternStatement fuel) p.
Proof. statement parseExternStatement. Qed.
Lemma ok_parseLetStatement p : starts p -> ok (parseLetStatement E T fuel) p.
Proof. statement parseLetStatement. Qed.
Lemma ok_parseReturnStatement p : starts p -> ok (parseReturnStatement E) p.
Proof. statement parseReturnStatement. Qed.
Lemma ok_parseYieldStatement p : starts p -> ok (parseYieldStatement E) p.
Proof. statement parseYieldStatement. Qed.
Lemma ok_parseTestStatement p : starts p -> ok (parseTestStatement S fuel) p.
Proof. statement parseTestStatement. Qed.
Lemma ok_parsePublishStatement p : starts p -> ok (parsePublishStatement E) p.
Proof. statement parsePublishStatement. Qed.
Lemma ok_parseSpawnStatement p : starts p -> ok (parseSpawnStatement E) p.
Proof. statement parseSpawnStatement. Qed.
Lemma ok_parseBeforeEachStatement p : starts p -> ok (parseBeforeEachStatement S fuel) p.
Proof. statement parseBeforeEachStatement. Qed.
Lemma ok_parseAfterEachStatement p : starts p -> ok (parseAfterEachStatement S fuel) p.
Proof. statement parseAfterEachStatement. Qed.
Lemma ok_parseMockStatement p : starts p -> ok (parseMockStatement E S fuel) p.
Proof. statement parseMockStatement. Qed.
Lemma ok_parseActorDeclaration p : starts p -> ok (parseActorDeclaration S T fuel) p.
Proof. statement parseActorDeclaration. Qed.
Lemma ok_parseWorkflowDeclaration p : starts p -> ok (parseWorkflowDeclaration S T fuel) p.
Proof. statement parseWorkflowDeclaration. Qed.
Lemma ok_parseVersionBlock p : starts p -> ok (parseVersionBlock S fuel) p.
Proof. statement parseVersionBlock. Qed.

Lemma ok_for_head p : good p -> size p < e -> ok (for_head E) p.
Proof. method for_head. Qed.
#[local] Hint Resolve ok_for_head : parse.
Lemma ok_parseForStatement p : starts p -> ok (parseForStatement E S fuel) p.
Proof. statement parseForStatement. Qed.
Lemma round_match_case x p : good p -> size p <= s -> size p < e -> live (curToken p) = 1 -> round (match_case E S fuel x) p.
Proof. unfold round. method match_case. Qed.
#[local] Hint Resolve round_match_case : parse.
Lemma ok_parseMatchStatement p : starts p -> ok (parseMatchStatement E S fuel) p.
Proof. statement parseMatchStatement. Qed.
Lemma ok_parseTryCatchStatement p : starts p -> ok (parseTryCatchStatement S fuel) p.
Proof. statement parseTryCatchStatement. Qed.
Lemma ok_parseExpressionStatement p : starts p -> ok (parseExpressionStatement E) p.
Proof. statement parseExpressionStatement. Qed.

Lemma ok_parseIfStatement_body I p :
  (forall p', good p' -> size p' < size p -> ok I p') -> good p -> size p < e -> size p <= s ->
  ok (parseIfStatement_body E S I fuel) p.
Proof. intros HI. method parseIfStatement_body. Qed.

(** ** Services *)

Lemma ok_keyword_value make p : starts p -> ok (keyword_value E make) p.
Proof. statement keyword_value. Qed.
Lemma ok_value_body make p : starts p -> ok (value_body E S fuel make) p.
Proof. statement value_body. Qed.
Lemma ok_name_body ty make p : ty <> TOKEN_EOF -> starts p -> ok (name_body S fuel ty make) p.
Proof. intros ?. statement name_body. Qed.
Lemma ok_param_body p : good p -> size p <= s -> ok (param_body S fuel) p.
Proof. method param_body. Qed.
#[local] Hint Resolve ok_param_body : parse.
Lemma ok_parseServerStatement p : starts p -> ok (parseServerStatement E) p.
Proof. statement parseServerStatement. Qed.
Lemma ok_parseAppStatement p : starts p -> ok (parseAppStatement S fuel) p.
Proof. statement parseAppStatement. Qed.
Lemma ok_parseToolStatement p : starts p -> ok (parseToolStatement S fuel) p.
Proof. statement parseToolStatement. Qed.
Lemma ok_parseMigrationStatement p : starts p -> ok (parseMigrationStatement S fuel) p.
Proof. statement parseMigrationStatement. Qed.
Lemma ok_parseSubscribeStatement p : starts p -> ok (parseSubscribeStatement E S fuel) p.
Proof. statement parseSubscribeStatement. Qed.
Lemma ok_parseTransformStatement p : starts p -> ok (parseTransformStatement E S fuel) p.
Proof. statement parseTransformStatement. Qed.
Lemma ok_parsePolicyStatement p : starts p -> ok (parsePolicyStatement S fuel) p.
Proof. statement parsePolicyStatement. Qed.
Lemma ok_parseWsStatement p : starts p -> ok (parseWsStatement S fuel) p.
Proof. statement parseWsStatement. Qed.
Lemma ok_parseOnStatement p : good p -> size p <= s -> ok (parseOnStatement S fuel) p.
Proof. method parseOnStatement. Qed.
#[local] Hint Resolve ok_parseOnStatement : parse.
Lemma ok_parseMiddlewareDeclaration p : starts p -> ok (parseMiddlewareDeclaration S fuel) p.
Proof. statement parseMiddlewareDeclaration. Qed.
Lemma ok_parseMeshStatement p : starts p -> ok (parseMeshStatement S fuel) p.
Proof. statement parseMeshStatement. Qed.
Lemma ok_parseJobStatement p : starts p -> ok (parseJobStatement S fuel) p.
Proof. statement parseJobStatement. Qed.
Lemma round_agent_entry x p : good p -> size p <= s -> size p < e -> live (curToken p) = 1 -> round (agent_entry E x) p.
Proof.
  intros. unfold round, agent_entry. repeat lazymatch goal with
  | |- runs (bind (if ?b then _ else _) _) _ _ => destruct b eqn:?
  | |- _ => step
  end.
Qed.
#[local] Hint Resolve round_agent_entry : parse.
Lemma ok_parseAgentDeclaration p : starts p -> ok (parseAgentDeclaration E fuel) p.
Proof. statement parseAgentDeclaration. Qed.
Lemma ok_middlewares p : good p -> size p < e -> ok (middlewares E fuel) p.
Proof. method middlewares. Qed.
#[local] Hint Resolve ok_middlewares : parse.
Lemma shrinks_route_suffix x p :
  good p -> size p <= e -> live (peekToken p) = 1 -> shrinks (route_suffix T x) p.
Proof. unfold shrinks. method route_suffix. Qed.
#[local] Hint Resolve shrinks_route_suffix : parse.
Lemma ok_parseRouteStatement p : starts p -> ok (parseRouteStatement E S T fuel) p.
Proof. statement parseRouteStatement. Qed.
Lemma round_column_annotation x p : good p -> size p <= s -> size p < e -> live (curToken p) = 1 -> round (column_annotation x) p.
Proof. unfold round. method column_annotation. Qed.
#[local] Hint Resolve round_column_annotation : parse.
Lemma round_table_column x p : good p -> size p <= s -> size p < e -> live (curToken p) = 1 -> round (table_column fuel x) p.
Proof. unfold round. method table_column. Qed.
#[local] Hint Resolve round_table_column : parse.
Lemma ok_parseTableDeclaration p : starts p -> ok (parseTableDeclaration fuel) p.
Proof. statement parseTableDeclaration. Qed.
Lemma ok_module_params p : good p -> size p < e -> ok (module_params fuel) p.
Proof. method module_params. Qed.
#[local] Hint Resolve ok_module_params : parse.
Lemma ok_module_fn p : good p -> size p < e -> ok (module_fn fuel) p.
Proof. method module_fn. Qed.
#[local] Hint Resolve ok_module_fn : parse.
Lemma round_module_item x p : good p -> size p <= s -> size p < e -> live (peekToken p) = 1 -> round (module_item fuel x) p.
Proof. unfold round. method module_item. Qed.
#[local] Hint Resolve round_module_item : parse.
Lemma ok_parseDeclareStatement p : starts p -> ok (parseDeclareStatement fuel) p.
Proof. statement parseDeclareStatement. Qed.
Lemma ok_parseExportStatement p : starts p -> ok (parseExportStatement S) p.
Proof. statement parseExportStatement. Qed.
Lemma ok_parseCorsStatement p : starts p -> ok (parseCorsStatement fuel) p.
Proof. statement parseCorsStatement. Qed.
Lemma ok_parseCommandDeclaration p : good p -> size p <= s -> ok (parseCommandDeclaration S fuel) p.
Proof. method parseCommandDeclaration. Qed.
#[local] Hint Resolve ok_parseCommandDeclaration : parse.
Lemma shrinks_event_store_item x p :
  good p -> size p <= s -> live (curToken p) = 1 -> shrinks (event_store_item S fuel x) p.
Proof. unfold shrinks. method event_store_item. Qed.
#[local] Hint Resolve shrinks_event_store_item : parse.
Lemma ok_parseEventStoreStatement p : starts p -> ok (parseEventStoreStatement S fuel) p.
Proof. statement parseEventStoreStatement. Qed.
Lemma ok_parseEmitStatement p : starts p -> ok (parseEmitStatement E) p.
Proof. statement parseEmitStatement. Qed.
End Methods.

(** ** The methods together *)

Create HintDb stmts.
#[export] Hint Resolve ok_parseInjectStatement ok_parseRateLimitStatement ok_parseMacroStatement ok_parseStructDeclaration : stmts.
#[export] Hint Resolve ok_parseInterfaceDeclaration ok_parseEnumStatement ok_parseTypeAliasStatement ok_parseValidateStatement : stmts.
#[export] Hint Resolve ok_parseFnDeclaration ok_parseImportStatement ok_parseExternStatement ok_parseLetStatement : stmts.
#[export] Hint Resolve ok_parseReturnStatement ok_parseYieldStatement ok_parseTestStatement ok_parsePublishStatement : stmts.
#[export] Hint Resolve ok_parseSpawnStatement ok_parseBeforeEachStatement ok_parseAfterEachStatement ok_parseMockStatement : stmts.
#[export] Hint Resolve ok_parseActorDeclaration ok_parseWorkflowDeclaration ok_parseVersionBlock ok_parseForStatement : stmts.
#[export] Hint Resolve ok_parseMatchStatement ok_parseTryCatchStatement ok_parseExpressionStatement ok_keyword_value : stmts.
#[export] Hint Resolve ok_value_body ok_name_body ok_parseServerStatement ok_parseAppStatement : stmts.
#[export] Hint Resolve ok_parseToolStatement ok_parseMigrationStatement ok_parseSubscribeStatement ok_parseTransformStatement : stmts.
#[export] Hint Resolve ok_parsePolicyStatement ok_parseWsStatement ok_parseOnStatement ok_parseMiddlewareDeclaration : stmts.
#[export] Hint Resolve ok_parseMeshStatement ok_parseJobStatement ok_parseAgentDeclaration ok_parseRouteStatement : stmts.
#[export] Hint Resolve ok_parseTableDeclaration ok_parseDeclareStatement ok_parseExportStatement ok_parseCorsStatement : stmts.
#[export] Hint Resolve ok_parseEventStoreStatement ok_parseEmitStatement : stmts.

#[export] Hint Unfold parseBrokerStatement parseAiStatement parseAuthStatement parseMailStatement : stmts.
#[export] Hint Unfold parseNotifyStatement parseStoreStatement parseSearchStatement parseDatabaseStatement : stmts.
#[export] Hint Unfold parseCacheStatement parseEveryStatement parseCronStatement parseLockStatement : stmts.
#[export] Hint Unfold parseGraphQLStatement parseBucketStatement parseGateStatement parseRagStatement : stmts.

Lemma ok_unless_peek ms t m p :
  ok (parseExpressionStatement (parseExpression ms)) p -> ok m p -> good p -> ok (unless_peek ms t m) p.
Proof.
  intros H1 H2 Hg. unfold unless_peek, ok. step; assumption.
Qed.
#[local] Hint Resolve ok_unless_peek : stmts.

Lemma ok_parseStatement_body ms fuel p :
  good p -> Datatypes.S (size p) < fuel ->
  (forall q p', good p' -> size p' < Datatypes.S (size p) -> ok (parseExpression ms q) p') ->
  (forall p', good p' -> size p' < size p -> ok (parseStatement ms) p') ->
  (forall p', good p' -> size p' < Datatypes.S (size p) -> ok (parseTypeAnnotation ms) p') ->
  ok (parseIfStatement ms) p ->
  ok (parseStatement_body ms fuel) p.
Proof.
  intros Hg Hf HE HS HT HI.
  assert (Hse : size p <= Datatypes.S (size p)) by lia.
  assert (Hsf : size p < fuel) by lia.
  assert (Hexp : ok (parseExpressionStatement (parseExpression ms)) p).
  { unfold parseExpressionStatement. repeat step. }
  destruct (decide (Type_ (curToken p) = TOKEN_EOF)) as [He|He].
  { unfold ok, parseStatement_body. apply runs_cur. rewrite He. exact Hexp. }
  assert (Hst : starts (size p) (Datatypes.S (size p)) p) by (refine (conj Hg (conj _ (conj _ _))); [lia..|by apply live_type]).
  unfold ok, parseStatement_body. apply runs_cur. cbn beta.
  lazymatch goal with |- runs ?m ?p ?Q => change (ok m p) end.
  destruct (Type_ (curToken p)); try assumption.
  all: solve [eauto with stmts | by split].
Qed.

(** Fuel for each method, in terms of what is left to read: a method calls
    itself after reading something, and the methods that call another one on
    the same input have more. *)
Lemma methods_ok n :
  (forall q p, good p -> 3 * size p + 2 <= n -> ok (parseExpression (methods n) q) p) /\
  (forall p, good p -> 3 * size p + 2 <= n -> ok (parseTypeAnnotation (methods n)) p) /\
  (forall p, good p -> 3 * size p + 3 <= n -> ok (parseIfStatement (methods n)) p) /\
  (forall p, good p -> 3 * size p + 4 <= n -> ok (parseStatement (methods n)) p).
Proof.
  induction n as [|n (HE & HT & HI & HS)]; [repeat split; intros; lia|].
  refine (conj _ (conj _ (conj _ _))); intros; cbn [methods parseExpression parseTypeAnnotation parseIfStatement parseStatement].
  - apply (ok_parseExpression_body _ _ _ _ (size p) (size p)); intros; (apply HE || apply HS || apply HT || idtac); auto; lia.
  - apply (ok_parseTypeAnnotation_body (parseExpression (methods n)) (parseStatement (methods n)) _ n (size p) (size p)); intros; (apply HE || apply HS || apply HT || idtac); auto; lia.
  - apply (ok_parseIfStatement_body _ _ (parseTypeAnnotation (methods n)) n (size p) (Datatypes.S (size p))); intros;
      (apply HE || apply HS || apply HT || apply HI || idtac); auto; lia.
  - apply ok_parseStatement_body; intros; (apply HE || apply HS || apply HT || apply HI || idtac); auto; lia.
Qed.
