(* ===== verification/ParserProps.v ===== *)
(** * The parser ends, except for its error recovery

    Every method of the parser ends on every input; the loop of
    [ParseProgram] makes progress in every round that records no error, and
    does not end on some erroneous programs. *)

From S2P Require Import Prelude GoStrings GoFloat Tokens Lexer LexerFacts LexerProps GoInline Ast AstString.
From S2P Require Import Parser ParserExpr ParserStmt ParserServices ParserTop ParserFacts.
Local Open Scope string_scope.
Local Open Scope list_scope.

Lemma good_NewParser source : good (NewParser (NewLexer source)).
Proof.
  unfold good, NewParser. destruct (NextToken_reads (NewLexer source) (wf_NewLexer source)) as [H1 _].
  destruct (NextToken (NewLexer source)) as [t1 l1]. destruct (NextToken_reads l1 H1) as [H2 _].
  by destruct (NextToken l1).
Qed.

Lemma size_NewParser source : size (NewParser (NewLexer source)) <= 2 * String.length source.
Proof.
  unfold size, room, NewParser.
  destruct (NextToken_reads (NewLexer source) (wf_NewLexer source)) as [H1 H1'].
  rewrite rest_NewLexer, length_byt in H1'.
  destruct (NextToken (NewLexer source)) as [t1 l1]. destruct (NextToken_reads l1 H1) as [_ H2].
  destruct (NextToken l1) as [t2 l2]. cbn in *. lia.
Qed.

(** ** Statements *)

(** C31: every statement is parsed in finitely many steps: from any state the
    parser can be in, [parseStatement] with recursion depth and loop rounds
    linear in the unread input does not run out of them; if it returns, the
    lexer is in a valid state and the unread input has not grown. *)
Theorem parseStatement_terminates p n :
  good p -> 3 * size p + 4 <= n ->
  match parseStatement (methods n) p with
  | Ret _ p' => good p' /\ size p' <= size p
  | Panic => True
  | NoFuel => False
  end.
Proof. intros Hg Hn. by apply (methods_ok n). Qed.

Lemma parseStatement_terminates_witness :
  match parseStatement (methods 200) (NewParser (NewLexer "let x = (1 + 2")) with
  | Ret _ p' => good p' /\ size p' <= size (NewParser (NewLexer "let x = (1 + 2"))
  | Panic => True
  | NoFuel => False
  end.
Proof.
  apply parseStatement_terminates; [apply good_NewParser|].
  pose proof (size_NewParser "let x = (1 + 2") as H. cbn [String.length] in H. lia.
Defined.

(** ** Programs *)

(** Where a loop without early return stops, its condition fails. *)
Lemma every_exit {St} n c (body : St -> M St) s p :
  inspects c ->
  match every n c body s p with Ret _ p' => c p' = Ret false p' | _ => True end.
Proof.
  intros Hc. revert s p. induction n as [|n IH]; intros s p; [done|]. cbn. unfold bind.
  destruct (Hc p) as [[] E]; rewrite E; [|done]. destruct (body s p) as [s' p'| |]; [apply IH|done|done].
Qed.

(** Skipping tokens records nothing. *)
Lemma skip_errors n c p :
  inspects c ->
  match every n c (fun _ => nextToken) tt p with Ret _ p' => errors p' = errors p | _ => True end.
Proof.
  intros Hc. revert p. induction n as [|n IH]; intros p; [done|]. cbn. unfold bind.
  destruct (Hc p) as [[] E]; rewrite E; [|done]. unfold nextToken. destruct (NextToken (pl p)) as [t l].
  apply (IH (mkParser l (peekToken p) t (errors p) (currentVersionPrefix p))).
Qed.

Lemma synchronize_spec n p :
  good p -> size p < n ->
  runs (synchronize n) p (fun _ p' => good p' /\ size p' <= size p /\ errors p' = errors p /\
    (Type_ (curToken p') = TOKEN_EOF \/ is_sync (Type_ (curToken p')) = true)).
Proof.
  intros Hg Hn. unfold synchronize.
  set (c := (t <- cur; ret (negb (bool_decide (Type_ t = TOKEN_EOF)) && negb (is_sync (Type_ t))))).
  assert (Hc : inspects c) by (unfold c; auto with parse).
  assert (Hok : ok (every n c (fun _ => nextToken) tt) p).
  { apply every_ok; [done..|]. intros [] p' Hg' Hs Ht. unfold c, bind, cur, ret in Ht.
    injection Ht as Ht. repeat step. }
  pose proof (every_exit n c (fun _ => nextToken) tt p Hc) as Hx.
  pose proof (skip_errors n c p Hc) as He. unfold ok, runs in *.
  destruct (every n c _ tt p) as [[] p'| |]; [|done|done]. destruct Hok as [Hg' Hs].
  split; [done|]. split; [done|]. split; [done|]. unfold c, bind, cur, ret in Hx. injection Hx as Hx.
  apply andb_false_iff in Hx as [Hx|Hx]; apply negb_false_iff in Hx; [left|right; done].
  by apply bool_decide_eq_true in Hx.
Qed.

(** A round reads some input, or records an error and stops at a keyword. *)
Definition stuck (p p' : Parser) : Prop :=
  size p' = size p /\ is_sync (Type_ (curToken p')) = true /\ length (errors p) < length (errors p').

Lemma program_round n ss p :
  good p -> Type_ (curToken p) <> TOKEN_EOF -> 3 * size p + 4 <= n ->
  runs (program_step n ss) p (fun _ p' => good p' /\ (size p' < size p \/ stuck p p')).
Proof.
  intros Hg Hc Hn.
  unfold program_step. apply runs_error_count. apply ok_bind; [by apply (methods_ok n)|].
  intros s p1 Hg1 Hs1. apply runs_error_count. destruct (_ <? _)%nat eqn:Herr.
  - apply Nat.ltb_lt in Herr. apply runs_bind. eapply runs_mono; [apply synchronize_spec; [done|lia]|].
    intros [] p2 (Hg2 & Hs2 & He2 & Hsync). apply runs_ret. split; [done|].
    destruct (decide (size p2 = size p)) as [Hs|]; [right|left; lia].
    split; [done|]. rewrite He2. split; [|done]. destruct Hsync as [Heof|]; [|done].
    assert (live (curToken p2) = 0) by (unfold live; by rewrite decide_True).
    apply live_type in Hc. pose proof (size_room p). pose proof (size_room p2). lia.
  - step. apply runs_ret. split; [done|]. left. sizes.
Qed.

(** [k] rounds of the loop of [ParseProgram]. *)
Fixpoint rounds (n k : nat) (ss : list stmt) : M (list stmt) :=
  match k with
  | O => ret ss
  | S k => ss <- program_step n ss; rounds n k ss
  end.

Lemma loop_ends n m ss p :
  good p -> 3 * size p + 4 <= n -> size p < m ->
  every m (notb (cur_is TOKEN_EOF)) (program_step n) ss p <> NoFuel \/
  exists k ss1 p1 ss2 p2, k <= size p /\ rounds n k ss p = Ret ss1 p1 /\
    program_step n ss1 p1 = Ret ss2 p2 /\ stuck p1 p2.
Proof.
  revert ss p. induction m as [|m IH]; intros ss p Hg Hn Hm; [lia|].
  cbn [every]. unfold bind at 1, notb at 1, cur_is, bind, ret.
  destruct (bool_decide (Type_ (curToken p) = TOKEN_EOF)) eqn:E; [by left|].
  apply bool_decide_eq_false in E. cbn [negb].
  pose proof (program_round n ss p Hg E Hn) as Hp. unfold runs in Hp.
  destruct (program_step n ss p) as [ss1 p1| |] eqn:Es; [|by left|done].
  destruct Hp as [Hg1 [Hs|Hs]].
  - destruct (IH ss1 p1 Hg1) as [H|(k & ss' & p' & ss2 & p2 & Hk & Hr & He)]; [lia|lia|by left|].
    right. exists (S k), ss', p', ss2, p2. split; [lia|]. split; [|done]. cbn. unfold bind. by rewrite Es.
  - right. exists 0, ss, p, ss1, p1. split; [lia|]. done.
Qed.

(** The only way the parser does not end: with a bound on depth and rounds
    linear in the length of the source, it returns (or panics), unless a round
    of its loop records an error, reads nothing, and stops on one of the
    keywords at which error recovery synchronizes. *)
Theorem ParseProgram_ends source n :
  6 * String.length source + 4 <= n ->
  parse n source <> NoFuel \/
  exists k ss1 p1 ss2 p2, k <= 2 * String.length source /\
    rounds n k [] (NewParser (NewLexer source)) = Ret ss1 p1 /\
    program_step n ss1 p1 = Ret ss2 p2 /\ stuck p1 p2.
Proof.
  intros Hn. pose proof (size_NewParser source) as Hs.
  destruct (loop_ends n n [] (NewParser (NewLexer source))) as [H|(k & ss & p' & ss2 & p2 & Hk & H)];
    [apply good_NewParser|lia|lia| |right; exists k, ss, p', ss2, p2; split; [lia|done]].
  left. unfold parse, ParseProgram. unfold bind. by destruct (every _ _ _ _ _).
Qed.

Lemma ParseProgram_ends_witness :
  parse 64 "import 5" <> NoFuel \/
  exists k ss1 p1 ss2 p2, k <= 2 * String.length "import 5" /\
    rounds 64 k [] (NewParser (NewLexer "import 5")) = Ret ss1 p1 /\
    program_step 64 ss1 p1 = Ret ss2 p2 /\ stuck p1 p2.
Proof. apply ParseProgram_ends. cbn. lia. Defined.

(** ** A program on which the parser does not end *)

(** What [import] accepts next. *)
Definition import_follows (t : TokenType) : bool :=
  match t with TOKEN_IDENT | TOKEN_LBRACE | TOKEN_STRING => true | _ => false end.

Lemma import_round n ss p :
  Type_ (curToken p) = TOKEN_IMPORT -> import_follows (Type_ (peekToken p)) = false ->
  exists p', program_step (S n) ss p = Ret ss p' /\
    curToken p' = curToken p /\ peekToken p' = peekToken p.
Proof.
  intros Hc Hf. unfold program_step, error_count, bind. cbn [methods parseStatement].
  unfold parseStatement_body, cur, bind. rewrite Hc. cbn beta iota.
  unfold parseImportStatement, peek, bind. rewrite bool_decide_eq_false_2 by (intros E; by rewrite E in Hf).
  unfold cur, peek_is, expectPeek, peek, peekError, peek, append_error, bind, ret.
  rewrite !bool_decide_eq_false_2 by (intros E; by rewrite E in Hf). cbn [andb errors].
  rewrite (bool_decide_eq_false_2 (TOKEN_STRING = TOKEN_IDENT)) by done. cbn [andb errors].
  rewrite length_app. cbn [length]. replace (_ <? _)%nat with true by (symmetry; apply Nat.ltb_lt; lia).
  unfold synchronize. cbn [every]. unfold bind, cur, ret. cbn [curToken]. rewrite Hc. cbn.
  eexists. done.
Qed.

(** C40: the parser does not end on a program in which the loop over the
    top-level statements meets an [import] that is followed by a token that is
    not an identifier, a brace or a string: the error leaves the parser on
    [import], where error recovery synchronizes at once, and the next round
    starts from the same tokens; no number of rounds is enough.  (Inside the
    body of a function the loop over the block moves on.) *)
Theorem import_never_ends n p :
  Type_ (curToken p) = TOKEN_IMPORT -> import_follows (Type_ (peekToken p)) = false ->
  ParseProgram n p = NoFuel.
Proof.
  intros Hc Hf. unfold ParseProgram. unfold bind. destruct n as [|n]; [done|].
  enough (forall m ss p, Type_ (curToken p) = TOKEN_IMPORT -> import_follows (Type_ (peekToken p)) = false ->
    every m (notb (cur_is TOKEN_EOF)) (program_step (S n)) ss p = NoFuel) as H by (by rewrite H).
  clear p Hc Hf. induction m as [|m IH]; intros ss p Hc Hf; [done|].
  cbn [every]. unfold bind at 1, notb at 1, cur_is, bind, ret. rewrite bool_decide_eq_false_2 by (by rewrite Hc).
  cbn [negb]. destruct (import_round n ss p Hc Hf) as (p' & -> & H1 & H2).
  apply IH; congruence.
Qed.

Lemma import_never_ends_witness :
  Type_ (curToken (NewParser (NewLexer "import 5"))) = TOKEN_IMPORT /\
  forall n, parse n "import 5" = NoFuel.
Proof. split; [reflexivity|]. intros n. apply import_never_ends; reflexivity. Defined.
