(* ===== verification/ParserGrammar.v ===== *)
(** * The expression grammar the parser implements

    A reference grammar of operator expressions: concrete syntax trees with
    their tokens, the precedence and follow conditions under which a tree is
    the reading of its tokens, and the syntax tree it stands for.  The Pratt
    parser builds exactly that tree. *)

From S2P Require Import Prelude GoStrings GoFloat Tokens Lexer Ast AstString Parser ParserExpr ParserStmt ParserServices ParserTop.
Local Open Scope string_scope.
Local Open Scope list_scope.

(** ** Concrete syntax *)

Inductive tree :=
  | Atom (t : Token)
  | Group (o : Token) (x : tree) (c : Token)
  | Prefix (op : Token) (x : tree)
  | Infix (l : tree) (op : Token) (r : tree)
  | Assign (l : tree) (op : Token) (r : tree)
  | Member (l : tree) (dot field : Token)
  | Prop_ (l : tree) (q : Token)
  | Index (l : tree) (o : Token) (i : tree) (c : Token)
  | Call0 (f : tree) (o c : Token)
  | Call (f : tree) (o : Token) (x : tree) (xs : more) (c : Token)
with more :=
  | Done
  | More (comma : Token) (x : tree) (xs : more).

Fixpoint tokens_of (x : tree) : list Token :=
  match x with
  | Atom t => [t]
  | Group o x c => o :: tokens_of x ++ [c]
  | Prefix op x => op :: tokens_of x
  | Infix l op r | Assign l op r => tokens_of l ++ op :: tokens_of r
  | Member l dot f => tokens_of l ++ [dot; f]
  | Prop_ l q => tokens_of l ++ [q]
  | Index l o i c => tokens_of l ++ o :: tokens_of i ++ [c]
  | Call0 f o c => tokens_of f ++ [o; c]
  | Call f o x xs c => tokens_of f ++ o :: tokens_of x ++ tokens_more xs ++ [c]
  end
with tokens_more (xs : more) : list Token :=
  match xs with
  | Done => []
  | More comma x xs => comma :: tokens_of x ++ tokens_more xs
  end.

(** ** Abstract syntax *)

Definition atom (t : Token) : expr :=
  match Type_ t with
  | TOKEN_IDENT => Identifier t (Literal t)
  | TOKEN_INT => match ParseInt0 (Literal t) with Some v => IntegerLiteral t v | None => ENil end
  | TOKEN_FLOAT => match ParseFloat (Literal t) with Some v => FloatLiteral t v | None => ENil end
  | TOKEN_STRING => StringLiteral t (Literal t)
  | TOKEN_DURATION => DurationLiteral t (Literal t)
  | TOKEN_FSTRING => FStringLiteral t (Literal t)
  | TOKEN_TRUE => BooleanLiteral t true
  | TOKEN_FALSE => BooleanLiteral t false
  | TOKEN_NIL => NilLiteral t
  | TOKEN_SELF => SelfExpr t
  | _ => ENil
  end.

(** [l |> r] passes [l] as the first argument. *)
Definition combine (op : Token) (l r : expr) : expr :=
  match Type_ op with
  | TOKEN_PIPE_ARROW =>
      match r with
      | CallExpr tok f ta args => CallExpr tok f ta (l :: args)
      | _ => CallExpr (mkToken TOKEN_LPAREN "(" (Line op) (Col op)) r [] [l]
      end
  | _ => InfixExpr op l (Literal op) r
  end.

Definition assign (op : Token) (l r : expr) : expr :=
  match Type_ op, l with
  | TOKEN_ASSIGN, Identifier _ n => AssignExpr op n r
  | TOKEN_ASSIGN, MemberExpr _ o f => MemberAssignExpr op o f r
  | TOKEN_ASSIGN, IndexExpr lt l i => IndexAssignExpr op lt l i r
  | _, Identifier _ n => CompoundAssignExpr op n (Literal op) r
  | _, _ => ENil
  end.

Definition member (l : expr) (dot field : Token) : expr :=
  match Type_ dot with
  | TOKEN_DOT => MemberExpr dot l (Literal field)
  | _ => OptionalMemberExpr dot l (Literal field)
  end.

Fixpoint build (x : tree) : expr :=
  match x with
  | Atom t => atom t
  | Group _ x _ => build x
  | Prefix op x => PrefixExpr op (Literal op) (build x)
  | Infix l op r => combine op (build l) (build r)
  | Assign l op r => assign op (build l) (build r)
  | Member l dot f => member (build l) dot f
  | Prop_ l q => ErrorPropExpr q (build l)
  | Index l o i _ => IndexExpr o (build l) (build i)
  | Call0 f o _ => CallExpr o (build f) [] []
  | Call f o x xs _ => CallExpr o (build f) [] (build x :: build_more xs)
  end
with build_more (xs : more) : list expr :=
  match xs with Done => [] | More _ x xs => build x :: build_more xs end.

(** ** Follow conditions *)

(** The lookahead of the parser, on the tokens that follow; [None] when they
    do not decide it. *)
Fixpoint generic_l (i depth : nat) (close : TokenType) (ts : list Token) : option bool :=
  match i, ts with
  | O, _ => Some false
  | S _, [] => None
  | S i, t :: ts =>
      match Type_ t with
      | TOKEN_LBRACKET => generic_l i (S depth) close ts
      | TOKEN_RBRACKET =>
          match depth, ts with
          | S d, _ => generic_l i d close ts
          | O, u :: _ => Some (bool_decide (Type_ u = close))
          | O, [] => None
          end
      | TOKEN_IDENT | TOKEN_COMMA => generic_l i depth close ts
      | _ => Some false
      end
  end.

Definition struct_l (ts : list Token) : option bool :=
  match ts with
  | [] => None
  | t :: ts =>
      if bool_decide (Type_ t = TOKEN_RBRACE) then Some true
      else if negb (bool_decide (Type_ t = TOKEN_IDENT)) then Some false
      else match ts with [] => None | u :: _ => Some (bool_decide (Type_ u = TOKEN_COLON)) end
  end.

Definition params_l (ts : list Token) : option bool :=
  match ts with
  | [] => None
  | t :: ts =>
      if negb (bool_decide (Type_ t = TOKEN_IDENT)) then Some false
      else match ts with
      | [] => None
      | u :: ts =>
          if negb (bool_decide (Type_ u = TOKEN_RPAREN)) then Some false
          else match ts with [] => None | v :: _ => Some (bool_decide (Type_ v = TOKEN_LBRACE)) end
      end
  end.

Definition says_no (o : option bool) : bool := match o with Some false => true | _ => false end.

(** An identifier stands alone: no generic arguments and no struct literal
    follow. *)
Definition alone (rest : list Token) : bool :=
  match rest with
  | [] => false
  | k :: r =>
      match Type_ k with
      | TOKEN_LBRACKET => says_no (generic_l 20 0 TOKEN_LPAREN r) && says_no (generic_l 20 0 TOKEN_LBRACE r)
      | TOKEN_LBRACE => says_no (struct_l r)
      | _ => true
      end
  end.

(** The precedence of what follows. *)
Definition prec_l (rest : list Token) : option nat :=
  match rest with
  | [] => None
  | k :: r =>
      if bool_decide (Type_ k = TOKEN_LPAREN) then
        match params_l r with Some true => Some LOWEST | Some false => Some CALL | None => None end
      else Some (default LOWEST (precedences (Type_ k)))
  end.

Definition stops (q : nat) (rest : list Token) : bool :=
  match prec_l rest with Some k => (k <=? q)%nat | None => false end.
Definition binds (q : nat) (rest : list Token) : bool :=
  match prec_l rest with Some k => (q <? k)%nat | None => false end.

Definition is_type (ty : TokenType) (t : Token) : bool := bool_decide (Type_ t = ty).

Definition is_infix (t : Token) : bool :=
  match Type_ t with
  | TOKEN_PLUS | TOKEN_MINUS | TOKEN_ASTERISK | TOKEN_SLASH | TOKEN_PERCENT | TOKEN_AMPERSAND
  | TOKEN_PIPE | TOKEN_CARET | TOKEN_SHIFT_LEFT | TOKEN_SHIFT_RIGHT | TOKEN_EQ | TOKEN_NEQ
  | TOKEN_LT | TOKEN_GT | TOKEN_LTE | TOKEN_GTE | TOKEN_OR | TOKEN_AND | TOKEN_PIPE_ARROW => true
  | _ => false
  end.

Definition is_assign (t : Token) : bool :=
  match Type_ t with
  | TOKEN_ASSIGN | TOKEN_PLUS_ASSIGN | TOKEN_MINUS_ASSIGN | TOKEN_ASTERISK_ASSIGN | TOKEN_SLASH_ASSIGN
  | TOKEN_PERCENT_ASSIGN => true
  | _ => false
  end.

(** What may stand to the left of an assignment. *)
Definition target (op : Token) (l : expr) : bool :=
  match Type_ op, l with
  | _, Identifier _ _ => true
  | TOKEN_ASSIGN, MemberExpr _ _ _ => true
  | TOKEN_ASSIGN, IndexExpr _ _ _ => true
  | _, _ => false
  end.

Definition precedence_of (op : Token) : nat := default LOWEST (precedences (Type_ op)).

(** [fits q x rest]: with the tokens [rest] behind it, [x] is part of the
    reading of its tokens at precedence [q], as far as [x] reaches. *)
Fixpoint fits (q : nat) (x : tree) (rest : list Token) : bool :=
  match x with
  | Atom t =>
      negb (is_ENil (atom t)) && (negb (is_type TOKEN_IDENT t) || alone rest)
  | Group o x c =>
      is_type TOKEN_LPAREN o && is_type TOKEN_RPAREN c && fits LOWEST x (c :: rest)
  | Prefix op x =>
      (is_type TOKEN_MINUS op || is_type TOKEN_BANG op) && fits PRODUCT x rest && stops PRODUCT rest
  | Infix l op r =>
      is_infix op && fits q l (op :: tokens_of r ++ rest) && (q <? precedence_of op)%nat &&
      fits (precedence_of op) r rest && stops (precedence_of op) rest
  | Assign l op r =>
      is_assign op && target op (build l) && fits q l (op :: tokens_of r ++ rest) && (q <? ASSIGN)%nat &&
      fits LOWEST r rest && stops LOWEST rest
  | Member l dot f =>
      (is_type TOKEN_DOT dot || is_type TOKEN_QUESTION_DOT dot) && is_type TOKEN_IDENT f &&
      fits q l (dot :: f :: rest) && (q <? MEMBER)%nat
  | Prop_ l k => is_type TOKEN_QUESTION k && fits q l (k :: rest) && (q <? CALL)%nat
  | Index l o i c =>
      is_type TOKEN_LBRACKET o && is_type TOKEN_RBRACKET c &&
      fits q l (o :: tokens_of i ++ c :: rest) && (q <? INDEX)%nat && fits LOWEST i (c :: rest)
  | Call0 f o c =>
      is_type TOKEN_LPAREN o && is_type TOKEN_RPAREN c && fits q f (o :: c :: rest) && (q <? CALL)%nat
  | Call f o x xs c =>
      is_type TOKEN_LPAREN o && is_type TOKEN_RPAREN c &&
      fits q f (o :: tokens_of x ++ tokens_more xs ++ c :: rest) &&
      binds q (o :: tokens_of x ++ tokens_more xs ++ c :: rest) &&
      fits LOWEST x (tokens_more xs ++ c :: rest) && fits_more xs (c :: rest)
  end
with fits_more (xs : more) (rest : list Token) : bool :=
  match xs with
  | Done => true
  | More comma x xs =>
      is_type TOKEN_COMMA comma && fits LOWEST x (tokens_more xs ++ rest) && fits_more xs rest
  end.

(** ** Upcoming tokens *)

Definition next (p : Parser) : Parser :=
  mkParser (NextToken (pl p)).2 (peekToken p) (NextToken (pl p)).1 (errors p) (currentVersionPrefix p).

Definition advance (i : nat) (p : Parser) : Parser := Nat.iter i next p.

Fixpoint reads (l : Lexer) (ts : list Token) : Prop :=
  match ts with
  | [] => True
  | t :: ts => (NextToken l).1 = t /\ reads (NextToken l).2 ts
  end.

(** The tokens of the parser, from the current one on, start with [ts]. *)
Definition upcoming (p : Parser) (ts : list Token) : Prop :=
  match ts with
  | [] => True
  | [c] => curToken p = c
  | c :: k :: r => curToken p = c /\ peekToken p = k /\ reads (pl p) r
  end.

Lemma nextToken_next p : nextToken p = Ret tt (next p).
Proof. unfold nextToken, next. by destruct (NextToken (pl p)). Qed.

Lemma upcoming_cur p t ts : upcoming p (t :: ts) -> curToken p = t.
Proof. destruct ts; cbn; naive_solver. Qed.

Lemma upcoming_peek p t u ts : upcoming p (t :: u :: ts) -> peekToken p = u /\ reads (pl p) ts.
Proof. cbn. naive_solver. Qed.

Lemma upcoming_next p t ts : upcoming p (t :: ts) -> upcoming (next p) ts.
Proof. destruct ts as [|u [|v ts]]; cbn; naive_solver. Qed.

Lemma upcoming_advance i p ts us :
  length ts = i -> upcoming p (ts ++ us) -> upcoming (advance i p) us.
Proof.
  revert p ts. induction i as [|i IH]; intros p [|t ts]; try done. cbn [length app]. intros [= Hi] Hu.
  unfold advance. rewrite Nat.iter_succ_r. by eapply IH, upcoming_next.
Qed.

Lemma advance_add i j p : advance i (advance j p) = advance (i + j) p.
Proof. unfold advance. by rewrite Nat.iter_add. Qed.

Lemma advance_next i p : advance i (next p) = advance (S i) p.
Proof. unfold advance. by rewrite Nat.iter_succ_r. Qed.

Lemma next_advance i p : next (advance i p) = advance (S i) p.
Proof. done. Qed.

(** After a phrase, the parser stands on its last token. *)
Lemma upcoming_last p ts us :
  ts <> [] -> upcoming p (ts ++ us) -> exists z, upcoming (advance (length ts - 1) p) (z :: us).
Proof.
  intros Hne Hu. destruct (exists_last Hne) as (ts' & z & ->). exists z.
  rewrite length_app. cbn [length]. rewrite Nat.add_sub. apply (upcoming_advance _ _ ts'); [done|].
  by rewrite <- app_assoc in Hu.
Qed.

(** ** Lookahead *)

Lemma ahead_reads l t ts : reads l (t :: ts) -> ahead l = (Type_ t, (NextToken l).2) /\ reads (NextToken l).2 ts.
Proof. intros [H1 H2]. unfold ahead. destruct (NextToken l). cbn in *. by subst. Qed.

Lemma generic_reads i d close l ts b :
  reads l ts -> generic_l i d close ts = Some b -> generic_ahead i d close l = b.
Proof.
  revert d l ts. induction i as [|i IH]; intros d l ts Hr; [cbn; congruence|].
  destruct ts as [|t ts]; [done|]. cbn [generic_l generic_ahead].
  destruct (ahead_reads _ _ _ Hr) as [-> Hr'].
  destruct (Type_ t); try (intros [= <-]; reflexivity); try (by apply IH).
  destruct d as [|d]; [|by apply IH]. destruct ts as [|u ts]; [done|].
  destruct (ahead_reads _ _ _ Hr') as [-> _]. by intros [= <-].
Qed.

Lemma struct_reads l ts b : reads l ts -> struct_l ts = Some b -> isStructLiteralAhead l = b.
Proof.
  intros Hr. destruct ts as [|t ts]; [done|]. cbn. unfold isStructLiteralAhead.
  destruct (ahead_reads _ _ _ Hr) as [-> Hr']. case_bool_decide; [congruence|].
  case_bool_decide; cbn [negb]; [|congruence]. destruct ts as [|u ts]; [done|].
  destruct (ahead_reads _ _ _ Hr') as [-> _]. cbn [fst]. congruence.
Qed.

Lemma params_reads l ts b : reads l ts -> params_l ts = Some b -> isParamListFollowedByBrace l = b.
Proof.
  intros Hr. destruct ts as [|t ts]; [done|]. cbn. unfold isParamListFollowedByBrace.
  destruct (ahead_reads _ _ _ Hr) as [-> Hr']. case_bool_decide; cbn [negb]; [|congruence].
  destruct ts as [|u ts]; [done|]. destruct (ahead_reads _ _ _ Hr') as [-> Hr''].
  case_bool_decide; cbn [negb]; [|congruence]. destruct ts as [|v ts]; [done|].
  destruct (ahead_reads _ _ _ Hr'') as [-> _]. congruence.
Qed.

Lemma prec_reads p z rest k :
  upcoming p (z :: rest) -> prec_l rest = Some k -> peekPrecedence p = Ret k p.
Proof.
  intros Hu. destruct rest as [|t r]; [done|]. destruct (upcoming_peek _ _ _ _ Hu) as [Ht Hr].
  unfold prec_l, peekPrecedence. rewrite Ht. case_bool_decide as E; cbn [andb]; [|congruence].
  destruct (params_l r) as [b|] eqn:Hp; [|done]. rewrite (params_reads _ _ _ Hr Hp).
  destruct b; [congruence|]. rewrite E. cbn. congruence.
Qed.

Lemma binds_tighter_stops q p z rest :
  upcoming p (z :: rest) -> stops q rest = true -> binds_tighter q p = Ret false p.
Proof.
  intros Hu. unfold stops. destruct (prec_l rest) as [k|] eqn:Hk; [|done]. intros Hle%Nat.leb_le.
  unfold binds_tighter, andb_, notb, peek_is, bind, ret.
  destruct (negb _); [|done]. rewrite (prec_reads _ _ _ _ Hu Hk). by rewrite (proj2 (Nat.ltb_ge q k) Hle).
Qed.

Lemma binds_tighter_binds q p z t rest :
  upcoming p (z :: t :: rest) -> Type_ t <> TOKEN_EOF -> binds q (t :: rest) = true ->
  binds_tighter q p = Ret true p.
Proof.
  intros Hu Ht. unfold binds. destruct (prec_l _) as [k|] eqn:Hk; [|done]. intros Hlt.
  unfold binds_tighter, andb_, notb, peek_is, bind, ret.
  destruct (upcoming_peek _ _ _ _ Hu) as [-> _]. rewrite bool_decide_eq_false_2 by done. cbn [negb].
  rewrite (prec_reads _ _ _ _ Hu Hk). by rewrite Hlt.
Qed.

Lemma says_no_eq o : says_no o = true -> o = Some false.
Proof. by destruct o as [[]|]. Qed.

(** ** The parser reads the grammar *)

Lemma bind_Ret {A B} (m : M A) (k : A -> M B) p a p' : m p = Ret a p' -> bind m k p = k a p'.
Proof. intros H. unfold bind. by rewrite H. Qed.

Section Reads.

Local Abbreviation E n := (parseExpression (methods n)).
Local Abbreviation prefixes n :=
  (prefixParseFns (E n) (parseStatement (methods n)) (parseTypeAnnotation (methods n)) n).

(** The operators that remain to be read after [left]. *)
Definition operators (n q m : nat) (left : expr) : M expr :=
  r <- loop m (binds_tighter q) (infix_step (E n) n) left; match r with inl e => ret e | inr e => ret e end.

Lemma prefix_reads n q p m e p' :
  prefixes n (Type_ (curToken p)) = Some m -> m p = Ret e p' ->
  E (S n) q p = operators n q n e p'.
Proof.
  intros Hm He. change (E (S n) q p) with (parseExpression_body (E n) (parseStatement (methods n))
    (parseTypeAnnotation (methods n)) n q p).
  unfold parseExpression_body. rewrite (bind_Ret cur _ p (curToken p) p) by done. rewrite Hm.
  cbv zeta. by rewrite (bind_Ret _ _ _ _ _ He).
Qed.

Lemma operators_stop n q m e p z rest :
  0 < m -> upcoming p (z :: rest) -> stops q rest = true -> operators n q m e p = Ret e p.
Proof.
  intros Hm Hu Hs. destruct m as [|m]; [lia|]. unfold operators. cbn [loop].
  unfold bind. by rewrite (binds_tighter_stops _ _ _ _ Hu Hs).
Qed.

Lemma operators_step n q m left p z t rest infix e p' :
  upcoming p (z :: t :: rest) -> binds q (t :: rest) = true ->
  infixParseFns (E n) n (Type_ t) = Some infix -> infix left (next p) = Ret e p' ->
  operators n q (S m) left p = operators n q m e p'.
Proof.
  intros Hu Hb Hi He. unfold operators. cbn [loop]. unfold bind.
  assert (Type_ t <> TOKEN_EOF) by (intros E'; by rewrite E' in Hi).
  rewrite (binds_tighter_binds _ _ _ _ _ Hu) by done.
  unfold infix_step, bind, peek. destruct (upcoming_peek _ _ _ _ Hu) as [-> _]. rewrite Hi.
  rewrite nextToken_next, He. done.
Qed.

Definition parsed (x : tree) : Prop := forall n q rest p,
  fits q x rest = true -> upcoming p (tokens_of x ++ rest) -> length (tokens_of x) <= n ->
  exists m, n < m + length (tokens_of x) /\
    E (S n) q p = operators n q m (build x) (advance (length (tokens_of x) - 1) p).

Lemma tokens_nonempty x : tokens_of x <> [].
Proof. destruct x; cbn; try done; by destruct (tokens_of _). Qed.

Lemma tokens_length x : 0 < length (tokens_of x).
Proof. pose proof (tokens_nonempty x). destruct (tokens_of x); [done|cbn; lia]. Qed.

(** An operand is read to its end. *)
Lemma operand x n q rest p :
  parsed x -> fits q x rest = true -> stops q rest = true -> upcoming p (tokens_of x ++ rest) ->
  length (tokens_of x) < n ->
  E n q p = Ret (build x) (advance (length (tokens_of x) - 1) p).
Proof.
  intros Hx Hf Hs Hu Hn. destruct n as [|n]; [lia|].
  destruct (Hx n q rest p) as (m & Hm & ->); [done|done|lia|].
  destruct (upcoming_last p _ _ (tokens_nonempty x) Hu) as [z Hz].
  eapply operators_stop; [|done|done]. lia.
Qed.

(** *** Atoms *)

Lemma alone_reads n p t rest :
  upcoming p (t :: rest) -> alone rest = true ->
  parseIdentifier (E n) n p = Ret (Identifier t (Literal t)) p.
Proof.
  intros Hu Ha. destruct rest as [|k r]; [done|].
  pose proof (upcoming_cur _ _ _ Hu) as Ht. destruct (upcoming_peek _ _ _ _ Hu) as [Hk Hr].
  unfold parseIdentifier. rewrite (bind_Ret cur _ p t p) by (unfold cur; by rewrite Ht). cbv zeta.
  unfold alone in Ha.
  assert (Hplain : Type_ k <> TOKEN_LBRACE \/ isStructLiteralAhead (pl p) = false ->
    (b <- andb_ (peek_is TOKEN_LBRACE) (look isStructLiteralAhead);
     if b then nextToken >> parseStructLiteral (E n) n (Literal t) else ret (Identifier t (Literal t))) p
    = Ret (Identifier t (Literal t)) p).
  { intros H. unfold bind at 1, andb_, bind, peek_is, look, ret. rewrite Hk.
    destruct H as [H|H]; [by rewrite bool_decide_eq_false_2|]. case_bool_decide; [|done]. by rewrite H. }
  rewrite (bind_Ret (peek_is TOKEN_LBRACKET) _ p (bool_decide (Type_ k = TOKEN_LBRACKET)) p)
    by (unfold peek_is; by rewrite Hk).
  case_bool_decide as E1.
  - rewrite E1 in Ha. apply andb_true_iff in Ha as [H1 H2].
    assert (G1 : isGenericCallAhead (pl p) = false).
    { apply (generic_reads _ _ _ _ _ _ Hr). by apply says_no_eq. }
    assert (G2 : isGenericStructLiteralAhead (pl p) = false).
    { apply (generic_reads _ _ _ _ _ _ Hr). by apply says_no_eq. }
    unfold look at 1. unfold bind at 1. rewrite G1. unfold look at 1, bind at 1. rewrite G2.
    apply Hplain. left. by rewrite E1.
  - apply Hplain. destruct (decide (Type_ k = TOKEN_LBRACE)) as [E2|]; [|by left]. right.
    rewrite E2 in Ha. apply (struct_reads _ _ _ Hr). by apply says_no_eq.
Qed.

Lemma atom_reads n p t rest :
  upcoming p (t :: rest) -> fits LOWEST (Atom t) rest = true ->
  exists m, prefixes n (Type_ (curToken p)) = Some m /\ m p = Ret (atom t) p.
Proof.
  intros Hu Hf. rewrite (upcoming_cur _ _ _ Hu). cbn in Hf. apply andb_true_iff in Hf as [Ha Hi].
  unfold atom in *. unfold is_type in Hi.
  destruct (Type_ t) eqn:Et; try discriminate Ha; cbn [prefixParseFns]; eexists; (split; [reflexivity|]);
    try (by apply (alone_reads _ _ _ _ Hu));
    unfold parseIntegerLiteral, parseFloatLiteral, parseStringLiteral, parseDurationLiteral, parseFStringLiteral,
      parseBooleanLiteral, parseNilLiteral, parseSelfExpression, bind, cur, ret;
    rewrite (upcoming_cur _ _ _ Hu); rewrite ?Et; try done.
  - by destruct (ParseInt0 _).
  - by destruct (ParseFloat _).
Qed.

(** *** Prefix forms *)

Ltac split_fits := repeat match goal with
  | H : _ && _ = true |- _ => apply andb_true_iff in H as [? ?]
  | H : is_type _ _ = true |- _ => apply bool_decide_eq_true in H
  | H : (_ <? _)%nat = true |- _ => apply Nat.ltb_lt in H
  end.

Lemma stops_closing q c rest :
  LOWEST <= q -> Type_ c = TOKEN_RPAREN \/ Type_ c = TOKEN_RBRACKET \/ Type_ c = TOKEN_COMMA ->
  stops q (c :: rest) = true.
Proof.
  intros Hq Hc. unfold stops, prec_l. rewrite bool_decide_eq_false_2 by naive_solver congruence.
  apply Nat.leb_le. destruct Hc as [-> | [-> | ->]]; cbn; done.
Qed.

Lemma parsed_atom t : parsed (Atom t).
Proof.
  intros n q rest p Hf Hu Hn. destruct (atom_reads n p t rest Hu Hf) as (m & Hm & He).
  exists n. split; [cbn; lia|]. by rewrite (prefix_reads n q p m _ _ Hm He).
Qed.

Lemma expectPeek_reads ty p z t rest :
  upcoming p (z :: t :: rest) -> Type_ t = ty -> expectPeek ty p = Ret true (next p).
Proof.
  intros Hu Ht. destruct (upcoming_peek _ _ _ _ Hu) as [Hp _]. unfold expectPeek, bind, peek. rewrite Hp.
  rewrite bool_decide_eq_true_2 by done. by rewrite nextToken_next.
Qed.

Lemma parsed_group o x c : parsed x -> parsed (Group o x c).
Proof.
  intros Hx n q rest p Hf Hu Hn. cbn [fits] in Hf. split_fits. cbn [tokens_of app] in *.
  rewrite <- app_assoc in Hu. pose proof (upcoming_cur _ _ _ Hu) as Hc. apply upcoming_next in Hu.
  cbn [length] in *. rewrite length_app in *. cbn [length] in *.
  exists n. split; [lia|].
  apply (prefix_reads n q p (parseGroupedExpression (E n))); [by rewrite Hc, H|].
  unfold parseGroupedExpression. rewrite (bind_Ret _ _ _ _ _ (nextToken_next p)).
  rewrite (bind_Ret _ _ _ _ _ (operand x n LOWEST (c :: rest) (next p) Hx H0
    ltac:(apply stops_closing; [done|auto]) Hu ltac:(lia))).
  destruct (upcoming_last _ _ _ (tokens_nonempty x) Hu) as [z Hz].
  rewrite (bind_Ret _ _ _ _ _ (expectPeek_reads _ _ _ _ _ Hz H1)).
  pose proof (tokens_length x).
  unfold ret. cbn [build]. rewrite next_advance, advance_next. do 2 f_equal. lia.
Qed.

Lemma parsed_prefix op x : parsed x -> parsed (Prefix op x).
Proof.
  intros Hx n q rest p Hf Hu Hn. cbn [fits] in Hf. split_fits. cbn [tokens_of app length] in *.
  pose proof (upcoming_cur _ _ _ Hu) as Hc. apply upcoming_next in Hu. pose proof (tokens_length x).
  exists n. split; [lia|].
  apply (prefix_reads n q p (parsePrefixExpression (E n))).
  { rewrite Hc. apply orb_true_iff in H as [H|H]; apply bool_decide_eq_true in H; by rewrite H. }
  unfold parsePrefixExpression. rewrite (bind_Ret cur _ p op p) by (unfold cur; by rewrite Hc).
  rewrite (bind_Ret _ _ _ _ _ (nextToken_next p)).
  rewrite (bind_Ret _ _ _ _ _ (operand x n PRODUCT rest (next p) Hx H1 H0 Hu ltac:(lia))).
  unfold ret. rewrite advance_next. do 2 f_equal. lia.
Qed.

(** *** Operators *)

(** A tree that continues [l] with the operator [t]. *)
Lemma parsed_operator l x t ts :
  parsed l -> tokens_of x = tokens_of l ++ t :: ts ->
  (forall n q rest, fits q x rest = true -> length (t :: ts) < n ->
     fits q l (t :: ts ++ rest) = true /\ binds q (t :: ts ++ rest) = true /\
     exists infix, infixParseFns (E n) n (Type_ t) = Some infix /\
       forall p z, upcoming p (z :: t :: ts ++ rest) ->
         infix (build l) (next p) = Ret (build x) (advance (length (t :: ts)) p)) ->
  parsed x.
Proof.
  intros Hl Hts Hop n q rest p Hf Hu Hn. rewrite Hts in *. rewrite length_app in *. rewrite <- app_assoc in Hu.
  pose proof (tokens_length l).
  destruct (Hop n q rest Hf ltac:(lia)) as (Hfl & Hb & infix & Hi & He).
  destruct (Hl n q _ p Hfl Hu ltac:(lia)) as (m & Hm & ->).
  destruct (upcoming_last _ _ _ (tokens_nonempty l) Hu) as [z Hz]. cbn [length] in *.
  destruct m as [|m]; [lia|]. exists m. split; [lia|].
  rewrite (operators_step _ _ _ _ _ _ _ _ _ _ _ Hz Hb Hi (He _ _ Hz)).
  rewrite advance_add. do 2 f_equal. lia.
Qed.

Lemma binds_type q t rest :
  Type_ t <> TOKEN_LPAREN -> q < precedence_of t -> binds q (t :: rest) = true.
Proof.
  intros Ht Hq. unfold binds, prec_l. rewrite bool_decide_eq_false_2 by done. by apply Nat.ltb_lt.
Qed.

Lemma cur_next p z t rest : upcoming p (z :: t :: rest) -> cur (next p) = Ret t (next p).
Proof. intros Hu. unfold cur. by rewrite (upcoming_cur _ _ _ (upcoming_next _ _ _ Hu)). Qed.

Lemma curPrecedence_next p z t rest :
  upcoming p (z :: t :: rest) -> curPrecedence (next p) = Ret (precedence_of t) (next p).
Proof. intros Hu. unfold curPrecedence. by rewrite (bind_Ret _ _ _ _ _ (cur_next _ _ _ _ Hu)). Qed.

(** The operand behind an operator. *)
Lemma right_operand x n q p z t rest :
  parsed x -> fits q x rest = true -> stops q rest = true -> length (tokens_of x) < n ->
  upcoming p (z :: t :: tokens_of x ++ rest) ->
  E n q (next (next p)) = Ret (build x) (advance (length (t :: tokens_of x)) p).
Proof.
  intros Hx Hf Hs Hn Hu. do 2 apply upcoming_next in Hu.
  rewrite (operand x n q rest _ Hx Hf Hs Hu Hn). rewrite !advance_next. pose proof (tokens_length x).
  do 2 f_equal. cbn [length]. lia.
Qed.

Lemma built_not_nil q x rest : fits q x rest = true -> build x <> ENil.
Proof.
  revert q rest. induction x; intros q' rest; cbn [fits build]; intros Hf E'; split_fits; try discriminate E'.
  - by rewrite E' in H.
  - by eapply IHx.
  - unfold combine in E'. destruct (Type_ op), (build x2); discriminate E'.
  - unfold assign, target in *. destruct (Type_ op), (build x1); discriminate.
  - unfold member in E'. destruct (Type_ dot); discriminate E'.
Qed.

Lemma parsed_infix l op r : parsed l -> parsed r -> parsed (Infix l op r).
Proof.
  intros Hl Hr. apply (parsed_operator l _ op (tokens_of r)); [done|done|].
  intros n q rest Hf Hn. cbn [fits length] in *. split_fits.
  split; [done|]. split; [apply binds_type; [|done]; unfold is_infix in *; intros E'; by rewrite E' in *|].
  destruct (decide (Type_ op = TOKEN_PIPE_ARROW)) as [Ep|Ep].
  - exists (parsePipeExpression (E n)). split; [by rewrite Ep|]. intros p z Hu. unfold parsePipeExpression.
    rewrite (bind_Ret _ _ _ _ _ (curPrecedence_next _ _ _ _ Hu)), (bind_Ret _ _ _ _ _ (cur_next _ _ _ _ Hu)).
    rewrite (bind_Ret _ _ _ _ _ (nextToken_next _)).
    rewrite (bind_Ret _ _ _ _ _ (right_operand r n _ p z op rest Hr H1 H0 ltac:(lia) Hu)).
    unfold ret. cbn [build]. unfold combine. rewrite Ep. pose proof (built_not_nil _ _ _ H1).
    by destruct (build r).
  - exists (parseInfixExpression (E n)).
    split; [unfold is_infix in *; by destruct (Type_ op)|]. intros p z Hu. unfold parseInfixExpression.
    rewrite (bind_Ret _ _ _ _ _ (cur_next _ _ _ _ Hu)), (bind_Ret _ _ _ _ _ (curPrecedence_next _ _ _ _ Hu)).
    rewrite (bind_Ret _ _ _ _ _ (nextToken_next _)).
    rewrite (bind_Ret _ _ _ _ _ (right_operand r n _ p z op rest Hr H1 H0 ltac:(lia) Hu)).
    unfold ret. cbn [build]. unfold combine. by destruct (Type_ op).
Qed.

Lemma parsed_assign l op r : parsed l -> parsed r -> parsed (Assign l op r).
Proof.
  intros Hl Hr. apply (parsed_operator l _ op (tokens_of r)); [done|done|].
  intros n q rest Hf Hn. cbn [fits length] in *. split_fits. rename H into Hop, H0 into Hs, H1 into Hfr, H2 into Hq,
    H3 into Hfl, H4 into Ht.
  assert (Hb : precedence_of op = ASSIGN /\ Type_ op <> TOKEN_LPAREN).
  { unfold is_assign, precedence_of in *. by destruct (Type_ op). }
  split; [done|]. split; [apply binds_type; [apply Hb|]; by rewrite (proj1 Hb)|].
  assert (Hv : forall p z, upcoming p (z :: op :: tokens_of r ++ rest) -> forall k : expr -> M expr,
    (nextToken >> v <- E n LOWEST; k v) (next p) = k (build r) (advance (length (op :: tokens_of r)) p)).
  { intros p z Hu k. rewrite (bind_Ret _ _ _ _ _ (nextToken_next _)).
    by rewrite (bind_Ret _ _ _ _ _ (right_operand r n _ p z op rest Hr Hfr Hs ltac:(lia) Hu)). }
  destruct (decide (Type_ op = TOKEN_ASSIGN)) as [Ea|Ea].
  - exists (parseAssignmentExpression (E n)). split; [by rewrite Ea|]. intros p z Hu. unfold parseAssignmentExpression.
    rewrite (bind_Ret _ _ _ _ _ (cur_next _ _ _ _ Hu)). unfold target in Ht. cbn [build]. unfold assign.
    rewrite Ea in *. destruct (build l); try discriminate Ht; by rewrite (Hv _ _ Hu).
  - exists (parseCompoundAssignExpression (E n)). split; [unfold is_assign in Hop; by destruct (Type_ op)|].
    intros p z Hu. unfold parseCompoundAssignExpression.
    rewrite (bind_Ret _ _ _ _ _ (cur_next _ _ _ _ Hu)). unfold target, is_assign in *. cbn [build]. unfold assign.
    destruct (Type_ op); try discriminate Hop; try done;
      (destruct (build l); try discriminate Ht; by rewrite (Hv _ _ Hu)).
Qed.

Lemma field_reads p z dot f rest :
  upcoming p (z :: dot :: f :: rest) -> Type_ f = TOKEN_IDENT ->
  field_name (next p) = Ret (Some (Literal f)) (next (next p)).
Proof.
  intros Hu Hf. apply upcoming_next in Hu. destruct (upcoming_peek _ _ _ _ Hu) as [Hp _].
  unfold field_name, bind, peek. rewrite Hp, bool_decide_eq_true_2 by done. cbn [orb].
  rewrite nextToken_next. unfold cur_as_ident, bind, cur, set_cur, lit, ret. cbn [curToken].
  pose proof (upcoming_cur _ _ _ (upcoming_next _ _ _ Hu)) as Hc.
  assert (Hr : retype TOKEN_IDENT f = f) by (unfold retype; destruct f; cbn in *; by subst).
  rewrite Hc, Hr. do 2 f_equal. unfold next in *. cbn in *. by rewrite Hc.
Qed.

Lemma parsed_member l dot f : parsed l -> parsed (Member l dot f).
Proof.
  intros Hl. apply (parsed_operator l _ dot [f]); [done|done|].
  intros n q rest Hf Hn. cbn [fits length app] in *. split_fits. rename H into Hdot, H1 into Hfl, H2 into Hff.
  assert (Hb : precedence_of dot = MEMBER /\ Type_ dot <> TOKEN_LPAREN).
  { apply orb_true_iff in Hdot as [H|H]; apply bool_decide_eq_true in H; unfold precedence_of; by rewrite H. }
  split; [done|]. split; [apply binds_type; [apply Hb|]; by rewrite (proj1 Hb)|].
  apply orb_true_iff in Hdot as [H|H]; apply bool_decide_eq_true in H.
  - exists parseMemberExpression. split; [by rewrite H|]. intros p z Hu. unfold parseMemberExpression.
    rewrite (bind_Ret _ _ _ _ _ (cur_next _ _ _ _ Hu)), (bind_Ret _ _ _ _ _ (field_reads _ _ _ _ _ Hu Hff)).
    cbn [build]. unfold member. by rewrite H.
  - exists parseOptionalMemberExpression. split; [by rewrite H|]. intros p z Hu. unfold parseOptionalMemberExpression.
    rewrite (bind_Ret _ _ _ _ _ (cur_next _ _ _ _ Hu)), (bind_Ret _ _ _ _ _ (field_reads _ _ _ _ _ Hu Hff)).
    cbn [build]. unfold member. by rewrite H.
Qed.

Lemma parsed_prop l k : parsed l -> parsed (Prop_ l k).
Proof.
  intros Hl. apply (parsed_operator l _ k []); [done|done|].
  intros n q rest Hf Hn. cbn [fits length app] in *. split_fits.
  split; [done|]. split; [apply binds_type; [by rewrite H|]; unfold precedence_of; by rewrite H|].
  exists parseErrorPropExpression. split; [by rewrite H|]. intros p z Hu. unfold parseErrorPropExpression.
  by rewrite (bind_Ret _ _ _ _ _ (cur_next _ _ _ _ Hu)).
Qed.

(** An expression does not start with a separator or a closing bracket. *)
Lemma first_token q x rest :
  fits q x rest = true ->
  exists t ts, tokens_of x = t :: ts /\ Type_ t <> TOKEN_COLON /\ Type_ t <> TOKEN_RPAREN.
Proof.
  revert q rest. induction x; intros q' rest; cbn [fits tokens_of]; intros Hf; split_fits;
    try (match goal with IH : forall q rest, fits q ?l rest = true -> _, H : fits _ ?l _ = true |- _ =>
           destruct (IH _ _ H) as (t0 & ts0 & Hts & ?); rewrite Hts; eexists _, _; split; [reflexivity|done] end).
  - eexists _, _. split; [done|]. unfold atom in *. split; intros E'; by rewrite E' in *.
  - eexists _, _. split; [done|]. split; congruence.
  - eexists _, _. split; [done|]. apply orb_true_iff in H as [H|H]; apply bool_decide_eq_true in H; split; congruence.
Qed.

Lemma peek_is_reads ty p z t rest :
  upcoming p (z :: t :: rest) -> peek_is ty p = Ret (bool_decide (Type_ t = ty)) p.
Proof. intros Hu. unfold peek_is. by destruct (upcoming_peek _ _ _ _ Hu) as [-> _]. Qed.

(** An operand and the token behind it. *)
Lemma bracketed x n q p z o c rest :
  parsed x -> fits q x (c :: rest) = true -> stops q (c :: rest) = true -> length (tokens_of x) < n ->
  upcoming p (z :: o :: tokens_of x ++ c :: rest) ->
  E n q (next (next p)) = Ret (build x) (advance (length (o :: tokens_of x)) p) /\
  exists y, upcoming (advance (length (o :: tokens_of x)) p) (y :: c :: rest).
Proof.
  intros Hx Hf Hs Hn Hu. split; [by eapply right_operand|].
  destruct (upcoming_last _ (z :: o :: tokens_of x) (c :: rest) ltac:(done) Hu) as [y Hy].
  exists y. cbn [length] in *. by replace (S (S (length (tokens_of x))) - 1) with (S (length (tokens_of x))) in Hy by lia.
Qed.

Lemma parsed_index l o i c : parsed l -> parsed i -> parsed (Index l o i c).
Proof.
  intros Hl Hi. apply (parsed_operator l _ o (tokens_of i ++ [c])); [done|done|].
  intros n q rest Hf Hn. cbn [fits length app] in *. rewrite length_app in *. cbn [length] in *. split_fits.
  rename H into Ho, H0 into Hfi, H1 into Hq, H2 into Hfl, H3 into Hc. rewrite <- app_assoc. cbn [app].
  split; [done|]. split; [apply binds_type; [by rewrite Ho|]; unfold precedence_of; by rewrite Ho|].
  exists (parseIndexExpression (E n)). split; [by rewrite Ho|]. intros p z Hu. unfold parseIndexExpression.
  rewrite (bind_Ret _ _ _ _ _ (cur_next _ _ _ _ Hu)), (bind_Ret _ _ _ _ _ (nextToken_next _)).
  destruct (first_token _ _ _ Hfi) as (t & ts & Hts & Hcol & _).
  assert (Hcur : curToken (next (next p)) = t).
  { rewrite Hts in Hu. do 2 apply upcoming_next in Hu. by apply upcoming_cur in Hu. }
  rewrite (bind_Ret (cur_is TOKEN_COLON) _ _ false (next (next p)))
    by (unfold cur_is; by rewrite Hcur, bool_decide_eq_false_2).
  destruct (bracketed i n LOWEST p z o c rest Hi Hfi) as [He [y Hy]];
    [apply stops_closing; [done|auto]|lia|done|].
  rewrite (bind_Ret _ _ _ _ _ He), (bind_Ret _ _ _ _ _ (peek_is_reads _ _ _ _ _ Hy)).
  rewrite bool_decide_eq_false_2 by (by rewrite Hc).
  rewrite (bind_Ret _ _ _ _ _ (expectPeek_reads _ _ _ _ _ Hy Hc)). unfold ret. rewrite next_advance.
  do 2 f_equal. cbn [length]. lia.
Qed.

Lemma parsed_call0 f o c : parsed f -> parsed (Call0 f o c).
Proof.
  intros Hl. apply (parsed_operator f _ o [c]); [done|done|].
  intros n q rest Hf Hn. cbn [fits length app] in *. split_fits. rename H into Ho, H2 into Hc.
  split; [done|]. split.
  { unfold binds, prec_l. rewrite bool_decide_eq_true_2 by done. cbn [params_l].
    rewrite bool_decide_eq_false_2 by (by rewrite Hc). by apply Nat.ltb_lt. }
  exists (parseCallExpression (E n) n). split; [by rewrite Ho|]. intros p z Hu. unfold parseCallExpression.
  rewrite (bind_Ret _ _ _ _ _ (cur_next _ _ _ _ Hu)). unfold parseExpressionList.
  rewrite (bind_Ret _ _ _ [] (next (next p))); [done|].
  rewrite (bind_Ret _ _ _ _ _ (peek_is_reads _ _ _ _ _ (upcoming_next _ _ _ Hu))).
  rewrite bool_decide_eq_true_2 by done. by rewrite (bind_Ret _ _ _ _ _ (nextToken_next _)).
Qed.

(** *** Arguments *)

(** One round of the loop over arguments. *)
Definition argument (n : nat) (es : list expr) : M (list expr) :=
  nextToken >> nextToken >> e <- E n LOWEST; ret (es ++ [e]).

Definition parsed_more (xs : more) : Prop := forall n m c rest es p z,
  fits_more xs (c :: rest) = true -> Type_ c = TOKEN_RPAREN -> length (tokens_more xs) < n ->
  length (tokens_more xs) < m -> upcoming p (z :: tokens_more xs ++ c :: rest) ->
  every m (peek_is TOKEN_COMMA) (argument n) es p =
    Ret (es ++ build_more xs) (advance (length (tokens_more xs)) p).

Lemma parsed_done : parsed_more Done.
Proof.
  intros n m c rest es p z _ Hc _ Hm Hu. destruct m as [|m]; [lia|]. cbn [every].
  rewrite (bind_Ret _ _ _ _ _ (peek_is_reads _ _ _ _ _ Hu)), bool_decide_eq_false_2 by (by rewrite Hc).
  cbn. by rewrite app_nil_r.
Qed.

(** What follows an argument closes it. *)
Lemma stops_more xs c rest :
  fits_more xs (c :: rest) = true -> Type_ c = TOKEN_RPAREN -> stops LOWEST (tokens_more xs ++ c :: rest) = true.
Proof.
  intros Hf Hc. destruct xs; cbn [fits_more tokens_more app] in *; split_fits; apply stops_closing; auto.
Qed.

Lemma parsed_more_cons comma x xs : parsed x -> parsed_more xs -> parsed_more (More comma x xs).
Proof.
  intros Hx Hxs n m c rest es p z Hf Hc Hn Hm Hu. pose proof Hf as Hf'. cbn [fits_more tokens_more app length] in *.
  split_fits. rewrite length_app in *. rewrite <- app_assoc in Hu. rename H into Hcomma, H0 into Hfm, H1 into Hfx.
  destruct m as [|m]; [lia|]. cbn [every].
  rewrite (bind_Ret _ _ _ _ _ (peek_is_reads _ _ _ _ _ Hu)), bool_decide_eq_true_2 by done.
  unfold argument at 1. pose proof (tokens_length x).
  assert (Ha : (nextToken >> nextToken >> e <- E n LOWEST; ret (es ++ [e])) p
    = Ret (es ++ [build x]) (advance (length (comma :: tokens_of x)) p)).
  { rewrite (bind_Ret _ _ _ _ _ (nextToken_next _)), (bind_Ret _ _ _ _ _ (nextToken_next _)).
    by rewrite (bind_Ret _ _ _ _ _ (right_operand x n _ p z comma _ Hx Hfx
      (stops_more _ _ _ Hfm Hc) ltac:(lia) Hu)). }
  rewrite (bind_Ret _ _ _ _ _ Ha).
  destruct (upcoming_last _ (z :: comma :: tokens_of x) (tokens_more xs ++ c :: rest) ltac:(done) Hu) as [y Hy].
  cbn [length] in Hy. rewrite Nat.sub_succ, Nat.sub_0_r in Hy.
  rewrite (Hxs n m c rest _ _ y Hfm Hc ltac:(lia) ltac:(lia) Hy).
  cbn [build_more length]. rewrite <- app_assoc, advance_add. do 2 f_equal. lia.
Qed.

Lemma parsed_call f o x xs c : parsed f -> parsed x -> parsed_more xs -> parsed (Call f o x xs c).
Proof.
  intros Hl Hx Hxs. apply (parsed_operator f _ o (tokens_of x ++ tokens_more xs ++ [c])); [done|done|].
  intros n q rest Hf Hn. cbn [fits length app] in *. rewrite !length_app in *. cbn [length] in *. split_fits.
  rename H into Ho, H0 into Hfm, H1 into Hfx, H2 into Hb, H3 into Hff, H4 into Hc.
  rewrite <- !app_assoc. cbn [app]. split; [done|]. split; [done|].
  exists (parseCallExpression (E n) n). split; [by rewrite Ho|]. intros p z Hu. unfold parseCallExpression.
  rewrite (bind_Ret _ _ _ _ _ (cur_next _ _ _ _ Hu)). unfold parseExpressionList.
  destruct (first_token _ _ _ Hfx) as (t & ts & Hts & _ & Hrp). pose proof (tokens_length x).
  assert (Hpk : peek_is TOKEN_RPAREN (next p) = Ret false (next p)).
  { rewrite Hts in Hu. cbn [app] in Hu. rewrite (peek_is_reads _ _ _ _ _ (upcoming_next _ _ _ Hu)).
    by rewrite bool_decide_eq_false_2. }
  rewrite (bind_Ret _ _ _ (build x :: build_more xs) (advance (length (o :: tokens_of x ++ tokens_more xs ++ [c])) p));
    [cbn [length]; by rewrite !length_app|].
  rewrite (bind_Ret _ _ _ _ _ Hpk), (bind_Ret _ _ _ _ _ (nextToken_next _)).
  rewrite (bind_Ret _ _ _ _ _ (right_operand x n _ p z o _ Hx Hfx (stops_more _ _ _ Hfm Hc) ltac:(lia) Hu)).
  destruct (upcoming_last _ (z :: o :: tokens_of x) (tokens_more xs ++ c :: rest) ltac:(done) Hu) as [y Hy].
  cbn [length] in Hy. rewrite Nat.sub_succ, Nat.sub_0_r in Hy.
  pose proof (Hxs n n c rest [build x] _ y Hfm Hc ltac:(lia) ltac:(lia) Hy) as Hm. unfold argument in Hm.
  rewrite (bind_Ret _ _ _ _ _ Hm).
  destruct (upcoming_last _ (y :: tokens_more xs) (c :: rest) ltac:(done) Hy) as [w Hw].
  cbn [length] in Hw. rewrite Nat.sub_succ, Nat.sub_0_r in Hw.
  rewrite (bind_Ret _ _ _ _ _ (expectPeek_reads _ _ _ _ _ Hw Hc)). unfold ret.
  rewrite next_advance, advance_add. cbn [length app]. rewrite !length_app. cbn [length]. do 2 f_equal. lia.
Qed.

Scheme tree_mut := Induction for tree Sort Prop
  with more_mut := Induction for more Sort Prop.

Lemma parsed_all x : parsed x.
Proof.
  apply (tree_mut parsed parsed_more); intros;
    auto using parsed_atom, parsed_group, parsed_prefix, parsed_infix, parsed_assign, parsed_member, parsed_prop,
      parsed_index, parsed_call0, parsed_call, parsed_done, parsed_more_cons.
Qed.
End Reads.

(** C2: the expression parser builds the tree of the grammar: when the
    upcoming tokens are those of a concrete syntax tree that fits the
    precedence (binary operators associate to the left and bind by their
    level, prefix operators bind looser than calls, members and indexing,
    assignment associates to the right) and the token behind them does not
    bind tighter, [parseExpression] returns the tree's syntax tree, records
    no error, and stands on the last token; the depth needed is bounded by
    the number of tokens. *)
Theorem parseExpression_grammar n q x rest p :
  fits q x rest = true -> stops q rest = true -> upcoming p (tokens_of x ++ rest) ->
  length (tokens_of x) < n ->
  parseExpression (methods n) q p = Ret (build x) (advance (length (tokens_of x) - 1) p).
Proof. intros Hf Hs Hu Hn. by apply (operand x n q rest p (parsed_all x)). Qed.

Definition sample_expression : string := "total = -a.b + f(x, 2) * xs[0] - 1 |> g".
Definition sample_token (i : nat) : Token := nth i (lex sample_expression) (mkToken TOKEN_EOF "" 0 0).

Definition sample_tree : tree :=
  let t := sample_token in
  Assign (Atom (t 0)) (t 1)
    (Infix
      (Infix
        (Infix (Prefix (t 2) (Member (Atom (t 3)) (t 4) (t 5))) (t 6)
          (Infix (Call (Atom (t 7)) (t 8) (Atom (t 9)) (More (t 10) (Atom (t 11)) Done) (t 12)) (t 13)
            (Index (Atom (t 14)) (t 15) (Atom (t 16)) (t 17))))
        (t 18) (Atom (t 19)))
      (t 20) (Atom (t 21))).

Lemma parseExpression_grammar_witness :
  parseExpression (methods 30) LOWEST (NewParser (NewLexer sample_expression)) =
    Ret (build sample_tree) (advance 21 (NewParser (NewLexer sample_expression))) /\
  expr_String (build sample_tree) = Some "total = g((((-a.b) + (f(x, 2) * (xs[0]))) - 1))".
Proof.
  split; [|vm_compute; reflexivity].
  apply (parseExpression_grammar 30 LOWEST sample_tree [sample_token 22]);
    [vm_compute; reflexivity | vm_compute; reflexivity | vm_compute; repeat split | vm_compute; lia].
Defined.

(** ** Conditions that are calls *)

(** An [if] whose condition is a call with one identifier as argument is
    a syntax error: [(x) {] is taken for a parameter list, so the condition
    ends before the parenthesis and the statement is dropped. *)
Theorem if_call_rejected n p tif f o x c b :
  upcoming p [tif; f; o; x; c; b] ->
  map Type_ [tif; f; o; x; c; b] =
    [TOKEN_IF; TOKEN_IDENT; TOKEN_LPAREN; TOKEN_IDENT; TOKEN_RPAREN; TOKEN_LBRACE] -> 4 <= n ->
  exists p', parseStatement (methods n) p = Ret SNil p' /\ length (errors p') = S (length (errors p)).
Proof.
  intros Hu Ht Hn. injection Ht as Ht1 Ht2 Ht3 Ht4 Ht5 Ht6. destruct n as [|[|n]]; [lia..|].
  change (parseStatement (methods (S (S n))) p)
    with (parseStatement_body (methods (S n)) (S n) p).
  unfold parseStatement_body. rewrite (bind_Ret cur _ p tif p) by (unfold cur; by rewrite (upcoming_cur _ _ _ Hu)).
  rewrite Ht1. cbn [methods parseIfStatement]. unfold parseIfStatement_body.
  rewrite (bind_Ret cur _ p tif p) by (unfold cur; by rewrite (upcoming_cur _ _ _ Hu)).
  rewrite (bind_Ret _ _ _ _ _ (nextToken_next _)). apply upcoming_next in Hu.
  rewrite (bind_Ret _ _ _ (build (Atom f)) (next p)).
  2: { apply (operand (Atom f) n LOWEST [o; x; c; b]); [apply parsed_all| | |done|cbn; lia].
       - cbn. unfold atom, is_type. by rewrite Ht2, Ht3.
       - unfold stops, prec_l, params_l. by rewrite Ht3, Ht4, Ht5, Ht6. }
  destruct (upcoming_peek _ _ _ _ Hu) as [Hp _].
  unfold expectPeek, bind, peek. rewrite Hp, Ht3. cbn. eexists. split; [done|]. cbn. rewrite length_app. cbn. lia.
Qed.

Lemma if_call_rejected_witness :
  exists p', parseStatement (methods 4) (NewParser (NewLexer "if valid(user) { return 1 }")) = Ret SNil p' /\
    length (errors p') = 1.
Proof.
  apply (if_call_rejected 4 (NewParser (NewLexer "if valid(user) { return 1 }")) (mkToken TOKEN_IF "if" 1 1) (mkToken TOKEN_IDENT "valid" 1 4)
    (mkToken TOKEN_LPAREN "(" 1 9) (mkToken TOKEN_IDENT "user" 1 10) (mkToken TOKEN_RPAREN ")" 1 14)
    (mkToken TOKEN_LBRACE "{" 1 16)); [vm_compute; repeat split | reflexivity | lia].
Defined.
