(* ===== verification/Runtime.v ===== *)
(** * Dynamic values and operators of the runtime ([lang/runtime/perf.go])

    The scalar values a generated program holds in an [interface{}], and the
    helpers the code generator calls for operators whose operand types are
    not known at compile time. *)

From S2P Require Import Prelude GoStrings GoFloat.
Local Open Scope string_scope.
Local Open Scope list_scope.

Inductive value :=
  | VNil
  | VInt (z : Z)
  | VInt64 (z : Z)
  | VFloat (x : float64)
  | VString (s : string)
  | VBool (b : bool).

#[global] Instance value_eq_dec : EqDecision value.
Proof. solve_decision. Defined.

(** [fmt.Sprint] of one operand. *)
Definition Sprint (v : value) : string :=
  match v with
  | VNil => "<nil>"
  | VInt z | VInt64 z => FormatInt z
  | VFloat x => fmt_v x
  | VString s => s
  | VBool b => FormatBool b
  end.

Definition isNil (v : value) : bool := if v is VNil then true else false.

Definition Equal (a b : value) : bool :=
  if isNil a && isNil b then true
  else if isNil a || isNil b then false
  else match a, b with
  | VInt x, VInt y | VInt x, VInt64 y => (x =? y)%Z
  | VInt x, VFloat y => feqb (float_of_Z x) y
  | VInt64 x, VInt64 y | VInt64 x, VInt y => (x =? y)%Z
  | VFloat x, VFloat y => feqb x y
  | VFloat x, VInt y => feqb x (float_of_Z y)
  | VString x, VString y => bool_decide (x = y)
  | VBool x, VBool y => Bool.eqb x y
  | _, _ => bool_decide (Sprint a = Sprint b)
  end.

Definition toFloat64Val (v : value) : option float64 :=
  match v with
  | VFloat x => Some x
  | VInt z | VInt64 z => Some (float_of_Z z)
  | _ => None
  end.

Definition compare_floats (a b : float64) (op : string) : bool :=
  if bool_decide (op = "<") then fltb a b
  else if bool_decide (op = ">") then fltb b a
  else if bool_decide (op = "<=") then fleb a b
  else if bool_decide (op = ">=") then fleb b a
  else false.

Definition compare_strings (a b : string) (op : string) : bool :=
  if bool_decide (op = "<") then string_ltb a b
  else if bool_decide (op = ">") then string_ltb b a
  else if bool_decide (op = "<=") then negb (string_ltb b a)
  else if bool_decide (op = ">=") then negb (string_ltb a b)
  else false.

Definition Compare (a b : value) (op : string) : bool :=
  match toFloat64Val a, toFloat64Val b with
  | Some x, Some y => compare_floats x y op
  | _, _ =>
      match a, b with
      | VString x, VString y => compare_strings x y op
      | _, _ => false
      end
  end.

(** [switch op] on two integers of the same width; [None] is falling out of
    the switch. *)
Definition arith_ints (a b : Z) (op : string) : option Z :=
  if bool_decide (op = "+") then Some (wrap64 (a + b))
  else if bool_decide (op = "-") then Some (wrap64 (a - b))
  else if bool_decide (op = "*") then Some (wrap64 (a * b))
  else if bool_decide (op = "/") then
    if (b =? 0)%Z then None else Some (wrap64 (Z.quot a b))
  else if bool_decide (op = "%") then
    if (b =? 0)%Z then None else Some (Z.rem a b)
  else None.

(** [switch op] on two floats; [nonzero] is the divisor test of the source. *)
Definition arith_floats (a b : float64) (nonzero : bool) (op : string) : option float64 :=
  if bool_decide (op = "+") then Some (fadd a b)
  else if bool_decide (op = "-") then Some (fsub a b)
  else if bool_decide (op = "*") then Some (fmul a b)
  else if bool_decide (op = "/") then if nonzero then Some (fdiv a b) else None
  else None.

Definition or_nil {A} (f : A -> value) (o : option A) : value := from_option f VNil o.

Definition Arith (a b : value) (op : string) : value :=
  match a, b with
  | VInt x, VInt y => or_nil VInt (arith_ints x y op)
  | VInt x, VFloat y =>
      or_nil VFloat (arith_floats (float_of_Z x) y (negb (feqb y fzero)) op)
  | VInt64 x, VInt64 y => or_nil VInt64 (arith_ints x y op)
  | VFloat x, VFloat y => or_nil VFloat (arith_floats x y (negb (feqb y fzero)) op)
  | VFloat x, VInt y =>
      or_nil VFloat (arith_floats x (float_of_Z y) (negb (y =? 0)%Z) op)
  | VString x, _ => if bool_decide (op = "+") then VString (x +:+ Sprint b) else VNil
  | _, _ => VNil
  end.

Definition Negate (v : value) : value :=
  match v with
  | VInt z => VInt (wrap64 (- z))
  | VInt64 z => VInt64 (wrap64 (- z))
  | VFloat x => VFloat (fneg x)
  | _ => VInt 0
  end.

Definition isTruthy (v : value) : bool :=
  match v with
  | VNil => false
  | VBool b => b
  | VInt z | VInt64 z => negb (z =? 0)%Z
  | VFloat x => negb (feqb x fzero)
  | VString s => negb (bool_decide (s = ""))
  end.

(** The helper the code generator emits for an operator on operands of
    unknown type; [None] for the bitwise operators, which go to
    [runtime.Bitwise]. *)
Definition dispatch_infix (op : string) (a b : value) : option value :=
  if bool_decide (op ∈ ["&"; "|"; "^"; "<<"; ">>"]) then None
  else Some (
    if bool_decide (op = "==") then VBool (Equal a b)
    else if bool_decide (op = "!=") then VBool (negb (Equal a b))
    else if bool_decide (op = "||") then VBool (isTruthy a || isTruthy b)
    else if bool_decide (op = "&&") then VBool (isTruthy a && isTruthy b)
    else if bool_decide (op ∈ ["<"; ">"; "<="; ">="]) then VBool (Compare a b op)
    else Arith a b op).

Definition dispatch_prefix (op : string) (a : value) : option value :=
  if bool_decide (op = "-") then Some (Negate a)
  else if bool_decide (op = "!") then Some (VBool (negb (isTruthy a)))
  else None.

(** ** Facts *)

(** [==] is symmetric on dynamic values. *)
Lemma feqb_comm x y : feqb x y = feqb y x.
Proof.
  unfold feqb, SpecFloat.SFeqb. destruct x as [[]|[]| |[] m e], y as [[]|[]| |[] m' e']; cbn; try done.
  - rewrite (Z.compare_antisym e' e). destruct (e' ?= e)%Z; cbn; try done.
    change (Pos.compare_cont Eq m m') with (m ?= m')%positive.
    change (Pos.compare_cont Eq m' m) with (m' ?= m)%positive.
    rewrite (Pos.compare_antisym m' m). by destruct (m' ?= m)%positive.
  - rewrite (Z.compare_antisym e' e). destruct (e' ?= e)%Z; cbn; try done.
    change (Pos.compare_cont Eq m m') with (m ?= m')%positive.
    change (Pos.compare_cont Eq m' m) with (m' ?= m)%positive.
    rewrite (Pos.compare_antisym m' m). by destruct (m' ?= m)%positive.
Qed.

Lemma Equal_comm a b : Equal a b = Equal b a.
Proof.
  destruct a, b; cbn [Equal isNil andb orb];
    first [ done | apply Z.eqb_sym | apply feqb_comm
          | apply bool_decide_ext; split; congruence | by destruct b, b0 ].
Qed.
