(* ===== verification/Optimizer.v ===== *)
(** * The AST optimizer ([lang/compiler/optimizer.go])

    Constant folding, dead branch elimination and removal of the statements
    after a [return], [break] or [continue].  The source updates the nodes in
    place; every node has one parent, so the model returns the updated node. *)

From S2P Require Import Prelude GoStrings GoFloat Tokens Ast.
Local Open Scope string_scope.
Local Open Scope list_scope.

(** ** Constant folding *)

Definition with_lit (tok : Token) (ty : TokenType) (lit : string) : Token :=
  mkToken ty lit (Line tok) (Col tok).

Definition bool_lit (tok : Token) (res : bool) : expr :=
  BooleanLiteral (with_lit tok (if res then TOKEN_TRUE else TOKEN_FALSE) (FormatBool res)) res.

Definition int_lit (tok : Token) (v : Z) : expr :=
  IntegerLiteral (with_lit tok TOKEN_INT (FormatInt v)) v.

Definition float_lit (tok : Token) (x : float64) : expr :=
  FloatLiteral (with_lit tok TOKEN_FLOAT (fmt_f x)) x.

Definition foldIntegers (l r : Z) (op : string) (tok : Token) : option expr :=
  if bool_decide (op = "+") then Some (int_lit tok (wrap64 (l + r)))
  else if bool_decide (op = "-") then Some (int_lit tok (wrap64 (l - r)))
  else if bool_decide (op = "*") then Some (int_lit tok (wrap64 (l * r)))
  else if bool_decide (op = "/") then
    if (r =? 0)%Z then None else Some (int_lit tok (wrap64 (Z.quot l r)))
  else if bool_decide (op = "%") then
    if (r =? 0)%Z then None else Some (int_lit tok (Z.rem l r))
  else if bool_decide (op = "==") then Some (bool_lit tok (l =? r)%Z)
  else if bool_decide (op = "!=") then Some (bool_lit tok (negb (l =? r)%Z))
  else if bool_decide (op = "<") then Some (bool_lit tok (l <? r)%Z)
  else if bool_decide (op = ">") then Some (bool_lit tok (r <? l)%Z)
  else if bool_decide (op = "<=") then Some (bool_lit tok (l <=? r)%Z)
  else if bool_decide (op = ">=") then Some (bool_lit tok (r <=? l)%Z)
  else None.

Definition foldFloats (l r : float64) (op : string) (tok : Token) : option expr :=
  if bool_decide (op = "+") then Some (float_lit tok (fadd l r))
  else if bool_decide (op = "-") then Some (float_lit tok (fsub l r))
  else if bool_decide (op = "*") then Some (float_lit tok (fmul l r))
  else if bool_decide (op = "/") then
    if feqb r fzero then None else Some (float_lit tok (fdiv l r))
  else if bool_decide (op = "==") then Some (bool_lit tok (feqb l r))
  else if bool_decide (op = "!=") then Some (bool_lit tok (negb (feqb l r)))
  else if bool_decide (op = "<") then Some (bool_lit tok (fltb l r))
  else if bool_decide (op = ">") then Some (bool_lit tok (fltb r l))
  else if bool_decide (op = "<=") then Some (bool_lit tok (fleb l r))
  else if bool_decide (op = ">=") then Some (bool_lit tok (fleb r l))
  else None.

Definition foldStrings (l r : string) (op : string) (tok : Token) : option expr :=
  if bool_decide (op = "+") then
    Some (StringLiteral (with_lit tok TOKEN_STRING (l +:+ r)) (l +:+ r))
  else if bool_decide (op = "==") then Some (bool_lit tok (bool_decide (l = r)))
  else if bool_decide (op = "!=") then Some (bool_lit tok (negb (bool_decide (l = r))))
  else if bool_decide (op = "<") then Some (bool_lit tok (string_ltb l r))
  else if bool_decide (op = ">") then Some (bool_lit tok (string_ltb r l))
  else if bool_decide (op = "<=") then Some (bool_lit tok (negb (string_ltb r l)))
  else if bool_decide (op = ">=") then Some (bool_lit tok (negb (string_ltb l r)))
  else None.

Definition foldBooleans (l r : bool) (op : string) (tok : Token) : option expr :=
  if bool_decide (op = "&&") then Some (bool_lit tok (l && r))
  else if bool_decide (op = "||") then Some (bool_lit tok (l || r))
  else if bool_decide (op = "==") then Some (bool_lit tok (Bool.eqb l r))
  else if bool_decide (op = "!=") then Some (bool_lit tok (negb (Bool.eqb l r)))
  else None.

(** The folding part of the [*InfixExpr] case. *)
Definition fold_infix (tok : Token) (l : expr) (op : string) (r : expr) : option expr :=
  match l, r with
  | IntegerLiteral _ a, IntegerLiteral _ b => foldIntegers a b op tok
  | IntegerLiteral _ a, FloatLiteral _ b => foldFloats (float_of_Z a) b op tok
  | FloatLiteral _ a, FloatLiteral _ b => foldFloats a b op tok
  | FloatLiteral _ a, IntegerLiteral _ b => foldFloats a (float_of_Z b) op tok
  | StringLiteral _ a, StringLiteral _ b => foldStrings a b op tok
  | BooleanLiteral _ a, BooleanLiteral _ b => foldBooleans a b op tok
  | _, _ => None
  end.

(** The folding part of the [*PrefixExpr] case. *)
Definition fold_prefix (tok : Token) (op : string) (r : expr) : option expr :=
  match r with
  | IntegerLiteral _ a =>
      if bool_decide (op = "-") then Some (int_lit tok (wrap64 (- a))) else None
  | FloatLiteral _ a =>
      if bool_decide (op = "-") then Some (float_lit tok (fneg a)) else None
  | BooleanLiteral _ a =>
      if bool_decide (op = "!") then Some (bool_lit tok (negb a)) else None
  | _ => None
  end.

(** ** Statements *)

Definition isTerminator (s : stmt) : bool :=
  match s with
  | ReturnStmt _ _ | BreakStmt _ | ContinueStmt _ => true
  | _ => false
  end.

Definition is_nil (s : stmt) : bool := match s with SNil => true | _ => false end.

(** The loop of the [*BlockStmt] case: nil results are dropped, and the loop
    stops after a terminator. *)
Section OptimizeStatements.
Context (optimizeStatement : stmt -> stmt).
Fixpoint optimize_statements (ss : list stmt) : list stmt :=
  match ss with
  | [] => []
  | s :: ss =>
      let o := optimizeStatement s in
      if is_nil o then optimize_statements ss
      else o :: (if isTerminator o then [] else optimize_statements ss)
  end.
End OptimizeStatements.

(** The statement a block stands for: [optimizeStatement(s.Body)]. *)
Definition block_stmt (b : block) : stmt :=
  match b with NoBlock => SNil | Block t ss => BlockStmt t ss end.

Fixpoint optimizeExpression (e : expr) : expr :=
  match e with
  | InfixExpr tok l op r =>
      let l := optimizeExpression l in
      let r := optimizeExpression r in
      match fold_infix tok l op r with Some f => f | None => InfixExpr tok l op r end
  | PrefixExpr tok op r =>
      let r := optimizeExpression r in
      match fold_prefix tok op r with Some f => f | None => PrefixExpr tok op r end
  | CallExpr tok f ta args =>
      CallExpr tok (optimizeExpression f) ta (map optimizeExpression args)
  | ArrayLiteral tok els => ArrayLiteral tok (map optimizeExpression els)
  | MapLiteral tok ps ko sp cm =>
      MapLiteral tok (map (fun p => (p.1, optimizeExpression p.2)) ps) ko
        (map (fun p => (p.1, optimizeExpression p.2)) sp) cm
  | StructLiteral tok n ta fs ko =>
      StructLiteral tok n ta (map (fun p => (p.1, optimizeExpression p.2)) fs) ko
  | MemberExpr tok o f => MemberExpr tok (optimizeExpression o) f
  | IndexExpr tok l i => IndexExpr tok (optimizeExpression l) (optimizeExpression i)
  | SliceExpr tok l s t =>
      SliceExpr tok (optimizeExpression l) (optimizeExpression s) (optimizeExpression t)
  | AwaitExpr tok v => AwaitExpr tok (optimizeExpression v)
  | ErrorPropExpr tok v => ErrorPropExpr tok (optimizeExpression v)
  | FnLiteral tok ps pts b arr a =>
      FnLiteral tok ps pts (optimize_block b) arr (optimizeExpression a)
  | AssertExpr tok c => AssertExpr tok (optimizeExpression c)
  | _ => e
  end
with optimizeStatement (s : stmt) : stmt :=
  match s with
  | BlockStmt tok ss => BlockStmt tok (optimize_statements optimizeStatement ss)
  | LetStmt tok n ns ty v => LetStmt tok n ns ty (optimizeExpression v)
  | ExprStmt tok v => ExprStmt tok (optimizeExpression v)
  | ReturnStmt tok v => ReturnStmt tok (optimizeExpression v)
  | IfStmt tok c b eb =>
      let c := optimizeExpression c in
      match c with
      | BooleanLiteral _ true => block_stmt (optimize_block b)
      | BooleanLiteral _ false => block_stmt (optimize_block eb)
      | _ => IfStmt tok c (optimize_block b) (optimize_block eb)
      end
  | ForStmt tok v k it rg b =>
      ForStmt tok v k (optimizeExpression it) rg (optimize_block b)
  | FnDecl tok h b => FnDecl tok h (optimize_block b)
  | RouteStmt tok h b => RouteStmt tok h (optimize_block b)
  | ToolStmt tok n d p b => ToolStmt tok n d p (optimize_block b)
  | MigrationStmt tok n b ts => MigrationStmt tok n (optimize_block b) ts
  | EveryStmt tok i b => EveryStmt tok (optimizeExpression i) (optimize_block b)
  | CronStmt tok c b => CronStmt tok (optimizeExpression c) (optimize_block b)
  | SubscribeStmt tok t p b => SubscribeStmt tok (optimizeExpression t) p (optimize_block b)
  | PublishStmt tok t v => PublishStmt tok (optimizeExpression t) (optimizeExpression v)
  | SpawnStmt tok c l => SpawnStmt tok (optimizeExpression c) (optimizeExpression l)
  | MockStmt tok t b => MockStmt tok (optimizeExpression t) (optimize_block b)
  | TestStmt tok n t b => TestStmt tok n t (optimize_block b)
  | TryCatchStmt tok t p c => TryCatchStmt tok (optimize_block t) p (optimize_block c)
  | _ => s
  end
(** The [*BlockStmt] case through a block pointer. *)
with optimize_block (b : block) : block :=
  match b with
  | NoBlock => NoBlock
  | Block tok ss => Block tok (optimize_statements optimizeStatement ss)
  end.

(** [Optimize]: the top level drops nil statements and keeps the rest. *)
Definition Optimize (program : Program) : Program :=
  mkProgram (List.filter (fun s => negb (is_nil s)) (map optimizeStatement (Statements program))).
