(* ===== verification/OptimizerProps.v ===== *)
(** * Correctness of the optimizer

    The optimizer's output is a normal form (no foldable operation, no
    branch on a literal, nothing after a terminator, no nil statement, in
    every position the optimizer visits), a normal form is left unchanged,
    and evaluating an expression gives the same value before and after. *)

From S2P Require Import Prelude GoStrings GoFloat Tokens Ast Runtime Optimizer.
Local Open Scope string_scope.
Local Open Scope list_scope.

(** ** Normal forms *)

Definition is_none {A} (o : option A) : bool := match o with None => true | _ => false end.

Definition is_bool_lit (e : expr) : bool :=
  match e with BooleanLiteral _ _ => true | _ => false end.

(** No nil statement, and a terminator only at the end. *)
Fixpoint live (ss : list stmt) : bool :=
  match ss with
  | [] => true
  | s :: ss =>
      negb (is_nil s) &&
      (if isTerminator s then match ss with [] => true | _ => false end else live ss)
  end.

Fixpoint normal_expr (e : expr) : bool :=
  match e with
  | InfixExpr tok l op r => normal_expr l && normal_expr r && is_none (fold_infix tok l op r)
  | PrefixExpr tok op r => normal_expr r && is_none (fold_prefix tok op r)
  | CallExpr _ f _ args => normal_expr f && forallb normal_expr args
  | ArrayLiteral _ els => forallb normal_expr els
  | MapLiteral _ ps _ sp _ =>
      forallb (fun p => normal_expr p.2) ps && forallb (fun p => normal_expr p.2) sp
  | StructLiteral _ _ _ fs _ => forallb (fun p => normal_expr p.2) fs
  | MemberExpr _ a _ | AwaitExpr _ a | ErrorPropExpr _ a | AssertExpr _ a => normal_expr a
  | IndexExpr _ a b => normal_expr a && normal_expr b
  | SliceExpr _ a b c => normal_expr a && normal_expr b && normal_expr c
  | FnLiteral _ _ _ b _ a => normal_block b && normal_expr a
  | _ => true
  end
with normal_stmt (s : stmt) : bool :=
  match s with
  | BlockStmt _ ss => forallb normal_stmt ss && live ss
  | LetStmt _ _ _ _ v | ExprStmt _ v | ReturnStmt _ v => normal_expr v
  | IfStmt _ c b eb =>
      normal_expr c && negb (is_bool_lit c) && normal_block b && normal_block eb
  | ForStmt _ _ _ a _ b | EveryStmt _ a b | CronStmt _ a b | SubscribeStmt _ a _ b
  | MockStmt _ a b => normal_expr a && normal_block b
  | FnDecl _ _ b | RouteStmt _ _ b | ToolStmt _ _ _ _ b | MigrationStmt _ _ b _
  | TestStmt _ _ _ b => normal_block b
  | PublishStmt _ a b | SpawnStmt _ a b => normal_expr a && normal_expr b
  | TryCatchStmt _ b _ c => normal_block b && normal_block c
  | _ => true
  end
with normal_block (b : block) : bool :=
  match b with
  | NoBlock => true
  | Block _ ss => forallb normal_stmt ss && live ss
  end.

Definition normal_program (p : Program) : bool :=
  forallb (fun s => negb (is_nil s) && normal_stmt s) (Statements p).

(** ** Induction on the size of trees *)

Lemma tree_ind (P : expr -> Prop) (Q : stmt -> Prop) (R : block -> Prop) :
  (forall n, (forall e, expr_size e < n -> P e) -> (forall s, stmt_size s < n -> Q s) ->
             (forall b, block_size b < n -> R b) ->
             (forall e, expr_size e <= n -> P e) /\ (forall s, stmt_size s <= n -> Q s) /\
             (forall b, block_size b <= n -> R b)) ->
  (forall e, P e) /\ (forall s, Q s) /\ (forall b, R b).
Proof.
  intros H.
  assert (G : forall n, (forall e, expr_size e < n -> P e) /\ (forall s, stmt_size s < n -> Q s) /\
                   (forall b, block_size b < n -> R b)).
  { induction n as [|n (HP & HQ & HR)]; [splits; intros; lia|].
    destruct (H n HP HQ HR) as (HP' & HQ' & HR').
    splits; intros x Hx; [apply HP' | apply HQ' | apply HR']; lia. }
  splits; intros x.
  - apply (proj1 (G (S (expr_size x)))). lia.
  - apply (proj1 (proj2 (G (S (stmt_size x))))). lia.
  - apply (proj2 (proj2 (G (S (block_size x))))). lia.
Qed.

(** Members of a list of subtrees are smaller than the whole. *)
Lemma forallb_map_size {A B} (size : A -> nat) (f : A -> B) (p : B -> bool) n (l : list A) :
  sum_of size l < n -> (forall x, size x < n -> p (f x) = true) -> forallb p (map f l) = true.
Proof.
  intros Hn H. induction l as [|x l IH]; [done|]. cbn in *.
  rewrite H by lia. apply IH. lia.
Qed.

Lemma map_fix_size {A} (size : A -> nat) (f : A -> A) (p : A -> bool) n (l : list A) :
  sum_of size l < n -> (forall x, size x < n -> p x = true -> f x = x) ->
  forallb p l = true -> map f l = l.
Proof.
  intros Hn H. induction l as [|x l IH]; [done|]. cbn in *.
  intros [Hx Hl]%andb_prop. rewrite H, IH by (done || lia). done.
Qed.

(** ** The loop over the statements of a block *)

Lemma optimize_statements_live f ss : live (optimize_statements f ss) = true.
Proof.
  induction ss as [|s ss IH]; [done|]. cbn.
  destruct (is_nil (f s)) eqn:N; [done|]. cbn. rewrite N. by destruct (isTerminator (f s)).
Qed.

Lemma optimize_statements_forall f p ss n :
  sum_of stmt_size ss < n -> (forall s, stmt_size s < n -> p (f s) = true) ->
  forallb p (optimize_statements f ss) = true.
Proof.
  intros Hn H. induction ss as [|s ss IH]; [done|]. cbn in *.
  destruct (is_nil (f s)); [apply IH; lia|]. cbn. rewrite H by lia.
  destruct (isTerminator (f s)); [done|]. apply IH. lia.
Qed.

Lemma optimize_statements_fix f p ss n :
  sum_of stmt_size ss < n -> (forall s, stmt_size s < n -> p s = true -> f s = s) ->
  forallb p ss = true -> live ss = true -> optimize_statements f ss = ss.
Proof.
  intros Hn H. induction ss as [|s ss IH]; [done|]. cbn in *.
  intros [Hp Hps]%andb_prop [Hnil Hlive]%andb_prop. rewrite H by (done || lia).
  apply negb_true_iff in Hnil. rewrite Hnil. f_equal.
  destruct (isTerminator s); [by destruct ss|]. apply IH; (done || lia).
Qed.

(** ** Folding produces literals *)

Lemma fold_infix_literal tok l op r e :
  fold_infix tok l op r = Some e -> normal_expr e = true.
Proof.
  unfold fold_infix, foldIntegers, foldFloats, foldStrings, foldBooleans. intros H.
  split_matches_in H; simplify_eq; done.
Qed.

Lemma fold_prefix_literal tok op r e : fold_prefix tok op r = Some e -> normal_expr e = true.
Proof. unfold fold_prefix. intros H. split_matches_in H; simplify_eq; done. Qed.

(** ** The output is a normal form *)

(** Discharge the parts of a node by the induction hypotheses on its
    subtrees. *)
Ltac by_subtrees :=
  repeat match goal with
  | H : forall e, expr_size e < _ -> normal_expr _ = true |- context [normal_expr (optimizeExpression ?e)] =>
      rewrite (H e) by lia
  | H : forall b, block_size b < _ -> normal_block _ = true |- context [normal_block (optimize_block ?b)] =>
      rewrite (H b) by lia
  end; cbn [andb negb]; try done.

Lemma optimize_normal :
  (forall e, normal_expr (optimizeExpression e) = true) /\
  (forall s, normal_stmt (optimizeStatement s) = true) /\
  (forall b, normal_block (optimize_block b) = true).
Proof.
  apply tree_ind. intros n HE HS HB.
  assert (HL : forall ss, sum_of stmt_size ss < n ->
     forallb normal_stmt (optimize_statements optimizeStatement ss) &&
     live (optimize_statements optimizeStatement ss) = true).
  { intros ss Hss. rewrite optimize_statements_live.
    by rewrite (optimize_statements_forall _ _ _ n). }
  splits.
  - intros e. destruct e; cbn [expr_size optimizeExpression normal_expr]; intros Hn; try done; by_subtrees.
    + by apply (forallb_map_size expr_size _ _ n); [lia|].
    + by apply (forallb_map_size expr_size _ _ n); [lia|].
    + rewrite !(forallb_map_size (fun p => expr_size p.2) _ _ n) by (lia || (intros; apply HE; done)). done.
    + destruct (fold_infix _ _ _ _) eqn:F; [by eapply fold_infix_literal|].
      cbn [normal_expr]. by_subtrees. by rewrite F.
    + destruct (fold_prefix _ _ _) eqn:F; [by eapply fold_prefix_literal|].
      cbn [normal_expr]. by_subtrees. by rewrite F.
    + rewrite (forallb_map_size (fun p => expr_size p.2) _ _ n) by (lia || (intros; apply HE; done)). done.
  - intros s. destruct s; cbn [stmt_size optimizeStatement normal_stmt]; intros Hn; try done; by_subtrees.
    + apply HL. lia.
    + assert (HBS : forall b, block_size b < n -> normal_stmt (block_stmt (optimize_block b)) = true).
      { intros b Hb. specialize (HB b Hb). by destruct (optimize_block b). }
      destruct (optimizeExpression condition) as [] eqn:C; try destruct value;
        try (apply HBS; lia); rewrite <- C; cbn [normal_stmt]; by_subtrees; by rewrite C.
  - intros [|tok ss]; cbn; intros Hn; [done|]. apply HL. lia.
Qed.

(** ** Normal forms are left unchanged *)

Lemma normal_fixed :
  (forall e, normal_expr e = true -> optimizeExpression e = e) /\
  (forall s, normal_stmt s = true -> optimizeStatement s = s) /\
  (forall b, normal_block b = true -> optimize_block b = b).
Proof.
  apply tree_ind. intros n HE HS HB.
  assert (HM : forall {A} (l : list (A * expr)), sum_of (fun p => expr_size p.2) l < n ->
    forallb (fun p => normal_expr p.2) l = true ->
    map (fun p => (p.1, optimizeExpression p.2)) l = l).
  { intros A l Hl Hp. apply (map_fix_size (fun p => expr_size p.2) _ (fun p => normal_expr p.2) n); auto.
    intros [a e] ? ?. cbn. f_equal. auto. }
  assert (HX : forall l, sum_of expr_size l < n -> forallb normal_expr l = true ->
    map optimizeExpression l = l).
  { intros l Hl Hp. by apply (map_fix_size expr_size _ normal_expr n). }
  splits.
  - intros e. destruct e; cbn [expr_size optimizeExpression normal_expr]; intros Hn Hp; try done;
      boolify; try (f_equal; first [apply HE | apply HB | apply HX | apply HM]; done || lia).
    + rewrite !HE by (done || lia). by destruct (fold_infix _ _ _ _).
    + rewrite !HE by (done || lia). by destruct (fold_prefix _ _ _).
  - intros s. destruct s; cbn [stmt_size optimizeStatement normal_stmt]; intros Hn Hp; try done;
      boolify; try (f_equal; first [apply HE | apply HB]; done || lia).
    + f_equal. apply (optimize_statements_fix _ normal_stmt _ n); auto; lia.
    + rewrite !HE, !HB by (done || lia). by destruct condition.
  - intros [|tok ss]; cbn; intros Hn Hp; [done|]. boolify. f_equal.
    apply (optimize_statements_fix _ normal_stmt _ n); auto; lia.
Qed.

(** ** Evaluation

    The value of an expression over variables, literals and operators in the
    dynamic semantics of the language: every operator is the runtime helper
    that is emitted for operands of unknown type.  (For operands of known type
    the code generator emits Go's own operators, which are not part of this
    semantics.)  A variable without a value has none here. *)

Section Eval.
Context (env : string -> option value).

Fixpoint eval (e : expr) : option value :=
  match e with
  | IntegerLiteral _ z => Some (VInt z)
  | FloatLiteral _ x => Some (VFloat x)
  | StringLiteral _ s => Some (VString s)
  | BooleanLiteral _ b => Some (VBool b)
  | NilLiteral _ => Some VNil
  | Identifier _ x => env x
  | InfixExpr _ l op r =>
      a ← eval l; b ← eval r; dispatch_infix op a b
  | PrefixExpr _ op r => a ← eval r; dispatch_prefix op a
  | _ => None
  end.
End Eval.

(** The value of an expression without variables. *)
Definition constant (e : expr) : option value := eval (fun _ => None) e.

(** A 64-bit integer that [float64] represents exactly. *)
Definition exact (v : value) : bool :=
  match v with VInt z => (Z.abs z <? 2 ^ 53)%Z | _ => true end.

(** Integer operands of comparisons, and of operators on an integer and a
    float, are below [2^53] in absolute value. *)
Definition exact_operands (op : string) (a b : value) : bool :=
  match a, b with
  | VInt _, VInt _ =>
      if bool_decide (op ∈ ["<"; ">"; "<="; ">="]) then exact a && exact b else true
  | _, _ => exact a && exact b
  end.

(** Every operation on two constants in an expression or a statement is exact
    in this sense.  This is about the text alone: operations on the values of
    variables are not restricted. *)
Fixpoint exact_expr (e : expr) : bool :=
  match e with
  | InfixExpr _ l op r =>
      exact_expr l && exact_expr r &&
      match constant l, constant r with
      | Some a, Some b => exact_operands op a b
      | _, _ => true
      end
  | PrefixExpr _ _ r => exact_expr r
  | _ => true
  end.

Fixpoint exact_stmt (s : stmt) : bool :=
  match s with
  | BlockStmt _ ss => forallb exact_stmt ss
  | LetStmt _ _ _ _ e | ExprStmt _ e | ReturnStmt _ e => exact_expr e
  | IfStmt _ c b eb => exact_expr c && exact_block b && exact_block eb
  | _ => true
  end
with exact_block (b : block) : bool :=
  match b with NoBlock => true | Block _ ss => forallb exact_stmt ss end.

Lemma feqb_small z : (Z.abs z < 2 ^ 53)%Z -> feqb (float_of_Z z) fzero = (z =? 0)%Z.
Proof.
  intros Hz. unfold feqb, SpecFloat.SFeqb. change fzero with (float_of_Z 0).
  rewrite float_compare_small by lia. unfold Z.eqb. by destruct z.
Qed.

(** The literals and their values. *)
Definition lit_value (e : expr) : option value :=
  match e with
  | IntegerLiteral _ z => Some (VInt z)
  | FloatLiteral _ x => Some (VFloat x)
  | StringLiteral _ s => Some (VString s)
  | BooleanLiteral _ b => Some (VBool b)
  | _ => None
  end.

Lemma lit_value_eval env e v : lit_value e = Some v -> eval env e = Some v.
Proof. by destruct e. Qed.

(** Case analysis on the operator tests of a folding function. *)
Ltac on_operator H :=
  repeat match type of H with
  | context [bool_decide (?op = String ?c ?s)] =>
      is_var op;
      let E := fresh in destruct (bool_decide_reflect (op = String c s)) as [E|E]; [subst op|]
  end.

(** Evaluate the tests on operators that are known. *)
Ltac eval_ops :=
  repeat match goal with
  | |- context [bool_decide ?P] =>
      first [change (bool_decide P) with true | change (bool_decide P) with false]
  end; cbn [or_nil from_option].

Definition agree (op : string) (a b : value) (e : expr) : Prop :=
  exists v, lit_value e = Some v /\ dispatch_infix op a b = Some v.

(** Reduce agreement to the runtime helper of the operator. *)
Ltac by_helper := eexists; split; [reflexivity|]; unfold dispatch_infix; eval_ops.

Lemma foldIntegers_agree x y op tok e :
  foldIntegers x y op tok = Some e -> exact_operands op (VInt x) (VInt y) = true ->
  agree op (VInt x) (VInt y) e.
Proof.
  unfold foldIntegers. intros H Hx. on_operator H; simplify_eq; try (by eexists).
  1,2: destruct (y =? 0)%Z eqn:Hy; [done|]; simplify_eq; by_helper;
    unfold Arith, arith_ints; eval_ops; by rewrite Hy.
  all: assert (Hx' : exact (VInt x) && exact (VInt y) = true) by exact Hx;
    cbn in Hx'; boolify; by_helper; unfold Compare, compare_floats; cbn [toFloat64Val]; eval_ops;
    by rewrite ?fltb_small, ?fleb_small.
Qed.

Lemma foldFloats_agree a b x y nz op tok e :
  foldFloats x y op tok = Some e ->
  (forall o, Arith a b o = or_nil VFloat (arith_floats x y nz o)) ->
  (feqb y fzero = false -> nz = true) ->
  Equal a b = feqb x y -> (forall o, Compare a b o = compare_floats x y o) ->
  agree op a b e.
Proof.
  unfold foldFloats. intros H HA Hnz HE HC. on_operator H; simplify_eq;
    try (by_helper; rewrite ?HA, ?HC, ?HE; unfold arith_floats, compare_floats; by eval_ops).
  destruct (feqb y fzero) eqn:Hy; [done|]. simplify_eq.
  by_helper. rewrite HA, Hnz by done. unfold arith_floats. by eval_ops.
Qed.

Lemma foldStrings_agree x y op tok e :
  foldStrings x y op tok = Some e -> agree op (VString x) (VString y) e.
Proof. unfold foldStrings. intros H. on_operator H; simplify_eq; by eexists. Qed.

Lemma foldBooleans_agree x y op tok e :
  foldBooleans x y op tok = Some e -> agree op (VBool x) (VBool y) e.
Proof. unfold foldBooleans. intros H. on_operator H; simplify_eq; by eexists. Qed.

Lemma fold_infix_agree tok l op r e :
  fold_infix tok l op r = Some e ->
  exists a b, lit_value l = Some a /\ lit_value r = Some b /\
    (exact_operands op a b = true -> agree op a b e).
Proof.
  intros H. destruct l; try done; destruct r; try done; cbn in H |- *;
    do 2 eexists; (split; [reflexivity|]); (split; [reflexivity|]); intros Hx.
  - by eapply foldStrings_agree.
  - by eapply foldIntegers_agree.
  - by eapply (foldFloats_agree _ _ _ _ (negb (feqb value0 fzero))); try done; intros ->.
  - cbn in Hx. boolify.
    eapply (foldFloats_agree _ _ _ _ (negb (value0 =? 0)%Z)); try done. by rewrite feqb_small by done; intros ->.
  - by eapply (foldFloats_agree _ _ _ _ (negb (feqb value0 fzero))); try done; intros ->.
  - by eapply foldBooleans_agree.
Qed.

Lemma fold_prefix_agree tok op r e :
  fold_prefix tok op r = Some e ->
  exists a v, lit_value r = Some a /\ lit_value e = Some v /\ dispatch_prefix op a = Some v.
Proof.
  unfold fold_prefix. intros H. destruct r; try done; on_operator H; simplify_eq; by do 2 eexists.
Qed.

(** Evaluating the optimized expression gives the value of the original. *)
Lemma optimize_eval e : exact_expr e = true -> forall env, eval env (optimizeExpression e) = eval env e.
Proof.
  induction e; cbn [optimizeExpression exact_expr eval]; intros Hx env; try done; boolify.
  - assert (E1 := IHe1 ltac:(done)). assert (E2 := IHe2 ltac:(done)).
    destruct (fold_infix _ _ _ _) as [f|] eqn:F; cbn [eval]; [|by rewrite E1, E2].
    apply fold_infix_agree in F as (a & b & Ha & Hb & Hag).
    pose proof (lit_value_eval (fun _ => None) _ _ Ha) as Ca. pose proof (lit_value_eval (fun _ => None) _ _ Hb) as Cb.
    rewrite E1 in Ca. rewrite E2 in Cb. unfold constant in *. rewrite Ca, Cb in *.
    apply (lit_value_eval env) in Ha, Hb. rewrite E1 in Ha. rewrite E2 in Hb. rewrite Ha, Hb.
    destruct (Hag ltac:(done)) as (v & Hv & Hd). apply (lit_value_eval env) in Hv.
    by rewrite Hv.
  - assert (E1 := IHe ltac:(done)).
    destruct (fold_prefix _ _ _) as [f|] eqn:F; cbn [eval]; [|by rewrite E1].
    apply fold_prefix_agree in F as (a & v & Ha & Hv & Hd).
    apply (lit_value_eval env) in Ha, Hv. rewrite E1 in Ha. by rewrite Ha, Hv.
Qed.

(** ** Execution of statements

    The imperative core: declarations, assignments, blocks with their own
    scope, conditionals and jumps.  [None] is a statement outside this core,
    such as a call or a loop. *)

Definition scopes : Type := list (gmap string value).

Fixpoint lookup_var (st : scopes) (x : string) : value :=
  match st with
  | [] => VNil
  | sc :: st => match sc !! x with Some v => v | None => lookup_var st x end
  end.

Fixpoint assign_var (st : scopes) (x : string) (v : value) : scopes :=
  match st with
  | [] => []
  | sc :: st => if sc !! x is Some _ then <[x := v]> sc :: st else sc :: assign_var st x v
  end.

Definition declare_var (st : scopes) (x : string) (v : value) : scopes :=
  match st with [] => [{[x := v]}] | sc :: st => <[x := v]> sc :: st end.

Inductive outcome := Next | Returned (v : value) | Broke | Continued.

Definition eval_in (st : scopes) (e : expr) : option value := eval (fun x => Some (lookup_var st x)) e.

Section ExecList.
Context (exec : stmt -> scopes -> option (scopes * outcome)).
Fixpoint exec_list (ss : list stmt) (st : scopes) : option (scopes * outcome) :=
  match ss with
  | [] => Some (st, Next)
  | s :: ss =>
      '(st', o) ← exec s st;
      match o with Next => exec_list ss st' | _ => Some (st', o) end
  end.
Definition exec_scope (ss : list stmt) (st : scopes) : option (scopes * outcome) :=
  '(st', o) ← exec_list ss (∅ :: st); Some (tail st', o).
End ExecList.

Definition is_enil (e : expr) : bool := match e with ENil => true | _ => false end.

Definition as_assign (e : expr) : option (string * expr) :=
  match e with AssignExpr _ x e => Some (x, e) | _ => None end.

Definition exec_expr (st : scopes) (e : expr) : option (scopes * outcome) :=
  match as_assign e with
  | Some (x, e) => v ← eval_in st e; Some (assign_var st x v, Next)
  | None => _ ← eval_in st e; Some (st, Next)
  end.

Definition exec_return (st : scopes) (e : expr) : option (scopes * outcome) :=
  if is_enil e then Some (st, Returned VNil)
  else v ← eval_in st e; Some (st, Returned v).

Fixpoint exec (s : stmt) (st : scopes) : option (scopes * outcome) :=
  match s with
  | SNil => Some (st, Next)
  | BlockStmt _ ss => exec_scope exec ss st
  | LetStmt _ x [] _ e => v ← eval_in st e; Some (declare_var st x v, Next)
  | ExprStmt _ e => exec_expr st e
  | ReturnStmt _ e => exec_return st e
  | BreakStmt _ => Some (st, Broke)
  | ContinueStmt _ => Some (st, Continued)
  | IfStmt _ c b eb =>
      v ← eval_in st c;
      if isTruthy v then exec_block b st else exec_block eb st
  | _ => None
  end
with exec_block (b : block) (st : scopes) : option (scopes * outcome) :=
  match b with
  | NoBlock => Some (st, Next)
  | Block _ ss => exec_scope exec ss st
  end.

Lemma eval_in_optimize st e v : exact_expr e = true -> eval_in st e = Some v -> eval_in st (optimizeExpression e) = Some v.
Proof. intros Hx. unfold eval_in. by rewrite optimize_eval. Qed.

Lemma eval_in_value st e v : eval_in st e = Some v -> is_enil e = false /\ as_assign e = None.
Proof. unfold eval_in. by destruct e. Qed.

Lemma exec_expr_optimize st e r :
  exact_expr e = true -> exec_expr st e = Some r -> exec_expr st (optimizeExpression e) = Some r.
Proof.
  intros Hx. unfold exec_expr. destruct (as_assign e) as [[x e']|] eqn:A; [by destruct e; simplify_eq/=|].
  destruct (eval_in st e) as [v|] eqn:E; [|done]. apply eval_in_optimize in E; [|done].
  destruct (eval_in_value _ _ _ E) as [_ ->]. by rewrite E.
Qed.

Lemma exec_return_optimize st e r :
  exact_expr e = true -> exec_return st e = Some r -> exec_return st (optimizeExpression e) = Some r.
Proof.
  intros Hx. unfold exec_return. destruct (is_enil e) eqn:A; [by destruct e|].
  destruct (eval_in st e) as [v|] eqn:E; [|done]. apply eval_in_optimize in E; [|done].
  destruct (eval_in_value _ _ _ E) as [-> _]. by rewrite E.
Qed.

Lemma exec_list_optimize ss n :
  sum_of stmt_size ss < n ->
  (forall s, stmt_size s < n -> exact_stmt s = true -> forall st r, exec s st = Some r -> exec (optimizeStatement s) st = Some r) ->
  forallb exact_stmt ss = true -> forall st r, exec_list exec ss st = Some r ->
  exec_list exec (optimize_statements optimizeStatement ss) st = Some r.
Proof.
  intros Hn H. induction ss as [|s ss IH]; [done|]. cbn in Hn |- *. intros [Hx Hxs]%andb_prop st r.
  destruct (exec s st) as [[st' o]|] eqn:E; [cbn|done].
  apply H in E; [|lia|done].
  destruct (is_nil (optimizeStatement s)) eqn:N.
  - destruct (optimizeStatement s); try done. injection E as <- <-. apply IH; [lia|done].
  - cbn. rewrite E. cbn. destruct o; try done. intros Hr.
    destruct (isTerminator (optimizeStatement s)) eqn:T; [|by apply IH; [lia|..]].
    destruct (optimizeStatement s); try done; cbn in E.
    unfold exec_return in E. destruct (is_enil value); [done|]. by destruct (eval_in st _).
Qed.

Lemma optimize_exec_all :
  (forall _ : expr, True) /\
  (forall s, exact_stmt s = true -> forall st r, exec s st = Some r -> exec (optimizeStatement s) st = Some r) /\
  (forall b, exact_block b = true -> forall st r, exec_block b st = Some r -> exec_block (optimize_block b) st = Some r).
Proof.
  apply tree_ind. intros n _ HS HB.
  assert (HL : forall ss st r, sum_of stmt_size ss < n -> forallb exact_stmt ss = true ->
    exec_scope exec ss st = Some r ->
    exec_scope exec (optimize_statements optimizeStatement ss) st = Some r).
  { unfold exec_scope. intros ss st r Hn Hx.
    destruct (exec_list exec ss (∅ :: st)) as [[st' o]|] eqn:E; [|done].
    by rewrite (exec_list_optimize _ n Hn HS Hx _ _ E). }
  splits; [done| |].
  - intros s. destruct s; cbn [stmt_size optimizeStatement exact_stmt]; intros Hn Hx st r; try done.
    all: cbn [exec].
    + destruct names; [|done]. destruct (eval_in st value) as [v|] eqn:E; [|done].
      by rewrite (eval_in_optimize _ _ _ Hx E).
    + by apply exec_return_optimize.
    + apply HL; [lia|done].
    + by apply exec_expr_optimize.
    + boolify. destruct (eval_in st condition) as [v|] eqn:E; [|done]. apply eval_in_optimize in E; [|done]. cbn.
      destruct (optimizeExpression condition); cbn [exec];
        try (rewrite E; cbn; destruct (isTruthy v); apply HB; (done || lia)).
      injection E as <-.
      destruct value; intros Hr; (apply HB in Hr; [|lia|done]);
        [destruct (optimize_block body) | destruct (optimize_block elseBody)]; exact Hr.
  - intros [|tok ss]; cbn; intros Hn Hx st r; [done|]. apply HL; [lia|done].
Qed.

(** ** Properties *)

Lemma forallb_filter_normal (f : stmt -> stmt) ss :
  (forall s, normal_stmt (f s) = true) ->
  forallb (fun s => negb (is_nil s) && normal_stmt s)
    (List.filter (fun s => negb (is_nil s)) (map f ss)) = true.
Proof.
  intros H. induction ss as [|s ss IH]; [done|]. cbn.
  destruct (is_nil (f s)) eqn:N; cbn; [done|]. by rewrite N, H.
Qed.

Lemma normal_program_fixed p : normal_program p = true -> Optimize p = p.
Proof.
  destruct p as [ss]. unfold normal_program, Optimize. cbn. intros H. f_equal.
  induction ss as [|s ss IH]; [done|]. cbn in *. boolify.
  rewrite (proj1 (proj2 normal_fixed) s) by done.
  destruct (is_nil s); [done|]. cbn. f_equal. auto.
Qed.

(** Whatever the program, the optimizer leaves no operation on literals
    that it could fold, no [if] on a boolean literal, no statement after a
    [return], [break] or [continue] in a block, and no nil statement, in all
    the positions it visits. *)
Theorem optimize_output_normal p : normal_program (Optimize p) = true.
Proof. apply forallb_filter_normal. apply optimize_normal. Qed.

(** Optimizing is idempotent: a second pass over an optimized program
    changes nothing. *)
Theorem optimize_idempotent p : Optimize (Optimize p) = Optimize p.
Proof.
  apply normal_program_fixed. apply forallb_filter_normal. apply optimize_normal.
Qed.

(** C1: optimizing preserves the meaning of statements in the dynamic
    semantics: if executing a statement (declarations, assignments, scoped
    blocks, conditionals, jumps and expressions, every operator being the
    runtime helper for operands of unknown type) from some variable scopes ends
    in given scopes with a given outcome, so does executing the optimized
    statement.  Integer constants that the text compares, or combines with a
    float, are to be below 2^53 in absolute value; without that folding and
    runtime differ ([fold_and_runtime_disagree]).  Go's own operators, which
    are emitted for operands of known type, and the printing of literals are
    not part of the semantics. *)
Theorem optimize_preserves_execution s st r :
  exact_stmt s = true -> exec s st = Some r -> exec (optimizeStatement s) st = Some r.
Proof. intros Hx. by apply optimize_exec_all. Qed.

(** A program text with a dead branch, a foldable condition and an
    unreachable statement. *)
Definition tok0 : Token := mkToken TOKEN_IDENT "" 1 1.

Definition sample_stmt : stmt :=
  BlockStmt tok0
    [ LetStmt tok0 "x" [] ""
        (InfixExpr tok0 (IntegerLiteral tok0 20) "+" (IntegerLiteral tok0 1));
      IfStmt tok0 (InfixExpr tok0 (IntegerLiteral tok0 1) "<" (IntegerLiteral tok0 2))
        (Block tok0 [ ExprStmt tok0 (AssignExpr tok0 "x"
            (InfixExpr tok0 (Identifier tok0 "x") "*" (IntegerLiteral tok0 2))) ])
        (Block tok0 [ ReturnStmt tok0 ENil ]);
      ReturnStmt tok0 (Identifier tok0 "x");
      LetStmt tok0 "y" [] "" (IntegerLiteral tok0 0) ].

Lemma optimize_preserves_execution_witness :
  exec sample_stmt [] = Some ([], Returned (VInt 42)) /\
  exec (optimizeStatement sample_stmt) [] = Some ([], Returned (VInt 42)).
Proof.
  assert (H : exec sample_stmt [] = Some ([], Returned (VInt 42))) by (vm_compute; reflexivity).
  split; [exact H|]. exact (optimize_preserves_execution sample_stmt [] _ eq_refl H).
Defined.

(** Integers from [2^53] on are ordered by the runtime through [float64],
    so a comparison that is folded and the same comparison at run time can
    differ: [exact_stmt] is needed. *)
Theorem fold_and_runtime_disagree :
  fold_infix tok0 (IntegerLiteral tok0 (2 ^ 53)) "<" (IntegerLiteral tok0 (2 ^ 53 + 1)) =
    Some (bool_lit tok0 true) /\
  dispatch_infix "<" (VInt (2 ^ 53)) (VInt (2 ^ 53 + 1)) = Some (VBool false).
Proof. split; vm_compute; reflexivity. Qed.

(** A float literal is printed with six digits after the point, both in the
    token of a folded literal and in the generated Go text: the quotient
    [1.0 / 10000000.0], which is not zero, is printed as zero. *)
Theorem folded_float_prints_as_zero :
  fold_infix tok0 (FloatLiteral tok0 (float_of_Z 1)) "/" (FloatLiteral tok0 (float_of_Z 10000000)) =
    Some (FloatLiteral (mkToken TOKEN_FLOAT "0.000000" 1 1)
            (fdiv (float_of_Z 1) (float_of_Z 10000000))) /\
  feqb (fdiv (float_of_Z 1) (float_of_Z 10000000)) fzero = false.
Proof. split; vm_compute; reflexivity. Qed.
