(* ===== verification/LockStore.v ===== *)
(** * The in-memory lock store ([lock/pkg/storage/store.go])

    Lock objects live in a heap and are referred to by address, because the
    store, the callers and the [SharedOwners] maps share them: a shared lock
    is an entry of its own [SharedOwners].  Every operation is one critical
    section of [s.mu]; a blocking acquire is the section that enqueues the
    waiter and the later section that [select] runs when the grant arrives
    or the timeout fires.  Instants are nanoseconds since the zero time; an operation that reads
    the clock again after its first reading takes both readings. *)

From S2P Require Import Prelude.
From stdpp Require Import sorting.
Local Open Scope string_scope.
Local Open Scope Z_scope.

(** ** State *)

Abbreviation addr := nat (only parsing).

Record Lock := mkLock {
  Key : string;
  Owner : string;
  ClientID : string;
  ReentrancyCount : Z;
  FencingToken : Z;
  ExpiresAt : Z;
  Mode : string;
  SharedOwners : option (gmap string addr);
  AcquiredAt : Z }.

Record waiter := mkWaiter {
  wid : nat;   (** the identity of the waiter object and of its channel *)
  w_owner : string;
  w_clientID : string;
  w_ttl : Z;
  w_priority : Z;
  w_mode : string }.

Record LockEvent := mkLockEvent { ev_key : string; ev_action : string }.

Record InMemoryStore := mkStore {
  heap : gmap nat Lock;          (** every lock object ever allocated *)
  next : addr;
  locks : gmap string addr;
  waiters : gmap string (list waiter);
  waitingFor : gmap string string;
  tokenCounter : Z;
  deadlockCount : Z;
  listeners : list (nat * list LockEvent);   (** channel and its buffer *)
  next_chan : nat;
  heartbeats : gmap string Z;
  granted : gmap nat addr;       (** what a waiter's channel holds *)
  next_wid : nat }.

#[global] Instance waiter_eq_dec : EqDecision waiter.
Proof. solve_decision. Defined.

(** ** Field updates *)

Section Updates.
Context (st : InMemoryStore).
Definition with_heap h := mkStore h (next st) (locks st) (waiters st) (waitingFor st)
  (tokenCounter st) (deadlockCount st) (listeners st) (next_chan st) (heartbeats st) (granted st) (next_wid st).
Definition with_locks m := mkStore (heap st) (next st) m (waiters st) (waitingFor st)
  (tokenCounter st) (deadlockCount st) (listeners st) (next_chan st) (heartbeats st) (granted st) (next_wid st).
Definition with_queues ws wf gr nw := mkStore (heap st) (next st) (locks st) ws wf
  (tokenCounter st) (deadlockCount st) (listeners st) (next_chan st) (heartbeats st) gr nw.
Definition with_deadlockCount d := mkStore (heap st) (next st) (locks st) (waiters st) (waitingFor st)
  (tokenCounter st) d (listeners st) (next_chan st) (heartbeats st) (granted st) (next_wid st).
Definition with_listeners l c := mkStore (heap st) (next st) (locks st) (waiters st) (waitingFor st)
  (tokenCounter st) (deadlockCount st) l c (heartbeats st) (granted st) (next_wid st).
Definition with_heartbeats h := mkStore (heap st) (next st) (locks st) (waiters st) (waitingFor st)
  (tokenCounter st) (deadlockCount st) (listeners st) (next_chan st) h (granted st) (next_wid st).

(** Allocation of a lock object with the next fencing token. *)
Definition alloc (l : Lock) := mkStore (<[next st := l]> (heap st)) (S (next st)) (locks st)
  (waiters st) (waitingFor st) (tokenCounter st + 1) (deadlockCount st) (listeners st)
  (next_chan st) (heartbeats st) (granted st) (next_wid st).

Definition write (a : addr) (l : Lock) := with_heap (<[a := l]> (heap st)).
End Updates.

Definition set_expiry (l : Lock) (t : Z) : Lock :=
  mkLock (Key l) (Owner l) (ClientID l) (ReentrancyCount l) (FencingToken l) t (Mode l)
    (SharedOwners l) (AcquiredAt l).
Definition set_count (l : Lock) (n : Z) : Lock :=
  mkLock (Key l) (Owner l) (ClientID l) n (FencingToken l) (ExpiresAt l) (Mode l)
    (SharedOwners l) (AcquiredAt l).
Definition set_owners (l : Lock) (m : gmap string addr) : Lock :=
  mkLock (Key l) (Owner l) (ClientID l) (ReentrancyCount l) (FencingToken l) (ExpiresAt l) (Mode l)
    (Some m) (AcquiredAt l).

Definition NewInMemoryStore : InMemoryStore :=
  mkStore ∅ 0 ∅ ∅ ∅ 0 0 [] 0 ∅ ∅ 0.

(** [s.locks[key]], dereferenced. *)
Definition find_lock (st : InMemoryStore) (key : string) : option (addr * Lock) :=
  a ← locks st !! key; l ← heap st !! a; Some (a, l).

(** ** Events *)

Definition Subscribe (st : InMemoryStore) : nat * InMemoryStore :=
  (next_chan st, with_listeners st (listeners st ++ [(next_chan st, [])]) (S (next_chan st))).

(** Removes the first listener with this channel. *)
Fixpoint remove_listener (ch : nat) (l : list (nat * list LockEvent)) :=
  match l with
  | [] => []
  | (c, b) :: l => if (c =? ch)%nat then l else (c, b) :: remove_listener ch l
  end.

Definition Unsubscribe (ch : nat) (st : InMemoryStore) : InMemoryStore :=
  with_listeners st (remove_listener ch (listeners st)) (next_chan st).

(** A channel of capacity 10 whose full buffer drops the event. *)
Definition offer (ev : LockEvent) (l : nat * list LockEvent) : nat * list LockEvent :=
  if (length l.2 <? 10)%nat then (l.1, (l.2 ++ [ev])%list) else l.

Definition broadcast (ev : LockEvent) (st : InMemoryStore) : InMemoryStore :=
  with_listeners st (map (offer ev) (listeners st)) (next_chan st).

Definition PingHeartbeat (clientID : string) (now : Z) (st : InMemoryStore) : InMemoryStore :=
  with_heartbeats st (<[clientID := now]> (heartbeats st)).

Definition seconds (n : Z) : Z := n * 10 ^ 9.

Definition ExpireHeartbeatForTest (clientID : string) (now : Z) (st : InMemoryStore) : InMemoryStore :=
  with_heartbeats st (<[clientID := now - seconds 10]> (heartbeats st)).

(** ** Deadlock detection *)

(** The owner that [current] waits for, when it waits for a lock that has not
    expired. *)
Definition next_wait (st : InMemoryStore) (now : Z) (current : string) : option string :=
  waitKey ← waitingFor st !! current;
  '(_, lock) ← find_lock st waitKey;
  if ExpiresAt lock <? now then None else Some (Owner lock).

Fixpoint cycle_walk (fuel : nat) (st : InMemoryStore) (now : Z) (targetOwner : string)
    (visited : gset string) (current : string) : bool :=
  match fuel with
  | O => false
  | S n =>
      if bool_decide (current = "") then false
      else if bool_decide (current ∈ visited) then bool_decide (current = targetOwner)
      else match next_wait st now current with
           | None => false
           | Some o => cycle_walk n st now targetOwner ({[current]} ∪ visited) o
           end
  end.

Definition hasCycleLocked (st : InMemoryStore) (now : Z) (startOwner targetOwner : string) : bool :=
  cycle_walk (size (waitingFor st) + 2) st now targetOwner {[targetOwner]} startOwner.

(** ** Sorting of the waiters

    [sort.Slice] orders the waiters by descending priority; it is not stable,
    so the order among equal priorities is left to the implementation. *)

Definition before (v w : waiter) : Prop := w_priority w <= w_priority v.
#[global] Instance before_dec v w : Decision (before v w).
Proof. unfold before. apply _. Defined.
#[global] Instance before_total : Total before.
Proof. intros v w. unfold before. lia. Qed.
#[global] Instance before_trans : Transitive before.
Proof. intros u v w. unfold before. lia. Qed.

Class SortSlice := {
  sort_waiters : list waiter -> list waiter;
  sort_waiters_perm q : sort_waiters q ≡ₚ q;
  sort_waiters_sorted q : Sorted before (sort_waiters q) }.

(** Insertion sort, what [sort.Slice] does on up to twelve elements. *)
Fixpoint insert_waiter (w : waiter) (q : list waiter) : list waiter :=
  match q with
  | [] => [w]
  | v :: q' => if decide (before v w) then v :: insert_waiter w q' else w :: q
  end.

Definition insertion_sort (q : list waiter) : list waiter :=
  foldl (fun acc w => insert_waiter w acc) [] q.

(** ** Acquire *)

Inductive LockError :=
  | ErrConflict (key mode : string)
  | ErrDeadlock
  | ErrTimeout (key : string)
  | ErrNotOwned (owner : string)
  | ErrOwnedBy (owner : string)
  | ErrFencing (expected got : Z)
  | ErrExpired.

Inductive acquire_result :=
  | Granted (a : addr)
  | Failed (e : LockError)
  | Waiting (w : nat).

(** A fresh lock object; a shared one is its own first shared owner. *)
Definition new_lock (st : InMemoryStore) (key owner clientID mode : string) (now ttl : Z) : Lock :=
  mkLock key owner clientID 1 (tokenCounter st + 1) (now + ttl) mode
    (if bool_decide (mode = "shared") then Some {[owner := next st]} else None) now.

(** [if a.After(b) { b = a }] on the lock at an address. *)
Definition raise_expiry (a : addr) (t : Z) (st : InMemoryStore) : InMemoryStore :=
  match heap st !! a with
  | Some l => if ExpiresAt l <? t then write st a (set_expiry l t) else st
  | None => st
  end.

(** The entry of [owner] in the shared owners of a lock. *)
Definition shared_owner (st : InMemoryStore) (ex : Lock) (owner : string) : option (addr * Lock) :=
  m ← SharedOwners ex; b ← m !! owner; sh ← heap st !! b; Some (b, sh).

(** The end of the function: a new lock, joined to a shared lock or put in
    the table. *)
Definition grant_new (key owner clientID mode : string) (ttl now : Z) (st : InMemoryStore) :
    acquire_result * InMemoryStore :=
  let a := next st in
  let lock := new_lock st key owner clientID mode now ttl in
  let st' := alloc st lock in
  match find_lock st key with
  | Some (e, ex) =>
      if bool_decide (Mode ex = "shared") && bool_decide (mode = "shared") then
        let st' := write st' e (set_owners ex (<[owner := a]> (default ∅ (SharedOwners ex)))) in
        (Granted a, raise_expiry e (ExpiresAt lock) st')
      else (Granted a, with_locks st' (<[key := a]> (locks st')))
  | None => (Granted a, with_locks st' (<[key := a]> (locks st')))
  end.

Section Acquire.
Context `{SortSlice}.

(** The branch of a conflicting request. *)
Definition conflict (key owner clientID mode : string) (ttl waitTimeout priority : Z)
    (now : Z) (ex : Lock) (st : InMemoryStore) : acquire_result * InMemoryStore :=
  if waitTimeout <=? 0 then (Failed (ErrConflict key (Mode ex)), st)
  else if hasCycleLocked st now (Owner ex) owner then
    (Failed ErrDeadlock, with_deadlockCount st (deadlockCount st + 1))
  else
    let w := mkWaiter (next_wid st) owner clientID ttl priority mode in
    let q := sort_waiters (default [] (waiters st !! key) ++ [w]) in
    (Waiting (wid w),
     with_queues st (<[key := q]> (waiters st)) (<[owner := key]> (waitingFor st))
       (granted st) (S (next_wid st))).

(** The section of [AcquireAdvancedWithWait] up to the [select]. *)
Definition AcquireAdvancedWithWait (key owner clientID : string)
    (ttl waitTimeout priority : Z) (mode : string) (now now' : Z) (st : InMemoryStore) :
    acquire_result * InMemoryStore :=
  let mode := if bool_decide (mode = "") then "exclusive" else mode in
  match find_lock st key with
  | Some (a, ex) =>
      if now <? ExpiresAt ex then
        if bool_decide (Owner ex = owner) && bool_decide (ClientID ex = clientID) then
          (Granted a,
           write st a (set_expiry (set_count ex (ReentrancyCount ex + 1)) (now + ttl)))
        else
          match (if bool_decide (Mode ex = "shared") then shared_owner st ex owner else None) with
          | Some (b, sh) =>
              if bool_decide (ClientID sh = clientID) then
                let st' := write st b
                  (set_expiry (set_count sh (ReentrancyCount sh + 1)) (now + ttl)) in
                (Granted b, raise_expiry a (now + ttl) st')
              else if bool_decide (mode = "exclusive") || bool_decide (Mode ex = "exclusive") then
                conflict key owner clientID mode ttl waitTimeout priority now' ex st
              else grant_new key owner clientID mode ttl now st
          | None =>
              if bool_decide (mode = "exclusive") || bool_decide (Mode ex = "exclusive") then
                conflict key owner clientID mode ttl waitTimeout priority now' ex st
              else grant_new key owner clientID mode ttl now st
          end
      else grant_new key owner clientID mode ttl now st
  | None => grant_new key owner clientID mode ttl now st
  end.

Definition Acquire (key owner clientID : string) (ttl now now' : Z) :=
  AcquireAdvancedWithWait key owner clientID ttl 0 0 "exclusive" now now'.
Definition AcquireWithWait (key owner clientID : string) (ttl waitTimeout now now' : Z) :=
  AcquireAdvancedWithWait key owner clientID ttl waitTimeout 0 "exclusive" now now'.
Definition AcquireAdvanced (key owner clientID : string) (ttl : Z) (mode : string) (now now' : Z) :=
  AcquireAdvancedWithWait key owner clientID ttl 0 0 mode now now'.
End Acquire.

(** The [select] of a waiter: the grant arrives ... *)
Definition acquire_granted (owner : string) (w : nat) (st : InMemoryStore) :
    option (addr * InMemoryStore) :=
  a ← granted st !! w;
  Some (a, with_queues st (waiters st) (delete owner (waitingFor st)) (delete w (granted st)) (next_wid st)).

(** Removes the first waiter with this identity. *)
Fixpoint remove_waiter (w : nat) (q : list waiter) : list waiter :=
  match q with
  | [] => []
  | v :: q => if (wid v =? w)%nat then q else v :: remove_waiter w q
  end.

(** ... or the timeout fires. *)
Definition acquire_timeout (key owner : string) (w : nat) (st : InMemoryStore) :
    LockError * InMemoryStore :=
  let ws := match waiters st !! key with
            | Some q => <[key := remove_waiter w q]> (waiters st)
            | None => waiters st
            end in
  (ErrTimeout key, with_queues st ws (delete owner (waitingFor st)) (granted st) (next_wid st)).

(** ** Release, renew, get *)

Definition grantNextWaiterLocked (key : string) (now : Z) (st : InMemoryStore) : InMemoryStore :=
  match waiters st !! key with
  | Some (w :: q) =>
      let ws := match q with [] => delete key (waiters st) | _ => <[key := q]> (waiters st) end in
      let a := next st in
      let lock := new_lock st key (w_owner w) (w_clientID w) (w_mode w) now (w_ttl w) in
      let st' := alloc st lock in
      let st' := with_locks st' (<[key := a]> (locks st')) in
      with_queues st' ws (delete (w_owner w) (waitingFor st)) (<[wid w := a]> (granted st)) (next_wid st)
  | _ => st
  end.

(** The end of [Release]: the lock leaves the table. *)
Definition release_lock (key : string) (now : Z) (st : InMemoryStore) : InMemoryStore :=
  let st' := with_locks st (delete key (locks st)) in
  broadcast (mkLockEvent key "released") (grantNextWaiterLocked key now st').

(** The latest expiry among the shared owners, from the zero time. *)
Definition max_expiry (st : InMemoryStore) (m : gmap string addr) : Z :=
  map_fold (fun _ b t => match heap st !! b with Some l => Z.max t (ExpiresAt l) | None => t end)
    0 m.

Definition Release (key owner : string) (fencingToken : Z) (now now' : Z) (st : InMemoryStore) :
    (bool + LockError) * InMemoryStore :=
  match find_lock st key with
  | None => (inl false, st)
  | Some (a, ex) =>
      if ExpiresAt ex <? now then (inl false, st)
      else
        match (if bool_decide (Mode ex = "shared") then SharedOwners ex else None) with
        | Some m =>
            match shared_owner st ex owner with
            | None => (inr (ErrNotOwned owner), st)
            | Some (b, sh) =>
                let st1 := write st b (set_count sh (ReentrancyCount sh - 1)) in
                if 0 <? ReentrancyCount sh - 1 then (inl true, st1)
                else
                  let m' := delete owner m in
                  match heap st1 !! a with
                  | None => (inl true, st1)
                  | Some ex1 =>
                      let st2 := write st1 a (set_owners ex1 m') in
                      if bool_decide (m' = ∅) then (inl true, release_lock key now' st2)
                      else (inl true,
                            write st2 a (set_expiry (set_owners ex1 m') (max_expiry st2 m')))
                  end
            end
        | None =>
            if bool_decide (Owner ex = owner) then
              if (0 <? fencingToken) && negb (FencingToken ex =? fencingToken) then
                (inr (ErrFencing (FencingToken ex) fencingToken), st)
              else
                let st1 := write st a (set_count ex (ReentrancyCount ex - 1)) in
                if 0 <? ReentrancyCount ex - 1 then (inl true, st1)
                else (inl true, release_lock key now' st1)
            else (inr (ErrOwnedBy (Owner ex)), st)
        end
  end.

Definition Renew (key owner : string) (fencingToken ttl : Z) (now now' : Z) (st : InMemoryStore) :
    (bool + LockError) * InMemoryStore :=
  match find_lock st key with
  | None => (inr ErrExpired, st)
  | Some (a, ex) =>
      if ExpiresAt ex <? now then (inr ErrExpired, st)
      else
        match (if bool_decide (Mode ex = "shared") then SharedOwners ex else None) with
        | Some m =>
            match shared_owner st ex owner with
            | None => (inr (ErrNotOwned owner), st)
            | Some (b, sh) =>
                (inl true, raise_expiry a (now' + ttl) (write st b (set_expiry sh (now' + ttl))))
            end
        | None =>
            if bool_decide (Owner ex = owner) then
              if (0 <? fencingToken) && negb (FencingToken ex =? fencingToken) then
                (inr (ErrFencing (FencingToken ex) fencingToken), st)
              else (inl true, write st a (set_expiry ex (now' + ttl)))
            else (inr (ErrOwnedBy (Owner ex)), st)
        end
  end.

Definition Get (key : string) (now : Z) (st : InMemoryStore) : addr + LockError :=
  match find_lock st key with
  | Some (a, ex) => if ExpiresAt ex <? now then inr ErrExpired else inl a
  | None => inr ErrExpired
  end.

(** ** The cleaner

    One tick of [startExpiryCleaner].  Go ranges over a map in an unspecified
    order: the orders are arguments. *)

Definition drop_lock (key : string) (now' : Z) (st : InMemoryStore) : InMemoryStore :=
  let st' := with_locks st (delete key (locks st)) in
  broadcast (mkLockEvent key "expired") (grantNextWaiterLocked key now' st').

Definition expire_key (now now' : Z) (st : InMemoryStore) (k : string) : InMemoryStore :=
  match find_lock st k with
  | Some (_, v) => if ExpiresAt v <? now then drop_lock k now' st else st
  | None => st
  end.

(** The shared owners that do not belong to the client. *)
Definition of_client (st : InMemoryStore) (cid : string) (b : addr) : bool :=
  match heap st !! b with Some sh => bool_decide (ClientID sh = cid) | None => false end.

Definition without_client (st : InMemoryStore) (cid : string) (m : gmap string addr) : gmap string addr :=
  filter (fun ob => of_client st cid ob.2 = false) m.

Definition evict_key (cid : string) (now' : Z) (st : InMemoryStore) (k : string) : InMemoryStore :=
  match find_lock st k with
  | Some (a, v) =>
      if bool_decide (ClientID v = cid) then drop_lock k now' st
      else match (if bool_decide (Mode v = "shared") then SharedOwners v else None) with
           | Some m =>
               let m' := without_client st cid m in
               let st' := write st a (set_owners v m') in
               if bool_decide (m' = ∅) then drop_lock k now' st' else st'
           | None => st
           end
  | None => st
  end.

Definition evict_client (now now' : Z) (ks : string -> list string) (st : InMemoryStore)
    (cid : string) : InMemoryStore :=
  match heartbeats st !! cid with
  | Some t =>
      if seconds 5 <? now - t then
        foldl (evict_key cid now') (with_heartbeats st (delete cid (heartbeats st))) (ks cid)
      else st
  | None => st
  end.

Definition clean (now now' : Z) (ks1 cids : list string) (ks2 : string -> list string) (st : InMemoryStore) : InMemoryStore :=
  foldl (evict_client now now' ks2) (foldl (expire_key now now') st ks1) cids.

(** ** Listing *)

Record LockInfo := mkLockInfo {
  li_key : string; li_owner : string; li_token : Z; li_expires : Z; li_waiters : list string }.

Definition GetActiveLocks (now : Z) (st : InMemoryStore) : list LockInfo :=
  flat_map (fun '(k, a) =>
    match heap st !! a with
    | Some lock =>
        if now <? ExpiresAt lock then
          [mkLockInfo (Key lock) (Owner lock) (FencingToken lock) (ExpiresAt lock)
             (map w_owner (default [] (waiters st !! k)))]
        else []
    | None => []
    end) (map_to_list (locks st)).

(** ** Reloading a saved table ([lock/pkg/storage/file_store.go]) *)

Definition load_lock (now : Z) (st : InMemoryStore) (kl : string * Lock) : InMemoryStore :=
  let '(k, lock) := kl in
  if now <? ExpiresAt lock then
    let st' := with_locks (with_heap st (<[next st := lock]> (heap st))) (<[k := next st]> (locks st)) in
    mkStore (heap st') (S (next st)) (locks st') (waiters st) (waitingFor st)
      (Z.max (tokenCounter st) (FencingToken lock)) (deadlockCount st) (listeners st)
      (next_chan st) (heartbeats st) (granted st) (next_wid st)
  else st.

Definition loadFromFile (now : Z) (saved : list (string * Lock)) (st : InMemoryStore) : InMemoryStore :=
  foldl (load_lock now) st saved.
