(* ===== verification/LockProps.v ===== *)
(** * Correctness of the lock store

    A transition system whose steps are the critical sections of the store,
    its invariant, and what the store promises to its clients: fresh fencing
    tokens, leases nobody else can take before they expire, waiters served by
    priority, exact deadlock detection. *)

From S2P Require Import Prelude LockStore.
From stdpp Require Import sorting.
Local Open Scope string_scope.
Local Open Scope Z_scope.

(** ** Insertion sort implements the sorting interface *)

Lemma insert_waiter_perm w q : insert_waiter w q ≡ₚ w :: q.
Proof.
  induction q as [|v q IH]; [done|]. cbn. destruct (decide _); [|done].
  rewrite IH. apply Permutation_swap.
Qed.

Lemma insert_waiter_hd v w q :
  HdRel before v q -> before v w -> HdRel before v (insert_waiter w q).
Proof. destruct 1; cbn; intros; [by constructor|]. destruct (decide _); by constructor. Qed.

Lemma insert_waiter_sorted w q : Sorted before q -> Sorted before (insert_waiter w q).
Proof.
  induction 1 as [|v q Hq IH Hv]; cbn; [by repeat constructor|].
  destruct (decide (before v w)) as [B|B]; [constructor; auto using insert_waiter_hd|].
  repeat constructor; auto. by destruct (before_total v w).
Qed.

Lemma insertion_sort_spec q acc :
  Sorted before acc ->
  Sorted before (foldl (fun acc w => insert_waiter w acc) acc q) /\
  foldl (fun acc w => insert_waiter w acc) acc q ≡ₚ acc ++ q.
Proof.
  revert acc. induction q as [|w q IH]; intros acc Ha; cbn; [by rewrite app_nil_r|].
  destruct (IH (insert_waiter w acc)) as [H1 H2]; [by apply insert_waiter_sorted|].
  split; [done|]. rewrite H2, insert_waiter_perm. apply Permutation_middle.
Qed.

#[export] Instance insertion_sort_slice : SortSlice := {|
  sort_waiters := insertion_sort;
  sort_waiters_perm q := proj2 (insertion_sort_spec q [] (Sorted_nil _));
  sort_waiters_sorted q := proj1 (insertion_sort_spec q [] (Sorted_nil _)) |}.

(** ** The transition system *)

Inductive op :=
  | OpAcquire (key owner clientID : string) (ttl waitTimeout priority : Z) (mode : string) (now now' : Z)
  | OpGranted (owner : string) (w : nat)
  | OpTimeout (key owner : string) (w : nat)
  | OpRelease (key owner : string) (fencingToken now now' : Z)
  | OpRenew (key owner : string) (fencingToken ttl now now' : Z)
  | OpClean (now now' : Z) (ks1 cids : list string) (ks2 : string -> list string)
  | OpPing (clientID : string) (now : Z)
  | OpExpireHeartbeat (clientID : string) (now : Z)
  | OpSubscribe
  | OpUnsubscribe (ch : nat).

Section System.
Context `{SortSlice}.

Definition run (o : op) (st : InMemoryStore) : InMemoryStore :=
  match o with
  | OpAcquire k ow c ttl wt p m now now' => (AcquireAdvancedWithWait k ow c ttl wt p m now now' st).2
  | OpGranted ow w => match acquire_granted ow w st with Some (_, st') => st' | None => st end
  | OpTimeout k ow w => (acquire_timeout k ow w st).2
  | OpRelease k ow t now now' => (Release k ow t now now' st).2
  | OpRenew k ow t ttl now now' => (Renew k ow t ttl now now' st).2
  | OpClean now now' ks1 cids ks2 => clean now now' ks1 cids ks2 st
  | OpPing c now => PingHeartbeat c now st
  | OpExpireHeartbeat c now => ExpireHeartbeatForTest c now st
  | OpSubscribe => (Subscribe st).2
  | OpUnsubscribe ch => Unsubscribe ch st
  end.

Inductive reachable : InMemoryStore -> Prop :=
  | reachable_init : reachable NewInMemoryStore
  | reachable_step st o : reachable st -> reachable (run o st).
End System.

(** ** The invariant *)

(** What never changes in a lock object. *)
Definition ident (l : Lock) : string * string * string * Z * string :=
  (Key l, Owner l, ClientID l, FencingToken l, Mode l).

(** The shared owners of a lock are shared locks on the same key, each
    under its own owner. *)
Definition owners_ok (h : gmap nat Lock) (l : Lock) : Prop :=
  match SharedOwners l with
  | Some m => Mode l = "shared" /\
      forall o b, m !! o = Some b ->
        exists lb, h !! b = Some lb /\ Owner lb = o /\ Key lb = Key l /\ Mode lb = "shared"
  | None => Mode l <> "shared"
  end.

Record inv (st : InMemoryStore) : Prop := mkInv {
  inv_counter : tokenCounter st = Z.of_nat (next st);
  inv_tokens : forall a l, heap st !! a = Some l ->
    (a < next st)%nat /\ FencingToken l = Z.of_nat a + 1;
  inv_alloced : forall a, (a < next st)%nat -> is_Some (heap st !! a);
  inv_owners : forall a l, heap st !! a = Some l -> owners_ok (heap st) l;
  inv_locks : forall k a, locks st !! k = Some a ->
    exists l, heap st !! a = Some l /\ Key l = k;
  inv_queues : forall k q, waiters st !! k = Some q -> Sorted before q }.

Create HintDb lock.

Lemma find_Some st k a l :
  find_lock st k = Some (a, l) <-> locks st !! k = Some a /\ heap st !! a = Some l.
Proof.
  unfold find_lock. destruct (locks st !! k) as [b|]; cbn; [|naive_solver].
  destruct (heap st !! b) eqn:E; naive_solver.
Qed.

Lemma shared_owner_Some st ex o b sh :
  shared_owner st ex o = Some (b, sh) <->
  exists m, SharedOwners ex = Some m /\ m !! o = Some b /\ heap st !! b = Some sh.
Proof.
  unfold shared_owner. destruct (SharedOwners ex) as [m|]; cbn; [|naive_solver].
  destruct (m !! o) as [c|] eqn:E; cbn; [|naive_solver].
  destruct (heap st !! c) eqn:E'; naive_solver.
Qed.

(** The invariant reads only some of the fields. *)
Lemma inv_ext st st' :
  inv st -> heap st' = heap st -> next st' = next st -> locks st' = locks st ->
  waiters st' = waiters st -> tokenCounter st' = tokenCounter st -> inv st'.
Proof. intros [] Hh Hn Hl Hw Ht. constructor; rewrite ?Hh, ?Hn, ?Hl, ?Hw, ?Ht; auto. Qed.

Lemma ident_eq l l' :
  ident l' = ident l ->
  Key l' = Key l /\ Owner l' = Owner l /\ ClientID l' = ClientID l /\
  FencingToken l' = FencingToken l /\ Mode l' = Mode l.
Proof. unfold ident. intros H. by injection H. Qed.

(** [owners_ok] only depends on what never changes. *)
Lemma owners_ok_write h a l l' x :
  h !! a = Some l -> ident l' = ident l -> owners_ok h x -> owners_ok (<[a := l']> h) x.
Proof.
  intros Ha (Ek & Eo & _ & _ & Em)%ident_eq. unfold owners_ok.
  destruct (SharedOwners x) as [m|]; [|done].
  intros [Hm Hx]. split; [done|]. intros o b Hb.
  destruct (Hx o b Hb) as (lb & Hlb & Ho & Hk & Hs).
  destruct (decide (a = b)) as [->|Hab]; [|by rewrite lookup_insert_ne by done; eauto].
  rewrite lookup_insert_eq. exists l'. simplify_eq. by rewrite Ek, Eo, Em.
Qed.

Lemma inv_write st a l l' :
  inv st -> heap st !! a = Some l -> ident l' = ident l -> owners_ok (heap st) l' ->
  inv (write st a l').
Proof.
  intros [Hc Ht Hd Ho Hl Hq] Ha Hid Hl'. destruct (ident_eq _ _ Hid) as (Ek & _ & _ & Et & _).
  constructor; cbn; auto.
  - intros b lb. rewrite lookup_insert_Some. intros [[-> <-]|[_ Hb]]; [|eauto].
    rewrite Et. eauto.
  - intros b Hb. destruct (Hd b Hb). apply lookup_insert_is_Some. destruct (decide (a = b)); eauto.
  - intros b lb. rewrite lookup_insert_Some. intros [[-> <-]|[_ Hb]]; eapply owners_ok_write; eauto.
  - intros k b Hk. destruct (Hl _ _ Hk) as (lb & Hb & <-).
    destruct (decide (a = b)) as [->|Hab]; [|by rewrite lookup_insert_ne by done; eauto].
    rewrite lookup_insert_eq. simplify_eq. eauto.
Qed.

(** Changing the expiry or the count keeps the owners. *)
Lemma owners_ok_expiry h l t : owners_ok h (set_expiry l t) <-> owners_ok h l.
Proof. done. Qed.
Lemma owners_ok_count h l n : owners_ok h (set_count l n) <-> owners_ok h l.
Proof. done. Qed.
Lemma owners_ok_shrink h l m m' :
  owners_ok h l -> SharedOwners l = Some m -> m' ⊆ m -> owners_ok h (set_owners l m').
Proof.
  unfold owners_ok. cbn. intros H E Hs. rewrite E in H. destruct H as [Hm H]. split; [done|].
  intros o b Hb. apply H. by eapply lookup_weaken.
Qed.

Lemma owners_ok_fresh h a l x : h !! a = None -> owners_ok h x -> owners_ok (<[a := l]> h) x.
Proof.
  unfold owners_ok. intros Ha. destruct (SharedOwners x) as [m|]; [|done].
  intros [Hm Hx]. split; [done|]. intros o b Hb.
  destruct (Hx o b Hb) as (lb & Hlb & ?). exists lb. split; [|done].
  rewrite lookup_insert_ne; [done|]. by intros ->; simplify_eq.
Qed.

Lemma fresh_next st : inv st -> heap st !! next st = None.
Proof.
  intros Hi. destruct (heap st !! next st) eqn:E; [|done].
  apply (inv_tokens _ Hi) in E as [? _]. lia.
Qed.

Lemma owners_ok_new st key owner clientID mode now ttl h :
  h !! next st = Some (new_lock st key owner clientID mode now ttl) ->
  owners_ok h (new_lock st key owner clientID mode now ttl).
Proof.
  intros Hh. unfold owners_ok. cbn. destruct (bool_decide_reflect (mode = "shared")) as [->|]; [|done].
  split; [done|]. intros o b [? ?]%lookup_singleton_Some. simplify_eq. eauto.
Qed.

Lemma inv_alloc st key owner clientID mode now ttl :
  inv st -> inv (alloc st (new_lock st key owner clientID mode now ttl)).
Proof.
  intros Hi. pose proof (fresh_next _ Hi) as Hf. destruct Hi as [Hc Ht Hd Ho Hl Hq].
  constructor; cbn [alloc heap next locks waiters tokenCounter]; auto.
  - lia.
  - intros a l. rewrite lookup_insert_Some. intros [[? ?]|[_ Ha]]; [simplify_eq; cbn; lia|].
    destruct (Ht _ _ Ha). lia.
  - intros a Ha. apply lookup_insert_is_Some'. destruct (decide (next st = a)); [by left|right].
    apply Hd. lia.
  - intros a l. rewrite lookup_insert_Some. intros [[? ?]|[_ Ha]]; simplify_eq.
    + apply owners_ok_new, lookup_insert_eq.
    + eauto using owners_ok_fresh.
  - intros k a Hk. destruct (Hl _ _ Hk) as (l & Ha & <-). exists l. split; [|done].
    rewrite lookup_insert_ne; [done|]. by intros <-; simplify_eq.
Qed.

Lemma inv_set_lock st k a l :
  inv st -> heap st !! a = Some l -> Key l = k -> inv (with_locks st (<[k := a]> (locks st))).
Proof.
  intros [Hc Ht Hd Ho Hl Hq] Ha Hk. constructor; cbn; auto.
  intros k' b. rewrite lookup_insert_Some. intros [[<- <-]|[_ Hb]]; eauto.
Qed.

Lemma inv_del_lock st k : inv st -> inv (with_locks st (delete k (locks st))).
Proof.
  intros [Hc Ht Hd Ho Hl Hq]. constructor; cbn; auto.
  intros k' b. rewrite lookup_delete_Some. naive_solver.
Qed.

Lemma inv_set_queues st ws wf gr nw :
  inv st -> (forall k q, ws !! k = Some q -> Sorted before q) -> inv (with_queues st ws wf gr nw).
Proof. intros [Hc Ht Hd Ho Hl Hq] Hw. by constructor. Qed.

Lemma raise_expiry_inv a t st : inv st -> inv (raise_expiry a t st).
Proof.
  intros Hi. unfold raise_expiry. destruct (heap st !! a) as [l|] eqn:E; [|done].
  destruct (_ <? t); [|done]. eapply inv_write; eauto. by apply owners_ok_expiry, (inv_owners _ Hi a).
Qed.

Lemma grant_new_inv key owner clientID mode ttl now st :
  inv st -> inv (grant_new key owner clientID mode ttl now st).2.
Proof.
  intros Hi. unfold grant_new. pose proof (fresh_next _ Hi) as Hf.
  set (l := new_lock _ _ _ _ _ _ _).
  assert (Ha : inv (alloc st l)) by (by apply inv_alloc).
  assert (Hn : heap (alloc st l) !! next st = Some l) by apply lookup_insert_eq.
  destruct (find_lock st key) as [[e ex]|] eqn:F; [|by eapply inv_set_lock].
  destruct (bool_decide_reflect (Mode ex = "shared")) as [Hm|]; [|by eapply inv_set_lock].
  destruct (bool_decide_reflect (mode = "shared")) as [->|]; [|by eapply inv_set_lock].
  apply raise_expiry_inv. apply find_Some in F as [Hk He].
  assert (He' : heap (alloc st l) !! e = Some ex).
  { cbn. rewrite lookup_insert_ne; [done|]. by intros <-; simplify_eq. }
  destruct (inv_locks _ Hi _ _ Hk) as (ex' & ? & Hkey). simplify_eq.
  eapply inv_write; eauto. pose proof (inv_owners _ Ha _ _ He') as Hok.
  unfold owners_ok in Hok |- *. destruct (SharedOwners ex) as [m|]; [|done].
  destruct Hok as [_ Hok]. split; [done|]. cbn [set_owners Key default].
  intros o b [[<- <-]|[_ Hb]]%lookup_insert_Some; [|by apply Hok].
  exists l. by rewrite Hn.
Qed.

Lemma remove_waiter_sorted w q : Sorted before q -> Sorted before (remove_waiter w q).
Proof.
  intros Hq%Sorted_StronglySorted; [|apply _]. apply StronglySorted_Sorted.
  induction Hq as [|v q Hq IH Hv]; cbn; [constructor|].
  destruct (_ =? w)%nat; [done|]. constructor; [done|].
  apply Forall_forall. intros u Hu. rewrite Forall_forall in Hv. apply Hv.
  clear -Hu. induction q as [|x q IH]; cbn in *; [done|].
  destruct (_ =? w)%nat; set_solver.
Qed.

Lemma grantNext_inv key now st : inv st -> inv (grantNextWaiterLocked key now st).
Proof.
  intros Hi. unfold grantNextWaiterLocked. destruct (waiters st !! key) as [[|w q]|] eqn:W; try done.
  set (l := new_lock _ _ _ _ _ _ _).
  apply inv_set_queues.
  - apply (inv_set_lock (alloc st l) key (next st) l); [by apply inv_alloc|apply lookup_insert_eq|done].
  - apply (inv_queues _ Hi) in W. inversion W as [|? ? Hq _]; subst.
    intros k q'. destruct q as [|v q].
    + rewrite lookup_delete_Some. intros [_ Hk]. by apply (inv_queues _ Hi k).
    + rewrite lookup_insert_Some. intros [[<- <-]|[_ Hk]]; [done|]. by apply (inv_queues _ Hi k).
Qed.

Lemma broadcast_inv ev st : inv st -> inv (broadcast ev st).
Proof. intros Hi. by eapply inv_ext. Qed.

#[export] Hint Resolve grant_new_inv raise_expiry_inv grantNext_inv broadcast_inv inv_del_lock : lock.

Lemma release_lock_inv key now st : inv st -> inv (release_lock key now st).
Proof. unfold release_lock. auto with lock. Qed.

Lemma drop_lock_inv key now st : inv st -> inv (drop_lock key now st).
Proof. unfold drop_lock. auto with lock. Qed.

#[export] Hint Resolve release_lock_inv drop_lock_inv : lock.

(** ** Every operation preserves the invariant *)

(** The parts of a state that a found lock gives. *)
Lemma find_inv st k a l :
  inv st -> find_lock st k = Some (a, l) ->
  heap st !! a = Some l /\ Key l = k /\ owners_ok (heap st) l.
Proof.
  intros Hi [Hk Ha]%find_Some. destruct (inv_locks _ Hi _ _ Hk) as (l' & ? & ?). simplify_eq.
  eauto using inv_owners.
Qed.

Section Invariant.
Context `{SortSlice}.

Lemma conflict_inv key owner clientID mode ttl wt p now ex st :
  inv st -> inv (conflict key owner clientID mode ttl wt p now ex st).2.
Proof.
  intros Hi. unfold conflict. destruct (wt <=? 0); [done|].
  destruct (hasCycleLocked _ _ _ _); [by eapply inv_ext|]. apply inv_set_queues; [done|].
  intros k q [[<- <-]|[_ Hk]]%lookup_insert_Some; [apply sort_waiters_sorted|].
  by apply (inv_queues _ Hi k).
Qed.

Hint Resolve conflict_inv : lock.

Lemma acquire_inv key owner clientID ttl wt p mode now now' st :
  inv st -> inv (AcquireAdvancedWithWait key owner clientID ttl wt p mode now now' st).2.
Proof.
  intros Hi. unfold AcquireAdvancedWithWait.
  destruct (find_lock st key) as [[a ex]|] eqn:F; [|auto with lock].
  destruct (find_inv _ _ _ _ Hi F) as (Ha & _ & Hok).
  destruct (now <? ExpiresAt ex); [|auto with lock].
  destruct (bool_decide _ && bool_decide _); [eapply inv_write; eauto|].
  destruct (if bool_decide (Mode ex = "shared") then shared_owner st ex owner else None)
    as [[b sh]|] eqn:S.
  - destruct (bool_decide (Mode ex = "shared")); [|done].
    apply shared_owner_Some in S as (m & _ & _ & Hb).
    destruct (bool_decide (ClientID sh = clientID)).
    + apply raise_expiry_inv. eapply inv_write; eauto. exact (inv_owners _ Hi b sh Hb).
    + destruct (bool_decide _ || bool_decide _); auto with lock.
  - destruct (bool_decide _ || bool_decide _); auto with lock.
Qed.
End Invariant.

Lemma release_inv key owner t now now' st : inv st -> inv (Release key owner t now now' st).2.
Proof.
  intros Hi. unfold Release.
  destruct (find_lock st key) as [[a ex]|] eqn:F; [|done].
  destruct (find_inv _ _ _ _ Hi F) as (Ha & _ & Hok).
  destruct (ExpiresAt ex <? now); [done|].
  destruct (if bool_decide (Mode ex = "shared") then SharedOwners ex else None) as [m|] eqn:M.
  - destruct (bool_decide _); [|done].
    destruct (shared_owner st ex owner) as [[b sh]|] eqn:S; [|done].
    apply shared_owner_Some in S as (m0 & ? & Hm & Hb). simplify_eq.
    set (st1 := write st b _).
    assert (H1 : inv st1) by (eapply inv_write; eauto; exact (inv_owners _ Hi b sh Hb)).
    destruct (0 <? _); [done|]. destruct (heap st1 !! a) as [ex1|] eqn:A1; [|done].
    assert (E1 : SharedOwners ex1 = Some m).
    { unfold st1 in A1. cbn in A1. rewrite lookup_insert_Some in A1. naive_solver. }
    assert (Hok1 : owners_ok (heap st1) (set_owners ex1 (delete owner m))).
    { eapply owners_ok_shrink; eauto; [by apply (inv_owners _ H1 a)|apply delete_subseteq]. }
    assert (H2 : inv (write st1 a (set_owners ex1 (delete owner m)))) by (eapply inv_write; eauto).
    destruct (bool_decide _); cbn [snd]; [by auto with lock|].
    eapply inv_write; [done|apply lookup_insert_eq|done|].
    eapply owners_ok_write; eauto.
  - destruct (bool_decide (Owner ex = owner)); [|done].
    destruct (_ && _); [done|].
    assert (H1 : inv (write st a (set_count ex (ReentrancyCount ex - 1)))) by (eapply inv_write; eauto).
    destruct (0 <? _); cbn [snd]; auto with lock.
Qed.

Lemma renew_inv key owner t ttl now now' st : inv st -> inv (Renew key owner t ttl now now' st).2.
Proof.
  intros Hi. unfold Renew.
  destruct (find_lock st key) as [[a ex]|] eqn:F; [|done].
  destruct (find_inv _ _ _ _ Hi F) as (Ha & _ & Hok).
  destruct (ExpiresAt ex <? now); [done|].
  destruct (if bool_decide (Mode ex = "shared") then SharedOwners ex else None) as [m|] eqn:M.
  - destruct (shared_owner st ex owner) as [[b sh]|] eqn:S; [|done].
    apply shared_owner_Some in S as (m' & ? & Hm & Hb).
    apply raise_expiry_inv. eapply inv_write; eauto. exact (inv_owners _ Hi b sh Hb).
  - destruct (bool_decide (Owner ex = owner)); [|done].
    destruct (_ && _); [done|]. eapply inv_write; eauto.
Qed.

Lemma expire_key_inv now now' st k : inv st -> inv (expire_key now now' st k).
Proof.
  intros Hi. unfold expire_key. destruct (find_lock st k) as [[a v]|]; [|done].
  destruct (_ <? now); auto with lock.
Qed.

Lemma evict_key_inv cid now' st k : inv st -> inv (evict_key cid now' st k).
Proof.
  intros Hi. unfold evict_key. destruct (find_lock st k) as [[a v]|] eqn:F; [|done].
  destruct (find_inv _ _ _ _ Hi F) as (Ha & _ & Hok).
  destruct (bool_decide _); [auto with lock|].
  destruct (if bool_decide (Mode v = "shared") then SharedOwners v else None) as [m|] eqn:M; [|done].
  destruct (bool_decide (Mode v = "shared")); [|done].
  assert (H1 : inv (write st a (set_owners v (without_client st cid m)))).
  { eapply inv_write; eauto. eapply owners_ok_shrink; eauto. apply map_filter_subseteq. }
  destruct (bool_decide _); auto with lock.
Qed.

Lemma foldl_inv {A} (f : InMemoryStore -> A -> InMemoryStore) l st :
  (forall st x, inv st -> inv (f st x)) -> inv st -> inv (foldl f st l).
Proof. intros Hf. revert st. induction l as [|x l IH]; cbn; auto. Qed.

Lemma evict_client_inv now now' ks st cid : inv st -> inv (evict_client now now' ks st cid).
Proof.
  intros Hi. unfold evict_client. destruct (heartbeats st !! cid); [|done].
  destruct (_ <? _); [|done]. apply foldl_inv; [intros; by apply evict_key_inv|]. by eapply inv_ext.
Qed.

Lemma clean_inv now now' ks1 cids ks2 st : inv st -> inv (clean now now' ks1 cids ks2 st).
Proof.
  intros Hi. apply foldl_inv; [intros; by apply evict_client_inv|].
  apply foldl_inv; [intros; by apply expire_key_inv|done].
Qed.

Lemma inv_init : inv NewInMemoryStore.
Proof. constructor; cbn; try done; intros *; rewrite ?lookup_empty; by try lia. Qed.

Lemma run_inv `{SortSlice} o st : inv st -> inv (run o st).
Proof.
  intros Hi. destruct o; cbn [run].
  - by apply acquire_inv.
  - unfold acquire_granted. destruct (granted st !! w); cbn; [|done].
    apply inv_set_queues; [done|]. apply (inv_queues _ Hi).
  - apply inv_set_queues; [done|]. intros k q. destruct (waiters st !! key) as [q0|] eqn:Q; [|apply (inv_queues _ Hi)].
    rewrite lookup_insert_Some. intros [[<- <-]|[_ Hk]]; [|by apply (inv_queues _ Hi k)].
    apply remove_waiter_sorted. by apply (inv_queues _ Hi key).
  - by apply release_inv.
  - by apply renew_inv.
  - by apply clean_inv.
  - by eapply inv_ext.
  - by eapply inv_ext.
  - by eapply inv_ext.
  - by eapply inv_ext.
Qed.

Lemma reachable_inv `{SortSlice} st : reachable st -> inv st.
Proof. induction 1; [apply inv_init|by apply run_inv]. Qed.

(** ** Leases *)

(** Address [a] holds lock [l] and is the entry of key [k]. *)
Definition held (k : string) (a : nat) (l : Lock) (st : InMemoryStore) : Prop :=
  locks st !! k = Some a /\ heap st !! a = Some l.

Lemma held_find k a l st : held k a l st <-> find_lock st k = Some (a, l).
Proof. unfold held. by rewrite find_Some. Qed.

(** Lock objects of different keys are different objects. *)
Lemma other_key st a l b l' :
  heap st !! a = Some l -> heap st !! b = Some l' -> Key l' <> Key l -> b <> a.
Proof. intros Ha Hb Hk ->. by simplify_eq. Qed.

Lemma held_write k a l st b l' : held k a l st -> b <> a -> held k a l (write st b l').
Proof. intros [Hk Ha] Hb. split; [done|]. cbn. by rewrite lookup_insert_ne. Qed.

Lemma held_raise k a l st b t : held k a l st -> b <> a -> held k a l (raise_expiry b t st).
Proof.
  intros Hh Hb. unfold raise_expiry. destruct (heap st !! b); [|done].
  destruct (_ <? t); [|done]. by apply held_write.
Qed.

Lemma held_alloc k a l st x : inv st -> held k a l st -> held k a l (alloc st x).
Proof.
  intros Hi [Hk Ha]. split; [done|]. cbn. rewrite lookup_insert_ne; [done|].
  intros <-. rewrite fresh_next in Ha by done. done.
Qed.

Lemma held_insert k a l st k' b :
  held k a l st -> k' <> k -> held k a l (with_locks st (<[k' := b]> (locks st))).
Proof. intros [Hk Ha] Hne. split; [|done]. cbn. by rewrite lookup_insert_ne. Qed.

Lemma held_grantNext k a l st k' now :
  inv st -> held k a l st -> k' <> k -> held k a l (grantNextWaiterLocked k' now st).
Proof.
  intros Hi Hh Hne. unfold grantNextWaiterLocked. destruct (waiters st !! k') as [[|w q]|]; try done.
  by apply (held_insert k a l (alloc st _)); [apply held_alloc|].
Qed.

Lemma held_delete k a l st k' :
  held k a l st -> k' <> k -> held k a l (with_locks st (delete k' (locks st))).
Proof. intros [Hk Ha] Hne. split; [|done]. cbn. by rewrite lookup_delete_ne. Qed.

Lemma held_release_lock k a l st k' now :
  inv st -> held k a l st -> k' <> k -> held k a l (release_lock k' now st).
Proof. intros Hi Hh Hne. by apply held_grantNext; [apply inv_del_lock|apply held_delete|]. Qed.

Lemma held_drop_lock k a l st k' now :
  inv st -> held k a l st -> k' <> k -> held k a l (drop_lock k' now st).
Proof. intros Hi Hh Hne. by apply held_grantNext; [apply inv_del_lock|apply held_delete|]. Qed.

(** A new lock on another key, or on this key when the entry is not a shared
    lock that a shared request joins. *)
Lemma held_grant_new k a l st key owner clientID mode ttl now :
  inv st -> held k a l st -> key <> k ->
  held k a l (grant_new key owner clientID mode ttl now st).2.
Proof.
  intros Hi Hh Hne. unfold grant_new. set (x := new_lock _ _ _ _ _ _ _).
  assert (Ha : held k a l (alloc st x)) by (by apply held_alloc).
  destruct (find_lock st key) as [[e ex]|] eqn:F; [|by apply (held_insert _ _ _ (alloc st x))].
  destruct (_ && _); [|by apply (held_insert _ _ _ (alloc st x))].
  destruct (find_inv _ _ _ _ Hi F) as (He & Hkey & _).
  assert (e <> a).
  { destruct Hh as [Hk Hl]. destruct (inv_locks _ Hi _ _ Hk) as (? & ? & ?). simplify_eq.
    by eapply other_key. }
  apply held_raise; [|done]. by apply held_write.
Qed.

(** When an exclusive lock object stays the entry of its key: the requests
    come before it expires, no release by its owner, and no cleaner tick after
    its client's heartbeat went stale. *)
Definition respects (k : string) (l : Lock) (st : InMemoryStore) (o : op) : Prop :=
  match o with
  | OpAcquire _ _ _ _ _ _ _ now _ => now < ExpiresAt l
  | OpRelease key owner _ _ _ => key = k -> owner <> Owner l
  | OpClean now _ _ _ _ => now <= ExpiresAt l /\
      forall t, heartbeats st !! ClientID l = Some t -> now - t <= seconds 5
  | _ => True
  end.

Lemma conflict_held `{SortSlice} k a l st key owner clientID mode ttl wt p now ex :
  held k a l st -> held k a l (conflict key owner clientID mode ttl wt p now ex st).2.
Proof.
  intros Hh. unfold conflict. destruct (wt <=? 0); [done|].
  by destruct (hasCycleLocked _ _ _ _).
Qed.

Lemma held_acquire `{SortSlice} k a l st key owner clientID ttl wt p mode now now' :
  inv st -> held k a l st -> Mode l = "exclusive" -> now < ExpiresAt l ->
  exists l', held k a l' (AcquireAdvancedWithWait key owner clientID ttl wt p mode now now' st).2 /\
    ident l' = ident l.
Proof.
  intros Hi Hh Hm Hn. unfold AcquireAdvancedWithWait.
  destruct (decide (key = k)) as [->|Hne].
  - rewrite (proj1 (held_find _ _ _ _) Hh). replace (now <? ExpiresAt l) with true by lia.
    destruct (bool_decide _ && bool_decide _).
    { eexists. destruct Hh. split; [split; [done|apply lookup_insert_eq]|done]. }
    rewrite Hm. rewrite orb_true_r. exists l. split; [by apply conflict_held|done].
  - exists l. split; [|done].
    destruct (find_lock st key) as [[e ex]|] eqn:F; [|by apply held_grant_new].
    destruct (find_inv _ _ _ _ Hi F) as (He & Hkey & Hok).
    assert (Hl : Key l = k) by (destruct Hh as [Hk Hl]; destruct (inv_locks _ Hi _ _ Hk) as (? & ? & ?); by simplify_eq).
    assert (e <> a) by (destruct Hh; eapply other_key; eauto; congruence).
    destruct (_ <? _); [|by apply held_grant_new].
    destruct (bool_decide _ && bool_decide _); [by apply held_write|].
    destruct (if bool_decide (Mode ex = "shared") then shared_owner st ex owner else None)
      as [[b sh]|] eqn:S.
    + destruct (bool_decide _); [|done]. apply shared_owner_Some in S as (m & Em & Hb & Hsh).
      assert (Hbk : Key sh = key).
      { unfold owners_ok in Hok. rewrite Em in Hok. destruct Hok as [_ Hok].
        destruct (Hok _ _ Hb) as (lb & ? & _ & ? & _). simplify_eq. congruence. }
      assert (b <> a) by (destruct Hh; eapply other_key; eauto; congruence).
      destruct (bool_decide _); [apply held_raise; [by apply held_write|done]|].
      destruct (_ || _); [by apply conflict_held|by apply held_grant_new].
    + destruct (_ || _); [by apply conflict_held|by apply held_grant_new].
Qed.

Lemma held_key k a l st : inv st -> held k a l st -> Key l = k.
Proof. intros Hi [Hk Ha]. destruct (inv_locks _ Hi _ _ Hk) as (? & ? & ?). by simplify_eq. Qed.

(** The objects a request on another key may write are not the held one. *)
Lemma found_other k a l st key e ex :
  inv st -> held k a l st -> key <> k -> find_lock st key = Some (e, ex) ->
  e <> a /\ forall o b sh, shared_owner st ex o = Some (b, sh) -> b <> a.
Proof.
  intros Hi Hh Hne F. destruct (find_inv _ _ _ _ Hi F) as (He & Hkey & Hok).
  pose proof (held_key _ _ _ _ Hi Hh) as Hl. destruct Hh as [_ Ha].
  split; [eapply other_key; eauto; congruence|].
  intros o b sh (m & Em & Hb & Hsh)%shared_owner_Some.
  unfold owners_ok in Hok. rewrite Em in Hok. destruct Hok as [_ Hok].
  destruct (Hok _ _ Hb) as (lb & ? & _ & ? & _). simplify_eq.
  eapply other_key; eauto; congruence.
Qed.

Lemma held_release k a l st key owner t now now' :
  inv st -> held k a l st -> Mode l = "exclusive" -> (key = k -> owner <> Owner l) ->
  held k a l (Release key owner t now now' st).2.
Proof.
  intros Hi Hh Hm Ho. unfold Release. destruct (decide (key = k)) as [->|Hne].
  - rewrite (proj1 (held_find _ _ _ _) Hh), Hm. destruct (_ <? now); [done|].
    rewrite (bool_decide_false ("exclusive" = "shared")) by done.
    rewrite bool_decide_false; [done|]. intros <-. by apply Ho.
  - destruct (find_lock st key) as [[e ex]|] eqn:F; [|done].
    destruct (found_other _ _ _ _ _ _ _ Hi Hh Hne F) as [Hea Hsa].
    destruct (find_inv _ _ _ _ Hi F) as (He & _ & Hok).
    destruct (_ <? now); [done|].
    destruct (if bool_decide (Mode ex = "shared") then SharedOwners ex else None) as [m|] eqn:M.
    + destruct (shared_owner st ex owner) as [[b sh]|] eqn:S; [|done].
      pose proof (Hsa _ _ _ S) as Hba. apply shared_owner_Some in S as (m0 & Em & _ & Hb).
      destruct (bool_decide _); [|done]. simplify_eq.
      assert (H1 : inv (write st b (set_count sh (ReentrancyCount sh - 1)))).
      { eapply inv_write; eauto. exact (inv_owners _ Hi b sh Hb). }
      set (st1 := write st b _) in *.
      assert (Hh1 : held k a l st1) by (by apply held_write).
      destruct (0 <? _); [done|]. destruct (heap st1 !! e) as [ex1|] eqn:A1; [|done].
      assert (Hh2 : held k a l (write st1 e (set_owners ex1 (delete owner m)))) by (by apply held_write).
      destruct (bool_decide _); [|by apply held_write]. cbn [snd]. apply held_release_lock; [|done|done].
      eapply inv_write; eauto. eapply owners_ok_shrink; [by apply (inv_owners _ H1 e)| |apply delete_subseteq].
      unfold st1 in A1. cbn in A1. rewrite lookup_insert_Some in A1. naive_solver.
    + destruct (bool_decide (Owner ex = owner)); [|done]. destruct (_ && _); [done|].
      destruct (0 <? _); [by apply held_write|]. cbn [snd].
      apply held_release_lock; [|by apply held_write|done]. eapply inv_write; eauto.
Qed.

Lemma held_renew k a l st key owner t ttl now now' :
  inv st -> held k a l st -> Mode l = "exclusive" ->
  exists l', held k a l' (Renew key owner t ttl now now' st).2 /\ ident l' = ident l.
Proof.
  intros Hi Hh Hm. unfold Renew. destruct (decide (key = k)) as [->|Hne].
  - rewrite (proj1 (held_find _ _ _ _) Hh), Hm. destruct (_ <? now); [by eauto|].
    rewrite (bool_decide_false ("exclusive" = "shared")) by done.
    destruct (bool_decide (Owner l = owner)); [|by eauto]. destruct (_ && _); [by eauto|].
    destruct Hh. eexists. split; [split; [done|apply lookup_insert_eq]|done].
  - exists l. split; [|done]. destruct (find_lock st key) as [[e ex]|] eqn:F; [|done].
    destruct (found_other _ _ _ _ _ _ _ Hi Hh Hne F) as [Hea Hsa].
    destruct (_ <? now); [done|].
    destruct (if bool_decide (Mode ex = "shared") then SharedOwners ex else None) as [m|] eqn:M.
    + destruct (shared_owner st ex owner) as [[b sh]|] eqn:S; [|done].
      apply held_raise; [apply held_write; [done|by eapply Hsa]|done].
    + destruct (bool_decide (Owner ex = owner)); [|done]. destruct (_ && _); [done|]. by apply held_write.
Qed.

Lemma held_expire k a l st now now' key :
  inv st -> held k a l st -> now <= ExpiresAt l -> held k a l (expire_key now now' st key).
Proof.
  intros Hi Hh Hn. unfold expire_key. destruct (decide (key = k)) as [->|Hne].
  - rewrite (proj1 (held_find _ _ _ _) Hh). by replace (ExpiresAt l <? now) with false by lia.
  - destruct (find_lock st key) as [[e ex]|]; [|done]. destruct (_ <? now); [|done].
    by apply held_drop_lock.
Qed.

Lemma held_evict k a l st cid now' key :
  inv st -> held k a l st -> Mode l = "exclusive" -> ClientID l <> cid ->
  held k a l (evict_key cid now' st key).
Proof.
  intros Hi Hh Hm Hc. unfold evict_key. destruct (decide (key = k)) as [->|Hne].
  - rewrite (proj1 (held_find _ _ _ _) Hh), Hm, bool_decide_false by done. done.
  - destruct (find_lock st key) as [[e ex]|] eqn:F; [|done].
    destruct (found_other _ _ _ _ _ _ _ Hi Hh Hne F) as [Hea _].
    destruct (find_inv _ _ _ _ Hi F) as (He & _ & Hok).
    destruct (bool_decide _); [by apply held_drop_lock|].
    destruct (if bool_decide (Mode ex = "shared") then SharedOwners ex else None) as [m|] eqn:M; [|done].
    destruct (bool_decide (Mode ex = "shared")); [|done].
    destruct (bool_decide _); [|by apply held_write]. apply held_drop_lock; [|by apply held_write|done].
    eapply inv_write; eauto. eapply owners_ok_shrink; eauto. apply map_filter_subseteq.
Qed.

Lemma foldl_held {A} k a l (f : InMemoryStore -> A -> InMemoryStore) (P : InMemoryStore -> Prop) xs st :
  (forall st x, inv st -> P st -> held k a l st -> inv (f st x) /\ P (f st x) /\ held k a l (f st x)) ->
  inv st -> P st -> held k a l st ->
  inv (foldl f st xs) /\ P (foldl f st xs) /\ held k a l (foldl f st xs).
Proof.
  intros Hf. revert st. induction xs as [|x xs IH]; intros st Hi HP Hh; cbn; [done|].
  destruct (Hf st x Hi HP Hh) as (? & ? & ?). auto.
Qed.

(** Heartbeats only leave the table. *)
Lemma grantNext_heartbeats k now st : heartbeats (grantNextWaiterLocked k now st) = heartbeats st.
Proof. unfold grantNextWaiterLocked. by destruct (waiters st !! k) as [[|? ?]|]. Qed.

Lemma expire_heartbeats now now' st k : heartbeats (expire_key now now' st k) = heartbeats st.
Proof.
  unfold expire_key. destruct (find_lock st k) as [[? ?]|]; [|done]. destruct (_ <? now); [|done].
  cbn. apply (grantNext_heartbeats k now' (with_locks st _)).
Qed.

Lemma evict_heartbeats cid now' st k : heartbeats (evict_key cid now' st k) = heartbeats st.
Proof.
  unfold evict_key. destruct (find_lock st k) as [[? v]|]; [|done].
  destruct (bool_decide _); [apply (grantNext_heartbeats k now' (with_locks st _))|].
  destruct (if bool_decide (Mode v = "shared") then SharedOwners v else None); [|done].
  destruct (bool_decide _); [|done]. apply (grantNext_heartbeats k now' (with_locks (write st _ _) _)).
Qed.

Lemma foldl_heartbeats {A} (f : InMemoryStore -> A -> InMemoryStore) xs st :
  (forall st x, heartbeats (f st x) = heartbeats st) -> heartbeats (foldl f st xs) = heartbeats st.
Proof. intros Hf. revert st. induction xs as [|x xs IH]; intros st; cbn; [done|]. by rewrite IH. Qed.

Lemma held_clean k a l st now now' ks1 cids ks2 :
  inv st -> held k a l st -> Mode l = "exclusive" -> now <= ExpiresAt l ->
  (forall t, heartbeats st !! ClientID l = Some t -> now - t <= seconds 5) ->
  held k a l (clean now now' ks1 cids ks2 st).
Proof.
  intros Hi Hh Hm Hn Hb. unfold clean.
  set (alive := fun s => forall t, heartbeats s !! ClientID l = Some t -> now - t <= seconds 5).
  destruct (foldl_held k a l (expire_key now now') alive ks1 st) as (H1 & H2 & H3); auto.
  { intros s x ? Hs ?. splits; [by apply expire_key_inv| |by apply held_expire].
    intros t. rewrite expire_heartbeats. apply Hs. }
  destruct (foldl_held k a l (evict_client now now' ks2) alive cids (foldl (expire_key now now') st ks1))
    as (_ & _ & ?); auto.
  intros s cid His Hs Hhs. unfold evict_client. destruct (heartbeats s !! cid) as [t|] eqn:T; [|done].
  destruct (seconds 5 <? now - t) eqn:Old; [|done]. boolify.
  assert (Hc : ClientID l <> cid) by (intros <-; specialize (Hs _ T); lia).
  set (s' := with_heartbeats s _).
  destruct (foldl_held k a l (evict_key cid now') (fun _ => True) (ks2 cid) s') as (? & _ & ?); auto.
  { intros s1 x ? _ ?. splits; [by apply evict_key_inv|done|by apply held_evict]. }
  { by eapply inv_ext. }
  splits; auto. intros t'. rewrite foldl_heartbeats by (intros; apply evict_heartbeats).
  cbn. rewrite lookup_delete_ne by done. apply Hs.
Qed.

Lemma run_held `{SortSlice} k a l st o :
  inv st -> held k a l st -> Mode l = "exclusive" -> respects k l st o ->
  exists l', held k a l' (run o st) /\ ident l' = ident l.
Proof.
  intros Hi Hh Hm Hr. destruct o; cbn [run respects] in *; try by eauto.
  - by apply held_acquire.
  - exists l. unfold acquire_granted. by destruct (granted st !! w).
  - exists l. split; [by apply held_release|done].
  - by apply held_renew.
  - exists l. destruct Hr. split; [by apply held_clean|done].
Qed.

(** ** Deadlock detection *)

Section Cycle.
Context (st : InMemoryStore) (now : Z) (target : string).

(** [current] waits, directly, for a lock of [o] that has not expired. *)
Definition waits (current o : string) : Prop :=
  current <> "" /\ exists key a lock,
    waitingFor st !! current = Some key /\ locks st !! key = Some a /\ heap st !! a = Some lock /\
    now <= ExpiresAt lock /\ o = Owner lock.

Lemma waits_next current o : waits current o <-> current <> "" /\ next_wait st now current = Some o.
Proof.
  unfold waits, next_wait, find_lock. apply and_iff_compat_l. split.
  - intros (key & a & lock & -> & Hk & Ha & Ht & ->). cbn. rewrite Hk. cbn. rewrite Ha. cbn.
    by replace (ExpiresAt lock <? now) with false by lia.
  - destruct (waitingFor st !! current) as [key|]; cbn; [|done].
    destruct (locks st !! key) as [a|] eqn:Hk; cbn; [|done].
    destruct (heap st !! a) as [lock|] eqn:Ha; cbn; [|done].
    destruct (ExpiresAt lock <? now) eqn:Ht; [done|]. intros [= <-].
    exists key, a, lock. splits; try done. lia.
Qed.

(** The target is [n] waits away, and not nearer. *)
Fixpoint hit (n : nat) (c : string) : Prop :=
  match n with
  | O => c = target
  | S n => c <> target /\ exists o, waits c o /\ hit n o
  end.

Lemma hit_unique n m c : hit n c -> hit m c -> n = m.
Proof.
  revert m c. induction n as [|n IH]; intros [|m] c; cbn; try naive_solver.
  intros (_ & o & [_ Ho]%waits_next & H1) (_ & o' & [_ Ho']%waits_next & H2). simplify_eq. f_equal. eauto.
Qed.

Lemma hit_rtc c : rtc waits c target -> exists n, hit n c.
Proof.
  intros H. remember target as t. induction H as [c|c o t Hw H IH]; subst; [by exists O|].
  destruct (IH eq_refl) as [n Hn]. destruct (decide (c = target)); [by exists O|].
  exists (S n). cbn. eauto.
Qed.

(** The waiting owners on the way to the target are distinct. *)
Lemma hit_size n c : hit n c ->
  exists X : gset string, size X = n /\ X ⊆ dom (waitingFor st) /\
    forall x, x ∈ X -> exists m, (m <= n)%nat /\ hit m x.
Proof.
  revert c. induction n as [|n IH]; intros c Hc; [exists ∅; set_solver|].
  pose proof Hc as (Hne & o & [Hc0 Ho]%waits_next & Hn). destruct (IH _ Hn) as (X & HX & Hsub & Hhit).
  exists ({[c]} ∪ X). splits.
  - rewrite size_union, size_singleton; [lia|].
    apply disjoint_singleton_l. intros HcX. destruct (Hhit _ HcX) as (m & Hm & Hcm).
    pose proof (hit_unique _ _ _ Hc Hcm). lia.
  - apply union_subseteq. split; [|done]. apply singleton_subseteq_l, elem_of_dom.
    unfold next_wait in Ho. destruct (waitingFor st !! c); [eauto|done].
  - intros x [->%elem_of_singleton|Hx]%elem_of_union; [eauto|].
    destruct (Hhit _ Hx) as (m & ? & ?). exists m. split; [lia|done].
Qed.

Lemma walk_hits fuel visited n c :
  target <> "" -> hit n c -> (n < fuel)%nat -> target ∈ visited ->
  (forall v, v ∈ visited -> v = target \/ exists m, (n < m)%nat /\ hit m v) ->
  cycle_walk fuel st now target visited c = true.
Proof.
  intros Ht. revert visited n c. induction fuel as [|fuel IH]; intros visited n c Hn Hf Hin Hv; [lia|].
  cbn. destruct n as [|n].
  - cbn in Hn. subst. by rewrite bool_decide_false, bool_decide_true, bool_decide_true.
  - pose proof Hn as (Hne & o & [Hc Ho]%waits_next & Hn'). rewrite bool_decide_false by done.
    rewrite bool_decide_false.
    + rewrite Ho. apply (IH _ n); [done|lia|set_solver|].
      intros v [->%elem_of_singleton|Hvv]%elem_of_union; [right; exists (S n); auto with lia|].
      destruct (Hv _ Hvv) as [->|(m & ? & ?)]; [by left|right; exists m; auto with lia].
    + intros Hcv. destruct (Hv _ Hcv) as [->|(m & Hm & Hcm)]; [done|].
      pose proof (hit_unique _ _ _ Hn Hcm). lia.
Qed.

Lemma walk_rtc fuel visited c :
  cycle_walk fuel st now target visited c = true -> rtc waits c target.
Proof.
  revert visited c. induction fuel as [|fuel IH]; intros visited c; cbn; [done|].
  destruct (bool_decide_reflect (c = "")); [done|].
  destruct (bool_decide (c ∈ visited)); [intros H%bool_decide_eq_true; subst; constructor|].
  destruct (next_wait st now c) as [o|] eqn:E; [|done].
  intros H%IH. eapply rtc_l; [|done]. by apply waits_next.
Qed.

Lemma hasCycle_spec start :
  target <> "" -> hasCycleLocked st now start target = true <-> rtc waits start target.
Proof.
  intros Ht. split; [apply walk_rtc|]. intros [n Hn]%hit_rtc.
  destruct (hit_size _ _ Hn) as (X & HX & Hsub & _). apply subseteq_size in Hsub.
  rewrite size_dom in Hsub. eapply walk_hits; eauto; [lia|set_solver|].
  intros v ->%elem_of_singleton. by left.
Qed.
End Cycle.

(** ** Properties *)

Section Properties.
Context `{SortSlice}.

Lemma highest_first w q : Sorted before (w :: q) -> forall v, v ∈ w :: q -> w_priority v <= w_priority w.
Proof.
  intros Hs%Sorted_StronglySorted; [|apply _]. intros v [->|Hv]%elem_of_cons; [lia|].
  inversion Hs as [|? ? _ Hw]; subst. rewrite Forall_forall in Hw. by apply Hw.
Qed.

(** In every reachable state, distinct lock objects carry distinct
    fencing tokens, and a lock object that an operation creates carries a
    token larger than every token issued before. *)
Theorem fencing_tokens_increase st o a l :
  reachable st -> heap st !! a = None -> heap (run o st) !! a = Some l ->
  (forall b lb, heap st !! b = Some lb -> FencingToken lb < FencingToken l) /\
  (forall b c lb lc, heap st !! b = Some lb -> heap st !! c = Some lc ->
     FencingToken lb = FencingToken lc -> b = c).
Proof.
  intros Hr Ha Hl. pose proof (reachable_inv _ Hr) as Hi. pose proof (run_inv o _ Hi) as Hi'.
  apply (inv_tokens _ Hi') in Hl as [_ El]. split.
  - intros b lb [Hb Eb]%(inv_tokens _ Hi).
    assert (~ (a < next st)%nat) by (intros Hlt%(inv_alloced _ Hi); rewrite Ha in Hlt; by destruct Hlt).
    lia.
  - intros b c lb lc [_ Eb]%(inv_tokens _ Hi) [_ Ec]%(inv_tokens _ Hi). lia.
Qed.

(** C28: An exclusive lease is not taken over: while it is unexpired, an
    operation of the store other than a release by its owner, or a cleaner
    tick after its client's heartbeat went stale, leaves the same lock
    object, with the same owner and token, as the entry of its key. *)
Theorem exclusive_lease_stable st o k a l :
  reachable st -> held k a l st -> Mode l = "exclusive" -> respects k l st o ->
  exists l', held k a l' (run o st) /\ Owner l' = Owner l /\ ClientID l' = ClientID l /\
    FencingToken l' = FencingToken l.
Proof.
  intros Hr%reachable_inv Hh Hm Ho.
  destruct (run_held _ _ _ _ _ Hr Hh Hm Ho) as (l' & Hh' & (_ & ? & ? & ? & _)%ident_eq). eauto.
Qed.

(** Deadlock detection is exact: a request of [target] that conflicts
    with a lock of [start] is refused as a deadlock if and only if [start]
    already waits, through a chain of unexpired locks, for [target]. *)
Theorem deadlock_check_exact st now start target :
  target <> "" ->
  hasCycleLocked st now start target = true <-> rtc (waits st now) start target.
Proof. apply hasCycle_spec. Qed.

(** When the owner of an exclusive lock releases it for the last time
    and requests are waiting, the lock goes at once to a waiting request of
    the highest priority, with a fresh token, and the grant is delivered to
    that request's channel. *)
Theorem release_grants_highest_priority st key owner t now now' a ex v q :
  reachable st -> held key a ex st -> Mode ex = "exclusive" -> Owner ex = owner ->
  now <= ExpiresAt ex -> ReentrancyCount ex = 1 -> (t <= 0 \/ t = FencingToken ex) ->
  waiters st !! key = Some (v :: q) ->
  let r := Release key owner t now now' st in
  r.1 = inl true /\
  exists w b l, w ∈ v :: q /\ (forall u, u ∈ v :: q -> w_priority u <= w_priority w) /\
    held key b l r.2 /\ Owner l = w_owner w /\ ClientID l = w_clientID w /\
    FencingToken l = tokenCounter st + 1 /\ granted r.2 !! wid w = Some b.
Proof.
  intros Hr%reachable_inv Hh Hm <- Hn Hc Ht Hq r. unfold r, Release.
  rewrite (proj1 (held_find _ _ _ _) Hh), Hm, Hc.
  replace (ExpiresAt ex <? now) with false by lia.
  rewrite (bool_decide_false ("exclusive" = "shared")), bool_decide_true by done.
  replace ((0 <? t) && negb (FencingToken ex =? t)) with false by lia.
  change (0 <? 1 - 1) with false. cbn [fst snd].
  split; [done|]. exists v, (next st), (new_lock st key (w_owner v) (w_clientID v) (w_mode v) now' (w_ttl v)).
  unfold release_lock, grantNextWaiterLocked. cbn [waiters with_locks write with_heap].
  rewrite Hq. splits; try done; cbn.
  - set_solver.
  - apply highest_first. by apply (inv_queues _ Hr key).
  - split; apply lookup_insert_eq.
  - apply lookup_insert_eq.
Qed.
End Properties.

(** ** Sample runs *)

Definition run_all (os : list op) : InMemoryStore := foldl (fun st o => run o st) NewInMemoryStore os.

Lemma reachable_run_all os : reachable (run_all os).
Proof.
  unfold run_all. generalize reachable_init. generalize NewInMemoryStore.
  induction os as [|o os IH]; intros st Hst; cbn; [done|]. apply IH. by constructor.
Qed.

(** Alice holds the key; Bob, then Carol with a higher priority, wait. *)
Definition contended : list op :=
  [ OpAcquire "k" "alice" "c1" 100 0 0 "" 0 0;
    OpAcquire "k" "bob" "c2" 100 50 1 "exclusive" 1 1;
    OpAcquire "k" "carol" "c3" 100 50 7 "exclusive" 2 2 ].

Definition alice_lock : Lock := mkLock "k" "alice" "c1" 1 1 100 "exclusive" None 0.
Definition bob_waits : waiter := mkWaiter 0 "bob" "c2" 100 1 "exclusive".
Definition carol_waits : waiter := mkWaiter 1 "carol" "c3" 100 7 "exclusive".

Lemma alice_held : held "k" 0%nat alice_lock (run_all contended).
Proof. split; vm_compute; reflexivity. Qed.

Lemma fencing_tokens_increase_witness :
  exists l, heap (run (OpAcquire "j" "dave" "c4" 10 0 0 "shared" 3 3) (run_all contended)) !! 1%nat = Some l /\
    forall b lb, heap (run_all contended) !! b = Some lb -> FencingToken lb < FencingToken l.
Proof.
  eexists. split; [vm_compute; reflexivity|].
  apply (fencing_tokens_increase (run_all contended)
           (OpAcquire "j" "dave" "c4" 10 0 0 "shared" 3 3) 1%nat).
  - apply reachable_run_all.
  - vm_compute. reflexivity.
  - vm_compute. reflexivity.
Defined.

Lemma exclusive_lease_stable_witness :
  exists l', held "k" 0%nat l' (run (OpAcquire "k" "dave" "c4" 10 0 0 "shared" 3 3) (run_all contended)) /\
    Owner l' = "alice" /\ ClientID l' = "c1" /\ FencingToken l' = 1.
Proof.
  apply (exclusive_lease_stable (run_all contended)
           (OpAcquire "k" "dave" "c4" 10 0 0 "shared" 3 3) "k" 0%nat alice_lock).
  - apply reachable_run_all.
  - exact alice_held.
  - reflexivity.
  - cbn. lia.
Defined.

Lemma release_grants_highest_priority_witness :
  exists w b l, w ∈ [carol_waits; bob_waits] /\
    (forall u, u ∈ [carol_waits; bob_waits] -> w_priority u <= w_priority w) /\
    held "k" b l (Release "k" "alice" 1 9 9 (run_all contended)).2 /\ Owner l = w_owner w /\
    ClientID l = w_clientID w /\ FencingToken l = 2 /\
    granted (Release "k" "alice" 1 9 9 (run_all contended)).2 !! wid w = Some b.
Proof.
  refine (proj2 (release_grants_highest_priority (run_all contended) "k" "alice" 1 9 9 0%nat
           alice_lock carol_waits [bob_waits] _ alice_held eq_refl eq_refl _ eq_refl _ _)).
  - apply reachable_run_all.
  - cbn. lia.
  - right. reflexivity.
  - vm_compute. reflexivity.
Defined.

(** Bob holds [b] and waits for Alice's [a]: Alice's request for [b] closes
    the cycle. *)
Definition crossing : list op :=
  [ OpAcquire "a" "alice" "c1" 100 0 0 "exclusive" 0 0;
    OpAcquire "b" "bob" "c2" 100 0 0 "exclusive" 1 1;
    OpAcquire "a" "bob" "c2" 100 50 0 "exclusive" 2 2 ].

Lemma deadlock_check_exact_witness :
  rtc (waits (run_all crossing) 3) "bob" "alice".
Proof.
  apply (deadlock_check_exact (run_all crossing) 3 "bob" "alice"); [discriminate|].
  vm_compute. reflexivity.
Defined.

(** ** What the code does and should not *)

(** A mode other than [shared] and [exclusive] excludes nobody: the second
    request replaces the first lock, unexpired, in the table. *)
Theorem unknown_mode_does_not_exclude :
  let st := run_all [OpAcquire "k" "alice" "c1" 100 0 0 "write" 0 0] in
  exists b l, AcquireAdvanced "k" "bob" "c2" 100 "write" 1 1 st =
    (Granted b, run (OpAcquire "k" "bob" "c2" 100 0 0 "write" 1 1) st) /\
    held "k" b l (run (OpAcquire "k" "bob" "c2" 100 0 0 "write" 1 1) st) /\ Owner l = "bob".
Proof. eexists 1%nat, _. split; [reflexivity|]. split; [split; vm_compute; reflexivity|reflexivity]. Qed.

(** A shared request joins a shared lock that has expired and revives it:
    the first owner, whose lease ended at 10, can renew at 60. *)
Theorem expired_shared_lock_revived :
  let st := run_all [OpAcquire "k" "alice" "c1" 10 0 0 "shared" 0 0;
                     OpAcquire "k" "bob" "c2" 100 0 0 "shared" 50 50] in
  (Renew "k" "alice" 0 100 60 60 st).1 = inl true.
Proof. vm_compute. reflexivity. Qed.

(** The owner that took a shared lock first and released it is still treated
    as its holder: its next request, though exclusive, is granted while
    another shared owner holds the lock. *)
Theorem released_shared_owner_still_reenters :
  let st := run_all [OpAcquire "k" "alice" "c1" 100 0 0 "shared" 0 0;
                     OpAcquire "k" "bob" "c2" 100 0 0 "shared" 1 1;
                     OpRelease "k" "alice" 0 2 2] in
  exists m, SharedOwners <$> (heap st !! 0%nat) = Some (Some m) /\ m !! "alice" = None /\
    is_Some (m !! "bob") /\
    (AcquireAdvanced "k" "alice" "c1" 100 "exclusive" 3 3 st).1 = Granted 0%nat.
Proof.
  eexists. split; [vm_compute; reflexivity|]. splits; try (vm_compute; reflexivity).
  vm_compute. eauto.
Qed.

(** A stale heartbeat of the first owner of a shared lock drops the lock of
    the other shared owners too: an exclusive request is then granted while
    Bob's shared lease runs. *)
Theorem heartbeat_drops_other_shared_owners :
  let st := run_all [OpAcquire "k" "alice" "c1" (seconds 100) 0 0 "shared" 0 0;
                     OpAcquire "k" "bob" "c2" (seconds 100) 0 0 "shared" 1 1;
                     OpPing "c1" 0; OpPing "c2" (seconds 6);
                     OpClean (seconds 6) (seconds 6) ["k"] ["c1"; "c2"] (fun _ => ["k"])] in
  ExpiresAt <$> (heap st !! 1%nat) = Some (1 + seconds 100) /\
  (AcquireAdvanced "k" "dave" "c4" 1 "exclusive" (seconds 7) (seconds 7) st).1 = Granted 2%nat.
Proof. split; vm_compute; reflexivity. Qed.

(** A waiter whose timeout fires after the lock was granted to it reports a
    timeout, and the lock stays granted to it. *)
Theorem timeout_after_grant_keeps_lock :
  let st := run_all (contended ++ [OpRelease "k" "alice" 1 9 9]) in
  let r := acquire_timeout "k" "carol" 1 st in
  r.1 = ErrTimeout "k" /\ exists l, find_lock r.2 "k" = Some (1%nat, l) /\ Owner l = "carol".
Proof. split; [reflexivity|]. eexists. split; vm_compute; reflexivity. Qed.

(** The token counter is restored from the unexpired saved locks only: a
    store that issued token 7 and reloads its table after that lock expired
    issues token 1 again. *)
Theorem reload_forgets_tokens :
  let saved := [("k", mkLock "k" "alice" "c1" 1 7 100 "exclusive" None 0)] in
  let st := loadFromFile 200 saved NewInMemoryStore in
  FencingToken <$> (heap (Acquire "k" "bob" "c2" 100 200 200 st).2 !! 0%nat) = Some 1.
Proof. vm_compute. reflexivity. Qed.
