(* ===== verification/GoPath.v ===== *)
(** * Go's [path.Match]

    The shell pattern matcher of the standard library, on byte sequences:
    [*] matches any run of bytes other than a slash, [?] one character other
    than a slash, [[...]] a character class, a backslash escapes.  [None] is
    [ErrBadPattern]. *)

From S2P Require Import Prelude GoStrings.
Local Open Scope char_scope.
Local Open Scope list_scope.

Definition slash : ascii := "/".

(** ** [utf8.DecodeRuneInString]: the character and its width *)

Definition byte_val (c : ascii) : Z := Z.of_N (N_of_ascii c).

Definition rune_error : Z := 65533.

Definition continuation (lo hi : Z) (c : ascii) : bool :=
  ((lo <=? byte_val c) && (byte_val c <=? hi))%Z.

Definition low6 (c : ascii) : Z := Z.land (byte_val c) 63.

Definition DecodeRune (s : bytes) : Z * nat :=
  match s with
  | [] => (rune_error, 0)
  | a :: s =>
      let x := byte_val a in
      if (x <? 128)%Z then (x, 1)
      else if ((194 <=? x) && (x <=? 223))%Z then
        match s with
        | b :: _ => if continuation 128 191 b then (Z.land x 31 * 64 + low6 b, 2%nat)%Z else (rune_error, 1)
        | _ => (rune_error, 1)
        end
      else if ((224 <=? x) && (x <=? 239))%Z then
        let lo := if (x =? 224)%Z then 160%Z else 128%Z in
        let hi := if (x =? 237)%Z then 159%Z else 191%Z in
        match s with
        | b :: c :: _ =>
            if continuation lo hi b && continuation 128 191 c
            then (Z.land x 15 * 4096 + low6 b * 64 + low6 c, 3%nat)%Z else (rune_error, 1)
        | _ => (rune_error, 1)
        end
      else if ((240 <=? x) && (x <=? 244))%Z then
        let lo := if (x =? 240)%Z then 144%Z else 128%Z in
        let hi := if (x =? 244)%Z then 143%Z else 191%Z in
        match s with
        | b :: c :: d :: _ =>
            if continuation lo hi b && continuation 128 191 c && continuation 128 191 d
            then (Z.land x 7 * 262144 + low6 b * 4096 + low6 c * 64 + low6 d, 4%nat)%Z
            else (rune_error, 1)
        | _ => (rune_error, 1)
        end
      else (rune_error, 1)
  end.

(** ** Matching one chunk *)

Definition getEsc (chunk : bytes) : option (Z * bytes) :=
  match chunk with
  | [] => None
  | c :: rest =>
      if bool_decide (c = "-") || bool_decide (c = "]") then None
      else
        let chunk := if bool_decide (c = backslash) then rest else chunk in
        match chunk with
        | [] => None
        | _ =>
            let '(r, n) := DecodeRune chunk in
            if (r =? rune_error)%Z && (n =? 1)%nat then None
            else match drop n chunk with [] => None | nchunk => Some (r, nchunk) end
        end
  end.

(** The ranges of a class, up to its closing bracket: whether [r] is in one. *)
Fixpoint match_ranges (fuel : nat) (r : Z) (hit : bool) (nrange : nat) (chunk : bytes) :
    option (bool * bytes) :=
  match fuel with
  | O => None
  | S f =>
      match chunk with
      | "]" :: rest => if (0 <? nrange)%nat then Some (hit, rest) else None
      | _ =>
          '(lo, c1) ← getEsc chunk;
          match c1 with
          | "-" :: c2 =>
              '(hi, c3) ← getEsc c2;
              match_ranges f r (hit || ((lo <=? r) && (r <=? hi))%Z) (S nrange) c3
          | _ => match_ranges f r (hit || (lo =? r)%Z) (S nrange) c1
          end
      end
  end.

(** After a mismatch the rest of the chunk is only checked to be well formed:
    the subject is [None]. *)
Fixpoint matchChunk (fuel : nat) (chunk : bytes) (s : option bytes) : option (option bytes) :=
  match fuel with
  | O => None
  | S f =>
      match chunk with
      | [] => Some s
      | c :: rest =>
          let s := match s with Some [] => None | _ => s end in
          if bool_decide (c = "[") then
            let '(r, s1) := match s with
                            | Some b => let '(r, n) := DecodeRune b in (r, Some (drop n b))
                            | None => (0%Z, None)
                            end in
            let '(negated, rest) := match rest with "^" :: rest' => (true, rest') | _ => (false, rest) end in
            '(hit, rest') ← match_ranges (S (length rest)) r false 0 rest;
            matchChunk f rest' (if Bool.eqb hit negated then None else s1)
          else if bool_decide (c = "?") then
            let s1 := match s with
                      | Some (b :: bs) =>
                          if bool_decide (b = slash) then None
                          else Some (drop (DecodeRune (b :: bs)).2 (b :: bs))
                      | _ => None
                      end in
            matchChunk f rest s1
          else
            let lit := if bool_decide (c = backslash)
                       then match rest with [] => None | d :: rest' => Some (d, rest') end
                       else Some (c, rest) in
            '(d, rest') ← lit;
            let s1 := match s with
                      | Some (b :: bs) => if bool_decide (d = b) then Some bs else None
                      | _ => None
                      end in
            matchChunk f rest' s1
      end
  end.

Definition match_chunk (chunk s : bytes) : option (option bytes) :=
  matchChunk (S (length chunk)) chunk (Some s).

(** ** The pattern *)

(** The length of the next chunk: up to a star outside a class. *)
Fixpoint chunk_length (inrange : bool) (p : bytes) : nat :=
  match p with
  | [] => 0
  | c :: p' =>
      if bool_decide (c = "*") && negb inrange then 0
      else if bool_decide (c = backslash) then
        match p' with [] => 1 | _ :: p'' => S (S (chunk_length inrange p'')) end
      else if bool_decide (c = "[") then S (chunk_length true p')
      else if bool_decide (c = "]") then S (chunk_length false p')
      else S (chunk_length inrange p')
  end.

Definition is_star (c : ascii) : bool := bool_decide (c = "*").

Definition scanChunk (pattern : bytes) : bool * bytes * bytes :=
  let star := match pattern with "*" :: _ => true | _ => false end in
  let p := drop_while is_star pattern in
  let n := chunk_length false p in
  (star, take n p, drop n p).

(** Skip one to [length name] bytes, not past a slash, to where the chunk
    matches: [Some (Some t)] leaves [t], [Some None] is no such place. *)
Fixpoint skip_match (chunk name : bytes) (last : bool) : option (option bytes) :=
  match name with
  | [] => Some None
  | b :: name' =>
      if bool_decide (b = slash) then Some None
      else
        r ← match_chunk chunk name';
        match r with
        | Some t => if last && negb (bool_decide (t = [])) then skip_match chunk name' last else Some (Some t)
        | None => skip_match chunk name' last
        end
  end.

(** The rest of a pattern that did not match must still be well formed. *)
Fixpoint check_rest (fuel : nat) (pattern : bytes) : option bool :=
  match fuel with
  | O => Some false
  | S f =>
      match pattern with
      | [] => Some false
      | _ => let '(_, chunk, rest) := scanChunk pattern in
             _ ← match_chunk chunk []; check_rest f rest
      end
  end.

Fixpoint match_pattern (fuel : nat) (pattern name : bytes) : option bool :=
  match fuel with
  | O => None
  | S f =>
      match pattern with
      | [] => Some (bool_decide (name = []))
      | _ =>
          let '(star, chunk, rest) := scanChunk pattern in
          if star && bool_decide (chunk = []) then Some (negb (bool_decide (slash ∈ name)))
          else
            r ← match_chunk chunk name;
            let last := bool_decide (rest = []) in
            match r with
            | Some t =>
                if bool_decide (t = []) || negb last then match_pattern f rest t
                else if star then
                  r' ← skip_match chunk name last;
                  match r' with Some t' => match_pattern f rest t' | None => check_rest f rest end
                else check_rest f rest
            | None =>
                if star then
                  r' ← skip_match chunk name last;
                  match r' with Some t' => match_pattern f rest t' | None => check_rest f rest end
                else check_rest f rest
            end
      end
  end.

(** Every round consumes a star or a byte of the pattern. *)
Definition path_Match (pattern name : string) : option bool :=
  match_pattern (S (String.length pattern)) (byt pattern) (byt name).

Example path_Match_star : path_Match "user:*" "user:42" = Some true.
Proof. vm_compute. reflexivity. Qed.
Example path_Match_slash : path_Match "user:*" "user:4/2" = Some false.
Proof. vm_compute. reflexivity. Qed.
Example path_Match_mid : path_Match "a*b?[c-e]" "axxbbyd" = Some true.
Proof. vm_compute. reflexivity. Qed.
Example path_Match_bad : path_Match "a[" "a" = None.
Proof. vm_compute. reflexivity. Qed.
Example path_Match_bad_rest : path_Match "b*[" "a" = None.
Proof. vm_compute. reflexivity. Qed.
Example path_Match_class : path_Match "[^a]b" "cb" = Some true.
Proof. vm_compute. reflexivity. Qed.
