(* ===== verification/Cache.v ===== *)
(** * The in-memory LRU cache ([cache/pkg/cache/cache.go])

    A map from keys to elements of a doubly linked list that is kept in
    recency order, most recent first.  Elements are objects with an identity:
    [items] and the list share them.  Instants are nanoseconds; the zero time
    of an entry without expiry is [None].  The values and the optional
    backend, reached over HTTP, are parameters. *)

From S2P Require Import Prelude GoStrings GoPath.
Local Open Scope string_scope.
Local Open Scope Z_scope.

Section Cache.
Context {V : Type}.

Record cacheEntry := mkEntry { ce_key : string; ce_value : V; ce_expiration : option Z }.

Record InMemoryCache := mkCache {
  items : gmap string nat;
  elems : gmap nat cacheEntry;   (** the elements of [evictList] *)
  evictList : list nat;          (** their order, front first *)
  fresh : nat;
  maxKeys : Z }.

(** The limit from the environment variable, 10000 by default. *)
Definition NewInMemoryCache (envMax : string) : InMemoryCache :=
  let limit := if bool_decide (envMax = "") then 10000
               else match Atoi envMax with
                    | Some val => if 0 <? val then val else 10000
                    | None => 10000
                    end in
  mkCache ∅ ∅ [] 0 limit.

(** ** [container/list] *)

Definition unlink (e : nat) (l : list nat) : list nat := filter (fun x => x <> e) l.

Definition MoveToFront (e : nat) (c : InMemoryCache) : InMemoryCache :=
  mkCache (items c) (elems c) (e :: unlink e (evictList c)) (fresh c) (maxKeys c).

(** [evictList.Remove(elem)] and [delete(c.items, key)]. *)
Definition remove (key : string) (e : nat) (c : InMemoryCache) : InMemoryCache :=
  mkCache (delete key (items c)) (delete e (elems c)) (unlink e (evictList c)) (fresh c) (maxKeys c).

Definition expired (now : Z) (en : cacheEntry) : bool :=
  match ce_expiration en with Some t => t <? now | None => false end.

(** ** Operations *)

(** The first critical section of [Get]: a hit, or a miss. *)
Definition get_lookup (key : string) (now : Z) (c : InMemoryCache) : option V * InMemoryCache :=
  match items c !! key with
  | None => (None, c)
  | Some e =>
      match elems c !! e with
      | None => (None, c)
      | Some en =>
          if expired now en then (None, remove key e c)
          else (Some (ce_value en), MoveToFront e c)
      end
  end.

Definition evictOldestNoLock (c : InMemoryCache) : InMemoryCache :=
  match last (evictList c) with
  | Some e => match elems c !! e with Some en => remove (ce_key en) e c | None => c end
  | None => c
  end.

Definition setLocalNoLock (key : string) (value : V) (ttl now : Z) (c : InMemoryCache) : InMemoryCache :=
  let expiration := if 0 <? ttl then Some (now + ttl) else None in
  match items c !! key with
  | Some e =>
      let c' := MoveToFront e c in
      mkCache (items c') (<[e := mkEntry key value expiration]> (elems c')) (evictList c') (fresh c') (maxKeys c')
  | None =>
      let e := fresh c in
      let c' := mkCache (<[key := e]> (items c)) (<[e := mkEntry key value expiration]> (elems c))
                  (e :: evictList c) (S e) (maxKeys c) in
      if (0 <? maxKeys c') && (maxKeys c' <? Z.of_nat (length (evictList c'))) then evictOldestNoLock c' else c'
  end.

Definition minute : Z := 60 * 10 ^ 9.

(** [Get]: on a miss the lock is released, the backend is asked, and a second
    critical section stores what it returns for a minute. *)
Definition Get (backend : option (string -> option V)) (key : string) (now now' : Z) (c : InMemoryCache) :
    option V * InMemoryCache :=
  match get_lookup key now c with
  | (Some v, c') => (Some v, c')
  | (None, c') =>
      match backend with
      | None => (None, c')
      | Some fetchFromBackend =>
          match fetchFromBackend key with
          | Some val => (Some val, setLocalNoLock key val minute now' c')
          | None => (None, c')
          end
      end
  end.

Definition Set_ (key : string) (value : V) (ttl now : Z) (c : InMemoryCache) : InMemoryCache :=
  setLocalNoLock key value ttl now c.

Definition Delete (key : string) (c : InMemoryCache) : InMemoryCache :=
  match items c !! key with Some e => remove key e c | None => c end.

Definition Clear (c : InMemoryCache) : InMemoryCache :=
  mkCache ∅ ∅ [] (fresh c) (maxKeys c).

(** The keys a pattern selects. *)
Definition pattern_selects (pattern k : string) : bool :=
  if bool_decide (path_Match pattern k = Some true) then true
  else if HasSuffix pattern "*" then HasPrefix k (TrimSuffix pattern "*")
  else bool_decide (k = pattern).

Definition Keys (c : InMemoryCache) : list string := (map_to_list (items c)).*1.

Definition DeletePattern (pattern : string) (c : InMemoryCache) : InMemoryCache :=
  foldl (fun c k => if pattern_selects pattern k then Delete k c else c) c (Keys c).

Definition evict_if_expired (now : Z) (c : InMemoryCache) (k : string) : InMemoryCache :=
  match items c !! k with
  | Some e => match elems c !! e with
              | Some en => if expired now en then remove k e c else c
              | None => c
              end
  | None => c
  end.

Definition EvictExpired (now : Z) (c : InMemoryCache) : InMemoryCache :=
  foldl (evict_if_expired now) c (Keys c).

End Cache.

Arguments cacheEntry V : clear implicits.
Arguments InMemoryCache V : clear implicits.

(** ** Theorems *)

Local Open Scope string_scope.
Local Open Scope Z_scope.
Local Open Scope list_scope.

(** ** The reference cache *)

Section Reference.
Context {V : Type}.
Local Abbreviation entry := (cacheEntry V).

Fixpoint ref_find (k : string) (l : list entry) : option entry :=
  match l with
  | [] => None
  | en :: l => if bool_decide (ce_key en = k) then Some en else ref_find k l
  end.

Definition ref_remove (k : string) (l : list entry) : list entry :=
  filter (fun en => ce_key en <> k) l.

Definition ref_get (k : string) (now : Z) (l : list entry) : option V * list entry :=
  match ref_find k l with
  | None => (None, l)
  | Some en => if expired now en then (None, ref_remove k l)
               else (Some (ce_value en), en :: ref_remove k l)
  end.

Definition ref_set (limit : Z) (k : string) (v : V) (ttl now : Z) (l : list entry) : list entry :=
  let en := mkEntry k v (if 0 <? ttl then Some (now + ttl) else None) in
  match ref_find k l with
  | Some _ => en :: ref_remove k l
  | None => if (0 <? limit) && (limit <? Z.of_nat (length (en :: l))) then removelast (en :: l) else en :: l
  end.

Definition ref_keep (p : entry -> bool) (l : list entry) : list entry := filter (fun en => p en = true) l.

Lemma ref_find_Some k l en :
  NoDup (ce_key <$> l) -> en ∈ l -> ce_key en = k -> ref_find k l = Some en.
Proof.
  induction l as [|x l IH]; cbn; [by intros _ ?%elem_of_nil|].
  rewrite NoDup_cons. intros [Hx Hl] Hin Hk. destruct (bool_decide_reflect (ce_key x = k)) as [E|E].
  - apply elem_of_cons in Hin as [->|Hin]; [done|]. exfalso. apply Hx. rewrite E, <- Hk.
    by apply list_elem_of_fmap_2.
  - apply elem_of_cons in Hin as [->|Hin]; [done|]. auto.
Qed.

Lemma ref_find_None k (l : list entry) :
  (forall en, en ∈ l -> ce_key en <> k) -> ref_find k l = None.
Proof.
  induction l as [|x l IH]; cbn; [done|]. intros H.
  rewrite bool_decide_false by (apply H; left). apply IH. intros en Hen. apply H. by right.
Qed.

Lemma ref_find_elem k (l : list entry) en : ref_find k l = Some en -> en ∈ l /\ ce_key en = k.
Proof.
  induction l as [|x l IH]; cbn; [done|]. destruct (bool_decide_reflect (ce_key x = k)).
  - intros [= ->]. split; [left|done].
  - intros [? ?]%IH. split; [by right|done].
Qed.

(** ** Representation *)

Record wf (c : InMemoryCache V) : Prop := mkWf {
  wf_nodup : NoDup (evictList c);
  wf_elems : forall e, e ∈ evictList c <-> is_Some (elems c !! e);
  wf_items : forall k e, items c !! k = Some e <-> exists en, elems c !! e = Some en /\ ce_key en = k;
  wf_fresh : forall e, is_Some (elems c !! e) -> (e < fresh c)%nat }.

(** The entries in recency order. *)
Definition contents (c : InMemoryCache V) : list entry := omap (fun e => elems c !! e) (evictList c).

Lemma elem_of_contents c en : wf c -> en ∈ contents c <-> exists e, elems c !! e = Some en.
Proof.
  intros Hw. unfold contents. rewrite list_elem_of_omap. split; [naive_solver|].
  intros [e He]. exists e. split; [|done]. apply (wf_elems _ Hw). eauto.
Qed.

Lemma wf_inj c e e' en en' :
  wf c -> elems c !! e = Some en -> elems c !! e' = Some en' -> ce_key en = ce_key en' -> e = e'.
Proof.
  intros Hw He He' Hk.
  assert (H1 : items c !! ce_key en = Some e) by (apply (wf_items _ Hw); eauto).
  assert (H2 : items c !! ce_key en = Some e') by (apply (wf_items _ Hw); eauto).
  by simplify_eq.
Qed.

Lemma omap_nodup c l :
  wf c -> NoDup l -> NoDup (ce_key <$> omap (fun e => elems c !! e) l).
Proof.
  intros Hw. induction 1 as [|e l He Hl IH]; cbn; [constructor|].
  destruct (elems c !! e) as [en|] eqn:E; cbn; [|done]. constructor; [|done].
  intros (en' & Hk & (e' & Hin & He')%list_elem_of_omap)%list_elem_of_fmap.
  apply He. by rewrite (wf_inj c e e' en en').
Qed.

Lemma contents_nodup c : wf c -> NoDup (ce_key <$> contents c).
Proof. intros Hw. apply omap_nodup; [done|]. apply (wf_nodup _ Hw). Qed.

Lemma contents_find c k e en :
  wf c -> items c !! k = Some e -> elems c !! e = Some en -> ref_find k (contents c) = Some en.
Proof.
  intros Hw Hk He. apply ref_find_Some; [by apply contents_nodup| |].
  - apply elem_of_contents; eauto.
  - apply (wf_items _ Hw) in Hk as (en' & ? & ?). by simplify_eq.
Qed.

Lemma contents_miss c k : wf c -> items c !! k = None -> ref_find k (contents c) = None.
Proof.
  intros Hw Hk. apply ref_find_None. intros en [e He]%elem_of_contents Hen; [|done].
  assert (items c !! k = Some e) by (apply (wf_items _ Hw); eauto). by simplify_eq.
Qed.

Lemma items_find c k e :
  wf c -> items c !! k = Some e -> exists en, elems c !! e = Some en /\ ce_key en = k /\ e ∈ evictList c.
Proof.
  intros Hw Hk. pose proof Hk as (en & He & Hen)%(wf_items _ Hw). exists en.
  splits; [done|done|]. apply (wf_elems _ Hw). eauto.
Qed.

(** Unlinking the element of a key removes the entry of that key. *)
Lemma omap_unlink c e en l :
  wf c -> elems c !! e = Some en ->
  omap (fun x => elems c !! x) (unlink e l) = ref_remove (ce_key en) (omap (fun x => elems c !! x) l).
Proof.
  intros Hw He. unfold unlink, ref_remove. induction l as [|x l IH]; [done|].
  rewrite filter_cons. cbn. destruct (decide (x <> e)) as [Hx|Hx].
  - cbn. destruct (elems c !! x) as [en'|] eqn:E; [|done].
    rewrite filter_cons_True; [by rewrite IH|]. intros Hk. apply Hx. by eapply wf_inj.
  - assert (x = e) as -> by (by apply dec_stable in Hx). rewrite He, filter_cons_False by naive_solver. done.
Qed.

Lemma elem_of_unlink (x e : nat) (l : list nat) : x ∈ unlink e l <-> x <> e /\ x ∈ l.
Proof. unfold unlink. by rewrite list_elem_of_filter. Qed.

(** ** The primitives implement the reference *)

Lemma remove_spec c k e en :
  wf c -> items c !! k = Some e -> elems c !! e = Some en ->
  wf (remove k e c) /\ contents (remove k e c) = ref_remove k (contents c).
Proof.
  intros Hw Hk He. destruct (items_find _ _ _ Hw Hk) as (? & ? & Hen & _). simplify_eq. split.
  - destruct Hw as [Hn Hel Hit Hf]. constructor; cbn.
    + by apply NoDup_filter.
    + intros x. rewrite elem_of_unlink, lookup_delete_is_Some, Hel. naive_solver.
    + intros k' x. rewrite lookup_delete_Some, Hit. setoid_rewrite lookup_delete_Some. split.
      * intros (Hne & en' & Hx & Hkx). exists en'. splits; try done. intros ->. simplify_eq.
      * intros (en' & (Hne & Hx) & Hkx). split; [|eauto]. intros <-.
        apply Hne. by eapply (wf_inj c e x).
    + intros x [_ Hx]%lookup_delete_is_Some. auto.
  - unfold contents. cbn [evictList elems remove]. rewrite <- (omap_unlink c e en) by done.
    apply omap_ext_in. intros x [Hx _]%elem_of_unlink. by rewrite lookup_delete_ne.
Qed.

Lemma touch_spec c k e en en' :
  wf c -> items c !! k = Some e -> elems c !! e = Some en -> ce_key en' = k ->
  let c' := mkCache (items c) (<[e := en']> (elems c)) (e :: unlink e (evictList c)) (fresh c) (maxKeys c) in
  wf c' /\ contents c' = en' :: ref_remove k (contents c).
Proof.
  intros Hw Hk He Hen' c'. destruct (items_find _ _ _ Hw Hk) as (en0 & He0 & Hen & _).
  rewrite He in He0. injection He0 as <-. split.
  - destruct Hw as [Hn Hel Hit Hf]. constructor; cbn.
    + constructor; [|by apply NoDup_filter]. rewrite elem_of_unlink. naive_solver.
    + intros x. rewrite elem_of_cons, elem_of_unlink, lookup_insert_is_Some, Hel.
      destruct (decide (x = e)); naive_solver.
    + intros k' x. rewrite Hit. setoid_rewrite lookup_insert_Some.
      destruct (decide (e = x)) as [<-|]; [|naive_solver]. split.
      * intros (en0 & E0 & Hk0). rewrite He in E0. injection E0 as <-.
        exists en'. split; [by left|congruence].
      * intros (en0 & [[_ <-]|[? _]] & Hk0); [|done]. exists en. split; [done|congruence].
    + intros x. rewrite lookup_insert_is_Some. intros [<-|[_ ?]]; eauto.
  - unfold contents. cbn [evictList elems]. cbn. rewrite lookup_insert_eq. f_equal.
    rewrite <- Hen, <- (omap_unlink c e en) by done.
    apply omap_ext_in. intros x [Hx _]%elem_of_unlink. by rewrite lookup_insert_ne.
Qed.

Lemma push_spec c k en :
  wf c -> items c !! k = None -> ce_key en = k ->
  let c' := mkCache (<[k := fresh c]> (items c)) (<[fresh c := en]> (elems c)) (fresh c :: evictList c)
              (S (fresh c)) (maxKeys c) in
  wf c' /\ contents c' = en :: contents c.
Proof.
  intros Hw Hk Hen c'.
  assert (Hf : elems c !! fresh c = None).
  { destruct (elems c !! fresh c) eqn:E; [|done].
    assert (fresh c < fresh c)%nat by (apply (wf_fresh _ Hw); eauto). lia. }
  assert (Hnl : fresh c ∉ evictList c) by (rewrite (wf_elems _ Hw), Hf; by intros []).
  split.
  - destruct Hw as [Hn Hel Hit Hfr]. constructor; cbn.
    + by constructor.
    + intros x. rewrite elem_of_cons, lookup_insert_is_Some, Hel. destruct (decide (x = fresh c)); naive_solver.
    + intros k' x. rewrite lookup_insert_Some, Hit. setoid_rewrite lookup_insert_Some. split.
      * intros [[<- <-]|(Hne & en' & Hx & Hkx)]; [eauto|]. exists en'. split; [|done]. right.
        split; [|done]. intros <-. by simplify_eq.
      * intros (en' & [[<- <-]|(Hne & Hx)] & <-); [by left|]. right. split; [|eauto].
        intros Hkk. assert (items c !! k = Some x) by (apply Hit; eauto). by simplify_eq.
    + intros x. rewrite lookup_insert_is_Some. intros [<-|[_ Hx]]; [lia|]. apply Hfr in Hx. lia.
  - unfold contents. cbn. rewrite lookup_insert_eq. f_equal.
    apply omap_ext_in. intros x Hx. rewrite lookup_insert_ne; [done|]. by intros <-.
Qed.

Lemma removelast_snoc {A} (l : list A) x : removelast (l ++ [x]) = l.
Proof. apply removelast_last. Qed.

Lemma ref_remove_last (l : list entry) en :
  NoDup (ce_key <$> (l ++ [en])) -> ref_remove (ce_key en) (l ++ [en]) = l.
Proof.
  unfold ref_remove. rewrite filter_app, filter_cons_False by naive_solver. cbn.
  rewrite app_nil_r, fmap_app, NoDup_app. intros (_ & Hd & _).
  induction l as [|x l IH]; [done|]. rewrite filter_cons_True.
  - f_equal. apply IH. intros k Hk. apply Hd. cbn. by right.
  - intros E. apply (Hd (ce_key x)); [cbn; left|]. cbn. rewrite E. left.
Qed.

Lemma evict_spec c :
  wf c -> evictList c <> [] ->
  wf (evictOldestNoLock c) /\ contents (evictOldestNoLock c) = removelast (contents c).
Proof.
  intros Hw Hne. unfold evictOldestNoLock.
  destruct (last (evictList c)) as [e|] eqn:L; [|by apply last_None in L].
  apply last_Some in L as [l' Hl].
  assert (He : is_Some (elems c !! e)) by (apply (wf_elems _ Hw); rewrite Hl; set_solver).
  destruct He as [en He]. rewrite He.
  assert (Hk : items c !! ce_key en = Some e) by (apply (wf_items _ Hw); eauto).
  destruct (remove_spec _ _ _ _ Hw Hk He) as [Hw' Hc']. split; [done|]. rewrite Hc'.
  pose proof (contents_nodup _ Hw) as Hnd. unfold contents in *. rewrite Hl in *.
  rewrite omap_app in *. cbn in *. rewrite He in *.
  rewrite removelast_snoc. by apply ref_remove_last.
Qed.

(** ** The operations implement the reference *)

Lemma contents_length c : wf c -> length (contents c) = length (evictList c).
Proof.
  intros Hw. unfold contents.
  assert (Hall : forall e, e ∈ evictList c -> is_Some (elems c !! e)) by (intros e; apply (wf_elems _ Hw)).
  revert Hall. generalize (evictList c). intros l. induction l as [|e l IH]; [done|].
  intros Hall. cbn. destruct (Hall e) as [x ->]; [left|]. cbn. f_equal. apply IH.
  intros e' He'. apply Hall. by right.
Qed.

Lemma get_spec c k now :
  wf c -> wf (get_lookup k now c).2 /\ maxKeys (get_lookup k now c).2 = maxKeys c /\
  (get_lookup k now c).1 = (ref_get k now (contents c)).1 /\
  contents (get_lookup k now c).2 = (ref_get k now (contents c)).2.
Proof.
  intros Hw. unfold get_lookup, ref_get. destruct (items c !! k) as [e|] eqn:Hk.
  - destruct (items_find _ _ _ Hw Hk) as (en & He & Hen & _).
    rewrite He, (contents_find _ _ _ _ Hw Hk He). destruct (expired now en).
    + destruct (remove_spec _ _ _ _ Hw Hk He). done.
    + destruct (touch_spec _ _ _ _ en Hw Hk He Hen) as [H1 H2]. rewrite insert_id in H1, H2 by done. done.
  - by rewrite contents_miss.
Qed.

Lemma set_spec c k v ttl now :
  wf c -> wf (setLocalNoLock k v ttl now c) /\ maxKeys (setLocalNoLock k v ttl now c) = maxKeys c /\
  contents (setLocalNoLock k v ttl now c) = ref_set (maxKeys c) k v ttl now (contents c).
Proof.
  intros Hw. unfold setLocalNoLock, ref_set. set (en := mkEntry k v _).
  destruct (items c !! k) as [e|] eqn:Hk.
  - destruct (items_find _ _ _ Hw Hk) as (en0 & He & Hen & _).
    rewrite (contents_find _ _ _ _ Hw Hk He).
    by destruct (touch_spec _ _ _ _ en Hw Hk He eq_refl).
  - rewrite contents_miss by done. destruct (push_spec _ _ en Hw Hk eq_refl) as [H1 H2].
    set (c' := mkCache _ _ _ _ _) in *. cbn [maxKeys] in *.
    assert (Hlen : length (evictList c') = length (en :: contents c))
      by (by rewrite <- H2, contents_length).
    rewrite Hlen. change (maxKeys c') with (maxKeys c). destruct (_ && _); [|done].
    destruct (evict_spec c' H1) as [H3 H4]; [done|]. rewrite <- H2. splits; try done.
    unfold evictOldestNoLock. destruct (last _); [|done]. by destruct (elems c' !! _).
Qed.

Lemma filter_ext_in (P Q : entry -> Prop) `{!forall x, Decision (P x), !forall x, Decision (Q x)} (l : list entry) :
  (forall x, x ∈ l -> P x <-> Q x) -> filter P l = filter Q l.
Proof.
  induction l as [|x l IH]; intros HPQ; [done|]. rewrite !filter_cons.
  rewrite IH by (intros; apply HPQ; by right).
  specialize (HPQ x ltac:(left)). do 2 destruct (decide _); naive_solver.
Qed.

Lemma filter_all (P : entry -> Prop) `{!forall x, Decision (P x)} (l : list entry) :
  (forall x, x ∈ l -> P x) -> filter P l = l.
Proof.
  induction l as [|x l IH]; intros HP; [done|]. rewrite filter_cons_True by (apply HP; left).
  f_equal. apply IH. intros; apply HP; by right.
Qed.

(** Removing, key by key, the entries a test selects. *)
Definition delete_if (sel : entry -> bool) (c : InMemoryCache V) (k : string) : InMemoryCache V :=
  match items c !! k with
  | Some e => match elems c !! e with
              | Some en => if sel en then remove k e c else c
              | None => c
              end
  | None => c
  end.

Lemma delete_if_spec sel c k :
  wf c -> wf (delete_if sel c k) /\ maxKeys (delete_if sel c k) = maxKeys c /\
  contents (delete_if sel c k) = filter (fun en => ce_key en = k -> sel en = false) (contents c).
Proof.
  intros Hw. unfold delete_if. destruct (items c !! k) as [e|] eqn:Hk.
  - destruct (items_find _ _ _ Hw Hk) as (en & He & Hen & _). rewrite He.
    assert (Huniq : forall x, x ∈ contents c -> ce_key x = k -> x = en).
    { intros x [e' He']%elem_of_contents Hx; [|done].
      assert (e' = e) by (eapply wf_inj; eauto; congruence). by simplify_eq. }
    destruct (sel en) eqn:Hs.
    + destruct (remove_spec _ _ _ _ Hw Hk He) as [H1 H2]. splits; try done. rewrite H2.
      apply filter_ext_in. intros x Hx. split; [done|]. intros Hf Hkx.
      rewrite (Huniq x Hx Hkx) in Hf. rewrite Hf in Hs by done. done.
    + splits; try done. symmetry. apply filter_all. intros x Hx Hkx. by rewrite (Huniq x Hx Hkx).
  - splits; try done. symmetry. apply filter_all. intros x [e He]%elem_of_contents Hx; [|done].
    assert (items c !! k = Some e) by (apply (wf_items _ Hw); eauto). by simplify_eq.
Qed.

Lemma foldl_delete_if sel ks c :
  wf c -> wf (foldl (delete_if sel) c ks) /\ maxKeys (foldl (delete_if sel) c ks) = maxKeys c /\
  contents (foldl (delete_if sel) c ks) =
    filter (fun en => ce_key en ∈ ks -> sel en = false) (contents c).
Proof.
  revert c. induction ks as [|k ks IH]; intros c Hw; cbn.
  - splits; try done. symmetry. apply filter_all. by intros x _ ?%elem_of_nil.
  - destruct (delete_if_spec sel c k Hw) as (H1 & H2 & H3). destruct (IH _ H1) as (H4 & H5 & H6).
    splits; [done|congruence|]. rewrite H6, H3, list_filter_filter. apply filter_ext_in.
    intros x _. rewrite elem_of_cons. naive_solver.
Qed.

Lemma elem_of_Keys (c : InMemoryCache V) k : k ∈ Keys c <-> is_Some (items c !! k).
Proof.
  unfold Keys. rewrite list_elem_of_fmap. split.
  - intros ([k' e] & -> & H%elem_of_map_to_list). eauto.
  - intros [e He]. exists (k, e). by rewrite elem_of_map_to_list.
Qed.

(** Over all the keys, the selected entries go and the others stay. *)
Lemma delete_all_spec sel c :
  wf c -> wf (foldl (delete_if sel) c (Keys c)) /\ maxKeys (foldl (delete_if sel) c (Keys c)) = maxKeys c /\
  contents (foldl (delete_if sel) c (Keys c)) = ref_keep (fun en => negb (sel en)) (contents c).
Proof.
  intros Hw. destruct (foldl_delete_if sel (Keys c) c Hw) as (H1 & H2 & H3). splits; [done|done|].
  rewrite H3. apply filter_ext_in. intros x [e He]%elem_of_contents; [|done].
  rewrite negb_true_iff. split; [|done]. intros H. apply H, elem_of_Keys. exists e.
  apply (wf_items _ Hw). eauto.
Qed.

Lemma foldl_ext_wf (f g : InMemoryCache V -> string -> InMemoryCache V) ks c :
  wf c -> (forall c k, wf c -> f c k = g c k) -> (forall c k, wf c -> wf (g c k)) ->
  foldl f c ks = foldl g c ks.
Proof.
  intros Hw Hfg Hg. revert c Hw. induction ks as [|k ks IH]; intros c Hw; cbn; [done|].
  rewrite Hfg by done. auto.
Qed.

Lemma DeletePattern_spec c p :
  wf c -> wf (DeletePattern p c) /\ maxKeys (DeletePattern p c) = maxKeys c /\
  contents (DeletePattern p c) = ref_keep (fun en => negb (pattern_selects p (ce_key en))) (contents c).
Proof.
  intros Hw. unfold DeletePattern.
  rewrite (foldl_ext_wf _ (delete_if (fun en => pattern_selects p (ce_key en)))) by
    (done || (intros; by apply delete_if_spec) ||
     (intros c' k Hw'; unfold delete_if, Delete; destruct (items c' !! k) as [e|] eqn:E;
      [destruct (items_find _ _ _ Hw' E) as (en & -> & -> & _); done | by destruct (pattern_selects p k)])).
  by apply delete_all_spec.
Qed.

Lemma EvictExpired_spec c now :
  wf c -> wf (EvictExpired now c) /\ maxKeys (EvictExpired now c) = maxKeys c /\
  contents (EvictExpired now c) = ref_keep (fun en => negb (expired now en)) (contents c).
Proof. apply (delete_all_spec (expired now)). Qed.

Lemma Delete_spec c k :
  wf c -> wf (Delete k c) /\ maxKeys (Delete k c) = maxKeys c /\
  contents (Delete k c) = ref_remove k (contents c).
Proof.
  intros Hw. unfold Delete. destruct (items c !! k) as [e|] eqn:Hk.
  - destruct (items_find _ _ _ Hw Hk) as (en & He & Hen & _).
    by destruct (remove_spec _ _ _ _ Hw Hk He).
  - splits; try done. symmetry. apply filter_all. intros x [e He]%elem_of_contents Hx; [|done].
    assert (items c !! k = Some e) by (apply (wf_items _ Hw); eauto). by simplify_eq.
Qed.

Lemma wf_empty n m : wf (mkCache ∅ ∅ [] n m).
Proof.
  constructor; cbn; [constructor| | |]; intros *; rewrite ?lookup_empty.
  - split; [by intros ?%elem_of_nil|by intros []].
  - split; [done|]. by intros (en & [=] & _).
  - by intros [].
Qed.

(** ** Sequences of operations *)

(** The critical sections, in any interleaving: [CFill] is the second section
    of a [Get] that missed. *)
Inductive cop :=
  | CGet (k : string) (now : Z)
  | CFill (k : string) (v : V) (now : Z)
  | CSet (k : string) (v : V) (ttl now : Z)
  | CDelete (k : string)
  | CClear
  | CDeletePattern (p : string)
  | CEvictExpired (now : Z)
  | CKeys.

Inductive answer := AVal (v : option V) | AKeys (ks : gset string) | ADone.

Definition impl_step (o : cop) (c : InMemoryCache V) : answer * InMemoryCache V :=
  match o with
  | CGet k now => let '(v, c') := get_lookup k now c in (AVal v, c')
  | CFill k v now => (ADone, setLocalNoLock k v minute now c)
  | CSet k v ttl now => (ADone, Set_ k v ttl now c)
  | CDelete k => (ADone, Delete k c)
  | CClear => (ADone, Clear c)
  | CDeletePattern p => (ADone, DeletePattern p c)
  | CEvictExpired now => (ADone, EvictExpired now c)
  | CKeys => (AKeys (list_to_set (Keys c)), c)
  end.

Definition ref_step (limit : Z) (o : cop) (l : list entry) : answer * list entry :=
  match o with
  | CGet k now => let '(v, l') := ref_get k now l in (AVal v, l')
  | CFill k v now => (ADone, ref_set limit k v minute now l)
  | CSet k v ttl now => (ADone, ref_set limit k v ttl now l)
  | CDelete k => (ADone, ref_remove k l)
  | CClear => (ADone, [])
  | CDeletePattern p => (ADone, ref_keep (fun en => negb (pattern_selects p (ce_key en))) l)
  | CEvictExpired now => (ADone, ref_keep (fun en => negb (expired now en)) l)
  | CKeys => (AKeys (list_to_set (ce_key <$> l)), l)
  end.

Fixpoint answers {S} (step : cop -> S -> answer * S) (os : list cop) (s : S) : list answer * S :=
  match os with
  | [] => ([], s)
  | o :: os => let '(a, s1) := step o s in let '(r, s2) := answers step os s1 in (a :: r, s2)
  end.

Lemma step_spec o c :
  wf c -> wf (impl_step o c).2 /\ maxKeys (impl_step o c).2 = maxKeys c /\
  (impl_step o c).1 = (ref_step (maxKeys c) o (contents c)).1 /\
  contents (impl_step o c).2 = (ref_step (maxKeys c) o (contents c)).2.
Proof.
  intros Hw. destruct o; cbn [impl_step ref_step].
  - destruct (get_spec c k now Hw) as (H1 & H2 & H3 & H4).
    destruct (get_lookup k now c), (ref_get k now (contents c)). cbn in *. by subst.
  - by destruct (set_spec c k v minute now Hw) as (? & ? & ?).
  - by destruct (set_spec c k v ttl now Hw) as (? & ? & ?).
  - by destruct (Delete_spec c k Hw) as (? & ? & ?).
  - splits; try done. apply wf_empty.
  - by destruct (DeletePattern_spec c p Hw) as (? & ? & ?).
  - by destruct (EvictExpired_spec c now Hw) as (? & ? & ?).
  - splits; try done. cbn. f_equal. apply set_eq. intros k.
    rewrite !elem_of_list_to_set, elem_of_Keys, list_elem_of_fmap. split.
    + intros [e (en & He & <-)%(wf_items _ Hw)]. exists en. split; [done|]. apply elem_of_contents; eauto.
    + intros (en & -> & [e He]%elem_of_contents); [|done]. exists e. apply (wf_items _ Hw). eauto.
Qed.

Lemma answers_spec os c :
  wf c -> (answers impl_step os c).1 = (answers (ref_step (maxKeys c)) os (contents c)).1 /\
  contents (answers impl_step os c).2 = (answers (ref_step (maxKeys c)) os (contents c)).2 /\
  wf (answers impl_step os c).2 /\ maxKeys (answers impl_step os c).2 = maxKeys c.
Proof.
  revert c. induction os as [|o os IH]; intros c Hw; cbn; [done|].
  destruct (step_spec o c Hw) as (H1 & H2 & H3 & H4).
  destruct (impl_step o c) as [a c1], (ref_step (maxKeys c) o (contents c)) as [a' l1]. cbn in *. subst.
  destruct (IH c1 H1) as (H5 & H6 & H7 & H8). rewrite H2 in *.
  destruct (answers impl_step os c1), (answers (ref_step (maxKeys c)) os (contents c1)). cbn in *.
  by subst.
Qed.

(** The reference never exceeds its limit. *)
Lemma ref_bounded limit o l :
  0 < limit -> Z.of_nat (length l) <= limit -> Z.of_nat (length (ref_step limit o l).2) <= limit.
Proof.
  intros Hl H.
  assert (Hset : forall k v ttl now, Z.of_nat (length (ref_set limit k v ttl now l)) <= limit).
  { intros. unfold ref_set. destruct (ref_find k l) as [x|] eqn:F.
    - cbn. enough (length (ref_remove k l) < length l)%nat by lia. unfold ref_remove.
      apply ref_find_elem in F as [Hin Hk]. eapply length_filter_lt; naive_solver.
    - replace (0 <? limit) with true by lia. cbn [andb].
      destruct (limit <? _) eqn:E; [|lia]. destruct l as [|x l]; [cbn; lia|].
      rewrite removelast_firstn_len, length_take. cbn in *. lia. }
  assert (Hf : forall P `{!forall x, Decision (P x)}, (length (filter P l) <= length l)%nat)
    by (intros; apply length_filter).
  destruct o; cbn; auto.
  - unfold ref_get. destruct (ref_find k l) as [en|] eqn:F; [|done]. destruct (expired now en); cbn.
    + unfold ref_remove. etrans; [|done]. apply inj_le, Hf.
    + enough (length (ref_remove k l) < length l)%nat by lia.
      apply ref_find_elem in F as [Hin Hk]. eapply length_filter_lt; naive_solver.
  - etrans; [|done]. apply inj_le, Hf.
  - lia.
  - etrans; [|done]. apply inj_le, Hf.
  - etrans; [|done]. apply inj_le, Hf.
Qed.

Lemma ref_answers_bounded limit os l :
  0 < limit -> Z.of_nat (length l) <= limit -> Z.of_nat (length (answers (ref_step limit) os l).2) <= limit.
Proof.
  intros Hl. revert l. induction os as [|o os IH]; intros l H; cbn; [done|].
  pose proof (ref_bounded limit o l Hl H) as Hb. destruct (ref_step limit o l) as [a l1].
  specialize (IH l1 Hb). by destruct (answers (ref_step limit) os l1).
Qed.

Lemma NewInMemoryCache_spec envMax :
  wf (NewInMemoryCache envMax) /\ contents (NewInMemoryCache (V := V) envMax) = [] /\
  0 < maxKeys (NewInMemoryCache (V := V) envMax).
Proof.
  splits; [apply wf_empty|done|]. unfold NewInMemoryCache. cbn.
  destruct (bool_decide _); [lia|]. destruct (Atoi envMax) as [v|]; [|lia]. destruct (0 <? v) eqn:E; lia.
Qed.

(** ** Properties *)

(** C3: The cache implements an LRU cache: from a fresh cache, any sequence
    of operations, in any interleaving of their critical sections, gives the
    answers of the reference (a list of entries, most recent first, whose
    last entry is evicted when a new key exceeds the limit). *)
Theorem cache_refines_lru envMax os :
  let c := NewInMemoryCache envMax in
  (answers impl_step os c).1 = (answers (ref_step (maxKeys c)) os []).1 /\
  contents (answers impl_step os c).2 = (answers (ref_step (maxKeys c)) os []).2.
Proof.
  destruct (NewInMemoryCache_spec envMax) as (Hw & Hc & _).
  destruct (answers_spec os _ Hw) as (H1 & H2 & _). rewrite Hc in H1, H2. split; [exact H1|exact H2].
Qed.

(** After any sequence of operations the linked list and the index
    agree, hold at most [maxKeys] entries, and no key twice. *)
Theorem cache_bounded envMax os :
  let c := (answers impl_step os (NewInMemoryCache envMax)).2 in
  Z.of_nat (length (evictList c)) <= maxKeys c /\ size (items c) = length (evictList c) /\
  NoDup (ce_key <$> contents c).
Proof.
  destruct (NewInMemoryCache_spec envMax) as (Hw & Hc & Hl).
  destruct (answers_spec os _ Hw) as (_ & H2 & H3 & H4). cbn zeta. rewrite Hc in H2. splits.
  - rewrite H4, <- contents_length, H2 by done.
    apply ref_answers_bounded; [done|]. cbn [length]. lia.
  - rewrite <- contents_length by done. symmetry.
    rewrite <- length_map_to_list, <- (length_fmap fst), <- (length_fmap ce_key (contents _)).
    apply Permutation_length, NoDup_Permutation.
    + by apply contents_nodup.
    + apply NoDup_fst_map_to_list.
    + intros k. etrans; [|symmetry; apply elem_of_Keys]. rewrite list_elem_of_fmap. split.
      * intros (en & -> & [e He]%elem_of_contents); [|done]. exists e. apply (wf_items _ H3). eauto.
      * intros [e (en & He & <-)%(wf_items _ H3)]. exists en. split; [done|]. apply elem_of_contents; eauto.
  - by apply contents_nodup.
Qed.

(** A value that was set is found again, in a cache in any state
    operations lead to, until its time to live has passed (forever without
    one) and while nothing else happens. *)
Theorem cache_get_after_set envMax os k v ttl now now' :
  ttl <= 0 \/ now' <= now + ttl ->
  let c := (answers impl_step os (NewInMemoryCache envMax)).2 in
  (get_lookup k now' (Set_ k v ttl now c)).1 = Some v.
Proof.
  intros Ht c. destruct (NewInMemoryCache_spec envMax) as (Hw0 & Hc & Hl).
  destruct (answers_spec os _ Hw0) as (_ & _ & Hw & Hm). fold c in Hw, Hm.
  destruct (set_spec c k v ttl now Hw) as (Hw' & _ & Hs).
  destruct (get_spec _ k now' Hw') as (_ & _ & H1 & _). unfold Set_. rewrite H1, Hs, Hm.
  set (limit := maxKeys _) in *. unfold ref_set.
  assert (He : forall l, (ref_get k now' (mkEntry k v (if 0 <? ttl then Some (now + ttl) else None) :: l)).1 = Some v).
  { intros l. unfold ref_get. cbn. rewrite bool_decide_true by done. unfold expired. cbn.
    destruct (0 <? ttl) eqn:E; [|done]. by replace (now + ttl <? now') with false by lia. }
  destruct (ref_find k (contents c)); [apply He|].
  destruct (_ && _) eqn:E; [|apply He].
  destruct (contents c) as [|x l]; [boolify; cbn [length] in *; lia|].
  change (removelast (?a :: x :: l)) with (a :: removelast (x :: l)).
  apply He.
Qed.

(** Deleting by the pattern [p*] removes every key that starts with [p],
    also those with a slash that shell patterns do not reach, and keeps every
    key the pattern neither matches nor prefixes, with its value and
    recency. *)
Theorem delete_pattern_prefix envMax os p :
  let c := (answers impl_step os (NewInMemoryCache envMax)).2 in
  let c' := DeletePattern (p +:+ "*") c in
  (forall k, HasPrefix k p = true -> items c' !! k = None) /\
  contents c' = ref_keep (fun en => negb (bool_decide (path_Match (p +:+ "*") (ce_key en) = Some true)
                                          || HasPrefix (ce_key en) p)) (contents c).
Proof.
  intros c c'. destruct (NewInMemoryCache_spec envMax) as (Hw0 & _ & _).
  destruct (answers_spec os _ Hw0) as (_ & _ & Hw & _). fold c in Hw.
  destruct (DeletePattern_spec c (p +:+ "*") Hw) as (Hw' & _ & Hc). fold c' in Hw', Hc.
  assert (Hsel : forall k, pattern_selects (p +:+ "*") k =
    bool_decide (path_Match (p +:+ "*") k = Some true) || HasPrefix k p).
  { intros k. unfold pattern_selects. rewrite TrimSuffix_app.
    replace (HasSuffix (p +:+ "*") "*") with true by (symmetry; apply HasSuffix_iff; eauto).
    by destruct (bool_decide _). }
  split.
  - intros k Hk. destruct (items c' !! k) as [e|] eqn:E; [|done].
    destruct (items_find _ _ _ Hw' E) as (en & He & <- & _).
    assert (Hin : en ∈ contents c') by (apply elem_of_contents; eauto).
    rewrite Hc in Hin. unfold ref_keep in Hin. rewrite list_elem_of_filter, Hsel, Hk, orb_true_r in Hin.
    by destruct Hin.
  - rewrite Hc. apply filter_ext_in. intros en _. by rewrite Hsel.
Qed.
End Reference.

(** A cache of two keys: setting a third evicts the least recently used. *)
Lemma cache_get_after_set_witness :
  let c := (answers impl_step [CSet "a" 1 0 0; CSet "b" 2 0 1; CGet "a" 2] (NewInMemoryCache "2")).2 in
  (get_lookup "c" 5 (Set_ "c" 3 10 3 c)).1 = Some 3.
Proof.
  apply (cache_get_after_set "2" [CSet "a" 1 0 0; CSet "b" 2 0 1; CGet "a" 2] "c" 3 10 3 5).
  right. lia.
Defined.

Example lru_evicts_b :
  (answers impl_step [CSet "a" 1 0 0; CSet "b" 2 0 1; CGet "a" 2; CSet "c" 3 0 3; CGet "b" 4; CGet "a" 5]
     (NewInMemoryCache "2")).1 =
  [ADone; ADone; AVal (Some 1); ADone; AVal None; AVal (Some 1)].
Proof. vm_compute. reflexivity. Qed.
