(* ===== verification/Bloom.v ===== *)
(** * The Bloom filter ([cache/pkg/bloom/bloom.go])

    64-bit FNV-1a double hashing over a bit set of 64-bit words.  Indexing
    the word slice out of range panics in Go: it is [None] here, and
    [bloom_exact] shows that it never happens.  The sizing formula of
    [NewBloom] uses [math.Log], and converts floats to [uint64], which Go
    leaves open for values out of range: both are parameters. *)

From Stdlib Require Import SpecFloat.
From S2P Require Import Prelude GoStrings GoPath GoFloat.
Local Open Scope Z_scope.
Local Open Scope list_scope.

(** What the platform decides: the logarithm, and the result of converting a
    float that no [uint64] represents. *)
Class Platform := {
  Log : float64 -> float64;
  out_of_range : float64 -> Z }.

(** The least integer not below a finite float. *)
Definition ceil_Z (x : float64) : option Z :=
  match x with
  | S754_zero _ => Some 0
  | S754_finite s m e =>
      let n := (if s then -1 else 1) * Zpos m in
      Some (if e <? 0 then - (- n / 2 ^ (- e)) else n * 2 ^ e)
  | _ => None
  end.

(** [uint64(math.Ceil(x))] *)
Definition uint64_Ceil `{Platform} (x : float64) : Z :=
  match ceil_Z x with
  | Some z => if (0 <=? z) && (z <? 2 ^ 64) then z else wrapu64 (out_of_range x)
  | None => wrapu64 (out_of_range x)
  end.

(** The constants [math.Ln2] and [math.Ln2 * math.Ln2], rounded where they
    meet a [float64]. *)
Definition ln2_digits : Z := 693147180559945309417232121458176568.
Definition Ln2 : float64 := float_of_ratio ln2_digits (10 ^ 36).
Definition Ln2_squared : float64 := float_of_ratio (ln2_digits * ln2_digits) (10 ^ 72).

Record Bloom := mkBloom { bitset : list Z; m : Z; k : Z; capacity : Z; fpRate : float64 }.

(** At least one bit and one hash function. *)
Definition NewBloom `{Platform} (capacity : Z) (falsePositiveRate : float64) : Bloom :=
  let capacity := if capacity <=? 0 then 1000 else capacity in
  let falsePositiveRate :=
    if fleb falsePositiveRate fzero || fleb (float_of_Z 1) falsePositiveRate
    then float_of_ratio 1 100 else falsePositiveRate in
  let mFloat := fdiv (fmul (fneg (float_of_Z capacity)) (Log falsePositiveRate)) Ln2_squared in
  let m := if uint64_Ceil mFloat <? 1 then 1 else uint64_Ceil mFloat in
  let kFloat := fmul (fdiv (float_of_Z m) (float_of_Z capacity)) Ln2 in
  let k := if uint64_Ceil kFloat <? 1 then 1 else uint64_Ceil kFloat in
  let numWords := wrapu64 (m + 63) / 64 in
  mkBloom (replicate (Z.to_nat numWords) 0) m k capacity falsePositiveRate.

(** ** Hashing ([hash/fnv]) *)

Definition fnv_offset : Z := 14695981039346656037.
Definition fnv_prime : Z := 1099511628211.

Definition fnv_byte (h : Z) (c : ascii) : Z := wrapu64 (Z.lxor h (byte_val c) * fnv_prime).

Definition fnv_write (h : Z) (data : bytes) : Z := foldl fnv_byte h data.

Definition hashFNV (key : string) : Z * Z :=
  let data := byt key in
  let v1 := fnv_write fnv_offset data in
  let v2 := fnv_write (fnv_write fnv_offset ["001"%char]) data in
  (v1, if v2 =? 0 then 1 else v2).

Definition getIndices (b : Bloom) (key : string) : list Z :=
  let '(h1, h2) := hashFNV key in
  map (fun i => wrapu64 (h1 + wrapu64 (Z.of_nat i * h2)) mod m b) (seq 0 (Z.to_nat (k b))).

(** ** Operations *)

(** [b.bitset[idx/64] |= 1 << (idx%64)] *)
Definition set_bit (words : list Z) (idx : Z) : option (list Z) :=
  w ← words !! Z.to_nat (idx / 64);
  Some (<[Z.to_nat (idx / 64) := Z.lor w (Z.shiftl 1 (idx mod 64))]> words).

Fixpoint set_bits (words : list Z) (idxs : list Z) : option (list Z) :=
  match idxs with
  | [] => Some words
  | i :: idxs => words' ← set_bit words i; set_bits words' idxs
  end.

Definition Add (b : Bloom) (key : string) : option Bloom :=
  words ← set_bits (bitset b) (getIndices b key);
  Some (mkBloom words (m b) (k b) (capacity b) (fpRate b)).

Fixpoint test_bits (words : list Z) (idxs : list Z) : option bool :=
  match idxs with
  | [] => Some true
  | i :: idxs =>
      w ← words !! Z.to_nat (i / 64);
      if Z.land w (Z.shiftl 1 (i mod 64)) =? 0 then Some false else test_bits words idxs
  end.

Definition MayContain (b : Bloom) (key : string) : option bool :=
  test_bits (bitset b) (getIndices b key).

Fixpoint AddAll (b : Bloom) (keys : list string) : option Bloom :=
  match keys with
  | [] => Some b
  | key :: keys => b' ← Add b key; AddAll b' keys
  end.

(** ** The set of bits *)

Definition bit (words : list Z) (i : Z) : bool :=
  match words !! Z.to_nat (i / 64) with Some w => Z.testbit w (i mod 64) | None => false end.

Lemma testbit_shiftl_one i j : 0 <= i -> 0 <= j -> Z.testbit (Z.shiftl 1 i) j = (i =? j).
Proof. intros Hi Hj. rewrite Z.shiftl_1_l, Z.pow2_bits_eqb by done. done. Qed.

Lemma land_bit w i : 0 <= i -> (Z.land w (Z.shiftl 1 i) =? 0) = negb (Z.testbit w i).
Proof.
  intros Hi. destruct (Z.testbit w i) eqn:E.
  - apply Z.eqb_neq. intros H. apply (f_equal (fun z => Z.testbit z i)) in H.
    by rewrite Z.land_spec, E, testbit_shiftl_one, Z.eqb_refl, Z.bits_0 in H.
  - apply Z.eqb_eq. apply Z.bits_inj'. intros j Hj.
    rewrite Z.land_spec, testbit_shiftl_one, Z.bits_0 by done.
    destruct (Z.eqb_spec i j) as [<-|]; [by rewrite E|apply andb_false_r].
Qed.

Lemma word_of i j : 0 <= i -> 0 <= j ->
  i = j <-> (i / 64 = j / 64 /\ i mod 64 = j mod 64).
Proof. intros Hi Hj. pose proof (Z.div_mod i 64). pose proof (Z.div_mod j 64). split; [by intros ->|lia]. Qed.

Definition in_range (words : list Z) (i : Z) : Prop := 0 <= i < 64 * Z.of_nat (length words).

Lemma in_range_word words i : in_range words i -> exists w, words !! Z.to_nat (i / 64) = Some w.
Proof.
  intros [H1 H2]. apply lookup_lt_is_Some.
  assert (i / 64 < Z.of_nat (length words)) by (apply Z.div_lt_upper_bound; lia).
  assert (0 <= i / 64) by (apply Z.div_pos; lia). lia.
Qed.

Lemma set_bit_spec words i :
  in_range words i ->
  exists words', set_bit words i = Some words' /\ length words' = length words /\
    forall j, 0 <= j -> bit words' j = bit words j || (i =? j).
Proof.
  intros Hr. destruct (in_range_word _ _ Hr) as [w Hw]. unfold set_bit. rewrite Hw. cbn.
  eexists. split; [reflexivity|]. split; [apply length_insert|]. intros j Hj. unfold bit.
  destruct Hr as [Hi _].
  assert (Hm : 0 <= i mod 64 /\ 0 <= j mod 64) by (split; apply Z.mod_pos_bound; lia).
  destruct (decide (Z.to_nat (i / 64) = Z.to_nat (j / 64))) as [E|E].
  - rewrite <- E, list_lookup_insert_eq by (by eapply lookup_lt_Some). rewrite Hw, Z.lor_spec.
    rewrite testbit_shiftl_one by lia. f_equal. assert (i / 64 = j / 64) by (apply Z2Nat.inj in E; try apply Z.div_pos; lia).
    destruct (Z.eqb_spec i j) as [->|Hne]; [by rewrite Z.eqb_refl|]. apply Z.eqb_neq.
    intros Hmod. apply Hne. by apply word_of.
  - rewrite list_lookup_insert_ne by done. destruct (Z.eqb_spec i j) as [->|]; [done|]. by rewrite orb_false_r.
Qed.

Lemma set_bits_spec words idxs :
  Forall (in_range words) idxs ->
  exists words', set_bits words idxs = Some words' /\ length words' = length words /\
    forall j, 0 <= j -> bit words' j = bit words j || bool_decide (j ∈ idxs).
Proof.
  revert words. induction idxs as [|i idxs IH]; intros words Hr; cbn [set_bits].
  - exists words. splits; try done. intros j _. rewrite bool_decide_false by (by intros ?%elem_of_nil).
    by rewrite orb_false_r.
  - apply Forall_cons in Hr as [Hi Hr]. destruct (set_bit_spec _ _ Hi) as (w1 & H1 & L1 & B1).
    rewrite H1. destruct (IH w1) as (w2 & H2 & L2 & B2).
    { eapply Forall_impl; [exact Hr|]. intros x. unfold in_range. by rewrite L1. }
    exists w2. cbn. splits; [done|congruence|]. intros j Hj. rewrite B2, B1, <- orb_assoc by done. f_equal.
    destruct (Z.eqb_spec i j) as [->|Hne]; cbn.
    + symmetry. apply bool_decide_eq_true. left.
    + apply bool_decide_ext. rewrite elem_of_cons. naive_solver.
Qed.

Lemma test_bits_spec words idxs :
  Forall (in_range words) idxs -> test_bits words idxs = Some (forallb (bit words) idxs).
Proof.
  induction idxs as [|i idxs IH]; intros Hr; cbn [test_bits]; [done|].
  apply Forall_cons in Hr as [Hi Hr]. destruct (in_range_word _ _ Hi) as [w Hw]. rewrite Hw. cbn.
  rewrite land_bit by (apply Z.mod_pos_bound; lia). unfold bit at 1. rewrite Hw.
  destruct (Z.testbit w (i mod 64)); cbn; [by apply IH|done].
Qed.

(** ** Filters *)

Definition wf (b : Bloom) : Prop := 1 <= m b /\ m b <= 64 * Z.of_nat (length (bitset b)).

Lemma getIndices_range b key : wf b -> Forall (in_range (bitset b)) (getIndices b key).
Proof.
  intros [H1 H2]. unfold getIndices. destruct (hashFNV key) as [h1 h2].
  apply Forall_forall. intros i (n & -> & _)%list_elem_of_fmap. unfold in_range.
  pose proof (Z.mod_pos_bound (wrapu64 (h1 + wrapu64 (Z.of_nat n * h2))) (m b)). lia.
Qed.

Lemma uint64_Ceil_range `{Platform} x : 0 <= uint64_Ceil x < 2 ^ 64.
Proof. unfold uint64_Ceil. split_matches; boolify; try apply wrapu64_range. lia. Qed.

Lemma NewBloom_wf `{Platform} n p :
  m (NewBloom n p) <= 2 ^ 64 - 64 -> wf (NewBloom n p) /\ forall i, bit (bitset (NewBloom n p)) i = false.
Proof.
  assert (H1 : 1 <= m (NewBloom n p)).
  { cbn [NewBloom m]. destruct (uint64_Ceil _ <? 1) eqn:E; lia. }
  intros Hm. split.
  - split; [done|]. change (bitset (NewBloom n p)) with
      (replicate (Z.to_nat (wrapu64 (m (NewBloom n p) + 63) / 64)) 0).
    generalize dependent (m (NewBloom n p)). intros m'. intros H1 Hm.
    rewrite length_replicate. unfold wrapu64. rewrite Z.mod_small by lia.
    assert (0 <= (m' + 63) / 64) by (apply Z.div_pos; lia).
    pose proof (Z.div_mod (m' + 63) 64). pose proof (Z.mod_pos_bound (m' + 63) 64). lia.
  - intros i. unfold bit. destruct (_ !! _) eqn:E; [|done].
    apply lookup_replicate in E as [-> _]. apply Z.bits_0.
Qed.

(** The bits that a list of keys sets. *)
Definition sets (b : Bloom) (keys : list string) (i : Z) : Prop := exists key, key ∈ keys /\ i ∈ getIndices b key.

#[global] Instance sets_dec b keys i : Decision (sets b keys i).
Proof.
  refine (cast_if (decide (Exists (fun key => i ∈ getIndices b key) keys)));
    unfold sets; rewrite <- Exists_exists; assumption.
Defined.

Lemma AddAll_spec b keys :
  wf b ->
  exists b', AddAll b keys = Some b' /\ wf b' /\ m b' = m b /\ k b' = k b /\
    forall i, 0 <= i -> bit (bitset b') i = bit (bitset b) i || bool_decide (sets b keys i).
Proof.
  revert b. induction keys as [|key keys IH]; intros b Hw; cbn [AddAll].
  - exists b. splits; try done. intros i _. rewrite bool_decide_false; [by rewrite orb_false_r|].
    by intros (? & ?%elem_of_nil & _).
  - unfold Add. destruct (set_bits_spec _ _ (getIndices_range b key Hw)) as (ws & -> & L & B). cbn.
    destruct (IH (mkBloom ws (m b) (k b) (capacity b) (fpRate b))) as (b' & -> & Hw' & Hm & Hk & B').
    { destruct Hw. split; cbn; [done|lia]. }
    exists b'. splits; try done. intros i Hi. rewrite B', B, <- orb_assoc by done. f_equal.
    destruct (bool_decide_reflect (i ∈ getIndices b key)) as [Hin|Hin]; cbn.
    + symmetry. apply bool_decide_eq_true. exists key. split; [left|done].
    + apply bool_decide_ext. unfold sets. setoid_rewrite elem_of_cons.
      change (getIndices (mkBloom ws (m b) (k b) (capacity b) (fpRate b))) with (getIndices b). naive_solver.
Qed.

Lemma getIndices_ext b b' key : m b' = m b -> k b' = k b -> getIndices b' key = getIndices b key.
Proof. unfold getIndices. by intros -> ->. Qed.

(** ** Properties *)

(** A filter built from no keys and then given [keys] never panics, and
    answers yes on a key exactly when every one of the key's bits was set by
    some added key. *)
Theorem bloom_exact `{Platform} n p keys key :
  let b0 := NewBloom n p in
  m b0 <= 2 ^ 64 - 64 ->
  exists b r, AddAll b0 keys = Some b /\ MayContain b key = Some r /\
    (r = true <-> forall i, i ∈ getIndices b0 key -> sets b0 keys i).
Proof.
  intros b0 Hm. destruct (NewBloom_wf n p Hm) as [Hw H0]. fold b0 in Hw, H0.
  destruct (AddAll_spec b0 keys Hw) as (b & Hb & Hwb & Em & Ek & B).
  exists b, (forallb (bit (bitset b)) (getIndices b key)). split; [done|]. split.
  - apply test_bits_spec, getIndices_range. done.
  - rewrite (getIndices_ext b0 b) by done. rewrite forallb_forall.
    pose proof (getIndices_range b0 key Hw) as Hr. rewrite Forall_forall in Hr.
    setoid_rewrite <- list_elem_of_In. apply forall_proper. intros i. split; intros Hi' Hi; specialize (Hi' Hi).
    + rewrite B, H0 in Hi' by (by apply Hr). by apply bool_decide_eq_true in Hi'.
    + rewrite B, H0 by (by apply Hr). by apply bool_decide_eq_true.
Qed.

(** No false negatives: a key that was added is always reported as
    possibly present, whatever else was added before or after. *)
Theorem bloom_no_false_negatives `{Platform} n p keys key :
  m (NewBloom n p) <= 2 ^ 64 - 64 -> key ∈ keys ->
  (b ← AddAll (NewBloom n p) keys; MayContain b key) = Some true.
Proof.
  intros Hm Hin. destruct (NewBloom_wf n p Hm) as [Hw H0].
  destruct (AddAll_spec _ keys Hw) as (b & Hb & Hwb & Em & Ek & B). rewrite Hb.
  change (MayContain b key = Some true). unfold MayContain. rewrite test_bits_spec by (by apply getIndices_range). f_equal.
  rewrite (getIndices_ext (NewBloom n p) b) by done. apply forallb_forall.
  intros i Hi%list_elem_of_In. pose proof (getIndices_range _ key Hw) as Hr. rewrite Forall_forall in Hr.
  rewrite B, H0 by (by apply Hr). apply bool_decide_eq_true. by exists key.
Qed.

(** A platform whose logarithm is right at [0.01], the default rate. *)
Definition sample_platform : Platform :=
  {| Log := fun _ => fneg (float_of_ratio 4605170185988091 (10 ^ 15)); out_of_range := fun _ => 0 |}.

Definition sample_bloom : Bloom := @NewBloom sample_platform 1000 (float_of_ratio 1 100).

(** 1000 keys at one percent take 9586 bits and 7 hash functions. *)
Example sample_bloom_size : m sample_bloom = 9586 /\ k sample_bloom = 7 /\ length (bitset sample_bloom) = 150%nat.
Proof. vm_compute. done. Qed.

Lemma bloom_exact_witness :
  exists b r, AddAll sample_bloom ["a"; "b"]%string = Some b /\ MayContain b "c"%string = Some r /\
    (r = true <-> forall i, i ∈ getIndices sample_bloom "c"%string -> sets sample_bloom ["a"; "b"]%string i).
Proof.
  apply (@bloom_exact sample_platform 1000 (float_of_ratio 1 100) ["a"; "b"]%string "c"%string).
  vm_compute. discriminate.
Defined.

Lemma bloom_no_false_negatives_witness :
  (b ← AddAll sample_bloom ["a"; "b"]%string; MayContain b "b"%string) = Some true.
Proof.
  apply (@bloom_no_false_negatives sample_platform 1000 (float_of_ratio 1 100) ["a"; "b"]%string "b"%string).
  - vm_compute. discriminate.
  - right. left.
Defined.

Example bloom_absent :
  (b ← AddAll sample_bloom ["a"; "b"]%string; MayContain b "c"%string) = Some false.
Proof. vm_compute. reflexivity. Qed.

Example fnv_of_a : fnv_write fnv_offset (byt "a") = 12638187200555641996.
Proof. vm_compute. reflexivity. Qed.
