(* ===== verification/RateLimiter.v ===== *)
(** * The sliding window rate limiter ([gate/pkg/ratelimit/sliding_window.go])

    Per key, the instants of the requests that were let through, oldest
    first.  Instants and durations are nanoseconds. *)

From stdpp Require Import sorting.
From S2P Require Import Prelude GoStrings.
Local Open Scope Z_scope.
Local Open Scope list_scope.

Record SlidingWindowLimiter := mkLimiter {
  limit : Z;
  window : Z;
  requests : gmap string (list Z) }.

Definition second : Z := 10 ^ 9.

Definition NewSlidingWindowLimiter (limit window : Z) : SlidingWindowLimiter :=
  mkLimiter (if limit <=? 0 then 100 else limit) (if window <=? 0 then 60 * second else window) ∅.

(** The loop that finds the first instant after the cutoff, over the rest of
    [n] instants from index [i] on. *)
Fixpoint valid_index (cutoff : Z) (n i validIndex : nat) (timestamps : list Z) : nat :=
  match timestamps with
  | [] => validIndex
  | t :: rest =>
      if cutoff <? t then i
      else valid_index cutoff n (S i) (if (i =? n - 1)%nat then n else validIndex) rest
  end.

Definition prune (cutoff : Z) (timestamps : list Z) : list Z :=
  let validIndex := valid_index cutoff (length timestamps) 0 0 timestamps in
  if ((0 <? validIndex) && (validIndex <=? length timestamps))%nat
  then drop validIndex timestamps else timestamps.

(** Whether the request is allowed, how many remain, and when to retry. *)
Definition Allow (key : string) (now : Z) (l : SlidingWindowLimiter) :
    (bool * Z * Z) * SlidingWindowLimiter :=
  let cutoff := now - window l in
  let timestamps := prune cutoff (default [] (requests l !! key)) in
  if limit l <=? Z.of_nat (length timestamps) then
    let resetAfter := hd 0 timestamps + window l - now in
    let resetAfter := if resetAfter <? 0 then 0 else resetAfter in
    ((false, 0, resetAfter), mkLimiter (limit l) (window l) (<[key := timestamps]> (requests l)))
  else
    let timestamps := timestamps ++ [now] in
    ((true, limit l - Z.of_nat (length timestamps), window l),
     mkLimiter (limit l) (window l) (<[key := timestamps]> (requests l))).

(** One tick of the cleanup loop, at the instant the ticker gives. *)
Definition valid_count (cutoff : Z) (timestamps : list Z) : nat :=
  length (filter (fun t => cutoff < t) timestamps).

Definition cleanup_tick (now : Z) (l : SlidingWindowLimiter) : SlidingWindowLimiter :=
  mkLimiter (limit l) (window l)
    (filter (fun kt => valid_count (now - window l) kt.2 <> 0%nat) (requests l)).

(** ** The HTTP middleware *)

Inductive response :=
  | TooManyRequests (limitHeader remainingHeader resetHeader retryAfter : Z)
  | Forwarded (limitHeader remainingHeader resetHeader : Z).

(** Whole seconds, rounded toward zero, at least one. *)
Definition reset_seconds (resetAfter : Z) : Z :=
  let s := Z.quot resetAfter second in if s <=? 0 then 1 else s.

Definition Middleware (key : string) (now : Z) (l : SlidingWindowLimiter) :
    response * SlidingWindowLimiter :=
  let '((allowed, remaining, resetAfter), l') := Allow key now l in
  let resetSec := reset_seconds resetAfter in
  (if allowed then Forwarded (limit l) remaining resetSec
   else TooManyRequests (limit l) remaining resetSec resetSec, l').

(** ** Pruning drops the leading instants up to the cutoff *)

Definition stale (cutoff t : Z) : bool := t <=? cutoff.

Lemma valid_index_spec cutoff n i v ts :
  n = (i + length ts)%nat -> (ts = [] -> v = n) ->
  valid_index cutoff n i v ts = (i + length (take_while (stale cutoff) ts))%nat.
Proof.
  unfold stale. revert i v. induction ts as [|t ts IH]; intros i v Hn Hv; cbn.
  - rewrite Hv by done. cbn in Hn. lia.
  - replace (t <=? cutoff) with (negb (cutoff <? t)) by (rewrite <- Z.leb_antisym; done).
    destruct (cutoff <? t); cbn; [lia|]. rewrite IH; [lia|cbn in Hn; lia|].
    intros ->. cbn in Hn. replace (i =? n - 1)%nat with true; [done|]. symmetry. apply Nat.eqb_eq. lia.
Qed.

Lemma prune_spec cutoff ts : prune cutoff ts = drop_while (stale cutoff) ts.
Proof.
  unfold prune. destruct ts as [|t ts]; [done|].
  rewrite valid_index_spec by done. rewrite drop_while_drop. cbn [Nat.add].
  set (n := length (take_while (stale cutoff) (t :: ts))).
  destruct (n =? 0)%nat eqn:E.
  - apply Nat.eqb_eq in E. by rewrite E.
  - apply Nat.eqb_neq in E. replace (0 <? n)%nat with true by (symmetry; apply Nat.ltb_lt; lia).
    assert (n <= length (t :: ts))%nat.
    { unfold n. rewrite <- (take_drop_while (stale cutoff) (t :: ts)) at 2. rewrite length_app. lia. }
    by replace (n <=? length (t :: ts))%nat with true by (symmetry; by apply Nat.leb_le).
Qed.

(** ** Histories

    Requests and cleanup ticks in the order of their critical sections, with
    the log of the requests let through.  The clock does not go back: a
    request's instant is at or after the instants seen before it. *)

Inductive event := ERequest (key : string) (now : Z) | ETick (now : Z).

Definition exec_event (s : SlidingWindowLimiter * list (string * Z)) (e : event) :
    SlidingWindowLimiter * list (string * Z) :=
  match e with
  | ERequest key now =>
      let '((allowed, _, _), l') := Allow key now s.1 in
      (l', if allowed then s.2 ++ [(key, now)] else s.2)
  | ETick now => (cleanup_tick now s.1, s.2)
  end.

Definition exec_events (l : SlidingWindowLimiter) (es : list event) :
    SlidingWindowLimiter * list (string * Z) := foldl exec_event (l, []) es.

(** The clock after the events, when it never went back. *)
Fixpoint clock (T : Z) (es : list event) : option Z :=
  match es with
  | [] => Some T
  | ERequest _ t :: es => if T <=? t then clock t es else None
  | ETick t :: es => clock (Z.max T t) es
  end.

(** The instants of a key's requests in a log. *)
Definition times (key : string) (log : list (string * Z)) : list Z :=
  (filter (fun p => p.1 = key) log).*2.

(** How many instants lie in the window that ends at [x]. *)
Definition in_window (w x : Z) (ts : list Z) : nat := length (filter (fun t => x - w < t <= x) ts).

Lemma filter_none {A} (P : A -> Prop) `{!forall x, Decision (P x)} (l : list A) :
  Forall (fun x => ~ P x) l -> filter P l = [].
Proof. induction 1; [done|]. by rewrite filter_cons_False. Qed.

Lemma filter_full {A} (P : A -> Prop) `{!forall x, Decision (P x)} (l : list A) :
  Forall P l -> filter P l = l.
Proof. induction 1; [done|]. rewrite filter_cons_True by done. by f_equal. Qed.

Lemma in_window_app w x l1 l2 : in_window w x (l1 ++ l2) = (in_window w x l1 + in_window w x l2)%nat.
Proof. unfold in_window. by rewrite filter_app, length_app. Qed.

Lemma in_window_mono w x y l : Forall (fun t => t <= x) l -> x <= y -> (in_window w y l <= in_window w x l)%nat.
Proof.
  intros Hl Hxy. unfold in_window. induction Hl as [|t l Ht _ IH]; [done|]. rewrite !filter_cons.
  destruct (decide (y - w < t <= y)), (decide (x - w < t <= x)); cbn; lia.
Qed.

(** The state of one key: the kept instants are the log's, except for a
    prefix that has left the window. *)
Record key_ok (w lim T : Z) (kept log : list Z) : Prop := mkKeyOk {
  ok_split : exists dropped, log = dropped ++ kept /\ Forall (fun t => t <= T - w) dropped;
  ok_past : Forall (fun t => t <= T) log;
  ok_sorted : Sorted Z.le kept;
  ok_limit : forall x, Z.of_nat (in_window w x log) <= lim }.

Lemma drop_while_stale_all c l :
  Sorted Z.le l -> Forall (fun t => c < t) (drop_while (stale c) l).
Proof.
  intros Hs%Sorted_StronglySorted; [|intros ? ? ?; lia]. induction Hs as [|t l Hs IH Ht]; cbn; [constructor|].
  unfold stale at 1. destruct (t <=? c) eqn:E; [done|]. boolify. constructor; [done|].
  eapply Forall_impl; [exact Ht|]. cbn. lia.
Qed.

Lemma take_while_stale_all c l : Forall (fun t => t <= c) (take_while (stale c) l).
Proof.
  apply Forall_forall. intros t Ht. pose proof (take_while_all (stale c) l) as H.
  rewrite forallb_forall in H. specialize (H t (proj1 (list_elem_of_In _ _) Ht)). unfold stale in H. lia.
Qed.

Lemma drop_while_sorted c l : Sorted Z.le l -> Sorted Z.le (drop_while (stale c) l).
Proof. induction 1; cbn; [constructor|]. destruct (stale c a); [done|]. by constructor. Qed.

(** The number of kept instants is the number in the window. *)
Lemma prune_count w lim T t kept log :
  0 < w -> key_ok w lim T kept log -> T <= t ->
  in_window w t log = length (prune (t - w) kept) /\
  exists dropped, log = dropped ++ prune (t - w) kept /\ Forall (fun x => x <= t - w) dropped.
Proof.
  intros Hw [(d & -> & Hd) Hp Hs _] Ht. rewrite prune_spec.
  apply Forall_app in Hp as [_ Hp].
  assert (Hd' : Forall (fun x => x <= t - w) (d ++ take_while (stale (t - w)) kept)).
  { apply Forall_app. split; [|apply take_while_stale_all]. eapply Forall_impl; [exact Hd|]. cbn. lia. }
  assert (Hsplit : d ++ kept = (d ++ take_while (stale (t - w)) kept) ++ drop_while (stale (t - w)) kept).
  { by rewrite <- app_assoc, take_drop_while. }
  split; [|eauto]. rewrite Hsplit, in_window_app. unfold in_window.
  rewrite filter_none by (eapply Forall_impl; [exact Hd'|]; cbn; lia).
  rewrite filter_full; [done|]. apply Forall_forall. intros x Hx.
  pose proof (drop_while_stale_all (t - w) kept Hs) as Hgt. rewrite Forall_forall in Hgt. specialize (Hgt x Hx).
  rewrite Forall_forall in Hp. split; [lia|]. transitivity T; [|done]. apply Hp.
  rewrite <- (take_drop_while (stale (t - w)) kept). apply elem_of_app. by right.
Qed.

Definition limiter_ok (w lim T : Z) (s : SlidingWindowLimiter * list (string * Z)) : Prop :=
  limit s.1 = lim /\ window s.1 = w /\
  forall key, key_ok w lim T (default [] (requests s.1 !! key)) (times key s.2).

Lemma key_ok_later w lim T T' kept log : T <= T' -> key_ok w lim T kept log -> key_ok w lim T' kept log.
Proof.
  intros HT [(d & Hd & Hf) Hp Hs Hl]. constructor; try done.
  - exists d. split; [done|]. eapply Forall_impl; [exact Hf|]. cbn. lia.
  - eapply Forall_impl; [exact Hp|]. cbn. lia.
Qed.

Lemma key_ok_prune w lim T t kept log :
  0 < w -> T <= t -> key_ok w lim T kept log -> key_ok w lim t (prune (t - w) kept) log.
Proof.
  intros Hw Ht Hk. destruct (prune_count _ _ _ _ _ _ Hw Hk Ht) as [_ Hd].
  destruct (key_ok_later _ _ _ _ _ _ Ht Hk) as [_ Hp Hs Hl]. constructor; try done.
  rewrite prune_spec. by apply drop_while_sorted.
Qed.

Lemma key_ok_push w lim t kept log :
  0 < w -> key_ok w lim t kept log -> Z.of_nat (in_window w t log) < lim ->
  key_ok w lim t (kept ++ [t]) (log ++ [t]).
Proof.
  intros Hw [(d & -> & Hd) Hp Hs Hl] Hlt. constructor.
  - exists d. by rewrite app_assoc.
  - apply Forall_app. split; [done|]. constructor; [lia|constructor].
  - apply Forall_app in Hp as [_ Hp]. clear -Hs Hp. induction Hs as [|x l Hs IH Hx]; cbn; [by repeat constructor|].
    apply Forall_cons in Hp as [Hxt Hp]. constructor; [auto|]. destruct Hx; cbn; by constructor.
  - intros x. rewrite in_window_app. destruct (decide (t <= x)) as [Htx|Htx].
    + pose proof (in_window_mono w t x _ Hp Htx).
      assert (in_window w x [t] <= 1)%nat by (unfold in_window; rewrite filter_cons; destruct (decide _); cbn; lia).
      lia.
    + assert (in_window w x [t] = 0)%nat as ->; [|specialize (Hl x); lia].
      unfold in_window. rewrite filter_none; [done|]. constructor; [lia|constructor].
Qed.

Lemma times_app key log log' : times key (log ++ log') = times key log ++ times key log'.
Proof. unfold times. by rewrite filter_app, fmap_app. Qed.

Lemma times_one key key' t : times key [(key', t)] = if decide (key' = key) then [t] else [].
Proof. unfold times. rewrite filter_cons. cbn. by destruct (decide (key' = key)). Qed.

Lemma Allow_ok w lim T t key s :
  0 < w -> T <= t -> limiter_ok w lim T s -> limiter_ok w lim t (exec_event s (ERequest key t)).
Proof.
  intros Hw Ht (Hl & Hwin & Hk). destruct s as [l log]. cbn -[times] in *. unfold Allow. rewrite Hl, Hwin.
  pose proof (key_ok_prune _ _ _ _ _ _ Hw Ht (Hk key)) as Hpr.
  destruct (prune_count _ _ _ _ _ _ Hw (Hk key) Ht) as [Hc _].
  set (ts := prune _ _) in *.
  destruct (lim <=? Z.of_nat (length ts)) eqn:E; (split; [done|]); (split; [done|]); intros key'; cbn -[times].
  - destruct (decide (key = key')) as [<-|Hne].
    + by rewrite lookup_insert_eq.
    + rewrite lookup_insert_ne by done. by apply (key_ok_later _ _ T).
  - rewrite times_app, times_one. destruct (decide (key = key')) as [<-|Hne].
    + rewrite lookup_insert_eq. apply key_ok_push; [done|done|]. rewrite Hc. lia.
    + rewrite lookup_insert_ne, app_nil_r by done. by apply (key_ok_later _ _ T).
Qed.

Lemma tick_ok w lim T t s :
  limiter_ok w lim T s -> limiter_ok w lim (Z.max T t) (exec_event s (ETick t)).
Proof.
  intros (Hl & Hwin & Hk). destruct s as [l log]. cbn -[times] in *.
  split; [done|]. split; [done|]. cbn -[times]. intros key.
  specialize (Hk key). apply (key_ok_later _ _ _ (Z.max T t)) in Hk; [|lia].
  destruct (requests l !! key) as [ts|] eqn:E; cbn in Hk.
  - destruct (decide (valid_count (t - w) ts = 0%nat)) as [Hz|Hz].
    + rewrite map_lookup_filter_None_2 by (right; intros ts' Hts'; cbn; rewrite Hwin; naive_solver).
      cbn. destruct Hk as [(d & Hd & Hf) Hp Hs Hlim]. constructor; [|done|constructor|done].
      exists (times key log). rewrite app_nil_r. split; [done|]. rewrite Hd. apply Forall_app. split; [done|].
      unfold valid_count in Hz. apply nil_length_inv in Hz. apply Forall_forall. intros x Hx.
      assert (~ (t - w < x)).
      { intros Hlt. assert (Hin : x ∈ filter (fun y => t - w < y) ts) by (by apply list_elem_of_filter).
        rewrite Hz in Hin. by apply elem_of_nil in Hin. }
      lia.
    + rewrite (map_lookup_filter_Some_2 _ _ key ts); [done|done|]. cbn. by rewrite Hwin.
  - rewrite map_lookup_filter_None_2 by naive_solver. done.
Qed.

Lemma exec_ok w lim T T' es s :
  0 < w -> limiter_ok w lim T s -> clock T es = Some T' -> limiter_ok w lim T' (foldl exec_event s es).
Proof.
  intros Hw. revert T s. induction es as [|[key t|t] es IH]; intros T s Hs Hc; cbn in *.
  - by simplify_eq.
  - destruct (T <=? t) eqn:E; [|done]. boolify. eapply IH; eauto. by eapply Allow_ok.
  - eapply IH; [|exact Hc]. by apply tick_ok.
Qed.

Lemma New_ok lim w T :
  let l := NewSlidingWindowLimiter lim w in
  0 < window l /\ 0 < limit l /\ limiter_ok (window l) (limit l) T (l, []).
Proof.
  cbn. set (w' := if w <=? 0 then _ else _). set (l' := if lim <=? 0 then _ else _).
  assert (0 < w') by (unfold w', second; destruct (w <=? 0) eqn:E; lia).
  assert (0 < l') by (unfold l'; destruct (lim <=? 0) eqn:E; lia).
  split; [done|]. split; [done|]. split; [done|]. split; [done|].
  intros key. cbn -[times]. rewrite lookup_empty. cbn.
  constructor; try constructor.
  - exists []. split; [done|constructor].
  - intros x. cbn. lia.
Qed.

(** ** Properties *)

(** The limiter never lets more than [limit] requests of a key through
    in any window: after any history of requests and cleanup ticks, every
    time interval of the length of the window contains at most [limit]
    allowed requests of the key. *)
Theorem rate_limit_never_exceeded lim w T es T' key x :
  let l := NewSlidingWindowLimiter lim w in
  clock T es = Some T' ->
  Z.of_nat (in_window (window l) x (times key (exec_events l es).2)) <= limit l.
Proof.
  intros l Hc. destruct (New_ok lim w T) as (Hw & _ & Hok). fold l in Hw, Hok.
  destruct (exec_ok _ _ _ _ es _ Hw Hok Hc) as (_ & _ & Hk). apply (ok_limit _ _ _ _ _ (Hk key)).
Qed.

(** The limiter refuses no more than it must: after any history, a
    request is allowed exactly when fewer than [limit] requests of its key
    were allowed in the window that ends now, and the remaining count it
    reports is exact. *)
Theorem allow_exact lim w T es T' key now :
  let l := NewSlidingWindowLimiter lim w in
  clock T es = Some T' -> T' <= now ->
  let s := exec_events l es in
  let n := Z.of_nat (in_window (window l) now (times key s.2)) in
  let '(allowed, remaining, _) := (Allow key now s.1).1 in
  allowed = (n <? limit l) /\ (allowed = true -> remaining = limit l - n - 1).
Proof.
  intros l Hc Ht s n. destruct (New_ok lim w T) as (Hw & _ & Hok). fold l in Hw, Hok.
  destruct (exec_ok _ _ _ _ es _ Hw Hok Hc) as (Hl & Hwin & Hk).
  destruct (prune_count _ _ _ _ _ _ Hw (Hk key) Ht) as [Hn _].
  unfold n, Allow. change (foldl exec_event (l, []) es) with s in *. rewrite Hl, Hwin, Hn.
  destruct (limit l <=? _) eqn:E; boolify.
  - split; [|done]. symmetry. apply Z.ltb_ge. lia.
  - split; [symmetry; apply Z.ltb_lt; lia|]. intros _. rewrite length_app. cbn. lia.
Qed.

(** The retry delay is sufficient: when a request is refused, the same
    key is allowed again after the reported delay, if nothing else arrives
    in between. *)
Theorem retry_delay_sufficient lim w T es T' key now delay :
  let l := NewSlidingWindowLimiter lim w in
  clock T es = Some T' -> T' <= now ->
  let r := Allow key now (exec_events l es).1 in
  r.1 = (false, 0, delay) -> (Allow key (now + delay) r.2).1.1.1 = true.
Proof.
  intros l Hc Ht r. destruct (New_ok lim w T) as (Hw & Hlim & Hok). fold l in Hw, Hlim, Hok.
  destruct (exec_ok _ _ _ _ es _ Hw Hok Hc) as (Hl & Hwin & Hk).
  destruct (prune_count _ _ _ _ _ _ Hw (Hk key) Ht) as [Hn _].
  pose proof (ok_limit _ _ _ _ _ (Hk key) now) as Hle. rewrite Hn in Hle.
  unfold r, Allow. change (foldl exec_event (l, []) es) with (exec_events l es) in *.
  rewrite Hl, Hwin. set (ts := prune (now - window l) _) in *.
  destruct (limit l <=? _) eqn:E; [|done]. cbn [fst snd limit window requests].
  rewrite lookup_insert_eq. change (default [] (Some ts)) with ts. destruct ts as [|t ts]; [boolify; cbn [length] in *; lia|].
  cbn [hd]. set (d := t + window l - now). intros [= Hdelay].
  assert (Hd : t <= now + delay - window l).
  { revert Hdelay. destruct (d <? 0) eqn:D; unfold d in *; intros <-; lia. }
  rewrite prune_spec. cbn [drop_while].
  replace (stale (now + delay - window l) t) with true by (unfold stale; lia).
  assert (length (drop_while (stale (now + delay - window l)) ts) <= length ts)%nat.
  { rewrite drop_while_drop, length_drop. lia. }
  clear E. cbn [length] in Hle. destruct (limit l <=? _) eqn:E2; [boolify; lia|done].
Qed.

(** ** Sample histories *)

Definition burst : list event :=
  [ERequest "ip" 0; ERequest "ip" 5; ETick 60; ERequest "other" 61; ERequest "ip" 62].

Lemma rate_limit_never_exceeded_witness :
  clock 0 burst = Some 62 /\
  Z.of_nat (in_window 100 62 (times "ip" (exec_events (NewSlidingWindowLimiter 2 100) burst).2)) <= 2.
Proof.
  split; [vm_compute; reflexivity|].
  apply (rate_limit_never_exceeded 2 100 0 burst 62 "ip" 62). vm_compute. reflexivity.
Defined.

Lemma allow_exact_witness :
  (let '(allowed, remaining, _) := (Allow "ip" 101 (exec_events (NewSlidingWindowLimiter 2 100) burst).1).1 in
   allowed = (1 <? 2) /\ (allowed = true -> remaining = 2 - 1 - 1)).
Proof. apply (allow_exact 2 100 0 burst 62 "ip" 101); [vm_compute; reflexivity|lia]. Defined.

Lemma retry_delay_sufficient_witness :
  (Allow "ip" (62 + 38) (Allow "ip" 62 (exec_events (NewSlidingWindowLimiter 2 100) burst).1).2).1.1.1 = true.
Proof.
  apply (retry_delay_sufficient 2 100 0 burst 62 "ip" 62 38); [vm_compute; reflexivity|lia|].
  vm_compute. reflexivity.
Defined.

(** The [Retry-After] header is the delay in whole seconds, rounded down: a
    client that waits exactly so long can be refused again. *)
Theorem retry_after_header_too_early :
  let l := (Allow "ip" 0 (NewSlidingWindowLimiter 1 (2 * second))).2 in
  let '(r, l') := Middleware "ip" (second / 10) l in
  r = TooManyRequests 1 0 1 1 /\ (Allow "ip" (second / 10 + 1 * second) l').1.1.1 = false.
Proof. vm_compute. split; reflexivity. Qed.
