(* ===== verification/CircuitBreaker.v ===== *)
(** * The circuit breaker ([gate/pkg/circuitbreaker/circuit_breaker.go])

    A state machine behind a mutex: every method is one critical section.  A
    method that may change the state reads the clock for the elapsed time
    ([now]) and again for the instant of the change ([now']).  The calls of
    the optional state change handler, each in its own goroutine, are a
    log. *)

From S2P Require Import Prelude.
Local Open Scope Z_scope.
Local Open Scope list_scope.

Inductive State := StateClosed | StateOpen | StateHalfOpen.

#[global] Instance State_eq_dec : EqDecision State.
Proof. solve_decision. Defined.

Definition State_String (s : State) : string :=
  match s with StateClosed => "Closed" | StateOpen => "Open" | StateHalfOpen => "Half-Open" end.

Record CircuitBreaker := mkCB {
  state : State;
  failureThreshold : Z;
  resetTimeout : Z;
  maxHalfOpenRequests : Z;
  consecutiveFailures : Z;
  halfOpenSuccesses : Z;
  lastStateChange : Z;
  onStateChangeHandler : bool;
  notified : list (State * State) }.

Record Config := mkConfig {
  FailureThreshold : Z; ResetTimeout : Z; MaxHalfOpenRequests : Z; OnStateChange : bool }.

Definition New (cfg : Config) (now : Z) : CircuitBreaker :=
  mkCB StateClosed
    (if FailureThreshold cfg <=? 0 then 5 else FailureThreshold cfg)
    (if ResetTimeout cfg <=? 0 then 5 * 10 ^ 9 else ResetTimeout cfg)
    (if MaxHalfOpenRequests cfg <=? 0 then 2 else MaxHalfOpenRequests cfg)
    0 0 now (OnStateChange cfg) [].

Definition with_counters (cb : CircuitBreaker) (failures successes : Z) : CircuitBreaker :=
  mkCB (state cb) (failureThreshold cb) (resetTimeout cb) (maxHalfOpenRequests cb)
    failures successes (lastStateChange cb) (onStateChangeHandler cb) (notified cb).

Definition transitionTo (newState : State) (now' : Z) (cb : CircuitBreaker) : CircuitBreaker :=
  if bool_decide (state cb = newState) then cb
  else
    let failures := match newState with StateClosed => 0 | _ => consecutiveFailures cb end in
    let successes := match newState with StateOpen => halfOpenSuccesses cb | _ => 0 end in
    mkCB newState (failureThreshold cb) (resetTimeout cb) (maxHalfOpenRequests cb)
      failures successes now' (onStateChangeHandler cb)
      (if onStateChangeHandler cb then notified cb ++ [(state cb, newState)] else notified cb).

Definition checkStateTransition (now now' : Z) (cb : CircuitBreaker) : CircuitBreaker :=
  match state cb with
  | StateOpen => if resetTimeout cb <=? now - lastStateChange cb then transitionTo StateHalfOpen now' cb else cb
  | _ => cb
  end.

Definition GetState (now now' : Z) (cb : CircuitBreaker) : State * CircuitBreaker :=
  let cb' := checkStateTransition now now' cb in (state cb', cb').

Definition Allow (now now' : Z) (cb : CircuitBreaker) : bool * CircuitBreaker :=
  let cb' := checkStateTransition now now' cb in
  (match state cb' with StateClosed => true | StateOpen => false | StateHalfOpen => true end, cb').

Definition RecordSuccess (now' : Z) (cb : CircuitBreaker) : CircuitBreaker :=
  let cb := with_counters cb 0 (halfOpenSuccesses cb) in
  match state cb with
  | StateHalfOpen =>
      let cb := with_counters cb 0 (halfOpenSuccesses cb + 1) in
      if maxHalfOpenRequests cb <=? halfOpenSuccesses cb then transitionTo StateClosed now' cb else cb
  | _ => cb
  end.

Definition RecordFailure (now' : Z) (cb : CircuitBreaker) : CircuitBreaker :=
  let cb := with_counters cb (consecutiveFailures cb + 1) (halfOpenSuccesses cb) in
  match state cb with
  | StateClosed => if failureThreshold cb <=? consecutiveFailures cb then transitionTo StateOpen now' cb else cb
  | StateHalfOpen => transitionTo StateOpen now' cb
  | StateOpen => cb
  end.

Definition Reset (now' : Z) (cb : CircuitBreaker) : CircuitBreaker :=
  transitionTo StateClosed now' (with_counters cb 0 0).

(** ** The HTTP middleware

    The upstream handler is its answer's status code; [None] is a response
    of the breaker itself, 503, without a call of the upstream. *)

Definition Middleware (now now' now'' : Z) (upstream : Z) (cb : CircuitBreaker) :
    option Z * CircuitBreaker :=
  let '(allowed, cb) := Allow now now' cb in
  if allowed then
    (Some upstream, if 500 <=? upstream then RecordFailure now'' cb else RecordSuccess now'' cb)
  else (None, cb).

(** ** Sequences of operations *)

Inductive op :=
  | OpAllow (now now' : Z)
  | OpState (now now' : Z)
  | OpSuccess (now' : Z)
  | OpFailure (now' : Z)
  | OpReset (now' : Z).

Definition run (cb : CircuitBreaker) (o : op) : CircuitBreaker :=
  match o with
  | OpAllow now now' => (Allow now now' cb).2
  | OpState now now' => (GetState now now' cb).2
  | OpSuccess now' => RecordSuccess now' cb
  | OpFailure now' => RecordFailure now' cb
  | OpReset now' => Reset now' cb
  end.

Record inv (cb : CircuitBreaker) : Prop := mkInv {
  inv_config : 0 < failureThreshold cb /\ 0 < resetTimeout cb /\ 0 < maxHalfOpenRequests cb;
  inv_failures : 0 <= consecutiveFailures cb;
  inv_successes : 0 <= halfOpenSuccesses cb < maxHalfOpenRequests cb;
  inv_closed : state cb = StateClosed -> consecutiveFailures cb < failureThreshold cb /\ halfOpenSuccesses cb = 0 }.

Lemma New_inv cfg now : inv (New cfg now).
Proof.
  unfold New. constructor; cbn; repeat match goal with |- context [?a <=? 0] => destruct (a <=? 0) eqn:? end; lia.
Qed.

Ltac inv_solve :=
  try match goal with |- inv (if bool_decide ?P then _ else _) => rewrite (bool_decide_false P) by (cbn; congruence) end;
  constructor; cbn in *; auto; try lia; try congruence.

Lemma check_inv now now' cb : inv cb -> inv (checkStateTransition now now' cb).
Proof.
  intros Hi. unfold checkStateTransition. destruct (state cb) eqn:S; try done.
  destruct (_ <=? _); [|done]. destruct Hi as [(? & ? & ?) Hf Hs Hc].
  unfold transitionTo. rewrite S. inv_solve.
Qed.

Lemma breaker_run_inv cb o : inv cb -> inv (run cb o).
Proof.
  intros Hi. pose proof Hi as [(? & ? & ?) Hf Hs Hc].
  destruct o; cbn [run Allow GetState snd]; try by apply check_inv.
  - unfold RecordSuccess, transitionTo. cbn. destruct (state cb) eqn:S;
      [specialize (Hc eq_refl); inv_solve| |].
    + inv_solve.
    + destruct (_ <=? _) eqn:E; boolify; inv_solve.
  - unfold RecordFailure, transitionTo. cbn. destruct (state cb) eqn:S; [|inv_solve|inv_solve].
    specialize (Hc eq_refl). destruct (_ <=? _) eqn:E; boolify; inv_solve.
  - unfold Reset, transitionTo. cbn. destruct (bool_decide_reflect (state cb = StateClosed)); inv_solve.
Qed.

Lemma runs_inv os cb : inv cb -> inv (foldl run cb os).
Proof. revert cb. induction os as [|o os IH]; intros cb Hi; cbn; [done|]. apply IH. by apply breaker_run_inv. Qed.

(** ** Properties *)

(** The requests recorded in the closed state, by outcome. *)
Definition record (now' : Z) (cb : CircuitBreaker) (ok : bool) : CircuitBreaker :=
  if ok then RecordSuccess now' cb else RecordFailure now' cb.

(** Some [n] outcomes in a row are failures. *)
Definition failing_run (n : nat) (outcomes : list bool) : Prop :=
  exists l1 l2, outcomes = l1 ++ replicate n false ++ l2.

Lemma closed_success cb now' :
  state cb = StateClosed -> RecordSuccess now' cb = with_counters cb 0 (halfOpenSuccesses cb).
Proof. intros S. unfold RecordSuccess. cbn. by rewrite S. Qed.

Lemma open_record cb now' ok : state cb = StateOpen -> state (record now' cb ok) = StateOpen.
Proof. intros S. destruct ok; cbn; unfold RecordSuccess, RecordFailure; cbn; by rewrite S. Qed.

Lemma open_records cb now' outcomes :
  state cb = StateOpen -> state (foldl (record now') cb outcomes) = StateOpen.
Proof.
  revert cb. induction outcomes as [|ok l IH]; intros cb S; cbn; [done|]. apply IH. by apply open_record.
Qed.

(** The outcomes so far end in [c] failures. *)
Lemma failing_run_pending n c l :
  (c < n)%nat -> failing_run n (replicate c false ++ true :: l) <-> failing_run n l.
Proof.
  intros Hc. split.
  - intros (l1 & l2 & E). assert (Hlen : (c < length l1)%nat).
    { destruct (decide (length l1 <= c)%nat) as [Hle|]; [|lia]. exfalso.
      assert (E' := f_equal (fun l => l !! c) E). cbn in E'.
      rewrite lookup_app_r, length_replicate, Nat.sub_diag in E' by (rewrite length_replicate; lia).
      rewrite lookup_app_r in E' by lia. cbn in E'.
      rewrite lookup_app_l, lookup_replicate_2 in E' by (rewrite ?length_replicate; lia). done. }
    assert (E' := f_equal (drop (S c)) E). rewrite drop_app_ge in E' by (rewrite length_replicate; lia).
    rewrite length_replicate in E'. replace (S c - c)%nat with 1%nat in E' by lia. cbn in E'.
    rewrite drop_app_le in E' by lia. rewrite drop_0 in E'. by exists (drop (S c) l1), l2.
  - intros (l1 & l2 & ->). exists (replicate c false ++ true :: l1), l2. by rewrite <- app_assoc.
Qed.

Lemma failing_run_head n l : failing_run n (replicate n false ++ l).
Proof. by exists [], l. Qed.

Lemma trips_from c cb now' outcomes :
  inv cb -> state cb = StateClosed -> consecutiveFailures cb = Z.of_nat c ->
  state (foldl (record now') cb outcomes) = StateOpen <->
  failing_run (Z.to_nat (failureThreshold cb)) (replicate c false ++ outcomes).
Proof.
  revert c cb. induction outcomes as [|ok l IH]; intros c cb Hi S Hf.
  - cbn. rewrite S, app_nil_r. split; [done|]. intros (l1 & l2 & E).
    apply (f_equal length) in E. rewrite !length_app, !length_replicate in E.
    destruct (inv_closed _ Hi S). lia.
  - cbn [foldl]. destruct (inv_closed _ Hi S) as [Hlt Hz]. pose proof (breaker_run_inv cb) as Hrun.
    destruct ok; cbn [record].
    + rewrite failing_run_pending by lia. specialize (Hrun (OpSuccess now') Hi). cbn [run] in Hrun.
      rewrite closed_success in * by done. rewrite (IH 0%nat) by done. done.
    + specialize (Hrun (OpFailure now') Hi). cbn [run] in Hrun.
      replace (replicate c false ++ false :: l) with (replicate (Datatypes.S c) false ++ l)
        by (by rewrite replicate_S_end, <- app_assoc).
      unfold RecordFailure in *. cbn in *. rewrite S in *.
      destruct (failureThreshold cb <=? consecutiveFailures cb + 1) eqn:E; boolify.
      * rewrite open_records by (unfold transitionTo; cbn; by rewrite S). split; [intros _|done].
        replace (Z.to_nat (failureThreshold cb)) with (Datatypes.S c) by lia. exact (failing_run_head (Datatypes.S c) l).
      * rewrite (IH (Datatypes.S c)); [done|done|done|cbn; lia].
Qed.

(** The breaker trips exactly on its threshold: from a fresh breaker,
    recording a sequence of outcomes opens the circuit if and only if the
    sequence contains [failureThreshold] failures in a row. *)
Theorem trips_on_consecutive_failures cfg now now' outcomes :
  let cb := New cfg now in
  state (foldl (record now') cb outcomes) = StateOpen <->
  failing_run (Z.to_nat (failureThreshold cb)) outcomes.
Proof. intros cb. apply (trips_from 0); [apply New_inv|done|done]. Qed.

(** Operations that leave an open breaker open. *)
Definition early (deadline : Z) (o : op) : Prop :=
  match o with
  | OpAllow now _ | OpState now _ => now < deadline
  | OpSuccess _ | OpFailure _ => True
  | OpReset _ => False
  end.

Lemma open_stays cb o :
  state cb = StateOpen -> early (lastStateChange cb + resetTimeout cb) o ->
  state (run cb o) = StateOpen /\ lastStateChange (run cb o) = lastStateChange cb /\
  resetTimeout (run cb o) = resetTimeout cb.
Proof.
  intros S. destruct o; cbn [run Allow GetState snd early]; intros He; try done;
    unfold checkStateTransition, RecordSuccess, RecordFailure; cbn; rewrite S; try done;
    replace (resetTimeout cb <=? now - lastStateChange cb) with false by lia; done.
Qed.

(** An open circuit isolates the upstream until the cooldown is over:
    whatever outcomes of earlier requests are recorded and whatever requests
    arrive before [lastStateChange + resetTimeout], every request is refused
    without a call of the upstream. *)
Theorem open_circuit_isolates cb os now now' now'' upstream :
  state cb = StateOpen -> Forall (early (lastStateChange cb + resetTimeout cb)) os ->
  now < lastStateChange cb + resetTimeout cb ->
  (Middleware now now' now'' upstream (foldl run cb os)).1 = None.
Proof.
  intros S Hos Hn.
  assert (H : state (foldl run cb os) = StateOpen /\
    lastStateChange (foldl run cb os) = lastStateChange cb /\ resetTimeout (foldl run cb os) = resetTimeout cb).
  { revert S Hos Hn. revert cb. induction os as [|o os IH]; intros cb S Hos Hn; cbn; [done|].
    apply Forall_cons in Hos as [Ho Hos]. destruct (open_stays cb o S Ho) as (S' & L' & R').
    rewrite <- L', <- R'. apply IH; [done| |]; by rewrite L', R'. }
  destruct H as (S' & L' & R'). unfold Middleware, Allow, checkStateTransition. rewrite S', L', R'.
  replace (resetTimeout cb <=? now - lastStateChange cb) with false by lia. by rewrite S'.
Qed.

Lemma half_open_successes cb n now' :
  inv cb -> state cb = StateHalfOpen ->
  (halfOpenSuccesses cb + Z.of_nat n < maxHalfOpenRequests cb) ->
  let cb' := foldl (record now') cb (replicate n true) in
  inv cb' /\ state cb' = StateHalfOpen /\ halfOpenSuccesses cb' = halfOpenSuccesses cb + Z.of_nat n /\
  maxHalfOpenRequests cb' = maxHalfOpenRequests cb.
Proof.
  revert cb. induction n as [|n IH]; intros cb Hi S Hlt; cbn; [splits; try done; lia|].
  pose proof (breaker_run_inv cb (OpSuccess now') Hi) as Hi'. cbn [run] in Hi'.
  assert (E : RecordSuccess now' cb = with_counters cb 0 (halfOpenSuccesses cb + 1)).
  { unfold RecordSuccess. cbn. rewrite S. by replace (maxHalfOpenRequests cb <=? _) with false by lia. }
  rewrite E in *. destruct (IH _ Hi' S) as (? & ? & Hh & ?); [cbn; lia|].
  splits; try done. rewrite Hh. cbn. lia.
Qed.

(** The half-open state decides on its probes: after fewer successes
    than [maxHalfOpenRequests] and no failure the breaker is still half-open;
    the success that completes them closes it with cleared counters, and a
    failure instead opens it again for a full cooldown. *)
Theorem half_open_decides cb n now' :
  inv cb -> state cb = StateHalfOpen -> halfOpenSuccesses cb = 0 ->
  Z.of_nat n + 1 = maxHalfOpenRequests cb ->
  let cb' := foldl (record now') cb (replicate n true) in
  state cb' = StateHalfOpen /\
  (let c := record now' cb' true in
   state c = StateClosed /\ consecutiveFailures c = 0 /\ halfOpenSuccesses c = 0) /\
  (let o := record now' cb' false in
   state o = StateOpen /\ lastStateChange o = now').
Proof.
  intros Hi S Hz Hn cb'. destruct (half_open_successes cb n now' Hi S ltac:(lia)) as (Hi' & S' & Hh & Hm).
  fold cb' in Hi', S', Hh, Hm. split; [done|]. cbn [record].
  unfold RecordSuccess, RecordFailure, transitionTo. cbn. rewrite S'.
  replace (maxHalfOpenRequests cb' <=? halfOpenSuccesses cb' + 1) with true by lia. done.
Qed.

(** ** Samples *)

Definition sample_config : Config := mkConfig 3 100 2 true.

(** Three failures: open since 7. *)
Definition tripped : CircuitBreaker := foldl (record 7) (New sample_config 0) [true; false; false; false].

Lemma open_circuit_isolates_witness :
  state tripped = StateOpen /\ (Middleware 106 106 106 200 (foldl run tripped [OpSuccess 8; OpAllow 50 50])).1 = None.
Proof.
  split; [reflexivity|].
  apply (open_circuit_isolates tripped [OpSuccess 8; OpAllow 50 50] 106 106 106 200); [reflexivity| |].
  - repeat constructor.
  - reflexivity.
Defined.

Definition probing : CircuitBreaker := (Allow 107 107 tripped).2.

Lemma half_open_decides_witness :
  state (foldl (record 108) probing (replicate 1 true)) = StateHalfOpen.
Proof.
  refine (proj1 (half_open_decides probing 1 108 _ _ _ _)); try reflexivity.
  apply (runs_inv [OpSuccess 7; OpFailure 7; OpFailure 7; OpFailure 7; OpAllow 107 107] (New sample_config 0)).
  apply New_inv.
Defined.

(** The half-open state does not limit the trial requests: any number of
    them is let through before the first outcome is recorded. *)
Theorem half_open_allows_any_number cb n now now' :
  state cb = StateHalfOpen -> Forall (fun b => b = true)
    ((fix attempts (n : nat) (cb : CircuitBreaker) : list bool :=
        match n with O => [] | S n => let '(b, cb') := Allow now now' cb in b :: attempts n cb' end) n cb).
Proof.
  intros S. induction n as [|n IH]; cbn; [constructor|].
  unfold Allow, checkStateTransition. rewrite S. cbn. rewrite S. by constructor.
Qed.
