(* ===== verification/GoTime.v ===== *)
(** * The part of Go's [time] package the components use

    Instants are nanoseconds since 1970-01-01T00:00:00Z, in UTC, and durations
    nanoseconds.  Civil dates use the proleptic Gregorian calendar.  Texts of
    times are written and read by layouts. *)

From Stdlib Require Import SpecFloat.
From S2P Require Import Prelude GoStrings GoFloat.
Local Open Scope Z_scope.
Local Open Scope list_scope.

Definition Nanosecond : Z := 1.
Definition Microsecond : Z := 1000.
Definition Millisecond : Z := 10 ^ 6.
Definition Second : Z := 10 ^ 9.
Definition Minute : Z := 60 * Second.
Definition Hour : Z := 3600 * Second.
Definition Day : Z := 86400 * Second.

(** ** Dates *)

Record date := mkDate { Year : Z; Month : Z; MDay : Z }.

(** The days from 1970-01-01 to a date; the day may lie outside the month. *)
Definition days_of_date (y m d : Z) : Z :=
  let y := if m <=? 2 then y - 1 else y in
  let era := y / 400 in
  let yoe := y - era * 400 in
  let doy := (153 * (if 2 <? m then m - 3 else m + 9) + 2) / 5 + d - 1 in
  let doe := yoe * 365 + yoe / 4 - yoe / 100 + doy in
  era * 146097 + doe - 719468.

Definition date_of_days (z : Z) : date :=
  let z := z + 719468 in
  let era := z / 146097 in
  let doe := z - era * 146097 in
  let yoe := (doe - doe / 1460 + doe / 36524 - doe / 146096) / 365 in
  let doy := doe - (365 * yoe + yoe / 4 - yoe / 100) in
  let mp := (5 * doy + 2) / 153 in
  let d := doy - (153 * mp + 2) / 5 + 1 in
  let m := if mp <? 10 then mp + 3 else mp - 9 in
  mkDate (yoe + era * 400 + (if m <=? 2 then 1 else 0)) m d.

(** [time.Date] at midnight: the month and the day are normalized. *)
Definition Date (y m d : Z) : Z :=
  let y' := y + (m - 1) / 12 in
  let m' := (m - 1) mod 12 + 1 in
  days_of_date y' m' d * Day.

Definition day_number (t : Z) : Z := t / Day.
Definition date_of (t : Z) : date := date_of_days (day_number t).

(** Sunday is 0. *)
Definition Weekday (t : Z) : Z := (day_number t + 4) mod 7.
Definition Hour_of (t : Z) : Z := (t mod Day) / Hour.
Definition Minute_of (t : Z) : Z := (t mod Hour) / Minute.

(** [t.AddDate(years, months, days)] *)
Definition AddDate (t years months days : Z) : Z :=
  let d := date_of t in
  Date (Year d + years) (Month d + months) (MDay d + days) + t mod Day.

(** [Duration.Seconds] *)
Definition Seconds (d : Z) : float64 :=
  fadd (float_of_Z (Z.quot d Second)) (fdiv (float_of_Z (Z.rem d Second)) (float_of_Z Second)).

(** [Time.Sub] saturates. *)
Definition Sub (t u : Z) : Z := Z.max min_int64 (Z.min max_int64 (t - u)).

Definition Truncate (t d : Z) : Z := t - t mod d.

(** ** [time.ParseDuration] *)

(** [leadingInt]: the digits, [None] on overflow of 63 bits. *)
Fixpoint leadingInt (x : Z) (s : bytes) : option (Z * bytes) :=
  match s with
  | [] => Some (x, [])
  | c :: s' =>
      if isDigitb c then
        if 2 ^ 63 / 10 <? x then None
        else let x := x * 10 + digit_val c in
             if 2 ^ 63 <? x then None else leadingInt x s'
      else Some (x, s)
  end.

(** [leadingFraction]: the digits that fit, their scale, and the rest. *)
Fixpoint leadingFraction (x : Z) (scale : float64) (overflow : bool) (s : bytes) : Z * float64 * bytes :=
  match s with
  | [] => (x, scale, [])
  | c :: s' =>
      if isDigitb c then
        if overflow then leadingFraction x scale true s'
        else if (2 ^ 63 - 1) / 10 <? x then leadingFraction x scale true s'
        else let y := x * 10 + digit_val c in
             if 2 ^ 63 <? y then leadingFraction x scale true s'
             else leadingFraction y (fmul scale (float_of_Z 10)) false s'
      else (x, scale, s)
  end.

(** [uint64] of a non-negative float in range: toward zero. *)
Definition uint64_of_float (x : float64) : Z :=
  match x with S754_finite false m e => Z.shiftl (Zpos m) e | _ => 0 end.

(** The micro sign and the Greek mu are two bytes each. *)
Definition unit_of (u : bytes) : option Z :=
  let s := str u in
  if bool_decide (s = "ns"%string) then Some Nanosecond
  else if bool_decide (s = "us"%string) then Some Microsecond
  else if bool_decide (u = ["194"; "181"; "115"]%char) then Some Microsecond
  else if bool_decide (u = ["206"; "188"; "115"]%char) then Some Microsecond
  else if bool_decide (s = "ms"%string) then Some Millisecond
  else if bool_decide (s = "s"%string) then Some Second
  else if bool_decide (s = "m"%string) then Some Minute
  else if bool_decide (s = "h"%string) then Some Hour
  else None.

Definition unit_char (c : ascii) : bool := negb (bool_decide (c = "."%char) || isDigitb c).

Fixpoint parse_terms (fuel : nat) (d : Z) (s : bytes) : option Z :=
  match fuel with
  | O => None
  | S f =>
      match s with
      | [] => Some d
      | c :: _ =>
          if bool_decide (c = "."%char) || isDigitb c then
            '(v, s1) ← leadingInt 0 s;
            let pre := negb (length s =? length s1)%nat in
            let '(fr, scale, s2, post) :=
              match s1 with
              | "."%char :: s1' =>
                  let '(fr, scale, s2) := leadingFraction 0 (float_of_Z 1) false s1' in
                  (fr, scale, s2, negb (length s1' =? length s2)%nat)
              | _ => (0, float_of_Z 1, s1, false)
              end in
            if negb pre && negb post then None
            else
              let u := take_while unit_char s2 in
              let s3 := drop_while unit_char s2 in
              if bool_decide (u = []) then None
              else
                unit ← unit_of u;
                if 2 ^ 63 / unit <? v then None
                else
                  let v := v * unit in
                  let v := if 0 <? fr
                           then v + uint64_of_float (fmul (float_of_Z fr) (fdiv (float_of_Z unit) scale))
                           else v in
                  if 2 ^ 63 <? v then None
                  else
                    let d := d + v in
                    if 2 ^ 63 <? d then None else parse_terms f d s3
          else None
      end
  end.

Definition ParseDuration (s0 : string) : option Z :=
  let '(neg, s) := match byt s0 with
                   | "-"%char :: s => (true, s)
                   | "+"%char :: s => (false, s)
                   | s => (false, s)
                   end in
  if bool_decide (s = ["0"%char]) then Some 0
  else if bool_decide (s = []) then None
  else
    d ← parse_terms (S (length s)) 0 s;
    if neg then Some (- d) else if max_int64 <? d then None else Some d.

(** ** Samples *)

Example date_sample : date_of_days 19782 = mkDate 2024 2 29.
Proof. reflexivity. Qed.
Example date_before_epoch : date_of_days (-1) = mkDate 1969 12 31.
Proof. reflexivity. Qed.
Example weekday_sample : Weekday (Date 2024 2 29) = 4.
Proof. reflexivity. Qed.
Example date_normalizes : Date 2023 14 30 = Date 2024 3 1.
Proof. reflexivity. Qed.
Example add_years : AddDate (Date 2024 2 29) 2 0 0 = Date 2026 3 1.
Proof. reflexivity. Qed.
Example duration_sample : ParseDuration "1h30m" = Some (90 * Minute).
Proof. vm_compute. reflexivity. Qed.
Example duration_fraction : ParseDuration "1.5h" = Some (90 * Minute).
Proof. vm_compute. reflexivity. Qed.
Example duration_bad : ParseDuration "10" = None.
Proof. vm_compute. reflexivity. Qed.
Example duration_neg : ParseDuration "-5s" = Some (- (5 * Second)).
Proof. vm_compute. reflexivity. Qed.

(** ** Round trip of civil dates *)

(** Arithmetic with quotients by constants. *)
Ltac div_lia := Z.to_euclidean_division_equations; lia.

(** The year of the era, counted from March, by the day of the era. *)
Definition year_of_era (doe : Z) : Z := (doe - doe / 1460 + doe / 36524 - doe / 146096) / 365.
Definition year_start (y : Z) : Z := 365 * y + y / 4 - y / 100 + y / 400.

Lemma year_of_era_mono a b : 0 <= a <= b -> year_of_era a <= year_of_era b.
Proof.
  intros H. unfold year_of_era. apply Z.div_le_mono; [lia|].
  replace (a / 146096) with (a / 36524 / 4) by (rewrite Z.div_div by lia; done).
  replace (b / 146096) with (b / 36524 / 4) by (rewrite Z.div_div by lia; done).
  assert (H1 : a / 36524 <= b / 36524) by (apply Z.div_le_mono; lia).
  assert (H2 : b / 1460 <= a / 1460 + (b - a)) by (rewrite <- Z.div_add by lia; apply Z.div_le_mono; lia).
  assert (H3 : a / 36524 - a / 36524 / 4 <= b / 36524 - b / 36524 / 4) 
    by (clear H2; set (x := a / 36524) in *; set (y := b / 36524) in *; assert (y / 4 <= x / 4 + (y - x)) by (rewrite <- Z.div_add by lia; apply Z.div_le_mono; lia); lia).
  lia.
Qed.

Lemma year_starts : forallb (fun y => (year_of_era (year_start (Z.of_nat y)) =? Z.of_nat y) && (year_of_era (year_start (Z.of_nat y) - 1) <? Z.of_nat y)) (seq 1 399) = true.
Proof. vm_compute. reflexivity. Qed.

Lemma year_of_era_start y : 1 <= y < 400 -> year_of_era (year_start y) = y /\ year_of_era (year_start y - 1) < y.
Proof.
  intros H. pose proof year_starts as Hall. rewrite forallb_forall in Hall. specialize (Hall (Z.to_nat y)).
  rewrite in_seq, Z2Nat.id in Hall by lia. specialize (Hall ltac:(lia)). apply andb_prop in Hall as [H1 H2]. lia.
Qed.

Lemma year_start_nonneg y : 0 <= y -> 0 <= year_start y.
Proof.
  intros H. unfold year_start. assert (0 <= y / 4) by (apply Z.div_pos; lia). assert (0 <= y / 400) by (apply Z.div_pos; lia).
  assert (y / 100 <= y) by (apply Z.div_le_upper_bound; lia). lia.
Qed.

Lemma year_of_era_spec doe : 0 <= doe < 146097 ->
  0 <= year_of_era doe < 400 /\ year_start (year_of_era doe) <= doe < year_start (year_of_era doe + 1).
Proof.
  intros H. assert (Hr : 0 <= year_of_era doe < 400).
  { pose proof (year_of_era_mono 0 doe ltac:(lia)) as H0. pose proof (year_of_era_mono doe 146096 ltac:(lia)) as H1.
    change (year_of_era 0) with 0 in H0. change (year_of_era 146096) with 399 in H1. lia. }
  split; [done|]. split.
  - destruct (decide (year_of_era doe = 0)) as [->|Hy]; [change (year_start 0) with 0; lia|].
    destruct (decide (year_start (year_of_era doe) <= doe)) as [|Hlt]; [done|exfalso].
    pose proof (proj2 (year_of_era_start (year_of_era doe) ltac:(lia))) as H1.
    pose proof (year_of_era_mono doe (year_start (year_of_era doe) - 1) ltac:(lia)). lia.
  - destruct (decide (year_of_era doe = 399)) as [->|Hy]; [change (year_start (399 + 1)) with 146097; lia|].
    destruct (decide (doe < year_start (year_of_era doe + 1))) as [|Hlt]; [done|exfalso].
    pose proof (proj1 (year_of_era_start (year_of_era doe + 1) ltac:(lia))) as H1.
    assert (0 <= year_start (year_of_era doe + 1)) by (apply year_start_nonneg; lia).
    pose proof (year_of_era_mono (year_start (year_of_era doe + 1)) doe ltac:(lia)). lia.
Qed.

Definition isLeap (y : Z) : bool := (y mod 4 =? 0) && (negb (y mod 100 =? 0) || (y mod 400 =? 0)).

Definition daysIn (m y : Z) : Z :=
  if m =? 2 then (if isLeap y then 29 else 28) else if (m =? 4) || (m =? 6) || (m =? 9) || (m =? 11) then 30 else 31.

Lemma months_of_year : forallb (fun n => let doy := Z.of_nat n in let mp := (5 * doy + 2) / 153 in let dd := doy - (153 * mp + 2) / 5 + 1 in
  let m := if mp <? 10 then mp + 3 else mp - 9 in if m =? 2 then (dd =? doy - 336) && (dd <=? 29) else dd <=? daysIn m 1) (seq 0 366) = true.
Proof. vm_compute. reflexivity. Qed.

Lemma month_lengths doy : 0 <= doy <= 365 ->
  let mp := (5 * doy + 2) / 153 in let dd := doy - (153 * mp + 2) / 5 + 1 in let m := if mp <? 10 then mp + 3 else mp - 9 in
  (m <> 2 -> dd <= daysIn m 1) /\ (m = 2 -> dd = doy - 336 /\ dd <= 29).
Proof.
  intros H. pose proof months_of_year as Hall. rewrite forallb_forall in Hall. specialize (Hall (Z.to_nat doy)).
  rewrite in_seq, Z2Nat.id in Hall by lia. specialize (Hall ltac:(lia)). cbv zeta in *.
  destruct (Z.eqb_spec (if (5 * doy + 2) / 153 <? 10 then (5 * doy + 2) / 153 + 3 else (5 * doy + 2) / 153 - 9) 2) as [E|E]; split; intros ?; try done.
  - apply andb_prop in Hall as [H1 H2]. by split; [apply Z.eqb_eq|apply Z.leb_le].
  - by apply Z.leb_le.
Qed.

Lemma date_roundtrip z : let d := date_of_days z in
  days_of_date (Year d) (Month d) (MDay d) = z /\ 1 <= Month d <= 12 /\ 1 <= MDay d <= daysIn (Month d) (Year d).
Proof.
  unfold date_of_days. set (era := (z + 719468) / 146097). set (doe := z + 719468 - era * 146097).
  assert (Hdoe : 0 <= doe < 146097) by (subst doe era; div_lia). change ((doe - doe / 1460 + doe / 36524 - doe / 146096) / 365) with (year_of_era doe).
  destruct (year_of_era_spec doe Hdoe) as [Hy [Hs1 Hs2]]. set (yoe := year_of_era doe) in *.
  set (doy := doe - (365 * yoe + yoe / 4 - yoe / 100)).
  assert (Hst : year_start yoe = 365 * yoe + yoe / 4 - yoe / 100) by (unfold year_start; rewrite (Z.div_small yoe 400) by lia; lia).
  assert (Hdoy : 0 <= doy <= 365) by (subst doy; unfold year_start in Hs1, Hs2; clear Hst; clearbody yoe; clear -Hs1 Hs2 Hy; div_lia).
  set (mp := (5 * doy + 2) / 153). assert (Hmp : 0 <= mp <= 11) by (subst mp; clearbody doy; clear -Hdoy; div_lia).
  set (dd := doy - (153 * mp + 2) / 5 + 1). cbn [Year Month MDay].
  assert (Hd : 1 <= dd) by (subst dd mp; clearbody doy; clear -Hdoy; div_lia).
  assert (Hm : (if mp <? 10 then mp + 3 else mp - 9) = mp + 3 - 12 * (if mp <? 10 then 0 else 1)) by (destruct (Z.ltb_spec mp 10); lia).
  split; [|split].
  - unfold days_of_date. assert (E1 : (if (if mp <? 10 then mp + 3 else mp - 9) <=? 2
      then yoe + era * 400 + (if (if mp <? 10 then mp + 3 else mp - 9) <=? 2 then 1 else 0) - 1
      else yoe + era * 400 + (if (if mp <? 10 then mp + 3 else mp - 9) <=? 2 then 1 else 0)) = yoe + era * 400) by (destruct (_ <=? 2); lia).
    rewrite E1. assert (E2 : (yoe + era * 400) / 400 = era) by (rewrite Z.div_add, Z.div_small; lia). rewrite E2.
    assert (E3 : (if 2 <? (if mp <? 10 then mp + 3 else mp - 9) then (if mp <? 10 then mp + 3 else mp - 9) - 3 else (if mp <? 10 then mp + 3 else mp - 9) + 9) = mp).
    { destruct (Z.ltb_spec mp 10); [rewrite (proj2 (Z.ltb_lt _ _)) by lia; lia|rewrite (proj2 (Z.ltb_ge _ _)) by lia; lia]. }
    rewrite E3. replace (yoe + era * 400 - era * 400) with yoe by lia. subst dd doy doe. lia.
  - destruct (Z.ltb_spec mp 10); lia.
  - split; [done|]. destruct (month_lengths doy Hdoy) as [Hnot Hfeb]. fold mp in Hnot, Hfeb. fold dd in Hnot, Hfeb.
    destruct (decide ((if mp <? 10 then mp + 3 else mp - 9) = 2)) as [E|E].
    + rewrite E. destruct (Hfeb E) as [Hdd Hle]. unfold daysIn. cbn [Z.eqb Pos.eqb]. destruct (isLeap _) eqn:EL; [lia|].
      change (2 <=? 2) with true in EL. cbv iota in EL. unfold isLeap in EL. rewrite Hdd. unfold year_start in Hs2. rewrite Hst in Hs1.
      subst doy. clearbody yoe doe era. clear -Hs1 Hs2 Hy EL. div_lia.
    + transitivity (daysIn (if mp <? 10 then mp + 3 else mp - 9) 1); [by apply Hnot|]. unfold daysIn. rewrite (proj2 (Z.eqb_neq _ _) E). done.
Qed.

(** ** Layouts: [Time.Format] and [time.Parse] *)

Inductive chunk := CYear | CMonth | CDay | CHour | CMinute | CSecond | CZone | CLit (c : ascii).

Definition RFC3339 : list chunk :=
  [CYear; CLit "-"; CMonth; CLit "-"; CDay; CLit "T"; CHour; CLit ":"; CMinute; CLit ":"; CSecond; CZone].
Definition layout_day : list chunk := [CYear; CLit "-"; CMonth; CLit "-"; CDay].
Definition layout_utc : list chunk :=
  [CYear; CLit "-"; CMonth; CLit "-"; CDay; CLit "T"; CHour; CLit ":"; CMinute; CLit ":"; CSecond; CLit "Z"].

Definition Second_of (t : Z) : Z := (t mod Minute) / Second.

Fixpoint last_digits (w : nat) (x : Z) : bytes :=
  match w with
  | O => []
  | S w => last_digits w (x / 10) ++ [ascii_of_N (Z.to_N (48 + x mod 10))]
  end.

(** [appendInt]: padded with zeros to the width. *)
Definition appendInt (x : Z) (w : nat) : bytes :=
  (if x <? 0 then ["-"%char] else []) ++ (if Z.abs x <? 10 ^ Z.of_nat w then last_digits w (Z.abs x) else byt (FormatInt (Z.abs x))).

Definition format_chunk (t : Z) (c : chunk) : bytes :=
  match c with
  | CYear => appendInt (Year (date_of t)) 4
  | CMonth => appendInt (Month (date_of t)) 2
  | CDay => appendInt (MDay (date_of t)) 2
  | CHour => appendInt (Hour_of t) 2
  | CMinute => appendInt (Minute_of t) 2
  | CSecond => appendInt (Second_of t) 2
  | CZone => ["Z"%char]
  | CLit c => [c]
  end.

(** In UTC. *)
Definition time_Format (l : list chunk) (t : Z) : string := str (concat (format_chunk t <$> l)).

Record fields := mkFields { f_year : Z; f_month : Z; f_day : Z; f_hour : Z; f_min : Z; f_sec : Z; f_nsec : Z; f_offset : Z }.

(** [getnum]: two digits, or one where that is accepted. *)
Definition getnum (fixed : bool) (s : bytes) : option (Z * bytes) :=
  match s with
  | a :: b :: s' => if negb (isDigitb a) then None
                    else if isDigitb b then Some (digit_val a * 10 + digit_val b, s')
                    else if fixed then None else Some (digit_val a, b :: s')
  | [a] => if isDigitb a && negb fixed then Some (digit_val a, []) else None
  | [] => None
  end.

Definition within (lo hi : Z) (r : option (Z * bytes)) : option (Z * bytes) :=
  match r with Some (n, s) => if (lo <=? n) && (n <=? hi) then Some (n, s) else None | None => None end.

(** A fraction of a second, which is accepted after the seconds. *)
Definition parse_fraction (s : bytes) : Z * bytes :=
  match s with
  | p :: d :: _ =>
      if (bool_decide (p = "."%char) || bool_decide (p = ","%char)) && isDigitb d then
        let ds := take_while isDigitb (drop 1 s) in
        let kept := take 9 ds in
        (digits_val kept * 10 ^ (9 - Z.of_nat (length kept)), drop (length ds) (drop 1 s))
      else (0, s)
  | _ => (0, s)
  end.

Definition parse_zone (s : bytes) : option (Z * bytes) :=
  match s with
  | "Z"%char :: s' => Some (0, s')
  | sign :: h1 :: h2 :: ":"%char :: m1 :: m2 :: s' =>
      match within 0 24 (getnum true [h1; h2]), within 0 60 (getnum true [m1; m2]) with
      | Some (hr, _), Some (mm, _) =>
          let zone := (hr * 60 + mm) * 60 in
          if bool_decide (sign = "+"%char) then Some (zone, s') else if bool_decide (sign = "-"%char) then Some (- zone, s') else None
      | _, _ => None
      end
  | _ => None
  end.

Definition parse_chunk (c : chunk) (f : fields) (s : bytes) : option (fields * bytes) :=
  let '(mkFields y mo d h mi sec ns off) := f in
  match c with
  | CYear =>
      match s with
      | a :: b :: c :: e :: s' => if forallb isDigitb [a; b; c; e] then Some (mkFields (digits_val [a; b; c; e]) mo d h mi sec ns off, s') else None
      | _ => None
      end
  | CMonth => match within 1 12 (getnum true s) with Some (n, s') => Some (mkFields y n d h mi sec ns off, s') | None => None end
  | CDay => match getnum true s with Some (n, s') => Some (mkFields y mo n h mi sec ns off, s') | None => None end
  | CHour => match within 0 23 (getnum false s) with Some (n, s') => Some (mkFields y mo d n mi sec ns off, s') | None => None end
  | CMinute => match within 0 59 (getnum true s) with Some (n, s') => Some (mkFields y mo d h n sec ns off, s') | None => None end
  | CSecond =>
      match within 0 59 (getnum true s) with
      | Some (n, s') => let '(frac, s'') := parse_fraction s' in Some (mkFields y mo d h mi n frac off, s'')
      | None => None
      end
  | CZone => match parse_zone s with Some (n, s') => Some (mkFields y mo d h mi sec ns n, s') | None => None end
  | CLit l => match s with a :: s' => if decide (a = l) then Some (f, s') else None | [] => None end
  end.

Fixpoint parse_chunks (l : list chunk) (f : fields) (s : bytes) : option (fields * bytes) :=
  match l with
  | [] => Some (f, s)
  | c :: l => match parse_chunk c f s with Some (f, s) => parse_chunks l f s | None => None end
  end.

Definition time_Parse (l : list chunk) (value : string) : option Z :=
  match parse_chunks l (mkFields 0 1 1 0 0 0 0 0) (byt value) with
  | Some (mkFields y mo d h mi sec ns off, []) =>
      if (1 <=? d) && (d <=? daysIn mo y) then Some (Date y mo d + h * Hour + mi * Minute + sec * Second + ns - off * Second) else None
  | _ => None
  end.

Lemma last_digit x : isDigitb (ascii_of_N (Z.to_N (48 + x mod 10))) = true /\ digit_val (ascii_of_N (Z.to_N (48 + x mod 10))) = x mod 10.
Proof.
  pose proof (Z.mod_pos_bound x 10 ltac:(lia)) as H.
  assert (Hx : x mod 10 = 0 \/ x mod 10 = 1 \/ x mod 10 = 2 \/ x mod 10 = 3 \/ x mod 10 = 4 \/ x mod 10 = 5 \/ x mod 10 = 6 \/ x mod 10 = 7 \/ x mod 10 = 8 \/ x mod 10 = 9) by lia.
  repeat (destruct Hx as [->|Hx]; [by vm_compute|]). rewrite Hx. by vm_compute.
Qed.

Lemma appendInt_2 x : 0 <= x < 100 -> exists a b, appendInt x 2 = [a; b] /\ isDigitb a = true /\ isDigitb b = true /\ digit_val a * 10 + digit_val b = x.
Proof.
  intros H. unfold appendInt. rewrite (proj2 (Z.ltb_ge x 0)), Z.abs_eq by lia. change (10 ^ Z.of_nat 2) with 100. rewrite (proj2 (Z.ltb_lt x 100)) by lia.
  cbn [last_digits app]. destruct (last_digit (x / 10)) as [H1 H2], (last_digit x) as [H3 H4]. eexists _, _. repeat split; try done.
  rewrite H2, H4. div_lia.
Qed.

Lemma appendInt_4 x : 0 <= x < 10000 -> exists a b c d, appendInt x 4 = [a; b; c; d] /\ forallb isDigitb [a; b; c; d] = true /\ digits_val [a; b; c; d] = x.
Proof.
  intros H. unfold appendInt. rewrite (proj2 (Z.ltb_ge x 0)), Z.abs_eq by lia. change (10 ^ Z.of_nat 4) with 10000. rewrite (proj2 (Z.ltb_lt x 10000)) by lia.
  cbn [last_digits app]. destruct (last_digit (x / 10 / 10 / 10)) as [H1 D1], (last_digit (x / 10 / 10)) as [H2 D2], (last_digit (x / 10)) as [H3 D3], (last_digit x) as [H4 D4].
  eexists _, _, _, _. split; [done|]. split; [cbn [forallb]; by rewrite H1, H2, H3, H4|]. unfold digits_val. cbn [fold_left]. rewrite D1, D2, D3, D4. div_lia.
Qed.

(** What is written with two digits is read back. *)
Lemma getnum_appendInt fixed x s : 0 <= x < 100 -> getnum fixed (appendInt x 2 ++ s) = Some (x, s).
Proof. intros H. destruct (appendInt_2 x H) as (a & b & -> & Ha & Hb & E). cbn. by rewrite Ha, Hb, E. Qed.

Lemma parse_year_appendInt x f s : 0 <= x < 10000 -> parse_chunk CYear f (appendInt x 4 ++ s) =
  Some (mkFields x (f_month f) (f_day f) (f_hour f) (f_min f) (f_sec f) (f_nsec f) (f_offset f), s).
Proof.
  intros H. destruct (appendInt_4 x H) as (a & b & c & d & -> & Hd & E). destruct f. cbn [app parse_chunk]. by rewrite Hd, E.
Qed.

Lemma clock_parts t : 0 <= Hour_of t <= 23 /\ 0 <= Minute_of t <= 59 /\ 0 <= Second_of t <= 59 /\
  t / Day * Day + Hour_of t * Hour + Minute_of t * Minute + Second_of t * Second = Truncate t Second.
Proof.
  unfold Truncate, Hour_of, Minute_of, Second_of. unfold Day, Hour, Minute, Second. change (86400 * 10 ^ 9) with 86400000000000. change (3600 * 10 ^ 9) with 3600000000000.
  change (60 * 10 ^ 9) with 60000000000. change (10 ^ 9) with 1000000000. div_lia.
Qed.

Lemma Date_civil t : Date (Year (date_of t)) (Month (date_of t)) (MDay (date_of t)) = t / Day * Day.
Proof.
  destruct (date_roundtrip (day_number t)) as (H & Hm & _). unfold date_of, Date. rewrite (Z.div_small (_ - 1)), (Z.mod_small (_ - 1)) by lia.
  replace (Month _ - 1 + 1) with (Month (date_of_days (day_number t))) by lia. by rewrite Z.add_0_r, H.
Qed.

Lemma within_ok lo hi n s : lo <= n <= hi -> within lo hi (Some (n, s)) = Some (n, s).
Proof. intros H. cbn. by rewrite (proj2 (Z.leb_le lo n)), (proj2 (Z.leb_le n hi)) by lia. Qed.

Ltac parse_steps :=
  cbn [concat fmap list_fmap format_chunk parse_chunks];
  rewrite <- ?app_assoc;
  repeat first
    [ rewrite parse_year_appendInt by lia
    | progress cbn [app parse_chunk f_month f_day f_hour f_min f_sec f_nsec f_offset]
    | rewrite getnum_appendInt by lia
    | rewrite within_ok by lia
    | rewrite decide_True by done ].

(** A time of the years 0 to 9999 that is written is read back, up to the
    fraction of its second. *)
Lemma RFC3339_roundtrip t : 0 <= Year (date_of t) <= 9999 -> time_Parse RFC3339 (time_Format RFC3339 t) = Some (Truncate t Second).
Proof.
  intros Hy. unfold time_Parse, time_Format. rewrite byt_str.
  pose proof (date_roundtrip (day_number t)) as (_ & Hm & Hd). fold (date_of t) in Hm, Hd.
  pose proof (clock_parts t) as (Hh & Hmi & Hs & E). pose proof (Date_civil t) as ED.
  assert (MDay (date_of t) <= 31) by (unfold daysIn in Hd; repeat case_match; lia).
  unfold RFC3339. parse_steps. change (parse_fraction ["Z"%char]) with (0, ["Z"%char]). cbn [parse_chunk parse_zone]. rewrite (proj2 (Z.leb_le 1 _)), (proj2 (Z.leb_le _ (daysIn _ _))) by lia. cbn [andb].
  f_equal. rewrite ED. lia.
Qed.

(** The layouts ["20060102T150405Z"] and ["20060102"]. *)
Definition layout_compact : list chunk := [CYear; CMonth; CDay; CLit "T"; CHour; CMinute; CSecond; CLit "Z"].
Definition layout_date : list chunk := [CYear; CMonth; CDay].

Lemma compact_roundtrip t : 0 <= Year (date_of t) <= 9999 -> time_Parse layout_compact (time_Format layout_compact t) = Some (Truncate t Second).
Proof.
  intros Hy. unfold time_Parse, time_Format. rewrite byt_str.
  pose proof (date_roundtrip (day_number t)) as (_ & Hm & Hd). fold (date_of t) in Hm, Hd.
  pose proof (clock_parts t) as (Hh & Hmi & Hs & E). pose proof (Date_civil t) as ED.
  assert (MDay (date_of t) <= 31) by (unfold daysIn in Hd; repeat case_match; lia).
  unfold layout_compact. parse_steps. change (parse_fraction ["Z"%char]) with (0, ["Z"%char]). cbn [parse_chunk]. rewrite decide_True by done.
  rewrite (proj2 (Z.leb_le 1 _)), (proj2 (Z.leb_le _ (daysIn _ _))) by lia. cbn [andb]. f_equal. rewrite ED. lia.
Qed.

Example format_sample : time_Format RFC3339 (Date 2024 2 29 + 3 * Hour + 4 * Minute + 5 * Second) = "2024-02-29T03:04:05Z"%string.
Proof. vm_compute. reflexivity. Qed.
Example parse_sample : time_Parse RFC3339 "2024-02-29T03:04:05.25+01:00"%string = Some (Date 2024 2 29 + 2 * Hour + 4 * Minute + 5 * Second + 250 * Millisecond).
Proof. vm_compute. reflexivity. Qed.
Example parse_no_such_day : time_Parse RFC3339 "2023-02-29T03:04:05Z"%string = None.
Proof. vm_compute. reflexivity. Qed.
