(* ===== verification/Cron.v ===== *)
(** * Cron expressions and the job scheduler ([chrono/pkg/cron/cron.go])

    Instants are nanoseconds in UTC.  A [for] loop whose step the expression
    chooses may not end: the field matcher takes a bound on the rounds and
    answers [None] when it is reached. *)

From S2P Require Import Prelude GoStrings GoFloat GoTime.
Local Open Scope string_scope.
Local Open Scope Z_scope.
Local Open Scope list_scope.

(** ** Matching one field *)

(** [for i := start; i <= end; i += step { if i == val { return true } }] *)
Fixpoint scan_range (fuel : nat) (i stop step val : Z) : option bool :=
  match fuel with
  | O => None
  | S f =>
      if i <=? stop then
        if i =? val then Some true else scan_range f (wrap64 (i + step)) stop step val
      else Some false
  end.

(** [strings.Split(s, sep)[n]], which exists where the source indexes. *)
Definition part (s : string) (sep : ascii) (n : nat) : string := default EmptyString (Split s sep !! n).

(** [start], [end] and [step] of a field without commas; [None] for a field
    that matches nothing. *)
Definition field_range (field : string) (minVal maxVal : Z) : option (Z * Z * Z) :=
  let '(rangeStr, step) :=
    if ContainsByte field "/" then
      (part field "/" 0, match Atoi (part field "/" 1) with Some v => v | None => 1 end)
    else (field, 1) in
  if bool_decide (rangeStr = "*") then Some (minVal, maxVal, step)
  else if ContainsByte rangeStr "-" then
    match Atoi (part rangeStr "-" 0), Atoi (part rangeStr "-" 1) with
    | Some s, Some e => Some (s, e, step)
    | _, _ => Some (0, 0, step)
    end
  else match Atoi rangeStr with
       | Some s => Some (s, s, step)
       | None => None
       end.

Definition match_part (fuel : nat) (field : string) (val minVal maxVal : Z) : option bool :=
  if bool_decide (field = "*") then Some true
  else match field_range field minVal maxVal with
       | Some (start, stop, step) => scan_range fuel start stop step val
       | None => Some false
       end.

(** [a && b] and [a || b] where an operand may not return. *)
Definition and_then (a b : option bool) : option bool :=
  match a with Some true => b | Some false => Some false | None => None end.
Definition or_else (a b : option bool) : option bool :=
  match a with Some true => Some true | Some false => b | None => None end.

Fixpoint match_parts (fuel : nat) (parts : list string) (val minVal maxVal : Z) : option bool :=
  match parts with
  | [] => Some false
  | p :: parts =>
      or_else (match_part fuel p val minVal maxVal) (match_parts fuel parts val minVal maxVal)
  end.

(** The parts of a field with commas have none: the recursion is one deep. *)
Definition matchField (fuel : nat) (field : string) (val minVal maxVal : Z) : option bool :=
  if bool_decide (field = "*") then Some true
  else if ContainsByte field "," then match_parts fuel (Split field ",") val minVal maxVal
  else match_part fuel field val minVal maxVal.

(** ** Matching an instant *)

Definition isNearestWeekday (t targetDay : Z) : bool :=
  let d := date_of t in
  let targetDate := Date (Year d) (Month d) targetDay in
  let wd := Weekday targetDate in
  let nearestDate :=
    if wd =? 6 then
      if targetDay =? 1 then AddDate targetDate 0 0 2 else AddDate targetDate 0 0 (-1)
    else if wd =? 0 then
      let lastDay := MDay (date_of (Date (Year d) (Month d + 1) 0)) in
      if targetDay =? lastDay then AddDate targetDate 0 0 (-2) else AddDate targetDate 0 0 1
    else targetDate in
  let n := date_of nearestDate in
  (Year d =? Year n) && (Month d =? Month n) && (MDay d =? MDay n).

Definition day_matches (fuel : nat) (dayField : string) (t : Z) : option bool :=
  if bool_decide (dayField = "L") then Some (MDay (date_of (AddDate t 0 0 1)) =? 1)
  else if HasSuffix dayField "W" then
    let targetDayStr := TrimSuffix dayField "W" in
    let targetDay :=
      if bool_decide (targetDayStr = "") then MDay (date_of t)
      else match Atoi targetDayStr with Some val => val | None => 1 end in
    Some (isNearestWeekday t targetDay)
  else matchField fuel dayField (MDay (date_of t)) 1 31.

(** The day field is matched first, as in the source. *)
Definition matchCron (fuel : nat) (fields : list string) (t : Z) : option bool :=
  match fields with
  | [f0; f1; f2; f3; f4] =>
      dayMatch ← day_matches fuel f2 t;
      let dowVal := Weekday t in
      and_then (matchField fuel f0 (Minute_of t) 0 59)
        (and_then (matchField fuel f1 (Hour_of t) 0 23)
          (and_then (Some dayMatch)
            (and_then (matchField fuel f3 (Month (date_of t)) 1 12)
              (or_else (matchField fuel f4 dowVal 0 6)
                 (if dowVal =? 0 then matchField fuel f4 7 0 7 else Some false)))))
  | _ => Some false
  end.

(** ** The next run *)

Inductive CronError := ErrFieldCount | ErrNoMatch | ErrInterval.

(** [for t.Before(maxSearch) { ...; t = t.Add(time.Minute) }], over [n]
    minutes at most. *)
Fixpoint search (n : nat) (fuel : nat) (fields : list string) (t maxSearch : Z) : option (Z + CronError) :=
  match n with
  | O => Some (inr ErrNoMatch)
  | S n =>
      if t <? maxSearch then
        match matchCron fuel fields t with
        | Some true => Some (inl t)
        | Some false => search n fuel fields (t + Minute) maxSearch
        | None => None
        end
      else Some (inr ErrNoMatch)
  end.

(** The minutes from an instant to the end of the search, and one more. *)
Definition search_bound (t maxSearch : Z) : nat := Z.to_nat ((maxSearch - t) / Minute + 2).

Definition CalculateNextCron (fuel : nat) (cronExpr : string) (from : Z) : option (Z + CronError) :=
  let fields := Fields cronExpr in
  if negb (length fields =? 5)%nat then Some (inr ErrFieldCount)
  else
    let t := Truncate from Minute + Minute in
    let maxSearch := AddDate from 2 0 0 in
    search (search_bound t maxSearch) fuel fields t maxSearch.

(** ** Jobs *)

Record Job := mkJob {
  ID : string;
  Interval : string;
  Cron : string;
  TargetURL : string;
  Payload : string;
  NextTopic : string;
  NextRun : option Z;        (** [None] is the zero time of an unscheduled job *)
  LastRun : option Z;
  Status : string;
  LastOutcome : string;
  FailureCount : Z;
  OnSuccess : string;
  OnFailure : string;
  MaxRetries : Z;
  RetryDelayMs : Z;
  RetryBackoffMult : float64;
  RetryCount : Z;
  LastRetryAt : option Z }.

Definition set_next (j : Job) (next : option Z) : Job :=
  mkJob (ID j) (Interval j) (Cron j) (TargetURL j) (Payload j) (NextTopic j) next (LastRun j)
    (Status j) (LastOutcome j) (FailureCount j) (OnSuccess j) (OnFailure j) (MaxRetries j)
    (RetryDelayMs j) (RetryBackoffMult j) (RetryCount j) (LastRetryAt j).
Definition set_last (j : Job) (last : Z) : Job :=
  mkJob (ID j) (Interval j) (Cron j) (TargetURL j) (Payload j) (NextTopic j) (NextRun j)
    (Some last) (Status j) (LastOutcome j) (FailureCount j) (OnSuccess j) (OnFailure j)
    (MaxRetries j) (RetryDelayMs j) (RetryBackoffMult j) (RetryCount j) (LastRetryAt j).
Definition set_status (j : Job) (status : string) : Job :=
  mkJob (ID j) (Interval j) (Cron j) (TargetURL j) (Payload j) (NextTopic j) (NextRun j)
    (LastRun j) status (LastOutcome j) (FailureCount j) (OnSuccess j) (OnFailure j) (MaxRetries j)
    (RetryDelayMs j) (RetryBackoffMult j) (RetryCount j) (LastRetryAt j).
Definition set_retry (j : Job) (n : Z) (at_ : Z) : Job :=
  mkJob (ID j) (Interval j) (Cron j) (TargetURL j) (Payload j) (NextTopic j) (NextRun j)
    (LastRun j) (Status j) (LastOutcome j) (FailureCount j) (OnSuccess j) (OnFailure j)
    (MaxRetries j) (RetryDelayMs j) (RetryBackoffMult j) n (Some at_).
Definition set_outcome (j : Job) (outcome : string) (failures : Z) : Job :=
  mkJob (ID j) (Interval j) (Cron j) (TargetURL j) (Payload j) (NextTopic j) (NextRun j)
    (LastRun j) (Status j) outcome failures (OnSuccess j) (OnFailure j) (MaxRetries j)
    (RetryDelayMs j) (RetryBackoffMult j) (RetryCount j) (LastRetryAt j).

Definition calculateNextRun (fuel : nat) (job : Job) (from : Z) : option (option Z + CronError) :=
  if negb (bool_decide (Cron job = "")) then
    r ← CalculateNextCron fuel (Cron job) from;
    Some match r with inl t => inl (Some t) | inr e => inr e end
  else if bool_decide (Interval job = "") then Some (inl None)
  else match ParseDuration (Interval job) with
       | Some dur => Some (inl (Some (from + dur)))
       | None => Some (inr ErrInterval)
       end.

Abbreviation Scheduler := (gmap string Job).

Inductive AddError := ErrEmptyID | ErrEmptyURL | ErrSchedule (e : CronError).

(** [None] on the left of the result is success. *)
Definition AddJob (fuel : nat) (job : Job) (now : Z) (s : Scheduler) : option (option AddError * Scheduler) :=
  if bool_decide (ID job = "") then Some (Some ErrEmptyID, s)
  else if bool_decide (TargetURL job = "") then Some (Some ErrEmptyURL, s)
  else
    r ← calculateNextRun fuel job now;
    Some match r with
         | inr e => (Some (ErrSchedule e), s)
         | inl next =>
             let job := set_next job next in
             let job := if bool_decide (Status job = "") then set_status job "active" else job in
             (None, <[ID job := job]> s)
         end.

Definition RemoveJob (id : string) (s : Scheduler) : bool * Scheduler :=
  if s !! id is Some _ then (true, delete id s) else (false, s).

(** ** One tick of the run loop

    The lock function is the optional callback of the scheduler. *)

Section Tick.
Context (acquireLockFunc : option (string -> option Z -> bool)) (fuel : nat) (now : Z).

Definition due (job : Job) : bool :=
  match NextRun job with Some t => t <? now | None => true end.

(** What the tick does to one job, and whether it starts it. *)
Definition check_job (job : Job) : option (Job * bool) :=
  if bool_decide (Cron job = "") && bool_decide (Interval job = "") then Some (job, false)
  else if bool_decide (Status job = "active") && due job then
    r ← calculateNextRun fuel job now;
    match r with
    | inr _ => Some (set_status job "paused", false)
    | inl next =>
        match acquireLockFunc with
        | Some lock =>
            if lock (ID job) (NextRun job) then Some (set_next (set_last job now) next, true)
            else Some (set_next job next, false)
        | None => Some (set_next (set_last job now) next, true)
        end
    end
  else Some (job, false).

(** The jobs in the order the map gives them; the started ones. *)
Fixpoint check_jobs (ids : list string) (s : Scheduler) : option (list string * Scheduler) :=
  match ids with
  | [] => Some ([], s)
  | id :: ids =>
      match s !! id with
      | None => check_jobs ids s
      | Some job =>
          match check_job job with
          | None => None
          | Some (job', started) =>
              match check_jobs ids (<[id := job']> s) with
              | None => None
              | Some (l, s') => Some (if started then id :: l else l, s')
              end
          end
      end
  end.
End Tick.

(** ** Running a job

    A run takes from its environment whether its [n]th request succeeds
    ([http n]: no error and a 2xx status) and the instant of its [n]th event,
    the start being event 0 and the [n]th retry event [n]. *)

Record environment := mkEnvironment { http : nat -> bool; clock : nat -> Z }.

(** The retry loop: the requests made after the first, and the outcome. *)
Fixpoint retry_loop (fuel : nat) (http : nat -> bool) (attempt : nat) (maxRetries : Z) : nat * bool :=
  match fuel with
  | O => (attempt, http attempt)
  | S f =>
      if negb (http attempt) && (Z.of_nat attempt <? maxRetries) then retry_loop f http (S attempt) maxRetries
      else (attempt, http attempt)
  end.

(** The table after a run: retry count, last run, outcome, failure count. *)
Definition record_run (id : string) (retries : nat) (ok : bool) (clock : nat -> Z) (s : Scheduler) : Scheduler :=
  match s !! id with
  | None => s
  | Some j =>
      let j := if (0 <? retries)%nat then set_retry j (Z.of_nat retries) (clock retries) else j in
      let j := set_last j (clock 0%nat) in
      <[id := if ok then set_outcome j "success" 0 else set_outcome j "failed" (FailureCount j + 1)]> s
  end.

(** What a run leaves outside of the scheduler: the job it ran, with which
    result, and the topic it published to. *)
Record run := mkRun { r_job : Job; r_retries : nat; r_ok : bool; r_topic : option string }.

Definition run_of (job : Job) (retries : nat) (ok : bool) : run :=
  mkRun job retries ok (if ok && negb (bool_decide (NextTopic job = "")) then Some (NextTopic job) else None).

(** The chain of runs a start causes, at most until depth 10.  [levels] is
    [10 - depth], and numbers the runs of the chain. *)
Fixpoint executeJobWithDepth (levels : nat) (env : nat -> environment) (job : Job)
    (s : Scheduler) : list run * Scheduler :=
  let '(retries, ok) := retry_loop (Z.to_nat (MaxRetries job)) (http (env levels)) 0 (MaxRetries job) in
  let s := record_run (ID job) retries ok (clock (env levels)) s in
  match levels with
  | O => ([run_of job retries ok], s)
  | S n =>
      let nextJobID := if ok then OnSuccess job else OnFailure job in
      if bool_decide (nextJobID = "") then ([run_of job retries ok], s)
      else match s !! nextJobID with
           | Some nextJob =>
               if bool_decide (Status nextJob = "active") then
                 let '(l, s') := executeJobWithDepth n env nextJob s in (run_of job retries ok :: l, s')
               else ([run_of job retries ok], s)
           | None => ([run_of job retries ok], s)
           end
  end.

(** Depths 1 to 10. *)
Definition executeJob := executeJobWithDepth 9.

(** [TriggerJob]: whether the job exists, and the runs it causes. *)
Definition TriggerJob (env : nat -> environment) (id : string) (s : Scheduler) : bool * (list run * Scheduler) :=
  match s !! id with
  | None => (false, ([], s))
  | Some job => (true, executeJob env job s)
  end.
