(* ===== verification/CronProps.v ===== *)
(** * Correctness of cron expressions and of the scheduler

    The field matcher implements the usual meaning of stars, numbers, ranges,
    steps and lists; the next run is the earliest matching minute after the
    given instant; a tick does not start a job twice for one scheduled
    instant; retries and job chains are bounded. *)

From S2P Require Import Prelude GoStrings GoNumbers GoFloat GoTime Cron.
Local Open Scope string_scope.
Local Open Scope Z_scope.
Local Open Scope list_scope.

(** ** Text without a separator *)

(** Cutting at the only separator. *)
Lemma part_two a b sep :
  sep ∉ byt a -> sep ∉ byt b ->
  part (a +:+ String sep b) sep 0 = a /\ part (a +:+ String sep b) sep 1 = b.
Proof.
  intros Ha Hb. unfold part, Split. rewrite byt_app. change (byt (String sep b)) with (sep :: byt b).
  rewrite bytes_Split_app, bytes_Split_no by done. cbn. by rewrite !str_byt.
Qed.

Lemma contains_mid a b sep : ContainsByte (a +:+ String sep b) sep = true.
Proof.
  rewrite ContainsByte_elem, byt_app. apply bool_decide_eq_true.
  change (byt (String sep b)) with (sep :: byt b). apply elem_of_app. right. left.
Qed.

(** ** The grammar of fields *)

Inductive item :=
  | Any
  | AnyEvery (n : string)
  | One (a : string)
  | Range (a b : string)
  | RangeEvery (a b n : string).

Definition print_item (i : item) : string :=
  match i with
  | Any => "*"
  | AnyEvery n => "*" +:+ String "/" n
  | One a => a
  | Range a b => a +:+ String "-" b
  | RangeEvery a b n => (a +:+ String "-" b) +:+ String "/" n
  end.

Definition wf_item (i : item) : Prop :=
  match i with
  | Any => True
  | AnyEvery n => number n /\ 1 <= num n
  | One a => number a
  | Range a b => number a /\ number b
  | RangeEvery a b n => number a /\ number b /\ number n /\ 1 <= num n
  end.

#[global] Instance wf_item_dec i : Decision (wf_item i).
Proof. destruct i; cbn; apply _. Defined.

Definition in_steps (start stop step val : Z) : bool :=
  (start <=? val) && (val <=? stop) && ((val - start) mod step =? 0).

(** What an item means: the values it selects. *)
Definition denote_item (minVal maxVal : Z) (i : item) (val : Z) : bool :=
  match i with
  | Any => true
  | AnyEvery n => in_steps minVal maxVal (num n) val
  | One a => val =? num a
  | Range a b => (num a <=? val) && (val <=? num b)
  | RangeEvery a b n => in_steps (num a) (num b) (num n) val
  end.

(** ** The range loop *)

Lemma in_steps_next start stop step val :
  1 <= step -> start <= stop -> start <> val ->
  in_steps start stop step val = in_steps (start + step) stop step val.
Proof.
  intros Hs Hle Hne. unfold in_steps.
  replace (val - (start + step)) with (val - start + (-1) * step) by lia. rewrite Z.mod_add by lia.
  destruct ((val - start) mod step =? 0) eqn:E; [|by rewrite !andb_false_r]. boolify.
  apply Z.mod_divide in E as [q Hq]; [|lia].
  destruct (val <=? stop); [|by rewrite !andb_false_r]. rewrite !andb_true_r.
  destruct (start <=? val) eqn:E1, (start + step <=? val) eqn:E2; boolify; try done; exfalso; [|lia].
  destruct (Z.le_gt_cases q 0); nia.
Qed.

Lemma scan_range_spec n start stop step val :
  1 <= step -> 0 <= start -> stop < 10 ^ 18 -> step < 10 ^ 18 -> start <= stop + step ->
  Z.of_nat n = Z.max 0 (stop - start + 1) -> forall fuel, (n < fuel)%nat ->
  scan_range fuel start stop step val = Some (in_steps start stop step val).
Proof.
  intros Hs. revert start. induction n as [n IH] using lt_wf_ind. intros start H0 Hstop Hstep Hle Hn fuel Hf.
  destruct fuel as [|fuel]; [lia|]. cbn [scan_range].
  destruct (start <=? stop) eqn:E; boolify.
  - destruct (start =? val) eqn:Ev; boolify.
    + subst. unfold in_steps. rewrite Z.sub_diag, Z.mod_0_l by lia.
      by replace (val <=? val) with true by lia; replace (val <=? stop) with true by lia.
    + rewrite (in_steps_next start stop step val) by lia.
      rewrite wrap64_id by (unfold in_int64, min_int64, max_int64; lia).
      apply (IH (Z.to_nat (Z.max 0 (stop - (start + step) + 1)))); lia.
  - unfold in_steps. destruct (start <=? val) eqn:E1, (val <=? stop) eqn:E2; boolify; try done. lia.
Qed.

(** Enough rounds for the longest loop over numbers of 18 digits and the
    bounds of the field. *)
Lemma scan_returns start stop step :
  1 <= step < 10 ^ 18 -> 0 <= start -> stop < 10 ^ 18 ->
  exists n, forall fuel, (n <= fuel)%nat -> forall val, scan_range fuel start stop step val = Some (in_steps start stop step val).
Proof.
  intros Hs H0 Hstop. destruct (decide (start <= stop + step)) as [Hle|Hle].
  - exists (S (Z.to_nat (Z.max 0 (stop - start + 1)))). intros fuel Hf val.
    apply (scan_range_spec (Z.to_nat (Z.max 0 (stop - start + 1)))); lia.
  - exists 1%nat. intros [|fuel] Hf val; [lia|]. cbn. replace (start <=? stop) with false by lia.
    unfold in_steps. destruct (start <=? val) eqn:E1, (val <=? stop) eqn:E2; boolify; try done. lia.
Qed.

Lemma in_steps_one a b val : in_steps a b 1 val = (a <=? val) && (val <=? b).
Proof. unfold in_steps. by rewrite Z.mod_1_r, andb_true_r. Qed.

(** ** The field matcher *)

(** A number of rounds that is enough for every value. *)
Definition returns {A B} (f : nat -> B -> option A) (g : B -> A) : Prop :=
  exists n, forall fuel, (n <= fuel)%nat -> forall b, f fuel b = Some (g b).

Lemma returns_now {A B} (g : B -> A) : returns (fun _ b => Some (g b)) g.
Proof. by exists 0%nat. Qed.

Lemma number_not_star ds : number ds -> ds <> "*".
Proof. intros (_ & Hd & _) ->. done. Qed.

Lemma app_not_star a b c : number a -> a +:+ String c b <> "*".
Proof.
  intros (Hne & Hd & _) E. apply (f_equal byt) in E. rewrite byt_app in E.
  destruct (byt a) as [|x l]; [done|]. cbn in E. injection E as -> E. done.
Qed.

Lemma contains_number ds c : number ds -> isDigitb c = false -> ContainsByte ds c = false.
Proof. intros Hn Hc. rewrite ContainsByte_elem. apply bool_decide_eq_false. by apply number_free. Qed.

Lemma range_free a b c :
  number a -> number b -> isDigitb c = false -> c <> "-"%char -> c ∉ byt (a +:+ String "-" b).
Proof.
  intros Ha Hb Hc Hne. rewrite byt_app, elem_of_app. change (byt (String "-" b)) with ("-"%char :: byt b).
  rewrite elem_of_cons. intros [H|[H|H]]; [by apply (number_free a c)|done|by apply (number_free b c)].
Qed.

Lemma range_parts a b :
  number a -> number b ->
  ContainsByte (a +:+ String "-" b) "-" = true /\
  Atoi (part (a +:+ String "-" b) "-" 0) = Some (num a) /\
  Atoi (part (a +:+ String "-" b) "-" 1) = Some (num b).
Proof.
  intros Ha Hb. destruct (part_two a b "-") as [-> ->]; [by apply number_free..|].
  splits; [apply contains_mid|by apply Atoi_number|by apply Atoi_number].
Qed.

Lemma field_range_item minVal maxVal i :
  wf_item i -> i <> Any ->
  exists start stop step, field_range (print_item i) minVal maxVal = Some (start, stop, step) /\
    print_item i <> "*" /\ 1 <= step < 10 ^ 18 /\
    (0 <= minVal -> 0 <= start) /\ (maxVal < 10 ^ 18 -> stop < 10 ^ 18) /\
    forall val, denote_item minVal maxVal i val = in_steps start stop step val.
Proof.
  intros Hw Hany. unfold field_range. destruct i as [|n|a|a b|a b n]; cbn [print_item wf_item denote_item] in *; [done| | | |].
  - destruct Hw as [Hn H1]. pose proof (num_range _ Hn). exists minVal, maxVal, (num n).
    rewrite contains_mid. destruct (part_two "*" n "/") as [-> ->]; [|by apply number_free|].
    { change (byt "*") with ["*"%char]. by rewrite list_elem_of_singleton. }
    rewrite Atoi_number, bool_decide_true by done. splits; try done; lia.
  - pose proof (num_range _ Hw). exists (num a), (num a), 1.
    rewrite !contains_number, Atoi_number by done.
    rewrite bool_decide_false by (by apply number_not_star). splits; try done; try lia.
    + by apply number_not_star.
    + intros val. rewrite in_steps_one. lia.
  - destruct Hw as [Ha Hb]. pose proof (num_range _ Ha). pose proof (num_range _ Hb).
    exists (num a), (num b), 1. rewrite ContainsByte_elem, bool_decide_false by (by apply range_free).
    destruct (range_parts a b) as (-> & -> & ->); [done..|].
    rewrite bool_decide_false by (by apply app_not_star). splits; try done; try lia.
    + by apply app_not_star.
    + intros val. by rewrite in_steps_one.
  - destruct Hw as (Ha & Hb & Hn & H1). pose proof (num_range _ Ha). pose proof (num_range _ Hb).
    pose proof (num_range _ Hn). exists (num a), (num b), (num n). rewrite contains_mid.
    destruct (part_two (a +:+ String "-" b) n "/") as [-> ->]; [by apply range_free|by apply number_free|].
    destruct (range_parts a b) as (-> & -> & ->); [done..|]. rewrite Atoi_number by done.
    rewrite bool_decide_false by (by apply app_not_star). splits; try done; try lia.
    rewrite str_app_assoc. by apply app_not_star.
Qed.

Lemma match_part_item minVal maxVal i :
  wf_item i -> 0 <= minVal -> maxVal < 10 ^ 18 ->
  returns (fun fuel val => match_part fuel (print_item i) val minVal maxVal) (denote_item minVal maxVal i).
Proof.
  intros Hw Hmin Hmax. unfold match_part.
  destruct i; [apply returns_now| | | |];
    (destruct (field_range_item minVal maxVal _ Hw) as (start & stop & step & Hf & Hne & Hstep & Hs & He & Hd);
      [done|]; destruct (scan_returns start stop step) as [rounds Hn]; [auto..|]; exists rounds; intros fuel Hfu val;
      rewrite bool_decide_false, Hf, Hd by done; by apply Hn).
Qed.

(** The characters of a field. *)
Definition foreign (c : ascii) : Prop := isDigitb c = false /\ c <> "*"%char /\ c <> "/"%char /\ c <> "-"%char.

Lemma item_free c i : foreign c -> wf_item i -> c ∉ byt (print_item i).
Proof.
  intros (Hd & H1 & H2 & H3). destruct i as [|n|a|a b|a b n]; cbn [wf_item print_item]; intros Hw.
  - change (byt "*") with ["*"%char]. by rewrite list_elem_of_singleton.
  - rewrite byt_app, elem_of_app. change (byt (String "/" n)) with ("/"%char :: byt n). rewrite elem_of_cons.
    change (byt "*") with ["*"%char]. rewrite list_elem_of_singleton.
    destruct Hw as [Hn _]. intros [?|[?|?]]; [done|done|by apply (number_free n c)].
  - by apply number_free.
  - destruct Hw. by apply range_free.
  - destruct Hw as (Ha & Hb & Hn & _). rewrite byt_app, elem_of_app.
    change (byt (String "/" n)) with ("/"%char :: byt n). rewrite elem_of_cons.
    intros [?|[?|?]]; [by apply (range_free a b c)|done|by apply (number_free n c)].
Qed.

Lemma item_no_comma i : wf_item i -> ","%char ∉ byt (print_item i).
Proof. by apply item_free. Qed.

Lemma match_parts_items minVal maxVal its :
  Forall wf_item its -> 0 <= minVal -> maxVal < 10 ^ 18 ->
  returns (fun fuel val => match_parts fuel (map print_item its) val minVal maxVal)
    (fun val => existsb (fun i => denote_item minVal maxVal i val) its).
Proof.
  intros Hw Hmin Hmax. induction Hw as [|i its Hi Hw IH]; cbn; [by exists 0%nat|].
  destruct (match_part_item minVal maxVal i Hi Hmin Hmax) as [n1 H1]. destruct IH as [n2 H2].
  exists (Nat.max n1 n2). intros fuel Hf val. rewrite H1, H2 by lia. by destruct (denote_item _ _ i val).
Qed.

(** A field is a list of items, separated by commas. *)
Definition print_field (its : list item) : string := Join (map print_item its) ",".

(** The values that a field selects. *)
Definition selects (minVal maxVal : Z) (its : list item) (val : Z) : bool := existsb (fun i => denote_item minVal maxVal i val) its.

Definition wf_field (its : list item) : Prop := its <> [] /\ Forall wf_item its.

Lemma match_field_items minVal maxVal its :
  wf_field its -> 0 <= minVal -> maxVal < 10 ^ 18 ->
  returns (fun fuel val => matchField fuel (print_field its) val minVal maxVal) (selects minVal maxVal its).
Proof.
  intros [Hne Hw] Hmin Hmax. unfold matchField, selects.
  assert (Hsplit : Split (print_field its) "," = map print_item its).
  { apply Split_Join; [by destruct its|]. apply Forall_map. eapply Forall_impl; [exact Hw|]. apply item_no_comma. }
  destruct its as [|i [|j its]]; [done| |].
  - unfold print_field. cbn [map Join fold_left]. rewrite Forall_singleton in Hw.
    assert (Hc : ContainsByte (print_item i) "," = false)
      by (rewrite ContainsByte_elem; apply bool_decide_eq_false; by apply item_no_comma).
    rewrite Hc. cbn. destruct (match_part_item minVal maxVal i Hw Hmin Hmax) as [n Hn].
    exists n. intros fuel Hf val. rewrite orb_false_r, <- (Hn fuel Hf). unfold match_part. by destruct (bool_decide _).
  - assert (Hc : ContainsByte (print_field (i :: j :: its)) "," = true).
    { rewrite ContainsByte_elem. apply bool_decide_eq_true. unfold print_field.
      rewrite Join_byt. cbn [map]. rewrite bytes_join_cons by done. apply elem_of_app. right. left. }
    rewrite bool_decide_false, Hc, Hsplit by (intros E; rewrite E in Hc; done).
    by apply match_parts_items.
Qed.

(** ** Whole expressions

    Five fields; the day of the month may be the last one, [L].  The form
    with [W], the weekday nearest to a day, is not among them. *)

Inductive day_field := Days (its : list item) | LastDay.

Record schedule := mkSchedule { s_minute : list item; s_hour : list item; s_day : day_field; s_month : list item; s_weekday : list item }.

Definition print_day (d : day_field) : string := match d with Days its => print_field its | LastDay => "L" end.

Definition fields_of (s : schedule) : list string :=
  [print_field (s_minute s); print_field (s_hour s); print_day (s_day s); print_field (s_month s); print_field (s_weekday s)].

Definition wf_schedule (s : schedule) : Prop :=
  wf_field (s_minute s) /\ wf_field (s_hour s) /\ (forall its, s_day s = Days its -> wf_field its) /\ wf_field (s_month s) /\ wf_field (s_weekday s).

(** The instants that an expression selects, in UTC: every field has to; a
    Sunday is the weekday 0 and also 7, and the last day of a month is the one
    before a first. *)
Definition selected (s : schedule) (t : Z) : bool :=
  selects 0 59 (s_minute s) (Minute_of t) && selects 0 23 (s_hour s) (Hour_of t) &&
  match s_day s with Days its => selects 1 31 its (MDay (date_of t)) | LastDay => MDay (date_of (t + Day)) =? 1 end &&
  selects 1 12 (s_month s) (Month (date_of t)) &&
  (selects 0 6 (s_weekday s) (Weekday t) || ((Weekday t =? 0) && selects 0 7 (s_weekday s) 7)).

Lemma field_free c its : foreign c -> c <> ","%char -> Forall wf_item its -> c ∉ byt (print_field its).
Proof.
  intros Hc Hne Hw. unfold print_field. rewrite Join_byt. induction Hw as [|i its Hi Hw IH]; [apply not_elem_of_nil|].
  destruct its as [|j its]; [by apply item_free|].
  cbn [map] in *. rewrite bytes_join_cons by done. rewrite elem_of_app, elem_of_cons. intros [H|[H|H]]; [by eapply item_free|done|by apply IH].
Qed.

(** The day after. *)
Lemma AddDate_tomorrow t : AddDate t 0 0 1 = t + Day.
Proof.
  unfold AddDate. rewrite !Z.add_0_r.
  assert (E : Date (Year (date_of t)) (Month (date_of t)) (MDay (date_of t) + 1) = Date (Year (date_of t)) (Month (date_of t)) (MDay (date_of t)) + Day).
  { unfold Date, days_of_date. lia. }
  rewrite E, Date_civil. pose proof (Z.div_mod t Day ltac:(done)). lia.
Qed.

Lemma day_matches_selects d : (forall its, d = Days its -> wf_field its) ->
  returns (fun fuel t => day_matches fuel (print_day d) t) (fun t => match d with Days its => selects 1 31 its (MDay (date_of t)) | LastDay => MDay (date_of (t + Day)) =? 1 end).
Proof.
  intros Hw. destruct d as [its|].
  - pose proof (Hw its eq_refl) as Hwf. destruct (match_field_items 1 31 its Hwf) as [n Hn]; [lia|lia|]. exists n. intros fuel Hf t. unfold day_matches, print_day.
    assert (HL : print_field its <> "L"). { intros E. apply (field_free "L"%char its); [done|done|apply Hwf|]. rewrite E. by left. }
    assert (HW : HasSuffix (print_field its) "W" = false).
    { destruct (HasSuffix _ _) eqn:E; [|done]. exfalso. unfold HasSuffix in E. apply bytes_HasPrefix_iff in E as [r E]. apply (field_free "W"%char its); [done|done|apply Hwf|].
      rewrite list_elem_of_In, in_rev, E. by left. }
    rewrite bool_decide_false, HW by done. by apply Hn.
  - exists 0%nat. intros fuel _ t. unfold day_matches. cbn. by rewrite AddDate_tomorrow.
Qed.

Lemma matchCron_selected s : wf_schedule s -> returns (fun fuel t => matchCron fuel (fields_of s) t) (selected s).
Proof.
  intros (H0 & H1 & H2 & H3 & H4). destruct (match_field_items 0 59 _ H0) as [n0 E0]; [lia|lia|]. destruct (match_field_items 0 23 _ H1) as [n1 E1]; [lia|lia|].
  destruct (day_matches_selects _ H2) as [n2 E2]. destruct (match_field_items 1 12 _ H3) as [n3 E3]; [lia|lia|].
  destruct (match_field_items 0 6 _ H4) as [n4 E4]; [lia|lia|]. destruct (match_field_items 0 7 _ H4) as [n5 E5]; [lia|lia|].
  exists (n0 + n1 + n2 + n3 + n4 + n5)%nat. intros fuel Hf t. unfold matchCron, fields_of, selected.
  rewrite E0, E1, E2, E3, E4, E5 by lia. cbn [mbind option_bind]. destruct (match s_day s with Days _ => _ | LastDay => _ end), (selects 0 59 _ _), (selects 0 23 _ _), (selects 1 12 _ _), (selects 0 6 _ _), (Weekday t =? 0); done.
Qed.

(** ** The search for the next run *)

(** The specification of a search from [t] on: the first match at a whole
    number of minutes from [t], below the limit. *)
Definition search_spec (fuel : nat) (fields : list string) (t limit : Z) (r : Z + CronError) : Prop :=
  match r with
  | inl u => exists k, 0 <= k /\ u = t + k * Minute /\ u < limit /\ matchCron fuel fields u = Some true /\
      forall j, 0 <= j < k -> matchCron fuel fields (t + j * Minute) = Some false
  | inr e => e = ErrNoMatch /\
      forall j, 0 <= j -> t + j * Minute < limit -> matchCron fuel fields (t + j * Minute) = Some false
  end.

Lemma search_correct n fuel fields t limit :
  (forall u, t <= u -> u < limit -> is_Some (matchCron fuel fields u)) ->
  limit <= t + Z.of_nat n * Minute ->
  exists r, search n fuel fields t limit = Some r /\ search_spec fuel fields t limit r.
Proof.
  revert t. induction n as [|n IH]; intros t Hret Hn; cbn [search].
  - exists (inr ErrNoMatch). split; [done|]. split; [done|]. unfold Minute, Second in *. intros j Hj. lia.
  - destruct (t <? limit) eqn:E; boolify.
    + destruct (Hret t) as [b Hb]; [lia|lia|]. rewrite Hb. destruct b.
      * exists (inl t). split; [done|]. exists 0. rewrite Z.mul_0_l, Z.add_0_r. splits; try done. lia.
      * destruct (IH (t + Minute)) as (r & Hr & Hs).
        { intros u Hu. apply Hret. unfold Minute, Second in *. lia. }
        { unfold Minute, Second in *. lia. }
        exists r. split; [done|]. destruct r as [u|e]; cbn in *.
        -- destruct Hs as (k & Hk & -> & Hlt & Hm & Hno). exists (k + 1). splits; try done; [lia|lia|].
           intros j Hj. destruct (decide (j = 0)) as [->|]; [by rewrite Z.mul_0_l, Z.add_0_r|].
           specialize (Hno (j - 1)). replace (t + j * Minute) with (t + Minute + (j - 1) * Minute) by lia.
           apply Hno. lia.
        -- destruct Hs as [-> Hno]. split; [done|]. intros j Hj Hlt.
           destruct (decide (j = 0)) as [->|]; [by rewrite Z.mul_0_l, Z.add_0_r|].
           specialize (Hno (j - 1)). replace (t + j * Minute) with (t + Minute + (j - 1) * Minute) in * by lia.
           apply Hno; lia.
    + exists (inr ErrNoMatch). split; [done|]. split; [done|]. intros j Hj Hlt.
      unfold Minute, Second in *. lia.
Qed.

Lemma search_bound_enough t limit : limit <= t + Z.of_nat (search_bound t limit) * Minute.
Proof.
  unfold search_bound. pose proof (Z.div_mod (limit - t) Minute ltac:(done)).
  pose proof (Z.mod_pos_bound (limit - t) Minute ltac:(done)). set (q := (limit - t) / Minute) in *.
  unfold Minute, Second in *. lia.
Qed.

Lemma next_cron_spec fuel cronExpr from :
  length (Fields cronExpr) = 5%nat ->
  (forall u, from < u -> u < AddDate from 2 0 0 -> is_Some (matchCron fuel (Fields cronExpr) u)) ->
  exists r, CalculateNextCron fuel cronExpr from = Some r /\
    match r with
    | inl t => from < t < AddDate from 2 0 0 /\ t mod Minute = 0 /\
        matchCron fuel (Fields cronExpr) t = Some true /\
        forall u, from < u < t -> u mod Minute = 0 -> matchCron fuel (Fields cronExpr) u = Some false
    | inr e => e = ErrNoMatch /\
        forall u, from < u < AddDate from 2 0 0 -> u mod Minute = 0 ->
          matchCron fuel (Fields cronExpr) u = Some false
    end.
Proof.
  intros Hlen Hret. unfold CalculateNextCron. rewrite Hlen. cbn [negb Nat.eqb].
  set (t := Truncate from Minute + Minute). set (limit := AddDate from 2 0 0) in *.
  assert (Ht : from < t <= from + Minute /\ t mod Minute = 0).
  { unfold t, Truncate. pose proof (Z.mod_pos_bound from Minute ltac:(done)).
    pose proof (Z.div_mod from Minute ltac:(done)). split; [lia|].
    replace (from - from mod Minute + Minute) with ((from / Minute + 1) * Minute) by lia.
    by apply Z.mod_mul. }
  assert (Hgrid : forall u, from < u -> u mod Minute = 0 -> exists j, 0 <= j /\ u = t + j * Minute).
  { intros u Hu Hm. destruct Ht as [Ht Htm].
    pose proof (Z.div_mod u Minute ltac:(done)). pose proof (Z.div_mod t Minute ltac:(done)).
    exists (u / Minute - t / Minute). unfold Minute, Second in *. lia. }
  destruct (search_correct (search_bound t limit) fuel (Fields cronExpr) t limit) as (r & Hr & Hs).
  { intros u Hu Hl. apply Hret; lia. }
  { apply search_bound_enough. }
  exists r. split; [done|]. destruct r as [u|e]; cbn in Hs.
  - destruct Hs as (k & Hk & -> & Hlt & Hm & Hno). splits.
    + unfold Minute, Second in *. lia.
    + done.
    + rewrite Z.mod_add by done. by apply Ht.
    + done.
    + intros u [Hu1 Hu2] Hum. destruct (Hgrid u Hu1 Hum) as (j & Hj & ->). apply Hno.
      unfold Minute, Second in *. lia.
  - destruct Hs as [-> Hno]. split; [done|]. intros u [Hu1 Hu2] Hum.
    destruct (Hgrid u Hu1 Hum) as (j & Hj & ->). by apply Hno.
Qed.

(** ** Properties of expressions *)

(** A field of stars, numbers, ranges, steps of at least one, and lists
    of these matches exactly the values it denotes, and the matcher returns:
    there is a number of rounds of its loops that is always enough. *)
Theorem matchField_denotes its minVal maxVal :
  wf_field its -> 0 <= minVal -> maxVal < 10 ^ 18 ->
  exists n, forall fuel, (n <= fuel)%nat -> forall val, matchField fuel (print_field its) val minVal maxVal = Some (selects minVal maxVal its val).
Proof. apply match_field_items. Qed.

Lemma search_same n fuel fuel' fields d t limit : (forall u, matchCron fuel fields u = Some (d u)) -> (forall u, matchCron fuel' fields u = Some (d u)) ->
  search n fuel fields t limit = search n fuel' fields t limit.
Proof. intros H H'. revert t. induction n as [|n IH]; intros t; cbn [search]; [done|]. rewrite H, H'. by destruct (_ <? _), (d t). Qed.

(** C39: the next run is the earliest minute that the expression selects.  For
    an expression of five fields, each a list of stars, numbers, ranges and
    steps that are not zero (or L for the last day of the month), the
    calculation returns, and gives the first whole minute after the given
    instant whose minute, hour, day, month and weekday in UTC are all
    selected; when there is none within two years it says so. *)
Theorem next_cron_earliest s cronExpr from :
  wf_schedule s -> Fields cronExpr = fields_of s ->
  exists r n, (forall fuel, (n <= fuel)%nat -> CalculateNextCron fuel cronExpr from = Some r) /\
    match r with
    | inl t => from < t < AddDate from 2 0 0 /\ t mod Minute = 0 /\ selected s t = true /\
        forall u, from < u < t -> u mod Minute = 0 -> selected s u = false
    | inr e => e = ErrNoMatch /\ forall u, from < u < AddDate from 2 0 0 -> u mod Minute = 0 -> selected s u = false
    end.
Proof.
  intros Hw HF. destruct (matchCron_selected s Hw) as [n Hn].
  destruct (next_cron_spec n cronExpr from) as (r & Hr & Hs); [by rewrite HF|intros u _ _; rewrite HF, Hn by lia; by eexists|].
  assert (Hsel : forall u b, matchCron n (Fields cronExpr) u = Some b -> selected s u = b) by (intros u b; rewrite HF, Hn by lia; congruence).
  exists r, n. split.
  - intros fuel Hf. rewrite <- Hr. unfold CalculateNextCron. rewrite HF. cbn [length fields_of negb Nat.eqb]. apply (search_same _ _ _ _ (selected s)); intros u; apply Hn; lia.
  - destruct r as [t|e].
    + destruct Hs as (H1 & H2 & H3 & H4). refine (conj H1 (conj H2 (conj (Hsel _ _ H3) _))). intros u Hu Hm. by apply Hsel, H4.
    + destruct Hs as [-> H]. split; [done|]. intros u Hu Hm. by apply Hsel, H.
Qed.

(** A step of zero never ends the loop, unless the first value matches: no
    number of rounds is enough. *)
Theorem zero_step_diverges fuel val : val <> 0 -> matchField fuel "*/0" val 0 59 = None.
Proof.
  intros Hv.
  assert (G : scan_range fuel 0 59 0 val = None).
  { induction fuel as [|f IH]; [done|]. cbn [scan_range]. replace (0 <=? 59) with true by done.
    replace (0 =? val) with false by lia. exact IH. }
  exact G.
Qed.

(** Names are not understood: a range of weekday names matches Sunday and
    nothing else. *)
Theorem weekday_names_match_sunday val :
  0 <= val <= 6 -> matchField 2 "MON-FRI" val 0 6 = Some (val =? 0).
Proof. intros Hv. assert (val ∈ [0;1;2;3;4;5;6]) as H by (set_unfold; lia). set_unfold in H. by destruct_or! H; subst. Qed.

(** A step after a single number is dropped: [5/15] matches 5 only. *)
Theorem step_after_number_ignored : matchField 3 "5/15" 20 0 59 = Some false /\ matchField 3 "5/15" 5 0 59 = Some true.
Proof. split; vm_compute; reflexivity. Qed.

(** ** Properties of the scheduler *)

Section Tick.
Context (lock : option (string -> option Z -> bool)) (fuel : nat).

(** The job repeats: a cron expression, or a positive interval. *)
Definition advances (job : Job) : Prop :=
  Cron job <> "" \/ exists dur, ParseDuration (Interval job) = Some dur /\ 0 < dur.

Lemma next_run_after job now next :
  advances job -> (Cron job <> "" \/ Interval job <> "") ->
  (forall u, now < u -> u < AddDate now 2 0 0 -> is_Some (matchCron fuel (Fields (Cron job)) u)) ->
  calculateNextRun fuel job now = Some (inl next) -> exists t, next = Some t /\ now < t.
Proof.
  intros Ha Hs Hret. unfold calculateNextRun.
  destruct (bool_decide_reflect (Cron job = "")) as [Hc|Hc]; cbn [negb].
  - rewrite bool_decide_false by naive_solver. destruct Ha as [|(dur & -> & Hd)]; [done|].
    intros [= <-]. eexists. split; [done|lia].
  - destruct (decide (length (Fields (Cron job)) = 5%nat)) as [Hl|Hl].
    + destruct (next_cron_spec fuel (Cron job) now Hl Hret) as (r & -> & Hr).
      destruct r as [t|e]; cbn; [|done]. intros [= <-]. exists t. split; [done|]. by destruct Hr as [[]].
    + unfold CalculateNextCron. apply Nat.eqb_neq in Hl. rewrite Hl. done.
Qed.

(** A tick does not start a job twice for one scheduled instant: a job
    that a tick at [now] starts was active and due, is rescheduled after
    [now], and no tick up to its new instant starts it again. *)
Theorem tick_starts_once job job' now :
  check_job lock fuel now job = Some (job', true) -> advances job ->
  (forall u, now < u -> u < AddDate now 2 0 0 -> is_Some (matchCron fuel (Fields (Cron job)) u)) ->
  Status job = "active" /\ due now job = true /\ LastRun job' = Some now /\
  exists t, NextRun job' = Some t /\ now < t /\
    forall lock' now', now' <= t -> check_job lock' fuel now' job' = Some (job', false).
Proof.
  unfold check_job at 1. intros Hc Ha Hret.
  destruct (bool_decide (Cron job = "") && bool_decide (Interval job = "")) eqn:Hs; [done|].
  destruct (bool_decide (Status job = "active")) eqn:Hst; cbn [andb] in Hc; [|done].
  destruct (due now job) eqn:Hd; [|done].
  destruct (calculateNextRun fuel job now) as [[next|e]|] eqn:Hn; cbn in Hc; try done.
  assert (Hj : job' = set_next (set_last job now) next).
  { destruct lock as [f|]; [destruct (f _ _)|]; by simplify_eq. }
  destruct (next_run_after job now next Ha) as (t & -> & Ht); [|done|done|].
  { apply andb_false_iff in Hs as [H|H]; apply bool_decide_eq_false in H; auto. }
  subst job'. apply bool_decide_eq_true in Hst. splits; try done. exists t. splits; try done.
  intros lock' now' Hle. unfold check_job. cbn [Cron Interval Status set_next set_last].
  rewrite Hs. unfold due. cbn [NextRun set_next].
  replace (t <? now') with false by lia. by rewrite andb_false_r.
Qed.
End Tick.

(** Retries stop at the first success and at the limit: all requests of
    a run before the last failed, the run succeeds exactly when the last
    request did, there are at most [MaxRetries] requests after the first, and
    a failed run used all of them. *)
Theorem retries_exact http maxRetries :
  let '(n, ok) := retry_loop (Z.to_nat maxRetries) http 0 maxRetries in
  ok = http n /\ Z.of_nat n <= Z.max 0 maxRetries /\ (forall i, (i < n)%nat -> http i = false) /\
  (ok = false -> Z.of_nat n = Z.max 0 maxRetries).
Proof.
  enough (G : forall fuel i, (fuel + i = Z.to_nat maxRetries)%nat -> (forall j, (j < i)%nat -> http j = false) ->
    let '(n, ok) := retry_loop fuel http i maxRetries in
    ok = http n /\ Z.of_nat n <= Z.max 0 maxRetries /\ (forall j, (j < n)%nat -> http j = false) /\
    (ok = false -> Z.of_nat n = Z.max 0 maxRetries)).
  { apply (G (Z.to_nat maxRetries) 0%nat); [lia|]. intros; lia. }
  induction fuel as [|f IH]; intros i Hf Hi; cbn [retry_loop]; [splits; try done; lia|].
  destruct (http i) eqn:E; cbn [negb andb]; [splits; try done; lia|].
  replace (Z.of_nat i <? maxRetries) with true by lia. apply IH; [lia|].
  intros j Hj. destruct (decide (j = i)) as [->|]; [done|]. apply Hi. lia.
Qed.

(** ** Chains of jobs *)

(** The table files every job under its identifier. *)
Definition filed (s : Scheduler) : Prop := forall id j, s !! id = Some j -> ID j = id.

Lemma record_run_lookup id retries ok clk s k :
  record_run id retries ok clk s !! k =
    if decide (k = id) then record_run id retries ok clk s !! id else s !! k.
Proof.
  destruct (decide (k = id)) as [->|Hne]; [done|]. unfold record_run.
  destruct (s !! id); [|done]. by rewrite lookup_insert_ne.
Qed.

Lemma record_run_outcome id retries ok clk s j :
  record_run id retries ok clk s !! id = Some j ->
  exists j0, s !! id = Some j0 /\ ID j = ID j0 /\ LastOutcome j = if ok then "success" else "failed".
Proof.
  unfold record_run. destruct (s !! id) as [j0|] eqn:E; [|congruence].
  rewrite lookup_insert_eq. intros [= <-]. exists j0.
  destruct ok, (0 <? retries)%nat; splits; done.
Qed.

Lemma record_run_filed id retries ok clk s : filed s -> filed (record_run id retries ok clk s).
Proof.
  intros Hf k j. rewrite record_run_lookup. destruct (decide (k = id)) as [->|]; [|apply Hf].
  intros (j0 & Hj0 & -> & _)%record_run_outcome. by apply Hf.
Qed.

(** [r2] is the job that [r1] names for its outcome. *)
Definition follows (r1 r2 : run) : Prop :=
  ID (r_job r2) = (if r_ok r1 then OnSuccess (r_job r1) else OnFailure (r_job r1)) /\
  Status (r_job r2) = "active".

(** The last run of a job in a chain. *)
Definition last_run (id : string) (rs : list run) : option run := last (filter (fun r => ID (r_job r) = id) rs).

Lemma last_run_cons id r rs :
  last_run id (r :: rs) = match last_run id rs with
                          | Some r' => Some r'
                          | None => if decide (ID (r_job r) = id) then Some r else None
                          end.
Proof.
  unfold last_run. rewrite filter_cons. destruct (decide (ID (r_job r) = id)).
  - rewrite last_cons. by destruct (last _).
  - by destruct (last _).
Qed.

Record chain_ok (levels : nat) (job : Job) (s : Scheduler) (rs : list run) (s' : Scheduler) : Prop := mkChainOk {
  chain_starts : exists r rest, rs = r :: rest /\ r_job r = job;
  chain_short : (length rs <= S levels)%nat;
  chain_linked : forall i r1 r2, rs !! i = Some r1 -> rs !! S i = Some r2 -> follows r1 r2;
  chain_local : forall id, last_run id rs = None -> s' !! id = s !! id;
  chain_recorded : forall id r j, last_run id rs = Some r -> s' !! id = Some j ->
    LastOutcome j = if r_ok r then "success" else "failed" }.

(** The chain that ends with its first run. *)
Lemma chain_ok_single levels job retries ok clk s :
  chain_ok levels job s [run_of job retries ok] (record_run (ID job) retries ok clk s).
Proof.
  constructor.
  - by eexists _, [].
  - cbn. lia.
  - by intros [|[]] r1 r2.
  - intros id. rewrite last_run_cons, record_run_lookup. cbn. by repeat case_decide.
  - intros id r j. rewrite last_run_cons, record_run_lookup. cbn. repeat case_decide; try congruence.
    intros [= <-] (_ & _ & _ & ->)%record_run_outcome. done.
Qed.

Lemma chain_ok_cons levels job retries ok clk s nj rs s' :
  let s1 := record_run (ID job) retries ok clk s in
  filed s -> s1 !! (if ok then OnSuccess job else OnFailure job) = Some nj -> Status nj = "active" ->
  chain_ok levels nj s1 rs s' -> chain_ok (S levels) job s (run_of job retries ok :: rs) s'.
Proof.
  intros s1 Hf Hn Ha [(r & rest & -> & Hr) Hlen Hlink Hloc Hrec]. constructor.
  - by do 2 eexists.
  - cbn in *. lia.
  - intros [|i] r1 r2; cbn; [|by apply Hlink]. intros [= <-] [= <-]. split; cbn [r_job r_ok run_of].
    + rewrite Hr. by apply (record_run_filed (ID job) retries ok clk s Hf).
    + by rewrite Hr.
  - intros id. rewrite last_run_cons. destruct (last_run id (r :: rest)) eqn:E; [done|].
    cbn [r_job run_of]. case_decide; [done|]. intros _. rewrite Hloc by done.
    unfold s1. rewrite record_run_lookup. by rewrite decide_False by congruence.
  - intros id r' j. rewrite last_run_cons. destruct (last_run id (r :: rest)) eqn:E.
    + intros [= <-]. by apply Hrec.
    + cbn [r_job run_of]. case_decide; [|done]. subst id. intros [= <-]. rewrite Hloc by done.
      intros (_ & _ & _ & ->)%record_run_outcome. done.
Qed.

Lemma chain_spec levels env job s :
  filed s -> chain_ok levels job s (executeJobWithDepth levels env job s).1 (executeJobWithDepth levels env job s).2.
Proof.
  revert job s. induction levels as [|n IH]; intros job s Hf; cbn [executeJobWithDepth];
    destruct (retry_loop _ _ _ _) as [r ok]; [apply chain_ok_single|].
  destruct (bool_decide _); [apply chain_ok_single|].
  destruct (record_run _ _ _ _ s !! _) as [nj|] eqn:Hn; [|apply chain_ok_single].
  destruct (bool_decide (Status nj = "active")) eqn:Ha; [|apply chain_ok_single].
  apply bool_decide_eq_true in Ha.
  specialize (IH nj _ (record_run_filed (ID job) r ok (clock (env (S n))) s Hf)).
  destruct (executeJobWithDepth n env nj _) as [l s'] eqn:E. cbn [fst snd] in *.
  by eapply chain_ok_cons.
Qed.

(** Job chains end and follow their links: however jobs point at each
    other through [OnSuccess] and [OnFailure], in cycles too, one start causes
    at most ten runs; the first is of the started job, every further one of an
    active job that the run before names for its outcome; jobs that did not
    run are untouched, and those that ran show the outcome of their last
    run. *)
Theorem job_chain_sound env job s :
  filed s ->
  let '(rs, s') := executeJob env job s in
  (exists r rest, rs = r :: rest /\ r_job r = job) /\ (length rs <= 10)%nat /\
  (forall i r1 r2, rs !! i = Some r1 -> rs !! S i = Some r2 -> follows r1 r2) /\
  (forall id, last_run id rs = None -> s' !! id = s !! id) /\
  (forall id r j, last_run id rs = Some r -> s' !! id = Some j ->
    LastOutcome j = if r_ok r then "success" else "failed").
Proof.
  intros Hf. pose proof (chain_spec 9 env job s Hf) as [].
  change (executeJob env job s) with (executeJobWithDepth 9 env job s).
  destruct (executeJobWithDepth 9 env job s) as [rs s']. splits; done.
Qed.

(** The operations on the table keep it filed. *)
Lemma AddJob_filed fuel job now s r s' : filed s -> AddJob fuel job now s = Some (r, s') -> filed s'.
Proof.
  intros Hf. unfold AddJob. destruct (bool_decide (ID job = "")); [intros [= <- <-]; done|].
  destruct (bool_decide (TargetURL job = "")); [intros [= <- <-]; done|].
  destruct (calculateNextRun fuel job now) as [[next|e]|]; cbn; try done; intros [= <- <-]; [|done].
  intros id j. set (job' := if bool_decide _ then _ else _).
  assert (E : ID job' = ID job) by (unfold job'; by destruct (bool_decide _)).
  rewrite lookup_insert. case_decide; [|apply Hf]. intros [= <-]. done.
Qed.

Lemma RemoveJob_filed id s : filed s -> filed (RemoveJob id s).2.
Proof.
  intros Hf. unfold RemoveJob. destruct (s !! id) as [j0|]; [|done]. intros k j Hk. cbn in Hk.
  apply lookup_delete_Some in Hk as [_ Hk]. by apply Hf.
Qed.

(** ** Witnesses *)

Lemma matchField_denotes_witness :
  exists n, forall fuel, (n <= fuel)%nat -> forall val, matchField fuel "1-5/2,30" val 0 59 = Some (selects 0 59 [RangeEvery "1" "5" "2"; One "30"] val).
Proof.
  apply (matchField_denotes [RangeEvery "1" "5" "2"; One "30"] 0 59); [|lia|lia]. split; [done|].
  repeat constructor; cbn; vm_compute; congruence || done.
Defined.

(** Every quarter of an hour of the afternoon on the last day of a month. *)
Definition month_end : schedule := mkSchedule [AnyEvery "15"] [Range "12" "18"] LastDay [Any] [Any].

Lemma next_cron_earliest_witness :
  Fields "*/15 12-18 L * *" = fields_of month_end /\
  exists r n, (forall fuel, (n <= fuel)%nat -> CalculateNextCron fuel "*/15 12-18 L * *" 0 = Some r) /\
    match r with
    | inl t => 0 < t < AddDate 0 2 0 0 /\ t mod Minute = 0 /\ selected month_end t = true /\ forall u, 0 < u < t -> u mod Minute = 0 -> selected month_end u = false
    | inr e => e = ErrNoMatch /\ forall u, 0 < u < AddDate 0 2 0 0 -> u mod Minute = 0 -> selected month_end u = false
    end.
Proof.
  split; [vm_compute; reflexivity|]. apply (next_cron_earliest month_end "*/15 12-18 L * *" 0); [|vm_compute; reflexivity].
  unfold wf_schedule, wf_field; cbn. splits; try done; repeat constructor; cbn; vm_compute; congruence || done.
Defined.

Definition sample_job : Job :=
  mkJob "backup" "10s" "" "http://localhost/run" "" "" (Some 5) None "active" "" 0 "" "" 0 0 fzero 0 None.

Lemma tick_starts_once_witness :
  exists job', check_job None 1 (20 * Second) sample_job = Some (job', true) /\
    exists t, NextRun job' = Some t /\ 20 * Second < t /\
      forall lock' now', now' <= t -> check_job lock' 1 now' job' = Some (job', false).
Proof.
  eexists. split; [vm_compute; reflexivity|].
  refine (proj2 (proj2 (proj2 (tick_starts_once None 1 sample_job _ (20 * Second) _ _ _)))).
  - vm_compute. reflexivity.
  - right. exists (10 * Second). split; vm_compute; reflexivity.
  - intros u _ _. exists false. reflexivity.
Defined.

(** A non-positive interval is accepted and leaves the job due at every
    tick. *)
Theorem negative_interval_always_due :
  let job := mkJob "j" "-5s" "" "http://localhost/run" "" "" None None "" "" 0 "" "" 0 0 fzero 0 None in
  exists s j, AddJob 1 job 0 ∅ = Some (None, s) /\ s !! "j" = Some j /\
    forall now, 0 <= now -> due now j = true.
Proof.
  do 2 eexists. split; [vm_compute; reflexivity|]. split; [vm_compute; reflexivity|].
  intros now Hn. unfold due. cbn. lia.
Qed.

(** ** A two-job cycle *)

Definition cyclic_job (id next : string) : Job :=
  mkJob id "" "" "u" "" "" None None "active" "" 0 next next 0 0 fzero 0 None.

Definition cyclic_table : Scheduler :=
  {["a" := cyclic_job "a" "b"; "b" := cyclic_job "b" "a"]}.

(** Every second run fails. *)
Definition alternating (level : nat) : environment :=
  mkEnvironment (fun _ => Nat.even level) (fun n => Z.of_nat n).

Lemma cyclic_table_filed : filed cyclic_table.
Proof.
  intros id j Hj. unfold cyclic_table in Hj. apply lookup_insert_Some in Hj as [[<- <-]|[_ Hj]]; [done|].
  apply lookup_singleton_Some in Hj as [<- <-]. done.
Qed.

Lemma job_chain_sound_witness :
  let '(rs, s') := executeJob alternating (cyclic_job "a" "b") cyclic_table in
  (length rs <= 10)%nat /\ forall i r1 r2, rs !! i = Some r1 -> rs !! S i = Some r2 -> follows r1 r2.
Proof.
  pose proof (job_chain_sound alternating (cyclic_job "a" "b") cyclic_table cyclic_table_filed) as H.
  destruct (executeJob alternating (cyclic_job "a" "b") cyclic_table) as [rs s'].
  exact (conj (proj1 (proj2 H)) (proj1 (proj2 (proj2 H)))).
Defined.

(** The bound is reached. *)
Example cyclic_chain :
  length (executeJob alternating (cyclic_job "a" "b") cyclic_table).1 = 10%nat.
Proof. vm_compute. reflexivity. Qed.
