(* ===== verification/Semver.v ===== *)
(** * Version resolution of the package hub ([hub/pkg/resolution/resolution.go])

    Versions, constraints, the choice of the best version, and the parser of
    the package manifest.  Go ranges over the map of versions in an
    unspecified order: the order is an argument.  Slicing out of range, which
    panics, is [None]. *)

From S2P Require Import Prelude GoStrings GoNumbers.
Local Open Scope string_scope.
Local Open Scope Z_scope.
Local Open Scope list_scope.

Abbreviation triplet := (Z * Z * Z)%type (only parsing).

Definition ParseSemver (v : string) : option triplet :=
  match Split (TrimPrefix v "v") "." with
  | [p0; p1; p2] =>
      match Atoi p0, Atoi p1, Atoi p2 with
      | Some major, Some minor, Some patch => Some (major, minor, patch)
      | _, _, _ => None
      end
  | _ => None
  end.

(** [for i := 0; i < 3; i++ { ... }] *)
Definition compare_int (a b : Z) : Z := if a <? b then -1 else if b <? a then 1 else 0.

Definition compareSemver (a b : triplet) : Z :=
  let '(a0, a1, a2) := a in
  let '(b0, b1, b2) := b in
  if negb (compare_int a0 b0 =? 0) then compare_int a0 b0
  else if negb (compare_int a1 b1 =? 0) then compare_int a1 b1
  else compare_int a2 b2.

Definition parseTriplet (v : string) : option triplet := ParseSemver v.

(** A range operator and what it asks of the version. *)
Definition against (constraint prefix : string) (test : triplet -> bool) : bool :=
  match parseTriplet (TrimPrefix constraint prefix) with Some rt => test rt | None => false end.

Definition caret (vt rt : triplet) : bool :=
  let '(v0, v1, v2) := vt in
  let '(r0, r1, r2) := rt in
  if 0 <? r0 then (v0 =? r0) && (0 <=? compareSemver vt rt)
  else if 0 <? r1 then (v0 =? 0) && (v1 =? r1) && (r2 <=? v2)
  else (v0 =? 0) && (v1 =? 0) && (v2 =? r2).

Definition tilde (vt rt : triplet) : bool :=
  let '(v0, v1, v2) := vt in
  let '(r0, r1, r2) := rt in (v0 =? r0) && (v1 =? r1) && (r2 <=? v2).

Definition matchSingleConstraint (constraint versionStr : string) : bool :=
  let constraint := TrimSpace constraint in
  if ContainsByte versionStr "-" then bool_decide (constraint = versionStr)
  else match parseTriplet versionStr with
  | None => false
  | Some vt =>
      if bool_decide (constraint = "") || bool_decide (constraint = "*") || bool_decide (constraint = "latest") then true
      else if bool_decide (constraint = versionStr) then true
      else if HasPrefix constraint "^" then against constraint "^" (caret vt)
      else if HasPrefix constraint "~" then against constraint "~" (tilde vt)
      else if HasPrefix constraint ">=" then against constraint ">=" (fun rt => 0 <=? compareSemver vt rt)
      else if HasPrefix constraint "<=" then against constraint "<=" (fun rt => compareSemver vt rt <=? 0)
      else if HasPrefix constraint ">" then against constraint ">" (fun rt => 0 <? compareSemver vt rt)
      else if HasPrefix constraint "<" then against constraint "<" (fun rt => compareSemver vt rt <? 0)
      else bool_decide (constraint = versionStr)
  end.

Definition MatchSemver (rangeStr versionStr : string) : bool :=
  let rangeStr := TrimSpace rangeStr in
  if bool_decide (rangeStr = "") || bool_decide (rangeStr = "*") || bool_decide (rangeStr = "latest") then true
  else forallb (fun part => matchSingleConstraint part versionStr) (Fields rangeStr).

(** The candidate a version replaces, and by what. *)
Definition better (vt best : triplet) : bool :=
  let '(maj, min, pat) := vt in
  let '(bmaj, bmin, bpat) := best in
  if bmaj <? maj then true
  else if maj =? bmaj then
    if bmin <? min then true
    else if min =? bmin then bpat <? pat else false
  else false.

Definition consider (rangeStr : string) (best : option (string * triplet)) (v : string) :
    option (string * triplet) :=
  if MatchSemver rangeStr v then
    match ParseSemver v with
    | None => best
    | Some t => match best with
                | None => Some (v, t)
                | Some (_, b) => if better t b then Some (v, t) else best
                end
    end
  else best.

(** The empty string when no version qualifies. *)
Definition ResolveBestVersion (rangeStr : string) (versions : list string) : string :=
  match foldl (consider rangeStr) None versions with Some (v, _) => v | None => "" end.

(** ** The manifest parser *)

Record manifest := mkManifest { mf_name : string; mf_version : string; mf_deps : list string }.

(** [s[1 : len(s)-1]] *)
Definition inner (s : string) : option string :=
  let b := byt s in
  if (length b <? 2)%nat then None else Some (str (take (length b - 2) (drop 1 b))).

Definition quoted_by (q : string) (v : string) : bool := HasPrefix v q && HasSuffix v q.

Definition unquote (v : string) : option string :=
  if quoted_by (String quote "") v || quoted_by "'" v then inner v else Some v.

Definition toml_line (st : manifest * bool) (line : string) : option (manifest * bool) :=
  let '(m, inDependenciesSection) := st in
  let line := TrimSpace line in
  if bool_decide (line = "") || HasPrefix line "#" then Some st
  else if HasPrefix line "[" && HasSuffix line "]" then
    match inner line with
    | None => None
    | Some section => Some (m, bool_decide (TrimSpace section = "dependencies"))
    end
  else match SplitN2 line "=" with
       | [k; v] =>
           let k := TrimSpace k in
           match unquote (TrimSpace v) with
           | None => None
           | Some v =>
               Some (if inDependenciesSection then
                       mkManifest (mf_name m) (mf_version m) (mf_deps m ++ [k +:+ "@" +:+ v])
                     else if bool_decide (k = "name") then mkManifest v (mf_version m) (mf_deps m)
                     else if bool_decide (k = "version") then mkManifest (mf_name m) v (mf_deps m)
                     else m, inDependenciesSection)
           end
       | _ => Some st
       end.

Fixpoint toml_lines (lines : list string) (st : manifest * bool) : option (manifest * bool) :=
  match lines with
  | [] => Some st
  | l :: lines => match toml_line st l with Some st' => toml_lines lines st' | None => None end
  end.

Definition ParseServToml (content : string) : option manifest :=
  match toml_lines (Split content nl) (mkManifest "" "" [], false) with
  | Some (m, _) => Some m
  | None => None
  end.

(** ** Theorems *)

(** ** The order of versions *)

Definition ver_lt (a b : Z * Z * Z) : Prop :=
  let '(a0, a1, a2) := a in
  let '(b0, b1, b2) := b in
  a0 < b0 \/ (a0 = b0 /\ (a1 < b1 \/ (a1 = b1 /\ a2 < b2))).

#[global] Instance ver_lt_dec a b : Decision (ver_lt a b).
Proof. destruct a as [[a0 a1] a2], b as [[b0 b1] b2]. cbn. apply _. Defined.

Lemma compareSemver_cases a b :
  (compareSemver a b = -1 /\ ver_lt a b) \/ (compareSemver a b = 0 /\ a = b) \/
  (compareSemver a b = 1 /\ ver_lt b a).
Proof.
  destruct a as [[a0 a1] a2], b as [[b0 b1] b2]. unfold compareSemver, compare_int, ver_lt.
  destruct (Z.lt_total a0 b0) as [H|[->|H]].
  - replace (a0 <? b0) with true by lia. left. cbn. lia.
  - rewrite Z.ltb_irrefl. cbn. destruct (Z.lt_total a1 b1) as [H|[->|H]].
    + replace (a1 <? b1) with true by lia. left. cbn. lia.
    + rewrite Z.ltb_irrefl. cbn. destruct (Z.lt_total a2 b2) as [H|[->|H]].
      * replace (a2 <? b2) with true by lia. left. lia.
      * rewrite Z.ltb_irrefl. right. left. done.
      * replace (a2 <? b2) with false by lia. replace (b2 <? a2) with true by lia. right. right. lia.
    + replace (a1 <? b1) with false by lia. replace (b1 <? a1) with true by lia. right. right. cbn. lia.
  - replace (a0 <? b0) with false by lia. replace (b0 <? a0) with true by lia. right. right. cbn. lia.
Qed.

Lemma ver_lt_irrefl a : ~ ver_lt a a.
Proof. destruct a as [[a0 a1] a2]. cbn. lia. Qed.

Lemma ver_lt_trans a b c : ver_lt a b -> ver_lt b c -> ver_lt a c.
Proof. destruct a as [[a0 a1] a2], b as [[b0 b1] b2], c as [[c0 c1] c2]. cbn. lia. Qed.

Lemma ver_lt_total a b : ver_lt a b \/ a = b \/ ver_lt b a.
Proof. destruct (compareSemver_cases a b) as [[_ ?]|[[_ ?]|[_ ?]]]; auto. Qed.

Lemma compare_nonneg a b : (0 <=? compareSemver a b) = negb (bool_decide (ver_lt a b)).
Proof.
  destruct (compareSemver_cases a b) as [[-> H]|[[-> ->]|[-> H]]].
  - by rewrite bool_decide_true.
  - rewrite bool_decide_false; [done|apply ver_lt_irrefl].
  - rewrite bool_decide_false; [done|]. intros H'. apply (ver_lt_irrefl a). by eapply ver_lt_trans.
Qed.

Lemma better_spec a b : better a b = bool_decide (ver_lt b a).
Proof.
  destruct a as [[a0 a1] a2], b as [[b0 b1] b2]. unfold better. symmetry.
  destruct (b0 <? a0) eqn:E0; [apply bool_decide_eq_true; cbn; lia|].
  destruct (a0 =? b0) eqn:E1; [|apply bool_decide_eq_false; cbn; lia].
  destruct (b1 <? a1) eqn:E2; [apply bool_decide_eq_true; cbn; lia|].
  destruct (a1 =? b1) eqn:E3; [|apply bool_decide_eq_false; cbn; lia].
  destruct (b2 <? a2) eqn:E4; [apply bool_decide_eq_true | apply bool_decide_eq_false]; cbn; lia.
Qed.

(** ** Resolution *)

(** A version that takes part: it matches the range and parses. *)
Definition candidate (rangeStr v : string) (t : Z * Z * Z) : Prop :=
  MatchSemver rangeStr v = true /\ ParseSemver v = Some t.

Definition best_ok (rangeStr : string) (seen : list string) (best : option (string * (Z * Z * Z))) : Prop :=
  match best with
  | None => forall v t, v ∈ seen -> ~ candidate rangeStr v t
  | Some (b, tb) => b ∈ seen /\ candidate rangeStr b tb /\
      forall v t, v ∈ seen -> candidate rangeStr v t -> ~ ver_lt tb t
  end.

Lemma consider_ok rangeStr seen best v :
  best_ok rangeStr seen best -> best_ok rangeStr (seen ++ [v]) (consider rangeStr best v).
Proof.
  intros H. unfold consider.
  assert (Hkeep : (forall t, ~ candidate rangeStr v t) \/
    (exists b tb t, best = Some (b, tb) /\ ParseSemver v = Some t /\ ~ ver_lt tb t) ->
    best_ok rangeStr (seen ++ [v]) best).
  { intros Hv. destruct best as [[b tb]|]; cbn in *.
    - destruct H as (Hb & Hc & Hmax). split; [set_solver|]. split; [done|]. intros w t Hw Hcw.
      apply elem_of_app in Hw as [Hw|Hw]; [eauto|]. apply list_elem_of_singleton in Hw as ->.
      destruct Hv as [Hv|(b' & tb' & t' & [= <- <-] & Hp & Hn)]; [by destruct (Hv t)|].
      destruct Hcw as [_ Hp']. by simplify_eq.
    - intros w t Hw Hcw. apply elem_of_app in Hw as [Hw|Hw]; [by eapply H|].
      apply list_elem_of_singleton in Hw as ->. destruct Hv as [Hv|(? & ? & ? & ? & _)]; [by destruct (Hv t)|done]. }
  destruct (MatchSemver rangeStr v) eqn:M; [|apply Hkeep; left; by intros t [? _]; congruence].
  destruct (ParseSemver v) as [t|] eqn:P; [|apply Hkeep; left; by intros t [_ ?]; congruence].
  destruct best as [[b tb]|].
  - rewrite better_spec. destruct (bool_decide_reflect (ver_lt tb t)) as [Hlt|Hn]; [|apply Hkeep; right; eauto 6].
    destruct H as (Hb & Hc & Hmax). split; [set_solver|]. split; [done|]. intros w u Hw Hcw Hu.
    apply elem_of_app in Hw as [Hw|Hw].
    + apply (Hmax w u Hw Hcw). by eapply ver_lt_trans.
    + apply list_elem_of_singleton in Hw as ->. destruct Hcw as [_ Hp]. simplify_eq. by eapply ver_lt_irrefl.
  - split; [set_solver|]. split; [done|]. intros w u Hw Hcw Hu.
    apply elem_of_app in Hw as [Hw|Hw]; [by eapply H|]. apply list_elem_of_singleton in Hw as ->.
    destruct Hcw as [_ Hp]. simplify_eq. by eapply ver_lt_irrefl.
Qed.

Lemma fold_ok rangeStr versions seen best :
  best_ok rangeStr seen best ->
  best_ok rangeStr (seen ++ versions) (foldl (consider rangeStr) best versions).
Proof.
  revert seen best. induction versions as [|v vs IH]; intros seen best H; cbn; [by rewrite app_nil_r|].
  rewrite (cons_middle v), app_assoc. apply IH. by apply consider_ok.
Qed.

Lemma resolve_spec rangeStr versions :
  let r := ResolveBestVersion rangeStr versions in
  (r = "" /\ forall v t, v ∈ versions -> ~ candidate rangeStr v t) \/
  (r ∈ versions /\ exists t, candidate rangeStr r t /\
     forall v u, v ∈ versions -> candidate rangeStr v u -> ~ ver_lt t u).
Proof.
  pose proof (fold_ok rangeStr versions [] None) as H. cbn in H. specialize (H ltac:(by intros v t ?%elem_of_nil)).
  unfold ResolveBestVersion. destruct (foldl _ _ _) as [[b tb]|]; [right|left; done].
  destruct H as (Hb & Hc & Hmax). split; [done|]. eauto.
Qed.

Lemma elem_of_perm {A} (x : A) l l' : l ≡ₚ l' -> x ∈ l -> x ∈ l'.
Proof. intros Hp. by rewrite Hp. Qed.

(** The best version is a maximal match: whatever the order in which the
    map yields the versions, the result is a version that matches the range,
    parses, and is not below any other such version; it is empty exactly when
    there is none. *)
Theorem resolve_is_maximal rangeStr versions :
  let r := ResolveBestVersion rangeStr versions in
  (r = "" /\ forall v t, v ∈ versions -> ~ candidate rangeStr v t) \/
  (r ∈ versions /\ exists t, candidate rangeStr r t /\
     forall v u, v ∈ versions -> candidate rangeStr v u -> ~ ver_lt t u).
Proof. apply resolve_spec. Qed.

(** The order of the map does not matter: two orders of the same
    versions resolve to the same version number. *)
Theorem resolve_order_independent rangeStr versions versions' :
  versions ≡ₚ versions' ->
  ParseSemver (ResolveBestVersion rangeStr versions) = ParseSemver (ResolveBestVersion rangeStr versions').
Proof.
  intros Hp. destruct (resolve_spec rangeStr versions) as [[-> H1]|(H1 & t & Hc & Hm)],
    (resolve_spec rangeStr versions') as [[-> H2]|(H2 & t' & Hc' & Hm')]; [done| | |].
  - exfalso. eapply H1; [|exact Hc']. by rewrite Hp.
  - exfalso. eapply H2; [|exact Hc]. by rewrite <- Hp.
  - rewrite (proj2 Hc), (proj2 Hc'). f_equal.
    assert (H1' : ResolveBestVersion rangeStr versions ∈ versions') by (by eapply (elem_of_perm _ versions)).
    assert (H2' : ResolveBestVersion rangeStr versions' ∈ versions) by (by eapply (elem_of_perm _ versions')).
    destruct (ver_lt_total t t') as [Hlt|[->|Hlt]]; [|done|]; exfalso.
    + by eapply (Hm _ _ H2' Hc').
    + by eapply (Hm' _ _ H1' Hc).
Qed.

(** ** Constraints *)

(** A version as text. *)
Definition render (a b c : string) : string := a +:+ String "." (b +:+ String "." c).

Lemma render_byt a b c : byt (render a b c) = byt a ++ "."%char :: byt b ++ "."%char :: byt c.
Proof. unfold render. by rewrite byt_app, byt_String, byt_app, byt_String. Qed.

Lemma render_free a b c x :
  number a -> number b -> number c -> isDigitb x = false -> x <> "."%char -> x ∉ byt (render a b c).
Proof.
  intros Ha Hb Hc Hx Hd. rewrite render_byt, elem_of_app, elem_of_cons, elem_of_app, elem_of_cons.
  intros [H|[H|[H|[H|H]]]]; try done; (eapply number_free; [| |exact H]); done.
Qed.

Lemma TrimPrefix_none s p : HasPrefix s p = false -> TrimPrefix s p = s.
Proof. unfold TrimPrefix. by intros ->. Qed.

Lemma render_no_prefix a b c x r : number a -> isDigitb x = false -> HasPrefix (render a b c) (String x r) = false.
Proof.
  intros (Hne & Hd & _) Hx. apply not_true_is_false. intros [s E]%HasPrefix_iff.
  apply (f_equal byt) in E. rewrite render_byt, byt_app in E.
  destruct (byt a) as [|y l]; [done|]. cbn in E, Hd. injection E as -> _.
  apply andb_prop in Hd as [Hd _]. change (byt (String x r)) with (x :: byt r) in *. congruence.
Qed.

Lemma ParseSemver_render a b c :
  number a -> number b -> number c -> ParseSemver (render a b c) = Some (num a, num b, num c).
Proof.
  intros Ha Hb Hc. unfold ParseSemver. rewrite TrimPrefix_none by (by apply render_no_prefix).
  unfold Split. rewrite render_byt, !bytes_Split_app, bytes_Split_no by (by apply number_free).
  cbn [map]. by rewrite !str_byt, !Atoi_number.
Qed.

Lemma render_graphic a b c :
  number a -> number b -> number c -> forallb graphic (byt (render a b c)) = true.
Proof.
  intros Ha Hb Hc. rewrite render_byt, forallb_app. cbn [forallb]. rewrite forallb_app. cbn [forallb].
  by rewrite !number_graphic.
Qed.

(** Matching a rendered version against an operator and a rendered version. *)
Lemma operator_graphic p a b c :
  forallb graphic (byt p) = true -> number a -> number b -> number c ->
  TrimSpace (p +:+ render a b c) = p +:+ render a b c.
Proof.
  intros Hp Ha Hb Hc. apply TrimSpace_graphic. by rewrite byt_app, forallb_app, Hp, render_graphic.
Qed.

Lemma starts_with x p s : HasPrefix ((String x p) +:+ s) (String x "") = true.
Proof. apply HasPrefix_iff. exists (p +:+ s). done. Qed.

(** The smallest version that a caret constraint excludes. *)
Definition caret_bound (t : Z * Z * Z) : Z * Z * Z :=
  let '(r0, r1, r2) := t in
  if 0 <? r0 then (r0 + 1, 0, 0) else if 0 <? r1 then (0, r1 + 1, 0) else (0, 0, r2 + 1).

Definition within (lo v hi : Z * Z * Z) : bool := negb (bool_decide (ver_lt v lo)) && bool_decide (ver_lt v hi).

Lemma within_spec lo v hi : within lo v hi = true <-> ~ ver_lt v lo /\ ver_lt v hi.
Proof. unfold within. rewrite andb_true_iff, negb_true_iff, bool_decide_eq_false, bool_decide_eq_true. done. Qed.

Lemma caret_within vt rt :
  (let '(v0, v1, v2) := vt in 0 <= v0 /\ 0 <= v1 /\ 0 <= v2) ->
  (let '(r0, r1, r2) := rt in 0 <= r0 /\ 0 <= r1 /\ 0 <= r2) ->
  caret vt rt = within rt vt (caret_bound rt).
Proof.
  destruct vt as [[v0 v1] v2], rt as [[r0 r1] r2]. intros Hv Hr. apply eq_true_iff_eq.
  rewrite within_spec. unfold caret, caret_bound. rewrite compare_nonneg.
  destruct (0 <? r0) eqn:E0; boolify; [|destruct (0 <? r1) eqn:E1; boolify].
  - rewrite andb_true_iff, negb_true_iff, bool_decide_eq_false. cbn. lia.
  - cbn. lia.
  - cbn. lia.
Qed.

Lemma tilde_within vt rt :
  (let '(v0, v1, v2) := vt in 0 <= v0 /\ 0 <= v1 /\ 0 <= v2) ->
  tilde vt rt = within rt vt (let '(r0, r1, _) := rt in (r0, r1 + 1, 0)).
Proof.
  destruct vt as [[v0 v1] v2], rt as [[r0 r1] r2]. intros Hv. apply eq_true_iff_eq.
  rewrite within_spec. unfold tilde. cbn. lia.
Qed.

(** A caret constraint selects exactly the compatible versions: [^a.b.c]
    matches the versions from [a.b.c] up to the next major version, up to the
    next minor version below 1.0.0, and up to the next patch below 0.1.0. *)
Theorem caret_selects_compatible a b c x y z :
  number a -> number b -> number c -> number x -> number y -> number z ->
  MatchSemver ("^" +:+ render a b c) (render x y z) =
  within (num a, num b, num c) (num x, num y, num z) (caret_bound (num a, num b, num c)).
Proof.
  intros Ha Hb Hc Hx Hy Hz. unfold MatchSemver. rewrite operator_graphic by done.
  rewrite !bool_decide_false by done. cbn [orb].
  rewrite Fields_graphic; [|done|by rewrite byt_app, forallb_app, render_graphic].
  cbn [forallb]. rewrite andb_true_r. unfold matchSingleConstraint. rewrite operator_graphic by done.
  rewrite ContainsByte_elem, (bool_decide_false (_ ∈ _)) by (by apply render_free).
  unfold parseTriplet. rewrite ParseSemver_render by done.
  rewrite !(bool_decide_false (_ = _)); [cbn [orb]|..]; try done.
  - rewrite (starts_with "^" ""). unfold against. rewrite TrimPrefix_app. unfold parseTriplet.
    rewrite ParseSemver_render by done.
    apply caret_within; (split; [|split]); apply num_range; done.
  - intros E. pose proof (render_no_prefix x y z "^" "" Hx eq_refl) as H. rewrite <- E in H.
    by rewrite starts_with in H.
Qed.

(** ** The manifest *)

Definition quoted (v : string) : string := (String quote "") +:+ v +:+ (String quote "").

Definition toml_assign (kv : string * string) : string := kv.1 +:+ "=" +:+ quoted kv.2.

(** A manifest as text. *)
Definition print_manifest (name version : string) (deps : list (string * string)) : string :=
  Join (toml_assign ("name", name) :: toml_assign ("version", version) :: "[dependencies]" ::
        map toml_assign deps) (String nl "").

(** Visible text without the assignment sign; a key also does not start like
    a comment or a section. *)
Definition plain (s : string) : Prop := forallb graphic (byt s) = true.
Definition plain_key (s : string) : Prop :=
  s <> "" /\ plain s /\ ("="%char ∉ byt s) /\ HasPrefix s "#" = false.

#[global] Instance plain_key_dec s : Decision (plain_key s).
Proof. unfold plain_key, plain. apply _. Defined.

Lemma toml_assign_graphic k v : plain k -> plain v -> plain (toml_assign (k, v)).
Proof.
  unfold plain, toml_assign, quoted. cbn [fst snd]. intros Hk Hv.
  rewrite !byt_app, !forallb_app, Hk, Hv. done.
Qed.

Lemma toml_assign_byt k v :
  byt (toml_assign (k, v)) = byt k ++ "="%char :: quote :: byt v ++ [quote].
Proof. unfold toml_assign, quoted. cbn [fst snd]. by rewrite !byt_app. Qed.

Lemma toml_assign_split k v : "="%char ∉ byt k -> SplitN2 (toml_assign (k, v)) "=" = [k; quoted v].
Proof.
  intros Hk. unfold SplitN2. rewrite toml_assign_byt. change (byt "=") with ["="%char].
  rewrite bytes_Cut_first by done. rewrite str_byt. do 2 f_equal. apply byt_inj.
  rewrite byt_str. unfold quoted. by rewrite !byt_app.
Qed.

Lemma HasPrefix_app s p r : HasPrefix ((String s p) +:+ r) (String s "") = true.
Proof. apply starts_with. Qed.

Lemma unquote_quoted v : unquote (quoted v) = Some v.
Proof.
  unfold unquote, quoted_by.
  replace (HasPrefix (quoted v) (String quote "")) with true
    by (symmetry; apply HasPrefix_iff; unfold quoted; eauto).
  replace (HasSuffix (quoted v) (String quote "")) with true
    by (symmetry; apply HasSuffix_iff; unfold quoted; exists ((String quote "") +:+ v); by rewrite str_app_assoc).
  cbn [andb orb]. unfold inner, quoted. rewrite !byt_app, !byt_String. change (byt "") with (@nil ascii).
  cbn [app]. cbn [length]. rewrite length_app. cbn [length]. rewrite Nat.add_1_r. cbn [Nat.ltb Nat.leb drop].
  replace (S (S (length (byt v))) - 2)%nat with (length (byt v)) by lia.
  by rewrite drop_0, take_app_length, str_byt.
Qed.

Lemma TrimSpace_quoted v : plain v -> TrimSpace (quoted v) = quoted v.
Proof. intros Hv. apply TrimSpace_graphic. unfold quoted. by rewrite !byt_app, !forallb_app, Hv. Qed.

Lemma quote_last_not_bracket k v : HasSuffix (toml_assign (k, v)) "]" = false.
Proof.
  apply not_true_is_false. intros [r E]%HasSuffix_iff. apply (f_equal (fun s => last (byt s))) in E.
  rewrite toml_assign_byt, byt_app in E. change (byt "]") with ["]"%char] in E.
  rewrite last_snoc, (app_comm_cons (byt v)), (app_comm_cons (quote :: byt v)), app_assoc, last_snoc in E. done.
Qed.

Lemma key_not_comment k v : plain_key k -> HasPrefix (toml_assign (k, v)) "#" = false.
Proof.
  intros (Hne & _ & _ & Hh). apply not_true_is_false. intros [r E]%HasPrefix_iff.
  apply (f_equal byt) in E. rewrite toml_assign_byt, byt_app in E.
  destruct (byt k) as [|c l] eqn:K; [apply Hne; by rewrite <- (str_byt k), K|].
  change (byt "#") with ["#"%char] in E. cbn in E. injection E as -> _.
  unfold HasPrefix in Hh. rewrite K in Hh. by vm_compute in Hh.
Qed.

(** The step of a printed assignment. *)
Lemma toml_line_assign m dep k v :
  plain_key k -> plain v ->
  toml_line (m, dep) (toml_assign (k, v)) =
  Some (if dep : bool then mkManifest (mf_name m) (mf_version m) (mf_deps m ++ [k +:+ "@" +:+ v])
        else if bool_decide (k = "name") then mkManifest v (mf_version m) (mf_deps m)
        else if bool_decide (k = "version") then mkManifest (mf_name m) v (mf_deps m) else m, dep).
Proof.
  intros Hk Hv. pose proof Hk as (Hne & Hp & Heq & _). unfold toml_line.
  rewrite TrimSpace_graphic by (by apply toml_assign_graphic).
  rewrite key_not_comment, quote_last_not_bracket, andb_false_r, orb_false_r by done.
  rewrite bool_decide_false.
  - rewrite toml_assign_split by done. rewrite TrimSpace_quoted, unquote_quoted by done.
    by rewrite (TrimSpace_graphic k).
  - intros E. apply (f_equal byt) in E. rewrite toml_assign_byt in E. by destruct (byt k).
Qed.

Lemma toml_lines_deps m deps :
  Forall (fun kv => plain_key kv.1 /\ plain kv.2) deps ->
  toml_lines (map toml_assign deps) (m, true) =
  Some (mkManifest (mf_name m) (mf_version m) (mf_deps m ++ map (fun kv => kv.1 +:+ "@" +:+ kv.2) deps), true).
Proof.
  intros H. revert m. induction H as [|[k v] deps [Hk Hv] _ IH]; intros m; cbn [map toml_lines].
  - rewrite app_nil_r. by destruct m.
  - rewrite toml_line_assign by done. rewrite IH. cbn. by rewrite <- app_assoc.
Qed.

Lemma graphic_no_nl s : plain s -> nl ∉ byt s.
Proof.
  unfold plain. rewrite forallb_forall. intros H Hin. specialize (H nl (proj1 (list_elem_of_In _ _) Hin)). done.
Qed.

(** Reading back a printed manifest gives its name, its version and its
    dependencies, in order. *)
Theorem manifest_roundtrip name version deps :
  plain name -> plain version -> Forall (fun kv => plain_key kv.1 /\ plain kv.2) deps ->
  ParseServToml (print_manifest name version deps) =
  Some (mkManifest name version (map (fun kv => kv.1 +:+ "@" +:+ kv.2) deps)).
Proof.
  intros Hn Hv Hd. unfold ParseServToml, print_manifest.
  assert (Kn : plain_key "name") by (by apply (bool_decide_unpack _)).
  assert (Kv : plain_key "version") by (by apply (bool_decide_unpack _)).
  rewrite Split_Join; [|done|].
  - cbn [toml_lines]. rewrite toml_line_assign by done. cbv beta iota. rewrite toml_line_assign by done.
    cbv beta iota. cbn [mf_name mf_version mf_deps].
    rewrite (bool_decide_true ("name" = "name")), (bool_decide_false ("version" = "name")),
      (bool_decide_true ("version" = "version")) by done. cbn [mf_name mf_version mf_deps].
    change (toml_line (mkManifest name version [], false) "[dependencies]") with (Some (mkManifest name version [], true)).
    cbv beta iota. by rewrite toml_lines_deps.
  - repeat (apply Forall_cons; split); try (apply graphic_no_nl, toml_assign_graphic; by (apply Kn || apply Kv || done)).
    + apply graphic_no_nl. vm_compute. done.
    + apply Forall_map. eapply Forall_impl; [exact Hd|]. intros [k v] [(_ & Hk & _) Hv'].
      by apply graphic_no_nl, toml_assign_graphic.
Qed.

(** ** Witnesses and findings *)

Lemma resolve_order_independent_witness :
  ParseSemver (ResolveBestVersion "^1.2.0" ["1.2.0"; "1.9.3"; "2.0.0"]) =
  ParseSemver (ResolveBestVersion "^1.2.0" ["2.0.0"; "1.9.3"; "1.2.0"]).
Proof. apply resolve_order_independent. apply (Permutation_rev ["1.2.0"; "1.9.3"; "2.0.0"]). Defined.

Lemma caret_selects_compatible_witness :
  MatchSemver ("^" +:+ render "0" "2" "3") (render "0" "2" "10") = within (0, 2, 3) (0, 2, 10) (0, 3, 0).
Proof.
  apply (caret_selects_compatible "0" "2" "3" "0" "2" "10"); apply (bool_decide_unpack _); vm_compute; exact I.
Defined.

Lemma manifest_roundtrip_witness :
  ParseServToml (print_manifest "web" "1.0.0" [("log", "^1.2.0")]) = Some (mkManifest "web" "1.0.0" ["log@^1.2.0"]).
Proof.
  apply (manifest_roundtrip "web" "1.0.0" [("log", "^1.2.0")]); [reflexivity|reflexivity|].
  constructor; [|constructor]. split; [|reflexivity]. apply (bool_decide_unpack _). vm_compute. exact I.
Defined.

(** A value that is a single quote character makes the parser slice out of
    range. *)
Theorem lone_quote_panics : ParseServToml ("name = " +:+ (String quote "")) = None.
Proof. vm_compute. reflexivity. Qed.

(** An exact pre-release constraint matches its version, and is never
    resolved. *)
Theorem prerelease_never_resolved :
  MatchSemver "1.0.0-rc1" "1.0.0-rc1" = true /\ ResolveBestVersion "1.0.0-rc1" ["1.0.0-rc1"] = "".
Proof. split; vm_compute; reflexivity. Qed.
