(* ===== verification/GoHeap.v ===== *)
(** * Binary heaps ([container/heap] of Go's standard library)

    The heap operations on a slice, as the library writes them, over a type
    with a comparison and a field that the client's [Swap] sets to the
    position of the element.  On the contents without that field they are the
    operations of a plain heap ([erase_*]), for which order and contents are
    proved: the root is least, pushing and popping permute, initialization
    establishes the order. *)

From S2P Require Import Prelude.
Local Open Scope list_scope.

Section Operations.
Context {A : Type} (less : A -> A -> bool) (at_index : nat -> A -> A).

(** [h.Swap(i, j)], which also records the positions. *)
Definition heap_swap (i j : nat) (h : list A) : list A :=
  match h !! i, h !! j with
  | Some a, Some b => <[i := at_index i b]> (<[j := at_index j a]> h)
  | _, _ => h
  end.

(** [h.Less(i, j)] *)
Definition less_at (h : list A) (i j : nat) : bool :=
  match h !! i, h !! j with Some a, Some b => less a b | _, _ => false end.

Definition parent (j : nat) : nat := (j - 1) / 2.

Fixpoint heap_up (fuel j : nat) (h : list A) : list A :=
  match fuel with
  | O => h
  | S fuel =>
      let i := parent j in
      if (i =? j)%nat || negb (less_at h j i) then h
      else heap_up fuel i (heap_swap i j h)
  end.

Fixpoint heap_down (fuel i n : nat) (h : list A) : list A :=
  match fuel with
  | O => h
  | S fuel =>
      let j1 := 2 * i + 1 in
      if (n <=? j1)%nat then h
      else
        let j2 := j1 + 1 in
        let j := if (j2 <? n)%nat && less_at h j2 j1 then j2 else j1 in
        if negb (less_at h j i) then h
        else heap_down fuel j n (heap_swap i j h)
  end.

(** [for i := n/2 - 1; i >= 0; i-- { down(h, i, n) }] *)
Fixpoint heap_init_from (i : nat) (n : nat) (h : list A) : list A :=
  match i with
  | O => h
  | S i => heap_init_from i n (heap_down n i n h)
  end.

Definition heap_Init (h : list A) : list A := heap_init_from (length h / 2) (length h) h.

(** [h.Push(x)] appends; then [up]. *)
Definition heap_Push (x : A) (h : list A) : list A :=
  heap_up (S (length h)) (length h) (h ++ [x]).

(** [Swap(0, n); down(0, n)]; [h.Pop()] takes the last element off. *)
Definition heap_Pop (h : list A) : option (A * list A) :=
  let n := length h - 1 in
  let h := heap_down n 0 n (heap_swap 0 n h) in
  match last h with Some x => Some (x, take n h) | None => None end.
End Operations.

(** ** Forgetting the positions *)

Section Erase.
Context {A B : Type} (less : A -> A -> bool) (at_index : nat -> A -> A) (lessB : B -> B -> bool) (er : A -> B).
Hypothesis er_less : forall a b, less a b = lessB (er a) (er b).
Hypothesis er_index : forall i a, er (at_index i a) = er a.

Local Abbreviation keep := (fun (_ : nat) (b : B) => b).

Lemma erase_swap i j h : er <$> heap_swap at_index i j h = heap_swap keep i j (er <$> h).
Proof using er_index.
  unfold heap_swap. rewrite !list_lookup_fmap. destruct (h !! i), (h !! j); cbn; try done.
  by rewrite !list_fmap_insert, !er_index.
Qed.

Lemma erase_less h i j : less_at lessB (er <$> h) i j = less_at less h i j.
Proof using er_less.
  unfold less_at. rewrite !list_lookup_fmap. destruct (h !! i), (h !! j); cbn; done.
Qed.

Lemma erase_up fuel j h : er <$> heap_up less at_index fuel j h = heap_up lessB keep fuel j (er <$> h).
Proof using er_index er_less.
  revert j h. induction fuel as [|fuel IH]; intros j h; [done|]. cbn [heap_up].
  rewrite erase_less. destruct (_ || _); [done|]. by rewrite IH, erase_swap.
Qed.

Lemma erase_down fuel i n h :
  er <$> heap_down less at_index fuel i n h = heap_down lessB keep fuel i n (er <$> h).
Proof using er_index er_less.
  revert i h. induction fuel as [|fuel IH]; intros i h; [done|]. cbn [heap_down].
  rewrite !erase_less. destruct (n <=? _)%nat; [done|]. destruct (negb _); [done|]. by rewrite IH, erase_swap.
Qed.

Lemma erase_Init h : er <$> heap_Init less at_index h = heap_Init lessB keep (er <$> h).
Proof using er_index er_less.
  unfold heap_Init. rewrite length_fmap. generalize (length h) as n. intros n. generalize (n / 2) as i. intros i.
  revert h. induction i as [|i IH]; intros h; cbn [heap_init_from]; [done|]. by rewrite IH, erase_down.
Qed.

Lemma erase_Push x h : er <$> heap_Push less at_index x h = heap_Push lessB keep (er x) (er <$> h).
Proof using er_index er_less. unfold heap_Push. by rewrite erase_up, fmap_app, length_fmap. Qed.

Lemma erase_Pop h :
  heap_Pop lessB keep (er <$> h) =
    match heap_Pop less at_index h with Some (x, h') => Some (er x, er <$> h') | None => None end.
Proof using er_index er_less.
  unfold heap_Pop. rewrite length_fmap, <- erase_swap, <- erase_down, fmap_last.
  destruct (last _); cbn; [|done]. by rewrite fmap_take.
Qed.
End Erase.

(** ** Order and contents *)

Lemma parent_lt j : 0 < j -> parent j < j.
Proof. intros H. unfold parent. apply Nat.Div0.div_lt_upper_bound. lia. Qed.

Lemma parent_child i k : 0 < k -> parent k = i <-> k = 2 * i + 1 \/ k = 2 * i + 2.
Proof.
  intros Hk. unfold parent. pose proof (Nat.div_mod (k - 1) 2 ltac:(lia)).
  pose proof (Nat.mod_upper_bound (k - 1) 2 ltac:(lia)). lia.
Qed.

Section Order.
Context {B : Type} (less : B -> B -> bool).
Hypothesis less_asym : forall a b, less a b = true -> less b a = false.
Hypothesis less_neg_trans : forall a b c, less b a = false -> less c b = false -> less c a = false.

Local Abbreviation keep := (fun (_ : nat) (b : B) => b).
Local Abbreviation swap := (heap_swap keep).
Local Abbreviation up := (heap_up less keep).
Local Abbreviation down := (heap_down less keep).

(** [a] may stand above [b]. *)
Definition above (a b : B) : Prop := less b a = false.

Lemma above_refl a : above a a.
Proof using less_asym. unfold above. destruct (less a a) eqn:E; [|done]. by rewrite (less_asym _ _ E) in E. Qed.

Lemma above_trans a b c : above a b -> above b c -> above a c.
Proof using less_neg_trans. unfold above. intros H1 H2. by eapply less_neg_trans. Qed.

Lemma less_above a b : less a b = true -> above a b.
Proof using less_asym. apply less_asym. Qed.

(** The entries below [n] whose parent is at least [i0] are in order, except
    those for which [ex] holds. *)
Definition ordered_except (ex : nat -> Prop) (i0 n : nat) (h : list B) : Prop :=
  forall k a b, 0 < k < n -> i0 <= parent k -> ~ ex k ->
    h !! parent k = Some a -> h !! k = Some b -> above a b.

Definition heap_ordered (h : list B) : Prop := ordered_except (fun _ => False) 0 (length h) h.

Lemma swap_length i j h : length (swap i j h) = length h.
Proof. unfold heap_swap. destruct (h !! i), (h !! j); by rewrite ?length_insert. Qed.

Lemma swap_lookup i j h a b k :
  h !! i = Some a -> h !! j = Some b ->
  swap i j h !! k = if decide (k = i) then Some b else if decide (k = j) then Some a else h !! k.
Proof.
  intros Hi Hj. unfold heap_swap. rewrite Hi, Hj. repeat case_decide; subst.
  - rewrite list_lookup_insert_eq; [done|]. rewrite length_insert. by eapply lookup_lt_Some.
  - rewrite list_lookup_insert_ne by done. rewrite list_lookup_insert_eq; [done|]. by eapply lookup_lt_Some.
  - by rewrite !list_lookup_insert_ne by done.
Qed.

Lemma swap_perm i j h : swap i j h ≡ₚ h.
Proof.
  destruct (h !! i) as [a|] eqn:Hi; [|unfold heap_swap; by rewrite Hi].
  destruct (h !! j) as [b|] eqn:Hj; [|unfold heap_swap; by rewrite Hi, Hj].
  apply Permutation_inj. split; [apply swap_length|].
  exists (fun k => if decide (k = i) then j else if decide (k = j) then i else k). split.
  - intros x y. repeat case_decide; lia.
  - intros k. rewrite (swap_lookup _ _ _ _ _ _ Hi Hj). repeat case_decide; by subst.
Qed.

Lemma up_perm fuel j h : up fuel j h ≡ₚ h.
Proof.
  revert j h. induction fuel as [|fuel IH]; intros j h; cbn [heap_up]; [done|].
  destruct (_ || _); [done|]. by rewrite IH, swap_perm.
Qed.

Lemma down_perm fuel i n h : down fuel i n h ≡ₚ h.
Proof.
  revert i h. induction fuel as [|fuel IH]; intros i h; cbn [heap_down]; [done|].
  destruct (_ <=? _)%nat; [done|]. destruct (negb _); [done|]. by rewrite IH, swap_perm.
Qed.

(** Entries outside of the range stay. *)
Lemma down_outside fuel i n h k : i <= n -> n <= k -> down fuel i n h !! k = h !! k.
Proof.
  revert i h. induction fuel as [|fuel IH]; intros i h Hi Hk; cbn [heap_down]; [done|].
  destruct (n <=? 2 * i + 1)%nat eqn:E; [done|]. apply Nat.leb_gt in E. destruct (negb _); [done|].
  set (j := if _ && _ then _ else _).
  assert (Hj : i < j < n).
  { unfold j. destruct (2 * i + 1 + 1 <? n)%nat eqn:E2; cbn; [apply Nat.ltb_lt in E2|lia].
    destruct (less_at _ _ _ _); lia. }
  rewrite IH by lia. unfold heap_swap. destruct (h !! i), (h !! j); try done.
  by rewrite !list_lookup_insert_ne by lia.
Qed.

(** Sifting up: the entry [j] may be out of order with its parent, not with
    its children. *)
Definition up_ready (j : nat) (h : list B) : Prop :=
  ordered_except (fun k => k = j) 0 (length h) h /\
  forall k a b, 0 < j -> 0 < k -> parent k = j -> h !! parent j = Some a -> h !! k = Some b -> above a b.

Lemma up_ready_swap j h a0 b0 :
  0 < j -> h !! parent j = Some a0 -> h !! j = Some b0 -> less b0 a0 = true ->
  up_ready j h -> up_ready (parent j) (swap (parent j) j h).
Proof using less_asym less_neg_trans.
  intros Hj Ha Hb Hl [Ho Hg]. pose proof (parent_lt j Hj) as Hp. apply less_above in Hl.
  assert (Hsw : forall k, swap (parent j) j h !! k =
    if decide (k = parent j) then Some b0 else if decide (k = j) then Some a0 else h !! k)
    by (intros; by apply swap_lookup).
  assert (Hold : forall k b, k <> j -> 0 < k -> parent k = parent j -> h !! k = Some b -> above a0 b).
  { intros k b Hkj Hk Hpk Hkb. apply (Ho k a0 b); try done; [|lia|congruence].
    apply lookup_lt_Some in Hkb. lia. }
  split.
  - rewrite swap_length. intros k a b Hk _ Hne. pose proof (parent_lt k ltac:(lia)). rewrite !Hsw.
    repeat case_decide; try lia; intros Q1 Q2; simplify_eq; try done.
    + eapply above_trans; [exact Hl|]. by apply (Hold k b); [done|lia|..].
    + by apply (Hg k a b); [done|lia|..].
    + by apply (Ho k a b); [lia|lia|..].
  - intros k a b Hpj Hk Hpk. pose proof (parent_lt k Hk). pose proof (parent_lt (parent j) Hpj). rewrite !Hsw.
    repeat case_decide; try lia; intros Hpa Q2; simplify_eq.
    + apply (Ho (parent j) a b); try done; try lia. apply lookup_lt_Some in Ha. lia.
    + eapply above_trans; [|by apply (Hold k b)].
      apply (Ho (parent j) a a0); try done; try lia. apply lookup_lt_Some in Ha. lia.
Qed.

Lemma up_ordered fuel j h : j < fuel -> j < length h -> up_ready j h -> heap_ordered (up fuel j h).
Proof using less_asym less_neg_trans.
  revert j h. induction fuel as [|fuel IH]; intros j h Hf Hj Hr; [lia|]. cbn [heap_up].
  destruct (decide (j = 0)) as [->|H0].
  { cbn. intros k a b Hk _ _. apply Hr; lia. }
  pose proof (parent_lt j ltac:(lia)) as Hp.
  destruct (lookup_lt_is_Some_2 h j Hj) as [b0 Hb]. destruct (lookup_lt_is_Some_2 h (parent j) ltac:(lia)) as [a0 Ha].
  rewrite (proj2 (Nat.eqb_neq _ _)) by lia. cbn [orb]. unfold less_at. rewrite Ha, Hb.
  destruct (less b0 a0) eqn:Hl; cbn [negb].
  - apply IH; [lia|rewrite swap_length; lia|]. eapply up_ready_swap; try done. lia.
  - intros k a b Hk _ _ Hka Hkb. destruct (decide (k = j)) as [->|]; [|by apply (proj1 Hr k a b); [lia|lia|..]].
    unfold above. congruence.
Qed.

(** Sifting down: the entry [i] may be out of order with its children. *)
Definition down_ready (i0 i n : nat) (h : list B) : Prop :=
  ordered_except (fun k => parent k = i) i0 n h /\
  forall k a b, 0 < i -> i0 <= parent i -> 0 < k < n -> parent k = i ->
    h !! parent i = Some a -> h !! k = Some b -> above a b.

Lemma down_ready_swap i0 i n h j a0 b0 :
  i0 <= i -> 0 < j < n -> parent j = i -> h !! i = Some a0 -> h !! j = Some b0 -> less b0 a0 = true ->
  (forall k b, 0 < k < n -> parent k = i -> h !! k = Some b -> above b0 b) ->
  down_ready i0 i n h -> down_ready i0 j n (swap i j h).
Proof using less_asym less_neg_trans.
  intros Hi0 Hj Hpj Ha Hb Hl Hmin [Ho Hg]. pose proof (parent_lt j ltac:(lia)) as Hp. apply less_above in Hl.
  assert (Hsw : forall k, swap i j h !! k =
    if decide (k = i) then Some b0 else if decide (k = j) then Some a0 else h !! k) by (intros; by apply swap_lookup).
  split.
  - intros k a b Hk Hk0 Hne. pose proof (parent_lt k ltac:(lia)). rewrite !Hsw.
    repeat case_decide; try lia; intros Q1 Q2; simplify_eq; try done.
    + by apply (Hmin k b).
    + by apply (Hg j a b); [lia|..].
    + by apply (Ho k a b).
  - intros k a b Hj0 _ Hk Hpk. pose proof (parent_lt k ltac:(lia)). rewrite !Hsw.
    repeat case_decide; try lia; intros Q1 Q2; simplify_eq.
    apply (Ho k a b); try done; lia.
Qed.

Lemma down_ordered fuel i0 i n h :
  i0 <= i -> i < n -> n <= length h -> n <= fuel + i -> down_ready i0 i n h ->
  ordered_except (fun _ => False) i0 n (down fuel i n h).
Proof using less_asym less_neg_trans.
  revert i h. induction fuel as [|fuel IH]; intros i h Hi0 Hin Hn Hf Hr; [lia|]. cbn [heap_down].
  destruct (n <=? 2 * i + 1)%nat eqn:E1.
  { apply Nat.leb_le in E1. intros k a b Hk Hk0 _. apply Hr; [lia|lia|].
    intros Hpk. apply parent_child in Hpk; lia. }
  apply Nat.leb_gt in E1. set (j := if _ && _ then _ else _).
  destruct (lookup_lt_is_Some_2 h i ltac:(lia)) as [a0 Ha].
  destruct (lookup_lt_is_Some_2 h (2 * i + 1) ltac:(lia)) as [c1 Hc1].
  assert (Hj : 0 < j < n /\ parent j = i /\ exists b0, h !! j = Some b0 /\
    forall k b, 0 < k < n -> parent k = i -> h !! k = Some b -> above b0 b).
  { unfold j, less_at. destruct (2 * i + 1 + 1 <? n)%nat eqn:E2.
    - apply Nat.ltb_lt in E2. destruct (lookup_lt_is_Some_2 h (2 * i + 1 + 1) ltac:(lia)) as [c2 Hc2].
      rewrite Hc1, Hc2. destruct (less c2 c1) eqn:Hl; cbn [andb].
      + split; [lia|]. split; [apply parent_child; lia|]. exists c2. split; [done|].
        intros k b Hk Hpk Hkb. apply parent_child in Hpk as [-> | ->]; [| |lia].
        * assert (b = c1) as -> by congruence. by apply less_above.
        * replace (2 * i + 2) with (2 * i + 1 + 1) in Hkb by lia. assert (b = c2) as -> by congruence. apply above_refl.
      + split; [lia|]. split; [apply parent_child; lia|]. exists c1. split; [done|].
        intros k b Hk Hpk Hkb. apply parent_child in Hpk as [-> | ->]; [| |lia].
        * assert (b = c1) as -> by congruence. apply above_refl.
        * replace (2 * i + 2) with (2 * i + 1 + 1) in Hkb by lia. assert (b = c2) as -> by congruence. done.
    - apply Nat.ltb_ge in E2. cbn [andb]. split; [lia|]. split; [apply parent_child; lia|]. exists c1.
      split; [done|]. intros k b Hk Hpk Hkb. apply parent_child in Hpk as [-> | ->]; [|lia|lia].
      assert (b = c1) as -> by congruence. apply above_refl. }
  destruct Hj as (Hjn & Hpj & b0 & Hb & Hmin). pose proof (parent_lt j ltac:(lia)).
  unfold less_at. rewrite Ha, Hb. destruct (less b0 a0) eqn:Hl; cbn [negb].
  - apply IH; [lia|lia|rewrite swap_length; lia|lia|]. by eapply down_ready_swap.
  - intros k a b Hk Hk0 _ Hka Hkb. destruct (decide (parent k = i)) as [Hpk|]; [|by apply (proj1 Hr k a b); [lia|lia|..]].
    rewrite Hpk, Ha in Hka. injection Hka as <-. eapply above_trans; [exact Hl|]. by apply (Hmin k b).
Qed.

Lemma root_least h r : heap_ordered h -> h !! 0 = Some r -> Forall (above r) h.
Proof using less_asym less_neg_trans.
  intros Ho Hr. apply Forall_lookup. intros k. induction (lt_wf k) as [k _ IH]. intros b Hb.
  destruct (decide (k = 0)) as [->|]; [assert (b = r) as -> by congruence; apply above_refl|].
  pose proof (parent_lt k ltac:(lia)). pose proof (lookup_lt_Some _ _ _ Hb).
  destruct (lookup_lt_is_Some_2 h (parent k) ltac:(lia)) as [a Ha].
  eapply above_trans; [by eapply (IH (parent k))|]. apply (Ho k a b); try done; lia.
Qed.

(** ** The operations *)

Lemma heap_Push_spec x h :
  heap_ordered h -> heap_ordered (heap_Push less keep x h) /\ heap_Push less keep x h ≡ₚ x :: h.
Proof using less_asym less_neg_trans.
  intros Ho. unfold heap_Push. split; [|rewrite up_perm; by rewrite Permutation_app_comm].
  apply up_ordered; [lia|rewrite length_app; cbn; lia|]. split.
  - rewrite length_app. cbn. intros k a b Hk _ Hne. pose proof (parent_lt k ltac:(lia)).
    rewrite !lookup_app_l by lia. apply Ho; [lia|lia|tauto].
  - intros k a b _ Hk Hpk _ Hkb. apply lookup_lt_Some in Hkb. rewrite length_app in Hkb. cbn in Hkb.
    pose proof (parent_lt k Hk). lia.
Qed.

Lemma init_from_ordered i n h :
  n = length h -> 2 * i <= n -> ordered_except (fun _ => False) i n h ->
  heap_ordered (heap_init_from less keep i n h).
Proof using less_asym less_neg_trans.
  revert h. induction i as [|i IH]; intros h Hn Hi Ho; cbn [heap_init_from]; [by rewrite Hn in Ho|].
  apply IH; [by rewrite (Permutation_length (down_perm n i n h))|lia|].
  apply down_ordered; [lia|lia|lia|lia|]. split.
  - intros k a b Hk Hk0 Hne. apply Ho; [lia|lia|tauto].
  - intros k a b Hi0 Hp. pose proof (parent_lt i Hi0). lia.
Qed.

Lemma heap_Init_spec h : heap_ordered (heap_Init less keep h) /\ heap_Init less keep h ≡ₚ h.
Proof using less_asym less_neg_trans.
  unfold heap_Init. split.
  - pose proof (Nat.div_mod (length h) 2 ltac:(lia)). pose proof (Nat.mod_upper_bound (length h) 2 ltac:(lia)).
    apply init_from_ordered; [done|lia|]. intros k a b Hk Hp. exfalso.
    pose proof (proj1 (parent_child (parent k) k ltac:(lia)) eq_refl). lia.
  - generalize (length h) as n, (length h / 2) as i. intros n i. revert h.
    induction i as [|i IH]; intros h; cbn [heap_init_from]; [done|]. by rewrite IH, down_perm.
Qed.

Lemma heap_Pop_spec h :
  heap_ordered h -> h <> [] ->
  exists x h', heap_Pop less keep h = Some (x, h') /\ heap_ordered h' /\ h ≡ₚ x :: h' /\ Forall (above x) h'.
Proof using less_asym less_neg_trans.
  intros Ho Hne. unfold heap_Pop. set (n := length h - 1). set (h1 := swap 0 n h). set (h2 := down n 0 n h1).
  assert (Hlen : 0 < length h) by (destruct h; [done|cbn; lia]).
  destruct (lookup_lt_is_Some_2 h 0 ltac:(lia)) as [r Hr]. destruct (lookup_lt_is_Some_2 h n ltac:(lia)) as [z Hz].
  assert (Hl1 : length h1 = length h) by apply swap_length.
  assert (Hl2 : length h2 = length h) by (rewrite <- Hl1; apply Permutation_length, down_perm).
  assert (Hp : h2 ≡ₚ h) by (unfold h2; rewrite down_perm; apply swap_perm).
  assert (Hlast : h2 !! n = Some r).
  { unfold h2. rewrite down_outside by lia. unfold h1. rewrite (swap_lookup _ _ _ _ _ _ Hr Hz).
    repeat case_decide; try done; congruence. }
  assert (Hh2 : h2 = take n h2 ++ [r]).
  { rewrite <- (take_drop n h2) at 1. f_equal. erewrite drop_S by exact Hlast.
    rewrite drop_ge by lia. done. }
  assert (last h2 = Some r) as -> by (rewrite Hh2; apply last_snoc).
  exists r, (take n h2). split; [done|].
  assert (Hperm : h ≡ₚ r :: take n h2) by (rewrite <- Hp, Hh2 at 1; by rewrite Permutation_app_comm).
  split; [|split; [done|]].
  - assert (Hd : ordered_except (fun _ => False) 0 n h2).
    { destruct (decide (n = 0)) as [->|]; [intros k a b; lia|].
      apply down_ordered; [lia|lia|lia|lia|]. split; [|intros; lia].
      intros k a b Hk _ Hpk. cbn beta in Hpk. pose proof (parent_lt k ltac:(lia)). unfold h1. rewrite !(swap_lookup _ _ _ _ _ _ Hr Hz).
      repeat case_decide; try lia; try done. apply Ho; [lia|lia|tauto]. }
    intros k a b Hk _ _. rewrite length_take in Hk. pose proof (parent_lt k ltac:(lia)).
    rewrite !lookup_take_lt by lia. apply Hd; [lia|lia|tauto].
  - pose proof (root_least h r Ho Hr) as Hall. rewrite Hperm in Hall. by apply Forall_cons in Hall as [_ ?].
Qed.

Lemma heap_Pop_empty : heap_Pop less keep [] = None.
Proof. done. Qed.
End Order.
