(* ===== verification/PriorityQueue.v ===== *)
(** * The priority queue of the broker ([pulse/pkg/broker/priority.go])

    Messages in a binary heap, highest priority first and first in first out
    among equals.  A message's [Index] is its slot in the heap; messages are
    pointers in the source, and two slots never hold the same one, so a slot
    identifies a message where [Compact] compares pointers. *)

From Stdlib Require Import Sorted.
From S2P Require Import Prelude GoStrings GoHeap.
Local Open Scope Z_scope.
Local Open Scope list_scope.

Record PriorityMessage := mkMsg {
  Payload : string;
  Priority : Z;
  Sequence : Z;
  PartitionId : Z;
  Index : Z;
  Expiry : Z;
  Key : string }.

#[global] Instance PriorityMessage_eq_dec : EqDecision PriorityMessage.
Proof. solve_decision. Defined.

Definition set_Index (i : Z) (m : PriorityMessage) : PriorityMessage :=
  mkMsg (Payload m) (Priority m) (Sequence m) (PartitionId m) i (Expiry m) (Key m).

(** [messageHeap.Less] on two messages. *)
Definition Less (a b : PriorityMessage) : bool :=
  if negb (Priority a =? Priority b) then Priority b <? Priority a else Sequence a <? Sequence b.

(** The part of [messageHeap.Swap] and [Push] that records the slot. *)
Definition at_slot (i : nat) (m : PriorityMessage) : PriorityMessage := set_Index (Z.of_nat i) m.

Record PriorityQueue := mkPQ { h : list PriorityMessage; sequence : Z }.

Definition NewPriorityQueue : PriorityQueue := mkPQ [] 0.

(** [messageHeap.Push], then sifting up. *)
Definition push_message (msg : PriorityMessage) (hp : list PriorityMessage) : list PriorityMessage :=
  heap_Push Less at_slot (at_slot (length hp) msg) hp.

Definition PushWithKey (payload key : string) (priority partitionId expiry : Z) (pq : PriorityQueue) : PriorityQueue :=
  let seq := wrapu64 (sequence pq + 1) in
  mkPQ (push_message (mkMsg payload priority seq partitionId 0 expiry key) (h pq)) seq.

Definition Push (payload : string) (priority partitionId expiry : Z) (pq : PriorityQueue) : PriorityQueue :=
  PushWithKey payload "" priority partitionId expiry pq.

(** The slot of the latest message of each key, over the slots from [i] on. *)
Fixpoint latest_from (i : nat) (hp rest : list PriorityMessage) (latest : gmap string nat) : gmap string nat :=
  match rest with
  | [] => latest
  | msg :: rest =>
      latest_from (S i) hp rest
        (if bool_decide (Key msg = ""%string) then latest
         else match latest !! Key msg ≫= (fun j => hp !! j) with
              | Some existing => if Sequence existing <? Sequence msg then <[Key msg := i]> latest else latest
              | None => <[Key msg := i]> latest
              end)
  end.

(** The messages without a key, and those whose slot is the latest. *)
Fixpoint keep_latest (i : nat) (latest : gmap string nat) (rest : list PriorityMessage) : list PriorityMessage :=
  match rest with
  | [] => []
  | msg :: rest =>
      if bool_decide (Key msg = ""%string) || bool_decide (latest !! Key msg = Some i)
      then msg :: keep_latest (S i) latest rest
      else keep_latest (S i) latest rest
  end.

Definition Compact (pq : PriorityQueue) : PriorityQueue :=
  let latest := latest_from 0 (h pq) (h pq) ∅ in
  mkPQ (heap_Init Less at_slot (keep_latest 0 latest (h pq))) (sequence pq).

(** [None] with the queue unchanged: empty.  [Pop] waits in that case. *)
Definition PopNonBlocking (pq : PriorityQueue) : option PriorityMessage * PriorityQueue :=
  match h pq with
  | [] => (None, pq)
  | _ =>
      match heap_Pop Less at_slot (h pq) with
      | Some (msg, hp) => (Some (set_Index (-1) msg), mkPQ hp (sequence pq))
      | None => (None, pq)
      end
  end.

(** [Pop] when the queue is not empty; [None]: it waits. *)
Definition Pop (pq : PriorityQueue) : option (PriorityMessage * PriorityQueue) :=
  match PopNonBlocking pq with (Some m, pq) => Some (m, pq) | (None, _) => None end.

Definition Len (pq : PriorityQueue) : nat := length (h pq).

(** ** Specification *)

(** A queue of messages in the order in which they leave. *)
Fixpoint spec_insert (m : PriorityMessage) (q : list PriorityMessage) : list PriorityMessage :=
  match q with
  | [] => [m]
  | x :: q => if Priority x <? Priority m then m :: x :: q else x :: spec_insert m q
  end.

(** No message with the key of [m] is younger. *)
Definition is_latest (q : list PriorityMessage) (m : PriorityMessage) : bool :=
  bool_decide (Key m = ""%string) ||
  forallb (fun m' => negb (bool_decide (Key m' = Key m)) || (Sequence m' <=? Sequence m)) q.

Definition spec_compact (q : list PriorityMessage) : list PriorityMessage :=
  List.filter (is_latest q) q.

Inductive pq_op :=
  | OPush (payload key : string) (priority partitionId expiry : Z)
  | OPop
  | OLen
  | OCompact.

Inductive pq_out := OutNone | OutMsg (m : option PriorityMessage) | OutLen (n : nat).

Definition step (o : pq_op) (pq : PriorityQueue) : pq_out * PriorityQueue :=
  match o with
  | OPush payload key pr part ex => (OutNone, PushWithKey payload key pr part ex pq)
  | OPop => let '(m, pq) := PopNonBlocking pq in (OutMsg m, pq)
  | OLen => (OutLen (Len pq), pq)
  | OCompact => (OutNone, Compact pq)
  end.

(** The specification numbers the messages and keeps them in order. *)
Definition spec_step (o : pq_op) (s : list PriorityMessage * Z) : pq_out * (list PriorityMessage * Z) :=
  let '(q, n) := s in
  match o with
  | OPush payload key pr part ex => (OutNone, (spec_insert (mkMsg payload pr (n + 1) part (-1) ex key) q, n + 1))
  | OPop => match q with [] => (OutMsg None, s) | m :: q => (OutMsg (Some m), (q, n)) end
  | OLen => (OutLen (length q), s)
  | OCompact => (OutNone, (spec_compact q, n))
  end.

Fixpoint outputs {St O Out} (f : O -> St -> Out * St) (os : list O) (s : St) : list Out :=
  match os with
  | [] => []
  | o :: os => let '(out, s) := f o s in out :: outputs f os s
  end.

(** ** Order of messages *)

Lemma Less_spec a b :
  Less a b = true <-> Priority b < Priority a \/ (Priority a = Priority b /\ Sequence a < Sequence b).
Proof.
  unfold Less. destruct (Priority a =? Priority b) eqn:E; cbn [negb]; [apply Z.eqb_eq in E|apply Z.eqb_neq in E];
    rewrite Z.ltb_lt; lia.
Qed.

Lemma Less_false a b :
  Less a b = false <-> Priority a < Priority b \/ (Priority a = Priority b /\ Sequence b <= Sequence a).
Proof.
  rewrite <- not_true_iff_false, Less_spec. lia.
Qed.

Lemma Less_asym a b : Less a b = true -> Less b a = false.
Proof. rewrite Less_spec, Less_false. lia. Qed.

Lemma Less_neg_trans a b c : Less b a = false -> Less c b = false -> Less c a = false.
Proof. rewrite !Less_false. lia. Qed.

(** Messages without their slot. *)
Definition er (m : PriorityMessage) : PriorityMessage := set_Index (-1) m.

Lemma er_less a b : Less a b = Less (er a) (er b).
Proof. done. Qed.
Lemma er_slot i m : er (at_slot i m) = er m.
Proof. done. Qed.

Local Abbreviation ordered := (heap_ordered Less).
Local Abbreviation before := (fun a b => Less a b = true).

(** The queue holds the messages of the specification, with slots. *)
Record represents (pq : PriorityQueue) (q : list PriorityMessage) (n : Z) : Prop := {
  rep_perm : er <$> h pq ≡ₚ q;
  rep_heap : ordered (er <$> h pq);
  rep_sorted : StronglySorted before q;
  rep_range : Forall (fun m => 1 <= Sequence m <= n) q;
  rep_nodup : NoDup (Sequence <$> q);
  rep_count : sequence pq = n /\ 0 <= n }.

Lemma represents_new : represents NewPriorityQueue [] 0.
Proof. split; cbn; [done| |constructor|constructor|constructor|lia]. intros i j a b. done. Qed.

(** ** Push *)

Lemma spec_insert_perm m q : spec_insert m q ≡ₚ m :: q.
Proof.
  induction q as [|x q IH]; cbn; [done|]. destruct (_ <? _); [done|]. rewrite IH. constructor.
Qed.

Lemma spec_insert_sorted m q :
  StronglySorted before q -> Forall (fun x => Sequence x < Sequence m) q -> StronglySorted before (spec_insert m q).
Proof.
  induction q as [|x q IH]; intros Hs Hm; cbn; [repeat constructor|].
  apply Forall_cons in Hm as [Hx Hm]. apply StronglySorted_inv in Hs as [Hs Hall].
  destruct (Priority x <? Priority m) eqn:E.
  - apply Z.ltb_lt in E. constructor; [by constructor|]. constructor; [apply Less_spec; lia|].
    eapply Forall_impl; [exact Hall|]. intros y Hy. rewrite Less_spec in *. lia.
  - apply Z.ltb_ge in E. constructor; [by apply IH|]. rewrite spec_insert_perm.
    constructor; [apply Less_spec; lia|done].
Qed.

Lemma represents_push pq q n payload key pr part ex :
  represents pq q n -> n + 1 < 2 ^ 64 ->
  represents (PushWithKey payload key pr part ex pq) (spec_insert (mkMsg payload pr (n + 1) part (-1) ex key) q) (n + 1).
Proof.
  intros [Hp Hh Hs Hr Hn [Hc H0]] Hlt. unfold PushWithKey, push_message. rewrite Hc.
  assert (wrapu64 (n + 1) = n + 1) as -> by (unfold wrapu64; apply Z.mod_small; lia).
  set (m := mkMsg payload pr (n + 1) part (-1) ex key).
  assert (Hall : Forall (fun x => Sequence x < n + 1) q) by (eapply Forall_impl; [exact Hr|]; cbn; lia).
  assert (He : er <$> heap_Push Less at_slot (at_slot (length (h pq)) (mkMsg payload pr (n + 1) part 0 ex key)) (h pq)
    = heap_Push Less (fun _ b => b) m (er <$> h pq)).
  { by rewrite (erase_Push Less at_slot Less er er_less er_slot). }
  destruct (heap_Push_spec Less Less_asym Less_neg_trans m _ Hh) as [Ho Hpm].
  split; cbn [h sequence].
  - by rewrite He, Hpm, Hp, spec_insert_perm.
  - by rewrite He.
  - by apply spec_insert_sorted.
  - rewrite spec_insert_perm. constructor; [cbn; lia|]. eapply Forall_impl; [exact Hr|]. cbn. lia.
  - rewrite spec_insert_perm. cbn. constructor; [|done].
    intros Hin. apply list_elem_of_fmap in Hin as (x & Hx & Hin).
    rewrite Forall_forall in Hall. specialize (Hall _ Hin). cbn in Hall. lia.
  - lia.
Qed.

(** ** Pop *)

Lemma represents_pop pq q n :
  represents pq q n ->
  match q with
  | [] => PopNonBlocking pq = (None, pq)
  | m :: q => exists pq', PopNonBlocking pq = (Some m, pq') /\ represents pq' q n
  end.
Proof.
  intros [Hp Hh Hs Hr Hn Hc]. unfold PopNonBlocking. destruct q as [|m q].
  { apply Permutation_nil_r in Hp. apply fmap_nil_inv in Hp. by rewrite Hp. }
  assert (Hne : er <$> h pq <> []) by (intros E; rewrite E in Hp; by apply Permutation_nil_cons in Hp).
  destruct (h pq) as [|x0 hp0] eqn:Eh; [done|]. rewrite <- Eh in *.
  destruct (heap_Pop_spec Less Less_asym Less_neg_trans _ Hh Hne) as (y & hp & Hpop & Ho & Hperm & Hmin).
  rewrite (erase_Pop Less at_slot Less er er_less er_slot) in Hpop.
  destruct (heap_Pop Less at_slot (h pq)) as [[x hp']|]; [|done]. injection Hpop as <- <-.
  assert (Hq : er x :: (er <$> hp') ≡ₚ m :: q) by (by rewrite <- Hperm, Hp).
  apply StronglySorted_inv in Hs as [Hs Hall].
  assert (er x = m) as Hx.
  { destruct (decide (er x = m)) as [|Hxm]; [done|exfalso].
    assert (H1 : er x ∈ m :: q) by (rewrite <- Hq; left). apply elem_of_cons in H1 as [|H1]; [done|].
    assert (H2 : m ∈ er x :: (er <$> hp')) by (rewrite Hq; left). apply elem_of_cons in H2 as [|H2]; [done|].
    rewrite Forall_forall in Hall, Hmin. specialize (Hall _ H1). specialize (Hmin _ H2). unfold above in Hmin. congruence. }
  rewrite Hx in Hq. apply Permutation_cons_inv in Hq. exists (mkPQ hp' (sequence pq)). split; [by rewrite <- Hx|].
  apply Forall_cons in Hr as [_ Hr]. cbn in Hn. apply NoDup_cons in Hn as [_ Hn].
  by split.
Qed.

(** ** Compact *)

(** The map holds, for each key among the first [i] slots, the slot of the
    youngest message. *)
Definition latest_inv (i : nat) (hp : list PriorityMessage) (latest : gmap string nat) : Prop :=
  forall k, k <> ""%string ->
    match latest !! k with
    | Some j => exists m, hp !! j = Some m /\ Key m = k /\
        forall j' m', (j' < i)%nat -> hp !! j' = Some m' -> Key m' = k -> Sequence m' <= Sequence m
    | None => forall j' m', (j' < i)%nat -> hp !! j' = Some m' -> Key m' <> k
    end.

Lemma latest_step i hp msg latest :
  hp !! i = Some msg -> latest_inv i hp latest ->
  latest_inv (S i) hp
    (if bool_decide (Key msg = ""%string) then latest
     else match latest !! Key msg ≫= (fun j => hp !! j) with
          | Some existing => if Sequence existing <? Sequence msg then <[Key msg := i]> latest else latest
          | None => <[Key msg := i]> latest
          end).
Proof.
  intros Hi Hinv k Hk. specialize (Hinv k Hk).
  assert (Hlt : forall j', (j' < S i)%nat -> (j' < i)%nat \/ j' = i) by lia.
  case_bool_decide as He.
  { destruct (latest !! k) as [j|].
    - destruct Hinv as (m & Hj & Hm & Hmax). exists m. repeat split; try done.
      intros j' m' [H| ->]%Hlt Hm' Hkm; [eauto|]. congruence.
    - intros j' m' [H| ->]%Hlt Hm'; [eauto|]. congruence. }
  destruct (decide (k = Key msg)) as [->|Hne].
  - destruct (latest !! Key msg) as [j|] eqn:El; cbn [mbind option_bind].
    + destruct Hinv as (m & Hj & Hm & Hmax). rewrite Hj. destruct (Sequence m <? Sequence msg) eqn:E.
      * apply Z.ltb_lt in E. rewrite lookup_insert_eq. exists msg. repeat split; [done|].
        intros j' m' [H| ->]%Hlt Hm' Hkm; [specialize (Hmax _ _ H Hm' Hkm); lia|]. replace m' with msg by congruence. lia.
      * apply Z.ltb_ge in E. rewrite El. exists m. repeat split; try done.
        intros j' m' [H| ->]%Hlt Hm' Hkm; [eauto|]. by replace m' with msg by congruence.
    + rewrite lookup_insert_eq. exists msg. repeat split; [done|].
      intros j' m' [H| ->]%Hlt Hm' Hkm; [by destruct (Hinv _ _ H Hm')|]. replace m' with msg by congruence. lia.
  - match goal with |- match ?l !! k with _ => _ end => assert (l !! k = latest !! k) as -> end.
    { repeat case_match; by rewrite ?lookup_insert_ne. }
    destruct (latest !! k) as [j|].
    + destruct Hinv as (m & Hj & Hm & Hmax). exists m. repeat split; try done.
      intros j' m' [H| ->]%Hlt Hm' Hkm; [eauto|]. congruence.
    + intros j' m' [H| ->]%Hlt Hm'; [eauto|]. congruence.
Qed.

Lemma latest_from_spec rest hp i latest :
  drop i hp = rest -> latest_inv i hp latest -> latest_inv (i + length rest) hp (latest_from i hp rest latest).
Proof.
  revert i latest. induction rest as [|msg rest IH]; intros i latest Hd Hinv; cbn [latest_from length].
  { by rewrite Nat.add_0_r. }
  assert (Hi : hp !! i = Some msg) by (rewrite <- (Nat.add_0_r i), <- lookup_drop, Hd; done).
  replace (i + S (length rest))%nat with (S i + length rest)%nat by lia.
  apply IH; [|by apply latest_step].
  rewrite <- Nat.add_1_r, <- drop_drop, Hd. done.
Qed.

Lemma is_latest_spec q m :
  is_latest q m = true <->
  Key m = ""%string \/ forall m', m' ∈ q -> Key m' = Key m -> Sequence m' <= Sequence m.
Proof.
  unfold is_latest. rewrite orb_true_iff, bool_decide_eq_true, forallb_forall.
  f_equiv. split; intros H m' Hm'.
  - intros Hk. apply list_elem_of_In in Hm'. specialize (H _ Hm'). rewrite bool_decide_true in H by done. cbn in H. lia.
  - apply list_elem_of_In in Hm'. case_bool_decide as Hk; [|done]. specialize (H _ Hm' Hk). cbn. lia.
Qed.

Lemma keep_latest_filter hp latest rest i :
  NoDup (Sequence <$> hp) -> latest_inv (length hp) hp latest -> drop i hp = rest ->
  keep_latest i latest rest = List.filter (is_latest hp) rest.
Proof.
  intros Hn Hinv. revert i. induction rest as [|msg rest IH]; intros i Hd; cbn [keep_latest List.filter]; [done|].
  assert (Hi : hp !! i = Some msg) by (rewrite <- (Nat.add_0_r i), <- lookup_drop, Hd; done).
  rewrite (IH (S i)) by (rewrite <- Nat.add_1_r, <- drop_drop, Hd; done).
  assert (bool_decide (Key msg = ""%string) || bool_decide (latest !! Key msg = Some i) = is_latest hp msg) as ->; [|done].
  apply eq_bool_prop_intro. rewrite !Is_true_true, is_latest_spec, orb_true_iff, !bool_decide_eq_true.
  destruct (decide (Key msg = ""%string)) as [|Hk]; [tauto|]. specialize (Hinv _ Hk).
  split; (intros [|H]; [by left|right]).
  - rewrite H in Hinv. destruct Hinv as (m & Hm & _ & Hmax). replace m with msg in Hmax by congruence.
    intros m' [j Hj]%list_elem_of_lookup Hkm. eapply Hmax; [|exact Hj|done]. by eapply lookup_lt_Some.
  - destruct (latest !! Key msg) as [j|].
    + destruct Hinv as (m & Hj & Hkm & Hmax). f_equal.
      assert (Sequence msg <= Sequence m) by (eapply Hmax; [by eapply lookup_lt_Some|exact Hi|done]).
      assert (Sequence m <= Sequence msg) by (apply H; [by eapply list_elem_of_lookup_2|done]).
      eapply (NoDup_lookup (Sequence <$> hp)); [done| |].
      * rewrite list_lookup_fmap, Hj. cbn. reflexivity.
      * rewrite list_lookup_fmap, Hi. cbn. f_equal. lia.
    + by destruct (Hinv _ _ (lookup_lt_Some _ _ _ Hi) Hi).
Qed.

Lemma is_latest_er hp m : is_latest (er <$> hp) (er m) = is_latest hp m.
Proof.
  unfold is_latest. f_equal. induction hp as [|x hp IH]; cbn; [done|]. by f_equal.
Qed.

Lemma is_latest_perm q q' m : q ≡ₚ q' -> is_latest q m = is_latest q' m.
Proof.
  intros H. apply eq_bool_prop_intro. rewrite !Is_true_true, !is_latest_spec. by setoid_rewrite H.
Qed.

Lemma filter_perm (f : PriorityMessage -> bool) q q' : q ≡ₚ q' -> List.filter f q ≡ₚ List.filter f q'.
Proof.
  induction 1 as [|x q q' _ IH|x y q|q q' q'' _ IH1 _ IH2]; cbn; [done| | |by rewrite IH1].
  - by destruct (f x); rewrite IH.
  - destruct (f x), (f y); try done. constructor.
Qed.

Lemma filter_sublist_of (f : PriorityMessage -> bool) q : List.filter f q `sublist_of` q.
Proof. induction q as [|x q IH]; cbn; [done|]. destruct (f x); by constructor. Qed.

Lemma sorted_filter f q : StronglySorted before q -> StronglySorted before (List.filter f q).
Proof.
  induction 1 as [|x q Hs IH Hall]; cbn; [constructor|]. destruct (f x); [|done]. constructor; [done|].
  rewrite Forall_forall in *. intros y Hy. apply list_elem_of_In, filter_In in Hy as [Hy _].
  apply Hall. by apply list_elem_of_In.
Qed.

Lemma represents_compact pq q n : represents pq q n -> represents (Compact pq) (spec_compact q) n.
Proof.
  intros [Hp Hh Hs Hr Hn Hc].
  assert (Hnh : NoDup (Sequence <$> h pq)).
  { assert (Sequence <$> h pq = Sequence <$> (er <$> h pq)) as -> by (by rewrite <- list_fmap_compose).
    by rewrite Hp. }
  unfold Compact. rewrite (keep_latest_filter (h pq)); [|done| |done].
  2:{ apply (latest_from_spec _ _ 0); [by rewrite drop_0|]. intros k Hk. rewrite lookup_empty. lia. }
  assert (Hf : er <$> List.filter (is_latest (h pq)) (h pq) ≡ₚ spec_compact q).
  { unfold spec_compact. rewrite <- (filter_perm _ _ _ Hp).
    assert (er <$> List.filter (is_latest (h pq)) (h pq) = List.filter (is_latest q) (er <$> h pq)) as ->; [|done].
    generalize (h pq) at 2 3. intros l. induction l as [|x l IH]; cbn; [done|].
    rewrite <- (is_latest_perm _ _ (er x) Hp), is_latest_er. destruct (is_latest (h pq) x); cbn; by rewrite IH. }
  destruct (heap_Init_spec Less Less_asym Less_neg_trans (er <$> List.filter (is_latest (h pq)) (h pq))) as [Ho Hpm].
  rewrite <- (erase_Init Less at_slot Less er er_less er_slot) in Ho, Hpm.
  split; cbn [h sequence].
  - by rewrite Hpm.
  - done.
  - by apply sorted_filter.
  - rewrite Forall_forall in *. intros x Hx. apply Hr. apply list_elem_of_In, filter_In in Hx as [Hx _]. by apply list_elem_of_In.
  - eapply sublist_NoDup; [exact Hn|]. apply fmap_sublist, filter_sublist_of.
  - done.
Qed.

(** ** Refinement *)

Lemma represents_step o pq q n :
  represents pq q n -> n + 1 < 2 ^ 64 ->
  (step o pq).1 = (spec_step o (q, n)).1 /\
  represents (step o pq).2 (spec_step o (q, n)).2.1 (spec_step o (q, n)).2.2 /\
  (spec_step o (q, n)).2.2 <= n + 1.
Proof.
  intros Hr Hn. destruct o as [payload key pr part ex| | |]; cbn [step spec_step].
  - split; [done|split; [by apply represents_push|cbn; lia]].
  - pose proof (represents_pop _ _ _ Hr) as Hp. destruct q as [|m q]; cbn.
    + rewrite Hp. cbn. split; [done|split; [done|lia]].
    + destruct Hp as (pq' & -> & Hr'). cbn. split; [done|split; [done|lia]].
  - cbn. split; [|split; [done|lia]]. unfold Len. by rewrite <- (rep_perm _ _ _ Hr), length_fmap.
  - cbn. split; [done|split; [by apply represents_compact|lia]].
Qed.

Lemma represents_outputs ops pq q n :
  represents pq q n -> n + Z.of_nat (length ops) < 2 ^ 64 ->
  outputs step ops pq = outputs spec_step ops (q, n).
Proof.
  revert pq q n. induction ops as [|o ops IH]; intros pq q n Hr Hn; cbn [outputs]; [done|]. cbn [length] in Hn.
  destruct (represents_step o pq q n Hr ltac:(lia)) as (Ho & Hr' & Hle).
  destruct (step o pq) as [out pq'], (spec_step o (q, n)) as [out' [q' n']]. cbn in *. subst out'.
  f_equal. apply IH; [done|lia].
Qed.

(** Any sequence of pushes, pops, length queries and compactions gives
    the answers of a queue kept in order of priority, first in first out
    among equals, in which compaction keeps the messages without a key and
    the youngest of each key. *)
Theorem queue_refines_ordered_list ops :
  Z.of_nat (length ops) < 2 ^ 64 ->
  outputs step ops NewPriorityQueue = outputs spec_step ops ([], 0).
Proof.
  intros Hn. apply represents_outputs; [apply represents_new|lia].
Qed.

Definition demo_ops : list pq_op :=
  [OPush "a" "k" 1 0 9; OPush "b" "" 5 1 9; OPush "c" "k" 1 2 9; OPush "d" "" 5 3 9; OCompact; OLen; OPop; OPop; OPop; OPop].

Lemma queue_refines_ordered_list_witness :
  outputs step demo_ops NewPriorityQueue = outputs spec_step demo_ops ([], 0) /\
  (fun o => match o with OutMsg (Some m) => Payload m | _ => ""%string end) <$> drop 6 (outputs step demo_ops NewPriorityQueue)
    = ["b"; "d"; "c"; ""]%string.
Proof. split; [apply queue_refines_ordered_list; vm_compute; reflexivity|vm_compute; reflexivity]. Defined.
