(* ===== verification/TimeWheel.v ===== *)
(** * The timing wheel of the broker ([pulse/pkg/broker/timewheel.go])

    Delayed tasks wait in the buckets of a wheel that turns by one bucket per
    tick.  [tick] is the body of the ticker loop; the tasks it starts are its
    output.  [None] is a run-time panic: an empty wheel, a zero interval, or a
    position that overflowed. *)

From S2P Require Import Prelude GoStrings.
Local Open Scope Z_scope.
Local Open Scope list_scope.

Section TimeWheel.
Context {T : Type}.

Record twJob := mkJob { rounds : Z; task : T }.

Record TimeWheel := mkTW { interval : Z; buckets : list (list twJob); currentPos : Z }.

Definition NewTimeWheel (interval : Z) (numBuckets : nat) : TimeWheel :=
  mkTW interval (replicate numBuckets []) 0.

(** The loop of [tick] over a bucket: the tasks to run, and what stays. *)
Fixpoint sweep (l : list twJob) : list T * list twJob :=
  match l with
  | [] => ([], [])
  | j :: l =>
      let '(run, stay) := sweep l in
      if rounds j <=? 0 then (task j :: run, stay)
      else (run, mkJob (wrap64 (rounds j - 1)) (task j) :: stay)
  end.

Definition tick (tw : TimeWheel) : option (list T * TimeWheel) :=
  let pos := Z.to_nat (currentPos tw) in
  l ← buckets tw !! pos;
  let '(run, stay) := sweep l in
  Some (run, mkTW (interval tw) (<[pos := stay]> (buckets tw))
                  (Z.rem (wrap64 (currentPos tw + 1)) (Z.of_nat (length (buckets tw))))).

Definition AddJob (delay : Z) (t : T) (tw : TimeWheel) : option TimeWheel :=
  if interval tw =? 0 then None else
  let ticks0 := wrap64 (Z.quot delay (interval tw)) in
  let ticks := if ticks0 <? 1 then 1 else ticks0 in
  let n := Z.of_nat (length (buckets tw)) in
  if n =? 0 then None else
  let pos := Z.rem (wrap64 (currentPos tw + ticks)) n in
  if pos <? 0 then None else
  l ← buckets tw !! Z.to_nat pos;
  Some (mkTW (interval tw) (<[Z.to_nat pos := l ++ [mkJob (Z.quot ticks n) t]]> (buckets tw)) (currentPos tw)).

(** ** Specification: a list of tasks with the ticks each still has to wait *)

Definition delay_ticks (interval delay : Z) : Z := Z.max 1 (Z.quot delay interval).

Definition spec_tick (p : list (Z * T)) : list T * list (Z * T) :=
  (snd <$> List.filter (fun x => x.1 =? 0) p,
   (fun x => (x.1 - 1, x.2)) <$> List.filter (fun x => negb (x.1 =? 0)) p).

Inductive tw_op := TTick | TAdd (delay : Z) (t : T).

Definition tw_step (o : tw_op) (tw : TimeWheel) : option (list T * TimeWheel) :=
  match o with
  | TTick => tick tw
  | TAdd d t => tw ← AddJob d t tw; Some ([], tw)
  end.

Definition tw_spec (ivl : Z) (o : tw_op) (p : list (Z * T)) : list T * list (Z * T) :=
  match o with
  | TTick => spec_tick p
  | TAdd d t => ([], p ++ [(delay_ticks ivl d, t)])
  end.

Fixpoint tw_outputs (os : list tw_op) (tw : TimeWheel) : option (list (list T)) :=
  match os with
  | [] => Some []
  | o :: os => '(out, tw) ← tw_step o tw; rest ← tw_outputs os tw; Some (out :: rest)
  end.

Fixpoint spec_outputs (ivl : Z) (os : list tw_op) (p : list (Z * T)) : list (list T) :=
  match os with
  | [] => []
  | o :: os => let '(out, p) := tw_spec ivl o p in out :: spec_outputs ivl os p
  end.

(** ** The wheel holds the waiting tasks *)

(** The jobs of bucket [b] when the wheel of [n] buckets is at [cur]. *)
Definition bucket_of (n cur b : Z) (p : list (Z * T)) : list twJob :=
  (fun x => mkJob (x.1 / n) x.2) <$> List.filter (fun x => (cur + x.1) mod n =? b) p.

Record tw_represents (n : nat) (ivl : Z) (tw : TimeWheel) (p : list (Z * T)) : Prop := {
  tw_len : length (buckets tw) = n;
  tw_ivl : interval tw = ivl;
  tw_pos : 0 <= currentPos tw < Z.of_nat n;
  tw_range : Forall (fun x => 0 <= x.1 < 2 ^ 63) p;
  tw_bucket : forall b, (b < n)%nat -> buckets tw !! b = Some (bucket_of (Z.of_nat n) (currentPos tw) (Z.of_nat b) p) }.

Lemma div_step n r : 0 < n -> 0 <= r -> (r mod n =? 0) = false -> (r - 1) / n = r / n.
Proof.
  intros Hn Hr H. apply Z.eqb_neq in H. pose proof (Z.mod_pos_bound r n Hn).
  symmetry. apply (Z.div_unique_pos (r - 1) n (r / n) (r mod n - 1)); [lia|].
  pose proof (Z.div_mod r n ltac:(lia)). lia.
Qed.

Lemma div_round n r : 0 < n -> r mod n = 0 -> (r - 1) / n = r / n - 1.
Proof.
  intros Hn H. pose proof (Z.div_mod r n ltac:(lia)) as E. rewrite H, Z.add_0_r in E.
  replace (r - 1) with (n - 1 + (r / n - 1) * n) by lia. rewrite Z.div_add, Z.div_small by lia. lia.
Qed.

Lemma same_bucket n cur r b : 0 < n -> 0 <= cur < n -> 0 <= b < n ->
  ((cur + 1) mod n + (r - 1)) mod n = b <-> (cur + r) mod n = b.
Proof.
  intros Hn Hc Hb. rewrite Zplus_mod_idemp_l. by replace (cur + 1 + (r - 1)) with (cur + r) by lia.
Qed.

Lemma current_bucket n cur r : 0 < n -> 0 <= cur < n -> (cur + r) mod n = cur <-> r mod n = 0.
Proof.
  intros Hn Hc. split; intros H.
  - replace r with ((cur + r) - cur) by lia. rewrite Zminus_mod, H. rewrite (Z.mod_small cur n) by lia.
    rewrite Z.sub_diag. by apply Z.mod_0_l; lia.
  - rewrite <- Zplus_mod_idemp_r, H, Z.add_0_r. apply Z.mod_small. lia.
Qed.

(** Sweeping the current bucket fires the tasks that have waited. *)
Lemma sweep_current n cur p :
  0 < n -> 0 <= cur < n -> Forall (fun x => 0 <= x.1 < 2 ^ 63) p ->
  sweep (bucket_of n cur cur p) = ((spec_tick p).1, bucket_of n ((cur + 1) mod n) cur (spec_tick p).2).
Proof.
  intros Hn Hc Hall. induction p as [|[r t] p IH]; [done|]. apply Forall_cons in Hall as [Hr Hall]. cbn in Hr.
  specialize (IH Hall). unfold bucket_of, spec_tick in *. cbn [List.filter fst snd].
  destruct ((cur + r) mod n =? cur) eqn:E.
  - rewrite Z.eqb_eq, current_bucket in E by lia. cbn [fmap list_fmap sweep]. cbn [fmap list_fmap] in IH. rewrite IH.
    cbn [rounds task fst snd]. destruct (r =? 0) eqn:E0.
    + apply Z.eqb_eq in E0. subst r. rewrite Z.div_0_l by lia. done.
    + apply Z.eqb_neq in E0. assert (0 < r / n).
      { apply Z.div_str_pos. split; [lia|]. destruct (Z.lt_ge_cases r n); [|lia]. rewrite Z.mod_small in E; lia. }
      replace (r / n <=? 0) with false by (symmetry; apply Z.leb_gt; lia). cbn [negb fmap list_fmap List.filter fst snd].
      replace (((cur + 1) mod n + (r - 1)) mod n =? cur) with true
        by (symmetry; apply Z.eqb_eq; apply same_bucket; [lia..|]; by apply current_bucket).
      cbn [fmap list_fmap fst snd]. do 2 f_equal. f_equal. rewrite div_round by done.
      assert (r / n <= r) by (apply Z.div_le_upper_bound; nia). apply wrap64_id. unfold in_int64, min_int64, max_int64. lia.
  - apply Z.eqb_neq in E. rewrite IH. destruct (r =? 0) eqn:E0.
    + apply Z.eqb_eq in E0. subst. exfalso. apply E. rewrite current_bucket by lia. by apply Z.mod_0_l; lia.
    + cbn [negb fmap list_fmap List.filter fst snd].
      replace (((cur + 1) mod n + (r - 1)) mod n =? cur) with false; [done|].
      symmetry. apply Z.eqb_neq. rewrite same_bucket by lia. done.
Qed.

(** The other buckets do not change. *)
Lemma other_bucket n cur b p :
  0 < n -> 0 <= cur < n -> 0 <= b < n -> b <> cur -> Forall (fun x => 0 <= x.1 < 2 ^ 63) p ->
  bucket_of n ((cur + 1) mod n) b (spec_tick p).2 = bucket_of n cur b p.
Proof.
  intros Hn Hc Hb Hne Hall. induction p as [|[r t] p IH]; [done|]. apply Forall_cons in Hall as [Hr Hall]. cbn in Hr.
  specialize (IH Hall). unfold bucket_of, spec_tick in *. cbn [List.filter fst snd].
  destruct (r =? 0) eqn:E0; cbn [negb].
  - apply Z.eqb_eq in E0. subst r. rewrite Z.add_0_r, (Z.mod_small cur n) by lia.
    replace (cur =? b) with false by (symmetry; apply Z.eqb_neq; lia). exact IH.
  - cbn [fmap list_fmap List.filter fst snd].
    assert ((((cur + 1) mod n + (r - 1)) mod n =? b) = ((cur + r) mod n =? b)) as ->.
    { apply eq_bool_prop_intro. rewrite !Is_true_true, !Z.eqb_eq. apply same_bucket; lia. }
    destruct ((cur + r) mod n =? b) eqn:E; [|exact IH]. cbn [fmap list_fmap fst snd]. f_equal; [|exact IH].
    f_equal. apply div_step; [lia..|]. apply Z.eqb_neq. apply Z.eqb_eq in E. intros H.
    apply (current_bucket n cur) in H; [|lia..]. lia.
Qed.

Lemma bucket_app n cur b p x : bucket_of n cur b (p ++ [x]) =
  bucket_of n cur b p ++ (if (cur + x.1) mod n =? b then [mkJob (x.1 / n) x.2] else []).
Proof. unfold bucket_of. rewrite List.filter_app, fmap_app. cbn [List.filter]. by destruct (_ =? b). Qed.

Lemma spec_tick_range p : Forall (fun x => 0 <= x.1 < 2 ^ 63) p -> Forall (fun x : Z * T => 0 <= x.1 < 2 ^ 63) (spec_tick p).2.
Proof.
  rewrite !Forall_forall. intros H x Hx. apply list_elem_of_fmap in Hx as (y & -> & Hy).
  apply list_elem_of_In, filter_In in Hy as [Hy H0]. apply list_elem_of_In in Hy. specialize (H _ Hy). cbn. lia.
Qed.

Lemma tick_represents n ivl tw p :
  Z.of_nat n < 2 ^ 63 -> tw_represents n ivl tw p ->
  exists tw', tick tw = Some ((spec_tick p).1, tw') /\ tw_represents n ivl tw' (spec_tick p).2.
Proof.
  intros Hn63 [Hl Hi Hp Hr Hb]. unfold tick. set (cur := currentPos tw) in *.
  rewrite (Hb (Z.to_nat cur)) by lia. cbn [mbind option_bind]. rewrite Z2Nat.id by lia.
  rewrite sweep_current by (done || lia). rewrite Hl, wrap64_id by (unfold in_int64, min_int64, max_int64; lia).
  rewrite Z.rem_mod_nonneg by lia.
  eexists. split; [reflexivity|]. split; cbn [buckets interval currentPos].
  - by rewrite length_insert.
  - done.
  - apply Z.mod_pos_bound. lia.
  - by apply spec_tick_range.
  - intros b Hlt. destruct (decide (b = Z.to_nat cur)) as [->|Hne].
    + rewrite list_lookup_insert_eq by lia. by rewrite Z2Nat.id by lia.
    + rewrite list_lookup_insert_ne by done. rewrite Hb by done. f_equal. symmetry. apply other_bucket; (done || lia).
Qed.

Lemma add_represents n ivl tw p d t :
  tw_represents n ivl tw p -> 0 < ivl -> in_int64 d -> Z.of_nat n + delay_ticks ivl d < 2 ^ 63 ->
  exists tw', AddJob d t tw = Some tw' /\ tw_represents n ivl tw' (p ++ [(delay_ticks ivl d, t)]).
Proof.
  intros [Hl Hi Hp Hr Hb] Hivl Hd Hov. unfold AddJob. rewrite Hi, Hl.
  replace (ivl =? 0) with false by (symmetry; apply Z.eqb_neq; lia).
  assert (Hq : in_int64 (Z.quot d ivl)).
  { unfold in_int64, min_int64, max_int64 in *. destruct (Z.le_ge_cases 0 d).
    - pose proof (Z.quot_pos d ivl). pose proof (Z.quot_le_upper_bound d ivl d). nia.
    - pose proof (Z.quot_opp_l d ivl ltac:(lia)). pose proof (Z.quot_pos (- d) ivl).
      pose proof (Z.quot_le_upper_bound (- d) ivl (- d)). nia. }
  rewrite (wrap64_id _ Hq).
  assert ((if Z.quot d ivl <? 1 then 1 else Z.quot d ivl) = delay_ticks ivl d) as ->.
  { unfold delay_ticks. destruct (_ <? 1) eqn:E; [apply Z.ltb_lt in E|apply Z.ltb_ge in E]; lia. }
  assert (1 <= delay_ticks ivl d) by (unfold delay_ticks; lia).
  set (k := delay_ticks ivl d) in *. set (cur := currentPos tw) in *. clearbody k.
  replace (Z.of_nat n =? 0) with false by (symmetry; apply Z.eqb_neq; lia).
  rewrite wrap64_id by (unfold in_int64, min_int64, max_int64; lia). rewrite Z.rem_mod_nonneg by lia.
  pose proof (Z.mod_pos_bound (cur + k) (Z.of_nat n) ltac:(lia)) as Hm. set (pos := (cur + k) mod Z.of_nat n) in *.
  replace (pos <? 0) with false by (symmetry; apply Z.ltb_ge; lia).
  rewrite (Hb (Z.to_nat pos)) by lia. cbn [mbind option_bind]. eexists. split; [reflexivity|].
  split; cbn [buckets interval currentPos]; [by rewrite length_insert|done|done| |].
  - apply Forall_app. split; [done|]. repeat constructor; cbn; lia.
  - intros b Hlt. rewrite bucket_app. cbn [fst snd]. fold cur pos. destruct (decide (b = Z.to_nat pos)) as [->|Hne].
    + rewrite list_lookup_insert_eq by lia. rewrite Z2Nat.id by lia. rewrite Z.eqb_refl. by rewrite Z.quot_div_nonneg by lia.
    + rewrite list_lookup_insert_ne by done. rewrite Hb by done.
      replace (pos =? Z.of_nat b) with false by (symmetry; apply Z.eqb_neq; lia). by rewrite app_nil_r.
Qed.

(** Delays the wheel can hold. *)
Definition add_ok (n : nat) (ivl : Z) (o : tw_op) : Prop :=
  match o with TTick => True | TAdd d _ => in_int64 d /\ Z.of_nat n + delay_ticks ivl d < 2 ^ 63 end.

Lemma outputs_represents n ivl ops tw p :
  0 < ivl -> Z.of_nat n < 2 ^ 63 -> tw_represents n ivl tw p -> Forall (add_ok n ivl) ops ->
  tw_outputs ops tw = Some (spec_outputs ivl ops p).
Proof.
  intros Hivl Hn. revert tw p. induction ops as [|o ops IH]; intros tw p Hrep Hall; [done|].
  apply Forall_cons in Hall as [Ho Hall]. cbn [tw_outputs spec_outputs]. destruct o as [|d t]; cbn [tw_step tw_spec].
  - destruct (tick_represents n ivl tw p Hn Hrep) as (tw' & -> & Hrep'). cbn [mbind option_bind].
    rewrite (IH tw' (spec_tick p).2 Hrep' Hall). done.
  - destruct Ho as [Hd Hov]. destruct (add_represents n ivl tw p d t Hrep Hivl Hd Hov) as (tw' & -> & Hrep').
    cbn [mbind option_bind]. by rewrite (IH _ _ Hrep' Hall).
Qed.

(** C35: on a wheel of any size, a task added with delay [d] is started by
    the tick number [max 1 (d / interval) + 1] after it was added and by no
    other, whatever else is added in between, and tasks due on one tick are
    started in the order in which they were added. *)
Theorem wheel_fires_on_time n ivl ops :
  (0 < n)%nat -> Z.of_nat n < 2 ^ 63 -> 0 < ivl -> Forall (add_ok n ivl) ops ->
  tw_outputs ops (NewTimeWheel ivl n) = Some (spec_outputs ivl ops []).
Proof.
  intros Hn Hn63 Hivl Hall. apply (outputs_represents n); [done..| |done].
  split; cbn; [by rewrite length_replicate|done|lia|constructor|].
  intros b Hb. by rewrite lookup_replicate_2.
Qed.
End TimeWheel.
Arguments TTick {T}.

Lemma wheel_fires_on_time_witness :
  tw_outputs [TAdd 7 "a"; TAdd 0 "b"; TTick; TAdd 2 "c"; TTick; TTick; TTick; TTick] (NewTimeWheel 2 2)
    = Some [[]; []; []; []; ["b"]; ["c"]; ["a"]; []]%string.
Proof.
  etransitivity; [apply wheel_fires_on_time|vm_compute; reflexivity].
  - lia.
  - lia.
  - lia.
  - repeat constructor; vm_compute; congruence.
Defined.
