(* ===== verification/GoSort.v ===== *)
(** * [sort.Strings]

    Sorting strings in Go's byte order.  Equal strings cannot be told apart,
    so the result does not depend on the algorithm ([sorted_unique]). *)

From stdpp Require Export sorting.
From S2P Require Import Prelude GoStrings.

Definition string_le (a b : string) : Prop := string_ltb b a = false.

#[global] Instance string_le_dec a b : Decision (string_le a b).
Proof. unfold string_le. apply _. Defined.

Lemma ascii_ltb_N c d : Ascii.ltb c d = (N_of_ascii c <? N_of_ascii d)%N.
Proof. done. Qed.

Lemma ascii_ltb_asym c d : Ascii.ltb c d = true -> Ascii.ltb d c = false.
Proof. rewrite !ascii_ltb_N, N.ltb_lt, N.ltb_ge. lia. Qed.

Lemma ascii_ltb_total c d : Ascii.ltb c d = false -> Ascii.ltb d c = false -> c = d.
Proof.
  rewrite !ascii_ltb_N, !N.ltb_ge. intros H1 H2.
  rewrite <- (ascii_N_embedding c), <- (ascii_N_embedding d). f_equal. lia.
Qed.

Lemma bytes_ltb_asym a b : bytes_ltb a b = true -> bytes_ltb b a = false.
Proof.
  revert b. induction a as [|c a IH]; intros [|d b]; cbn; try done.
  destruct (decide (c = d)) as [->|Hne]; [rewrite decide_True by done; apply IH|].
  rewrite decide_False by done. apply ascii_ltb_asym.
Qed.

Lemma bytes_ltb_total a b : bytes_ltb a b = false -> bytes_ltb b a = false -> a = b.
Proof.
  revert b. induction a as [|c a IH]; intros [|d b]; cbn; try done.
  destruct (decide (c = d)) as [->|Hne].
  - rewrite decide_True by done. intros H1 H2. f_equal. by apply IH.
  - rewrite decide_False by done. intros H1 H2. destruct Hne. by apply ascii_ltb_total.
Qed.

Lemma bytes_ltb_trans a b c : bytes_ltb a b = false -> bytes_ltb b c = false -> bytes_ltb a c = false.
Proof.
  revert b c. induction a as [|x a IH]; intros [|y b] [|z c]; cbn; try done.
  destruct (decide (x = y)) as [->|H1], (decide (y = z)) as [->|H2]; [apply IH|done|by rewrite decide_False|].
  - intros Hxy Hyz. rewrite ascii_ltb_N, N.ltb_ge in Hxy, Hyz.
    rewrite decide_False; [rewrite ascii_ltb_N, N.ltb_ge; lia|]. intros ->.
    apply H1, ascii_ltb_total; rewrite ascii_ltb_N, N.ltb_ge; lia.
Qed.

#[global] Instance string_le_total : Total string_le.
Proof.
  intros a b. unfold string_le, string_ltb. destruct (bytes_ltb (byt b) (byt a)) eqn:E; [right|by left].
  by apply bytes_ltb_asym.
Qed.
#[global] Instance string_le_trans : Transitive string_le.
Proof. intros a b c H1 H2. unfold string_le, string_ltb in *. eapply bytes_ltb_trans; eassumption. Qed.
#[global] Instance string_le_antisym : AntiSymm (=) string_le.
Proof.
  intros a b H1 H2. unfold string_le, string_ltb in *.
  by apply byt_inj, bytes_ltb_total.
Qed.

Definition sort_Strings (l : list string) : list string := merge_sort string_le l.

Lemma sort_Strings_perm l : sort_Strings l ≡ₚ l.
Proof. apply merge_sort_Permutation. Qed.

Lemma sort_Strings_sorted l : Sorted string_le (sort_Strings l).
Proof. apply Sorted_merge_sort, _. Qed.

(** A sorted permutation is the only one. *)
Lemma sort_Strings_unique l l' : l' ≡ₚ l -> Sorted string_le l' -> l' = sort_Strings l.
Proof.
  intros Hp Hs. apply (Sorted_unique string_le); [done|apply sort_Strings_sorted|].
  by rewrite sort_Strings_perm.
Qed.

Lemma elem_of_sort_Strings x l : x ∈ sort_Strings l <-> x ∈ l.
Proof. by rewrite sort_Strings_perm. Qed.

Lemma length_sort_Strings l : length (sort_Strings l) = length l.
Proof. by rewrite sort_Strings_perm. Qed.

(** ** Lists without repetitions: [uniq] keeps the first occurrence of each
    element; facts on filters *)

Lemma list_filter_all {A} (P : A -> Prop) `{!forall x, Decision (P x)} (l : list A) : Forall P l -> filter P l = l.
Proof. induction 1; [done|]. rewrite filter_cons_True by done. congruence. Qed.

Lemma list_filter_none {A} (P : A -> Prop) `{!forall x, Decision (P x)} (l : list A) : Forall (fun x => ~ P x) l -> filter P l = [].
Proof. induction 1; [done|]. by rewrite filter_cons_False. Qed.

Lemma list_filter_fmap {A B} (f : A -> B) (P : B -> Prop) `{!forall x, Decision (P x)} (l : list A) :
  filter P (f <$> l) = f <$> filter (fun x => P (f x)) l.
Proof. induction l as [|x l IH]; [done|]. rewrite fmap_cons, !filter_cons. destruct (decide (P (f x))); cbn [fmap list_fmap]; by rewrite ?fmap_cons, IH. Qed.

Lemma StronglySorted_filter {A} (R : relation A) (P : A -> Prop) `{!forall x, Decision (P x)} (l : list A) :
  StronglySorted R l -> StronglySorted R (filter P l).
Proof.
  induction 1 as [|x l Hl IH Hx]; [constructor|]. rewrite filter_cons. destruct (decide (P x)); [|done].
  constructor; [done|]. rewrite Forall_forall in Hx |- *. intros y Hy. apply list_elem_of_filter in Hy as [_ Hy]. auto.
Qed.

Lemma StronglySorted_lookup_lt {A} (R : relation A) (l : list A) i j x y :
  StronglySorted R l -> l !! i = Some x -> l !! j = Some y -> (i < j)%nat -> R x y.
Proof.
  intros Hs. revert i j. induction Hs as [|z l Hl IH Hz]; intros [|i] [|j] Hx Hy Hij; try (done || lia); cbn in *.
  - injection Hx as <-. rewrite Forall_forall in Hz. eapply Hz, list_elem_of_lookup_2, Hy.
  - eapply IH; [exact Hx|exact Hy|lia].
Qed.

Lemma elem_of_concat {A} (x : A) (ls : list (list A)) : x ∈ concat ls <-> exists l, l ∈ ls /\ x ∈ l.
Proof.
  rewrite list_elem_of_In, in_concat. split; intros (l & H1 & H2); exists l; by rewrite !list_elem_of_In in *.
Qed.

Section Uniq.
Context {A : Type} `{EqDecision A}.

Fixpoint uniq (l : list A) : list A :=
  match l with [] => [] | x :: l => x :: filter (fun y => y <> x) (uniq l) end.

Lemma elem_of_uniq x l : x ∈ uniq l <-> x ∈ l.
Proof.
  induction l as [|y l IH]; cbn; [done|]. rewrite !elem_of_cons, list_elem_of_filter, IH.
  destruct (decide (x = y)); tauto.
Qed.

Lemma NoDup_uniq l : NoDup (uniq l).
Proof.
  induction l as [|x l IH]; cbn; [constructor|]. constructor; [|by apply NoDup_filter].
  rewrite list_elem_of_filter. tauto.
Qed.

Lemma filter_comm (P Q : A -> Prop) `{!forall x, Decision (P x), !forall x, Decision (Q x)} (l : list A) :
  filter P (filter Q l) = filter Q (filter P l).
Proof.
  rewrite !list_filter_filter. apply list_filter_iff. tauto.
Qed.

Lemma filter_uniq (P : A -> Prop) `{!forall x, Decision (P x)} (l : list A) : filter P (uniq l) = uniq (filter P l).
Proof.
  induction l as [|x l IH]; [done|]. cbn [uniq]. rewrite !filter_cons.
  destruct (decide (P x)) as [HP|HP].
  - cbn [uniq]. f_equal. by rewrite filter_comm, IH.
  - rewrite filter_comm, IH. apply list_filter_all.
    apply Forall_forall. intros y Hy ->. apply HP. rewrite elem_of_uniq, list_elem_of_filter in Hy. tauto.
Qed.

Lemma uniq_NoDup l : NoDup l -> uniq l = l.
Proof.
  induction 1 as [|x l Hx Hl IH]; [done|]. cbn. rewrite IH. f_equal. apply list_filter_all.
  apply Forall_forall. by intros y Hy ->.
Qed.

Lemma uniq_app l k : uniq (l ++ k) = uniq l ++ filter (fun x => x ∉ l) (uniq k).
Proof.
  induction l as [|x l IH]; cbn.
  - symmetry. apply list_filter_all. apply Forall_forall. intros y _ Hy. set_solver.
  - f_equal. rewrite IH, filter_app, list_filter_filter. f_equal.
    apply list_filter_iff. intros y. rewrite not_elem_of_cons. tauto.
Qed.
Lemma StronglySorted_uniq (R : relation A) l : StronglySorted R l -> StronglySorted R (uniq l).
Proof.
  induction 1 as [|x l Hl IH Hx]; [constructor|]. cbn. constructor; [by apply StronglySorted_filter|].
  rewrite Forall_forall in Hx |- *. intros y Hy. apply list_elem_of_filter in Hy as [_ Hy]. apply Hx. by apply elem_of_uniq.
Qed.
End Uniq.

Lemma uniq_fmap_uniq {A B} `{EqDecision A, EqDecision B} (f : A -> B) l : uniq (f <$> uniq l) = uniq (f <$> l).
Proof.
  induction l as [|x l IH]; [done|]. cbn. f_equal.
  assert (E : filter (fun y => y <> f x) (f <$> filter (fun y => y <> x) (uniq l)) = filter (fun y => y <> f x) (f <$> uniq l)).
  { clear IH. induction (uniq l) as [|a m IHm]; [done|]. rewrite fmap_cons.
    destruct (decide (a = x)) as [->|Hx].
    - rewrite (filter_cons_False _ x) by tauto. rewrite (filter_cons_False _ (f x)) by tauto. exact IHm.
    - rewrite (filter_cons_True _ a) by done. rewrite fmap_cons, !(filter_cons (fun y => y <> f x)), IHm. done. }
  rewrite (filter_uniq (fun y => y <> f x)), E, <- filter_uniq. by rewrite IH.
Qed.
