(* ===== verification/Rebalancer.v ===== *)
(** * Partition rebalancing of consumer groups ([pulse/pkg/broker/rebalancer.go])

    Assignments and members are maps; where the source ranges over a map, its
    result does not depend on the order: deletion by value, or a list sorted
    before it is used. *)

From S2P Require Import Prelude GoStrings GoSort.
Local Open Scope list_scope.

Record PartitionAssignment := mkPA { ConsumerID : string; Partitions : list string }.

Record CooperativeRebalancer := mkCR {
  assignments : gmap string string;
  groupMembers : gset string }.

Definition NewCooperativeRebalancer : CooperativeRebalancer := mkCR ∅ ∅.

Definition JoinGroup (consumerID : string) (c : CooperativeRebalancer) : CooperativeRebalancer :=
  mkCR (assignments c) ({[consumerID]} ∪ groupMembers c).

Definition LeaveGroup (consumerID : string) (c : CooperativeRebalancer) : CooperativeRebalancer :=
  mkCR (filter (fun kv => kv.2 <> consumerID) (assignments c)) (groupMembers c ∖ {[consumerID]}).

Definition activeConsumers (c : CooperativeRebalancer) : list string := sort_Strings (elements (groupMembers c)).

(** A partition without an owner that is still in the group. *)
Definition unassigned (c : CooperativeRebalancer) (partition : string) : bool :=
  match assignments c !! partition with
  | None => true
  | Some owner => negb (bool_decide (owner ∈ groupMembers c))
  end.

(** The round-robin loop; [i] counts the partitions handed out. *)
Fixpoint assign_from (i : nat) (active : list string) (ps : list string) (a : gmap string string) : gmap string string :=
  match ps with
  | [] => a
  | p :: ps => assign_from (S i) active ps (<[p := default "" (active !! (i mod length active))]> a)
  end.

Definition partitions_of (a : gmap string string) (consumerID : string) : list string :=
  sort_Strings (fst <$> List.filter (fun kv => bool_decide (kv.2 = consumerID)) (map_to_list a)).

Definition Rebalance (allPartitions : list string) (c : CooperativeRebalancer) :
    list PartitionAssignment * CooperativeRebalancer :=
  let active := activeConsumers c in
  match active with
  | [] => ([], c)
  | _ =>
      let a := assign_from 0 active (List.filter (unassigned c) allPartitions) (assignments c) in
      ((fun m => mkPA m (partitions_of a m)) <$> active, mkCR a (groupMembers c))
  end.

(** [None]: the error "partition %s unassigned". *)
Definition GetAssignment (partition : string) (c : CooperativeRebalancer) : option string :=
  assignments c !! partition.

(** ** Invariant: every partition with an owner belongs to a member *)

Definition owners_live (c : CooperativeRebalancer) : Prop :=
  map_Forall (fun _ owner => owner ∈ groupMembers c) (assignments c).

Inductive cr_op := CJoin (m : string) | CLeave (m : string) | CRebalance (ps : list string).

Definition cr_step (o : cr_op) (c : CooperativeRebalancer) : CooperativeRebalancer :=
  match o with
  | CJoin m => JoinGroup m c
  | CLeave m => LeaveGroup m c
  | CRebalance ps => (Rebalance ps c).2
  end.

Lemma active_elem c m : m ∈ activeConsumers c <-> m ∈ groupMembers c.
Proof. unfold activeConsumers. by rewrite elem_of_sort_Strings, elem_of_elements. Qed.

Lemma active_nodup c : NoDup (activeConsumers c).
Proof. unfold activeConsumers. rewrite sort_Strings_perm. apply NoDup_elements. Qed.

Lemma nth_active active i : active <> [] -> default ""%string (active !! (i mod length active)) ∈ active.
Proof.
  intros H. destruct (lookup_lt_is_Some_2 active (i mod length active)) as [x Hx].
  { apply Nat.mod_upper_bound. by destruct active. }
  rewrite Hx. by eapply list_elem_of_lookup_2.
Qed.

(** What the loop leaves: owners it gave out, or the previous owner. *)
Lemma assign_from_lookup i active ps a p :
  assign_from i active ps a !! p = a !! p /\ p ∉ ps \/
  exists j q, ps !! j = Some p /\ q = default ""%string (active !! ((i + j) mod length active)) /\
    assign_from i active ps a !! p = Some q /\ p ∉ drop (S j) ps.
Proof.
  revert i a. induction ps as [|p' ps IH]; intros i a; cbn [assign_from]; [left; set_solver|].
  destruct (IH (S i) (<[p' := default ""%string (active !! (i mod length active))]> a)) as [[H Hn]|(j & q & Hj & Hq & H & Hn)].
  - destruct (decide (p = p')) as [->|Hne].
    + right. exists 0, (default ""%string (active !! (i mod length active))).
      rewrite H, lookup_insert_eq, Nat.add_0_r. done.
    + left. rewrite H, lookup_insert_ne by done. split; [done|]. set_solver.
  - right. exists (S j), q. rewrite <- Nat.add_succ_comm. done.
Qed.

Lemma assign_from_live i active ps a (live : gset string) :
  active <> [] -> (forall m, m ∈ active -> m ∈ live) -> map_Forall (fun _ o => o ∈ live) a ->
  map_Forall (fun _ o => o ∈ live) (assign_from i active ps a).
Proof.
  intros Hne Hin Ha p o Hp. destruct (assign_from_lookup i active ps a p) as [[H _]|(j & q & _ & Hq & H & _)].
  - eapply Ha. by rewrite <- H.
  - rewrite Hp in H. injection H as ->. rewrite Hq. by apply Hin, nth_active.
Qed.

Lemma owners_live_step o c : owners_live c -> owners_live (cr_step o c).
Proof.
  intros H. destruct o as [m|m|ps]; cbn [cr_step]; unfold owners_live in *.
  - intros p o Hp. specialize (H p o Hp). set_solver.
  - cbn. intros p o Hp. apply map_lookup_filter_Some in Hp as [Hp Hne]. specialize (H p o Hp). cbn in *. set_solver.
  - unfold Rebalance. destruct (activeConsumers c) as [|m ms] eqn:Ea; [done|]. rewrite <- Ea. cbn [snd assignments groupMembers].
    apply assign_from_live; [by rewrite Ea|intros x; apply active_elem|done].
Qed.

(** The sequences of calls on a fresh rebalancer. *)
Inductive cr_reachable : CooperativeRebalancer -> Prop :=
  | reach_new : cr_reachable NewCooperativeRebalancer
  | reach_step o c : cr_reachable c -> cr_reachable (cr_step o c).

Lemma reachable_live c : cr_reachable c -> owners_live c.
Proof. induction 1 as [|o c _ IH]; [apply map_Forall_empty|by apply owners_live_step]. Qed.

(** ** Rebalancing *)

Lemma partitions_of_elem a m p : p ∈ partitions_of a m <-> a !! p = Some m.
Proof.
  unfold partitions_of. rewrite elem_of_sort_Strings, list_elem_of_fmap. split.
  - intros ([p' m'] & -> & H). apply list_elem_of_In, filter_In in H as [H Hm]. apply list_elem_of_In in H.
    apply elem_of_map_to_list in H. apply bool_decide_eq_true in Hm. cbn in *. by subst.
  - intros H. exists (p, m). split; [done|]. apply list_elem_of_In, filter_In. split.
    + by apply list_elem_of_In, elem_of_map_to_list.
    + by apply bool_decide_eq_true.
Qed.

Lemma partitions_of_nodup a m : NoDup (partitions_of a m).
Proof.
  unfold partitions_of. rewrite sort_Strings_perm. pose proof (NoDup_fst_map_to_list a) as H.
  induction (map_to_list a) as [|[p o] l IH]; cbn; [constructor|]. cbn in H. apply NoDup_cons in H as [Hp H].
  case_bool_decide; [|by apply IH]. cbn. constructor; [|by apply IH].
  intros Hin. apply Hp. apply list_elem_of_fmap in Hin as (x & -> & Hin). apply list_elem_of_fmap. exists x. split; [done|].
  apply list_elem_of_In, filter_In in Hin as [Hin _]. by apply list_elem_of_In.
Qed.

(** An owner that is still a member keeps its partitions, and a partition
    without one goes to the member whose turn it is. *)
Lemma rebalance_assigns ps c p :
  activeConsumers c <> [] -> p ∈ ps ->
  exists m, assignments (Rebalance ps c).2 !! p = Some m /\ m ∈ groupMembers c /\
    (unassigned c p = false -> assignments c !! p = Some m).
Proof.
  intros Hne Hp. unfold Rebalance. destruct (activeConsumers c) as [|x xs] eqn:Ea; [done|]. rewrite <- Ea in *.
  cbn [snd assignments]. set (us := List.filter (unassigned c) ps).
  destruct (assign_from_lookup 0 (activeConsumers c) us (assignments c) p) as [[H Hn]|(j & q & Hj & Hq & H & _)].
  - assert (Hu : unassigned c p = false).
    { destruct (unassigned c p) eqn:E; [|done]. destruct Hn. apply list_elem_of_In, filter_In. split; [by apply list_elem_of_In|done]. }
    rewrite H. pose proof Hu as Hu'. unfold unassigned in Hu. destruct (assignments c !! p) as [o|]; [|done].
    apply negb_false_iff, bool_decide_eq_true in Hu. by exists o.
  - exists q. split; [done|]. split; [rewrite Hq; by apply active_elem, nth_active|].
    assert (Hin : p ∈ us) by (by eapply list_elem_of_lookup_2).
    apply list_elem_of_In, filter_In in Hin as [_ Hin]. congruence.
Qed.

Lemma rebalance_result ps c :
  (Rebalance ps c).1 = (fun m => mkPA m (partitions_of (assignments (Rebalance ps c).2) m)) <$> activeConsumers c.
Proof. unfold Rebalance. by destruct (activeConsumers c). Qed.

Lemma rebalance_members ps c : groupMembers (Rebalance ps c).2 = groupMembers c.
Proof. unfold Rebalance. by destruct (activeConsumers c). Qed.

(** In any reachable state with a member, after a rebalance every
    partition given appears in the answer exactly once, under a member; a
    partition whose owner is a member stays with it, and the answer lists
    each member once, with its partitions sorted. *)
Theorem rebalance_partitions_exactly ps c p :
  cr_reachable c -> groupMembers c <> ∅ -> p ∈ ps ->
  let res := (Rebalance ps c).1 in
  ConsumerID <$> res = sort_Strings (elements (groupMembers c)) /\
  Forall (fun r => Sorted string_le (Partitions r) /\ NoDup (Partitions r)) res /\
  exists r, r ∈ res /\ p ∈ Partitions r /\ (forall r', r' ∈ res -> p ∈ Partitions r' -> r' = r) /\
    forall m, GetAssignment p c = Some m -> ConsumerID r = m.
Proof.
  intros Hreach Hne Hp res. pose proof (reachable_live c Hreach) as Hlive.
  assert (Ha : activeConsumers c <> []).
  { intros E. apply Hne. apply set_eq. intros m. rewrite <- active_elem, E. set_solver. }
  destruct (rebalance_assigns ps c p Ha Hp) as (m & Hm & Hmem & Hstick).
  set (a := assignments (Rebalance ps c).2) in *. subst res. rewrite rebalance_result. fold a.
  split; [rewrite <- list_fmap_compose; unfold compose; cbn; by rewrite list_fmap_id|].
  split.
  { apply Forall_fmap, Forall_true. intros m'. cbn. split; [apply sort_Strings_sorted|apply partitions_of_nodup]. }
  exists (mkPA m (partitions_of a m)). split; [|split; [|split]].
  - apply list_elem_of_fmap. exists m. split; [done|]. by apply active_elem.
  - cbn. by apply partitions_of_elem.
  - intros r' Hr' Hin. apply list_elem_of_fmap in Hr' as (m' & -> & _). cbn in Hin. apply partitions_of_elem in Hin.
    by replace m' with m by congruence.
  - intros o Ho. cbn. unfold GetAssignment in Ho. pose proof (Hlive p o Ho) as Hin.
    assert (Hu : unassigned c p = false) by (unfold unassigned; rewrite Ho; by rewrite bool_decide_true). specialize (Hstick Hu). congruence.
Qed.

Definition demo_group : CooperativeRebalancer :=
  cr_step (CLeave "c") (cr_step (CRebalance ["p0"; "p1"; "p2"; "p3"]%string)
    (cr_step (CJoin "a") (cr_step (CJoin "c") (cr_step (CJoin "b") NewCooperativeRebalancer)))).

Lemma rebalance_partitions_exactly_witness :
  (exists r, r ∈ (Rebalance ["p2"; "p1"]%string demo_group).1 /\ "p2"%string ∈ Partitions r) /\
  (Rebalance ["p2"; "p1"]%string demo_group).1 = [mkPA "a" ["p0"; "p2"; "p3"]; mkPA "b" ["p1"]]%string.
Proof.
  split; [|vm_compute; reflexivity].
  destruct (rebalance_partitions_exactly ["p2"; "p1"]%string demo_group "p2") as (_ & _ & r & Hr & Hp & _).
  - repeat constructor.
  - intros E. assert (H : elements (groupMembers demo_group) = []) by (rewrite E; apply elements_empty).
    vm_compute in H. discriminate H.
  - left.
  - by exists r.
Defined.
