(* ===== verification/WorkflowDag.v ===== *)
(** * Workflow definitions and their cycle check

    [flow/pkg/storage/store.go] (tasks, definitions) and [HasCycle] of
    [flow/pkg/engine/dag.go]: a depth-first search that colours the tasks it
    enters 1 and those it has left 2, proved to answer whether the graph of
    dependencies has a cycle. *)

From stdpp Require Import relations.
From S2P Require Import Prelude GoStrings.
Local Open Scope list_scope.

Record Task := mkTask {
  Name : string;
  DependsOn : list string;
  Action : string;
  CompensateAction : string;
  RetryCount : Z;
  TimeoutMs : Z }.

Record WorkflowDef := mkDef { ID : string; Tasks : list Task }.

(** [adj[dep] = append(adj[dep], task.Name)], over all tasks. *)
Definition add_edges (adj : gmap string (list string)) (task : Task) : gmap string (list string) :=
  foldl (fun adj dep => <[dep := default [] (adj !! dep) ++ [Name task]]> adj) adj (DependsOn task).

Definition adjacency (tasks : list Task) : gmap string (list string) := foldl add_edges ∅ tasks.

Abbreviation colouring := (gmap string nat).
Definition colour (v : colouring) (n : string) : nat := default 0 (v !! n).

Section Search.
Context (adj : gmap string (list string)).

Definition neighbours (n : string) : list string := default [] (adj !! n).

(** The loop over the neighbours, given the recursive call: [Some true] when
    a cycle was found; [None] when the search ran out of fuel. *)
Fixpoint visit_all (dfs : string -> colouring -> option (bool * colouring)) (ns : list string) (v : colouring) :
    option (bool * colouring) :=
  match ns with
  | [] => Some (false, v)
  | neighbor :: ns =>
      if bool_decide (colour v neighbor = 1) then Some (true, v)
      else if bool_decide (colour v neighbor = 0) then
        match dfs neighbor v with
        | Some (false, v) => visit_all dfs ns v
        | r => r
        end
      else visit_all dfs ns v
  end.

Fixpoint dfs (fuel : nat) (node : string) (v : colouring) : option (bool * colouring) :=
  match fuel with
  | O => None
  | S fuel =>
      match visit_all (dfs fuel) (neighbours node) (<[node := 1]> v) with
      | Some (false, v) => Some (false, <[node := 2]> v)
      | r => r
      end
  end.

(** The loop over the tasks of the definition. *)
Fixpoint search (fuel : nat) (names : list string) (v : colouring) : option (bool * colouring) :=
  match names with
  | [] => Some (false, v)
  | n :: names =>
      if bool_decide (colour v n = 0) then
        match dfs fuel n v with
        | Some (false, v) => search fuel names v
        | r => r
        end
      else search fuel names v
  end.
End Search.

(** Every call of [dfs] colours one more task, so the fuel is enough
    ([search_fuel]). *)
Definition HasCycle (def : WorkflowDef) : bool :=
  match search (adjacency (Tasks def)) (S (length (Tasks def))) (Name <$> Tasks def) ∅ with
  | Some (b, _) => b
  | None => true
  end.

(** ** The graph *)

(** An edge from a dependency to the task that has it. *)
Definition depends_edge (tasks : list Task) (dep name : string) : Prop :=
  exists t, t ∈ tasks /\ Name t = name /\ dep ∈ DependsOn t.

Lemma add_edges_spec adj t d n :
  n ∈ neighbours (add_edges adj t) d <-> n ∈ neighbours adj d \/ (Name t = n /\ d ∈ DependsOn t).
Proof.
  unfold add_edges. revert adj. induction (DependsOn t) as [|d' ds IH]; intros adj; cbn [foldl]; [set_solver|].
  rewrite IH. unfold neighbours. destruct (decide (d = d')) as [->|Hne].
  - rewrite lookup_insert_eq. cbn [default from_option]. set_solver.
  - rewrite lookup_insert_ne by done. set_solver.
Qed.

Lemma adjacency_spec tasks d n : n ∈ neighbours (adjacency tasks) d <-> depends_edge tasks d n.
Proof.
  unfold adjacency. assert (H : forall adj, n ∈ neighbours (foldl add_edges adj tasks) d <->
    n ∈ neighbours adj d \/ depends_edge tasks d n).
  { induction tasks as [|t tasks IH]; intros adj; cbn [foldl]; [unfold depends_edge; set_solver|].
    rewrite IH, add_edges_spec. unfold depends_edge. set_solver. }
  rewrite H. unfold neighbours. rewrite lookup_empty. set_solver.
Qed.

(** ** The search *)

Section Correct.
Context (adj : gmap string (list string)).
Local Abbreviation edge := (fun a b => b ∈ neighbours adj a).
Local Abbreviation path := (tc edge).

(** Tasks that were left reach only tasks that were left, and no cycle. *)
Record done_ok (v : colouring) : Prop := {
  done_range a : colour v a <= 2;
  done_acyclic a : colour v a = 2 -> ~ path a a;
  done_closed a b : colour v a = 2 -> edge a b -> colour v b = 2 }.

(** From [v] to [v'] tasks were only left. *)
Definition only_left (v v' : colouring) : Prop :=
  (forall a, colour v a = 2 -> colour v' a = 2) /\ (forall a, colour v' a = 1 <-> colour v a = 1).

Lemma colour_insert v n c a : colour (<[n := c]> v) a = if decide (a = n) then c else colour v a.
Proof.
  unfold colour. case_decide as E; [subst; by rewrite lookup_insert_eq|by rewrite lookup_insert_ne].
Qed.

Lemma done_path v a b : done_ok v -> colour v a = 2 -> path a b -> colour v b = 2.
Proof.
  intros Hv Ha Hp. induction Hp as [a b Hab|a b c Hab _ IH]; [by eapply done_closed|]. by apply IH, (done_closed v Hv a).
Qed.

(** What a call from [node] guarantees when it returns. *)
Definition dfs_post (node : string) (v : colouring) (r : bool * colouring) : Prop :=
  if r.1 then exists a, path a a
  else only_left v r.2 /\ colour r.2 node = 2 /\ done_ok r.2.

Definition dfs_pre (node : string) (v : colouring) : Prop :=
  colour v node = 0 /\ done_ok v /\ forall a, colour v a = 1 -> path a node.

Lemma visit_all_spec rec node v ns r :
  (forall n v r, dfs_pre n v -> rec n v = Some r -> dfs_post n v r) ->
  colour v node = 1 -> done_ok v -> (forall a, colour v a = 1 -> a = node \/ path a node) ->
  Forall (edge node) ns -> visit_all rec ns v = Some r ->
  if r.1 then exists a, path a a
  else only_left v r.2 /\ Forall (fun n => colour r.2 n = 2) ns /\ done_ok r.2.
Proof.
  intros Hrec. revert v. induction ns as [|n ns IH]; intros v Hnode Hdone Hgrey Hns H; cbn [visit_all] in H.
  { injection H as <-. cbn. split; [by split|]. by split. }
  apply Forall_cons in Hns as [Hn Hns].
  case_bool_decide as H1.
  { injection H as <-. cbn. exists n. destruct (Hgrey n H1) as [->|Hp]; [by apply tc_once|].
    by eapply tc_r. }
  case_bool_decide as H0.
  - destruct (rec n v) as [[[] v']|] eqn:E; [injection H as <-| |done].
    + assert (Hpost : dfs_post n v (true, v')); [|exact Hpost]. apply Hrec; [|done].
      split; [done|]. split; [done|]. intros a Ha. destruct (Hgrey a Ha) as [->|Hp]; [by apply tc_once|by eapply tc_r].
    + assert (Hpost : dfs_post n v (false, v')).
      { apply Hrec; [|done]. split; [done|]. split; [done|].
        intros a Ha. destruct (Hgrey a Ha) as [->|Hp]; [by apply tc_once|by eapply tc_r]. }
      destruct Hpost as ([Hl2 Hl1] & Hc & Hd). cbn [snd] in *.
      specialize (IH v' ltac:(by apply Hl1) Hd ltac:(intros a Ha; by apply Hgrey, Hl1) Hns H).
      destruct r as [[] v'']; cbn [fst snd] in *; [exact IH|]. destruct IH as ([Hm2 Hm1] & Hall & Hd').
      split; [split; [auto|intros a; by rewrite Hm1, Hl1]|]. split; [|done]. constructor; auto.
  - assert (H2 : colour v n = 2) by (pose proof (done_range v Hdone n); lia).
    specialize (IH v Hnode Hdone Hgrey Hns H). destruct r as [[] v'']; cbn [fst snd] in *; [exact IH|].
    destruct IH as ([Hm2 Hm1] & Hall & Hd'). split; [done|]. split; [|done]. constructor; auto.
Qed.

(** Leaving a task all of whose neighbours were left. *)
Lemma leave_ok node v : done_ok v -> colour v node = 1 ->
  Forall (fun n => colour v n = 2) (neighbours adj node) -> done_ok (<[node := 2]> v).
Proof.
  intros Hv H1 Hall. rewrite Forall_forall in Hall.
  assert (Hpath : forall b, path node b -> colour v b = 2).
  { intros b Hp. inversion Hp as [x y Hxy|x y z Hxy Hyz]; subst; [by apply Hall|].
    eapply done_path; [done| |exact Hyz]. by apply Hall. }
  split.
  - intros a. rewrite colour_insert. case_decide; [lia|]. by apply done_range.
  - intros a. rewrite colour_insert. case_decide as E; [|by apply done_acyclic].
    intros _ Hp. subst a. specialize (Hpath _ Hp). lia.
  - intros a b. rewrite !colour_insert. case_decide as E; [subst a|]; intros Ha Hab.
    + case_decide; [done|]. by apply Hall.
    + case_decide; [done|]. by eapply done_closed.
Qed.

Lemma dfs_spec fuel node v r : dfs_pre node v -> dfs adj fuel node v = Some r -> dfs_post node v r.
Proof.
  revert node v r. induction fuel as [|fuel IH]; intros node v r (H0 & Hdone & Hgrey) H; [done|].
  cbn [dfs] in H. destruct (visit_all _ _ _) as [r'|] eqn:E; [|done].
  apply (visit_all_spec (dfs adj fuel) node) in E; [|exact IH| | | |].
  - destruct r' as [[] v']; cbn [fst snd] in *; injection H as <-; [exact E|].
    destruct E as ([Hl2 Hl1] & Hall & Hd). cbn [dfs_post fst snd].
    assert (H1 : colour v' node = 1) by (apply Hl1; by rewrite colour_insert, decide_True).
    split; [|split; [by rewrite colour_insert, decide_True|by apply leave_ok]].
    split; intros a.
    + intros Ha. rewrite colour_insert. case_decide; [done|]. apply Hl2. rewrite colour_insert. by rewrite decide_False.
    + rewrite colour_insert. specialize (Hl1 a). rewrite colour_insert in Hl1. case_decide; [subst; lia|exact Hl1].
  - by rewrite colour_insert, decide_True.
  - split.
    + intros a. rewrite colour_insert. case_decide; [lia|]. by apply done_range.
    + intros a. rewrite colour_insert. case_decide; [done|]. by apply done_acyclic.
    + intros a b. rewrite !colour_insert. case_decide; [done|]. intros Ha Hab.
      assert (colour v b = 2) by (by eapply done_closed). case_decide; [subst; lia|done].
  - intros a. rewrite colour_insert. case_decide; [by left|]. right. by apply Hgrey.
  - by apply Forall_forall.
Qed.

(** ** The fuel *)

(** Tasks not entered yet. *)
Definition white (l : list string) (v : colouring) : nat :=
  length (List.filter (fun n => bool_decide (colour v n = 0)) l).

Definition darker (v v' : colouring) : Prop := forall a, colour v' a = 0 -> colour v a = 0.

Lemma darker_refl v : darker v v.
Proof. by intros a. Qed.

Lemma white_le l v v' : darker v v' -> white l v' <= white l v.
Proof.
  intros H. unfold white. induction l as [|n l IH]; cbn; [done|].
  case_bool_decide as E'; case_bool_decide as E; cbn; try lia. by apply H in E'.
Qed.

Lemma white_lt l v v' n : darker v v' -> n ∈ l -> colour v n = 0 -> colour v' n <> 0 -> white l v' < white l v.
Proof.
  intros H Hn H0 H1. induction l as [|m l IH]; [by apply not_elem_of_nil in Hn|].
  pose proof (white_le l v v' H) as Hle. unfold white in *. cbn.
  apply elem_of_cons in Hn as [<-|Hn].
  - rewrite bool_decide_false by done. rewrite bool_decide_true by done. cbn. lia.
  - specialize (IH Hn). case_bool_decide as E'; case_bool_decide as E; cbn; try lia. by apply H in E'.
Qed.

Context (names : list string).
Hypothesis edge_names : forall a b, edge a b -> b ∈ names.

Lemma visit_all_fuel rec ns v :
  (forall n v', n ∈ names -> colour v' n = 0 -> darker v v' -> exists b v'', rec n v' = Some (b, v'') /\ darker v' v'') ->
  Forall (fun n => n ∈ names) ns -> exists b v', visit_all rec ns v = Some (b, v') /\ darker v v'.
Proof.
  intros Hrec Hns.
  assert (H : forall v', darker v v' -> exists b v'', visit_all rec ns v' = Some (b, v'') /\ darker v' v'').
  { induction Hns as [|n ns Hn Hns IH]; intros v' Hv'; cbn [visit_all]; [eauto using darker_refl|].
    case_bool_decide; [eauto using darker_refl|]. case_bool_decide as H0; [|by apply IH].
    destruct (Hrec n v' Hn H0 Hv') as (b & v'' & -> & Hd). destruct b; [eauto|].
    destruct (IH v'') as (b & v3 & -> & Hd'); [by intros a Ha; apply Hv', Hd|].
    eexists _, _. split; [done|]. intros a Ha. by apply Hd, Hd'. }
  apply H, darker_refl.
Qed.

Lemma dfs_fuel fuel node v :
  node ∈ names -> colour v node = 0 -> white names v <= fuel -> exists b v', dfs adj fuel node v = Some (b, v') /\ darker v v'.
Proof using edge_names.
  revert node v. induction fuel as [|fuel IH]; intros node v Hn H0 Hf.
  { exfalso. assert (white names (<[node := 1]> v) < white names v); [|lia]. apply (white_lt names _ _ node); [|done|done|].
    - intros a. rewrite colour_insert. by case_decide.
    - by rewrite colour_insert, decide_True. }
  cbn [dfs]. assert (Hd : darker v (<[node := 1]> v)) by (intros a; rewrite colour_insert; by case_decide).
  assert (white names (<[node := 1]> v) < white names v).
  { apply (white_lt names _ _ node); [done..|]. by rewrite colour_insert, decide_True. }
  destruct (visit_all_fuel (dfs adj fuel) (neighbours adj node) (<[node := 1]> v)) as (b & v' & -> & Hd').
  - intros n v' Hin Hc Hdk. apply IH; [done..|]. pose proof (white_le names _ _ Hdk). lia.
  - apply Forall_forall. intros b Hb. by eapply edge_names.
  - destruct b; eexists _, _; (split; [done|]).
    + intros a Ha. by apply Hd, Hd'.
    + intros a. rewrite colour_insert. case_decide; [done|]. intros Ha. by apply Hd, Hd'.
Qed.

(** The search over the tasks: it ends, and it finds a cycle if there is one. *)
Lemma search_spec fuel ns v :
  length names < fuel -> Forall (fun n => n ∈ names) ns ->
  done_ok v -> (forall a, colour v a <> 1) ->
  exists b v', search adj fuel ns v = Some (b, v') /\
    if b then exists a, path a a
    else done_ok v' /\ (forall a, colour v a = 2 -> colour v' a = 2) /\ Forall (fun n => colour v' n = 2) ns.
Proof using edge_names.
  intros Hf. revert v. induction ns as [|n ns IH]; intros v Hns Hdone Hno; cbn [search]; [by eexists _, _|].
  apply Forall_cons in Hns as [Hn Hns]. case_bool_decide as H0.
  - destruct (dfs_fuel fuel n v) as (b & v' & E & _); [done..| |].
    { unfold white. pose proof (List.filter_length_le (fun n => bool_decide (colour v n = 0)) names). lia. }
    rewrite E. apply dfs_spec in E; [|split; [done|split; [done|]]; by intros a ?%Hno]. destruct b; [by eexists _, _|].
    destruct E as ([Hl2 Hl1] & Hc & Hd). cbn [snd] in *.
    destruct (IH v') as (b & v'' & -> & Hb); [done|done|by intros a ?%Hl1%Hno|].
    eexists _, _. split; [done|]. destruct b; [done|]. destruct Hb as (Hd' & Hk & Hall).
    split; [done|]. split; [auto|]. constructor; auto.
  - assert (H2 : colour v n = 2) by (pose proof (done_range v Hdone n); specialize (Hno n); lia).
    destruct (IH v) as (b & v'' & -> & Hb); [done..|].
    eexists _, _. split; [done|]. destruct b; [done|]. destruct Hb as (Hd' & Hk & Hall). split; [done|]. split; [done|].
    constructor; auto.
Qed.
End Correct.

Lemma HasCycle_spec def :
  HasCycle def = true <-> exists n, tc (depends_edge (Tasks def)) n n.
Proof.
  unfold HasCycle. set (adj := adjacency (Tasks def)).
  assert (Hedge : forall a b, b ∈ neighbours adj a <-> depends_edge (Tasks def) a b) by (intros; apply adjacency_spec).
  assert (Hname : forall a b, depends_edge (Tasks def) a b -> b ∈ Name <$> Tasks def).
  { intros a b (t & Ht & <- & _). apply list_elem_of_fmap. eauto. }
  assert (Htc : forall a b, tc (fun a b => b ∈ neighbours adj a) a b <-> tc (depends_edge (Tasks def)) a b).
  { intros a b. split; (induction 1; [apply tc_once; by apply Hedge|eapply tc_l; [by apply Hedge|done]]). }
  destruct (search_spec adj (Name <$> Tasks def) (fun a b H => Hname a b (proj1 (Hedge a b) H))
              (S (length (Tasks def))) (Name <$> Tasks def) ∅) as (b & v & -> & H).
  - rewrite length_fmap. lia.
  - by apply Forall_forall.
  - split; unfold colour; intros a; rewrite lookup_empty; cbn; [lia|done|done].
  - intros a. unfold colour. by rewrite lookup_empty.
  - destruct b; [split; [|done]; intros _; destruct H as [a Ha]; exists a; by apply Htc|].
    split; [done|]. intros [n Hn]. exfalso. destruct H as (Hd & _ & Hall).
    apply (done_acyclic _ _ Hd n); [|by apply Htc]. rewrite Forall_forall in Hall. apply Hall.
    assert (exists a, depends_edge (Tasks def) a n) as [a Ha]; [|by eapply Hname].
    clear -Hn. induction Hn; eauto.
Qed.

(** C34: [HasCycle] answers true exactly when some name depends on itself
    through one or more dependencies. *)
Theorem HasCycle_exact def :
  HasCycle def = true <-> exists n, tc (depends_edge (Tasks def)) n n.
Proof. apply HasCycle_spec. Qed.

(** ** The visual workflow designer ([flow/pkg/engine/designer.go]) *)

(** Canvases of nodes and edges, their export to workflow definitions and the
    import of definitions.  Labels and coordinates, which the export does not
    read, are left out of the nodes. *)

Module Designer.

Local Open Scope string_scope.
Local Open Scope list_scope.

(** A value of the node's configuration. *)
Inductive config_value := CString (s : string) | COther.

Record DesignerNode := mkNode { node_ID : string; Type_ : string; Config : gmap string config_value }.

Record DesignerEdge := mkEdge { edge_ID : string; Source : string; Target : string; Condition : string }.

Record DesignerWorkflowCanvas := mkCanvas {
  canvas_ID : string; canvas_Name : string; Nodes : list DesignerNode; Edges : list DesignerEdge }.

(** [s, _ := v.(string)] on an entry of the configuration. *)
Definition config_string (node : DesignerNode) (key : string) : string :=
  match Config node !! key with Some (CString s) => s | _ => "" end.

(** [dependsOnMap[edge.Target] = append(...)] over the edges. *)
Definition dependsOnMap (edges : list DesignerEdge) : gmap string (list string) :=
  foldl (fun m e => <[Target e := default [] (m !! Target e) ++ [Source e]]> m) ∅ edges.

Definition node_action (node : DesignerNode) : string :=
  let a0 := config_string node "target_url" in
  let a1 := if bool_decide (a0 = "") then config_string node "action" else a0 in
  if bool_decide (a1 = "") && bool_decide (Type_ node = "http_task") then "http://localhost:8080/tasks/" +:+ node_ID node else a1.

(** The loop over the nodes; nodes without an ID are passed over. *)
Definition node_task (deps : gmap string (list string)) (node : DesignerNode) : option Task :=
  if bool_decide (node_ID node = "") then None
  else Some (mkTask (node_ID node) (default [] (deps !! node_ID node)) (node_action node) "" 0 0).

(** [inl]: the error. *)
Definition ExportToWorkflowDef (dwc : DesignerWorkflowCanvas) : string + WorkflowDef :=
  if bool_decide (canvas_ID dwc = "") then inl "workflow_id cannot be empty" else
  let def := mkDef (canvas_ID dwc) (omap (node_task (dependsOnMap (Edges dwc))) (Nodes dwc)) in
  if HasCycle def then inl "exported workflow definition contains a dependency cycle" else inr def.

Definition task_node (t : Task) : DesignerNode := mkNode (Name t) "http_task" {["action" := CString (Action t)]}.

Definition task_edges (t : Task) : list DesignerEdge :=
  imap (fun j dep => mkEdge ("edge-" +:+ dep +:+ "-" +:+ Name t +:+ "-" +:+ pretty j) dep (Name t) "success") (DependsOn t).

Definition ImportFromWorkflowDef (def : WorkflowDef) : DesignerWorkflowCanvas :=
  mkCanvas (ID def) (ID def) (task_node <$> Tasks def) (Tasks def ≫= task_edges).

(** ** Round trip *)

(** What a canvas keeps of a task: the default action where it has none, and
    no compensation, retries or timeout. *)
Definition drawn (t : Task) : Task :=
  mkTask (Name t) (DependsOn t)
    (if bool_decide (Action t = "") then "http://localhost:8080/tasks/" +:+ Name t else Action t) "" 0 0.

Lemma dependsOnMap_app es (m : gmap string (list string)) k :
  default [] (foldl (fun m e => <[Target e := default [] (m !! Target e) ++ [Source e]]> m) m es !! k) =
  default [] (m !! k) ++ (Source <$> List.filter (fun e => bool_decide (Target e = k)) es).
Proof.
  revert m. induction es as [|e es IH]; intros m; cbn [foldl List.filter]; [by rewrite app_nil_r|].
  rewrite IH. case_bool_decide as E.
  - subst k. rewrite lookup_insert_eq. cbn. by rewrite <- app_assoc.
  - by rewrite lookup_insert_ne.
Qed.

Lemma edges_of_task t k :
  Source <$> List.filter (fun e => bool_decide (Target e = k)) (task_edges t) = if bool_decide (Name t = k) then DependsOn t else [].
Proof.
  assert (H : forall ds (g : nat -> string -> string),
    Source <$> List.filter (fun e => bool_decide (Target e = k)) (imap (fun j dep => mkEdge (g j dep) dep (Name t) "success") ds) =
    if bool_decide (Name t = k) then ds else []).
  { destruct (bool_decide (Name t = k)) eqn:E; (induction ds as [|d ds IH]; intros g; cbn; [done|]); rewrite E; cbn.
    - f_equal. apply (IH (fun j => g (S j))).
    - apply (IH (fun j => g (S j))). }
  apply H.
Qed.

Lemma edges_of tasks k :
  NoDup (Name <$> tasks) -> forall t, t ∈ tasks -> Name t = k ->
  Source <$> List.filter (fun e => bool_decide (Target e = k)) (tasks ≫= task_edges) = DependsOn t.
Proof.
  induction tasks as [|u tasks IH]; intros Hnd t Ht Hk; [by apply not_elem_of_nil in Ht|].
  cbn in Hnd. apply NoDup_cons in Hnd as [Hn Hnd]. rewrite bind_cons, List.filter_app, fmap_app, edges_of_task.
  apply elem_of_cons in Ht as [->|Ht].
  - rewrite bool_decide_true by done. rewrite <- (app_nil_r (DependsOn u)) at 2. f_equal.
    assert (Hno : forall u', u' ∈ tasks -> Name u' <> k).
    { intros u' Hu' E. apply Hn. apply list_elem_of_fmap. exists u'. by rewrite E. }
    clear -Hno. induction tasks as [|v tasks IH]; [done|]. rewrite bind_cons, List.filter_app, fmap_app, edges_of_task.
    rewrite bool_decide_false by (apply Hno; left). apply IH. intros u' Hu'. apply Hno. by right.
  - rewrite bool_decide_false; [by apply IH|]. intros E. apply Hn. apply list_elem_of_fmap. exists t. by rewrite E.
Qed.

Lemma drawn_edges tasks a b : depends_edge (drawn <$> tasks) a b <-> depends_edge tasks a b.
Proof.
  unfold depends_edge. split.
  - intros (t & Ht & Hn & Hd). apply list_elem_of_fmap in Ht as (u & -> & Hu). by exists u.
  - intros (t & Ht & Hn & Hd). exists (drawn t). split; [by apply list_elem_of_fmap; exists t|done].
Qed.

Lemma node_task_drawn deps t :
  Name t <> "" -> default [] (deps !! Name t) = DependsOn t -> node_task deps (task_node t) = Some (drawn t).
Proof.
  intros Hn Hd. unfold node_task, task_node, drawn. cbn. rewrite bool_decide_false by done. rewrite Hd. do 2 f_equal.
  unfold node_action, config_string. cbn [Config node_ID Type_]. rewrite lookup_singleton_ne by done.
  rewrite (bool_decide_true ("" = "")) by done. rewrite lookup_singleton_eq. rewrite (bool_decide_true ("http_task" = "http_task")) by done.
  rewrite andb_true_r. done.
Qed.

(** A workflow with an ID, with distinct task names and without a cycle
    survives the designer: exporting its import gives the same tasks in the
    same order, with the same dependencies and actions (the default URL where
    there was none); compensations, retries and timeouts are dropped. *)
Theorem import_export def :
  ID def <> "" -> NoDup (Name <$> Tasks def) -> "" ∉ Name <$> Tasks def -> HasCycle def = false ->
  ExportToWorkflowDef (ImportFromWorkflowDef def) = inr (mkDef (ID def) (drawn <$> Tasks def)).
Proof.
  intros Hid Hnd Hne Hc. unfold ExportToWorkflowDef, ImportFromWorkflowDef. cbn [canvas_ID Nodes Edges].
  rewrite bool_decide_false by done.
  assert (Ht : omap (node_task (dependsOnMap (Tasks def ≫= task_edges))) (task_node <$> Tasks def) = drawn <$> Tasks def).
  { assert (Hall : forall t, t ∈ Tasks def ->
      node_task (dependsOnMap (Tasks def ≫= task_edges)) (task_node t) = Some (drawn t)).
    { intros t Ht. apply node_task_drawn; [intros E; apply Hne; apply list_elem_of_fmap; by exists t|].
      unfold dependsOnMap. rewrite dependsOnMap_app, lookup_empty. cbn. by apply edges_of. }
    revert Hall. generalize (dependsOnMap (Tasks def ≫= task_edges)) as m. intros m Hall. induction (Tasks def) as [|t ts IH]; [done|].
    cbn. cbn in Hne, Hnd. rewrite (Hall t) by left. f_equal. apply IH; [by apply NoDup_cons in Hnd as [_ Hnd]|set_solver|].
    intros t' Ht'. apply Hall. by right. }
  rewrite Ht. replace (HasCycle _) with false; [done|]. symmetry. apply not_true_iff_false. intros H.
  apply not_true_iff_false in Hc. apply Hc. apply HasCycle_spec. apply HasCycle_spec in H as (n & Hn). exists n. cbn [Tasks] in Hn.
  assert (Htc : forall a b, tc (depends_edge (drawn <$> Tasks def)) a b -> tc (depends_edge (Tasks def)) a b); [|by apply Htc].
  clear. induction 1 as [a b H|a b c H _ IH]; [apply tc_once; by apply drawn_edges|].
  eapply tc_l; [|exact IH]. by apply drawn_edges.
Qed.

Definition drawn_def : WorkflowDef := mkDef "d"
  [mkTask "a" [] "http://a" "undo" 3 0; mkTask "b" ["a"] "" "" 0 500].

Lemma import_export_witness :
  ExportToWorkflowDef (ImportFromWorkflowDef drawn_def) =
    inr (mkDef "d" [mkTask "a" [] "http://a" "" 0 0; mkTask "b" ["a"] "http://localhost:8080/tasks/b" "" 0 0]).
Proof.
  rewrite import_export; [vm_compute; reflexivity|..].
  - done.
  - apply (bool_decide_unpack _). vm_compute. exact I.
  - apply (bool_decide_unpack _). vm_compute. exact I.
  - vm_compute. reflexivity.
Defined.

End Designer.
