(* ===== verification/Workflow.v ===== *)
(** * The workflow engine ([flow/pkg/engine/dag.go])

    Running an instance of a workflow: tasks whose dependencies are completed
    are run in the order of the definition, again and again until all are done;
    a failure starts the compensation of the completed tasks.

    The instance, the table of instances and the outside world are threaded
    through a state monad; [None] is a run-time panic.  A run has the instance
    to itself: what other goroutines do to it happens before or after.
    Tracing spans are left out: they do not touch the instance. *)

From S2P Require Import Prelude GoStrings Migration WorkflowDag.
Local Open Scope string_scope.
Local Open Scope list_scope.
Local Open Scope Z_scope.

Record TaskStatus := mkTS {
  ts_Name : string;
  Status : string;
  ts_StartedAt : Z;
  ts_FinishedAt : Z;
  Error : string;
  Result : string }.

Record ReplaySnapshot := mkSnap {
  StepIndex : nat;
  TaskName : string;
  snap_Status : string;
  Timestamp : Z;
  snap_TaskStates : gmap string TaskStatus;
  Message : string }.

Record WorkflowInstance := mkInst {
  inst_ID : string;
  WorkflowID : string;
  inst_Status : string;
  TaskStates : gmap string TaskStatus;
  StartedAt : Z;
  FinishedAt : Z;
  Logs : list string;
  ReplayLog : list ReplaySnapshot;
  Traceparent : string }.

(** ** Field updates *)

Definition ts_set_status (s : string) (ts : TaskStatus) : TaskStatus :=
  mkTS (ts_Name ts) s (ts_StartedAt ts) (ts_FinishedAt ts) (Error ts) (Result ts).
Definition ts_set_error (e : string) (ts : TaskStatus) : TaskStatus :=
  mkTS (ts_Name ts) (Status ts) (ts_StartedAt ts) (ts_FinishedAt ts) e (Result ts).
Definition ts_set_result (r : string) (ts : TaskStatus) : TaskStatus :=
  mkTS (ts_Name ts) (Status ts) (ts_StartedAt ts) (ts_FinishedAt ts) (Error ts) r.
Definition ts_set_started (t : Z) (ts : TaskStatus) : TaskStatus :=
  mkTS (ts_Name ts) (Status ts) t (ts_FinishedAt ts) (Error ts) (Result ts).
Definition ts_set_finished (t : Z) (ts : TaskStatus) : TaskStatus :=
  mkTS (ts_Name ts) (Status ts) (ts_StartedAt ts) t (Error ts) (Result ts).

Definition set_inst_status (s : string) (i : WorkflowInstance) : WorkflowInstance :=
  mkInst (inst_ID i) (WorkflowID i) s (TaskStates i) (StartedAt i) (FinishedAt i) (Logs i) (ReplayLog i) (Traceparent i).
Definition set_states (m : gmap string TaskStatus) (i : WorkflowInstance) : WorkflowInstance :=
  mkInst (inst_ID i) (WorkflowID i) (inst_Status i) m (StartedAt i) (FinishedAt i) (Logs i) (ReplayLog i) (Traceparent i).
Definition set_finished (t : Z) (i : WorkflowInstance) : WorkflowInstance :=
  mkInst (inst_ID i) (WorkflowID i) (inst_Status i) (TaskStates i) (StartedAt i) t (Logs i) (ReplayLog i) (Traceparent i).
Definition add_log (l : string) (i : WorkflowInstance) : WorkflowInstance :=
  mkInst (inst_ID i) (WorkflowID i) (inst_Status i) (TaskStates i) (StartedAt i) (FinishedAt i) (Logs i ++ [l]) (ReplayLog i) (Traceparent i).
Definition add_snapshot (s : ReplaySnapshot) (i : WorkflowInstance) : WorkflowInstance :=
  mkInst (inst_ID i) (WorkflowID i) (inst_Status i) (TaskStates i) (StartedAt i) (FinishedAt i) (Logs i) (ReplayLog i ++ [s]) (Traceparent i).

(** Writing through [state := inst.TaskStates[name]]. *)
Definition on_state (name : string) (f : TaskStatus -> TaskStatus) (i : WorkflowInstance) : WorkflowInstance :=
  set_states (alter f name (TaskStates i)) i.

(** ** The world *)

(** What the engine sends to other services. *)
Inductive request :=
  | PostAction (url : string)
  | AcquireLock (url key owner : string)
  | ReleaseLock (url key owner : string).

Inductive reply := RError (msg : string) | RStatus (code : Z).

Class World (W : Type) := {
  time_Now : W -> Z * W;
  http_Do : request -> W -> reply * W;
  (** Does [time.After(d)] fire before the action is done? *)
  timer_first : Z -> W -> bool * W;
  (** [PublishStompMessage]: the error, if any. *)
  PublishStompMessage : string -> string -> string -> W -> option string * W;
  Getenv : string -> string;
  (** [Hostname] and [Getpid]. *)
  node_owner : string;
  Marshal : WorkflowInstance -> option string;
  EnterpriseSaveCheckpoint : WorkflowInstance -> string -> W -> bool * W;
  has_store : bool;
  has_client : bool;
  client_Put : string -> string -> string -> W -> W;
  WriteFile : string -> string -> W -> W;
  SaveInstances : gmap string WorkflowInstance -> W -> W }.

Record rstate (W : Type) := mkR {
  inst : WorkflowInstance;
  instances : gmap string WorkflowInstance;
  world : W }.
Arguments mkR {W} inst instances world.
Arguments inst {W} r.
Arguments instances {W} r.
Arguments world {W} r.

Definition EM (W A : Type) : Type := rstate W -> option (A * rstate W).
#[global] Instance em_ret W : MRet (EM W) := fun A a s => Some (a, s).
#[global] Instance em_bind W : MBind (EM W) := fun A B k m s =>
  match m s with Some (a, s) => k a s | None => None end.

Section Engine.
Context {W : Type} `{!World W}.
Local Abbreviation M := (EM W).

Definition panic {A} : M A := fun _ => None.
Definition get : M WorkflowInstance := fun s => Some (inst s, s).
Definition modify (f : WorkflowInstance -> WorkflowInstance) : M unit :=
  fun s => Some (tt, mkR (f (inst s)) (instances s) (world s)).
Definition on_world {A} (f : W -> A * W) : M A :=
  fun s => let '(a, w) := f (world s) in Some (a, mkR (inst s) (instances s) w).
Definition now : M Z := on_world time_Now.

(** [instances[inst.ID] = inst], then [store.SaveInstances] on a copy. *)
Definition publish_instance (i : WorkflowInstance) : M unit :=
  fun s => Some (tt, mkR (inst s) (<[inst_ID i := i]> (instances s)) (world s)).
Definition save_instances : M unit :=
  fun s => Some (tt, mkR (inst s) (instances s) (SaveInstances (instances s) (world s))).

Definition recordReplaySnapshot (taskName status msg : string) : M unit :=
  t ← now;
  modify (fun i => add_snapshot (mkSnap (length (ReplayLog i)) taskName status t (TaskStates i) msg) i).

Definition SaveCheckpoint : M unit :=
  i ← get;
  match Marshal i with
  | None => mret tt
  | Some data =>
      handled ← on_world (EnterpriseSaveCheckpoint i data);
      (if (handled : bool) then mret tt
       else
         (if has_store && has_client
          then on_world (fun w => (tt, client_Put "pranor-flow-state" (inst_ID i +:+ ".state") data w))
          else mret tt);;
         on_world (fun w => (tt, WriteFile (inst_ID i +:+ ".state") data w)));;
      publish_instance i;;
      if has_store then save_instances else mret tt
  end.

Definition ExecuteTaskAction (t : Task) : M (option string) :=
  if HasPrefix (Action t) "http://" || HasPrefix (Action t) "https://" then
    r ← on_world (http_Do (PostAction (Action t)));
    mret match r with
         | RError e => Some e
         | RStatus code => if 400 <=? code then Some ("HTTP action failed with status " +:+ FormatInt code) else None
         end
  else mret (if bool_decide (Action t = "fail") then Some "simulated action failure" else None).

(** ** Classification *)

(** [strings.Trim(s, cutset)] on bytes of the cutset. *)
Definition trim_cutset (cut : bytes) (s : bytes) : bytes :=
  let p c := bool_decide (c ∈ cut) in
  rev (drop_while p (rev (drop_while p s))).

(** The options between the brackets; [None] when a bound of the slice
    [content[optionsStart+1:optionsEnd]] is out of order. *)
Definition classify_options (content : bytes) : option (option (list string)) :=
  match bytes_Cut content (byt "["), bytes_Cut content (byt "]") with
  | Some (b1, _), Some (b2, _) =>
      if (length b2 <? length b1 + 1)%nat then None
      else
        let body := drop (length b1 + 1) (take (length b2) content) in
        Some (Some (List.filter (fun o => negb (bool_decide (o = "")))
          ((fun o => str (trim_cutset (byt (str [quote] +:+ "'")) (byt (TrimSpace (str o))))) <$> bytes_Split "," body)))
  | _, _ => Some None
  end.

Definition first_of (wanted options : list string) : option string :=
  List.find (fun o => bool_decide (o ∈ wanted)) options.

(** [inl]: the error; [None]: a panic. *)
Definition RunAIClassify (action : string) : option (string + string) :=
  if negb (HasPrefix action "ai.classify(") then Some (inl "invalid AI action format") else
  let content := byt (TrimSuffix (TrimPrefix action "ai.classify(") ")") in
  match bytes_Cut content [quote] with
  | None => Some (inl "invalid AI action: missing input quote")
  | Some (_, rest) =>
      match bytes_Cut rest [quote] with
      | None => Some (inl "invalid AI action: mismatched input quote")
      | Some (inputText, _) =>
          match classify_options content with
          | None => None
          | Some None => Some (inl "invalid AI action: missing options array")
          | Some (Some []) => Some (inl "invalid AI action: no options provided")
          | Some (Some (o0 :: _ as options)) =>
              let lower := ToLower (str inputText) in
              let has w := Contains lower w in
              let bad := if has "scam" || has "suspicious" || has "fraud" then first_of ["reject"; "review"] options else None in
              match bad with
              | Some o => Some (inr o)
              | None =>
                  let good := if has "good" || has "vip" || has "valid" then first_of ["approve"] options else None in
                  Some (inr (default o0 good))
              end
          end
      end
  end.

Definition is_classify (t : Task) : bool := HasPrefix (Action t) "ai.classify(".

(** The action itself: the error and the classification. *)
Definition run_action (t : Task) : M (option string * string) :=
  if is_classify t then
    match RunAIClassify (Action t) with
    | None => panic
    | Some (inl e) => mret (Some e, "")
    | Some (inr r) => mret (None, r)
    end
  else e ← ExecuteTaskAction t; mret (e, "").

(** One attempt: with a timeout, the action runs in a goroutine and the timer
    may win. *)
Definition attempt (t : Task) : M (option string * string) :=
  if 0 <? TimeoutMs t then
    r ← run_action t;
    late ← on_world (timer_first (TimeoutMs t));
    mret (if (late : bool) then (Some ("task timed out after " +:+ FormatInt (TimeoutMs t) +:+ "ms"), "") else r)
  else run_action t.

Definition maxAttempts (t : Task) : Z := if 0 <? RetryCount t then wrap64 (RetryCount t + 1) else 1.

Fixpoint attempts_loop (fuel : nat) (attempts : Z) (t : Task) : M (option string * string) :=
  match fuel with
  | O => panic
  | S fuel =>
      r ← attempt t;
      match r.1 with
      | None => mret r
      | Some err =>
          if maxAttempts t <=? attempts then mret r
          else
            modify (add_log ("Task " +:+ Name t +:+ " failed attempt " +:+ FormatInt attempts +:+ ": " +:+ err +:+ ". Retrying..."));;
            attempts_loop fuel (wrap64 (attempts + 1)) t
      end
  end.

(** ** Locks *)

Definition lock_key (instanceID taskName : string) : string :=
  "Pranor Flow:instance:" +:+ instanceID +:+ ":task:" +:+ taskName.

Definition acquireTaskLock (instanceID taskName : string) : M bool :=
  let url := Getenv "PRANOR_LOCK_URL" in
  if bool_decide (url = "") then mret true else
  r ← on_world (http_Do (AcquireLock (url +:+ "/api/locks/acquire") (lock_key instanceID taskName) node_owner));
  mret match r with RError _ => false | RStatus code => code =? 200 end.

Definition releaseTaskLock (instanceID taskName : string) : M unit :=
  let url := Getenv "PRANOR_LOCK_URL" in
  if bool_decide (url = "") then mret tt else
  on_world (http_Do (ReleaseLock (url +:+ "/api/locks/release") (lock_key instanceID taskName) node_owner));;
  mret tt.

(** ** Dependencies *)

(** [dep[:idx]] and [dep[idx+1:]] at the first colon. *)
Definition split_dep (dep : string) : string * string :=
  match bytes_Cut (byt dep) (byt ":") with
  | Some (b, a) => (str b, str a)
  | None => (dep, "")
  end.

Inductive readiness := Ready | Wait | Skip.

Fixpoint check_deps (states : gmap string TaskStatus) (deps : list string) : readiness :=
  match deps with
  | [] => Ready
  | dep :: deps =>
      let '(depName, branchName) := split_dep dep in
      match states !! depName with
      | None => Wait
      | Some d =>
          if bool_decide (Status d = "skipped") then Skip
          else if negb (bool_decide (Status d = "completed")) then Wait
          else if negb (bool_decide (branchName = "")) && negb (bool_decide (Result d = branchName)) then Skip
          else check_deps states deps
      end
  end.

(** ** One task in a round *)

(** Goroutines a run leaves behind. *)
Inductive spawn := SpawnTimeout (taskName : string) (timeoutMs : Z) | SpawnRollback.

(** Go on with [completedCount] and [progressMade], or return. *)
Inductive control := Go (completedCount : Z) (progressMade : bool) | Return (sp : list spawn).

Definition skip_task (t : Task) : M unit :=
  modify (on_state (Name t) (ts_set_status "skipped"));;
  modify (add_log ("Task " +:+ Name t +:+ " skipped due to branch condition."));;
  recordReplaySnapshot (Name t) "skipped" ("Task " +:+ Name t +:+ " skipped due to branch condition");;
  SaveCheckpoint.

Definition pause_task (t : Task) : M control :=
  modify (on_state (Name t) (ts_set_status "pending_approval"));;
  modify (set_inst_status "paused");;
  modify (add_log ("Task " +:+ Name t +:+ " paused pending manual approval."));;
  SaveCheckpoint;;
  mret (Return (if 0 <? TimeoutMs t then [SpawnTimeout (Name t) (TimeoutMs t)] else [])).

Definition start_task (t : Task) : M unit :=
  modify (on_state (Name t) (ts_set_status "running"));;
  (t0 ← now; modify (on_state (Name t) (ts_set_started t0)));;
  modify (add_log ("Task " +:+ Name t +:+ " started."));;
  recordReplaySnapshot (Name t) "started" ("Task " +:+ Name t +:+ " started execution");;
  SaveCheckpoint.

Definition fail_task (t : Task) (err : string) : M control :=
  (t0 ← now; modify (on_state (Name t) (ts_set_finished t0)));;
  modify (on_state (Name t) (fun ts => ts_set_error err (ts_set_status "failed" ts)));;
  modify (set_inst_status "failed");;
  (t1 ← now; modify (set_finished t1));;
  modify (add_log ("Task " +:+ Name t +:+ " failed: " +:+ err +:+ ". Initiating Saga compensation..."));;
  recordReplaySnapshot (Name t) "failed" ("Task " +:+ Name t +:+ " failed: " +:+ err);;
  SaveCheckpoint;;
  i ← get;
  releaseTaskLock (inst_ID i) (Name t);;
  mret (Return [SpawnRollback]).

Definition complete_task (t : Task) (classifyResult : string) : M unit :=
  (t0 ← now; modify (on_state (Name t) (ts_set_finished t0)));;
  modify (on_state (Name t) (fun ts => ts_set_result classifyResult (ts_set_status "completed" ts)));;
  modify (add_log ("Task " +:+ Name t +:+ " completed."));;
  (if bool_decide (classifyResult = "") then mret tt
   else modify (add_log ("Task " +:+ Name t +:+ " AI classification result: " +:+ classifyResult)));;
  recordReplaySnapshot (Name t) "completed" ("Task " +:+ Name t +:+ " completed successfully");;
  i ← get;
  releaseTaskLock (inst_ID i) (Name t);;
  SaveCheckpoint.

Definition execute_task (t : Task) (completedCount : Z) (progressMade : bool) : M control :=
  start_task t;;
  i ← get;
  locked ← acquireTaskLock (inst_ID i) (Name t);
  if negb (locked : bool) then
    modify (add_log ("Task " +:+ Name t +:+ " is being executed by another cluster node. Gated duplicate run."));;
    mret (Go completedCount progressMade)
  else
    r ← attempts_loop (S (Z.to_nat (maxAttempts t))) 1 t;
    match r.1 with
    | Some err => fail_task t err
    | None => complete_task t r.2;; mret (Go (completedCount + 1) true)
    end.

Definition run_task (t : Task) (completedCount : Z) (progressMade : bool) : M control :=
  i ← get;
  match TaskStates i !! Name t with
  | None => panic
  | Some state =>
      if negb (bool_decide (Status state = "pending")) then mret (Go completedCount progressMade) else
      match check_deps (TaskStates i) (DependsOn t) with
      | Skip => skip_task t;; mret (Go (completedCount + 1) true)
      | Wait => mret (Go completedCount progressMade)
      | Ready =>
          if bool_decide (Action t = "approval") then pause_task t
          else execute_task t completedCount progressMade
      end
  end.

(** One round over the tasks of the definition. *)
Fixpoint run_round (tasks : list Task) (completedCount : Z) (progressMade : bool) : M control :=
  match tasks with
  | [] => mret (Go completedCount progressMade)
  | t :: tasks =>
      c ← run_task t completedCount progressMade;
      match c with
      | Return sp => mret (Return sp)
      | Go completedCount progressMade => run_round tasks completedCount progressMade
      end
  end.

Definition abort_cycle : M unit :=
  modify (set_inst_status "failed");;
  (t ← now; modify (set_finished t));;
  modify (add_log "Cycle detected in DAG definition. Workflow aborted.");;
  SaveCheckpoint.

Definition finish_workflow : M unit :=
  modify (set_inst_status "completed");;
  (t ← now; modify (set_finished t));;
  modify (add_log "Workflow completed successfully.");;
  SaveCheckpoint.

(** The outer loop.  Every round that does not return completes a task, so
    one round per task is enough ([rounds_enough]). *)
Fixpoint rounds (fuel : nat) (def : WorkflowDef) (completedCount : Z) : M (list spawn) :=
  match fuel with
  | O => panic
  | S fuel =>
      if completedCount <? Z.of_nat (length (Tasks def)) then
        i ← get;
        if bool_decide (inst_Status i = "failed") then mret []
        else
          c ← run_round (Tasks def) completedCount false;
          match c with
          | Return sp => mret sp
          | Go completedCount progressMade =>
              if negb progressMade && (completedCount <? Z.of_nat (length (Tasks def))) then abort_cycle;; mret []
              else rounds fuel def completedCount
          end
      else finish_workflow;; mret []
  end.

(** Tasks left running by an earlier run start over. *)
Definition reset_running (i : WorkflowInstance) : WorkflowInstance :=
  let n := size (filter (fun kv => Status kv.2 = "running") (TaskStates i)) in
  let i := set_states ((fun ts => if bool_decide (Status ts = "running") then ts_set_status "pending" ts else ts) <$> TaskStates i) i in
  Nat.iter n (add_log "Resetting running task to pending on startup/resume.") i.

Definition is_done (ts : TaskStatus) : bool := bool_decide (Status ts = "completed") || bool_decide (Status ts = "skipped").

Definition count_done (states : gmap string TaskStatus) : Z :=
  Z.of_nat (size (filter (fun kv => is_done kv.2 = true) states)).

Definition RunWorkflow (def : WorkflowDef) : M (list spawn) :=
  modify reset_running;;
  i ← get;
  rounds (S (length (Tasks def))) def (count_done (TaskStates i)).

(** ** Compensation *)

(** The tasks to compensate, with the time each finished. *)
Definition to_compensate (def : WorkflowDef) (i : WorkflowInstance) : list (Task * Z) :=
  omap (fun t => match TaskStates i !! Name t with
                 | Some ts => if bool_decide (Status ts = "completed") && negb (bool_decide (CompensateAction t = ""))
                              then Some (t, ts_FinishedAt ts) else None
                 | None => None
                 end) (Tasks def).

(** The inner loop of the exchange sort: the element at [i] against the rest. *)
Fixpoint exchange_pass (x : Task * Z) (rest : list (Task * Z)) : (Task * Z) * list (Task * Z) :=
  match rest with
  | [] => (x, [])
  | y :: rest =>
      if x.2 <? y.2 then let '(m, r) := exchange_pass y rest in (m, x :: r)
      else let '(m, r) := exchange_pass x rest in (m, y :: r)
  end.

Fixpoint exchange_sort (fuel : nat) (l : list (Task * Z)) : list (Task * Z) :=
  match fuel, l with
  | S fuel, x :: rest => let '(m, r) := exchange_pass x rest in m :: exchange_sort fuel r
  | _, _ => l
  end.

(** Compensating one task: whether the loop goes on. *)
Definition compensate (t : Task) : M bool :=
  i ← get;
  match TaskStates i !! Name t with
  | None => panic
  | Some ts =>
      if bool_decide (Status ts = "compensating") then mret false else
      modify (on_state (Name t) (ts_set_status "compensating"));;
      modify (add_log ("[SAGA] Executing compensation rollback for task " +:+ Name t +:+ ": " +:+ CompensateAction t));;
      SaveCheckpoint;;
      if HasPrefix (CompensateAction t) "event://" then
        let topic := "/topic/" +:+ TrimPrefix (CompensateAction t) "event://" in
        let addr := if bool_decide (Getenv "PRANOR_PULSE_ADDR" = "") then "localhost:8082" else Getenv "PRANOR_PULSE_ADDR" in
        let q := str [quote] in
        let payload := "{" +:+ q +:+ "instance_id" +:+ q +:+ ": " +:+ q +:+ inst_ID i +:+ q +:+ ", " +:+
                       q +:+ "task_name" +:+ q +:+ ": " +:+ q +:+ Name t +:+ q +:+ "}" in
        r ← on_world (PublishStompMessage addr topic payload);
        match r with
        | None => mret false
        | Some err =>
            modify (on_state (Name t) (fun ts => ts_set_error ("STOMP publish failed: " +:+ err) (ts_set_status "failed" ts)));;
            modify (add_log ("[SAGA] Compensation failed to publish for task " +:+ Name t +:+ ": " +:+ err));;
            SaveCheckpoint;;
            mret false
        end
      else
        r ← ExecuteTaskAction (mkTask (Name t) [] (CompensateAction t) "" 0 0);
        match r with
        | Some err =>
            modify (on_state (Name t) (fun ts => ts_set_error ("compensation failed: " +:+ err) (ts_set_status "failed" ts)));;
            modify (add_log ("[SAGA] Compensation failed for task " +:+ Name t +:+ ": " +:+ err))
        | None =>
            modify (on_state (Name t) (ts_set_status "compensated"));;
            modify (add_log ("[SAGA] Compensation succeeded for task " +:+ Name t))
        end;;
        SaveCheckpoint;;
        mret true
  end.

Fixpoint compensate_all (ts : list (Task * Z)) : M unit :=
  match ts with
  | [] => mret tt
  | (t, _) :: ts => go ← compensate t; if (go : bool) then compensate_all ts else mret tt
  end.

Definition RollbackSaga (def : WorkflowDef) : M unit :=
  i ← get;
  let completed := to_compensate def i in
  compensate_all (exchange_sort (length completed) completed).

(** The goroutine of an approval with a timeout, when its timer fires; it
    runs [TriggerRollbackSaga], here without another coordinator. *)
Definition approval_timeout (def : WorkflowDef) (tName : string) (timeoutMs : Z) : M unit :=
  i ← get;
  match TaskStates i !! tName with
  | None => panic
  | Some ts =>
      if bool_decide (Status ts = "pending_approval") && bool_decide (inst_Status i = "paused") then
        modify (on_state tName (fun ts =>
          ts_set_error ("approval timed out after " +:+ FormatInt timeoutMs +:+ "ms") (ts_set_status "failed" ts)));;
        modify (set_inst_status "failed");;
        (t ← now; modify (set_finished t));;
        modify (add_log ("Task " +:+ tName +:+ " approval timed out. Initiating Saga compensation..."));;
        SaveCheckpoint;;
        RollbackSaga def
      else mret tt
  end.
End Engine.
