(* ===== verification/WorkflowFacts.v ===== *)
(** * The workflow engine as a transition system

    A total-correctness logic for the engine's monad ([wp]: the computation
    returns, and the instance afterwards satisfies the postcondition, whatever
    the world does), and a summary of what handling one task can do to an
    instance ([task_effect]) with the proof that [run_task] does just that. *)

From S2P Require Import Prelude GoStrings Migration WorkflowDag Workflow.
Local Open Scope string_scope.
Local Open Scope list_scope.
Local Open Scope Z_scope.

Section Logic.
Context {W : Type} `{!World W}.
Local Abbreviation M := (EM W).

Definition wp {A} (m : M A) (i : WorkflowInstance) (Q : A -> WorkflowInstance -> Prop) : Prop :=
  forall im w, exists a s', m (mkR i im w) = Some (a, s') /\ Q a (inst s').

Lemma wp_ret {A} (a : A) i (Q : A -> WorkflowInstance -> Prop) : Q a i -> wp (mret a) i Q.
Proof. intros H im w. exists a, (mkR i im w). done. Qed.

Lemma wp_bind {A B} (m : M A) (k : A -> M B) i Q :
  wp m i (fun a i' => wp (k a) i' Q) -> wp (m ≫= k) i Q.
Proof.
  intros H im w. destruct (H im w) as (a & [i' im' w'] & Hm & Hk). destruct (Hk im' w') as (b & s'' & Hb & HQ).
  exists b, s''. split; [|done]. unfold mbind, em_bind. by rewrite Hm.
Qed.

Lemma wp_mono {A} (m : M A) i (P Q : A -> WorkflowInstance -> Prop) :
  wp m i P -> (forall a i', P a i' -> Q a i') -> wp m i Q.
Proof. intros H HPQ im w. destruct (H im w) as (a & s' & Hm & HP). eauto. Qed.

Lemma wp_get i (Q : WorkflowInstance -> WorkflowInstance -> Prop) : Q i i -> wp get i Q.
Proof. intros H im w. by exists i, (mkR i im w). Qed.

Lemma wp_modify f i (Q : unit -> WorkflowInstance -> Prop) : Q tt (f i) -> wp (modify f) i Q.
Proof. intros H im w. by exists tt, (mkR (f i) im w). Qed.

Lemma wp_on_world {A} (f : W -> A * W) i (Q : A -> WorkflowInstance -> Prop) :
  (forall w, Q (f w).1 i) -> wp (on_world f) i Q.
Proof.
  intros H im w. specialize (H w). unfold on_world. cbn. destruct (f w) as [a w']. by exists a, (mkR i im w').
Qed.

Lemma wp_now i (Q : Z -> WorkflowInstance -> Prop) : (forall t, Q t i) -> wp now i Q.
Proof. intros H. apply wp_on_world. intros w. apply H. Qed.

Lemma wp_SaveCheckpoint i (Q : unit -> WorkflowInstance -> Prop) : Q tt i -> wp SaveCheckpoint i Q.
Proof.
  intros H. unfold SaveCheckpoint. apply wp_bind, wp_get. destruct (Marshal i) as [data|]; [|by apply wp_ret].
  apply wp_bind, wp_on_world. intros w. apply wp_bind.
  assert (Hend : wp (publish_instance i;; (if has_store then save_instances else mret tt)) i Q).
  { intros im w'. unfold mbind, em_bind, publish_instance. cbn. destruct has_store; cbn; eexists _, _; by split. }
  destruct (EnterpriseSaveCheckpoint i data w).1; [by apply wp_ret|]. apply wp_bind.
  destruct (has_store && has_client); [apply wp_on_world; intros w'|apply wp_ret]; apply wp_on_world; intros w''; exact Hend.
Qed.

Lemma wp_snapshot i name st msg (Q : unit -> WorkflowInstance -> Prop) :
  (forall t, Q tt (add_snapshot (mkSnap (length (ReplayLog i)) name st t (TaskStates i) msg) i)) ->
  wp (recordReplaySnapshot name st msg) i Q.
Proof. intros H. apply wp_bind, wp_now. intros t. by apply wp_modify. Qed.

Lemma wp_release a b i (Q : unit -> WorkflowInstance -> Prop) : Q tt i -> wp (releaseTaskLock a b) i Q.
Proof.
  intros H. unfold releaseTaskLock. case_bool_decide; [by apply wp_ret|].
  apply wp_bind, wp_on_world. intros w. by apply wp_ret.
Qed.

Lemma wp_acquire a b i (Q : bool -> WorkflowInstance -> Prop) : (forall x, Q x i) -> wp (acquireTaskLock a b) i Q.
Proof.
  intros H. unfold acquireTaskLock. case_bool_decide; [by apply wp_ret|].
  apply wp_bind, wp_on_world. intros w. by apply wp_ret.
Qed.

(** A classification whose brackets are in order, or not a classification. *)
Definition action_ok (t : Task) : Prop := is_classify t = true -> RunAIClassify (Action t) <> None.

Lemma wp_ExecuteTaskAction t i (Q : option string -> WorkflowInstance -> Prop) :
  (forall e, Q e i) -> wp (ExecuteTaskAction t) i Q.
Proof.
  intros H. unfold ExecuteTaskAction. destruct (_ || _); [|by apply wp_ret].
  apply wp_bind, wp_on_world. intros w. by apply wp_ret.
Qed.

Lemma wp_attempt t i (Q : option string * string -> WorkflowInstance -> Prop) :
  action_ok t -> (forall r, Q r i) -> wp (attempt t) i Q.
Proof.
  intros Hok H.
  assert (Hrun : wp (run_action t) i (fun _ i' => i' = i)).
  { unfold run_action. destruct (is_classify t) eqn:E.
    - specialize (Hok E). destruct (RunAIClassify (Action t)) as [[]|]; [by apply wp_ret..|done].
    - apply wp_bind, wp_ExecuteTaskAction. intros e. by apply wp_ret. }
  unfold attempt. destruct (0 <? TimeoutMs t); [apply wp_bind|]; (eapply wp_mono; [exact Hrun|]); intros r i' ->; [|done].
  apply wp_bind, wp_on_world. intros w. apply wp_ret. by destruct (timer_first _ _).1.
Qed.

(** The parts of an instance the logs are not. *)
Definition same_but_logs (i i' : WorkflowInstance) : Prop :=
  inst_ID i' = inst_ID i /\ inst_Status i' = inst_Status i /\ TaskStates i' = TaskStates i /\ ReplayLog i' = ReplayLog i.

Lemma maxAttempts_range t : maxAttempts t < 2 ^ 63.
Proof.
  unfold maxAttempts. destruct (0 <? RetryCount t); [|lia].
  pose proof (wrap64_range (RetryCount t + 1)) as H. unfold in_int64, max_int64 in H. lia.
Qed.

(** The retry loop ends after at most [maxAttempts] attempts. *)
Lemma wp_attempts_loop fuel k t i :
  action_ok t -> 1 <= k -> (0 < fuel)%nat -> maxAttempts t < Z.of_nat fuel + k ->
  wp (attempts_loop fuel k t) i (fun _ i' => same_but_logs i i').
Proof.
  intros Hok. revert k i. induction fuel as [|fuel IH]; intros k i Hk H0 Hf; [lia|]. cbn [attempts_loop].
  apply wp_bind, wp_attempt; [done|]. intros [[err|] r]; cbn [fst]; [|by apply wp_ret].
  destruct (maxAttempts t <=? k) eqn:E; [by apply wp_ret|]. apply Z.leb_gt in E. pose proof (maxAttempts_range t).
  apply wp_bind, wp_modify. rewrite wrap64_id by (unfold in_int64, min_int64, max_int64; lia).
  eapply wp_mono; [apply IH; lia|]. intros a i' (H1 & H2 & H3 & H4). done.
Qed.

(** ** What handling a task does *)

(** Task [t], pending before, is in status [st] afterwards, the other tasks
    are as they were, and the snapshots [snaps] were taken. *)
Record moved (t : Task) (st : string) (snaps : list ReplaySnapshot) (i i' : WorkflowInstance) : Prop := {
  moved_pending : exists ts, TaskStates i !! Name t = Some ts /\ Status ts = "pending";
  moved_states : exists ts', Status ts' = st /\ TaskStates i' = <[Name t := ts']> (TaskStates i);
  moved_log : ReplayLog i' = ReplayLog i ++ snaps }.

(** A snapshot of the start of [t] in the state [i]. *)
Definition started_snap (t : Task) (i : WorkflowInstance) (s : ReplaySnapshot) : Prop :=
  TaskName s = Name t /\ snap_Status s = "started" /\
  exists r, Status r = "running" /\ snap_TaskStates s = <[Name t := r]> (TaskStates i).

Inductive task_effect (t : Task) (n : Z) (p : bool) (i : WorkflowInstance) : control -> WorkflowInstance -> Prop :=
  | TE_stay ts :
      TaskStates i !! Name t = Some ts -> Status ts <> "pending" \/ check_deps (TaskStates i) (DependsOn t) = Wait ->
      task_effect t n p i (Go n p) i
  | TE_skip s i' :
      check_deps (TaskStates i) (DependsOn t) = Skip -> snap_Status s = "skipped" -> inst_Status i' = inst_Status i ->
      moved t "skipped" [s] i i' -> task_effect t n p i (Go (n + 1) true) i'
  | TE_pause sp i' :
      check_deps (TaskStates i) (DependsOn t) = Ready -> Action t = "approval" -> inst_Status i' = "paused" ->
      moved t "pending_approval" [] i i' -> task_effect t n p i (Return sp) i'
  | TE_gated s i' :
      check_deps (TaskStates i) (DependsOn t) = Ready -> started_snap t i s -> inst_Status i' = inst_Status i ->
      moved t "running" [s] i i' -> task_effect t n p i (Go n p) i'
  | TE_fail s s' i' :
      check_deps (TaskStates i) (DependsOn t) = Ready -> started_snap t i s -> snap_Status s' = "failed" ->
      inst_Status i' = "failed" -> moved t "failed" [s; s'] i i' -> task_effect t n p i (Return [SpawnRollback]) i'
  | TE_complete s s' i' :
      check_deps (TaskStates i) (DependsOn t) = Ready -> Action t <> "approval" -> started_snap t i s ->
      snap_Status s' = "completed" -> inst_Status i' = inst_Status i ->
      moved t "completed" [s; s'] i i' -> task_effect t n p i (Go (n + 1) true) i'.

Lemma alter_pending f (states : gmap string TaskStatus) name ts :
  states !! name = Some ts -> alter f name states = <[name := f ts]> states.
Proof.
  intros H. apply map_eq. intros k. destruct (decide (k = name)) as [->|Hne].
  - rewrite lookup_alter_eq, H, lookup_insert_eq. done.
  - by rewrite lookup_alter_ne, lookup_insert_ne.
Qed.

Lemma alter_insert f (states : gmap string TaskStatus) name ts :
  alter f name (<[name := ts]> states) = <[name := f ts]> states.
Proof.
  rewrite (alter_pending f _ _ ts) by apply lookup_insert_eq. apply insert_insert_eq.
Qed.

(** Starting a task. *)
Lemma wp_start_task t i ts (Q : unit -> WorkflowInstance -> Prop) :
  TaskStates i !! Name t = Some ts ->
  (forall i' s r, Status r = "running" -> TaskStates i' = <[Name t := r]> (TaskStates i) ->
     ReplayLog i' = ReplayLog i ++ [s] -> started_snap t i s -> inst_Status i' = inst_Status i -> Q tt i') ->
  wp (start_task t) i Q.
Proof.
  intros Hts H. unfold start_task.
  apply wp_bind, wp_modify. apply wp_bind, wp_bind, wp_now. intros t0. apply wp_modify.
  apply wp_bind, wp_modify. apply wp_bind, wp_snapshot. intros t1. apply wp_SaveCheckpoint.
  eapply H; cycle 1.
  - cbn. rewrite (alter_pending _ _ _ ts Hts), alter_insert. reflexivity.
  - reflexivity.
  - split; [done|]. split; [done|]. cbn. rewrite (alter_pending _ _ _ ts Hts), alter_insert.
    eexists. split; [|reflexivity]. done.
  - done.
  - done.
Qed.

Lemma wp_execute_task t n p i ts :
  action_ok t -> Action t <> "approval" -> TaskStates i !! Name t = Some ts -> Status ts = "pending" ->
  check_deps (TaskStates i) (DependsOn t) = Ready ->
  wp (execute_task t n p) i (task_effect t n p i).
Proof.
  intros Hok Hap Hts Hpend Hdeps. unfold execute_task.
  apply wp_bind. eapply wp_start_task; [done|]. intros i1 s r Hr Hst Hlog Hs Hstat.
  apply wp_bind, wp_get. apply wp_bind, wp_acquire. intros [|]; cbn [negb].
  2:{ apply wp_bind, wp_modify, wp_ret. eapply TE_gated; [done|done|done|].
      split; [by eauto|eexists; split; [exact Hr|exact Hst]|exact Hlog]. }
  apply wp_bind. eapply wp_mono; [apply wp_attempts_loop; [done|lia|lia|lia]|].
  intros [[err|] cr] i2 (_ & Hstat2 & Hst2 & Hlog2); cbn [fst snd].
  - unfold fail_task. apply wp_bind, wp_bind, wp_now. intros t0. apply wp_modify.
    apply wp_bind, wp_modify, wp_bind, wp_modify. apply wp_bind, wp_bind, wp_now. intros t1. apply wp_modify.
    apply wp_bind, wp_modify, wp_bind, wp_snapshot. intros t2. apply wp_bind, wp_SaveCheckpoint, wp_bind, wp_get.
    apply wp_bind, wp_release, wp_ret.
    eapply TE_fail; [done|exact Hs| | |]; cycle 2.
    + split; [by eauto| |].
      * cbn. rewrite Hst2, Hst, !alter_insert. eexists. split; [|reflexivity]. done.
      * cbn. rewrite Hlog2, Hlog, <- app_assoc. reflexivity.
    + done.
    + done.
  - apply wp_bind. unfold complete_task. apply wp_bind, wp_bind, wp_now. intros t0. apply wp_modify.
    apply wp_bind, wp_modify, wp_bind, wp_modify. apply wp_bind.
    assert (Hc : forall i3, same_but_logs (on_state (Name t) (fun ts => ts_set_result cr (ts_set_status "completed" ts))
        (on_state (Name t) (ts_set_finished t0) i2)) i3 ->
      wp (recordReplaySnapshot (Name t) "completed" ("Task " +:+ Name t +:+ " completed successfully");;
          i ← get; releaseTaskLock (inst_ID i) (Name t);; SaveCheckpoint) i3
        (fun _ i' => wp (mret (Go (n + 1) true)) i' (task_effect t n p i))).
    { intros i3 (_ & Hs3 & Hst3 & Hl3). apply wp_bind, wp_snapshot. intros t2.
      apply wp_bind, wp_get, wp_bind, wp_release, wp_SaveCheckpoint, wp_ret.
      eapply TE_complete; [done|done|exact Hs| | |]; cycle 2.
      - split; [by eauto| |].
        + cbn. rewrite Hst3. cbn. rewrite Hst2, Hst, !alter_insert. eexists. split; [|reflexivity]. done.
        + cbn. rewrite Hl3. cbn. rewrite Hlog2, Hlog, <- app_assoc. reflexivity.
      - done.
      - cbn. rewrite Hs3. cbn. by rewrite Hstat2. }
    case_bool_decide; [apply wp_ret|apply wp_modify]; apply Hc; done.
Qed.

Lemma wp_run_task t n p i :
  action_ok t -> is_Some (TaskStates i !! Name t) -> wp (run_task t n p) i (task_effect t n p i).
Proof.
  intros Hok [ts Hts]. unfold run_task. apply wp_bind, wp_get. rewrite Hts.
  case_bool_decide as Hpend; cbn [negb]; [|apply wp_ret; eapply TE_stay; by eauto].
  destruct (check_deps (TaskStates i) (DependsOn t)) eqn:Hdeps.
  - case_bool_decide as Hap; [|by eapply wp_execute_task].
    unfold pause_task. do 3 apply wp_bind, wp_modify. apply wp_bind, wp_SaveCheckpoint, wp_ret.
    eapply TE_pause; [done|done|done|]. split; cbn; [by eauto| |by rewrite app_nil_r].
    rewrite (alter_pending _ _ _ ts Hts). eexists. split; [|reflexivity]. done.
  - apply wp_ret. eapply TE_stay; by eauto.
  - apply wp_bind. unfold skip_task. do 2 apply wp_bind, wp_modify. apply wp_bind, wp_snapshot. intros t0.
    apply wp_SaveCheckpoint, wp_ret. eapply TE_skip; [done| | |]; cycle 2.
    + split; [by eauto| |reflexivity]. cbn. rewrite (alter_pending _ _ _ ts Hts). eexists. split; [|reflexivity]. done.
    + done.
    + done.
Qed.
End Logic.
