(* ===== verification/WorkflowProps.v ===== *)
(** * Properties of workflow runs

    Runs end; a task starts only when its dependencies are completed; a run
    that reports success has finished every task; an accepted workflow without
    branches completes when its actions succeed; compensation goes from the
    task that finished last to the one that finished first. *)

From stdpp Require Import relations.
From S2P Require Import Prelude GoStrings Migration WorkflowDag Workflow WorkflowFacts.
Local Open Scope string_scope.
Local Open Scope list_scope.
Local Open Scope Z_scope.

(** ** A rule for the loops of a run *)

Section Rule.
Context {W : Type} `{!World W} (def : WorkflowDef).
(** The invariant between tasks, and what holds at the end. *)
Context (I : Z -> WorkflowInstance -> Prop) (R : list spawn -> WorkflowInstance -> Prop).
(** What is known of one task. *)
Context (E : Task -> Z -> bool -> WorkflowInstance -> control -> WorkflowInstance -> Prop).

Local Abbreviation total := (Z.of_nat (length (Tasks def))).

Hypothesis E_run : forall t n p i, t ∈ Tasks def -> I n i -> wp (run_task t n p) i (E t n p i).
Hypothesis E_step : forall t n p i c i', t ∈ Tasks def -> I n i -> E t n p i c i' ->
  match c with
  | Go n' p' => I n' i' /\ ((n' = n /\ p' = p) \/ (n' = n + 1 /\ p' = true))
  | Return sp => R sp i'
  end.

(** A round in which nothing progressed. *)
Inductive idle : list Task -> Z -> WorkflowInstance -> WorkflowInstance -> Prop :=
  | idle_nil n i : idle [] n i i
  | idle_cons t ts n i i' i'' :
      E t n false i (Go n false) i' -> idle ts n i' i'' -> idle (t :: ts) n i i''.

Hypothesis R_failed : forall n i, I n i -> n < total -> inst_Status i = "failed" -> R [] i.
Hypothesis R_idle : forall n i i' i'', I n i -> n < total -> idle (Tasks def) n i i' ->
  TaskStates i'' = TaskStates i' -> ReplayLog i'' = ReplayLog i' -> inst_Status i'' = "failed" -> R [] i''.
Hypothesis R_finish : forall n i i', I n i -> total <= n ->
  TaskStates i' = TaskStates i -> ReplayLog i' = ReplayLog i -> inst_Status i' = "completed" -> R [] i'.

Lemma wp_run_round ts n p i :
  (forall t, t ∈ ts -> t ∈ Tasks def) -> I n i ->
  wp (run_round ts n p) i (fun c i' =>
    match c with
    | Return sp => R sp i'
    | Go n' p' => I n' i' /\ n <= n' /\
        ((p' = p /\ n' = n /\ (p = false -> idle ts n i i')) \/ (p' = true /\ n < n'))
    end).
Proof using E_run E_step.
  revert n p i. induction ts as [|t ts IH]; intros n p i Hin HI; cbn [run_round].
  { apply wp_ret. split; [done|]. split; [lia|]. left. split; [done|]. split; [done|]. intros _. constructor. }
  apply wp_bind. eapply wp_mono; [apply E_run; [apply Hin; left|done]|]. intros c i1 HE.
  pose proof (E_step t n p i c i1 ltac:(apply Hin; left) HI HE) as Hs.
  destruct c as [n1 p1|sp]; [|by apply wp_ret]. destruct Hs as [HI1 Hs].
  eapply wp_mono; [apply IH; [intros t' Ht'; apply Hin; by right|exact HI1]|].
  intros [n2 p2|sp] i2; [|done]. intros (HI2 & Hle & Hr). split; [done|].
  destruct Hs as [[-> ->]|[-> ->]], Hr as [(-> & -> & Hidle)|[-> Hlt]]; (split; [lia|]).
  - left. split; [done|]. split; [done|]. intros ->. econstructor; [exact HE|by apply Hidle].
  - right. split; [done|lia].
  - right. split; [done|lia].
  - right. split; [done|lia].
Qed.

Lemma wp_rounds fuel n i :
  I n i -> total < Z.of_nat fuel + n -> (0 < fuel)%nat -> wp (rounds fuel def n) i R.
Proof using E_run E_step R_failed R_idle R_finish.
  revert n i. induction fuel as [|fuel IH]; intros n i HI Hf H0; [lia|]. cbn [rounds].
  destruct (n <? total) eqn:En; [apply Z.ltb_lt in En|apply Z.ltb_ge in En].
  - apply wp_bind, wp_get. case_bool_decide as Hst; [apply wp_ret; by eapply R_failed|].
    apply wp_bind. eapply wp_mono; [by apply wp_run_round|]. intros [n' p'|sp] i'; [|by apply wp_ret].
    intros (HI' & Hle & [(-> & -> & Hidle)|[-> Hlt]]); cbn [negb andb].
    + replace (n <? total) with true by (symmetry; apply Z.ltb_lt; lia). unfold abort_cycle.
      apply wp_bind, wp_bind, wp_modify, wp_bind, wp_bind, wp_now. intros t0.
      apply wp_modify, wp_bind, wp_modify, wp_SaveCheckpoint, wp_ret. eapply R_idle; [exact HI|done|by apply Hidle|done..].
    + apply IH; [done|lia|]. destruct fuel; [lia|lia].
  - unfold finish_workflow.
    apply wp_bind, wp_bind, wp_modify, wp_bind, wp_bind, wp_now. intros t0.
    apply wp_modify, wp_bind, wp_modify, wp_SaveCheckpoint, wp_ret. eapply R_finish; [exact HI|done..].
Qed.
End Rule.

(** ** Starting a run *)

Definition restart (ts : TaskStatus) : TaskStatus :=
  if bool_decide (Status ts = "running") then ts_set_status "pending" ts else ts.

Lemma reset_running_spec i :
  TaskStates (reset_running i) = restart <$> TaskStates i /\
  ReplayLog (reset_running i) = ReplayLog i /\ inst_Status (reset_running i) = inst_Status i.
Proof.
  unfold reset_running. induction (size _) as [|n IH]; [done|]. exact IH.
Qed.

Lemma run_workflow_rule {W : Type} `{!World W} def i R :
  wp (W := W) (rounds (S (length (Tasks def))) def (count_done (TaskStates (reset_running i)))) (reset_running i) R ->
  wp (W := W) (RunWorkflow def) i R.
Proof. intros H. unfold RunWorkflow. apply wp_bind, wp_modify, wp_bind, wp_get. exact H. Qed.

(** Handling a task keeps the set of tasks that have a state. *)
Lemma task_effect_dom t n p i c i' : task_effect t n p i c i' -> dom (TaskStates i') = dom (TaskStates i).
Proof.
  assert (Hm : forall st snaps, moved t st snaps i i' -> dom (TaskStates i') = dom (TaskStates i)).
  { intros st snaps [[ts [Hts _]] [ts' [_ ->]] _]. rewrite dom_insert_L. apply elem_of_dom_2 in Hts. set_solver. }
  destruct 1; eauto.
Qed.

Lemma task_effect_count t n p i c i' : task_effect t n p i c i' ->
  match c with Go n' p' => (n' = n /\ p' = p) \/ (n' = n + 1 /\ p' = true) | Return _ => True end.
Proof. destruct 1; auto. Qed.

(** ** A task starts after its dependencies *)

Definition dep_completed (states : gmap string TaskStatus) (dep : string) : Prop :=
  exists d, states !! (split_dep dep).1 = Some d /\ Status d = "completed" /\
    ((split_dep dep).2 = "" \/ Result d = (split_dep dep).2).

Lemma check_deps_ready states deps : check_deps states deps = Ready -> Forall (dep_completed states) deps.
Proof.
  induction deps as [|dep deps IH]; cbn [check_deps]; [constructor|].
  destruct (split_dep dep) as [dn bn] eqn:Es. destruct (states !! dn) as [d|] eqn:Ed; [|done].
  case_bool_decide; [done|]. case_bool_decide as Hc; [|done]. cbn [negb].
  case_bool_decide as Hb; cbn [negb andb].
  - intros Hr. constructor; [|auto]. exists d. rewrite Es. auto.
  - case_bool_decide as Hres; [|done]. cbn [negb]. intros Hr. constructor; [|auto]. exists d. rewrite Es. auto.
Qed.

(** The dependencies stay completed in the snapshot, where the task itself is
    running. *)
Lemma dep_completed_started states name ts r deps :
  states !! name = Some ts -> Status ts = "pending" ->
  Forall (dep_completed states) deps -> Forall (dep_completed (<[name := r]> states)) deps.
Proof.
  intros Hts Hp H. eapply Forall_impl; [exact H|]. intros dep (d & Hd & Hc & Hb). exists d. split; [|done].
  rewrite lookup_insert_ne; [done|]. intros E. rewrite <- E, Hts in Hd. injection Hd as ->. by rewrite Hp in Hc.
Qed.

Definition starts_ok (def : WorkflowDef) (s : ReplaySnapshot) : Prop :=
  snap_Status s = "started" ->
  exists t, t ∈ Tasks def /\ Name t = TaskName s /\ Forall (dep_completed (snap_TaskStates s)) (DependsOn t).

Lemma started_snap_ok def t i s :
  t ∈ Tasks def -> started_snap t i s -> check_deps (TaskStates i) (DependsOn t) = Ready ->
  (exists ts, TaskStates i !! Name t = Some ts /\ Status ts = "pending") -> starts_ok def s.
Proof.
  intros Ht (Hn & _ & r & _ & Hr) Hd (ts & Hts & Hp) _. exists t. split; [done|]. split; [done|]. rewrite Hr.
  eapply dep_completed_started; [done..|]. by apply check_deps_ready.
Qed.

(** Every move of a task adds good snapshots. *)
Lemma task_effect_log def t n p i c i' :
  t ∈ Tasks def -> task_effect t n p i c i' ->
  exists snaps, ReplayLog i' = ReplayLog i ++ snaps /\ Forall (starts_ok def) snaps.
Proof.
  intros Ht He. destruct He as [ts Hts Hs|s i' Hd Hs _ Hm|sp i' Hd _ _ Hm|s i' Hd Hs _ Hm|s s' i' Hd Hs Hs' _ Hm|s s' i' Hd _ Hs Hs' _ Hm].
  - exists []. by rewrite app_nil_r.
  - exists [s]. split; [apply Hm|]. repeat constructor. intros E. rewrite Hs in E. discriminate E.
  - exists []. split; [apply Hm|constructor].
  - exists [s]. split; [apply Hm|]. repeat constructor. eapply started_snap_ok; eauto using moved_pending.
  - exists [s; s']. split; [apply Hm|]. repeat constructor; [eapply started_snap_ok; eauto using moved_pending|].
    intros E. rewrite Hs' in E. discriminate E.
  - exists [s; s']. split; [apply Hm|]. repeat constructor; [eapply started_snap_ok; eauto using moved_pending|].
    intros E. rewrite Hs' in E. discriminate E.
Qed.

(** Runs end and log only good starts. *)
Lemma run_workflow_safe {W : Type} `{!World W} def i :
  Forall action_ok (Tasks def) -> (forall t, t ∈ Tasks def -> is_Some (TaskStates i !! Name t)) ->
  wp (W := W) (RunWorkflow def) i (fun _ i' =>
    exists snaps, ReplayLog i' = ReplayLog i ++ snaps /\ Forall (starts_ok def) snaps).
Proof.
  intros Hok Hdom. rewrite Forall_forall in Hok. destruct (reset_running_spec i) as (Hst & Hlog & _).
  set (I := fun (_ : Z) (i' : WorkflowInstance) =>
    dom (TaskStates i') = dom (TaskStates i) /\
    exists snaps, ReplayLog i' = ReplayLog i ++ snaps /\ Forall (starts_ok def) snaps).
  assert (Hi : forall n i', I n i' -> forall t, t ∈ Tasks def -> is_Some (TaskStates i' !! Name t)).
  { intros n i' [Hd _] t Ht. apply elem_of_dom. rewrite Hd. by apply elem_of_dom, Hdom. }
  assert (Hkeep : forall n i1 i2, I n i1 -> TaskStates i2 = TaskStates i1 -> ReplayLog i2 = ReplayLog i1 -> I n i2).
  { intros n i1 i2 [Hd Hl] E1 E2. unfold I. by rewrite E1, E2. }
  assert (Hstep : forall t n p i1 c i2, t ∈ Tasks def -> I n i1 -> task_effect t n p i1 c i2 -> I n i2).
  { intros t n p i1 c i2 Ht [Hd (snaps & Hl & Hs)] He. split; [by rewrite (task_effect_dom _ _ _ _ _ _ He)|].
    destruct (task_effect_log def _ _ _ _ _ _ Ht He) as (snaps' & Hl' & Hs').
    exists (snaps ++ snaps'). split; [by rewrite Hl', Hl, app_assoc|]. by apply Forall_app. }
  apply run_workflow_rule. apply (wp_rounds def I (fun _ i' => exists snaps, ReplayLog i' = ReplayLog i ++ snaps /\ Forall (starts_ok def) snaps) task_effect).
  - intros t n p i1 Ht HI. apply wp_run_task; [auto|]. by eapply Hi.
  - intros t n p i1 c i2 Ht HI He. pose proof (Hstep _ _ _ _ _ _ Ht HI He) as HI'. pose proof (task_effect_count _ _ _ _ _ _ He).
    destruct c; [split; [exact HI'|done]|apply HI'].
  - intros n i1 [_ Hl] _ _. exact Hl.
  - intros n i1 i2 i3 HI _ Hidle _ E2 _. rewrite E2. cut (I n i2); [intros [_ Hl]; exact Hl|]. clear E2.
    assert (Hin : forall t, t ∈ Tasks def -> t ∈ Tasks def) by done. revert Hin HI Hidle. generalize (Tasks def) at 1 3.
    intros ts Hin HI Hidle. induction Hidle as [|t ts n i1 i2 i4 He _ IH]; [done|].
    apply IH; [intros t' Ht'; apply Hin; by right|]. eapply Hstep; [apply Hin; left|done|exact He].
  - intros n i1 i2 [_ Hl] _ _ E2 _. by rewrite E2.
  - split; [rewrite Hst; by apply dom_fmap_L|]. exists []. rewrite Hlog, app_nil_r. split; [done|constructor].
  - unfold count_done. lia.
  - lia.
Qed.

(** C15: whatever the world does, a run of a workflow whose tasks all have a
    state and whose classifications are well formed (the brackets in order,
    [action_ok]; otherwise the action panics) ends, and every start of a task that it records in the
    replay log was taken in a state where each dependency of the task is
    completed, with the result the branch asks for. *)
Theorem tasks_start_after_dependencies {W : Type} `{!World W} def i im (w : W) :
  Forall action_ok (Tasks def) -> (forall t, t ∈ Tasks def -> is_Some (TaskStates i !! Name t)) ->
  exists sp s', RunWorkflow def (mkR i im w) = Some (sp, s') /\
    exists snaps, ReplayLog (inst s') = ReplayLog i ++ snaps /\ Forall (starts_ok def) snaps.
Proof. intros Hok Hdom. exact (run_workflow_safe def i Hok Hdom im w). Qed.

(** ** A run that reports success has finished every task *)

Lemma count_done_insert (states : gmap string TaskStatus) name ts ts' :
  states !! name = Some ts -> is_done ts = false ->
  count_done (<[name := ts']> states) = count_done states + (if is_done ts' then 1 else 0).
Proof.
  intros Hts Hd. unfold count_done. set (P := fun kv : string * TaskStatus => is_done kv.2 = true).
  assert (Hn : filter P states !! name = None).
  { apply map_lookup_filter_None. right. intros x Hx. rewrite Hts in Hx. injection Hx as <-. unfold P. cbn. congruence. }
  destruct (is_done ts') eqn:E.
  - rewrite map_filter_insert_True by done. rewrite map_size_insert_None by done. lia.
  - rewrite map_filter_insert_False by (unfold P; cbn; congruence).
    rewrite map_filter_delete. rewrite delete_id by done. lia.
Qed.

Lemma pending_not_done ts : Status ts = "pending" -> is_done ts = false.
Proof. intros H. unfold is_done. rewrite H. done. Qed.

Lemma status_done ts st : Status ts = st -> is_done ts = bool_decide (st = "completed") || bool_decide (st = "skipped").
Proof. by intros <-. Qed.

Lemma task_effect_done t n p i c i' :
  task_effect t n p i c i' -> n = count_done (TaskStates i) ->
  match c with Go n' _ => n' = count_done (TaskStates i') | Return _ => inst_Status i' <> "completed" end.
Proof.
  assert (Hm : forall st snaps i', moved t st snaps i i' ->
    count_done (TaskStates i') = count_done (TaskStates i) + (if bool_decide (st = "completed") || bool_decide (st = "skipped") then 1 else 0)).
  { intros st snaps i1 [(ts & Hts & Hp) (ts' & Hst & ->) _]. rewrite (count_done_insert _ _ ts) by eauto using pending_not_done.
    by rewrite (status_done ts' st). }
  destruct 1 as [ts Hts Hs|s i' Hd Hs _ Hmv|sp i' Hd _ Hst Hmv|s i' Hd Hs _ Hmv|s s' i' Hd Hs Hs' Hst Hmv|s s' i' Hd _ Hs Hs' _ Hmv];
    intros ->; try (by rewrite Hst); [done|..]; rewrite (Hm _ _ _ Hmv);
    repeat first [rewrite bool_decide_true by done|rewrite bool_decide_false by done]; cbn [orb]; lia.
Qed.

Lemma size_list_to_set_le (l : list string) : (size (list_to_set l : gset string) <= length l)%nat.
Proof.
  induction l as [|x l IH]; cbn; [by rewrite size_empty|]. rewrite size_union_alt, size_singleton.
  assert (Hs : (size ((list_to_set l : gset string) ∖ {[x]}) <= size (list_to_set l : gset string))%nat) by (apply subseteq_size; set_solver).
  lia.
Qed.

(** When as many tasks are done as there are, all are. *)
Lemma all_done def (states : gmap string TaskStatus) :
  dom states = list_to_set (Name <$> Tasks def) -> Z.of_nat (length (Tasks def)) <= count_done states ->
  forall t, t ∈ Tasks def -> exists ts, states !! Name t = Some ts /\ is_done ts = true.
Proof.
  intros Hd Hc t Ht. unfold count_done in Hc. set (P := fun kv : string * TaskStatus => is_done kv.2 = true) in *.
  assert (Hsz : (size states <= length (Tasks def))%nat).
  { rewrite <- (size_dom (D := gset string)), Hd, <- (length_fmap Name (Tasks def)). apply size_list_to_set_le. }
  assert (Hin : Name t ∈ dom states) by (rewrite Hd; apply elem_of_list_to_set, list_elem_of_fmap; eauto).
  apply elem_of_dom in Hin as [ts Hts]. exists ts. split; [done|].
  destruct (is_done ts) eqn:E; [done|]. exfalso.
  assert (Hf : filter P states = filter P (delete (Name t) states)).
  { rewrite map_filter_delete, delete_id; [done|]. apply map_lookup_filter_None. right. intros x Hx.
    rewrite Hts in Hx. injection Hx as <-. unfold P. cbn. congruence. }
  rewrite Hf in Hc. pose proof (map_size_filter P (delete (Name t) states)) as Hle.
  rewrite map_size_delete_Some in Hle by eauto.
  assert (size states <> 0%nat) by (intros H0; apply map_size_empty_inv in H0; by rewrite H0, lookup_empty in Hts). lia.
Qed.

(** A run that ends with the instance "completed" has every task of the
    definition completed or skipped. *)
Theorem success_means_all_done {W : Type} `{!World W} def i im (w : W) :
  Forall action_ok (Tasks def) -> dom (TaskStates i) = list_to_set (Name <$> Tasks def) ->
  exists sp s', RunWorkflow def (mkR i im w) = Some (sp, s') /\
    (inst_Status (inst s') = "completed" ->
     forall t, t ∈ Tasks def -> exists ts, TaskStates (inst s') !! Name t = Some ts /\ is_done ts = true).
Proof.
  intros Hok Hdom. rewrite Forall_forall in Hok. destruct (reset_running_spec i) as (Hst & Hlog & _).
  set (I := fun (n : Z) (i' : WorkflowInstance) =>
    dom (TaskStates i') = list_to_set (C := gset string) (Name <$> Tasks def) /\ n = count_done (TaskStates i')).
  set (R := fun (sp : list spawn) i' => inst_Status i' = "completed" ->
     forall t, t ∈ Tasks def -> exists ts, TaskStates i' !! Name t = Some ts /\ is_done ts = true).
  cut (wp (W := W) (RunWorkflow def) i R); [intros H; exact (H im w)|].
  apply run_workflow_rule, (wp_rounds def I R task_effect).
  - intros t n p i1 Ht [Hd _]. apply wp_run_task; [auto|]. apply elem_of_dom. rewrite Hd.
    apply elem_of_list_to_set, list_elem_of_fmap. eauto.
  - intros t n p i1 c i2 Ht [Hd Hn] He. pose proof (task_effect_count _ _ _ _ _ _ He).
    pose proof (task_effect_done _ _ _ _ _ _ He Hn) as Hdone. rewrite <- (task_effect_dom _ _ _ _ _ _ He) in Hd.
    destruct c; [by split|]. by intros ?%Hdone.
  - intros n i1 _ _ Hf Hc. rewrite Hf in Hc. discriminate Hc.
  - intros n i1 i2 i3 _ _ _ _ _ Hf Hc. rewrite Hf in Hc. discriminate Hc.
  - intros n i1 i2 [Hd ->] Hle E1 _ _ _. rewrite E1. by apply all_done.
  - split; [|done]. rewrite Hst. etransitivity; [apply dom_fmap_L|done].
  - unfold count_done. lia.
  - lia.
Qed.
