(* ===== verification/WorkflowLive.v ===== *)
(** * Accepted workflows complete

    The cycle check and the engine together: when [HasCycle] accepts a
    workflow without branches, approvals or failing actions, and the services
    it calls answer, its run completes every task. *)

From stdpp Require Import relations.
From stdpp Require Import sorting.
From S2P Require Import Prelude GoStrings Migration WorkflowDag Workflow WorkflowFacts WorkflowProps.
Local Open Scope string_scope.
Local Open Scope list_scope.
Local Open Scope Z_scope.

(** ** Chains of dependencies *)

Section Chain.
Context {A : Type} `{!EqDecision A} (edge : A -> A -> Prop) (l : list A).
Hypothesis pred : forall x, x ∈ l -> exists y, y ∈ l /\ edge y x.

(** A list in which each element has an edge to the one before. *)
Inductive chain : list A -> Prop :=
  | chain_one x : x ∈ l -> chain [x]
  | chain_cons y x c : y ∈ l -> edge y x -> chain (x :: c) -> chain (y :: x :: c).

Lemma chain_elem c : chain c -> forall x, x ∈ c -> x ∈ l.
Proof.
  induction 1 as [x Hx|y x c Hy He Hc IH]; intros z Hz.
  - by apply list_elem_of_singleton in Hz as ->.
  - apply elem_of_cons in Hz as [->|Hz]; auto.
Qed.

Lemma chain_long x n : x ∈ l -> exists c, chain c /\ length c = S n.
Proof using pred.
  intros Hx. induction n as [|n (c & Hc & Hl)]; [exists [x]; split; [by constructor|done]|].
  destruct c as [|y c]; [done|]. assert (Hy : y ∈ l) by (eapply chain_elem; [exact Hc|left]).
  destruct (pred y Hy) as (z & Hz & He). exists (z :: y :: c). split; [by constructor|]. cbn in *. lia.
Qed.

Lemma chain_path x c y : chain (x :: c) -> y ∈ c -> tc edge x y.
Proof.
  revert x. induction c as [|z c IH]; intros x Hc Hy; [by apply not_elem_of_nil in Hy|].
  inversion Hc as [|? ? ? Hx He Hc']; subst. apply elem_of_cons in Hy as [->|Hy]; [by apply tc_once|].
  eapply tc_l; [exact He|]. by apply IH.
Qed.

Lemma chain_dup c : chain c -> ~ NoDup c -> exists x, tc edge x x.
Proof using EqDecision0.
  induction 1 as [x Hx|y x c Hy He Hc IH]; intros Hn.
  - destruct Hn. apply NoDup_singleton.
  - destruct (decide (y ∈ x :: c)) as [Hin|Hin].
    + exists y. eapply chain_path; [|exact Hin]. by constructor.
    + apply IH. intros H. apply Hn. by constructor.
Qed.

Lemma no_first_cycle x : x ∈ l -> exists y, tc edge y y.
Proof using pred EqDecision0.
  intros Hx. destruct (chain_long x (length l) Hx) as (c & Hc & Hlen). apply (chain_dup c Hc).
  intros Hnd. assert (length c <= length l)%nat; [|lia].
  apply submseteq_length, NoDup_submseteq; [done|]. intros z Hz. by eapply chain_elem.
Qed.
End Chain.

(** ** Plain dependencies *)

Lemma cut_absent s c : c ∉ s -> bytes_Cut s [c] = None.
Proof.
  induction s as [|d s IH]; intros Hn; [done|]. rewrite not_elem_of_cons in Hn. destruct Hn as [Hd Hn].
  cbn [bytes_Cut bytes_HasPrefix]. by rewrite bool_decide_false, (IH Hn).
Qed.

Lemma split_dep_plain dep : ContainsByte dep ":" = false -> split_dep dep = (dep, "").
Proof.
  intros H. unfold split_dep. change (byt ":") with [":"%char]. rewrite cut_absent; [done|]. intros Hin.
  apply not_true_iff_false in H. apply H. unfold ContainsByte. apply existsb_exists. exists ":"%char.
  split; [by apply list_elem_of_In|]. by apply bool_decide_eq_true.
Qed.

(** A task that waits has a dependency that is not completed. *)
Lemma check_deps_wait states deps :
  check_deps states deps = Wait -> Forall (fun dep => ContainsByte dep ":" = false /\ is_Some (states !! dep)) deps ->
  exists dep d, dep ∈ deps /\ states !! dep = Some d /\ Status d <> "completed".
Proof.
  induction deps as [|dep deps IH]; cbn [check_deps]; [done|]. intros Hw Hall.
  apply Forall_cons in Hall as [[Hc [d Hd]] Hall]. rewrite (split_dep_plain _ Hc), Hd in Hw.
  case_bool_decide as H1; [done|]. case_bool_decide as H2; cbn [negb] in Hw.
  - rewrite bool_decide_true in Hw by done. cbn in Hw. destruct (IH Hw Hall) as (dep' & d' & Hin & ?).
    exists dep', d'. split; [by right|done].
  - exists dep, d. split; [left|done].
Qed.

Lemma check_deps_skip states deps :
  map_Forall (fun _ ts => Status ts <> "skipped") states ->
  Forall (fun dep => ContainsByte dep ":" = false) deps -> check_deps states deps <> Skip.
Proof.
  intros Hs. induction deps as [|dep deps IH]; cbn [check_deps]; [done|]. intros Hall.
  apply Forall_cons in Hall as [Hc Hall]. rewrite (split_dep_plain _ Hc). destruct (states !! dep) as [d|] eqn:Ed; [|done].
  specialize (Hs _ _ Ed). cbn in Hs. rewrite bool_decide_false by done. case_bool_decide; cbn [negb]; [|done].
  rewrite bool_decide_true by done. cbn. auto.
Qed.

(** ** Completion *)

(** The task calls a service or is a simulated success or a classification
    that succeeds; it needs no approval; its dependencies are tasks. *)
Record good_task (def : WorkflowDef) (t : Task) : Prop := {
  good_no_approval : Action t <> "approval";
  good_action : if is_classify t then exists r, RunAIClassify (Action t) = Some (inr r) else Action t <> "fail";
  good_deps : Forall (fun dep => ContainsByte dep ":" = false /\ dep ∈ Name <$> Tasks def) (DependsOn t) }.

Section Live.
Context {W : Type} `{!World W} (def : WorkflowDef).
Hypothesis http_ok : forall r (w : W), (http_Do r w).1 = RStatus 200.
Hypothesis timers_ok : forall d (w : W), (timer_first d w).1 = false.

Lemma wp_attempt_good t i :
  good_task def t -> wp (W := W) (attempt t) i (fun r i' => i' = i /\ r.1 = None).
Proof using http_ok timers_ok.
  intros [_ Hact _].
  assert (Hrun : wp (W := W) (run_action t) i (fun r i' => i' = i /\ r.1 = None)).
  { unfold run_action. destruct (is_classify t).
    - destruct Hact as [r ->]. by apply wp_ret.
    - apply wp_bind. unfold ExecuteTaskAction. destruct (_ || _).
      + apply wp_bind, wp_on_world. intros w. rewrite http_ok. by apply wp_ret, wp_ret.
      + apply wp_ret, wp_ret. by rewrite bool_decide_false. }
  unfold attempt. destruct (0 <? TimeoutMs t); [apply wp_bind|]; (eapply wp_mono; [exact Hrun|]); intros r i' [-> Hr]; [|done].
  apply wp_bind, wp_on_world. intros w. rewrite timers_ok. by apply wp_ret.
Qed.

(** A good task does not fail and is not turned away: it stays or completes. *)
Lemma wp_run_task_good t n p i :
  good_task def t -> is_Some (TaskStates i !! Name t) ->
  wp (W := W) (run_task t n p) i (fun c i' => exists n' p', c = Go n' p' /\ (n' = n -> i' = i)).
Proof using http_ok timers_ok.
  intros Hg [ts Hts]. unfold run_task. apply wp_bind, wp_get. rewrite Hts.
  case_bool_decide; cbn [negb]; [|by apply wp_ret; eexists _, _].
  destruct (check_deps _ _); [|by apply wp_ret; eexists _, _|].
  - rewrite bool_decide_false by apply Hg. unfold execute_task.
    apply wp_bind. eapply wp_start_task; [exact Hts|]. intros i1 s r _ _ _ _ _. apply wp_bind, wp_get, wp_bind.
    unfold acquireTaskLock. eapply wp_mono with (P := fun b i' => b = true).
    { case_bool_decide; [by apply wp_ret|]. apply wp_bind, wp_on_world. intros w. rewrite http_ok. by apply wp_ret. }
    intros b i2 ->. cbn [negb]. apply wp_bind. cbn [attempts_loop]. apply wp_bind.
    eapply wp_mono; [by apply wp_attempt_good|]. intros [e cr] i3 [-> He]. cbn in He. subst e. cbn [fst]. apply wp_ret. cbn [fst snd].
    apply wp_bind. unfold complete_task. apply wp_bind, wp_bind, wp_now. intros t0.
    apply wp_modify, wp_bind, wp_modify, wp_bind, wp_modify, wp_bind. case_bool_decide; [apply wp_ret|apply wp_modify];
      (apply wp_bind, wp_snapshot; intros t1; apply wp_bind, wp_get, wp_bind, wp_release, wp_SaveCheckpoint, wp_ret;
       eexists _, _; split; [reflexivity|lia]).
  - apply wp_bind. unfold skip_task. do 2 apply wp_bind, wp_modify. apply wp_bind, wp_snapshot. intros t1.
    apply wp_SaveCheckpoint, wp_ret. eexists _, _. split; [reflexivity|lia].
Qed.

Lemma wp_and {A} (m : EM W A) i (P Q : A -> WorkflowInstance -> Prop) :
  wp m i P -> wp m i Q -> wp m i (fun a i' => P a i' /\ Q a i').
Proof.
  intros HP HQ im w. destruct (HP im w) as (a & s & E & Ha), (HQ im w) as (b & s' & E' & Hb).
  rewrite E in E'. injection E' as <- <-. eauto.
Qed.

(** Between tasks: the tasks counted are completed, the others pending. *)
Record live_inv (n : Z) (i : WorkflowInstance) : Prop := {
  live_dom : dom (TaskStates i) = list_to_set (C := gset string) (Name <$> Tasks def);
  live_count : n = count_done (TaskStates i);
  live_status : map_Forall (fun _ ts => Status ts = "pending" \/ Status ts = "completed") (TaskStates i);
  live_ok : inst_Status i <> "failed" }.

Definition good_effect (t : Task) (n : Z) (p : bool) (i : WorkflowInstance) (c : control) (i' : WorkflowInstance) : Prop :=
  task_effect t n p i c i' /\ exists n' p', c = Go n' p' /\ (n' = n -> i' = i).

Lemma live_lookup n i t : live_inv n i -> t ∈ Tasks def -> is_Some (TaskStates i !! Name t).
Proof.
  intros HI Ht. apply elem_of_dom. rewrite (live_dom _ _ HI). apply elem_of_list_to_set, list_elem_of_fmap. eauto.
Qed.

(** A good task stays as it is or is completed. *)
Lemma good_effect_cases t n p i c i' :
  good_task def t -> live_inv n i -> good_effect t n p i c i' ->
  (c = Go n p /\ i' = i /\
     exists ts, TaskStates i !! Name t = Some ts /\ (Status ts <> "pending" \/ check_deps (TaskStates i) (DependsOn t) = Wait)) \/
  (c = Go (n + 1) true /\ inst_Status i' = inst_Status i /\
     exists ts', Status ts' = "completed" /\ TaskStates i' = <[Name t := ts']> (TaskStates i)).
Proof.
  intros Hg HI [He (n' & p' & Hc & Hsame)].
  destruct He as [ts Hts Hs|s i' Hd Hs _ Hmv|sp i' Hd _ Hst Hmv|s i' Hd Hs _ Hmv|s s' i' Hd Hs Hs' Hst Hmv|s s' i' Hd _ Hs Hs' Hst Hmv].
  - left. eauto 6.
  - exfalso. eapply check_deps_skip; [| |exact Hd].
    + intros k ts Hk E. destruct (live_status _ _ HI k ts Hk) as [H|H]; rewrite H in E; discriminate E.
    + eapply Forall_impl; [apply (good_deps _ _ Hg)|]. by intros dep [].
  - discriminate Hc.
  - exfalso. injection Hc as <- <-. specialize (Hsame eq_refl). subst i'.
    destruct Hmv as [(ts & Hts & Hp) (ts' & Hst' & E) _]. rewrite E, lookup_insert_eq in Hts.
    injection Hts as ->. rewrite Hp in Hst'. discriminate Hst'.
  - discriminate Hc.
  - right. split; [done|]. split; [done|]. apply Hmv.
Qed.

Lemma live_step t n p i c i' :
  good_task def t -> live_inv n i -> good_effect t n p i c i' ->
  match c with
  | Go n' p' => live_inv n' i' /\ ((n' = n /\ p' = p) \/ (n' = n + 1 /\ p' = true))
  | Return _ => False
  end.
Proof.
  intros Hg HI HE. destruct (good_effect_cases _ _ _ _ _ _ Hg HI HE) as [(-> & -> & _)|(-> & Hst & ts' & Hd & Hm)]; [by auto|].
  split; [|by right]. destruct HE as [He _].
  split; [by rewrite (task_effect_dom _ _ _ _ _ _ He), (live_dom _ _ HI)|apply (task_effect_done _ _ _ _ _ _ He), HI| |rewrite Hst; apply HI].
  rewrite Hm. apply map_Forall_insert_2; [by right|apply HI].
Qed.

(** A round without progress leaves the instance as it is. *)
Lemma idle_stays ts n i i' :
  Forall (good_task def) ts -> live_inv n i -> idle good_effect ts n i i' ->
  i' = i /\ Forall (fun t => exists s, TaskStates i !! Name t = Some s /\
                      (Status s <> "pending" \/ check_deps (TaskStates i) (DependsOn t) = Wait)) ts.
Proof.
  intros Hall HI Hidle. induction Hidle as [|t ts n i i1 i2 He Hidle IH]; [done|].
  apply Forall_cons in Hall as [Hg Hall].
  destruct (good_effect_cases _ _ _ _ _ _ Hg HI He) as [(_ & -> & Hs)|(Hc & _)]; [|injection Hc; lia].
  destruct (IH Hall HI) as [-> Hrest]. split; [done|]. by constructor.
Qed.

(** Where every task waits, no task is pending: a pending one would have a
    pending dependency, and so on around a cycle. *)
Lemma waiting_done n i :
  HasCycle def = false -> Forall (good_task def) (Tasks def) -> live_inv n i ->
  Forall (fun t => exists s, TaskStates i !! Name t = Some s /\
            (Status s <> "pending" \/ check_deps (TaskStates i) (DependsOn t) = Wait)) (Tasks def) ->
  forall t s, t ∈ Tasks def -> TaskStates i !! Name t = Some s -> Status s = "completed".
Proof.
  intros Hacyc Hgood HI Hall t s Ht Hs. rewrite Forall_forall in Hall, Hgood.
  destruct (live_status _ _ HI _ _ Hs) as [Hp|Hc]; [exfalso|done].
  set (waiting := fun name => match TaskStates i !! name with Some s => bool_decide (Status s = "pending") | None => false end).
  assert (Hcyc : exists y, tc (depends_edge (Tasks def)) y y).
  { apply (no_first_cycle _ (List.filter waiting (Name <$> Tasks def))) with (x := Name t).
    - intros x Hx. apply list_elem_of_In, filter_In in Hx as [Hx Hw]. apply list_elem_of_In, list_elem_of_fmap in Hx as (u & -> & Hu).
      destruct (Hall u Hu) as (su & Hsu & Hcase). unfold waiting in Hw. rewrite Hsu in Hw. apply bool_decide_eq_true in Hw.
      destruct Hcase as [|Hwait]; [done|]. destruct (check_deps_wait _ _ Hwait) as (dep & d & Hin & Hd & Hnc).
      { eapply Forall_impl; [apply (good_deps _ _ (Hgood u Hu))|]. intros dep [Hcol Hin]. split; [done|].
        apply list_elem_of_fmap in Hin as (v & -> & Hv). by eapply live_lookup. }
      exists dep. split; [|by exists u]. apply list_elem_of_In, filter_In. split.
      + pose proof (good_deps _ _ (Hgood u Hu)) as Hdeps. rewrite Forall_forall in Hdeps. apply list_elem_of_In. by apply Hdeps.
      + unfold waiting. rewrite Hd. apply bool_decide_eq_true. by destruct (live_status _ _ HI _ _ Hd).
    - apply list_elem_of_In, filter_In. split; [apply list_elem_of_In, list_elem_of_fmap; eauto|].
      unfold waiting. rewrite Hs. by apply bool_decide_eq_true. }
  apply HasCycle_spec in Hcyc. congruence.
Qed.

(** All completed: the count is the number of tasks. *)
Lemma count_all n i :
  NoDup (Name <$> Tasks def) -> live_inv n i ->
  (forall t s, t ∈ Tasks def -> TaskStates i !! Name t = Some s -> Status s = "completed") ->
  n = Z.of_nat (length (Tasks def)).
Proof.
  intros Hnd HI Hall. rewrite (live_count _ _ HI). unfold count_done. f_equal.
  rewrite map_filter_id.
  - rewrite <- (size_dom (D := gset string)), (live_dom _ _ HI), size_list_to_set by done. apply length_fmap.
  - intros k s Hk. unfold is_done. cbn.
    assert (Hin : k ∈ Name <$> Tasks def) by (apply (elem_of_list_to_set (C := gset string)); rewrite <- (live_dom _ _ HI); by apply elem_of_dom_2 in Hk).
    apply list_elem_of_fmap in Hin as (t & -> & Ht). by rewrite (Hall t s Ht Hk).
Qed.

(** A workflow that the cycle check accepts, whose dependencies are tasks
    and need no branch, whose actions succeed and whose services answer,
    completes from any state in which its tasks are pending, running or
    completed: the run ends, reports success and every task is completed. *)
Lemma run_completes i im (w : W) :
  HasCycle def = false -> NoDup (Name <$> Tasks def) -> Forall (good_task def) (Tasks def) ->
  dom (TaskStates i) = list_to_set (Name <$> Tasks def) ->
  map_Forall (fun _ ts => Status ts ∈ ["pending"; "running"; "completed"]) (TaskStates i) ->
  inst_Status i <> "failed" ->
  exists s', RunWorkflow def (mkR i im w) = Some ([], s') /\ inst_Status (inst s') = "completed" /\
    forall t, t ∈ Tasks def -> exists ts, TaskStates (inst s') !! Name t = Some ts /\ Status ts = "completed".
Proof using http_ok timers_ok.
  intros Hacyc Hnd Hgood Hdom Hstat Hnf. pose proof Hgood as Hgood'. rewrite Forall_forall in Hgood'.
  destruct (reset_running_spec i) as (Hst & Hlog & Hs0).
  set (R := fun (sp : list spawn) i' => sp = [] /\ inst_Status i' = "completed" /\
    forall t, t ∈ Tasks def -> exists ts, TaskStates i' !! Name t = Some ts /\ Status ts = "completed").
  cut (wp (W := W) (RunWorkflow def) i R).
  { intros H. destruct (H im w) as (sp & s' & E & -> & Hr). eauto. }
  apply run_workflow_rule, (wp_rounds def live_inv R good_effect).
  - intros t n p i1 Ht HI. pose proof (live_lookup _ _ _ HI Ht). apply wp_and; [|by apply wp_run_task_good; auto].
    apply wp_run_task; [|done]. intros Hc. pose proof (good_action _ _ (Hgood' t Ht)) as Ha. rewrite Hc in Ha.
    destruct Ha as [r ->]. done.
  - intros t n p i1 c i2 Ht HI HE. pose proof (live_step _ _ _ _ _ _ (Hgood' t Ht) HI HE). by destruct c.
  - intros n i1 HI _ Hf. by destruct (live_ok _ _ HI).
  - intros n i1 i2 i3 HI Hlt Hidle. exfalso. destruct (idle_stays _ _ _ _ Hgood HI Hidle) as [_ Hall].
    pose proof (waiting_done _ _ Hacyc Hgood HI Hall) as Hdone. pose proof (count_all _ _ Hnd HI Hdone). lia.
  - intros n i1 i2 HI Hle E1 _ Hc. split; [done|]. split; [done|]. intros t Ht. rewrite E1.
    pose proof (live_count _ _ HI) as Hn. subst n. destruct (all_done def _ (live_dom _ _ HI) Hle t Ht) as (ts & Hts & Hd).
    exists ts. split; [done|]. destruct (live_status _ _ HI _ _ Hts) as [Hp|]; [|done]. unfold is_done in Hd. by rewrite Hp in Hd.
  - split; [| done | |by rewrite Hs0].
    + rewrite Hst. etransitivity; [apply dom_fmap_L|done].
    + rewrite Hst. intros k ts Hk. rewrite lookup_fmap in Hk. destruct (TaskStates i !! k) as [ts0|] eqn:E; [|done].
      injection Hk as <-. specialize (Hstat _ _ E). unfold restart. cbn in Hstat. case_bool_decide as Hr; cbn; [by left|]. set_solver.
  - unfold count_done. lia.
  - lia.
Qed.
End Live.

(** ** A world for examples: every service answers, no timer fires, the clock
    advances. *)

Definition quiet_world : World Z := {|
  time_Now := fun w => (w, w + 1);
  http_Do := fun _ w => (RStatus 200, w);
  timer_first := fun _ w => (false, w);
  PublishStompMessage := fun _ _ _ w => (None, w);
  Getenv := fun _ => "";
  node_owner := "node/1";
  Marshal := fun i => Some (inst_ID i);
  EnterpriseSaveCheckpoint := fun _ _ w => (false, w);
  has_store := true;
  has_client := false;
  client_Put := fun _ _ _ w => w;
  WriteFile := fun _ _ w => w;
  SaveInstances := fun _ w => w |}.

Definition plain_task (name : string) (deps : list string) (action compensate : string) : Task :=
  mkTask name deps action compensate 0 0.

Definition new_state (name : string) : TaskStatus := mkTS name "pending" 0 0 "" "".

Definition fresh (def : WorkflowDef) : WorkflowInstance :=
  mkInst "inst-1" (ID def) "running" (list_to_map ((fun t => (Name t, new_state (Name t))) <$> Tasks def)) 0 0 [] [] "".

Definition diamond : WorkflowDef := mkDef "d"
  [plain_task "ship" ["pay"; "pack"] "http://ship" ""; plain_task "pay" ["order"] "mock" "refund";
   plain_task "pack" ["order"] "mock" "unpack"; plain_task "order" [] "mock" "cancel"].

Lemma diamond_states t : t ∈ Tasks diamond -> is_Some (TaskStates (fresh diamond) !! Name t).
Proof. intros Ht. repeat (apply elem_of_cons in Ht as [->|Ht]; [by vm_compute; eauto|]). by apply not_elem_of_nil in Ht. Qed.

Lemma tasks_start_after_dependencies_witness :
  (exists sp s', RunWorkflow (World0 := quiet_world) diamond (mkR (fresh diamond) ∅ 1) = Some (sp, s') /\
    exists snaps, ReplayLog (inst s') = snaps /\ Forall (starts_ok diamond) snaps) /\
  match RunWorkflow (World0 := quiet_world) diamond (mkR (fresh diamond) ∅ 1) with
  | Some (_, s) => TaskName <$> List.filter (fun s => bool_decide (snap_Status s = "started")) (ReplayLog (inst s))
  | None => []
  end = ["order"; "pay"; "pack"; "ship"].
Proof.
  split; [|vm_compute; reflexivity].
  apply (tasks_start_after_dependencies (World0 := quiet_world) diamond (fresh diamond) ∅ 1).
  - repeat constructor; intros H; vm_compute in H; discriminate H.
  - exact diamond_states.
Defined.

Lemma success_means_all_done_witness :
  exists sp s', RunWorkflow (World0 := quiet_world) diamond (mkR (fresh diamond) ∅ 1) = Some (sp, s') /\
    (inst_Status (inst s') = "completed" -> exists ts, TaskStates (inst s') !! "ship" = Some ts /\ is_done ts = true).
Proof.
  destruct (success_means_all_done (World0 := quiet_world) diamond (fresh diamond) ∅ 1) as (sp & s' & Hr & Hd).
  - repeat constructor; intros H; vm_compute in H; discriminate H.
  - vm_compute. reflexivity.
  - exists sp, s'. split; [done|]. intros Hc. apply (Hd Hc (plain_task "ship" ["pay"; "pack"] "http://ship" "")). left.
Defined.

(** ** Compensation *)

(** ** The exchange sort *)

Definition later_first (a b : Task * Z) : Prop := b.2 <= a.2.

Lemma exchange_pass_spec x rest m r :
  exchange_pass x rest = (m, r) -> m :: r ≡ₚ x :: rest /\ Forall (later_first m) (x :: rest).
Proof.
  revert x m r. induction rest as [|y rest IH]; intros x m r H; cbn in H.
  { injection H as <- <-. split; [done|]. repeat constructor. unfold later_first. lia. }
  destruct (x.2 <? y.2) eqn:E.
  - apply Z.ltb_lt in E. destruct (exchange_pass y rest) as [m' r'] eqn:Ep. injection H as <- <-.
    destruct (IH _ _ _ Ep) as [Hp Hall]. split; [by rewrite Permutation_swap, Hp|].
    constructor; [|done]. apply Forall_cons in Hall as [Hy _]. unfold later_first in *. lia.
  - apply Z.ltb_ge in E. destruct (exchange_pass x rest) as [m' r'] eqn:Ep. injection H as <- <-.
    destruct (IH _ _ _ Ep) as [Hp Hall]. split; [by rewrite Permutation_swap, Hp, Permutation_swap|].
    apply Forall_cons in Hall as [Hx Hall]. constructor; [done|]. constructor; [|done]. unfold later_first in *. lia.
Qed.

Lemma exchange_sort_spec fuel l :
  (length l <= fuel)%nat -> exchange_sort fuel l ≡ₚ l /\ StronglySorted later_first (exchange_sort fuel l).
Proof.
  revert l. induction fuel as [|fuel IH]; intros l Hl.
  { destruct l; [|cbn in Hl; lia]. split; [done|apply SSorted_nil]. }
  destruct l as [|x rest]; [split; [done|apply SSorted_nil]|]. cbn in Hl |- *.
  destruct (exchange_pass x rest) as [m r] eqn:Ep. destruct (exchange_pass_spec _ _ _ _ Ep) as [Hp Hall].
  assert (Hlen : length r = length rest) by (apply Permutation_length in Hp; cbn in Hp; lia).
  destruct (IH r ltac:(lia)) as [Hp' Hs]. split; [by rewrite Hp'|]. constructor; [done|].
  rewrite Hp'. rewrite <- Hp in Hall. by apply Forall_cons in Hall as [_ Hall].
Qed.

(** ** The compensations *)

Definition is_event (t : Task) : bool := HasPrefix (CompensateAction t) "event://".

(** Up to and including the first event. *)
Fixpoint upto_event (ts : list Task) : list Task :=
  match ts with
  | [] => []
  | t :: ts => t :: (if is_event t then [] else upto_event ts)
  end.

Definition exec_prefix : string := "[SAGA] Executing compensation rollback for task ".
Definition exec_line (t : Task) : string := exec_prefix +:+ Name t +:+ ": " +:+ CompensateAction t.

(** The compensations a log says were started. *)
Definition executions (logs : list string) : list string := List.filter (fun l => HasPrefix l exec_prefix) logs.

(** What the engine asks of other services, and the answers. *)
Inductive call := Asked (r : request) (answer : reply) | Published (addr topic payload : string) (err : option string).

Definition succeeded (r : reply) : bool := match r with RError _ => false | RStatus code => code <? 400 end.

(** A world that also keeps the calls made in it, and is otherwise the same. *)
Definition traced_world {W} (wd : World W) : World (W * list call) := {|
  time_Now := fun w => let '(t, u) := time_Now w.1 in (t, (u, w.2));
  http_Do := fun r w => let '(a, u) := http_Do r w.1 in (a, (u, w.2 ++ [Asked r a]));
  timer_first := fun d w => let '(b, u) := timer_first d w.1 in (b, (u, w.2));
  PublishStompMessage := fun addr topic payload w => let '(e, u) := PublishStompMessage addr topic payload w.1 in (e, (u, w.2 ++ [Published addr topic payload e]));
  Getenv := Getenv;
  node_owner := node_owner;
  Marshal := Marshal;
  EnterpriseSaveCheckpoint := fun i d w => let '(b, u) := EnterpriseSaveCheckpoint i d w.1 in (b, (u, w.2));
  has_store := has_store;
  has_client := has_client;
  client_Put := fun x y z w => (client_Put x y z w.1, w.2);
  WriteFile := fun x y w => (WriteFile x y w.1, w.2);
  SaveInstances := fun m w => (SaveInstances m w.1, w.2) |}.

Definition is_http (t : Task) : bool := HasPrefix (CompensateAction t) "http://" || HasPrefix (CompensateAction t) "https://".

(** The message that asks for the compensation of a task. *)
Definition event_topic (t : Task) : string := "/topic/" +:+ TrimPrefix (CompensateAction t) "event://".
Definition event_payload (id : string) (t : Task) : string :=
  let q := str [quote] in
  "{" +:+ q +:+ "instance_id" +:+ q +:+ ": " +:+ q +:+ id +:+ q +:+ ", " +:+ q +:+ "task_name" +:+ q +:+ ": " +:+ q +:+ Name t +:+ q +:+ "}".

(** The compensation of a task was run with the calls [cs], and [st] is its
    outcome: an event is published, an address is called, and anything else is
    an action of the engine itself, which fails if it is [fail]. *)
Definition ran (addr id : string) (t : Task) (cs : list call) (st : string) : Prop :=
  if is_event t then exists err, cs = [Published addr (event_topic t) (event_payload id t) err] /\ st = (if err is Some _ then "failed" else "compensating")
  else if is_http t then exists answer, cs = [Asked (PostAction (CompensateAction t)) answer] /\ st = (if succeeded answer then "compensated" else "failed")
  else cs = [] /\ st = (if bool_decide (CompensateAction t = "fail") then "failed" else "compensated").

Record compensated_one (addr : string) (t : Task) (cs : list call) (i i' : WorkflowInstance) : Prop := {
  one_id : inst_ID i' = inst_ID i;
  one_states : exists ts', ran addr (inst_ID i) t cs (Status ts') /\ TaskStates i' = <[Name t := ts']> (TaskStates i);
  one_logs : exists new, Logs i' = Logs i ++ new /\ executions new = [exec_line t] }.

Lemma executions_app a b : executions (a ++ b) = executions a ++ executions b.
Proof. apply List.filter_app. Qed.

(** A log line that differs from the prefix somewhere is not counted. *)
Fixpoint differs (a q : bytes) : bool :=
  match a, q with
  | c :: a, d :: q => if bool_decide (d = c) then differs a q else true
  | _, _ => false
  end.

Lemma other_line p s : differs (byt p) (byt exec_prefix) = true -> HasPrefix (p +:+ s) exec_prefix = false.
Proof.
  unfold HasPrefix. rewrite byt_app. generalize (byt exec_prefix) as q, (byt p) as a.
  induction q as [|d q IH]; intros [|c a] H; cbn in *; try done.
  case_bool_decide; [by apply IH|done].
Qed.

Lemma exec_line_counted t : HasPrefix (exec_line t) exec_prefix = true.
Proof. unfold exec_line. apply HasPrefix_iff. by eexists. Qed.

Section Saga.
Context {W : Type} {wd : World W}.
#[local] Instance traced : World (W * list call) := traced_world wd.
Local Abbreviation TM := (EM (W * list call)).

Definition broker_addr : string := if bool_decide (Getenv (World := wd) "PRANOR_PULSE_ADDR" = "") then "localhost:8082" else Getenv (World := wd) "PRANOR_PULSE_ADDR".

(** As [wp], and the postcondition is told the calls. *)
Definition wpt {A} (m : TM A) (i : WorkflowInstance) (l : list call) (Q : A -> WorkflowInstance -> list call -> Prop) : Prop :=
  forall im w, exists a s', m (mkR i im (w, l)) = Some (a, s') /\ Q a (inst s') (world s').2.

Lemma wpt_ret {A} (a : A) i l (Q : A -> WorkflowInstance -> list call -> Prop) : Q a i l -> wpt (mret a) i l Q.
Proof. intros H im w. by exists a, (mkR i im (w, l)). Qed.

Lemma wpt_bind {A B} (m : TM A) (k : A -> TM B) i l Q : wpt m i l (fun a i' l' => wpt (k a) i' l' Q) -> wpt (m ≫= k) i l Q.
Proof.
  intros H im w. destruct (H im w) as (a & [i' im' [w' l']] & Hm & Hk). destruct (Hk im' w') as (b & s'' & Hb & HQ).
  exists b, s''. split; [|done]. unfold mbind, em_bind. by rewrite Hm.
Qed.

Lemma wpt_mono {A} (m : TM A) i l (P Q : A -> WorkflowInstance -> list call -> Prop) : wpt m i l P -> (forall a i' l', P a i' l' -> Q a i' l') -> wpt m i l Q.
Proof. intros H HPQ im w. destruct (H im w) as (a & s' & Hm & HP). eauto. Qed.

Lemma wpt_get i l (Q : WorkflowInstance -> WorkflowInstance -> list call -> Prop) : Q i i l -> wpt get i l Q.
Proof. intros H im w. by exists i, (mkR i im (w, l)). Qed.

Lemma wpt_modify f i l (Q : unit -> WorkflowInstance -> list call -> Prop) : Q tt (f i) l -> wpt (modify f) i l Q.
Proof. intros H im w. by exists tt, (mkR (f i) im (w, l)). Qed.

Lemma wpt_on_world {A} (f : W * list call -> A * (W * list call)) i l (Q : A -> WorkflowInstance -> list call -> Prop) :
  (forall w, Q (f (w, l)).1 i (f (w, l)).2.2) -> wpt (on_world f) i l Q.
Proof. intros H im w. specialize (H w). unfold on_world. cbn. destruct (f (w, l)) as [a w']. by exists a, (mkR i im w'). Qed.

Lemma wpt_SaveCheckpoint i l (Q : unit -> WorkflowInstance -> list call -> Prop) : Q tt i l -> wpt SaveCheckpoint i l Q.
Proof.
  intros H. unfold SaveCheckpoint. apply wpt_bind, wpt_get. destruct (Marshal i) as [data|]; [|by apply wpt_ret].
  assert (Hend : wpt (publish_instance i;; (if has_store then save_instances else mret tt)) i l Q).
  { intros im w'. unfold mbind, em_bind, publish_instance. cbn. destruct has_store; cbn; eexists _, _; by split. }
  apply wpt_bind, wpt_on_world. intros w. cbn. destruct (EnterpriseSaveCheckpoint i data w) as [handled u]. cbn. apply wpt_bind.
  destruct handled; [by apply wpt_ret|]. apply wpt_bind.
  destruct (has_store && has_client); [apply wpt_on_world; intros w'|apply wpt_ret]; apply wpt_on_world; intros w''; exact Hend.
Qed.

(** The answer that a call is judged by. *)
Lemma wpt_ExecuteTaskAction t i l (Q : option string -> WorkflowInstance -> list call -> Prop) :
  (HasPrefix (Action t) "http://" || HasPrefix (Action t) "https://" = true -> forall answer err, (err = None <-> succeeded answer = true) -> Q err i (l ++ [Asked (PostAction (Action t)) answer])) ->
  (HasPrefix (Action t) "http://" || HasPrefix (Action t) "https://" = false -> forall err, (err = None <-> Action t <> "fail") -> Q err i l) ->
  wpt (ExecuteTaskAction t) i l Q.
Proof.
  intros H1 H2. unfold ExecuteTaskAction. destruct (_ || _).
  - apply wpt_bind, wpt_on_world. intros w. cbn. destruct (http_Do _ w) as [answer u]. cbn. apply wpt_ret, H1; [done|].
    destruct answer as [e|code]; cbn; [done|]. destruct (400 <=? code) eqn:E, (code <? 400) eqn:E'; boolify; done || lia.
  - apply wpt_ret, H2; [done|]. by case_bool_decide.
Qed.

(** Failed, or compensated: the state and the log of a task that was run. *)
Lemma one_ended cs t i ts err f line :
  TaskStates i !! Name t = Some ts -> is_event t = false -> ran broker_addr (inst_ID i) t cs (Status (f (ts_set_status "compensating" ts))) ->
  differs (byt line) (byt exec_prefix) = true ->
  compensated_one broker_addr t cs i (add_log (line +:+ err) (on_state (Name t) f (add_log (exec_line t) (on_state (Name t) (ts_set_status "compensating") i)))).
Proof.
  intros Hts He Hr Hd. split; [done| |].
  - cbn. rewrite (alter_pending _ _ _ ts Hts), alter_insert. eexists. split; [|reflexivity]. done.
  - eexists. cbn. rewrite <- app_assoc. split; [reflexivity|]. cbn [app]. unfold executions. cbn [List.filter]. rewrite exec_line_counted, other_line by done. done.
Qed.

Ltac ended cs ts := apply wpt_bind; apply wpt_bind, wpt_modify, wpt_modify; apply wpt_bind, wpt_SaveCheckpoint, wpt_ret; split; [done|]; exists cs; split; [by rewrite ?app_nil_r|]; apply (one_ended cs _ _ ts).

Lemma wpt_compensate t i ts l :
  TaskStates i !! Name t = Some ts -> Status ts = "completed" ->
  wpt (compensate t) i l (fun go i' l' => go = negb (is_event t) /\ exists cs, l' = l ++ cs /\ compensated_one broker_addr t cs i i').
Proof.
  intros Hts Hc. unfold compensate. apply wpt_bind, wpt_get. rewrite Hts, Hc. rewrite bool_decide_false by done.
  do 2 apply wpt_bind, wpt_modify. apply wpt_bind, wpt_SaveCheckpoint. fold exec_prefix. fold (exec_line t).
  fold (is_event t). destruct (is_event t) eqn:He.
  - apply wpt_bind, wpt_on_world. intros w. cbn. fold broker_addr. fold (event_topic t). fold (event_payload (inst_ID i) t).
    destruct (PublishStompMessage _ _ _ w) as [err u]. cbn.
    assert (Hr : ran broker_addr (inst_ID i) t [Published broker_addr (event_topic t) (event_payload (inst_ID i) t) err] (if err is Some _ then "failed" else "compensating"))
      by (unfold ran; rewrite He; by exists err).
    destruct err as [err|].
    + do 2 apply wpt_bind, wpt_modify. apply wpt_bind, wpt_SaveCheckpoint, wpt_ret. split; [done|]. eexists. split; [done|]. split; [done| |].
      * cbn. rewrite (alter_pending _ _ _ ts Hts), alter_insert. eexists. split; [|reflexivity]. done.
      * eexists. cbn. rewrite <- app_assoc. split; [reflexivity|]. cbn [app]. unfold executions. cbn [List.filter]. rewrite exec_line_counted, other_line by done. done.
    + apply wpt_ret. split; [done|]. eexists. split; [done|]. split; [done| |].
      * cbn. rewrite (alter_pending _ _ _ ts Hts). eexists. split; [|reflexivity]. done.
      * eexists. cbn. split; [reflexivity|]. unfold executions. cbn [List.filter]. by rewrite exec_line_counted.
  - apply wpt_bind, wpt_ExecuteTaskAction; cbn [Action].
    + intros Hh answer err Herr. assert (Hr : ran broker_addr (inst_ID i) t [Asked (PostAction (CompensateAction t)) answer] (if err is Some _ then "failed" else "compensated")).
      { unfold ran, is_http. rewrite He, Hh. exists answer. split; [done|]. destruct err, (succeeded answer); naive_solver. }
      by destruct err; ended [Asked (PostAction (CompensateAction t)) answer] ts.
    + intros Hh err Herr. assert (Hr : ran broker_addr (inst_ID i) t [] (if err is Some _ then "failed" else "compensated")).
      { unfold ran, is_http. rewrite He, Hh. split; [done|]. destruct err; case_bool_decide; naive_solver. }
      by destruct err; ended (@nil call) ts.
Qed.

(** What the loop leaves: the calls are those of the compensations, one after
    the other, and each task has the outcome of its own. *)
Record compensated_all (ts : list Task) (cs : list (list call)) (i i' : WorkflowInstance) : Prop := {
  all_id : inst_ID i' = inst_ID i;
  all_logs : exists new, Logs i' = Logs i ++ new /\ executions new = exec_line <$> upto_event ts;
  all_ran : Forall2 (fun t c => exists s, TaskStates i' !! Name t = Some s /\ ran broker_addr (inst_ID i) t c (Status s)) (upto_event ts) cs;
  all_others k : k ∉ Name <$> upto_event ts -> TaskStates i' !! k = TaskStates i !! k }.

Lemma upto_event_sub t ts : t ∈ upto_event ts -> t ∈ ts.
Proof. induction ts as [|x ts IH]; cbn; [done|]. destruct (is_event x); set_solver. Qed.

Lemma wpt_compensate_all (l : list (Task * Z)) i tr :
  NoDup (Name ∘ fst <$> l) ->
  Forall (fun tz => exists s, TaskStates i !! Name tz.1 = Some s /\ Status s = "completed") l ->
  wpt (compensate_all l) i tr (fun _ i' tr' => exists cs, tr' = tr ++ concat cs /\ compensated_all (fst <$> l) cs i i').
Proof.
  revert i tr. induction l as [|[t z] l IH]; intros i tr Hnd Hall; cbn [compensate_all].
  { apply wpt_ret. exists []. split; [by rewrite app_nil_r|]. split; cbn; [done|exists []; by rewrite app_nil_r|constructor|done]. }
  apply Forall_cons in Hall as [(s & Hs & Hc) Hall]. cbn in Hnd. apply NoDup_cons in Hnd as [Hn Hnd]. cbn in Hs.
  apply wpt_bind. eapply wpt_mono; [by eapply wpt_compensate|]. intros go i1 tr1 [-> (c1 & -> & [Hid1 (s1 & Ha1 & Hst1) (new1 & Hl1 & He1)])].
  cbn [fmap list_fmap fst upto_event]. destruct (is_event t) eqn:Hev; cbn [negb].
  - apply wpt_ret. exists [c1]. split; [cbn; by rewrite app_nil_r|]. split; cbn [upto_event]; rewrite ?Hev.
    + done.
    + exists new1. by rewrite He1.
    + repeat constructor. exists s1. by rewrite Hst1, lookup_insert_eq.
    + intros k Hk. rewrite Hst1, lookup_insert_ne; [done|]. set_solver.
  - assert (Hrest : Forall (fun tz => exists s, TaskStates i1 !! Name tz.1 = Some s /\ Status s = "completed") l).
    { rewrite Forall_forall in *. intros tz Htz. destruct (Hall tz Htz) as (s' & Hs' & Hc'). exists s'. split; [|done].
      rewrite Hst1, lookup_insert_ne; [done|]. intros E. apply Hn. apply list_elem_of_fmap. by exists tz. }
    eapply wpt_mono; [by apply IH|]. intros [] i2 tr2 (cs & -> & [Hid2 (new2 & Hl2 & He2) Hst2 Ho2]).
    assert (Hnt : Name t ∉ Name <$> upto_event (fst <$> l)).
    { intros Hin. apply Hn. apply list_elem_of_fmap in Hin as (u & Hu & Hin). apply list_elem_of_fmap.
      apply upto_event_sub, list_elem_of_fmap in Hin as (tz & -> & Htz). by exists tz. }
    exists (c1 :: cs). split; [cbn; by rewrite app_assoc|]. split; cbn [upto_event]; rewrite ?Hev.
    + congruence.
    + exists (new1 ++ new2). rewrite Hl2, Hl1, app_assoc, executions_app, He1, He2. done.
    + constructor; [exists s1; by rewrite Ho2, Hst1, lookup_insert_eq by done|]. by rewrite Hid1 in Hst2.
    + intros k Hk. cbn in Hk. rewrite not_elem_of_cons in Hk. destruct Hk as [Hk Hk']. rewrite Ho2 by done. rewrite Hst1, lookup_insert_ne; done.
Qed.

Lemma to_compensate_spec def i t z :
  (t, z) ∈ to_compensate def i ->
  t ∈ Tasks def /\ exists s, TaskStates i !! Name t = Some s /\ Status s = "completed" /\ ts_FinishedAt s = z.
Proof.
  unfold to_compensate. rewrite list_elem_of_omap. intros (u & Hu & H).
  destruct (TaskStates i !! Name u) as [s|] eqn:Es; [|done]. case_bool_decide as Hc; [|done]. cbn in H.
  case_bool_decide; [done|]. injection H as <- <-. eauto 6.
Qed.

Lemma to_compensate_nodup def i :
  NoDup (Name <$> Tasks def) -> NoDup (Name ∘ fst <$> to_compensate def i).
Proof.
  unfold to_compensate. induction (Tasks def) as [|t ts IH]; cbn; [constructor|]. intros Hnd. apply NoDup_cons in Hnd as [Hn Hnd].
  specialize (IH Hnd). destruct (TaskStates i !! Name t) as [s|]; [|done]. destruct (_ && _); [|done]. cbn. constructor; [|done].
  intros Hin. apply Hn. apply list_elem_of_fmap in Hin as ([u z] & Hu & Hin). apply list_elem_of_omap in Hin as (v & Hv & E).
  apply list_elem_of_fmap. exists v. split; [|done]. cbn in Hu. destruct (TaskStates i !! Name v); [|done].
  destruct (_ && _); [|done]. injection E as -> _. done.
Qed.

(** C33: after a failure the completed tasks that have a compensation are
    compensated in reverse order of completion (sorted by finishing time,
    latest first), up to and including the first one that is an event.  The
    calls that are made are those of these compensations, one after the other:
    an event is published with its topic and the names of instance and task,
    an http address is called, and anything else needs no call; each task ends
    with the outcome of its own: compensated (an event: compensating), or
    failed when the call or the action failed.  The log records the
    compensations in this order, and all other tasks are left as they were.
    The names of the tasks are to be distinct. *)
Theorem rollback_in_reverse_order def i im (w : W) :
  NoDup (Name <$> Tasks def) ->
  exists s' order calls, RollbackSaga (World0 := traced_world wd) def (mkR i im (w, [])) = Some (tt, s') /\
    order ≡ₚ to_compensate def i /\ StronglySorted later_first order /\
    (world s').2 = concat calls /\ compensated_all (fst <$> order) calls i (inst s').
Proof.
  intros Hnd. destruct (exchange_sort_spec (length (to_compensate def i)) (to_compensate def i) ltac:(done)) as [Hp Hs].
  set (order := exchange_sort _ _) in *.
  assert (H : wpt (RollbackSaga def) i [] (fun _ i' tr => exists cs, tr = [] ++ concat cs /\ compensated_all (fst <$> order) cs i i')).
  { unfold RollbackSaga. apply wpt_bind, wpt_get, wpt_compensate_all.
    - fold order. rewrite Hp. by apply to_compensate_nodup.
    - fold order. rewrite Hp, Forall_forall. intros [t z] Hin. destruct (to_compensate_spec _ _ _ _ Hin) as (_ & s & Hts & Hc & _). eauto. }
  destruct (H im w) as ([] & s' & E & cs & Htr & Hall). by exists s', order, cs.
Qed.
End Saga.

(** The last of three tasks fails; the refund is an http call, the
    cancellation of the order an event. *)
Definition failing_calls : WorkflowDef := mkDef "f"
  [plain_task "order" [] "mock" "event://orders.cancel"; plain_task "pay" ["order"] "mock" "http://bank/refund";
   plain_task "ship" ["pay"] "fail" "recall"].

Definition failed_with_calls : WorkflowInstance :=
  match RunWorkflow (World0 := quiet_world) failing_calls (mkR (fresh failing_calls) ∅ 1) with Some (_, s) => inst s | None => fresh failing_calls end.

Lemma rollback_in_reverse_order_witness :
  (exists s' calls, RollbackSaga (World0 := traced_world quiet_world) failing_calls (mkR failed_with_calls ∅ (50, [])) = Some (tt, s') /\ (world s').2 = concat calls) /\
  match RollbackSaga (World0 := traced_world quiet_world) failing_calls (mkR failed_with_calls ∅ (50, [])) with
  | Some (_, s) => (world s).2 = [Asked (PostAction "http://bank/refund") (RStatus 200);
                                  Published "localhost:8082" "/topic/orders.cancel" (event_payload "inst-1" (plain_task "order" [] "" "")) None]
  | None => False
  end /\ inst_Status failed_with_calls = "failed".
Proof.
  split; [|vm_compute; split; reflexivity].
  destruct (rollback_in_reverse_order (wd := quiet_world) failing_calls failed_with_calls ∅ 50) as (s' & order & calls & Hr & _ & _ & Hc & _).
  - apply (bool_decide_unpack _). vm_compute. exact I.
  - exists s', calls. exact (conj Hr Hc).
Defined.
