(* ===== verification/WorkflowHandlers.v ===== *)
(** * The HTTP handlers of the workflow service ([flow/pkg/handlers/handlers.go])

    A handler takes the request, already decoded ([None]: the body is not
    valid JSON), and answers with a status and a body; the goroutines it
    starts are listed, to be run by [run_job].  Definitions, instances and the
    world are its state.  A handler that panics returns [None]. *)

From stdpp Require Import relations.
From S2P Require Import Prelude GoStrings Migration WorkflowDag Workflow WorkflowFacts WorkflowProps WorkflowLive.
Local Open Scope string_scope.
Local Open Scope list_scope.
Local Open Scope Z_scope.

Record Request (A : Type) := mkReq { Method : string; Body : option A; req_Traceparent : string }.
Arguments mkReq {A} Method Body req_Traceparent.
Arguments Method {A} r.
Arguments Body {A} r.
Arguments req_Traceparent {A} r.

Inductive response_body :=
  | BError (msg code : string)
  | BFields (fields : list (string * string))
  | BDef (def : WorkflowDef)
  | BInst (i : WorkflowInstance)
  | BInsts (l : list WorkflowInstance)
  | BMermaid (s : string).

Record Response := mkResp { code : Z; content : response_body }.

(** The error codes of [httpError]. *)
Definition errorCode (status : Z) : string :=
  if status =? 405 then "ERR_METHOD_NOT_ALLOWED"
  else if status =? 400 then "ERR_BAD_REQUEST"
  else if status =? 401 then "ERR_UNAUTHORIZED"
  else if status =? 403 then "ERR_FORBIDDEN"
  else if status =? 404 then "ERR_NOT_FOUND"
  else if status =? 409 then "ERR_CONFLICT"
  else if status =? 501 then "ERR_NOT_IMPLEMENTED"
  else "ERR_INTERNAL_SERVER_ERROR".

Definition httpError (msg : string) (status : Z) : Response := mkResp status (BError msg (errorCode status)).

(** Goroutines started by a handler. *)
Inductive job :=
  | JRun (instanceID : string) (def : WorkflowDef)
  | JRollback (instanceID : string) (def : WorkflowDef).

(** What a store adds to the world of the engine. *)
Class Persistence (W : Type) := {
  SaveDefinitions : gmap string WorkflowDef -> W -> W;
  EnterpriseLoadCheckpoint : string -> W -> option (string + string);
  client_Get : string -> string -> W -> string + string;
  ReadFile : string -> W -> string + string;
  Unmarshal : string -> string + WorkflowInstance }.

Section Handlers.
Context {W : Type} `{!World W, !Persistence W}.

Record HandlerContext := mkCtx {
  Definitions : gmap string WorkflowDef;
  Instances : gmap string WorkflowInstance;
  ctx_world : W }.

Definition answer : Type := Response * list job * HandlerContext.

Definition refuse (ctx : HandlerContext) (msg : string) (status : Z) : answer := (httpError msg status, [], ctx).

(** Running engine code on the instance found under a key, which is shared
    with the table. *)
Definition on_instance {A} (key : string) (i : WorkflowInstance) (m : EM W A) (ctx : HandlerContext) :
    option (A * WorkflowInstance * HandlerContext) :=
  match m (mkR i (Instances ctx) (ctx_world ctx)) with
  | None => None
  | Some (a, s) => Some (a, inst s, mkCtx (Definitions ctx) (<[key := inst s]> (instances s)) (world s))
  end.

Definition ctx_now (ctx : HandlerContext) : Z * HandlerContext :=
  let '(t, w) := time_Now (ctx_world ctx) in (t, mkCtx (Definitions ctx) (Instances ctx) w).

Definition SaveDefinitionsToStore (ctx : HandlerContext) : HandlerContext :=
  if has_store then mkCtx (Definitions ctx) (Instances ctx) (SaveDefinitions (Definitions ctx) (ctx_world ctx)) else ctx.

Definition HandleDefine (r : Request WorkflowDef) (ctx : HandlerContext) : answer :=
  if negb (bool_decide (Method r = "POST")) then refuse ctx "Method Not Allowed" 405 else
  match Body r with
  | None => refuse ctx "Invalid payload" 400
  | Some def =>
      if bool_decide (ID def = "") || bool_decide (length (Tasks def) = 0%nat)
      then refuse ctx "Workflow ID and tasks are required" 400
      else if HasCycle def then (mkResp 400 (BFields [("error", "Cyclic dependency detected")]), [], ctx)
      else
        (mkResp 201 (BDef def), [],
         SaveDefinitionsToStore (mkCtx (<[ID def := def]> (Definitions ctx)) (Instances ctx) (ctx_world ctx)))
  end.

(** [taskStates[task.Name] = &TaskStatus{...}] for every task. *)
Definition pending_states (named : bool) (tasks : list Task) : gmap string TaskStatus :=
  foldl (fun m t => <[Name t := mkTS (if named then Name t else "") "pending" 0 0 "" ""]> m) ∅ tasks.

Definition HandleExecute (r : Request string) (ctx : HandlerContext) : answer :=
  if negb (bool_decide (Method r = "POST")) then refuse ctx "Method Not Allowed" 405 else
  match Body r with
  | None => refuse ctx "Invalid payload" 400
  | Some workflowID =>
      match Definitions ctx !! workflowID with
      | None => refuse ctx "Workflow definition not found" 404
      | Some def =>
          let '(nano, ctx) := ctx_now ctx in
          let instanceID := "inst-" +:+ FormatInt nano in
          let '(t0, ctx) := ctx_now ctx in
          let i := mkInst instanceID workflowID "running" (pending_states true (Tasks def)) t0 0
                     ["Workflow " +:+ workflowID +:+ " started."] [] (req_Traceparent r) in
          (mkResp 202 (BInst i), [JRun instanceID def],
           mkCtx (Definitions ctx) (<[instanceID := i]> (Instances ctx)) (ctx_world ctx))
      end
  end.

(** The checkpoint of an instance: the hook, the store, then the file. *)
Definition load_checkpoint (instanceID : string) (w : W) : string + string :=
  match EnterpriseLoadCheckpoint instanceID w with
  | Some r => r
  | None =>
      let stateFile := instanceID +:+ ".state" in
      let first := if has_store && has_client then client_Get "pranor-flow-state" stateFile w else inr "" in
      match first with
      | inr (String _ _ as data) => inr data
      | _ => ReadFile stateFile w
      end
  end.

Definition retry_failed (ts : TaskStatus) : TaskStatus :=
  if bool_decide (Status ts = "failed") then ts_set_error "" (ts_set_status "pending" ts) else ts.

Definition HandleResume (r : Request string) (ctx : HandlerContext) : answer :=
  if negb (bool_decide (Method r = "POST")) then refuse ctx "Method Not Allowed" 405 else
  match Body r with
  | None => refuse ctx "Invalid payload" 400
  | Some instanceID =>
      match load_checkpoint instanceID (ctx_world ctx) with
      | inl e => refuse ctx ("State checkpoint not found: " +:+ e) 404
      | inr data =>
          match Unmarshal data with
          | inl e => refuse ctx ("Failed to unmarshal state checkpoint: " +:+ e) 500
          | inr i =>
              match Definitions ctx !! WorkflowID i with
              | None => refuse ctx "Workflow definition not found" 404
              | Some def =>
                  let i := if bool_decide (req_Traceparent r = "") then i
                           else mkInst (inst_ID i) (WorkflowID i) (inst_Status i) (TaskStates i) (StartedAt i) (FinishedAt i)
                                  (Logs i) (ReplayLog i) (req_Traceparent r) in
                  let isCompensating := existsb (fun kv => bool_decide (Status kv.2 = "compensating")) (map_to_list (TaskStates i)) in
                  let '(i, j) :=
                    if isCompensating
                    then (set_inst_status "failed" (add_log "Resuming saga rollback execution from checkpoint." i), JRollback (inst_ID i) def)
                    else (set_states (retry_failed <$> TaskStates i)
                            (add_log "Workflow execution resumed from checkpoint." (set_inst_status "running" i)), JRun (inst_ID i) def) in
                  (mkResp 200 (BInst i), [j], mkCtx (Definitions ctx) (<[inst_ID i := i]> (Instances ctx)) (ctx_world ctx))
              end
          end
      end
  end.

(** [ctx.Definitions[id]]: the zero definition when there is none. *)
Definition definition_of (ctx : HandlerContext) (id : string) : WorkflowDef := default (mkDef "" []) (Definitions ctx !! id).

(** The rejection loop, from the last task to the first. *)
Fixpoint reject_tasks (tasks : list Task) : EM W unit :=
  match tasks with
  | [] => mret tt
  | t :: tasks =>
      i ← get;
      match TaskStates i !! Name t with
      | None => panic
      | Some ts =>
          (if bool_decide (Status ts = "completed") && negb (bool_decide (CompensateAction t = "")) then
             modify (add_log ("[SAGA] Executing compensation rollback for task " +:+ Name t +:+ ": " +:+ CompensateAction t));;
             modify (on_state (Name t) (ts_set_status "compensated"))
           else mret tt);;
          reject_tasks tasks
      end
  end.

Record ApproveRequest := mkApprove { ap_InstanceID : string; ap_TaskName : string; ap_Decision : string }.

(** What the decision does to the instance. *)
Definition decide_approval (taskName : string) (approved : bool) : EM W unit :=
  (if approved then
     modify (on_state taskName (ts_set_status "completed"));;
     modify (set_inst_status "running");;
     modify (add_log ("Task " +:+ taskName +:+ " approved manually. Resuming workflow..."))
   else
     modify (on_state taskName (fun ts => ts_set_error "Manual approval rejected" (ts_set_status "failed" ts)));;
     modify (set_inst_status "failed");;
     modify (add_log ("Task " +:+ taskName +:+ " rejected manually. Initiating Saga compensations...")));;
  SaveCheckpoint.

Definition HandleApprove (r : Request ApproveRequest) (ctx : HandlerContext) : option answer :=
  if negb (bool_decide (Method r = "POST")) then Some (refuse ctx "Method Not Allowed" 405) else
  match Body r with
  | None => Some (refuse ctx "Invalid payload" 400)
  | Some req =>
      match Instances ctx !! ap_InstanceID req with
      | None => Some (refuse ctx "Instance not found" 404)
      | Some i =>
          match TaskStates i !! ap_TaskName req with
          | Some ts =>
              if bool_decide (Status ts = "pending_approval") then
                let approved := bool_decide (ap_Decision req = "approve") in
                '(_, i, ctx) ← on_instance (ap_InstanceID req) i (decide_approval (ap_TaskName req) approved) ctx;
                let def := definition_of ctx (WorkflowID i) in
                if approved then Some (mkResp 200 (BInst i), [JRun (ap_InstanceID req) def], ctx)
                else
                  '(_, i, ctx) ← on_instance (ap_InstanceID req) i
                    ((t ← now; modify (set_finished t));; reject_tasks (rev (Tasks def));; SaveCheckpoint) ctx;
                  Some (mkResp 200 (BInst i), [], ctx)
              else Some (refuse ctx "Task is not pending approval" 400)
          | None => Some (refuse ctx "Task is not pending approval" 400)
          end
      end
  end.

Definition HandleHistory (r : Request unit) (ctx : HandlerContext) : answer :=
  if negb (bool_decide (Method r = "GET")) then refuse ctx "Method Not Allowed" 405 else
  (mkResp 200 (BInsts (List.filter (fun i => bool_decide (inst_Status i = "completed") || bool_decide (inst_Status i = "failed"))
     (snd <$> map_to_list (Instances ctx)))), [], ctx).

Definition HandleReplay (r : Request string) (ctx : HandlerContext) : answer :=
  if negb (bool_decide (Method r = "POST")) then refuse ctx "Method Not Allowed" 405 else
  match Body r with
  | None => refuse ctx "Invalid payload" 400
  | Some instanceID =>
      match Instances ctx !! instanceID with
      | None => refuse ctx "Original instance not found" 404
      | Some old =>
          match Definitions ctx !! WorkflowID old with
          | None => refuse ctx "Workflow definition not found" 404
          | Some def =>
              let '(nano, ctx) := ctx_now ctx in
              let newID := "inst-" +:+ FormatInt nano +:+ "-replay" in
              let '(t0, ctx) := ctx_now ctx in
              let i := mkInst newID (WorkflowID old) "running" (pending_states false (Tasks def)) t0 0
                         ["Workflow replay of " +:+ instanceID +:+ " initialized."] [] (req_Traceparent r) in
              (mkResp 201 (BInst i), [JRun newID def],
               mkCtx (Definitions ctx) (<[newID := i]> (Instances ctx)) (ctx_world ctx))
          end
      end
  end.

Definition HandleValidate (r : Request WorkflowDef) (ctx : HandlerContext) : answer :=
  if negb (bool_decide (Method r = "POST")) then refuse ctx "Method Not Allowed" 405 else
  match Body r with
  | None => refuse ctx "Invalid payload" 400
  | Some def =>
      if HasCycle def then (mkResp 400 (BFields [("valid", "false"); ("error", "Cyclic dependency detected")]), [], ctx)
      else (mkResp 200 (BFields [("valid", "true")]), [], ctx)
  end.

Definition visualize_task (t : Task) : string :=
  match DependsOn t with
  | [] => "    " +:+ Name t +:+ str [nl]
  | deps => foldl (fun s dep => s +:+ "    " +:+ dep +:+ " --> " +:+ Name t +:+ str [nl]) "" deps
  end.

Definition HandleVisualize (r : Request WorkflowDef) (ctx : HandlerContext) : answer :=
  if negb (bool_decide (Method r = "POST")) then refuse ctx "Method Not Allowed" 405 else
  match Body r with
  | None => refuse ctx "Invalid payload" 400
  | Some def =>
      (mkResp 200 (BMermaid (foldl (fun s t => s +:+ visualize_task t) ("graph TD" +:+ str [nl]) (Tasks def))), [], ctx)
  end.

Record CompensateRequest := mkComp { cc_InstanceID : string; cc_TaskName : string; cc_Status : string; cc_Error : string }.

Definition record_compensation (req : CompensateRequest) : EM W unit :=
  (if bool_decide (cc_Status req = "success") then
     modify (on_state (cc_TaskName req) (ts_set_status "compensated"));;
     modify (add_log ("[SAGA] Compensation succeeded asynchronously for task " +:+ cc_TaskName req))
   else
     modify (on_state (cc_TaskName req) (fun ts => ts_set_error (cc_Error req) (ts_set_status "failed" ts)));;
     modify (add_log ("[SAGA] Compensation failed asynchronously for task " +:+ cc_TaskName req +:+ ": " +:+ cc_Error req)));;
  SaveCheckpoint.

Definition HandleCompensateComplete (r : Request CompensateRequest) (ctx : HandlerContext) : option answer :=
  if negb (bool_decide (Method r = "POST")) then Some (refuse ctx "Method Not Allowed" 405) else
  match Body r with
  | None => Some (refuse ctx "Invalid payload" 400)
  | Some req =>
      match Instances ctx !! cc_InstanceID req with
      | None => Some (refuse ctx "Instance not found" 404)
      | Some i =>
          match TaskStates i !! cc_TaskName req with
          | Some ts =>
              if bool_decide (Status ts = "compensating") then
                '(_, i, ctx) ← on_instance (cc_InstanceID req) i (record_compensation req) ctx;
                Some (mkResp 200 (BFields [("status", "ok")]), [JRollback (cc_InstanceID req) (definition_of ctx (WorkflowID i))], ctx)
              else Some (refuse ctx "Task is not in compensating state" 400)
          | None => Some (refuse ctx "Task is not in compensating state" 400)
          end
      end
  end.

(** ** Generated workflows *)

(** [strings.Split(s, "->")]. *)
Fixpoint split_arrows (fuel : nat) (s : bytes) : list bytes :=
  match fuel with
  | O => [s]
  | S fuel => match bytes_Cut s (byt "->") with
              | None => [s]
              | Some (b, a) => b :: split_arrows fuel a
              end
  end.

Definition classify_action : string :=
  let q := str [quote] in
  "ai.classify(" +:+ q +:+ "input context" +:+ q +:+ ", [" +:+ q +:+ "approve" +:+ q +:+ ", " +:+ q +:+ "review" +:+ q +:+ ", " +:+
  q +:+ "reject" +:+ q +:+ "])".

(** The loop over the parts; [prev] is the part before, trimmed. *)
Fixpoint generate_tasks (prev : option string) (parts : list bytes) : list Task :=
  match parts with
  | [] => []
  | part :: parts =>
      let name := TrimSpace (str part) in
      if bool_decide (name = "") then generate_tasks (Some name) parts
      else
        let deps := match prev with Some p => if bool_decide (p = "") then [] else [p] | None => [] end in
        let action := if Contains (ToLower name) "classify" || Contains (ToLower name) "check" then classify_action else "mock-success" in
        mkTask name deps action "" 0 0 :: generate_tasks (Some name) parts
  end.

Definition HandleGenerate (r : Request string) (ctx : HandlerContext) : answer :=
  if negb (bool_decide (Method r = "POST")) then refuse ctx "Method Not Allowed" 405 else
  match Body r with
  | None => refuse ctx "Invalid payload" 400
  | Some prompt =>
      if bool_decide (prompt = "") then refuse ctx "Prompt is required" 400 else
      let promptClean := match bytes_Cut (byt prompt) (byt ":") with Some (_, a) => a | None => byt prompt end in
      match generate_tasks None (split_arrows (length promptClean) promptClean) with
      | [] => refuse ctx "Could not extract any tasks from prompt" 400
      | tasks =>
          let def := mkDef "generated-workflow" tasks in
          (mkResp 200 (BDef def), [],
           SaveDefinitionsToStore (mkCtx (<["generated-workflow" := def]> (Definitions ctx)) (Instances ctx) (ctx_world ctx)))
      end
  end.

(** ** Goroutines *)

(** A job runs the engine on the instance in the table; the goroutines it
    leaves are its own. *)
Definition run_job (j : job) (ctx : HandlerContext) : option (list spawn * HandlerContext) :=
  match j with
  | JRun id def =>
      i ← Instances ctx !! id;
      '(sp, _, ctx) ← on_instance id i (RunWorkflow def) ctx;
      Some (sp, ctx)
  | JRollback id def =>
      i ← Instances ctx !! id;
      '(_, _, ctx) ← on_instance id i (RollbackSaga def) ctx;
      Some ([], ctx)
  end.
End Handlers.
Arguments HandlerContext W : clear implicits.

(** ** The workflow service end to end *)

Lemma pending_states_lookup named tasks k :
  pending_states named tasks !! k =
    if bool_decide (k ∈ Name <$> tasks) then Some (mkTS (if named then k else "") "pending" 0 0 "" "") else None.
Proof.
  unfold pending_states.
  assert (H : forall m : gmap string TaskStatus, foldl (fun m t => <[Name t := mkTS (if named : bool then Name t else "") "pending" 0 0 "" ""]> m) m tasks !! k =
    if bool_decide (k ∈ Name <$> tasks) then Some (mkTS (if named then k else "") "pending" 0 0 "" "") else m !! k).
  { induction tasks as [|t tasks IH]; intros m; cbn [foldl fmap list_fmap]; [by rewrite bool_decide_false by apply not_elem_of_nil|].
    rewrite IH. destruct (decide (k ∈ Name <$> tasks)) as [Hin|Hn].
    - rewrite !bool_decide_true by (by try right). done.
    - rewrite (bool_decide_false (k ∈ Name <$> tasks)) by done. destruct (decide (k = Name t)) as [->|Hne].
      + rewrite bool_decide_true by left. by rewrite lookup_insert_eq.
      + rewrite bool_decide_false by (rewrite not_elem_of_cons; done). by rewrite lookup_insert_ne. }
  apply H.
Qed.

Section Service.
Context {W : Type} `{!World W, !Persistence W}.
Hypothesis http_ok : forall r (w : W), (http_Do r w).1 = RStatus 200.
Hypothesis timers_ok : forall d (w : W), (timer_first d w).1 = false.

(** An accepted definition is stored. *)
Lemma HandleDefine_accepts def tp (ctx ctx1 : HandlerContext W) resp jobs :
  HandleDefine (mkReq "POST" (Some def) tp) ctx = (resp, jobs, ctx1) -> code resp = 201 ->
  HasCycle def = false /\ Definitions ctx1 !! ID def = Some def.
Proof.
  unfold HandleDefine. cbn. rewrite bool_decide_true by done. cbn. destruct (_ || _); [intros [= <- _ _] H; discriminate H|].
  destruct (HasCycle def); [intros [= <- _ _] H; discriminate H|]. intros [= _ _ <-] _. split; [done|].
  unfold SaveDefinitionsToStore. destruct has_store; cbn; apply lookup_insert_eq.
Qed.

(** C18: once a definition has been accepted (status 201), executing it is
    accepted (202) and starts a run that leaves the new instance completed,
    with every task of the definition completed: when the names of its tasks
    are distinct and its dependencies are tasks of it, neither of which the
    definition is refused for, when its actions succeed, its services answer
    and it needs no branches or approvals. *)
Theorem defined_workflow_completes def tp tp' (ctx ctx1 : HandlerContext W) resp jobs :
  NoDup (Name <$> Tasks def) -> Forall (good_task def) (Tasks def) ->
  HandleDefine (mkReq "POST" (Some def) tp) ctx = (resp, jobs, ctx1) -> code resp = 201 ->
  exists i ctx2 ctx3 i',
    HandleExecute (mkReq "POST" (Some (ID def)) tp') ctx1 = (mkResp 202 (BInst i), [JRun (inst_ID i) def], ctx2) /\
    run_job (JRun (inst_ID i) def) ctx2 = Some ([], ctx3) /\
    Instances ctx3 !! inst_ID i = Some i' /\ inst_Status i' = "completed" /\
    forall t, t ∈ Tasks def -> exists ts, TaskStates i' !! Name t = Some ts /\ Status ts = "completed".
Proof using http_ok timers_ok.
  intros Hnd Hgood Hdef Hcode. destruct (HandleDefine_accepts _ _ _ _ _ _ Hdef Hcode) as [Hacyc Hlook].
  unfold HandleExecute. cbn [Method Body]. rewrite bool_decide_true by done. cbn [negb]. rewrite Hlook.
  unfold ctx_now. destruct (time_Now (ctx_world ctx1)) as [nano w1] eqn:E1. cbn [ctx_world Definitions Instances].
  destruct (time_Now w1) as [t0 w2] eqn:E2. cbn [Definitions Instances ctx_world]. set (i := mkInst _ _ _ _ _ _ _ _ _).
  destruct (run_completes def http_ok timers_ok i (<["inst-" +:+ FormatInt nano := i]> (Instances ctx1)) w2) as (s' & Hrun & Hst & Hall);
    [done|done|done| | |done|].
  - apply set_eq. intros k. rewrite elem_of_dom. cbn. rewrite pending_states_lookup, elem_of_list_to_set.
    case_bool_decide; [by split; eauto|]. split; [by intros []|done].
  - intros k ts Hk. cbn in Hk. rewrite pending_states_lookup in Hk. case_bool_decide; [|done]. injection Hk as <-. left.
  - eexists i, _, _, (inst s'). split; [reflexivity|]. unfold run_job. cbn [Instances inst_ID i].
    rewrite lookup_insert_eq. cbn [mbind option_bind]. unfold on_instance. cbn [ctx_world Instances]. rewrite Hrun.
    cbn [mbind option_bind]. split; [reflexivity|]. cbn. rewrite lookup_insert_eq. done.
Qed.
End Service.

Definition quiet_store : Persistence Z := {|
  SaveDefinitions := fun _ w => w;
  EnterpriseLoadCheckpoint := fun _ _ => None;
  client_Get := fun _ _ _ => inl "no client";
  ReadFile := fun _ _ => inl "no file";
  Unmarshal := fun _ => inl "no data" |}.

Definition empty_service : HandlerContext Z := mkCtx ∅ ∅ 7.

Lemma diamond_good : NoDup (Name <$> Tasks diamond) /\ Forall (good_task diamond) (Tasks diamond).
Proof.
  split; [apply (bool_decide_unpack _); vm_compute; exact I|].
  repeat constructor; try (vm_compute; congruence); apply (bool_decide_unpack _); vm_compute; exact I.
Qed.

Lemma defined_workflow_completes_witness :
  exists i ctx2 ctx3 i',
    HandleExecute (World0 := quiet_world) (mkReq "POST" (Some "d") "")
      (HandleDefine (World0 := quiet_world) (Persistence0 := quiet_store) (mkReq "POST" (Some diamond) "") empty_service).2
      = (mkResp 202 (BInst i), [JRun (inst_ID i) diamond], ctx2) /\
    run_job (World0 := quiet_world) (JRun (inst_ID i) diamond) ctx2 = Some ([], ctx3) /\
    Instances ctx3 !! inst_ID i = Some i' /\ inst_Status i' = "completed".
Proof.
  destruct (defined_workflow_completes (World0 := quiet_world) (Persistence0 := quiet_store) (fun _ _ => eq_refl) (fun _ _ => eq_refl)
    diamond "" "" empty_service
    (HandleDefine (World0 := quiet_world) (Persistence0 := quiet_store) (mkReq "POST" (Some diamond) "") empty_service).2
    (mkResp 201 (BDef diamond)) [])
    as (i & ctx2 & ctx3 & i' & He & Hr & Hi & Hs & _).
  - apply diamond_good.
  - apply diamond_good.
  - vm_compute. reflexivity.
  - reflexivity.
  - exists i, ctx2, ctx3, i'. by repeat split.
Defined.

(** [HandleGenerate] stores workflows without the cycle check: the prompt
    "a -> b -> a" is answered 200, and what it stores [HandleDefine] would
    refuse. *)
Example generate_stores_a_cycle :
  let '(resp, _, ctx) := HandleGenerate (World0 := quiet_world) (Persistence0 := quiet_store)
    (mkReq "POST" (Some "loop: a -> b -> a") "") empty_service in
  code resp = 200 /\ HasCycle <$> Definitions ctx !! "generated-workflow" = Some true.
Proof. vm_compute. split; reflexivity. Qed.

(** The cycle check compares dependencies as they are written, while the
    engine takes "b:yes" to be a dependency on "b": two tasks that wait for a
    branch of each other are accepted, and their run is aborted. *)
Example branch_cycle_accepted :
  let def := mkDef "x" [plain_task "a" ["b:yes"] "mock" ""; plain_task "b" ["a:yes"] "mock" ""] in
  HasCycle def = false /\
  match RunWorkflow (World0 := quiet_world) def (mkR (fresh def) ∅ 1) with
  | Some (_, s) => inst_Status (inst s) = "failed"
  | None => False
  end.
Proof. vm_compute. split; reflexivity. Qed.

(** A world in which another node holds the lock of every task. *)
Definition locked_world : World Z := {|
  time_Now := fun w => (w, w + 1);
  http_Do := fun _ w => (RStatus 409, w);
  timer_first := fun _ w => (false, w);
  PublishStompMessage := fun _ _ _ w => (None, w);
  Getenv := fun _ => "http://lock";
  node_owner := "node/2";
  Marshal := fun i => Some (inst_ID i);
  EnterpriseSaveCheckpoint := fun _ _ w => (false, w);
  has_store := false;
  has_client := false;
  client_Put := fun _ _ _ w => w;
  WriteFile := fun _ _ w => w;
  SaveInstances := fun _ w => w |}.

(** A node that finds the task locked by another node aborts the workflow as
    if it had a cycle. *)
Example gated_run_aborts :
  let def := mkDef "x" [plain_task "a" [] "mock" ""] in
  match RunWorkflow (World0 := locked_world) def (mkR (fresh def) ∅ 1) with
  | Some (_, s) => inst_Status (inst s) = "failed" /\ last (Logs (inst s)) = Some "Cycle detected in DAG definition. Workflow aborted."
  | None => False
  end.
Proof. vm_compute. split; reflexivity. Qed.

(** A rejected approval marks the completed tasks as compensated and logs the
    compensations without running them: the world is asked for the time only,
    where [RollbackSaga] calls the service. *)
Example rejection_runs_nothing :
  let def := mkDef "x" [plain_task "pay" [] "mock" "http://refund"; plain_task "ok" ["pay"] "approval" ""] in
  match RunWorkflow (World0 := quiet_world) def (mkR (fresh def) ∅ 1) with
  | Some (_, s) =>
      match HandleApprove (World0 := quiet_world) (mkReq "POST" (Some (mkApprove "inst-1" "ok" "no")) "")
              (mkCtx {["x" := def]} {["inst-1" := inst s]} (world s)) with
      | Some (resp, jobs, ctx) =>
          code resp = 200 /\ jobs = [] /\
          (i ← Instances ctx !! "inst-1"; ts ← TaskStates i !! "pay"; Some (Status ts)) = Some "compensated"
      | None => False
      end
  | None => False
  end.
Proof. vm_compute. repeat split; reflexivity. Qed.
