(* ===== verification/TypeCheck.v ===== *)
(** * The type checker of the language ([lang/compiler/analyze_typecheck.go],
      [symbol_table.go])

    Types are strings, as the parser leaves them: "int", "string?", "A | B".
    The checks walk statements and return diagnostics.  Where the source
    ranges over a map of fields, the diagnostics here are in the order of the
    literal. *)

From S2P Require Import Prelude GoStrings Tokens Ast.
Local Open Scope string_scope.
Local Open Scope list_scope.

Record Diagnostic := mkDiag { diag_Line : Z; diag_Col : Z; Severity : string; diag_Message : string }.

Definition error_at (tok : Token) (msg : string) : Diagnostic := mkDiag (Line tok) (Col tok) "error" msg.

(** ** Symbol table: the chain of scopes from the current one outwards *)

Record Symbol := mkSym { sym_Name : string; sym_Type : string; DataType : string }.

Definition Scope : Type := list (gmap string Symbol).

Definition NewScope (parent : Scope) : Scope := ∅ :: parent.

(** A name that is already in the innermost scope is left as it is. *)
Definition Insert (sym : Symbol) (s : Scope) : Scope :=
  match s with
  | [] => []
  | sc :: s => match sc !! sym_Name sym with Some _ => sc :: s | None => <[sym_Name sym := sym]> sc :: s end
  end.

Fixpoint Lookup (s : Scope) (name : string) : option Symbol :=
  match s with
  | [] => None
  | sc :: s => match sc !! name with Some sym => Some sym | None => Lookup s name end
  end.

(** ** Types *)

Definition inferLiteralType (e : expr) : string :=
  match e with
  | IntegerLiteral _ _ => "int"
  | FloatLiteral _ _ => "float"
  | StringLiteral _ _ | FStringLiteral _ _ => "string"
  | BooleanLiteral _ _ => "bool"
  | NilLiteral _ => "nil"
  | _ => ""
  end.

Definition is_union (t : string) : bool := ContainsByte t "|".

Definition members (t : string) : list string := TrimSpace <$> Split t "|".

(** The cases before the union of [typesCompatible], and those after it. *)
Definition compatible_nil (expected : string) : bool :=
  if HasSuffix expected "?" then true
  else if is_union expected then true
  else if bool_decide (expected ∈ ["int"; "float"; "string"; "bool"]) then false
  else true.

Definition compatible_rest (actual expected : string) : bool :=
  if bool_decide (expected = "float") && bool_decide (actual = "int") then true
  else if bool_decide (expected = "error") && bool_decide (actual = "string") then true
  else if bool_decide (expected = "any") || bool_decide (expected = "") then true
  else false.

(** Members of a union hold no "|", so the recursion is one level deep:
    [typesCompatible_unfold]. *)
Fixpoint compatible (fuel : nat) (actual expected : string) : bool :=
  if bool_decide (actual = expected) then true
  else if bool_decide (actual = "nil") then compatible_nil expected
  else if HasSuffix expected "?" && bool_decide (actual = TrimSuffix expected "?") then true
  else if is_union expected then
    match fuel with
    | O => false
    | S fuel => existsb (compatible fuel actual) (members expected)
    end
  else compatible_rest actual expected.

Definition typesCompatible (actual expected : string) : bool := compatible 1 actual expected.

Definition inferExpressionType (e : expr) (s : Scope) (program : Program) : string :=
  match e with
  | IntegerLiteral _ _ => "int"
  | FloatLiteral _ _ => "float"
  | StringLiteral _ _ | FStringLiteral _ _ => "string"
  | BooleanLiteral _ _ => "bool"
  | NilLiteral _ => "nil"
  | Identifier _ x => match Lookup s x with Some sym => DataType sym | None => "" end
  | CallExpr _ (Identifier _ f) _ _ =>
      match List.find (fun st => match st with FnDecl _ h _ => bool_decide (fn_name h = f) | _ => false end) (Statements program) with
      | Some (FnDecl _ h _) => fn_returnType h
      | _ => ""
      end
  | _ => ""
  end.

(** ** Variables *)

Definition quoted (s : string) : string := "'" +:+ s +:+ "'".

(** Checked types: neither unknown nor dynamic. *)
Definition is_known (t : string) : bool := negb (bool_decide (t = "")) && negb (bool_decide (t = "interface{}")).

Section Walk.
Context (fn : FnHead) (program : Program).

(** The part of [walk] on a [let]. *)
Definition walk_let (tok : Token) (name type_ : string) (value : expr) (s : Scope) : list Diagnostic * Scope :=
  let inferred := inferExpressionType value s program in
  if bool_decide (type_ = "") then
    ([], Insert (mkSym name "variable" (if bool_decide (inferred = "") then "interface{}" else inferred)) s)
  else
    ((if is_known inferred && negb (typesCompatible inferred type_)
      then [error_at tok ("cannot assign type " +:+ quoted inferred +:+ " to variable " +:+ quoted name +:+ " of declared type " +:+ quoted type_)]
      else []),
     Insert (mkSym name "variable" type_) s).

Definition walk_assign (tok : Token) (name : string) (value : expr) (s : Scope) : list Diagnostic :=
  match Lookup s name with
  | Some sym =>
      let inferred := inferExpressionType value s program in
      if is_known (DataType sym) && is_known inferred && negb (typesCompatible inferred (DataType sym))
      then [error_at tok ("cannot assign type " +:+ quoted inferred +:+ " to variable " +:+ quoted name +:+ " of type " +:+ quoted (DataType sym))]
      else []
  | None => []
  end.

Definition returns_checked : bool := negb (bool_decide (fn_returnType fn ∈ [""; "any"; "nil"])).

Definition walk_return (tok : Token) (value : expr) (s : Scope) : list Diagnostic :=
  if returns_checked then
    match value with
    | ENil => [error_at tok ("function " +:+ quoted (fn_name fn) +:+ " expects return type " +:+ quoted (fn_returnType fn) +:+ ", got empty return")]
    | _ =>
        let inferred := inferExpressionType value s program in
        if is_known inferred && negb (typesCompatible inferred (fn_returnType fn))
        then [error_at tok ("function " +:+ quoted (fn_name fn) +:+ " expects return type " +:+ quoted (fn_returnType fn) +:+ ", got " +:+ quoted inferred)]
        else []
    end
  else [].

Section WalkList.
Context (walk_stmt : stmt -> Scope -> list Diagnostic * Scope).
Fixpoint walk_list (ss : list stmt) (s : Scope) : list Diagnostic * Scope :=
  match ss with
  | [] => ([], s)
  | st :: ss => let '(d, s) := walk_stmt st s in let '(d', s) := walk_list ss s in (d ++ d', s)
  end.
End WalkList.

Fixpoint walk_stmt (st : stmt) (s : Scope) : list Diagnostic * Scope :=
  match st with
  | LetStmt tok name _ type_ value => walk_let tok name type_ value s
  | ExprStmt _ (AssignExpr tok name value) => (walk_assign tok name value s, s)
  | ReturnStmt tok value => (walk_return tok value s, s)
  | IfStmt _ _ b eb =>
      ((match b with Block _ ss => (walk_list walk_stmt ss (NewScope s)).1 | NoBlock => [] end) ++
       (match eb with Block _ ss => (walk_list walk_stmt ss (NewScope s)).1 | NoBlock => [] end), s)
  | ForStmt _ _ _ _ _ b =>
      (match b with Block _ ss => (walk_list walk_stmt ss (NewScope s)).1 | NoBlock => [] end, s)
  | _ => ([], s)
  end.
End Walk.

(** The scope of the parameters. *)
Fixpoint param_scope (params types : list string) (s : Scope) : Scope :=
  match params with
  | [] => s
  | p :: params => param_scope params (tail types) (Insert (mkSym p "parameter" (default "" (head types))) s)
  end.

Definition analyzeVariableTypes (fn : FnHead) (body : block) (program : Program) : list Diagnostic :=
  match body with
  | NoBlock => []
  | Block _ ss => (walk_list (walk_stmt fn program) ss (param_scope (fn_params fn) (fn_paramTypes fn) (NewScope []))).1
  end.

(** ** Null safety, return types *)

(** The checks below visit the bodies of conditionals and loops alike. *)
Definition body_of {A} (f : list stmt -> list A) (b : block) : list A :=
  match b with NoBlock => [] | Block _ ss => f ss end.

Fixpoint checkNullSafety (st : stmt) : list Diagnostic :=
  match st with
  | LetStmt tok _ _ type_ value =>
      if negb (bool_decide (type_ = "")) && negb (HasSuffix type_ "?") && negb (is_union type_) then
        match value with
        | NilLiteral _ => [error_at tok ("cannot assign nil to non-optional type " +:+ quoted type_ +:+ " (use '" +:+ type_ +:+ "?' to allow nil)")]
        | _ => []
        end
      else []
  | IfStmt _ _ b eb =>
      match b with Block _ ss => flat_map checkNullSafety ss | NoBlock => [] end ++
      match eb with Block _ ss => flat_map checkNullSafety ss | NoBlock => [] end
  | ForStmt _ _ _ _ _ b => match b with Block _ ss => flat_map checkNullSafety ss | NoBlock => [] end
  | _ => []
  end.

Section Returns.
Context (fn : FnHead).
Fixpoint check_returns (st : stmt) : list Diagnostic :=
  match st with
  | ReturnStmt tok value =>
      match value with
      | ENil => [error_at tok ("function " +:+ quoted (fn_name fn) +:+ " expects return type " +:+ quoted (fn_returnType fn) +:+ ", got empty return")]
      | _ =>
          let actual := inferLiteralType value in
          if negb (bool_decide (actual = "")) && negb (typesCompatible actual (fn_returnType fn))
          then [error_at tok ("function " +:+ quoted (fn_name fn) +:+ " expects return type " +:+ quoted (fn_returnType fn) +:+ ", got " +:+ quoted actual)]
          else []
      end
  | IfStmt _ _ b eb =>
      match b with Block _ ss => flat_map check_returns ss | NoBlock => [] end ++
      match eb with Block _ ss => flat_map check_returns ss | NoBlock => [] end
  | ForStmt _ _ _ _ _ b => match b with Block _ ss => flat_map check_returns ss | NoBlock => [] end
  | _ => []
  end.
End Returns.

Definition checkReturnTypes (st : stmt) (fn : FnHead) : list Diagnostic :=
  if bool_decide (fn_returnType fn ∈ [""; "any"]) then [] else check_returns fn st.

(** ** Struct literals *)

Record StructSig := mkStructSig { ss_name : string; ss_fields : list StructField }.

(** The map of the declared fields; a repeated name keeps its last type. *)
Definition field_types (fields : list StructField) : gmap string string :=
  foldl (fun m f => <[sf_name f := sf_type f]> m) ∅ fields.

Section StructLiterals.
Context (structSigs : gmap string StructSig).

Definition check_field (tok : Token) (typeName : string) (types : gmap string string) (kv : string * expr) : list Diagnostic :=
  match types !! kv.1 with
  | None => [error_at tok ("struct " +:+ quoted typeName +:+ " has no field " +:+ quoted kv.1)]
  | Some expected =>
      let actual := inferLiteralType kv.2 in
      if negb (bool_decide (actual = "")) && negb (typesCompatible actual expected)
      then [error_at tok ("field '" +:+ typeName +:+ "." +:+ kv.1 +:+ "' expects type " +:+ quoted expected +:+ ", got " +:+ quoted actual)]
      else []
  end.

Fixpoint checkExprStructLiteral (e : expr) : list Diagnostic :=
  match e with
  | StructLiteral tok typeName _ fields _ =>
      match structSigs !! typeName with
      | Some sDecl => flat_map (check_field tok typeName (field_types (ss_fields sDecl))) fields
      | None => []
      end
  | CallExpr _ _ _ args => flat_map checkExprStructLiteral args
  | _ => []
  end.

Fixpoint checkStructLiteralTypes (st : stmt) : list Diagnostic :=
  match st with
  | LetStmt _ _ _ _ v | ExprStmt _ v | ReturnStmt _ v => checkExprStructLiteral v
  | IfStmt _ _ b eb =>
      match b with Block _ ss => flat_map checkStructLiteralTypes ss | NoBlock => [] end ++
      match eb with Block _ ss => flat_map checkStructLiteralTypes ss | NoBlock => [] end
  | ForStmt _ _ _ _ _ b => match b with Block _ ss => flat_map checkStructLiteralTypes ss | NoBlock => [] end
  | _ => []
  end.
End StructLiterals.

(** ** Calls *)

(** [strings.Trim] of double quotes. *)
Definition TrimQuotes (s : string) : string :=
  let p c := bool_decide (c = quote) in
  str (rev (drop_while p (rev (drop_while p (byt s))))).

(** [strings.EqualFold] against an ASCII word: the letters, and the two
    other characters that fold to an ASCII letter. *)
Fixpoint fold_ascii (s : bytes) : bytes :=
  match s with
  | "197"%char :: "191"%char :: r => "s"%char :: fold_ascii r
  | "226"%char :: "132"%char :: "170"%char :: r => "k"%char :: fold_ascii r
  | c :: r => (if Ascii.leb "A" c && Ascii.leb c "Z" then ascii_of_N (N_of_ascii c + 32) else c) :: fold_ascii r
  | [] => []
  end.
Definition EqualFold (s t : string) : bool := bool_decide (fold_ascii (byt s) = fold_ascii (byt t)).

(** [strings.ToUpper] of a field name, which is ASCII. *)
Definition ToUpper (s : string) : string :=
  str ((fun c => if Ascii.leb "a" c && Ascii.leb c "z" then ascii_of_N (N_of_ascii c - 32) else c) <$> byt s).

(** The route, and whether a service of that name is declared. *)
Fixpoint find_route (stmts : list stmt) (serviceName path method : string) (found : bool) : option DeclareModuleRoute * bool :=
  match stmts with
  | [] => (None, found)
  | DeclareModuleStmt _ pkgPath _ routes :: stmts =>
      if bool_decide (TrimQuotes pkgPath = serviceName) then
        match List.find (fun r => bool_decide (TrimQuotes (dmr_path r) = path) && EqualFold (TrimQuotes (dmr_method r)) method) routes with
        | Some r => (Some r, true)
        | None => find_route stmts serviceName path method true
        end
      else find_route stmts serviceName path method found
  | _ :: stmts => find_route stmts serviceName path method found
  end.

Definition findDeclaredRoute (program : Program) (serviceName path method : string) : option DeclareModuleRoute * bool :=
  find_route (Statements program) serviceName path method false.

Section Calls.
Context (funcSigs : gmap string FnHead) (enclosing : list string) (program : Program).

Definition is_type_param (callee : FnHead) (t : string) : bool :=
  let set := fn_typeParams callee ++ enclosing in
  bool_decide (t ∈ set) || (HasPrefix t "[]" && bool_decide (TrimPrefix t "[]" ∈ set)).

(** Argument [i] against its parameter's type. *)
Fixpoint check_args (tok : Token) (fname : string) (callee : FnHead) (i : nat) (args : list expr) : list Diagnostic :=
  match args with
  | [] => []
  | arg :: args =>
      match fn_paramTypes callee !! i with
      | Some expected =>
          let actual := inferLiteralType arg in
          if bool_decide (expected = "") || is_type_param callee expected then []
          else if negb (bool_decide (actual = "")) && negb (typesCompatible actual expected)
          then [error_at tok ("argument " +:+ pretty (S i) +:+ " of " +:+ quoted fname +:+ " expects type " +:+ quoted expected +:+ ", got " +:+ quoted actual)]
          else []
      | None => []
      end ++ check_args tok fname callee (S i) args
  end.

Definition check_call (tok : Token) (fname : string) (args : list expr) : list Diagnostic :=
  match funcSigs !! fname with
  | None => []
  | Some callee =>
      (if negb (bool_decide (fn_params callee = [])) && negb (bool_decide (length args = length (fn_params callee)))
       then [error_at tok ("function " +:+ quoted fname +:+ " expects " +:+ pretty (length (fn_params callee)) +:+ " arguments, got " +:+ pretty (length args))]
       else []) ++
      check_args tok fname callee 0 args
  end.

(** A call [http.get("pranor://service/path")] against the declared routes. *)
Definition check_cross_service (tok : Token) (field : string) (args : list expr) : list Diagnostic :=
  match args with
  | StringLiteral _ url :: rest =>
      if HasPrefix url "pranor://" then
        match bytes_Cut (byt (TrimPrefix url "pranor://")) (byt "/") with
        | None => []
        | Some (b, a) =>
            let serviceName := str b in
            let path := "/" +:+ str a in
            let method := ToUpper field in
            match findDeclaredRoute program serviceName path method with
            | (_, false) => [error_at tok ("use of undeclared service " +:+ quoted serviceName +:+ " in cross-service call")]
            | (None, true) => [error_at tok ("service " +:+ quoted serviceName +:+ " does not declare route '" +:+ method +:+ " " +:+ path +:+ "'")]
            | (Some r, true) =>
                match bool_decide (method = "POST"), rest, dmr_paramTypes r with
                | true, payload :: _, expected :: _ =>
                    let actual := inferLiteralType payload in
                    if negb (bool_decide (expected = "")) && negb (bool_decide (actual = "")) && negb (typesCompatible actual expected)
                    then [error_at tok ("request payload type mismatch in cross-service call: expected " +:+ quoted expected +:+ ", got " +:+ quoted actual)]
                    else []
                | _, _, _ => []
                end
            end
        end
      else []
  | _ => []
  end.

Fixpoint checkExprCallTypes (e : expr) : list Diagnostic :=
  match e with
  | CallExpr tok f _ args =>
      match f with
      | Identifier _ x => check_call tok x args
      | MemberExpr _ (Identifier _ o) field => if bool_decide (o = "http") then check_cross_service tok field args else []
      | _ => []
      end ++ flat_map checkExprCallTypes args
  | InfixExpr _ l _ r => checkExprCallTypes l ++ checkExprCallTypes r
  | MemberExpr _ o _ => checkExprCallTypes o
  | _ => []
  end.

Fixpoint checkCallTypes (st : stmt) : list Diagnostic :=
  match st with
  | ExprStmt _ v | LetStmt _ _ _ _ v | ReturnStmt _ v => checkExprCallTypes v
  | IfStmt _ c b eb =>
      checkExprCallTypes c ++
      match b with Block _ ss => flat_map checkCallTypes ss | NoBlock => [] end ++
      match eb with Block _ ss => flat_map checkCallTypes ss | NoBlock => [] end
  | ForStmt _ _ _ _ _ b => match b with Block _ ss => flat_map checkCallTypes ss | NoBlock => [] end
  | _ => []
  end.
End Calls.

(** ** Functions *)

(** The declarations of a statement, exported or not. *)
Definition unexport (s : stmt) : stmt := match s with ExportStmt _ inner => inner | _ => s end.

Definition func_sigs (p : Program) : gmap string FnHead :=
  foldl (fun m s => match unexport s with FnDecl _ h _ => <[fn_name h := h]> m | _ => m end) ∅ (Statements p).

Definition struct_sigs (p : Program) : gmap string StructSig :=
  foldl (fun m s => match unexport s with StructDecl _ n _ _ fs => <[n := mkStructSig n fs]> m | _ => m end) ∅ (Statements p).

(** [None]: the function has no body and the checker panics. *)
Definition analyzeTypeMismatches (fn : FnHead) (body : block) (program : Program) : option (list Diagnostic) :=
  match body with
  | NoBlock => None
  | Block _ ss =>
      Some (flat_map (fun st =>
        checkCallTypes (func_sigs program) (fn_typeParams fn) program st ++
        checkReturnTypes st fn ++
        checkStructLiteralTypes (struct_sigs program) st ++
        checkNullSafety st) ss ++
      analyzeVariableTypes fn body program)
  end.

(** ** Interfaces *)

Record MethodSig := mkMethodSig { ms_params : list string }.

Definition interfaces (p : Program) : gmap string (list InterfaceMethod) :=
  foldl (fun m s => match unexport s with InterfaceDecl _ n ms => <[n := ms]> m | _ => m end) ∅ (Statements p).

(** Methods by receiver and name. *)
Definition methods (p : Program) : gmap (string * string) MethodSig :=
  foldl (fun m s => match unexport s with MethodDecl _ t n ps _ _ _ => <[(t, n) := mkMethodSig ps]> m | _ => m end) ∅ (Statements p).

Definition check_method (ms : gmap (string * string) MethodSig) (tok : Token) (strName iface : string) (m : InterfaceMethod) : list Diagnostic :=
  match ms !! (strName, im_name m) with
  | None => [error_at tok ("struct " +:+ quoted strName +:+ " does not implement interface " +:+ quoted iface +:+ " (missing method " +:+ quoted (im_name m) +:+ ")")]
  | Some d =>
      if bool_decide (length (ms_params d) = length (im_params m)) then []
      else [error_at tok ("method '" +:+ strName +:+ "." +:+ im_name m +:+ "' signature mismatch: expected " +:+
              pretty (length (im_params m)) +:+ " parameters, got " +:+ pretty (length (ms_params d)))]
  end.

Definition analyzeInterfaceSatisfaction (p : Program) : list Diagnostic :=
  flat_map (fun s =>
    match s with
    | LetStmt tok _ _ type_ (StructLiteral _ strName _ _ _) =>
        if bool_decide (type_ = "") then [] else
        match interfaces p !! type_ with
        | Some ims => flat_map (check_method (methods p) tok strName type_) ims
        | None => []
        end
    | _ => []
    end) (Statements p).
