(* ===== verification/Analyze.v ===== *)
(** * Control flow and injection checks ([lang/compiler/analyze_flow.go],
      [analyze_security.go], [analyze.go])

    Which function bodies return on all paths, which statements are
    unreachable, and which database queries are built by concatenation. *)

From S2P Require Import Prelude GoStrings Tokens Ast TypeCheck.
Local Open Scope string_scope.
Local Open Scope list_scope.
Local Open Scope Z_scope.

(** ** Returning on all paths *)

Definition is_return (s : stmt) : bool := match s with ReturnStmt _ _ => true | _ => false end.
Definition no_expr (e : expr) : bool := match e with ENil => true | _ => false end.

(** The verdict of a block from those of its statements: the last statement
    decides when it is a return, a conditional or a match; else any earlier
    return does. *)
Definition block_verdict (verdicts : list (option bool)) (ss : list stmt) : bool :=
  match last verdicts with
  | Some (Some b) => b
  | _ => existsb is_return ss
  end.

(** What a statement says as the last one of its block. *)
Fixpoint last_verdict (s : stmt) : option bool :=
  match s with
  | ReturnStmt _ _ => Some true
  | IfStmt _ _ b eb =>
      Some match eb with
           | NoBlock => false
           | Block _ es =>
               match b with NoBlock => false | Block _ ss => block_verdict (map last_verdict ss) ss end &&
               block_verdict (map last_verdict es) es
           end
  | MatchStmt _ _ cases =>
      Some (forallb (fun c => match c.2 with NoBlock => false | Block _ ss => block_verdict (map last_verdict ss) ss end) cases &&
            existsb (fun c => no_expr c.1) cases)
  | _ => None
  end.

Definition blockHasReturn (b : block) : bool :=
  match b with NoBlock => false | Block _ ss => block_verdict (map last_verdict ss) ss end.

(** ** Unreachable code *)

Fixpoint stmtToken (s : stmt) : Token :=
  match s with
  | LetStmt t _ _ _ _ | FnDecl t _ _ | RouteStmt t _ _ | EveryStmt t _ _ | CronStmt t _ _ | SubscribeStmt t _ _ _
  | PublishStmt t _ _ | SpawnStmt t _ _ | ActorDecl t _ _ _ _ | ExternFnStmt t _ _ _ | BrokerStmt t _ | ServerStmt t _ _ _ _
  | DatabaseStmt t _ | AppStmt t _ _ | AgentDecl t _ _ _ _ | CacheStmt t _ | TryCatchStmt t _ _ _ | MatchStmt t _ _
  | TestStmt t _ _ _ | EnumStmt t _ _ _ | ToolStmt t _ _ _ _ | MigrationStmt t _ _ _ | TableDecl t _ _ | IfStmt t _ _ _
  | ForStmt t _ _ _ _ _ | StructDecl t _ _ _ _ | MethodDecl t _ _ _ _ _ _ | InterfaceDecl t _ _ | MiddlewareDecl t _ _ _
  | DeclareModuleStmt t _ _ _ | GoPackageImport t _ _ | WsStmt t _ _ _ | ExprStmt t _ | ReturnStmt t _
  | DestructureLetStmt t _ _ | TypeAliasStmt t _ _ | ValidateStmt t _ _ | BreakStmt t | ContinueStmt t | BeforeEachStmt t _
  | AfterEachStmt t _ | MeshStmt t _ | OnStmt t _ _ _ | LockStmt t _ _ | BucketStmt t _ _ | GateStmt t _ _ | JobStmt t _ _ _
  | RagStmt t _ _ | EmitStmt t _ _ | EventStoreStmt t _ _ _ => t
  | ExportStmt _ inner => stmtToken inner
  | _ => mkToken TOKEN_ILLEGAL "" 0 0
  end.

Definition terminates (s : stmt) : bool :=
  match s with ReturnStmt _ _ | BreakStmt _ | ContinueStmt _ => true | _ => false end.

Definition unreachable_at (s : stmt) : list Diagnostic :=
  if 0 <? Line (stmtToken s)
  then [mkDiag (Line (stmtToken s)) (Col (stmtToken s)) "warning" "unreachable code after return/break/continue"] else [].

(** The loop over a block, given the diagnostics inside each statement: it
    stops at the first statement after a terminator. *)
Fixpoint unreachable_list (inside : list (list Diagnostic)) (ss : list stmt) (terminated : bool) : list Diagnostic :=
  match ss, inside with
  | s :: ss, d :: inside =>
      if terminated then unreachable_at s else d ++ unreachable_list inside ss (terminates s)
  | _, _ => []
  end.

(** The diagnostics in the blocks of a statement. *)
Fixpoint unreachable_inside (s : stmt) : list Diagnostic :=
  match s with
  | IfStmt _ _ b eb =>
      match b with NoBlock => [] | Block _ ss => unreachable_list (map unreachable_inside ss) ss false end ++
      match eb with NoBlock => [] | Block _ ss => unreachable_list (map unreachable_inside ss) ss false end
  | ForStmt _ _ _ _ _ b => match b with NoBlock => [] | Block _ ss => unreachable_list (map unreachable_inside ss) ss false end
  | TryCatchStmt _ b _ cb =>
      match b with NoBlock => [] | Block _ ss => unreachable_list (map unreachable_inside ss) ss false end ++
      match cb with NoBlock => [] | Block _ ss => unreachable_list (map unreachable_inside ss) ss false end
  | MatchStmt _ _ cases =>
      flat_map (fun c => match c.2 with NoBlock => [] | Block _ ss => unreachable_list (map unreachable_inside ss) ss false end) cases
  | _ => []
  end.

Definition analyzeUnreachableCode (b : block) : list Diagnostic :=
  match b with NoBlock => [] | Block _ ss => unreachable_list (map unreachable_inside ss) ss false end.

(** ** SQL injection *)

Definition injection_message : string :=
  "SQL injection risk detected. Use placeholders (?) instead of string concatenation/formatting for database query parameters.".

(** [db.query], [db.querySafe] or [db.queryPage]. *)
Definition is_db_query (f : expr) : bool :=
  match f with
  | MemberExpr _ (Identifier _ o) field => bool_decide (o = "db") && bool_decide (field ∈ ["query"; "querySafe"; "queryPage"])
  | _ => false
  end.

Definition is_built_string (e : expr) : bool :=
  match e with
  | InfixExpr _ _ op _ => bool_decide (op = "+")
  | FStringLiteral _ _ => true
  | _ => false
  end.

Fixpoint checkExprSQLInjection (e : expr) : list Diagnostic :=
  match e with
  | CallExpr tok f _ args =>
      (if is_db_query f && match args with a :: _ => is_built_string a | [] => false end
       then [error_at tok injection_message] else []) ++
      flat_map checkExprSQLInjection args
  | InfixExpr _ l _ r => checkExprSQLInjection l ++ checkExprSQLInjection r
  | PrefixExpr _ _ r => checkExprSQLInjection r
  | IndexExpr _ l i => checkExprSQLInjection l ++ checkExprSQLInjection i
  | MemberExpr _ o _ | OptionalMemberExpr _ o _ => checkExprSQLInjection o
  | SpreadElement _ v => checkExprSQLInjection v
  | MapLiteral _ ps _ _ _ => flat_map (fun p => checkExprSQLInjection p.2) ps
  | ArrayLiteral _ els => flat_map checkExprSQLInjection els
  | _ => []
  end.

Fixpoint checkStmtSQLInjection (s : stmt) : list Diagnostic :=
  match s with
  | BlockStmt _ ss => flat_map checkStmtSQLInjection ss
  | LetStmt _ _ _ _ v | ReturnStmt _ v | ExprStmt _ v => checkExprSQLInjection v
  | IfStmt _ c b eb =>
      checkExprSQLInjection c ++
      match b with NoBlock => [] | Block _ ss => flat_map checkStmtSQLInjection ss end ++
      match eb with NoBlock => [] | Block _ ss => flat_map checkStmtSQLInjection ss end
  | ForStmt _ _ _ _ _ b | FnDecl _ _ b | RouteStmt _ _ b | EveryStmt _ _ b | CronStmt _ _ b | SubscribeStmt _ _ _ b
  | MiddlewareDecl _ _ _ b | TestStmt _ _ _ b => match b with NoBlock => [] | Block _ ss => flat_map checkStmtSQLInjection ss end
  | ExportStmt _ inner => checkStmtSQLInjection inner
  | TryCatchStmt _ b _ cb =>
      match b with NoBlock => [] | Block _ ss => flat_map checkStmtSQLInjection ss end ++
      match cb with NoBlock => [] | Block _ ss => flat_map checkStmtSQLInjection ss end
  | MatchStmt _ _ cases =>
      flat_map (fun c => match c.2 with NoBlock => [] | Block _ ss => flat_map checkStmtSQLInjection ss end) cases
  | _ => []
  end.

Definition analyzeSQLInjection (p : Program) : list Diagnostic := flat_map checkStmtSQLInjection (Statements p).

(** ** Missing returns: the part of [analyzeFnDecl] *)

Definition missing_return (tok : Token) (fn : FnHead) (body : block) : list Diagnostic :=
  if negb (bool_decide (fn_returnType fn ∈ [""; "nil"])) && negb (blockHasReturn body)
  then [mkDiag (Line tok) (Col tok) "warning"
          ("function " +:+ quoted (fn_name fn) +:+ " declares return type " +:+ quoted (fn_returnType fn) +:+
           " but may not return a value on all paths")]
  else [].

(** Queries under an error propagation, an await or an assignment are not
    visited: [db.query(q + id)?] is accepted. *)
Example injection_missed :
  let tk := mkToken TOKEN_IDENT "" 1 1 in
  let call := CallExpr tk (MemberExpr tk (Identifier tk "db") "query") []
                [InfixExpr tk (StringLiteral tk "SELECT * FROM t WHERE id = ") "+" (Identifier tk "id")] in
  length (checkStmtSQLInjection (LetStmt tk "rows" [] "" call)) = 1%nat /\
  checkStmtSQLInjection (LetStmt tk "rows" [] "" (ErrorPropExpr tk call)) = [] /\
  checkStmtSQLInjection (LetStmt tk "rows" [] "" (AwaitExpr tk call)) = [] /\
  checkStmtSQLInjection (ExprStmt tk (AssignExpr tk "rows" call)) = [].
Proof. repeat split; reflexivity. Qed.
