(* ===== verification/TypeProps.v ===== *)
(** * Soundness of the type checker

    A meaning for the type strings ([inhabits]), the soundness of
    [typesCompatible] for it, and of the checks on variables and returns for
    the execution of function bodies: where the checker reports nothing and
    knows the types it compares, variables hold values of their types and the
    function returns a value of its type. *)

From S2P Require Import Prelude GoStrings GoFloat Tokens Ast Runtime OptimizerProps TypeCheck Analyze.
Local Open Scope string_scope.
Local Open Scope list_scope.

(** ** Values of a type *)

Definition type_of (v : value) : string :=
  match v with
  | VNil => "nil"
  | VInt _ | VInt64 _ => "int"
  | VFloat _ => "float"
  | VString _ => "string"
  | VBool _ => "bool"
  end.

(** An optional type holds nil and the values of its base; a union holds nil
    and the values of its members; "float" takes integers and "error" takes
    strings; types other than the scalars hold nil; "any", the empty and the
    dynamic type hold everything. *)
Inductive inhabits : value -> string -> Prop :=
  | in_base v : inhabits v (type_of v)
  | in_any v t : t ∈ ["any"; ""; "interface{}"] -> inhabits v t
  | in_optional_nil t : HasSuffix t "?" = true -> inhabits VNil t
  | in_optional v t : HasSuffix t "?" = true -> inhabits v (TrimSuffix t "?") -> inhabits v t
  | in_union_nil t : is_union t = true -> inhabits VNil t
  | in_union v t m : is_union t = true -> m ∈ members t -> inhabits v m -> inhabits v t
  | in_float v : type_of v = "int" -> inhabits v "float"
  | in_error v : type_of v = "string" -> inhabits v "error"
  | in_named_nil t : t ∉ ["int"; "float"; "string"; "bool"] -> inhabits VNil t.

(** A scalar type holds its scalars only. *)
Lemma inhabits_scalar v t :
  inhabits v t -> t ∈ ["int"; "string"; "bool"; "nil"] -> type_of v = t.
Proof.
  intros Hv Ht. assert (Hno : HasSuffix t "?" = false /\ is_union t = false /\ t <> "float" /\ t <> "error" /\ t ∉ ["any"; ""; "interface{}"]).
  { repeat (apply elem_of_cons in Ht as [->|Ht]; [repeat split; try (by vm_compute); apply (bool_decide_unpack _); by vm_compute|]).
    by apply not_elem_of_nil in Ht. }
  destruct Hno as (H1 & H2 & H3 & H4 & H5). destruct Hv; try done; try congruence.
  rewrite !not_elem_of_cons in *. cbn. set_solver.
Qed.

(** ** Compatibility *)

Lemma members_no_sep t c m : m ∈ Split t c -> ContainsByte m c = false.
Proof.
  unfold Split. rewrite list_elem_of_fmap. intros (w & -> & Hw).
  pose proof (bytes_Split_no_sep c (byt t)) as H. rewrite Forall_forall in H. specialize (H w Hw).
  unfold ContainsByte. rewrite byt_str. apply not_true_iff_false. intros E. apply existsb_exists in E as (x & Hx & Ex).
  apply bool_decide_eq_true in Ex as ->. apply H. by apply list_elem_of_In.
Qed.

Lemma trim_left_elem fuel pre s x : x ∈ trim_left fuel pre s -> x ∈ s.
Proof.
  revert s. induction fuel as [|n IH]; intros s; cbn; [done|]. destruct (pre s) as [k|]; [|done].
  intros H. apply IH in H. rewrite <- (take_drop k s). apply elem_of_app. by right.
Qed.

Lemma TrimSpace_no_byte s c : ContainsByte s c = false -> ContainsByte (TrimSpace s) c = false.
Proof.
  unfold ContainsByte, TrimSpace. rewrite byt_str, <- !not_true_iff_false, !existsb_exists. intros H (x & Hx & Hc).
  apply H. exists x. split; [|done]. unfold bytes_TrimSpace in Hx. apply in_rev in Hx.
  apply list_elem_of_In, trim_left_elem, list_elem_of_In, in_rev, list_elem_of_In, trim_left_elem in Hx. by apply list_elem_of_In.
Qed.

Lemma members_not_union t m : m ∈ members t -> is_union m = false.
Proof.
  unfold members. rewrite list_elem_of_fmap. intros (w & -> & Hw). by apply TrimSpace_no_byte, (members_no_sep t).
Qed.

Lemma compatible_S n actual expected :
  compatible (S n) actual expected =
    if bool_decide (actual = expected) then true
    else if bool_decide (actual = "nil") then compatible_nil expected
    else if HasSuffix expected "?" && bool_decide (actual = TrimSuffix expected "?") then true
    else if is_union expected then existsb (compatible n actual) (members expected)
    else compatible_rest actual expected.
Proof. done. Qed.

(** [typesCompatible] is the function of the source: at a union it calls
    itself on the members. *)
Lemma typesCompatible_unfold actual expected :
  typesCompatible actual expected =
    if bool_decide (actual = expected) then true
    else if bool_decide (actual = "nil") then compatible_nil expected
    else if HasSuffix expected "?" && bool_decide (actual = TrimSuffix expected "?") then true
    else if is_union expected then existsb (typesCompatible actual) (members expected)
    else compatible_rest actual expected.
Proof.
  unfold typesCompatible at 1. rewrite compatible_S. destruct (bool_decide (actual = expected)); [done|].
  destruct (bool_decide (actual = "nil")); [done|]. destruct (_ && _); [done|]. destruct (is_union expected); [|done].
  pose proof (members_not_union expected) as Hm. induction (members expected) as [|m ms IH]; [done|].
  assert (compatible 0 actual m = typesCompatible actual m) as E.
  { unfold typesCompatible. rewrite compatible_S. cbn [compatible]. by rewrite (Hm m) by left. }
  cbn [existsb]. rewrite E. f_equal. apply IH. intros m' Hm'. apply Hm. by right.
Qed.

Lemma compatible_sound fuel v actual expected :
  compatible fuel actual expected = true -> inhabits v actual -> inhabits v expected.
Proof.
  revert expected. induction fuel as [|fuel IH]; intros expected Hc Hv; cbn [compatible] in Hc;
    (case_bool_decide as Heq; [by subst|]); (case_bool_decide as Hnil; [|destruct (HasSuffix expected "?") eqn:Hs; cbn [andb] in Hc]).
  1, 4: subst actual; apply inhabits_scalar in Hv; [|by apply (bool_decide_unpack _)]; destruct v; try discriminate Hv;
    unfold compatible_nil in Hc; destruct (HasSuffix expected "?") eqn:E1; [by apply in_optional_nil|];
    destruct (is_union expected) eqn:E2; [by apply in_union_nil|]; case_bool_decide; [done|by apply in_named_nil].
  1, 3: case_bool_decide as Hb; [subst actual; by apply in_optional|].
  all: destruct (is_union expected) eqn:Hu; try done;
    try (unfold compatible_rest in Hc; repeat (case_bool_decide; cbn [andb orb] in Hc); subst; try done;
         first [apply in_float; apply (inhabits_scalar _ _ Hv); apply (bool_decide_unpack _); done
               |apply in_error; apply (inhabits_scalar _ _ Hv); apply (bool_decide_unpack _); done
               |apply in_any; apply (bool_decide_unpack _); done]).
  all: apply existsb_exists in Hc as (m & Hm & Hc); apply list_elem_of_In in Hm; eapply in_union; eauto.
Qed.

(** A value of a type that the checker takes where another is expected
    is a value of the expected type. *)
Theorem typesCompatible_sound v actual expected :
  typesCompatible actual expected = true -> inhabits v actual -> inhabits v expected.
Proof. apply compatible_sound. Qed.

Lemma typesCompatible_sound_witness :
  inhabits (VInt 3) "string | float" /\ ~ inhabits (VInt 3) "string".
Proof.
  split.
  - apply (typesCompatible_sound _ "int"); [vm_compute; reflexivity|]. apply (in_base (VInt 3)).
  - intros H. apply inhabits_scalar in H; [discriminate H|apply (bool_decide_unpack _); vm_compute; exact I].
Defined.

(** ** Variables *)

(** Scopes of the checker and of the execution, in step: the same names, each
    value of the type of its name. *)
Definition typed_scope (g : gmap string Symbol) (m : gmap string value) : Prop :=
  dom g = dom m /\ forall x sym v, g !! x = Some sym -> m !! x = Some v -> inhabits v (DataType sym).

Definition typed (s : Scope) (st : scopes) : Prop := Forall2 typed_scope s st.

Lemma typed_scope_empty : typed_scope ∅ ∅.
Proof. split; [done|]. intros x sym v H. by rewrite lookup_empty in H. Qed.

Lemma typed_scope_insert g m x sym v :
  typed_scope g m -> inhabits v (DataType sym) -> typed_scope (<[x := sym]> g) (<[x := v]> m).
Proof.
  intros [Hd Hv] Hi. split; [rewrite !dom_insert_L; by rewrite Hd|]. intros y sy w.
  destruct (decide (y = x)) as [->|Hne]; [rewrite !lookup_insert_eq; by intros [= <-] [= <-]|].
  rewrite !lookup_insert_ne by done. apply Hv.
Qed.

Lemma typed_scope_set g m x sym v :
  typed_scope g m -> g !! x = Some sym -> inhabits v (DataType sym) -> typed_scope g (<[x := v]> m).
Proof.
  intros Hs Hx Hi. rewrite <- (insert_id g x sym Hx). by apply typed_scope_insert.
Qed.

Lemma typed_scope_none g m x : typed_scope g m -> g !! x = None <-> m !! x = None.
Proof. intros [Hd _]. rewrite <- !not_elem_of_dom. by rewrite Hd. Qed.

Lemma typed_lookup s st x sym : typed s st -> Lookup s x = Some sym -> inhabits (lookup_var st x) (DataType sym).
Proof.
  induction 1 as [|g m s st Hs Hrest IH]; cbn; [done|]. destruct (g !! x) as [sy|] eqn:Eg.
  - intros [= <-]. destruct (m !! x) as [v|] eqn:Em; [by eapply Hs|]. apply (typed_scope_none _ _ _ Hs) in Em. congruence.
  - apply (typed_scope_none _ _ x Hs) in Eg. rewrite Eg. apply IH.
Qed.

Lemma typed_assign s st x v :
  typed s st -> (forall sym, Lookup s x = Some sym -> inhabits v (DataType sym)) -> typed s (assign_var st x v).
Proof.
  induction 1 as [|g m s st Hs Hrest IH]; cbn; intros Hv; [constructor|]. destruct (g !! x) as [sy|] eqn:Eg.
  - destruct (m !! x) as [w|] eqn:Em; [|apply (typed_scope_none _ _ _ Hs) in Em; congruence].
    constructor; [|done]. eapply typed_scope_set; eauto.
  - apply (typed_scope_none _ _ x Hs) in Eg. rewrite Eg. constructor; [done|]. by apply IH.
Qed.

(** What the checker infers is the type of the value. *)
Lemma infer_sound s st p e v :
  typed s st -> eval_in st e = Some v -> inhabits v (inferExpressionType e s p).
Proof.
  intros Ht He. assert (Hany : inhabits v "") by (apply in_any; set_solver).
  destruct e; cbn in He |- *; try exact Hany; try discriminate He.
  - injection He as <-. destruct (Lookup s value) as [sym|] eqn:E; [by eapply typed_lookup|exact Hany].
  - injection He as <-. apply (in_base (VString _)).
  - injection He as <-. apply (in_base (VInt _)).
  - injection He as <-. apply (in_base (VFloat _)).
  - injection He as <-. apply (in_base (VBool _)).
  - injection He as <-. apply (in_base VNil).
Qed.

(** ** Statements the checker knows the types of *)

Section Precise.
Context (fn : FnHead) (p : Program).

Definition fresh_name (name : string) (s : Scope) : bool :=
  match s with [] => false | g :: _ => match g !! name with Some _ => false | None => true end end.

Section PreciseList.
Context (precise : stmt -> Scope -> bool).
Fixpoint precise_list (ss : list stmt) (s : Scope) : bool :=
  match ss with
  | [] => true
  | st :: ss => precise st s && precise_list ss (walk_stmt fn p st s).2
  end.
End PreciseList.

(** Declared and assigned types are compared with known ones, a name is
    declared once per block, and there is no nested block, which the checker
    does not enter, and no jump. *)
Fixpoint precise (st : stmt) (s : Scope) : bool :=
  match st with
  | LetStmt _ name _ type_ value => fresh_name name s && (bool_decide (type_ = "") || is_known (inferExpressionType value s p))
  | ExprStmt _ (AssignExpr _ name value) =>
      match Lookup s name with
      | Some sym => negb (is_known (DataType sym)) || is_known (inferExpressionType value s p)
      | None => true
      end
  | ReturnStmt _ value => is_known (inferExpressionType value s p)
  | IfStmt _ _ b eb =>
      match b with NoBlock => true | Block _ ss => precise_list precise ss (NewScope s) end &&
      match eb with NoBlock => true | Block _ ss => precise_list precise ss (NewScope s) end
  | BlockStmt _ _ | BreakStmt _ | ContinueStmt _ => false
  | _ => true
  end.

Definition checked_body (ss : list stmt) (s : Scope) : Prop :=
  (walk_list (walk_stmt fn p) ss s).1 = [] /\ precise_list precise ss s = true.

(** What execution guarantees: falling through, the scopes stay in step;
    returning, the value has the declared type. *)
Definition good_outcome (s : Scope) (st : scopes) (o : outcome) : Prop :=
  match o with
  | Next => typed s st
  | Returned v => returns_checked fn = true -> inhabits v (fn_returnType fn)
  | _ => False
  end.

Lemma known_not_any t : is_known t = false -> forall v, inhabits v t.
Proof.
  unfold is_known. intros H v. apply in_any. repeat case_bool_decide; cbn in H; subst; (set_solver || done).
Qed.

Lemma walk_let_good tok name type_ value g s m st v :
  (walk_let p tok name type_ value (g :: s)).1 = [] ->
  fresh_name name (g :: s) && (bool_decide (type_ = "") || is_known (inferExpressionType value (g :: s) p)) = true ->
  typed (g :: s) (m :: st) -> eval_in (m :: st) value = Some v ->
  typed (walk_let p tok name type_ value (g :: s)).2 (<[name := v]> m :: st).
Proof.
  intros Hd Hp Ht Hv. apply andb_prop in Hp as [Hf Hp]. pose proof (infer_sound _ _ p _ _ Ht Hv) as Hi.
  apply Forall2_cons in Ht as [Hs Hrest]. unfold walk_let in *. cbn in Hf. destruct (g !! name) eqn:Eg; [discriminate|].
  case_bool_decide as Et; cbn [fst snd] in *; cbn [Insert sym_Name]; rewrite Eg; (constructor; [|done]);
    apply typed_scope_insert; try done; cbn [DataType].
  - case_bool_decide as E; [apply in_any; set_solver|done].
  - cbn in Hp. rewrite Hp in Hd. cbn [andb] in Hd. destruct (typesCompatible _ type_) eqn:Ec; [|done].
    by eapply compatible_sound.
Qed.

(** The checker only adds to the innermost scope. *)
Lemma walk_stmt_tail st g s : exists g', (walk_stmt fn p st (g :: s)).2 = g' :: s.
Proof.
  destruct st; cbn; eauto.
  - unfold walk_let. case_bool_decide; cbn; destruct (g !! name); eauto.
  - destruct value; cbn; eauto.
Qed.

Lemma walk_list_tail ss g s : exists g', (walk_list (walk_stmt fn p) ss (g :: s)).2 = g' :: s.
Proof.
  revert g. induction ss as [|st ss IH]; intros g; cbn [walk_list]; [by exists g|].
  destruct (walk_stmt_tail st g s) as [g' E]. destruct (walk_stmt fn p st (g :: s)) as [d s1]. cbn in E. subst s1.
  destruct (IH g') as [g'' E']. destruct (walk_list _ ss (g' :: s)) as [d' s2]. cbn in *. eauto.
Qed.

Lemma walk_list_cons st ss s :
  (walk_list (walk_stmt fn p) (st :: ss) s).1 = (walk_stmt fn p st s).1 ++ (walk_list (walk_stmt fn p) ss (walk_stmt fn p st s).2).1 /\
  (walk_list (walk_stmt fn p) (st :: ss) s).2 = (walk_list (walk_stmt fn p) ss (walk_stmt fn p st s).2).2.
Proof. cbn [walk_list]. destruct (walk_stmt fn p st s) as [d s1]. cbn. by destruct (walk_list _ ss s1). Qed.

Definition stmt_sound (st : stmt) : Prop := forall g s m sc sc' o,
  (walk_stmt fn p st (g :: s)).1 = [] -> precise st (g :: s) = true -> typed (g :: s) (m :: sc) ->
  exec st (m :: sc) = Some (sc', o) -> good_outcome (walk_stmt fn p st (g :: s)).2 sc' o.

(** Execution keeps the number of scopes. *)
Lemma typed_cons_inv s st g : typed (g :: s) st -> exists m sc, st = m :: sc.
Proof. intros H. apply Forall2_cons_inv_l in H as (m & sc & _ & _ & ->). eauto. Qed.

Lemma list_sound n ss :
  (forall st, stmt_size st < n -> stmt_sound st) -> sum_of stmt_size ss < n ->
  forall g s m sc sc' o, checked_body ss (g :: s) -> typed (g :: s) (m :: sc) ->
  exec_list exec ss (m :: sc) = Some (sc', o) -> good_outcome (walk_list (walk_stmt fn p) ss (g :: s)).2 sc' o.
Proof.
  intros Hst. induction ss as [|st ss IH]; intros Hn g s m sc sc' o [Hd Hp] Ht He; cbn [exec_list] in He.
  { injection He as <- <-. exact Ht. }
  cbn [sum_of] in Hn. destruct (walk_list_cons st ss (g :: s)) as [E1 E2]. rewrite E1 in Hd. rewrite E2.
  apply app_nil in Hd as [Hd1 Hd2]. cbn [precise_list] in Hp. apply andb_prop in Hp as [Hp1 Hp2].
  destruct (exec st (m :: sc)) as [[sc1 o1]|] eqn:Ex; [|done]. cbn [mbind option_bind] in He.
  pose proof (Hst st ltac:(lia) g s m sc sc1 o1 Hd1 Hp1 Ht Ex) as Hgood.
  destruct (walk_stmt_tail st g s) as [g1 Eg]. rewrite Eg in *. destruct o1; cbn in Hgood.
  - destruct (typed_cons_inv _ _ _ Hgood) as (m1 & sc2 & ->). eapply IH; [lia|by split|exact Hgood|exact He].
  - injection He as <- <-. exact Hgood.
  - done.
  - done.
Qed.

Lemma scope_sound n ss g s m sc sc' o :
  (forall st, stmt_size st < n -> stmt_sound st) -> sum_of stmt_size ss < n ->
  checked_body ss (NewScope (g :: s)) -> typed (g :: s) (m :: sc) ->
  exec_scope exec ss (m :: sc) = Some (sc', o) -> good_outcome (g :: s) sc' o.
Proof.
  intros Hst Hn Hc Ht He. unfold exec_scope in He.
  destruct (exec_list exec ss (∅ :: m :: sc)) as [[sc1 o1]|] eqn:Ex; [|done]. injection He as <- <-.
  assert (Ht' : typed (∅ :: g :: s) (∅ :: m :: sc)) by (constructor; [apply typed_scope_empty|done]).
  pose proof (list_sound n ss Hst Hn _ _ _ _ _ _ Hc Ht' Ex) as Hg. destruct (walk_list_tail ss ∅ (g :: s)) as [g1 E].
  unfold NewScope in *. rewrite E in Hg. destruct o1; cbn in *; try done.
  apply Forall2_cons_inv_l in Hg as (m1 & sc2 & _ & Hg & ->). exact Hg.
Qed.


Lemma stmt_sound_all st : stmt_sound st.
Proof.
  cut (forall n st, stmt_size st < n -> stmt_sound st); [intros H; by apply (H (S (stmt_size st))); lia|].
  clear st. induction n as [|n IH]; [lia|]. intros st Hn g s m sc sc' o Hd Hp Ht He.
  destruct st; cbn [exec] in He; try discriminate He; try discriminate Hp.
  - injection He as <- <-. exact Ht.
  - destruct names; [|discriminate He]. destruct (eval_in (m :: sc) value) as [v|] eqn:Ev; [|discriminate He].
    injection He as <- <-. cbn [good_outcome walk_stmt declare_var]. by apply walk_let_good.
  - destruct (is_enil value) eqn:En; unfold exec_return in He; rewrite En in He.
    { destruct value; try discriminate En. discriminate Hp. }
    destruct (eval_in (m :: sc) value) as [v|] eqn:Ev; [|discriminate He]. injection He as <- <-.
    cbn [good_outcome]. intros Hr. cbn in Hd, Hp. unfold walk_return in Hd. rewrite Hr in Hd.
    pose proof (infer_sound _ _ p _ _ Ht Ev) as Hi. destruct value; try discriminate En; rewrite Hp in Hd; cbn [andb] in Hd;
      (destruct (typesCompatible _ _) eqn:Ec; [by eapply compatible_sound|discriminate Hd]).
  - unfold exec_expr in He. destruct (as_assign value) as [[x e]|] eqn:Ea.
    + destruct value; try discriminate Ea. injection Ea as -> ->.
      destruct (eval_in (m :: sc) e) as [v|] eqn:Ev; [|discriminate He]. injection He as <- <-.
      pose proof (infer_sound _ _ p _ _ Ht Ev) as Hi. change (typed (g :: s) (assign_var (m :: sc) x v)). apply typed_assign; [done|]. intros sym Hl.
      cbn [walk_stmt fst] in Hd. cbn [precise] in Hp. unfold walk_assign in Hd. rewrite Hl in Hd, Hp.
      destruct (is_known (DataType sym)) eqn:Ek; [|by apply known_not_any]. cbn in Hp. rewrite Hp in Hd. cbn [andb] in Hd.
      destruct (typesCompatible _ _) eqn:Ec; [by eapply compatible_sound|discriminate Hd].
    + destruct (eval_in (m :: sc) value); [|discriminate He]. injection He as <- <-.
      assert ((walk_stmt fn p (ExprStmt tok value) (g :: s)).2 = g :: s) as -> by (by destruct value). exact Ht.
  - destruct (eval_in (m :: sc) condition) as [c|]; [|discriminate He]. cbn [mbind option_bind] in He.
    cbn [walk_stmt fst snd] in Hd |- *. apply app_nil in Hd as [Hd1 Hd2]. cbn [precise] in Hp. apply andb_prop in Hp as [Hp1 Hp2].
    cbn [stmt_size] in Hn. destruct (isTruthy c).
    + destruct body as [|t ss]; cbn [exec_block] in He; [injection He as <- <-; exact Ht|].
      cbn [block_size] in Hn. eapply (scope_sound n); [exact IH| |by split|exact Ht|exact He]. lia.
    + destruct elseBody as [|t ss]; cbn [exec_block] in He; [injection He as <- <-; exact Ht|].
      cbn [block_size] in Hn. eapply (scope_sound n); [exact IH| |by split|exact Ht|exact He]. lia.
Qed.

(** ** Returning *)

Definition never_falls (st : stmt) : Prop := forall sc sc' o, last_verdict st = Some true -> exec st sc = Some (sc', o) -> o <> Next.

Lemma exec_list_last ss st sc sc' o :
  exec_list exec (ss ++ [st]) sc = Some (sc', o) -> o = Next ->
  exists sc1 sc2, exec st sc1 = Some (sc2, Next).
Proof.
  revert sc. induction ss as [|s ss IH]; intros sc H Ho; cbn [app exec_list] in H.
  - destruct (exec st sc) as [[sc1 o1]|] eqn:E; [|done]. cbn in H. destruct o1; simplify_eq; eauto.
  - destruct (exec s sc) as [[sc1 o1]|]; [|done]. cbn in H. destruct o1; simplify_eq; eauto.
Qed.

Lemma exec_list_return ss sc sc' o :
  existsb is_return ss = true -> exec_list exec ss sc = Some (sc', o) -> o <> Next.
Proof.
  revert sc. induction ss as [|s ss IH]; intros sc Hr H; [done|]. cbn [existsb exec_list] in *.
  destruct (exec s sc) as [[sc1 o1]|] eqn:E; [|done]. cbn in H. apply orb_prop in Hr as [Hr|Hr].
  - destruct s; try discriminate Hr. cbn in E. unfold exec_return in E. destruct (is_enil value); [by simplify_eq|].
    destruct (eval_in sc value); by simplify_eq/=.
  - destruct o1; simplify_eq; eauto.
Qed.

Lemma block_never_falls ss sc sc' o :
  (forall st, st ∈ ss -> never_falls st) -> block_verdict (map last_verdict ss) ss = true ->
  exec_list exec ss sc = Some (sc', o) -> o <> Next.
Proof.
  intros Hst Hv He Ho. destruct (decide (ss = [])) as [->|Hne]; [done|].
  destruct (exists_last Hne) as (ss' & st & ->). unfold block_verdict in Hv. rewrite map_app in Hv. cbn [map] in Hv.
  rewrite last_snoc in Hv. destruct (last_verdict st) as [b|] eqn:E.
  - subst b. destruct (exec_list_last _ _ _ _ _ He Ho) as (sc1 & sc2 & Hx).
    eapply (Hst st); [apply elem_of_app; right; left|exact E|exact Hx|done].
  - by eapply exec_list_return.
Qed.

Lemma never_falls_all st : never_falls st.
Proof.
  cut (forall n st, stmt_size st < n -> never_falls st); [intros H; by apply (H (S (stmt_size st))); lia|].
  clear st. induction n as [|n IH]; [lia|]. intros st Hn sc sc' o Hv He.
  destruct st; try discriminate Hv; cbn [exec] in He; try discriminate He.
  - unfold exec_return in He. destruct (is_enil value); [by simplify_eq|]. destruct (eval_in sc value); by simplify_eq/=.
  - destruct (eval_in sc condition) as [c|]; [|discriminate He]. cbn [mbind option_bind] in He. cbn [last_verdict] in Hv.
    destruct elseBody as [|t2 es]; [discriminate Hv|]. destruct body as [|t1 ss]; [discriminate Hv|].
    injection Hv as Hv. apply andb_prop in Hv as [H1 H2]. cbn in Hn.
    assert (Hsub : forall l, sum_of stmt_size l < n -> forall s, s ∈ l -> never_falls s).
    { intros l Hl s Hs. apply IH. pose proof (sum_of_in stmt_size s l Hs). lia. }
    assert (Hscope : forall l, sum_of stmt_size l < n -> block_verdict (map last_verdict l) l = true ->
      exec_scope exec l sc = Some (sc', o) -> o <> Next).
    { intros l Hl Hb Hx. unfold exec_scope in Hx. destruct (exec_list exec l (∅ :: sc)) as [[sc1 o1]|] eqn:E; [|done].
      injection Hx as _ <-. eapply block_never_falls; [by apply Hsub|exact Hb|exact E]. }
    destruct (isTruthy c); cbn [exec_block] in He; [apply (Hscope ss)|apply (Hscope es)]; (done || lia).
Qed.
End Precise.


(** [fn pick(flag: bool, n: int) -> float { if flag { return n } else { let x: float = 1.5; x = n; return x } }] *)
Definition pick_head : FnHead :=
  mkFnHead "pick" [] [] ["flag"; "n"] ["bool"; "int"] "float" false 0 "" false false.
Definition tk : Token := mkToken TOKEN_IDENT "" 1 1.
Definition pick_body : list stmt :=
  [IfStmt tk (Identifier tk "flag")
     (Block tk [ReturnStmt tk (Identifier tk "n")])
     (Block tk [LetStmt tk "x" [] "float" (FloatLiteral tk (float_of_Z 2)); ExprStmt tk (AssignExpr tk "x" (Identifier tk "n"));
                ReturnStmt tk (Identifier tk "x")])].


(** Where the checker does not know the type of an expression it accepts any
    declaration: a sum is not inferred, so a string can be put in an integer
    variable and returned as an integer. *)
Example unknown_types_unchecked :
  let fn := mkFnHead "f" [] [] [] [] "int" false 0 "" false false in
  let body := [LetStmt tk "x" [] "int" (InfixExpr tk (StringLiteral tk "a") "+" (StringLiteral tk "b")); ReturnStmt tk (Identifier tk "x")] in
  analyzeTypeMismatches fn (Block tk body) (mkProgram []) = Some [] /\
  exec_list exec body [∅] = Some ([{["x" := VString "ab"]}], Returned (VString "ab")).
Proof. split; vm_compute; reflexivity. Qed.

(** A second declaration of a name in a block keeps the type of the first. *)
Example redeclaration_keeps_type :
  let fn := mkFnHead "f" [] [] [] [] "int" false 0 "" false false in
  let body := [LetStmt tk "x" [] "" (IntegerLiteral tk 1); LetStmt tk "x" [] "" (StringLiteral tk "a"); ReturnStmt tk (Identifier tk "x")] in
  analyzeTypeMismatches fn (Block tk body) (mkProgram []) = Some [] /\
  exec_list exec body [∅] = Some ([{["x" := VString "a"]}], Returned (VString "a")).
Proof. split; vm_compute; reflexivity. Qed.
