(* ===== verification/Resp3.v ===== *)
(** * The Redis protocol server of the cache ([cache/pkg/server/resp3.go])

    Values of the wire protocol, their parser and printer, the commands, and
    the loop over a connection.  A connection is the bytes still to be read;
    the cache is the in-memory cache holding strings.  [strings.ToUpper] is
    [upper] of the class [Casing]. *)

From S2P Require Import Prelude GoStrings GoNumbers Cache.
Local Open Scope string_scope.
Local Open Scope list_scope.
Local Open Scope Z_scope.

(** The values of the types that are parsed or written; [Unsupported] stands
    for those that are neither (maps, booleans). *)
#[warnings="-register-all"]
Inductive RESP3Value : Type :=
  | SimpleString (s : string)
  | ErrorValue (s : string)
  | Integer (n : Z)
  | BulkString (s : string)
  | ArrayValue (l : list RESP3Value)
  | Null
  | Unsupported.

Definition cr : ascii := "013".
Definition crlf : bytes := [cr; nl].

(** ** Writing *)

(** [None]: the error "unsupported write RESP3 type", after what was already
    written. *)
Fixpoint WriteRESP3 (v : RESP3Value) : option bytes :=
  match v with
  | SimpleString s => Some ("+"%char :: byt s ++ crlf)
  | ErrorValue s => Some ("-"%char :: byt s ++ crlf)
  | Integer n => Some (":"%char :: byt (FormatInt n) ++ crlf)
  | BulkString s => Some ("$"%char :: byt (FormatInt (Z.of_nat (String.length s))) ++ crlf ++ byt s ++ crlf)
  | Null => Some ("_"%char :: crlf)
  | ArrayValue l =>
      body ← (fix write_all (l : list RESP3Value) : option bytes :=
                match l with
                | [] => Some []
                | v :: l => b ← WriteRESP3 v; bs ← write_all l; Some (b ++ bs)
                end) l;
      Some ("*"%char :: byt (FormatInt (Z.of_nat (length l))) ++ crlf ++ body)
  | Unsupported => None
  end.

Fixpoint write_all (l : list RESP3Value) : option bytes :=
  match l with
  | [] => Some []
  | v :: l => b ← WriteRESP3 v; bs ← write_all l; Some (b ++ bs)
  end.

(** ** Reading *)

Inductive parse_result :=
  | Parsed (v : RESP3Value) (rest : bytes)
  | EndOfFile
  | BadInput
  | Panics
  | NoFuel.

(** [ReadString('\n')]: the line with its end, or the end of the input. *)
Fixpoint read_line (s : bytes) : option (bytes * bytes) :=
  match s with
  | [] => None
  | c :: s => if decide (c = nl) then Some ([c], s)
              else match read_line s with Some (l, r) => Some (c :: l, r) | None => None end
  end.

(** [strings.TrimRight] of carriage returns and newlines. *)
Definition trim_eol (l : bytes) : bytes := rev (drop_while (fun c => bool_decide (c = cr) || bool_decide (c = nl)) (rev l)).

(** [io.ReadFull] of [length+2] bytes, of which the first [length] are kept:
    negative lengths panic, in [make] or in the slice. *)
Definition read_bulk (len : Z) (s : bytes) : parse_result :=
  if len <? 0 then Panics
  else if max_int64 <? len + 2 then Panics
  else if Z.of_nat (length s) <? len + 2 then (match s with [] => EndOfFile | _ => BadInput end)
  else Parsed (BulkString (str (take (Z.to_nat len) s))) (drop (Z.to_nat (len + 2)) s).

(** The loop over the elements of an array, given the parser. *)
Fixpoint read_elements (parse : bytes -> parse_result) (n : nat) (s : bytes) : option parse_result * list RESP3Value * bytes :=
  match n with
  | O => (None, [], s)
  | S n =>
      match parse s with
      | Parsed v rest => let '(e, l, r) := read_elements parse n rest in (e, v :: l, r)
      | e => (Some e, [], s)
      end
  end.

Fixpoint parse_resp3 (fuel : nat) (s : bytes) : parse_result :=
  match fuel with
  | O => NoFuel
  | S fuel =>
      match read_line s with
      | None => EndOfFile
      | Some (line, rest) =>
          match trim_eol line with
          | [] => BadInput
          | t :: payload =>
              if decide (t = "+"%char) then Parsed (SimpleString (str payload)) rest
              else if decide (t = "-"%char) then Parsed (ErrorValue (str payload)) rest
              else if decide (t = ":"%char) then match Atoi (str payload) with Some n => Parsed (Integer n) rest | None => BadInput end
              else if decide (t = "$"%char) then
                match Atoi (str payload) with
                | None => BadInput
                | Some len => if len =? -1 then Parsed Null rest else read_bulk len rest
                end
              else if decide (t = "*"%char) then
                match Atoi (str payload) with
                | None => BadInput
                | Some count =>
                    if count =? -1 then Parsed Null rest
                    else if count <? 0 then Panics
                    else match read_elements (parse_resp3 fuel) (Z.to_nat count) rest with
                         | (None, l, rest) => Parsed (ArrayValue l) rest
                         | (Some e, _, _) => e
                         end
                end
              else BadInput
          end
      end
  end.

(** Every nested call starts after a line, so the length of the input is
    fuel enough ([parse_fuel]). *)
Definition ParseRESP3 (s : bytes) : parse_result := parse_resp3 (S (length s)) s.

(** ** Commands *)

(** The field [Str] of a value. *)
Definition Str (v : RESP3Value) : string :=
  match v with SimpleString s | ErrorValue s | BulkString s => s | _ => "" end.

Definition second : Z := 10 ^ 9.
Definition millisecond : Z := 10 ^ 6.

(** The options of SET. *)
Fixpoint set_options `{Casing} (opts : list RESP3Value) (ttl : Z) : Z :=
  match opts with
  | [] => ttl
  | o :: opts =>
      let opt := upper (Str o) in
      match opts with
      | n :: opts' =>
          if bool_decide (opt = "EX") then set_options opts' (match Atoi (Str n) with Some sec => wrap64 (sec * second) | None => ttl end)
          else if bool_decide (opt = "PX") then set_options opts' (match Atoi (Str n) with Some ms => wrap64 (ms * millisecond) | None => ttl end)
          else set_options opts ttl
      | [] => ttl
      end
  end.

Abbreviation cache := (InMemoryCache string).

Section Server.
(** The backend of the cache. *)
Context `{Casing} (backend : option (string -> option string)).

Definition wrong_args (c : string) : RESP3Value := ErrorValue ("ERR wrong number of arguments for '" +:+ c +:+ "' command").

Definition ExecuteCommand (cmd : RESP3Value) (now : Z) (c : cache) : RESP3Value * cache :=
  match cmd with
  | ArrayValue (name :: args) =>
      let commandName := upper (Str name) in
      if bool_decide (commandName = "PING") then
        (match args with a :: _ => BulkString (Str a) | [] => SimpleString "PONG" end, c)
      else if bool_decide (commandName = "GET") then
        match args with
        | [k] => let '(r, c) := Get backend (Str k) now now c in
                 (match r with Some v => BulkString v | None => Null end, c)
        | _ => (wrong_args "GET", c)
        end
      else if bool_decide (commandName = "SET") then
        match args with
        | k :: v :: opts => (SimpleString "OK", Set_ (Str k) (Str v) (set_options opts 0) now c)
        | _ => (wrong_args "SET", c)
        end
      else if bool_decide (commandName = "DEL") then
        match args with
        | [] => (wrong_args "DEL", c)
        | _ => (Integer (Z.of_nat (length args)), foldl (fun c a => Delete (Str a) c) c args)
        end
      else (ErrorValue ("ERR unknown command '" +:+ commandName +:+ "'"), c)
  | _ => (ErrorValue "ERR invalid request format", c)
  end.

(** How a connection ends. *)
Inductive conn_end := Closed | InputError | WriteError | Crashed | OutOfFuel.

(** The loop of [HandleConnection]: the bytes sent back, the cache, and how
    it ended; [clock k] is the time of command [k]. *)
Fixpoint handle (fuel : nat) (clock : nat -> Z) (k : nat) (s : bytes) (c : cache) : bytes * cache * conn_end :=
  match fuel with
  | O => ([], c, OutOfFuel)
  | S fuel =>
      match ParseRESP3 s with
      | EndOfFile => ([], c, Closed)
      | BadInput => ([], c, InputError)
      | Panics => ([], c, Crashed)
      | NoFuel => ([], c, OutOfFuel)
      | Parsed v rest =>
          let '(r, c) := ExecuteCommand v (clock k) c in
          match WriteRESP3 r with
          | None => ([], c, WriteError)
          | Some out => let '(out', c, e) := handle fuel clock (S k) rest c in (out ++ out', c, e)
          end
      end
  end.

Definition HandleConnection (clock : nat -> Z) (s : bytes) (c : cache) : bytes * cache * conn_end :=
  handle (S (length s)) clock 0 s c.
End Server.

(** ** Theorems *)

(** ** Values that travel *)

(** A line: no newline, and no carriage return at the end. *)
Definition line_ok (s : string) : bool :=
  negb (ContainsByte s nl) && negb (bool_decide (last (byt s) = Some cr)).

Fixpoint wire_ok (v : RESP3Value) : bool :=
  match v with
  | SimpleString s | ErrorValue s => line_ok s
  | Integer n => bool_decide (in_int64 n)
  | BulkString s => Z.of_nat (String.length s) + 2 <=? max_int64
  | ArrayValue l => (Z.of_nat (length l) <=? max_int64) && forallb wire_ok l
  | Null | Unsupported => false
  end.

Lemma write_array l : WriteRESP3 (ArrayValue l) =
  (body ← write_all l; Some ("*"%char :: byt (FormatInt (Z.of_nat (length l))) ++ crlf ++ body)).
Proof.
  cbn [WriteRESP3]. match goal with |- (?f l ≫= ?k) = _ => assert (H : forall l, f l = write_all l) end.
  { clear. induction l as [|v l IH]; [done|]. cbn. by rewrite IH. }
  by rewrite H.
Qed.

(** ** Lines *)

Lemma read_line_app p rest : nl ∉ p -> read_line (p ++ nl :: rest) = Some (p ++ [nl], rest).
Proof.
  induction p as [|c p IH]; intros Hn; [done|]. rewrite not_elem_of_cons in Hn. destruct Hn as [Hc Hn].
  cbn. rewrite decide_False by done. by rewrite (IH Hn).
Qed.

Lemma read_line_crlf p rest : nl ∉ p -> read_line (p ++ crlf ++ rest) = Some (p ++ crlf, rest).
Proof.
  intros Hn. assert (Hn' : nl ∉ p ++ [cr]) by (rewrite elem_of_app, list_elem_of_singleton; intros [?|E]; [done|discriminate E]).
  pose proof (read_line_app (p ++ [cr]) rest Hn') as H. by rewrite <- !app_assoc in H.
Qed.

Lemma trim_eol_line p : p <> [] -> last p <> Some cr -> last p <> Some nl -> trim_eol (p ++ crlf) = p.
Proof.
  intros Hne H1 H2. unfold trim_eol, crlf. rewrite rev_app_distr. cbn [rev app drop_while].
  change (bool_decide (nl = cr) || bool_decide (nl = nl)) with true. change (bool_decide (cr = cr) || bool_decide (cr = nl)) with true. cbv iota.
  destruct (exists_last Hne) as (p' & c & ->). rewrite last_snoc in H1, H2. rewrite rev_app_distr. cbn [rev app drop_while].
  rewrite !bool_decide_false by congruence. cbn [orb rev]. by rewrite rev_involutive.
Qed.

(** The first line of an encoding: its type and its text. *)
Lemma first_line t p rest :
  nl ∉ t :: p -> last (t :: p) <> Some cr ->
  exists line, read_line (t :: p ++ crlf ++ rest) = Some (line, rest) /\ trim_eol line = t :: p.
Proof.
  intros Hn Hl. exists ((t :: p) ++ crlf). split; [apply (read_line_crlf (t :: p) rest Hn)|].
  apply trim_eol_line; [done|done|]. intros E. apply Hn. apply last_Some in E as (l & ->). apply elem_of_app. right. left.
Qed.

Lemma last_cons_text t (p : bytes) : t <> cr -> last p <> Some cr -> last (t :: p) <> Some cr.
Proof. intros Ht Hp. destruct p as [|c p]; [cbn; congruence|exact Hp]. Qed.

Lemma int_text z : (nl ∉ byt (FormatInt z)) /\ last (byt (FormatInt z)) <> Some cr.
Proof.
  pose proof (FormatInt_bytes z) as H. rewrite forallb_forall in H.
  assert (Hc : forall c, c ∈ byt (FormatInt z) -> c <> nl /\ c <> cr).
  { intros c Hc. apply list_elem_of_In, H in Hc. split; intros ->; discriminate Hc. }
  split; [by intros [H1 _]%Hc|]. intros E. apply last_Some in E as (l & E). destruct (Hc cr) as [_ ?]; [rewrite E; set_solver|done].
Qed.

Lemma text_line s : line_ok s = true -> (nl ∉ byt s) /\ last (byt s) <> Some cr.
Proof.
  unfold line_ok. intros H. boolify. split; [|done]. rewrite ContainsByte_elem in H. by apply bool_decide_eq_false in H.
Qed.

(** ** Round trip *)

Lemma first_line_int t z rest :
  t <> nl -> t <> cr -> exists line, read_line (t :: byt (FormatInt z) ++ crlf ++ rest) = Some (line, rest) /\ trim_eol line = t :: byt (FormatInt z).
Proof.
  intros H1 H2. destruct (int_text z) as [Hn Hl]. apply first_line; [set_solver|by apply last_cons_text].
Qed.

Lemma read_bulk_app s rest :
  Z.of_nat (String.length s) + 2 <= max_int64 ->
  read_bulk (Z.of_nat (String.length s)) (byt s ++ crlf ++ rest) = Parsed (BulkString s) rest.
Proof.
  intros Hs. unfold read_bulk. replace (Z.of_nat (String.length s) <? 0) with false by lia.
  replace (max_int64 <? Z.of_nat (String.length s) + 2) with false by lia.
  assert (Hl : length (byt s ++ crlf ++ rest) = (String.length s + 2 + length rest)%nat) by (rewrite !length_app, length_byt; cbn; lia).
  rewrite Hl.
  replace (Z.of_nat (String.length s + 2 + length rest) <? Z.of_nat (String.length s) + 2) with false by (symmetry; apply Z.ltb_ge; lia).
  rewrite Nat2Z.id. rewrite <- (length_byt s) at 1. rewrite take_app_length, str_byt.
  replace (Z.to_nat (Z.of_nat (String.length s) + 2)) with (length (byt s ++ crlf)) by (rewrite length_app, length_byt; cbn; lia).
  by rewrite app_assoc, drop_app_length.
Qed.

Lemma read_elements_app fuel l body rest :
  (forall v bs rest, WriteRESP3 v = Some bs -> wire_ok v = true -> (length bs <= fuel)%nat -> parse_resp3 fuel (bs ++ rest) = Parsed v rest) ->
  write_all l = Some body -> forallb wire_ok l = true -> (length body <= fuel)%nat ->
  read_elements (parse_resp3 fuel) (length l) (body ++ rest) = (None, l, rest).
Proof.
  intros Hp. revert body. induction l as [|v l IH]; intros body Hw Hok Hf; cbn in Hw; [by injection Hw as <-|].
  cbn in Hok. apply andb_prop in Hok as [Hv Hok]. destruct (WriteRESP3 v) as [b|] eqn:Eb; [|done].
  destruct (write_all l) as [bs|] eqn:Ebs; [|done]. injection Hw as <-. rewrite length_app in Hf.
  cbn [length read_elements]. rewrite <- app_assoc, (Hp v b) by (done || lia). by rewrite (IH bs) by (done || lia).
Qed.

Lemma parse_write fuel v bs rest :
  WriteRESP3 v = Some bs -> wire_ok v = true -> (length bs <= fuel)%nat -> parse_resp3 fuel (bs ++ rest) = Parsed v rest.
Proof.
  revert v bs rest. induction fuel as [|fuel IH]; intros v bs rest Hw Hok Hf.
  { destruct bs; [|cbn in Hf; lia]. exfalso. destruct v; try discriminate Hw. rewrite write_array in Hw. by destruct (write_all l). }
  destruct v as [s|s|n|s|l| |]; try discriminate Hok.
  - injection Hw as <-. destruct (text_line s Hok) as [Hn Hl]. cbn [app]. rewrite <- app_assoc.
    destruct (first_line "+" (byt s) rest) as (line & E1 & E2); [set_solver|by apply last_cons_text|].
    cbn [parse_resp3]. rewrite E1, E2. by rewrite decide_True, str_byt.
  - injection Hw as <-. destruct (text_line s Hok) as [Hn Hl]. cbn [app]. rewrite <- app_assoc.
    destruct (first_line "-" (byt s) rest) as (line & E1 & E2); [set_solver|by apply last_cons_text|].
    cbn [parse_resp3]. rewrite E1, E2. rewrite decide_False by done. by rewrite decide_True, str_byt.
  - injection Hw as <-. cbn [app]. rewrite <- app_assoc. destruct (first_line_int ":" n rest) as (line & E1 & E2); [done..|].
    cbn [parse_resp3]. rewrite E1, E2. rewrite !decide_False by done. rewrite decide_True by done. rewrite str_byt.
    cbn in Hok. apply bool_decide_eq_true in Hok. by rewrite Atoi_FormatInt.
  - cbn [WriteRESP3] in Hw. apply (inj Some) in Hw. subst bs. cbn [app]. rewrite <- !app_assoc.
    destruct (first_line_int "$" (Z.of_nat (String.length s)) (byt s ++ crlf ++ rest)) as (line & E1 & E2); [done..|].
    cbn [parse_resp3]. rewrite E1, E2. rewrite !decide_False by done. rewrite decide_True by done. rewrite str_byt.
    cbn in Hok. rewrite Atoi_FormatInt by (unfold in_int64, min_int64, max_int64 in *; lia).
    replace (Z.of_nat (String.length s) =? -1) with false by (symmetry; apply Z.eqb_neq; lia). apply read_bulk_app. lia.
  - rewrite write_array in Hw. destruct (write_all l) as [body|] eqn:Eb; [|done]. cbn [mbind option_bind] in Hw. apply (inj Some) in Hw. subst bs. cbn [app]. rewrite <- !app_assoc.
    destruct (first_line_int "*" (Z.of_nat (length l)) (body ++ rest)) as (line & E1 & E2); [done..|].
    cbn [parse_resp3]. rewrite E1, E2. rewrite !decide_False by done. rewrite decide_True by done. rewrite str_byt.
    cbn in Hok. apply andb_prop in Hok as [Hlen Hok]. rewrite Atoi_FormatInt by (unfold in_int64, min_int64, max_int64 in *; lia).
    replace (Z.of_nat (length l) =? -1) with false by (symmetry; apply Z.eqb_neq; lia). replace (Z.of_nat (length l) <? 0) with false by (symmetry; apply Z.ltb_ge; lia). rewrite Nat2Z.id.
    rewrite (read_elements_app fuel l body rest IH Eb Hok); [done|].
    cbn [length] in Hf. rewrite !length_app in Hf. lia.
Qed.

(** What is written is read back, with whatever follows left to read:
    every line without a newline or a trailing carriage return, every 64-bit
    integer, every bulk string and every array of such values. *)
Theorem parse_write_roundtrip v bs rest :
  wire_ok v = true -> WriteRESP3 v = Some bs -> ParseRESP3 (bs ++ rest) = Parsed v rest.
Proof.
  intros Hok Hw. unfold ParseRESP3. apply parse_write; [done|done|]. rewrite length_app. lia.
Qed.

Lemma parse_write_roundtrip_witness :
  ParseRESP3 (byt "*2" ++ crlf ++ byt "$3" ++ crlf ++ byt "GET" ++ crlf ++ byt ":-12" ++ crlf ++ byt "tail") =
    Parsed (ArrayValue [BulkString "GET"; Integer (-12)]) (byt "tail").
Proof.
  apply (parse_write_roundtrip (ArrayValue [BulkString "GET"; Integer (-12)])
    (byt "*2" ++ crlf ++ byt "$3" ++ crlf ++ byt "GET" ++ crlf ++ byt ":-12" ++ crlf) (byt "tail")); vm_compute; reflexivity.
Defined.

(** The null that answers a missed GET is not read back, and a negative
    length crashes the server. *)
Example null_not_parsed :
  WriteRESP3 Null = Some (byt "_" ++ crlf) /\ ParseRESP3 (byt "_" ++ crlf) = BadInput.
Proof. split; reflexivity. Qed.

Example negative_length_crashes :
  ParseRESP3 (byt "$-2" ++ crlf) = Panics /\ ParseRESP3 (byt "*-2" ++ crlf) = Panics.
Proof. split; reflexivity. Qed.

(** ** Connections *)

Section Connection.
Context `{Casing} (backend : option (string -> option string)) (clock : nat -> Z).

(** The replies to a list of commands. *)
Fixpoint replies (k : nat) (cmds : list RESP3Value) (c : cache) : list RESP3Value * cache :=
  match cmds with
  | [] => ([], c)
  | v :: cmds =>
      let '(r, c) := ExecuteCommand backend v (clock k) c in
      let '(rs, c) := replies (S k) cmds c in (r :: rs, c)
  end.

(** Replies are never maps or other values that cannot be written. *)
Lemma execute_writes v now c : exists out, WriteRESP3 (ExecuteCommand backend v now c).1 = Some out.
Proof.
  unfold ExecuteCommand. repeat case_match; cbn [fst WriteRESP3]; eauto; simplify_eq; cbn; eauto.
Qed.

Lemma handle_pipeline fuel k cmds bs c :
  forallb wire_ok cmds = true -> write_all cmds = Some bs -> (length cmds < fuel)%nat ->
  exists out, write_all (replies k cmds c).1 = Some out /\
    handle backend fuel clock k bs c = (out, (replies k cmds c).2, Closed).
Proof.
  revert fuel k bs c. induction cmds as [|v cmds IH]; intros fuel k bs c Hok Hw Hf; (destruct fuel as [|fuel]; [lia|]).
  { injection Hw as <-. exists []. by split. }
  cbn in Hok. apply andb_prop in Hok as [Hv Hok]. cbn in Hw. destruct (WriteRESP3 v) as [b|] eqn:Eb; [|done].
  destruct (write_all cmds) as [bs'|] eqn:Ebs; [|done]. injection Hw as <-. cbn [length] in Hf.
  cbn [handle replies]. unfold ParseRESP3. rewrite (parse_write _ v b bs' Eb Hv) by (rewrite length_app; lia).
  destruct (execute_writes v (clock k) c) as [out Hout]. destruct (ExecuteCommand backend v (clock k) c) as [r c1]. cbn in Hout.
  rewrite Hout. destruct (IH fuel (S k) bs' c1 Hok eq_refl ltac:(lia)) as (out' & Hw' & ->).
  destruct (replies (S k) cmds c1) as [rs c2]. cbn in *. rewrite Hout, Hw'. by exists (out ++ out').
Qed.

(** C37: a client that sends any number of well-formed commands at once and
    closes gets exactly the encoded answers of the commands, executed one
    after the other on the cache, and the connection ends without error. *)
Theorem pipelined_commands_answered cmds bs c :
  forallb wire_ok cmds = true -> write_all cmds = Some bs ->
  exists out, write_all (replies 0 cmds c).1 = Some out /\
    HandleConnection backend clock bs c = (out, (replies 0 cmds c).2, Closed).
Proof.
  intros Hok Hw. apply handle_pipeline; [done|done|]. clear -Hw.
  revert bs Hw. induction cmds as [|v cmds IH]; intros bs Hw; [cbn; lia|]. cbn in Hw.
  destruct (WriteRESP3 v) as [b|] eqn:Eb; [|done]. destruct (write_all cmds) as [bs'|] eqn:E; [|done]. injection Hw as <-.
  specialize (IH bs' eq_refl). rewrite length_app. cbn [length].
  assert (0 < length b)%nat; [|lia]. destruct b; [|cbn; lia]. destruct v; try discriminate Eb.
  rewrite write_array in Eb. by destruct (write_all l).
Qed.
End Connection.

#[local] Existing Instance ascii_casing.

Definition bulks (l : list string) : RESP3Value := ArrayValue (BulkString <$> l).

Lemma pipelined_commands_answered_witness :
  exists bs out,
    write_all [bulks ["set"; "k"; "v"; "EX"; "5"]; bulks ["GET"; "k"]; bulks ["DEL"; "k"; "nope"]; bulks ["GET"; "k"]] = Some bs /\
    HandleConnection None (fun k => Z.of_nat k) bs (NewInMemoryCache "") = (out, (replies None (fun k => Z.of_nat k) 0
      [bulks ["set"; "k"; "v"; "EX"; "5"]; bulks ["GET"; "k"]; bulks ["DEL"; "k"; "nope"]; bulks ["GET"; "k"]] (NewInMemoryCache "")).2, Closed) /\
    write_all [SimpleString "OK"; BulkString "v"; Integer 2; Null] = Some out.
Proof.
  eexists. edestruct (pipelined_commands_answered None (fun k => Z.of_nat k)
    [bulks ["set"; "k"; "v"; "EX"; "5"]; bulks ["GET"; "k"]; bulks ["DEL"; "k"; "nope"]; bulks ["GET"; "k"]]) as (out & Hw & Hc).
  - vm_compute. reflexivity.
  - vm_compute. reflexivity.
  - exists out. split; [vm_compute; reflexivity|]. split; [exact Hc|]. rewrite <- Hw. vm_compute. reflexivity.
Defined.
