(* ===== verification/HashRing.v ===== *)
(** * Placement of objects on the nodes of the object store

    [vault/pkg/cluster/placement.go]: a consistent-hash ring with virtual
    nodes, and [sort.Search] of Go's standard library. *)

From S2P Require Import Prelude GoStrings GoNumbers GoSort.
Local Open Scope Z_scope.

(** ** [sort.Search]: binary search for the first index that satisfies [f] *)

Fixpoint search_between (fuel : nat) (f : nat -> bool) (i j : nat) : nat :=
  match fuel with
  | O => i
  | S fuel =>
      if (i <? j)%nat then
        let h := Nat.div2 (i + j) in
        if f h then search_between fuel f i h else search_between fuel f (S h) j
      else i
  end.

Definition sort_Search (n : nat) (f : nat -> bool) : nat := search_between n f 0 n.

(** ** The ring *)

Record HashRing := mkHR { replicas : Z; keys : list Z; ring : gmap Z string; nodes : gset string }.

Definition NewHashRing (r : Z) : HashRing := mkHR (if r <=? 0 then 50 else r) [] ∅ ∅.

(** 32-bit FNV-1a. *)
Definition hashKey (key : string) : Z :=
  fold_left (fun h c => (Z.lxor h (Z.of_N (N_of_ascii c)) * 16777619) mod 2 ^ 32) (byt key) 2166136261.

Definition IsNodeInRing (nodeID : string) (hr : HashRing) : bool := bool_decide (nodeID ∈ nodes hr).

Definition vnode_hash (nodeID : string) (i : nat) : Z := hashKey (nodeID +:+ "#" +:+ FormatInt (Z.of_nat i)).

(** One round of the loop that enters the virtual nodes. *)
Definition add_vnode (nodeID : string) (kr : list Z * gmap Z string) (i : nat) : list Z * gmap Z string :=
  let hash := vnode_hash nodeID i in (kr.1 ++ [hash], <[hash := nodeID]> kr.2).

Definition AddNode (nodeID : string) (hr : HashRing) : HashRing :=
  if IsNodeInRing nodeID hr then hr else
  let '(ks, r) := fold_left (add_vnode nodeID) (seq 0 (Z.to_nat (replicas hr))) (keys hr, ring hr) in
  mkHR (replicas hr) (merge_sort Z.le ks) r ({[nodeID]} ∪ nodes hr).

Definition RemoveNode (nodeID : string) (hr : HashRing) : HashRing :=
  if negb (IsNodeInRing nodeID hr) then hr else
  let newRing := filter (fun kv : Z * string => kv.2 <> nodeID) (ring hr) in
  mkHR (replicas hr) (merge_sort Z.le (map_to_list newRing).*1) newRing (nodes hr ∖ {[nodeID]}).

(** The walk around the ring: round [i] looks at key number [(idx + i) mod len]. *)
Fixpoint walk (hr : HashRing) (idx : nat) (rounds : nat) (i : nat) (count : Z) (chosen : list string) (seen : gset string) : list string :=
  match rounds with
  | O => chosen
  | S rounds =>
      if Z.of_nat (length chosen) <? count then
        let currIdx := ((idx + i) mod length (keys hr))%nat in
        let node := default "" (k ← keys hr !! currIdx; ring hr !! k) in
        if bool_decide (node ∈ seen) then walk hr idx rounds (S i) count chosen seen
        else walk hr idx rounds (S i) count (chosen ++ [node]) ({[node]} ∪ seen)
      else chosen
  end.

Definition GetNodes (key : string) (count : Z) (hr : HashRing) : string + list string :=
  match keys hr with
  | [] => inl "empty hash ring"
  | _ =>
      let hash := hashKey key in
      let idx := sort_Search (length (keys hr)) (fun i => hash <=? default 0 (keys hr !! i)) in
      inr (walk hr idx (length (keys hr)) 0 count [] ∅)
  end.

(** ** Binary search *)

Lemma search_between_spec fuel f i j :
  (i <= j)%nat -> (j - i <= fuel)%nat -> (forall a b, (a <= b < j)%nat -> f a = true -> f b = true) ->
  let r := search_between fuel f i j in
  (i <= r <= j)%nat /\ (forall a, (i <= a < r)%nat -> f a = false) /\ (forall a, (r <= a < j)%nat -> f a = true).
Proof.
  revert i j. induction fuel as [|fuel IH]; intros i j Hij Hf Hm; cbn -[Nat.div2 Nat.ltb].
  { splits; intros; try lia; exfalso; lia. }
  destruct (Nat.ltb_spec i j) as [H|H]; [|splits; intros; try lia; exfalso; lia].
  assert (Hh : (i <= Nat.div2 (i + j) < j)%nat) by (rewrite Nat.div2_div; split; [apply Nat.div_le_lower_bound|apply Nat.Div0.div_lt_upper_bound]; lia).
  set (h := Nat.div2 (i + j)) in *. destruct (f h) eqn:E.
  - destruct (IH i h) as (H1 & H2 & H3); [lia|lia|intros a b Hab; apply Hm; lia|]. split; [lia|]. split; [done|].
    intros a Ha. destruct (decide (a < h)%nat); [apply H3; lia|apply (Hm h); [lia|done]].
  - destruct (IH (S h) j) as (H1 & H2 & H3); [lia|lia|intros a b Hab; apply Hm; lia|]. split; [lia|]. split; [|done].
    intros a Ha. destruct (decide (a <= h)%nat) as [Hle|]; [|apply H2; lia].
    destruct (f a) eqn:Ea; [|done]. rewrite <- E. symmetry. apply (Hm a); [lia|done].
Qed.


(** ** The order of preference *)

(** The keys from [h] on, then those before it. *)
Definition from_hash (h : Z) (l : list Z) : list Z := filter (fun k => h <= k) l ++ filter (fun k => k < h) l.

Definition node_at (r : gmap Z string) (k : Z) : string := default "" (r !! k).

(** The nodes in the order in which a walk that starts at [h] meets them. *)
Definition preference (r : gmap Z string) (h : Z) : list string :=
  uniq (node_at r <$> from_hash h (merge_sort Z.le (elements (dom r)))).

#[local] Instance Zle_total : Total Z.le.
Proof. intros x y. lia. Qed.

Lemma sorted_split (l : list Z) h r : StronglySorted Z.le l -> (r <= length l)%nat ->
  (forall a k, (a < r)%nat -> l !! a = Some k -> k < h) -> (forall a k, (r <= a)%nat -> l !! a = Some k -> h <= k) ->
  drop r l ++ take r l = from_hash h l.
Proof.
  intros _ Hr Hlo Hhi. unfold from_hash.
  assert (Ht : Forall (fun k => k < h) (take r l)).
  { apply Forall_lookup. intros i k Hk. apply lookup_take_Some in Hk as [Hk Hi]. eauto. }
  assert (Hd : Forall (fun k => h <= k) (drop r l)).
  { apply Forall_lookup. intros i k Hk. rewrite lookup_drop in Hk. eapply (Hhi (r + i)%nat); [lia|done]. }
  rewrite <- (take_drop r l) at 3 4. rewrite !filter_app.
  rewrite (list_filter_all (fun k => h <= k) (drop r l)), (list_filter_all (fun k => k < h) (take r l)) by done.
  rewrite (list_filter_none (fun k => h <= k) (take r l)), (list_filter_none (fun k => k < h) (drop r l)); [by rewrite app_nil_r| |].
  - eapply Forall_impl; [exact Hd|]. cbn. lia.
  - eapply Forall_impl; [exact Ht|]. cbn. lia.
Qed.

Lemma uniq_from_hash h l : uniq (from_hash h l) = from_hash h (uniq l).
Proof.
  unfold from_hash. rewrite uniq_app, !filter_uniq. f_equal. f_equal. apply list_filter_all, Forall_forall.
  intros k Hk Hk'. rewrite list_elem_of_filter in Hk. rewrite list_elem_of_filter in Hk'. lia.
Qed.

Lemma filter_from_hash h (P : Z -> Prop) `{!forall k, Decision (P k)} l : filter P (from_hash h l) = from_hash h (filter P l).
Proof. unfold from_hash. rewrite filter_app. f_equal; apply filter_comm. Qed.

Lemma elem_of_from_hash h k l : k ∈ from_hash h l <-> k ∈ l.
Proof. unfold from_hash. rewrite elem_of_app, !list_elem_of_filter. destruct (decide (h <= k)); split; intros; try tauto. right. split; [lia|tauto]. Qed.

(** A sorted list without repetitions is determined by its elements. *)
Lemma sorted_keys_unique l (D : gset Z) : StronglySorted Z.le l -> NoDup l -> (forall k, k ∈ l <-> k ∈ D) ->
  l = merge_sort Z.le (elements D).
Proof.
  intros Hs Hn Hd. apply (StronglySorted_unique Z.le); [done|apply (StronglySorted_merge_sort Z.le)|].
  rewrite merge_sort_Permutation. apply NoDup_Permutation; [done|apply NoDup_elements|].
  intros k. by rewrite Hd, elem_of_elements.
Qed.

Lemma ring_keys_elem r k : k ∈ merge_sort Z.le (elements (dom r)) <-> k ∈ dom (r : gmap Z string).
Proof. by rewrite merge_sort_Permutation, elem_of_elements. Qed.

Lemma ring_keys_nodup r : NoDup (merge_sort Z.le (elements (dom (r : gmap Z string)))).
Proof. rewrite merge_sort_Permutation. apply NoDup_elements. Qed.

(** Leaving a node out of the order of preference is leaving it out of the
    ring. *)
Lemma preference_restrict r h n :
  filter (fun m => m <> n) (preference r h) = preference (filter (fun kv : Z * string => kv.2 <> n) r) h.
Proof.
  unfold preference. set (r' := filter _ r). rewrite filter_uniq, list_filter_fmap, filter_from_hash.
  assert (E : filter (fun k => node_at r k <> n) (merge_sort Z.le (elements (dom r))) = merge_sort Z.le (elements (dom r'))).
  { apply sorted_keys_unique.
    - apply StronglySorted_filter, (StronglySorted_merge_sort Z.le).
    - apply NoDup_filter, ring_keys_nodup.
    - intros k. rewrite list_elem_of_filter, ring_keys_elem, !elem_of_dom. unfold r', node_at. split.
      + intros [Hk [m Hm]]. rewrite Hm in Hk. exists m. by apply map_lookup_filter_Some.
      + intros [m Hm]. apply map_lookup_filter_Some in Hm as [Hm Hk]. rewrite Hm. split; [exact Hk|eauto]. }
  rewrite E. f_equal. apply list_fmap_ext. intros i k Hk.
  assert (Hd : k ∈ dom r') by (apply ring_keys_elem, elem_of_from_hash with h; by apply list_elem_of_lookup_2 in Hk).
  apply elem_of_dom in Hd as [m Hm]. unfold node_at. rewrite Hm. apply map_lookup_filter_Some in Hm as [Hm _]. by rewrite Hm.
Qed.

(** ** The walk *)

Section Walk.
Context (hr : HashRing) (idx : nat).

Definition visited (j : nat) : string := default "" (k ← keys hr !! ((idx + j) mod length (keys hr))%nat; ring hr !! k).

Lemma walk_spec rounds i count chosen seen :
  (forall x, x ∈ seen <-> x ∈ chosen) ->
  walk hr idx rounds i count chosen seen =
    chosen ++ take (Z.to_nat (count - Z.of_nat (length chosen))) (filter (fun x => x ∉ chosen) (uniq (visited <$> seq i rounds))).
Proof.
  revert i chosen seen. induction rounds as [|rounds IH]; intros i chosen seen Hs; cbn [walk].
  { cbn. by rewrite take_nil, app_nil_r. }
  destruct (Z.ltb_spec (Z.of_nat (length chosen)) count) as [Hc|Hc].
  2:{ replace (Z.to_nat _) with 0%nat by lia. by rewrite take_0, app_nil_r. }
  fold (visited i). cbn [seq]. rewrite fmap_cons. cbn [uniq]. case_bool_decide as Hv.
  - rewrite IH by done. apply Hs in Hv. rewrite filter_cons_False by tauto. do 2 f_equal.
    rewrite list_filter_filter. apply list_filter_iff. intros x. split; [|tauto]. intros Hx. split; [done|]. by intros ->.
  - rewrite IH by (intros x; rewrite elem_of_union, elem_of_singleton, elem_of_app, list_elem_of_singleton, Hs; tauto).
    rewrite Hs in Hv. rewrite filter_cons_True by done. rewrite length_app. cbn [length].
    replace (Z.to_nat (count - Z.of_nat (length chosen))) with (S (Z.to_nat (count - Z.of_nat (length chosen + 1)))) by lia.
    cbn [take]. rewrite <- app_assoc. cbn. do 3 f_equal. rewrite list_filter_filter. apply list_filter_iff.
    intros x. rewrite elem_of_app, list_elem_of_singleton. tauto.
Qed.

Lemma visited_rotation : (idx <= length (keys hr))%nat ->
  visited <$> seq 0 (length (keys hr)) = node_at (ring hr) <$> (drop idx (keys hr) ++ take idx (keys hr)).
Proof.
  intros Hi. apply list_eq. intros j. rewrite !list_lookup_fmap.
  destruct (decide (j < length (keys hr))%nat) as [Hj|Hj].
  2:{ rewrite !lookup_ge_None_2; [done| |rewrite length_seq; lia]. rewrite length_app, length_drop, length_take. lia. }
  rewrite lookup_seq_lt by done. cbn [fmap option_fmap option_map]. unfold visited. cbn [Nat.add].
  destruct (decide (idx + j < length (keys hr))%nat) as [Hs|Hs].
  - rewrite Nat.mod_small by done. rewrite lookup_app_l by (rewrite length_drop; lia). rewrite lookup_drop.
    destruct (lookup_lt_is_Some_2 (keys hr) (idx + j)%nat Hs) as [k Hk]. by rewrite Hk.
  - replace (idx + j)%nat with ((idx + j - length (keys hr)) + 1 * length (keys hr))%nat by lia.
    rewrite Nat.Div0.mod_add, Nat.mod_small by lia. rewrite lookup_app_r by (rewrite length_drop; lia). rewrite length_drop.
    rewrite lookup_take by lia. replace (j - (length (keys hr) - idx))%nat with (idx + j - length (keys hr))%nat by lia.
    destruct (lookup_lt_is_Some_2 (keys hr) (idx + j - length (keys hr))%nat ltac:(lia)) as [k Hk]. by rewrite Hk, decide_True by lia.
Qed.
End Walk.

(** ** Invariant *)

Record ring_ok (hr : HashRing) : Prop := {
  ok_sorted : StronglySorted Z.le (keys hr);
  ok_keys : forall k, k ∈ keys hr <-> k ∈ dom (ring hr);
  ok_nodes : forall k n, ring hr !! k = Some n -> n ∈ nodes hr;
}.

Inductive ring_reachable : HashRing -> Prop :=
| reach_new r : ring_reachable (NewHashRing r)
| reach_add n hr : ring_reachable hr -> ring_reachable (AddNode n hr)
| reach_remove n hr : ring_reachable hr -> ring_reachable (RemoveNode n hr).

Definition vnode_hashes (n : string) (hr : HashRing) : list Z := vnode_hash n <$> seq 0 (Z.to_nat (replicas hr)).

Lemma add_vnodes_spec n ids ks r :
  fold_left (add_vnode n) ids (ks, r) = (ks ++ (vnode_hash n <$> ids), fold_left (fun r i => <[vnode_hash n i := n]> r) ids r).
Proof.
  revert ks r. induction ids as [|i ids IH]; intros ks r; cbn; [by rewrite app_nil_r|]. unfold add_vnode at 2. cbn.
  rewrite IH, <- app_assoc. done.
Qed.

Lemma ring_after_add n ids r k :
  fold_left (fun (r : gmap Z string) i => <[vnode_hash n i := n]> r) ids r !! k =
    if bool_decide (k ∈ vnode_hash n <$> ids) then Some n else r !! k.
Proof.
  revert r. induction ids as [|i ids IH]; intros r; cbn; [done|]. rewrite IH. clear IH. repeat case_bool_decide; try done.
  - exfalso. apply H0. apply elem_of_cons. tauto.
  - apply elem_of_cons in H0 as [->|H0]; [by rewrite lookup_insert_eq|done].
  - rewrite lookup_insert_ne; [done|]. intros <-. apply H0. apply elem_of_cons. tauto.
Qed.

Lemma ring_ok_add n hr : ring_ok hr -> ring_ok (AddNode n hr).
Proof.
  intros [Hs Hk Hn]. unfold AddNode. case_match; [by split|]. rewrite add_vnodes_spec. cbn [fst snd].
  split; cbn.
  - apply (StronglySorted_merge_sort Z.le).
  - intros k. rewrite merge_sort_Permutation, elem_of_app, elem_of_dom, ring_after_add, Hk, elem_of_dom.
    case_bool_decide; [|tauto]. split; [eauto|tauto].
  - intros k m. rewrite ring_after_add. case_bool_decide; [intros [= <-]; set_solver|]. intros Hm%Hn. set_solver.
Qed.

Lemma ring_ok_remove n hr : ring_ok hr -> ring_ok (RemoveNode n hr).
Proof.
  intros [Hs Hk Hn]. unfold RemoveNode. case_match; [by split|]. split; cbn.
  - apply (StronglySorted_merge_sort Z.le).
  - intros k. rewrite merge_sort_Permutation, elem_of_dom, list_elem_of_fmap. split.
    + intros ([k' m] & -> & Hm). apply elem_of_map_to_list in Hm. eauto.
    + intros [m Hm]. exists (k, m). split; [done|]. by apply elem_of_map_to_list.
  - intros k m Hm. apply map_lookup_filter_Some in Hm as [Hm Hne]. apply Hn in Hm. cbn in Hne. set_solver.
Qed.

Lemma reachable_ring_ok hr : ring_reachable hr -> ring_ok hr.
Proof.
  induction 1; [|by apply ring_ok_add|by apply ring_ok_remove]. split; cbn.
  - constructor.
  - intros k. rewrite dom_empty. set_solver.
  - intros k n. by rewrite lookup_empty.
Qed.

(** ** [GetNodes] takes from the order of preference *)

Definition placement (key : string) (count : Z) (hr : HashRing) : list string :=
  match GetNodes key count hr with inl _ => [] | inr l => l end.

Lemma uniq_keys hr : ring_ok hr -> uniq (keys hr) = merge_sort Z.le (elements (dom (ring hr))).
Proof.
  intros [Hs Hk _]. apply sorted_keys_unique; [by apply StronglySorted_uniq|apply NoDup_uniq|].
  intros k. by rewrite elem_of_uniq.
Qed.

Lemma search_keys hr h : ring_ok hr ->
  let idx := sort_Search (length (keys hr)) (fun i => h <=? default 0 (keys hr !! i)) in
  (idx <= length (keys hr))%nat /\ drop idx (keys hr) ++ take idx (keys hr) = from_hash h (keys hr).
Proof.
  intros [Hs _ _] idx.
  destruct (search_between_spec (length (keys hr)) (fun i => h <=? default 0 (keys hr !! i)) 0 (length (keys hr))) as (H1 & H2 & H3).
  - lia.
  - lia.
  - intros a b Hab. rewrite !Z.leb_le. destruct (lookup_lt_is_Some_2 (keys hr) a ltac:(lia)) as [x Hx].
    destruct (lookup_lt_is_Some_2 (keys hr) b ltac:(lia)) as [y Hy]. rewrite Hx, Hy. cbn. intros Hle.
    destruct (decide (a = b)) as [->|Hne]; [congruence|].
    assert (x <= y); [|lia]. eapply (StronglySorted_lookup_lt Z.le); [exact Hs|exact Hx|exact Hy|lia].
  - fold (sort_Search (length (keys hr)) (fun i => h <=? default 0 (keys hr !! i))) in H1, H2, H3. fold idx in H1, H2, H3.
    split; [lia|]. apply sorted_split; [done|lia| |].
    + intros a k Ha Hk. specialize (H2 a ltac:(lia)). rewrite Hk in H2. cbn in H2. lia.
    + intros a k Ha Hk. specialize (H3 a (conj Ha (lookup_lt_Some _ _ _ Hk))). rewrite Hk in H3. cbn in H3. lia.
Qed.

Lemma preference_elem r h m : m ∈ preference r h <-> exists k, r !! k = Some m.
Proof.
  unfold preference. rewrite elem_of_uniq, list_elem_of_fmap. split.
  - intros (k & -> & Hk). rewrite elem_of_from_hash, ring_keys_elem, elem_of_dom in Hk. destruct Hk as [m Hm].
    exists k. unfold node_at. by rewrite Hm.
  - intros [k Hk]. exists k. unfold node_at. rewrite Hk. split; [done|]. rewrite elem_of_from_hash, ring_keys_elem, elem_of_dom. eauto.
Qed.

Lemma placement_spec key count hr : ring_ok hr ->
  placement key count hr = take (Z.to_nat count) (preference (ring hr) (hashKey key)).
Proof.
  intros Hok. unfold placement, GetNodes. destruct (keys hr) as [|k0 ks] eqn:Ek.
  { assert (E : dom (ring hr) = ∅); [|unfold preference; rewrite E, elements_empty; symmetry; apply take_nil].
    apply set_eq. intros k. rewrite <- (ok_keys _ Hok), Ek. set_solver. }
  rewrite <- Ek. clear k0 ks Ek. destruct (search_keys hr (hashKey key) Hok) as [Hi Hrot]. set (idx := sort_Search _ _) in *.
  rewrite walk_spec by set_solver. cbn [app length]. rewrite visited_rotation, Hrot by done. rewrite Z.sub_0_r. f_equal.
  rewrite list_filter_all by (apply Forall_forall; set_solver). unfold preference.
  rewrite <- (uniq_keys hr Hok), <- uniq_from_hash. by rewrite uniq_fmap_uniq.
Qed.

Lemma preference_short hr h : ring_ok hr -> (length (preference (ring hr) h) <= size (nodes hr))%nat.
Proof.
  intros Hok. rewrite <- (size_list_to_set (C := gset string)) by apply NoDup_uniq. apply subseteq_size.
  intros m. rewrite elem_of_list_to_set, preference_elem. intros [k Hk]. by eapply ok_nodes.
Qed.

(** All nodes that own part of the ring, in order of preference for a key. *)
Definition all_nodes (key : string) (hr : HashRing) : list string := placement key (Z.of_nat (size (nodes hr))) hr.

Lemma all_nodes_spec key hr : ring_ok hr -> all_nodes key hr = preference (ring hr) (hashKey key).
Proof.
  intros Hok. unfold all_nodes. rewrite placement_spec by done. apply take_ge.
  pose proof (preference_short hr (hashKey key) Hok). lia.
Qed.

(** Placement is consistent hashing, in every ring that additions and
    removals lead to.  For each key there is an order of preference of the
    nodes that own part of the ring, each a member, without repetitions, and a
    request for any number of nodes gets the first ones.  Removing a node
    removes it from the order and moves nothing else; adding one whose virtual
    nodes hit no used position only inserts it. *)
Theorem placement_consistent hr key n :
  ring_reachable hr ->
  NoDup (all_nodes key hr) /\
  (forall m, m ∈ all_nodes key hr <-> exists h, ring hr !! h = Some m) /\
  (forall m, m ∈ all_nodes key hr -> IsNodeInRing m hr = true) /\
  (forall count, placement key count hr = take (Z.to_nat count) (all_nodes key hr)) /\
  all_nodes key (RemoveNode n hr) = filter (fun m => m <> n) (all_nodes key hr) /\
  (IsNodeInRing n hr = false -> (forall h, h ∈ vnode_hashes n hr -> ring hr !! h = None) ->
   filter (fun m => m <> n) (all_nodes key (AddNode n hr)) = all_nodes key hr).
Proof.
  intros Hok%reachable_ring_ok. pose proof (ring_ok_add n hr Hok) as Ha. pose proof (ring_ok_remove n hr Hok) as Hr.
  rewrite !all_nodes_spec by done.
  assert (Hmem : forall m, m ∈ preference (ring hr) (hashKey key) -> m ∈ nodes hr).
  { intros m. rewrite preference_elem. intros [k Hk]. by eapply ok_nodes. }
  splits.
  - apply NoDup_uniq.
  - intros m. apply preference_elem.
  - intros m Hm%Hmem. by apply bool_decide_eq_true.
  - intros count. by apply placement_spec.
  - unfold RemoveNode. destruct (IsNodeInRing n hr) eqn:E; cbn; [by rewrite preference_restrict|].
    symmetry. apply list_filter_all, Forall_forall. intros m Hm%Hmem ->. apply bool_decide_eq_false in E. done.
  - intros E Hfresh. rewrite preference_restrict. f_equal. unfold AddNode. rewrite E, add_vnodes_spec. cbn [ring].
    apply map_eq. intros k. apply option_eq. intros m. rewrite map_lookup_filter_Some, ring_after_add. cbn.
    apply bool_decide_eq_false in E. case_bool_decide as Hk.
    + rewrite (Hfresh k Hk). split; [intros [[= ->] ?]; done|done].
    + split; [tauto|]. intros Hm. split; [done|]. intros ->. by apply E, (ok_nodes _ Hok k).
Qed.

Definition three_nodes : HashRing := AddNode "c" (AddNode "b" (AddNode "a" (NewHashRing 3))).

Lemma placement_consistent_witness :
  all_nodes "obj" (RemoveNode "a" three_nodes) = filter (fun m => m <> "a") (all_nodes "obj" three_nodes) /\
  length (all_nodes "obj" three_nodes) = 3%nat.
Proof.
  split; [|vm_compute; reflexivity].
  destruct (placement_consistent three_nodes "obj" "a") as (_ & _ & _ & _ & H & _); [|exact H].
  repeat constructor.
Defined.
