(* ===== verification/Erasure.v ===== *)
(** * Erasure coding of the object store

    [vault/pkg/erasure/reed_solomon.go]: data shards with XOR parity, and
    writes with a quorum.  A byte is a [Z] below 256; shard counts are numbers
    a machine can allocate, so that their sums do not wrap. *)

From S2P Require Import Prelude GoStrings.
Local Open Scope Z_scope.

Record ErasureCodec := mkCodec { DataShards : Z; ParityShards : Z }.

Definition NewErasureCodec (dataShards parityShards : Z) : string + ErasureCodec :=
  if (dataShards <=? 0) || (parityShards <=? 0) then inl "erasure coding requires positive shard counts"
  else inr (mkCodec dataShards parityShards).

(** [shard := make([]byte, shardSize); copy(shard, src)] *)
Definition padded (shardSize : nat) (src : list Z) : list Z := take shardSize (src ++ replicate shardSize 0).

Definition data_shard (data : list Z) (shardSize : nat) (i : nat) : list Z :=
  let start := (i * shardSize)%nat in
  let end_ := (start + shardSize)%nat in
  if (length data <=? start)%nat then replicate shardSize 0
  else if (length data <? end_)%nat then padded shardSize (drop start data)
  else padded shardSize (take shardSize (drop start data)).

(** [parity[b] ^= shards[i][b]] for each [b]. *)
Definition xor_shard (parity shard : list Z) : list Z := zip_with Z.lxor parity shard.

Definition parity_shard (shardSize : nat) (shards : list (list Z)) : list Z :=
  fold_left xor_shard shards (replicate shardSize 0).

Definition shard_size (e : ErasureCodec) (data : list Z) : nat :=
  Z.to_nat (Z.quot (Z.of_nat (length data) + DataShards e - 1) (DataShards e)).

Definition Encode (e : ErasureCodec) (data : list Z) : string + list (list Z) :=
  match data with
  | [] => inl "cannot encode empty payload"
  | _ =>
      let shardSize := shard_size e data in
      let shards := data_shard data shardSize <$> seq 0 (Z.to_nat (DataShards e)) in
      inr (shards ++ replicate (Z.to_nat (ParityShards e)) (parity_shard shardSize shards))
  end.

(** [None]: a negative size panics when the result is cut. *)
Definition Reconstruct (e : ErasureCodec) (shards : list (list Z)) (originalSize : Z) : option (string + list Z) :=
  if Z.of_nat (length shards) <? DataShards e then Some (inl "insufficient shards for reconstruction") else
  let reconstructed := concat (take (Z.to_nat (DataShards e)) shards) in
  if originalSize <? Z.of_nat (length reconstructed) then
    if originalSize <? 0 then None else Some (inr (take (Z.to_nat originalSize) reconstructed))
  else Some (inr reconstructed).

(** ** Writes with a quorum *)

Record QuorumWriteStatus := mkStatus {
  TotalShards : Z; st_DataShards : Z; st_ParityShards : Z; VerifiedShards : Z; QuorumSatisfied : bool;
}.

(** The loop that receives the results, in order of arrival. *)
Fixpoint collect (results : list (option string)) (verified : Z) (firstErr : option string) : Z * option string :=
  match results with
  | [] => (verified, firstErr)
  | None :: results => collect results (verified + 1) firstErr
  | Some err :: results => collect results verified (match firstErr with None => Some err | some => some end)
  end.

(** [arrival] lists the indexes of the shards in the order in which the
    writers answer. *)
Definition WriteWithQuorum (e : ErasureCodec) (shards : list (list Z)) (minQuorum : Z) (writer : nat -> list Z -> option string)
    (arrival : list nat) : option QuorumWriteStatus * option string :=
  let totalShards := DataShards e + ParityShards e in
  if negb (Z.of_nat (length shards) =? totalShards) then
    (None, Some ("shard count mismatch: got " +:+ FormatInt (Z.of_nat (length shards)) +:+ ", expected " +:+ FormatInt totalShards))
  else
    let quorum := if minQuorum <=? 0 then DataShards e else minQuorum in
    let '(verified, firstErr) := collect ((fun i => writer i (nth i shards [])) <$> arrival) 0 None in
    let status := mkStatus totalShards (DataShards e) (ParityShards e) verified (quorum <=? verified) in
    if QuorumSatisfied status then (Some status, None)
    else (Some status,
      Some ("quorum write failed: verified " +:+ FormatInt verified +:+ "/" +:+ FormatInt totalShards +:+ " shards (required: " +:+
            FormatInt quorum +:+ "). First error: " +:+ default "<nil>" firstErr)).

(** ** Shards hold the data *)

Lemma data_shard_eq data s i : data_shard data s i = take s (drop (i * s) data ++ replicate s 0).
Proof.
  unfold data_shard, padded. destruct (Nat.leb_spec (length data) (i * s)) as [H|H].
  { rewrite drop_ge by done. cbn. by rewrite take_ge by (by rewrite length_replicate). }
  destruct (Nat.ltb_spec (length data) (i * s + s)) as [H2|H2]; [done|].
  rewrite take_app_le by (rewrite length_take, length_drop; lia). rewrite take_take, Nat.min_id.
  by rewrite take_app_le by (rewrite length_drop; lia).
Qed.

Lemma length_data_shard data s i : length (data_shard data s i) = s.
Proof. rewrite data_shard_eq, length_take, length_app, length_replicate. lia. Qed.

Lemma cut_step s m (l : list Z) :
  take s (l ++ replicate s 0) ++ take m (drop s l ++ replicate m 0) = take (s + m) (l ++ replicate (s + m) 0).
Proof.
  destruct (decide (s <= length l)%nat) as [H|H].
  - rewrite take_app_le by done. rewrite <- (take_drop s l) at 3. rewrite <- app_assoc.
    rewrite take_app_add' by (rewrite length_take; lia). f_equal.
    apply list_eq. intros j. destruct (decide (j < m)%nat); [|by rewrite !lookup_take_ge by lia].
    rewrite !lookup_take_lt by done. rewrite !lookup_app. destruct (drop s l !! j); [done|].
    destruct (decide (j - length (drop s l) < m)%nat); [|rewrite !length_drop in *; lia].
    by rewrite !lookup_replicate_2 by lia.
  - rewrite (drop_ge l) by lia. cbn [app]. rewrite (take_ge (replicate m 0)) by (by rewrite length_replicate).
    rewrite !take_app. rewrite !(take_ge l) by lia. rewrite <- app_assoc. f_equal. rewrite !take_replicate, <- replicate_add.
    f_equal. lia.
Qed.

Lemma concat_shards data s k n :
  concat (data_shard data s <$> seq k n) = take (n * s) (drop (k * s) data ++ replicate (n * s) 0).
Proof.
  revert k. induction n as [|n IH]; intros k; [done|]. cbn [seq]. rewrite fmap_cons. cbn [concat].
  rewrite IH, data_shard_eq. replace (drop (S k * s) data) with (drop s (drop (k * s) data)) by (rewrite drop_drop; f_equal; lia).
  rewrite cut_step. done.
Qed.

(** ** Parity *)

Section Xor.
Context (s : nat).

Definition of_size (l : list Z) : Prop := length l = s.

Lemma xor_size a b : of_size a -> of_size b -> of_size (xor_shard a b).
Proof. unfold of_size, xor_shard. rewrite length_zip_with. lia. Qed.

Lemma xor_comm a b : xor_shard a b = xor_shard b a.
Proof. revert b. induction a as [|x a IH]; intros [|y b]; cbn; [done..|]. unfold xor_shard in IH. by rewrite IH, Z.lxor_comm. Qed.

Lemma xor_assoc a b c : xor_shard a (xor_shard b c) = xor_shard (xor_shard a b) c.
Proof.
  revert b c. induction a as [|x a IH]; intros [|y b] [|z c]; cbn; try done. unfold xor_shard in IH. by rewrite IH, Z.lxor_assoc.
Qed.

Lemma xor_zeros a : of_size a -> xor_shard (replicate s 0) a = a.
Proof.
  unfold of_size. intros <-. induction a as [|x a IH]; [done|]. cbn. unfold xor_shard in IH. by rewrite IH.
Qed.

Lemma xor_self a b : of_size a -> of_size b -> xor_shard a (xor_shard a b) = b.
Proof.
  unfold of_size. intros <-. revert b. induction a as [|x a IH]; intros [|y b] Hb; try done. cbn in *.
  unfold xor_shard in IH. rewrite IH by lia. by rewrite <- Z.lxor_assoc, Z.lxor_nilpotent, Z.lxor_0_l.
Qed.

Lemma parity_size l : Forall of_size l -> of_size (parity_shard s l).
Proof.
  unfold parity_shard. assert (Hz : of_size (replicate s 0)) by apply length_replicate. revert Hz. generalize (replicate s 0).
  induction l as [|x l IH]; intros z Hz Hl; [done|]. cbn. apply Forall_cons in Hl as [Hx Hl]. apply IH; [|done]. by apply xor_size.
Qed.

Lemma fold_xor a l : of_size a -> Forall of_size l -> fold_left xor_shard l a = xor_shard a (parity_shard s l).
Proof.
  revert a. induction l as [|x l IH]; intros a Ha Hl.
  - cbn. by rewrite xor_comm, xor_zeros.
  - apply Forall_cons in Hl as [Hx Hl]. unfold parity_shard. cbn. rewrite xor_zeros by done.
    rewrite (IH (xor_shard a x)), (IH x) by (try apply xor_size; done). by rewrite xor_assoc.
Qed.

Lemma parity_cons x l : of_size x -> Forall of_size l -> parity_shard s (x :: l) = xor_shard x (parity_shard s l).
Proof. intros Hx Hl. unfold parity_shard at 1. cbn. rewrite xor_zeros by done. by apply fold_xor. Qed.

Lemma parity_middle l x k : of_size x -> Forall of_size l -> Forall of_size k ->
  parity_shard s (l ++ x :: k) = xor_shard x (parity_shard s (l ++ k)).
Proof.
  intros Hx Hl Hk. induction Hl as [|y l Hy Hl IH]; [by apply parity_cons|]. cbn [app].
  assert (H1 : Forall of_size (l ++ k)) by by apply Forall_app.
  assert (H2 : Forall of_size (l ++ x :: k)) by (apply Forall_app; split; [done|by constructor]).
  rewrite !parity_cons by done. rewrite IH, !xor_assoc. by rewrite (xor_comm y x).
Qed.

(** A shard is the parity of the others and the parity shard. *)
Lemma parity_recovers l i x : Forall of_size l -> l !! i = Some x ->
  parity_shard s (parity_shard s l :: delete i l) = x.
Proof.
  intros Hl Hx. pose proof (Forall_lookup_1 _ _ _ _ Hl Hx) as Hsx. apply take_drop_middle in Hx. rewrite delete_take_drop.
  rewrite <- Hx in Hl. apply Forall_app in Hl as [H1 H2]. apply Forall_cons in H2 as [_ H2].
  assert (H12 : Forall of_size (take i l ++ drop (S i) l)) by by apply Forall_app.
  rewrite parity_cons; [|rewrite <- Hx; apply parity_size, Forall_app; split; [done|by constructor]|done].
  rewrite <- Hx at 1. rewrite parity_middle by done. rewrite xor_comm, (xor_comm x). apply xor_self; [by apply parity_size|done].
Qed.
End Xor.

(** ** Encoding and reconstruction *)

Lemma shard_size_enough e data : 0 < DataShards e -> (length data <= Z.to_nat (DataShards e) * shard_size e data)%nat.
Proof.
  intros Hd. unfold shard_size. rewrite Z.quot_div_nonneg by lia.
  pose proof (Z.mul_succ_div_gt (Z.of_nat (length data) + DataShards e - 1) (DataShards e) Hd).
  assert (0 <= (Z.of_nat (length data) + DataShards e - 1) / DataShards e) by (apply Z.div_pos; lia). nia.
Qed.

(** Encoding gives the data shards followed by the parity shards, all of
    one size; reconstruction from them gives the payload back; and every
    single data shard is determined by the others and any one parity shard. *)
Theorem erasure_recovers d p e data shards :
  NewErasureCodec d p = inr e -> Encode e data = inr shards ->
  Z.of_nat (length shards) = d + p /\
  Forall (fun x => length x = shard_size e data) shards /\
  Reconstruct e shards (Z.of_nat (length data)) = Some (inr data) /\
  (forall i j x q, (Z.of_nat i < d) -> d <= Z.of_nat j -> shards !! i = Some x -> shards !! j = Some q ->
     parity_shard (shard_size e data) (q :: delete i (take (Z.to_nat d) shards)) = x).
Proof.
  unfold NewErasureCodec. destruct (Z.leb_spec d 0) as [|Hd]; [done|]. destruct (Z.leb_spec p 0) as [|Hp]; [done|]. intros [= <-] He.
  destruct data as [|b data0] eqn:Ed; [done|]. rewrite <- Ed in *. clear b data0 Ed. set (e := mkCodec d p) in *.
  assert (He' : shards = (data_shard data (shard_size e data) <$> seq 0 (Z.to_nat d)) ++
    replicate (Z.to_nat p) (parity_shard (shard_size e data) (data_shard data (shard_size e data) <$> seq 0 (Z.to_nat d)))).
  { unfold Encode in He. destruct data; [done|]. injection He as <-. done. }
  clear He. set (s := shard_size e data) in *. set (ds := data_shard data s <$> seq 0 (Z.to_nat d)) in *.
  assert (Hds : length ds = Z.to_nat d) by (unfold ds; by rewrite length_fmap, length_seq).
  assert (Hsz : Forall (of_size s) ds).
  { apply Forall_fmap, Forall_true. intros i. apply length_data_shard. }
  assert (Htk : take (Z.to_nat d) shards = ds) by (subst shards; by apply take_app_length').
  splits.
  - subst shards. rewrite length_app, length_replicate, Hds. lia.
  - subst shards. apply Forall_app. split; [done|]. apply Forall_replicate. by apply parity_size.
  - unfold Reconstruct. cbn [DataShards e]. rewrite Htk.
    destruct (Z.ltb_spec (Z.of_nat (length shards)) d) as [H|_]; [subst shards; rewrite length_app, Hds in H; lia|].
    pose proof (shard_size_enough e data Hd) as Hs. cbn [DataShards e] in Hs. fold s in Hs.
    assert (Hc : concat ds = take (Z.to_nat d * s) (data ++ replicate (Z.to_nat d * s) 0)) by apply concat_shards.
    assert (Hl : length (concat ds) = (Z.to_nat d * s)%nat) by (rewrite Hc, length_take, length_app, length_replicate; lia).
    destruct (Z.ltb_spec (Z.of_nat (length data)) (Z.of_nat (length (concat ds)))) as [H|H].
    + destruct (Z.ltb_spec (Z.of_nat (length data)) 0); [lia|]. do 2 f_equal. rewrite Nat2Z.id, Hc, take_take.
      by rewrite take_app_le, take_ge by lia.
    + do 2 f_equal. rewrite Hc. by rewrite take_app_le, take_ge by lia.
  - intros i j x q Hi Hj Hx Hq. rewrite Htk. subst shards. rewrite lookup_app_l in Hx by lia. rewrite lookup_app_r in Hq by lia.
    apply lookup_replicate in Hq as [-> _]. by apply parity_recovers.
Qed.

Definition five_bytes : list (list Z) := [[1; 2]; [3; 4]; [5; 0]; [7; 6]; [7; 6]].

Lemma erasure_recovers_witness :
  Encode (mkCodec 3 2) [1; 2; 3; 4; 5] = inr five_bytes /\
  Reconstruct (mkCodec 3 2) five_bytes 5 = Some (inr [1; 2; 3; 4; 5]) /\
  parity_shard 2 [[7; 6]; [1; 2]; [5; 0]] = [3; 4].
Proof.
  destruct (erasure_recovers 3 2 (mkCodec 3 2) [1; 2; 3; 4; 5] five_bytes) as (_ & _ & H & Hp); [reflexivity..|].
  split; [reflexivity|]. split; [exact H|].
  apply (Hp 1%nat 3%nat [3; 4] [7; 6]); [lia|lia|reflexivity|reflexivity].
Defined.

(** Reconstruction does not use the parity: with a data shard lost (an empty
    slice in its place) it returns other bytes without an error. *)
Example lost_shard_not_recovered :
  Reconstruct (mkCodec 3 2) [[1; 2]; []; [5; 0]; [7; 6]; [7; 6]] 5 = Some (inr [1; 2; 5; 0]).
Proof. reflexivity. Qed.

(** ** The quorum does not depend on the order of the answers *)

Definition succeeded (r : option string) : bool := match r with None => true | Some _ => false end.

Definition successes (e : ErasureCodec) (shards : list (list Z)) (writer : nat -> list Z -> option string) : nat :=
  length (filter (fun i => succeeded (writer i (nth i shards []))) (seq 0 (Z.to_nat (DataShards e + ParityShards e)))).

Lemma collect_spec l v err : (collect l v err).1 = v + Z.of_nat (length (filter (fun r => succeeded r) l)).
Proof.
  revert v err. induction l as [|[m|] l IH]; intros v err; cbn [collect]; [cbn; lia| |].
  - rewrite IH, filter_cons_False by (cbn; auto). done.
  - rewrite IH, filter_cons_True by done. cbn. lia.
Qed.

Lemma filter_map_length {A B} (f : A -> B) (g : B -> bool) l :
  length (filter (fun y => g y) (f <$> l)) = length (filter (fun x => g (f x)) l).
Proof. induction l as [|x l IH]; [done|]. rewrite fmap_cons, !filter_cons. cbn. destruct (decide (g (f x))); cbn; by rewrite IH. Qed.

(** A quorum write reports how many writers succeeded, and fails exactly
    when these are fewer than the quorum, whatever the order in which the
    concurrent writers answer. *)
Theorem quorum_exact d p e shards minQuorum writer arrival :
  NewErasureCodec d p = inr e -> Z.of_nat (length shards) = d + p -> arrival ≡ₚ seq 0 (Z.to_nat (d + p)) ->
  exists status err, WriteWithQuorum e shards minQuorum writer arrival = (Some status, err) /\
    VerifiedShards status = Z.of_nat (successes e shards writer) /\
    (err = None <-> (if minQuorum <=? 0 then d else minQuorum) <= VerifiedShards status).
Proof.
  unfold NewErasureCodec. case_match; [done|]. intros [= <-] Hlen Hperm. unfold WriteWithQuorum, successes. cbn [DataShards ParityShards].
  rewrite Hlen, Z.eqb_refl. cbn [negb].
  pose proof (collect_spec ((fun i => writer i (nth i shards [])) <$> arrival) 0 None) as Hc.
  destruct (collect _ _ _) as [v err]. cbn [fst] in Hc. rewrite filter_map_length, Hperm, Z.add_0_l in Hc. subst v.
  set (q := if minQuorum <=? 0 then d else minQuorum). destruct (Z.leb_spec q (Z.of_nat (length
    (filter (fun x => succeeded (writer x (nth x shards []))) (seq 0 (Z.to_nat (d + p))))))) as [Hq|Hq]; cbn [QuorumSatisfied].
  - eexists _, _. split; [reflexivity|]. cbn. split; [done|]. split; [done|done].
  - eexists _, _. split; [reflexivity|]. cbn. split; [done|]. split; [done|lia].
Qed.

Lemma quorum_exact_witness :
  exists status, WriteWithQuorum (mkCodec 3 2) five_bytes 4 (fun i _ => if (i =? 1)%nat then Some "down" else None) [4; 0; 1; 3; 2]%nat = (Some status, None) /\
    VerifiedShards status = 4.
Proof.
  destruct (quorum_exact 3 2 (mkCodec 3 2) five_bytes 4 (fun i _ => if (i =? 1)%nat then Some "down" else None) [4; 0; 1; 3; 2]%nat)
    as (status & err & H1 & H2 & H3); [reflexivity|reflexivity| |].
  - vm_compute. solve_Permutation.
  - exists status. rewrite H1. replace (Z.of_nat _) with 4 in H2 by reflexivity. split; [|exact H2]. f_equal. apply H3. rewrite H2. vm_compute. intros E; discriminate E.
Defined.

(** ** Vector clocks ([vault/pkg/vectorclock/crdt_repl.go]) *)

Module VectorClock.

Record VectorClockReplicationNode := mkNode { NodeID : string; Clock : gmap string Z; SyncedItems : Z }.

Definition NewVectorClockReplicationNode (nodeID : string) : VectorClockReplicationNode := mkNode nodeID ∅ 0.

(** Reading a missing entry gives 0. *)
Definition at_node (c : gmap string Z) (k : string) : Z := default 0 (c !! k).

Definition IncrementClock (v : VectorClockReplicationNode) : Z * VectorClockReplicationNode :=
  let c := <[NodeID v := wrapu64 (at_node (Clock v) (NodeID v) + 1)]> (Clock v) in
  (at_node c (NodeID v), mkNode (NodeID v) c (SyncedItems v)).

(** One round of the loop over the remote clock. *)
Definition merge_entry (acc : gmap string Z * bool) (kv : string * Z) : gmap string Z * bool :=
  let '(c, updated) := acc in
  let '(k, val) := kv in
  if at_node c k <? val then (<[k := val]> c, true) else (c, updated).

Definition MergeVectorClocks (remoteClock : gmap string Z) (v : VectorClockReplicationNode) : bool * VectorClockReplicationNode :=
  let '(c, updated) := fold_left merge_entry (map_to_list remoteClock) (Clock v, false) in
  (updated, mkNode (NodeID v) c (if updated then wrapu64 (SyncedItems v + 1) else SyncedItems v)).

(** ** Merging is the pointwise maximum *)

Definition clock_le (a b : gmap string Z) : Prop := forall k, at_node a k <= at_node b k.
Definition nonneg (c : gmap string Z) : Prop := forall k, 0 <= at_node c k.

(** The entry of [k] once the entries [l] of a clock have been merged. *)
Lemma merge_entries l c u k :
  NoDup l.*1 ->
  (fold_left merge_entry l (c, u)).1 !! k =
    match (list_to_map l : gmap string Z) !! k with
    | Some val => if at_node c k <? val then Some val else c !! k
    | None => c !! k
    end.
Proof.
  revert c u. induction l as [|[j val] l IH]; intros c u Hnd; [done|]. cbn in Hnd. apply NoDup_cons in Hnd as [Hj Hnd].
  rewrite list_to_map_cons. cbn [fold_left merge_entry fst snd].
  assert (E : forall c' : gmap string Z, (forall i, i <> j -> c' !! i = c !! i) -> forall u', k <> j ->
    (fold_left merge_entry l (c', u')).1 !! k =
      match (list_to_map l : gmap string Z) !! k with Some val => if at_node c k <? val then Some val else c !! k | None => c !! k end).
  { intros c' Hc u' Hk. rewrite IH by done. unfold at_node. by rewrite !Hc. }
  destruct (decide (k = j)) as [->|Hk].
  - rewrite lookup_insert_eq. destruct (at_node c j <? val) eqn:Ev; rewrite IH by done;
      rewrite not_elem_of_list_to_map_1 by done; [by rewrite lookup_insert_eq|done].
  - rewrite lookup_insert_ne by done. destruct (at_node c j <? val); apply E; try done.
    intros i Hi. by rewrite lookup_insert_ne.
Qed.

Lemma merge_entries_flag l c u :
  NoDup l.*1 ->
  (fold_left merge_entry l (c, u)).2 = u || existsb (fun kv => at_node c kv.1 <? kv.2) l.
Proof.
  revert c u. induction l as [|[j val] l IH]; intros c u Hnd; cbn [fold_left existsb fst snd]; [by rewrite orb_false_r|].
  cbn in Hnd. apply NoDup_cons in Hnd as [Hj Hnd]. cbn [merge_entry]. destruct (at_node c j <? val) eqn:Ev.
  - rewrite IH by done. cbn. by rewrite orb_true_r.
  - rewrite IH by done. done.
Qed.

Lemma merge_lookup r v k : nonneg (Clock v) ->
  Clock (MergeVectorClocks r v).2 !! k =
    if at_node (Clock v) k <? at_node r k then Some (at_node r k) else Clock v !! k.
Proof.
  intros Hv. unfold MergeVectorClocks. pose proof (merge_entries (map_to_list r) (Clock v) false k (NoDup_fst_map_to_list r)) as H.
  destruct (fold_left _ _ _) as [c u]. cbn in *. rewrite H, list_to_map_to_list. unfold at_node at 3 4.
  destruct (r !! k) as [val|]; cbn; [done|]. destruct (Z.ltb_spec (at_node (Clock v) k) 0); [|done]. specialize (Hv k). lia.
Qed.

Lemma merge_at r v k : nonneg (Clock v) ->
  at_node (Clock (MergeVectorClocks r v).2) k = Z.max (at_node (Clock v) k) (at_node r k).
Proof.
  intros Hv. unfold at_node at 1. rewrite merge_lookup by done. destruct (Z.ltb_spec (at_node (Clock v) k) (at_node r k)); cbn; [lia|].
  fold (at_node (Clock v) k). lia.
Qed.

Lemma merge_flag r v : nonneg (Clock v) ->
  (MergeVectorClocks r v).1 = false <-> clock_le r (Clock v).
Proof.
  intros Hv. unfold MergeVectorClocks.
  pose proof (merge_entries_flag (map_to_list r) (Clock v) false (NoDup_fst_map_to_list r)) as H.
  destruct (fold_left _ _ _) as [c u]. cbn in *. subst u. rewrite <- not_true_iff_false, existsb_exists. split.
  - intros Hn k. unfold at_node at 1. destruct (r !! k) as [val|] eqn:E; cbn; [|apply Hv].
    destruct (Z.ltb_spec (at_node (Clock v) k) val); [|done]. destruct Hn. exists (k, val). cbn. split; [|lia].
    by apply list_elem_of_In, elem_of_map_to_list.
  - intros Hle ([k val] & Hin & Hlt). apply list_elem_of_In, elem_of_map_to_list in Hin. cbn in Hlt.
    specialize (Hle k). unfold at_node at 1 in Hle. rewrite Hin in Hle. cbn in Hle. lia.
Qed.

(** ** Delivery of any number of clocks *)

Definition deliver (cs : list (gmap string Z)) (v : VectorClockReplicationNode) : VectorClockReplicationNode :=
  fold_left (fun v r => (MergeVectorClocks r v).2) cs v.

Definition latest (cs : list (gmap string Z)) (k : string) : Z := foldr (fun c => Z.max (at_node c k)) 0 cs.

Lemma deliver_lookup cs v k : nonneg (Clock v) ->
  Clock (deliver cs v) !! k = if at_node (Clock v) k <? latest cs k then Some (latest cs k) else Clock v !! k.
Proof.
  revert v. induction cs as [|r cs IH]; intros v Hv; cbn.
  - destruct (Z.ltb_spec (at_node (Clock v) k) 0); [|done]. specialize (Hv k). lia.
  - rewrite IH by (intros j; rewrite merge_at by done; specialize (Hv j); lia). rewrite merge_at, merge_lookup by done.
    unfold latest. repeat match goal with |- context [?a <? ?b] => destruct (Z.ltb_spec a b) end; try (exfalso; lia); try done; f_equal; lia.
Qed.

Lemma latest_same cs cs' k : (forall c, c ∈ cs <-> c ∈ cs') -> latest cs k = latest cs' k.
Proof.
  assert (Hge : forall cs c, c ∈ cs -> at_node c k <= latest cs k).
  { intros l c. induction 1; unfold latest in *; cbn; lia. }
  assert (Hex : forall l, latest l k = 0 \/ exists c, c ∈ l /\ latest l k = at_node c k).
  { induction l as [|c l IH]; [by left|]. cbn. fold (latest l k). destruct (Z.max_spec (at_node c k) (latest l k)) as [[_ ->]|[_ ->]].
    - destruct IH as [IH|(d & Hd & IH)]; [by left|]. right. exists d. split; [by right|done].
    - right. exists c. split; [left|done]. }
  assert (Hle : forall l l', (forall c, c ∈ l -> c ∈ l') -> latest l k <= latest l' k).
  { intros l l' Hs. destruct (Hex l) as [->|(c & Hc & ->)]; [|by apply Hge, Hs].
    clear. induction l'; cbn; [done|]. fold (latest l' k). lia. }
  intros Hs. apply Z.le_antisymm; apply Hle; intros c; apply Hs.
Qed.

Inductive clock_reachable : VectorClockReplicationNode -> Prop :=
| vc_new n : clock_reachable (NewVectorClockReplicationNode n)
| vc_inc v : clock_reachable v -> clock_reachable (IncrementClock v).2
| vc_merge r v : clock_reachable v -> clock_reachable (MergeVectorClocks r v).2.

Lemma reachable_nonneg v : clock_reachable v -> nonneg (Clock v).
Proof.
  induction 1 as [n|v _ IH|r v _ IH]; intros k.
  - unfold at_node. cbn. by rewrite lookup_empty.
  - cbn. unfold at_node. destruct (decide (k = NodeID v)) as [->|Hk]; [rewrite lookup_insert_eq|rewrite lookup_insert_ne by done; apply IH].
    cbn. apply wrapu64_range.
  - rewrite merge_at by done. specialize (IH k). lia.
Qed.

(** Replicas converge.  In every reachable state, a merge takes the
    maximum of each entry and reports a change exactly when the remote clock
    knew something new; and two replicas that start equal and receive the same
    clocks, in any order and any number of times each, end with equal
    clocks. *)
Theorem clocks_converge v r cs cs' :
  clock_reachable v ->
  (forall k, at_node (Clock (MergeVectorClocks r v).2) k = Z.max (at_node (Clock v) k) (at_node r k)) /\
  ((MergeVectorClocks r v).1 = false <-> clock_le r (Clock v)) /\
  ((forall c, c ∈ cs <-> c ∈ cs') -> Clock (deliver cs v) = Clock (deliver cs' v)).
Proof.
  intros Hv%reachable_nonneg. splits; [intros k; by apply merge_at|by apply merge_flag|].
  intros Hs. apply map_eq. intros k. by rewrite !deliver_lookup, (latest_same cs cs') by done.
Qed.

Lemma clocks_converge_witness :
  let v := (IncrementClock (NewVectorClockReplicationNode "a")).2 in
  let b : gmap string Z := {["b" := 4; "a" := 1]} in
  let c : gmap string Z := {["b" := 2; "c" := 7]} in
  Clock (deliver [b; c; b] v) = Clock (deliver [c; b] v) /\ at_node (Clock (deliver [c; b] v)) "b" = 4.
Proof.
  intros v b c. split; [|reflexivity].
  apply (clocks_converge v b [b; c; b] [c; b]); [repeat constructor|]. set_solver.
Defined.

End VectorClock.
