(* ===== verification/Wal.v ===== *)
(** * The write-ahead log of the message broker

    [pulse/pkg/storage/wal.go]: framed records with a checksum, rotation into
    segments, and recovery that cuts off a damaged tail.  SHA-256 is a
    parameter of which only the length of its digests is used.  Opening,
    renaming and truncating files succeed; a write may fail after any number
    of bytes, which is also how a crash leaves the file. *)

From S2P Require Import Prelude GoStrings GoNumbers.
Local Open Scope Z_scope.

Class Digest := { sha256 : bytes -> bytes; sha256_length : forall b, length (sha256 b) = 32%nat }.

Record LogEntry := mkEntry { Topic : string; Payload : string; Timestamp : Z }.

Record WAL := mkWAL { file : bytes; maxSize : Z; bytesWrit : Z; rotated : list bytes }.

Definition OpenWAL (content : bytes) : WAL := mkWAL content (10 * 1024 * 1024) (Z.of_nat (length content)) [].

Definition SetMaxSize (size : Z) (w : WAL) : WAL := mkWAL (file w) size (bytesWrit w) (rotated w).

Section Wal.
Context `{hash : Digest}.

(** ** Appending *)

Definition header_of (topic payload : bytes) (timestamp : Z) : bytes :=
  PutUint32 (Z.of_nat (length topic)) ++ PutUint32 (Z.of_nat (length payload)) ++ PutUint64 timestamp.

(** The bytes of a record: header, topic, payload and checksum. *)
Definition frame (e : LogEntry) : bytes :=
  let topic := byt (Topic e) in
  let payload := byt (Payload e) in
  let header := header_of topic payload (Timestamp e) in
  header ++ topic ++ payload ++ sha256 (header ++ topic ++ payload).

(** [Cut n]: an error, with [n] bytes of the record in the file. *)
Inductive write_outcome := Written | Cut (n : nat).

Definition writeRecord (data : bytes) (o : write_outcome) (f : bytes) : option string * Z * bytes :=
  match o with
  | Written => (None, Z.of_nat (length data), f ++ data)
  | Cut n => (Some "wal: append write failed", 0, f ++ take n data)
  end.

Definition rotate_full (w : WAL) : WAL :=
  if maxSize w <=? bytesWrit w then mkWAL [] (maxSize w) 0 (rotated w ++ [file w]) else w.

Definition Append (topic payload : string) (timestamp : Z) (o : write_outcome) (w : WAL) : option string * WAL :=
  let w := rotate_full w in
  let '(err, written, f) := writeRecord (frame (mkEntry topic payload timestamp)) o (file w) in
  match err with
  | Some e => (Some e, mkWAL f (maxSize w) (bytesWrit w) (rotated w))
  | None => (None, mkWAL f (maxSize w) (bytesWrit w + written) (rotated w))
  end.

(** ** Recovery *)

(** [io.ReadFull]: [None] when fewer bytes are left. *)
Definition ReadFull (n : nat) (s : bytes) : option (bytes * bytes) :=
  if (length s <? n)%nat then None else Some (take n s, drop n s).

(** One record at the head of [s], with the rest; [None]: the file is cut. *)
Definition read_record (s : bytes) : option (LogEntry * bytes) :=
  '(header, s) ← ReadFull 16 s;
  let topicLen := Uint32 (take 4 header) in
  let payloadLen := Uint32 (take 4 (drop 4 header)) in
  let timestamp := wrap64 (Uint64 (drop 8 header)) in
  '(topic, s) ← ReadFull (Z.to_nat topicLen) s;
  '(payload, s) ← ReadFull (Z.to_nat payloadLen) s;
  '(checksum, s) ← ReadFull 32 s;
  if bool_decide (checksum = sha256 (header ++ topic ++ payload))
  then Some (mkEntry (str topic) (str payload) timestamp, s) else None.

(** The loop: the entries, and the offset at which the file is truncated. *)
Fixpoint recover_from (fuel : nat) (s : bytes) (offset : nat) (entries : list LogEntry) : list LogEntry * option nat :=
  match fuel with
  | O => (entries, None)
  | S fuel =>
      match s with
      | [] => (entries, None)
      | _ =>
          match read_record s with
          | None => (entries, Some offset)
          | Some (e, rest) => recover_from fuel rest (offset + (length s - length rest)) (entries ++ [e])
          end
      end
  end.

Definition truncateAndReopen (offset : nat) (w : WAL) : WAL :=
  mkWAL (take offset (file w)) (maxSize w) (Z.of_nat offset) (rotated w).

Definition Recover (w : WAL) : list LogEntry * WAL :=
  let '(entries, cut) := recover_from (length (file w)) (file w) 0 [] in
  (entries, match cut with Some offset => truncateAndReopen offset w | None => w end).

(** ** Reading back a record *)

Definition entry_ok (e : LogEntry) : Prop :=
  Z.of_nat (length (byt (Topic e))) < 2 ^ 32 /\ Z.of_nat (length (byt (Payload e))) < 2 ^ 32 /\ in_int64 (Timestamp e).

Lemma ReadFull_app n a s : length a = n -> ReadFull n (a ++ s) = Some (a, s).
Proof.
  intros <-. unfold ReadFull. rewrite length_app. destruct (Nat.ltb_spec (length a + length s) (length a)); [lia|].
  by rewrite take_app_length, drop_app_length.
Qed.

Lemma ReadFull_short n s : (length s < n)%nat -> ReadFull n s = None.
Proof. intros H. unfold ReadFull. by apply Nat.ltb_lt in H as ->. Qed.

Lemma length_header t p ts : length (header_of t p ts) = 16%nat.
Proof. unfold header_of, PutUint32, PutUint64. by rewrite !length_app, !length_big_endian. Qed.

Lemma header_topic t p ts : Z.of_nat (length t) < 2 ^ 32 -> Uint32 (take 4 (header_of t p ts)) = Z.of_nat (length t).
Proof.
  intros H. unfold header_of. rewrite take_app_length' by reflexivity. apply Uint32_Put. lia.
Qed.

Lemma header_payload t p ts : Z.of_nat (length p) < 2 ^ 32 -> Uint32 (take 4 (drop 4 (header_of t p ts))) = Z.of_nat (length p).
Proof.
  intros H. unfold header_of. rewrite drop_app_length' by reflexivity.
  rewrite take_app_length' by reflexivity. apply Uint32_Put. lia.
Qed.

Lemma header_time t p ts : in_int64 ts -> wrap64 (Uint64 (drop 8 (header_of t p ts))) = ts.
Proof.
  intros H. unfold header_of. rewrite app_assoc, drop_app_length' by reflexivity.
  rewrite Uint64_Put. by apply wrap64_wrapu64.
Qed.

Lemma read_record_frame e s : entry_ok e -> read_record (frame e ++ s) = Some (e, s).
Proof.
  intros (Ht & Hp & Hts). unfold read_record, frame. set (h := header_of _ _ _).
  rewrite <- !app_assoc. rewrite ReadFull_app by apply length_header. cbn [mbind option_bind].
  unfold h. rewrite header_topic, header_payload, header_time, !Nat2Z.id by done.
  rewrite ReadFull_app by done. cbn [mbind option_bind]. rewrite ReadFull_app by done. cbn [mbind option_bind].
  rewrite ReadFull_app by apply sha256_length. cbn [mbind option_bind]. rewrite bool_decide_true by done.
  rewrite !str_byt. by destruct e.
Qed.

(** A record that was cut short is not read. *)
Lemma read_record_torn e n : entry_ok e -> (n < length (frame e))%nat -> read_record (take n (frame e)) = None.
Proof.
  intros (Ht & Hp & _) Hn. unfold read_record, frame in *. set (t := byt (Topic e)) in *. set (p := byt (Payload e)) in *.
  set (h := header_of t p (Timestamp e)) in *. set (c := sha256 _) in *.
  assert (Hh : length h = 16%nat) by apply length_header. assert (Hc : length c = 32%nat) by apply sha256_length.
  rewrite !length_app in Hn.
  destruct (decide (n < 16)%nat) as [H|H]; [by rewrite ReadFull_short by (rewrite length_take; lia)|].
  rewrite take_app, (take_ge h) by lia. rewrite ReadFull_app by done. cbn [mbind option_bind].
  replace (Uint32 (take 4 h)) with (Z.of_nat (length t)) by (symmetry; by apply header_topic).
  replace (Uint32 (take 4 (drop 4 h))) with (Z.of_nat (length p)) by (symmetry; by apply header_payload). rewrite !Nat2Z.id.
  destruct (decide (n - 16 < length t)%nat) as [H1|H1].
  { rewrite ReadFull_short; [done|]. rewrite length_take, Hh. lia. }
  rewrite take_app, (take_ge t) by lia. rewrite ReadFull_app by done. cbn [mbind option_bind].
  destruct (decide (n - 16 - length t < length p)%nat) as [H2|H2].
  { rewrite ReadFull_short; [done|]. rewrite length_take, Hh. lia. }
  rewrite take_app, (take_ge p) by lia. rewrite ReadFull_app by done. cbn [mbind option_bind].
  rewrite ReadFull_short; [done|]. rewrite length_take. lia.
Qed.

Lemma frame_nonempty e : (0 < length (frame e))%nat.
Proof. unfold frame. rewrite length_app, length_header. lia. Qed.

Definition frames (es : list LogEntry) : bytes := concat (frame <$> es).

Lemma frames_app es e : frames (es ++ [e]) = frames es ++ frame e.
Proof. unfold frames. rewrite fmap_app, concat_app. cbn. by rewrite app_nil_r. Qed.

Lemma recover_frames fuel es tail off acc :
  Forall entry_ok es -> (length (frames es ++ tail) <= fuel)%nat ->
  recover_from fuel (frames es ++ tail) off acc =
    recover_from (fuel - length es) tail (off + length (frames es)) (acc ++ es).
Proof.
  intros Hok. revert fuel off acc. induction Hok as [|e es He Hok IH]; intros fuel off acc Hf.
  { cbn. by rewrite Nat.sub_0_r, Nat.add_0_r, app_nil_r. }
  pose proof (frame_nonempty e). unfold frames in *. rewrite fmap_cons in *. cbn [concat] in *. rewrite <- app_assoc in *.
  rewrite length_app in Hf. destruct fuel as [|fuel]; [lia|]. cbn [recover_from].
  destruct (frame e ++ concat (frame <$> es) ++ tail) as [|b s] eqn:E.
  { apply (f_equal length) in E. rewrite length_app in E. cbn in E. lia. }
  rewrite <- E, read_record_frame by done. rewrite IH by lia. cbn [length]. rewrite !length_app, <- app_assoc. cbn [app].
  f_equal. lia.
Qed.

(** ** Any file *)

Lemma ReadFull_Some n s a b : ReadFull n s = Some (a, b) -> s = a ++ b /\ length a = n.
Proof.
  unfold ReadFull. destruct (Nat.ltb_spec (length s) n); [done|]. intros [= <- <-]. rewrite take_drop, length_take. split; [done|lia].
Qed.

(** What is read depends only on the bytes read. *)
Lemma read_record_split s e rest : read_record s = Some (e, rest) ->
  exists r, s = r ++ rest /\ (0 < length r)%nat /\ forall s', read_record (r ++ s') = Some (e, s').
Proof.
  unfold read_record. intros H.
  destruct (ReadFull 16 s) as [[h s1]|] eqn:E1; [|done]. cbn [mbind option_bind] in H.
  destruct (ReadFull _ s1) as [[t s2]|] eqn:E2; [|done]. cbn [mbind option_bind] in H.
  destruct (ReadFull _ s2) as [[p s3]|] eqn:E3; [|done]. cbn [mbind option_bind] in H.
  destruct (ReadFull 32 s3) as [[c s4]|] eqn:E4; [|done]. cbn [mbind option_bind] in H.
  case_bool_decide as Hc; [|done]. injection H as <- <-.
  apply ReadFull_Some in E1 as [-> L1], E2 as [-> L2], E3 as [-> L3], E4 as [-> L4].
  exists (h ++ t ++ p ++ c). split; [by rewrite <- !app_assoc|]. split; [rewrite length_app; lia|]. intros s'. rewrite <- !app_assoc.
  rewrite (ReadFull_app 16) by done. cbn [mbind option_bind]. rewrite (ReadFull_app _ t) by done. cbn [mbind option_bind].
  rewrite (ReadFull_app _ p) by done. cbn [mbind option_bind]. rewrite (ReadFull_app _ c) by done. cbn [mbind option_bind].
  by rewrite bool_decide_true.
Qed.

Lemma recover_good fuel s off acc es cut :
  recover_from fuel s off acc = (es, cut) -> (length s <= fuel)%nat ->
  exists good bad, s = good ++ bad /\
    match cut with None => bad = [] | Some o => o = (off + length good)%nat end /\
    forall fuel', (length good <= fuel')%nat -> recover_from fuel' good off acc = (es, None).
Proof.
  revert s off acc. induction fuel as [|fuel IH]; intros s off acc H Hf.
  { destruct s; [|cbn in Hf; lia]. injection H as <- <-. exists [], []. split; [done|]. split; [done|]. intros fuel' _. by destruct fuel'. }
  cbn [recover_from] in H. destruct s as [|b s0] eqn:Es.
  { injection H as <- <-. exists [], []. split; [done|]. split; [done|]. intros fuel' _. by destruct fuel'. }
  rewrite <- Es in *. clear b s0 Es. destruct (read_record s) as [[e rest]|] eqn:Er.
  - apply read_record_split in Er as (r & -> & Hr & Hread). rewrite !length_app in *.
    replace (length r + length rest - length rest)%nat with (length r) in H by lia.
    destruct (IH _ _ _ H) as (good & bad & -> & Hcut & Hgood); [lia|].
    exists (r ++ good), bad. split; [by rewrite app_assoc|]. split.
    { destruct cut; [|done]. rewrite length_app. lia. }
    intros fuel' Hf'. rewrite length_app in Hf'. destruct fuel' as [|fuel']; [lia|]. cbn [recover_from].
    destruct (r ++ good) as [|b s0] eqn:Es; [apply (f_equal length) in Es; rewrite length_app in Es; cbn in Es; lia|].
    rewrite <- Es, Hread, length_app. replace (length r + length good - length good)%nat with (length r) by lia. apply Hgood. lia.
  - injection H as <- <-. exists [], s. split; [done|]. split; [cbn; lia|]. intros fuel' _. by destruct fuel'.
Qed.

(** ** Theorems *)

Lemma Recover_frames w es tail :
  Forall entry_ok es -> file w = frames es ++ tail -> (tail = [] \/ read_record tail = None) ->
  (Recover w).1 = es /\ file (Recover w).2 = frames es.
Proof.
  intros Hok Hf Htail. unfold Recover. rewrite Hf, recover_frames by done. cbn [app Nat.add].
  assert (Hlen : (length es + length tail <= length (frames es ++ tail))%nat).
  { rewrite length_app. enough (length es <= length (frames es))%nat by lia. clear. induction es as [|e es IH]; [done|].
    unfold frames in *. rewrite fmap_cons. cbn. rewrite length_app. pose proof (frame_nonempty e). lia. }
  destruct tail as [|b tail0] eqn:Et.
  { cbn. destruct (_ - _)%nat; cbn; by rewrite ?app_nil_r in *. }
  destruct Htail as [|Htail]; [done|]. rewrite <- Et in *.
  assert (0 < length tail)%nat by (rewrite Et; cbn; lia). clear Et b tail0.
  destruct (length (frames es ++ tail) - length es)%nat as [|fuel] eqn:Ef; [lia|]. cbn [recover_from].
  destruct tail as [|b tail]; [cbn in *; lia|]. rewrite Htail. cbn. split; [done|]. rewrite Hf. by apply take_app_length'.
Qed.

(** C22: recovery after a crash.  When the log holds complete records, with a
    record that was being written cut off anywhere, recovery returns exactly
    the complete ones and leaves a clean log.  A record appended to it is kept
    after them, in the segment or in the next one; while the segment has room
    (otherwise the log is rotated, and recovery reads the new segment only)
    the next recovery returns them and then the new record.  On a file with
    any content at all, recovery is stable: recovering again returns the same
    records and changes nothing. *)
Theorem wal_crash_recovery w es e n :
  Forall entry_ok es -> entry_ok e -> (n < length (frame e))%nat -> file w = frames es ++ take n (frame e) ->
  let w' := (Recover w).2 in
  (Recover w).1 = es /\ file w' = frames es /\
  (forall e', entry_ok e' ->
     let '(err, w'') := Append (Topic e') (Payload e') (Timestamp e') Written w' in
     err = None /\ concat (rotated w'') ++ file w'' = concat (rotated w') ++ file w' ++ frame e' /\
     (bytesWrit w' < maxSize w' -> (Recover w'').1 = es ++ [e'])) /\
  (forall any, let r := Recover any in Recover r.2 = (r.1, r.2)).
Proof.
  intros Hok He Hn Hf w'.
  destruct (Recover_frames w es _ Hok Hf) as [H1 H2].
  { right. by apply read_record_torn. }
  fold w' in H2. split; [done|]. split; [done|]. split.
  - intros e' He'. unfold Append, rotate_full, writeRecord. destruct e' as [t p ts]. cbn [Topic Payload Timestamp].
    set (fr := frame (mkEntry t p ts)). destruct (Z.leb_spec (maxSize w') (bytesWrit w')); cbn [file rotated].
    + split; [done|]. split; [|lia]. rewrite concat_app. cbn. by rewrite app_nil_r, <- app_assoc.
    + split; [done|]. split; [done|]. intros _.
      apply (Recover_frames _ (es ++ [mkEntry t p ts]) []); [apply Forall_app; split; [done|by constructor]| |by left].
      cbn [file]. by rewrite H2, frames_app, app_nil_r.
  - intros any r. unfold r, Recover at 2 3 4. clear r. destruct (recover_from _ _ _ _) as [es' cut] eqn:E. cbn [fst snd].
    apply recover_good in E as (good & bad & Hg & Hcut & Hgood); [|done].
    destruct cut as [o|]; cbn [fst snd].
    + subst o. cbn [Nat.add]. unfold Recover, truncateAndReopen. cbn [file].
      rewrite Hg, take_app_length, Hgood by done. done.
    + subst bad. rewrite app_nil_r in Hg. unfold Recover. rewrite Hg, Hgood by done. done.
Qed.
End Wal.

#[local] Instance zero_digest : Digest := { sha256 := fun _ => replicate 32 "000"%char; sha256_length := fun _ => eq_refl }.

Lemma wal_crash_recovery_witness :
  let e1 := mkEntry "t" "first" 5 in
  let e2 := mkEntry "t" "second" 6 in
  (Recover (OpenWAL (frame e1 ++ take 20 (frame e2)))).1 = [e1].
Proof.
  intros e1 e2. apply (wal_crash_recovery (OpenWAL (frame e1 ++ take 20 (frame e2))) [e1] e2 20).
  - constructor; [|constructor]. split; [reflexivity|]. split; [reflexivity|]. by apply (bool_decide_unpack _).
  - split; [reflexivity|]. split; [reflexivity|]. by apply (bool_decide_unpack _).
  - vm_compute. lia.
  - vm_compute. reflexivity.
Defined.

(** A failed write leaves its bytes in the file, and records appended after
    it are lost in the recovery. *)
Example append_after_failure_lost :
  let '(err, w) := Append "t" "first" 5 (Cut 20) (OpenWAL []) in
  let '(err', w') := Append "t" "second" 6 Written w in
  is_Some err /\ err' = None /\ (Recover w').1 = [].
Proof. vm_compute. split; [eexists; reflexivity|split; reflexivity]. Qed.
