(* ===== verification/BrokerGuards.v ===== *)
(** * What the broker checks before it takes a message

    [pulse/pkg/broker]: the deduplicator ([dedup.go]), the token bucket
    ([ratelimit.go]), schema validation ([schema.go]), topic patterns and the
    values of a request context ([engine.go]). *)

From Stdlib Require Import Floats.SpecFloat.
From S2P Require Import Prelude GoStrings GoNumbers GoFloat GoTime.
Local Open Scope Z_scope.

(** ** Deduplicator *)

Record Deduplicator := mkDedup { ids : gmap string Z; window : Z }.

Definition NewDeduplicator (w : Z) : Deduplicator := mkDedup ∅ w.

Definition Add (now : Z) (id : string) (d : Deduplicator) : bool * Deduplicator :=
  let kept := filter (fun kv : string * Z => now - kv.2 <= window d) (ids d) in
  match kept !! id with
  | Some _ => (false, mkDedup kept (window d))
  | None => (true, mkDedup (<[id := now]> kept) (window d))
  end.

(** ** Token bucket *)

Record TokenBucket := mkTB { rate : float64; capacity : float64; tokens : float64; lastRefill : Z }.

Definition NewTokenBucket (now : Z) (rate capacity : float64) : TokenBucket := mkTB rate capacity capacity now.

Definition Allow (now : Z) (tb : TokenBucket) : bool * TokenBucket :=
  let elapsed := Seconds (now - lastRefill tb) in
  let refilled := fadd (tokens tb) (fmul elapsed (rate tb)) in
  let t := if fltb (capacity tb) refilled then capacity tb else refilled in
  if fleb (float_of_Z 1) t then (true, mkTB (rate tb) (capacity tb) (fsub t (float_of_Z 1)) now)
  else (false, mkTB (rate tb) (capacity tb) t now).

(** ** Schemas *)

(** A decoded JSON value, as far as validation looks at it. *)
Inductive json := JNull | JBool (b : bool) | JNumber (f : float64) | JString (s : string) | JArray | JObject.

(** [float64(int(f)) == f] *)
Definition is_integral (f : float64) : bool := feqb f (float_of_Z (truncate_float f)).

(** The loop over the comma-separated parts of a rule. *)
Fixpoint rule_parts (parts : list string) (required : bool) (expectedType : string) : bool * string :=
  match parts with
  | [] => (required, expectedType)
  | p :: parts =>
      let p := TrimSpace p in
      if bool_decide (p = "required") then rule_parts parts true expectedType
      else if bool_decide (p = "") then rule_parts parts required expectedType
      else rule_parts parts required p
  end.

Definition check_type (field expectedType : string) (val : json) : option string :=
  if bool_decide (expectedType = "string") then
    match val with JString _ => None | _ => Some ("field '" +:+ field +:+ "' must be a string") end
  else if bool_decide (expectedType ∈ ["int"; "integer"]) then
    match val with
    | JNumber f => if is_integral f then None else Some ("field '" +:+ field +:+ "' must be an integer")
    | _ => Some ("field '" +:+ field +:+ "' must be an integer")
    end
  else if bool_decide (expectedType ∈ ["bool"; "boolean"]) then
    match val with JBool _ => None | _ => Some ("field '" +:+ field +:+ "' must be a boolean") end
  else if bool_decide (expectedType ∈ ["float"; "number"]) then
    match val with JNumber _ => None | _ => Some ("field '" +:+ field +:+ "' must be a number") end
  else None.

Definition check_rule (data : gmap string json) (fr : string * string) : option string :=
  let '(required, expectedType) := rule_parts (Split fr.2 ",") false "" in
  match data !! fr.1 with
  | None | Some JNull => if required then Some ("field '" +:+ fr.1 +:+ "' is required") else None
  | Some val => check_type fr.1 expectedType val
  end.

(** The first error, in the order in which the rules are visited. *)
Fixpoint check_rules (data : gmap string json) (rules : list (string * string)) : option string :=
  match rules with
  | [] => None
  | r :: rules => match check_rule data r with Some err => Some err | None => check_rules data rules end
  end.

(** [data] is what [json.Unmarshal] makes of the payload. *)
Definition ValidatePayload (data : option (gmap string json)) (schema : gmap string string) : option string :=
  if bool_decide (schema = ∅) then None else
  match data with
  | None => Some "invalid payload: not a valid JSON object"
  | Some data => check_rules data (map_to_list schema)
  end.

(** ** Topic patterns *)

Fixpoint match_parts (pParts tParts : list string) : bool :=
  match pParts, tParts with
  | [], [] => true
  | [], _ :: _ => false
  | p :: ps, ts =>
      if bool_decide (p = "#") then true
      else match ts with
           | [] => false
           | t :: ts => (bool_decide (p = "*") || bool_decide (p = t)) && match_parts ps ts
           end
  end.

Definition matchTopic (pattern topic : string) : bool :=
  if bool_decide (pattern = topic) then true
  else if bool_decide (pattern = "#") then true
  else match_parts (Split pattern ".") (Split topic ".").

(** ** Request contexts *)

Inductive ctx_value := CString (s : string) | CInt (n : Z) | CInt64 (n : Z).

(** A request context; requests are not cancelled while they are handled. *)
Record Context := mkCtx { values : gmap string ctx_value }.

Definition Background : Context := mkCtx ∅.

Definition string_value (ctx : Context) (key : string) : string :=
  match values ctx !! key with Some (CString s) => s | _ => "" end.

Definition priority_of (ctx : Context) : Z :=
  match values ctx !! "priority" with
  | Some (CInt n) => n
  | Some (CString s) => default 0 (Atoi s)
  | _ => 0
  end.

(** The zero [time.Time], year 1, on the scale of the other instants. *)
Definition zero_time : Z := Date 1 1 1.

Definition ttl_value (v : ctx_value) : Z :=
  match v with CInt n => n | CString s => default 0 (Atoi s) | CInt64 n => n end.

Definition getExpiryFromContext (now : Z) (ctx : Context) : Z :=
  let ttlMs := match values ctx !! "ttl-ms" with
               | Some v => ttl_value v
               | None => match values ctx !! "ttl" with Some v => ttl_value v | None => 0 end
               end in
  if 0 <? ttlMs then now + wrap64 (ttlMs * Millisecond) else zero_time.
