(* ===== verification/Broker.v ===== *)
(** * The broker engine

    [pulse/pkg/broker/engine.go]: topics, partitions and consumer groups,
    publishing, the dispatch loop of a topic, dead letters, delayed messages,
    offsets, replay.

    Subscriber channels are objects on a heap: a buffer of at most 100
    payloads and a flag that they are closed.  Sending to a closed channel
    panics ([None]).  A round of a dispatch loop reads the subscriptions under
    the lock and sends without it, so it is two steps, [snapshot] and
    [deliver]; everything else that holds a lock is one step.  WASM modules,
    JSON and environment variables are parameters; tracing has no effect on
    the state and is left out, and so is the replication to other nodes. *)

From S2P Require Import Prelude GoStrings GoNumbers GoTime TimeWheel PriorityQueue Wal HashRing BrokerGuards.
Local Open Scope Z_scope.

(** The dead-letter envelope, before it is marshalled. *)
Record Envelope := mkEnv {
  message_id : string; source_topic : string; reason : string; env_payload : string; retry_count : Z }.

Class Host := {
  Module : Type;
  Compile : bytes -> string + Module;
  RunTransform : Module -> string -> string + string;  (* error or result *)
  Unmarshal : string -> option (gmap string json);
  Marshal : Envelope -> string;
  Getenv : string -> string;
}.

(** What one call sees of the machine: the instants it reads, in order, and
    whether the disk takes a record. *)
Record Call := mkCall { instant : nat -> Z; disk : write_outcome }.

Record DelayedMessage := mkDelayed { dm_ID : string; dm_Topic : string; dm_Payload : string; TargetTime : Z }.

(** A task of the timing wheel. *)
Inductive delayed_job := JPublishLocal (msgID topic payload : string) | JPublish (topic payload : string).

Record BrokerMetrics := mkMetrics { MessagesPublished : Z; WasmExecutions : Z; WasmExecutionErrors : Z; WasmDurationNs : Z }.

Definition chan := nat.
Record channel := mkChan { buffer : list string; closed : bool }.
Definition chan_capacity : nat := 100.

Section Broker.
Context `{host : Host} `{hash : Digest}.

Record BrokerEngine := mkBroker {
  topics : gmap string (list nat);
  partitions : gmap string (gmap Z (list nat));
  groupSubs : gmap string (gmap string (list nat));
  groupIndices : gmap string (gmap string Z);
  transforms : gmap string Module;
  dlqTopics : gmap string string;
  Metrics : BrokerMetrics;
  wal : option WAL;
  dedup : Deduplicator;
  delayedMsgs : gmap string DelayedMessage;
  delayedCounter : Z;
  groupOffsets : gmap string (gmap string Z);
  timeWheel : TimeWheel (T := delayed_job);
  publishLimiter : TokenBucket;
  topicQueues : gmap string PriorityQueue;
  producerSequences : gmap string Z;
  schemas : gmap string (gmap string string);
  compactedTopics : gmap string bool;
  (* the heap of channels *)
  chans : gmap nat channel;
  next_chan : nat;
}.

(** ** Field updates *)

Definition with_subs (t : gmap string (list nat)) (p : gmap string (gmap Z (list nat))) (g : gmap string (gmap string (list nat)))
    (c : gmap nat channel) (n : nat) (e : BrokerEngine) : BrokerEngine :=
  mkBroker t p g (groupIndices e) (transforms e) (dlqTopics e) (Metrics e) (wal e) (dedup e) (delayedMsgs e) (delayedCounter e)
    (groupOffsets e) (timeWheel e) (publishLimiter e) (topicQueues e) (producerSequences e) (schemas e) (compactedTopics e) c n.
Definition with_chans (c : gmap nat channel) (e : BrokerEngine) : BrokerEngine :=
  with_subs (topics e) (partitions e) (groupSubs e) c (next_chan e) e.
Definition with_indices (g : gmap string (gmap string Z)) (e : BrokerEngine) : BrokerEngine :=
  mkBroker (topics e) (partitions e) (groupSubs e) g (transforms e) (dlqTopics e) (Metrics e) (wal e) (dedup e) (delayedMsgs e) (delayedCounter e)
    (groupOffsets e) (timeWheel e) (publishLimiter e) (topicQueues e) (producerSequences e) (schemas e) (compactedTopics e) (chans e) (next_chan e).
Definition with_config (tr : gmap string Module) (d : gmap string string) (s : gmap string (gmap string string)) (c : gmap string bool)
    (e : BrokerEngine) : BrokerEngine :=
  mkBroker (topics e) (partitions e) (groupSubs e) (groupIndices e) tr d (Metrics e) (wal e) (dedup e) (delayedMsgs e) (delayedCounter e)
    (groupOffsets e) (timeWheel e) (publishLimiter e) (topicQueues e) (producerSequences e) s c (chans e) (next_chan e).
Definition with_metrics (m : BrokerMetrics) (e : BrokerEngine) : BrokerEngine :=
  mkBroker (topics e) (partitions e) (groupSubs e) (groupIndices e) (transforms e) (dlqTopics e) m (wal e) (dedup e) (delayedMsgs e) (delayedCounter e)
    (groupOffsets e) (timeWheel e) (publishLimiter e) (topicQueues e) (producerSequences e) (schemas e) (compactedTopics e) (chans e) (next_chan e).
Definition with_wal (w : option WAL) (e : BrokerEngine) : BrokerEngine :=
  mkBroker (topics e) (partitions e) (groupSubs e) (groupIndices e) (transforms e) (dlqTopics e) (Metrics e) w (dedup e) (delayedMsgs e) (delayedCounter e)
    (groupOffsets e) (timeWheel e) (publishLimiter e) (topicQueues e) (producerSequences e) (schemas e) (compactedTopics e) (chans e) (next_chan e).
Definition with_dedup (d : Deduplicator) (e : BrokerEngine) : BrokerEngine :=
  mkBroker (topics e) (partitions e) (groupSubs e) (groupIndices e) (transforms e) (dlqTopics e) (Metrics e) (wal e) d (delayedMsgs e) (delayedCounter e)
    (groupOffsets e) (timeWheel e) (publishLimiter e) (topicQueues e) (producerSequences e) (schemas e) (compactedTopics e) (chans e) (next_chan e).
Definition with_delayed (m : gmap string DelayedMessage) (n : Z) (tw : TimeWheel (T := delayed_job)) (e : BrokerEngine) : BrokerEngine :=
  mkBroker (topics e) (partitions e) (groupSubs e) (groupIndices e) (transforms e) (dlqTopics e) (Metrics e) (wal e) (dedup e) m n
    (groupOffsets e) tw (publishLimiter e) (topicQueues e) (producerSequences e) (schemas e) (compactedTopics e) (chans e) (next_chan e).
Definition with_offsets (o : gmap string (gmap string Z)) (e : BrokerEngine) : BrokerEngine :=
  mkBroker (topics e) (partitions e) (groupSubs e) (groupIndices e) (transforms e) (dlqTopics e) (Metrics e) (wal e) (dedup e) (delayedMsgs e) (delayedCounter e)
    o (timeWheel e) (publishLimiter e) (topicQueues e) (producerSequences e) (schemas e) (compactedTopics e) (chans e) (next_chan e).
Definition with_limiter (tb : TokenBucket) (e : BrokerEngine) : BrokerEngine :=
  mkBroker (topics e) (partitions e) (groupSubs e) (groupIndices e) (transforms e) (dlqTopics e) (Metrics e) (wal e) (dedup e) (delayedMsgs e) (delayedCounter e)
    (groupOffsets e) (timeWheel e) tb (topicQueues e) (producerSequences e) (schemas e) (compactedTopics e) (chans e) (next_chan e).
Definition with_queues (q : gmap string PriorityQueue) (e : BrokerEngine) : BrokerEngine :=
  mkBroker (topics e) (partitions e) (groupSubs e) (groupIndices e) (transforms e) (dlqTopics e) (Metrics e) (wal e) (dedup e) (delayedMsgs e) (delayedCounter e)
    (groupOffsets e) (timeWheel e) (publishLimiter e) q (producerSequences e) (schemas e) (compactedTopics e) (chans e) (next_chan e).
Definition with_sequences (s : gmap string Z) (e : BrokerEngine) : BrokerEngine :=
  mkBroker (topics e) (partitions e) (groupSubs e) (groupIndices e) (transforms e) (dlqTopics e) (Metrics e) (wal e) (dedup e) (delayedMsgs e) (delayedCounter e)
    (groupOffsets e) (timeWheel e) (publishLimiter e) (topicQueues e) s (schemas e) (compactedTopics e) (chans e) (next_chan e).

Definition count_published (e : BrokerEngine) : BrokerEngine :=
  let m := Metrics e in
  with_metrics (mkMetrics (wrapu64 (MessagesPublished m + 1)) (WasmExecutions m) (WasmExecutionErrors m) (WasmDurationNs m)) e.
Definition count_wasm (duration : Z) (failed : bool) (e : BrokerEngine) : BrokerEngine :=
  let m := Metrics e in
  with_metrics (mkMetrics (MessagesPublished m) (wrapu64 (WasmExecutions m + 1))
    (if failed then wrapu64 (WasmExecutionErrors m + 1) else WasmExecutionErrors m) (wrapu64 (WasmDurationNs m + duration))) e.

(** ** Channels *)

(** [select { case sub <- payload: default: }] *)
Definition try_send (payload : string) (ch : nat) (cs : gmap nat channel) : option (gmap nat channel) :=
  match cs !! ch with
  | Some c =>
      if closed c then None
      else if (length (buffer c) <? chan_capacity)%nat then Some (<[ch := mkChan (buffer c ++ [payload]) false]> cs)
      else Some cs
  | None => None
  end.

Fixpoint send_all (payload : string) (subs : list nat) (cs : gmap nat channel) : option (gmap nat channel) :=
  match subs with
  | [] => Some cs
  | ch :: subs => cs ← try_send payload ch cs; send_all payload subs cs
  end.

Definition new_chan (e : BrokerEngine) : nat * gmap nat channel := (next_chan e, <[next_chan e := mkChan [] false]> (chans e)).

Definition Subscribe (topic : string) (e : BrokerEngine) : nat * BrokerEngine :=
  let '(ch, cs) := new_chan e in
  (ch, with_subs (<[topic := default [] (topics e !! topic) ++ [ch]]> (topics e)) (partitions e) (groupSubs e) cs (S ch) e).

Definition SubscribeGroup (topic groupName : string) (e : BrokerEngine) : nat * BrokerEngine :=
  let '(ch, cs) := new_chan e in
  let groups := default ∅ (groupSubs e !! topic) in
  let indices := match groupIndices e !! topic with None => <[topic := ∅]> (groupIndices e) | Some _ => groupIndices e end in
  (ch, with_indices indices
         (with_subs (topics e) (partitions e)
            (<[topic := <[groupName := default [] (groups !! groupName) ++ [ch]]> groups]> (groupSubs e)) cs (S ch) e)).

Definition SubscribePartition (topic : string) (partition : Z) (e : BrokerEngine) : nat * BrokerEngine :=
  let '(ch, cs) := new_chan e in
  let parts := default ∅ (partitions e !! topic) in
  (ch, with_subs (topics e) (<[topic := <[partition := default [] (parts !! partition) ++ [ch]]> parts]> (partitions e)) (groupSubs e) cs (S ch) e).

(** [append(subs[:i], subs[i+1:]...)] at the first [i] that holds [ch]. *)
Fixpoint remove_chan (ch : nat) (subs : list nat) : list nat :=
  match subs with
  | [] => []
  | c :: subs => if bool_decide (c = ch) then subs else c :: remove_chan ch subs
  end.

Definition close_chan (ch : nat) (cs : gmap nat channel) : gmap nat channel :=
  match cs !! ch with Some c => <[ch := mkChan (buffer c) true]> cs | None => cs end.

(** A key under which [ch] is listed. *)
Definition key_of {K} `{Countable K} (m : gmap K (list nat)) (ch : nat) : option K :=
  match list_find (fun kv : K * list nat => ch ∈ kv.2) (map_to_list m) with Some (_, (k, _)) => Some k | None => None end.

Definition Unsubscribe (topic : string) (ch : nat) (e : BrokerEngine) : BrokerEngine :=
  let subs := default [] (topics e !! topic) in
  if bool_decide (ch ∈ subs) then
    with_subs (<[topic := remove_chan ch subs]> (topics e)) (partitions e) (groupSubs e) (close_chan ch (chans e)) (next_chan e) e
  else
    let parts := default ∅ (partitions e !! topic) in
    match key_of parts ch with
    | Some partId =>
        with_subs (topics e) (<[topic := <[partId := remove_chan ch (default [] (parts !! partId))]> parts]> (partitions e)) (groupSubs e)
          (close_chan ch (chans e)) (next_chan e) e
    | None =>
        let groups := default ∅ (groupSubs e !! topic) in
        match key_of groups ch with
        | Some groupName =>
            let left_ := remove_chan ch (default [] (groups !! groupName)) in
            let groups' := match left_ with [] => delete groupName groups | _ => <[groupName := left_]> groups end in
            with_subs (topics e) (partitions e) (<[topic := groups']> (groupSubs e)) (close_chan ch (chans e)) (next_chan e) e
        | None => e
        end
    end.

(** ** Configuration *)

Definition SetDLQ (topic dlqTopic : string) (e : BrokerEngine) : BrokerEngine :=
  with_config (transforms e) (<[topic := dlqTopic]> (dlqTopics e)) (schemas e) (compactedTopics e) e.
Definition GetDLQ (topic : string) (e : BrokerEngine) : option string := dlqTopics e !! topic.
Definition RegisterSchema (topic : string) (schema : gmap string string) (e : BrokerEngine) : BrokerEngine :=
  with_config (transforms e) (dlqTopics e) (<[topic := schema]> (schemas e)) (compactedTopics e) e.
Definition GetSchema (topic : string) (e : BrokerEngine) : option (gmap string string) := schemas e !! topic.
Definition SetCompacted (topic : string) (compacted : bool) (e : BrokerEngine) : BrokerEngine :=
  with_config (transforms e) (dlqTopics e) (schemas e) (<[topic := compacted]> (compactedTopics e)) e.
Definition IsCompacted (topic : string) (e : BrokerEngine) : bool := default false (compactedTopics e !! topic).

Definition RegisterTransform (topic : string) (wasmBytes : bytes) (e : BrokerEngine) : option string * BrokerEngine :=
  match wasmBytes with
  | [] => (None, with_config (delete topic (transforms e)) (dlqTopics e) (schemas e) (compactedTopics e) e)
  | _ =>
      match Compile wasmBytes with
      | inl err => (Some ("failed to compile WASM module: " +:+ err), e)
      | inr compiled => (None, with_config (<[topic := compiled]> (transforms e)) (dlqTopics e) (schemas e) (compactedTopics e) e)
      end
  end.

(** ** Log and dead letters *)

Definition wal_append (topic payload : string) (timestamp : Z) (c : Call) (e : BrokerEngine) : BrokerEngine :=
  match wal e with
  | None => e
  | Some w => with_wal (Some (Append topic payload timestamp (disk c) w).2) e
  end.

Definition envelope_of (ctx : Context) (now : Z) (sourceTopic payload reason : string) : Envelope :=
  let msgID := string_value ctx "message-id" in
  mkEnv (if bool_decide (msgID = "") then "dlq-" +:+ FormatInt now else msgID) sourceTopic reason payload
    (match values ctx !! "retry-count" with Some (CInt n) => n | _ => 1 end).

(** Subscribers of the dead-letter topic itself get the envelope; patterns
    are not considered here. *)
Definition routeToDLQ (c : Call) (ctx : Context) (sourceTopic payload reason : string) (e : BrokerEngine) : option BrokerEngine :=
  match GetDLQ sourceTopic e with
  | None => Some e
  | Some dlqTopic =>
      let envelope := Marshal (envelope_of ctx (instant c 8) sourceTopic payload reason) in
      cs ← send_all envelope (default [] (topics e !! dlqTopic)) (chans e);
      Some (wal_append dlqTopic envelope (instant c 9) c (count_published (with_chans cs e)))
  end.

(** ** The dispatch loop *)

Definition matching {A} (m : gmap string A) (topic : string) : list A :=
  snd <$> filter (fun kv : string * A => matchTopic kv.1 topic = true) (map_to_list m).

Definition hasSubs (topic : string) (e : BrokerEngine) : bool :=
  existsb (fun subs => negb (bool_decide (subs = []))) (matching (topics e) topic) ||
  existsb (fun parts : gmap Z (list nat) => existsb (fun kv => negb (bool_decide (kv.2 = []))) (map_to_list parts)) (matching (partitions e) topic) ||
  existsb (fun groups : gmap string (list nat) => existsb (fun kv => negb (bool_decide (kv.2 = []))) (map_to_list groups)) (matching (groupSubs e) topic).

(** The members of each group over the matching patterns; [gorder] is the
    order in which the map of patterns is visited. *)
Definition groups_of (gorder : list (string * gmap string (list nat))) (topic : string) : gmap string (list nat) :=
  fold_left (fun acc (pg : string * gmap string (list nat)) =>
    if matchTopic pg.1 topic then union_with (fun a b => Some (a ++ b)) acc pg.2 else acc) gorder ∅.

Record Targets := mkTargets { tg_subs : list nat; tg_partition : list nat; tg_groups : gmap string (list nat) }.

Definition snapshot (gorder : list (string * gmap string (list nat))) (topic : string) (partitionId : Z) (e : BrokerEngine) : Targets :=
  mkTargets (concat (matching (topics e) topic))
    (concat ((fun parts : gmap Z (list nat) => default [] (parts !! partitionId)) <$> matching (partitions e) topic))
    (groups_of gorder topic).

(** [filterSemanticRoute] of the open-source build. *)
Definition filterSemanticRoute (topic payload : string) : bool := false.

Definition group_index (topic gName : string) (e : BrokerEngine) : Z :=
  default 0 (default ∅ (groupIndices e !! topic) !! gName).

(** One message to the next member of a group. *)
Definition deliver_group (topic payload gName : string) (gSubs : list nat) (e : BrokerEngine) : option BrokerEngine :=
  match gSubs with
  | [] => Some e
  | _ =>
      let idx := group_index topic gName e in
      let e := with_indices (<[topic := <[gName := wrapu64 (idx + 1)]> (default ∅ (groupIndices e !! topic))]> (groupIndices e)) e in
      target ← gSubs !! Z.to_nat (idx mod Z.of_nat (length gSubs));
      cs ← try_send payload target (chans e);
      Some (with_chans cs e)
  end.

Fixpoint deliver_groups (topic payload : string) (gs : list (string * list nat)) (e : BrokerEngine) : option BrokerEngine :=
  match gs with
  | [] => Some e
  | (gName, gSubs) :: gs => e ← deliver_group topic payload gName gSubs e; deliver_groups topic payload gs e
  end.

Definition deliver (topic payload : string) (t : Targets) (e : BrokerEngine) : option BrokerEngine :=
  cs ← send_all payload (if filterSemanticRoute topic payload then [] else tg_subs t) (chans e);
  cs ← send_all payload (tg_partition t) cs;
  deliver_groups topic payload (map_to_list (tg_groups t)) (with_chans cs e).

(** What a round of the loop has taken from the queue. *)
Inductive taken := Nothing | Expired (m : PriorityMessage) | Message (m : PriorityMessage).

Definition take_message (now : Z) (topic : string) (e : BrokerEngine) : taken * BrokerEngine :=
  if negb (hasSubs topic e) then (Nothing, e) else
  match topicQueues e !! topic with
  | None => (Nothing, e)
  | Some pq =>
      match PopNonBlocking pq with
      | (None, _) => (Nothing, e)
      | (Some msg, pq) =>
          let e := with_queues (<[topic := pq]> (topicQueues e)) e in
          if negb (Expiry msg =? zero_time) && (Expiry msg <? now) then (Expired msg, e) else (Message msg, e)
      end
  end.

(** A whole round, when nothing runs between its two steps. *)
Definition dispatch (c : Call) (gorder : list (string * gmap string (list nat))) (topic : string) (e : BrokerEngine) : option (taken * BrokerEngine) :=
  match take_message (instant c 0) topic e with
  | (Nothing, e) => Some (Nothing, e)
  | (Expired m, e) => e ← routeToDLQ c Background topic (PriorityQueue.Payload m) "message TTL expired" e; Some (Expired m, e)
  | (Message m, e) =>
      e ← deliver topic (PriorityQueue.Payload m) (snapshot gorder topic (PartitionId m) e) e;
      Some (Message m, e)
  end.

(** ** Publishing *)

Definition getOrCreateQueue (topic : string) (e : BrokerEngine) : PriorityQueue * BrokerEngine :=
  match topicQueues e !! topic with
  | Some pq => (pq, e)
  | None => (NewPriorityQueue, with_queues (<[topic := NewPriorityQueue]> (topicQueues e)) e)
  end.

Definition backpressure_limit : Z :=
  match Atoi (Getenv "PRANOR_PULSE_BACKPRESSURE_LIMIT") with
  | Some parsed => if 0 <? parsed then parsed else 1000
  | None => 1000
  end.

Definition schema_error (topic payload : string) (e : BrokerEngine) : option string :=
  match GetSchema topic e with
  | None => None
  | Some schema =>
      match ValidatePayload (Unmarshal payload) schema with
      | None => None
      | Some err => Some ("schema validation failed: " +:+ err)
      end
  end.

(** What a publish returns: the payload and an error. *)
Record Published := mkPub { out : string; err : option string }.

Definition sequence_number (v : ctx_value) : option Z :=
  match v with CInt64 n => Some n | CInt n => Some n | CString s => Atoi s end.

(** The check of producer sequence numbers: [true] drops the message. *)
Definition check_sequence (ctx : Context) (e : BrokerEngine) : bool * BrokerEngine :=
  let prodID := string_value ctx "producer-id" in
  if bool_decide (prodID = "") then (false, e) else
  match values ctx !! "sequence-number" ≫= sequence_number with
  | None => (false, e)
  | Some seqNum =>
      match producerSequences e !! prodID with
      | Some lastSeq =>
          if seqNum <=? lastSeq then (true, e) else (false, with_sequences (<[prodID := seqNum]> (producerSequences e)) e)
      | None => (false, with_sequences (<[prodID := seqNum]> (producerSequences e)) e)
      end
  end.

Definition check_duplicate (now : Z) (ctx : Context) (e : BrokerEngine) : bool * BrokerEngine :=
  let msgID := string_value ctx "message-id" in
  if bool_decide (msgID = "") then (false, e) else
  let '(fresh, d) := BrokerGuards.Add now msgID (dedup e) in
  (negb fresh, with_dedup d e).

(** The delay a request asks for, in milliseconds. *)
Definition delay_of (ctx : Context) : option Z :=
  match Atoi (string_value ctx "delay-ms") with
  | Some d => if 0 <? d then Some d else None
  | None => None
  end.

Definition schedule (c : Call) (ctx : Context) (topic payload : string) (delayMs : Z) (e : BrokerEngine) : option BrokerEngine :=
  let msgID := string_value ctx "message-id" in
  let counter := if bool_decide (msgID = "") then wrapu64 (delayedCounter e + 1) else delayedCounter e in
  let msgID := if bool_decide (msgID = "") then "msg-" +:+ FormatInt (instant c 3) +:+ "-" +:+ FormatInt counter else msgID in
  let delay := wrap64 (delayMs * Millisecond) in
  tw ← AddJob delay (JPublishLocal msgID topic payload) (timeWheel e);
  Some (with_delayed (<[msgID := mkDelayed msgID topic payload (instant c 4 + delay)]> (delayedMsgs e)) counter tw e).

(** The transform of a topic, with the counters that publishing keeps. *)
Definition transform (c : Call) (topic payload : string) (e : BrokerEngine) : (string + string) * BrokerEngine :=
  match transforms e !! topic with
  | None => (inr payload, e)
  | Some m =>
      match RunTransform m payload with
      | inl msg => (inl msg, count_wasm (instant c 6 - instant c 5) true e)
      | inr processed => (inr processed, count_wasm (instant c 6 - instant c 5) false e)
      end
  end.

Definition set_queue (topic : string) (f : PriorityQueue -> PriorityQueue) (e : BrokerEngine) : BrokerEngine :=
  with_queues (alter f topic (topicQueues e)) e.

Definition enqueue (topic processed key : string) (priority partitionId expiry : Z) (e : BrokerEngine) : BrokerEngine :=
  if IsCompacted topic e && negb (bool_decide (key = ""))
  then set_queue topic (fun pq => Compact (PushWithKey processed key priority partitionId expiry pq)) e
  else set_queue topic (Push processed priority partitionId expiry) e.

Definition refused (e : BrokerEngine) (o msg : string) : option (Published * BrokerEngine) := Some (mkPub o (Some msg), e).

(** From the transform on: the dead letter of a failed one, or the queue. *)
Definition transform_and_enqueue (c : Call) (ctx : Context) (topic payload key : string) (partitionId : Z) (e : BrokerEngine) :
    option (Published * BrokerEngine) :=
  match transform c topic payload e with
  | (inl msg, e) => e ← routeToDLQ c ctx topic payload msg e; refused e payload msg
  | (inr processed, e) =>
      Some (mkPub processed None, enqueue topic processed key (priority_of ctx) partitionId (getExpiryFromContext (instant c 7) ctx) e)
  end.

Definition PublishPartition (c : Call) (ctx : Context) (topic key payload : string) (e : BrokerEngine) : option (Published * BrokerEngine) :=
  let '(pq, e) := getOrCreateQueue topic e in
  if backpressure_limit <=? Z.of_nat (Len pq) then refused e "" "queue capacity exceeded: backpressure active" else
  match schema_error topic payload e with
  | Some msg => refused e payload msg
  | None =>
      let partitionId := hashKey key mod 3 in
      let e := wal_append topic payload (instant c 2) c (count_published e) in
      transform_and_enqueue c ctx topic payload key partitionId e
  end.

Definition Publish (c : Call) (ctx : Context) (topic payload : string) (e : BrokerEngine) : option (Published * BrokerEngine) :=
  let '(allowed, tb) := BrokerGuards.Allow (instant c 0) (publishLimiter e) in
  let e := with_limiter tb e in
  if negb allowed then refused e "" "rate limit exceeded" else
  let '(pq, e) := getOrCreateQueue topic e in
  if backpressure_limit <=? Z.of_nat (Len pq) then refused e "" "queue capacity exceeded: backpressure active" else
  match schema_error topic payload e with
  | Some msg => refused e payload msg
  | None =>
      let '(drop_, e) := check_sequence ctx e in
      if (drop_ : bool) then Some (mkPub payload None, e) else
      let '(dup, e) := check_duplicate (instant c 1) ctx e in
      if (dup : bool) then refused e payload ("duplicate message detected: " +:+ string_value ctx "message-id") else
      let e := wal_append topic payload (instant c 2) c (count_published e) in
      match delay_of ctx with
      | Some delayMs => e ← schedule c ctx topic payload delayMs e; Some (mkPub payload None, e)
      | None => transform_and_enqueue c ctx topic payload (string_value ctx "message-key") 0 e
      end
  end.

(** Direct delivery: recovered and delayed messages. *)
Definition publishLocal (c : Call) (gorder : list (string * gmap string (list nat))) (ctx : Context) (topic payload : string) (e : BrokerEngine) :
    option (Published * BrokerEngine) :=
  match (match transforms e !! topic with None => inr payload | Some m => RunTransform m payload end) with
  | inl msg => e ← routeToDLQ c ctx topic payload msg e; refused e payload msg
  | inr processed =>
      cs ← send_all processed (concat (matching (topics e) topic)) (chans e);
      e ← deliver_groups topic processed (map_to_list (groups_of gorder topic)) (with_chans cs e);
      Some (mkPub processed None, e)
  end.

(** ** Delayed messages *)

Definition run_delayed (c : Call) (gorder : list (string * gmap string (list nat))) (j : delayed_job) (e : BrokerEngine) : option BrokerEngine :=
  match j with
  | JPublishLocal msgID topic payload =>
      '(_, e) ← publishLocal c gorder Background topic payload
                  (with_delayed (delete msgID (delayedMsgs e)) (delayedCounter e) (timeWheel e) e);
      Some e
  | JPublish topic payload => '(_, e) ← Publish c Background topic payload e; Some e
  end.

Definition ScheduleDelayed (topic payload : string) (delay : Z) (e : BrokerEngine) : option BrokerEngine :=
  tw ← AddJob delay (JPublish topic payload) (timeWheel e);
  Some (with_delayed (delayedMsgs e) (delayedCounter e) tw e).

Definition tick_wheel (e : BrokerEngine) : option (list delayed_job * BrokerEngine) :=
  '(jobs, tw) ← tick (timeWheel e);
  Some (jobs, with_delayed (delayedMsgs e) (delayedCounter e) tw e).

Definition GetDelayedMessages (e : BrokerEngine) : list DelayedMessage := snd <$> map_to_list (delayedMsgs e).

(** ** Log, offsets and replay *)

Definition GetWALEntries (e : BrokerEngine) : list LogEntry * BrokerEngine :=
  match wal e with
  | None => ([], e)
  | Some w => let '(entries, w) := Recover w in (entries, with_wal (Some w) e)
  end.

Definition GetOffset (group topic : string) (e : BrokerEngine) : Z := default 0 (default ∅ (groupOffsets e !! group) !! topic).
Definition CommitOffset (group topic : string) (offset : Z) (e : BrokerEngine) : BrokerEngine :=
  with_offsets (<[group := <[topic := offset]> (default ∅ (groupOffsets e !! group))]> (groupOffsets e)) e.

Definition dquote : string := String quote "".
Definition CommitGroupOffset (c : Call) (groupName topic : string) (offset : Z) (e : BrokerEngine) : BrokerEngine :=
  wal_append topic ("{" +:+ dquote +:+ "group" +:+ dquote +:+ ":" +:+ dquote +:+ groupName +:+ dquote +:+ "," +:+
                    dquote +:+ "offset" +:+ dquote +:+ ":" +:+ FormatInt offset +:+ "}")
    (instant c 0) c (CommitOffset groupName topic offset e).
Definition GetGroupOffset (groupName topic : string) (e : BrokerEngine) : Z := GetOffset groupName topic e.

Definition of_topic (topic : string) (entries : list LogEntry) : list LogEntry := filter (fun x => Topic x = topic) entries.

Definition GetTopicOffset (topic : string) (e : BrokerEngine) : Z * BrokerEngine :=
  let '(entries, e) := GetWALEntries e in (Z.of_nat (length (of_topic topic entries)), e).

(** The loop of [SeekToTime]. *)
Fixpoint seek (target : Z) (entries : list LogEntry) (topicOffset : Z) : Z :=
  match entries with
  | [] => topicOffset
  | x :: entries => if target <=? Timestamp x then topicOffset else seek target entries (topicOffset + 1)
  end.

Definition SeekToTime (topic : string) (targetTimestamp : Z) (e : BrokerEngine) : (string + Z) * BrokerEngine :=
  match wal e with
  | None => (inl "WAL is not initialized", e)
  | Some _ => let '(entries, e) := GetWALEntries e in (inr (seek targetTimestamp (of_topic topic entries) 0), e)
  end.

(** One entry of a replay: whether it counts, and the new state. *)
Definition replay_one (topic groupName : string) (subs gSubs : list nat) (x : LogEntry) (e : BrokerEngine) : option (bool * BrokerEngine) :=
  let payload := Wal.Payload x in
  let processed := match transforms e !! topic with
                   | Some m => match RunTransform m payload with inr p => p | inl _ => payload end
                   | None => payload
                   end in
  if negb (bool_decide (groupName = "")) then
    match gSubs with
    | [] => Some (false, e)
    | _ =>
        let idx := group_index topic groupName e in
        target ← gSubs !! Z.to_nat (idx mod Z.of_nat (length gSubs));
        let room := match chans e !! target with Some ch => (length (buffer ch) <? chan_capacity)%nat | None => false end in
        e ← deliver_group topic processed groupName gSubs e;
        Some (room, e)
    end
  else cs ← send_all processed subs (chans e); Some (true, with_chans cs e).

Fixpoint replay (topic groupName : string) (subs gSubs : list nat) (xs : list LogEntry) (count : Z) (e : BrokerEngine) : option (Z * BrokerEngine) :=
  match xs with
  | [] => Some (count, e)
  | x :: xs =>
      '(counted, e) ← replay_one topic groupName subs gSubs x e;
      replay topic groupName subs gSubs xs (if (counted : bool) then count + 1 else count) e
  end.

Definition ReplayMessages (topic : string) (startOffset : Z) (groupName : string) (e : BrokerEngine) : option ((string + Z) * BrokerEngine) :=
  match wal e with
  | None => Some (inl "WAL is not initialized", e)
  | Some _ =>
      let '(entries, e) := GetWALEntries e in
      let filtered := of_topic topic entries in
      if (startOffset <? 0) || (Z.of_nat (length filtered) <=? startOffset) then Some (inr 0, e) else
      let subs := default [] (topics e !! topic) in
      let gSubs := if bool_decide (groupName = "") then [] else default [] (default ∅ (groupSubs e !! topic) !! groupName) in
      '(count, e) ← replay topic groupName subs gSubs (drop (Z.to_nat startOffset) filtered) 0 e;
      Some (inr count, e)
  end.

(** ** Start *)

Fixpoint republish (c : Call) (entries : list LogEntry) (e : BrokerEngine) : option BrokerEngine :=
  match entries with
  | [] => Some e
  | x :: entries =>
      '(_, e) ← publishLocal c (map_to_list (groupSubs e)) Background (Topic x) (Wal.Payload x) e;
      republish c entries e
  end.

(** An engine on the log file found at start ([None]: it cannot be opened),
    with the rate and capacity read from the environment. *)
Definition NewBrokerEngine (c : Call) (rate capacity : GoFloat.float64) (log : option bytes) : option BrokerEngine :=
  let e := mkBroker ∅ ∅ ∅ ∅ ∅ ∅ (mkMetrics 0 0 0 0) (OpenWAL <$> log) (NewDeduplicator (5 * Minute)) ∅ 0 ∅
             (NewTimeWheel (10 * Millisecond) (Z.to_nat 36000)) (NewTokenBucket (instant c 0) rate capacity) ∅ ∅ ∅ ∅ ∅ 0 in
  let '(entries, e) := GetWALEntries e in
  republish c entries e.
End Broker.
