(* ===== verification/BrokerFacts.v ===== *)
(** * Facts on the broker: wiring of the channels, sends

    The wiring invariant says that every listed channel is open and listed
    once; it is kept by every operation. *)

From S2P Require Import Prelude GoStrings TimeWheel PriorityQueue Wal HashRing GoSort BrokerGuards Broker.
Local Open Scope Z_scope.

(** ** Sends *)

Section Sends.
Context (payload : string).

(** What a send leaves of a channel. *)
Definition offered (c : channel) : channel :=
  if (length (buffer c) <? chan_capacity)%nat then mkChan (buffer c ++ [payload]) (closed c) else c.

Definition is_open (cs : gmap nat channel) (ch : nat) : Prop := exists c, cs !! ch = Some c /\ closed c = false.

Lemma try_send_spec ch cs : is_open cs ch ->
  exists cs', try_send payload ch cs = Some cs' /\
    forall k, cs' !! k = if decide (k = ch) then offered <$> cs !! k else cs !! k.
Proof.
  intros (c & Hc & Ho). unfold try_send. rewrite Hc, Ho. unfold offered. case_match eqn:E.
  - eexists. split; [done|]. intros k. destruct (decide (k = ch)) as [->|Hk]; [|by rewrite lookup_insert_ne].
    rewrite lookup_insert_eq, Hc. cbn [fmap option_fmap option_map]. by rewrite E, Ho.
  - eexists. split; [done|]. intros k. destruct (decide (k = ch)) as [->|Hk]; [|done]. rewrite Hc. cbn [fmap option_fmap option_map]. by rewrite E.
Qed.

Lemma offered_closed c : closed (offered c) = closed c.
Proof. unfold offered. by case_match. Qed.

Lemma send_all_spec subs cs : NoDup subs -> Forall (is_open cs) subs ->
  exists cs', send_all payload subs cs = Some cs' /\
    forall k, cs' !! k = if decide (k ∈ subs) then offered <$> cs !! k else cs !! k.
Proof.
  revert cs. induction subs as [|ch subs IH]; intros cs Hnd Ho; cbn.
  { exists cs. split; [done|]. intros k. rewrite decide_False; [done|]. set_solver. }
  apply NoDup_cons in Hnd as [Hch Hnd]. apply Forall_cons in Ho as [Ho Hos].
  destruct (try_send_spec ch cs Ho) as (cs1 & E1 & H1). rewrite E1. cbn.
  destruct (IH cs1) as (cs2 & E2 & H2); [done| |].
  { rewrite Forall_forall in Hos |- *. intros k Hk. destruct (Hos k Hk) as (c & Hc & Hop). exists c. split; [|done].
    rewrite H1, decide_False; [done|]. by intros ->. }
  exists cs2. split; [done|]. intros k. rewrite H2, H1. destruct (decide (k = ch)) as [->|Hk].
  - rewrite decide_False by done. by rewrite decide_True by (left).
  - destruct (decide (k ∈ subs)); [by rewrite decide_True by (by right)|]. rewrite decide_False; [done|]. set_solver.
Qed.
End Sends.

(** Channels are neither made nor closed. *)
Definition same_chans (cs cs' : gmap nat channel) : Prop := forall k, closed <$> cs' !! k = closed <$> cs !! k.

Lemma same_open cs cs' ch : same_chans cs cs' -> is_open cs ch -> is_open cs' ch.
Proof.
  intros Hs (c & Hc & Ho). specialize (Hs ch). rewrite Hc in Hs. cbn in Hs. apply fmap_Some in Hs as (c' & Hc' & E). exists c'. split; [done|congruence].
Qed.

Lemma send_same payload subs cs cs' :
  (forall k, cs' !! k = if decide (k ∈ subs) then offered payload <$> cs !! k else cs !! k) -> same_chans cs cs'.
Proof.
  intros H k. rewrite H. case_decide; [|done]. rewrite <- option_fmap_compose. destruct (cs !! k); cbn; [by rewrite offered_closed|done].
Qed.

(** Sends to open channels never panic, whoever is listed twice. *)
Lemma send_all_open payload subs cs : Forall (is_open cs) subs ->
  exists cs', send_all payload subs cs = Some cs' /\ same_chans cs cs'.
Proof.
  revert cs. induction subs as [|ch subs IH]; intros cs Ho; cbn; [by exists cs|].
  apply Forall_cons in Ho as [Ho Hos]. destruct (try_send_spec payload ch cs Ho) as (cs1 & E1 & H1). rewrite E1. cbn.
  assert (Hs : same_chans cs cs1).
  { intros k. rewrite H1. case_decide; [|done]. destruct (cs !! k); cbn; [by rewrite offered_closed|done]. }
  destruct (IH cs1) as (cs2 & E2 & H2). { eapply Forall_impl; [exact Hos|]. intros k. by apply same_open. }
  exists cs2. split; [done|]. intros k. by rewrite H2, Hs.
Qed.

Section Wiring.
Context `{host : Host} `{hash : Digest}.

(** ** Where channels are listed *)

Inductive place := Plain (topic : string) | Part (topic : string) (partition : Z) | Group (topic group : string).

#[global] Instance place_eq_dec : EqDecision place.
Proof. solve_decision. Defined.

Definition members (e : BrokerEngine) (p : place) : list nat :=
  match p with
  | Plain t => default [] (topics e !! t)
  | Part t k => default [] (default ∅ (partitions e !! t) !! k)
  | Group t g => default [] (default ∅ (groupSubs e !! t) !! g)
  end.

Record wired (e : BrokerEngine) : Prop := {
  wired_once : forall p, NoDup (members e p);
  wired_place : forall p q ch, ch ∈ members e p -> ch ∈ members e q -> p = q;
  wired_open : forall p ch, ch ∈ members e p -> is_open (chans e) ch /\ (ch < next_chan e)%nat;
}.

(** The wiring depends on the tables and on which channels are open. *)
Definition same_wiring (e e' : BrokerEngine) : Prop :=
  topics e' = topics e /\ partitions e' = partitions e /\ groupSubs e' = groupSubs e /\ next_chan e' = next_chan e /\
  same_chans (chans e) (chans e').

Lemma same_members e e' p : same_wiring e e' -> members e' p = members e p.
Proof. intros (H1 & H2 & H3 & _). destruct p; cbn; congruence. Qed.

Lemma wired_same e e' : wired e -> same_wiring e e' -> wired e'.
Proof.
  intros [H1 H2 H3] Hs. pose proof Hs as (_ & _ & _ & Hn & Hc). split.
  - intros p. by rewrite (same_members e e' p Hs).
  - intros p q ch. rewrite (same_members e e' p Hs), (same_members e e' q Hs). apply H2.
  - intros p ch. rewrite (same_members e e' p Hs). intros Hch. destruct (H3 p ch Hch) as [Ho Hlt]. split; [by eapply same_open|lia].
Qed.

Lemma same_wiring_refl e : same_wiring e e.
Proof. by split_and!. Qed.

Lemma same_wiring_trans e e' e'' : same_wiring e e' -> same_wiring e' e'' -> same_wiring e e''.
Proof. intros (?&?&?&?&Hs) (?&?&?&?&Hs'). split_and!; try congruence; intros k; by rewrite Hs', Hs. Qed.
(** ** Subscribing and unsubscribing *)

Lemma wired_subscribe e e' p0 :
  wired e -> chans e' = <[next_chan e := mkChan [] false]> (chans e) -> next_chan e' = S (next_chan e) ->
  (forall p, members e' p = if decide (p = p0) then members e p ++ [next_chan e] else members e p) -> wired e'.
Proof.
  intros [H1 H2 H3] Hc Hn Hm.
  assert (Hfresh : forall p, next_chan e ∉ members e p) by (intros p Hp; apply H3 in Hp; lia).
  split.
  - intros p. rewrite Hm. case_decide; [|done]. apply NoDup_app. split; [done|]. split; [|apply NoDup_singleton].
    intros x Hx. rewrite list_elem_of_singleton. intros ->. by apply Hfresh in Hx.
  - intros p q ch. rewrite !Hm. intros Hp Hq.
    assert (Hcase : forall r, (ch ∈ if decide (r = p0) then members e r ++ [next_chan e] else members e r) -> ch ∈ members e r \/ (ch = next_chan e /\ r = p0)).
    { intros r. destruct (decide (r = p0)) as [->|]; [|by left]. rewrite elem_of_app, list_elem_of_singleton. intros [?| ->]; [by left|by right]. }
    destruct (Hcase p Hp) as [Hp'|[-> ->]], (Hcase q Hq) as [Hq'|[E ->]]; [by eapply H2| | |done].
    + subst ch. by apply Hfresh in Hp'.
    + by apply Hfresh in Hq'.
  - intros p ch. rewrite Hm, Hc, Hn. intros Hp.
    assert (Hcase : ch ∈ members e p \/ ch = next_chan e).
    { revert Hp. destruct (decide (p = p0)) as [->|]; [|by left]. rewrite elem_of_app, list_elem_of_singleton. intros [?| ->]; [by left|by right]. }
    destruct Hcase as [Hp'| ->].
    + destruct (H3 p ch Hp') as [(c & Hlk & Ho) Hlt]. split; [|lia]. exists c. split; [|done]. rewrite lookup_insert_ne by lia. done.
    + split; [|lia]. eexists. rewrite lookup_insert_eq. done.
Qed.

Lemma wired_Subscribe t e : wired e -> wired (Subscribe t e).2.
Proof.
  intros Hw. apply (wired_subscribe e _ (Plain t) Hw); [done|done|]. intros [t'|t' k|t' g]; cbn; [|done|done].
  destruct (decide (t' = t)) as [->|Ht].
  - rewrite lookup_insert_eq, decide_True by done. done.
  - rewrite lookup_insert_ne by done. rewrite decide_False by congruence. done.
Qed.

Lemma wired_SubscribePartition t k e : wired e -> wired (SubscribePartition t k e).2.
Proof.
  intros Hw. apply (wired_subscribe e _ (Part t k) Hw); [done|done|]. intros [t'|t' k'|t' g]; cbn; [done| |done].
  destruct (decide (t' = t)) as [->|Ht].
  - rewrite lookup_insert_eq. cbn. destruct (decide (k' = k)) as [->|Hk].
    + rewrite lookup_insert_eq, decide_True by done. done.
    + rewrite lookup_insert_ne by done. rewrite decide_False by congruence. done.
  - rewrite lookup_insert_ne by done. rewrite decide_False by congruence. done.
Qed.

Lemma wired_SubscribeGroup t g e : wired e -> wired (SubscribeGroup t g e).2.
Proof.
  intros Hw. apply (wired_subscribe e _ (Group t g) Hw); [done|done|]. intros [t'|t' k|t' g']; cbn; [done|done|].
  destruct (decide (t' = t)) as [->|Ht].
  - rewrite lookup_insert_eq. cbn. destruct (decide (g' = g)) as [->|Hk].
    + rewrite lookup_insert_eq, decide_True by done. done.
    + rewrite lookup_insert_ne by done. rewrite decide_False by congruence. done.
  - rewrite lookup_insert_ne by done. rewrite decide_False by congruence. done.
Qed.

Lemma remove_chan_elem x ch l : NoDup l -> x ∈ remove_chan ch l <-> x ∈ l /\ x <> ch.
Proof.
  induction 1 as [|c l Hc Hl IH]; cbn; [set_solver|]. case_bool_decide as E.
  - subst c. rewrite elem_of_cons. split; [intros Hx; split; [tauto|by intros ->]|intros [[->|] ?]; done].
  - rewrite !elem_of_cons, IH. split; [intros [->|]; tauto|tauto].
Qed.

Lemma remove_chan_nodup ch l : NoDup l -> NoDup (remove_chan ch l).
Proof.
  induction 1 as [|c l Hc Hl IH]; cbn; [constructor|]. case_bool_decide; [done|]. constructor; [|done].
  rewrite remove_chan_elem by done. tauto.
Qed.

Lemma wired_unsubscribe e e' p0 ch :
  wired e -> ch ∈ members e p0 -> chans e' = close_chan ch (chans e) -> next_chan e' = next_chan e ->
  (forall p, members e' p = if decide (p = p0) then remove_chan ch (members e p) else members e p) -> wired e'.
Proof.
  intros [H1 H2 H3] Hch Hc Hn Hm.
  assert (Hsub : forall p x, x ∈ members e' p -> x ∈ members e p /\ x <> ch).
  { intros p x. rewrite Hm. case_decide as Hp; [subst p; by apply remove_chan_elem|]. intros Hx. split; [done|]. intros ->.
    apply Hp. by eapply H2. }
  split.
  - intros p. rewrite Hm. case_decide; [by apply remove_chan_nodup|done].
  - intros p q x Hp Hq. eapply H2; by apply Hsub.
  - intros p x Hx. apply Hsub in Hx as [Hx Hne]. destruct (H3 p x Hx) as [(c & Hlk & Ho) Hlt]. rewrite Hn. split; [|done].
    exists c. rewrite Hc. unfold close_chan. destruct (chans e !! ch); [by rewrite lookup_insert_ne|done].
Qed.

Lemma key_of_Some {K} `{Countable K} (m : gmap K (list nat)) ch k : key_of m ch = Some k -> ch ∈ default [] (m !! k).
Proof.
  unfold key_of. destruct (list_find _ _) as [[i [k' l]]|] eqn:E; [|done]. intros [= ->].
  apply list_find_Some in E as (Hl & Hch & _). apply list_elem_of_lookup_2, elem_of_map_to_list in Hl. rewrite Hl. done.
Qed.

Lemma wired_Unsubscribe t ch e : wired e -> wired (Unsubscribe t ch e).
Proof.
  intros Hw. unfold Unsubscribe. case_bool_decide as Hch.
  { apply (wired_unsubscribe e _ (Plain t) ch Hw); [done|done|done|]. intros [t'|t' k|t' g]; cbn; [|done|done].
    destruct (decide (t' = t)) as [->|Ht]; [rewrite lookup_insert_eq, decide_True by done; done|].
    rewrite lookup_insert_ne, decide_False by congruence. done. }
  destruct (key_of _ ch) as [k|] eqn:Ek.
  { apply key_of_Some in Ek. apply (wired_unsubscribe e _ (Part t k) ch Hw); [done|done|done|]. intros [t'|t' k'|t' g]; cbn; [done| |done].
    destruct (decide (t' = t)) as [->|Ht]; [|rewrite lookup_insert_ne, decide_False by congruence; done].
    rewrite lookup_insert_eq. cbn. destruct (decide (k' = k)) as [->|Hk]; [rewrite lookup_insert_eq, decide_True by done; done|].
    rewrite lookup_insert_ne, decide_False by congruence. done. }
  destruct (key_of (default ∅ (groupSubs e !! t)) ch) as [g|] eqn:Eg; [|done].
  apply key_of_Some in Eg. apply (wired_unsubscribe e _ (Group t g) ch Hw); [done|done|done|]. intros [t'|t' k'|t' g']; cbn; [done|done|].
  destruct (decide (t' = t)) as [->|Ht]; [|rewrite lookup_insert_ne, decide_False by congruence; done].
  rewrite lookup_insert_eq. cbn. destruct (remove_chan ch _) as [|c0 l0] eqn:El.
  - destruct (decide (g' = g)) as [->|Hk]; [rewrite lookup_delete_eq, decide_True, El by done; done|].
    rewrite lookup_delete_ne, decide_False by congruence. done.
  - destruct (decide (g' = g)) as [->|Hk]; [rewrite lookup_insert_eq, decide_True, El by done; done|].
    rewrite lookup_insert_ne, decide_False by congruence. done.
Qed.
(** ** Everything else leaves the wiring alone *)

Lemma try_send_same payload ch cs cs' : try_send payload ch cs = Some cs' -> same_chans cs cs'.
Proof.
  unfold try_send. destruct (cs !! ch) as [c|] eqn:Hc; [|done]. destruct (closed c) eqn:Ho; [done|].
  case_match; intros [= <-]; intros k; [|done].
  destruct (decide (k = ch)) as [->|Hk]; [rewrite lookup_insert_eq, Hc; cbn; by rewrite Ho|by rewrite lookup_insert_ne].
Qed.

Lemma send_all_same payload subs cs cs' : send_all payload subs cs = Some cs' -> same_chans cs cs'.
Proof.
  revert cs. induction subs as [|ch subs IH]; intros cs H; cbn in H; [injection H as <-; by intros k|].
  apply bind_Some in H as (cs1 & H1 & H2). apply try_send_same in H1. apply IH in H2. intros k. by rewrite H2, H1.
Qed.

Lemma same_with_chans e cs : same_chans (chans e) cs -> same_wiring e (with_chans cs e).
Proof. intros H. by split_and!. Qed.

Lemma same_wal_append t p ts c e : same_wiring e (wal_append t p ts c e).
Proof. unfold wal_append. destruct (wal e); by split_and!. Qed.

Lemma same_routeToDLQ c ctx t p r e e' : routeToDLQ c ctx t p r e = Some e' -> same_wiring e e'.
Proof.
  unfold routeToDLQ. destruct (GetDLQ t e); [|intros [= <-]; apply same_wiring_refl].
  intros H. apply bind_Some in H as (cs & H1 & [= <-]). apply send_all_same in H1.
  eapply same_wiring_trans; [by apply same_with_chans|]. eapply same_wiring_trans; [|apply same_wal_append]. by split_and!.
Qed.

Lemma same_deliver_group t p g subs e e' : deliver_group t p g subs e = Some e' -> same_wiring e e'.
Proof.
  unfold deliver_group. destruct subs; [intros [= <-]; apply same_wiring_refl|]. intros H.
  apply bind_Some in H as (target & _ & H). apply bind_Some in H as (cs & H1 & [= <-]). apply try_send_same in H1. by split_and!.
Qed.

Lemma same_deliver_groups t p gs e e' : deliver_groups t p gs e = Some e' -> same_wiring e e'.
Proof.
  revert e. induction gs as [|[g subs] gs IH]; intros e H; cbn in H; [injection H as <-; apply same_wiring_refl|].
  apply bind_Some in H as (e1 & H1 & H2). eapply same_wiring_trans; [by eapply same_deliver_group|by apply IH].
Qed.

Lemma same_deliver t p tg e e' : deliver t p tg e = Some e' -> same_wiring e e'.
Proof.
  unfold deliver. intros H. apply bind_Some in H as (cs & H1 & H). apply bind_Some in H as (cs' & H2 & H).
  eapply same_wiring_trans; [|by eapply same_deliver_groups]. apply same_with_chans.
  apply send_all_same in H1, H2. intros k. by rewrite H2, H1.
Qed.

Lemma same_take_message now t e : same_wiring e (take_message now t e).2.
Proof.
  unfold take_message. repeat (case_match; try apply same_wiring_refl); by split_and!.
Qed.

Lemma same_dispatch c gorder t e r e' : dispatch c gorder t e = Some (r, e') -> same_wiring e e'.
Proof.
  unfold dispatch. pose proof (same_take_message (instant c 0) t e) as Hs. destruct (take_message _ _ _) as [[|m|m] e1]; cbn in Hs; intros H.
  - by injection H as <- <-.
  - apply bind_Some in H as (e2 & H & [= <- <-]). eapply same_wiring_trans; [exact Hs|by eapply same_routeToDLQ].
  - apply bind_Some in H as (e2 & H & [= <- <-]). eapply same_wiring_trans; [exact Hs|by eapply same_deliver].
Qed.

Lemma same_transform_and_enqueue c ctx t p k n e r e' : transform_and_enqueue c ctx t p k n e = Some (r, e') -> same_wiring e e'.
Proof.
  unfold transform_and_enqueue, transform, enqueue, refused. intros H.
  destruct (transforms e !! t) as [m|]; [destruct (RunTransform m p)|].
  - apply bind_Some in H as (e2 & H & [= <- <-]). eapply same_wiring_trans; [|by eapply same_routeToDLQ]. by split_and!.
  - injection H as <- <-. case_match; by split_and!.
  - injection H as <- <-. case_match; by split_and!.
Qed.

Lemma same_getOrCreateQueue t e : same_wiring e (getOrCreateQueue t e).2.
Proof. unfold getOrCreateQueue. case_match; by split_and!. Qed.

Lemma same_check_sequence ctx e : same_wiring e (check_sequence ctx e).2.
Proof. unfold check_sequence. repeat case_match; by split_and!. Qed.

Lemma same_check_duplicate now ctx e : same_wiring e (check_duplicate now ctx e).2.
Proof. unfold check_duplicate. repeat case_match; by split_and!. Qed.

Lemma same_schedule c ctx t p d e e' : schedule c ctx t p d e = Some e' -> same_wiring e e'.
Proof. unfold schedule. intros H. apply bind_Some in H as (tw & _ & [= <-]). by split_and!. Qed.
Lemma same_publish_accepted t p ts c e : same_wiring e (wal_append t p ts c (count_published e)).
Proof. eapply same_wiring_trans; [|apply same_wal_append]. by split_and!. Qed.

Lemma same_PublishPartition c ctx t k p e r e' : PublishPartition c ctx t k p e = Some (r, e') -> same_wiring e e'.
Proof.
  unfold PublishPartition. pose proof (same_getOrCreateQueue t e) as H1. destruct (getOrCreateQueue t e) as [pq e1]. cbn in H1.
  unfold refused. intros H. repeat case_match; simplify_eq; try done.
  eapply same_wiring_trans; [exact H1|]. eapply same_wiring_trans; [apply same_publish_accepted|]. by eapply same_transform_and_enqueue.
Qed.

Lemma same_Publish c ctx t p e r e' : Publish c ctx t p e = Some (r, e') -> same_wiring e e'.
Proof.
  unfold Publish. destruct (BrokerGuards.Allow _ _) as [ok tb]. unfold refused. intros H.
  destruct ok; cbn [negb] in H; [|injection H as _ <-; by split_and!].
  assert (H0 : same_wiring e (with_limiter tb e)) by by split_and!. revert H H0. generalize (with_limiter tb e) as e0. intros e0 H H0.
  pose proof (same_getOrCreateQueue t e0) as H1. destruct (getOrCreateQueue t e0) as [pq e1]. cbn in H1.
  apply (same_wiring_trans _ _ _ H0) in H1. destruct (_ <=? _); [by simplify_eq|]. destruct (schema_error _ _ _); [by simplify_eq|].
  pose proof (same_check_sequence ctx e1) as H3. destruct (check_sequence ctx e1) as [[] e2]; cbn in H3;
    apply (same_wiring_trans _ _ _ H1) in H3; [by simplify_eq|].
  pose proof (same_check_duplicate (instant c 1) ctx e2) as H4. destruct (check_duplicate _ ctx e2) as [[] e3]; cbn in H4;
    apply (same_wiring_trans _ _ _ H3) in H4; [by simplify_eq|].
  pose proof (same_wiring_trans _ _ _ H4 (same_publish_accepted t p (instant c 2) c e3)) as H5.
  destruct (delay_of ctx).
  - apply bind_Some in H as (e4 & H & [= <- <-]). eapply same_wiring_trans; [exact H5|by eapply same_schedule].
  - eapply same_wiring_trans; [exact H5|by eapply same_transform_and_enqueue].
Qed.

Lemma same_publishLocal c gorder ctx t p e r e' : publishLocal c gorder ctx t p e = Some (r, e') -> same_wiring e e'.
Proof.
  unfold publishLocal, refused. intros H. destruct (match transforms e !! t with None => _ | Some _ => _ end) eqn:E.
  - apply bind_Some in H as (e2 & H & [= <- <-]). by eapply same_routeToDLQ.
  - apply bind_Some in H as (cs & H1 & H). apply bind_Some in H as (e2 & H & [= <- <-]).
    eapply same_wiring_trans; [by eapply same_with_chans, send_all_same|by eapply same_deliver_groups].
Qed.

Lemma same_run_delayed c gorder j e e' : run_delayed c gorder j e = Some e' -> same_wiring e e'.
Proof.
  destruct j as [id t p|t p]; cbn; intros H; apply bind_Some in H as ([r e1] & H & [= <-]).
  - apply same_publishLocal in H. eapply same_wiring_trans; [|exact H]. by split_and!.
  - by eapply same_Publish.
Qed.

Lemma same_GetWALEntries e : same_wiring e (GetWALEntries e).2.
Proof. unfold GetWALEntries. repeat case_match; by split_and!. Qed.

Lemma same_replay t g subs gSubs xs n e r e' : replay t g subs gSubs xs n e = Some (r, e') -> same_wiring e e'.
Proof.
  revert n e. induction xs as [|x xs IH]; intros n e H; cbn in H; [injection H as _ <-; apply same_wiring_refl|].
  apply bind_Some in H as ([b e1] & H1 & H2). eapply same_wiring_trans; [|by eapply IH]. clear H2 IH. revert H1. unfold replay_one.
  destruct (negb _).
  - destruct gSubs; [intros [= _ <-]; apply same_wiring_refl|]. intros H.
    apply bind_Some in H as (tg & _ & H). apply bind_Some in H as (e2 & H & [= _ <-]). by eapply same_deliver_group.
  - intros H. apply bind_Some in H as (cs & H & [= _ <-]). by eapply same_with_chans, send_all_same.
Qed.

Lemma same_ReplayMessages t o g e r e' : ReplayMessages t o g e = Some (r, e') -> same_wiring e e'.
Proof.
  unfold ReplayMessages. destruct (wal e); [|intros [= _ <-]; apply same_wiring_refl].
  pose proof (same_GetWALEntries e) as H1. destruct (GetWALEntries e) as [entries e1]. cbn in H1.
  destruct (_ || _); [by intros [= _ <-]|]. intros H. apply bind_Some in H as ([n e2] & H & [= _ <-]).
  eapply same_wiring_trans; [exact H1|by eapply same_replay].
Qed.
End Wiring.
