(* ===== verification/BrokerProps.v ===== *)
(** * Properties of the broker: who gets a message

    Reachable engines, the recipients of a round of the dispatch loop, and
    the theorem on the fan-out. *)

From S2P Require Import Prelude GoStrings TimeWheel PriorityQueue Wal HashRing GoSort BrokerGuards Broker BrokerFacts.
Local Open Scope Z_scope.

Section Reach.
Context `{host : Host} `{hash : Digest}.

(** A consumer takes the oldest payload of its channel. *)
Definition receive (ch : nat) (e : BrokerEngine) : option (string * BrokerEngine) :=
  c ← chans e !! ch;
  match buffer c with
  | [] => None
  | p :: rest => Some (p, with_chans (<[ch := mkChan rest (closed c)]> (chans e)) e)
  end.

(** Every operation but the one that closes a channel.  The dispatch loop of
    a topic takes a message, reads the subscriptions and sends, with other
    operations in between. *)
Inductive quiet_step : BrokerEngine -> BrokerEngine -> Prop :=
| step_subscribe t e : quiet_step e (Subscribe t e).2
| step_partition t k e : quiet_step e (SubscribePartition t k e).2
| step_group t g e : quiet_step e (SubscribeGroup t g e).2
| step_dlq t d e : quiet_step e (SetDLQ t d e)
| step_schema t s e : quiet_step e (RegisterSchema t s e)
| step_compacted t b e : quiet_step e (SetCompacted t b e)
| step_transform t b e : quiet_step e (RegisterTransform t b e).2
| step_publish c ctx t p e r e' : Publish c ctx t p e = Some (r, e') -> quiet_step e e'
| step_publish_partition c ctx t k p e r e' : PublishPartition c ctx t k p e = Some (r, e') -> quiet_step e e'
| step_dispatch c gorder t e r e' : dispatch c gorder t e = Some (r, e') -> quiet_step e e'
| step_take now t e : quiet_step e (take_message now t e).2
| step_deliver t p tg e e' : deliver t p tg e = Some e' -> quiet_step e e'
| step_schedule t p d e e' : ScheduleDelayed t p d e = Some e' -> quiet_step e e'
| step_tick e js e' : tick_wheel e = Some (js, e') -> quiet_step e e'
| step_delayed c gorder j e e' : run_delayed c gorder j e = Some e' -> quiet_step e e'
| step_replay t o g e r e' : ReplayMessages t o g e = Some (r, e') -> quiet_step e e'
| step_commit g t o e : quiet_step e (CommitOffset g t o e)
| step_commit_group c g t o e : quiet_step e (CommitGroupOffset c g t o e)
| step_entries e : quiet_step e (GetWALEntries e).2
| step_receive ch e p e' : receive ch e = Some (p, e') -> quiet_step e e'.

Inductive broker_step : BrokerEngine -> BrokerEngine -> Prop :=
| step_quiet e e' : quiet_step e e' -> broker_step e e'
| step_unsubscribe t ch e : broker_step e (Unsubscribe t ch e).

Inductive broker_reachable : BrokerEngine -> Prop :=
| reach_start c rate capacity log e : NewBrokerEngine c rate capacity log = Some e -> broker_reachable e
| reach_step e e' : broker_reachable e -> broker_step e e' -> broker_reachable e'.

Lemma same_republish c xs e e' : republish c xs e = Some e' -> same_wiring e e'.
Proof.
  revert e. induction xs as [|x xs IH]; intros e H; cbn in H; [injection H as <-; apply same_wiring_refl|].
  apply bind_Some in H as ([r e1] & H1 & H2). eapply same_wiring_trans; [by eapply same_publishLocal|by apply IH].
Qed.

(** A quiet step is a subscription or leaves the wiring alone. *)
Lemma quiet_wiring e e' :
  quiet_step e e' -> (wired e -> wired e') /\ (chans e' = (new_chan e).2 \/ same_chans (chans e) (chans e')).
Proof.
  assert (Hsame : forall e e', same_wiring e e' -> (wired e -> wired e') /\ (chans e' = (new_chan e).2 \/ same_chans (chans e) (chans e'))).
  { intros x x' H. split; [intros Hw; by eapply wired_same|right; apply H]. }
  intros Hs. destruct Hs;
    [split; [by apply wired_Subscribe|by left]|split; [by apply wired_SubscribePartition|by left]|split; [by apply wired_SubscribeGroup|by left]|..];
    apply Hsame.
  1-3: by split_and!.
  - unfold RegisterTransform. repeat case_match; by split_and!.
  - by eapply same_Publish.
  - by eapply same_PublishPartition.
  - by eapply same_dispatch.
  - apply same_take_message.
  - by eapply same_deliver.
  - unfold ScheduleDelayed in H. apply bind_Some in H as (tw & _ & [= <-]). by split_and!.
  - unfold tick_wheel in H. apply bind_Some in H as ([js' tw] & _ & [= _ <-]). by split_and!.
  - by eapply same_run_delayed.
  - by eapply same_ReplayMessages.
  - by split_and!.
  - eapply same_wiring_trans; [|apply same_wal_append]. by split_and!.
  - apply same_GetWALEntries.
  - unfold receive in H. apply bind_Some in H as (cc & Hc & H). destruct (buffer cc); [done|]. injection H as _ <-.
    apply same_with_chans. intros k. destruct (decide (k = ch)) as [->|]; [rewrite lookup_insert_eq, Hc; done|by rewrite lookup_insert_ne].
Qed.

Lemma wired_step e e' : broker_step e e' -> wired e -> wired e'.
Proof. intros [? ? H|t ch x]; [apply quiet_wiring, H|apply wired_Unsubscribe]. Qed.

(** A step during which none of these channels is unsubscribed. *)
Definition keeps (targets : list nat) (e e' : BrokerEngine) : Prop :=
  quiet_step e e' \/ (exists t ch, (ch ∉ targets) /\ e' = Unsubscribe t ch e).

Lemma keeps_step targets e e' : keeps targets e e' -> broker_step e e'.
Proof. intros [H|(t & ch & _ & ->)]; [by apply step_quiet|apply step_unsubscribe]. Qed.

Lemma closes_one t ch e k : k <> ch -> chans (Unsubscribe t ch e) !! k = chans e !! k.
Proof.
  intros Hk. assert (E : (close_chan ch (chans e)) !! k = chans e !! k).
  { unfold close_chan. destruct (chans e !! ch); [by rewrite lookup_insert_ne|done]. }
  unfold Unsubscribe. repeat case_match; exact E || done.
Qed.

Lemma keeps_open targets e e' ch : keeps targets e e' -> ch ∈ targets -> is_open (chans e) ch -> is_open (chans e') ch.
Proof.
  intros [H|(t & k & Hk & ->)] Hch Ho.
  - apply quiet_wiring in H as [_ [->|H]]; [|by eapply same_open]. cbn. destruct (decide (ch = next_chan e)) as [->|].
    + eexists. by rewrite lookup_insert_eq.
    + destruct Ho as (c & Hc & Ho). exists c. by rewrite lookup_insert_ne.
  - destruct Ho as (c & Hc & Ho). exists c. rewrite closes_one; [done|]. by intros ->.
Qed.

Lemma keeps_all_open targets e e' ch : rtc (keeps targets) e e' -> ch ∈ targets -> is_open (chans e) ch -> is_open (chans e') ch.
Proof. intros H Hch. induction H as [|x y z H _ IH]; [done|]. intros Ho. apply IH. by eapply keeps_open. Qed.

Lemma reachable_steps e e' : rtc broker_step e e' -> broker_reachable e -> broker_reachable e'.
Proof. induction 1 as [|x y z H _ IH]; [done|]. intros Hr. apply IH. by eapply reach_step. Qed.

Lemma reachable_wired e : broker_reachable e -> wired e.
Proof.
  induction 1 as [c rate capacity log e H|e e' _ IH Hs]; [|by eapply wired_step].
  unfold NewBrokerEngine in H. set (e0 := mkBroker _ _ _ _ _ _ _ _ _ _ _ _ _ _ _ _ _ _ _ _) in H.
  pose proof (same_GetWALEntries e0) as H1. destruct (GetWALEntries e0) as [xs e1]. cbn in H1.
  apply same_republish in H. eapply wired_same; [|eapply same_wiring_trans; [exact H1|exact H]].
  assert (Hm : forall p, members e0 p = []) by (intros [t|t k|t g]; cbn; by rewrite !lookup_empty).
  split.
  - intros p. rewrite Hm. apply NoDup_nil_2.
  - intros p q ch. rewrite Hm. by intros ?%not_elem_of_nil.
  - intros p ch. rewrite Hm. by intros ?%not_elem_of_nil.
Qed.
(** ** Lists of channels *)

Lemma NoDup_concat_members {A} (f : A -> list nat) (key : A -> place) e (l : list A) :
  wired e -> NoDup l -> (forall x, x ∈ l -> f x = members e (key x)) -> (forall x y, x ∈ l -> y ∈ l -> key x = key y -> x = y) ->
  NoDup (concat (f <$> l)).
Proof.
  intros Hw Hnd Hf Hkey. induction Hnd as [|x l Hx Hnd IH]; [apply NoDup_nil_2|]. rewrite fmap_cons. cbn. apply NoDup_app. split_and!.
  - rewrite Hf by left. by apply wired_once.
  - intros ch Hch. rewrite Hf in Hch by left. rewrite elem_of_concat. intros (l' & Hl' & Hch').
    apply list_elem_of_fmap in Hl' as (y & -> & Hy). rewrite Hf in Hch' by (by right).
    assert (E : key x = key y) by (by eapply wired_place). apply Hkey in E; [|left|by right]. subst y. done.
  - apply IH; [intros y Hy; apply Hf; by right|]. intros y z Hy Hz. apply Hkey; by right.
Qed.

Lemma elem_of_matching {A} (m : gmap string A) topic x :
  x ∈ matching m topic <-> exists pattern, matchTopic pattern topic = true /\ m !! pattern = Some x.
Proof.
  unfold matching. rewrite list_elem_of_fmap. split.
  - intros ([k y] & -> & H). apply list_elem_of_filter in H as [Hm H]. apply elem_of_map_to_list in H. eauto.
  - intros (k & Hm & H). exists (k, x). split; [done|]. apply list_elem_of_filter. split; [done|]. by apply elem_of_map_to_list.
Qed.

Lemma elem_of_tg_subs gorder topic part e ch :
  ch ∈ tg_subs (snapshot gorder topic part e) <-> exists pattern, matchTopic pattern topic = true /\ ch ∈ members e (Plain pattern).
Proof.
  cbn. rewrite elem_of_concat. split.
  - intros (l & Hl & Hch). apply elem_of_matching in Hl as (p & Hm & Hl). exists p. by rewrite Hl.
  - intros (p & Hm & Hch). destruct (topics e !! p) as [l|] eqn:E; [|by apply not_elem_of_nil in Hch].
    exists l. split; [|done]. apply elem_of_matching. eauto.
Qed.

Lemma elem_of_tg_partition gorder topic part e ch :
  ch ∈ tg_partition (snapshot gorder topic part e) <-> exists pattern, matchTopic pattern topic = true /\ ch ∈ members e (Part pattern part).
Proof.
  cbn. rewrite elem_of_concat. split.
  - intros (l & Hl & Hch). apply list_elem_of_fmap in Hl as (m & -> & Hl). apply elem_of_matching in Hl as (p & Hm & Hl). exists p. by rewrite Hl.
  - intros (p & Hm & Hch). destruct (partitions e !! p) as [m|] eqn:E; [|cbn in Hch; rewrite lookup_empty in Hch; by apply not_elem_of_nil in Hch].
    exists (default [] (m !! part)). split; [|done]. apply list_elem_of_fmap. exists m. split; [done|]. apply elem_of_matching. eauto.
Qed.

Lemma nodup_tg_subs gorder topic part e : wired e -> NoDup (tg_subs (snapshot gorder topic part e)).
Proof.
  intros Hw. cbn. unfold matching. apply (NoDup_concat_members _ (fun kv => Plain kv.1) e); [done|apply NoDup_filter, NoDup_map_to_list| |].
  - intros [k l] H. apply list_elem_of_filter in H as [_ H]. apply elem_of_map_to_list in H. cbn. by rewrite H.
  - intros [k l] [k' l'] H H' [= E]. cbn in E. subst k'.
    apply list_elem_of_filter in H as [_ H], H' as [_ H']. apply elem_of_map_to_list in H, H'. congruence.
Qed.

Lemma nodup_tg_partition gorder topic part e : wired e -> NoDup (tg_partition (snapshot gorder topic part e)).
Proof.
  intros Hw. cbn. unfold matching. rewrite <- list_fmap_compose.
  apply (NoDup_concat_members _ (fun kv => Part kv.1 part) e); [done|apply NoDup_filter, NoDup_map_to_list| |].
  - intros [k l] H. apply list_elem_of_filter in H as [_ H]. apply elem_of_map_to_list in H. cbn. by rewrite H.
  - intros [k l] [k' l'] H H' [= E]. cbn in E. subst k'.
    apply list_elem_of_filter in H as [_ H], H' as [_ H']. apply elem_of_map_to_list in H, H'. congruence.
Qed.

Lemma elem_of_groups_of gorder topic g ch :
  ch ∈ default [] (groups_of gorder topic !! g) <->
  exists pattern gm, (pattern, gm) ∈ gorder /\ matchTopic pattern topic = true /\ ch ∈ default [] (gm !! g).
Proof.
  unfold groups_of.
  assert (H : forall (acc : gmap string (list nat)),
    ch ∈ default [] (fold_left (fun acc (pg : string * gmap string (list nat)) =>
      if matchTopic pg.1 topic then union_with (fun a b => Some (a ++ b)) acc pg.2 else acc) gorder acc !! g) <->
    ch ∈ default [] (acc !! g) \/ exists pattern gm, (pattern, gm) ∈ gorder /\ matchTopic pattern topic = true /\ ch ∈ default [] (gm !! g)).
  { induction gorder as [|[p gm] gorder IH]; intros acc; cbn [fold_left].
    - split; [by left|]. intros [H|(p & gm & H & _)]; [done|]. by apply not_elem_of_nil in H.
    - rewrite IH. cbn [fst snd]. destruct (matchTopic p topic) eqn:Em.
      + assert (Hu : ch ∈ default [] (union_with (fun a b => Some (a ++ b)) acc gm !! g) <-> ch ∈ default [] (acc !! g) \/ ch ∈ default [] (gm !! g)).
        { rewrite lookup_union_with. destruct (acc !! g), (gm !! g); cbn; rewrite ?elem_of_app; split; intros; try tauto; set_solver. }
        rewrite Hu. clear Hu IH. split.
        * intros [[H|H]|(p' & gm' & H & Hm & Hc)]; [by left|right; exists p, gm; split; [left|done]|right; exists p', gm'; split; [by right|done]].
        * intros [H|(p' & gm' & H & Hm & Hc)]; [by left; left|]. apply elem_of_cons in H as [[= -> ->]|H]; [by left; right|right; eauto].
      + split; intros [H|(p' & gm' & H & Hm & Hc)]; try (by left); right.
        * exists p', gm'. split; [by right|done].
        * apply elem_of_cons in H as [[= -> ->]|H]; [congruence|eauto]. }
  rewrite H, lookup_empty. cbn. split; [intros [H'|]; [by apply not_elem_of_nil in H'|done]|by right].
Qed.
(** ** Deliveries to groups *)

(** The member of a group whose turn it is. *)
Definition chosen (e : BrokerEngine) (topic : string) (gs : string * list nat) : option nat :=
  gs.2 !! Z.to_nat (group_index topic gs.1 e mod Z.of_nat (length gs.2)).

Lemma chosen_nonempty e topic g l : l <> [] -> is_Some (chosen e topic (g, l)).
Proof.
  intros Hl. unfold chosen. cbn. apply lookup_lt_is_Some_2. destruct l as [|x l]; [done|].
  pose proof (Z.mod_pos_bound (group_index topic g e) (Z.of_nat (length (x :: l)))). cbn [length] in *. lia.
Qed.

Lemma deliver_groups_spec topic payload gs e :
  NoDup gs.*1 -> (forall g l ch, (g, l) ∈ gs -> ch ∈ l -> is_open (chans e) ch) ->
  exists e', deliver_groups topic payload gs e = Some e' /\
    send_all payload (omap (chosen e topic) gs) (chans e) = Some (chans e') /\
    (forall g, group_index topic g e' =
       if decide (g ∈ (filter (fun x : string * list nat => x.2 <> []) gs).*1) then wrapu64 (group_index topic g e + 1) else group_index topic g e).
Proof.
  revert e. induction gs as [|[g l] gs IH]; intros e Hnd Ho; cbn [deliver_groups].
  { exists e. split; [done|]. split; [done|]. intros g. rewrite decide_False; [done|]. cbn. apply not_elem_of_nil. }
  cbn in Hnd. apply NoDup_cons in Hnd as [Hg Hnd].
  destruct l as [|x l0] eqn:El.
  { cbn [deliver_group mbind option_bind]. destruct (IH e Hnd) as (e' & H1 & H2 & H3).
    - intros g' l' ch H. apply (Ho g' l'). by right.
    - exists e'. split; [done|]. split; [done|]. intros g'. rewrite H3. rewrite filter_cons_False by (cbn; tauto). done. }
  rewrite <- El in *. assert (Hl : l <> []) by (by rewrite El). clear x l0 El.
  destruct (chosen_nonempty e topic g l Hl) as [ch Hch].
  assert (Hopen : is_open (chans e) ch).
  { apply (Ho g l); [left|]. unfold chosen in Hch. cbn in Hch. by apply list_elem_of_lookup_2 in Hch. }
  destruct (try_send_spec payload ch (chans e) Hopen) as (cs & Hsend & Hcs).
  set (e1 := with_chans cs (with_indices (<[topic := <[g := wrapu64 (group_index topic g e + 1)]> (default ∅ (groupIndices e !! topic))]> (groupIndices e)) e)).
  assert (Hd : deliver_group topic payload g l e = Some e1).
  { unfold deliver_group. destruct l as [|x l0] eqn:El; [done|]. rewrite <- El in *. unfold chosen in Hch. cbn in Hch. rewrite Hch. cbn.
    rewrite Hsend. done. }
  rewrite Hd. cbn [mbind option_bind].
  assert (Hidx : forall g', group_index topic g' e1 = if decide (g' = g) then wrapu64 (group_index topic g e + 1) else group_index topic g' e).
  { intros g'. unfold group_index at 1. cbn. rewrite lookup_insert_eq. cbn. destruct (decide (g' = g)) as [->|Hne]; [by rewrite lookup_insert_eq|].
    by rewrite lookup_insert_ne. }
  destruct (IH e1 Hnd) as (e' & H1 & H2 & H3).
  { intros g' l' ch' H Hin. eapply same_open; [|eapply Ho; [by right|exact Hin]]. cbn. by eapply try_send_same. }
  exists e'. split; [done|]. split.
  - cbn [omap list_omap]. rewrite Hch. cbn. rewrite Hsend. cbn. rewrite <- H2. f_equal.
    apply omap_ext_in. intros [g' l'] Hi. unfold chosen. cbn. rewrite Hidx, decide_False; [done|].
    intros ->. apply Hg. apply list_elem_of_fmap. by exists (g, l').
  - intros g'. rewrite H3, Hidx, filter_cons_True by done. cbn [fmap list_fmap].
    destruct (decide (g' = g)) as [->|Hne].
    + rewrite decide_False.
      * rewrite decide_True; [done|]. cbn. left.
      * intros H. apply Hg. apply list_elem_of_fmap in H as (y & -> & Hy). apply list_elem_of_filter in Hy as [_ Hy]. apply list_elem_of_fmap. eauto.
    + cbn. destruct (decide (g' ∈ (filter _ gs).*1)) as [H|H].
      * rewrite decide_True; [done|]. by right.
      * rewrite decide_False; [done|]. intros [->|]%elem_of_cons; done.
Qed.

Lemma send_all_app payload a b cs : send_all payload (a ++ b) cs = send_all payload a cs ≫= send_all payload b.
Proof. revert cs. induction a as [|ch a IH]; intros cs; cbn; [done|]. destruct (try_send payload ch cs); cbn; [apply IH|done]. Qed.

(** Everyone listed when the subscriptions are read. *)
Definition listed (t : Targets) : list nat := tg_subs t ++ tg_partition t ++ concat (snd <$> map_to_list (tg_groups t)).

(** Everyone who gets a message with this partition number: the subscriptions
    are those of [e0], the turns of the groups those of [e]. *)
Definition recipients (gorder : list (string * gmap string (list nat))) (topic : string) (part : Z) (e0 e : BrokerEngine) : list nat :=
  let t := snapshot gorder topic part e0 in
  tg_subs t ++ tg_partition t ++ omap (chosen e topic) (map_to_list (tg_groups t)).

Lemma chosen_member gorder topic e g l ch :
  gorder ≡ₚ map_to_list (groupSubs e) -> groups_of gorder topic !! g = Some l -> ch ∈ l ->
  exists pattern, matchTopic pattern topic = true /\ ch ∈ members e (Group pattern g).
Proof.
  intros Hp Hg Hch. assert (H : ch ∈ default [] (groups_of gorder topic !! g)) by by rewrite Hg.
  apply elem_of_groups_of in H as (pattern & gm & Hin & Hm & Hc). exists pattern. split; [done|].
  rewrite Hp, elem_of_map_to_list in Hin. cbn. by rewrite Hin.
Qed.

Lemma recipients_nodup gorder topic part e0 e :
  wired e0 -> gorder ≡ₚ map_to_list (groupSubs e0) -> NoDup (recipients gorder topic part e0 e).
Proof.
  intros Hw Hp. unfold recipients. set (t := snapshot gorder topic part e0).
  assert (Hch : forall ch, ch ∈ omap (chosen e topic) (map_to_list (tg_groups t)) -> exists pattern g, ch ∈ members e0 (Group pattern g)).
  { intros ch H. apply list_elem_of_omap in H as ([g l] & Hin & Hc). apply elem_of_map_to_list in Hin.
    unfold chosen in Hc. apply list_elem_of_lookup_2 in Hc. destruct (chosen_member gorder topic e0 g l ch Hp Hin Hc) as (pattern & _ & H). eauto. }
  apply NoDup_app. split; [by apply nodup_tg_subs|]. split.
  { intros ch H. apply elem_of_tg_subs in H as (p & _ & H). rewrite elem_of_app. intros [H'|H'].
    - apply elem_of_tg_partition in H' as (p' & _ & H'). by eapply wired_place in H'; [|done|exact H].
    - apply Hch in H' as (p' & g & H'). by eapply wired_place in H'; [|done|exact H]. }
  apply NoDup_app. split; [by apply nodup_tg_partition|]. split.
  { intros ch H. apply elem_of_tg_partition in H as (p & _ & H). intros H'.
    apply Hch in H' as (p' & g & H'). by eapply wired_place in H'; [|done|exact H]. }
  pose proof (NoDup_fst_map_to_list (tg_groups t)) as Hnd. clear Hch.
  assert (Hin : forall x, x ∈ map_to_list (tg_groups t) -> tg_groups t !! x.1 = Some x.2).
  { intros [g l] H. by apply elem_of_map_to_list in H. }
  revert Hnd Hin. generalize (map_to_list (tg_groups t)) as gs. intros gs. induction gs as [|[g l] gs IH]; intros Hnd Hin; [apply NoDup_nil_2|].
  cbn in Hnd. apply NoDup_cons in Hnd as [Hg Hnd]. cbn [omap list_omap].
  destruct (chosen e topic (g, l)) as [ch|] eqn:E; [|apply IH; [done|]; intros x Hx; apply Hin; by right].
  constructor; [|apply IH; [done|]; intros x Hx; apply Hin; by right].
  intros H. apply list_elem_of_omap in H as ([g' l'] & Hin' & Hc). unfold chosen in E, Hc. apply list_elem_of_lookup_2 in E, Hc. cbn in E, Hc.
  destruct (chosen_member gorder topic e0 g l ch Hp) as (p & _ & H1); [apply (Hin (g, l)); left|done|].
  destruct (chosen_member gorder topic e0 g' l' ch Hp) as (p' & _ & H2); [apply (Hin (g', l')); by right|done|].
  assert (E' : Group p g = Group p' g') by (by eapply wired_place). injection E' as -> ->.
  apply Hg. apply list_elem_of_fmap. by exists (g', l').
Qed.

Lemma recipients_listed gorder topic part e0 e ch :
  ch ∈ recipients gorder topic part e0 e -> ch ∈ listed (snapshot gorder topic part e0).
Proof.
  unfold recipients, listed. rewrite !elem_of_app. intros [H|[H|H]]; [by left|by right; left|]. right. right.
  apply list_elem_of_omap in H as ([g l] & Hin & Hc). unfold chosen in Hc. apply list_elem_of_lookup_2 in Hc.
  apply elem_of_concat. exists l. split; [|done]. apply list_elem_of_fmap. by exists (g, l).
Qed.

Lemma listed_open gorder topic part e ch :
  wired e -> gorder ≡ₚ map_to_list (groupSubs e) -> ch ∈ listed (snapshot gorder topic part e) -> is_open (chans e) ch.
Proof.
  intros Hw Hp. unfold listed. rewrite !elem_of_app. intros [H|[H|H]].
  - apply elem_of_tg_subs in H as (p & _ & H). by eapply wired_open.
  - apply elem_of_tg_partition in H as (p & _ & H). by eapply wired_open.
  - apply elem_of_concat in H as (l & Hl & Hc). apply list_elem_of_fmap in Hl as ([g l'] & -> & Hin). apply elem_of_map_to_list in Hin.
    destruct (chosen_member gorder topic e g l' ch Hp Hin Hc) as (p & _ & H). by eapply wired_open.
Qed.

(** Delivery is a send to the recipients, each once, as long as those listed
    are open. *)
Lemma deliver_spec gorder topic part payload e0 e :
  wired e0 -> gorder ≡ₚ map_to_list (groupSubs e0) -> (forall ch, ch ∈ listed (snapshot gorder topic part e0) -> is_open (chans e) ch) ->
  exists e', deliver topic payload (snapshot gorder topic part e0) e = Some e' /\
    (forall ch, chans e' !! ch = if decide (ch ∈ recipients gorder topic part e0 e) then offered payload <$> chans e !! ch else chans e !! ch) /\
    (forall g, group_index topic g e' =
       match groups_of gorder topic !! g with Some (_ :: _) => wrapu64 (group_index topic g e + 1) | _ => group_index topic g e end).
Proof.
  intros Hw Hp Ho. set (t := snapshot gorder topic part e0).
  destruct (send_all_spec payload (recipients gorder topic part e0 e) (chans e)) as (cs & Hs & Hcs).
  { by apply recipients_nodup. }
  { apply Forall_forall. intros ch Hch. by eapply Ho, recipients_listed. }
  unfold recipients in Hs. fold t in Hs. cbn zeta in Hs. rewrite !send_all_app in Hs.
  apply bind_Some in Hs as (cs1 & Hs1 & Hs). rewrite send_all_app in Hs. apply bind_Some in Hs as (cs2 & Hs2 & Hs3).
  unfold deliver, filterSemanticRoute. rewrite Hs1. cbn [mbind option_bind]. rewrite Hs2. cbn [mbind option_bind].
  destruct (deliver_groups_spec topic payload (map_to_list (tg_groups t)) (with_chans cs2 e)) as (e' & H1 & H2 & H3).
  { apply NoDup_fst_map_to_list. }
  { intros g l ch Hin Hch. apply (same_open cs1); [by eapply send_all_same|]. apply (same_open (chans e)); [by eapply send_all_same|].
    apply Ho. unfold listed. rewrite !elem_of_app. right. right. apply elem_of_concat. exists l. split; [|done].
    apply list_elem_of_fmap. by exists (g, l). }
  exists e'. split; [done|]. split.
  - change (chosen (with_chans cs2 e)) with (chosen e) in H2. cbn [chans with_chans with_subs] in H2. rewrite H2 in Hs3. injection Hs3 as <-. exact Hcs.
  - intros g. rewrite H3. change (group_index topic g (with_chans cs2 e)) with (group_index topic g e). cbn [tg_groups t snapshot].
    destruct (groups_of gorder topic !! g) as [l|] eqn:E.
    + destruct l as [|x l].
      * rewrite decide_False; [done|]. rewrite list_elem_of_fmap. intros ([g' l'] & -> & H). apply list_elem_of_filter in H as [Hne H].
        apply elem_of_map_to_list in H. cbn in *. congruence.
      * rewrite decide_True; [done|]. apply list_elem_of_fmap. exists (g, x :: l). split; [done|]. apply list_elem_of_filter.
        split; [done|]. by apply elem_of_map_to_list.
    + rewrite decide_False; [done|]. rewrite list_elem_of_fmap. intros ([g' l'] & -> & H). apply list_elem_of_filter in H as [_ H].
      apply elem_of_map_to_list in H. cbn in *. congruence.
Qed.
(** ** The fan-out of a message *)

(** Subscribed to a pattern that matches the topic, to the partition of the
    message under such a pattern when the subscriptions were read ([e0]), or
    the member of such a group whose turn it is at the time of sending ([e]). *)
Definition addressed (gorder : list (string * gmap string (list nat))) (topic : string) (part : Z) (e0 e : BrokerEngine) (ch : nat) : Prop :=
  (exists pattern, matchTopic pattern topic = true /\ (ch ∈ members e0 (Plain pattern) \/ ch ∈ members e0 (Part pattern part))) \/
  (exists g l, groups_of gorder topic !! g = Some l /\ chosen e topic (g, l) = Some ch).

Lemma recipients_addressed gorder topic part e0 e ch : ch ∈ recipients gorder topic part e0 e <-> addressed gorder topic part e0 e ch.
Proof.
  unfold recipients, addressed. rewrite !elem_of_app, elem_of_tg_subs, elem_of_tg_partition, list_elem_of_omap. cbn [tg_groups snapshot]. split.
  - intros [(p & Hm & H)|[(p & Hm & H)|([g l] & Hin & Hc)]]; [left; eauto|left; eauto|]. right. exists g, l. by rewrite <- elem_of_map_to_list.
  - intros [(p & Hm & [H|H])|(g & l & Hl & Hc)]; [left; eauto|right; left; eauto|]. right. right. exists (g, l). by rewrite elem_of_map_to_list.
Qed.

(** The best message of the topic was taken from its queue. *)
Definition popped (topic : string) (m : PriorityMessage) (e e' : BrokerEngine) : Prop :=
  exists pq pq', topicQueues e !! topic = Some pq /\ PopNonBlocking pq = (Some m, pq') /\ topicQueues e' = <[topic := pq']> (topicQueues e).

Lemma take_message_popped now topic e :
  match take_message now topic e with
  | (Nothing, e') => e' = e
  | (Expired m, e') | (Message m, e') => exists pq pq', topicQueues e !! topic = Some pq /\ PopNonBlocking pq = (Some m, pq') /\
      e' = with_queues (<[topic := pq']> (topicQueues e)) e
  end.
Proof.
  unfold take_message. destruct (negb _); [done|]. destruct (topicQueues e !! topic) as [pq|] eqn:Eq; [|done].
  destruct (PopNonBlocking pq) as [[m|] pq'] eqn:Ep; [|done]. destruct (_ && _); eauto 10.
Qed.

Lemma queues_deliver_groups topic payload gs e e' : deliver_groups topic payload gs e = Some e' -> topicQueues e' = topicQueues e.
Proof.
  revert e. induction gs as [|[g l] gs IH]; intros e H; cbn in H; [congruence|]. apply bind_Some in H as (e1 & H1 & H2).
  rewrite (IH e1 H2). unfold deliver_group in H1. destruct l; [congruence|]. apply bind_Some in H1 as (tg & _ & H1).
  apply bind_Some in H1 as (cs & _ & [= <-]). done.
Qed.

Lemma queues_deliver topic payload t e e' : deliver topic payload t e = Some e' -> topicQueues e' = topicQueues e.
Proof.
  unfold deliver. intros H. apply bind_Some in H as (cs & _ & H). apply bind_Some in H as (cs' & _ & H).
  by rewrite (queues_deliver_groups _ _ _ _ _ H).
Qed.

(** C25: the round of the dispatch loop that takes a message, in its three
    steps: it takes the message in [e]; any operations run; it reads the
    subscriptions in [e2]; any operations run, except that nobody listed there
    unsubscribes; it sends in [e3].  In every engine that can be reached, and
    whatever the order in which the maps are visited, the message taken is
    the best one of the topic's queue and has not expired, the sends do not
    panic, every channel addressed gets the payload exactly once, at the end,
    unless it is full, all other channels are unchanged, and exactly the
    groups with members move on to their next member.  (A subscriber that
    leaves between the last two steps does make the sends panic:
    [unsubscribe_during_dispatch_panics].) *)
Theorem dispatch_fan_out now gorder topic m e e1 e2 e3 :
  let t := snapshot gorder topic (PartitionId m) e2 in
  broker_reachable e -> take_message now topic e = (Message m, e1) ->
  rtc broker_step e1 e2 -> gorder ≡ₚ map_to_list (groupSubs e2) -> rtc (keeps (listed t)) e2 e3 ->
  popped topic m e e1 /\ (Expiry m = zero_time \/ now <= Expiry m) /\
  exists e4, deliver topic (PriorityQueue.Payload m) t e3 = Some e4 /\
    (forall ch, addressed gorder topic (PartitionId m) e2 e3 ch -> chans e4 !! ch = offered (PriorityQueue.Payload m) <$> chans e3 !! ch) /\
    (forall ch, ~ addressed gorder topic (PartitionId m) e2 e3 ch -> chans e4 !! ch = chans e3 !! ch) /\
    (forall g, group_index topic g e4 =
       match groups_of gorder topic !! g with Some (_ :: _) => wrapu64 (group_index topic g e3 + 1) | _ => group_index topic g e3 end).
Proof.
  intros t Hr Htake Hsteps Hp Hkeep.
  assert (Hw : wired e2).
  { apply reachable_wired. eapply reachable_steps; [exact Hsteps|]. eapply reach_step; [exact Hr|].
    pose proof (step_take now topic e) as H. rewrite Htake in H. by apply step_quiet. }
  pose proof (take_message_popped now topic e) as Ht. rewrite Htake in Ht. destruct Ht as (pq & pq' & Hq & Hpop & ->).
  split; [by exists pq, pq'|]. split.
  { revert Htake. unfold take_message. rewrite Hq, Hpop. destruct (negb (hasSubs topic e)); [done|].
    destruct (Z.eqb_spec (Expiry m) zero_time); [by left|]. destruct (Z.ltb_spec (Expiry m) now); [done|]. right. lia. }
  destruct (deliver_spec gorder topic (PartitionId m) (PriorityQueue.Payload m) e2 e3 Hw Hp) as (e4 & Hd & Hc & Hg).
  { intros ch Hch. eapply keeps_all_open; [exact Hkeep|exact Hch|]. by eapply listed_open. }
  exists e4. split; [exact Hd|]. split; [|split; [|exact Hg]].
  - intros ch Ha. rewrite Hc, decide_True; [done|]. by apply recipients_addressed.
  - intros ch Ha. rewrite Hc, decide_False; [done|]. by rewrite recipients_addressed.
Qed.
End Reach.

(** ** A small broker *)

#[local] Instance demo_digest : Digest := { sha256 := fun _ => replicate 32 "000"%char; sha256_length := fun _ => eq_refl }.

(** Modules that echo, or fail on the payload "bad". *)
#[local] Instance demo_host : Host := {
  Module := unit;
  Compile := fun _ => inr tt;
  RunTransform := fun _ p => if bool_decide (p = "bad") then inl "failed" else inr p;
  Unmarshal := fun _ => None;
  Marshal := env_payload;
  Getenv := fun _ => "";
}.

Definition demo_call : Call := mkCall (fun k => Z.of_nat k) Written.
Definition hundred : GoFloat.float64 := GoFloat.float_of_Z 100.

Definition after {A} (o : option (A * BrokerEngine)) (e : BrokerEngine) : BrokerEngine := match o with Some (_, e) => e | None => e end.

Definition demo_start : BrokerEngine :=
  mkBroker ∅ ∅ ∅ ∅ ∅ ∅ (mkMetrics 0 0 0 0) None (NewDeduplicator (5 * GoTime.Minute)) ∅ 0 ∅
    (NewTimeWheel (10 * GoTime.Millisecond) (Z.to_nat 36000)) (NewTokenBucket 0 hundred hundred) ∅ ∅ ∅ ∅ ∅ 0.

Lemma demo_start_reachable : broker_reachable demo_start.
Proof. apply (reach_start demo_call hundred hundred None). reflexivity. Qed.

(** Two plain subscribers and a group of two, and one message. *)
Definition demo_subscribed : BrokerEngine :=
  (SubscribeGroup "orders.#" "workers" (SubscribeGroup "orders.#" "workers" (Subscribe "other" (Subscribe "orders.*" demo_start).2).2).2).2.
Definition demo_broker : BrokerEngine := after (Publish demo_call Background "orders.eu" "hello" demo_subscribed) demo_subscribed.

Lemma demo_reachable : broker_reachable demo_broker.
Proof.
  assert (E : fst <$> Publish demo_call Background "orders.eu" "hello" demo_subscribed = Some (mkPub "hello" None)) by (vm_compute; reflexivity).
  unfold demo_broker. destruct (Publish _ _ _ _ demo_subscribed) as [[r e]|] eqn:H; [|discriminate E]. cbn [after].
  eapply reach_step; [|by eapply step_quiet, step_publish].
  do 4 (eapply reach_step; [|apply step_quiet; constructor]). apply demo_start_reachable.
Qed.

(** The round takes "hello"; a second subscriber of the pattern arrives before
    the subscriptions are read, and the subscriber of another topic leaves
    before the sends. *)
Definition demo_message : PriorityMessage := mkMsg "hello" 0 1 0 (-1) zero_time "".
Definition demo_taken : BrokerEngine := (take_message 0 "orders.eu" demo_broker).2.
Definition demo_read : BrokerEngine := (Subscribe "orders.*" demo_taken).2.
Definition demo_sending : BrokerEngine := Unsubscribe "other" 1 demo_read.

Lemma dispatch_fan_out_witness :
  let gorder := map_to_list (groupSubs demo_read) in
  let t := snapshot gorder "orders.eu" 0 demo_read in
  listed t = [0; 4; 2; 3]%nat /\
  exists e4, deliver "orders.eu" "hello" t demo_sending = Some e4 /\
    (forall ch, addressed gorder "orders.eu" 0 demo_read demo_sending ch -> chans e4 !! ch = offered "hello" <$> chans demo_sending !! ch) /\
    ((fun ch => buffer <$> chans e4 !! ch) <$> [0; 1; 2; 3; 4]%nat) = [Some ["hello"]; Some []; Some ["hello"]; Some []; Some ["hello"]].
Proof.
  intros gorder t. assert (Hl : listed t = [0; 4; 2; 3]%nat) by (vm_compute; reflexivity). split; [exact Hl|].
  destruct (dispatch_fan_out 0 gorder "orders.eu" demo_message demo_broker demo_taken demo_read demo_sending) as (_ & _ & e4 & H & Ha & _).
  - exact demo_reachable.
  - assert (E : (take_message 0 "orders.eu" demo_broker).1 = Message demo_message) by (vm_compute; reflexivity).
    rewrite (surjective_pairing (take_message _ _ _)), E. reflexivity.
  - apply rtc_once, step_quiet, step_subscribe.
  - reflexivity.
  - apply rtc_once. right. exists "other", 1%nat. split; [|reflexivity].
    change (1%nat ∉ listed t). rewrite Hl. intros Hin. by repeat (apply elem_of_cons in Hin as [Hin|Hin]; [discriminate Hin|]); apply not_elem_of_nil in Hin.
  - assert (E : (fun x => (fun ch => buffer <$> chans x !! ch) <$> [0; 1; 2; 3; 4]%nat) <$> deliver "orders.eu" "hello" t demo_sending
      = Some [Some ["hello"]; Some []; Some ["hello"]; Some []; Some ["hello"]]) by (vm_compute; reflexivity).
    exists e4. split; [exact H|]. split; [exact Ha|]. change (PartitionId demo_message) with 0 in H. fold t in H. change (PriorityQueue.Payload demo_message) with "hello" in H.
    rewrite H in E. exact (Some_inj _ _ E).
Defined.

(** A subscriber that leaves between the two steps of a round: the send hits a
    closed channel. *)
Example unsubscribe_during_dispatch_panics :
  let t := snapshot (map_to_list (groupSubs demo_broker)) "orders.eu" 0 demo_broker in
  deliver "orders.eu" "hello" t (Unsubscribe "orders.*" 0 demo_broker) = None.
Proof. vm_compute. reflexivity. Qed.

(** Offsets that a group commits are records of the topic in the log: a
    replay delivers them as messages. *)
Definition with_log : BrokerEngine := with_wal (Some (OpenWAL [])) (Subscribe "t" demo_start).2.

Example commit_replayed_as_message :
  (fun x : (string + Z) * BrokerEngine => buffer <$> chans x.2 !! 0%nat) <$> ReplayMessages "t" 0 "" (CommitGroupOffset demo_call "g" "t" 7 with_log)
  = Some (Some ["{" +:+ dquote +:+ "group" +:+ dquote +:+ ":" +:+ dquote +:+ "g" +:+ dquote +:+ "," +:+ dquote +:+ "offset" +:+ dquote +:+ ":7}"]).
Proof. vm_compute. reflexivity. Qed.

(** Messages in the log at start are sent to nobody: there are no
    subscribers yet, and they are not queued. *)
Lemma recovered_not_queued `{host : Host} `{hash : Digest} c rate capacity log e :
  NewBrokerEngine c rate capacity log = Some e -> topicQueues e = ∅.
Proof.
  unfold NewBrokerEngine. set (e0 := mkBroker _ _ _ _ _ _ _ _ _ _ _ _ _ _ _ _ _ _ _ _).
  assert (H0 : topicQueues (GetWALEntries e0).2 = ∅ /\ topics (GetWALEntries e0).2 = ∅ /\ groupSubs (GetWALEntries e0).2 = ∅ /\ transforms (GetWALEntries e0).2 = ∅).
  { unfold GetWALEntries. destruct (wal e0); [|done]. by destruct (Recover w). }
  destruct (GetWALEntries e0) as [xs e1]. cbn in H0. clear e0. revert e1 H0. induction xs as [|x xs IH]; intros e1 (Hq & Ht & Hg & Htr) H; cbn in H; [congruence|].
  apply bind_Some in H as ([r e2] & H1 & H2). apply (IH e2); [|exact H2]. revert H1. unfold publishLocal. rewrite Htr, lookup_empty, Ht, Hg.
  unfold matching, groups_of. rewrite !map_to_list_empty. cbn. by intros [= _ <-].
Qed.

(** ** Producers *)

Section Producers.
Context `{host : Host} `{hash : Digest}.

(** ** Producer sequence numbers *)

(** The last number seen of every producer only grows. *)
Definition seq_le (e e' : BrokerEngine) : Prop :=
  forall prod n, producerSequences e !! prod = Some n -> exists n', producerSequences e' !! prod = Some n' /\ n <= n'.

Lemma seq_le_eq e e' : producerSequences e' = producerSequences e -> seq_le e e'.
Proof. intros E prod n H. exists n. rewrite E. split; [done|lia]. Qed.

Lemma seq_le_trans e e' e'' : seq_le e e' -> seq_le e' e'' -> seq_le e e''.
Proof. intros H1 H2 prod n H. destruct (H1 prod n H) as (n' & H' & ?). destruct (H2 prod n' H') as (n'' & H'' & ?). exists n''. split; [done|lia]. Qed.

Lemma seqs_wal_append t p ts c e : producerSequences (wal_append t p ts c e) = producerSequences e.
Proof. unfold wal_append. by destruct (wal e). Qed.

Lemma seqs_routeToDLQ c ctx t p r e e' : routeToDLQ c ctx t p r e = Some e' -> producerSequences e' = producerSequences e.
Proof.
  unfold routeToDLQ. destruct (GetDLQ t e); [|congruence]. intros H. apply bind_Some in H as (cs & _ & [= <-]). by rewrite seqs_wal_append.
Qed.

Lemma seqs_deliver_group t p g subs e e' : deliver_group t p g subs e = Some e' -> producerSequences e' = producerSequences e.
Proof.
  unfold deliver_group. destruct subs; [congruence|]. intros H. apply bind_Some in H as (tg & _ & H). by apply bind_Some in H as (cs & _ & [= <-]).
Qed.

Lemma seqs_deliver_groups t p gs e e' : deliver_groups t p gs e = Some e' -> producerSequences e' = producerSequences e.
Proof.
  revert e. induction gs as [|[g subs] gs IH]; intros e H; cbn in H; [congruence|]. apply bind_Some in H as (e1 & H1 & H2).
  rewrite (IH e1 H2). by eapply seqs_deliver_group.
Qed.

Lemma seqs_deliver t p tg e e' : deliver t p tg e = Some e' -> producerSequences e' = producerSequences e.
Proof.
  unfold deliver. intros H. apply bind_Some in H as (cs & _ & H). apply bind_Some in H as (cs' & _ & H). by apply seqs_deliver_groups in H.
Qed.

Lemma seqs_dispatch c gorder t e r e' : dispatch c gorder t e = Some (r, e') -> producerSequences e' = producerSequences e.
Proof.
  unfold dispatch. pose proof (take_message_popped (instant c 0) t e) as Ht. destruct (take_message _ _ _) as [[|m|m] e1]; intros H.
  - congruence.
  - destruct Ht as (pq & pq' & _ & _ & ->). apply bind_Some in H as (e2 & H & [= _ <-]). by rewrite (seqs_routeToDLQ _ _ _ _ _ _ _ H).
  - destruct Ht as (pq & pq' & _ & _ & ->). apply bind_Some in H as (e2 & H & [= _ <-]). by rewrite (seqs_deliver _ _ _ _ _ H).
Qed.

Lemma seqs_transform_and_enqueue c ctx t p k n e r e' :
  transform_and_enqueue c ctx t p k n e = Some (r, e') -> producerSequences e' = producerSequences e.
Proof.
  unfold transform_and_enqueue, transform, enqueue, refused. intros H.
  destruct (transforms e !! t) as [m|]; [destruct (RunTransform m p)|].
  - apply bind_Some in H as (e2 & H & [= <- <-]). by rewrite (seqs_routeToDLQ _ _ _ _ _ _ _ H).
  - injection H as <- <-. by case_match.
  - injection H as <- <-. by case_match.
Qed.

Lemma seq_le_check_sequence ctx e : seq_le e (check_sequence ctx e).2.
Proof.
  unfold check_sequence. case_bool_decide; [by apply seq_le_eq|]. destruct (_ ≫= _) as [s|]; [|by apply seq_le_eq].
  destruct (producerSequences e !! string_value ctx "producer-id") as [last|] eqn:E.
  - destruct (Z.leb_spec s last); [by apply seq_le_eq|]. intros prod n Hn. cbn.
    destruct (decide (prod = string_value ctx "producer-id")) as [->|]; [|rewrite lookup_insert_ne by done; exists n; split; [done|lia]].
    rewrite lookup_insert_eq. exists s. split; [done|]. rewrite E in Hn. injection Hn as <-. lia.
  - intros prod n Hn. cbn. destruct (decide (prod = string_value ctx "producer-id")) as [->|]; [congruence|].
    rewrite lookup_insert_ne by done. exists n. split; [done|lia].
Qed.

Lemma seqs_getOrCreateQueue t e : producerSequences (getOrCreateQueue t e).2 = producerSequences e.
Proof. unfold getOrCreateQueue. by destruct (topicQueues e !! t). Qed.

Lemma seq_le_Publish c ctx t p e r e' : Publish c ctx t p e = Some (r, e') -> seq_le e e'.
Proof.
  unfold Publish. destruct (BrokerGuards.Allow _ _) as [ok tb]. unfold refused. intros H.
  destruct ok; cbn [negb] in H; [|injection H as _ <-; by apply seq_le_eq].
  pose proof (seqs_getOrCreateQueue t (with_limiter tb e)) as Hq. destruct (getOrCreateQueue t (with_limiter tb e)) as [pq e1]. cbn in Hq.
  assert (H1 : seq_le e e1) by by apply seq_le_eq.
  destruct (_ <=? _); [by simplify_eq|]. destruct (schema_error _ _ _); [by simplify_eq|].
  pose proof (seq_le_check_sequence ctx e1) as H3. destruct (check_sequence ctx e1) as [[] e2]; cbn in H3;
    apply (seq_le_trans _ _ _ H1) in H3; [by simplify_eq|].
  assert (H4 : producerSequences (check_duplicate (instant c 1) ctx e2).2 = producerSequences e2).
  { unfold check_duplicate. by repeat case_match. }
  destruct (check_duplicate _ ctx e2) as [[] e3]; cbn in H4; apply seq_le_eq in H4; apply (seq_le_trans _ _ _ H3) in H4; [by simplify_eq|].
  destruct (delay_of ctx).
  - apply bind_Some in H as (e4 & H & [= <- <-]). unfold schedule in H. apply bind_Some in H as (tw & _ & [= <-]).
    eapply seq_le_trans; [exact H4|]. apply seq_le_eq. cbn. by rewrite seqs_wal_append.
  - eapply seq_le_trans; [exact H4|]. apply seq_le_eq. rewrite (seqs_transform_and_enqueue _ _ _ _ _ _ _ _ _ H). by rewrite seqs_wal_append.
Qed.

Lemma seqs_publishLocal c gorder ctx t p e r e' : publishLocal c gorder ctx t p e = Some (r, e') -> producerSequences e' = producerSequences e.
Proof.
  unfold publishLocal, refused. intros H. destruct (match transforms e !! t with None => _ | Some _ => _ end).
  - apply bind_Some in H as (e2 & H & [= <- <-]). by eapply seqs_routeToDLQ.
  - apply bind_Some in H as (cs & H1 & H). apply bind_Some in H as (e2 & H & [= <- <-]). by apply seqs_deliver_groups in H.
Qed.

Lemma seqs_replay t g subs gSubs xs n e r e' : replay t g subs gSubs xs n e = Some (r, e') -> producerSequences e' = producerSequences e.
Proof.
  revert n e. induction xs as [|x xs IH]; intros n e H; cbn in H; [congruence|]. apply bind_Some in H as ([b e1] & H1 & H2).
  rewrite (IH _ _ H2). clear H2 IH. revert H1. unfold replay_one. destruct (negb _).
  - destruct gSubs; [congruence|]. intros H. apply bind_Some in H as (tg & _ & H). apply bind_Some in H as (e2 & H & [= _ <-]). by eapply seqs_deliver_group.
  - intros H. by apply bind_Some in H as (cs & H & [= _ <-]).
Qed.

Lemma seqs_GetWALEntries e : producerSequences (GetWALEntries e).2 = producerSequences e.
Proof. unfold GetWALEntries. by repeat case_match. Qed.

Lemma seqs_take_message now t e : producerSequences (take_message now t e).2 = producerSequences e.
Proof.
  pose proof (take_message_popped now t e) as Ht. destruct (take_message now t e) as [[|m|m] e1]; [by subst| |];
    by destruct Ht as (pq & pq' & _ & _ & ->).
Qed.

Lemma seq_le_quiet e e' : quiet_step e e' -> seq_le e e'.
Proof.
  intros Hs. destruct Hs; try by apply seq_le_eq.
  - apply seq_le_eq. unfold RegisterTransform. by repeat case_match.
  - by eapply seq_le_Publish.
  - apply seq_le_eq. unfold PublishPartition, getOrCreateQueue, refused in H. repeat case_match; simplify_eq; try done;
      rewrite (seqs_transform_and_enqueue _ _ _ _ _ _ _ _ _ H), seqs_wal_append; done.
  - apply seq_le_eq. by eapply seqs_dispatch.
  - apply seq_le_eq, seqs_take_message.
  - apply seq_le_eq. by eapply seqs_deliver.
  - apply seq_le_eq. unfold ScheduleDelayed in H. by apply bind_Some in H as (tw & _ & [= <-]).
  - apply seq_le_eq. unfold tick_wheel in H. by apply bind_Some in H as ([js' tw] & _ & [= _ <-]).
  - destruct j as [id t p|t p]; cbn in H; apply bind_Some in H as ([r e1] & H & [= <-]); [|by eapply seq_le_Publish].
    apply seq_le_eq. by rewrite (seqs_publishLocal _ _ _ _ _ _ _ _ H).
  - apply seq_le_eq. unfold ReplayMessages in H. destruct (wal e); [|congruence].
    pose proof (seqs_GetWALEntries e) as H1. destruct (GetWALEntries e) as [entries e1]. cbn in H1. destruct (_ || _); [congruence|].
    apply bind_Some in H as ([n e2] & H & [= _ <-]). by rewrite (seqs_replay _ _ _ _ _ _ _ _ _ H).
  - apply seq_le_eq. unfold CommitGroupOffset. by rewrite seqs_wal_append.
  - apply seq_le_eq, seqs_GetWALEntries.
  - apply seq_le_eq. unfold receive in H. apply bind_Some in H as (cc & _ & H). by destruct (buffer cc); simplify_eq.
Qed.

Lemma seq_le_step e e' : broker_step e e' -> seq_le e e'.
Proof.
  intros [? ? H|t ch x]; [by apply seq_le_quiet|]. apply seq_le_eq. unfold Unsubscribe. by repeat case_match.
Qed.

(** The content of the queue of a topic. *)
Definition queued (e : BrokerEngine) (t : string) : PriorityQueue := default NewPriorityQueue (topicQueues e !! t).

(** C26: producers are idempotent.  Once a sequence number of a producer has
    been taken, no later publish with the same or a smaller number, whatever
    happens in between, is queued, logged, delayed or delivered. *)
Theorem duplicate_never_enqueued e e' prod last n c ctx topic payload r e'' :
  rtc broker_step e e' -> producerSequences e !! prod = Some last -> n <= last ->
  prod <> "" -> string_value ctx "producer-id" = prod -> values ctx !! "sequence-number" ≫= sequence_number = Some n ->
  Publish c ctx topic payload e' = Some (r, e'') ->
  wal e'' = wal e' /\ delayedMsgs e'' = delayedMsgs e' /\ timeWheel e'' = timeWheel e' /\ chans e'' = chans e' /\
  forall t, queued e'' t = queued e' t.
Proof.
  intros Hsteps Hlast Hn Hne Hprod Hseq H.
  assert (Hle : seq_le e e').
  { clear -Hsteps. induction Hsteps as [e|e e1 e2 Hs _ IH]; [by apply seq_le_eq|]. eapply seq_le_trans; [by apply seq_le_step|exact IH]. }
  destruct (Hle prod last Hlast) as (last' & Hlast' & Hll). revert H. unfold Publish, refused.
  destruct (BrokerGuards.Allow _ _) as [ok tb]. destruct ok; cbn [negb]; [|by intros [= _ <-]].
  assert (Hq : forall t, queued (getOrCreateQueue topic (with_limiter tb e')).2 t = queued e' t).
  { intros t. unfold getOrCreateQueue, queued. cbn. destruct (topicQueues e' !! topic) as [pq|] eqn:E; cbn; [done|].
    destruct (decide (t = topic)) as [->|]; [by rewrite lookup_insert_eq, E|by rewrite lookup_insert_ne]. }
  assert (Hrest : wal (getOrCreateQueue topic (with_limiter tb e')).2 = wal e' /\ delayedMsgs (getOrCreateQueue topic (with_limiter tb e')).2 = delayedMsgs e' /\
    timeWheel (getOrCreateQueue topic (with_limiter tb e')).2 = timeWheel e' /\ chans (getOrCreateQueue topic (with_limiter tb e')).2 = chans e' /\
    producerSequences (getOrCreateQueue topic (with_limiter tb e')).2 = producerSequences e').
  { unfold getOrCreateQueue. cbn. by destruct (topicQueues e' !! topic). }
  destruct (getOrCreateQueue topic (with_limiter tb e')) as [pq e1]. cbn in Hq, Hrest. destruct Hrest as (Hw & Hd & Ht & Hc & Hps).
  destruct (_ <=? _); [by intros [= _ <-]|]. destruct (schema_error _ _ _); [by intros [= _ <-]|].
  unfold check_sequence. rewrite Hprod, bool_decide_false, Hseq, Hps, Hlast' by done.
  destruct (Z.leb_spec n last'); [|lia]. by intros [= _ <-].
Qed.
End Producers.

#[local] Existing Instance demo_digest.
#[local] Existing Instance demo_host.

Definition from_producer (n : Z) : Context := mkCtx {["producer-id" := CString "p"; "sequence-number" := CInt64 n]}.
Definition once : BrokerEngine := after (Publish demo_call (from_producer 4) "t" "first" demo_start) demo_start.

Lemma duplicate_never_enqueued_witness :
  queued (after (Publish demo_call (from_producer 3) "t" "again" once) once) "t" = queued once "t" /\ length (h (queued once "t")) = 1%nat.
Proof.
  split; [|vm_compute; reflexivity].
  destruct (Publish demo_call (from_producer 3) "t" "again" once) as [[r e]|] eqn:E; [|reflexivity]. cbn [after].
  apply (duplicate_never_enqueued once once "p" 4 3 demo_call (from_producer 3) "t" "again" r e);
    [apply rtc_refl|vm_compute; reflexivity|lia|discriminate|reflexivity|reflexivity|exact E].
Defined.

(** The number of a message whose transform fails is taken all the same: the
    retry is answered with success, and the message is nowhere. *)
Definition failing : BrokerEngine := (RegisterTransform "t" ["a"%char] demo_start).2.

Example retry_after_failure_lost :
  match Publish demo_call (from_producer 4) "t" "bad" failing with
  | Some (r, e) =>
      err r = Some "failed" /\
      match Publish demo_call (from_producer 4) "t" "good" e with
      | Some (r', e') => err r' = None /\ h (queued e' "t") = []
      | None => False
      end
  | None => False
  end.
Proof. vm_compute. split; [reflexivity|split; reflexivity]. Qed.
