(* ===== verification/BrokerOrder.v ===== *)
(** * The broker as an ordered queue

    A topic seen by one of its subscribers: any interleaving of publishes and
    dispatch rounds behaves like a list kept in order of priority. *)

From Stdlib Require Import Sorted.
From S2P Require Import Prelude GoStrings TimeWheel PriorityQueue Wal HashRing GoSort BrokerGuards Broker BrokerFacts BrokerProps.
Local Open Scope Z_scope.

(** ** The reference *)

(** Waiting messages with their priority, best first; a new one goes behind
    those of its priority. *)
Fixpoint insert_message (m : Z * string) (q : list (Z * string)) : list (Z * string) :=
  match q with
  | [] => [m]
  | x :: q => if x.1 <? m.1 then m :: x :: q else x :: insert_message m q
  end.

(** What happens to a topic. *)
Inductive act :=
| APublish (c : Call) (ctx : Context) (payload : string)
| ARound (c : Call) (gorder : list (string * gmap string (list nat))).

(** The payloads delivered, in order, and the messages left, given which
    publishes were accepted. *)
Fixpoint reference (acts : list act) (accepted : list bool) (q : list (Z * string)) : list string * list (Z * string) :=
  match acts, accepted with
  | APublish _ ctx payload :: acts, a :: accepted =>
      reference acts accepted (if a then insert_message (priority_of ctx, payload) q else q)
  | ARound _ _ :: acts, _ :: accepted =>
      match q with
      | [] => reference acts accepted []
      | m :: q => let '(out, q) := reference acts accepted q in (m.2 :: out, q)
      end
  | _, _ => ([], q)
  end.

Definition is_round (a : act) : bool := match a with ARound _ _ => true | APublish _ _ _ => false end.

Section Order.
Context `{host : Host} `{hash : Digest} (topic : string).

(** The same acts on the engine; a publish is accepted when it returns no
    error. *)
Fixpoint run (acts : list act) (e : BrokerEngine) : option (list bool * BrokerEngine) :=
  match acts with
  | [] => Some ([], e)
  | APublish c ctx payload :: acts =>
      '(r, e) ← Publish c ctx topic payload e;
      '(as_, e) ← run acts e;
      Some (bool_decide (err r = None) :: as_, e)
  | ARound c gorder :: acts =>
      '(r, e) ← dispatch c gorder topic e;
      '(as_, e) ← run acts e;
      Some (true :: as_, e)
  end.

(** A publish without producer, delay or time to live; a round that visits
    the groups of the engine. *)
Definition plain (e : BrokerEngine) (a : act) : Prop :=
  match a with
  | APublish _ ctx _ => string_value ctx "producer-id" = "" /\ delay_of ctx = None /\ values ctx !! "ttl-ms" = None /\ values ctx !! "ttl" = None
  | ARound _ gorder => gorder ≡ₚ map_to_list (groupSubs e)
  end.

(** ** The engine holds the reference *)

Definition entry (m : PriorityMessage) : Z * string := (Priority m, PriorityQueue.Payload m).

Record holds (q : list (Z * string)) (n : Z) (e : BrokerEngine) : Prop := {
  holds_wired : wired e;
  holds_raw : transforms e !! topic = None;
  holds_log : IsCompacted topic e = false;
  holds_queue : exists ms, represents (default NewPriorityQueue (topicQueues e !! topic)) ms n /\
    q = entry <$> ms /\ Forall (fun m => Expiry m = zero_time) ms }.

Lemma insert_entry m ms : entry <$> spec_insert m ms = insert_message (entry m) (entry <$> ms).
Proof. induction ms as [|x ms IH]; cbn; [done|]. destruct (_ <? _); cbn; [done|by rewrite IH]. Qed.

(** Operations that leave the queue and the settings of the topic alone. *)
Definition same_topic (e e' : BrokerEngine) : Prop :=
  same_wiring e e' /\ transforms e' = transforms e /\ compactedTopics e' = compactedTopics e /\ chans e' = chans e /\
  default NewPriorityQueue (topicQueues e' !! topic) = default NewPriorityQueue (topicQueues e !! topic).

Lemma same_topic_refl e : same_topic e e.
Proof. split; [apply same_wiring_refl|done]. Qed.

Lemma same_topic_trans e e' e'' : same_topic e e' -> same_topic e' e'' -> same_topic e e''.
Proof.
  intros (H1 & H2 & H3 & H4 & H5) (K1 & K2 & K3 & K4 & K5). split; [by eapply same_wiring_trans|]. split_and!; congruence.
Qed.

Lemma holds_same q n e e' : holds q n e -> same_topic e e' -> holds q n e'.
Proof.
  intros [Hw Hr Hl Hq] (H1 & H2 & H3 & _ & H5). split; [by eapply wired_same|by rewrite H2|unfold IsCompacted in *; by rewrite H3|by rewrite H5].
Qed.

(** ** Publishing *)

Lemma same_topic_queue e : same_topic e (getOrCreateQueue topic e).2.
Proof.
  split; [apply same_getOrCreateQueue|]. unfold getOrCreateQueue. destruct (topicQueues e !! topic) eqn:E; cbn; [by rewrite E|].
  by rewrite lookup_insert_eq.
Qed.

Lemma same_topic_duplicate now ctx e : same_topic e (check_duplicate now ctx e).2.
Proof. split; [apply same_check_duplicate|]. unfold check_duplicate. by repeat case_match. Qed.

Lemma same_topic_accepted p ts c e : same_topic e (wal_append topic p ts c (count_published e)).
Proof. split; [apply same_publish_accepted|]. unfold wal_append. cbn. by destruct (wal e). Qed.

Lemma queue_there e : exists pq, topicQueues (getOrCreateQueue topic e).2 !! topic = Some pq.
Proof. unfold getOrCreateQueue. destruct (topicQueues e !! topic) eqn:E; cbn; [by eauto|]. exists NewPriorityQueue. by rewrite lookup_insert_eq. Qed.

Lemma enqueue_holds c ctx payload key q n e pq :
  holds q n e -> topicQueues e !! topic = Some pq -> values ctx !! "ttl-ms" = None -> values ctx !! "ttl" = None -> n + 1 < 2 ^ 64 ->
  exists e', transform_and_enqueue c ctx topic payload key 0 e = Some (mkPub payload None, e') /\ chans e' = chans e /\ same_wiring e e' /\
    holds (insert_message (priority_of ctx, payload) q) (n + 1) e'.
Proof.
  intros Hh Hpq Ht1 Ht2 Hn. pose proof Hh as [Hw Hr Hl (ms & Hms & -> & Hx)]. rewrite Hpq in Hms. cbn in Hms.
  unfold transform_and_enqueue, transform. rewrite Hr. unfold getExpiryFromContext. rewrite Ht1, Ht2. cbn [Z.ltb Z.compare].
  eexists. split; [done|].
  assert (Hs : same_wiring e (enqueue topic payload key (priority_of ctx) 0 zero_time e)).
  { unfold enqueue, set_queue. by destruct (_ && _). }
  unfold enqueue in *. rewrite Hl in *. cbn [andb] in *. split; [done|]. split; [done|].
  split; [by eapply wired_same|done|done|]. cbn. rewrite lookup_alter_eq, Hpq. cbn.
  exists (spec_insert (mkMsg payload (priority_of ctx) (n + 1) 0 (-1) zero_time "") ms).
  split; [by apply represents_push|]. split; [by rewrite insert_entry|]. rewrite spec_insert_perm. by constructor.
Qed.

Lemma publish_holds c ctx payload q n e :
  holds q n e -> plain e (APublish c ctx payload) -> n + 1 < 2 ^ 64 ->
  exists r e' n', Publish c ctx topic payload e = Some (r, e') /\ chans e' = chans e /\ same_wiring e e' /\ n' <= n + 1 /\
    holds (if bool_decide (err r = None) then insert_message (priority_of ctx, payload) q else q) n' e'.
Proof.
  intros Hh (Hp & Hd & Ht1 & Ht2) Hn. unfold Publish. destruct (BrokerGuards.Allow _ _) as [ok tb].
  assert (Hrefuse : forall e' o msg, same_topic e e' -> exists r e'' n', refused e' o msg = Some (r, e'') /\ chans e'' = chans e /\ same_wiring e e'' /\
    n' <= n + 1 /\ holds (if bool_decide (err r = None) then insert_message (priority_of ctx, payload) q else q) n' e'').
  { intros e' o msg Hs. exists (mkPub o (Some msg)), e', n. split; [done|]. pose proof Hs as (H1 & _ & _ & H4 & _).
    split; [done|]. split; [done|]. split; [lia|]. cbn. by eapply holds_same. }
  assert (H0 : same_topic e (with_limiter tb e)) by (split; [by split_and!|done]).
  destruct ok; cbn [negb]; [|by apply Hrefuse].
  pose proof (same_topic_trans _ _ _ H0 (same_topic_queue _)) as H1. destruct (queue_there (with_limiter tb e)) as (pq' & Hpq).
  destruct (getOrCreateQueue topic (with_limiter tb e)) as [pq e1]. cbn in H1, Hpq.
  destruct (_ <=? _); [by apply Hrefuse|]. destruct (schema_error _ _ _); [by apply Hrefuse|].
  unfold check_sequence. rewrite Hp. rewrite bool_decide_true by done.
  pose proof (same_topic_trans _ _ _ H1 (same_topic_duplicate (instant c 1) ctx e1)) as H2.
  assert (Hpq2 : topicQueues (check_duplicate (instant c 1) ctx e1).2 !! topic = Some pq') by (unfold check_duplicate; by repeat case_match).
  destruct (check_duplicate _ ctx e1) as [[] e2]; cbn in H2, Hpq2; [by apply Hrefuse|]. rewrite Hd.
  pose proof (same_topic_trans _ _ _ H2 (same_topic_accepted payload (instant c 2) c e2)) as H3.
  destruct (enqueue_holds c ctx payload (string_value ctx "message-key") q n (wal_append topic payload (instant c 2) c (count_published e2)) pq')
    as (e' & -> & Hc & Hs & Hh'); [by eapply holds_same|unfold wal_append; cbn; by destruct (wal e2)|done..|].
  exists (mkPub payload None), e', (n + 1). destruct H3 as (Hs3 & _ & _ & Hc3 & _).
  split; [done|]. split; [by rewrite Hc|]. split; [by eapply same_wiring_trans|]. split; [lia|done].
Qed.

(** ** A round *)

Lemma has_subscriber pattern ch e : matchTopic pattern topic = true -> ch ∈ members e (Plain pattern) -> hasSubs topic e = true.
Proof.
  intros Hm Hch. unfold hasSubs. cbn in Hch. destruct (topics e !! pattern) as [l|] eqn:E; [|by apply not_elem_of_nil in Hch].
  apply orb_true_intro. left. apply orb_true_intro. left. apply existsb_exists. exists l. split.
  - apply list_elem_of_In, elem_of_matching. eauto.
  - destruct l; [by apply not_elem_of_nil in Hch|done].
Qed.

Lemma settings_deliver payload t e e' :
  deliver topic payload t e = Some e' -> transforms e' = transforms e /\ compactedTopics e' = compactedTopics e.
Proof.
  unfold deliver. intros H. apply bind_Some in H as (cs & _ & H). apply bind_Some in H as (cs' & _ & H).
  assert (Hg : forall gs x x', deliver_groups topic payload gs x = Some x' -> transforms x' = transforms x /\ compactedTopics x' = compactedTopics x).
  { induction gs as [|[g l] gs IH]; intros x x' Hx; cbn in Hx; [by simplify_eq|]. apply bind_Some in Hx as (x1 & H1 & H2).
    apply IH in H2 as [-> ->]. unfold deliver_group in H1. destruct l; [by simplify_eq|].
    apply bind_Some in H1 as (tg & _ & H1). by apply bind_Some in H1 as (cs1 & _ & [= <-]). }
  by apply Hg in H.
Qed.

Lemma round_holds c gorder pattern ch q n e :
  holds q n e -> gorder ≡ₚ map_to_list (groupSubs e) -> matchTopic pattern topic = true -> ch ∈ members e (Plain pattern) ->
  exists r e', dispatch c gorder topic e = Some (r, e') /\ same_wiring e e' /\
    match q with
    | [] => holds [] n e' /\ chans e' = chans e
    | m :: q => holds q n e' /\ chans e' !! ch = offered m.2 <$> chans e !! ch
    end.
Proof.
  intros Hh Hg Hm Hch. pose proof Hh as [Hw Hr Hl (ms & Hms & -> & Hx)]. unfold dispatch, take_message.
  rewrite (has_subscriber pattern ch) by done. cbn [negb]. destruct (topicQueues e !! topic) as [pq|] eqn:Eq; cbn in Hms.
  2:{ destruct ms as [|m ms]; [|by apply represents_pop in Hms as (? & ? & _)].
      eexists _, _. split; [done|]. split; [apply same_wiring_refl|done]. }
  apply represents_pop in Hms as Hpop. destruct ms as [|m ms]; [rewrite Hpop; eexists _, _; split; [done|]; split; [apply same_wiring_refl|done]|].
  destruct Hpop as (pq' & -> & Hrep). apply Forall_cons in Hx as [Hxm Hx]. rewrite Hxm, Z.eqb_refl. cbn [negb andb].
  set (e1 := with_queues _ _). assert (Hs1 : same_wiring e e1) by by split_and!.
  assert (Hw1 : wired e1) by by eapply wired_same.
  destruct (deliver_spec gorder topic (PartitionId m) (PriorityQueue.Payload m) e1 e1) as (e' & Hd & Hc & _);
    [done|done|intros k; by apply listed_open|].
  rewrite Hd. cbn. eexists _, e'. split; [done|]. assert (Hs : same_wiring e e') by (eapply same_wiring_trans; [exact Hs1|by eapply same_deliver]).
  split; [done|]. split.
  - destruct (settings_deliver _ _ _ _ Hd) as [E1 E2]. split; [by eapply wired_same|by rewrite E1|unfold IsCompacted in *; by rewrite E2|].
    rewrite (queues_deliver _ _ _ _ _ Hd). cbn. rewrite lookup_insert_eq. by exists ms.
  - rewrite Hc, decide_True; [done|]. apply recipients_addressed. left. exists pattern. split; [done|by left].
Qed.

(** ** Any interleaving *)

Definition rounds (acts : list act) : nat := length (List.filter is_round acts).

Lemma plain_same e e' acts : same_wiring e e' -> Forall (plain e) acts -> Forall (plain e') acts.
Proof. intros (_ & _ & H & _) Hp. eapply Forall_impl; [exact Hp|]. intros [c ctx p|c g]; cbn; [done|]. by rewrite H. Qed.

Lemma run_holds pattern ch acts q n e b :
  holds q n e -> Forall (plain e) acts -> n + Z.of_nat (length acts) < 2 ^ 64 ->
  matchTopic pattern topic = true -> ch ∈ members e (Plain pattern) ->
  chans e !! ch = Some (mkChan b false) -> (length b + rounds acts <= chan_capacity)%nat ->
  exists accepted e', run acts e = Some (accepted, e') /\
    chans e' !! ch = Some (mkChan (b ++ (reference acts accepted q).1) false).
Proof.
  revert q n e b. induction acts as [|a acts IH]; intros q n e b Hh Hpl Hn Hm Hch Hb Hroom.
  { exists [], e. cbn. by rewrite app_nil_r. }
  apply Forall_cons in Hpl as [Ha Hpl]. cbn [length] in Hn. destruct a as [c ctx payload|c gorder].
  - destruct (publish_holds c ctx payload q n e Hh Ha) as (r & e1 & n1 & HP & Hc & Hs & Hn1 & Hh1); [lia|].
    destruct (IH _ _ e1 b Hh1) as (acc & e' & Hrun & Hbuf); [by eapply plain_same|lia|done| |by rewrite Hc|done|].
    { rewrite (same_members _ _ _ Hs). done. }
    cbn. rewrite HP. cbn. rewrite Hrun. cbn. eexists _, e'. split; [done|]. exact Hbuf.
  - destruct (round_holds c gorder pattern ch q n e Hh Ha Hm Hch) as (r & e1 & HD & Hs & Hq).
    cbn. rewrite HD. cbn. unfold rounds in Hroom. cbn in Hroom.
    assert (Hch1 : ch ∈ members e1 (Plain pattern)) by (by rewrite (same_members _ _ _ Hs)).
    destruct q as [|m q]; destruct Hq as [Hh1 Hc].
    + destruct (IH _ _ e1 b Hh1) as (acc & e' & Hrun & Hbuf); [by eapply plain_same|lia|done|done|by rewrite Hc|unfold rounds; lia|].
      rewrite Hrun. cbn. eexists _, e'. split; [done|]. exact Hbuf.
    + rewrite Hb in Hc. cbn in Hc. unfold offered in Hc. cbn [buffer] in Hc. destruct (Nat.ltb_spec (length b) chan_capacity); [|lia]. cbn in Hc.
      destruct (IH _ _ e1 (b ++ [m.2]) Hh1) as (acc & e' & Hrun & Hbuf); [by eapply plain_same|lia|done|done|done|rewrite length_app; unfold rounds; cbn; lia|].
      rewrite Hrun. cbn. exists (true :: acc), e'. split; [done|]. cbn [reference]. revert Hbuf. destruct (reference acts acc q) as [out q0]. intros Hbuf.
      by rewrite <- app_assoc in Hbuf.
Qed.

(** C24: a topic is an ordered queue for its subscribers.  Take any reachable
    engine, a topic without transform or compaction to which nothing has been
    published, and a subscriber to a matching pattern.  Any interleaving of
    plain publishes to the topic (no producer number, delay or time to live)
    and of whole dispatch rounds, fewer than 2^64 of them, runs to its end,
    and the subscriber has then received, in order, exactly the payloads that
    a list kept in order of priority, first come first served among equals,
    gives out for the publishes that were accepted, as long as its buffer has
    room. *)
Theorem topic_refines_ordered_queue pattern ch acts e b :
  broker_reachable e -> topicQueues e !! topic = None -> transforms e !! topic = None -> IsCompacted topic e = false ->
  matchTopic pattern topic = true -> ch ∈ members e (Plain pattern) ->
  chans e !! ch = Some (mkChan b false) -> (length b + rounds acts <= chan_capacity)%nat ->
  Forall (plain e) acts -> Z.of_nat (length acts) < 2 ^ 64 ->
  exists accepted e', run acts e = Some (accepted, e') /\
    chans e' !! ch = Some (mkChan (b ++ (reference acts accepted []).1) false).
Proof.
  intros Hr Hq Ht Hl Hm Hch Hb Hroom Hpl Hn. apply (run_holds pattern ch acts [] 0 e b); try done.
  split; [by apply reachable_wired|done|done|]. rewrite Hq. exists []. split; [apply represents_new|done].
Qed.
End Order.

(** When everything is published before anything is delivered, the payloads
    come out by priority, and in the order of publication within each. *)
Definition by_priority (ms : list (Z * string)) : list (Z * string) := fold_left (fun q m => insert_message m q) ms [].

Definition with_priority (p : Z) (q : list (Z * string)) : list (Z * string) := filter (fun x : Z * string => x.1 = p) q.
Definition no_lower (a b : Z * string) : Prop := b.1 <= a.1.

Lemma insert_message_filter (p : Z) m q :
  StronglySorted no_lower q ->
  with_priority p (insert_message m q) = with_priority p (q ++ [m]) /\
  StronglySorted no_lower (insert_message m q) /\ (forall x, x ∈ insert_message m q <-> x = m \/ x ∈ q).
Proof.
  unfold with_priority, no_lower. induction 1 as [|x q Hs IH Hx]; cbn [insert_message].
  { split; [done|]. split; [repeat constructor|]. intros x. set_solver. }
  destruct IH as (IH1 & IH2 & IH3). destruct (Z.ltb_spec x.1 m.1) as [Hlt|Hge].
  - split; [|split; [|set_solver]].
    + destruct (decide (m.1 = p)) as [Hp|Hp].
      * rewrite filter_cons_True by done. rewrite filter_app, (filter_cons_True _ m []) by done.
        rewrite (list_filter_none (fun x : Z * string => x.1 = p) (x :: q)); [done|]. constructor; [lia|].
        eapply Forall_impl; [exact Hx|]. cbn. lia.
      * rewrite filter_cons_False by done. by rewrite filter_app, (filter_cons_False _ m []), app_nil_r.
    + constructor; [by constructor|]. constructor; [lia|]. eapply Forall_impl; [exact Hx|]. cbn. lia.
  - cbn [app]. rewrite !filter_cons, IH1. split; [done|]. split; [|set_solver]. constructor; [done|].
    apply Forall_forall. intros y [->|Hy]%IH3; [lia|]. rewrite Forall_forall in Hx. by apply Hx.
Qed.

Lemma by_priority_spec ms :
  StronglySorted no_lower (by_priority ms) /\
  forall p, with_priority p (by_priority ms) = with_priority p ms.
Proof.
  unfold by_priority. induction ms as [|m ms [IH1 IH2]] using rev_ind; cbn; [split; [constructor|done]|].
  rewrite fold_left_app. cbn [fold_left]. split; [by apply (insert_message_filter 0)|]. intros p.
  destruct (insert_message_filter p m _ IH1) as [-> _]. unfold with_priority in *. by rewrite !filter_app, IH2.
Qed.

Definition message_of (a : act) : option (Z * string) :=
  match a with APublish _ ctx payload => Some (priority_of ctx, payload) | ARound _ _ => None end.

Lemma reference_drain pubs c g k :
  Forall (fun a => is_round a = false) pubs ->
  (reference (pubs ++ replicate k (ARound c g)) (replicate (length pubs + k) true) []).1 = (take k (by_priority (omap message_of pubs))).*2.
Proof.
  unfold by_priority. generalize (@nil (Z * string)) as q. induction pubs as [|[c' ctx p|c' g'] pubs IH]; intros q H; cbn.
  - clear H. revert q. induction k as [|k IH]; intros [|m q]; cbn; [done|done| |].
    + rewrite (IH []). by rewrite take_nil.
    + specialize (IH q). by destruct (reference _ _ q) as [out q'] eqn:E; cbn in *; rewrite IH.
  - apply Forall_cons in H as [_ H]. apply (IH _ H).
  - apply Forall_cons in H as [H _]. done.
Qed.

(** ** A small run *)

#[local] Existing Instance demo_digest.
#[local] Existing Instance demo_host.

Definition priority (p : Z) : Context := mkCtx {["priority" := CInt p]}.
Definition orders : BrokerEngine := (Subscribe "orders.*" demo_start).2.
Definition demo_acts : list act :=
  [APublish demo_call (priority 1) "a"; APublish demo_call (priority 5) "b"; ARound demo_call [];
   APublish demo_call (priority 1) "c"; APublish demo_call (priority 7) "d"; ARound demo_call []; ARound demo_call []; ARound demo_call []; ARound demo_call []].

Lemma topic_refines_ordered_queue_witness :
  exists accepted e', run "orders.eu" demo_acts orders = Some (accepted, e') /\
    chans e' !! 0%nat = Some (mkChan ((reference demo_acts accepted []).1) false) /\ (reference demo_acts accepted []).1 = ["b"; "d"; "a"; "c"].
Proof.
  destruct (topic_refines_ordered_queue "orders.eu" "orders.*" 0 demo_acts orders []) as (accepted & e' & H & Hc).
  - eapply reach_step; [apply demo_start_reachable|apply step_quiet, step_subscribe].
  - vm_compute; reflexivity.
  - vm_compute; reflexivity.
  - vm_compute; reflexivity.
  - vm_compute; reflexivity.
  - vm_compute. left.
  - vm_compute; reflexivity.
  - vm_compute. lia.
  - repeat constructor.
  - vm_compute; reflexivity.
  - exists accepted, e'. split; [exact H|]. split; [exact Hc|].
    assert (E : fst <$> run "orders.eu" demo_acts orders = Some (replicate 9 true)) by (vm_compute; reflexivity).
    rewrite H in E. injection E as ->. reflexivity.
Defined.
