(* ===== verification/GoFs.v ===== *)
(** * Files: what the source uses of [os] and [path/filepath]

    A path is the list of components of a cleaned absolute path.  The disk is
    a map from paths to directories and files; operations fail as the
    operating system makes them fail, and not otherwise. *)

From S2P Require Import Prelude GoStrings GoSort.
Local Open Scope string_scope.
Local Open Scope list_scope.

Abbreviation path := (list string).

(** [filepath.Clean], component by component: empty components and single
    dots go, two dots remove the component before. *)
Definition clean_step (p : path) (c : string) : path :=
  if bool_decide (c = "" \/ c = ".") then p
  else if bool_decide (c = "..") then removelast p
  else p ++ [c].

Definition Join_path (base : path) (elems : list string) : path :=
  fold_left (fun p e => fold_left clean_step (Split e "/") p) elems base.

Definition Dir (p : path) : path := removelast p.

(** ** The disk *)

Inductive node := IsDir | IsFile (data : bytes).

Abbreviation disk := (gmap path node).

(** The proper and improper prefixes of a path, shortest first. *)
Definition ancestors (p : path) : list path := (fun n => take n p) <$> seq 0 (S (length p)).

Definition is_file (fs : disk) (p : path) : bool := match fs !! p with Some (IsFile _) => true | _ => false end.
Definition is_dir (fs : disk) (p : path) : bool := match fs !! p with Some IsDir => true | _ => false end.

#[global] Arguments ancestors : simpl never.

(** [os.MkdirAll]: fails where a component is a file. *)
Definition MkdirAll (p : path) (fs : disk) : option disk :=
  if existsb (is_file fs) (ancestors p) then None
  else Some (fold_left (fun fs q => <[q := IsDir]> fs) (ancestors p) fs).

(** [os.WriteFile], and a rename of a new file to [p]: the directory must be
    there, and [p] must not be a directory. *)
Definition WriteFile (p : path) (data : bytes) (fs : disk) : option disk :=
  if is_dir fs (Dir p) && negb (is_dir fs p) then Some (<[p := IsFile data]> fs) else None.

Definition ReadFile (p : path) (fs : disk) : option bytes :=
  match fs !! p with Some (IsFile data) => Some data | _ => None end.

Definition Stat (p : path) (fs : disk) : bool := bool_decide (is_Some (fs !! p)).

(** [p] is at or below [d]. *)
Definition below (d p : path) : Prop := d `prefix_of` p.

#[global] Instance below_dec d p : Decision (below d p).
Proof. unfold below. apply _. Defined.

(** [os.Remove]: files and empty directories. *)
Definition Remove (p : path) (fs : disk) : disk :=
  if is_dir fs p && existsb (fun q => bool_decide (below p q) && negb (bool_decide (q = p))) (map_to_list fs).*1 then fs
  else delete p fs.

Definition RemoveAll (d : path) (fs : disk) : disk := filter (fun kv => ~ below d kv.1) fs.

(** The names of the directories directly under [d], in order. *)
Definition ReadDirs (d : path) (fs : disk) : list string :=
  sort_Strings (omap (fun kv : path * node =>
    match kv.2 with
    | IsDir => match drop (length d) kv.1 with [name] => if bool_decide (below d kv.1) then Some name else None | _ => None end
    | IsFile _ => None
    end) (map_to_list fs)).

(** ** Names that cleaning leaves alone *)

Definition plain_name (c : string) : Prop := c <> "" /\ c <> "." /\ c <> ".." /\ "/"%char ∉ byt c.
Definition clean_key (k : string) : Prop := Forall (fun c => c <> "" /\ c <> "." /\ c <> "..") (Split k "/").

#[global] Instance plain_name_dec c : Decision (plain_name c).
Proof. unfold plain_name. apply _. Defined.
#[global] Instance clean_key_dec k : Decision (clean_key k).
Proof. unfold clean_key. apply _. Defined.

Lemma clean_comps p cs : Forall (fun c => c <> "" /\ c <> "." /\ c <> "..") cs -> fold_left clean_step cs p = p ++ cs.
Proof.
  revert p. induction cs as [|c cs IH]; intros p H; cbn [fold_left]; [by rewrite app_nil_r|].
  apply Forall_cons in H as [(H1 & H2 & H3) H]. unfold clean_step at 2. rewrite bool_decide_false by tauto. rewrite bool_decide_false by done.
  rewrite (IH _ H), <- app_assoc. done.
Qed.

Lemma Split_name c : "/"%char ∉ byt c -> Split c "/" = [c].
Proof. intros H. unfold Split. rewrite bytes_Split_no by done. cbn. by rewrite str_byt. Qed.

Lemma Join_key p k : clean_key k -> Join_path p [k] = p ++ Split k "/".
Proof. intros H. cbn. by apply clean_comps. Qed.

Lemma Join_name p c : plain_name c -> Join_path p [c] = p ++ [c].
Proof.
  intros (H1 & H2 & H3 & H4). cbn. rewrite Split_name by done. apply clean_comps. by repeat constructor.
Qed.

Lemma Join_path_app p es es' : Join_path p (es ++ es') = Join_path (Join_path p es) es'.
Proof. unfold Join_path. by rewrite fold_left_app. Qed.

Lemma Split_inj s s' : Split s "/" = Split s' "/" -> s = s'.
Proof. intros H. rewrite <- (Join_Split s "/"), <- (Join_Split s' "/"). by rewrite H. Qed.

(** ** The disk after an operation *)

Lemma ReadFile_Some p fs data : ReadFile p fs = Some data <-> fs !! p = Some (IsFile data).
Proof. unfold ReadFile. repeat case_match; naive_solver. Qed.

(** The files are the same; directories may have appeared. *)
Definition same_files (fs fs' : disk) : Prop := forall p, ReadFile p fs' = ReadFile p fs.

Lemma MkdirAll_files p fs fs' : MkdirAll p fs = Some fs' -> same_files fs fs'.
Proof.
  unfold MkdirAll. destruct (existsb _ _) eqn:E; [done|]. intros H q. apply Some_inj in H. subst fs'.
  assert (Hd : forall l, Forall (fun a => is_file fs a = false) l -> ReadFile q (fold_left (fun fs a => <[a := IsDir]> fs) l fs) = ReadFile q fs).
  { clear. intros l. induction l as [|a l IH] using rev_ind; intros Hl; [done|]. apply Forall_app in Hl as [Hl [Ha _]%Forall_cons].
    rewrite fold_left_app. cbn. rewrite <- (IH Hl). unfold ReadFile at 1. destruct (decide (q = a)) as [->|Hne].
    - rewrite lookup_insert_eq, (IH Hl). unfold is_file in Ha. unfold ReadFile. by destruct (fs !! a) as [[|d]|].
    - by rewrite lookup_insert_ne. }
  apply Hd. apply Forall_forall. intros a Ha. destruct (is_file fs a) eqn:Ef; [|done].
  assert (existsb (is_file fs) (ancestors p) = true); [|congruence]. apply existsb_exists. exists a. by rewrite <- list_elem_of_In.
Qed.

Lemma WriteFile_files p data fs fs' q :
  WriteFile p data fs = Some fs' -> ReadFile q fs' = if decide (q = p) then Some data else ReadFile q fs.
Proof.
  unfold WriteFile. destruct (_ && _); [|done]. intros [= <-]. unfold ReadFile. destruct (decide (q = p)) as [->|]; [by rewrite lookup_insert_eq|].
  by rewrite lookup_insert_ne.
Qed.

Lemma Remove_files p fs q : q <> p -> ReadFile q (Remove p fs) = ReadFile q fs.
Proof. intros H. unfold Remove, ReadFile. destruct (_ && _); [done|]. by rewrite lookup_delete_ne. Qed.

Lemma RemoveAll_files d fs q : ~ below d q -> ReadFile q (RemoveAll d fs) = ReadFile q fs.
Proof.
  intros H. unfold RemoveAll, ReadFile. destruct (fs !! q) as [x|] eqn:E.
  - assert (filter (fun kv : path * node => ~ below d kv.1) fs !! q = Some x) as ->; [|done]. by apply map_lookup_filter_Some.
  - assert (filter (fun kv : path * node => ~ below d kv.1) fs !! q = None) as ->; [|done]. apply map_lookup_filter_None. by left.
Qed.

Lemma RemoveAll_gone d fs q : below d q -> ReadFile q (RemoveAll d fs) = None.
Proof.
  intros H. unfold RemoveAll, ReadFile. assert (filter (fun kv : path * node => ~ below d kv.1) fs !! q = None) as ->; [|done].
  apply map_lookup_filter_None. right. intros x _ Hn. by apply Hn.
Qed.
