(* ===== verification/Vault.v ===== *)
(** * The object store ([vault/pkg/storage/local_store.go])

    Buckets, versions, retention locks, quotas, multipart uploads, lifecycle
    and the replay of the journal, with metadata in a key-value database and
    contents in files.  The database is two maps: buckets by name, objects by
    the key [bucket:object] as the source writes it.  The journal is the list
    of its entries.  Hashes, the cipher and the compressor are a class of
    operations.  JSON encodings are read back as written, and the disk fails
    only where a directory is in the way of a file or a file in the way of a
    directory.  The open-source build has no cold tier and no external key
    service.  Reads of the clock in one loop see one instant.  The vector
    index of the store is not modelled. *)

From S2P Require Import Prelude GoStrings GoNumbers GoSort GoTime GoFs.
Local Open Scope string_scope.
Local Open Scope Z_scope.
Local Open Scope list_scope.

(** ** Types ([store.go]) *)

Record ObjectVersion := mkVer {
  VersionID : string;
  Key : string;
  Size : Z;
  LastModified : Z;
  ETag : string;
  ContentType : string;
  IsLatest : bool;
  IsDeleteMarker : bool;
  Locked : bool;
  RetainUntil : option Z;
  Checksum : string;
  Tags : gmap string string;
  Compressed : bool }.

Record ObjectMeta := mkMeta { om_Key : string; Versions : list ObjectVersion }.

Record LifecycleRule := mkRule { r_ID : string; Enabled : bool; Prefix : string; ExpirationDays : Z }.

Record EventNotificationRule := mkNotify { n_ID : string; Events : list string; FilterKey : string; WebhookURL : string }.

Record WASMTrigger := mkTrigger { Event : string; WASMKey : string; t_Prefix : string; Suffix : string; MemoryLimit : Z; Timeout : Z }.

Record GeoPlacementConfig := mkGeo { PrimaryRegion : string; ReplicaRegions : list string; StrictPlacement : bool }.

Record Bucket := mkBucket {
  Name : string;
  CreatedTime : Z;
  Versioning : string;
  Lifecycle : list LifecycleRule;
  ContentAddressable : bool;
  Quota : Z;
  Triggers : list WASMTrigger;
  NotificationConfig : list EventNotificationRule;
  GeoPlacement : option GeoPlacementConfig }.

Record PartInfo := mkPart { PartNumber : Z; p_ETag : string }.

Inductive Err :=
| ErrBucketNotFound | ErrBucketExists | ErrObjectNotFound | ErrInvalidVersion | ErrObjectLocked
| StreamFailed | SizeMismatch (expected got : Z) | QuotaExceeded (quota : Z) | BucketNotEmpty | UploadNotFound
| MissingPart (n : Z) | ShortenLock | Corrupt | DecryptFailed | DiskError.

(** An entry of the journal ([wal.go]). *)
Record WALEntry := mkEntry {
  w_Timestamp : Z; Operation : string; w_Bucket : string; w_Key : string; w_VersionID : string;
  w_ContentType : string; w_Size : Z; Data : bytes; w_Tags : gmap string string }.

(** ** The codecs the store relies on *)

Class Codec := {
  md5 : bytes -> bytes;
  blake3 : bytes -> bytes;
  sha256 : bytes -> bytes;
  Seal : bytes -> bytes -> bytes -> bytes;
  Open : bytes -> bytes -> bytes -> option bytes;
  Open_Seal : forall key nonce plaintext, Open key nonce (Seal key nonce plaintext) = Some plaintext;
  EncodeAll : bytes -> bytes;
  DecodeAll : bytes -> option bytes;
  DecodeAll_EncodeAll : forall plaintext, DecodeAll (EncodeAll plaintext) = Some plaintext }.

(** What a call reads from outside: the clock, random bytes, the values of the
    request context and the number of processors. *)
Record Call := mkCall {
  instant : nat -> Z;
  random : nat -> ascii;
  is_restore : bool;
  ctx_versionID : option string;
  ctx_timeTravel : option Z;
  NumCPU : nat }.

Record LocalStore := mkStore {
  fs : disk;
  buckets : gmap string Bucket;
  objects : gmap string ObjectMeta;
  policies : gmap string bytes;
  schemas : gmap string bytes;
  journal : list WALEntry;
  encryptionKey : option bytes;
  rootDir : path }.

Definition with_fs (f : disk) (s : LocalStore) : LocalStore :=
  mkStore f (buckets s) (objects s) (policies s) (schemas s) (journal s) (encryptionKey s) (rootDir s).
Definition with_buckets (b : gmap string Bucket) (s : LocalStore) : LocalStore :=
  mkStore (fs s) b (objects s) (policies s) (schemas s) (journal s) (encryptionKey s) (rootDir s).
Definition with_objects (o : gmap string ObjectMeta) (s : LocalStore) : LocalStore :=
  mkStore (fs s) (buckets s) o (policies s) (schemas s) (journal s) (encryptionKey s) (rootDir s).
Definition with_policies (p : gmap string bytes) (s : LocalStore) : LocalStore :=
  mkStore (fs s) (buckets s) (objects s) p (schemas s) (journal s) (encryptionKey s) (rootDir s).
Definition with_schemas (m : gmap string bytes) (s : LocalStore) : LocalStore :=
  mkStore (fs s) (buckets s) (objects s) (policies s) m (journal s) (encryptionKey s) (rootDir s).
Definition with_journal (j : list WALEntry) (s : LocalStore) : LocalStore :=
  mkStore (fs s) (buckets s) (objects s) (policies s) (schemas s) j (encryptionKey s) (rootDir s).

Definition set_latest (b : bool) (v : ObjectVersion) : ObjectVersion :=
  mkVer (VersionID v) (Key v) (Size v) (LastModified v) (ETag v) (ContentType v) b (IsDeleteMarker v) (Locked v) (RetainUntil v)
    (Checksum v) (Tags v) (Compressed v).
Definition set_tags (t : gmap string string) (v : ObjectVersion) : ObjectVersion :=
  mkVer (VersionID v) (Key v) (Size v) (LastModified v) (ETag v) (ContentType v) (IsLatest v) (IsDeleteMarker v) (Locked v) (RetainUntil v)
    (Checksum v) t (Compressed v).
Definition set_lock (until : Z) (v : ObjectVersion) : ObjectVersion :=
  mkVer (VersionID v) (Key v) (Size v) (LastModified v) (ETag v) (ContentType v) (IsLatest v) (IsDeleteMarker v) true (Some until)
    (Checksum v) (Tags v) (Compressed v).

Definition isLocked (now : Z) (v : ObjectVersion) : bool :=
  Locked v && match RetainUntil v with Some until => now <? until | None => false end.

(** ** Names *)

Definition random_bytes (c : Call) (from n : nat) : bytes := random c <$> seq from n.

(** The [i]-th identifier of a call. *)
Definition generateUUID (c : Call) (i : nat) : string :=
  let b := random_bytes c (16 * i) 16 in
  hex (take 4 b) +:+ "-" +:+ hex (take 2 (drop 4 b)) +:+ "-" +:+ hex (take 2 (drop 6 b)) +:+ "-" +:+
  hex (take 2 (drop 8 b)) +:+ "-" +:+ hex (drop 10 b).

Definition getBucketDir (s : LocalStore) (bucket : string) : path := Join_path (rootDir s) [bucket].

Definition getObjectDataPath (s : LocalStore) (bucket key versionID : string) : path :=
  if HasPrefix versionID "cas-"
  then Join_path (getBucketDir s bucket) [".data"; "cas." +:+ TrimPrefix versionID "cas-"]
  else Join_path (getBucketDir s bucket) [".data"; key +:+ "." +:+ versionID].

Definition getMultipartUploadDir (s : LocalStore) (bucket uploadID : string) : path :=
  Join_path (getBucketDir s bucket) [".uploads"; uploadID].

Definition getPartPath (s : LocalStore) (bucket uploadID : string) (partNumber : Z) : path :=
  Join_path (getMultipartUploadDir s bucket uploadID) [FormatInt partNumber].

(** The database key of an object, without its first two characters. *)
Definition object_key (bucket key : string) : string := bucket +:+ ":" +:+ key.

Definition writeWAL (c : Call) (e : WALEntry) (s : LocalStore) : LocalStore :=
  if is_restore c then s else with_journal (journal s ++ [e]) s.

Definition bucket_entry (c : Call) (op bucket : string) : WALEntry := mkEntry (instant c 9) op bucket "" "" "" 0 [] ∅.

(** ** Buckets *)

Definition readBucketMeta (s : LocalStore) (bucket : string) : Err + Bucket :=
  match buckets s !! bucket with Some b => inr b | None => inl ErrBucketNotFound end.

Definition writeBucketMeta (bucket : string) (b : Bucket) (s : LocalStore) : LocalStore :=
  with_buckets (<[bucket := b]> (buckets s)) s.

Definition readObjectMeta (s : LocalStore) (bucket key : string) : Err + ObjectMeta :=
  match objects s !! object_key bucket key with Some om => inr om | None => inl ErrObjectNotFound end.

Definition writeObjectMeta (bucket key : string) (om : ObjectMeta) (s : LocalStore) : LocalStore :=
  with_objects (<[object_key bucket key := om]> (objects s)) s.

Definition deleteObjectMeta (bucket key : string) (s : LocalStore) : LocalStore :=
  with_objects (delete (object_key bucket key) (objects s)) s.

(** The objects whose database key starts with the bucket's prefix, in the
    order of the database. *)
Definition bucket_keys (s : LocalStore) (bucket : string) : list string :=
  sort_Strings (filter (fun k => HasPrefix k (bucket +:+ ":") = true) (map_to_list (objects s)).*1).

Definition bucket_metas (s : LocalStore) (bucket : string) : list ObjectMeta := omap (fun k => objects s !! k) (bucket_keys s bucket).

Definition CreateBucket (c : Call) (bucket : string) (s : LocalStore) : option Err * LocalStore :=
  match readBucketMeta s bucket with
  | inr _ => (Some ErrBucketExists, s)
  | inl _ =>
      match MkdirAll (Join_path (getBucketDir s bucket) [".data"]) (fs s) with
      | None => (Some DiskError, s)
      | Some f =>
          let s := writeBucketMeta bucket (mkBucket bucket (instant c 0) "Disabled" [] false 0 [] [] None) (with_fs f s) in
          (None, writeWAL c (bucket_entry c "CREATE_BUCKET" bucket) s)
      end
  end.

Definition DeleteBucket (c : Call) (bucket : string) (s : LocalStore) : option Err * LocalStore :=
  match readBucketMeta s bucket with
  | inl e => (Some e, s)
  | inr _ =>
      if existsb (fun om => negb (bool_decide (Versions om = []))) (bucket_metas s bucket) then (Some BucketNotEmpty, s)
      else
        let s := with_fs (RemoveAll (getBucketDir s bucket) (fs s)) (with_buckets (delete bucket (buckets s)) s) in
        (None, writeWAL c (bucket_entry c "DELETE_BUCKET" bucket) s)
  end.

Definition ListBuckets (s : LocalStore) : list Bucket :=
  omap (fun k => buckets s !! k) (sort_Strings (map_to_list (buckets s)).*1).

Definition GetBucket (bucket : string) (s : LocalStore) : Err + Bucket := readBucketMeta s bucket.

(** The setters of one field of a bucket. *)
Definition set_bucket (f : Bucket -> Bucket) (bucket : string) (s : LocalStore) : option Err * LocalStore :=
  match readBucketMeta s bucket with
  | inl e => (Some e, s)
  | inr b => (None, writeBucketMeta bucket (f b) s)
  end.

Definition SetBucketVersioning (bucket status : string) : LocalStore -> option Err * LocalStore :=
  set_bucket (fun b => mkBucket (Name b) (CreatedTime b) status (Lifecycle b) (ContentAddressable b) (Quota b) (Triggers b) (NotificationConfig b) (GeoPlacement b)) bucket.

Definition SetBucketContentAddressable (bucket : string) (enabled : bool) : LocalStore -> option Err * LocalStore :=
  set_bucket (fun b => mkBucket (Name b) (CreatedTime b) (Versioning b) (Lifecycle b) enabled (Quota b) (Triggers b) (NotificationConfig b) (GeoPlacement b)) bucket.

Definition SetBucketLifecycle (bucket : string) (rules : list LifecycleRule) : LocalStore -> option Err * LocalStore :=
  set_bucket (fun b => mkBucket (Name b) (CreatedTime b) (Versioning b) rules (ContentAddressable b) (Quota b) (Triggers b) (NotificationConfig b) (GeoPlacement b)) bucket.

Definition DeleteBucketLifecycle (bucket : string) : LocalStore -> option Err * LocalStore :=
  set_bucket (fun b => mkBucket (Name b) (CreatedTime b) (Versioning b) [] (ContentAddressable b) (Quota b) (Triggers b) (NotificationConfig b) (GeoPlacement b)) bucket.

Definition SetBucketQuota (bucket : string) (quota : Z) : LocalStore -> option Err * LocalStore :=
  set_bucket (fun b => mkBucket (Name b) (CreatedTime b) (Versioning b) (Lifecycle b) (ContentAddressable b) quota (Triggers b) (NotificationConfig b) (GeoPlacement b)) bucket.

Definition SetBucketTriggers (bucket : string) (triggers : list WASMTrigger) : LocalStore -> option Err * LocalStore :=
  set_bucket (fun b => mkBucket (Name b) (CreatedTime b) (Versioning b) (Lifecycle b) (ContentAddressable b) (Quota b) triggers (NotificationConfig b) (GeoPlacement b)) bucket.

Definition SetBucketNotifications (bucket : string) (rules : list EventNotificationRule) : LocalStore -> option Err * LocalStore :=
  set_bucket (fun b => mkBucket (Name b) (CreatedTime b) (Versioning b) (Lifecycle b) (ContentAddressable b) (Quota b) (Triggers b) rules (GeoPlacement b)) bucket.

Definition SetBucketGeoPlacement (bucket : string) (cfg : option GeoPlacementConfig) : LocalStore -> option Err * LocalStore :=
  set_bucket (fun b => mkBucket (Name b) (CreatedTime b) (Versioning b) (Lifecycle b) (ContentAddressable b) (Quota b) (Triggers b) (NotificationConfig b) cfg) bucket.

(** The getters of one field. *)
Definition get_bucket {A} (f : Bucket -> A) (bucket : string) (s : LocalStore) : Err + A :=
  match readBucketMeta s bucket with inl e => inl e | inr b => inr (f b) end.

Definition GetBucketLifecycle : string -> LocalStore -> Err + list LifecycleRule := get_bucket Lifecycle.
Definition GetBucketQuota : string -> LocalStore -> Err + Z := get_bucket Quota.
Definition GetBucketTriggers : string -> LocalStore -> Err + list WASMTrigger := get_bucket Triggers.
Definition GetBucketNotifications : string -> LocalStore -> Err + list EventNotificationRule := get_bucket NotificationConfig.
Definition GetBucketGeoPlacement : string -> LocalStore -> Err + option GeoPlacementConfig := get_bucket GeoPlacement.
