(* ===== verification/VaultObjects.v ===== *)
(** * Objects of the store ([vault/pkg/storage/local_store.go], [crypto.go],
    [hash.go], [classify.go])

    Putting, reading and deleting versions, locks, tags, listing, multipart
    uploads and lifecycle. *)

From S2P Require Import Prelude GoStrings GoNumbers GoSort GoTime GoFs Vault.
Local Open Scope string_scope.
Local Open Scope Z_scope.
Local Open Scope list_scope.

Section Objects.
Context `{codec : Codec}.

(** The zero [time.Time], year 1. *)
Definition zero_time : Z := Date 1 1 1.

(** ** Payloads on disk *)

Definition NonceSize : nat := 12.

Definition encryptPayload (key nonce plaintext : bytes) : bytes := nonce ++ Seal key nonce plaintext.

Definition decryptPayload (key ciphertext : bytes) : option bytes :=
  if (length ciphertext <? NonceSize)%nat then None
  else Open key (take NonceSize ciphertext) (drop NonceSize ciphertext).

Definition deriveKey (passphrase : string) : bytes := sha256 (byt passphrase).

Definition WithEncryptionKey (passphrase : string) (s : LocalStore) : LocalStore :=
  mkStore (fs s) (buckets s) (objects s) (policies s) (schemas s) (journal s) (Some (deriveKey passphrase)) (rootDir s).

Definition isCompressible (key contentType : string) : bool :=
  let ct := ToLower contentType in
  if HasPrefix ct "text/" || bool_decide (ct ∈ ["application/json"; "application/xml"; "application/javascript"; "application/x-javascript"])
     || HasSuffix ct "+json" || HasSuffix ct "+xml" then true
  else
    let k := ToLower key in
    HasSuffix k ".txt" || HasSuffix k ".md" || HasSuffix k ".json" || HasSuffix k ".xml" || HasSuffix k ".log".

(** The bytes that are written for a payload: compressed, then encrypted. *)
Definition encode_payload (s : LocalStore) (nonce : bytes) (compress : bool) (plaintext : bytes) : bytes :=
  let toWrite := if compress then EncodeAll plaintext else plaintext in
  match encryptionKey s with
  | Some k => encryptPayload k nonce toWrite
  | None => toWrite
  end.

Definition nonce_of (c : Call) : bytes := random_bytes c 1000 NonceSize.

Definition chunkThreshold : Z := 8 * 1024 * 1024.

(** The hashes of the chunks, one per processor, of a large payload. *)
Definition chunk_hashes (numCPU : nat) (data : bytes) : list bytes :=
  let chunkSize := ((length data + numCPU - 1) / numCPU)%nat in
  (fun i => if (i * chunkSize <? length data)%nat then blake3 (take chunkSize (drop (i * chunkSize) data)) else []) <$> seq 0 numCPU.

Definition ParallelBlake3Hash (numCPU : nat) (data : bytes) : string :=
  if Z.of_nat (length data) <=? chunkThreshold then hex (blake3 data)
  else hex (blake3 (concat (chunk_hashes (Nat.max numCPU 2) data))).

(** [fmt.Sprintf] prints the confidence with two decimals. *)
Definition AutoClassify (key contentType : string) (content : bytes) : gmap string string :=
  let contentStr := ToLower (str content) in
  let keyLower := ToLower key in
  let '(class, confidence) :=
    if Contains contentType "image" || HasSuffix keyLower ".png" || HasSuffix keyLower ".jpg" || HasSuffix keyLower ".jpeg" || HasSuffix keyLower ".gif"
    then ("image", "0.95")
    else if Contains contentType "audio" || HasSuffix keyLower ".mp3" || HasSuffix keyLower ".wav" || HasSuffix keyLower ".ogg"
    then ("audio", "0.95")
    else if HasSuffix keyLower ".log" || Contains contentStr "[info]" || Contains contentStr "[error]" || Contains contentStr "[warn]" || Contains contentStr "level="
    then ("log", "0.85")
    else if Contains contentStr "invoice" || Contains contentStr "billing" || Contains contentStr "receipt" || Contains keyLower "invoice" || Contains keyLower "receipt"
    then ("invoice", "0.90")
    else if Contains contentStr "contract" || Contains contentStr "agreement" || Contains contentStr "treaty" || Contains keyLower "contract" || Contains keyLower "agreement"
    then ("contract", "0.90")
    else if Contains contentType "pdf" || HasSuffix keyLower ".pdf" then ("document", "0.80")
    else if HasSuffix keyLower ".txt" || HasSuffix keyLower ".md" || Contains contentType "text/" then ("document", "0.70")
    else ("unknown", "0.50") in
  {["ai-class" := class; "ai-confidence" := confidence]}.

(** ** Quota *)

Definition latest_size (om : ObjectMeta) : Z :=
  fold_left (fun acc v => if IsLatest v && negb (IsDeleteMarker v) then wrap64 (acc + Size v) else acc) (Versions om) 0.

Definition getBucketUsageNoLock (s : LocalStore) (bucket : string) : Z :=
  fold_left (fun acc om => wrap64 (acc + latest_size om)) (bucket_metas s bucket) 0.

Definition is_null (v : ObjectVersion) : bool := bool_decide (VersionID v = "null").

(** The size of the version that an unversioned write replaces. *)
Definition existing_size (s : LocalStore) (b : Bucket) (bucket key : string) : Z :=
  if bool_decide (Versioning b = "Enabled") then 0 else
  match readObjectMeta s bucket key with
  | inl _ => 0
  | inr om => fold_left (fun acc v => if is_null v && IsLatest v && negb (IsDeleteMarker v) then Size v else acc) (Versions om) 0
  end.

Definition quota_exceeded (s : LocalStore) (b : Bucket) (bucket key : string) (written : Z) : bool :=
  (0 <? Quota b) && (Quota b <? wrap64 (wrap64 (getBucketUsageNoLock s bucket - existing_size s b bucket key) + written)).

(** ** Put *)

(** The first version called "null" is removed. *)
Fixpoint drop_null (vs : list ObjectVersion) : list ObjectVersion :=
  match vs with
  | [] => []
  | v :: vs => if is_null v then vs else v :: drop_null vs
  end.

(** Without versioning a write is refused while the version it would replace
    is locked. *)
Definition overwrite_locked (now : Z) (s : LocalStore) (b : Bucket) (bucket key : string) : bool :=
  negb (bool_decide (Versioning b = "Enabled")) &&
  match readObjectMeta s bucket key with
  | inl _ => false
  | inr om => existsb (fun v => is_null v && isLocked now v) (Versions om)
  end.

(** The new version in front of the others, none of which is the latest. *)
Definition add_version (s : LocalStore) (bucket key : string) (keep_all : bool) (newVer : ObjectVersion) (dataPath : path) : LocalStore :=
  let om := match readObjectMeta s bucket key with inr om => om | inl _ => mkMeta key [] end in
  let old := Versions om in
  let oldDataPath := getObjectDataPath s bucket key "null" in
  let f := if negb keep_all && existsb is_null old && negb (bool_decide (oldDataPath = dataPath)) then Remove oldDataPath (fs s) else fs s in
  let rest := if keep_all then old else drop_null old in
  writeObjectMeta bucket key (mkMeta (om_Key om) (newVer :: (set_latest false <$> rest))) (with_fs f s).

Definition PutObject (c : Call) (bucket key : string) (reader : option bytes) (size : Z) (contentType : string) (s : LocalStore) :
    (Err + ObjectVersion) * LocalStore :=
  match reader with
  | None => (inl StreamFailed, s)
  | Some plaintext =>
      let written := Z.of_nat (length plaintext) in
      if (0 <? size) && negb (written =? size) then (inl (SizeMismatch size written), s) else
      match readBucketMeta s bucket with
      | inl e => (inl e, s)
      | inr b =>
          let versionID := match ctx_versionID c with
                           | Some v => v
                           | None => if bool_decide (Versioning b = "Enabled") then generateUUID c 0 else "null"
                           end in
          if overwrite_locked (instant c 0) s b bucket key then (inl ErrObjectLocked, s)
          else if quota_exceeded s b bucket key written then (inl (QuotaExceeded (Quota b)), s)
          else
            let b3Checksum := hex (blake3 plaintext) in
            let versionID := if ContentAddressable b then "cas-" +:+ b3Checksum else versionID in
            let dataPath := getObjectDataPath s bucket key versionID in
            match MkdirAll (Dir dataPath) (fs s) with
            | None => (inl DiskError, s)
            | Some f =>
                let s := with_fs f s in
                let alreadyExists := ContentAddressable b && Stat dataPath f in
                let isCompressed := isCompressible key contentType in
                match (if alreadyExists then Some f
                       else WriteFile dataPath (encode_payload s (nonce_of c) isCompressed plaintext) f) with
                | None => (inl DiskError, s)
                | Some f =>
                    let s := with_fs f s in
                    let newVer := mkVer versionID key written (instant c 1) (hex (md5 plaintext)) contentType true false false None
                                    b3Checksum (AutoClassify key contentType plaintext) isCompressed in
                    let s := add_version s bucket key (bool_decide (Versioning b = "Enabled") || ContentAddressable b) newVer dataPath in
                    (inr newVer,
                     writeWAL c (mkEntry (instant c 9) "PUT_OBJECT" bucket key versionID contentType written plaintext ∅) s)
                end
            end
      end
  end.

(** ** Get *)

Definition latest_of (vs : list ObjectVersion) : option ObjectVersion :=
  match List.find IsLatest vs with Some v => Some v | None => head vs end.

(** From the oldest version to the newest, the last one that is not younger. *)
Definition active_at (t : Z) (vs : list ObjectVersion) : option ObjectVersion :=
  fold_left (fun acc v => if LastModified v <=? t then Some v else acc) (reverse vs) None.

Definition by_id (versionID : string) (v : ObjectVersion) : bool := bool_decide (VersionID v = versionID).

Definition target_version (c : Call) (versionID : string) (vs : list ObjectVersion) : option ObjectVersion :=
  match (match ctx_timeTravel c with Some t => active_at t vs | None => None end) with
  | Some v => Some v
  | None => if bool_decide (versionID = "") then latest_of vs else List.find (by_id versionID) vs
  end.

(** What is handed out: the bytes, and the checksum that a reader compares
    when it gets to their end. *)
Record Reader := mkReader { content : bytes; expected : option string }.

Definition ReadAll (r : Reader) : Err + bytes :=
  match expected r with
  | Some sum => if bool_decide (hex (blake3 (content r)) = sum) then inr (content r) else inl Corrupt
  | None => inr (content r)
  end.

(** A payload that was read into memory, checked. *)
Definition checked (v : ObjectVersion) (plaintext : bytes) : Err + Reader :=
  if negb (bool_decide (Checksum v = "")) && negb (bool_decide (hex (blake3 plaintext) = Checksum v))
  then inl Corrupt else inr (mkReader plaintext None).

Definition open_version (s : LocalStore) (bucket key : string) (v : ObjectVersion) : Err + Reader :=
  match ReadFile (getObjectDataPath s bucket key (VersionID v)) (fs s) with
  | None => inl DiskError
  | Some stored =>
      match encryptionKey s with
      | Some k =>
          match decryptPayload k stored with
          | None => inl DecryptFailed
          | Some decrypted =>
              if Compressed v then match DecodeAll decrypted with Some plaintext => checked v plaintext | None => inl Corrupt end
              else checked v decrypted
          end
      | None =>
          if Compressed v then match DecodeAll stored with Some plaintext => checked v plaintext | None => inl Corrupt end
          else inr (mkReader stored (if bool_decide (Checksum v = "") then None else Some (Checksum v)))
      end
  end.

Definition HeadObject (c : Call) (bucket key versionID : string) (s : LocalStore) : (Err * option ObjectVersion) + ObjectVersion :=
  match readBucketMeta s bucket with
  | inl e => inl (e, None)
  | inr _ =>
      match readObjectMeta s bucket key with
      | inl e => inl (e, None)
      | inr om =>
          match target_version c versionID (Versions om) with
          | None => inl (ErrObjectNotFound, None)
          | Some v => if IsDeleteMarker v then inl (ErrObjectNotFound, Some v) else inr v
          end
      end
  end.

Definition GetObject (c : Call) (bucket key versionID : string) (s : LocalStore) : (Err * option ObjectVersion) + (Reader * ObjectVersion) :=
  match readBucketMeta s bucket with
  | inl e => inl (e, None)
  | inr _ =>
      match readObjectMeta s bucket key with
      | inl e => inl (e, None)
      | inr om =>
          match target_version c versionID (Versions om) with
          | None => inl (ErrObjectNotFound, None)
          | Some v =>
              if IsDeleteMarker v then inl (ErrObjectNotFound, Some v)
              else match open_version s bucket key v with
                   | inl e => inl (e, None)
                   | inr r => inr (r, v)
                   end
          end
      end
  end.

Definition GetObjectBytes (c : Call) (bucket key versionID : string) (s : LocalStore) : Err + bytes :=
  match GetObject c bucket key versionID s with
  | inl (e, _) => inl e
  | inr (r, _) => ReadAll r
  end.

(** ** Delete *)

(** The object keys of a bucket, as cut out of the database keys. *)
Definition scanMetadataKeys (s : LocalStore) (bucket : string) : list string :=
  omap (fun k => match SplitN2 k ":" with [_; rest] => Some rest | _ => None end) (bucket_keys s bucket).

Definition references (versionID : string) (vs : list ObjectVersion) : nat :=
  length (List.filter (fun v => by_id versionID v && negb (IsDeleteMarker v)) vs).

(** References to a content-addressed file from the other objects. *)
Definition other_references (s : LocalStore) (bucket key versionID : string) : nat :=
  list_sum ((fun k => if bool_decide (k = key) then 0%nat
                      else match readObjectMeta s bucket k with inr om => references versionID (Versions om) | inl _ => 0%nat end)
            <$> scanMetadataKeys s bucket).

(** The file of a deleted version goes, unless its content is shared. *)
Definition remove_data (s : LocalStore) (bucket key versionID : string) (own : nat) (f : disk) : disk :=
  if HasPrefix versionID "cas-" && negb (other_references s bucket key versionID + own =? 0)%nat then f
  else Remove (getObjectDataPath s bucket key versionID) f.

Fixpoint find_index (versionID : string) (vs : list ObjectVersion) : option nat :=
  match vs with
  | [] => None
  | v :: vs => if by_id versionID v then Some 0%nat else S <$> find_index versionID vs
  end.

Definition mark_first (vs : list ObjectVersion) : list ObjectVersion :=
  match vs with [] => [] | v :: vs => set_latest true v :: vs end.

(** One version, for good. *)
Definition delete_version (c : Call) (bucket key versionID : string) (om : ObjectMeta) (s : LocalStore) : (Err + ObjectVersion) * LocalStore :=
  match find_index versionID (Versions om) with
  | None => (inl ErrInvalidVersion, s)
  | Some i =>
      match Versions om !! i with
      | None => (inl ErrInvalidVersion, s)
      | Some deletedVer =>
          if isLocked (instant c 0) deletedVer then (inl ErrObjectLocked, s) else
          let rest := delete i (Versions om) in
          let f := if IsDeleteMarker deletedVer then fs s
                   else remove_data s bucket key versionID (references versionID rest) (fs s) in
          let s := with_fs f s in
          let rest := if IsLatest deletedVer then mark_first rest else rest in
          (inr deletedVer,
           match rest with
           | [] => deleteObjectMeta bucket key s
           | _ => writeObjectMeta bucket key (mkMeta (om_Key om) rest) s
           end)
      end
  end.

Definition delete_marker (versionID key : string) (now : Z) : ObjectVersion :=
  mkVer versionID key 0 now "" "" true true false None "" ∅ false.

(** The loop of a suspended bucket: up to the version called "null", which
    goes, versions stop being the latest. *)
Fixpoint suspend_null (vs : list ObjectVersion) : list ObjectVersion * option ObjectVersion :=
  match vs with
  | [] => ([], None)
  | v :: vs => if is_null v then (vs, Some v) else let '(vs, found) := suspend_null vs in (set_latest false v :: vs, found)
  end.

Definition delete_all (s : LocalStore) (bucket key : string) (vs : list ObjectVersion) (f : disk) : disk :=
  fold_left (fun f v => if IsDeleteMarker v then f else remove_data s bucket key (VersionID v) 0 f) vs f.

Definition DeleteObject (c : Call) (bucket key versionID : string) (s : LocalStore) : (Err + ObjectVersion) * LocalStore :=
  match readBucketMeta s bucket with
  | inl e => (inl e, s)
  | inr b =>
      match readObjectMeta s bucket key with
      | inl e => (inl e, s)
      | inr om =>
          let '(r, s) :=
            if negb (bool_decide (versionID = "")) then delete_version c bucket key versionID om s
            else if bool_decide (Versioning b = "Enabled") then
              if existsb (fun v => IsLatest v && isLocked (instant c 0) v) (Versions om) then (inl ErrObjectLocked, s)
              else
                let marker := delete_marker (generateUUID c 0) key (instant c 1) in
                (inr marker, writeObjectMeta bucket key (mkMeta (om_Key om) (marker :: (set_latest false <$> Versions om))) s)
            else if bool_decide (Versioning b = "Suspended") then
              let '(vs, found) := suspend_null (Versions om) in
              let f := match found with
                       | Some v => if IsDeleteMarker v then fs s else Remove (getObjectDataPath s bucket key "null") (fs s)
                       | None => fs s
                       end in
              let marker := delete_marker "null" key (instant c 1) in
              (inr marker, writeObjectMeta bucket key (mkMeta (om_Key om) (marker :: vs)) (with_fs f s))
            else
              let f := delete_all s bucket key (Versions om) (fs s) in
              (inr (mkVer "" key 0 zero_time "" "" false true false None "" ∅ false), deleteObjectMeta bucket key (with_fs f s)) in
          match r with
          | inl e => (inl e, s)
          | inr v => (inr v, writeWAL c (mkEntry (instant c 9) "DELETE_OBJECT" bucket key versionID "" 0 [] ∅) s)
          end
      end
  end.

(** ** Locks and tags *)

Definition LockObject (bucket key versionID : string) (retainUntil : Z) (s : LocalStore) : (Err + ObjectVersion) * LocalStore :=
  match readBucketMeta s bucket with
  | inl e => (inl e, s)
  | inr _ =>
      match readObjectMeta s bucket key with
      | inl e => (inl e, s)
      | inr om =>
          let versionID := if bool_decide (versionID = "")
                           then match List.find IsLatest (Versions om) with Some v => VersionID v | None => "" end else versionID in
          match find_index versionID (Versions om) ≫= fun i => (pair i) <$> Versions om !! i with
          | None => (inl ErrInvalidVersion, s)
          | Some (i, v) =>
              if match RetainUntil v with Some until => retainUntil <? until | None => false end then (inl ShortenLock, s)
              else (inr (set_lock retainUntil v),
                    writeObjectMeta bucket key (mkMeta (om_Key om) (<[i := set_lock retainUntil v]> (Versions om))) s)
          end
      end
  end.

(** The version a request for tags means: the latest, or the named one. *)
Definition tagged (versionID : string) (v : ObjectVersion) : bool :=
  if bool_decide (versionID = "") then IsLatest v else by_id versionID v.

Fixpoint update_first (p : ObjectVersion -> bool) (f : ObjectVersion -> ObjectVersion) (vs : list ObjectVersion) : list ObjectVersion :=
  match vs with
  | [] => []
  | v :: vs => if p v then f v :: vs else v :: update_first p f vs
  end.

Definition change_tags (c : Call) (op bucket key versionID : string) (tags : gmap string string) (s : LocalStore) : (Err + ObjectVersion) * LocalStore :=
  match readObjectMeta s bucket key with
  | inl e => (inl e, s)
  | inr om =>
      match List.find (tagged versionID) (Versions om) with
      | None => (inl ErrObjectNotFound, s)
      | Some v =>
          let s := writeObjectMeta bucket key (mkMeta (om_Key om) (update_first (tagged versionID) (set_tags tags) (Versions om))) s in
          (inr (set_tags tags v), writeWAL c (mkEntry (instant c 9) op bucket key versionID "" 0 [] tags) s)
      end
  end.

Definition PutObjectTagging (c : Call) (bucket key versionID : string) (tags : gmap string string) : LocalStore -> (Err + ObjectVersion) * LocalStore :=
  change_tags c "PUT_TAGS" bucket key versionID tags.

Definition DeleteObjectTagging (c : Call) (bucket key versionID : string) : LocalStore -> (Err + ObjectVersion) * LocalStore :=
  change_tags c "DELETE_TAGS" bucket key versionID ∅.

Definition GetObjectTagging (bucket key versionID : string) (s : LocalStore) : Err + gmap string string :=
  match readObjectMeta s bucket key with
  | inl e => inl e
  | inr om => match List.find (tagged versionID) (Versions om) with None => inl ErrObjectNotFound | Some v => inr (Tags v) end
  end.
End Objects.
