(* ===== verification/VaultBulk.v ===== *)
(** * Listings, multipart uploads, lifecycle and the journal of the object
    store ([vault/pkg/storage/local_store.go], [wal.go]) *)

From S2P Require Import Prelude GoStrings GoNumbers GoSort GoTime GoFs Vault VaultObjects.
Local Open Scope string_scope.
Local Open Scope Z_scope.
Local Open Scope list_scope.

Section Bulk.
Context `{codec : Codec}.

(** ** Listings *)

(** [key[len(prefix):]] up to and including the first byte of the delimiter. *)
Definition common_prefix (key prefix delimiter : string) : option string :=
  if bool_decide (delimiter = "") then None else
  let subKey := drop (length (byt prefix)) (byt key) in
  match bytes_Cut subKey (byt delimiter) with
  | Some (before, _) => Some (prefix +:+ str (take (S (length before)) subKey))
  | None => None
  end.

(** Collected so far: entries, common prefixes, and the prefixes seen. *)
Record Listing := mkListing { entries : list ObjectVersion; prefixes : list string }.

Definition add_prefix (p : string) (l : Listing) : Listing :=
  if bool_decide (p ∈ prefixes l) then l else mkListing (entries l) (prefixes l ++ [p]).

Definition add_entry (v : ObjectVersion) (l : Listing) : Listing := mkListing (entries l ++ [v]) (prefixes l).

Definition full (maxKeys : Z) (l : Listing) : bool := (0 <? maxKeys) && (maxKeys <=? Z.of_nat (length (entries l))).

Fixpoint list_keys (s : LocalStore) (bucket prefix delimiter marker : string) (maxKeys : Z) (keys : list string) (l : Listing) : Listing :=
  match keys with
  | [] => l
  | key :: keys =>
      let continue := list_keys s bucket prefix delimiter marker maxKeys keys in
      if negb (HasPrefix key prefix) then continue l
      else if negb (bool_decide (marker = "")) && negb (string_ltb marker key) then continue l
      else match readObjectMeta s bucket key with
           | inl _ => continue l
           | inr om =>
               match latest_of (Versions om) with
               | None => continue l
               | Some v =>
                   if IsDeleteMarker v then continue l
                   else match common_prefix key prefix delimiter with
                        | Some p => continue (add_prefix p l)
                        | None => let l := add_entry v l in if full maxKeys l then l else continue l
                        end
               end
           end
  end.

Definition ListObjects (bucket prefix delimiter marker : string) (maxKeys : Z) (s : LocalStore) : Err + (list ObjectVersion * list string) :=
  match readBucketMeta s bucket with
  | inl e => inl e
  | inr _ =>
      let l := list_keys s bucket prefix delimiter marker maxKeys (sort_Strings (scanMetadataKeys s bucket)) (mkListing [] []) in
      inr (entries l, sort_Strings (prefixes l))
  end.

(** The versions of one object, from the marker on. *)
Fixpoint list_versions (key prefix delimiter keyMarker versionIDMarker : string) (maxKeys : Z) (vs : list ObjectVersion) (l : Listing) : Listing :=
  match vs with
  | [] => l
  | v :: vs =>
      let continue := list_versions key prefix delimiter keyMarker versionIDMarker maxKeys vs in
      if bool_decide (key = keyMarker) && negb (bool_decide (versionIDMarker = "")) && negb (string_ltb versionIDMarker (VersionID v)) then continue l
      else match common_prefix key prefix delimiter with
           | Some p => continue (add_prefix p l)
           | None => let l := add_entry v l in if full maxKeys l then l else continue l
           end
  end.

Fixpoint list_all_versions (s : LocalStore) (bucket prefix delimiter keyMarker versionIDMarker : string) (maxKeys : Z) (keys : list string) (l : Listing) : Listing :=
  match keys with
  | [] => l
  | key :: keys =>
      let continue := list_all_versions s bucket prefix delimiter keyMarker versionIDMarker maxKeys keys in
      if negb (HasPrefix key prefix) then continue l
      else if negb (bool_decide (keyMarker = "")) && string_ltb key keyMarker then continue l
      else match readObjectMeta s bucket key with
           | inl _ => continue l
           | inr om =>
               let l := list_versions key prefix delimiter keyMarker versionIDMarker maxKeys (Versions om) l in
               if full maxKeys l then l else continue l
           end
  end.

Definition ListObjectVersions (bucket prefix delimiter keyMarker versionIDMarker : string) (maxKeys : Z) (s : LocalStore) :
    Err + (list ObjectVersion * list string) :=
  match readBucketMeta s bucket with
  | inl e => inl e
  | inr _ =>
      let l := list_all_versions s bucket prefix delimiter keyMarker versionIDMarker maxKeys (sort_Strings (scanMetadataKeys s bucket)) (mkListing [] []) in
      inr (entries l, sort_Strings (prefixes l))
  end.

Definition ListLocalKeys (s : LocalStore) : list (string * string) :=
  omap (fun k => match SplitN2 k ":" with [b; key] => Some (b, key) | _ => None end) (sort_Strings (map_to_list (objects s)).*1).

(** ** Multipart uploads *)

Definition InitiateMultipartUpload (c : Call) (bucket key : string) (s : LocalStore) : (Err + string) * LocalStore :=
  match readBucketMeta s bucket with
  | inl e => (inl e, s)
  | inr _ =>
      let uploadID := generateUUID c 0 in
      match MkdirAll (getMultipartUploadDir s bucket uploadID) (fs s) with
      | None => (inl DiskError, s)
      | Some f => (inr uploadID, with_fs f s)
      end
  end.

Definition UploadPart (c : Call) (bucket key uploadID : string) (partNumber : Z) (reader : option bytes) (size : Z) (s : LocalStore) :
    (Err + string) * LocalStore :=
  match readBucketMeta s bucket with
  | inl e => (inl e, s)
  | inr _ =>
      if negb (Stat (getMultipartUploadDir s bucket uploadID) (fs s)) then (inl UploadNotFound, s) else
      match reader with
      | None => (inl StreamFailed, s)
      | Some plaintext =>
          let written := Z.of_nat (length plaintext) in
          if (0 <? size) && negb (written =? size) then (inl (SizeMismatch size written), s) else
          match WriteFile (getPartPath s bucket uploadID partNumber) (encode_payload s (nonce_of c) false plaintext) (fs s) with
          | None => (inl DiskError, s)
          | Some f => (inr (hex (md5 plaintext)), with_fs f s)
          end
      end
  end.

(** The parts in the order of the request, decrypted. *)
Fixpoint assemble (s : LocalStore) (bucket uploadID : string) (parts : list PartInfo) : Err + bytes :=
  match parts with
  | [] => inr []
  | part :: parts =>
      match ReadFile (getPartPath s bucket uploadID (PartNumber part)) (fs s) with
      | None => inl (MissingPart (PartNumber part))
      | Some stored =>
          match (match encryptionKey s with Some k => decryptPayload k stored | None => Some stored end) with
          | None => inl DecryptFailed
          | Some plain => match assemble s bucket uploadID parts with inl e => inl e | inr rest => inr (plain ++ rest) end
          end
      end
  end.

Definition CompleteMultipartUpload (c : Call) (bucket key uploadID : string) (parts : list PartInfo) (contentType : string) (s : LocalStore) :
    (Err + ObjectVersion) * LocalStore :=
  match readBucketMeta s bucket with
  | inl e => (inl e, s)
  | inr b =>
      let uploadDir := getMultipartUploadDir s bucket uploadID in
      if negb (Stat uploadDir (fs s)) then (inl UploadNotFound, s) else
      let versionID := if bool_decide (Versioning b = "Enabled") then generateUUID c 0 else "null" in
      let dataPath := getObjectDataPath s bucket key versionID in
      match MkdirAll (Dir dataPath) (fs s) with
      | None => (inl DiskError, s)
      | Some f =>
          match WriteFile dataPath [] f with
          | None => (inl DiskError, with_fs f s)
          | Some f =>
              let s := with_fs f s in
              match assemble s bucket uploadID parts with
              | inl e => (inl e, s)
              | inr plaintext =>
                  let totalSize := Z.of_nat (length plaintext) in
                  if quota_exceeded s b bucket key totalSize then (inl (QuotaExceeded (Quota b)), s) else
                  let isCompressed := isCompressible key contentType in
                  let f := <[dataPath := IsFile (encode_payload s (nonce_of c) isCompressed plaintext)]> (fs s) in
                  let s := with_fs (RemoveAll uploadDir f) s in
                  let newVer := mkVer versionID key totalSize (instant c 1) (hex (md5 plaintext)) contentType true false false None
                                  (ParallelBlake3Hash (NumCPU c) plaintext) (AutoClassify key contentType plaintext) isCompressed in
                  (inr newVer, add_version s bucket key (bool_decide (Versioning b = "Enabled")) newVer dataPath)
              end
          end
      end
  end.

Definition AbortMultipartUpload (bucket key uploadID : string) (s : LocalStore) : option Err * LocalStore :=
  match readBucketMeta s bucket with
  | inl e => (Some e, s)
  | inr _ => (None, with_fs (RemoveAll (getMultipartUploadDir s bucket uploadID) (fs s)) s)
  end.

(** ** Lifecycle *)

Definition expires (now : Z) (key : string) (rules : list LifecycleRule) (v : ObjectVersion) : bool :=
  existsb (fun r => Enabled r && (0 <? ExpirationDays r) && (bool_decide (Prefix r = "") || HasPrefix key (Prefix r)) &&
                    (wrap64 (wrap64 (ExpirationDays r * 24) * Hour) <=? Sub now (LastModified v))) rules.

Definition survives (now : Z) (key : string) (rules : list LifecycleRule) (v : ObjectVersion) : bool :=
  IsDeleteMarker v || isLocked now v || negb (expires now key rules v).

(** One object: the files of expired versions go, and some version stays the
    latest. *)
Definition expire_object (now : Z) (bucket : string) (rules : list LifecycleRule) (acc : Z * LocalStore) (key : string) : Z * LocalStore :=
  let '(expired, s) := acc in
  match readObjectMeta s bucket key with
  | inl _ => acc
  | inr om =>
      let gone := List.filter (fun v => negb (survives now key rules v)) (Versions om) in
      let surviving := List.filter (survives now key rules) (Versions om) in
      if bool_decide (gone = []) then acc else
      let s := with_fs (fold_left (fun f v => Remove (getObjectDataPath s bucket key (VersionID v)) f) gone (fs s)) s in
      let expired := expired + Z.of_nat (length gone) in
      if bool_decide (surviving = []) then (expired, deleteObjectMeta bucket key s)
      else
        let surviving := if existsb IsLatest surviving then surviving else mark_first surviving in
        (expired, writeObjectMeta bucket key (mkMeta (om_Key om) surviving) s)
  end.

Definition expire_bucket (now : Z) (acc : Z * LocalStore) (bucket : string) : Z * LocalStore :=
  match readBucketMeta acc.2 bucket with
  | inl _ => acc
  | inr b =>
      if bool_decide (Lifecycle b = []) then acc
      else fold_left (expire_object now bucket (Lifecycle b)) (scanMetadataKeys acc.2 bucket) acc
  end.

Definition ApplyLifecycle (c : Call) (s : LocalStore) : Z * LocalStore :=
  fold_left (expire_bucket (instant c 0)) (ReadDirs (rootDir s) (fs s)) (0, s).

(** ** Policies and schemas *)

Definition PutUserPolicy (username : string) (policy : bytes) (s : LocalStore) : LocalStore := with_policies (<[username := policy]> (policies s)) s.
Definition GetUserPolicy (username : string) (s : LocalStore) : option bytes := policies s !! username.
Definition DeleteUserPolicy (username : string) (s : LocalStore) : LocalStore := with_policies (delete username (policies s)) s.
Definition PutSchema (service : string) (schema : bytes) (s : LocalStore) : LocalStore := with_schemas (<[service := schema]> (schemas s)) s.
Definition GetSchema (service : string) (s : LocalStore) : option bytes := schemas s !! service.
Definition ListSchemas (s : LocalStore) : gmap string bytes := schemas s.

(** ** The journal *)

(** Replays ignore errors of the disk. *)
Definition try_fs (o : option disk) (s : LocalStore) : LocalStore := match o with Some f => with_fs f s | None => s end.

Definition replay_put (e : WALEntry) (s : LocalStore) : LocalStore :=
  let dataPath := getObjectDataPath s (w_Bucket e) (w_Key e) (w_VersionID e) in
  let s := try_fs (MkdirAll (Dir dataPath) (fs s)) s in
  let s := try_fs (WriteFile dataPath (Data e) (fs s)) s in
  let om := match readObjectMeta s (w_Bucket e) (w_Key e) with inr om => om | inl _ => mkMeta (w_Key e) [] end in
  let newVer := mkVer (w_VersionID e) (w_Key e) (w_Size e) (w_Timestamp e) "" (w_ContentType e) true false false None "" ∅ false in
  writeObjectMeta (w_Bucket e) (w_Key e) (mkMeta (om_Key om) (newVer :: (set_latest false <$> Versions om))) s.

Definition replay_create (e : WALEntry) (s : LocalStore) : LocalStore :=
  let s := try_fs (MkdirAll (Join_path (getBucketDir s (w_Bucket e)) [".data"]) (fs s)) s in
  writeBucketMeta (w_Bucket e) (mkBucket (w_Bucket e) (w_Timestamp e) "Enabled" [] false 0 [] [] None) s.

Definition replay_drop (e : WALEntry) (s : LocalStore) : LocalStore :=
  with_buckets (delete (w_Bucket e) (buckets s)) (with_fs (RemoveAll (getBucketDir s (w_Bucket e)) (fs s)) s).

Definition replay_delete_version (e : WALEntry) (s : LocalStore) : LocalStore :=
  match readObjectMeta s (w_Bucket e) (w_Key e) with
  | inl _ => s
  | inr om =>
      match find_index (w_VersionID e) (Versions om) with
      | None => s
      | Some i =>
          let s := with_fs (Remove (getObjectDataPath s (w_Bucket e) (w_Key e) (w_VersionID e)) (fs s)) s in
          match mark_first (delete i (Versions om)) with
          | [] => deleteObjectMeta (w_Bucket e) (w_Key e) s
          | vs => writeObjectMeta (w_Bucket e) (w_Key e) (mkMeta (om_Key om) vs) s
          end
      end
  end.

(** On start: the whole journal is replayed on the database and the files. *)
Definition recover_entry (s : LocalStore) (e : WALEntry) : LocalStore :=
  if bool_decide (Operation e = "CREATE_BUCKET") then replay_create e s
  else if bool_decide (Operation e = "DELETE_BUCKET") then replay_drop e s
  else if bool_decide (Operation e = "PUT_OBJECT") then replay_put e s
  else if bool_decide (Operation e = "DELETE_OBJECT") then
    if bool_decide (w_VersionID e = "") then deleteObjectMeta (w_Bucket e) (w_Key e) s else replay_delete_version e s
  else s.

Definition RecoverFromWAL (s : LocalStore) : LocalStore := fold_left recover_entry (journal s) s.

(** [NewLocalStore] on the files and the database that a store left. *)
Definition NewLocalStore (s : LocalStore) : option LocalStore :=
  match MkdirAll (rootDir s) (fs s) with
  | None => None
  | Some f => Some (RecoverFromWAL (mkStore f (buckets s) (objects s) (policies s) (schemas s) (journal s) None (rootDir s)))
  end.

Definition restore_tags (e : WALEntry) (tags : gmap string string) (s : LocalStore) : LocalStore :=
  match readObjectMeta s (w_Bucket e) (w_Key e) with
  | inl _ => s
  | inr om => writeObjectMeta (w_Bucket e) (w_Key e) (mkMeta (om_Key om) (update_first (tagged (w_VersionID e)) (set_tags tags) (Versions om))) s
  end.

Definition restore_delete (c : Call) (i : nat) (e : WALEntry) (s : LocalStore) : LocalStore :=
  match readObjectMeta s (w_Bucket e) (w_Key e) with
  | inl _ => s
  | inr om =>
      let marker := delete_marker (generateUUID c i) (w_Key e) (w_Timestamp e) in
      writeObjectMeta (w_Bucket e) (w_Key e) (mkMeta (om_Key om) (marker :: (set_latest false <$> Versions om))) s
  end.

Definition restore_entry (c : Call) (i : nat) (e : WALEntry) (s : LocalStore) : LocalStore :=
  if bool_decide (Operation e = "CREATE_BUCKET") then replay_create e s
  else if bool_decide (Operation e = "DELETE_BUCKET") then replay_drop e s
  else if bool_decide (Operation e = "PUT_OBJECT") then replay_put e s
  else if bool_decide (Operation e = "DELETE_OBJECT") then
    if bool_decide (w_VersionID e = "") then restore_delete c i e s else replay_delete_version e s
  else if bool_decide (Operation e = "PUT_TAGS") then restore_tags e (w_Tags e) s
  else if bool_decide (Operation e = "DELETE_TAGS") then restore_tags e ∅ s
  else s.

(** The entries of the bucket up to the first one that is too young. *)
Fixpoint restore_entries (c : Call) (bucket : string) (target : Z) (i : nat) (es : list WALEntry) (s : LocalStore) : LocalStore :=
  match es with
  | [] => s
  | e :: es =>
      if negb (bool_decide (w_Bucket e = bucket)) then restore_entries c bucket target (S i) es s
      else if target <? w_Timestamp e then s
      else restore_entries c bucket target (S i) es (restore_entry c i e s)
  end.

Definition clear_bucket (bucket : string) (s : LocalStore) : LocalStore :=
  let s' := with_fs (RemoveAll (getBucketDir s bucket) (fs s)) (with_buckets (delete bucket (buckets s)) s) in
  with_objects (filter (fun kv => HasPrefix kv.1 (bucket +:+ ":") = false) (objects s)) s'.

Definition RestoreBucketToPointInTime (c : Call) (bucket : string) (targetTime : Z) (s : LocalStore) : LocalStore :=
  match journal s with
  | [] => s
  | _ => restore_entries c bucket targetTime 0 (journal s) (clear_bucket bucket s)
  end.
End Bulk.
