(* ===== verification/VaultFacts.v ===== *)
(** * The invariant of the object store

    Well-formed buckets, keys and version identifiers have paths and database
    keys of their own; every listed version can be read, with the content the
    history records for it. *)

From S2P Require Import Prelude GoStrings GoSort GoNumbers GoFs Vault VaultObjects VaultBulk.
Local Open Scope string_scope.
Local Open Scope list_scope.

(** ** Splitting *)

(** Bytes without separator lengthen the last piece. *)
Lemma bytes_Split_snoc sep s x : sep ∉ x -> exists ws w, bytes_Split sep s = ws ++ [w] /\ bytes_Split sep (s ++ x) = ws ++ [w ++ x].
Proof.
  intros Hx. induction s as [|c s (ws & w & H1 & H2)]; cbn.
  - exists [], []. split; [done|]. by rewrite bytes_Split_no.
  - rewrite H1, H2. case_decide; [by exists ([] :: ws), w|]. destruct ws as [|w0 ws]; cbn; [by exists [], (c :: w)|].
    by exists ((c :: w0) :: ws), w.
Qed.

Lemma last_app_inj (sep : ascii) (a b a' b' : bytes) : sep ∉ b -> sep ∉ b' -> a ++ sep :: b = a' ++ sep :: b' -> a = a' /\ b = b'.
Proof.
  revert a'. induction a as [|x a IH]; intros a' Hb Hb' H.
  - destruct a' as [|y a']; cbn in H; [by injection H|]. injection H as <- ->. exfalso. apply Hb, elem_of_app. right. left.
  - destruct a' as [|y a']; cbn in H; [injection H as -> <-; exfalso; apply Hb', elem_of_app; right; left|].
    injection H as -> H. destruct (IH a' Hb Hb' H) as [-> ->]. done.
Qed.

Lemma first_app_inj (sep : ascii) (a b a' b' : bytes) : sep ∉ a -> sep ∉ a' -> a ++ sep :: b = a' ++ sep :: b' -> a = a' /\ b = b'.
Proof.
  revert a'. induction a as [|x a IH]; intros a' Ha Ha' H.
  - destruct a' as [|y a']; cbn in H; [by injection H|]. injection H as <- ->. exfalso. apply Ha'. left.
  - destruct a' as [|y a']; cbn in H; [injection H as -> <-; exfalso; apply Ha; left|]. injection H as -> H.
    apply not_elem_of_cons in Ha as [_ Ha], Ha' as [_ Ha']. destruct (IH a' Ha Ha' H) as [-> ->]. done.
Qed.

(** ** Well-formed names *)

Definition plain_bucket (b : string) : Prop := plain_name b /\ ":"%char ∉ byt b.
Definition plain_id (v : string) : Prop := v <> "" /\ ("/"%char ∉ byt v) /\ ("."%char ∉ byt v) /\ HasPrefix v "cas-" = false.

#[global] Instance plain_bucket_dec b : Decision (plain_bucket b).
Proof. unfold plain_bucket. apply _. Defined.
#[global] Instance plain_id_dec v : Decision (plain_id v).
Proof. unfold plain_id. apply _. Defined.

Lemma null_plain : plain_id "null".
Proof. by apply (bool_decide_unpack _). Qed.

Lemma clean_key_version k v : clean_key k -> plain_id v -> clean_key (k +:+ "." +:+ v).
Proof.
  unfold clean_key, Split. intros Hk (Hv & Hs & Hd & _). rewrite byt_app, byt_app.
  destruct (bytes_Split_snoc "/" (byt k) (byt "." ++ byt v)) as (ws & w & H1 & H2).
  { cbn. apply not_elem_of_cons. by split. }
  rewrite H1, map_app in Hk. rewrite H2, map_app. apply Forall_app in Hk as [Hws [(Hw & _ & _) _]%Forall_cons]. apply Forall_app. split; [done|].
  constructor; [|constructor].
  assert (Hlen : (3 <= length (byt (str (w ++ byt "." ++ byt v))))%nat).
  { rewrite byt_str, !length_app. change (length (byt ".")) with 1%nat. destruct w as [|x w]; [by cbn in Hw|]. destruct (byt v) as [|y bv] eqn:E; [|cbn; lia].
    exfalso. apply Hv. rewrite <- (str_byt v), E. done. }
  split_and!; intros E; rewrite E in Hlen; vm_compute in Hlen; lia.
Qed.

(** ** Paths *)

Lemma plain_dot_data : plain_name ".data".
Proof. by apply (bool_decide_unpack _). Qed.
Lemma plain_dot_uploads : plain_name ".uploads".
Proof. by apply (bool_decide_unpack _). Qed.

Lemma bucket_dir s b : plain_bucket b -> getBucketDir s b = rootDir s ++ [b].
Proof. intros [H _]. by apply Join_name. Qed.

Lemma data_path s b k v : plain_bucket b -> clean_key k -> plain_id v ->
  getObjectDataPath s b k v = rootDir s ++ b :: ".data" :: Split (k +:+ "." +:+ v) "/".
Proof.
  intros Hb Hk Hv. unfold getObjectDataPath. destruct Hv as (? & ? & ? & Hc) eqn:E. rewrite Hc. rewrite bucket_dir by done.
  change [".data"; k +:+ "." +:+ v] with ([".data"] ++ [k +:+ "." +:+ v]).
  rewrite Join_path_app, (Join_name _ _ plain_dot_data), Join_key by (by apply clean_key_version).
  by rewrite <- !app_assoc.
Qed.

Lemma upload_dir s b u : plain_bucket b -> plain_name u -> getMultipartUploadDir s b u = rootDir s ++ [b; ".uploads"; u].
Proof.
  intros Hb Hu. unfold getMultipartUploadDir. rewrite bucket_dir by done. change [".uploads"; u] with ([".uploads"] ++ [u]).
  rewrite Join_path_app, (Join_name _ _ plain_dot_uploads), Join_name by done. by rewrite <- !app_assoc.
Qed.

(** Version identifiers without a dot are read back from the path. *)
Lemma version_name_inj k v k' v' : plain_id v -> plain_id v' -> k +:+ "." +:+ v = k' +:+ "." +:+ v' -> k = k' /\ v = v'.
Proof.
  intros (_ & _ & Hv & _) (_ & _ & Hv' & _) H. apply (f_equal byt) in H. rewrite !byt_app in H. cbn in H.
  apply last_app_inj in H as [H1 H2]; [|done..]. split; by apply byt_inj.
Qed.

Lemma data_path_inj s b k v b' k' v' :
  plain_bucket b -> clean_key k -> plain_id v -> plain_bucket b' -> clean_key k' -> plain_id v' ->
  getObjectDataPath s b k v = getObjectDataPath s b' k' v' -> b = b' /\ k = k' /\ v = v'.
Proof.
  intros Hb Hk Hv Hb' Hk' Hv' H. rewrite !data_path in H by done. apply app_inv_head in H. injection H as -> H.
  apply Split_inj in H. apply version_name_inj in H as [-> ->]; done.
Qed.

Lemma below_app (r p q : path) : below (r ++ p) (r ++ q) <-> below p q.
Proof. unfold below. split; [intros [x H]|intros [x ->]; exists x; by rewrite app_assoc]. rewrite <- app_assoc in H. apply app_inv_head in H. by exists x. Qed.

Lemma data_not_in_bucket s b b' k v : plain_bucket b -> plain_bucket b' -> clean_key k -> plain_id v -> b <> b' ->
  ~ below (getBucketDir s b) (getObjectDataPath s b' k v).
Proof. intros Hb Hb' Hk Hv Hne. rewrite bucket_dir, data_path, below_app by done. intros [x H]. by injection H as ->. Qed.

Lemma data_not_in_uploads s b b' u k v : plain_bucket b -> plain_bucket b' -> plain_name u -> clean_key k -> plain_id v ->
  ~ below (getMultipartUploadDir s b u) (getObjectDataPath s b' k v).
Proof. intros Hb Hb' Hu Hk Hv. rewrite upload_dir, data_path, below_app by done. intros [x H]. done. Qed.

(** ** Database keys *)

Lemma object_key_inj b k b' k' : plain_bucket b -> plain_bucket b' -> object_key b k = object_key b' k' -> b = b' /\ k = k'.
Proof.
  intros [_ Hb] [_ Hb'] H. apply (f_equal byt) in H. unfold object_key in H. rewrite !byt_app in H. cbn in H.
  apply first_app_inj in H as [H1 H2]; [|done..]. split; by apply byt_inj.
Qed.

Lemma object_key_prefix b b' k : plain_bucket b -> plain_bucket b' -> HasPrefix (object_key b' k) (b +:+ ":") = true <-> b' = b.
Proof.
  intros Hb Hb'. rewrite HasPrefix_iff. split.
  - intros [r H]. unfold object_key in H. rewrite str_app_assoc in H. by apply object_key_inj in H as [-> _].
  - intros ->. exists k. unfold object_key. by rewrite str_app_assoc.
Qed.

Lemma object_key_cut b k : plain_bucket b -> SplitN2 (object_key b k) ":" = [b; k].
Proof.
  intros [_ Hb]. by apply cut_colon.
Qed.

(** ** Identifiers *)

Definition id_byte (c : ascii) : bool := isDigitb c || bool_decide (c ∈ ["a"; "b"; "c"; "d"; "e"; "f"; "-"]%char).

Lemma hex_digit_id n : (n < 16)%N -> id_byte (hex_digit n) = true /\ hex_digit n <> "-"%char.
Proof.
  intros H. assert (Hn : n ∈ N.of_nat <$> seq 0 16).
  { apply list_elem_of_fmap. exists (N.to_nat n). rewrite N2Nat.id. split; [done|]. apply elem_of_seq. lia. }
  cbn in Hn. repeat (apply elem_of_cons in Hn as [->|Hn]; [by split|]). by apply not_elem_of_nil in Hn.
Qed.

Lemma hex_bytes b : forallb id_byte (byt (hex b)) = true.
Proof.
  unfold hex. rewrite byt_str. induction b as [|c b IH]; [done|]. cbn.
  pose proof (N_ascii_bounded c) as Hc.
  destruct (hex_digit_id (N_of_ascii c / 16)) as [-> _]; [apply N.Div0.div_lt_upper_bound; lia|].
  destruct (hex_digit_id (N_of_ascii c mod 16)) as [-> _]; [apply N.mod_lt; lia|]. done.
Qed.

Lemma uuid_bytes c i : forallb id_byte (byt (generateUUID c i)) = true.
Proof. unfold generateUUID. rewrite !byt_app, !forallb_app, !hex_bytes. done. Qed.

Lemma uuid_no c i x : id_byte x = false -> x ∉ byt (generateUUID c i).
Proof. intros Hx H. pose proof (uuid_bytes c i) as Hb. rewrite forallb_forall in Hb. specialize (Hb x). rewrite <- list_elem_of_In in Hb. rewrite Hb in Hx; done. Qed.

Lemma uuid_plain c i : plain_id (generateUUID c i).
Proof.
  split_and!; [|by apply uuid_no..|].
  - intros E. pose proof (f_equal (fun s => length (byt s)) E) as H. unfold generateUUID in H. rewrite !byt_app, !length_app in H.
    change (length (byt "-")) with 1%nat in H. change (length (byt "")) with 0%nat in H. lia.
  - apply not_true_is_false. rewrite HasPrefix_iff. intros [r H]. apply (uuid_no c i "s"%char); [done|]. rewrite H, byt_app. apply elem_of_app. left.
    by apply (bool_decide_unpack _).
Qed.

Lemma uuid_not_null c i : generateUUID c i <> "null".
Proof. intros H. apply (uuid_no c i "n"%char); [done|]. rewrite H. by apply (bool_decide_unpack _). Qed.
Lemma uuid_nonempty c i : generateUUID c i <> "".
Proof. by destruct (uuid_plain c i). Qed.

Lemma uuid_name c i : plain_name (generateUUID c i).
Proof.
  destruct (uuid_plain c i) as (H1 & H2 & H3 & _). split_and!; [done| | |done]; intros E; rewrite E in H3; apply H3; by apply (bool_decide_unpack _).
Qed.

(** ** Paths of parts *)

Lemma part_path s b u n : plain_bucket b -> plain_name u ->
  getPartPath s b u n = rootDir s ++ [b; ".uploads"; u] ++ (if decide (FormatInt n = "") then [] else [FormatInt n]).
Proof.
  intros Hb Hu. unfold getPartPath. rewrite upload_dir by done.
  pose proof (FormatInt_without n) as Hno.
  rewrite (app_assoc (rootDir s)). unfold Join_path. cbn [fold_left]. rewrite Split_name by (by apply Hno). cbn [fold_left]. unfold clean_step.
  case_decide as E; [rewrite bool_decide_true by tauto; by rewrite app_nil_r|].
  assert (Hdot : "."%char ∉ byt (FormatInt n)) by by apply Hno.
  rewrite bool_decide_false; [rewrite bool_decide_false; [done|]|].
  - intros E'. apply Hdot. rewrite E'. by apply (bool_decide_unpack _).
  - intros [E'|E']; [done|]. apply Hdot. rewrite E'. by apply (bool_decide_unpack _).
Qed.

Lemma part_path_inj s b u n b' u' n' : plain_bucket b -> plain_name u -> plain_bucket b' -> plain_name u' ->
  getPartPath s b u n = getPartPath s b' u' n' -> b = b' /\ u = u' /\ n = n'.
Proof.
  intros Hb Hu Hb' Hu' H. rewrite !part_path in H by done. apply app_inv_head in H. injection H as -> -> H.
  split; [done|]. split; [done|]. apply (inj pretty). unfold FormatInt in H. repeat case_decide; congruence.
Qed.

Lemma part_below s b u n : plain_bucket b -> plain_name u -> below (getMultipartUploadDir s b u) (getPartPath s b u n).
Proof. intros Hb Hu. rewrite part_path, upload_dir, below_app by done. by eexists. Qed.

Lemma part_not_data s b u n b' k v : plain_bucket b -> plain_name u -> plain_bucket b' -> clean_key k -> plain_id v ->
  getPartPath s b u n <> getObjectDataPath s b' k v.
Proof. intros Hb Hu Hb' Hk Hv. rewrite part_path, data_path by done. intros H. by apply app_inv_head in H. Qed.

(** ** Reading a version *)

Section Store.
Context `{codec : Codec}.

Definition readable (s : LocalStore) (b k : string) (v : ObjectVersion) (c : bytes) : Prop :=
  match open_version s b k v with inr r => ReadAll r = inr c | inl _ => False end.

(** Versions with the same stored bytes. *)
Definition same_payload (v v' : ObjectVersion) : Prop :=
  VersionID v' = VersionID v /\ Compressed v' = Compressed v /\ Checksum v' = Checksum v /\ IsDeleteMarker v' = IsDeleteMarker v /\ Size v' = Size v.

(** The configuration of the store. *)
Definition same_config (s s' : LocalStore) : Prop := encryptionKey s' = encryptionKey s /\ rootDir s' = rootDir s.

Lemma config_path s s' b k v : same_config s s' -> getObjectDataPath s' b k v = getObjectDataPath s b k v.
Proof. intros [_ H]. unfold getObjectDataPath, getBucketDir. by rewrite H. Qed.

Lemma config_part s s' b u n : same_config s s' -> getPartPath s' b u n = getPartPath s b u n.
Proof. intros [_ H]. unfold getPartPath, getMultipartUploadDir, getBucketDir. by rewrite H. Qed.

Lemma readable_frame s s' b k v v' c :
  same_config s s' -> same_payload v v' ->
  ReadFile (getObjectDataPath s b k (VersionID v)) (fs s') = ReadFile (getObjectDataPath s b k (VersionID v)) (fs s) ->
  readable s b k v c -> readable s' b k v' c.
Proof.
  intros Hs (H1 & H2 & H3 & _) Hf. unfold readable, open_version, checked. rewrite (config_path s s') by done. rewrite H1, Hf, H2, H3. by destruct Hs as [-> _].
Qed.

Lemma decrypt_encrypt key nonce x : length nonce = NonceSize -> decryptPayload key (encryptPayload key nonce x) = Some x.
Proof.
  intros Hn. unfold decryptPayload, encryptPayload. rewrite length_app, Hn.
  destruct (Nat.ltb_spec (NonceSize + length (Seal key nonce x)) NonceSize); [lia|].
  rewrite <- Hn, take_app_length, drop_app_length. apply Open_Seal.
Qed.

(** What is written can be read. *)
Lemma readable_written s b k v plaintext nonce :
  length nonce = NonceSize -> Checksum v = hex (blake3 plaintext) ->
  ReadFile (getObjectDataPath s b k (VersionID v)) (fs s) = Some (encode_payload s nonce (Compressed v) plaintext) ->
  readable s b k v plaintext.
Proof.
  intros Hn Hsum Hf. unfold readable, open_version. rewrite Hf. unfold encode_payload, checked. rewrite Hsum.
  destruct (encryptionKey s) as [key|]; [rewrite decrypt_encrypt by done|]; destruct (Compressed v); rewrite ?DecodeAll_EncodeAll;
    rewrite ?(bool_decide_true (hex (blake3 plaintext) = hex (blake3 plaintext))) by done; rewrite ?andb_false_r; try done.
  unfold ReadAll. cbn. case_bool_decide; [done|]. by rewrite bool_decide_true.
Qed.

(** ** The invariant *)

Definition decode_part (s : LocalStore) (stored : bytes) : option bytes :=
  match encryptionKey s with Some k => decryptPayload k stored | None => Some stored end.

(** What the history says: the content of each version and of each part. *)
Record History := mkHistory {
  contents : gmap (string * string * string) bytes;
  uploaded : gmap (string * string * Z) bytes }.

Definition version_ok (h : History) (s : LocalStore) (b k : string) (v : ObjectVersion) : Prop :=
  plain_id (VersionID v) /\ (IsDeleteMarker v = false -> exists c, contents h !! (b, k, VersionID v) = Some c /\ readable s b k v c /\ Size v = Z.of_nat (length c)).

(** The latest version is the first one. *)
Definition latest_first (vs : list ObjectVersion) : Prop :=
  match vs with [] => False | v :: vs => IsLatest v = true /\ Forall (fun v => IsLatest v = false) vs end.

Record object_ok (h : History) (s : LocalStore) (b k : string) (vs : list ObjectVersion) : Prop := {
  ok_distinct : NoDup (VersionID <$> vs);
  ok_versions : Forall (version_ok h s b k) vs;
  ok_latest : latest_first vs }.

Record intact (h : History) (s : LocalStore) : Prop := {
  intact_objects : forall x om, objects s !! x = Some om ->
    exists b k, x = object_key b k /\ plain_bucket b /\ clean_key k /\ is_Some (buckets s !! b) /\ object_ok h s b k (Versions om);
  intact_plain : forall b B, buckets s !! b = Some B -> plain_bucket b /\ ContentAddressable B = false;
  intact_parts : forall b u n stored, plain_bucket b -> plain_name u -> ReadFile (getPartPath s b u n) (fs s) = Some stored ->
    exists c, uploaded h !! (b, u, n) = Some c /\ decode_part s stored = Some c }.

(** The object [b], [k] apart, files of versions are the same. *)
Definition others_kept (s : LocalStore) (f : disk) (b k : string) : Prop :=
  forall b' k' v, plain_bucket b' -> clean_key k' -> plain_id v -> (b', k') <> (b, k) ->
    ReadFile (getObjectDataPath s b' k' v) f = ReadFile (getObjectDataPath s b' k' v) (fs s).

(** Parts are the same or gone. *)
Definition parts_kept (s : LocalStore) (f : disk) : Prop :=
  forall b u n stored, plain_bucket b -> plain_name u -> ReadFile (getPartPath s b u n) f = Some stored ->
    ReadFile (getPartPath s b u n) (fs s) = Some stored.

Lemma version_ok_frame h h' s s' b k v v' :
  same_config s s' -> same_payload v v' ->
  ReadFile (getObjectDataPath s b k (VersionID v)) (fs s') = ReadFile (getObjectDataPath s b k (VersionID v)) (fs s) ->
  contents h' !! (b, k, VersionID v) = contents h !! (b, k, VersionID v) ->
  version_ok h s b k v -> version_ok h' s' b k v'.
Proof.
  intros Hs Hp Hf Hc [Hid Hv]. pose proof Hp as (E1 & _ & _ & E4 & E5). split; [by rewrite E1|]. rewrite E1, E4, E5. intros Hm.
  destruct (Hv Hm) as (c & H1 & H2 & H3). exists c. split; [congruence|]. split; [|done]. by eapply readable_frame.
Qed.

(** An operation on one object. *)
Lemma intact_update h h' s s' b k :
  intact h s -> plain_bucket b -> clean_key k -> same_config s s' -> buckets s' = buckets s -> uploaded h' = uploaded h ->
  others_kept s (fs s') b k -> parts_kept s (fs s') ->
  (forall b' k' v, (b', k') <> (b, k) -> contents h' !! (b', k', v) = contents h !! (b', k', v)) ->
  (forall x, x <> object_key b k -> objects s' !! x = objects s !! x) ->
  (forall om, objects s' !! object_key b k = Some om -> is_Some (buckets s !! b) /\ object_ok h' s' b k (Versions om)) ->
  intact h' s'.
Proof.
  intros [Ho Hc Hp] Hb Hk Hs Hbs Hu Hoth Hpart Hcont Hobj Hnew. split.
  - intros x om Hx. destruct (decide (x = object_key b k)) as [->|Hne].
    + destruct (Hnew om Hx) as [H1 H2]. exists b, k. rewrite Hbs. done.
    + rewrite Hobj in Hx by done. destruct (Ho x om Hx) as (b' & k' & -> & Hb' & Hk' & HB & [H1 H2 H3]).
      assert (Hbk : (b', k') <> (b, k)) by congruence.
      exists b', k'. rewrite Hbs. split_and!; try done. split; try done.
      apply Forall_forall. intros v Hv. rewrite Forall_forall in H2. specialize (H2 v Hv).
      eapply version_ok_frame; [exact Hs|by split_and!| |by apply Hcont|exact H2]. apply Hoth; try done. by destruct H2.
  - intros b' B. rewrite Hbs. apply Hc.
  - intros b' u n stored Hb' Hu' Hr. rewrite (config_part s s') in Hr by done.
    destruct (Hp b' u n stored) as (c & H1 & H2); [done..|by apply Hpart|]. exists c. rewrite Hu. split; [done|].
    unfold decode_part in *. by destruct Hs as [-> _].
Qed.

(** ** Frames of the disk *)

Lemma others_refl s b k : others_kept s (fs s) b k.
Proof. done. Qed.
Lemma parts_refl s : parts_kept s (fs s).
Proof. by intros b u n st. Qed.

Lemma others_mkdir s p f f' b k : others_kept s f b k -> MkdirAll p f = Some f' -> others_kept s f' b k.
Proof. intros H Hm b' k' v Hb Hk Hv Hne. rewrite (MkdirAll_files _ _ _ Hm). by apply H. Qed.
Lemma parts_mkdir s p f f' : parts_kept s f -> MkdirAll p f = Some f' -> parts_kept s f'.
Proof. intros H Hm b u n st Hb Hu. rewrite (MkdirAll_files _ _ _ Hm). by apply H. Qed.

Lemma others_write s f f' b k v data : plain_bucket b -> clean_key k -> plain_id v ->
  others_kept s f b k -> WriteFile (getObjectDataPath s b k v) data f = Some f' -> others_kept s f' b k.
Proof.
  intros Hb Hk Hv H Hw b' k' v' Hb' Hk' Hv' Hne. rewrite (WriteFile_files _ _ _ _ _ Hw). rewrite decide_False; [by apply H|].
  intros E. apply data_path_inj in E as (-> & -> & _); done.
Qed.
Lemma parts_write s f f' b k v data : plain_bucket b -> clean_key k -> plain_id v ->
  parts_kept s f -> WriteFile (getObjectDataPath s b k v) data f = Some f' -> parts_kept s f'.
Proof.
  intros Hb Hk Hv H Hw b' u n st Hb' Hu Hr. rewrite (WriteFile_files _ _ _ _ _ Hw) in Hr. rewrite decide_False in Hr; [by apply H|]. by apply part_not_data.
Qed.

Lemma others_remove s f b k v : plain_bucket b -> clean_key k -> plain_id v -> others_kept s f b k -> others_kept s (Remove (getObjectDataPath s b k v) f) b k.
Proof.
  intros Hb Hk Hv H b' k' v' Hb' Hk' Hv' Hne. rewrite Remove_files; [by apply H|]. intros E. apply data_path_inj in E as (-> & -> & _); done.
Qed.
Lemma parts_remove s f b k v : plain_bucket b -> clean_key k -> plain_id v -> parts_kept s f -> parts_kept s (Remove (getObjectDataPath s b k v) f).
Proof. intros Hb Hk Hv H b' u n st Hb' Hu. rewrite Remove_files; [by apply H|]. by apply part_not_data. Qed.

Lemma others_drop_upload s f b k b' u : plain_bucket b' -> plain_name u -> others_kept s f b k ->
  others_kept s (RemoveAll (getMultipartUploadDir s b' u) f) b k.
Proof. intros Hb' Hu H b'' k'' v Hb'' Hk'' Hv Hne. rewrite RemoveAll_files; [by apply H|]. by apply data_not_in_uploads. Qed.

Lemma parts_removeall s f d : parts_kept s f -> parts_kept s (RemoveAll d f).
Proof.
  intros H b u n st Hb Hu Hr. apply (H b u n st Hb Hu). revert Hr. destruct (decide (below d (getPartPath s b u n))).
  - by rewrite RemoveAll_gone.
  - by rewrite RemoveAll_files.
Qed.
End Store.

(** ** Preservation by every operation *)

(** ** Lists of versions *)

Abbreviation ids vs := (@fmap list _ _ _ VersionID vs).

(** Some versions are left, with their payloads. *)
Definition thinned (vs vs' : list ObjectVersion) : Prop :=
  ids vs' `sublist_of` ids vs /\ forall v', v' ∈ vs' -> exists v, v ∈ vs /\ same_payload v v'.

Lemma same_payload_refl v : same_payload v v.
Proof. done. Qed.

Lemma thinned_refl vs : thinned vs vs.
Proof. split; [done|]. intros v H. by exists v. Qed.

Lemma thinned_trans a b c : thinned a b -> thinned b c -> thinned a c.
Proof.
  intros [H1 H2] [H3 H4]. split; [by etrans|]. intros v Hv. destruct (H4 v Hv) as (v1 & Hv1 & S1). destruct (H2 v1 Hv1) as (v2 & Hv2 & S2).
  exists v2. split; [done|]. unfold same_payload in *. intuition congruence.
Qed.

Lemma thinned_sublist vs vs' : vs' `sublist_of` vs -> thinned vs vs'.
Proof.
  intros H. split; [|intros v Hv; exists v; split; [by eapply elem_of_sublist|done]]. induction H; cbn; by constructor.
Qed.

Lemma thinned_map f vs : (forall v, same_payload v (f v)) -> thinned vs (f <$> vs).
Proof.
  intros H. split.
  - assert (ids (f <$> vs) = ids vs) as ->; [|done]. rewrite <- list_fmap_compose. apply list_fmap_ext. intros i v _. by destruct (H v) as (E & _).
  - intros v' (v & -> & Hv)%list_elem_of_fmap. by exists v.
Qed.

Lemma thinned_update_first p f vs : (forall v, same_payload v (f v)) -> thinned vs (update_first p f vs).
Proof.
  intros H. induction vs as [|v vs [IH1 IH2]]; [apply thinned_refl|]. cbn. destruct (p v).
  - split; [cbn; destruct (H v) as (-> & _); done|]. intros v' [->|Hv]%elem_of_cons; [exists v; split; [left|done]|].
    exists v'. split; [by right|done].
  - split; [by constructor|]. intros v' [->|Hv]%elem_of_cons; [exists v; split; [left|done]|].
    destruct (IH2 v' Hv) as (w & Hw & ?). exists w. split; [by right|done].
Qed.

Lemma thinned_insert i v v' vs : vs !! i = Some v -> same_payload v v' -> thinned vs (<[i := v']> vs).
Proof.
  intros Hi H. split.
  - rewrite list_fmap_insert, list_insert_id; [done|]. rewrite list_lookup_fmap, Hi. cbn. by destruct H as (-> & _).
  - intros w Hw. apply list_elem_of_lookup in Hw as [j Hj]. destruct (decide (i = j)) as [<-|Hne].
    + rewrite list_lookup_insert_eq in Hj by (by eapply lookup_lt_Some). injection Hj as <-. exists v. split; [by eapply list_elem_of_lookup_2|done].
    + rewrite list_lookup_insert_ne in Hj by done. exists w. split; [by eapply list_elem_of_lookup_2|done].
Qed.

Lemma thinned_mark_first vs : thinned vs (mark_first vs).
Proof.
  destruct vs as [|v vs]; [apply thinned_refl|]. split; [done|]. cbn. intros w [->|Hw]%elem_of_cons.
  - exists v. split; [left|done].
  - exists w. split; [by right|done].
Qed.

Lemma drop_null_sublist vs : drop_null vs `sublist_of` vs.
Proof. induction vs as [|v vs IH]; cbn; [done|]. destruct (is_null v); by constructor. Qed.

Lemma drop_null_gone vs : NoDup (ids vs) -> "null" ∉ ids (drop_null vs).
Proof.
  induction vs as [|v vs IH]; cbn; [intros _; apply not_elem_of_nil|]. intros [Hv Hnd]%NoDup_cons. unfold is_null. case_bool_decide as E; [by rewrite <- E|].
  cbn. apply not_elem_of_cons. split; [congruence|by apply IH].
Qed.

Lemma find_index_lookup vid vs i : find_index vid vs = Some i -> exists v, vs !! i = Some v /\ VersionID v = vid.
Proof.
  revert i. induction vs as [|v vs IH]; intros i; cbn; [done|]. unfold by_id. case_bool_decide as E; [intros [= <-]; eauto|].
  intros H. apply fmap_Some in H as (j & Hj & ->). by apply IH.
Qed.

(** Deleting one of distinct versions leaves no other with its name. *)
Lemma delete_id_gone vs i v : NoDup (ids vs) -> vs !! i = Some v -> VersionID v ∉ ids (delete i vs).
Proof.
  intros Hnd Hi Hin. apply list_elem_of_fmap in Hin as (w & Hw & Hin). apply list_elem_of_lookup in Hin as [j Hj].
  assert (Hj' : ids vs !! (if decide (j < i)%nat then j else S j) = Some (VersionID v)).
  { rewrite list_lookup_fmap, Hw. case_decide; [rewrite list_lookup_delete_lt in Hj by lia|rewrite list_lookup_delete_ge in Hj by lia]; by rewrite Hj. }
  assert (Hi' : ids vs !! i = Some (VersionID v)) by by rewrite list_lookup_fmap, Hi.
  pose proof (NoDup_lookup _ _ _ _ Hnd Hi' Hj'). case_decide; lia.
Qed.

Section Steps.
Context `{codec : Codec}.

Lemma intact_lookup h s b k om :
  intact h s -> plain_bucket b -> objects s !! object_key b k = Some om ->
  clean_key k /\ is_Some (buckets s !! b) /\ object_ok h s b k (Versions om).
Proof.
  intros Hi Hb Hom. destruct (intact_objects _ _ Hi _ _ Hom) as (b' & k' & E & Hb' & Hk' & HB & Hok).
  apply object_key_inj in E as [<- <-]; done.
Qed.

(** Only the disk changes. *)
Lemma intact_disk h s f :
  intact h s -> (forall b k v, plain_bucket b -> clean_key k -> plain_id v -> ReadFile (getObjectDataPath s b k v) f = ReadFile (getObjectDataPath s b k v) (fs s)) ->
  parts_kept s f -> intact h (with_fs f s).
Proof.
  intros [Ho Hc Hp] Hf Hpart. split; [|done|].
  - intros x om Hx. destruct (Ho x om Hx) as (b & k & -> & Hb & Hk & HB & [H1 H2 H3]). exists b, k. split_and!; try done. split; try done.
    eapply Forall_impl; [exact H2|]. intros v Hv. apply (version_ok_frame h h s _ b k v v); [by split|apply same_payload_refl| |done|exact Hv].
    apply Hf; try done. by destruct Hv.
  - intros b u n stored Hb Hu Hr. destruct (Hp b u n stored) as (c & ? & ?); [done..|by apply Hpart|]. by exists c.
Qed.

Lemma intact_mkdir h s p f : intact h s -> MkdirAll p (fs s) = Some f -> intact h (with_fs f s).
Proof.
  intros Hi Hm. apply intact_disk; [done| |eapply parts_mkdir; [apply parts_refl|done]]. intros b k v _ _ _. apply (MkdirAll_files _ _ _ Hm).
Qed.

Lemma versions_thin h h' s s' b k vs vs' :
  object_ok h s b k vs -> thinned vs vs' -> same_config s s' ->
  (forall vid, vid ∈ ids vs' -> ReadFile (getObjectDataPath s b k vid) (fs s') = ReadFile (getObjectDataPath s b k vid) (fs s)) ->
  (forall vid, vid ∈ ids vs' -> contents h' !! (b, k, vid) = contents h !! (b, k, vid)) ->
  NoDup (ids vs') /\ Forall (version_ok h' s' b k) vs'.
Proof.
  intros [H1 H2 _] [Ht1 Ht2] Hs Hf Hc. split; [by eapply sublist_NoDup|]. apply Forall_forall. intros v' Hv'.
  destruct (Ht2 v' Hv') as (v & Hv & Hp). rewrite Forall_forall in H2. pose proof Hp as (E & _).
  assert (Hin : VersionID v ∈ ids vs') by (rewrite <- E; by apply list_elem_of_fmap_2).
  eapply version_ok_frame; [exact Hs|exact Hp|by apply Hf|by apply Hc|by apply H2].
Qed.

(** Versions disappear or change their flags; files of the others stay. *)
Lemma intact_thin h s b k om om' f :
  intact h s -> plain_bucket b -> objects s !! object_key b k = Some om -> thinned (Versions om) (Versions om') -> latest_first (Versions om') ->
  others_kept s f b k -> parts_kept s f ->
  (forall vid, vid ∈ ids (Versions om') -> ReadFile (getObjectDataPath s b k vid) f = ReadFile (getObjectDataPath s b k vid) (fs s)) ->
  intact h (writeObjectMeta b k om' (with_fs f s)).
Proof.
  intros Hi Hb Hom Ht Hl Ho Hp Hf. destruct (intact_lookup _ _ _ _ _ Hi Hb Hom) as (Hk & HB & Hok).
  apply (intact_update h h s _ b k Hi Hb Hk); try done.
  - intros x Hx. cbn. by rewrite lookup_insert_ne.
  - intros om''. cbn. rewrite lookup_insert_eq. intros [= <-]. split; [done|].
    destruct (versions_thin h h s (writeObjectMeta b k om' (with_fs f s)) b k (Versions om) (Versions om') Hok Ht) as [H1 H2]; [done|done|done|]. by split.
Qed.

Lemma intact_drop h s b k f :
  intact h s -> plain_bucket b -> clean_key k -> others_kept s f b k -> parts_kept s f -> intact h (deleteObjectMeta b k (with_fs f s)).
Proof.
  intros Hi Hb Hk Ho Hp. apply (intact_update h h s _ b k Hi Hb Hk); try done.
  - intros x Hx. cbn. by rewrite lookup_delete_ne.
  - intros om''. cbn. by rewrite lookup_delete_eq.
Qed.

(** A marker in front: the identifier is new, no file is needed. *)
Lemma intact_marker h s b k om vs m f :
  intact h s -> plain_bucket b -> objects s !! object_key b k = Some om -> thinned (Versions om) vs ->
  Forall (fun v => IsLatest v = false) vs -> IsLatest m = true -> IsDeleteMarker m = true -> plain_id (VersionID m) -> VersionID m ∉ ids vs ->
  others_kept s f b k -> parts_kept s f ->
  (forall vid, vid ∈ ids vs -> ReadFile (getObjectDataPath s b k vid) f = ReadFile (getObjectDataPath s b k vid) (fs s)) ->
  intact h (writeObjectMeta b k (mkMeta (om_Key om) (m :: vs)) (with_fs f s)).
Proof.
  intros Hi Hb Hom Ht Hl Hm Hd Hid Hnew Ho Hp Hf. destruct (intact_lookup _ _ _ _ _ Hi Hb Hom) as (Hk & HB & Hok).
  set (s' := writeObjectMeta b k (mkMeta (om_Key om) (m :: vs)) (with_fs f s)).
  apply (intact_update h h s _ b k Hi Hb Hk); try done.
  - intros x Hx. cbn. by rewrite lookup_insert_ne.
  - intros om''. cbn. rewrite lookup_insert_eq. intros [= <-]. split; [done|].
    destruct (versions_thin h h s s' b k (Versions om) vs Hok Ht) as [H1 H2]; [done|done|done|]. cbn [Versions]. split.
    + cbn. by constructor.
    + constructor; [|done]. split; [done|congruence].
    + done.
Qed.

(** A new version in front, with its file written. *)
Lemma intact_add h s b k vs om' v plaintext nonce f :
  intact h s -> plain_bucket b -> clean_key k -> is_Some (buckets s !! b) ->
  (match objects s !! object_key b k with Some om => thinned (Versions om) vs | None => vs = [] end) ->
  Forall (fun v => IsLatest v = false) vs -> IsLatest v = true -> plain_id (VersionID v) -> VersionID v ∉ ids vs -> Size v = Z.of_nat (length plaintext) ->
  Checksum v = hex (blake3 plaintext) -> length nonce = NonceSize ->
  ReadFile (getObjectDataPath s b k (VersionID v)) f = Some (encode_payload s nonce (Compressed v) plaintext) ->
  others_kept s f b k -> parts_kept s f ->
  (forall vid, vid ∈ ids vs -> ReadFile (getObjectDataPath s b k vid) f = ReadFile (getObjectDataPath s b k vid) (fs s)) ->
  Versions om' = v :: vs ->
  intact (mkHistory (<[(b, k, VersionID v) := plaintext]> (contents h)) (uploaded h)) (writeObjectMeta b k om' (with_fs f s)).
Proof.
  intros Hi Hb Hk HB Hvs Hl Hm Hid Hnew Hsize Hsum Hn Hr Ho Hp Hf Hom'.
  set (h' := mkHistory _ _). set (s' := writeObjectMeta b k om' (with_fs f s)).
  apply (intact_update h h' s s' b k Hi Hb Hk); try done.
  - intros b' k' v' Hne. cbn. rewrite lookup_insert_ne; [done|]. congruence.
  - intros x Hx. cbn. by rewrite lookup_insert_ne.
  - intros om''. cbn. rewrite lookup_insert_eq. intros [= <-]. split; [done|]. rewrite Hom'.
    assert (NoDup (ids vs) /\ Forall (version_ok h' s' b k) vs) as [H1 H2].
    { destruct (objects s !! object_key b k) as [om|] eqn:E; [|subst vs; by repeat constructor].
      destruct (intact_lookup _ _ _ _ _ Hi Hb E) as (_ & _ & Hok). apply (versions_thin h h' s s' b k (Versions om) vs Hok Hvs); [done|done|].
      intros vid Hvid. cbn. rewrite lookup_insert_ne; [done|]. congruence. }
    split; [cbn; by constructor| |done].
    constructor; [|done]. split; [done|]. intros _. exists plaintext. split; [cbn; by rewrite lookup_insert_eq|].
    split; [|done]. by apply (readable_written s' b k v plaintext nonce).
Qed.

(** Only settings of buckets change, and none becomes content-addressed. *)
Lemma intact_settings h s s' :
  intact h s -> same_config s s' -> fs s' = fs s -> objects s' = objects s ->
  (forall b, is_Some (buckets s !! b) -> is_Some (buckets s' !! b)) ->
  (forall b B, buckets s' !! b = Some B -> plain_bucket b /\ ContentAddressable B = false) -> intact h s'.
Proof.
  intros [Ho Hc Hp] Hs Hf Hobj HB HC. split; [|done|].
  - intros x om. rewrite Hobj. intros Hx. destruct (Ho x om Hx) as (b & k & -> & Hb & Hk & HB' & [H1 H2 H3]). exists b, k.
    split_and!; try done; [by apply HB|]. split; try done.
    eapply Forall_impl; [exact H2|]. intros v Hv. by eapply version_ok_frame; [exact Hs|apply same_payload_refl|by rewrite Hf|done|exact Hv].
  - intros b u n stored Hb Hu. rewrite (config_part s s'), Hf by done. intros Hr. destruct (Hp b u n stored Hb Hu Hr) as (c & ? & Hd). exists c.
    split; [done|]. unfold decode_part in *. by destruct Hs as [-> _].
Qed.

Lemma intact_wal h c e s : intact h s -> intact h (writeWAL c e s).
Proof. intros H. unfold writeWAL. destruct (is_restore c); [done|]. eapply intact_settings; [exact H|done..|by apply H]. Qed.

Lemma objects_wal c e s : objects (writeWAL c e s) = objects s.
Proof. unfold writeWAL. by destruct (is_restore c). Qed.

(** ** Put *)

Definition old_versions (s : LocalStore) (b k : string) : list ObjectVersion :=
  match objects s !! object_key b k with Some om => Versions om | None => [] end.

(** A new identifier of the call is not in use for the object. *)
Definition fresh_id (c : Call) (b k : string) (s : LocalStore) : Prop := generateUUID c 0 ∉ ids (old_versions s b k).

#[global] Instance fresh_id_dec c b k s : Decision (fresh_id c b k s).
Proof. unfold fresh_id. apply _. Defined.

Definition record_content (b k vid : string) (p : bytes) (h : History) : History := mkHistory (<[(b, k, vid) := p]> (contents h)) (uploaded h).

Lemma add_version_eq s b k keep v p :
  (keep = true \/ p = getObjectDataPath s b k "null") ->
  exists om', Versions om' = v :: (set_latest false <$> (if keep then old_versions s b k else drop_null (old_versions s b k))) /\
    add_version s b k keep v p = writeObjectMeta b k om' (with_fs (fs s) s).
Proof.
  intros Hkeep. unfold add_version, readObjectMeta, old_versions.
  assert (E : forall x, (if negb keep && x && negb (bool_decide (getObjectDataPath s b k "null" = p)) then Remove (getObjectDataPath s b k "null") (fs s) else fs s) = fs s).
  { intros x. destruct Hkeep as [->| ->]; [done|]. rewrite bool_decide_true by done. cbn. by rewrite andb_false_r. }
  destruct (objects s !! object_key b k); rewrite E; eexists; (split; [|reflexivity]); by destruct keep.
Qed.

Lemma thinned_cleared vs vs' : vs' `sublist_of` vs -> thinned vs (set_latest false <$> vs').
Proof. intros H. eapply thinned_trans; [by apply thinned_sublist|]. by apply thinned_map. Qed.

Lemma all_cleared vs : Forall (fun v => IsLatest v = false) (set_latest false <$> vs).
Proof. apply Forall_fmap, Forall_true. done. Qed.

Lemma ids_cleared vs : ids (set_latest false <$> vs) = ids vs.
Proof. by rewrite <- list_fmap_compose. Qed.

(** The common end of a put and of a completed upload. *)
Lemma intact_add_version h c s b k keep v plaintext f :
  intact h s -> plain_bucket b -> clean_key k -> is_Some (buckets s !! b) -> fresh_id c b k s ->
  VersionID v = (if keep : bool then generateUUID c 0 else "null") -> IsLatest v = true -> Size v = Z.of_nat (length plaintext) -> Checksum v = hex (blake3 plaintext) ->
  ReadFile (getObjectDataPath s b k (VersionID v)) f = Some (encode_payload s (nonce_of c) (Compressed v) plaintext) ->
  others_kept s f b k -> parts_kept s f ->
  (forall vid, plain_id vid -> vid <> VersionID v -> ReadFile (getObjectDataPath s b k vid) f = ReadFile (getObjectDataPath s b k vid) (fs s)) ->
  let s' := add_version (with_fs f s) b k keep v (getObjectDataPath s b k (VersionID v)) in
  intact (record_content b k (VersionID v) plaintext h) s' /\ exists om vs, objects s' !! object_key b k = Some om /\ Versions om = v :: vs.
Proof.
  intros Hi Hb Hk HB Hfresh Hid Hl Hsize Hsum Hr Ho Hp Hf s'.
  destruct (add_version_eq (with_fs f s) b k keep v (getObjectDataPath s b k (VersionID v))) as (om' & Hv & Hs').
  { rewrite Hid. destruct keep; [by left|by right]. }
  subst s'. rewrite Hs'. split; [|exists om'; eexists; split; [cbn; by rewrite lookup_insert_eq|exact Hv]].
  change (with_fs (fs (with_fs f s)) (with_fs f s)) with (with_fs f s). change (old_versions (with_fs f s) b k) with (old_versions s b k) in Hv.
  set (rest := if keep then old_versions s b k else drop_null (old_versions s b k)) in *.
  assert (Hsub : rest `sublist_of` old_versions s b k) by (subst rest; destruct keep; [done|apply drop_null_sublist]).
  assert (Hnew : VersionID v ∉ ids rest).
  { rewrite Hid. subst rest. destruct keep; [done|]. apply drop_null_gone. unfold old_versions.
    destruct (objects s !! object_key b k) eqn:E; [|constructor]. by destruct (intact_lookup _ _ _ _ _ Hi Hb E) as (_ & _ & [? _ _]). }
  apply (intact_add h s b k (set_latest false <$> rest) om' v plaintext (nonce_of c) f); try done.
  - unfold old_versions in Hsub. destruct (objects s !! object_key b k); [by apply thinned_cleared|]. by apply sublist_nil_r in Hsub as ->.
  - apply all_cleared.
  - rewrite Hid. destruct keep; [apply uuid_plain|apply null_plain].
  - by rewrite ids_cleared.
  - intros vid. rewrite ids_cleared. intros Hvid. apply Hf; [|by intros ->].
    unfold old_versions in Hsub. destruct (objects s !! object_key b k) eqn:E; [|apply sublist_nil_r in Hsub; rewrite Hsub in Hvid; by apply not_elem_of_nil in Hvid].
    destruct (intact_lookup _ _ _ _ _ Hi Hb E) as (_ & _ & [_ Hok _]). apply list_elem_of_fmap in Hvid as (w & -> & Hw).
    rewrite Forall_forall in Hok. by destruct (Hok w (elem_of_sublist _ _ _ Hw Hsub)).
Qed.

Lemma intact_PutObject h c b k reader size ct s r s' :
  intact h s -> plain_bucket b -> clean_key k -> ctx_versionID c = None -> fresh_id c b k s ->
  PutObject c b k reader size ct s = (r, s') ->
  match r with
  | inl _ => intact h s'
  | inr v => exists p, reader = Some p /\ intact (record_content b k (VersionID v) p h) s' /\ Checksum v = hex (blake3 p) /\
      exists om vs, objects s' !! object_key b k = Some om /\ Versions om = v :: vs
  end.
Proof.
  intros Hi Hb Hk Hctx Hfresh. unfold PutObject. destruct reader as [p|]; [|by intros [= <- <-]].
  destruct (_ && _); [by intros [= <- <-]|]. unfold readBucketMeta. destruct (buckets s !! b) as [B|] eqn:EB; [|by intros [= <- <-]].
  destruct (overwrite_locked _ _ _ _ _); [by intros [= <- <-]|]. destruct (quota_exceeded _ _ _ _ _); [by intros [= <- <-]|].
  rewrite Hctx, (proj2 (intact_plain _ _ Hi _ _ EB)). cbn [andb]. rewrite orb_false_r.
  set (keep := bool_decide (Versioning B = "Enabled")). set (vid := if keep then generateUUID c 0 else "null").
  assert (Hvid : plain_id vid) by (subst vid; destruct keep; [apply uuid_plain|apply null_plain]).
  destruct (MkdirAll _ _) as [f1|] eqn:Em; [|by intros [= <- <-]].
  destruct (WriteFile _ _ f1) as [f2|] eqn:Ew; [|intros [= <- <-]; by eapply intact_mkdir].
  set (v := mkVer vid _ _ _ _ _ _ _ _ _ _ _ _). intros [= <- <-]. exists p. split; [done|].
  change (with_fs f2 (with_fs f1 s)) with (with_fs f2 s).
  destruct (intact_add_version h c s b k keep v p f2 Hi Hb Hk) as [H1 H2]; try done.
  - rewrite (WriteFile_files _ _ _ _ _ Ew). by rewrite decide_True.
  - eapply others_write; [done|done|exact Hvid| |exact Ew]. eapply others_mkdir; [apply others_refl|done].
  - eapply parts_write; [done|done|exact Hvid| |exact Ew]. eapply parts_mkdir; [apply parts_refl|done].
  - intros vid' Hvid' Hne. rewrite (WriteFile_files _ _ _ _ _ Ew), decide_False; [apply (MkdirAll_files _ _ _ Em)|].
    intros E. apply data_path_inj in E as (_ & _ & E); done.
  - split; [by apply intact_wal|]. by rewrite objects_wal.
Qed.

(** ** The latest version *)

Lemma latest_delete vs i v :
  latest_first vs -> vs !! i = Some v ->
  let rest := if IsLatest v then mark_first (delete i vs) else delete i vs in rest = [] \/ latest_first rest.
Proof.
  destruct vs as [|w vs]; [done|]. intros [Hw Hvs] Hi. destruct i as [|i]; cbn in Hi.
  - injection Hi as <-. rewrite Hw. cbn. destruct vs as [|x vs]; [by left|right]. cbn. by apply Forall_cons in Hvs as [_ Hvs].
  - assert (Hv : IsLatest v = false) by (by eapply Forall_lookup in Hi; [|exact Hvs]). rewrite Hv. right. cbn. split; [done|]. by apply Forall_delete.
Qed.

Lemma latest_insert vs i v v' : latest_first vs -> vs !! i = Some v -> IsLatest v' = IsLatest v -> latest_first (<[i := v']> vs).
Proof.
  destruct vs as [|w vs]; [done|]. intros [Hw Hvs] Hi E. destruct i as [|i]; cbn in *.
  - injection Hi as <-. split; [congruence|done].
  - split; [done|]. apply Forall_insert; [done|]. rewrite E. by eapply Forall_lookup in Hi; [|exact Hvs].
Qed.

Lemma update_first_ext (P : ObjectVersion -> Prop) p f vs : (forall v, P v -> P (f v)) -> Forall P vs -> Forall P (update_first p f vs).
Proof. intros Hf. induction 1 as [|v vs Hv Hvs IH]; cbn; [done|]. destruct (p v); constructor; auto. Qed.

Lemma latest_update_first p f vs : (forall v, IsLatest (f v) = IsLatest v) -> latest_first vs -> latest_first (update_first p f vs).
Proof.
  intros Hf. destruct vs as [|v vs]; [done|]. intros [Hv Hvs]. cbn. destruct (p v); cbn; [by rewrite Hf|]. split; [done|].
  apply update_first_ext; [|done]. intros w Hw. by rewrite Hf.
Qed.

Lemma suspend_null_spec vs :
  let '(vs', found) := suspend_null vs in
  thinned vs vs' /\ (NoDup (ids vs) -> "null" ∉ ids vs') /\ (Forall (fun v => IsLatest v = false) vs -> Forall (fun v => IsLatest v = false) vs').
Proof.
  induction vs as [|v vs IH]; cbn; [split; [apply thinned_refl|split; [intros _; apply not_elem_of_nil|done]]|].
  unfold is_null. case_bool_decide as E.
  - split; [apply thinned_sublist; by constructor|]. split; [intros [Hv _]%NoDup_cons; by rewrite <- E|]. by intros [_ ?]%Forall_cons.
  - destruct (suspend_null vs) as [vs' found]. destruct IH as ([H1 H2] & H3 & H4). split; [split|split].
    + by constructor.
    + intros v' [->|Hv]%elem_of_cons; [exists v; split; [left|done]|]. destruct (H2 v' Hv) as (w & Hw & ?). exists w. split; [by right|done].
    + intros [_ Hnd]%NoDup_cons. cbn. apply not_elem_of_cons. split; [congruence|by apply H3].
    + intros [_ Hall]%Forall_cons. constructor; [done|by apply H4].
Qed.

Lemma suspend_null_cleared vs : latest_first vs -> Forall (fun v => IsLatest v = false) (suspend_null vs).1.
Proof.
  destruct vs as [|v vs]; [done|]. intros [_ Hvs]. cbn. destruct (is_null v); [done|]. pose proof (suspend_null_spec vs) as H.
  destruct (suspend_null vs) as [vs' found]. constructor; [done|]. by apply H.
Qed.

Lemma ids_inj vs v w : NoDup (ids vs) -> v ∈ vs -> w ∈ vs -> VersionID v = VersionID w -> v = w.
Proof.
  intros Hnd Hv Hw E. apply list_elem_of_lookup in Hv as [i Hi], Hw as [j Hj].
  assert (i = j) as ->; [|congruence]. apply (NoDup_lookup (ids vs) i j (VersionID v) Hnd); rewrite list_lookup_fmap; [by rewrite Hi|by rewrite Hj, E].
Qed.

(** ** Delete *)

Lemma remove_data_plain s b k vid own f : plain_id vid -> remove_data s b k vid own f = Remove (getObjectDataPath s b k vid) f.
Proof. intros (_ & _ & _ & H). unfold remove_data. by rewrite H. Qed.

Lemma removes_kept s b k vs f : plain_bucket b -> clean_key k -> Forall (fun v => plain_id (VersionID v)) vs ->
  let f' := fold_left (fun f v => Remove (getObjectDataPath s b k (VersionID v)) f) vs f in
  (others_kept s f b k -> others_kept s f' b k) /\ (parts_kept s f -> parts_kept s f') /\
  (forall vid, plain_id vid -> vid ∉ ids vs -> ReadFile (getObjectDataPath s b k vid) f' = ReadFile (getObjectDataPath s b k vid) f).
Proof.
  intros Hb Hk Hvs. revert f. induction Hvs as [|v vs Hv Hvs IH]; intros f; cbn; [done|].
  destruct (IH (Remove (getObjectDataPath s b k (VersionID v)) f)) as (H1 & H2 & H3). split; [|split].
  - intros H. by apply H1, others_remove.
  - intros H. by apply H2, parts_remove.
  - intros vid Hvid [Hne Hni]%not_elem_of_cons. rewrite H3 by done. apply Remove_files. intros E. apply data_path_inj in E as (_ & _ & E); done.
Qed.

Lemma delete_all_removes s b k vs f : Forall (fun v => plain_id (VersionID v)) vs ->
  delete_all s b k vs f = fold_left (fun f v => Remove (getObjectDataPath s b k (VersionID v)) f) (List.filter (fun v => negb (IsDeleteMarker v)) vs) f.
Proof.
  intros Hvs. unfold delete_all. revert f. induction Hvs as [|v vs Hv Hvs IH]; intros f; cbn; [done|].
  destruct (IsDeleteMarker v); cbn; [apply IH|]. rewrite remove_data_plain by done. apply IH.
Qed.

Lemma ok_plain h s b k vs : object_ok h s b k vs -> Forall (fun v => plain_id (VersionID v)) vs.
Proof. intros [_ H _]. eapply Forall_impl; [exact H|]. by intros v [? _]. Qed.

Lemma intact_delete_version h c b k vid om s r s' :
  intact h s -> plain_bucket b -> objects s !! object_key b k = Some om -> delete_version c b k vid om s = (r, s') -> intact h s'.
Proof.
  intros Hi Hb Hom. unfold delete_version. destruct (find_index vid (Versions om)) as [i|] eqn:Ei; [|by intros [= <- <-]].
  destruct (find_index_lookup _ _ _ Ei) as (v & Hv & <-). rewrite Hv. destruct (isLocked _ _); [by intros [= <- <-]|].
  destruct (intact_lookup _ _ _ _ _ Hi Hb Hom) as (Hk & HB & Hok). pose proof (ok_plain _ _ _ _ _ Hok) as Hplain.
  assert (Hvid : plain_id (VersionID v)) by (eapply Forall_lookup in Hv; [|exact Hplain]; done).
  rewrite remove_data_plain by done. set (f := if IsDeleteMarker v then fs s else _). set (rest := if IsLatest v then _ else _). intros [= <- <-].
  assert (Hf : others_kept s f b k /\ parts_kept s f /\ forall vid, plain_id vid -> vid <> VersionID v -> ReadFile (getObjectDataPath s b k vid) f = ReadFile (getObjectDataPath s b k vid) (fs s)).
  { subst f. destruct (IsDeleteMarker v); [split; [apply others_refl|split; [apply parts_refl|done]]|].
    split; [by apply others_remove|]. split; [apply parts_remove; [done..|apply parts_refl]|]. intros vid Hp Hne. apply Remove_files. intros E. apply data_path_inj in E as (_ & _ & E); done. }
  destruct Hf as (Hf1 & Hf2 & Hf3). assert (Ht : thinned (delete i (Versions om)) rest) by (subst rest; destruct (IsLatest v); [apply thinned_mark_first|apply thinned_refl]).
  destruct (latest_delete _ _ _ (ok_latest _ _ _ _ _ Hok) Hv) as [E|Hl]; fold rest in E || fold rest in Hl.
  - rewrite E. by apply intact_drop.
  - assert (Hr : rest <> []) by (by intros E; rewrite E in Hl). assert (E : (match rest with [] => deleteObjectMeta b k (with_fs f s) | _ => writeObjectMeta b k (mkMeta (om_Key om) rest) (with_fs f s) end) =
      writeObjectMeta b k (mkMeta (om_Key om) rest) (with_fs f s)) by (by destruct rest). rewrite E.
    apply (intact_thin h s b k om); try done; cbn [Versions].
    + eapply thinned_trans; [|exact Ht]. apply thinned_sublist, sublist_delete.
    + intros vid Hin. destruct Ht as [Hsub _]. pose proof (elem_of_sublist _ _ _ Hin Hsub) as Hin'. apply Hf3.
      * apply list_elem_of_fmap in Hin' as (w & -> & Hw). rewrite Forall_forall in Hplain. apply Hplain. eapply elem_of_sublist; [exact Hw|apply sublist_delete].
      * intros ->. revert Hin'. apply delete_id_gone; [by destruct Hok|done].
Qed.
End Steps.

(** ** Deletion, locks, tags, buckets, multipart uploads, lifecycle *)

Section More.
Context `{codec : Codec}.

#[local] Hint Resolve parts_refl others_refl : core.

Lemma intact_DeleteObject h c b k vid s r s' :
  intact h s -> plain_bucket b -> fresh_id c b k s -> DeleteObject c b k vid s = (r, s') -> intact h s'.
Proof.
  intros Hi Hb Hfresh. unfold DeleteObject, readBucketMeta, readObjectMeta.
  destruct (buckets s !! b) as [B|]; [|by intros [= <- <-]]. destruct (objects s !! object_key b k) as [om|] eqn:Hom; [|by intros [= <- <-]].
  match goal with |- (let '(r, s) := ?x in _) = _ -> _ => destruct x as [r1 s1] eqn:E end.
  assert (H1 : intact h s1); [|destruct r1; intros [= <- <-]; [done|by apply intact_wal]].
  destruct (intact_lookup _ _ _ _ _ Hi Hb Hom) as (Hk & HB & Hok). pose proof (ok_plain _ _ _ _ _ Hok) as Hplain.
  case_bool_decide as Evid; cbn [negb] in E; [|by eapply intact_delete_version].
  unfold fresh_id, old_versions in Hfresh. rewrite Hom in Hfresh.
  case_bool_decide; [destruct (existsb _ _); injection E as <- <-; [done|]|case_bool_decide; [|injection E as <- <-]].
  - apply (intact_marker h s b k om (set_latest false <$> Versions om) _ (fs s)); try done; cbn.
    + by apply thinned_cleared.
    + apply all_cleared.
    + apply uuid_plain.
    + by rewrite ids_cleared.
  - pose proof (suspend_null_spec (Versions om)) as Hs. pose proof (suspend_null_cleared _ (ok_latest _ _ _ _ _ Hok)) as Hc.
    destruct (suspend_null (Versions om)) as [vs found]. cbn in Hc. destruct Hs as (Ht & Hn & _). specialize (Hn (ok_distinct _ _ _ _ _ Hok)).
    set (f := match found with Some v => _ | None => _ end) in E. injection E as <- <-.
    assert (Hf : f = fs s \/ f = Remove (getObjectDataPath s b k "null") (fs s)) by (subst f; repeat case_match; auto).
    apply (intact_marker h s b k om vs _ f); try done; [apply null_plain|..].
    + destruct Hf as [->| ->]; [done|]. by apply others_remove; [..|apply null_plain|].
    + destruct Hf as [->| ->]; [done|]. apply parts_remove; [done|done|apply null_plain|done].
    + intros vid' Hin. destruct Hf as [->| ->]; [done|]. apply Remove_files. intros Ep.
      assert (Hp : plain_id vid').
      { destruct Ht as [Hsub _]. pose proof (elem_of_sublist _ _ _ Hin Hsub) as (w & -> & Hw)%list_elem_of_fmap. rewrite Forall_forall in Hplain. by apply Hplain. }
      apply data_path_inj in Ep as (_ & _ & ->); try done. apply null_plain.
  - rewrite delete_all_removes by done.
    destruct (removes_kept s b k (List.filter (fun v => negb (IsDeleteMarker v)) (Versions om)) (fs s)) as (H1 & H2 & _); [done|done| |].
    { apply Forall_forall. intros v [Hv _]%list_elem_of_In%filter_In. rewrite Forall_forall in Hplain. apply Hplain. by apply list_elem_of_In. }
    apply intact_drop; auto.
Qed.

Lemma intact_rewrite h s b k om om' :
  intact h s -> plain_bucket b -> objects s !! object_key b k = Some om -> thinned (Versions om) (Versions om') -> latest_first (Versions om') ->
  intact h (writeObjectMeta b k om' s).
Proof.
  intros Hi Hb Hom Ht Hl. change (intact h (writeObjectMeta b k om' (with_fs (fs s) s))). by eapply intact_thin.
Qed.

Lemma intact_LockObject h b k vid until s r s' : intact h s -> LockObject b k vid until s = (r, s') -> intact h s'.
Proof.
  intros Hi. unfold LockObject, readBucketMeta, readObjectMeta.
  destruct (buckets s !! b) as [B|] eqn:EB; [|by intros [= <- <-]]. destruct (objects s !! object_key b k) as [om|] eqn:Hom; [|by intros [= <- <-]].
  destruct (intact_plain _ _ Hi _ _ EB) as [Hb _]. destruct (intact_lookup _ _ _ _ _ Hi Hb Hom) as (Hk & HB & Hok).
  match goal with |- context [find_index ?x _] => destruct (find_index x (Versions om)) as [i|] eqn:Ei end; [|by intros [= <- <-]].
  cbn. destruct (find_index_lookup _ _ _ Ei) as (v & Hv & _). rewrite Hv. cbn.
  match goal with |- (if ?x then _ else _) = _ -> _ => destruct x end; intros [= <- <-]; [done|].
  apply (intact_rewrite h s b k om); try done; cbn.
  - by eapply thinned_insert.
  - eapply latest_insert; [by destruct Hok|done|done].
Qed.

Lemma intact_change_tags h c op b k vid tags s r s' : intact h s -> plain_bucket b -> change_tags c op b k vid tags s = (r, s') -> intact h s'.
Proof.
  intros Hi Hb. unfold change_tags, readObjectMeta. destruct (objects s !! object_key b k) as [om|] eqn:Hom; [|by intros [= <- <-]].
  destruct (intact_lookup _ _ _ _ _ Hi Hb Hom) as (Hk & HB & Hok). destruct (List.find _ _); intros [= <- <-]; [|done].
  apply intact_wal. apply (intact_rewrite h s b k om); try done; cbn.
  - by apply thinned_update_first.
  - apply latest_update_first; [done|by destruct Hok].
Qed.

(** ** Buckets *)

Lemma intact_set_bucket h f b s r s' : (forall B, ContentAddressable (f B) = ContentAddressable B) ->
  intact h s -> set_bucket f b s = (r, s') -> intact h s'.
Proof.
  intros Hf Hi. unfold set_bucket, readBucketMeta. destruct (buckets s !! b) as [B|] eqn:EB; intros [= <- <-]; [|done].
  eapply intact_settings; [exact Hi|done..| |].
  - intros b' Hb'. cbn. destruct (decide (b' = b)) as [->|]; [by rewrite lookup_insert_eq|by rewrite lookup_insert_ne].
  - intros b' B'. cbn. destruct (decide (b' = b)) as [->|]; [|rewrite lookup_insert_ne by done; apply Hi].
    rewrite lookup_insert_eq. intros [= <-]. rewrite Hf. by apply Hi.
Qed.

Lemma intact_CreateBucket h c b s r s' : intact h s -> plain_bucket b -> CreateBucket c b s = (r, s') -> intact h s'.
Proof.
  intros Hi Hb. unfold CreateBucket, readBucketMeta. destruct (buckets s !! b) as [B|] eqn:EB; [by intros [= <- <-]|].
  destruct (MkdirAll _ _) as [f|] eqn:Em; intros [= <- <-]; [|done]. apply intact_wal.
  eapply intact_settings; [by eapply intact_mkdir|done..| |].
  - intros b' Hb'. cbn. destruct (decide (b' = b)) as [->|]; [by rewrite lookup_insert_eq|by rewrite lookup_insert_ne].
  - intros b' B'. cbn. destruct (decide (b' = b)) as [->|]; [|rewrite lookup_insert_ne by done; apply Hi].
    rewrite lookup_insert_eq. by intros [= <-].
Qed.

Lemma elem_of_bucket_keys s b x : x ∈ bucket_keys s b <-> HasPrefix x (b +:+ ":") = true /\ is_Some (objects s !! x).
Proof.
  unfold bucket_keys. rewrite elem_of_sort_Strings, list_elem_of_filter, list_elem_of_fmap. split.
  - intros [H ([k om] & -> & Hk)]. apply elem_of_map_to_list in Hk. split; [done|]. by exists om.
  - intros [H [om Hom]]. split; [done|]. exists (x, om). by rewrite elem_of_map_to_list.
Qed.

Lemma intact_DeleteBucket h c b s r s' : intact h s -> DeleteBucket c b s = (r, s') -> intact h s'.
Proof.
  intros Hi. unfold DeleteBucket, readBucketMeta. destruct (buckets s !! b) as [B|] eqn:EB; [|by intros [= <- <-]].
  destruct (existsb _ _) eqn:Ee; intros [= <- <-]; [done|]. apply intact_wal. destruct (intact_plain _ _ Hi _ _ EB) as [Hb _].
  assert (Hno : forall b' k om, plain_bucket b' -> objects s !! object_key b' k = Some om -> b' <> b).
  { intros b' k om Hb' Hom ->. destruct (intact_lookup _ _ _ _ _ Hi Hb Hom) as (_ & _ & [_ _ Hl]).
    assert (existsb (fun om => negb (bool_decide (Versions om = []))) (bucket_metas s b) = true); [|congruence].
    apply existsb_exists. exists om. split; [|destruct (Versions om); [done|by rewrite bool_decide_false]].
    apply list_elem_of_In. unfold bucket_metas. apply list_elem_of_omap. exists (object_key b k). split; [|done].
    apply elem_of_bucket_keys. split; [by apply object_key_prefix|by rewrite Hom]. }
  pose proof Hi as [Ho Hc Hp]. split.
  - intros x om Hx. cbn in Hx. destruct (Ho x om Hx) as (b' & k & -> & Hb' & Hk & HB & [H1 H2 H3]).
    pose proof (Hno b' k om Hb' Hx) as Hne. exists b', k. cbn. rewrite lookup_delete_ne by done. split_and!; try done. split; try done.
    eapply Forall_impl; [exact H2|]. intros v Hv. eapply (version_ok_frame h h s); [done|apply same_payload_refl| |done|exact Hv].
    cbn. apply RemoveAll_files. apply data_not_in_bucket; try done. by destruct Hv.
  - intros b' B'. cbn. intros [_ H]%lookup_delete_Some. by apply Hc.
  - intros b' u n st Hb' Hu Hr. cbn in Hr. apply (parts_removeall s (fs s) _ (parts_refl s) b' u n st Hb' Hu) in Hr.
    destruct (Hp b' u n st Hb' Hu Hr) as (x & ? & ?). by exists x.
Qed.

(** ** Multipart uploads *)

Definition record_part (b u : string) (n : Z) (p : bytes) (h : History) : History := mkHistory (contents h) (<[(b, u, n) := p]> (uploaded h)).

Lemma decode_encode_part s nonce p : length nonce = NonceSize -> decode_part s (encode_payload s nonce false p) = Some p.
Proof.
  intros Hn. unfold decode_part, encode_payload. destruct (encryptionKey s) as [key|]; [|done]. by apply decrypt_encrypt.
Qed.

Lemma nonce_length c : length (nonce_of c) = NonceSize.
Proof. done. Qed.

Lemma intact_InitiateMultipartUpload h c b k s r s' : intact h s -> InitiateMultipartUpload c b k s = (r, s') -> intact h s'.
Proof.
  intros Hi. unfold InitiateMultipartUpload. destruct (readBucketMeta s b); [by intros [= <- <-]|].
  destruct (MkdirAll _ _) as [f|] eqn:Em; intros [= <- <-]; [|done]. by eapply intact_mkdir.
Qed.

Lemma intact_UploadPart h c b k u n reader size s r s' :
  intact h s -> plain_bucket b -> plain_name u -> UploadPart c b k u n reader size s = (r, s') ->
  match r with
  | inl _ => intact h s'
  | inr _ => exists p, reader = Some p /\ intact (record_part b u n p h) s'
  end.
Proof.
  intros Hi Hb Hu. unfold UploadPart. destruct (readBucketMeta s b); [by intros [= <- <-]|].
  destruct (negb _); [by intros [= <- <-]|]. destruct reader as [p|]; [|by intros [= <- <-]]. destruct (_ && _); [by intros [= <- <-]|].
  destruct (WriteFile _ _ _) as [f|] eqn:Ew; intros [= <- <-]; [|done]. exists p. split; [done|].
  assert (Hd : forall b' k' v', plain_bucket b' -> clean_key k' -> plain_id v' -> ReadFile (getObjectDataPath s b' k' v') f = ReadFile (getObjectDataPath s b' k' v') (fs s)).
  { intros b' k' v' Hb' Hk' Hv'. rewrite (WriteFile_files _ _ _ _ _ Ew), decide_False; [done|]. intros E. symmetry in E. by apply part_not_data in E. }
  pose proof Hi as [Ho Hc Hp]. split; [|done|].
  - intros x om Hx. destruct (Ho x om Hx) as (b' & k' & -> & Hb' & Hk' & HB & [H1 H2 H3]). exists b', k'. split_and!; try done. split; try done.
    eapply Forall_impl; [exact H2|]. intros v Hv. apply (version_ok_frame h _ s _ b' k' v v); [done|apply same_payload_refl| |done|exact Hv].
    apply Hd; try done. by destruct Hv.
  - intros b' u' n' st Hb' Hu' Hr. cbn in Hr. change (getPartPath (with_fs f s)) with (getPartPath s) in Hr. rewrite (WriteFile_files _ _ _ _ _ Ew) in Hr.
    cbn. case_decide as E.
    + apply part_path_inj in E as (-> & -> & ->); try done. injection Hr as <-. exists p. rewrite lookup_insert_eq. split; [done|].
      by apply (decode_encode_part s (nonce_of c)).
    + rewrite lookup_insert_ne by (by intros [= <- <- <-]). apply (Hp b' u' n' st Hb' Hu' Hr).
Qed.

Lemma intact_AbortMultipartUpload h b k u s r s' :
  intact h s -> plain_name u -> AbortMultipartUpload b k u s = (r, s') -> intact h s'.
Proof.
  intros Hi Hu. unfold AbortMultipartUpload, readBucketMeta. destruct (buckets s !! b) as [B|] eqn:EB; intros [= <- <-]; [|done].
  destruct (intact_plain _ _ Hi _ _ EB) as [Hb _]. apply intact_disk; [done| |by apply parts_removeall].
  intros b' k' v Hb' Hk' Hv. apply RemoveAll_files. by apply data_not_in_uploads.
Qed.

(** What the history says the parts of a request contain. *)
Definition part_contents (h : History) (b u : string) (parts : list PartInfo) : bytes :=
  concat ((fun p => default [] (uploaded h !! (b, u, PartNumber p))) <$> parts).

Lemma assemble_contents h s s1 b u parts p :
  intact h s -> same_config s s1 -> plain_bucket b -> plain_name u ->
  (forall n, ReadFile (getPartPath s b u n) (fs s1) = ReadFile (getPartPath s b u n) (fs s)) ->
  assemble s1 b u parts = inr p -> p = part_contents h b u parts.
Proof.
  intros Hi Hs Hb Hu Hf. revert p. induction parts as [|[n e] parts IH]; intros p; cbn [assemble PartNumber]; [by intros [= <-]|].
  rewrite (config_part s s1), Hf by done. destruct (ReadFile _ _) as [st|] eqn:Er; [|done].
  destruct (intact_parts _ _ Hi b u n st Hb Hu Er) as (c & Hc & Hd). unfold decode_part in Hd. destruct Hs as [Hkey Hroot]. rewrite Hkey, Hd.
  destruct (assemble s1 b u parts) as [|rest] eqn:Ea; [done|]. intros [= <-]. rewrite (IH rest) by done. unfold part_contents. cbn. by rewrite Hc.
Qed.

Lemma intact_CompleteMultipartUpload h c b k u parts ct s r s' :
  intact h s -> plain_bucket b -> clean_key k -> plain_name u -> fresh_id c b k s ->
  CompleteMultipartUpload c b k u parts ct s = (r, s') ->
  match r with
  | inl _ => (exists B, buckets s !! b = Some B /\ Versioning B = "Enabled") -> intact h s'
  | inr v => (Size v <= chunkThreshold)%Z ->
      intact (record_content b k (VersionID v) (part_contents h b u parts) h) s' /\
      exists om vs, objects s' !! object_key b k = Some om /\ Versions om = v :: vs
  end.
Proof.
  intros Hi Hb Hk Hu Hfresh. unfold CompleteMultipartUpload, readBucketMeta. destruct (buckets s !! b) as [B|] eqn:EB; [|by intros [= <- <-]].
  destruct (negb _); [by intros [= <- <-]|]. set (keep := bool_decide (Versioning B = "Enabled")). set (vid := if keep then generateUUID c 0 else "null").
  assert (Hvid : plain_id vid) by (subst vid; destruct keep; [apply uuid_plain|apply null_plain]).
  destruct (MkdirAll _ _) as [f1|] eqn:Em; [|by intros [= <- <-]].
  destruct (WriteFile _ _ f1) as [f2|] eqn:Ew; [|intros [= <- <-]; intros _; by eapply intact_mkdir].
  assert (Ho2 : others_kept s f2 b k) by (eapply others_write; [done|done|exact Hvid| |exact Ew]; eapply others_mkdir; [apply others_refl|done]).
  assert (Hp2 : parts_kept s f2) by (eapply parts_write; [done|done|exact Hvid| |exact Ew]; eapply parts_mkdir; [apply parts_refl|done]).
  assert (Hf2 : forall vid', plain_id vid' -> vid' <> vid -> ReadFile (getObjectDataPath s b k vid') f2 = ReadFile (getObjectDataPath s b k vid') (fs s)).
  { intros vid' Hv' Hne. rewrite (WriteFile_files _ _ _ _ _ Ew), decide_False; [apply (MkdirAll_files _ _ _ Em)|].
    intros E. apply data_path_inj in E as (_ & _ & E); done. }
  assert (Hpart : forall n, ReadFile (getPartPath s b u n) f2 = ReadFile (getPartPath s b u n) (fs s)).
  { intros n. rewrite (WriteFile_files _ _ _ _ _ Ew), decide_False; [apply (MkdirAll_files _ _ _ Em)|]. by apply part_not_data. }
  assert (Hfail : (exists B, buckets s !! b = Some B /\ Versioning B = "Enabled") -> intact h (with_fs f2 s)).
  { intros (B' & EB' & HE). assert (keep = true) as Hkeep by (subst keep; apply bool_decide_eq_true; congruence). subst vid. rewrite Hkeep in *.
    apply (intact_update h h s _ b k Hi Hb Hk); try done. intros om Hom. destruct (intact_lookup _ _ _ _ _ Hi Hb Hom) as (_ & HB & Hok). split; [done|].
    destruct (versions_thin h h s (with_fs f2 s) b k (Versions om) (Versions om) Hok (thinned_refl _)) as [H1 H2]; [done| |done|split; [done|done|by destruct Hok]].
    intros vid Hin. apply Hf2; [|intros ->; unfold fresh_id, old_versions in Hfresh; cbn in Hom; by rewrite Hom in Hfresh].
    apply list_elem_of_fmap in Hin as (w & -> & Hw). pose proof (ok_plain _ _ _ _ _ Hok) as Hpl. rewrite Forall_forall in Hpl. by apply Hpl. }
  destruct (assemble (with_fs f2 s) b u parts) as [e|p] eqn:Ea; [intros [= <- <-]; by rewrite <- EB|].
  destruct (quota_exceeded _ _ _ _ _); [intros [= <- <-]; by rewrite <- EB|].
  set (f3 := RemoveAll _ _). set (v := mkVer vid _ _ _ _ _ _ _ _ _ _ _ _). intros [= <- <-] Hsize. cbn in Hsize.
  rewrite <- (assemble_contents h s (with_fs f2 s) b u parts p Hi) by done. change (with_fs f3 (with_fs f2 s)) with (with_fs f3 s).
  assert (Hread : forall q, ~ below (getMultipartUploadDir s b u) q -> q <> getObjectDataPath s b k vid -> ReadFile q f3 = ReadFile q f2).
  { intros q Hq Hne. subst f3. rewrite RemoveAll_files by done. unfold ReadFile. cbn. by rewrite lookup_insert_ne. }
  apply (intact_add_version h c s b k keep v p f3 Hi Hb Hk); try done.
  - cbn. unfold ParallelBlake3Hash. by rewrite (proj2 (Z.leb_le _ _) Hsize).
  - subst f3. rewrite RemoveAll_files by (by apply data_not_in_uploads). unfold ReadFile. cbn. by rewrite lookup_insert_eq.
  - intros b' k' v' Hb' Hk' Hv' Hne. rewrite Hread; [by apply Ho2|by apply data_not_in_uploads|]. intros E. apply data_path_inj in E as (-> & -> & _); done.
  - intros b' u' n st Hb' Hu' Hr. apply Hp2; [done..|]. revert Hr. destruct (decide (below (getMultipartUploadDir s b u) (getPartPath s b' u' n))).
    + subst f3. by rewrite RemoveAll_gone.
    + rewrite Hread; [done|done|]. by apply part_not_data.
  - intros vid' Hv' Hne. rewrite Hread; [by apply Hf2|by apply data_not_in_uploads|]. intros E. apply data_path_inj in E as (_ & _ & E); done.
Qed.

(** ** Lifecycle *)

Lemma filter_sublist_list {A} (p : A -> bool) (l : list A) : List.filter p l `sublist_of` l.
Proof. induction l as [|x l IH]; cbn; [done|]. destruct (p x); by constructor. Qed.

Lemma latest_survivors p vs :
  latest_first vs -> let surviving := List.filter p vs in surviving <> [] ->
  latest_first (if existsb IsLatest surviving then surviving else mark_first surviving).
Proof.
  destruct vs as [|v vs]; [done|]. intros [Hv Hvs]. cbn. assert (Hf : Forall (fun v => IsLatest v = false) (List.filter p vs)).
  { apply Forall_forall. intros w Hw. rewrite Forall_forall in Hvs. apply Hvs. by eapply elem_of_sublist, filter_sublist_list. }
  destruct (p v); cbn; [rewrite Hv; done|]. intros Hne.
  assert (existsb IsLatest (List.filter p vs) = false) as ->.
  { apply not_true_is_false. intros (w & Hw & E)%existsb_exists. rewrite Forall_forall in Hf. apply list_elem_of_In in Hw. specialize (Hf w Hw). cbn in Hf. congruence. }
  destruct (List.filter p vs) as [|w ws]; [done|]. apply Forall_cons in Hf as [_ Hf]. done.
Qed.

Lemma intact_expire_object h now b rules acc k :
  intact h acc.2 -> plain_bucket b -> intact h (expire_object now b rules acc k).2.
Proof.
  destruct acc as [n s]. cbn. intros Hi Hb. unfold expire_object, readObjectMeta. destruct (objects s !! object_key b k) as [om|] eqn:Hom; [|done].
  destruct (intact_lookup _ _ _ _ _ Hi Hb Hom) as (Hk & HB & Hok). pose proof (ok_plain _ _ _ _ _ Hok) as Hplain.
  set (gone := List.filter _ _). set (surviving := List.filter _ _). case_bool_decide; [done|]. set (f := fold_left _ gone (fs s)).
  assert (Hgone : Forall (fun v => plain_id (VersionID v)) gone).
  { apply Forall_forall. intros v Hv. rewrite Forall_forall in Hplain. apply Hplain. by eapply elem_of_sublist, filter_sublist_list. }
  destruct (removes_kept s b k gone (fs s) Hb Hk Hgone) as (H1 & H2 & H3). fold f in H1, H2, H3.
  case_bool_decide as Es; cbn; [apply intact_drop; auto|].
  set (vs := if existsb IsLatest surviving then _ else _).
  assert (Ht : thinned surviving vs) by (subst vs; destruct (existsb _ _); [apply thinned_refl|apply thinned_mark_first]).
  apply (intact_thin h s b k om); auto; cbn [Versions].
  - eapply thinned_trans; [apply thinned_sublist, filter_sublist_list|exact Ht].
  - apply latest_survivors; [by destruct Hok|done].
  - intros vid Hin. destruct Ht as [Hsub _]. pose proof (elem_of_sublist _ _ _ Hin Hsub) as (w & -> & Hw)%list_elem_of_fmap.
    assert (Hw' : w ∈ Versions om) by (by eapply elem_of_sublist, filter_sublist_list).
    apply H3; [rewrite Forall_forall in Hplain; by apply Hplain|]. intros (x & E & Hx)%list_elem_of_fmap.
    assert (Hx' : x ∈ Versions om) by (by eapply elem_of_sublist, filter_sublist_list).
    assert (w = x) as -> by (eapply ids_inj; [by destruct Hok|done..]).
    apply list_elem_of_In, filter_In in Hw as [_ Hw], Hx as [_ Hx]. rewrite Hw in Hx. done.
Qed.

Lemma intact_ApplyLifecycle h c s n s' : intact h s -> ApplyLifecycle c s = (n, s') -> intact h s'.
Proof.
  intros Hi. unfold ApplyLifecycle. generalize (ReadDirs (rootDir s) (fs s)) as names. intros names E.
  assert (H : forall acc, intact h acc.2 -> intact h (fold_left (expire_bucket (instant c 0)) names acc).2).
  { clear E. induction names as [|b names IH]; intros acc Hacc; [done|]. cbn. apply IH. unfold expire_bucket, readBucketMeta.
    destruct (buckets acc.2 !! b) as [B|] eqn:EB; [|done]. case_bool_decide; [done|].
    destruct (intact_plain _ _ Hacc _ _ EB) as [Hb _]. generalize (scanMetadataKeys acc.2 b) as keys. intros keys. clear EB. revert acc Hacc.
    induction keys as [|k keys IHk]; intros acc Hacc; [done|]. cbn. apply IHk. by apply intact_expire_object. }
  specialize (H (0%Z, s) Hi). by rewrite E in H.
Qed.
End More.
