(* ===== verification/VaultProps.v ===== *)
(** * What the object store guarantees

    Runs of operations, the content of versions, and retention locks. *)

From S2P Require Import Prelude GoStrings GoSort GoFs Vault VaultObjects VaultBulk VaultFacts.
Local Open Scope string_scope.
Local Open Scope Z_scope.
Local Open Scope list_scope.

(** ** Operations *)

Inductive op :=
| OCreateBucket (b : string)
| ODeleteBucket (b : string)
| OVersioning (b status : string)
| OQuota (b : string) (quota : Z)
| ORules (b : string) (rules : list LifecycleRule)
| OTriggers (b : string) (triggers : list WASMTrigger)
| ONotifications (b : string) (rules : list EventNotificationRule)
| OGeo (b : string) (cfg : option GeoPlacementConfig)
| OPut (b k : string) (reader : option bytes) (size : Z) (contentType : string)
| ODelete (b k vid : string)
| OLock (b k vid : string) (retainUntil : Z)
| OPutTags (b k vid : string) (tags : gmap string string)
| ODeleteTags (b k vid : string)
| OInitiate (b k : string)
| OUpload (b k u : string) (n : Z) (reader : option bytes) (size : Z)
| OComplete (b k u : string) (parts : list PartInfo) (contentType : string)
| OAbort (b k u : string)
| OApplyLifecycle.

Inductive out := Done (e : option Err) | Version (r : Err + ObjectVersion) | Ident (r : Err + string) | Count (n : Z).

Section Props.
Context `{codec : Codec}.

Definition exec (c : Call) (o : op) (s : LocalStore) : out * LocalStore :=
  match o with
  | OCreateBucket b => let '(r, s) := CreateBucket c b s in (Done r, s)
  | ODeleteBucket b => let '(r, s) := DeleteBucket c b s in (Done r, s)
  | OVersioning b st => let '(r, s) := SetBucketVersioning b st s in (Done r, s)
  | OQuota b q => let '(r, s) := SetBucketQuota b q s in (Done r, s)
  | ORules b rules => let '(r, s) := SetBucketLifecycle b rules s in (Done r, s)
  | OTriggers b t => let '(r, s) := SetBucketTriggers b t s in (Done r, s)
  | ONotifications b rules => let '(r, s) := SetBucketNotifications b rules s in (Done r, s)
  | OGeo b cfg => let '(r, s) := SetBucketGeoPlacement b cfg s in (Done r, s)
  | OPut b k reader size ct => let '(r, s) := PutObject c b k reader size ct s in (Version r, s)
  | ODelete b k vid => let '(r, s) := DeleteObject c b k vid s in (Version r, s)
  | OLock b k vid until => let '(r, s) := LockObject b k vid until s in (Version r, s)
  | OPutTags b k vid tags => let '(r, s) := PutObjectTagging c b k vid tags s in (Version r, s)
  | ODeleteTags b k vid => let '(r, s) := DeleteObjectTagging c b k vid s in (Version r, s)
  | OInitiate b k => let '(r, s) := InitiateMultipartUpload c b k s in (Ident r, s)
  | OUpload b k u n reader size => let '(r, s) := UploadPart c b k u n reader size s in (Ident r, s)
  | OComplete b k u parts ct => let '(r, s) := CompleteMultipartUpload c b k u parts ct s in (Version r, s)
  | OAbort b k u => let '(r, s) := AbortMultipartUpload b k u s in (Done r, s)
  | OApplyLifecycle => let '(n, s) := ApplyLifecycle c s in (Count n, s)
  end.

(** The history records what accepted writes contained. *)
Definition record (o : op) (r : out) (h : History) : History :=
  match o, r with
  | OPut b k (Some p) _ _, Version (inr v) => record_content b k (VersionID v) p h
  | OComplete b k u parts _, Version (inr v) => record_content b k (VersionID v) (part_contents h b u parts) h
  | OUpload b k u n (Some p) _, Ident (inr _) => record_part b u n p h
  | _, _ => h
  end.

(** An upload of at most 8 MB whose completion succeeds, or fails in a
    versioned bucket. *)
Definition upload_ok (c : Call) (b k u : string) (parts : list PartInfo) (ct : string) (s : LocalStore) : Prop :=
  match (CompleteMultipartUpload c b k u parts ct s).1 with
  | inr v => Size v <= chunkThreshold
  | inl _ => match buckets s !! b with Some B => Versioning B = "Enabled" | None => False end
  end.

#[global] Instance upload_ok_dec c b k u parts ct s : Decision (upload_ok c b k u parts ct s).
Proof. unfold upload_ok. destruct (CompleteMultipartUpload _ _ _ _ _ _ _).1; [destruct (buckets s !! b)|]; apply _. Defined.

(** Well-formed names, new identifiers that are not in use, and uploads as
    above. *)
Definition allowed (c : Call) (o : op) (s : LocalStore) : Prop :=
  match o with
  | OCreateBucket b => plain_bucket b
  | OPut b k _ _ _ => plain_bucket b /\ clean_key k /\ ctx_versionID c = None /\ fresh_id c b k s
  | ODelete b k _ => plain_bucket b /\ fresh_id c b k s
  | OPutTags b _ _ _ | ODeleteTags b _ _ => plain_bucket b
  | OUpload b _ u _ _ _ => plain_bucket b /\ plain_name u
  | OAbort _ _ u => plain_name u
  | OComplete b k u parts ct => plain_bucket b /\ clean_key k /\ plain_name u /\ fresh_id c b k s /\ upload_ok c b k u parts ct s
  | _ => True
  end.

Lemma intact_exec h c o s : intact h s -> allowed c o s -> intact (record o (exec c o s).1 h) (exec c o s).2.
Proof.
  intros Hi Ha. destruct o; cbn in Ha; cbn [exec].
  - destruct (CreateBucket c b s) as [r s'] eqn:E. by eapply intact_CreateBucket.
  - destruct (DeleteBucket c b s) as [r s'] eqn:E. by eapply intact_DeleteBucket.
  - destruct (SetBucketVersioning b status s) as [r s'] eqn:E. by eapply intact_set_bucket in E.
  - destruct (SetBucketQuota b quota s) as [r s'] eqn:E. by eapply intact_set_bucket in E.
  - destruct (SetBucketLifecycle b rules s) as [r s'] eqn:E. by eapply intact_set_bucket in E.
  - destruct (SetBucketTriggers b triggers s) as [r s'] eqn:E. by eapply intact_set_bucket in E.
  - destruct (SetBucketNotifications b rules s) as [r s'] eqn:E. by eapply intact_set_bucket in E.
  - destruct (SetBucketGeoPlacement b cfg s) as [r s'] eqn:E. by eapply intact_set_bucket in E.
  - destruct (PutObject c b k reader size contentType s) as [r s'] eqn:E. destruct Ha as (H1 & H2 & H3 & H4).
    pose proof (intact_PutObject h c b k reader size contentType s r s' Hi H1 H2 H3 H4 E) as H. cbn. destruct r as [e|v]; [by destruct reader|].
    by destruct H as (p & -> & H & _).
  - destruct (DeleteObject c b k vid s) as [r s'] eqn:E. destruct Ha. by eapply intact_DeleteObject.
  - destruct (LockObject b k vid retainUntil s) as [r s'] eqn:E. by eapply intact_LockObject.
  - destruct (PutObjectTagging c b k vid tags s) as [r s'] eqn:E. by eapply intact_change_tags.
  - destruct (DeleteObjectTagging c b k vid s) as [r s'] eqn:E. by eapply intact_change_tags.
  - destruct (InitiateMultipartUpload c b k s) as [r s'] eqn:E. by eapply intact_InitiateMultipartUpload.
  - destruct (UploadPart c b k u n reader size s) as [r s'] eqn:E. destruct Ha as (H1 & H2).
    pose proof (intact_UploadPart h c b k u n reader size s r s' Hi H1 H2 E) as H. cbn. destruct r as [e|v]; [by destruct reader|].
    by destruct H as (p & -> & H).
  - destruct (CompleteMultipartUpload c b k u parts contentType s) as [r s'] eqn:E. destruct Ha as (H1 & H2 & H3 & H4 & H5). unfold upload_ok in H5. rewrite E in H5. cbn in H5.
    pose proof (intact_CompleteMultipartUpload h c b k u parts contentType s r s' Hi H1 H2 H3 H4 E) as H. cbn. destruct r as [e|v]; [|by destruct (H H5)].
    apply H. destruct (buckets s !! b); [eauto|done].
  - destruct (AbortMultipartUpload b k u s) as [r s'] eqn:E. by eapply intact_AbortMultipartUpload.
  - destruct (ApplyLifecycle c s) as [r s'] eqn:E. by eapply intact_ApplyLifecycle.
Qed.

(** ** Runs *)

Fixpoint run (steps : list (Call * op)) (h : History) (s : LocalStore) : History * LocalStore :=
  match steps with
  | [] => (h, s)
  | (c, o) :: steps => run steps (record o (exec c o s).1 h) (exec c o s).2
  end.

Fixpoint allowed_run (steps : list (Call * op)) (s : LocalStore) : Prop :=
  match steps with
  | [] => True
  | (c, o) :: steps => allowed c o s /\ allowed_run steps (exec c o s).2
  end.

(** A new store: a root directory and nothing in it. *)
Definition empty_store (key : option bytes) (root : path) : LocalStore :=
  mkStore (default ∅ (MkdirAll root ∅)) ∅ ∅ ∅ ∅ [] key root.

Definition empty_history : History := mkHistory ∅ ∅.

Lemma intact_empty key root : intact empty_history (empty_store key root).
Proof.
  split; cbn; [by intros x om|by intros b B|]. intros b u n stored _ _ H.
  destruct (MkdirAll root ∅) as [f|] eqn:E; cbn in H; [rewrite (MkdirAll_files _ _ _ E) in H|]; by unfold ReadFile in H; rewrite lookup_empty in H.
Qed.

Lemma intact_run steps h s : intact h s -> allowed_run steps s -> intact (run steps h s).1 (run steps h s).2.
Proof.
  revert h s. induction steps as [|[c o] steps IH]; intros h s Hi Ha; [done|]. destruct Ha as [Ha1 Ha2]. cbn. apply IH; [by apply intact_exec|done].
Qed.

(** ** Reading *)

Lemma find_by_id vs v : NoDup (ids vs) -> v ∈ vs -> List.find (by_id (VersionID v)) vs = Some v.
Proof.
  induction vs as [|w vs IH]; intros Hnd Hv; [by apply not_elem_of_nil in Hv|]. cbn in Hnd. apply NoDup_cons in Hnd as [Hw Hnd].
  apply elem_of_cons in Hv as [->|Hv]; cbn; unfold by_id.
  - by rewrite bool_decide_true.
  - rewrite bool_decide_false; [by apply IH|]. intros E. apply Hw. rewrite E. by apply list_elem_of_fmap_2.
Qed.

Lemma read_version h s b k om v c :
  intact h s -> plain_bucket b -> objects s !! object_key b k = Some om -> v ∈ Versions om -> IsDeleteMarker v = false ->
  ctx_timeTravel c = None ->
  exists p, contents h !! (b, k, VersionID v) = Some p /\ Size v = Z.of_nat (length p) /\
    GetObjectBytes c b k (VersionID v) s = inr p /\ (IsLatest v = true -> GetObjectBytes c b k "" s = inr p).
Proof.
  intros Hi Hb Hom Hv Hm Hc. destruct (intact_lookup _ _ _ _ _ Hi Hb Hom) as (Hk & [B HB] & [Hnd Hok Hl]).
  rewrite Forall_forall in Hok. destruct (Hok v Hv) as [Hid Hp]. destruct (Hp Hm) as (p & Hcont & Hread & Hsize). exists p.
  assert (Hget : forall vid, target_version c vid (Versions om) = Some v -> GetObjectBytes c b k vid s = inr p).
  { intros vid Ht. unfold GetObjectBytes, GetObject, readBucketMeta, readObjectMeta. rewrite HB, Hom, Ht, Hm. unfold readable in Hread.
    by destruct (open_version s b k v). }
  split; [done|]. split; [done|]. split; [apply Hget|intros HL; apply Hget]; unfold target_version; rewrite Hc.
  - destruct Hid as (Hne & _). rewrite bool_decide_false by done. by apply find_by_id.
  - rewrite bool_decide_true by done. unfold latest_of. destruct (Versions om) as [|w vs]; [by apply not_elem_of_nil in Hv|].
    destruct Hl as [Hw Hvs]. cbn. rewrite Hw. apply elem_of_cons in Hv as [->|Hv]; [done|]. rewrite Forall_forall in Hvs. specialize (Hvs v Hv). cbn in Hvs. congruence.
Qed.

End Props.

(** ** A small store *)

(** Codecs that put a byte in front, and hashes of one byte. *)
#[local] Instance demo_codec : Codec := {
  md5 := fun d => [ascii_of_nat (length d)];
  blake3 := fun d => [ascii_of_N (fold_left N.add (N_of_ascii <$> d) 0%N mod 256)];
  sha256 := fun d => d;
  Seal := fun _ _ p => "e"%char :: p;
  Open := fun _ _ p => match p with "e"%char :: p => Some p | _ => None end;
  Open_Seal := fun _ _ _ => eq_refl;
  EncodeAll := fun p => "z"%char :: p;
  DecodeAll := fun p => match p with "z"%char :: p => Some p | _ => None end;
  DecodeAll_EncodeAll := fun _ => eq_refl;
}.

Definition at_time (now : Z) : Call := mkCall (fun _ => now) (fun i => ascii_of_N (Z.to_N now + N.of_nat i)) false None None 4.
Definition demo_root : path := ["data"].
Definition no_key : LocalStore := empty_store None demo_root.

(** Closed side conditions, by evaluation. *)
Ltac decide_closed := apply (bool_decide_unpack _); vm_compute; exact I.
Ltac allowed_closed := repeat first [exact I | decide_closed | split].

(** A put, an upload in two parts, and a deletion, encrypted. *)
Definition upload : string := generateUUID (at_time 4) 0.
Definition kept_steps : list (Call * op) :=
  [(at_time 1, OCreateBucket "b"); (at_time 2, OVersioning "b" "Enabled"); (at_time 3, OPut "b" "dir/a.txt" (Some (byt "first")) 5 "text/plain");
   (at_time 4, OInitiate "b" "dir/a.txt"); (at_time 5, OUpload "b" "dir/a.txt" upload 1 (Some (byt "sec")) 0);
   (at_time 6, OUpload "b" "dir/a.txt" upload 2 (Some (byt "ond")) 3); (at_time 7, OComplete "b" "dir/a.txt" upload [mkPart 1 ""; mkPart 2 ""] "");
   (at_time 8, OPut "b" "x" (Some []) 0 ""); (at_time 9, ODelete "b" "x" "")].

Definition demo_key : option bytes := Some (byt "key").

