(* ===== verification/VaultLocks.v ===== *)
(** * Retention locks of the object store *)

From S2P Require Import Prelude GoStrings GoSort GoFs Vault VaultObjects VaultBulk VaultFacts VaultProps GoNumbers.
Local Open Scope string_scope.
Local Open Scope Z_scope.
Local Open Scope list_scope.

Section Locks.
Context `{codec : Codec} (b k vid : string) (until : Z).

(** The version is locked until [until] at least. *)
Definition retained (v : ObjectVersion) : Prop :=
  VersionID v = vid /\ IsDeleteMarker v = false /\ Locked v = true /\ exists t, RetainUntil v = Some t /\ until <= t.

(** The bucket is versioned, and holds the version under its lock. *)
Record held (s : LocalStore) : Prop := {
  held_versioned : exists B, buckets s !! b = Some B /\ Versioning B = "Enabled";
  held_version : exists om v, objects s !! object_key b k = Some om /\ v ∈ Versions om /\ retained v }.

(** Before the end of the lock, and without suspending versioning. *)
Definition in_time (c : Call) (o : op) : Prop :=
  (forall i, instant c i < until) /\ match o with OVersioning b' status => b' = b -> status = "Enabled" | _ => True end.

Lemma retained_locked now v : now < until -> retained v -> isLocked now v = true.
Proof. intros Hn (_ & _ & Hl & t & Ht & Hle). unfold isLocked. rewrite Hl, Ht. apply Z.ltb_lt. lia. Qed.

Lemma retained_latest x v : retained v -> retained (set_latest x v).
Proof. done. Qed.

Lemma held_objects s s' :
  held s -> (forall B, buckets s !! b = Some B -> Versioning B = "Enabled" -> exists B', buckets s' !! b = Some B' /\ Versioning B' = "Enabled") ->
  (forall om v, objects s !! object_key b k = Some om -> v ∈ Versions om -> retained v ->
     exists om' v', objects s' !! object_key b k = Some om' /\ v' ∈ Versions om' /\ retained v') ->
  held s'.
Proof. intros [(B & HB & HE) (om & v & Hom & Hv & Hr)] H1 H2. split; [by eapply H1|by eapply H2]. Qed.

Lemma held_after_write s b' k' om' s' :
  held s -> plain_bucket b -> plain_bucket b' -> buckets s' = buckets s -> objects s' = <[object_key b' k' := om']> (objects s) ->
  (b' = b -> k' = k -> forall om v, objects s !! object_key b k = Some om -> v ∈ Versions om -> retained v -> exists v', v' ∈ Versions om' /\ retained v') ->
  held s'.
Proof.
  intros Hh Hb Hb' HB HO Hnew. eapply held_objects; [exact Hh|intros B; rewrite HB; eauto|].
  intros om v Hom Hv Hr. rewrite HO. destruct (decide (object_key b' k' = object_key b k)) as [E|E].
  - apply object_key_inj in E as [-> ->]; [|done..]. rewrite lookup_insert_eq. destruct (Hnew eq_refl eq_refl om v Hom Hv Hr) as (v' & Hv' & Hr').
    exists om', v'. done.
  - rewrite lookup_insert_ne by done. exists om, v. done.
Qed.

Lemma held_same s s' : held s -> buckets s' = buckets s -> objects s' = objects s -> held s'.
Proof. intros Hh HB HO. eapply held_objects; [exact Hh|intros B; rewrite HB; eauto|]. intros om v. rewrite HO. eauto. Qed.

Lemma held_wal c e s : held s -> held (writeWAL c e s).
Proof. intros H. unfold writeWAL. destruct (is_restore c); [done|by eapply held_same]. Qed.

(** ** The operations *)

Lemma in_cleared v (vs : list ObjectVersion) : v ∈ vs -> retained v -> exists v', v' ∈ set_latest false <$> vs /\ retained v'.
Proof. intros Hv Hr. exists (set_latest false v). split; [by apply list_elem_of_fmap_2|done]. Qed.

Lemma objects_add_version s b' k' keep v p :
  buckets (add_version s b' k' keep v p) = buckets s /\
  exists om', objects (add_version s b' k' keep v p) = <[object_key b' k' := om']> (objects s) /\
    (keep = true -> Versions om' = v :: (set_latest false <$> old_versions s b' k')).
Proof.
  unfold add_version, readObjectMeta, old_versions. destruct (objects s !! object_key b' k'); (split; [done|]); eexists; (split; [done|]); by intros ->.
Qed.

Lemma held_add_version s b' k' B v p :
  held s -> plain_bucket b -> plain_bucket b' -> buckets s !! b' = Some B ->
  held (add_version s b' k' (bool_decide (Versioning B = "Enabled")) v p).
Proof.
  intros Hh Hb Hb' HB. destruct (objects_add_version s b' k' (bool_decide (Versioning B = "Enabled")) v p) as (E1 & om' & E2 & E3).
  eapply held_after_write; [exact Hh|done|exact Hb'|exact E1|exact E2|]. intros -> -> om w Hom Hw Hr.
  destruct Hh as [(B' & HB' & HE) _]. rewrite E3 by (apply bool_decide_eq_true; congruence). unfold old_versions. rewrite Hom.
  destruct (in_cleared w _ Hw Hr) as (w' & Hw' & Hr'). exists w'. split; [by right|done].
Qed.

Lemma held_PutObject h c b' k' reader size ct s r s' :
  intact h s -> held s -> plain_bucket b -> plain_bucket b' -> PutObject c b' k' reader size ct s = (r, s') -> held s'.
Proof.
  intros Hi Hh Hb Hb'. unfold PutObject. destruct reader as [p|]; [|by intros [= <- <-]].
  destruct (_ && _); [by intros [= <- <-]|]. unfold readBucketMeta. destruct (buckets s !! b') as [B|] eqn:EB; [|by intros [= <- <-]].
  destruct (overwrite_locked _ _ _ _ _); [by intros [= <- <-]|]. destruct (quota_exceeded _ _ _ _ _); [by intros [= <- <-]|].
  rewrite (proj2 (intact_plain _ _ Hi _ _ EB)). cbn [andb]. rewrite orb_false_r.
  destruct (MkdirAll _ _) as [f1|]; [|by intros [= <- <-]].
  destruct (WriteFile _ _ f1) as [f2|]; [|intros [= <- <-]; by eapply held_same].
  intros [= <- <-]. apply held_wal, held_add_version; try done. by eapply held_same.
Qed.

Lemma held_CompleteMultipartUpload c b' k' u parts ct s r s' :
  held s -> plain_bucket b -> plain_bucket b' -> CompleteMultipartUpload c b' k' u parts ct s = (r, s') -> held s'.
Proof.
  intros Hh Hb Hb'. unfold CompleteMultipartUpload, readBucketMeta. destruct (buckets s !! b') as [B|] eqn:EB; [|by intros [= <- <-]].
  destruct (negb _); [by intros [= <- <-]|]. destruct (MkdirAll _ _) as [f1|]; [|by intros [= <- <-]].
  destruct (WriteFile _ _ f1) as [f2|]; [|intros [= <- <-]; by eapply held_same].
  destruct (assemble _ _ _ _) as [|p]; [intros [= <- <-]; by eapply held_same|].
  destruct (quota_exceeded _ _ _ _ _); intros [= <- <-]; [by eapply held_same|]. apply held_add_version; try done. by eapply held_same.
Qed.

Lemma held_delete_version h c b' k' vid' om s r s' :
  intact h s -> held s -> plain_bucket b -> plain_bucket b' -> (forall i, instant c i < until) -> objects s !! object_key b' k' = Some om ->
  delete_version c b' k' vid' om s = (r, s') -> held s'.
Proof.
  intros Hi Hh Hb Hb' Ht Hom. unfold delete_version. destruct (find_index vid' (Versions om)) as [i|] eqn:Ei; [|by intros [= <- <-]].
  destruct (find_index_lookup _ _ _ Ei) as (v & Hv & _). rewrite Hv. destruct (isLocked _ v) eqn:El; [by intros [= <- <-]|].
  set (f := if IsDeleteMarker v then _ else _). set (rest := if IsLatest v then _ else _). intros [= <- <-].
  assert (Hkeep : forall w, w ∈ Versions om -> retained w -> exists w', w' ∈ rest /\ retained w').
  { intros w Hw Hr. apply list_elem_of_lookup in Hw as [j Hj]. assert (Hne : j <> i).
    { intros ->. rewrite Hv in Hj. injection Hj as ->. by rewrite (retained_locked (instant c 0) w (Ht 0%nat) Hr) in El. }
    assert (Hin : w ∈ delete i (Versions om)).
    { apply list_elem_of_lookup. destruct (decide (j < i)%nat); [exists j; by rewrite list_lookup_delete_lt|].
      exists (j - 1)%nat. rewrite list_lookup_delete_ge by lia. by replace (S (j - 1)) with j by lia. }
    subst rest. destruct (IsLatest v); [|by exists w]. destruct (delete i (Versions om)) as [|x l]; [by apply not_elem_of_nil in Hin|].
    cbn. apply elem_of_cons in Hin as [->|Hin]; [exists (set_latest true x); split; [left|done]|exists w; split; [by right|done]]. }
  destruct rest as [|x l] eqn:Er.
  - eapply held_objects; [exact Hh|by eauto|]. intros om' w Hom' Hw Hr. cbn. destruct (decide (object_key b' k' = object_key b k)) as [E|E].
    + apply object_key_inj in E as [-> ->]; [|done..]. rewrite Hom in Hom'. injection Hom' as ->.
      destruct (Hkeep w Hw Hr) as (w' & Hw' & _). by apply not_elem_of_nil in Hw'.
    + rewrite lookup_delete_ne by done. eauto.
  - eapply held_after_write; [exact Hh|done|exact Hb'|done|done|]. intros -> -> om' w Hom' Hw Hr. rewrite Hom in Hom'. injection Hom' as ->. by apply (Hkeep w).
Qed.

Lemma held_DeleteObject h c b' k' vid' s r s' :
  intact h s -> held s -> plain_bucket b -> plain_bucket b' -> (forall i, instant c i < until) -> DeleteObject c b' k' vid' s = (r, s') -> held s'.
Proof.
  intros Hi Hh Hb Hb' Ht. unfold DeleteObject, readBucketMeta, readObjectMeta.
  destruct (buckets s !! b') as [B|] eqn:EB; [|by intros [= <- <-]]. destruct (objects s !! object_key b' k') as [om|] eqn:Hom; [|by intros [= <- <-]].
  match goal with |- (let '(r, s) := ?x in _) = _ -> _ => destruct x as [r1 s1] eqn:E end.
  assert (H1 : held s1); [|destruct r1; intros [= <- <-]; [done|by apply held_wal]].
  case_bool_decide as Evid; cbn [negb] in E; [|by eapply held_delete_version].
  case_bool_decide as Een; [destruct (existsb _ _); injection E as <- <-; [done|]|].
  - eapply held_after_write; [exact Hh|done|exact Hb'|done|done|]. intros -> -> om' w Hom' Hw Hr. rewrite Hom in Hom'. injection Hom' as ->.
    destruct (in_cleared w _ Hw Hr) as (w' & Hw' & Hr'). exists w'. split; [by right|done].
  - assert (Hne : b' <> b). { intros ->. destruct Hh as [(B' & HB' & HE) _]. congruence. }
    case_bool_decide; [destruct (suspend_null _) as [vs found]|]; injection E as <- <-.
    + eapply held_after_write; [exact Hh|done|exact Hb'|done|done|]. by intros ->.
    + eapply held_objects; [exact Hh|by eauto|]. intros om' w Hom' Hw Hr. cbn. rewrite lookup_delete_ne; [by eauto|].
      intros E. by apply object_key_inj in E as [-> _].
Qed.

Lemma held_LockObject h b' k' vid' t s r s' :
  intact h s -> held s -> plain_bucket b -> LockObject b' k' vid' t s = (r, s') -> held s'.
Proof.
  intros Hi Hh Hb. unfold LockObject, readBucketMeta, readObjectMeta.
  destruct (buckets s !! b') as [B|] eqn:EB; [|by intros [= <- <-]]. destruct (objects s !! object_key b' k') as [om|] eqn:Hom; [|by intros [= <- <-]].
  destruct (intact_plain _ _ Hi _ _ EB) as [Hb' _].
  match goal with |- context [find_index ?x _] => destruct (find_index x (Versions om)) as [i|] eqn:Ei end; [|by intros [= <- <-]].
  cbn. destruct (find_index_lookup _ _ _ Ei) as (v & Hv & _). rewrite Hv. cbn.
  match goal with |- (if ?x then _ else _) = _ -> _ => destruct x eqn:Et end; intros [= <- <-]; [done|].
  eapply held_after_write; [exact Hh|done|exact Hb'|done|done|]. intros -> -> om' w Hom' Hw Hr. rewrite Hom in Hom'. injection Hom' as ->. cbn [Versions].
  apply list_elem_of_lookup in Hw as [j Hj]. destruct (decide (j = i)) as [->|Hne].
  - rewrite Hv in Hj. injection Hj as ->. exists (set_lock t w). split; [apply list_elem_of_lookup; exists i; rewrite list_lookup_insert_eq; [done|by eapply lookup_lt_Some]|].
    destruct Hr as (H1 & H2 & H3 & t' & Ht' & Hle). rewrite Ht' in Et. apply Z.ltb_ge in Et. split_and!; try done. exists t. split; [done|lia].
  - exists w. split; [|done]. apply list_elem_of_lookup. exists j. by rewrite list_lookup_insert_ne.
Qed.

Lemma update_first_elem p f vs w : w ∈ vs -> w ∈ update_first p f vs \/ f w ∈ update_first p f vs.
Proof.
  induction vs as [|v vs IH]; cbn; [by intros ?%not_elem_of_nil|]. intros [->|Hw]%elem_of_cons; destruct (p _) eqn:E.
  - right. left.
  - left. left.
  - left. by right.
  - destruct (IH Hw); [left|right]; by right.
Qed.

Lemma held_change_tags c op b' k' vid' tags s r s' :
  held s -> plain_bucket b -> plain_bucket b' -> change_tags c op b' k' vid' tags s = (r, s') -> held s'.
Proof.
  intros Hh Hb Hb'. unfold change_tags, readObjectMeta. destruct (objects s !! object_key b' k') as [om|] eqn:Hom; [|by intros [= <- <-]].
  destruct (List.find _ _); intros [= <- <-]; [|done]. apply held_wal. eapply held_after_write; [exact Hh|done|exact Hb'|done|done|].
  intros -> -> om' w Hom' Hw Hr. rewrite Hom in Hom'. injection Hom' as ->. cbn [Versions].
  destruct (update_first_elem (tagged vid') (set_tags tags) _ _ Hw) as [H|H]; [by exists w|]. by exists (set_tags tags w).
Qed.

Lemma held_set_bucket f b' s r s' : (b' = b -> forall B, Versioning B = "Enabled" -> Versioning (f B) = "Enabled") -> held s -> set_bucket f b' s = (r, s') -> held s'.
Proof.
  intros Hf Hh. unfold set_bucket, readBucketMeta. destruct (buckets s !! b') as [B|] eqn:EB; intros [= <- <-]; [|done].
  eapply held_objects; [exact Hh| |by eauto]. intros B' HB' HE. cbn. destruct (decide (b' = b)) as [->|].
  - rewrite lookup_insert_eq. eexists. split; [done|]. apply Hf; [done|congruence].
  - rewrite lookup_insert_ne by done. eauto.
Qed.

Lemma held_CreateBucket c b' s r s' : held s -> CreateBucket c b' s = (r, s') -> held s'.
Proof.
  intros Hh. unfold CreateBucket, readBucketMeta. destruct (buckets s !! b') as [B|] eqn:EB; [by intros [= <- <-]|].
  destruct (MkdirAll _ _) as [f|]; intros [= <- <-]; [|done]. apply held_wal. eapply held_objects; [exact Hh| |by eauto].
  intros B' HB' HE. cbn. rewrite lookup_insert_ne; [by eauto|]. congruence.
Qed.

Lemma held_DeleteBucket c b' s r s' : held s -> plain_bucket b -> DeleteBucket c b' s = (r, s') -> held s'.
Proof.
  intros Hh Hb. unfold DeleteBucket, readBucketMeta. destruct (buckets s !! b') as [B|] eqn:EB; [|by intros [= <- <-]].
  destruct (existsb _ _) eqn:Ee; intros [= <- <-]; [done|]. apply held_wal.
  assert (Hne : b' <> b).
  { intros ->. destruct Hh as [_ (om & v & Hom & Hv & _)].
    assert (existsb (fun om => negb (bool_decide (Versions om = []))) (bucket_metas s b) = true); [|congruence].
    apply existsb_exists. exists om. split; [|destruct (Versions om); [by apply not_elem_of_nil in Hv|by rewrite bool_decide_false]].
    apply list_elem_of_In. unfold bucket_metas. apply list_elem_of_omap. exists (object_key b k). split; [|done].
    apply elem_of_bucket_keys. split; [by apply object_key_prefix|by rewrite Hom]. }
  eapply held_objects; [exact Hh| |by eauto]. intros B' HB' HE. cbn. rewrite lookup_delete_ne by done. eauto.
Qed.

Lemma held_expire_object now b' rules acc k' :
  now < until -> plain_bucket b -> plain_bucket b' -> held acc.2 -> held (expire_object now b' rules acc k').2.
Proof.
  destruct acc as [n s]. cbn. intros Hn Hb Hb' Hh. unfold expire_object, readObjectMeta. destruct (objects s !! object_key b' k') as [om|] eqn:Hom; [|done].
  case_bool_decide; [done|]. set (surviving := List.filter (survives now k' rules) (Versions om)).
  assert (Hkeep : forall w, w ∈ Versions om -> retained w -> w ∈ surviving).
  { intros w Hw Hr. apply list_elem_of_In, filter_In. split; [by apply list_elem_of_In|]. unfold survives. rewrite (retained_locked now w Hn Hr).
    by rewrite orb_true_r. }
  case_bool_decide as Es; cbn.
  - eapply held_objects; [exact Hh|by eauto|]. intros om' w Hom' Hw Hr. cbn. destruct (decide (object_key b' k' = object_key b k)) as [E|E].
    + apply object_key_inj in E as [-> ->]; [|done..]. rewrite Hom in Hom'. injection Hom' as ->. pose proof (Hkeep w Hw Hr) as H'. rewrite Es in H'. by apply not_elem_of_nil in H'.
    + rewrite lookup_delete_ne by done. eauto.
  - eapply held_after_write; [exact Hh|done|exact Hb'|done|done|]. intros -> -> om' w Hom' Hw Hr. rewrite Hom in Hom'. injection Hom' as ->.
    pose proof (Hkeep w Hw Hr) as Hin. cbn [Versions]. destruct (existsb _ _); [by exists w|].
    destruct surviving as [|x l]; [done|]. cbn. apply elem_of_cons in Hin as [->|Hin]; [exists (set_latest true x); split; [left|done]|exists w; split; [by right|done]].
Qed.

Lemma held_ApplyLifecycle h c s n s' : intact h s -> held s -> plain_bucket b -> (forall i, instant c i < until) -> ApplyLifecycle c s = (n, s') -> held s'.
Proof.
  intros Hi Hh Hb Ht. unfold ApplyLifecycle. generalize (ReadDirs (rootDir s) (fs s)) as names. intros names E.
  assert (H : forall acc, intact h acc.2 -> held acc.2 -> held (fold_left (expire_bucket (instant c 0)) names acc).2).
  { clear E. induction names as [|b' names IH]; intros acc Hacc Hh'; [done|]. cbn.
    assert (Hstep : intact h (expire_bucket (instant c 0) acc b').2 /\ held (expire_bucket (instant c 0) acc b').2); [|destruct Hstep; by apply IH].
    unfold expire_bucket, readBucketMeta. destruct (buckets acc.2 !! b') as [B|] eqn:EB; [|done]. case_bool_decide; [done|].
    destruct (intact_plain _ _ Hacc _ _ EB) as [Hb' _]. generalize (scanMetadataKeys acc.2 b') as keys. intros keys. clear EB. revert acc Hacc Hh'.
    induction keys as [|k' keys IHk]; intros acc Hacc Hh'; [done|]. cbn. apply IHk; [by apply intact_expire_object|by apply held_expire_object]. }
  specialize (H (0%Z, s) Hi Hh). by rewrite E in H.
Qed.

Lemma held_exec h c o s :
  intact h s -> held s -> plain_bucket b -> allowed c o s -> in_time c o -> held (exec c o s).2.
Proof.
  intros Hi Hh Hb Ha [Ht Hv]. destruct o; cbn in Ha, Hv; cbn [exec].
  - destruct (CreateBucket c b0 s) as [r s'] eqn:E. by eapply held_CreateBucket.
  - destruct (DeleteBucket c b0 s) as [r s'] eqn:E. by eapply held_DeleteBucket.
  - destruct (SetBucketVersioning b0 status s) as [r s'] eqn:E. eapply held_set_bucket in E; [exact E| |done]. intros Eb B _. by apply Hv.
  - destruct (SetBucketQuota b0 quota s) as [r s'] eqn:E. by eapply held_set_bucket in E.
  - destruct (SetBucketLifecycle b0 rules s) as [r s'] eqn:E. by eapply held_set_bucket in E.
  - destruct (SetBucketTriggers b0 triggers s) as [r s'] eqn:E. by eapply held_set_bucket in E.
  - destruct (SetBucketNotifications b0 rules s) as [r s'] eqn:E. by eapply held_set_bucket in E.
  - destruct (SetBucketGeoPlacement b0 cfg s) as [r s'] eqn:E. by eapply held_set_bucket in E.
  - destruct (PutObject c b0 k0 reader size contentType s) as [r s'] eqn:E. destruct Ha as (H1 & _). by eapply held_PutObject.
  - destruct (DeleteObject c b0 k0 vid0 s) as [r s'] eqn:E. destruct Ha as (H1 & _). by eapply held_DeleteObject.
  - destruct (LockObject b0 k0 vid0 retainUntil s) as [r s'] eqn:E. by eapply held_LockObject.
  - destruct (PutObjectTagging c b0 k0 vid0 tags s) as [r s'] eqn:E. by eapply held_change_tags.
  - destruct (DeleteObjectTagging c b0 k0 vid0 s) as [r s'] eqn:E. by eapply held_change_tags.
  - destruct (InitiateMultipartUpload c b0 k0 s) as [r s'] eqn:E. revert E. unfold InitiateMultipartUpload.
    repeat case_match; intros [= <- <-]; try done; by eapply held_same.
  - destruct (UploadPart c b0 k0 u n reader size s) as [r s'] eqn:E. revert E. unfold UploadPart.
    repeat case_match; intros [= <- <-]; try done; by eapply held_same.
  - destruct (CompleteMultipartUpload c b0 k0 u parts contentType s) as [r s'] eqn:E. destruct Ha as (H1 & _). by eapply held_CompleteMultipartUpload.
  - destruct (AbortMultipartUpload b0 k0 u s) as [r s'] eqn:E. revert E. unfold AbortMultipartUpload.
    repeat case_match; intros [= <- <-]; try done; by eapply held_same.
  - destruct (ApplyLifecycle c s) as [r s'] eqn:E. by eapply held_ApplyLifecycle.
Qed.

(** In a versioned bucket a write is recorded under a new identifier. *)
Lemma held_recorded h c o s :
  intact h s -> held s -> allowed c o s -> contents (record o (exec c o s).1 h) !! (b, k, vid) = contents h !! (b, k, vid).
Proof.
  intros Hi [(B & HB & HE) (om & v & Hom & Hv & (Hid & _))] Ha. pose proof (proj2 (intact_plain _ _ Hi _ _ HB)) as Hcas.
  assert (Hold : vid ∈ ids (old_versions s b k)) by (unfold old_versions; rewrite Hom, <- Hid; by apply list_elem_of_fmap_2).
  assert (Hrec : forall b' k' vid' p, (b' = b -> k' = k -> fresh_id c b k s -> vid' = generateUUID c 0) -> fresh_id c b' k' s ->
    contents (record_content b' k' vid' p h) !! (b, k, vid) = contents h !! (b, k, vid)).
  { intros b' k' vid' p Hnew Hf. cbn. rewrite lookup_insert_ne; [done|]. intros [= -> -> E]. apply Hf. by rewrite <- (Hnew eq_refl eq_refl Hf), E. }
  destruct o; cbn [exec record]; try (repeat case_match; done).
  - destruct (PutObject c b0 k0 reader size contentType s) as [r s'] eqn:E. cbn. destruct reader as [p|]; [|done]. destruct r as [|w]; [done|].
    destruct Ha as (_ & _ & Hctx & Hf). apply Hrec; [|done]. intros -> -> _. revert E. unfold PutObject, readBucketMeta. rewrite HB, Hctx, Hcas, HE.
    rewrite bool_decide_true by done. cbn [andb]. repeat (case_match; [by intros [= ? ?]|]); repeat case_match; intros E; by simplify_eq.
  - destruct (CompleteMultipartUpload c b0 k0 u parts contentType s) as [r s'] eqn:E. cbn. destruct r as [|w]; [done|].
    destruct Ha as (_ & _ & _ & Hf & _). apply Hrec; [|done]. intros -> -> _. revert E. unfold CompleteMultipartUpload, readBucketMeta. rewrite HB, HE.
    rewrite bool_decide_true by done. repeat case_match; intros E; by simplify_eq.
Qed.

Lemma held_run steps h s :
  intact h s -> held s -> plain_bucket b -> allowed_run steps s -> Forall (fun co => in_time co.1 co.2) steps ->
  held (run steps h s).2 /\ contents (run steps h s).1 !! (b, k, vid) = contents h !! (b, k, vid).
Proof.
  revert h s. induction steps as [|[c o] steps IH]; intros h s Hi Hh Hb Ha Ht; [done|]. destruct Ha as [Ha1 Ha2].
  apply Forall_cons in Ht as [Ht1 Ht2]. cbn in *.
  destruct (IH _ _ (intact_exec _ _ _ _ Hi Ha1) (held_exec _ _ _ _ Hi Hh Hb Ha1 Ht1) Hb Ha2 Ht2) as [H1 H2].
  split; [done|]. rewrite H2. by apply held_recorded.
Qed.
End Locks.

(** C5: a retention lock holds.  Take any store that a run of the operations
    [op] under [allowed] leads to from an empty one, and in it a version in a
    versioned bucket that is locked until some instant.  Whatever operations
    of [op] under [allowed] follow before that instant, lifecycle, deletions
    and attempts to relock it included, as long as versioning of the bucket
    stays enabled: the version can be read with the same content, and
    deleting it is refused.  Restarts and the restore of a backup are no
    operations of [op]; the restore does not respect locks
    ([restore_ignores_locks]). *)
Theorem locked_version_survives `{codec : Codec} key root steps0 steps b k om v until :
  let '(h, s) := run steps0 empty_history (empty_store key root) in
  allowed_run steps0 (empty_store key root) -> plain_bucket b ->
  (exists B, buckets s !! b = Some B /\ Versioning B = "Enabled") ->
  objects s !! object_key b k = Some om -> v ∈ Versions om -> retained (VersionID v) until v ->
  allowed_run steps s -> Forall (fun co => in_time b until co.1 co.2) steps ->
  let s' := (run steps h s).2 in
  forall c, ctx_timeTravel c = None -> (forall i, instant c i < until) ->
  (exists p, GetObjectBytes c b k (VersionID v) s = inr p /\ GetObjectBytes c b k (VersionID v) s' = inr p) /\
  DeleteObject c b k (VersionID v) s' = (inl ErrObjectLocked, s').
Proof.
  pose proof (intact_run steps0 _ _ (intact_empty key root)) as Hi0. destruct (run steps0 _ _) as [h s]. cbn in Hi0.
  intros Ha0 Hb HB Hom Hv Hret Ha Ht s' c Hc Hnow. specialize (Hi0 Ha0). assert (Hh : held b k (VersionID v) until s) by (split; eauto).
  destruct (held_run b k (VersionID v) until steps h s Hi0 Hh Hb Ha Ht) as [Hh' Hcont]. pose proof (intact_run steps h s Hi0 Ha) as Hi'. fold s' in Hh', Hi'.
  pose proof Hh' as [(B' & HB' & _) (om' & v' & Hom' & Hv' & Hret')]. pose proof Hret' as (Hid' & Hm' & _).
  destruct (read_version _ _ _ _ _ _ c Hi0 Hb Hom Hv ltac:(by destruct Hret as (_ & ? & _)) Hc) as (p & Hp & _ & Hr & _).
  destruct (read_version _ _ _ _ _ _ c Hi' Hb Hom' Hv' Hm' Hc) as (p' & Hp' & _ & Hr' & _). rewrite Hid' in Hp', Hr'.
  split; [exists p; split; [done|]; congruence|].
  destruct (intact_lookup _ _ _ _ _ Hi' Hb Hom') as (_ & _ & [Hnd Hok _]). rewrite Forall_forall in Hok. destruct (Hok v' Hv') as [(Hne & _) _]. rewrite Hid' in Hne.
  unfold DeleteObject, readBucketMeta, readObjectMeta. rewrite HB', Hom'. rewrite bool_decide_false by done. cbn [negb]. unfold delete_version.
  destruct (find_index (VersionID v) (Versions om')) as [i|] eqn:Ei.
  - destruct (find_index_lookup _ _ _ Ei) as (w & Hw & Hwid). rewrite Hw.
    assert (w = v') as ->. { eapply ids_inj; [exact Hnd|by eapply list_elem_of_lookup_2|done|congruence]. }
    by rewrite (retained_locked _ until (instant c 0) v' (Hnow 0%nat) Hret').
  - exfalso. rewrite <- Hid' in Ei. clear -Ei Hv'. induction (Versions om') as [|w vs IH]; [by apply not_elem_of_nil in Hv'|].
    cbn in Ei. unfold by_id in Ei. case_bool_decide as E; [done|]. apply elem_of_cons in Hv' as [->|Hv']; [done|].
    destruct (find_index _ vs); [done|]. by apply IH.
Qed.

(** ** A small store *)

#[local] Existing Instance demo_codec.

Definition demo_steps : list (Call * op) :=
  [(at_time 1, OCreateBucket "b"); (at_time 2, OVersioning "b" "Enabled"); (at_time 3, OPut "b" "dir/a.txt" (Some (byt "first")) 5 "text/plain");
   (at_time 4, OLock "b" "dir/a.txt" "" 100); (at_time 5, OPut "b" "dir/a.txt" (Some (byt "second")) 0 "text/plain")].

Definition later_steps : list (Call * op) :=
  [(at_time 10, ODelete "b" "dir/a.txt" ""); (at_time 11, ODeleteBucket "b"); (at_time 12, ORules "b" [mkRule "r" true "" 1]); (at_time 13, OApplyLifecycle);
   (at_time 14, OLock "b" "dir/a.txt" (generateUUID (at_time 3) 0) 50); (at_time 15, OPut "b" "other" (Some []) 0 "")].

Lemma locked_version_survives_witness :
  exists p, GetObjectBytes (at_time 20) "b" "dir/a.txt" (generateUUID (at_time 3) 0)
              (run later_steps (run demo_steps empty_history no_key).1 (run demo_steps empty_history no_key).2).2 = inr p /\ p = byt "first".
Proof.
  pose proof (locked_version_survives None demo_root demo_steps later_steps "b" "dir/a.txt") as H.
  change (empty_store None demo_root) with no_key in H.
  destruct (run demo_steps empty_history no_key) as [h s] eqn:E. cbn [fst snd].
  assert (Es : s = (run demo_steps empty_history no_key).2) by by rewrite E.
  assert (Hom : exists om v, objects s !! object_key "b" "dir/a.txt" = Some om /\ v ∈ Versions om /\ VersionID v = generateUUID (at_time 3) 0 /\
    retained (VersionID v) 100 v /\ GetObjectBytes (at_time 20) "b" "dir/a.txt" (VersionID v) s = inr (byt "first")).
  { rewrite Es. eexists _, _. split; [vm_compute; reflexivity|]. split; [right; left|]. split; [vm_compute; reflexivity|].
    split; [|vm_compute; reflexivity]. split; [reflexivity|]. split; [reflexivity|]. split; [reflexivity|]. exists 100. split; [reflexivity|lia]. }
  destruct Hom as (om & v & Hom & Hv & Hid & Hret & Hget).
  destruct (fun A B C D F => H om v 100 A B C Hom Hv Hret D F (at_time 20)) as [(p & H1 & H2) _].
  - allowed_closed.
  - decide_closed.
  - rewrite Es. eexists. split; vm_compute; reflexivity.
  - rewrite Es. allowed_closed.
  - repeat constructor; cbn; try lia; done.
  - reflexivity.
  - cbn. lia.
  - exists p. rewrite Hid in H2, Hget, H1. split; [exact H2|]. congruence.
Defined.

(** ** The quota of a bucket *)

Fixpoint sum (l : list Z) : Z := match l with [] => 0 | x :: l => x + sum l end.

Lemma sum_perm l l' : l ≡ₚ l' -> sum l = sum l'.
Proof. induction 1; cbn in *; lia. Qed.

#[local] Instance sum_proper : Proper ((≡ₚ) ==> (=)) sum.
Proof. intros l l'. apply sum_perm. Qed.

Lemma omap_perm {A B} (f : A -> option B) (l l' : list A) : l ≡ₚ l' -> omap f l ≡ₚ omap f l'.
Proof.
  induction 1 as [|x l l' _ IH|x y l|l1 l2 l3 _ IH1 _ IH2]; cbn; [done| | |by etrans].
  - destruct (f x); [by constructor|done].
  - destruct (f x), (f y); done || constructor.
Qed.

Lemma sum_nonneg l : Forall (fun x => 0 <= x) l -> 0 <= sum l.
Proof. induction 1; cbn; lia. Qed.

Lemma wrap64_add a b : wrap64 (wrap64 a + b) = wrap64 (a + b).
Proof.
  unfold wrap64. replace ((a + 2 ^ 63) mod 2 ^ 64 - 2 ^ 63 + b + 2 ^ 63) with ((a + 2 ^ 63) mod 2 ^ 64 + b) by lia.
  rewrite Z.add_mod_idemp_l by lia. do 2 f_equal. lia.
Qed.

Section Quota.
Context `{codec : Codec}.

(** The bytes of the latest versions, without overflow. *)
Definition live (v : ObjectVersion) : Z := if IsLatest v && negb (IsDeleteMarker v) then Size v else 0.
Definition live_size (om : ObjectMeta) : Z := sum (live <$> Versions om).
Definition usage (s : LocalStore) (b : string) : Z := sum (live_size <$> bucket_metas s b).

Lemma fold_wrap {A} (f : A -> Z) (l : list A) acc : fold_left (fun acc x => wrap64 (acc + f x)) l (wrap64 acc) = wrap64 (acc + sum (f <$> l)).
Proof.
  revert acc. induction l as [|x l IH]; intros acc; cbn; [f_equal; lia|]. rewrite wrap64_add, IH. f_equal. lia.
Qed.

Lemma latest_size_live om : latest_size om = wrap64 (live_size om).
Proof.
  unfold latest_size, live_size. assert (H : forall acc, fold_left (fun acc v => if IsLatest v && negb (IsDeleteMarker v) then wrap64 (acc + Size v) else acc) (Versions om) (wrap64 acc)
    = wrap64 (acc + sum (live <$> Versions om))).
  { induction (Versions om) as [|v vs IH]; intros acc; cbn; [f_equal; lia|]. unfold live at 1. destruct (_ && _).
    - rewrite wrap64_add, IH. f_equal. lia.
    - rewrite IH. f_equal. }
  apply (H 0).
Qed.

Lemma getBucketUsage_usage s b : getBucketUsageNoLock s b = wrap64 (usage s b).
Proof.
  unfold getBucketUsageNoLock, usage.
  assert (H : forall (l : list ObjectMeta) acc, fold_left (fun acc om => wrap64 (acc + latest_size om)) l (wrap64 acc) = wrap64 (acc + sum (live_size <$> l))).
  { induction l as [|om l IH]; intros acc; cbn; [f_equal; lia|]. rewrite latest_size_live, wrap64_add, Z.add_comm, wrap64_add, IH. f_equal. lia. }
  apply (H _ 0).
Qed.

(** ** The usage as a sum over the database *)

Definition in_bucket (b : string) (kv : string * ObjectMeta) : Prop := HasPrefix kv.1 (b +:+ ":") = true.

#[local] Instance in_bucket_dec b kv : Decision (in_bucket b kv).
Proof. unfold in_bucket. apply _. Defined.

Definition total (b : string) (l : list (string * ObjectMeta)) : Z := sum ((fun kv : string * ObjectMeta => live_size kv.2) <$> filter (in_bucket b) l).

Lemma usage_total s b : usage s b = total b (map_to_list (objects s)).
Proof.
  unfold usage, total, bucket_metas, bucket_keys. rewrite (omap_perm _ _ _ (sort_Strings_perm _)). f_equal.
  assert (H : forall l : list (string * ObjectMeta), (forall kv, kv ∈ l -> objects s !! kv.1 = Some kv.2) ->
    live_size <$> omap (fun k => objects s !! k) (filter (fun k => HasPrefix k (b +:+ ":") = true) l.*1) = (fun kv : string * ObjectMeta => live_size kv.2) <$> filter (in_bucket b) l).
  { induction l as [|[k om] l IH]; intros Hl; [done|]. rewrite fmap_cons.
    specialize (IH (fun kv Hkv => Hl kv (list_elem_of_further _ _ _ Hkv))). destruct (decide (HasPrefix k (b +:+ ":") = true)).
    - rewrite !filter_cons_True by done. assert (E : objects s !! k = Some om) by exact (Hl (k, om) (list_elem_of_here _ _)). cbn. rewrite E. cbn. by f_equal.
    - by rewrite !filter_cons_False by done. }
  apply H. intros [k om]. by rewrite elem_of_map_to_list.
Qed.

Lemma total_perm b l l' : l ≡ₚ l' -> total b l = total b l'.
Proof. intros H. unfold total. apply sum_perm. by rewrite H. Qed.

Lemma total_cons b k om l : total b ((k, om) :: l) = (if HasPrefix k (b +:+ ":") then live_size om else 0) + total b l.
Proof.
  unfold total. destruct (HasPrefix k (b +:+ ":")) eqn:E; [by rewrite filter_cons_True|].
  rewrite filter_cons_False; [done|]. unfold in_bucket. cbn. congruence.
Qed.

Definition old_size (s : LocalStore) (b k : string) : Z := sum (live <$> old_versions s b k).

Lemma usage_insert s s' b k om' :
  plain_bucket b -> objects s' = <[object_key b k := om']> (objects s) -> usage s' b = usage s b - old_size s b k + live_size om'.
Proof.
  intros Hb HO. rewrite !usage_total, HO. assert (Hp : HasPrefix (object_key b k) (b +:+ ":") = true) by by apply object_key_prefix.
  unfold old_size, old_versions. rewrite <- insert_delete_eq.
  rewrite (total_perm b _ _ (map_to_list_insert _ (object_key b k) om' (lookup_delete_eq _ _))), total_cons, Hp.
  destruct (objects s !! object_key b k) as [om|] eqn:E.
  - rewrite <- (insert_delete_id (objects s) (object_key b k) om E) at 2. rewrite (total_perm b (map_to_list (<[_ := om]> _)) _ (map_to_list_insert _ _ om (lookup_delete_eq _ _))), total_cons, Hp.
    unfold live_size. lia.
  - rewrite delete_id by done. cbn. lia.
Qed.

(** ** Accepted writes *)

Lemma live_cleared vs : sum (live <$> (set_latest false <$> vs)) = 0.
Proof. induction vs as [|v vs IH]; cbn; [done|]. by rewrite IH. Qed.

Lemma sizes_nonneg h s b k vs : object_ok h s b k vs -> Forall (fun v => 0 <= live v) vs.
Proof.
  intros [_ H _]. eapply Forall_impl; [exact H|]. intros v [_ Hv]. unfold live. destruct (IsLatest v); cbn; [|lia].
  destruct (IsDeleteMarker v) eqn:E; cbn; [lia|]. destruct (Hv eq_refl) as (p & _ & _ & ->). lia.
Qed.

Lemma old_size_nonneg h s b k : intact h s -> plain_bucket b -> 0 <= old_size s b k.
Proof.
  intros Hi Hb. unfold old_size, old_versions. destruct (objects s !! object_key b k) as [om|] eqn:E; [|done].
  destruct (intact_lookup _ _ _ _ _ Hi Hb E) as (_ & _ & Hok). apply sum_nonneg, Forall_fmap. by eapply sizes_nonneg.
Qed.

(** What the check deducts is at most what the write frees. *)
Lemma existing_size_bound h s B b k : intact h s -> plain_bucket b -> 0 <= existing_size s B b k <= old_size s b k.
Proof.
  intros Hi Hb. pose proof (old_size_nonneg h s b k Hi Hb) as Hold. unfold existing_size. case_bool_decide; [lia|].
  unfold readObjectMeta, old_size, old_versions in *. destruct (objects s !! object_key b k) as [om|] eqn:E; [|lia].
  destruct (intact_lookup _ _ _ _ _ Hi Hb E) as (_ & _ & Hok). pose proof (sizes_nonneg _ _ _ _ _ Hok) as Hnn. destruct Hok as [_ _ Hl].
  destruct (Versions om) as [|v vs]; [done|]. destruct Hl as [Hv Hvs].
  assert (Hrest : forall acc, fold_left (fun acc v => if is_null v && IsLatest v && negb (IsDeleteMarker v) then Size v else acc) vs acc = acc).
  { clear -Hvs. induction Hvs as [|w vs Hw Hvs IH]; intros acc; cbn; [done|]. rewrite Hw, andb_false_r. cbn. apply IH. }
  cbn. rewrite Hrest, Hv. rewrite andb_true_r. apply Forall_cons in Hnn as [H1 H2]. pose proof (sum_nonneg (live <$> vs) ltac:(by apply Forall_fmap)) as H3.
  unfold live in H1 |- * at 1. rewrite Hv in *. cbn in *. destruct (is_null v), (IsDeleteMarker v); cbn in *; lia.
Qed.

Lemma usage_nonneg h s b : intact h s -> 0 <= usage s b.
Proof.
  intros Hi. unfold usage. apply sum_nonneg, Forall_fmap, Forall_forall. intros om Hom. unfold bucket_metas in Hom. apply list_elem_of_omap in Hom as (x & _ & Hx).
  destruct (intact_objects _ _ Hi _ _ Hx) as (b' & k & _ & _ & _ & _ & Hok). apply sum_nonneg, Forall_fmap. by eapply sizes_nonneg.
Qed.

(** A write that passes the check fits. *)
Lemma checked_write_fits h s s' B b k keep v p :
  intact h s -> plain_bucket b -> 0 < Quota B -> IsLatest v = true -> IsDeleteMarker v = false -> 0 <= Size v ->
  usage s b + Size v <= max_int64 -> quota_exceeded s B b k (Size v) = false ->
  objects s' = objects (add_version s b k keep v p) -> usage s' b <= Quota B.
Proof.
  intros Hi Hb Hq Hl Hm Hsize Hover Hcheck HO.
  assert (exists om', objects s' = <[object_key b k := om']> (objects s) /\ live_size om' = Size v) as (om' & HO' & Hlive).
  { rewrite HO. unfold add_version, readObjectMeta. eexists. split; [reflexivity|].
    unfold live_size. cbn. unfold live at 1. rewrite Hl, Hm. cbn. rewrite live_cleared. lia. }
  rewrite (usage_insert s s' b k om' Hb HO'), Hlive. pose proof (existing_size_bound h s B b k Hi Hb) as He. pose proof (usage_nonneg h s b Hi) as Hu.
  unfold quota_exceeded in Hcheck. rewrite getBucketUsage_usage in Hcheck. rewrite (proj2 (Z.ltb_lt 0 _) Hq) in Hcheck. cbn in Hcheck. apply Z.ltb_ge in Hcheck.
  rewrite wrap64_add in Hcheck. replace (wrap64 (usage s b) - existing_size s B b k + Size v) with (wrap64 (usage s b) + (Size v - existing_size s B b k)) in Hcheck by lia.
  rewrite wrap64_add in Hcheck. assert (Hold : old_size s b k <= usage s b + Size v).
  { destruct (objects s !! object_key b k) as [om|] eqn:E; [|unfold old_size, old_versions; rewrite E; cbn; lia].
    assert (Hin : usage s b = usage (deleteObjectMeta b k s) b + old_size s b k).
    { rewrite !usage_total. cbn. unfold old_size, old_versions. rewrite E.
      rewrite <- (insert_delete_id (objects s) (object_key b k) om E) at 1.
      rewrite (total_perm b _ _ (map_to_list_insert _ _ om (lookup_delete_eq _ _))), total_cons.
      rewrite (proj2 (object_key_prefix b b k Hb Hb) eq_refl). unfold live_size. lia. }
    rewrite Hin. assert (0 <= usage (deleteObjectMeta b k s) b); [|lia].
    rewrite usage_total. cbn. unfold total. apply sum_nonneg, Forall_fmap, Forall_forall. intros [x om2] Hx. cbn.
    apply list_elem_of_filter in Hx as [_ Hx]. apply elem_of_map_to_list, lookup_delete_Some in Hx as [_ Hx].
    destruct (intact_objects _ _ Hi _ _ Hx) as (b' & k' & _ & _ & _ & _ & Hok). apply sum_nonneg, Forall_fmap. by eapply sizes_nonneg. }
  rewrite wrap64_id in Hcheck; [lia|]. unfold in_int64. unfold min_int64, max_int64 in *. lia.
Qed.

(** C36: the quota is respected.  In every store that a run leads to, a put
    or a completed upload that is accepted in a bucket with a quota leaves
    the latest versions of the bucket within it, unless their sizes overflow
    64 bits. *)
Theorem quota_respected key root steps c b k B v s' :
  let s := (run steps empty_history (empty_store key root)).2 in
  allowed_run steps (empty_store key root) -> plain_bucket b -> buckets s !! b = Some B -> 0 < Quota B -> usage s b + Size v <= max_int64 ->
  (exists reader size ct, PutObject c b k reader size ct s = (inr v, s')) \/
  (exists u parts ct, CompleteMultipartUpload c b k u parts ct s = (inr v, s')) ->
  usage s' b <= Quota B.
Proof.
  intros s Ha Hb HB Hq Hover Hw. pose proof (intact_run steps _ _ (intact_empty key root) Ha) as Hi. fold s in Hi.
  destruct Hw as [(reader & size & ct & E)|(u & parts & ct & E)].
  - unfold PutObject, readBucketMeta in E. rewrite HB in E. destruct reader as [p|]; [|done]. destruct (_ && _) in E; [done|].
    destruct (overwrite_locked _ _ _ _ _); [done|]. destruct (quota_exceeded s B b k _) eqn:Eq; [done|].
    destruct (MkdirAll _ _) as [f1|]; [|done]. match type of E with context [if ?x then Some f1 else ?y] => destruct (if x then Some f1 else y) as [f2|] end; [|done]. injection E as <- <-.
    eapply (checked_write_fits _ s _ B b k _ _ []); [exact Hi|done|done| | | |exact Hover|exact Eq|rewrite objects_wal; reflexivity]; [done|done|cbn; lia].
  - unfold CompleteMultipartUpload, readBucketMeta in E. rewrite HB in E. destruct (negb _); [done|].
    destruct (MkdirAll _ _) as [f1|]; [|done]. destruct (WriteFile _ _ f1) as [f2|]; [|done]. destruct (assemble _ _ _ _) as [|p]; [done|].
    destruct (quota_exceeded _ B b k _) eqn:Eq; [done|]. injection E as <- <-.
    eapply (checked_write_fits _ s _ B b k _ _ []); [exact Hi|done|done| | | |exact Hover|exact Eq|reflexivity]; [done|done|cbn; lia].
Qed.
End Quota.

(** ** A small bucket *)

#[local] Existing Instance demo_codec.

Definition quota_steps : list (Call * op) :=
  [(at_time 1, OCreateBucket "b"); (at_time 2, OQuota "b" 10); (at_time 3, OPut "b" "x" (Some (byt "123456")) 0 "")].

Definition quota_store : LocalStore := (run quota_steps empty_history (empty_store None demo_root)).2.
Definition quota_put : (Err + ObjectVersion) * LocalStore := PutObject (at_time 4) "b" "x" (Some (byt "0123456789")) 0 "" quota_store.

Lemma quota_respected_witness :
  usage quota_put.2 "b" <= 10 /\ usage quota_put.2 "b" = 10 /\
  (PutObject (at_time 4) "b" "y" (Some (byt "12345")) 0 "" quota_store).1 = inl (QuotaExceeded 10).
Proof.
  split; [|split; vm_compute; reflexivity].
  assert (HB : exists B, buckets quota_store !! "b" = Some B /\ Quota B = 10) by (eexists; split; vm_compute; reflexivity).
  destruct HB as (B & HB & <-). destruct quota_put as [[e|v] s'] eqn:E; [exfalso; vm_compute in E; discriminate E|]. cbn [snd].
  apply (quota_respected None demo_root quota_steps (at_time 4) "b" "x" B v s'); [allowed_closed|decide_closed|exact HB| | |].
  - assert (H : (Quota B =? 10) = true) by (vm_compute in HB; injection HB as <-; reflexivity). lia.
  - assert (H : match fst quota_put with inr w => usage quota_store "b" + Size w | inl _ => 0 end = 16) by (vm_compute; reflexivity).
    rewrite E in H. cbn [fst] in H. change ((run quota_steps empty_history (empty_store None demo_root)).2) with quota_store. rewrite H. vm_compute. discriminate.
  - left. eexists _, _, _. exact E.
Defined.

(** ** Concrete runs that show what the store does not keep *)

#[local] Existing Instance demo_codec.

Definition after_steps (key : option bytes) (steps : list (Call * op)) : LocalStore := (run steps empty_history (empty_store key demo_root)).2.

(** An unversioned bucket with a locked object. *)
Definition locked_store : LocalStore :=
  after_steps None [(at_time 1, OCreateBucket "b"); (at_time 2, OPut "b" "a" (Some (byt "one")) 0 ""); (at_time 3, OLock "b" "a" "" 100)].

(** The lock stops an overwrite, but not a deletion. *)
Example delete_ignores_lock :
  (PutObject (at_time 4) "b" "a" (Some (byt "two")) 0 "" locked_store).1 = inl ErrObjectLocked /\
  objects (DeleteObject (at_time 4) "b" "a" "" locked_store).2 !! object_key "b" "a" = None.
Proof. split; vm_compute; reflexivity. Qed.

(** Nor does it stop a completed upload. *)
Example upload_ignores_lock :
  let s := (run [(at_time 4, OInitiate "b" "a"); (at_time 5, OUpload "b" "a" upload 1 (Some (byt "two")) 0);
                 (at_time 6, OComplete "b" "a" upload [mkPart 1 ""] "")] empty_history locked_store).2 in
  GetObjectBytes (at_time 7) "b" "a" "" s = inr (byt "two").
Proof. vm_compute. reflexivity. Qed.

(** A completion that fails, here for a missing part, has already truncated
    the file of the object it was to replace. *)
Example failed_upload_destroys :
  let s := (InitiateMultipartUpload (at_time 4) "b" "a" locked_store).2 in
  let '(r, s') := CompleteMultipartUpload (at_time 6) "b" "a" upload [mkPart 1 ""] "" s in
  r = inl (MissingPart 1) /\ GetObjectBytes (at_time 7) "b" "a" "" s = inr (byt "one") /\ GetObjectBytes (at_time 7) "b" "a" "" s' = inl Corrupt.
Proof. vm_compute. split; [reflexivity|split; reflexivity]. Qed.

(** Every start replays the whole journal on top of the database: versions
    are listed twice, and the settings of the bucket are gone. *)
Definition restarted (s : LocalStore) : LocalStore := default s (NewLocalStore s).

Example restart_duplicates_versions :
  let s := after_steps None [(at_time 1, OCreateBucket "b"); (at_time 2, OQuota "b" 10); (at_time 3, OPut "b" "a" (Some (byt "one")) 0 "")] in
  (fun om => ids (Versions om)) <$> objects (restarted s) !! object_key "b" "a" = Some ["null"; "null"] /\
  GetBucketQuota "b" s = inr 10 /\ GetBucketQuota "b" (restarted s) = inr 0.
Proof. split; [|split]; vm_compute; reflexivity. Qed.

(** The replay writes plain contents, which a store with a key cannot read. *)
Example restart_loses_encrypted :
  let s := after_steps (Some (deriveKey "k")) [(at_time 1, OCreateBucket "b"); (at_time 3, OPut "b" "a" (Some (byt "a long payload")) 0 "")] in
  GetObjectBytes (at_time 7) "b" "a" "" s = inr (byt "a long payload") /\
  GetObjectBytes (at_time 7) "b" "a" "" (WithEncryptionKey "k" (restarted s)) = inl DecryptFailed.
Proof. split; vm_compute; reflexivity. Qed.

(** Equal contents share a file, but each object remembers for itself whether
    the file is compressed. *)
Definition addressed_store : LocalStore :=
  let s := (SetBucketContentAddressable "b" true (after_steps None [(at_time 1, OCreateBucket "b")])).2 in
  let s := (PutObject (at_time 2) "b" "a.txt" (Some (byt "same")) 0 "" s).2 in
  (PutObject (at_time 3) "b" "a.bin" (Some (byt "same")) 0 "" s).2.

Example shared_content_corrupt :
  GetObjectBytes (at_time 7) "b" "a.txt" "" addressed_store = inr (byt "same") /\ GetObjectBytes (at_time 7) "b" "a.bin" "" addressed_store = inl Corrupt.
Proof. split; vm_compute; reflexivity. Qed.

(** The lifecycle removes a shared file that other objects still need. *)
Example lifecycle_removes_shared :
  let day := 24 * GoTime.Hour in
  let s := (SetBucketLifecycle "b" [mkRule "r" true "a.txt" 1] addressed_store).2 in
  let s := (PutObject (at_time day) "b" "b.txt" (Some (byt "same")) 0 "" s).2 in
  GetObjectBytes (at_time 7) "b" "b.txt" "" s = inr (byt "same") /\
  GetObjectBytes (at_time 7) "b" "b.txt" "" (ApplyLifecycle (at_time (day + 3)) s).2 = inl DiskError.
Proof. split; vm_compute; reflexivity. Qed.

(** Different keys with one cleaned path share a file. *)
Example keys_share_a_file :
  let s := after_steps None [(at_time 1, OCreateBucket "b"); (at_time 2, OPut "b" "x/y" (Some (byt "one")) 0 ""); (at_time 3, OPut "b" "x//y" (Some (byt "two")) 0 "")] in
  GetObjectBytes (at_time 7) "b" "x//y" "" s = inr (byt "two") /\ GetObjectBytes (at_time 7) "b" "x/y" "" s = inl Corrupt.
Proof. split; vm_compute; reflexivity. Qed.

(** Restoring a bucket drops locked versions and everything uploaded in
    parts. *)
Example restore_ignores_locks :
  objects (RestoreBucketToPointInTime (at_time 9) "b" 1 locked_store) !! object_key "b" "a" = None.
Proof. vm_compute. reflexivity. Qed.

Section Large.
Context `{codec : Codec}.

(** The checksum of an upload over 8 MB is the hash of the hashes of chunks,
    but reading compares the hash of the whole: the object is reported as
    corrupt. *)
Lemma large_upload_unreadable s b k v p nonce :
  length nonce = NonceSize -> chunkThreshold < Z.of_nat (length p) ->
  (forall n, ParallelBlake3Hash n p <> hex (blake3 p)) -> (exists n, Checksum v = ParallelBlake3Hash n p) -> Checksum v <> "" ->
  ReadFile (getObjectDataPath s b k (VersionID v)) (fs s) = Some (encode_payload s nonce (Compressed v) p) ->
  match open_version s b k v with inl e => e = Corrupt | inr r => ReadAll r = inl Corrupt end.
Proof.
  intros Hn Hlen Hdiff (n & Hsum) Hne Hf. unfold open_version, encode_payload, checked in *. rewrite Hf.
  assert (Hneq : bool_decide (hex (blake3 p) = Checksum v) = false) by (apply bool_decide_eq_false; rewrite Hsum; by intros E; apply (Hdiff n)).
  rewrite (bool_decide_false (Checksum v = "")) by done.
  destruct (encryptionKey s) as [key|]; [rewrite decrypt_encrypt by done|]; destruct (Compressed v); rewrite ?DecodeAll_EncodeAll; rewrite ?Hneq; try done.
  unfold ReadAll. cbn. by rewrite Hneq.
Qed.
End Large.
