(* ===== verification/MeshRegistry.v ===== *)
(** * The service registry of the mesh ([mesh/pkg/registry/registry.go],
    [topology.go]) and its lock store ([mesh/pkg/lock/lock.go])

    Every method is one critical section.  A method that reads the clock
    takes the instants, in the order of its readings, as a function; one that
    reads it once takes the instant.  HTTP handlers take the decoded body, or
    the message of the decoder's error. *)

From S2P Require Import Prelude GoStrings GoTime GoFloat.
Local Open Scope string_scope.
Local Open Scope Z_scope.
Local Open Scope list_scope.

(** ** Lock store *)

Record LockEntry := mkLock { l_Key : string; l_Owner : string; l_ExpiresAt : Z; l_AcquiredAt : Z; l_Token : Z }.

Record AcquireResult := mkAcquired { Acquired : bool; a_Lock : option LockEntry; HeldBy : string }.

Record Store := mkStore { locks : gmap string LockEntry; nextToken : Z; defaultTTL : Z }.

Definition NewStore (ttl : Z) : Store := mkStore ∅ 0 ttl.

Definition IsExpired (now : Z) (l : LockEntry) : bool := l_ExpiresAt l <? now.

Definition ttl_or_default (s : Store) (ttl : Z) : Z := if ttl <=? 0 then defaultTTL s else ttl.

Definition Acquire (t : nat -> Z) (key owner : string) (ttl : Z) (s : Store) : AcquireResult * Store :=
  let ttl := ttl_or_default s ttl in
  let token := wrap64 (nextToken s + 1) in
  let fresh :=
    let entry := mkLock key owner (t 2%nat + ttl) (t 1%nat) token in
    (mkAcquired true (Some entry) "", mkStore (<[key := entry]> (locks s)) token (defaultTTL s)) in
  match locks s !! key with
  | Some existing =>
      if IsExpired (t 0%nat) existing then fresh
      else if bool_decide (l_Owner existing = owner) then
        let entry := mkLock (l_Key existing) (l_Owner existing) (t 1%nat + ttl) (l_AcquiredAt existing) token in
        (mkAcquired true (Some entry) "", mkStore (<[key := entry]> (locks s)) token (defaultTTL s))
      else (mkAcquired false None (l_Owner existing), s)
  | None => fresh
  end.

Definition Release (key owner : string) (s : Store) : bool * Store :=
  match locks s !! key with
  | None => (false, s)
  | Some existing =>
      if negb (bool_decide (l_Owner existing = owner)) then (false, s)
      else (true, mkStore (delete key (locks s)) (nextToken s) (defaultTTL s))
  end.

Definition Extend (t : nat -> Z) (key owner : string) (ttl : Z) (s : Store) : option LockEntry * Store :=
  let ttl := ttl_or_default s ttl in
  match locks s !! key with
  | None => (None, s)
  | Some existing =>
      if IsExpired (t 0%nat) existing || negb (bool_decide (l_Owner existing = owner)) then (None, s)
      else
        let entry := mkLock (l_Key existing) (l_Owner existing) (t 1%nat + ttl) (l_AcquiredAt existing) (l_Token existing) in
        (Some entry, mkStore (<[key := entry]> (locks s)) (nextToken s) (defaultTTL s))
  end.

Definition Status (now : Z) (key : string) (s : Store) : option LockEntry :=
  match locks s !! key with
  | Some entry => if IsExpired now entry then None else Some entry
  | None => None
  end.

(** The entries of a map in the order in which a range loop visits them. *)
Definition ranged {A} (order : list string) (m : gmap string A) : list A := omap (fun k => m !! k) order.

Definition List (now : nat -> Z) (order : list string) (s : Store) : list LockEntry :=
  omap (fun '(i, e) => if IsExpired (now i) e then None else Some e) (zip (seq 0 (length order)) (ranged order (locks s))).

Definition evict (now : string -> Z) (s : Store) : Store :=
  mkStore (map_imap (fun k e => if IsExpired (now k) e then None else Some e) (locks s)) (nextToken s) (defaultTTL s).

(** ** Registry *)

Record Instance_ := mkInst {
  Service : string; Address : string; HealthURL : string; LastSeen : Z; Version : string; Weight : Z; Region : string }.

Record RoutingRule := mkRule {
  r_Service : string; MaxRetries : Z; TimeoutMs : Z; BackoffMs : Z;
  FaultDelayMs : Z; FaultDelayRatio : float64; FaultErrorStatus : Z; FaultErrorRatio : float64 }.

Record NetworkPolicy := mkPolicy { SourceService : string; TargetService : string; AllowedPaths : list string }.

Record HealthMetric := mkMetric {
  m_Service : string; m_Address : string; AvgLatencyMs : float64; ErrorRate : float64; ReportedAt : Z }.

Record TopologyEntry := mkTopo {
  e_Service : string; e_Address : string; e_Version : string; e_Region : string; e_Weight : Z;
  e_AvgLatencyMs : float64; e_ErrorRate : float64; e_State : string; e_LastSeen : Z; e_ReportedAt : option Z }.

(** What a discovery backend (Consul, etcd, DNS) offers; a failed resolution
    is [None]. *)
Class DiscoveryBackend (B : Type) := {
  backend_Register : string -> string -> string -> string -> B -> B;
  backend_Resolve : string -> B -> option (list Instance_) }.

Section Registry.
Context `{casing : Casing} {B : Type} `{discovery : DiscoveryBackend B}.

Record Registry := mkReg {
  instances : gmap string (list Instance_);
  rules : gmap string RoutingRule;
  policies : gmap string (list NetworkPolicy);
  healthMetrics : gmap string HealthMetric;
  ttl : Z;
  lock_store : Store;
  backend : option B }.

Definition with_instances (m : gmap string (list Instance_)) (r : Registry) : Registry :=
  mkReg m (rules r) (policies r) (healthMetrics r) (ttl r) (lock_store r) (backend r).
Definition with_backend (b : option B) (r : Registry) : Registry :=
  mkReg (instances r) (rules r) (policies r) (healthMetrics r) (ttl r) (lock_store r) b.
Definition with_locks (s : Store) (r : Registry) : Registry :=
  mkReg (instances r) (rules r) (policies r) (healthMetrics r) (ttl r) s (backend r).

Definition NewRegistry (ttl : Z) : Registry := mkReg ∅ ∅ ∅ ∅ ttl (NewStore ttl) None.

Definition SetDiscoveryBackend (b : B) : Registry -> Registry := with_backend (Some b).

Definition seen (now : Z) (i : Instance_) : Instance_ :=
  mkInst (Service i) (Address i) (HealthURL i) now (Version i) (Weight i) (Region i).

(** The first instance at the address is replaced by its image. *)
Fixpoint at_address (address : string) (f : Instance_ -> Instance_) (l : list Instance_) : option (list Instance_) :=
  match l with
  | [] => None
  | i :: l => if bool_decide (Address i = address) then Some (f i :: l) else (i ::.) <$> at_address address f l
  end.

Definition Register (now : Z) (inst : Instance_) (r : Registry) : Registry :=
  let inst := seen now inst in
  let service := lower (Service inst) in
  match backend r with
  | Some b => with_backend (Some (backend_Register service (Address inst) (Version inst) (Region inst) b)) r
  | None =>
      let list := default [] (instances r !! service) in
      let list := match at_address (Address inst) (fun _ => inst) list with Some l => l | None => list ++ [inst] end in
      with_instances (<[service := list]> (instances r)) r
  end.

Definition Heartbeat (now : Z) (service address : string) (r : Registry) : bool * Registry :=
  let service := lower service in
  match backend r with
  | Some b => (true, with_backend (Some (backend_Register service address "" "" b)) r)
  | None =>
      match instances r !! service with
      | None => (false, r)
      | Some list =>
          match at_address address (seen now) list with
          | Some list => (true, with_instances (<[service := list]> (instances r)) r)
          | None => (false, r)
          end
      end
  end.

Definition listed (service : string) (r : Registry) : list Instance_ := default [] (instances r !! service).

Definition Resolve (service : string) (r : Registry) : list Instance_ :=
  let service := lower service in
  match (b ← backend r; backend_Resolve service b) with
  | Some list => list
  | None => listed service r
  end.

Definition ResolveRegion (service region : string) (r : Registry) : list Instance_ :=
  let list := listed (lower service) r in
  let regional := List.filter (fun i => negb (bool_decide (region = "")) && EqualFold (Region i) region) list in
  match regional with [] => list | _ => regional end.

Definition ResolveVersion (service version : string) (r : Registry) : list Instance_ :=
  let list := listed (lower service) r in
  let versioned := List.filter (fun i => EqualFold (Version i) version) list in
  match versioned with [] => list | _ => versioned end.

Definition RecordHealthMetric (now : Z) (m : HealthMetric) (r : Registry) : Registry :=
  let m := mkMetric (m_Service m) (m_Address m) (AvgLatencyMs m) (ErrorRate m) now in
  mkReg (instances r) (rules r) (policies r) (<[m_Address m := m]> (healthMetrics r)) (ttl r) (lock_store r) (backend r).

Definition active (now : Z) (r : Registry) (i : Instance_) : bool := Sub now (LastSeen i) <=? ttl r.

Definition Evict (now : Z) (r : Registry) : Registry :=
  match backend r with
  | Some _ => r
  | None =>
      with_instances
        (omap (fun list => match List.filter (active now r) list with [] => None | l => Some l end) (instances r)) r
  end.

(** [for _, p := range rules] with its early returns. *)
Definition path_allowed (path : string) (p : NetworkPolicy) : bool :=
  match AllowedPaths p with
  | [] => true
  | paths => existsb (fun allowed => bool_decide (allowed = "*") || HasPrefix path allowed) paths
  end.

Definition ValidateNetworkPolicy (source target path : string) (r : Registry) : bool :=
  match policies r !! lower target with
  | None | Some [] => true
  | Some rules => existsb (fun p => bool_decide (lower (SourceService p) = lower source) && path_allowed path p) rules
  end.

(** ** HTTP *)

Inductive Payload :=
  | PError (msg errorCode : string)
  | PStatus (status : string)
  | PInstances (l : list Instance_)
  | PRules (m : gmap string RoutingRule)
  | PRule (rule : RoutingRule)
  | PPolicies (m : gmap string (list NetworkPolicy))
  | PAcquired (a : AcquireResult)
  | PReleased (b : bool)
  | PLock (l : LockEntry)
  | PLocks (l : list LockEntry)
  | PTopology (l : list TopologyEntry)
  | PNothing.

Record Reply := mkReply { StatusCode : Z; payload : Payload }.

Record Request := mkRequest { Method : string; URL_Path : string; Query : string -> string }.

Definition error_code (status : Z) : string :=
  if status =? 405 then "ERR_METHOD_NOT_ALLOWED"
  else if status =? 400 then "ERR_BAD_REQUEST"
  else if status =? 401 then "ERR_UNAUTHORIZED"
  else if status =? 403 then "ERR_FORBIDDEN"
  else if status =? 404 then "ERR_NOT_FOUND"
  else if status =? 409 then "ERR_CONFLICT"
  else if status =? 501 then "ERR_NOT_IMPLEMENTED"
  else "ERR_INTERNAL_SERVER_ERROR".

Definition httpError (msg : string) (status : Z) : Reply := mkReply status (PError msg (error_code status)).

Definition method_not_allowed : Reply := httpError "Method Not Allowed" 405.

Definition success : Reply := mkReply 200 (PStatus "success").

(** The guards of a POST endpoint: method, then body. *)
Definition posted {A} (req : Request) (body : string + A) (r : Registry) (k : A -> Reply * Registry) : Reply * Registry :=
  if negb (bool_decide (Method req = "POST")) then (method_not_allowed, r)
  else match body with
       | inl err => (httpError err 400, r)
       | inr a => k a
       end.

Definition handle_register (now : Z) (req : Request) (body : string + Instance_) (r : Registry) : Reply * Registry :=
  posted req body r (fun inst =>
    if bool_decide (Service inst = "") || bool_decide (Address inst = "")
    then (httpError "Service and Address are required" 400, r)
    else (success, Register now inst r)).

Definition handle_heartbeat (now : Z) (req : Request) (body : string + (string * string)) (r : Registry) : Reply * Registry :=
  posted req body r (fun '(service, address) =>
    match Heartbeat now service address r with
    | (true, r) => (success, r)
    | (false, r) => (httpError "Instance not found" 404, r)
    end).

(** [strings.Trim(path, "/")] *)
Fixpoint trim_slashes (s : bytes) : bytes :=
  match s with "/"%char :: s => trim_slashes s | _ => s end.

Definition path_parts (path : string) : list string :=
  Split (str (rev (trim_slashes (rev (trim_slashes (byt path)))))) "/".

Definition handle_resolve (req : Request) (r : Registry) : Reply :=
  if negb (bool_decide (Method req = "GET")) then method_not_allowed
  else match path_parts (URL_Path req) with
       | _ :: _ :: serviceName :: _ =>
           let region := Query req "region" in
           let version := Query req "version" in
           mkReply 200 (PInstances
             (if negb (bool_decide (version = "")) then ResolveVersion serviceName version r
              else if negb (bool_decide (region = "")) then ResolveRegion serviceName region r
              else Resolve serviceName r))
       | _ => httpError "Service name required" 400
       end.

Definition handle_instances (order : list string) (req : Request) (r : Registry) : Reply :=
  if negb (bool_decide (Method req = "GET")) then method_not_allowed
  else mkReply 200 (PInstances (concat (ranged order (instances r)))).

Definition with_rules (m : gmap string RoutingRule) (r : Registry) : Registry :=
  mkReg (instances r) m (policies r) (healthMetrics r) (ttl r) (lock_store r) (backend r).

Definition handle_rules (req : Request) (body : string + RoutingRule) (r : Registry) : Reply * Registry :=
  if bool_decide (Method req = "GET") then (mkReply 200 (PRules (rules r)), r)
  else posted req body r (fun rule =>
    if bool_decide (r_Service rule = "") then (httpError "Service name required" 400, r)
    else (success, with_rules (<[lower (r_Service rule) := rule]> (rules r)) r)).

Definition default_rule (service : string) : RoutingRule := mkRule service 3 2000 50 0 fzero 0 fzero.

Definition handle_rule (req : Request) (r : Registry) : Reply :=
  if negb (bool_decide (Method req = "GET")) then method_not_allowed
  else match path_parts (URL_Path req) with
       | _ :: _ :: name :: _ =>
           let serviceName := lower name in
           mkReply 200 (PRule (default (default_rule serviceName) (rules r !! serviceName)))
       | _ => httpError "Service name required" 400
       end.

Definition with_policies (m : gmap string (list NetworkPolicy)) (r : Registry) : Registry :=
  mkReg (instances r) (rules r) m (healthMetrics r) (ttl r) (lock_store r) (backend r).

Definition handle_policies (req : Request) (body : string + NetworkPolicy) (r : Registry) : Reply * Registry :=
  if bool_decide (Method req = "GET") then (mkReply 200 (PPolicies (policies r)), r)
  else posted req body r (fun policy =>
    if bool_decide (TargetService policy = "") || bool_decide (SourceService policy = "")
    then (httpError "Source and Target services required" 400, r)
    else
      let target := lower (TargetService policy) in
      (mkReply 201 PNothing, with_policies (<[target := default [] (policies r !! target) ++ [policy]]> (policies r)) r)).

Definition handle_lock_acquire (t : nat -> Z) (req : Request) (body : string + (string * string * Z)) (r : Registry) : Reply * Registry :=
  posted req body r (fun '(key, owner, ttl_ms) =>
    if bool_decide (key = "") || bool_decide (owner = "") then (httpError "key and owner are required" 400, r)
    else
      let '(result, s) := Acquire t key owner (wrap64 (ttl_ms * Millisecond)) (lock_store r) in
      (mkReply (if Acquired result then 200 else 409) (PAcquired result), with_locks s r)).

Definition handle_lock_release (req : Request) (body : string + (string * string)) (r : Registry) : Reply * Registry :=
  posted req body r (fun '(key, owner) =>
    let '(released, s) := Release key owner (lock_store r) in
    (mkReply (if released then 200 else 409) (PReleased released), with_locks s r)).

Definition handle_lock_extend (t : nat -> Z) (req : Request) (body : string + (string * string * Z)) (r : Registry) : Reply * Registry :=
  posted req body r (fun '(key, owner, ttl_ms) =>
    let '(entry, s) := Extend t key owner (wrap64 (ttl_ms * Millisecond)) (lock_store r) in
    (match entry with
     | Some entry => mkReply 200 (PLock entry)
     | None => mkReply 409 (PStatus "lock not held by owner or expired")
     end, with_locks s r)).

Definition handle_lock_status (now : Z) (req : Request) (r : Registry) : Reply :=
  if negb (bool_decide (Method req = "GET")) then method_not_allowed
  else
    let key := Query req "key" in
    if bool_decide (key = "") then httpError "key query parameter required" 400
    else match Status now key (lock_store r) with
         | Some entry => mkReply 200 (PLock entry)
         | None => mkReply 404 (PStatus "lock not held")
         end.

Definition handle_lock_list (now : nat -> Z) (order : list string) (req : Request) (r : Registry) : Reply :=
  if negb (bool_decide (Method req = "GET")) then method_not_allowed
  else mkReply 200 (PLocks (List now order (lock_store r))).

Definition handle_health_metrics (now : Z) (req : Request) (body : string + HealthMetric) (r : Registry) : Reply * Registry :=
  posted req body r (fun m =>
    if bool_decide (m_Address m = "") || bool_decide (m_Service m = "")
    then (httpError "service and address are required" 400, r)
    else (mkReply 200 (PStatus "ok"), RecordHealthMetric now m r)).

Definition topology_entry (r : Registry) (i : Instance_) : TopologyEntry :=
  match healthMetrics r !! Address i with
  | None => mkTopo (Service i) (Address i) (Version i) (Region i) (Weight i) fzero fzero "unknown" (LastSeen i) None
  | Some m =>
      mkTopo (Service i) (Address i) (Version i) (Region i) (Weight i) (AvgLatencyMs m) (ErrorRate m)
        (if fltb (float_of_ratio 5 100) (ErrorRate m) || fltb (float_of_Z 500) (AvgLatencyMs m) then "degraded" else "healthy")
        (LastSeen i) (Some (ReportedAt m))
  end.

Definition handle_topology (order : list string) (req : Request) (r : Registry) : Reply :=
  if negb (bool_decide (Method req = "GET")) then method_not_allowed
  else
    let svcFilter := lower (Query req "service") in
    let services := List.filter (fun svc => bool_decide (svcFilter = "") || bool_decide (svc = svcFilter)) order in
    mkReply 200 (PTopology (topology_entry r <$> concat (ranged services (instances r)))).

(** The wrapper that serves [/api/v1/] as [/api/]. *)
Definition v1_path (path : string) : string :=
  if HasPrefix path "/api/v1/" then "/api/" +:+ TrimPrefix path "/api/v1/" else path.

(** A datagram of the discovery protocol: what is registered, what is
    answered. *)
Record Packet := mkPacket { p_Type : string; p_Service : string; p_Address : string; p_HealthURL : string }.

Definition handle_packet (now : Z) (order : list string) (p : Packet) (r : Registry) : list Packet * Registry :=
  if bool_decide (p_Type p = "announce") && negb (bool_decide (p_Service p = ""))
  then ([], Register now (mkInst (p_Service p) (p_Address p) (p_HealthURL p) 0 "" 0 "") r)
  else if bool_decide (p_Type p = "query")
  then ((fun i => mkPacket "announce" (Service i) (Address i) (HealthURL i)) <$> concat (ranged order (instances r)), r)
  else ([], r).
End Registry.

Arguments Registry B : clear implicits.

(** ** Topology graph *)

Record TopologyEdge := mkEdge {
  g_Source : string; g_Target : string; RPS : float64; P99LatencyMs : float64; g_ErrorRate : float64;
  BreakerState : string; g_LastSeen : Z }.

Definition ewma (old_weight new_weight : Z * Z) (old sample : float64) : float64 :=
  fadd (fmul (float_of_ratio old_weight.1 old_weight.2) old) (fmul (float_of_ratio new_weight.1 new_weight.2) sample).

Definition UpdateEdge (now : Z) (source target : string) (latencyMs : float64) (isError : bool) (breakerState : string)
    (edges : gmap string TopologyEdge) : gmap string TopologyEdge :=
  if bool_decide (source = "") || bool_decide (target = "") then edges
  else
    let key := source +:+ "->" +:+ target in
    let edge := default (mkEdge source target fzero fzero fzero "closed" 0) (edges !! key) in
    let latency := if feqb (P99LatencyMs edge) fzero then latencyMs else ewma (8, 10) (2, 10) (P99LatencyMs edge) latencyMs in
    let errors := ewma (9, 10) (1, 10) (g_ErrorRate edge) (if isError then float_of_Z 1 else fzero) in
    <[key := mkEdge (g_Source edge) (g_Target edge) (RPS edge) latency errors
               (if bool_decide (breakerState = "") then BreakerState edge else breakerState) now]> edges.

Definition GetEdges (now : Z) (order : list string) (edges : gmap string TopologyEdge) : list TopologyEdge :=
  List.filter (fun e => now - 5 * Minute <? g_LastSeen e) (ranged order edges).
