(* ===== verification/MeshClient.v ===== *)
(** * The client of the mesh ([mesh/pkg/client/client.go], [p2c.go],
    [global_ratelimit.go]) and its circuit breaker
    ([mesh/pkg/resilience/breaker.go], [chaos_api.go])

    A request is a run of a state monad over the transport, the log of what
    was sent, and a tape: the number of readings of clock, random generator
    and network so far.  [None] is a panic.  What the network, the clock and
    the generator answer at each reading is the environment [Env]. *)

From S2P Require Import Prelude GoStrings GoTime GoFloat MeshRegistry.
Local Open Scope string_scope.
Local Open Scope Z_scope.
Local Open Scope list_scope.

(** ** Circuit breaker *)

Inductive State := Closed | Open | HalfOpen.

#[global] Instance State_eq_dec : EqDecision State.
Proof. solve_decision. Defined.

Definition State_String (s : State) : string :=
  match s with Closed => "Closed" | Open => "Open" | HalfOpen => "Half-Open" end.

Record CircuitBreaker := mkCB { state : State; failures : Z; threshold : Z; cooldown : Z; lastStateChg : Z }.

Definition NewCircuitBreaker (now threshold cooldown : Z) : CircuitBreaker := mkCB Closed 0 threshold cooldown now.

(** [time.Since] reads [now], the change of state [now']. *)
Definition Allow (now now' : Z) (cb : CircuitBreaker) : bool * CircuitBreaker :=
  match state cb with
  | Open => if cooldown cb <? Sub now (lastStateChg cb)
            then (true, mkCB HalfOpen (failures cb) (threshold cb) (cooldown cb) now')
            else (false, cb)
  | _ => (true, cb)
  end.

Definition Success (now : Z) (cb : CircuitBreaker) : CircuitBreaker :=
  if bool_decide (state cb = HalfOpen) || (0 <? failures cb) then mkCB Closed 0 (threshold cb) (cooldown cb) now else cb.

Definition Failure (now : Z) (cb : CircuitBreaker) : CircuitBreaker :=
  let n := wrap64 (failures cb + 1) in
  match state cb with
  | Closed => if threshold cb <=? n then mkCB Open n (threshold cb) (cooldown cb) now
              else mkCB Closed n (threshold cb) (cooldown cb) (lastStateChg cb)
  | HalfOpen => mkCB Open n (threshold cb) (cooldown cb) now
  | Open => mkCB Open n (threshold cb) (cooldown cb) (lastStateChg cb)
  end.

(** ** Token bucket *)

Record RateLimiter := mkRL { tokens : float64; refillRate : float64; capacity : float64; lastRefill : Z }.

Definition newRateLimiter (now : Z) (rps : float64) (burst : Z) : RateLimiter :=
  mkRL (float_of_Z burst) rps (float_of_Z burst) now.

Definition rl_Allow (now : Z) (rl : RateLimiter) : bool * RateLimiter :=
  let elapsed := Seconds (Sub now (lastRefill rl)) in
  let refilled := fadd (tokens rl) (fmul elapsed (refillRate rl)) in
  let t := if fltb (capacity rl) refilled then capacity rl else refilled in
  if fleb (float_of_Z 1) t then (true, mkRL (fsub t (float_of_Z 1)) (refillRate rl) (capacity rl) now)
  else (false, mkRL t (refillRate rl) (capacity rl) now).

(** ** Transport *)

Record MeshTransport := mkTransport {
  registryURL : string;
  cache : gmap string (list Instance_);
  cacheExpiry : gmap string Z;
  breakers : gmap string CircuitBreaker;
  rrIndex : gmap string Z;
  t_rules : gmap string RoutingRule;
  rulesExpiry : gmap string Z;
  latencies : gmap string Z;
  errorRates : gmap string float64;
  rateLimiters : gmap string RateLimiter;
  cacheTTL : Z;
  tlsConfig : bool }.

Definition NewMeshTransport (registryURL : string) (cacheTTL : Z) : MeshTransport :=
  mkTransport (TrimSuffix registryURL "/") ∅ ∅ ∅ ∅ ∅ ∅ ∅ ∅ ∅ cacheTTL false.

Definition with_cache (service : string) (l : list Instance_) (expiry : Z) (t : MeshTransport) : MeshTransport :=
  mkTransport (registryURL t) (<[service := l]> (cache t)) (<[service := expiry]> (cacheExpiry t)) (breakers t) (rrIndex t)
    (t_rules t) (rulesExpiry t) (latencies t) (errorRates t) (rateLimiters t) (cacheTTL t) (tlsConfig t).
Definition with_breakers (b : gmap string CircuitBreaker) (t : MeshTransport) : MeshTransport :=
  mkTransport (registryURL t) (cache t) (cacheExpiry t) b (rrIndex t)
    (t_rules t) (rulesExpiry t) (latencies t) (errorRates t) (rateLimiters t) (cacheTTL t) (tlsConfig t).
Definition with_rrIndex (service : string) (i : Z) (t : MeshTransport) : MeshTransport :=
  mkTransport (registryURL t) (cache t) (cacheExpiry t) (breakers t) (<[service := i]> (rrIndex t))
    (t_rules t) (rulesExpiry t) (latencies t) (errorRates t) (rateLimiters t) (cacheTTL t) (tlsConfig t).
Definition with_rule (service : string) (rule : RoutingRule) (expiry : Z) (t : MeshTransport) : MeshTransport :=
  mkTransport (registryURL t) (cache t) (cacheExpiry t) (breakers t) (rrIndex t)
    (<[service := rule]> (t_rules t)) (<[service := expiry]> (rulesExpiry t)) (latencies t) (errorRates t) (rateLimiters t)
    (cacheTTL t) (tlsConfig t).
Definition with_metrics (target : string) (latency : Z) (errorRate : float64) (t : MeshTransport) : MeshTransport :=
  mkTransport (registryURL t) (cache t) (cacheExpiry t) (breakers t) (rrIndex t) (t_rules t) (rulesExpiry t)
    (<[target := latency]> (latencies t)) (<[target := errorRate]> (errorRates t)) (rateLimiters t) (cacheTTL t) (tlsConfig t).
Definition with_limiter (key : string) (rl : RateLimiter) (t : MeshTransport) : MeshTransport :=
  mkTransport (registryURL t) (cache t) (cacheExpiry t) (breakers t) (rrIndex t) (t_rules t) (rulesExpiry t)
    (latencies t) (errorRates t) (<[key := rl]> (rateLimiters t)) (cacheTTL t) (tlsConfig t).

(** ** Requests and environment *)

Record HTTPRequest := mkHTTP {
  h_Scheme : string; h_Host : string; h_Path : string; h_Method : string; h_Header : gmap string string; h_Body : option bytes }.

Record HTTPResponse := mkResponse { r_Status : Z; r_Body : bytes }.

(** One request on the wire: to which target, and what. *)
Record Sent := mkSent { s_target : string; s_request : HTTPRequest }.

Inductive Err :=
  | ResolveFailed (service : string) (e : string)
  | NoEndpoints (service : string)
  | AllBlocked (service : string)
  | InvalidTarget (target : string)
  | TransportError (e : string)
  | Exhausted (attempts : Z) (last : option string).

Record Env := mkEnv {
  clock : nat -> Z;
  Float64 : nat -> float64;
  Intn : nat -> Z -> Z;
  (** The control plane: instances and rules of a service, or an error. *)
  query_instances : nat -> string -> string + list Instance_;
  query_rule : nat -> string -> string + RoutingRule;
  (** [url.Parse]: scheme and host. *)
  url_Parse : string -> option (string * string);
  (** The answer to a request, over HTTP or gRPC. *)
  round_trip : nat -> HTTPRequest -> string + HTTPResponse }.

(** What is pushed to the control plane after an attempt. *)
Record Report := mkReport { rp_service : string; rp_address : string; rp_latencyMs : float64; rp_errorRate : float64 }.

Record World := mkWorld { tape : nat; transport : MeshTransport; sent : list Sent; reports : list Report }.

Definition M (A : Type) : Type := World -> option (A * World).

Definition ret {A} (a : A) : M A := fun w => Some (a, w).
Definition bind {A B} (m : M A) (k : A -> M B) : M B := fun w => match m w with Some (a, w) => k a w | None => None end.
Definition panic {A} : M A := fun _ => None.
Notation "x <- m ;; k" := (bind m (fun x => k)) (at level 60, m at next level, right associativity).
Notation "m ;;; k" := (bind m (fun _ => k)) (at level 60, right associativity).

(** A reading of the environment. *)
Definition reading {A} (f : nat -> A) : M A := fun w => Some (f (tape w), mkWorld (S (tape w)) (transport w) (sent w) (reports w)).
Definition get : M MeshTransport := fun w => Some (transport w, w).
Definition modify (f : MeshTransport -> MeshTransport) : M unit := fun w => Some (tt, mkWorld (tape w) (f (transport w)) (sent w) (reports w)).
Definition log (s : Sent) : M unit := fun w => Some (tt, mkWorld (tape w) (transport w) (sent w ++ [s]) (reports w)).

Definition report (r : Report) : M unit := fun w => Some (tt, mkWorld (tape w) (transport w) (sent w) (reports w ++ [r])).

Section Client.
Context `{casing : Casing} (env : Env).

Definition now : M Z := reading (clock env).

(** ** Circuit breakers of targets *)

Definition getBreaker (target : string) : M CircuitBreaker :=
  t <- get ;;
  match breakers t !! target with
  | Some b => ret b
  | None =>
      t0 <- now ;;
      let b := NewCircuitBreaker t0 3 (5 * Second) in
      modify (with_breakers (<[target := b]> (breakers t))) ;;; ret b
  end.

Definition update_breaker (target : string) (f : CircuitBreaker -> CircuitBreaker) : M unit :=
  modify (fun t => with_breakers (alter f target (breakers t)) t).

(** [breaker.Allow()] on the breaker of a target. *)
Definition breaker_Allow (target : string) (b : CircuitBreaker) : M bool :=
  t0 <- now ;; t1 <- now ;;
  let '(ok, b') := Allow t0 t1 b in
  modify (fun t => with_breakers (<[target := b']> (breakers t)) t) ;;; ret ok.

(** ** Target selection *)

Fixpoint available_of (targets : list Instance_) : M (list Instance_) :=
  match targets with
  | [] => ret []
  | inst :: targets =>
      t <- get ;;
      ok <- match breakers t !! Address inst with
            | None => ret true
            | Some b => breaker_Allow (Address inst) b
            end ;;
      rest <- available_of targets ;;
      ret (if ok : bool then inst :: rest else rest)
  end.

Definition latency_of (t : MeshTransport) (i : Instance_) : option Z :=
  match latencies t !! Address i with Some lat => if 0 <? lat then Some lat else None | None => None end.

Definition average_latency (t : MeshTransport) (available : list Instance_) : Z :=
  let l := omap (latency_of t) available in
  match l with [] => 0 | _ => Z.quot (fold_left (fun a x => wrap64 (a + x)) l 0) (Z.of_nat (length l)) end.

Definition latency_ratio (lat avgLat : Z) : float64 := fdiv (float_of_Z lat) (float_of_Z avgLat).

Definition is_degraded (t : MeshTransport) (avgLat : Z) (i : Instance_) : bool :=
  match errorRates t !! Address i with Some e => fltb (float_of_ratio 5 100) e | None => false end ||
  ((0 <? avgLat) && match latency_of t i with Some lat => fltb (float_of_ratio 13 10) (latency_ratio lat avgLat) | None => false end).

Definition adjusted_weight (t : MeshTransport) (avgLat : Z) (i : Instance_) : Z :=
  let w := if Weight i <=? 0 then 100 else Weight i in
  let one := float_of_Z 1 in
  let multiplier := match errorRates t !! Address i with Some e => fmul one (fsub one e) | None => one end in
  let multiplier :=
    if 0 <? avgLat then
      match latency_of t i with
      | Some lat => fmul multiplier (fdiv one (fadd one (fmul (fsub (latency_ratio lat avgLat) one) (float_of_ratio 5 10))))
      | None => multiplier
      end
    else multiplier in
  let multiplier := if fltb multiplier (float_of_ratio 5 100) then float_of_ratio 5 100 else multiplier in
  let adjW := truncate_float (fmul (float_of_Z w) multiplier) in
  if adjW <? 1 then 1 else adjW.

(** The instance in whose stretch of weights the number lies. *)
Fixpoint weighted (val current : Z) (l : list (Instance_ * Z)) : option string :=
  match l with
  | [] => None
  | (inst, w) :: l =>
      let current := wrap64 (current + w) in
      if val <? current then Some (Address inst) else weighted val current l
  end.

Definition selectTarget (serviceName : string) (targets : list Instance_) : M string :=
  available <- available_of targets ;;
  match available with
  | [] => ret ""
  | first :: _ =>
      t <- get ;;
      let avgLat := average_latency t available in
      let degraded := existsb (is_degraded t avgLat) available in
      let allDefault := forallb (fun i => Weight i <=? 0) available in
      if negb degraded && allDefault then
        let idx := default 0 (rrIndex t !! serviceName) in
        let n := Z.of_nat (length available) in
        match available !! Z.to_nat (Z.rem idx n) with
        | None => panic
        | Some selected =>
            modify (with_rrIndex serviceName (Z.rem (wrap64 (idx + 1)) n)) ;;; ret (Address selected)
        end
      else
        let weights := adjusted_weight t avgLat <$> available in
        let totalWeight := fold_left (fun a w => wrap64 (a + w)) weights 0 in
        if totalWeight <=? 0 then panic
        else
          val <- reading (fun i => Intn env i totalWeight) ;;
          ret (default (Address first) (weighted val 0 (zip available weights)))
  end.

(** ** The control plane, cached *)

Definition resolve (serviceName : string) : M (string + list Instance_) :=
  t <- get ;;
  fresh <- match cacheExpiry t !! serviceName with
           | Some exp => t0 <- now ;; ret (t0 <? exp)
           | None => ret false
           end ;;
  if fresh : bool then ret (inr (default [] (cache t !! serviceName)))
  else
    answer <- reading (fun i => query_instances env i serviceName) ;;
    match answer with
    | inl e => ret (inl e)
    | inr instances =>
        t1 <- now ;;
        modify (with_cache serviceName instances (t1 + cacheTTL t)) ;;; ret (inr instances)
    end.

Definition ResolveRule (serviceName : string) : M RoutingRule :=
  t <- get ;;
  fresh <- match rulesExpiry t !! serviceName with
           | Some exp => t0 <- now ;; ret (t0 <? exp)
           | None => ret false
           end ;;
  if fresh : bool then ret (default (mkRule "" 0 0 0 0 fzero 0 fzero) (t_rules t !! serviceName))
  else
    answer <- reading (fun i => query_rule env i serviceName) ;;
    match answer with
    | inl _ => ret (default_rule serviceName)
    | inr rule =>
        t1 <- now ;;
        modify (with_rule serviceName rule (t1 + cacheTTL t)) ;;; ret rule
    end.

(** ** Rate limits of pairs *)

Definition pair_key (caller callee : string) : string := lower caller +:+ "/" +:+ lower callee.

Definition SetRateLimit (caller callee : string) (rps : float64) (burst : Z) : M unit :=
  t0 <- now ;; modify (with_limiter (pair_key caller callee) (newRateLimiter t0 rps burst)).

Definition limiter_Allow (caller callee : string) : M bool :=
  t <- get ;;
  match rateLimiters t !! pair_key caller callee with
  | None => ret true
  | Some rl =>
      t0 <- now ;;
      let '(ok, rl) := rl_Allow t0 rl in
      modify (with_limiter (pair_key caller callee) rl) ;;; ret ok
  end.

(** ** A request *)

Definition header (req : HTTPRequest) (name : string) : string := default "" (h_Header req !! name).

(** Restriction to the requested version, where there is an instance of it. *)
Definition select_version (req : HTTPRequest) (targets : list Instance_) : list Instance_ :=
  let version := header req "X-Service-Version" in
  if bool_decide (version = "") then targets
  else match List.filter (fun i => EqualFold (Version i) version) targets with [] => targets | versioned => versioned end.

(** The request as it goes out, apart from the header of the tracing span. *)
Definition rewritten (t : MeshTransport) (req : HTTPRequest) (scheme host : string) : HTTPRequest :=
  mkHTTP (if tlsConfig t then "https" else scheme) host (h_Path req) (h_Method req) (h_Header req) (h_Body req).

(** Moving averages of latency and errors of a target. *)
Definition record_outcome (target : string) (elapsed : Z) (failed : bool) (t : MeshTransport) : MeshTransport :=
  let oldLatency := default 0 (latencies t !! target) in
  let latency := if oldLatency =? 0 then elapsed
                 else truncate_float (ewma (9, 10) (1, 10) (float_of_Z oldLatency) (float_of_Z elapsed)) in
  let oldErrRate := default fzero (errorRates t !! target) in
  with_metrics target latency (ewma (9, 10) (1, 10) oldErrRate (if failed then float_of_Z 1 else fzero)) t.

Definition reportMetrics (service address : string) (latencyMs errRate : float64) : M unit :=
  t <- get ;;
  if bool_decide (registryURL t = "") then ret tt else report (mkReport service address latencyMs errRate).

Definition in_ms (d : Z) : float64 := fdiv (float_of_Z d) (float_of_Z Millisecond).

(** The metrics of a target after an attempt, and their report. *)
Definition measure (serviceName target : string) (elapsed : Z) (failed : bool) : M unit :=
  modify (record_outcome target elapsed failed) ;;;
  t <- get ;;
  reportMetrics serviceName target (in_ms (default 0 (latencies t !! target))) (default fzero (errorRates t !! target)).

(** One attempt: the answer to return, an error to return, or the error to
    remember for the next attempt. *)
Inductive Attempt := Answer (r : HTTPResponse) | GiveUp (e : Err) | Again (e : option string).

Definition attempt (serviceName : string) (targets : list Instance_) (req : HTTPRequest) (lastErr : option string) : M Attempt :=
  target <- selectTarget serviceName targets ;;
  if bool_decide (target = "") then ret (GiveUp (AllBlocked serviceName))
  else
    breaker <- getBreaker target ;;
    ok <- breaker_Allow target breaker ;;
    if negb ok then ret (Again lastErr)
    else
      match url_Parse env target with
      | None => ret (GiveUp (InvalidTarget target))
      | Some (scheme, host) =>
          t <- get ;;
          let clonedReq := rewritten t req scheme host in
          startTime <- now ;;
          log (mkSent target clonedReq) ;;;
          answer <- reading (fun i => round_trip env i clonedReq) ;;
          t1 <- now ;;
          let failed := match answer with inl _ => true | inr resp => 500 <=? r_Status resp end in
          measure serviceName target (Sub t1 startTime) failed ;;;
          t2 <- now ;;
          match answer with
          | inr resp =>
              if r_Status resp <? 500 then update_breaker target (Success t2) ;;; ret (Answer resp)
              else update_breaker target (Failure t2) ;;; ret (Again (Some ("http error status " +:+ FormatInt (r_Status resp))))
          | inl e => update_breaker target (Failure t2) ;;; ret (Again (Some e))
          end
      end.

Fixpoint attempts (n : nat) (maxRetries : Z) (serviceName : string) (targets : list Instance_) (req : HTTPRequest)
    (lastErr : option string) : M (Err + HTTPResponse) :=
  match n with
  | O => ret (inl (Exhausted maxRetries lastErr))
  | S n =>
      a <- attempt serviceName targets req lastErr ;;
      match a with
      | Answer r => ret (inr r)
      | GiveUp e => ret (inl e)
      | Again e => attempts n maxRetries serviceName targets req e
      end
  end.

(** The status of an injected fault. *)
Definition injected_fault (rule : RoutingRule) : M (option Z) :=
  (if 0 <? FaultDelayMs rule then reading (Float64 env) else ret fzero) ;;;
  if 0 <? FaultErrorStatus rule then
    x <- reading (Float64 env) ;;
    ret (if fltb x (FaultErrorRatio rule) then Some (FaultErrorStatus rule) else None)
  else ret None.

Definition RoundTrip (req : HTTPRequest) : M (Err + HTTPResponse) :=
  if negb (bool_decide (h_Scheme req = "pranor")) && negb (bool_decide (h_Scheme req = "serv")) then
    log (mkSent (h_Host req) req) ;;;
    answer <- reading (fun i => round_trip env i req) ;;
    ret (match answer with inl e => inl (TransportError e) | inr r => inr r end)
  else
    let serviceName := lower (h_Host req) in
    resolved <- resolve serviceName ;;
    match resolved with
    | inl e => ret (inl (ResolveFailed serviceName e))
    | inr [] => ret (inl (NoEndpoints serviceName))
    | inr targets =>
        let callerID := if bool_decide (header req "X-Caller-Id" = "") then "unknown" else header req "X-Caller-Id" in
        ok <- limiter_Allow callerID serviceName ;;
        if negb ok then ret (inr (mkResponse 429 (byt ("rate limit exceeded for pair " +:+ callerID +:+ "/" +:+ serviceName))))
        else
          let targets := select_version req targets in
          rule <- ResolveRule serviceName ;;
          let maxRetries := if MaxRetries rule <=? 0 then 3 else MaxRetries rule in
          fault <- injected_fault rule ;;
          match fault with
          | Some status => ret (inr (mkResponse status (byt "Chaos engineering fault injected")))
          | None => attempts (Z.to_nat maxRetries) maxRetries serviceName targets req None
          end
    end.

(** Unary gRPC calls: [invoker] is the call, with the error it ends in. *)
Definition GRPCUnaryInterceptor (target : string) (invoker : nat -> option string) : M (option string) :=
  breaker <- getBreaker target ;;
  ok <- breaker_Allow target breaker ;;
  if negb ok then ret (Some ("mesh: circuit breaker is open for target " +:+ target +:+ ": circuit breaker is open"))
  else
    startTime <- now ;;
    err <- reading invoker ;;
    t1 <- now ;;
    t2 <- now ;;
    let ms := float_of_Z (Z.quot (Sub t1 startTime) Millisecond) in
    match err with
    | Some _ => update_breaker target (Failure t2) ;;; reportMetrics target target ms (float_of_Z 1)
    | None => update_breaker target (Success t2) ;;; reportMetrics target target ms fzero
    end ;;;
    ret err.
End Client.

(** ** The receiving side of gRPC *)

Section Proxy.
Context `{casing : Casing} {B : Type} `{discovery : DiscoveryBackend B}.

Record grpcProxyServer := mkProxy { p_registry : option (Registry B); targetService : string }.

Record MeshRequest := mkMeshReq { in_Method : string; in_Path : string; in_Headers : gmap string string; in_Body : bytes }.

(** The common name of the client's certificate, if there is one, or the
    header. *)
Definition client_identity (commonName : option string) (req : MeshRequest) : string :=
  let cn := default "" commonName in
  if bool_decide (cn = "") then default "" (in_Headers req !! "X-Mesh-Source") else cn.

(** [handler] builds the request and serves it. *)
Definition Forward (p : grpcProxyServer) (commonName : option string) (req : MeshRequest)
    (handler : MeshRequest -> string + HTTPResponse) : string + HTTPResponse :=
  let clientIdentity := client_identity commonName req in
  match p_registry p with
  | Some r =>
      if negb (bool_decide (clientIdentity = "")) && negb (ValidateNetworkPolicy clientIdentity (targetService p) (in_Path req) r)
      then inr (mkResponse 403 (byt "mTLS Network Policy Blocked: Access Denied"))
      else handler req
  | None => handler req
  end.
End Proxy.

(** ** Power of two choices *)

Record P2CLoadBalancer := mkP2C { p2c_latencies : gmap string Z; localRegion : string; localZone : string }.

Definition NewP2CLoadBalancer (region zone : string) : P2CLoadBalancer := mkP2C ∅ region zone.

Definition RecordLatency (addr : string) (duration : Z) (p : P2CLoadBalancer) : P2CLoadBalancer :=
  let old := default 0 (p2c_latencies p !! addr) in
  let latency := if old =? 0 then duration
                 else truncate_float (ewma (8, 10) (2, 10) (float_of_Z old) (float_of_Z duration)) in
  mkP2C (<[addr := latency]> (p2c_latencies p)) (localRegion p) (localZone p).

(** The two random numbers are arguments; [None]: out of range. *)
Definition SelectTarget (rand1 rand2 : Z -> Z) (insts : list Instance_) (p : P2CLoadBalancer) : option string :=
  match insts with
  | [] => Some ""
  | [i] => Some (Address i)
  | _ =>
      let regionMatches := List.filter (fun i => negb (bool_decide (localRegion p = "")) && bool_decide (Region i = localRegion p)) insts in
      let candidates := if (2 <=? length regionMatches)%nat then regionMatches else insts in
      let n := Z.of_nat (length candidates) in
      let idx1 := rand1 n in
      let idx2 := if rand2 n =? idx1 then Z.rem (idx1 + 1) n else rand2 n in
      cand1 ← candidates !! Z.to_nat idx1;
      cand2 ← candidates !! Z.to_nat idx2;
      let lat i := default 0 (p2c_latencies p !! Address i) in
      Some (if lat cand1 <=? lat cand2 then Address cand1 else Address cand2)
  end.

(** ** Rate limits shared through the cache *)

(** A cached value, as far as the limiter looks at it. *)
Inductive cached := CInt (n : Z) | CString (s : string) | COther.

(** The cache client: a failed query is an error. *)
Class CacheClient (C : Type) := {
  cache_Get : string -> C -> string + option cached;
  cache_Set : string -> cached -> Z -> C -> C }.

Section Global.
Context {C : Type} `{client : CacheClient C}.

Record GlobalRateLimiter := mkGlobal { g_cache : option C; maxTokens : Z; refillRateMs : Z }.

Definition NewGlobalRateLimiter (c : option C) (maxTokens refillRateMs : Z) : GlobalRateLimiter :=
  mkGlobal c (if maxTokens <=? 0 then 100 else maxTokens) (if refillRateMs <=? 0 then 1000 else refillRateMs).

Definition current_tokens (maxTokens : Z) (v : option cached) : Z :=
  match v with
  | None | Some COther => maxTokens
  | Some (CInt n) => n
  | Some (CString s) => Atoi_value s
  end.

Definition global_Allow (pairKey : string) (g : GlobalRateLimiter) : bool * GlobalRateLimiter :=
  match g_cache g with
  | None => (true, g)
  | Some c =>
      let cacheKey := "ratelimit:" +:+ pairKey in
      match cache_Get cacheKey c with
      | inl _ => (true, g)
      | inr v =>
          let currentTokens := current_tokens (maxTokens g) v in
          if currentTokens <=? 0 then (false, g)
          else
            let ttl := wrap64 (refillRateMs g * Millisecond) in
            (true, mkGlobal (Some (cache_Set cacheKey (CInt (currentTokens - 1)) ttl c)) (maxTokens g) (refillRateMs g))
      end
  end.
End Global.

(** ** Injected faults *)

Record ChaosRule := mkChaos {
  ch_TargetService : string; LatencyDelay : Z; LatencyRatio : float64; ErrorStatus : Z; ErrorRatio : float64; EnablePartition : bool }.

Definition InjectRule (rule : ChaosRule) (m : gmap string ChaosRule) : gmap string ChaosRule := <[ch_TargetService rule := rule]> m.
Definition RemoveRule (targetService : string) (m : gmap string ChaosRule) : gmap string ChaosRule := delete targetService m.

(** The delay in nanoseconds and the status that replaces the answer. *)
Definition Evaluate (rnd1 rnd2 : float64) (targetService : string) (m : gmap string ChaosRule) : Z * option Z :=
  match m !! targetService with
  | None => (0, None)
  | Some rule =>
      if EnablePartition rule then (0, Some 503)
      else
        (if (0 <? LatencyDelay rule) && fltb rnd1 (LatencyRatio rule) then wrap64 (LatencyDelay rule * Millisecond) else 0,
         if (0 <? ErrorStatus rule) && fltb rnd2 (ErrorRatio rule) then Some (ErrorStatus rule) else None)
  end.
