(* ===== verification/MeshProps.v ===== *)
(** * Theorems on the registry of the mesh: membership and leases *)

From S2P Require Import Prelude GoStrings GoSort GoTime GoFloat MeshRegistry.
Local Open Scope string_scope.
Local Open Scope Z_scope.
Local Open Scope list_scope.

(** ** Membership

    The registry over time: its requests, the eviction loop and the datagrams
    of the discovery protocol, in the order in which they get hold of the
    mutex. *)

Section Membership.
Context `{casing : Casing} {B : Type} `{discovery : DiscoveryBackend B}.

Inductive event :=
  | OnRegister (now : Z) (req : Request) (body : string + Instance_)
  | OnHeartbeat (now : Z) (req : Request) (body : string + (string * string))
  | OnEvict (now : Z)
  | OnPacket (now : Z) (order : list string) (p : Packet)
  | OnMetrics (now : Z) (req : Request) (body : string + HealthMetric)
  | OnRules (req : Request) (body : string + RoutingRule)
  | OnPolicies (req : Request) (body : string + NetworkPolicy)
  | OnAcquire (t : nat -> Z) (req : Request) (body : string + (string * string * Z))
  | OnRelease (req : Request) (body : string + (string * string))
  | OnExtend (t : nat -> Z) (req : Request) (body : string + (string * string * Z)).

Definition react (e : event) (r : Registry B) : Registry B :=
  match e with
  | OnRegister now req body => (handle_register now req body r).2
  | OnHeartbeat now req body => (handle_heartbeat now req body r).2
  | OnEvict now => Evict now r
  | OnPacket now order p => (handle_packet now order p r).2
  | OnMetrics now req body => (handle_health_metrics now req body r).2
  | OnRules req body => (handle_rules req body r).2
  | OnPolicies req body => (handle_policies req body r).2
  | OnAcquire t req body => (handle_lock_acquire t req body r).2
  | OnRelease req body => (handle_lock_release req body r).2
  | OnExtend t req body => (handle_lock_extend t req body r).2
  end.

Definition history (ttl : Z) (es : list event) : Registry B := fold_left (fun r e => react e r) es (NewRegistry ttl).

(** An accepted registration, an accepted form of heartbeat: service, address
    and instant. *)
Definition registers (e : event) : option (string * string * Z) :=
  match e with
  | OnRegister now req (inr i) =>
      if bool_decide (Method req = "POST") && negb (bool_decide (Service i = "")) && negb (bool_decide (Address i = ""))
      then Some (lower (Service i), Address i, now) else None
  | OnPacket now _ p =>
      if bool_decide (p_Type p = "announce") && negb (bool_decide (p_Service p = ""))
      then Some (lower (p_Service p), p_Address p, now) else None
  | _ => None
  end.

Definition beats (e : event) : option (string * string * Z) :=
  match e with
  | OnHeartbeat now req (inr (service, address)) =>
      if bool_decide (Method req = "POST") then Some (lower service, address, now) else None
  | _ => None
  end.

Definition contact (e : event) : option (string * string * Z) :=
  match registers e with Some c => Some c | None => beats e end.

(** The instants of the contacts of an instance, and of everything. *)
Definition contacts (service address : string) (es : list event) : list Z :=
  omap (fun e => match contact e with
                 | Some (s, a, t) => if bool_decide (s = service /\ a = address) then Some t else None
                 | None => None
                 end) es.

Definition instant_of (e : event) : option Z :=
  match e with OnEvict now => Some now | _ => (fun c => c.2) <$> contact e end.

(** *** Lists of instances *)

Definition seen_at (address : string) (l : list Instance_) : option Z :=
  LastSeen <$> List.find (fun i => bool_decide (Address i = address)) l.

Definition unique (l : list Instance_) : Prop := NoDup (Address <$> l).

Lemma seen_at_None address l : seen_at address l = None <-> address ∉ Address <$> l.
Proof.
  unfold seen_at. rewrite fmap_None. split.
  - intros H Hin. apply list_elem_of_fmap in Hin as (i & -> & Hi). apply list_elem_of_In in Hi.
    eapply find_none in H; [|exact Hi]. by apply bool_decide_eq_false in H.
  - intros H. destruct (List.find _ l) as [i|] eqn:E; [|done]. apply find_some in E as [Hi E]. apply bool_decide_eq_true in E as <-.
    destruct H. apply list_elem_of_fmap. exists i. split; [done|]. by apply list_elem_of_In.
Qed.

Lemma at_address_None a f l : at_address a f l = None <-> seen_at a l = None.
Proof.
  unfold seen_at. rewrite fmap_None. induction l as [|i l IH]; [done|]. cbn. case_bool_decide; [done|]. rewrite fmap_None. exact IH.
Qed.

Lemma at_address_Some a f l l' t : (forall i, Address i = a -> Address (f i) = a /\ LastSeen (f i) = t) ->
  at_address a f l = Some l' ->
  Address <$> l' = Address <$> l /\ forall b, seen_at b l' = if bool_decide (a = b) then Some t else seen_at b l.
Proof.
  intros Hf. revert l'. induction l as [|i l IH]; intros l' H; [done|]. cbn in H. case_bool_decide as Hi.
  - injection H as <-. destruct (Hf i Hi) as [H1 H2]. split; [cbn; by rewrite H1, Hi|]. intros b. unfold seen_at. cbn.
    rewrite H1, Hi. case_bool_decide; [cbn; by rewrite H2|done].
  - apply fmap_Some in H as (l1 & H & ->). destruct (IH l1 H) as [H1 H2]. split; [cbn; by rewrite H1|]. intros b.
    unfold seen_at in *. cbn. destruct (bool_decide_reflect (Address i = b)); [|apply H2].
    rewrite bool_decide_false by congruence. done.
Qed.

Lemma seen_at_app a l i : seen_at a (l ++ [i]) = match seen_at a l with Some t => Some t | None => seen_at a [i] end.
Proof. unfold seen_at. induction l as [|j l IH]; [done|]. cbn. case_bool_decide; [done|]. exact IH. Qed.

Lemma seen_at_filter a p l : unique l ->
  seen_at a (List.filter p l) =
  match List.find (fun i => bool_decide (Address i = a)) l with Some i => if p i then Some (LastSeen i) else None | None => None end.
Proof.
  unfold unique, seen_at. induction l as [|i l IH]; [done|]. cbn. intros [Hi Hl]%NoDup_cons. case_bool_decide as Ha.
  - destruct (p i); cbn; [by rewrite bool_decide_true|]. subst a. rewrite IH by done.
    destruct (List.find _ l) as [j|] eqn:E; [|done]. apply find_some in E as [Hj E]. apply bool_decide_eq_true in E.
    destruct Hi. rewrite <- E. apply list_elem_of_fmap. exists j. split; [done|]. by apply list_elem_of_In.
  - destruct (p i); cbn; [rewrite bool_decide_false by done|]; by apply IH.
Qed.

Lemma unique_filter p l : unique l -> unique (List.filter p l).
Proof.
  unfold unique. induction l as [|i l IH]; [done|]. cbn. intros [Hi Hl]%NoDup_cons. destruct (p i); [|by apply IH].
  cbn. apply NoDup_cons. split; [|by apply IH]. intros H. apply Hi. apply list_elem_of_fmap in H as (j & -> & Hj).
  apply list_elem_of_fmap. exists j. split; [done|]. apply list_elem_of_In. apply list_elem_of_In, filter_In in Hj. by destruct Hj.
Qed.

(** *** What an event does to the membership *)

Definition last_seen (ttl : Z) (service address : string) (l : option Z) (e : event) : option Z :=
  match registers e, beats e, e with
  | Some (s, a, t), _, _ => if bool_decide (s = service /\ a = address) then Some t else l
  | None, Some (s, a, t), _ => if bool_decide (s = service /\ a = address) then (fun _ => t) <$> l else l
  | None, None, OnEvict now => l ≫= fun t => if Sub now t <=? ttl then Some t else None
  | _, _, _ => l
  end.

(** A registry of its own, in which an address is listed once per service. *)
Definition regular (r : Registry B) : Prop := backend r = None /\ forall svc, unique (listed svc r).

Definition keeps (r r' : Registry B) (f : string -> string -> option Z -> option Z) : Prop :=
  regular r' /\ ttl r' = ttl r /\ forall svc a, seen_at a (listed svc r') = f svc a (seen_at a (listed svc r)).

Lemma keeps_same r r' : regular r -> backend r' = backend r -> ttl r' = ttl r -> instances r' = instances r -> keeps r r' (fun _ _ l => l).
Proof. intros [Hb Hu] H1 H2 H3. unfold keeps, regular, listed in *. rewrite H1, H2, H3. done. Qed.

Lemma listed_insert svc s l (r : Registry B) : listed svc (with_instances (<[s := l]> (instances r)) r) = if bool_decide (s = svc) then l else listed svc r.
Proof. unfold listed. cbn. case_bool_decide as H; [subst; by rewrite lookup_insert_eq|by rewrite lookup_insert_ne]. Qed.

Lemma Register_keeps now i r : regular r ->
  keeps r (Register now i r) (fun svc a l => if bool_decide (lower (Service i) = svc /\ Address i = a) then Some now else l).
Proof.
  intros [Hb Hu]. unfold Register. rewrite Hb. change (Service (seen now i)) with (Service i). set (l := default [] _). set (l' := match at_address _ _ _ with Some l1 => l1 | None => _ end).
  assert (Hl : unique l' /\ forall a, seen_at a l' = if bool_decide (Address i = a) then Some now else seen_at a l).
  { pose proof (Hu (lower (Service i))) as Hl. change (listed _ r) with l in Hl. subst l'. cbn [Address seen].
    destruct (at_address _ _ l) as [l1|] eqn:E.
    - apply (at_address_Some _ _ _ _ now) in E as [E1 E2]; [|done]. split; [unfold unique; by rewrite E1|exact E2].
    - apply at_address_None in E. pose proof (proj1 (seen_at_None _ _) E) as Hn. split.
      + unfold unique. rewrite fmap_app. apply NoDup_app. split; [exact Hl|]. split; [|apply NoDup_singleton].
        intros x Hx Hx'. apply list_elem_of_singleton in Hx'. subst x. done.
      + intros a. rewrite seen_at_app. unfold seen_at at 2. cbn. case_bool_decide; [subst; by rewrite E|by destruct (seen_at a l)]. }
  destruct Hl as [H1 H2]. split; [split; [done|]|split; [done|]]; intros svc; [|intros a]; rewrite listed_insert.
  - case_bool_decide; [exact H1|apply Hu].
  - destruct (bool_decide_reflect (lower (Service i) = svc)) as [<-|].
    + rewrite H2. apply (f_equal (fun b : bool => if b then _ else _)). apply bool_decide_ext. naive_solver.
    + rewrite bool_decide_false by naive_solver. done.
Qed.

Lemma Heartbeat_keeps now s a r : regular r ->
  keeps r (Heartbeat now s a r).2 (fun svc b l => if bool_decide (lower s = svc /\ a = b) then (fun _ => now) <$> l else l).
Proof.
  intros [Hb Hu]. unfold Heartbeat. rewrite Hb.
  assert (Hnone : seen_at a (listed (lower s) r) = None ->
    keeps r r (fun svc b l => if bool_decide (lower s = svc /\ a = b) then (fun _ => now) <$> l else l)).
  { intros Hn. split; [done|split; [done|]]. intros svc b. case_bool_decide as H; [|done]. destruct H as [<- <-]. by rewrite Hn. }
  destruct (instances r !! lower s) as [l|] eqn:El; [|apply Hnone; unfold listed; by rewrite El].
  assert (Hl : listed (lower s) r = l) by (unfold listed; by rewrite El).
  destruct (at_address a (seen now) l) as [l'|] eqn:E; [|apply Hnone; rewrite Hl; by apply at_address_None in E].
  assert (Hsome : is_Some (seen_at a l)).
  { apply not_eq_None_Some. intros Hn. apply (at_address_None _ (seen now)) in Hn. congruence. }
  apply (at_address_Some _ _ _ _ now) in E as [E1 E2]; [|done].
  split; [split; [done|]|split; [done|]]; intros svc; [|intros b]; cbn [snd]; rewrite listed_insert.
  - case_bool_decide; [unfold unique; rewrite E1, <- Hl|]; apply Hu.
  - destruct (bool_decide_reflect (lower s = svc)) as [<-|]; [|by rewrite bool_decide_false by naive_solver].
    rewrite E2, Hl. destruct (bool_decide_reflect (a = b)) as [<-|]; [|by rewrite bool_decide_false by naive_solver].
    rewrite bool_decide_true by done. by destruct Hsome as [t ->].
Qed.

Lemma Evict_keeps now r : regular r ->
  keeps r (Evict now r) (fun _ _ l => l ≫= fun t => if Sub now t <=? ttl r then Some t else None).
Proof.
  intros [Hb Hu]. unfold Evict. rewrite Hb.
  assert (Hl : forall svc, listed svc (with_instances (omap (fun l => match List.filter (active now r) l with [] => None | l => Some l end) (instances r)) r)
                 = List.filter (active now r) (listed svc r)).
  { intros svc. unfold listed. cbn. rewrite lookup_omap. destruct (instances r !! svc) as [l|]; [|done]. cbn. by destruct (List.filter _ l). }
  split; [split; [done|]|split; [done|]]; intros svc; [|intros a]; rewrite Hl; [by apply unique_filter|].
  rewrite seen_at_filter by done. unfold seen_at, active. by destruct (List.find _ _).
Qed.

Lemma react_keeps e r : regular r -> keeps r (react e r) (fun svc a l => last_seen (ttl r) svc a l e).
Proof.
  intros Hr. unfold last_seen, registers, beats.
  destruct e; cbn [react]; try (by apply keeps_same); unfold handle_register, handle_heartbeat, handle_packet, handle_health_metrics, handle_rules,
    handle_policies, handle_lock_acquire, handle_lock_release, handle_lock_extend, posted.
  - destruct body as [e|i]; [by destruct (negb _); apply keeps_same|].
    destruct (bool_decide (Method req = "POST")); cbn [negb andb]; [|by apply keeps_same].
    destruct (bool_decide (Service i = "")), (bool_decide (Address i = "")); cbn [negb andb orb]; try (by apply keeps_same).
    by apply Register_keeps.
  - destruct body as [e|[s a]]; [by destruct (negb _); apply keeps_same|].
    destruct (bool_decide (Method req = "POST")); cbn [negb]; [|by apply keeps_same].
    pose proof (Heartbeat_keeps now s a r Hr) as H. by destruct (Heartbeat now s a r) as [[] r'].
  - by apply Evict_keeps.
  - destruct (_ && _); [exact (Register_keeps now _ r Hr)|]. destruct (bool_decide _); by apply keeps_same.
  - destruct (negb _); [by apply keeps_same|]. destruct body; [by apply keeps_same|]. destruct (_ || _); by apply keeps_same.
  - destruct (bool_decide (Method req = "GET")); [by apply keeps_same|]. destruct (negb _); [by apply keeps_same|].
    destruct body; [by apply keeps_same|]. destruct (bool_decide _); by apply keeps_same.
  - destruct (bool_decide (Method req = "GET")); [by apply keeps_same|]. destruct (negb _); [by apply keeps_same|].
    destruct body; [by apply keeps_same|]. destruct (_ || _); by apply keeps_same.
  - destruct (negb _); [by apply keeps_same|]. destruct body as [|[[k o] n]]; [by apply keeps_same|]. destruct (_ || _); [by apply keeps_same|].
    destruct (Acquire _ _ _ _ _). by apply keeps_same.
  - destruct (negb _); [by apply keeps_same|]. destruct body as [|[k o]]; [by apply keeps_same|].
    destruct (Release _ _ _). by apply keeps_same.
  - destruct (negb _); [by apply keeps_same|]. destruct body as [|[[k o] n]]; [by apply keeps_same|].
    destruct (Extend _ _ _ _ _). by apply keeps_same.
Qed.

Lemma history_keeps ttl es :
  regular (history ttl es) /\ MeshRegistry.ttl (history ttl es) = ttl /\
  forall svc a, seen_at a (listed svc (history ttl es)) = fold_left (last_seen ttl svc a) es None.
Proof.
  induction es as [|e es IH] using rev_ind.
  - split; [split; [done|intros svc; unfold listed, unique; cbn; apply NoDup_nil_2]|split; [done|]]. intros svc a. done.
  - destruct IH as (Hr & Ht & Hs). unfold history. rewrite fold_left_app. cbn [fold_left]. fold (history ttl es).
    destruct (react_keeps e _ Hr) as (Hr' & Ht' & Hs'). split; [done|]. split; [congruence|]. intros svc a.
    rewrite Hs', Hs, Ht, fold_left_app. done.
Qed.

(** *** Membership read off the history *)

Definition in_order (es : list event) : Prop := StronglySorted Z.le (omap instant_of es).

(** After [e], each eviction finds a contact that is not too old. *)
Definition kept_alive (ttl : Z) (service address : string) (e : event) (post : list event) : Prop :=
  forall before now after, post = before ++ OnEvict now :: after ->
  exists t, t ∈ contacts service address (e :: before) /\ Sub now t <= ttl.

Lemma contacts_app s a es es' : contacts s a (es ++ es') = contacts s a es ++ contacts s a es'.
Proof. apply omap_app. Qed.

Lemma contacts_registers s a t e : registers e = Some (s, a, t) -> contacts s a [e] = [t].
Proof. intros H. unfold contacts, contact. cbn. rewrite H. by rewrite bool_decide_true. Qed.

Lemma last_seen_cases ttl s a l e t : last_seen ttl s a l e = Some t ->
  registers e = Some (s, a, t) \/
  (is_Some l /\ contacts s a [e] = [t] /\ forall now, e <> OnEvict now) \/
  (l = Some t /\ contacts s a [e] = [] /\ forall now, e = OnEvict now -> Sub now t <= ttl).
Proof.
  unfold last_seen, contacts, contact. cbn. destruct (registers e) as [[[s' a'] t']|] eqn:Er.
  - case_bool_decide as H; [destruct H as [-> ->]; intros [= ->]; by left|]. intros ->. right. right. split; [done|]. split; [done|]. by intros now ->.
  - destruct (beats e) as [[[s' a'] t']|] eqn:Eb.
    + case_bool_decide as H; [destruct H as [-> ->]|].
      * intros (t0 & -> & ->)%fmap_Some. right. left. split; [done|]. split; [done|]. by intros now ->.
      * intros ->. right. right. split; [done|]. split; [done|]. by intros now ->.
    + destruct e; try (intros ->; right; right; split; [done|split; [done|by intros]]).
      destruct l as [t0|]; cbn; [|done]. destruct (Z.leb_spec (Sub now t0) ttl); [|done]. intros [= ->]. right. right. split; [done|]. split; [done|]. by intros ? [= ->].
Qed.

Lemma last_seen_lost ttl s a t e : last_seen ttl s a (Some t) e = None -> exists now, e = OnEvict now /\ ttl < Sub now t.
Proof.
  unfold last_seen. destruct (registers e) as [[[s' a'] t']|]; [by case_bool_decide|]. destruct (beats e) as [[[s' a'] t']|]; [by case_bool_decide|].
  destruct e; try done. cbn. destruct (Z.leb_spec (Sub now t) ttl); [done|]. eauto.
Qed.

Lemma contact_instant s a t e : contacts s a [e] = [t] -> instant_of e = Some t.
Proof.
  unfold contacts, instant_of. cbn. destruct (contact e) as [[[s' a'] t']|] eqn:E; [|done]. case_bool_decide; [|done]. intros [= ->].
  by destruct e.
Qed.

Lemma kept_alive_snoc ttl s a e post x : kept_alive ttl s a e post ->
  (forall now, x = OnEvict now -> exists t, t ∈ contacts s a (e :: post) /\ Sub now t <= ttl) -> kept_alive ttl s a e (post ++ [x]).
Proof.
  intros H Hx before now after Heq. destruct after as [|y after _] using rev_ind.
  - apply app_inj_tail in Heq as [-> ->]. by apply Hx.
  - rewrite app_comm_cons, app_assoc in Heq. apply app_inj_tail in Heq as [-> _]. by eapply H.
Qed.

Lemma last_seen_sound ttl s a es t : fold_left (last_seen ttl s a) es None = Some t ->
  exists pre e post t0, es = pre ++ e :: post /\ registers e = Some (s, a, t0) /\ kept_alive ttl s a e post /\ t ∈ contacts s a (e :: post).
Proof.
  revert t. induction es as [|x es IH] using rev_ind; intros t; [done|]. rewrite fold_left_app. cbn [fold_left].
  intros [Hr|[(Hl & Hc & Hx)|(Hl & _ & Hx)]]%last_seen_cases.
  - exists es, x, [], t. split; [done|]. split; [done|]. split; [intros [|? ?]; discriminate|]. rewrite (contacts_registers _ _ _ _ Hr). by apply list_elem_of_singleton.
  - destruct Hl as [t0 Hl]. destruct (IH t0 Hl) as (pre & e & post & t1 & -> & Hr & Hk & _). exists pre, e, (post ++ [x]), t1.
    rewrite <- app_assoc. split; [done|]. split; [done|]. split; [apply kept_alive_snoc; [done|]; intros now ->; by destruct (Hx now)|].
    rewrite app_comm_cons, contacts_app, Hc. apply elem_of_app. right. by apply list_elem_of_singleton.
  - destruct (IH t Hl) as (pre & e & post & t1 & -> & Hr & Hk & Ht). exists pre, e, (post ++ [x]), t1.
    rewrite <- app_assoc. split; [done|]. split; [done|]. split; [apply kept_alive_snoc; eauto|].
    rewrite app_comm_cons, contacts_app. apply elem_of_app. by left.
Qed.

Lemma Sub_antitone now t t' : t <= t' -> Sub now t' <= Sub now t.
Proof. unfold Sub. lia. Qed.

(** From a state in which the instance was last heard of at [t], no earlier
    than its contacts so far. *)
Lemma last_seen_kept ttl s a e before post t :
  kept_alive ttl s a e (before ++ post) -> (forall t', t' ∈ contacts s a (e :: before) -> t' <= t) ->
  StronglySorted Z.le (t :: omap instant_of post) -> is_Some (fold_left (last_seen ttl s a) post (Some t)).
Proof.
  revert before t. induction post as [|x post IH]; intros before t Hk Hmax Hs; [done|]. cbn [fold_left].
  assert (Hk' : kept_alive ttl s a e ((before ++ [x]) ++ post)) by (by rewrite <- app_assoc).
  assert (Hstep : forall t1, (t1 = t \/ instant_of x = Some t1) -> (forall t', t' ∈ contacts s a [x] -> t' = t1) ->
    is_Some (fold_left (last_seen ttl s a) post (Some t1))).
  { intros t1 Ht1 Hc. apply StronglySorted_inv in Hs as [Hs1 Hs2].
    assert (Hle : t <= t1 /\ StronglySorted Z.le (t1 :: omap instant_of post)).
    { destruct Ht1 as [->|Ht1]; cbn in Hs1, Hs2.
      - split; [lia|]. destruct (instant_of x); [|by constructor]. apply StronglySorted_inv in Hs1 as [Hs1 _]. apply Forall_cons in Hs2 as [_ Hs2]. by constructor.
      - rewrite Ht1 in Hs1, Hs2. apply Forall_cons in Hs2 as [H _]. done. }
    apply (IH (before ++ [x])); [done| |apply Hle].
    intros t'. rewrite app_comm_cons, contacts_app. intros [H|H]%elem_of_app; [specialize (Hmax t' H); lia|]. rewrite (Hc t' H). lia. }
  destruct (last_seen ttl s a (Some t) x) as [t1|] eqn:E.
  - apply last_seen_cases in E as [Hr|[(_ & Hc & _)|(Heq & Hc & _)]].
    + apply contacts_registers in Hr as Hc. apply Hstep; [right; by eapply contact_instant|]. rewrite Hc. by intros t' ->%list_elem_of_singleton.
    + apply Hstep; [right; by eapply contact_instant|]. rewrite Hc. by intros t' ->%list_elem_of_singleton.
    + apply Hstep; [left; congruence|]. rewrite Hc. by intros t' []%not_elem_of_nil.
  - apply last_seen_lost in E as (now & -> & Hlate). destruct (Hk before now post eq_refl) as (t' & Ht' & Hold).
    specialize (Hmax t' Ht'). pose proof (Sub_antitone now _ _ Hmax). lia.
Qed.

Lemma last_seen_complete ttl s a pre e post t :
  registers e = Some (s, a, t) -> in_order (pre ++ e :: post) -> kept_alive ttl s a e post ->
  is_Some (fold_left (last_seen ttl s a) (pre ++ e :: post) None).
Proof.
  intros Hr Ho Hk. rewrite fold_left_app. cbn [fold_left]. unfold last_seen at 2. rewrite Hr, bool_decide_true by done.
  apply (last_seen_kept ttl s a e [] post t); [done| |].
  - rewrite (contacts_registers _ _ _ _ Hr). by intros t' ->%list_elem_of_singleton.
  - unfold in_order in Ho. rewrite omap_app in Ho. apply StronglySorted_app_1_r in Ho. cbn in Ho.
    assert (Hi : instant_of e = Some t) by (unfold instant_of, contact; rewrite Hr; by destruct e). by rewrite Hi in Ho.
Qed.

Lemma membership_spec ttl es service address :
  in_order es ->
  NoDup (Address <$> Resolve service (history ttl es)) /\
  (address ∈ Address <$> Resolve service (history ttl es) <->
   exists pre e post t, es = pre ++ e :: post /\ registers e = Some (lower service, address, t) /\
     kept_alive ttl (lower service) address e post).
Proof.
  intros Ho. destruct (history_keeps ttl es) as ([Hb Hu] & _ & Hs). unfold Resolve. rewrite Hb. cbn. split; [apply Hu|].
  specialize (Hs (lower service) address). destruct (decide (address ∈ Address <$> listed (lower service) (history ttl es))) as [Hin|Hin].
  - destruct (seen_at address (listed (lower service) (history ttl es))) as [t|] eqn:E; [|by apply seen_at_None in E].
    symmetry in Hs. apply last_seen_sound in Hs as (pre & e & post & t0 & H1 & H2 & H3 & _). split; [|done]. eauto 10.
  - split; [done|]. intros (pre & e & post & t & -> & Hr & Hk). apply seen_at_None in Hin.
    destruct (last_seen_complete ttl _ _ _ _ _ _ Hr Ho Hk) as [t' Ht']. congruence.
Qed.

(** C17: membership in the mesh is exactly liveness.  In every history of the
    registry, whatever requests, datagrams and evictions it is made of, an
    address is listed once at most for a service, and it is listed if and
    only if it registered at some point and every eviction since then found a
    registration or heartbeat of it that was no older than the time to live.
    The instants of contacts and evictions do not go backwards. *)
Theorem membership_exact ttl es service address :
  in_order es ->
  NoDup (Address <$> Resolve service (history ttl es)) /\
  (address ∈ Address <$> Resolve service (history ttl es) <->
   exists pre e post t, es = pre ++ e :: post /\ registers e = Some (lower service, address, t) /\
     kept_alive ttl (lower service) address e post).
Proof. apply membership_spec. Qed.
End Membership.

(** ** Leases *)

Inductive lock_op :=
  | LAcquire (t : nat -> Z) (key owner : string) (ttl : Z)
  | LRelease (key owner : string)
  | LExtend (t : nat -> Z) (key owner : string) (ttl : Z)
  | LEvict (now : string -> Z).

(** What an operation grants, and the store after it. *)
Definition lock_step (o : lock_op) (s : Store) : option LockEntry * Store :=
  match o with
  | LAcquire t key owner ttl => let '(r, s) := Acquire t key owner ttl s in (a_Lock r, s)
  | LRelease key owner => (None, (Release key owner s).2)
  | LExtend t key owner ttl => (None, (Extend t key owner ttl s).2)
  | LEvict now => (None, evict now s)
  end.

Fixpoint lock_run (ops : list lock_op) (s : Store) : list LockEntry * Store :=
  match ops with
  | [] => ([], s)
  | o :: ops =>
      let '(g, s) := lock_step o s in
      let '(gs, s) := lock_run ops s in
      (option_list g ++ gs, s)
  end.

(** An operation of somebody else, or on another key; the clock has not
    passed the given instant. *)
Definition elsewhere (key owner : string) (until : Z) (o : lock_op) : Prop :=
  match o with
  | LAcquire t k o' _ | LExtend t k o' _ => k = key -> o' <> owner /\ t 0%nat <= until
  | LRelease k o' => k = key -> o' <> owner
  | LEvict now => now key <= until
  end.

Definition token_room (s : Store) (n : nat) : Prop := 0 <= nextToken s /\ nextToken s + Z.of_nat n <= max_int64.

Lemma next_token s n : token_room s (S n) -> wrap64 (nextToken s + 1) = nextToken s + 1.
Proof. unfold token_room. intros []. apply wrap64_id. unfold in_int64, min_int64, max_int64 in *. lia. Qed.

Lemma Acquire_cases t key owner ttl s r s' : Acquire t key owner ttl s = (r, s') ->
  (exists held, locks s !! key = Some held /\ IsExpired (t 0%nat) held = false /\ l_Owner held <> owner /\ r = mkAcquired false None (l_Owner held) /\ s' = s) \/
  (exists e, r = mkAcquired true (Some e) "" /\ l_Owner e = owner /\ l_Token e = wrap64 (nextToken s + 1) /\
     s' = mkStore (<[key := e]> (locks s)) (wrap64 (nextToken s + 1)) (defaultTTL s) /\
     forall held, locks s !! key = Some held -> IsExpired (t 0%nat) held = false -> l_Owner held = owner).
Proof.
  unfold Acquire. destruct (locks s !! key) as [held|] eqn:E.
  - destruct (IsExpired _ held) eqn:Ee; [|case_bool_decide as Ho]; intros [= <- <-].
    + right. eexists. split; [done|]. split; [done|]. split; [done|]. split; [done|]. intros ? [= <-]. congruence.
    + right. eexists. split; [done|]. split; [done|]. split; [done|]. split; [done|]. intros ? [= <-]. done.
    + left. by exists held.
  - intros [= <- <-]. right. eexists. split; [done|]. split; [done|]. split; [done|]. split; [done|]. done.
Qed.

Lemma elsewhere_keeps key l o s :
  locks s !! key = Some l -> elsewhere key (l_Owner l) (l_ExpiresAt l) o -> locks (lock_step o s).2 !! key = Some l.
Proof.
  intros Hl Ho. destruct o as [t k o' n|k o'|t k o' n|now]; cbn in *.
  - destruct (Acquire t k o' n s) as [r s'] eqn:E. cbn. apply Acquire_cases in E as [(held & _ & _ & _ & _ & ->)|(e & _ & _ & _ & -> & H)]; [done|].
    cbn. rewrite lookup_insert_ne; [done|]. intros ->. destruct (Ho eq_refl) as [H1 H2]. destruct H1. symmetry. apply H; [done|]. unfold IsExpired. lia.
  - unfold Release. destruct (locks s !! k) as [held|] eqn:E; [|done]. case_bool_decide as Hk; [|done]. cbn.
    rewrite lookup_delete_ne; [done|]. intros ->. destruct (Ho eq_refl). congruence.
  - unfold Extend. destruct (locks s !! k) as [held|] eqn:E; [|done]. destruct (IsExpired _ held || _) eqn:Ee; [done|]. cbn.
    rewrite lookup_insert_ne; [done|]. intros ->. apply orb_false_iff in Ee as [_ Ee%negb_false_iff%bool_decide_eq_true]. destruct (Ho eq_refl). congruence.
  - rewrite map_lookup_imap, Hl. cbn. unfold IsExpired. by rewrite (proj2 (Z.ltb_ge _ _)) by lia.
Qed.

Lemma lock_step_token o s n g s' : token_room s (S n) -> lock_step o s = (g, s') ->
  token_room s' n /\ nextToken s <= nextToken s' /\ forall e, g = Some e -> l_Token e = nextToken s' /\ nextToken s < l_Token e.
Proof.
  intros Hr. pose proof (next_token s n Hr) as Hn. unfold token_room in *. destruct o as [t k o' m|k o'|t k o' m|now]; cbn.
  - destruct (Acquire t k o' m s) as [r s1] eqn:E. intros [= <- <-]. apply Acquire_cases in E as [(held & _ & _ & _ & -> & ->)|(e & -> & _ & Ht & -> & _)]; cbn.
    + split; [lia|]. split; [lia|done].
    + rewrite Hn in *. split; [lia|]. split; [lia|]. intros ? [= <-]. lia.
  - intros [= <- <-]. unfold Release. destruct (locks s !! k); [case_bool_decide|]; cbn; (split; [lia|split; [lia|done]]).
  - intros [= <- <-]. unfold Extend. destruct (locks s !! k); [destruct (_ || _)|]; cbn; (split; [lia|split; [lia|done]]).
  - intros [= <- <-]. cbn. split; [lia|]. split; [lia|done].
Qed.

Lemma lock_run_tokens ops s : token_room s (length ops) ->
  StronglySorted Z.lt (nextToken s :: (l_Token <$> (lock_run ops s).1)).
Proof.
  revert s. induction ops as [|o ops IH]; intros s Hr; [constructor; constructor|]. cbn in *. destruct (lock_step o s) as [g s1] eqn:E.
  apply (lock_step_token _ _ (length ops)) in E as (Hr1 & Hle & Hg); [|done]. specialize (IH s1 Hr1). destruct (lock_run ops s1) as [gs s2]. cbn in *.
  apply StronglySorted_inv in IH as [IH1 IH2].
  assert (Hall : Forall (Z.lt (nextToken s)) (l_Token <$> gs)) by (eapply Forall_impl; [exact IH2|]; cbn; lia).
  destruct g as [e|]; cbn; [|by constructor]. destruct (Hg e eq_refl) as [-> H2]. constructor; [by constructor|]. constructor; [done|]. exact Hall.
Qed.

(** A lease of the mesh is exclusive and its token fences.  Once a lock
    is granted, then whatever operations of others on it, operations on other
    locks and evictions follow before it expires, it is still there, nobody
    else can acquire, extend or release it, and every token granted in the
    meantime, on any lock, is greater than its own and than all before. *)
Theorem mesh_lease_exclusive t key owner ttl s l s' ops :
  token_room s (S (length ops)) ->
  Acquire t key owner ttl s = (mkAcquired true (Some l) "", s') ->
  Forall (elsewhere key owner (l_ExpiresAt l)) ops ->
  let s'' := (lock_run ops s').2 in
  locks s'' !! key = Some l /\
  (forall t' other ttl', other <> owner -> t' 0%nat <= l_ExpiresAt l ->
     Acquire t' key other ttl' s'' = (mkAcquired false None owner, s'') /\
     Extend t' key other ttl' s'' = (None, s'') /\ Release key other s'' = (false, s'')) /\
  StronglySorted Z.lt (l_Token l :: (l_Token <$> (lock_run ops s').1)).
Proof.
  intros Hr Ha Ho s''. pose proof (lock_step_token (LAcquire t key owner ttl) s (length ops) (Some l) s' Hr) as Hs. cbn in Hs. rewrite Ha in Hs.
  destruct (Hs eq_refl) as (Hr' & _ & Ht). destruct (Ht l eq_refl) as [Htok _]. clear Hs Ht.
  apply Acquire_cases in Ha as [(? & _ & _ & _ & [=] & _)|(e & [= <-] & Hown & _ & Hs' & _)].
  assert (Hl : locks s'' !! key = Some l).
  { assert (Hl : locks s' !! key = Some l) by (rewrite Hs'; apply lookup_insert_eq). unfold s''. clear Hr Hr' Htok Hs' s''. revert s' Hl.
    induction ops as [|o ops IH]; intros s' Hl; [done|]. apply Forall_cons in Ho as [Ho1 Ho2]. cbn. rewrite <- Hown in Ho1.
    pose proof (elsewhere_keeps key l o s' Hl Ho1) as H. destruct (lock_step o s') as [g s1]. specialize (IH Ho2 s1 H). by destruct (lock_run ops s1). }
  split; [done|]. split; [|rewrite Htok; by apply lock_run_tokens].
  intros t' other ttl' Hne Hbefore. unfold Acquire, Extend, Release. rewrite Hl.
  assert (He : IsExpired (t' 0%nat) l = false) by (unfold IsExpired; lia). rewrite He, Hown. cbn.
  rewrite bool_decide_false by done. done.
Qed.

(** ** Examples *)

#[local] Existing Instance ascii_casing.

(** A discovery backend with fixed answers. *)
#[local] Instance fixed_backend : DiscoveryBackend (list Instance_) :=
  {| backend_Register _ _ _ _ b := b; backend_Resolve _ b := Some b |}.

Definition post : Request := mkRequest "POST" "" (fun _ => "").

Definition instance_at (service address : string) : Instance_ := mkInst service address "" 0 "" 0 "".

Definition some_events : list event :=
  [OnRegister 0 post (inr (instance_at "Billing" "10.0.0.1:80")); OnRegister 2 post (inr (instance_at "billing" "10.0.0.2:80"));
   OnEvict 9; OnHeartbeat 11 post (inr ("BILLING", "10.0.0.1:80")); OnEvict 20].

Lemma membership_exact_witness :
  (Address <$> Resolve "billing" (history 10 some_events) = ["10.0.0.1:80"]) /\
  exists pre e after t, some_events = pre ++ e :: after /\ registers e = Some ("billing", "10.0.0.1:80", t) /\
    kept_alive 10 "billing" "10.0.0.1:80" e after.
Proof.
  assert (H : Address <$> Resolve "billing" (history 10 some_events) = ["10.0.0.1:80"]) by (vm_compute; reflexivity).
  split; [exact H|]. assert (Ho : in_order some_events).
  { unfold in_order. replace (omap instant_of some_events) with [0; 2; 9; 11; 20] by (vm_compute; reflexivity). repeat constructor; lia. }
  apply (proj1 (proj2 (membership_exact 10 some_events "billing" "10.0.0.1:80" Ho))). rewrite H. left.
Defined.

Definition at_instant (n : Z) : nat -> Z := fun _ => n.

Definition leased : Store := (Acquire (at_instant 5) "db" "alice" 20 (NewStore 10)).2.
Definition contenders : list lock_op := [LAcquire (at_instant 6) "db" "bob" 50; LAcquire (at_instant 7) "cache" "bob" 50; LEvict (fun _ => 25); LRelease "db" "bob"].

Lemma mesh_lease_exclusive_witness :
  Acquire (at_instant 25) "db" "bob" 1 (lock_run contenders leased).2 = (mkAcquired false None "alice", (lock_run contenders leased).2) /\
  l_Token <$> (lock_run contenders leased).1 = [2].
Proof.
  assert (Hr : token_room (NewStore 10) (S (length contenders))) by (split; cbn; unfold max_int64; lia).
  assert (Ho : Forall (elsewhere "db" "alice" 25) contenders).
  { unfold contenders. repeat (apply Forall_cons; split); [| | | |constructor]; cbn; unfold at_instant; try (intros [=]); try split; (discriminate || lia). }
  split; [|vm_compute; reflexivity].
  pose proof (mesh_lease_exclusive (at_instant 5) "db" "alice" 20 (NewStore 10) _ leased contenders Hr eq_refl Ho) as (_ & H & _).
  apply (H (at_instant 25) "bob" 1); [discriminate|unfold at_instant; cbn; lia].
Defined.

(** Queries with a version or a region do not ask the backend, which knows the
    instances. *)
Example version_query_ignores_backend :
  let r := SetDiscoveryBackend [mkInst "billing" "10.0.0.1:80" "" 0 "v2" 1 "eu"] (NewRegistry 10) in
  length (Resolve "billing" r) = 1%nat /\ ResolveVersion "billing" "v2" r = [] /\ ResolveRegion "billing" "eu" r = [].
Proof. repeat split. Qed.
