(* ===== verification/MeshRouting.v ===== *)
(** * Theorems on the client of the mesh: requests, round robin, policies *)

From S2P Require Import Prelude GoStrings GoSort GoTime GoFloat MeshRegistry MeshClient MeshProps.
Local Open Scope string_scope.
Local Open Scope Z_scope.
Local Open Scope list_scope.

(** ** Requests *)

(** Partial correctness of a run. *)
Definition wp {A} (m : M A) (Q : A -> World -> Prop) (w : World) : Prop :=
  match m w with Some (a, w') => Q a w' | None => True end.

Lemma mesh_wp_bind {A B} (m : M A) (k : A -> M B) Q w : wp m (fun a w' => wp (k a) Q w') w -> wp (bind m k) Q w.
Proof. unfold wp, bind. by destruct (m w) as [[a w']|]. Qed.

Lemma mesh_wp_mono {A} (m : M A) (P Q : A -> World -> Prop) w : wp m P w -> (forall a w', P a w' -> Q a w') -> wp m Q w.
Proof. unfold wp. destruct (m w) as [[a w']|]; auto. Qed.

Lemma mesh_wp_ret {A} (a : A) Q w : Q a w -> wp (ret a) Q w.
Proof. done. Qed.

(** Readings only go forward. *)
Definition advances {A} (m : M A) : Prop := forall w a w', m w = Some (a, w') -> (tape w <= tape w')%nat.

Lemma advances_bind {A B} (m : M A) (k : A -> M B) : advances m -> (forall a, advances (k a)) -> advances (bind m k).
Proof. intros Hm Hk w b w'. unfold bind. destruct (m w) as [[a w1]|] eqn:E; [|done]. intros H. apply Hm in E. apply Hk in H. lia. Qed.

Lemma advances_ret {A} (a : A) : advances (ret a).
Proof. by intros w b w' [= _ <-]. Qed.

Lemma advances_panic {A} : advances (@panic A).
Proof. done. Qed.

Lemma advances_reading {A} (f : nat -> A) : advances (reading f).
Proof. intros w b w' [= _ <-]. cbn. lia. Qed.

Lemma advances_get : advances get.
Proof. by intros w b w' [= _ <-]. Qed.

Lemma advances_modify f : advances (modify f).
Proof. by intros w b w' [= _ <-]. Qed.

Lemma advances_log s : advances (log s).
Proof. by intros w b w' [= _ <-]. Qed.

Lemma advances_report r : advances (report r).
Proof. by intros w b w' [= _ <-]. Qed.

Create HintDb mesh.
#[local] Hint Resolve advances_ret advances_panic advances_reading advances_get advances_modify advances_log advances_report : mesh.

Ltac forward := repeat first
  [ progress intros | progress auto with mesh | progress cbv zeta | match goal with |- advances (bind _ _) => apply advances_bind end
  | match goal with |- advances (match ?x with _ => _ end) => destruct x end
  | match goal with |- advances (if ?x then _ else _) => destruct x end ].

Section Forward.
Context `{casing : Casing} (env : Env).

Lemma advances_attempt svc targets req e : advances (attempt env svc targets req e).
Proof.
  assert (Havail : forall l, advances (available_of env l)).
  { induction l; cbn [available_of]; unfold breaker_Allow, now; forward. }
  unfold attempt, selectTarget, getBreaker, breaker_Allow, update_breaker, measure, reportMetrics, now. forward.
Qed.

Lemma advances_attempts n m svc targets req e : advances (attempts env n m svc targets req e).
Proof. pose proof advances_attempt. revert e. induction n; cbn [attempts]; forward. Qed.
End Forward.

Section Routing.
Context `{casing : Casing} (env : Env) (start : World).

(** The control plane answered the query of reading [i], whose entry in the
    cache has not expired at some reading since the start, or the query was
    made since. *)
Definition recent (svc : string) (l : list Instance_) (w : World) : Prop :=
  exists i, (S i < tape w)%nat /\ query_instances env i svc = inr l /\
    ((tape start <= i)%nat \/
     exists j, (tape start <= j < tape w)%nat /\ clock env j < clock env (S i) + cacheTTL (transport start)).

Definition cache_ok (w : World) : Prop :=
  cacheTTL (transport w) = cacheTTL (transport start) /\
  forall svc exp, cacheExpiry (transport w) !! svc = Some exp ->
  exists i, (S i < tape w)%nat /\ query_instances env i svc = inr (default [] (cache (transport w) !! svc)) /\
    exp = clock env (S i) + cacheTTL (transport start).

(** The breaker was open at the start, and its cooldown has not passed at any
    reading since. *)
Definition cooling (w : World) (b : CircuitBreaker) : Prop :=
  state b = Open /\ forall j, (tape start <= j < tape w)%nat -> Sub (clock env j) (lastStateChg b) <= cooldown b.

Definition shielded (new : list Sent) (w : World) : Prop :=
  forall a b, breakers (transport start) !! a = Some b -> cooling w b -> breakers (transport w) !! a = Some b /\ a ∉ s_target <$> new.

Definition same_content (req sent : HTTPRequest) : Prop :=
  h_Path sent = h_Path req /\ h_Method sent = h_Method req /\ h_Header sent = h_Header req /\ h_Body sent = h_Body req.

Definition addressed (req : HTTPRequest) (targets : list Instance_) (s : Sent) : Prop :=
  s_target s ∈ Address <$> targets /\ same_content req (s_request s).

(** [n] requests have been sent. *)
Definition under_way (new : list Sent) (w : World) : Prop :=
  (tape start <= tape w)%nat /\ cache_ok w /\ sent w = sent start ++ new /\ shielded new w.

Lemma cooling_earlier w w' b : (tape w <= tape w')%nat -> cooling w' b -> cooling w b.
Proof. intros H [H1 H2]. split; [done|]. intros j Hj. apply H2. lia. Qed.

Lemma under_way_reading {A} (f : nat -> A) new w : under_way new w -> wp (reading f) (fun a w' => under_way new w' /\ a = f (tape w) /\ tape w' = S (tape w) /\ transport w' = transport w) w.
Proof.
  intros (H1 & [H2 H3] & H4 & H5). cbn. split; [|done]. split; [cbn; lia|]. split; [split; [done|]|split; [done|]].
  - intros svc exp H. destruct (H3 svc exp H) as (i & Hi & Hq). exists i. cbn. split; [lia|done].
  - intros a b Hb Hc. apply H5; [done|]. eapply cooling_earlier; [|exact Hc]. cbn. lia.
Qed.

Lemma under_way_modify f new w : under_way new w ->
  cacheTTL (f (transport w)) = cacheTTL (transport w) -> cache (f (transport w)) = cache (transport w) -> cacheExpiry (f (transport w)) = cacheExpiry (transport w) ->
  (forall a b, breakers (transport start) !! a = Some b -> cooling w b -> breakers (transport w) !! a = Some b -> breakers (f (transport w)) !! a = Some b) ->
  wp (modify f) (fun _ w' => under_way new w' /\ tape w' = tape w /\ transport w' = f (transport w)) w.
Proof.
  intros (H1 & [H2 H3] & H4 & H5) E1 E2 E3 Hb. cbn. split; [|done]. split; [done|]. split; [split; cbn; rewrite ?E1, ?E2, ?E3; done|]. split; [done|].
  intros a b Ha Hc. destruct (H5 a b Ha Hc) as [H6 H7]. split; [|done]. by apply Hb.
Qed.

Lemma breaker_Allow_spec target b new w : under_way new w -> breakers (transport w) !! target = Some b ->
  wp (breaker_Allow env target b)
     (fun ok w' => under_way new w' /\ (tape w <= tape w')%nat /\
        (ok = true -> forall b0, breakers (transport start) !! target = Some b0 -> ~ cooling w' b0) /\
        is_Some (breakers (transport w') !! target)) w.
Proof.
  intros Hw Hb. unfold breaker_Allow, now. apply mesh_wp_bind. eapply mesh_wp_mono; [by apply under_way_reading|]. cbn beta. intros t0 w1 (Hw1 & -> & Ht1 & Htr1).
  apply mesh_wp_bind. eapply mesh_wp_mono; [by apply under_way_reading|]. cbn beta. intros t1 w2 (Hw2 & -> & Ht2 & Htr2). destruct (Allow _ _ b) as [ok b'] eqn:E.
  assert (Hshield : forall b0, breakers (transport start) !! target = Some b0 -> cooling w2 b0 -> ok = false /\ b' = b0).
  { intros b0 Hb0 Hc. destruct Hw2 as (_ & _ & _ & Hs). destruct (Hs target b0 Hb0 Hc) as [Hb2 _]. rewrite Htr2, Htr1, Hb in Hb2. injection Hb2 as ->.
    destruct Hc as [Ho Hc]. unfold Allow in E. rewrite Ho in E. destruct Hw as (Hle & _).
    specialize (Hc (tape w)). rewrite (proj2 (Z.ltb_ge _ _)) in E by (apply Hc; lia). by injection E as <- <-. }
  apply mesh_wp_bind. eapply mesh_wp_mono; [apply (under_way_modify _ new w2); [done|done|done|done|]|].
  { intros a b0 Hb0 Hc Hcur. cbn. destruct (decide (target = a)) as [->|]; [|by rewrite lookup_insert_ne].
    destruct (Hshield b0 Hb0 Hc) as [_ ->]. by rewrite lookup_insert_eq. }
  cbn beta. intros _ w3 (Hw3 & Ht3 & Htr3). apply mesh_wp_ret. split; [done|]. split; [lia|]. split.
  - intros -> b0 Hb0 Hc. destruct (Hshield b0 Hb0) as [[=] _]. eapply cooling_earlier; [|exact Hc]. lia.
  - rewrite Htr3. cbn. rewrite lookup_insert_eq. done.
Qed.

Lemma available_spec targets new w : under_way new w ->
  wp (available_of env targets) (fun l w' => under_way new w' /\ l ⊆ targets) w.
Proof.
  revert w. induction targets as [|i targets IH]; intros w Hw; [by apply mesh_wp_ret|]. cbn [available_of]. apply mesh_wp_bind. cbn.
  apply mesh_wp_bind. eapply (mesh_wp_mono _ (fun _ w' => under_way new w')).
  { destruct (breakers (transport w) !! Address i) as [b|] eqn:Eb; [|by apply mesh_wp_ret]. eapply mesh_wp_mono; [by eapply breaker_Allow_spec|]. by intros ? ? (? & _). }
  cbn beta. intros ok w1 Hw1. apply mesh_wp_bind. eapply mesh_wp_mono; [by apply IH|]. cbn beta. intros l w2 [Hw2 Hl]. apply mesh_wp_ret. split; [done|].
  destruct ok; set_solver.
Qed.

Lemma weighted_elem val cur l ws a : weighted val cur (zip l ws) = Some a -> a ∈ Address <$> l.
Proof.
  revert cur ws. induction l as [|i l IH]; intros cur [|x ws]; cbn; try done. destruct (_ <? _); [intros [= <-]; by left|]. intros H. right. by eapply IH.
Qed.

Lemma selectTarget_spec svc targets new w : under_way new w ->
  wp (selectTarget env svc targets) (fun t w' => under_way new w' /\ (t = "" \/ t ∈ Address <$> targets)) w.
Proof.
  intros Hw. unfold selectTarget. apply mesh_wp_bind. eapply mesh_wp_mono; [by apply available_spec|]. cbn beta. intros l w1 [Hw1 Hl].
  assert (Hin : forall i, i ∈ l -> Address i ∈ Address <$> targets) by (intros i Hi; apply list_elem_of_fmap_2, Hl, Hi).
  destruct l as [|first l]; [apply mesh_wp_ret; auto|]. apply mesh_wp_bind. cbn [wp get]. destruct (_ && _).
  - destruct (_ !! _) as [sel|] eqn:Es; [|done]. apply list_elem_of_lookup_2 in Es. apply mesh_wp_bind.
    eapply mesh_wp_mono; [by apply (under_way_modify _ new w1)|]. cbn beta. intros _ w2 (Hw2 & _). apply mesh_wp_ret. auto.
  - destruct (_ <=? 0); [done|]. apply mesh_wp_bind. eapply mesh_wp_mono; [by apply under_way_reading|]. cbn beta. intros v w2 (Hw2 & -> & _). apply mesh_wp_ret.
    split; [done|]. right. destruct (weighted _ _ _) as [a|] eqn:E; cbn; [|apply Hin; left].
    apply weighted_elem in E. apply list_elem_of_fmap in E as (i & -> & Hi). by apply Hin.
Qed.

Lemma getBreaker_spec target new w : under_way new w ->
  wp (getBreaker env target) (fun b w' => under_way new w' /\ breakers (transport w') !! target = Some b) w.
Proof.
  intros Hw. unfold getBreaker. apply mesh_wp_bind. cbn [wp get]. destruct (breakers (transport w) !! target) as [b|] eqn:E; [by apply mesh_wp_ret|].
  apply mesh_wp_bind. eapply mesh_wp_mono; [by apply under_way_reading|]. cbn beta. intros t0 w1 (Hw1 & -> & Ht1 & Htr1).
  apply mesh_wp_bind. eapply mesh_wp_mono; [apply (under_way_modify _ new w1); [done|done|done|done|]|].
  { intros a b0 Hb0 Hc Hcur. cbn. rewrite Htr1 in Hcur. rewrite lookup_insert_ne; [done|]. intros ->. congruence. }
  cbn beta. intros _ w2 (Hw2 & _ & Htr2). apply mesh_wp_ret. split; [done|]. rewrite Htr2. cbn. by rewrite lookup_insert_eq.
Qed.

Lemma log_spec s new w : under_way new w ->
  (forall b0, breakers (transport start) !! s_target s = Some b0 -> ~ cooling w b0) ->
  wp (log s) (fun _ w' => under_way (new ++ [s]) w' /\ tape w' = tape w /\ transport w' = transport w) w.
Proof.
  intros (H1 & H2 & H3 & H4) Hs. cbn. split; [|done]. split; [done|]. split; [done|]. split; [cbn; by rewrite H3, app_assoc|].
  intros a b Ha Hc. destruct (H4 a b Ha Hc) as [H5 H6]. split; [done|]. rewrite fmap_app, elem_of_app. intros [H|H]; [done|].
  apply list_elem_of_singleton in H. subst a. by destruct (Hs b Ha).
Qed.

Lemma update_breaker_spec target f new w : under_way new w ->
  (forall b0, breakers (transport start) !! target = Some b0 -> ~ cooling w b0) ->
  wp (update_breaker target f) (fun _ w' => under_way new w') w.
Proof.
  intros Hw Hs. eapply mesh_wp_mono; [apply (under_way_modify _ new w); [done|done|done|done|]|by intros ? ? (? & _)].
  intros a b Ha Hc Hcur. cbn. rewrite lookup_alter_ne; [done|]. intros ->. by destruct (Hs b Ha).
Qed.

Lemma measure_spec svc target elapsed failed new w : under_way new w ->
  wp (measure svc target elapsed failed) (fun _ w' => under_way new w' /\ tape w' = tape w) w.
Proof.
  intros Hw. unfold measure. apply mesh_wp_bind. eapply mesh_wp_mono; [by apply (under_way_modify _ new w)|]. cbn beta. intros _ w1 (Hw1 & Ht & _).
  apply mesh_wp_bind. cbn [wp get]. unfold reportMetrics. apply mesh_wp_bind. cbn [wp get]. case_bool_decide; [by apply mesh_wp_ret|]. cbn. by split.
Qed.

(** What is known after an attempt: one more request at most; an answer is
    that of the last request. *)
Definition attempted (req : HTTPRequest) (targets : list Instance_) (new : list Sent) (a : Attempt) (w : World) : Prop :=
  exists more, under_way (new ++ more) w /\ Forall (addressed req targets) more /\ (length more <= 1)%nat /\
    forall r, a = Answer r -> r_Status r < 500 /\ exists s i, more = [s] /\ round_trip env i (s_request s) = inr r.

Lemma attempt_spec svc targets req e new w : under_way new w ->
  wp (attempt env svc targets req e) (attempted req targets new) w.
Proof.
  intros Hw. unfold attempt. apply mesh_wp_bind. eapply mesh_wp_mono; [by apply selectTarget_spec|]. cbn beta. intros target w1 [Hw1 Ht].
  assert (Hstop : forall a w', under_way new w' -> (forall r, a <> Answer r) -> attempted req targets new a w').
  { intros a w' H Ha. exists []. rewrite app_nil_r. split; [done|]. split; [constructor|]. split; [cbn; lia|]. intros r Hr. by destruct (Ha r). }
  case_bool_decide as Hne; [apply mesh_wp_ret, Hstop; done|]. destruct Ht as [->|Ht]; [done|].
  apply mesh_wp_bind. eapply mesh_wp_mono; [by apply getBreaker_spec|]. cbn beta. intros b w2 [Hw2 Hb].
  apply mesh_wp_bind. eapply mesh_wp_mono; [by apply breaker_Allow_spec|]. cbn beta. intros ok w3 (Hw3 & Hle3 & Hcool & _).
  destruct ok; cbn [negb]; [|apply mesh_wp_ret, Hstop; done]. specialize (Hcool eq_refl).
  destruct (url_Parse env target) as [[scheme host]|]; [|apply mesh_wp_ret, Hstop; done]. apply mesh_wp_bind. cbn [wp get].
  assert (Hcool' : forall w', (tape w3 <= tape w')%nat -> forall b0, breakers (transport start) !! target = Some b0 -> ~ cooling w' b0).
  { intros w' Hw' b0 Hb0 Hc. apply (Hcool b0 Hb0). by eapply cooling_earlier. }
  apply mesh_wp_bind. eapply mesh_wp_mono; [by apply under_way_reading|]. cbn beta. intros t0 w4 (Hw4 & -> & Ht4 & Htr4).
  set (s := mkSent target _). apply mesh_wp_bind. eapply mesh_wp_mono; [apply (log_spec s new w4 Hw4), Hcool'; lia|]. cbn beta. intros _ w5 (Hw5 & Ht5 & _).
  apply mesh_wp_bind. eapply mesh_wp_mono; [by apply under_way_reading|]. cbn beta. intros answer w6 (Hw6 & Ha & Ht6 & _).
  apply mesh_wp_bind. eapply mesh_wp_mono; [by apply under_way_reading|]. cbn beta. intros t1 w7 (Hw7 & -> & Ht7 & _).
  apply mesh_wp_bind. eapply mesh_wp_mono; [by apply measure_spec|]. cbn beta. intros _ w8 (Hw8 & Ht8).
  apply mesh_wp_bind. eapply mesh_wp_mono; [by apply under_way_reading|]. cbn beta. intros t2 w9 (Hw9 & -> & Ht9 & _).
  assert (Haddr : Forall (addressed req targets) [s]) by (constructor; [split; [done|]; by repeat split|constructor]).
  assert (Hend : forall a w', under_way (new ++ [s]) w' -> (forall r, a = Answer r -> r_Status r < 500 /\ answer = inr r) -> attempted req targets new a w').
  { intros a w' H Hr. exists [s]. split; [done|]. split; [done|]. split; [cbn; lia|]. intros r Har. destruct (Hr r Har) as [H1 H2]. split; [done|].
    exists s, (tape w5). split; [done|]. cbn. congruence. }
  destruct answer as [err|resp].
  - apply mesh_wp_bind. eapply mesh_wp_mono; [apply update_breaker_spec; [exact Hw9|apply Hcool'; lia]|]. cbn beta. intros _ w' Hw'. apply mesh_wp_ret, Hend; done.
  - destruct (Z.ltb_spec (r_Status resp) 500); apply mesh_wp_bind;
      (eapply mesh_wp_mono; [apply update_breaker_spec; [exact Hw9|apply Hcool'; lia]|]; cbn beta; intros _ w' Hw'; apply mesh_wp_ret, Hend; [done|]); [|done].
    intros r [= <-]. done.
Qed.

(** What is known after a request. *)
Definition finished (req : HTTPRequest) (targets : list Instance_) (n : nat) (new : list Sent) (r : Err + HTTPResponse) (w : World) : Prop :=
  exists more, under_way (new ++ more) w /\ Forall (addressed req targets) more /\ (length more <= n)%nat /\
    forall resp, r = inr resp -> r_Status resp < 500 /\ exists init s i, more = init ++ [s] /\ round_trip env i (s_request s) = inr resp.

Lemma attempts_spec n m svc targets req e new w : under_way new w ->
  wp (attempts env n m svc targets req e) (finished req targets n new) w.
Proof.
  revert e new w. induction n as [|n IH]; intros e new w Hw.
  { apply mesh_wp_ret. exists []. rewrite app_nil_r. split; [done|]. split; [constructor|]. split; [cbn; lia|done]. }
  cbn [attempts]. apply mesh_wp_bind. eapply mesh_wp_mono; [by apply attempt_spec|]. cbn beta. intros a w1 (more & Hw1 & Hg & Hlen & Ha). destruct a as [r|err|e'].
  - apply mesh_wp_ret. exists more. split; [done|]. split; [done|]. split; [lia|]. intros resp [= <-]. destruct (Ha r eq_refl) as (H1 & s & i & -> & H2).
    split; [done|]. by exists [], s, i.
  - apply mesh_wp_ret. exists more. split; [done|]. split; [done|]. split; [lia|done].
  - eapply mesh_wp_mono; [by apply IH|]. cbn beta. intros r w2 (more' & Hw2 & Hg' & Hlen' & Hr). exists (more ++ more'). rewrite app_assoc. split; [done|].
    split; [by apply Forall_app|]. split; [rewrite length_app; lia|]. intros resp Hresp. destruct (Hr resp Hresp) as (H1 & init & s & i & -> & H2).
    split; [done|]. exists (more ++ init), s, i. by rewrite app_assoc.
Qed.

Lemma mesh_resolve_spec svc : cache_ok start ->
  wp (resolve env svc) (fun r w => under_way [] w /\ forall l, r = inr l -> recent svc l w) start.
Proof.
  intros Hc. assert (Hw : under_way [] start).
  { split; [lia|]. split; [done|]. split; [by rewrite app_nil_r|]. intros a b Ha _. split; [done|]. cbn. apply not_elem_of_nil. }
  unfold resolve. apply mesh_wp_bind. cbn [wp get]. apply mesh_wp_bind.
  eapply (mesh_wp_mono _ (fun fresh w => under_way [] w /\ transport w = transport start /\
    (fresh = true -> recent svc (default [] (cache (transport start) !! svc)) w))).
  { destruct (cacheExpiry (transport start) !! svc) as [exp|] eqn:E; [|apply mesh_wp_ret; done]. apply mesh_wp_bind.
    eapply mesh_wp_mono; [by apply under_way_reading|]. cbn beta. intros t0 w (Hw1 & -> & Ht & Htr). apply mesh_wp_ret. split; [done|]. split; [done|].
    intros Hlt. destruct Hc as [_ Hc]. destruct (Hc svc exp E) as (i & Hi & Hq & ->). exists i. split; [lia|]. split; [done|]. right. exists (tape start). split; lia. }
  cbn beta. intros fresh w1 (Hw1 & Htr1 & Hf). destruct fresh; [apply mesh_wp_ret; split; [done|]; intros l [= <-]; auto|].
  apply mesh_wp_bind. eapply mesh_wp_mono; [by apply under_way_reading|]. cbn beta. intros answer w2 (Hw2 & Ha & Ht2 & Htr2).
  destruct answer as [err|l]; [by apply mesh_wp_ret|].
  apply mesh_wp_bind. eapply mesh_wp_mono; [by apply under_way_reading|]. cbn beta. intros t1 w3 (Hw3 & -> & Ht3 & Htr3). rewrite Ht2 in *.
  apply mesh_wp_bind. cbn. destruct Hw3 as (H1 & [H2 H3] & H4 & H5). destruct Hw1 as (Hle & _). split.
  - split; [done|]. split; [split; [done|]|split; [done|done]]. intros svc' exp. cbn. rewrite lookup_insert_Some. intros [[<- <-]|[Hne H]].
    + exists (tape w1). rewrite lookup_insert_eq. split; [lia|]. split; [done|]. done.
    + rewrite lookup_insert_ne by done. apply H3. done.
  - intros l' [= <-]. exists (tape w1). cbn. split; [lia|]. split; [done|]. by left.
Qed.

Lemma limiter_spec caller callee new w : under_way new w -> wp (limiter_Allow env caller callee) (fun _ w' => under_way new w' /\ (tape w <= tape w')%nat) w.
Proof.
  intros Hw. unfold limiter_Allow. apply mesh_wp_bind. cbn [wp get]. destruct (rateLimiters _ !! _) as [rl|]; [|apply mesh_wp_ret; done].
  apply mesh_wp_bind. eapply mesh_wp_mono; [by apply under_way_reading|]. cbn beta. intros t0 w1 (Hw1 & -> & Ht & _). destruct (rl_Allow _ rl) as [ok rl'].
  apply mesh_wp_bind. eapply mesh_wp_mono; [by apply (under_way_modify _ new w1)|]. cbn beta. intros _ w2 (Hw2 & Ht2 & _). apply mesh_wp_ret. split; [done|lia].
Qed.

Lemma ResolveRule_spec svc new w : under_way new w -> wp (ResolveRule env svc) (fun _ w' => under_way new w' /\ (tape w <= tape w')%nat) w.
Proof.
  intros Hw. unfold ResolveRule. apply mesh_wp_bind. cbn [wp get]. apply mesh_wp_bind. eapply (mesh_wp_mono _ (fun _ w' => under_way new w' /\ (tape w <= tape w')%nat)).
  { destruct (rulesExpiry _ !! svc); [|by apply mesh_wp_ret]. apply mesh_wp_bind. eapply mesh_wp_mono; [by apply under_way_reading|]. cbn beta. intros t0 w1 (Hw1 & _ & Ht & _).
    apply mesh_wp_ret. split; [done|lia]. }
  cbn beta. intros fresh w1 [Hw1 Ht1]. destruct fresh; [by apply mesh_wp_ret|].
  apply mesh_wp_bind. eapply mesh_wp_mono; [by apply under_way_reading|]. cbn beta. intros answer w2 (Hw2 & _ & Ht2 & _).
  destruct answer as [err|rule]; [apply mesh_wp_ret; split; [done|lia]|].
  apply mesh_wp_bind. eapply mesh_wp_mono; [by apply under_way_reading|]. cbn beta. intros t1 w3 (Hw3 & _ & Ht3 & _).
  apply mesh_wp_bind. eapply mesh_wp_mono; [by apply (under_way_modify _ new w3)|]. cbn beta. intros _ w4 (Hw4 & Ht4 & _). apply mesh_wp_ret. split; [done|lia].
Qed.

Lemma fault_spec rule new w : under_way new w -> wp (injected_fault env rule) (fun _ w' => under_way new w' /\ (tape w <= tape w')%nat) w.
Proof.
  intros Hw. unfold injected_fault. apply mesh_wp_bind. eapply (mesh_wp_mono _ (fun _ w' => under_way new w' /\ (tape w <= tape w')%nat)).
  { destruct (0 <? _); [|by apply mesh_wp_ret]. eapply mesh_wp_mono; [by apply under_way_reading|]. cbn beta. intros t0 w1 (Hw1 & _ & Ht & _). split; [done|lia]. }
  cbn beta. intros _ w1 [Hw1 Ht1]. destruct (0 <? FaultErrorStatus rule); [|apply mesh_wp_ret; done].
  apply mesh_wp_bind. eapply mesh_wp_mono; [by apply under_way_reading|]. cbn beta. intros x w2 (Hw2 & _ & Ht2 & _). apply mesh_wp_ret. split; [done|lia].
Qed.
End Routing.

(** ** The client against the registry *)

Section Mesh.
Context `{casing : Casing} {B : Type} `{discovery : DiscoveryBackend B}.

Lemma path_parts_resolve svc : svc <> "" -> "/"%char ∉ byt svc -> path_parts ("/api/resolve/" +:+ svc) = ["api"; "resolve"; svc].
Proof.
  intros Hne Hs. unfold path_parts. rewrite byt_app. change (trim_slashes (byt "/api/resolve/" ++ byt svc)) with (byt "api/resolve/" ++ byt svc).
  assert (Ht : trim_slashes (rev (byt "api/resolve/" ++ byt svc)) = rev (byt "api/resolve/" ++ byt svc)).
  { assert (Hne' : byt svc <> []) by (intros E; apply Hne; by rewrite <- (str_byt svc), E).
    destruct (byt svc) as [|c x _] using rev_ind; [done|]. rewrite app_assoc, rev_app_distr. cbn [rev app].
    apply not_elem_of_app in Hs as [_ Hs]. apply not_elem_of_cons in Hs as [Hs _]. cbn. destruct c as [[] [] [] [] [] [] [] []]; try reflexivity. done. }
  rewrite Ht, rev_involutive. unfold Split. rewrite byt_str.
  change (byt "api/resolve/" ++ byt svc) with (byt "api" ++ "/"%char :: byt "resolve" ++ "/"%char :: byt svc).
  rewrite !bytes_Split_app by (apply (bool_decide_unpack _); exact I). rewrite (bytes_Split_no _ _ Hs). cbn [map]. by rewrite !str_byt.
Qed.

(** The transports that requests and calls lead to. *)
Inductive client_reachable (env : Env) : World -> Prop :=
  | reach_new url ttl : client_reachable env (mkWorld 0 (NewMeshTransport url ttl) [] [])
  | reach_request w req r w' : client_reachable env w -> RoundTrip env req w = Some (r, w') -> client_reachable env w'
  | reach_call w target invoker r w' :
      client_reachable env w -> GRPCUnaryInterceptor env target invoker w = Some (r, w') -> client_reachable env w'
  | reach_limit w caller callee rps burst w' :
      client_reachable env w -> SetRateLimit env caller callee rps burst w = Some (tt, w') -> client_reachable env w'.

Definition for_mesh (req : HTTPRequest) : Prop := h_Scheme req = "pranor" \/ h_Scheme req = "serv".

(** What [RoundTrip] does with a request for the mesh. *)
Lemma RoundTrip_spec env req w : cache_ok env w w -> for_mesh req ->
  wp (RoundTrip env req) (fun r w' =>
    (exists targets, recent env w (lower (h_Host req)) targets w' /\ exists n, finished env w req (select_version req targets) n [] r w') \/
    under_way env w [] w') w.
Proof.
  intros Hc Hm. unfold RoundTrip. assert (Hg : negb (bool_decide (h_Scheme req = "pranor")) && negb (bool_decide (h_Scheme req = "serv")) = false).
  { destruct Hm as [->| ->]; [done|]. by rewrite andb_false_r. }
  rewrite Hg. apply mesh_wp_bind. eapply mesh_wp_mono; [by apply (mesh_resolve_spec env w)|]. cbn beta. intros r1 w1 [Hw1 Hrec].
  destruct r1 as [e|[|i l]]; [apply mesh_wp_ret; auto|apply mesh_wp_ret; auto|]. set (targets := i :: l) in *. specialize (Hrec targets eq_refl).
  apply mesh_wp_bind. eapply mesh_wp_mono; [by apply limiter_spec|]. cbn beta. intros ok w2 [Hw2 Ht2]. destruct ok; cbn [negb]; [|apply mesh_wp_ret; auto].
  apply mesh_wp_bind. eapply mesh_wp_mono; [by apply ResolveRule_spec|]. cbn beta. intros rule w3 [Hw3 Ht3].
  apply mesh_wp_bind. eapply mesh_wp_mono; [by apply fault_spec|]. cbn beta. intros fault w4 [Hw4 Ht4]. destruct fault; [apply mesh_wp_ret; auto|].
  set (m := attempts _ _ _ _ _ _ _). pose proof (advances_attempts env _ _ _ _ _ _ : advances m) as Hadv.
  pose proof (attempts_spec env w _ _ _ _ _ _ [] w4 Hw4 : wp m _ w4) as Hf. unfold wp in Hf |- *. destruct (m w4) as [[r w']|] eqn:Em; [|done].
  apply Hadv in Em. left. exists targets. split; [|eauto].
  destruct Hrec as (j & Hj & Hq & Hr). exists j. split; [lia|]. split; [done|]. destruct Hr as [Hr|(k & Hk & Hlt)]; [by left|]. right. exists k. split; [lia|done].
Qed.

Lemma cache_ok_self env start w : cache_ok env start w -> cache_ok env w w.
Proof. unfold cache_ok. intros [<- H]. done. Qed.

Lemma under_way_start env w : cache_ok env w w -> under_way env w [] w.
Proof.
  intros Hc. split; [lia|]. split; [done|]. split; [by rewrite app_nil_r|]. intros a b Ha _. split; [done|]. cbn. apply not_elem_of_nil.
Qed.

Lemma wp_elim {A} (m : M A) Q w a w' : wp m Q w -> m w = Some (a, w') -> Q a w'.
Proof. unfold wp. intros H E. by rewrite E in H. Qed.

Lemma Interceptor_spec env target invoker w : cache_ok env w w -> wp (GRPCUnaryInterceptor env target invoker) (fun _ w' => under_way env w [] w') w.
Proof.
  intros Hw%under_way_start. unfold GRPCUnaryInterceptor. apply mesh_wp_bind. eapply mesh_wp_mono; [by apply getBreaker_spec|]. cbn beta. intros b w2 [Hw2 Hb].
  apply mesh_wp_bind. eapply mesh_wp_mono; [by apply breaker_Allow_spec|]. cbn beta. intros ok w3 (Hw3 & _ & Hcool & _). destruct ok; cbn [negb]; [|by apply mesh_wp_ret].
  specialize (Hcool eq_refl).
  apply mesh_wp_bind. eapply mesh_wp_mono; [by apply under_way_reading|]. cbn beta. intros t0 w4 (Hw4 & _ & Ht4 & _).
  apply mesh_wp_bind. eapply mesh_wp_mono; [by apply under_way_reading|]. cbn beta. intros err w5 (Hw5 & _ & Ht5 & _).
  apply mesh_wp_bind. eapply mesh_wp_mono; [by apply under_way_reading|]. cbn beta. intros t1 w6 (Hw6 & _ & Ht6 & _).
  apply mesh_wp_bind. eapply mesh_wp_mono; [by apply under_way_reading|]. cbn beta. intros t2 w7 (Hw7 & _ & Ht7 & _).
  assert (Hcool' : forall b0, breakers (transport w) !! target = Some b0 -> ~ cooling env w w7 b0).
  { intros b0 Hb0 Hc. apply (Hcool b0 Hb0). eapply cooling_earlier; [|exact Hc]. lia. }
  assert (Hend : forall f rp w', under_way env w [] w' -> (forall b0, breakers (transport w) !! target = Some b0 -> ~ cooling env w w' b0) ->
    wp (update_breaker target f ;;; reportMetrics target target rp.1 rp.2) (fun _ w' => under_way env w [] w') w').
  { intros f rp w' Hw' Hc. apply mesh_wp_bind. eapply mesh_wp_mono; [by apply update_breaker_spec|]. cbn beta. intros _ w8 Hw8.
    unfold reportMetrics. apply mesh_wp_bind. cbn [wp get]. case_bool_decide; [by apply mesh_wp_ret|exact Hw8]. }
  apply mesh_wp_bind. eapply mesh_wp_mono; [destruct err; exact (Hend _ (_, _) w7 Hw7 Hcool')|]. cbn beta. intros _ w8 Hw8. by apply mesh_wp_ret.
Qed.

Lemma reachable_cache_ok env w : client_reachable env w -> cache_ok env w w.
Proof.
  induction 1 as [url n|w req r w' _ Hc E|w target invoker r w' _ Hc E|w caller callee rps burst w' _ Hc E].
  - split; [done|]. intros svc exp. cbn. by rewrite lookup_empty.
  - destruct (decide (h_Scheme req = "pranor" \/ h_Scheme req = "serv")) as [Hm|Hm].
    + pose proof (wp_elim _ _ _ _ _ (RoundTrip_spec env req w Hc Hm) E) as Hx. apply (cache_ok_self env w).
      destruct Hx as [(l & _ & n & more & (_ & Hx & _) & _)|(_ & Hx & _)]; done.
    + unfold RoundTrip in E. rewrite !bool_decide_false in E by tauto. cbn in E. injection E as _ <-.
      destruct Hc as [_ Hc]. split; [done|]. cbn. intros svc exp Hx. destruct (Hc svc exp Hx) as (i & Hi & H). exists i. cbn. split; [lia|done].
  - apply (cache_ok_self env w). pose proof (wp_elim _ _ _ _ _ (Interceptor_spec env target invoker w Hc) E) as Hx. by destruct Hx as (_ & Hx & _).
  - cbn in E. injection E as <-. destruct Hc as [_ Hc]. split; [done|]. cbn. intros svc exp Hx. destruct (Hc svc exp Hx) as (i & Hi & H). exists i. cbn. split; [lia|done].
Qed.

Lemma select_version_incl req l : select_version req l ⊆ l.
Proof.
  unfold select_version. case_bool_decide; [done|]. assert (Hf : List.filter (fun i => EqualFold (Version i) (header req "X-Service-Version")) l ⊆ l).
  { intros i Hi%list_elem_of_In%filter_In. apply list_elem_of_In. by destruct Hi. }
  by destruct (List.filter _ l).
Qed.

(** The registry of the mesh at each reading of the client's environment. *)
Definition control_plane (env : Env) (ttl : Z) (es : nat -> list event) : Prop :=
  (forall i, in_order (es i)) /\
  forall i svc l, query_instances env i svc = inr l ->
    payload (handle_resolve (mkRequest "GET" ("/api/resolve/" +:+ svc) (fun _ => "")) (history (discovery := discovery) ttl (es i))) = PInstances l.

Definition live_member (ttl : Z) (es : list event) (svc address : string) : Prop :=
  exists pre e post t, es = pre ++ e :: post /\ registers e = Some (svc, address, t) /\ kept_alive ttl svc address e post.

(** C14: a request of the mesh reaches live instances only.  Take any client
    that earlier requests and calls lead to, whose registry has any history,
    and a request for a service.  Whatever the network answers, each
    attempt carries the request as it is to an address that, at a query made
    during this request or no longer ago than the time to live of the cache,
    was registered for the service and heard of in time at every eviction;
    no attempt goes to an address whose breaker was open and has not cooled
    down; and an answer that comes from a target is the one to the last
    attempt, and no server error. *)
Theorem mesh_request_reaches_live_targets env ttl es w req r w' :
  control_plane env ttl es -> client_reachable env w -> for_mesh req ->
  lower (h_Host req) <> "" -> "/"%char ∉ byt (lower (h_Host req)) ->
  RoundTrip env req w = Some (r, w') ->
  exists attempts, sent w' = sent w ++ attempts /\
    Forall (fun s => same_content req (s_request s) /\
      (exists i, (S i < tape w')%nat /\ live_member ttl (es i) (lower (lower (h_Host req))) (s_target s) /\
         ((tape w <= i)%nat \/ exists j, (tape w <= j < tape w')%nat /\ clock env j < clock env (S i) + cacheTTL (transport w))) /\
      (forall b, breakers (transport w) !! s_target s = Some b -> ~ cooling env w w' b)) attempts /\
    (forall resp, r = inr resp -> attempts = [] \/
       r_Status resp < 500 /\ exists init s i, attempts = init ++ [s] /\ round_trip env i (s_request s) = inr resp).
Proof.
  intros [Ho Hq] Hr Hm Hne Hslash E. apply reachable_cache_ok in Hr. pose proof (wp_elim _ _ _ _ _ (RoundTrip_spec env req w Hr Hm) E) as H. cbn beta in H.
  destruct H as [(targets & (i & Hi & Hqi & Hwin) & n & new & (_ & _ & Hsent & Hsh) & Hall & _ & Hans)|(_ & _ & Hsent & _)].
  - exists new. split; [done|]. split; [|intros resp Hresp; right; by apply Hans]. apply Forall_forall. intros s Hs. rewrite Forall_forall in Hall.
    destruct (Hall s Hs) as [Hin Hcont]. split; [done|]. split.
    + exists i. split; [done|]. split; [|done]. specialize (Hq i _ _ Hqi). unfold handle_resolve in Hq. cbn [Method negb] in Hq.
      rewrite bool_decide_true in Hq by done. cbn [negb URL_Path] in Hq. rewrite path_parts_resolve in Hq by done. cbn in Hq. injection Hq as <-.
      apply list_elem_of_fmap in Hin as (inst & Ha & Hinst). apply select_version_incl in Hinst.
      destruct (membership_spec ttl (es i) (lower (h_Host req)) (s_target s) (Ho i)) as [_ Hmem]. apply Hmem. rewrite Ha. by apply list_elem_of_fmap_2.
    + intros b Hb Hc. destruct (Hsh _ _ Hb Hc) as [_ Hn]. apply Hn. by apply list_elem_of_fmap_2.
  - exists []. split; [done|]. split; [constructor|]. intros. by left.
Qed.
End Mesh.

(** ** Round robin *)

Section Fair.
Context `{casing : Casing} (env : Env).

(** No breaker of a target is open or being probed, no target has a weight or
    is degraded. *)
Definition healthy (t : MeshTransport) (l : list Instance_) : Prop :=
  (forall i b, i ∈ l -> breakers t !! Address i = Some b -> state b = Closed) /\
  existsb (is_degraded t (average_latency t l)) l = false /\ forallb (fun i => Weight i <=? 0) l = true.

Definition same_health (t t' : MeshTransport) : Prop :=
  breakers t' = breakers t /\ latencies t' = latencies t /\ errorRates t' = errorRates t.

Lemma healthy_same t t' l : same_health t t' -> healthy t l -> healthy t' l.
Proof.
  intros (H1 & H2 & H3) (Ha & Hb & Hc). split; [by rewrite H1|]. split; [|done].
  rewrite <- Hb. unfold is_degraded, average_latency, latency_of. by rewrite H2, H3.
Qed.

Lemma available_healthy l w : (forall i b, i ∈ l -> breakers (transport w) !! Address i = Some b -> state b = Closed) ->
  exists n, available_of env l w = Some (l, mkWorld n (transport w) (sent w) (reports w)).
Proof.
  revert w. induction l as [|i l IH]; intros w H; [exists (tape w); by destruct w|]. cbn [available_of]. unfold bind at 1. cbn [get].
  assert (Hi : exists n, (match breakers (transport w) !! Address i with None => ret true | Some b => breaker_Allow env (Address i) b end) w
                 = Some (true, mkWorld n (transport w) (sent w) (reports w))).
  { destruct (breakers (transport w) !! Address i) as [b|] eqn:E; [|exists (tape w); by destruct w].
    exists (S (S (tape w))). unfold breaker_Allow, bind, now, reading, Allow. cbn. rewrite (H i b) by (by left || done). cbn.
    f_equal. f_equal. f_equal. unfold with_breakers. rewrite insert_id by done. by destruct (transport w). }
  destruct Hi as [n Hi]. unfold bind at 1. rewrite Hi. unfold bind. destruct (IH (mkWorld n (transport w) (sent w) (reports w))) as [n' Hn'].
  { intros j b Hj. apply H. by right. }
  rewrite Hn'. by exists n'.
Qed.

Lemma select_healthy svc l k w : l <> [] -> Z.of_nat (length l) <= max_int64 -> healthy (transport w) l -> default 0 (rrIndex (transport w) !! svc) = Z.of_nat k -> (k < length l)%nat ->
  exists n i, l !! k = Some i /\
    selectTarget env svc l w =
      Some (Address i, mkWorld n (with_rrIndex svc (Z.of_nat (S k mod length l)) (transport w)) (sent w) (reports w)).
Proof.
  intros Hne Hmax (Hb & Hd & Hw) Hk Hlt. destruct (available_healthy l w Hb) as [n Hn]. destruct (lookup_lt_is_Some_2 l k Hlt) as [i Hi].
  exists n, i. split; [done|]. unfold selectTarget, bind at 1. rewrite Hn. destruct l as [|first l0]; [done|]. set (l := first :: l0) in *.
  unfold bind at 1. cbn [get transport]. rewrite Hd, Hw. cbn [negb andb]. rewrite Hk.
  rewrite Z.rem_mod_nonneg, <- Nat2Z.inj_mod, Nat2Z.id, Nat.mod_small, Hi by lia. unfold bind, modify, ret. cbn [tape transport sent reports].
  do 4 f_equal. rewrite wrap64_id by (unfold in_int64, min_int64, max_int64 in *; lia).
  rewrite Z.rem_mod_nonneg, Nat2Z.inj_mod by lia. f_equal. lia.
Qed.

(** A number of selections in a row. *)
Fixpoint selections (n : nat) (svc : string) (l : list Instance_) : M (list string) :=
  match n with
  | O => ret []
  | S n => a <- selectTarget env svc l ;; rest <- selections n svc l ;; ret (a :: rest)
  end.

Lemma selections_healthy m svc l k w : l <> [] -> Z.of_nat (length l) <= max_int64 -> healthy (transport w) l ->
  default 0 (rrIndex (transport w) !! svc) = Z.of_nat k -> (k < length l)%nat ->
  exists r w', selections m svc l w = Some (r, w') /\ length r = m /\
    forall j, (j < m)%nat -> r !! j = Address <$> l !! ((k + j) mod length l)%nat.
Proof.
  intros Hne Hmax. revert k w. induction m as [|m IH]; intros k w Hh Hk Hlt; [exists [], w; split; [done|]; split; [done|lia]|].
  destruct (select_healthy svc l k w Hne Hmax Hh Hk Hlt) as (n & i & Hi & Hsel). cbn [selections]. unfold bind at 1. rewrite Hsel.
  set (w1 := mkWorld n _ _ _). destruct (IH (S k mod length l)%nat w1) as (r & w' & Hr & Hlen & Hj).
  - apply (healthy_same (transport w)); [|done]. done.
  - cbn. by rewrite lookup_insert_eq.
  - apply Nat.mod_upper_bound. lia.
  - unfold bind. rewrite Hr. exists (Address i :: r), w'. split; [done|]. split; [cbn; lia|]. intros [|j] Hlt'.
    + cbn. rewrite Nat.add_0_r, Nat.mod_small, Hi by lia. done.
    + cbn. rewrite Hj by lia. rewrite Nat.Div0.add_mod_idemp_l. do 3 f_equal. lia.
Qed.

(** Round robin is fair.  With no breaker open, no weights and no target
    degraded, any number of selections in a row succeeds and walks through
    the targets in their order, starting where the last one left off; so as
    many selections as there are targets choose each exactly once. *)
Theorem round_robin_fair m svc l k w : l <> [] -> Z.of_nat (length l) <= max_int64 -> healthy (transport w) l ->
  default 0 (rrIndex (transport w) !! svc) = Z.of_nat k -> (k < length l)%nat ->
  exists r w', selections m svc l w = Some (r, w') /\ length r = m /\
    (forall j, (j < m)%nat -> r !! j = Address <$> l !! ((k + j) mod length l)%nat) /\
    (m = length l -> r ≡ₚ Address <$> l).
Proof.
  intros Hne Hmax Hh Hk Hlt. destruct (selections_healthy m svc l k w Hne Hmax Hh Hk Hlt) as (r & w' & Hr & Hlen & Hj).
  exists r, w'. split; [done|]. split; [done|]. split; [done|]. intros ->.
  assert (Hrot : r = rotate k (Address <$> l)).
  { apply list_eq. intros j. destruct (decide (j < length l)%nat) as [H|H].
    - rewrite Hj by done. rewrite lookup_rotate_r by (by rewrite length_fmap). rewrite length_fmap, list_lookup_fmap.
      unfold rotate_nat_add. by rewrite <- Nat2Z.inj_add, <- Nat2Z.inj_mod, Nat2Z.id.
    - rewrite !lookup_ge_None_2; [done|rewrite length_rotate, length_fmap; lia|lia]. }
  rewrite Hrot. unfold rotate. rewrite (comm (++)). by rewrite take_drop.
Qed.
End Fair.

(** ** Examples *)

#[local] Existing Instance ascii_casing.
#[local] Existing Instance fixed_backend.

Definition demo_env (targets : nat -> string -> string + list Instance_) : Env :=
  mkEnv Z.of_nat (fun _ => fzero) (fun _ _ => 0) targets (fun _ _ => inl "no rules") (fun t => Some ("http", t))
    (fun _ req => inr (mkResponse 200 (byt (h_Host req)))).

Definition demo_registry (_ : nat) (svc : string) : string + list Instance_ :=
  match payload (handle_resolve (mkRequest "GET" ("/api/resolve/" +:+ svc) (fun _ => "")) (history 10 some_events)) with
  | PInstances l => inr l
  | _ => inl ""
  end.

Definition demo_request : HTTPRequest := mkHTTP "pranor" "Billing" "/pay" "POST" ∅ (Some (byt "7 EUR")).
Definition demo_client : World := mkWorld 0 (NewMeshTransport "http://registry/" 100) [] [].
Definition demo_end : option ((Err + HTTPResponse) * World) := RoundTrip (demo_env demo_registry) demo_request demo_client.

Lemma demo_control_plane : control_plane (discovery := fixed_backend) (demo_env demo_registry) 10 (fun _ => some_events).
Proof.
  split.
  - intros _. unfold in_order. replace (omap instant_of some_events) with [0; 2; 9; 11; 20] by (vm_compute; reflexivity). repeat constructor; lia.
  - intros i svc l. cbn [query_instances demo_env]. unfold demo_registry. by destruct (payload _); intros [= ->].
Qed.

Lemma mesh_request_reaches_live_targets_witness :
  exists r w s, demo_end = Some (inr r, w) /\ sent w = [s] /\ live_member 10 some_events "billing" (s_target s).
Proof.
  destruct demo_end as [[r w]|] eqn:E; [|exfalso; vm_compute in E; discriminate E].
  destruct (mesh_request_reaches_live_targets (demo_env demo_registry) 10 (fun _ => some_events) demo_client demo_request r w demo_control_plane
              (reach_new _ _ _) (or_introl eq_refl) ltac:(vm_compute; discriminate) ltac:(apply (bool_decide_unpack _); vm_compute; exact I) E)
    as (new & Hs & Hall & _).
  assert (Hlen : match demo_end with Some (inr _, w) => length (sent w) = 1%nat | _ => False end) by (vm_compute; reflexivity).
  rewrite E in Hlen. destruct r as [e|r]; [destruct Hlen|]. rewrite Hs in Hlen. cbn [sent demo_client app] in Hs, Hlen. destruct new as [|s [|? ?]]; [discriminate Hlen| |discriminate Hlen].
  exists r, w, s. split; [reflexivity|]. split; [exact Hs|]. apply Forall_cons in Hall as [(_ & (i & _ & H & _) & _) _]. exact H.
Defined.

Definition three : list Instance_ := instance_at "billing" <$> ["a"; "b"; "c"].

Lemma round_robin_fair_witness :
  exists r w, selections (demo_env (fun _ _ => inr three)) 3 "billing" three demo_client = Some (r, w) /\ r ≡ₚ ["a"; "b"; "c"].
Proof.
  destruct (round_robin_fair (demo_env (fun _ _ => inr three)) 3 "billing" three 0 demo_client) as (r & w & H & _ & _ & Hp).
  - discriminate.
  - cbn. unfold max_int64. lia.
  - split; [|split; vm_compute; reflexivity]. intros i b _. cbn. by rewrite lookup_empty.
  - reflexivity.
  - cbn. lia.
  - exists r, w. split; [exact H|]. exact (Hp eq_refl).
Defined.

(** Two instances that register with large weights make every request to the
    service panic. *)
Example large_weights_panic :
  let targets := [mkInst "billing" "a" "" 0 "" (2 ^ 62) ""; mkInst "billing" "b" "" 0 "" (2 ^ 62) ""] in
  RoundTrip (demo_env (fun _ _ => inr targets)) demo_request demo_client = None.
Proof. vm_compute. reflexivity. Qed.

Definition guarded : grpcProxyServer := 
  mkProxy (Some (handle_policies post (inr (mkPolicy "shop" "billing" [])) (NewRegistry (B := list Instance_) 10)).2) "billing".
Definition served (_ : MeshRequest) : string + HTTPResponse := inr (mkResponse 200 []).

(** A caller that says who it is is checked; one that says nothing is not. *)
Example anonymous_caller_not_checked :
  Forward guarded None (mkMeshReq "GET" "/pay" {["X-Mesh-Source" := "intruder"]} []) served
    = inr (mkResponse 403 (byt "mTLS Network Policy Blocked: Access Denied")) /\
  Forward guarded None (mkMeshReq "GET" "/pay" ∅ []) served = inr (mkResponse 200 []).
Proof. split; vm_compute; reflexivity. Qed.

(** The registry issues certificates for names with a suffix, policies name
    services without it. *)
Example certificate_name_does_not_match_policy :
  Forward guarded (Some ("shop" +:+ ".Pranor")) (mkMeshReq "GET" "/pay" ∅ []) served
    = inr (mkResponse 403 (byt "mTLS Network Policy Blocked: Access Denied")).
Proof. vm_compute. reflexivity. Qed.
