(* ===== verification/Core.v ===== *)
(** * The shared library ([core]): access policies, retries, middleware

    [core/rbac.go], [core/pkg/policy/policy.go], [core/pkg/retry/retry.go],
    [core/pkg/middleware/auth.go], [core/pkg/middleware/tenant.go],
    [core/auth.go] and the middleware of [core/middleware.go].

    A handler takes a request and the state of its service to a reply and a
    new state; a middleware takes a handler to a handler.  Signatures of
    tokens are the class [Jwt]. *)

From S2P Require Import Prelude GoStrings GoTime GoFloat.
Local Open Scope string_scope.
Local Open Scope Z_scope.
Local Open Scope list_scope.

(** ** Access policies of users and roles *)

Record PolicyStatement := mkStatement { Effect : string; Actions : list string; Resources : list string }.

Definition matchesAction (actions : list string) (target : string) : bool :=
  existsb (fun a => bool_decide (a = "*") || bool_decide (a = target)) actions.

Definition matchesResource (resources : list string) (target : string) : bool :=
  existsb (fun r => bool_decide (r = "*") || (HasSuffix r "/*" && HasPrefix target (TrimSuffix r "/*")) || bool_decide (r = target)) resources.

Fixpoint evaluate_statements (statements : list PolicyStatement) (action resource : string) (allowed : bool) : bool :=
  match statements with
  | [] => allowed
  | stmt :: statements =>
      if negb (matchesAction (Actions stmt) action) then evaluate_statements statements action resource allowed
      else if negb (matchesResource (Resources stmt) resource) then evaluate_statements statements action resource allowed
      else if bool_decide (Effect stmt = "deny") then false
      else if bool_decide (Effect stmt = "allow") then evaluate_statements statements action resource true
      else evaluate_statements statements action resource allowed
  end.

(** [None]: the nil policy. *)
Definition EvaluatePolicy (policy : option (list PolicyStatement)) (action resource : string) : bool :=
  match policy with
  | None | Some [] => false
  | Some statements => evaluate_statements statements action resource false
  end.

Definition matchScopePattern (pattern target : string) : bool :=
  if HasSuffix pattern ":*" then HasPrefix target (TrimSuffix pattern ":*" +:+ ":") else bool_decide (pattern = target).

Definition DefaultRBACConfig : gmap string (list string) :=
  list_to_map [("admin", ["*"]); ("operator", ["read"; "write"; "publish"; "subscribe"; "deploy"]); ("viewer", ["read"]);
               ("service", ["read"; "write"; "publish"; "subscribe"])].

(** ** Request policies *)

Record PolicyRule := mkPolicyRule {
  p_ID : string; p_Action : string; Methods : list string; p_Path : string; p_Roles : list string;
  p_Headers : gmap string string; RateLimitRPM : Z; RedactFields : list string }.

Definition matchPath (pattern path : string) : bool :=
  if bool_decide (pattern = "*") || bool_decide (pattern = "/*") then true
  else if bool_decide (pattern = path) then true
  else if HasSuffix pattern "/*" then HasPrefix path (TrimSuffix pattern "/*")
  else false.

Section Policy.
Context `{casing : Casing}.

(** The loop breaks out of the inner range only. *)
Definition role_matches (required userRoles : list string) : bool :=
  existsb (fun reqRole => bool_decide (reqRole = "*") || existsb (fun r => EqualFold r reqRole) userRoles) required.

Definition header_matches (reqHeaders : gmap string string) (h : string * string) : bool :=
  let actual := default "" (reqHeaders !! lower h.1) in
  let actual := if bool_decide (actual = "") then default "" (reqHeaders !! h.1) else actual in
  bool_decide (actual = h.2).

Definition rule_applies (method path : string) (headers : gmap string string) (roles : list string) (rule : PolicyRule) : bool :=
  existsb (fun m => bool_decide (m = "*") || EqualFold m method) (Methods rule) &&
  matchPath (p_Path rule) path &&
  match p_Roles rule with [] => true | required => role_matches required roles end &&
  forallb (header_matches headers) (map_to_list (p_Headers rule)).

Record Decision_ := mkDecision { d_action : string; d_redact : list string; d_limit : Z; d_matched : bool }.

Definition EvaluatePolicySchema (method path : string) (headers : gmap string string) (roles : list string) (schema : option (list PolicyRule)) : Decision_ :=
  match schema ≫= List.find (rule_applies method path headers roles) with
  | Some rule => mkDecision (p_Action rule) (RedactFields rule) (RateLimitRPM rule) true
  | None => mkDecision "allow" [] 0 false
  end.
End Policy.

(** ** Retries *)

Record Config := mkConfig {
  MaxAttempts : Z; InitialInterval : Z; MaxInterval : Z; Multiplier : float64; Jitter : bool; IsRetryable : option (string -> bool) }.

Definition DefaultConfig : Config := mkConfig 3 (100 * Millisecond) (2 * Second) (float_of_Z 2) true None.

Definition with_defaults (cfg : Config) : Config :=
  mkConfig (if MaxAttempts cfg <=? 0 then 3 else MaxAttempts cfg)
    (if InitialInterval cfg <=? 0 then 100 * Millisecond else InitialInterval cfg)
    (if MaxInterval cfg <=? 0 then 2 * Second else MaxInterval cfg)
    (if fleb (Multiplier cfg) fzero then float_of_Z 2 else Multiplier cfg) (Jitter cfg) (IsRetryable cfg).

(** [math.Min] for a second argument that is a number. *)
Definition math_Min (x y : float64) : float64 := if fltb y x then y else x.

Definition next_interval (cfg : Config) (interval : Z) : Z :=
  let next := fmul (float_of_Z interval) (Multiplier cfg) in
  if fltb (float_of_Z (MaxInterval cfg)) next then MaxInterval cfg
  else truncate_float (math_Min next (float_of_Z (MaxInterval cfg))).

(** What a call meets: the context's error before an attempt, the outcome of
    the function, the random number, the context's error while waiting. *)
Record Surroundings (T : Type) := mkSur {
  ctx_err : nat -> option string; fn : nat -> string + T; Float64 : nat -> float64; ctx_done : nat -> option string }.
Arguments mkSur {T}. Arguments ctx_err {T}. Arguments fn {T}. Arguments Float64 {T}. Arguments ctx_done {T}.

Definition sleep (cfg : Config) (rnd : float64) (interval : Z) : Z :=
  if Jitter cfg then wrap64 (interval + truncate_float (fmul (fmul rnd (float_of_ratio 25 100)) (float_of_Z interval))) else interval.

(** The attempts from number [attempt] on; the result, the number of calls
    and the waits. *)
Fixpoint try_from {T} (sur : Surroundings T) (cfg : Config) (fuel : nat) (attempt : nat) (interval : Z) : (string + T) * nat * list Z :=
  match fuel with
  | O => (inl "retry limit reached", O, [])
  | S fuel =>
      match ctx_err sur attempt with
      | Some err => (inl err, O, [])
      | None =>
          match fn sur attempt with
          | inr res => (inr res, 1%nat, [])
          | inl err =>
              if Z.of_nat attempt =? MaxAttempts cfg then (inl err, 1%nat, [])
              else if match IsRetryable cfg with Some p => negb (p err) | None => false end then (inl err, 1%nat, [])
              else
                let sleepDur := sleep cfg (Float64 sur attempt) interval in
                match ctx_done sur attempt with
                | Some e => (inl e, 1%nat, [sleepDur])
                | None =>
                    let '(r, n, waits) := try_from sur cfg fuel (S attempt) (next_interval cfg interval) in
                    (r, S n, sleepDur :: waits)
                end
          end
      end
  end.

Definition DoWithData {T} (sur : Surroundings T) (cfg : Config) : (string + T) * nat * list Z :=
  let cfg := with_defaults cfg in
  try_from sur cfg (Z.to_nat (MaxAttempts cfg)) 1 (InitialInterval cfg).

(** ** Requests and handlers *)

Record Claims := mkClaims {
  Username : string; Roles : list string; Scopes : list string; TenantID : string;
  Issuer : string; Subject : string; IssuedAt : Z; ExpiresAt : Z }.

Record Request := mkRequest {
  Method : string; Path : string; Header : string -> string; RemoteAddr : string; Query : string -> string;
  FormValue : string -> string; BasicAuth : option (string * string); Body : string;
  ctx_claims : option Claims; ctx_tenant : option string }.

Definition with_claims (c : Claims) (r : Request) : Request :=
  mkRequest (Method r) (Path r) (Header r) (RemoteAddr r) (Query r) (FormValue r) (BasicAuth r) (Body r) (Some c) (ctx_tenant r).
Definition with_tenant (t : string) (r : Request) : Request :=
  mkRequest (Method r) (Path r) (Header r) (RemoteAddr r) (Query r) (FormValue r) (BasicAuth r) (Body r) (ctx_claims r) (Some t).
Definition with_path (p : string) (r : Request) : Request :=
  mkRequest (Method r) p (Header r) (RemoteAddr r) (Query r) (FormValue r) (BasicAuth r) (Body r) (ctx_claims r) (ctx_tenant r).

(** A reply is an error with its code, or what the service answers. *)
Inductive Content (P : Type) := Error (msg code : string) | Data (p : P).
Arguments Error {P}. Arguments Data {P}.

Record Reply (P : Type) := mkReply { Status : Z; content : Content P }.
Arguments mkReply {P}. Arguments Status {P}. Arguments content {P}.

Definition WriteJSONError {P} (msg code : string) (status : Z) : Reply P := mkReply status (Error msg code).

Definition Handler (P S : Type) : Type := Request -> S -> Reply P * S.

(** [json.NewDecoder(r.Body).Decode], then [Validate]. *)
Definition DecodeAndValidateJSON {P A} (decoded : string + A) (validate : A -> option string) : Reply P + A :=
  match decoded with
  | inl err => inl (mkReply 400 (Error ("Invalid JSON payload: " +:+ err) "ERR_BAD_REQUEST"))
  | inr a => match validate a with
             | Some err => inl (mkReply 400 (Error ("Validation failed: " +:+ err) "ERR_VALIDATION_FAILED"))
             | None => inr a
             end
  end.

(** ** Tokens *)

(** Signing with a secret, or with a private key and its identifier;
    verifying, and reading the header of a token. *)
Class Jwt := {
  sign_HS256 : string -> Claims -> option string;
  sign_RS256 : string -> string -> Claims -> option string;
  (** The signing method and the key id of a token. *)
  token_header : string -> option (string * string);
  (** Verification with a secret or a public key at an instant. *)
  verify : string -> Z -> string -> string + Claims }.

Section Tokens.
Context `{jwt : Jwt}.

(** Numeric dates have whole seconds. *)
Definition NewNumericDate (t : Z) : Z := t / Second.

Definition user_claims (t0 t1 : Z) (username : string) (roles : list string) (tenantID : string) (ttl : Z) : Claims :=
  mkClaims username roles [] tenantID "Pranor" username (NewNumericDate t0) (NewNumericDate (t1 + ttl)).

Definition GenerateUserToken (t0 t1 : Z) (secret username : string) (roles : list string) (tenantID : string) (ttl : Z) : option string :=
  sign_HS256 secret (user_claims t0 t1 username roles tenantID ttl).

Definition GenerateUserTokenRS256 (t0 t1 : Z) (privKey kid username : string) (roles : list string) (tenantID : string) (ttl : Z) : option string :=
  sign_RS256 privKey kid (user_claims t0 t1 username roles tenantID ttl).

Definition GenerateServiceToken (t0 t1 : Z) (secret serviceName : string) : option string :=
  if bool_decide (secret = "") then Some ""
  else sign_HS256 secret (mkClaims serviceName ["service"] ["*"] "" "Pranor" serviceName (NewNumericDate t0) (NewNumericDate (t1 + 365 * Day))).

Definition ExtractTokenFromHeader (headerVal : string) : string + string :=
  if bool_decide (headerVal = "") then inl "authorization header is missing"
  else match Split headerVal " " with
       | [scheme; token] => if bool_decide (ToLower scheme = "bearer") then inr token else inl "authorization header format must be Bearer <token>"
       | _ => inl "authorization header format must be Bearer <token>"
       end.

Record AuthValidator := mkValidator {
  jwtSecret : string; jwksURL : string; oidcIssuer : string; jwkKeys : gmap string string; jwksLastFetch : option Z }.

Definition NewAuthValidator (secret jwksURL oidcIssuer : string) : AuthValidator := mkValidator secret jwksURL oidcIssuer ∅ None.

(** [fetchJWKS]: the keys of type RSA that could be parsed, or an error. *)
Definition fetchJWKS (now : Z) (fetched : string + list (string * string)) (v : AuthValidator) : option string * AuthValidator :=
  match fetched with
  | inl err => (Some err, v)
  | inr keys => (None, mkValidator (jwtSecret v) (jwksURL v) (oidcIssuer v) (fold_left (fun m k => <[k.1 := k.2]> m) keys (jwkKeys v)) (Some now))
  end.

(** [time.Since] of the zero time is the longest duration. *)
Definition fresh_keys (now : Z) (v : AuthValidator) : bool :=
  match jwksLastFetch v with Some t => Sub now t <? Hour | None => false end.

Definition getRSAPublicKey (now now' : Z) (fetched : string + list (string * string)) (kid : string) (v : AuthValidator) : (string + string) * AuthValidator :=
  let key := jwkKeys v !! kid in
  match key with
  | Some k => if fresh_keys now v then (inr k, v)
              else match fetchJWKS now' fetched v with
                   | (Some _, v) => (inr k, v)
                   | (None, v) => (match jwkKeys v !! kid with Some k => inr k | None => inl ("key id " +:+ kid +:+ " not found in JWKS") end, v)
                   end
  | None =>
      match fetchJWKS now' fetched v with
      | (Some err, v) => (inl err, v)
      | (None, v) => (match jwkKeys v !! kid with Some k => inr k | None => inl ("key id " +:+ kid +:+ " not found in JWKS") end, v)
      end
  end.

Definition is_RSA (alg : string) : bool := existsb (fun a => bool_decide (alg = a)) ["RS256"; "RS384"; "RS512"].
Definition is_HMAC (alg : string) : bool := existsb (fun a => bool_decide (alg = a)) ["HS256"; "HS384"; "HS512"].

(** [t] are the readings of the clock, [fetched] what the JWKS endpoint
    answers if it is asked. *)
Definition ValidateToken (t : nat -> Z) (fetched : string + list (string * string)) (tokenStr : string) (v : AuthValidator) : (string + Claims) * AuthValidator :=
  match token_header tokenStr with
  | None => (inl "token is malformed", v)
  | Some (alg, kid) =>
      let '(key, v) :=
        if negb (bool_decide (jwksURL v = "")) then
          if negb (is_RSA alg) then (inl ("unexpected signing method: " +:+ alg), v)
          else if bool_decide (kid = "") then (inl "missing kid header", v)
          else getRSAPublicKey (t 0%nat) (t 1%nat) fetched kid v
        else if negb (is_HMAC alg) then (inl ("unexpected signing method: " +:+ alg), v)
        else (inr (jwtSecret v), v) in
      match key with
      | inl err => (inl err, v)
      | inr k =>
          match verify k (t 2%nat) tokenStr with
          | inl err => (inl err, v)
          | inr claims =>
              (if negb (bool_decide (oidcIssuer v = "")) && negb (bool_decide (Issuer claims = oidcIssuer v))
               then inl "invalid issuer" else inr claims, v)
          end
      end
  end.
End Tokens.

(** ** Middleware *)

Section Middleware.
Context `{jwt : Jwt} {P S : Type}.

Definition public_path (path : string) : bool :=
  existsb (fun p => bool_decide (path = p)) ["/healthz"; "/readyz"; "/health"] ||
  existsb (HasPrefix path)
    ["/api/auth/login"; "/api/auth/register"; "/api/auth/jwks"; "/.well-known/jwks.json"; "/api/auth/reset-password/"; "/api/auth/magic-link/";
     "/api/auth/passkey/login/"; "/oauth/token"; "/api/v1/oauth/token"].

(** The validator is part of the state that the returned handler keeps. *)
Definition AuthMiddleware (secret jwksURL : string) (t : nat -> Z) (fetched : string + list (string * string))
    (next : Handler P S) : Request -> AuthValidator * S -> Reply P * (AuthValidator * S) :=
  fun r '(v, s) =>
    let pass r v := let '(reply, s) := next r s in (reply, (v, s)) in
    if bool_decide (secret = "") && bool_decide (jwksURL = "") then pass r v
    else if public_path (Path r) then pass r v
    else match ExtractTokenFromHeader (Header r "Authorization") with
         | inl err => (mkReply 401 (Error ("Unauthorized: " +:+ err) "ERR_MISSING_AUTH"), (v, s))
         | inr token =>
             match ValidateToken t fetched token v with
             | (inl err, v) => (mkReply 401 (Error ("Unauthorized: " +:+ err) "ERR_INVALID_TOKEN"), (v, s))
             | (inr claims, v) => pass (with_claims claims r) v
             end
         end.

Definition header_tenant (r : Request) : string := if bool_decide (Header r "X-Tenant-ID" = "") then "default" else Header r "X-Tenant-ID".

Definition TenantMiddleware (next : Handler P S) : Handler P S :=
  fun r s =>
    match ctx_claims r with
    | Some claims =>
        if negb (bool_decide (TenantID claims = "")) then
          if negb (bool_decide (header_tenant r = TenantID claims))
          then (mkReply 403 (Error "Forbidden: X-Tenant-ID does not match authenticated tenant" "ERR_TENANT_MISMATCH"), s)
          else next (with_tenant (TenantID claims) r) s
        else next (with_tenant (header_tenant r) r) s
    | None => next (with_tenant (header_tenant r) r) s
    end.

Definition RequireRole (roles : list string) (next : Handler P S) : Handler P S :=
  fun r s =>
    match ctx_claims r with
    | None => next r s
    | Some claims =>
        if existsb (fun required => existsb (fun userRole => bool_decide (userRole = "admin") || bool_decide (userRole = required)) (Roles claims)) roles
        then next r s
        else (mkReply 403 (Error ("Forbidden: insufficient role. Required: " +:+ Join roles " or ") "ERR_FORBIDDEN"), s)
    end.

Definition RequireScope (scope : string) (next : Handler P S) : Handler P S :=
  fun r s =>
    match ctx_claims r with
    | None => next r s
    | Some claims =>
        if existsb (fun role => bool_decide (role = "admin")) (Roles claims) ||
           existsb (fun x => bool_decide (x = "*") || bool_decide (x = scope) || matchScopePattern x scope) (Scopes claims)
        then next r s
        else (mkReply 403 (Error ("Forbidden: missing scope '" +:+ scope +:+ "'") "ERR_SCOPE_REQUIRED"), s)
    end.

Definition RequireAPIKeyScope (scope : string) (next : Handler P S) : Handler P S :=
  fun r s =>
    let authHeader := Header r "Authorization" in
    let apiKey := if negb (bool_decide (authHeader = "")) && HasPrefix authHeader "Bearer " then TrimPrefix authHeader "Bearer " else Header r "X-API-Key" in
    if bool_decide (apiKey = "") then (mkReply 401 (Error "Unauthorized: API Key required" "ERR_API_KEY_REQUIRED"), s)
    else if bool_decide (apiKey = "admin-key") || Contains apiKey scope || Contains apiKey "*" then next r s
    else (mkReply 403 (Error ("Forbidden: API Key missing scope '" +:+ scope +:+ "'") "ERR_SCOPE_REQUIRED"), s).

Definition HasRole (r : Request) (role : string) : bool :=
  match ctx_claims r with
  | None => false
  | Some claims => existsb (fun x => bool_decide (x = role) || bool_decide (x = "admin")) (Roles claims)
  end.

(** The limiter of requests per address and minute, shared by the process. *)
Definition RateLimitMiddleware (now : Z) (ip : string) (next : Handler P S) : Request -> gmap string (list Z) * S -> Reply P * (gmap string (list Z) * S) :=
  fun r '(limits, s) =>
    let active := List.filter (fun t => now - Minute <? t) (default [] (limits !! ip)) in
    if 100 <=? Z.of_nat (length active)
    then (WriteJSONError "Rate limit exceeded. Max 100 requests per minute." "ERR_RATE_LIMIT_EXCEEDED" 429, (limits, s))
    else let '(reply, s) := next r s in (reply, (<[ip := active ++ [now]]> limits, s)).
End Middleware.

(** ** Access decisions do not depend on the order of the statements *)

(** A statement is about an action on a resource. *)
Definition concerns (action resource : string) (stmt : PolicyStatement) : bool :=
  matchesAction (Actions stmt) action && matchesResource (Resources stmt) resource.

Lemma evaluate_statements_spec statements action resource allowed :
  evaluate_statements statements action resource allowed = true <->
  Forall (fun st => concerns action resource st = true -> Effect st <> "deny") statements /\
  (allowed = true \/ Exists (fun st => concerns action resource st = true /\ Effect st = "allow") statements).
Proof.
  revert allowed. induction statements as [|st sts IH]; intros allowed; cbn [evaluate_statements].
  { split; [intros ->; split; [constructor|by left]|intros [_ [?|H]]; [done|inversion H]]. }
  rewrite Forall_cons, Exists_cons. unfold concerns at 1 3.
  destruct (matchesAction _ _); cbn [negb andb]; [|rewrite IH; naive_solver].
  destruct (matchesResource _ _); cbn [negb andb]; [|rewrite IH; naive_solver].
  case_bool_decide as Hd; [naive_solver|]. case_bool_decide as Ha; rewrite IH; naive_solver.
Qed.

(** A request is allowed exactly when some statement of the policy that
    concerns it allows it and none denies it; so the order in which the
    statements are written makes no difference, and adding a statement that
    denies takes precedence over all that allow. *)
Theorem access_decision_exact (statements : list PolicyStatement) (action resource : string) :
  (EvaluatePolicy (Some statements) action resource = true <->
     Exists (fun st => concerns action resource st = true /\ Effect st = "allow") statements /\
     Forall (fun st => concerns action resource st = true -> Effect st <> "deny") statements) /\
  (forall statements', Permutation statements statements' ->
     EvaluatePolicy (Some statements) action resource = EvaluatePolicy (Some statements') action resource) /\
  EvaluatePolicy None action resource = false.
Proof.
  assert (Hspec : forall sts, EvaluatePolicy (Some sts) action resource = true <->
     Exists (fun st => concerns action resource st = true /\ Effect st = "allow") sts /\
     Forall (fun st => concerns action resource st = true -> Effect st <> "deny") sts).
  { intros [|st sts].
    - cbn. split; [done|intros [H _]; inversion H].
    - transitivity (evaluate_statements (st :: sts) action resource false = true); [done|].
      rewrite evaluate_statements_spec. naive_solver. }
  split; [apply Hspec|]. split; [|done].
  intros sts' HP. apply eq_true_iff_eq. rewrite !Hspec. by rewrite HP.
Qed.

(** ** Retries end, with the outcome of the last call *)

(** What may follow attempt [n]: another one, unless it succeeded, was the
    last or must not be retried. *)
Definition retried {T} (sur : Surroundings T) (cfg : Config) (n : nat) : Prop :=
  exists err, fn sur n = inl err /\ Z.of_nat n <> MaxAttempts cfg /\
    match IsRetryable cfg with Some p => p err = true | None => True end.

Lemma try_from_spec {T} (sur : Surroundings T) cfg fuel a interval r n waits :
  Z.of_nat a + Z.of_nat fuel = MaxAttempts cfg + 1 -> (0 < fuel)%nat ->
  (forall k, ctx_err sur k = None) -> (forall k, ctx_done sur k = None) ->
  try_from sur cfg fuel a interval = (r, n, waits) ->
  (1 <= n <= fuel)%nat /\ r = fn sur (a + n - 1) /\ length waits = (n - 1)%nat /\
  (forall k, (a <= k < a + n - 1)%nat -> retried sur cfg k) /\ ~ retried sur cfg (a + n - 1).
Proof.
  revert a interval r n waits. induction fuel as [|fuel IH]; intros a interval r n waits Hmax Hpos Herr Hdone; [lia|].
  cbn [try_from]. rewrite Herr, Hdone.
  assert (Ha : (a + 1 - 1)%nat = a) by lia.
  destruct (fn sur a) as [err|res] eqn:Hfn.
  2:{ intros [= <- <- <-]. rewrite Ha. repeat split; [lia|lia|done|intros; lia|intros (e & He & _); congruence]. }
  destruct (Z.eqb_spec (Z.of_nat a) (MaxAttempts cfg)) as [Hlast|Hlast].
  { intros [= <- <- <-]. rewrite Ha. repeat split; [lia|lia|done|intros; lia|intros (e & _ & He & _); done]. }
  destruct (match IsRetryable cfg with Some p => negb (p err) | None => false end) eqn:Hre.
  { intros [= <- <- <-]. rewrite Ha. repeat split; [lia|lia|done|intros; lia|].
    intros (e & He & _ & Hp). destruct (IsRetryable cfg); [|done]. assert (e = err) as -> by congruence. by rewrite Hp in Hre. }
  destruct (try_from sur cfg fuel (S a) _) as [[r' n'] w'] eqn:Hrec. intros [= <- <- <-].
  apply IH in Hrec as ((Hn & Hn') & -> & Hw & Hall & Hstop); [|lia|lia|done|done].
  replace (a + S n' - 1)%nat with (S a + n' - 1)%nat by lia.
  repeat split; [lia|lia|cbn; lia| |done].
  intros k Hk. destruct (decide (k = a)) as [->|]; [|apply Hall; lia].
  exists err. repeat split; [done|done|]. destruct (IsRetryable cfg); [|done]. by apply negb_false_iff in Hre.
Qed.

(** While its context is alive a retried call ends: it is made at least
    once and at most [MaxAttempts] times, there is one wait between every two
    attempts, the answer is that of the last attempt, every attempt before it
    failed with an error that may be retried, and the last one succeeded, was
    the last permitted or failed with an error that must not be retried. *)
Theorem retry_terminates {T} (sur : Surroundings T) (cfg : Config) :
  (forall k, ctx_err sur k = None) -> (forall k, ctx_done sur k = None) ->
  exists n waits, DoWithData sur cfg = (fn sur n, n, waits) /\
    1 <= Z.of_nat n <= MaxAttempts (with_defaults cfg) /\ length waits = (n - 1)%nat /\
    (forall k, (1 <= k < n)%nat -> retried sur (with_defaults cfg) k) /\
    ~ retried sur (with_defaults cfg) n.
Proof.
  intros Herr Hdone. set (c := with_defaults cfg).
  assert (Hmax : 0 < MaxAttempts c).
  { unfold c, with_defaults; cbn. destruct (Z.leb_spec (MaxAttempts cfg) 0); lia. }
  destruct (DoWithData sur cfg) as [[r n] w] eqn:H. unfold DoWithData in H. fold c in H.
  apply try_from_spec in H as (Hn & -> & Hw & Hall & Hstop); [|lia|lia|done|done].
  exists n, w. replace (1 + n - 1)%nat with n in * by lia.
  repeat split; [lia|lia|done| |done]. intros k Hk. apply Hall. lia.
Qed.

Example retry_terminates_witness :
  let sur := mkSur (fun _ => None) (fun n => if (n <? 3)%nat then inl "busy" else inr n) (fun _ => fzero) (fun _ => None) in
  exists n waits, DoWithData sur DefaultConfig = (fn sur n, n, waits) /\
    1 <= Z.of_nat n <= MaxAttempts (with_defaults DefaultConfig) /\ length waits = (n - 1)%nat /\
    (forall k, (1 <= k < n)%nat -> retried sur (with_defaults DefaultConfig) k) /\
    ~ retried sur (with_defaults DefaultConfig) n.
Proof. apply retry_terminates; done. Defined.

(** The waits double up to the longest one. *)
Example retry_waits :
  let sur := mkSur (fun _ => None) (fun n => if (n <? 7)%nat then inl "busy" else inr n) (fun _ => fzero) (fun _ => None) in
  DoWithData sur (mkConfig 9 0 0 fzero false None) =
  (inr 7%nat, 7%nat, List.map (Z.mul Millisecond) [100; 200; 400; 800; 1600; 2000]).
Proof. vm_compute. reflexivity. Qed.

(** ** The transactional outbox ([core/pkg/outbox/outbox.go]) *)

Module Outbox.
Local Open Scope nat_scope.

Local Open Scope string_scope.
Local Open Scope list_scope.

Record OutboxEvent := mkEvent {
  ev_ID : string; ev_Topic : string; ev_Payload : string; ev_CreatedAt : Z; ev_Processed : bool }.

(** ** The store interface *)

Class OutboxStore (St : Type) := {
  Save : OutboxEvent -> St -> option St;
  GetUnprocessed : St -> option (list OutboxEvent);
  MarkProcessed : string -> St -> option St;
  valid : St -> Prop;
  pending : St -> list OutboxEvent;
  GetUnprocessed_pending s : valid s -> GetUnprocessed s = Some (pending s);
  MarkProcessed_head s ev rest :
    valid s -> pending s = ev :: rest ->
    exists s', MarkProcessed (ev_ID ev) s = Some s' /\ valid s' /\ pending s' = rest }.

(** ** The processor *)

Section Processor.
Context {St B : Type} `{!OutboxStore St}.
(** [Publish]: the broker afterwards, and whether it took the event. *)
Context (Publish : string -> string -> B -> B * bool).

Inductive outcome := Done | StoreFailed | BrokerFailed.

(** The loop over the fetched events. *)
Fixpoint relay (events : list OutboxEvent) (count : nat) (s : St) (b : B) : nat * outcome * St * B :=
  match events with
  | [] => (count, Done, s, b)
  | ev :: events =>
      let '(b', ok) := Publish (ev_Topic ev) (ev_Payload ev) b in
      if ok : bool then
        match MarkProcessed (ev_ID ev) s with
        | Some s' => relay events (S count) s' b'
        | None => (count, StoreFailed, s, b')
        end
      else (count, BrokerFailed, s, b')
  end.

Definition ProcessNext (s : St) (b : B) : nat * outcome * St * B :=
  match GetUnprocessed s with
  | None => (0, StoreFailed, s, b)
  | Some events => relay events 0 s b
  end.

(** ** What the processor promises *)

(** The broker after taking all of these events, in order. *)
Inductive takes : list OutboxEvent -> B -> B -> Prop :=
  | takes_nil b : takes [] b b
  | takes_cons ev evs b b1 b2 :
      Publish (ev_Topic ev) (ev_Payload ev) b = (b1, true) -> takes evs b1 b2 -> takes (ev :: evs) b b2.

(** The broker refuses the first of these events. *)
Definition refuses (evs : list OutboxEvent) (b b' : B) : Prop :=
  exists ev rest, evs = ev :: rest /\ Publish (ev_Topic ev) (ev_Payload ev) b = (b', false).

Lemma relay_spec events count s b :
  valid s -> pending s = events ->
  let '(n, o, s', b') := relay events count s b in
  exists k b1, n = (count + k)%nat /\ valid s' /\ pending s' = drop k events /\ takes (take k events) b b1 /\
    match o with
    | Done => k = length events /\ b' = b1
    | BrokerFailed => refuses (drop k events) b1 b'
    | StoreFailed => False
    end.
Proof.
  revert count s b. induction events as [|ev events IH]; intros count s b Hv Hp; cbn [relay].
  - exists 0%nat, b. splits; try done; try lia. constructor.
  - destruct (Publish (ev_Topic ev) (ev_Payload ev) b) as [b1 ok] eqn:Pub. destruct ok.
    + destruct (MarkProcessed_head s ev events Hv Hp) as (s1 & -> & Hv1 & Hp1).
      specialize (IH (S count) s1 b1 Hv1 Hp1). destruct (relay events (S count) s1 b1) as [[[n o] s'] b'].
      destruct IH as (k & b2 & -> & Hv' & Hp' & Ht & Ho). exists (S k), b2. splits; try done.
      * lia.
      * by econstructor.
      * destruct o; try done. destruct Ho as [-> ->]. done.
    + exists 0%nat, b. splits; try done; try lia; [constructor|]. exists ev, events. done.
Qed.

(** The outbox relays in order and loses nothing: a run publishes the
    first [count] pending events, in order and each once; exactly these are
    no longer pending; and it stops early only because the broker refused
    the next one.  This holds for every store that satisfies the interface
    and every broker. *)
Theorem outbox_relays_prefix s b :
  valid s ->
  let '(count, o, s', b') := ProcessNext s b in
  exists b1, valid s' /\ pending s' = drop count (pending s) /\ takes (take count (pending s)) b b1 /\
    match o with
    | Done => count = length (pending s) /\ b' = b1
    | BrokerFailed => refuses (drop count (pending s)) b1 b'
    | StoreFailed => False
    end.
Proof.
  intros Hv. unfold ProcessNext. rewrite GetUnprocessed_pending by done.
  pose proof (relay_spec (pending s) 0 s b Hv eq_refl) as H.
  destruct (relay (pending s) 0 s b) as [[[n o] s'] b']. destruct H as (k & b1 & -> & H). eauto.
Qed.
End Processor.

(** ** The in-memory store *)

Abbreviation MemoryOutboxStore := (list OutboxEvent) (only parsing).

Definition NewMemoryOutboxStore : MemoryOutboxStore := [].

Definition mem_Save (event : OutboxEvent) (m : MemoryOutboxStore) : option MemoryOutboxStore :=
  Some (m ++ [event]).

Definition mem_pending (m : MemoryOutboxStore) : list OutboxEvent :=
  filter (fun e => ev_Processed e = false) m.

Definition mem_GetUnprocessed (m : MemoryOutboxStore) : option (list OutboxEvent) := Some (mem_pending m).

Definition processed (e : OutboxEvent) : OutboxEvent :=
  mkEvent (ev_ID e) (ev_Topic e) (ev_Payload e) (ev_CreatedAt e) true.

(** The first event with the identifier is marked; [None] is not found. *)
Fixpoint mem_MarkProcessed (id : string) (m : MemoryOutboxStore) : option MemoryOutboxStore :=
  match m with
  | [] => None
  | e :: m =>
      if bool_decide (ev_ID e = id) then Some (processed e :: m)
      else match mem_MarkProcessed id m with Some m' => Some (e :: m') | None => None end
  end.

(** Identifiers are unique. *)
Definition mem_valid (m : MemoryOutboxStore) : Prop := NoDup (ev_ID <$> m).

Lemma mem_mark_ids id m m' : mem_MarkProcessed id m = Some m' -> ev_ID <$> m' = ev_ID <$> m.
Proof.
  revert m'. induction m as [|e m IH]; intros m'; cbn; [done|].
  destruct (bool_decide _); [by intros [= <-]|]. destruct (mem_MarkProcessed id m) as [m1|] eqn:E; [|done].
  intros [= <-]. cbn. f_equal. by apply IH.
Qed.

Lemma mem_mark_head m ev rest :
  mem_valid m -> mem_pending m = ev :: rest ->
  exists m', mem_MarkProcessed (ev_ID ev) m = Some m' /\ mem_valid m' /\ mem_pending m' = rest.
Proof.
  intros Hv Hp.
  enough (exists m', mem_MarkProcessed (ev_ID ev) m = Some m' /\ mem_pending m' = rest) as (m' & Hm & Hr).
  { exists m'. splits; try done. unfold mem_valid. by rewrite (mem_mark_ids _ _ _ Hm). }
  unfold mem_valid, mem_pending in *. induction m as [|e m IH]; [done|].
  rewrite filter_cons in Hp. cbn in Hv. apply NoDup_cons in Hv as [He Hv]. cbn.
  destruct (decide (ev_Processed e = false)) as [Hf|Hf].
  - injection Hp as -> <-. rewrite bool_decide_true by done. eexists. split; [done|].
    by rewrite filter_cons_False.
  - destruct (IH Hv Hp) as (m' & Hm & Hr). rewrite bool_decide_false.
    + rewrite Hm. eexists. split; [done|]. by rewrite filter_cons_False.
    + intros E. apply He. rewrite E. apply list_elem_of_fmap_2.
      assert (Hin : ev ∈ filter (fun e => ev_Processed e = false) m) by (rewrite Hp; left).
      by apply list_elem_of_filter in Hin as [_ ?].
Qed.

#[global] Instance memory_outbox_store : OutboxStore MemoryOutboxStore := {|
  Save := mem_Save;
  GetUnprocessed := mem_GetUnprocessed;
  MarkProcessed := mem_MarkProcessed;
  valid := mem_valid;
  pending := mem_pending;
  GetUnprocessed_pending s _ := eq_refl;
  MarkProcessed_head := mem_mark_head |}.

(** Saving an unprocessed event with a new identifier makes it the last
    pending one. *)
Lemma mem_Save_pending e m :
  mem_valid m -> ev_ID e ∉ ev_ID <$> m -> ev_Processed e = false ->
  exists m', mem_Save e m = Some m' /\ mem_valid m' /\ mem_pending m' = mem_pending m ++ [e].
Proof.
  intros Hv He Hp. eexists. split; [done|]. unfold mem_valid, mem_pending. split.
  - rewrite fmap_app. apply NoDup_app. split; [done|]. split.
    + intros x Hx ->%list_elem_of_singleton. done.
    + apply NoDup_singleton.
  - rewrite filter_app. by rewrite (filter_cons_True _ e).
Qed.

(** ** Samples *)

(** A broker that records topics and takes at most two events. *)
Definition sample_broker (topic payload : string) (b : list string) : list string * bool :=
  if (length b <? 2)%nat then (b ++ [topic], true) else (b, false).

Definition sample_store : MemoryOutboxStore :=
  [mkEvent "1" "a" "x" 0 false; mkEvent "2" "b" "y" 1 true; mkEvent "3" "c" "z" 2 false; mkEvent "4" "d" "w" 3 false].

Lemma outbox_relays_prefix_witness :
  ProcessNext sample_broker sample_store [] =
    (2%nat, BrokerFailed,
     [mkEvent "1" "a" "x" 0 true; mkEvent "2" "b" "y" 1 true; mkEvent "3" "c" "z" 2 true; mkEvent "4" "d" "w" 3 false],
     ["a"; "c"]) /\
  let '(count, o, s', b') := ProcessNext sample_broker sample_store [] in
  exists b1, valid s' /\ pending s' = drop count (pending sample_store) /\
    takes sample_broker (take count (pending sample_store)) [] b1 /\
    match o with
    | Done => count = length (pending sample_store) /\ b' = b1
    | BrokerFailed => refuses sample_broker (drop count (pending sample_store)) b1 b'
    | StoreFailed => False
    end.
Proof.
  split; [vm_compute; reflexivity|].
  apply (outbox_relays_prefix sample_broker sample_store []).
  apply (bool_decide_unpack _). vm_compute. exact I.
Defined.

(** Two events with one identifier: the second is published by every run and
    stays pending. *)
Theorem duplicate_id_republished :
  let e := mkEvent "1" "a" "x" 0 false in
  let '(n1, _, s1, b1) := ProcessNext (fun t _ b => (b ++ [t], true)) [e; e] [] in
  let '(n2, _, s2, b2) := ProcessNext (fun t _ b => (b ++ [t], true)) s1 b1 in
  n1 = 2%nat /\ n2 = 1%nat /\ mem_pending s2 = [e] /\ b2 = ["a"; "a"; "a"].
Proof. vm_compute. done. Qed.

End Outbox.
