(* ===== verification/AuthStores.v ===== *)
(** * Stores of the authentication service

    [auth/pkg/sessions/token_store.go] (opaque tokens),
    [auth/pkg/security/velocity_limiter.go] (failed attempts per key),
    [auth/pkg/mfa/webauthn.go] (challenges and credentials),
    [auth/pkg/mfa/mfa.go] (one-time codes) and [auth/pkg/kms/kms.go]
    (versioned encryption keys).

    Every reading of the clock and every random value is an argument.
    Cryptography is the class [Crypto]. *)

From Stdlib Require Import Sorting.Sorted.
From S2P Require Import Prelude GoStrings GoNumbers GoTime.
Local Open Scope string_scope.
Local Open Scope Z_scope.
Local Open Scope list_scope.

(** Hashes, signatures and authenticated encryption.  What is used of them:
    opening a sealed text with the same key and nonce gives the text back, a
    password matches its own hash, an HMAC-SHA1 has 20 bytes. *)
Class Crypto := {
  Sum256 : bytes -> bytes;
  GenerateFromPassword : bytes -> string -> option string;
  CompareHashAndPassword : string -> string -> bool;
  hmac_sha1 : bytes -> bytes -> bytes;
  Seal : bytes -> bytes -> bytes -> bytes;
  Open : bytes -> bytes -> bytes -> option bytes;
  (** The key of a PKIX encoding that holds an ECDSA key, and verification. *)
  ParseECDSAPublicKey : bytes -> option bytes;
  ecdsa_Verify : bytes -> bytes -> Z -> Z -> bool;
  Open_Seal : forall key nonce p, Open key nonce (Seal key nonce p) = Some p;
  Compare_Generate : forall salt password hash,
    GenerateFromPassword salt password = Some hash -> CompareHashAndPassword hash password = true;
  hmac_sha1_length : forall key msg, length (hmac_sha1 key msg) = 20%nat }.

(** ** Opaque tokens *)

Module TokenStore.

Inductive TokenError := ErrInvalidUserID | ErrInvalidToken | ErrTokenNotFound | ErrTokenExpired | ErrTokenRevoked | ErrRandom.

Record tokenEntry := mkEntry { userID : string; createdAt : Z; expiresAt : Z; revoked : bool }.

Record TokenStore := mkStore { tokens : gmap string tokenEntry; ttl : Z }.

Definition DefaultTTL : Z := 7 * 24 * Hour.

Definition NewTokenStore (ttl : list Z) : TokenStore :=
  mkStore ∅ (match ttl with t :: _ => if 0 <? t then t else DefaultTTL | [] => DefaultTTL end).

(** [random]: the 32 random bytes, or the failure to read them. *)
Definition Issue (now : Z) (random : option bytes) (user : string) (ts : TokenStore) : (TokenError + string) * TokenStore :=
  if bool_decide (user = "") then (inl ErrInvalidUserID, ts)
  else match random with
       | None => (inl ErrRandom, ts)
       | Some b => (inr (hex b), mkStore (<[hex b := mkEntry user now (now + ttl ts) false]> (tokens ts)) (ttl ts))
       end.

Definition Validate (now : Z) (token : string) (ts : TokenStore) : (TokenError + string) * TokenStore :=
  if bool_decide (token = "") then (inl ErrInvalidToken, ts)
  else match tokens ts !! token with
       | None => (inl ErrTokenNotFound, ts)
       | Some entry =>
           if revoked entry then (inl ErrTokenRevoked, ts)
           else if expiresAt entry <? now then (inl ErrTokenExpired, mkStore (delete token (tokens ts)) (ttl ts))
           else (inr (userID entry), ts)
       end.

Definition Revoke (token : string) (ts : TokenStore) : option TokenError * TokenStore :=
  if bool_decide (token = "") then (Some ErrInvalidToken, ts)
  else match tokens ts !! token with
       | None => (Some ErrTokenNotFound, ts)
       | Some e => (None, mkStore (<[token := mkEntry (userID e) (createdAt e) (expiresAt e) true]> (tokens ts)) (ttl ts))
       end.

Definition unexpired (now : Z) (kv : string * tokenEntry) : Prop := now <= expiresAt kv.2.
#[global] Instance unexpired_dec now kv : Decision (unexpired now kv).
Proof. unfold unexpired. apply _. Defined.

Definition CleanExpired (now : Z) (ts : TokenStore) : Z * TokenStore :=
  let kept := filter (unexpired now) (tokens ts) in
  (Z.of_nat (size (tokens ts)) - Z.of_nat (size kept), mkStore kept (ttl ts)).

End TokenStore.

(** ** Failed attempts *)

Module VelocityLimiter.

Record VelocityLimiter := mkLimiter {
  windowDuration : Z; maxAttempts : Z; blockDuration : Z;
  failures : gmap string (list Z); blockedUntil : gmap string Z }.

Definition NewVelocityLimiter (window max block : Z) : VelocityLimiter :=
  mkLimiter (if window <=? 0 then Minute else window) (if max <=? 0 then 5 else max) (if block <=? 0 then 15 * Minute else block) ∅ ∅.

Definition with_failures (f : gmap string (list Z)) (b : gmap string Z) (vl : VelocityLimiter) : VelocityLimiter :=
  mkLimiter (windowDuration vl) (maxAttempts vl) (blockDuration vl) f b.

(** The failures of a key after the start of the window. *)
Definition recent_failures (now : Z) (key : string) (vl : VelocityLimiter) : list Z :=
  List.filter (fun t => now - windowDuration vl <? t) (default [] (failures vl !! key)).

Definition RecordFailure (now : Z) (key : string) (vl : VelocityLimiter) : VelocityLimiter :=
  if bool_decide (key = "") then vl
  else
    let record blocked :=
      let recent := recent_failures now key vl ++ [now] in
      if maxAttempts vl <=? Z.of_nat (length recent)
      then with_failures (delete key (failures vl)) (<[key := now + blockDuration vl]> blocked) vl
      else with_failures (<[key := recent]> (failures vl)) blocked vl in
    match blockedUntil vl !! key with
    | Some until => if now <? until then vl else record (delete key (blockedUntil vl))
    | None => record (blockedUntil vl)
    end.

Definition IsBlocked (now : Z) (key : string) (vl : VelocityLimiter) : bool :=
  if bool_decide (key = "") then false
  else match blockedUntil vl !! key with
       | Some until => (now <? until) || (maxAttempts vl <=? Z.of_nat (length (recent_failures now key vl)))
       | None => maxAttempts vl <=? Z.of_nat (length (recent_failures now key vl))
       end.

Definition Reset_ (key : string) (vl : VelocityLimiter) : VelocityLimiter :=
  if bool_decide (key = "") then vl else with_failures (delete key (failures vl)) (delete key (blockedUntil vl)) vl.

End VelocityLimiter.

(** ** WebAuthn *)

Module WebAuthn.

Record CredentialDescriptor := mkCredential { ID : bytes; PublicKey : bytes; SignCount : Z }.

(** Challenges with their expiry, and the credentials of users. *)
Record WebAuthnEngine := mkEngine { challenges : gmap string Z; credentials : gmap string (list CredentialDescriptor) }.

Definition NewWebAuthnEngine : WebAuthnEngine := mkEngine ∅ ∅.

(** The challenge is the encoding of 32 random bytes. *)
Definition new_challenge (now : Z) (random : option string) (e : WebAuthnEngine) : (string + string) * WebAuthnEngine :=
  match random with
  | None => (inl "failed to generate challenge", e)
  | Some challenge => (inr challenge, mkEngine (<[challenge := now + 5 * Minute]> (challenges e)) (credentials e))
  end.

Definition GenerateCreationOptions := new_challenge.

Definition GenerateRequestOptions (now : Z) (random : option string) (user : string) (e : WebAuthnEngine)
    : (string + string * list CredentialDescriptor) * WebAuthnEngine :=
  match new_challenge now random e with
  | (inl err, e) => (inl err, e)
  | (inr c, e) => (inr (c, default [] (credentials e !! user)), e)
  end.

Definition consumeChallenge (now : Z) (challenge : string) (e : WebAuthnEngine) : bool * WebAuthnEngine :=
  match challenges e !! challenge with
  | None => (false, e)
  | Some exp => (now <? exp, mkEngine (delete challenge (challenges e)) (credentials e))
  end.

Definition VerifyRegistration (now : Z) (user challenge : string) (credID pubKey : bytes) (e : WebAuthnEngine) : option string * WebAuthnEngine :=
  match consumeChallenge now challenge e with
  | (false, e) => (Some "invalid or expired WebAuthn challenge", e)
  | (true, e) =>
      if bool_decide (credID = []) || bool_decide (pubKey = []) then (Some "credential ID and public key must not be empty", e)
      else (None, mkEngine (challenges e) (<[user := default [] (credentials e !! user) ++ [mkCredential credID pubKey 0]]> (credentials e)))
  end.

Section Assertion.
Context `{crypto : Crypto}.

(** The checks of the signature with the key of the matched credential. *)
Definition check_signature (cred : CredentialDescriptor) (clientDataHash signature : bytes) : option string :=
  match PublicKey cred with
  | [] => None
  | pk =>
      match ParseECDSAPublicKey pk with
      | None => None
      | Some key =>
          if (length signature <? 64)%nat then Some "invalid ECDSA signature length"
          else
            let half := (length signature / 2)%nat in
            if negb (ecdsa_Verify key clientDataHash (of_big_endian (take half signature)) (of_big_endian (drop half signature)))
            then if (length signature <? 8)%nat then Some "WebAuthn signature verification failed" else None
            else None
      end
  end.

Definition VerifyAssertion (now : Z) (user challenge : string) (credID authData signature : bytes) (e : WebAuthnEngine) : option string * WebAuthnEngine :=
  match consumeChallenge now challenge e with
  | (false, e) => (Some "invalid or expired WebAuthn challenge", e)
  | (true, e) =>
      match credentials e !! user with
      | None | Some [] => (Some "no credentials registered for user", e)
      | Some creds =>
          match List.find (fun c => bool_decide (ID c = credID)) creds with
          | None => (Some "credential ID not found for user", e)
          | Some cred =>
              let clientDataHash := Sum256 (authData ++ byt challenge) in
              if bool_decide (signature = []) || bool_decide (clientDataHash = []) then (Some "invalid signature verification payload", e)
              else (check_signature cred clientDataHash signature, e)
          end
      end
  end.
End Assertion.

Definition live (now : Z) (kv : string * Z) : Prop := now <= kv.2.
#[global] Instance live_dec now kv : Decision (live now kv).
Proof. unfold live. apply _. Defined.

(** One tick of the cleaning goroutine. *)
Definition cleanup (now : Z) (e : WebAuthnEngine) : WebAuthnEngine := mkEngine (filter (live now) (challenges e)) (credentials e).

End WebAuthn.

(** ** One-time codes *)

Module Totp.
Section Totp.
Context `{crypto : Crypto}.

Definition byte_at (hs : bytes) (i : nat) : Z := of_byte (nth i hs NUL).

(** The code of a counter: four bytes of the MAC, from the place its last
    byte says. *)
Definition otp (secret : string) (counter : Z) : Z :=
  let hs := hmac_sha1 (byt secret) (PutUint64 counter) in
  let offset := Z.to_nat (Z.land (byte_at hs (length hs - 1)) 15) in
  let binCode := Z.lor (Z.lor (Z.lor (Z.shiftl (Z.land (byte_at hs offset) 127) 24) (Z.shiftl (byte_at hs (offset + 1)) 16))
                          (Z.shiftl (byte_at hs (offset + 2)) 8)) (byte_at hs (offset + 3)) in
  binCode mod 1000000.

(** [expected]: what [Sscanf] of the code with %d gives. *)
Definition VerifyTOTP (now : Z) (secret : string) (expected : option Z) : bool :=
  match expected with
  | None => false
  | Some code => existsb (fun i => otp secret (now / Second / 30 + i) =? code) [-1; 0; 1]
  end.
End Totp.
End Totp.

(** ** Versioned encryption keys *)

Module Kms.

Record Kms := mkKms { kmsKeys : gmap string string; latestKMSKeyVersion : string; versionCounter : Z }.

Definition default_secret : string := "default-kms-secret-32-bytes-long!".

Definition initial : Kms := mkKms (<["v1" := default_secret]> (<["v2" := "rotated-kms-secret-32-bytes-long!"]> ∅)) "v2" 2.

(** One tick of the rotation; [newKeyBytes] are zeros where no random bytes
    could be read. *)
Definition rotate (newKeyBytes : bytes) (k : Kms) : Kms :=
  let c := wrap64 (versionCounter k + 1) in
  mkKms (<["v" +:+ FormatInt c := hex newKeyBytes]> (kmsKeys k)) ("v" +:+ FormatInt c) c.

Section Kms.
Context `{crypto : Crypto} `{casing : Casing} (getenv : string -> string).

(** The first 32 bytes of the secret, filled up with zeros. *)
Definition key_bytes (secret : string) : bytes := take 32 (byt secret ++ replicate 32 NUL).

Definition GetKMSKeyForVersion (version : string) (k : Kms) : bytes :=
  let secret := getenv ("PRANOR_KMS_SECRET_" +:+ upper version) in
  key_bytes
    (if negb (bool_decide (secret = "")) then secret
     else match kmsKeys k !! version with
          | Some val => val
          | None => let secret := getenv "PRANOR_KMS_SECRET" in if bool_decide (secret = "") then default_secret else secret
          end).

Definition NonceSize : nat := 12.

(** [nonce]: the random nonce, or the failure to read it. *)
Definition EncryptAES (nonce : option bytes) (plaintext : string) (k : Kms) : option string :=
  let version := getenv "PRANOR_KMS_SECRET_LATEST_VERSION" in
  let version := if bool_decide (version = "") then latestKMSKeyVersion k else version in
  match nonce with
  | None => None
  | Some n => Some (version +:+ ":" +:+ hex (n ++ Seal (GetKMSKeyForVersion version k) n (byt plaintext)))
  end.

Definition decryptWithKey (ciphertext key : bytes) : option string :=
  if (length ciphertext <? NonceSize)%nat then None
  else str <$> Open key (take NonceSize ciphertext) (drop NonceSize ciphertext).

(** The first version that opens the text; the order is that of the map. *)
Fixpoint fallback (ciphertext : bytes) (versions : list string) (k : Kms) : option string :=
  match versions with
  | [] => None
  | v :: vs => match decryptWithKey ciphertext (GetKMSKeyForVersion v k) with
               | Some p => Some p
               | None => fallback ciphertext vs k
               end
  end.

Definition DecryptAES (prefixed : string) (k : Kms) : option string :=
  let '(version, hexCiphertext) := match SplitN2 prefixed ":" with [v; h] => (v, h) | _ => ("v1", prefixed) end in
  match unhex (byt hexCiphertext) with
  | None => None
  | Some ciphertext =>
      match decryptWithKey ciphertext (GetKMSKeyForVersion version k) with
      | Some p => Some p
      | None => fallback ciphertext (List.filter (fun v => negb (bool_decide (v = version))) (map_to_list (kmsKeys k)).*1) k
      end
  end.
End Kms.
End Kms.

(** ** Opaque tokens: what is accepted *)

Module TokenFacts.
Import TokenStore.

(** The operations on a store, each at its instant. *)
Inductive Op :=
| OpIssue (now : Z) (random : option bytes) (user : string)
| OpValidate (now : Z) (token : string)
| OpRevoke (now : Z) (token : string)
| OpClean (now : Z).

Definition op_time (o : Op) : Z := match o with OpIssue t _ _ | OpValidate t _ | OpRevoke t _ | OpClean t => t end.

Definition apply_op (o : Op) (ts : TokenStore) : TokenStore :=
  match o with
  | OpIssue now random user => (Issue now random user ts).2
  | OpValidate now token => (Validate now token ts).2
  | OpRevoke _ token => (Revoke token ts).2
  | OpClean now => (CleanExpired now ts).2
  end.

(** What the history of operations grants a token: the user and the instant
    of the last issue that was not revoked. *)
Definition grant_step (token : string) (g : option (string * Z)) (o : Op) : option (string * Z) :=
  match o with
  | OpIssue now (Some b) user => if bool_decide (user <> "" /\ hex b = token) then Some (user, now) else g
  | OpRevoke _ t => if bool_decide (t = token) then None else g
  | _ => g
  end.
Definition granted (token : string) (ops : list Op) : option (string * Z) := fold_left (grant_step token) ops None.

(** The entry of a token agrees with what it was granted. *)
Definition agrees (clock lifetime : Z) (g : option (string * Z)) (e : option tokenEntry) : Prop :=
  match g with
  | Some (u, t) => e = Some (mkEntry u t (t + lifetime) false) \/ (e = None /\ t + lifetime < clock)
  | None => match e with Some e => revoked e = true | None => True end
  end.

Lemma agrees_later c c' l g e : c <= c' -> agrees c l g e -> agrees c' l g e.
Proof. destruct g as [[u t]|]; cbn; [|done]. intros ? [?|[? ?]]; [by left|right; split; [done|lia]]. Qed.

Lemma apply_ttl o ts : ttl (apply_op o ts) = ttl ts.
Proof.
  destruct o as [now r u|now t|now t|now]; cbn; [unfold Issue|unfold Validate|unfold Revoke|done];
    repeat case_match; done.
Qed.

Lemma apply_agrees token clock o ts g :
  token <> "" -> clock <= op_time o -> agrees clock (ttl ts) g (tokens ts !! token) ->
  agrees (op_time o) (ttl ts) (grant_step token g o) (tokens (apply_op o ts) !! token).
Proof.
  intros Ht Hc Hg. apply (agrees_later _ _ _ _ _ Hc) in Hg.
  destruct o as [now r u|now t|now t|now]; cbn [apply_op op_time grant_step] in *.
  - unfold Issue. case_bool_decide as Hu; cbn.
    { destruct r as [b|]; [|done]. rewrite bool_decide_false by tauto. done. }
    destruct r as [b|]; cbn; [|done].
    destruct (decide (hex b = token)) as [<-|Hne].
    + rewrite bool_decide_true by done. left. by rewrite lookup_insert, decide_True by done.
    + rewrite bool_decide_false by tauto. by rewrite lookup_insert_ne.
  - unfold Validate. case_bool_decide; [done|]. destruct (tokens ts !! t) as [e|] eqn:He; [|done].
    destruct (revoked e) eqn:Hr; [done|]. destruct (Z.ltb_spec (expiresAt e) now); [|done]. cbn.
    destruct (decide (t = token)) as [->|]; [|by rewrite lookup_delete_ne].
    rewrite lookup_delete, decide_True by done. rewrite He in Hg. destruct g as [[u x]|]; [|done].
    destruct Hg as [[= ->]|[? _]]; [|done]. right. cbn in *. split; [done|lia].
  - destruct (decide (t = token)) as [->|Hne].
    + rewrite bool_decide_true by done. unfold Revoke. rewrite bool_decide_false by done.
      destruct (tokens ts !! token) as [e|] eqn:He; cbn; [by rewrite lookup_insert, decide_True by done|by rewrite He].
    + rewrite bool_decide_false by done. unfold Revoke. case_bool_decide; [done|].
      destruct (tokens ts !! t); cbn; [by rewrite lookup_insert_ne|done].
  - cbn. rewrite map_lookup_filter. destruct (tokens ts !! token) as [e|] eqn:He; cbn.
    + destruct (decide (unexpired now (token, e))) as [Hun|Hun].
      * rewrite option_guard_True by done. done.
      * rewrite option_guard_False by done. unfold unexpired in Hun; cbn in Hun. destruct g as [[u x]|]; [|done].
        destruct Hg as [[= ->]|[? _]]; [|done]. right; cbn in *. split; [done|lia].
    + done.
Qed.

Lemma run_agrees token now ops : forall clock ts g, token <> "" ->
  Sorted Z.le (clock :: (op_time <$> ops)) -> clock <= now -> Forall (fun o => op_time o <= now) ops ->
  agrees clock (ttl ts) g (tokens ts !! token) ->
  let ts' := fold_left (fun s o => apply_op o s) ops ts in
  agrees now (ttl ts) (fold_left (grant_step token) ops g) (tokens ts' !! token).
Proof.
  induction ops as [|o ops IH]; intros clock ts g Ht Hs Hc Hle Hg; [by eapply agrees_later|].
  cbn [fold_left fmap list_fmap] in *. inversion Hs as [|? ? Hs' Hhd]; subst. inversion Hhd; subst. inversion Hle; subst.
  pose proof (apply_agrees token clock o ts g Ht ltac:(done) Hg) as Ha.
  rewrite <- (apply_ttl o) in Ha |- *. by eapply IH.
Qed.

(** After any operations on a fresh store at instants that do not
    decrease, a token is accepted, for a user, exactly when it was issued to
    that user, has not been revoked since and is not older than the lifetime
    of tokens; checking, cleaning and operations on other tokens make no
    difference. *)
Theorem token_store_exact (lifetime : list Z) (ops : list Op) (now : Z) (token user : string) :
  token <> "" -> Sorted Z.le (op_time <$> ops) -> Forall (fun o => op_time o <= now) ops ->
  let ts := fold_left (fun s o => apply_op o s) ops (NewTokenStore lifetime) in
  (Validate now token ts).1 = inr user <->
  exists t, granted token ops = Some (user, t) /\ now <= t + ttl (NewTokenStore lifetime).
Proof.
  intros Ht Hs Hle ts.
  assert (Hex : exists c, c <= now /\ Sorted Z.le (c :: (op_time <$> ops))).
  { destruct ops as [|o ops]; [exists now; split; [done|repeat constructor]|].
    exists (op_time o). inversion Hle; subst. split; [done|]. constructor; [done|]. by constructor. }
  destruct Hex as (c & Hc & Hs').
  pose proof (run_agrees token now ops c (NewTokenStore lifetime) None Ht Hs' Hc Hle I) as Ha. fold ts (granted token ops) in Ha.
  unfold Validate. rewrite bool_decide_false by done. unfold agrees in Ha.
  generalize dependent (ttl (NewTokenStore lifetime)). intros L Ha.
  destruct (granted token ops) as [[u t]|].
  - destruct Ha as [->|[-> Hx]]; cbn.
    + destruct (Z.ltb_spec (t + L) now); cbn.
      * split; [intros [=]|intros (? & [= <- <-] & ?); lia].
      * split; [intros [= <-]; by exists t|intros (? & [= <- <-] & ?); done].
    + split; [intros [=]|intros (? & [= <- <-] & ?); lia].
  - destruct (tokens ts !! token) as [e|]; cbn; [rewrite Ha|]; (split; [intros [=]|intros (? & [=] & ?)]).
Qed.

(** A token is issued and found valid until its lifetime is over. *)
Example token_store_exact_witness :
  let ops := [OpIssue 5 (Some (byt "abc")) "ann"; OpClean 7; OpRevoke 8 "ff"] in
  (Validate 20 "616263" (fold_left (fun s o => apply_op o s) ops (NewTokenStore [30]))).1 = inr "ann" /\
  (Validate 36 "616263" (fold_left (fun s o => apply_op o s) ops (NewTokenStore [30]))).1 <> inr "ann".
Proof.
  intros ops. split.
  - apply (token_store_exact [30] ops 20 "616263" "ann"); [done|repeat constructor; done|repeat constructor; done|].
    exists 5. split; [vm_compute; reflexivity|vm_compute; done].
  - intros H. apply (token_store_exact [30] ops 36 "616263" "ann") in H as (t & Hg & Hle); [|done|repeat constructor; done|repeat constructor; done].
    assert (Hg' : granted "616263" ops = Some ("ann", 5)) by (vm_compute; reflexivity).
    rewrite Hg' in Hg. injection Hg as <-. vm_compute in Hle. done.
Defined.
End TokenFacts.

(** ** Failed attempts: who is blocked *)

Module VelocityFacts.
Import VelocityLimiter.

Inductive Op := Fail (now : Z) (key : string) | Clear (key : string).

Definition apply_op (o : Op) (vl : VelocityLimiter) : VelocityLimiter :=
  match o with Fail now key => RecordFailure now key vl | Clear key => Reset_ key vl end.

Definition run (ops : list Op) (vl : VelocityLimiter) : VelocityLimiter := fold_left (fun s o => apply_op o s) ops vl.

(** The instants of the failures of a key. *)
Definition failure_time (key : string) (o : Op) : list Z :=
  match o with Fail now k => if bool_decide (k = key) then [now] else [] | Clear _ => [] end.
Definition failure_times (key : string) (ops : list Op) : list Z := ops ≫= failure_time key.

(** The settings never change, and are positive in a new limiter; fewer
    failures are kept than block a key. *)
Definition same_settings (vl vl' : VelocityLimiter) : Prop :=
  windowDuration vl' = windowDuration vl /\ maxAttempts vl' = maxAttempts vl /\ blockDuration vl' = blockDuration vl.
Definition below_limit (vl : VelocityLimiter) : Prop :=
  forall k l, failures vl !! k = Some l -> Z.of_nat (length l) < maxAttempts vl.

Lemma apply_settings o vl : same_settings vl (apply_op o vl).
Proof. destruct o; cbn; [unfold RecordFailure|unfold Reset_]; repeat case_match; done. Qed.

Lemma run_settings ops vl : same_settings vl (run ops vl).
Proof.
  revert vl. induction ops as [|o ops IH]; intros vl; [done|]. cbn.
  destruct (apply_settings o vl) as (? & ? & ?), (IH (apply_op o vl)) as (? & ? & ?). unfold same_settings, run in *. intuition congruence.
Qed.

Lemma below_put (f : gmap string (list Z)) (m : Z) k r :
  (forall k l, f !! k = Some l -> Z.of_nat (length l) < m) -> Z.of_nat (length r) < m ->
  forall k' l, <[k := r]> f !! k' = Some l -> Z.of_nat (length l) < m.
Proof. intros H Hr k' l. destruct (decide (k = k')) as [->|]; [rewrite lookup_insert, decide_True by done|rewrite lookup_insert_ne by done]; naive_solver. Qed.

Lemma below_drop (f : gmap string (list Z)) (m : Z) k :
  (forall k l, f !! k = Some l -> Z.of_nat (length l) < m) -> forall k' l, delete k f !! k' = Some l -> Z.of_nat (length l) < m.
Proof. intros H k' l [_ Hl]%lookup_delete_Some. by eapply H. Qed.

Lemma apply_below o vl : below_limit vl -> below_limit (apply_op o vl).
Proof.
  unfold below_limit. intros H. destruct o as [now key|key]; cbn.
  2:{ unfold Reset_. case_bool_decide; [done|]. cbn. by apply below_drop. }
  assert (Hrec : forall b,
    let vl' := let recent := recent_failures now key vl ++ [now] in
      if maxAttempts vl <=? Z.of_nat (length recent)
      then with_failures (delete key (failures vl)) (<[key := now + blockDuration vl]> b) vl
      else with_failures (<[key := recent]> (failures vl)) b vl in
    forall k l, failures vl' !! k = Some l -> Z.of_nat (length l) < maxAttempts vl').
  { intros b. cbn zeta. destruct (Z.leb_spec (maxAttempts vl) (Z.of_nat (length (recent_failures now key vl ++ [now])))); cbn;
      [by apply below_drop|by apply below_put]. }
  unfold RecordFailure. case_bool_decide; [done|]. destruct (blockedUntil vl !! key) as [u|]; [destruct (now <? u); [done|]|]; apply Hrec.
Qed.

Lemma run_below ops vl : below_limit vl -> below_limit (run ops vl).
Proof. revert vl. induction ops as [|o ops IH]; intros vl H; [done|]. by apply IH, apply_below. Qed.

Lemma new_below w m b : below_limit (NewVelocityLimiter w m b).
Proof. intros k l. cbn. by rewrite lookup_empty. Qed.

Lemma kept_failures vl key now : below_limit vl -> 0 < maxAttempts vl -> Z.of_nat (length (recent_failures now key vl)) < maxAttempts vl.
Proof.
  intros H Hpos. unfold recent_failures. destruct (failures vl !! key) as [l|] eqn:Hl; cbn; [|lia].
  specialize (H _ _ Hl). pose proof (List.filter_length_le (fun t => now - windowDuration vl <? t) l). lia.
Qed.

Lemma blocked_iff vl key now : key <> "" -> below_limit vl -> 0 < maxAttempts vl ->
  IsBlocked now key vl = true <-> exists u, blockedUntil vl !! key = Some u /\ now < u.
Proof.
  intros Hk Hb Hpos. pose proof (kept_failures vl key now Hb Hpos) as Hlt.
  unfold IsBlocked. rewrite bool_decide_false by done. rewrite (proj2 (Z.leb_gt _ _)) by done.
  destruct (blockedUntil vl !! key) as [u|]; [rewrite orb_false_r, Z.ltb_lt|]; naive_solver.
Qed.

(** Operations on other keys change nothing for a key. *)
Definition about (key : string) (o : Op) : bool := match o with Fail _ k | Clear k => bool_decide (k = key) end.

Lemma other_key_kept o key vl : about key o = false ->
  failures (apply_op o vl) !! key = failures vl !! key /\ blockedUntil (apply_op o vl) !! key = blockedUntil vl !! key.
Proof.
  destruct o as [now k|k]; cbn; intros Hne%bool_decide_eq_false; [unfold RecordFailure|unfold Reset_];
    repeat case_match; cbn; rewrite ?lookup_insert_ne, ?lookup_delete_ne by done; done.
Qed.

(** What a failure does to the entries of its key, given that it is not
    blocked. *)
Lemma fail_step now key vl : key <> "" -> (forall u, blockedUntil vl !! key = Some u -> u <= now) ->
  let recent := recent_failures now key vl ++ [now] in
  let vl' := RecordFailure now key vl in
  (maxAttempts vl <= Z.of_nat (length recent) /\ failures vl' !! key = None /\ blockedUntil vl' !! key = Some (now + blockDuration vl)) \/
  (Z.of_nat (length recent) < maxAttempts vl /\ failures vl' !! key = Some recent /\ blockedUntil vl' !! key = None).
Proof.
  intros Hk Hu recent vl'. subst recent vl'. unfold RecordFailure. rewrite bool_decide_false by done.
  destruct (blockedUntil vl !! key) as [u|] eqn:Hb.
  - specialize (Hu u eq_refl). rewrite (proj2 (Z.ltb_ge now u)) by done.
    destruct (Z.leb_spec (maxAttempts vl) (Z.of_nat (length (recent_failures now key vl ++ [now])))); [left|right]; cbn;
      rewrite ?lookup_insert, ?lookup_delete, ?decide_True by done; done.
  - destruct (Z.leb_spec (maxAttempts vl) (Z.of_nat (length (recent_failures now key vl ++ [now])))); [left|right]; cbn;
      rewrite ?lookup_insert, ?lookup_delete, ?decide_True, ?Hb by done; done.
Qed.

Lemma fail_ignored now key vl u : blockedUntil vl !! key = Some u -> now < u -> RecordFailure now key vl = vl.
Proof. intros Hb Hu. unfold RecordFailure. case_bool_decide; [done|]. rewrite Hb. by rewrite (proj2 (Z.ltb_lt _ _) Hu). Qed.

(** *** Nobody is blocked without cause *)

(** As many failures as block a key, within one window that ends with the
    last of them, at [t]. *)
Definition burst (vl : VelocityLimiter) (times : list Z) (t : Z) : Prop :=
  exists l, sublist l times /\ Z.of_nat (length l) = maxAttempts vl /\ Forall (fun x => t - windowDuration vl < x) l /\ last l = Some t.

Definition justified (vl0 : VelocityLimiter) (key : string) (times : list Z) (vl : VelocityLimiter) : Prop :=
  (forall l, failures vl !! key = Some l -> sublist l times) /\
  (forall u, blockedUntil vl !! key = Some u -> burst vl0 times (u - blockDuration vl0)).

Lemma burst_more vl times more t : burst vl times t -> burst vl (times ++ more) t.
Proof. intros (l & Hl & ?). exists l. split; [|done]. by apply sublist_inserts_r. Qed.

Lemma justified_more vl0 key times more vl : justified vl0 key times vl -> justified vl0 key (times ++ more) vl.
Proof. intros [Hf Hb]. split; intros x Hx; [apply sublist_inserts_r; auto|apply burst_more; auto]. Qed.

Lemma sublist_filter {A} (p : A -> bool) l : sublist (List.filter p l) l.
Proof. induction l as [|a l IH]; cbn; [constructor|]. destruct (p a); by constructor. Qed.

Lemma recent_window now key vl : 0 < windowDuration vl -> Forall (fun x => now - windowDuration vl < x) (recent_failures now key vl ++ [now]).
Proof.
  intros Hw. apply Forall_app. split; [|repeat constructor; lia].
  apply List.Forall_forall. intros x [_ Hx%Z.ltb_lt]%List.filter_In. done.
Qed.

Lemma blocked_or_free now key vl :
  (exists u, blockedUntil vl !! key = Some u /\ now < u) \/ (forall u, blockedUntil vl !! key = Some u -> u <= now).
Proof. destruct (blockedUntil vl !! key) as [u|]; [destruct (Z.lt_ge_cases now u)|]; naive_solver. Qed.

Lemma justified_fail vl0 key now times vl : key <> "" -> same_settings vl0 vl -> below_limit vl -> 0 < maxAttempts vl0 -> 0 < windowDuration vl0 ->
  justified vl0 key times vl -> justified vl0 key (times ++ [now]) (RecordFailure now key vl).
Proof.
  intros Hk (Hw & Hm & Hbl) Hb Hpos Hwin [Hf Hj].
  destruct (blocked_or_free now key vl) as [(u & Hu & Hlt)|Hfree].
  { rewrite (fail_ignored now key vl u Hu Hlt). apply justified_more. by split. }
  assert (Hsub : sublist (recent_failures now key vl ++ [now]) (times ++ [now])).
  { apply sublist_app; [|done]. unfold recent_failures. destruct (failures vl !! key) as [l|] eqn:Hl; cbn; [|apply sublist_nil_l].
    etrans; [apply sublist_filter|by apply Hf]. }
  destruct (fail_step now key vl Hk Hfree) as [(Hge & Hf' & Hb')|(Hlt & Hf' & Hb')].
  - split; [by rewrite Hf'|]. rewrite Hb'. intros u [= <-]. exists (recent_failures now key vl ++ [now]).
    pose proof (kept_failures vl key now Hb ltac:(lia)) as Hlen. rewrite Hbl, length_app, Nat2Z.inj_add in *. cbn in Hge.
    replace (now + blockDuration vl0 - blockDuration vl0) with now by lia.
    repeat split; [done|cbn; lia|rewrite <- Hw; apply recent_window; lia|apply last_snoc].
  - split; [|by rewrite Hb']. rewrite Hf'. by intros l [= <-].
Qed.

Lemma justified_run vl0 key ops : key <> "" -> 0 < maxAttempts vl0 -> 0 < windowDuration vl0 -> forall times vl,
  same_settings vl0 vl -> below_limit vl -> justified vl0 key times vl -> justified vl0 key (times ++ failure_times key ops) (run ops vl).
Proof.
  intros Hk Hm Hw. induction ops as [|o ops IH]; intros times vl Hs Hb Hj; [by rewrite app_nil_r|].
  assert (Hs' : same_settings vl0 (apply_op o vl)).
  { destruct (apply_settings o vl) as (? & ? & ?), Hs as (? & ? & ?). unfold same_settings. intuition congruence. }
  pose proof (apply_below o vl Hb) as Hb'.
  change (failure_times key (o :: ops)) with (failure_time key o ++ failure_times key ops). rewrite app_assoc.
  apply IH; [done|done|]. destruct (about key o) eqn:Ho.
  - destruct o as [now k|k]; cbn in Ho; apply bool_decide_eq_true in Ho as ->; cbn [failure_time].
    + rewrite bool_decide_true by done. by apply justified_fail.
    + rewrite app_nil_r. cbn [apply_op]. unfold Reset_. rewrite bool_decide_false by done.
      split; cbn; rewrite lookup_delete, decide_True by done; done.
  - destruct (other_key_kept o key vl Ho) as [E1 E2]. apply justified_more. unfold justified. by rewrite E1, E2.
Qed.

(** *** Guessing on is blocked *)

Definition since (t1 : Z) (key : string) (vl : VelocityLimiter) : nat :=
  length (List.filter (fun x => t1 <=? x) (default [] (failures vl !! key))).

(** After [n] failures from [t1] on: blocked for long, or all are kept. *)
Definition pending (t1 : Z) (key : string) (n : nat) (vl : VelocityLimiter) : Prop :=
  (exists u, blockedUntil vl !! key = Some u /\ t1 + blockDuration vl <= u) \/
  ((forall u, blockedUntil vl !! key = Some u -> u <= t1) /\ (n <= since t1 key vl)%nat).

Lemma since_fail t1 key now vl : t1 <= now < t1 + windowDuration vl ->
  length (List.filter (fun x => t1 <=? x) (recent_failures now key vl ++ [now])) = S (since t1 key vl).
Proof.
  intros Hn. rewrite List.filter_app, length_app. cbn. rewrite (proj2 (Z.leb_le t1 now)) by lia. cbn.
  rewrite Nat.add_1_r. f_equal. unfold since, recent_failures. induction (default [] (failures vl !! key)) as [|x l IH]; [done|]. cbn.
  destruct (Z.leb_spec t1 x), (Z.ltb_spec (now - windowDuration vl) x); cbn; rewrite ?(proj2 (Z.leb_le t1 x)), ?(proj2 (Z.leb_gt t1 x)) by done; cbn; [by f_equal|lia|done|done].
Qed.

Lemma pending_fail t1 key n now vl : key <> "" -> t1 <= now < t1 + windowDuration vl -> now < t1 + blockDuration vl ->
  pending t1 key n vl -> pending t1 key (S n) (RecordFailure now key vl).
Proof.
  intros Hk Hn Hlt. destruct (apply_settings (Fail now key) vl) as (_ & _ & Hbl). cbn in Hbl. unfold pending. rewrite Hbl.
  intros [(u & Hu & Hle)|[Hfree Hcnt]].
  { left. exists u. rewrite (fail_ignored now key vl u Hu) by lia. done. }
  destruct (fail_step now key vl Hk) as [(_ & _ & Hb')|(_ & Hf' & Hb')]; [intros u Hu; specialize (Hfree u Hu); lia| |].
  - left. exists (now + blockDuration vl). split; [done|lia].
  - right. rewrite Hb'. split; [done|]. unfold since. rewrite Hf'. cbn [from_option]. unfold id. rewrite since_fail by done. lia.
Qed.

Lemma pending_run t1 key ops : key <> "" -> forall n vl,
  Forall (fun o => o <> Clear key) ops ->
  Forall (fun t => t1 <= t < t1 + windowDuration vl /\ t < t1 + blockDuration vl) (failure_times key ops) ->
  pending t1 key n vl -> pending t1 key (n + length (failure_times key ops)) (run ops vl).
Proof.
  intros Hk. induction ops as [|o ops IH]; intros n vl Hc Ht Hp; [by rewrite Nat.add_0_r|].
  inversion Hc; subst. change (failure_times key (o :: ops)) with (failure_time key o ++ failure_times key ops) in *.
  apply Forall_app in Ht as [Ht1 Ht2]. rewrite length_app, Nat.add_assoc.
  destruct (apply_settings o vl) as (Hw & _ & Hb). apply IH; [done|by rewrite Hw, Hb|].
  destruct (about key o) eqn:Ho.
  - destruct o as [now k|k]; cbn in Ho; apply bool_decide_eq_true in Ho as ->; [|done].
    cbn [failure_time] in *. rewrite bool_decide_true in * by done. inversion Ht1 as [|? ? [? ?]]; subst.
    cbn [length]. rewrite Nat.add_1_r. by apply pending_fail.
  - assert (Hz : failure_time key o = []) by (destruct o; cbn in *; [by rewrite Ho|done]). rewrite Hz, Nat.add_0_r.
    destruct (other_key_kept o key vl Ho) as [E1 E2]. unfold pending, since in *. by rewrite Hb, E1, E2.
Qed.

(** C2: A key is blocked only after as many failed attempts as the limit
    within one window, and not for longer than the duration of a block after
    the last of them; and a key that is not blocked at some instant and then
    has as many failures within one window is blocked until a whole block
    after the first of them, unless it is reset. *)
Theorem velocity_limiter_exact (window max block : Z) (key : string) (before after : list Op) (t1 now : Z) :
  key <> "" ->
  let vl0 := NewVelocityLimiter window max block in
  (IsBlocked now key (run before vl0) = true ->
     exists t, burst vl0 (failure_times key before) t /\ now < t + blockDuration vl0) /\
  (IsBlocked t1 key (run before vl0) = false -> Forall (fun o => o <> Clear key) after ->
     Forall (fun t => t1 <= t < t1 + windowDuration vl0 /\ t <= now) (failure_times key after) ->
     maxAttempts vl0 <= Z.of_nat (length (failure_times key after)) -> now < t1 + blockDuration vl0 ->
     IsBlocked now key (run (before ++ after) vl0) = true).
Proof.
  intros Hk vl0.
  assert (Hpos : 0 < maxAttempts vl0 /\ 0 < windowDuration vl0).
  { unfold vl0, NewVelocityLimiter; cbn. split; case_match eqn:E; unfold Minute, Second; lia. }
  destruct Hpos as [Hm Hw].
  assert (Hb0 : below_limit vl0) by apply new_below.
  destruct (run_settings before vl0) as (Ew & Em & Eb).
  split.
  - rewrite blocked_iff; [|done|by apply run_below|by rewrite Em]. intros (u & Hu & Hlt).
    destruct (justified_run vl0 key before Hk Hm Hw [] vl0) as [_ Hj]; [done|done|split; cbn; intros ?; by rewrite lookup_empty|].
    exists (u - blockDuration vl0). split; [by apply Hj|lia].
  - intros Hfree Hclear Ht Hlen Hnow. unfold run. rewrite fold_left_app. fold (run before vl0). fold (run after (run before vl0)).
    pose proof (run_below before vl0 Hb0) as Hb1. pose proof (run_below after _ Hb1) as Hb2.
    destruct (run_settings after (run before vl0)) as (Ew' & Em' & Eb').
    apply blocked_iff; [done|done|by rewrite Em', Em|].
    destruct (pending_run t1 key after Hk 0 (run before vl0)) as [(u & Hu & Hle)|[_ Hcnt]]; [done| | |exists u; split; [done|lia]|].
    + rewrite Ew, Eb. eapply Forall_impl; [exact Ht|]. intros t [[? ?] ?]. repeat split; [done|done|lia].
    + right. split; [|lia]. destruct (blocked_or_free t1 key (run before vl0)) as [Hbl|Hbl]; [|done]. exfalso.
      apply not_true_iff_false in Hfree. apply Hfree. by apply blocked_iff; [done|done|by rewrite Em|].
    + exfalso. unfold since in Hcnt. destruct (failures (run after (run before vl0)) !! key) as [l|] eqn:Hl; cbn in Hcnt; [|lia].
      specialize (Hb2 _ _ Hl). pose proof (List.filter_length_le (fun x => t1 <=? x) l). lia.
Qed.

Example velocity_limiter_exact_witness :
  let vl0 := NewVelocityLimiter 10 3 100 in
  let after := [Fail 50 "ann"; Fail 51 "bob"; Fail 52 "ann"; Fail 53 "ann"] in
  IsBlocked 140 "ann" (run ([Fail 0 "ann"] ++ after) vl0) = true /\
  exists t, burst vl0 (failure_times "ann" ([Fail 0 "ann"] ++ after)) t /\ 140 < t + blockDuration vl0.
Proof.
  intros vl0 after.
  assert (H : IsBlocked 140 "ann" (run ([Fail 0 "ann"] ++ after) vl0) = true).
  { apply (velocity_limiter_exact 10 3 100 "ann" [Fail 0 "ann"] after 50 140); [done|vm_compute; done|repeat constructor; done| |vm_compute; done|vm_compute; done].
    vm_compute. repeat constructor; done. }
  split; [exact H|]. by apply (velocity_limiter_exact 10 3 100 "ann" ([Fail 0 "ann"] ++ after) [] 0 140).
Defined.
End VelocityFacts.

(** ** Encrypted secrets can be read after any rotation of keys *)

Module KmsFacts.
Import Kms.

(** The keys are those of the versions up to the counter, the last one is
    the one in use. *)
Definition kms_ok (k : Kms) : Prop :=
  2 <= versionCounter k /\ latestKMSKeyVersion k = "v" +:+ FormatInt (versionCounter k) /\
  is_Some (kmsKeys k !! latestKMSKeyVersion k) /\
  forall c, versionCounter k < c <= max_int64 -> kmsKeys k !! ("v" +:+ FormatInt c) = None.

Lemma version_inj c d : in_int64 c -> in_int64 d -> "v" +:+ FormatInt c = "v" +:+ FormatInt d -> c = d.
Proof.
  intros Hc Hd E. assert (E' : FormatInt c = FormatInt d).
  { apply byt_inj. apply (f_equal byt) in E. rewrite !byt_app in E. by apply app_inv_head in E. }
  apply Atoi_FormatInt in Hc, Hd. congruence.
Qed.

Lemma initial_ok : kms_ok initial.
Proof.
  repeat split; [vm_compute; done|by exists "rotated-kms-secret-32-bytes-long!"|].
  intros c [Hc Hm]. unfold initial, max_int64 in *; cbn [kmsKeys versionCounter] in *.
  assert (Hne : forall d, 1 <= d <= 2 -> "v" +:+ FormatInt d <> "v" +:+ FormatInt c).
  { intros d Hd E%version_inj; unfold in_int64, min_int64, max_int64; lia. }
  rewrite !lookup_insert_ne; [by rewrite lookup_empty|exact (Hne 2 ltac:(lia))|exact (Hne 1 ltac:(lia))].
Qed.

Lemma rotate_ok b k : kms_ok k -> versionCounter k < max_int64 ->
  kms_ok (rotate b k) /\ versionCounter (rotate b k) = versionCounter k + 1 /\
  forall v x, kmsKeys k !! v = Some x -> kmsKeys (rotate b k) !! v = Some x.
Proof.
  intros (Hc & Hl & Hs & Hfree) Hmax. unfold rotate. cbn.
  rewrite wrap64_id by (unfold in_int64, min_int64; lia).
  assert (Hnew : kmsKeys k !! ("v" +:+ FormatInt (versionCounter k + 1)) = None) by (apply Hfree; lia).
  split; [|split; [done|]].
  - repeat split; cbn; [lia|by rewrite lookup_insert, decide_True by done|].
    intros c Hc'. rewrite lookup_insert_ne; [apply Hfree; lia|].
    intros E%version_inj; unfold in_int64, min_int64; lia.
  - intros v x Hx. rewrite lookup_insert_ne; [done|]. intros <-. congruence.
Qed.

Definition rotations (keys : list bytes) (k : Kms) : Kms := fold_left (fun k b => rotate b k) keys k.

Lemma rotations_ok keys : forall k, kms_ok k -> versionCounter k + Z.of_nat (length keys) <= max_int64 ->
  kms_ok (rotations keys k) /\ versionCounter (rotations keys k) = versionCounter k + Z.of_nat (length keys) /\
  forall v x, kmsKeys k !! v = Some x -> kmsKeys (rotations keys k) !! v = Some x.
Proof.
  induction keys as [|b keys IH]; intros k Hk Hlen; cbn [rotations fold_left] in *; [repeat split; [apply Hk..|cbn; lia|done]|].
  cbn [length] in Hlen. destruct (rotate_ok b k Hk) as (H1 & H2 & H3); [lia|].
  destruct (IH (rotate b k) H1) as (H4 & H5 & H6); [lia|]. fold (rotations keys (rotate b k)).
  repeat split; [apply H4..|cbn [length]; lia|auto].
Qed.

Section Roundtrip.
Context `{crypto : Crypto} `{casing : Casing} (getenv : string -> string).

Lemma decryptWithKey_Seal nonce key p : length nonce = NonceSize -> decryptWithKey (nonce ++ Seal key nonce (byt p)) key = Some p.
Proof.
  intros Hn. unfold decryptWithKey. rewrite length_app, Hn. rewrite (proj2 (Nat.ltb_ge _ _)) by lia.
  rewrite <- Hn, take_app_length, drop_app_length, Open_Seal. cbn. by rewrite str_byt.
Qed.

Lemma key_stable k k' v : is_Some (kmsKeys k !! v) -> (forall v x, kmsKeys k !! v = Some x -> kmsKeys k' !! v = Some x) ->
  GetKMSKeyForVersion getenv v k' = GetKMSKeyForVersion getenv v k.
Proof. intros [x Hx] H. unfold GetKMSKeyForVersion. by rewrite Hx, (H _ _ Hx). Qed.

(** A text that was encrypted after any number of rotations of the keys
    is decrypted to itself after any number of further rotations, while the
    process runs and its environment names no other version. *)
Theorem secret_roundtrip (before after : list bytes) (nonce : bytes) (plaintext : string) :
  getenv "PRANOR_KMS_SECRET_LATEST_VERSION" = "" -> length nonce = NonceSize ->
  Z.of_nat (length before + length after) < max_int64 - 2 ->
  let k := rotations before initial in
  exists ciphertext, EncryptAES getenv (Some nonce) plaintext k = Some ciphertext /\
    DecryptAES getenv ciphertext (rotations after k) = Some plaintext.
Proof.
  intros Henv Hn Hlen k.
  destruct (rotations_ok before initial initial_ok) as (Hk & Hc & _); [cbn; lia|]. fold k in Hk, Hc.
  destruct (rotations_ok after k Hk) as (_ & _ & Hstable); [cbn in Hc; lia|].
  unfold EncryptAES. rewrite Henv. rewrite bool_decide_true by done. eexists. split; [done|].
  destruct Hk as (_ & Hl & Hs & _). set (v := latestKMSKeyVersion k) in *.
  unfold DecryptAES. rewrite cut_colon.
  2:{ rewrite Hl, byt_app. apply not_elem_of_app. split; [|by apply FormatInt_without]. by apply (bool_decide_unpack _). }
  unfold hex. rewrite byt_str, unhex_hex. rewrite (key_stable k (rotations after k) v) by done. by rewrite decryptWithKey_Seal.
Qed.
End Roundtrip.

(** Encryption that appends the text to the key, which opening takes off
    again. *)
#[local, refine] Instance demo_crypto : Crypto := {|
  Sum256 b := replicate 32 NUL; GenerateFromPassword salt p := Some ("h" +:+ p); CompareHashAndPassword h p := bool_decide (h = "h" +:+ p);
  hmac_sha1 _ _ := replicate 20 NUL; Seal key nonce p := key ++ p;
  Open key nonce c := if bool_decide (take (length key) c = key) then Some (drop (length key) c) else None;
  ParseECDSAPublicKey b := Some b; ecdsa_Verify _ _ _ _ := false |}.
Proof.
  - intros. by rewrite take_app_length, drop_app_length, bool_decide_true.
  - intros ? ? ? [= <-]. by rewrite bool_decide_true.
  - intros. apply length_replicate.
Defined.
#[local] Existing Instance ascii_casing.

Example secret_roundtrip_witness :
  exists ciphertext, EncryptAES (fun _ => "") (Some (replicate 12 "a"%char)) "text" (rotations [byt "one"] initial) = Some ciphertext /\
    DecryptAES (fun _ => "") ciphertext (rotations [byt "two"; byt "three"] (rotations [byt "one"] initial)) = Some "text".
Proof. apply (secret_roundtrip (fun _ => "") [byt "one"] [byt "two"; byt "three"] (replicate 12 "a"%char) "text"); vm_compute; done. Defined.

(** Keys made by rotation are kept in memory only: after a restart the text
    is lost. *)
Example restart_loses_secrets :
  exists ciphertext, EncryptAES (fun _ => "") (Some (replicate 12 "a"%char)) "text" (rotations [byt "one"] initial) = Some ciphertext /\
    DecryptAES (fun _ => "") ciphertext initial = None.
Proof. eexists. split; [reflexivity|vm_compute; reflexivity]. Qed.

(** A signature that is not valid for the key of the credential is accepted:
    the check that follows refuses only signatures that are shorter than the
    length already required. *)
Example forged_assertion_accepted :
  let e := WebAuthn.mkEngine {["challenge" := 100]} {["ann" := [WebAuthn.mkCredential (byt "id") (byt "key") 0]]} in
  (WebAuthn.VerifyAssertion 50 "ann" "challenge" (byt "id") [] (replicate 64 "x"%char) e).1 = None.
Proof. vm_compute. reflexivity. Qed.
End KmsFacts.

(** ** Challenges *)

Module ChallengeFacts.
Import WebAuthn.
Section Challenges.
Context `{crypto : Crypto}.

(** C4: A challenge serves one ceremony: once an assertion or a registration
    has presented it, with whatever outcome, every later ceremony that
    presents it is refused, until it is generated again; and it is accepted
    only before its expiry. *)
Theorem challenge_single_use (now now' : Z) (user user' challenge : string) (credID authData signature credID' authData' signature' : bytes)
    (e : WebAuthnEngine) :
  let e' := (VerifyAssertion now user challenge credID authData signature e).2 in
  let e'' := (VerifyRegistration now user challenge credID authData e).2 in
  (VerifyAssertion now' user' challenge credID' authData' signature' e').1 = Some "invalid or expired WebAuthn challenge" /\
  (VerifyAssertion now' user' challenge credID' authData' signature' e'').1 = Some "invalid or expired WebAuthn challenge" /\
  (VerifyRegistration now' user' challenge credID' authData' e').1 = Some "invalid or expired WebAuthn challenge" /\
  ((VerifyAssertion now user challenge credID authData signature e).1 = None -> exists exp, challenges e !! challenge = Some exp /\ now < exp) /\
  (forall c, c <> challenge -> challenges e' !! c = challenges e !! c).
Proof.
  assert (Hgone : forall x, challenges x !! challenge = None -> forall u c a s t,
    (VerifyAssertion t u challenge c a s x).1 = Some "invalid or expired WebAuthn challenge" /\
    (VerifyRegistration t u challenge c a x).1 = Some "invalid or expired WebAuthn challenge").
  { intros x Hx u c a s t. unfold VerifyAssertion, VerifyRegistration, consumeChallenge. by rewrite Hx. }
  assert (Hc : challenges (consumeChallenge now challenge e).2 !! challenge = None).
  { unfold consumeChallenge. destruct (challenges e !! challenge) eqn:H; [by cbn; rewrite lookup_delete, decide_True by done|done]. }
  assert (Ha : challenges (VerifyAssertion now user challenge credID authData signature e).2 = challenges (consumeChallenge now challenge e).2).
  { unfold VerifyAssertion. destruct (consumeChallenge now challenge e) as [[] x]; cbn; [|done]. repeat case_match; done. }
  assert (Hr : challenges (VerifyRegistration now user challenge credID authData e).2 = challenges (consumeChallenge now challenge e).2).
  { unfold VerifyRegistration. destruct (consumeChallenge now challenge e) as [[] x]; cbn; [|done]. repeat case_match; done. }
  cbn zeta. rewrite <- Ha in Hc. split; [by apply Hgone|]. rewrite Ha in Hc. split; [apply Hgone; congruence|].
  split; [apply Hgone; congruence|]. split.
  - unfold VerifyAssertion, consumeChallenge. destruct (challenges e !! challenge) as [exp|]; [|done].
    destruct (Z.ltb_spec now exp); [|done]. intros _. by exists exp.
  - intros c Hne. rewrite Ha. unfold consumeChallenge. destruct (challenges e !! challenge); [by cbn; rewrite lookup_delete_ne|done].
Qed.
End Challenges.
End ChallengeFacts.
