(* ===== verification/Auth.v ===== *)
(** * The authentication service

    [auth/pkg/handlers/handlers.go], [auth/pkg/sessions/sessions.go],
    [auth/pkg/store/store.go], [auth/pkg/oauth/oauth.go] and the wiring of
    [auth/main.go].

    The maps that the handlers share are the fields of [Server]; a handler
    takes a request and the server to a reply and the next server.  A [Call]
    is what one request meets: the readings of the clock in order, the random
    values, whether the vault takes what is saved, which of several matching
    users a range over the map finds first.  Decoding bodies is the class
    [Json].  The details of audit events are left out. *)

From S2P Require Import Prelude GoStrings GoNumbers GoTime GoFloat Core AuthStores.
Local Open Scope string_scope.
Local Open Scope Z_scope.
Local Open Scope list_scope.

(** ** Data *)

Record User := mkUser {
  u_Username : string; u_Email : string; u_Password : string; u_Salt : string; u_CreatedAt : option Z;
  u_FailedAttempts : Z; u_LockedUntil : option Z; u_ResetToken : string; u_TenantID : string;
  u_MFASecret : string; u_MFAEnabled : bool; u_PasskeyID : string; u_PasskeyPublicKey : string;
  u_LastDevice : string; u_LastCountry : string }.

Definition new_user (username email password salt : string) (created : option Z) (tenant : string) : User :=
  mkUser username email password salt created 0 None "" tenant "" false "" "" "" "".

(** Assignments to fields of a user. *)
Definition set_attempts (n : Z) (until : option Z) (u : User) : User :=
  mkUser (u_Username u) (u_Email u) (u_Password u) (u_Salt u) (u_CreatedAt u) n until (u_ResetToken u) (u_TenantID u)
    (u_MFASecret u) (u_MFAEnabled u) (u_PasskeyID u) (u_PasskeyPublicKey u) (u_LastDevice u) (u_LastCountry u).
Definition set_reset (password token : string) (u : User) : User :=
  mkUser (u_Username u) (u_Email u) password (u_Salt u) (u_CreatedAt u) (u_FailedAttempts u) (u_LockedUntil u) token (u_TenantID u)
    (u_MFASecret u) (u_MFAEnabled u) (u_PasskeyID u) (u_PasskeyPublicKey u) (u_LastDevice u) (u_LastCountry u).
Definition set_mfa (secret : string) (enabled : bool) (u : User) : User :=
  mkUser (u_Username u) (u_Email u) (u_Password u) (u_Salt u) (u_CreatedAt u) (u_FailedAttempts u) (u_LockedUntil u) (u_ResetToken u) (u_TenantID u)
    secret enabled (u_PasskeyID u) (u_PasskeyPublicKey u) (u_LastDevice u) (u_LastCountry u).
Definition set_passkey (id pk : string) (u : User) : User :=
  mkUser (u_Username u) (u_Email u) (u_Password u) (u_Salt u) (u_CreatedAt u) (u_FailedAttempts u) (u_LockedUntil u) (u_ResetToken u) (u_TenantID u)
    (u_MFASecret u) (u_MFAEnabled u) id pk (u_LastDevice u) (u_LastCountry u).
Definition set_seen (device country : string) (u : User) : User :=
  mkUser (u_Username u) (u_Email u) (u_Password u) (u_Salt u) (u_CreatedAt u) (u_FailedAttempts u) (u_LockedUntil u) (u_ResetToken u) (u_TenantID u)
    (u_MFASecret u) (u_MFAEnabled u) (u_PasskeyID u) (u_PasskeyPublicKey u) device country.
Definition set_email (email : string) (u : User) : User :=
  mkUser (u_Username u) email (u_Password u) (u_Salt u) (u_CreatedAt u) (u_FailedAttempts u) (u_LockedUntil u) (u_ResetToken u) (u_TenantID u)
    (u_MFASecret u) (u_MFAEnabled u) (u_PasskeyID u) (u_PasskeyPublicKey u) (u_LastDevice u) (u_LastCountry u).

(** The fields that are written as JSON: the others are tagged with a dash. *)
Definition persisted (u : User) : User :=
  mkUser (u_Username u) (u_Email u) "" "" (u_CreatedAt u) 0 None "" (u_TenantID u) "" (u_MFAEnabled u) (u_PasskeyID u) (u_PasskeyPublicKey u)
    (u_LastDevice u) (u_LastCountry u).

Record APIKey := mkKey { k_Key : string; k_Username : string; k_Scopes : list string; k_CreatedAt : Z; k_Revoked : bool }.

Record Session_ := mkSession {
  s_Token : string; s_Username : string; s_IP : string; s_UserAgent : string; s_CreatedAt : Z; s_Revoked : bool }.

Definition revoke_session (s : Session_) : Session_ :=
  mkSession (s_Token s) (s_Username s) (s_IP s) (s_UserAgent s) (s_CreatedAt s) true.

Record JWKKeyPair := mkPair { KeyID : string; PrivateKey : string; PublicKey : string; j_CreatedAt : Z }.

Record DeviceFingerprint := mkDevice { d_ID : string; d_UserAgent : string; d_IP : string; Trusted : bool; LastSeen : Z }.

Record TenantOIDCProvider := mkProvider {
  o_TenantID : string; ProviderName : string; IssuerURL : string; o_ClientID : string; AutoRoleMap : gmap string string }.

Record SCIMUser := mkSCIM { sc_Schemas : list string; sc_ID : string; sc_UserName : string; sc_Emails : list (string * bool); Active : bool }.

(** What the vault holds. *)
Record Saved := mkSaved { saved_users : option (gmap string User); saved_keys : option (gmap string APIKey); saved_sessions : option (gmap string Session_) }.

Record Server := mkServer {
  Users : gmap string User; APIKeys : gmap string APIKey; Sessions : gmap string Session_;
  magicTokens : gmap string string; passkeyChallenges : gmap string string; failedLoginsIP : gmap string (list Z);
  userDevices : gmap string (list DeviceFingerprint); tenantOidcMap : gmap string TenantOIDCProvider;
  JWKKeyPairs : list JWKKeyPair; kms : Kms.Kms; saved : Saved; audit : list (string * string) }.

Definition with_users (m : gmap string User) (s : Server) : Server :=
  mkServer m (APIKeys s) (Sessions s) (magicTokens s) (passkeyChallenges s) (failedLoginsIP s) (userDevices s) (tenantOidcMap s) (JWKKeyPairs s) (kms s) (saved s) (audit s).
Definition with_keys (m : gmap string APIKey) (s : Server) : Server :=
  mkServer (Users s) m (Sessions s) (magicTokens s) (passkeyChallenges s) (failedLoginsIP s) (userDevices s) (tenantOidcMap s) (JWKKeyPairs s) (kms s) (saved s) (audit s).
Definition with_sessions (m : gmap string Session_) (s : Server) : Server :=
  mkServer (Users s) (APIKeys s) m (magicTokens s) (passkeyChallenges s) (failedLoginsIP s) (userDevices s) (tenantOidcMap s) (JWKKeyPairs s) (kms s) (saved s) (audit s).
Definition with_magic (m : gmap string string) (s : Server) : Server :=
  mkServer (Users s) (APIKeys s) (Sessions s) m (passkeyChallenges s) (failedLoginsIP s) (userDevices s) (tenantOidcMap s) (JWKKeyPairs s) (kms s) (saved s) (audit s).
Definition with_challenges (m : gmap string string) (s : Server) : Server :=
  mkServer (Users s) (APIKeys s) (Sessions s) (magicTokens s) m (failedLoginsIP s) (userDevices s) (tenantOidcMap s) (JWKKeyPairs s) (kms s) (saved s) (audit s).
Definition with_failed (m : gmap string (list Z)) (s : Server) : Server :=
  mkServer (Users s) (APIKeys s) (Sessions s) (magicTokens s) (passkeyChallenges s) m (userDevices s) (tenantOidcMap s) (JWKKeyPairs s) (kms s) (saved s) (audit s).
Definition with_devices (m : gmap string (list DeviceFingerprint)) (s : Server) : Server :=
  mkServer (Users s) (APIKeys s) (Sessions s) (magicTokens s) (passkeyChallenges s) (failedLoginsIP s) m (tenantOidcMap s) (JWKKeyPairs s) (kms s) (saved s) (audit s).
Definition with_oidc (m : gmap string TenantOIDCProvider) (s : Server) : Server :=
  mkServer (Users s) (APIKeys s) (Sessions s) (magicTokens s) (passkeyChallenges s) (failedLoginsIP s) (userDevices s) m (JWKKeyPairs s) (kms s) (saved s) (audit s).
Definition with_pairs (l : list JWKKeyPair) (s : Server) : Server :=
  mkServer (Users s) (APIKeys s) (Sessions s) (magicTokens s) (passkeyChallenges s) (failedLoginsIP s) (userDevices s) (tenantOidcMap s) l (kms s) (saved s) (audit s).
Definition with_kms (k : Kms.Kms) (s : Server) : Server :=
  mkServer (Users s) (APIKeys s) (Sessions s) (magicTokens s) (passkeyChallenges s) (failedLoginsIP s) (userDevices s) (tenantOidcMap s) (JWKKeyPairs s) k (saved s) (audit s).
Definition with_saved (x : Saved) (s : Server) : Server :=
  mkServer (Users s) (APIKeys s) (Sessions s) (magicTokens s) (passkeyChallenges s) (failedLoginsIP s) (userDevices s) (tenantOidcMap s) (JWKKeyPairs s) (kms s) x (audit s).
Definition EmitAuditEvent (event user : string) (s : Server) : Server :=
  mkServer (Users s) (APIKeys s) (Sessions s) (magicTokens s) (passkeyChallenges s) (failedLoginsIP s) (userDevices s) (tenantOidcMap s) (JWKKeyPairs s) (kms s) (saved s)
    (audit s ++ [(event, user)]).

Definition Clients : gmap string string := {["console-client-id" := "console-secret-key-9876"]}.

Definition ValidateClient (clientID clientSecret : string) (clients : gmap string string) : bool :=
  match clients !! clientID with Some secret => bool_decide (secret = clientSecret) | None => false end.

(** ** What a request meets *)

Record Call := mkCall {
  clock : nat -> Z; random : nat -> option bytes; put_ok : bool; choice : nat; rest_of_body : string;
  (** A new private key and its public key. *)
  rsa_key : option (string * string) }.

(** The first readings of the clock are those of the middleware. *)
Definition at_ (c : Call) (i : nat) : Z := clock c (4 + i).

(** [base64.RawURLEncoding]. *)
Definition base64_char (n : Z) : ascii := nth (Z.to_nat n) (byt "ABCDEFGHIJKLMNOPQRSTUVWXYZabcdefghijklmnopqrstuvwxyz0123456789-_") NUL.
Fixpoint base64_raw (b : bytes) : bytes :=
  match b with
  | [] => []
  | [x] => let n := of_byte x * 16 in [base64_char (n / 64); base64_char (n mod 64)]
  | [x; y] => let n := (of_byte x * 256 + of_byte y) * 4 in [base64_char (n / 4096); base64_char (n / 64 mod 64); base64_char (n mod 64)]
  | x :: y :: z :: b =>
      let n := (of_byte x * 256 + of_byte y) * 256 + of_byte z in
      [base64_char (n / 262144); base64_char (n / 4096 mod 64); base64_char (n / 64 mod 64); base64_char (n mod 64)] ++ base64_raw b
  end.

(** ** Bodies of requests *)

Record RegisterRequest := mkRegister { r_Username : string; r_Email : string; r_Password : string }.
Record LoginRequest := mkLogin { l_Username : string; l_Password : string }.
Record ResetConfirm := mkConfirm { c_Token : string; c_Password : string }.
Record GrantRequest := mkGrant { g_ClientID : string; g_ClientSecret : string; g_GrantType : string }.
Record RiskScoreRequest := mkRisk { rs_Username : string; rs_Device : string; rs_Country : string; rs_Hour : option Z }.
Record PasskeyRegisterVerifyRequest := mkPasskeyRegister { pr_Challenge : string; pr_CredentialID : string; pr_PublicKey : string }.
Record PasskeyLoginVerifyRequest := mkPasskeyLogin { pl_Username : string; pl_Challenge : string; pl_Signature : string }.
Record StepUpRequest := mkStepUp { su_Username : string; su_UserAgent : string; su_ClientIP : string; su_Location : string }.

(** [json.NewDecoder(r.Body).Decode] into each of the types; an error or the
    value.  A body with one field is that field. *)
Class Json := {
  decode_register : string -> string + RegisterRequest;
  decode_login : string -> string + LoginRequest;
  decode_grant : string -> string + GrantRequest;
  decode_confirm : string -> string + ResetConfirm;
  decode_risk : string -> string + RiskScoreRequest;
  decode_passkey_register : string -> string + PasskeyRegisterVerifyRequest;
  decode_passkey_login : string -> string + PasskeyLoginVerifyRequest;
  decode_step_up : string -> string + StepUpRequest;
  decode_scim : string -> string + SCIMUser;
  decode_provider : string -> string + TenantOIDCProvider;
  (** The field of the given name, empty when missing. *)
  decode_field : string -> string -> string + string;
  (** A user name and scopes. *)
  decode_scopes : string -> string + string * list string }.

Definition ResetRequest_Validate (email : string) : option string :=
  if bool_decide (email = "") || negb (Contains email "@") then Some "invalid email address" else None.

Definition len (s : string) : Z := Z.of_nat (length (byt s)).

Definition ResetConfirm_Validate (r : ResetConfirm) : option string :=
  if bool_decide (c_Token r = "") then Some "token cannot be empty"
  else if len (c_Password r) <? 8 then Some "password must be at least 8 characters" else None.

Definition RegisterRequest_Validate (r : RegisterRequest) : option string :=
  if bool_decide (r_Username r = "") then Some "username cannot be empty"
  else if len (r_Password r) <? 8 then Some "password must be at least 8 characters"
  else if bool_decide (r_Email r = "") || negb (Contains (r_Email r) "@") then Some "invalid email address" else None.

Definition LoginRequest_Validate (r : LoginRequest) : option string :=
  if bool_decide (l_Username r = "") then Some "username cannot be empty"
  else if bool_decide (l_Password r = "") then Some "password cannot be empty" else None.

Definition no_validation {A} (_ : A) : option string := None.

(** ** Replies *)

Inductive Payload :=
| PText (s : string)
| PUser (u : User)
| PLogin (token username : string)
| PGrant (access refresh : string)
| PToken (token : string)
| PChallenge (challenge : string)
| PKey (key username : string) (scopes : list string)
| PApiKey (k : APIKey)
| PMfa (secret account url : string)
| PUsers (l : list (string * string * string * bool))
| PSessions (l : list Session_)
| PScopes (username : string) (scopes : list string)
| PJwks (l : list (string * string))
| PRisk (score : Z) (require : bool)
| PStepUp (username : string) (score : float64) (required : bool)
| PStuffing (detected : bool) (ips : list string)
| PScim (u : SCIMUser)
| PScimList (l : list SCIMUser)
| PDevices (username : string) (l : list DeviceFingerprint)
| PProvider (p : TenantOIDCProvider)
| PEmpty.

Abbreviation reply := (Reply Payload).
Abbreviation handler := (Handler Payload Server).

Definition error_code (code : Z) : string :=
  if code =? 405 then "ERR_METHOD_NOT_ALLOWED" else if code =? 400 then "ERR_BAD_REQUEST" else if code =? 401 then "ERR_UNAUTHORIZED"
  else if code =? 403 then "ERR_FORBIDDEN" else if code =? 404 then "ERR_NOT_FOUND" else if code =? 409 then "ERR_CONFLICT"
  else if code =? 501 then "ERR_NOT_IMPLEMENTED" else "ERR_INTERNAL_SERVER_ERROR".

Definition httpError (msg : string) (code : Z) : reply := WriteJSONError msg (error_code code) code.

Definition ok (p : Payload) : reply := mkReply 200 (Data p).

Definition method_not_allowed : reply := httpError "Method Not Allowed" 405.

(** A handler of one method only. *)
Definition only (method : string) (h : handler) : handler :=
  fun r s => if bool_decide (Method r = method) then h r s else (method_not_allowed, s).

(** A body that is decoded and validated, and one that is only decoded. *)
Definition validated {A} (decoded : string + A) (validate : A -> option string) (s : Server) (k : A -> reply * Server) : reply * Server :=
  match DecodeAndValidateJSON decoded validate with inl rep => (rep, s) | inr a => k a end.

Definition decoded_as {A} (msg : string) (decoded : string + A) (s : Server) (k : A -> reply * Server) : reply * Server :=
  match decoded with inl _ => (httpError msg 400, s) | inr a => k a end.

Definition userKey (tenantID username : string) : string := tenantID +:+ ":" +:+ username.

(** ** Persistence *)

Definition SaveUsersToStore (c : Call) (s : Server) : Server :=
  if put_ok c then with_saved (mkSaved (Some (persisted <$> Users s)) (saved_keys (saved s)) (saved_sessions (saved s))) s else s.
Definition SaveAPIKeysToStore (c : Call) (s : Server) : Server :=
  if put_ok c then with_saved (mkSaved (saved_users (saved s)) (Some (APIKeys s)) (saved_sessions (saved s))) s else s.
Definition SaveSessionsToStore (c : Call) (s : Server) : Server :=
  if put_ok c then with_saved (mkSaved (saved_users (saved s)) (saved_keys (saved s)) (Some (Sessions s))) s else s.

(** [get_ok]: which of the three objects could be read. *)
Definition LoadStateFromStore (get_ok : bool * bool * bool) (s : Server) : Server :=
  let '(ok_users, ok_keys, ok_sessions) := get_ok in
  let pick {A} (ok : bool) (o : option A) (old : A) := if ok then default old o else old in
  with_sessions (pick ok_sessions (saved_sessions (saved s)) (Sessions s))
    (with_keys (pick ok_keys (saved_keys (saved s)) (APIKeys s)) (with_users (pick ok_users (saved_users (saved s)) (Users s)) s)).

(** The key pair in use is the last one. *)
Definition add_pair (now now' : Z) (key : string * string) (s : Server) : string * Server :=
  let kid := "Pranor-key-" +:+ FormatInt now in
  (kid, with_pairs (JWKKeyPairs s ++ [mkPair kid key.1 key.2 now']) s).

(** A process that starts: [InitJWKS], then [InitStore]. *)
Definition InitJWKS (c : Call) (s : Server) : option Server :=
  match rsa_key c with None => None | Some key => Some (add_pair (clock c 0) (clock c 1) key s).2 end.

Definition empty_server (x : Saved) : Server := mkServer ∅ ∅ ∅ ∅ ∅ ∅ ∅ ∅ [] Kms.initial x [].

Definition start (c : Call) (get_ok : bool * bool * bool) (x : Saved) : option Server :=
  LoadStateFromStore get_ok <$> InitJWKS c (empty_server x).

(** ** Sessions *)

Definition IsSessionExpired (now : Z) (s : Session_) : bool := 24 * Hour <? Sub now (s_CreatedAt s).

Definition RecordFailedLogin (now : Z) (ip : string) (s : Server) : Server :=
  with_failed (<[ip := default [] (failedLoginsIP s !! ip) ++ [now]]> (failedLoginsIP s)) s.

Definition is_stuffing (now : Z) (attempts : list Z) : bool :=
  3 <=? Z.of_nat (length (List.filter (fun t => Sub now t <? 60 * Second) attempts)).

Definition GetStuffingIPs (now : Z) (s : Server) : list string :=
  (List.filter (fun kv => is_stuffing now kv.2) (map_to_list (failedLoginsIP s))).*1.

Definition GetActiveSessions (now : Z) (s : Server) : list Session_ :=
  List.filter (fun x => negb (s_Revoked x) && negb (IsSessionExpired now x)) (map_to_list (Sessions s)).*2.

Definition put_session (token username : string) (r : Request) (now : Z) (s : Server) : Server :=
  with_sessions (<[token := mkSession token username (RemoteAddr r) (Header r "User-Agent") now false]> (Sessions s)) s.

(** Hooks of the enterprise edition, not set in the open one. *)
Record MfaEngine := mkMfa { Setup : string -> string + string * string; Verify : string -> string -> bool }.
Record SocialAuthProvider := mkSocial { Redirect : Request -> string -> reply; Callback : Request -> string -> string -> string + string }.

Section Handlers.
Context `{jwt : Jwt} `{crypto : Crypto} `{json : Json} `{casing : Casing}.
(** The environment variables and the hooks. *)
Context (getenv : string -> string) (ActiveMfaEngine : option MfaEngine) (ActiveSocialProvider : option SocialAuthProvider)
  (ActiveStuffingDetector : option (Server -> bool * list string)).

Definition HashPassword (salt : option bytes) (password : string) : option string :=
  salt ≫= fun b => GenerateFromPassword b password.
Definition VerifyPassword (password hash : string) : bool := CompareHashAndPassword hash password.

(** ** Tokens *)

Definition jwt_secret : string := let secret := getenv "PRANOR_JWT_SECRET" in if bool_decide (secret = "") then "test-secret-key-12345" else secret.

Definition uses_rsa : bool := negb (bool_decide (getenv "PRANOR_JWKS_URL" = "")) || bool_decide (getenv "PRANOR_JWT_SIGNING_METHOD" = "RS256").

(** Signed with the key pair in use or the secret. *)
Definition sign_claims (claims : Claims) (s : Server) : option string :=
  if uses_rsa then match last (JWKKeyPairs s) with Some p => sign_RS256 (PrivateKey p) (KeyID p) claims | None => None end
  else sign_HS256 jwt_secret claims.

Definition user_token (t0 t1 : Z) (username tenantID : string) (s : Server) : option string :=
  sign_claims (user_claims t0 t1 username ["user"] tenantID (24 * Hour)) s.

(** [issueJWTForUser] from the clock readings [i] on. *)
Definition issueJWTForUser (c : Call) (i : nat) (username : string) : handler := fun r s =>
  match user_token (at_ c i) (at_ c (i + 1)) username (header_tenant r) s with
  | None => (httpError "Token generation failed" 500, s)
  | Some token =>
      let s := SaveSessionsToStore c (put_session token username r (at_ c (i + 2)) s) in
      (ok (PLogin token username), EmitAuditEvent "LOGIN_SUCCESS" username s)
  end.

(** ** Users *)

Definition HandleRegister (c : Call) : handler := only "POST" (fun r s =>
  validated (decode_register (Body r)) RegisterRequest_Validate s (fun req =>
    let tenantID := header_tenant r in
    let key := userKey tenantID (r_Username req) in
    match Users s !! key with
    | Some _ => (httpError "Username already exists in this tenant" 409, s)
    | None =>
        match random c 0 with
        | None => (httpError "Internal server error" 500, s)
        | Some saltBytes =>
            match HashPassword (random c 1) (r_Password req) with
            | None => (httpError "Internal server error" 500, s)
            | Some hashed =>
                let newUser := new_user (r_Username req) (r_Email req) hashed (hex saltBytes) (Some (at_ c 0)) tenantID in
                let s := SaveUsersToStore c (with_users (<[key := newUser]> (Users s)) s) in
                (mkReply 201 (Data (PUser newUser)), EmitAuditEvent "USER_REGISTER" (r_Username req) s)
            end
        end
    end)).

Definition locked (now : Z) (u : User) : bool := match u_LockedUntil u with Some until => now <? until | None => false end.

(** The address without its port. *)
Definition client_ip (addr : string) : string :=
  match bytes_Cut (byt addr) (byt ":") with Some ((_ :: _) as ip, _) => str ip | _ => addr end.

(** A login is two critical sections.  In the first the user is looked up
    and a locked account refused; the password is compared with the copy of
    the user made there. *)
Definition login_check (c : Call) (key : string) (s : Server) : reply + option User :=
  match Users s !! key with
  | Some user => if locked (at_ c 0) user then inl (mkReply 403 (Error "Account is locked due to multiple failed login attempts." "lockout")) else inr (Some user)
  | None => inr None
  end.

(** [Users[key]] with [key] missing is the zero value. *)
Definition zero_user : User := new_user "" "" "" "" None "".
Definition user_at (key : string) (s : Server) : User := default zero_user (Users s !! key).

Definition record_failure (c : Call) (key username : string) (s : Server) : Server :=
  let u := user_at key s in
  let n := wrap64 (u_FailedAttempts u + 1) in
  if 3 <=? n
  then EmitAuditEvent "ACCOUNT_LOCKED" username (with_users (<[key := set_attempts n (Some (at_ c 2 + 5 * Minute)) u]> (Users s)) s)
  else with_users (<[key := set_attempts n (u_LockedUntil u) u]> (Users s)) s.

Definition login_failed (c : Call) (r : Request) (key username : string) (s : Server) : reply * Server :=
  let s := RecordFailedLogin (at_ c 1) (client_ip (RemoteAddr r)) s in
  let s := SaveUsersToStore c (record_failure c key username s) in
  (httpError "Invalid username or password" 401, EmitAuditEvent "LOGIN_FAILED" username s).

Definition login_succeeded (c : Call) (r : Request) (key : string) (user : User) (s : Server) : reply * Server :=
  let s := SaveUsersToStore c (with_users (<[key := set_attempts 0 None (user_at key s)]> (Users s)) s) in
  match user_token (at_ c 3) (at_ c 4) (u_Username user) (header_tenant r) s with
  | None => (httpError "Token generation failed" 500, s)
  | Some token =>
      let s := SaveSessionsToStore c (put_session token (u_Username user) r (at_ c 5) s) in
      (ok (PLogin token (u_Username user)), EmitAuditEvent "USER_LOGIN" (u_Username user) s)
  end.

Definition login_finish (c : Call) (r : Request) (req : LoginRequest) (key : string) (user : option User) (s : Server) : reply * Server :=
  match user with
  | None => (httpError "Invalid username or password" 401, EmitAuditEvent "LOGIN_FAILED" (l_Username req) s)
  | Some user =>
      if VerifyPassword (l_Password req) (u_Password user) then login_succeeded c r key user s
      else login_failed c r key (l_Username req) s
  end.

Definition HandleLogin (c : Call) : handler := only "POST" (fun r s =>
  validated (decode_login (Body r)) LoginRequest_Validate s (fun req =>
    let key := userKey (header_tenant r) (l_Username req) in
    match login_check c key s with
    | inl rep => (rep, s)
    | inr user => login_finish c r req key user s
    end)).

(** ** OAuth tokens *)

Definition is_json (r : Request) : bool := bool_decide (Header r "Content-Type" = "application/json").

(** The form when the body is not JSON; credentials of the header when there
    is no client. *)
Definition grant_of (r : Request) : GrantRequest :=
  let g := if is_json r then match decode_grant (Body r) with inr g => g | inl _ => mkGrant "" "" "" end
           else mkGrant (FormValue r "client_id") (FormValue r "client_secret") (FormValue r "grant_type") in
  if bool_decide (g_ClientID g = "")
  then match BasicAuth r with Some (username, password) => mkGrant username password (g_GrantType g) | None => g end
  else g.

(** The second decoder reads what the first one has left of the body. *)
Definition refresh_token_of (c : Call) (r : Request) : string :=
  let token := FormValue r "refresh_token" in
  if bool_decide (token = "") && is_json r
  then match decode_field "refresh_token" (rest_of_body c) with inr t => t | inl _ => "" end
  else token.

Definition refresh_grant (c : Call) (r : Request) (s : Server) : reply * Server :=
  let refreshToken := refresh_token_of c r in
  if bool_decide (refreshToken = "") then (mkReply 400 (Error "refresh_token is required" "invalid_request"), s)
  else
    let refuse := (mkReply 401 (Error "refresh token is invalid, expired, or already used" "invalid_grant"), s) in
    match Sessions s !! refreshToken with
    | None => refuse
    | Some session =>
        if s_Revoked session || IsSessionExpired (at_ c 0) session then refuse
        else
          let s := SaveSessionsToStore c (with_sessions (<[refreshToken := revoke_session session]> (Sessions s)) s) in
          let tenantID := Header r "X-Tenant-ID" in
          let access := default "" (GenerateUserToken (at_ c 1) (at_ c 2) jwt_secret (s_Username session) ["user"] tenantID Hour) in
          let refresh := default "" (GenerateUserToken (at_ c 3) (at_ c 4) jwt_secret (s_Username session) ["user"] tenantID (24 * Hour)) in
          let s := SaveSessionsToStore c (put_session refresh (s_Username session) r (at_ c 5) s) in
          (ok (PGrant access refresh), s)
    end.

Definition client_claims (t0 t1 : Z) (clientID : string) : Claims :=
  mkClaims clientID ["client"] ["*"] "" "github.com/vyuvaraj/pranor/auth" clientID (NewNumericDate t0) (NewNumericDate (t1 + Hour)).

Definition HandleToken (c : Call) : handler := only "POST" (fun r s =>
  let g := grant_of r in
  if bool_decide (g_GrantType g = "refresh_token") then refresh_grant c r s
  else if negb (bool_decide (g_GrantType g = "client_credentials")) then (mkReply 400 (Error "" "unsupported_grant_type"), s)
  else if negb (ValidateClient (g_ClientID g) (g_ClientSecret g) Clients) then (mkReply 401 (Error "" "invalid_client"), s)
  else match sign_claims (client_claims (at_ c 0) (at_ c 1) (g_ClientID g)) s with
       | None => (httpError "Token generation failed" 500, s)
       | Some token => (ok (PGrant token token), SaveSessionsToStore c (put_session token (g_ClientID g) r (at_ c 2) s))
       end).

(** ** Reset of passwords *)

(** The key of one of the users that satisfy a condition. *)
Definition find_user (c : Call) (p : User -> bool) (s : Server) : option string :=
  let candidates := (List.filter (fun kv => p kv.2) (map_to_list (Users s))).*1 in
  candidates !! (choice c mod length candidates)%nat.

Definition HandleResetRequest (c : Call) : handler := only "POST" (fun r s =>
  validated (decode_field "email" (Body r)) ResetRequest_Validate s (fun email =>
    match find_user c (fun u => bool_decide (u_Email u = email)) s with
    | None => (ok (PText "Reset link sent if email exists"), s)
    | Some name =>
        let token := "rst-" +:+ FormatInt (at_ c 0) in
        let u := user_at name s in
        (ok (PToken token), SaveUsersToStore c (with_users (<[name := set_reset (u_Password u) token u]> (Users s)) s))
    end)).

Definition HandleResetConfirm (c : Call) : handler := only "POST" (fun r s =>
  validated (decode_confirm (Body r)) ResetConfirm_Validate s (fun req =>
    match find_user c (fun u => negb (bool_decide (u_ResetToken u = "")) && bool_decide (u_ResetToken u = c_Token req)) s with
    | None => (httpError "Invalid or expired token" 400, s)
    | Some name =>
        match HashPassword (random c 0) (c_Password req) with
        | None => (httpError "Internal server error" 500, s)
        | Some hashed =>
            (ok (PText "Password updated successfully"),
             SaveUsersToStore c (with_users (<[name := set_attempts 0 None (set_reset hashed "" (user_at name s))]> (Users s)) s))
        end
    end)).

(** ** Keys of clients *)

Definition hash_key (key : string) : string := hex (Sum256 (byt key)).

Definition HandleKeys (c : Call) : handler := only "POST" (fun r s =>
  decoded_as "Invalid payload" (decode_scopes (Body r)) s (fun '(username, scopes) =>
    let hexKey := hash_key ("key-" +:+ FormatInt (at_ c 0) +:+ "-" +:+ username) in
    let hashedKey := hash_key hexKey in
    let s := SaveAPIKeysToStore c (with_keys (<[hashedKey := mkKey hashedKey username scopes (at_ c 1) false]> (APIKeys s)) s) in
    (mkReply 201 (Data (PKey hexKey username scopes)), EmitAuditEvent "API_KEY_ISSUE" username s))).

Definition HandleKeysValidate : handler := only "POST" (fun r s =>
  decoded_as "Invalid payload" (decode_field "key" (Body r)) s (fun key =>
    match APIKeys s !! hash_key key with
    | Some apiKey => if k_Revoked apiKey then (httpError "Invalid API key" 401, s)
                     else (ok (PApiKey apiKey), EmitAuditEvent "API_KEY_VALIDATE" (k_Username apiKey) s)
    | None => (httpError "Invalid API key" 401, s)
    end)).

Definition HandleKeysRevoke (c : Call) : handler := only "POST" (fun r s =>
  decoded_as "Invalid payload" (decode_field "key" (Body r)) s (fun key =>
    match APIKeys s !! hash_key key with
    | None => (httpError "API key not found" 404, s)
    | Some k =>
        let s := SaveAPIKeysToStore c (with_keys (<[hash_key key := mkKey (k_Key k) (k_Username k) (k_Scopes k) (k_CreatedAt k) true]> (APIKeys s)) s) in
        (ok (PText "API key revoked"), EmitAuditEvent "API_KEY_REVOKE" (k_Username k) s)
    end)).

Definition HandleSessionsRevoke (c : Call) : handler := only "POST" (fun r s =>
  decoded_as "Invalid payload" (decode_field "token" (Body r)) s (fun token =>
    match Sessions s !! token with
    | Some session =>
        if IsSessionExpired (at_ c 0) session then (httpError "store.Session not found" 404, SaveSessionsToStore c s)
        else
          let s := SaveSessionsToStore c (with_sessions (<[token := revoke_session session]> (Sessions s)) s) in
          (ok (PText "store.Session revoked successfully"), EmitAuditEvent "SESSION_REVOKE" (s_Username session) s)
    | None => (httpError "store.Session not found" 404, SaveSessionsToStore c s)
    end)).

(** ** Second factors *)

Definition two_fields (f g : string) (body : string) : string + string * string :=
  match decode_field f body, decode_field g body with
  | inr a, inr b => inr (a, b)
  | inl e, _ | _, inl e => inl e
  end.

Definition HandleMfaSetup (c : Call) : handler := only "POST" (fun r s =>
  match ActiveMfaEngine with
  | None => (httpError "MFA is an Enterprise Edition feature." 501, s)
  | Some engine =>
      decoded_as "Invalid payload" (decode_field "username" (Body r)) s (fun username =>
        let key := userKey (header_tenant r) username in
        match Users s !! key with
        | None => (httpError "store.User not found" 404, s)
        | Some user =>
            match Setup engine username with
            | inl err => (httpError err 500, s)
            | inr (secret, url) =>
                let s := SaveUsersToStore c (with_users (<[key := set_mfa secret (u_MFAEnabled user) user]> (Users s)) s) in
                (ok (PMfa secret username url), EmitAuditEvent "MFA_SETUP" username s)
            end
        end)
  end).

Definition HandleMfaVerify (c : Call) : handler := only "POST" (fun r s =>
  match ActiveMfaEngine with
  | None => (httpError "MFA is an Enterprise Edition feature." 501, s)
  | Some engine =>
      decoded_as "Invalid payload" (two_fields "username" "code" (Body r)) s (fun '(username, code) =>
        let key := userKey (header_tenant r) username in
        match Users s !! key with
        | None => (httpError "store.User not found" 404, s)
        | Some user =>
            if Verify engine (u_MFASecret user) code then
              let s := SaveUsersToStore c (with_users (<[key := set_mfa (u_MFASecret user) true user]> (Users s)) s) in
              (ok (PText "MFA verified and enabled successfully"), EmitAuditEvent "MFA_VERIFY" username s)
            else (httpError "Invalid verification code" 401, s)
        end)
  end).

(** ** Social login *)

Definition HandleSocialLogin : handler := fun r s =>
  let provider := Query r "provider" in
  if negb (bool_decide (provider = "google")) && negb (bool_decide (provider = "github")) then (httpError "Unsupported provider" 400, s)
  else match ActiveSocialProvider with
       | None => (httpError "Social authentication is an Enterprise Edition feature." 501, s)
       | Some p => (Redirect p r provider, s)
       end.

Definition HandleSocialCallback (c : Call) : handler := only "POST" (fun r s =>
  decoded_as "Invalid payload" (two_fields "provider" "code" (Body r)) s (fun '(provider, code) =>
    if bool_decide (code = "") || (len code <? 4) then (httpError "Invalid auth code" 400, s)
    else match ActiveSocialProvider with
         | None => (httpError "Social authentication is an Enterprise Edition feature." 501, s)
         | Some p =>
             match Callback p r provider code with
             | inl err => (httpError err 401, s)
             | inr username =>
                 let s := match Users s !! username with
                          | Some _ => s
                          | None => SaveUsersToStore c (with_users (<[username := new_user username "" "hash-social" "salt-social" None ""]> (Users s)) s)
                          end in
                 let tenantID := default "" (ctx_tenant r) in
                 let tenantID := if bool_decide (tenantID = "") then "default" else tenantID in
                 match user_token (at_ c 0) (at_ c 1) username tenantID s with
                 | None => (httpError "Token generation failed" 500, s)
                 | Some token => (ok (PLogin token username), s)
                 end
             end
         end)).

(** ** Listings *)

Definition HandleUsers : handler := only "GET" (fun r s =>
  (ok (PUsers ((fun u => (u_Username u, u_Email u, u_TenantID u, u_MFAEnabled u)) <$>
     List.filter (fun u => bool_decide (u_TenantID u = header_tenant r)) (map_to_list (Users s)).*2)), s)).

Definition HandleUsersRoles : handler := only "POST" (fun r s =>
  decoded_as "Invalid payload" (decode_scopes (Body r)) s (fun '(username, scopes) =>
    match Users s !! userKey (header_tenant r) username with
    | None => (httpError "store.User not found" 404, s)
    | Some user => (ok (PScopes (u_Username user) scopes), s)
    end)).

Definition HandleSessions (c : Call) : handler := only "GET" (fun r s => (ok (PSessions (GetActiveSessions (at_ c 0) s)), s)).

(** ** Secrets

    The text of the error that follows the message is left out. *)

Definition HandleSecretsEncrypt (c : Call) : handler := only "POST" (fun r s =>
  decoded_as "Invalid payload" (decode_field "plaintext" (Body r)) s (fun plaintext =>
    match Kms.EncryptAES getenv (random c 0) plaintext (kms s) with
    | None => (httpError "Encryption failed" 500, s)
    | Some ciphertext => (ok (PText ciphertext), EmitAuditEvent "SECRET_ENCRYPT" "system" s)
    end)).

Definition HandleSecretsDecrypt : handler := only "POST" (fun r s =>
  decoded_as "Invalid payload" (two_fields "ciphertext" "encrypted_data_key" (Body r)) s (fun '(ciphertext, _) =>
    match Kms.DecryptAES getenv ciphertext (kms s) with
    | None => (httpError "Decryption failed" 400, s)
    | Some plaintext => (ok (PText plaintext), EmitAuditEvent "SECRET_DECRYPT" "system" s)
    end)).

(** ** Signing keys *)

Definition HandleJWKS : handler := only "GET" (fun r s => (ok (PJwks ((fun p => (KeyID p, PublicKey p)) <$> JWKKeyPairs s)), s)).

Definition HandleRotateJWKS (c : Call) : handler := only "POST" (fun r s =>
  match rsa_key c with
  | None => (httpError "Key generation failed" 500, s)
  | Some key => let '(kid, s) := add_pair (at_ c 0) (at_ c 1) key s in (ok (PText kid), EmitAuditEvent "JWKS_ROTATE" "system" s)
  end).

(** ** Risk *)

Definition differs (old new : string) : bool :=
  negb (bool_decide (old = "")) && negb (bool_decide (new = "")) && negb (bool_decide (old = new)).

Definition risk_score (now : Z) (req : RiskScoreRequest) (user : User) : Z :=
  let hour := match rs_Hour req with Some h => h | None => Hour_of now end in
  (if differs (u_LastDevice user) (rs_Device req) then 3 else 0) +
  (if differs (u_LastCountry user) (rs_Country req) then 5 else 0) +
  (if (0 <=? hour) && (hour <=? 5) then 2 else 0).

Definition replaced (old new : string) : string := if bool_decide (new = "") then old else new.

Definition HandleAdaptiveRiskScore (c : Call) : handler := only "POST" (fun r s =>
  validated (decode_risk (Body r)) no_validation s (fun req =>
    if bool_decide (rs_Username req = "") then (httpError "Username is required" 400, s)
    else
      let key := userKey (header_tenant r) (rs_Username req) in
      match Users s !! key with
      | None => (ok (PRisk 2 false), s)
      | Some user =>
          let score := risk_score (at_ c 0) req user in
          let s :=
            if negb (bool_decide (rs_Device req = "")) || negb (bool_decide (rs_Country req = "")) then
              let u := user_at key s in
              SaveUsersToStore c (with_users (<[key := set_seen (replaced (u_LastDevice u) (rs_Device req)) (replaced (u_LastCountry u) (rs_Country req)) u]> (Users s)) s)
            else s in
          (ok (PRisk score (5 <=? score)), s)
      end)).

Definition HandleCredentialStuffing : handler := fun r s =>
  match ActiveStuffingDetector with
  | None => (httpError "Credential stuffing detection is an Enterprise Edition feature." 501, s)
  | Some detect => let '(detected, ips) := detect s in (ok (PStuffing detected ips), s)
  end.

Definition step_up_score (req : StepUpRequest) : float64 :=
  let score := float_of_ratio 1 10 in
  let agent := lower (su_UserAgent req) in
  let score := if Contains agent "curl" || Contains agent "python" then fadd score (float_of_ratio 4 10) else score in
  if negb (bool_decide (su_Location req = "")) && negb (bool_decide (su_Location req = "us-east-1")) then fadd score (float_of_ratio 4 10) else score.

Definition HandleAdaptiveMfaStepUp : handler := fun r s =>
  if negb (bool_decide (Method r = "POST")) then (httpError "Method not allowed" 405, s)
  else decoded_as "Invalid request payload" (decode_step_up (Body r)) s (fun req =>
    let score := step_up_score req in (ok (PStepUp (su_Username req) score (fltb (float_of_ratio 5 10) score)), s)).

(** ** Links and passkeys *)

Definition getUserByEmail (c : Call) (email : string) (s : Server) : option string :=
  u_Username <$> (find_user c (fun u => bool_decide (u_Email u = email)) s ≫= fun k => Users s !! k).

Definition HandleMagicLinkRequest (c : Call) : handler := only "POST" (fun r s =>
  validated (decode_field "email" (Body r)) no_validation s (fun email =>
    if bool_decide (email = "") then (httpError "Email is required" 400, s)
    else match getUserByEmail c email s with
         | None => (httpError "User not found" 404, s)
         | Some username =>
             match random c 0 with
             | None => (httpError "Internal Server Error" 500, s)
             | Some b => (ok (PToken (hex b)), with_magic (<[hex b := username]> (magicTokens s)) s)
             end
         end)).

Definition HandleMagicLinkVerify (c : Call) : handler := fun r s =>
  let token := Query r "token" in
  let token := if bool_decide (token = "") then match decode_field "token" (Body r) with inr t => t | inl _ => "" end else token in
  if bool_decide (token = "") then (httpError "Token is required" 400, s)
  else match magicTokens s !! token with
       | None => (httpError "Invalid or expired token" 401, s)
       | Some username => issueJWTForUser c 0 username r (with_magic (delete token (magicTokens s)) s)
       end.

Definition new_challenge (c : Call) (username : string) (s : Server) : reply * Server :=
  match random c 0 with
  | None => (httpError "Internal Server Error" 500, s)
  | Some b =>
      let challenge := str (base64_raw b) in
      (ok (PChallenge challenge), with_challenges (<[username := challenge]> (passkeyChallenges s)) s)
  end.

(** The challenge of a user is taken away; was it the one presented? *)
Definition take_challenge (username challenge : string) (s : Server) : bool * Server :=
  match passkeyChallenges s !! username with
  | None => (false, s)
  | Some saved => (bool_decide (saved = challenge), with_challenges (delete username (passkeyChallenges s)) s)
  end.

Definition HandlePasskeyRegisterChallenge (c : Call) : handler := fun r s =>
  match ctx_claims r with
  | None => (httpError "Unauthorized" 401, s)
  | Some claims => new_challenge c (Username claims) s
  end.

Definition HandlePasskeyRegisterVerify (c : Call) : handler := fun r s =>
  match ctx_claims r with
  | None => (httpError "Unauthorized" 401, s)
  | Some claims =>
      validated (decode_passkey_register (Body r)) no_validation s (fun req =>
        match take_challenge (Username claims) (pr_Challenge req) s with
        | (false, s) => (httpError "Invalid challenge" 400, s)
        | (true, s) =>
            let key := userKey (header_tenant r) (Username claims) in
            match Users s !! key with
            | None => (httpError "User not found" 404, s)
            | Some user =>
                (ok (PText "success"),
                 SaveUsersToStore c (with_users (<[key := set_passkey (pr_CredentialID req) (pr_PublicKey req) user]> (Users s)) s))
            end
        end)
  end.

Definition HandlePasskeyLoginChallenge (c : Call) : handler := fun r s =>
  validated (decode_field "username" (Body r)) no_validation s (fun username =>
    if bool_decide (username = "") then (httpError "Username is required" 400, s) else new_challenge c username s).

Definition HandlePasskeyLoginVerify (c : Call) : handler := fun r s =>
  validated (decode_passkey_login (Body r)) no_validation s (fun req =>
    match take_challenge (pl_Username req) (pl_Challenge req) s with
    | (false, s) => (httpError "Invalid challenge" 400, s)
    | (true, s) =>
        let refuse := (httpError "Passkey not registered for user" 404, s) in
        match Users s !! userKey (header_tenant r) (pl_Username req) with
        | None => refuse
        | Some user =>
            if bool_decide (u_PasskeyID user = "") then refuse
            else if bool_decide (pl_Signature req = "") then (httpError "Invalid signature" 401, s)
            else issueJWTForUser c 0 (pl_Username req) r s
        end
    end).

(** ** Provisioning *)

Definition scim_schema : list string := ["urn:ietf:params:scim:schemas:core:2.0:User"].

Definition scim_of (u : User) : SCIMUser := mkSCIM scim_schema (u_Username u) (u_Username u) [(u_Email u, true)] true.

Definition scim_id (path : string) : string := TrimPrefix (TrimPrefix path "/scim/v2/Users") "/".

Definition scim_get (r : Request) (s : Server) : reply * Server :=
  let id := scim_id (Path r) in
  if negb (bool_decide (id = "")) then
    match Users s !! userKey (header_tenant r) id with
    | None => (httpError "User not found" 404, s)
    | Some user => (ok (PScim (scim_of user)), s)
    end
  else (ok (PScimList (scim_of <$> List.filter (fun u => bool_decide (u_TenantID u = header_tenant r)) (map_to_list (Users s)).*2)), s).

Definition scim_post (c : Call) (r : Request) (s : Server) : reply * Server :=
  decoded_as "Invalid request payload" (decode_scim (Body r)) s (fun x =>
    if bool_decide (sc_UserName x = "") then (httpError "userName is required" 400, s)
    else
      let email := match sc_Emails x with (e, _) :: _ => e | [] => "" end in
      let key := userKey (header_tenant r) (sc_UserName x) in
      match Users s !! key with
      | Some _ => (httpError "User already exists" 409, s)
      | None =>
          let pwd := default "" (HashPassword (random c 0) "SCIMGeneratedPassword123!") in
          let s := SaveUsersToStore c (with_users (<[key := new_user (sc_UserName x) email pwd "" (Some (at_ c 0)) (header_tenant r)]> (Users s)) s) in
          (mkReply 201 (Data (PScim (mkSCIM scim_schema (sc_UserName x) (sc_UserName x) (sc_Emails x) true))), s)
      end).

Definition scim_put (c : Call) (r : Request) (s : Server) : reply * Server :=
  let id := scim_id (Path r) in
  if bool_decide (id = "") then (httpError "id is required for update" 400, s)
  else decoded_as "Invalid request payload" (decode_scim (Body r)) s (fun x =>
    let key := userKey (header_tenant r) id in
    match Users s !! key with
    | None => (httpError "User not found" 404, s)
    | Some user =>
        let user := match sc_Emails x with (e, _) :: _ => set_email e user | [] => user end in
        let s := SaveUsersToStore c (with_users (<[key := user]> (Users s)) s) in
        (ok (PScim (mkSCIM scim_schema id id (sc_Emails x) true)), s)
    end).

Definition scim_delete (c : Call) (r : Request) (s : Server) : reply * Server :=
  let id := scim_id (Path r) in
  if bool_decide (id = "") then (httpError "id is required for delete" 400, s)
  else
    let key := userKey (header_tenant r) id in
    match Users s !! key with
    | None => (httpError "User not found" 404, s)
    | Some _ => (mkReply 204 (Data PEmpty), SaveUsersToStore c (with_users (delete key (Users s)) s))
    end.

Definition HandleSCIMUsers (c : Call) : handler := fun r s =>
  if bool_decide (Method r = "GET") then scim_get r s
  else if bool_decide (Method r = "POST") then scim_post c r s
  else if bool_decide (Method r = "PUT") then scim_put c r s
  else if bool_decide (Method r = "DELETE") then scim_delete c r s
  else (method_not_allowed, s).

(** ** Devices and federation *)

(** A missing entry and one without devices are the same nil slice. *)
Definition HandleTrustedDevices (c : Call) : handler := fun r s =>
  let username := if bool_decide (Query r "username" = "") then "default-user" else Query r "username" in
  let devs := default [] (userDevices s !! username) in
  if bool_decide (Method r = "GET") then
    match devs with
    | [] => let devs := [mkDevice "dev-1" "Mozilla/5.0 (Macintosh)" "192.168.1.1" true (at_ c 0)] in
            (ok (PDevices username devs), with_devices (<[username := devs]> (userDevices s)) s)
    | devs => (ok (PDevices username devs), s)
    end
  else if bool_decide (Method r = "DELETE") then
    let deviceID := Query r "device_id" in
    (ok (PText deviceID),
     if bool_decide (deviceID = "") then s
     else with_devices (<[username := List.filter (fun d => negb (bool_decide (d_ID d = deviceID))) devs]> (userDevices s)) s)
  else (httpError "Method not allowed" 405, s).

Definition default_provider (tenantID : string) : TenantOIDCProvider :=
  mkProvider tenantID "Okta" "https://dev-example.okta.com/oauth2/default" "okta-client-id-99"
    (list_to_map [("Engineering", "admin"); ("Developers", "developer")]).

Definition HandleTenantOidCFederation : handler := fun r s =>
  let tenantID := if bool_decide (Query r "tenant_id" = "") then "default" else Query r "tenant_id" in
  if bool_decide (Method r = "POST") then
    decoded_as "Invalid payload" (decode_provider (Body r)) s (fun cfg =>
      let cfg := mkProvider tenantID (ProviderName cfg) (IssuerURL cfg) (o_ClientID cfg) (AutoRoleMap cfg) in
      (ok (PProvider cfg), with_oidc (<[tenantID := cfg]> (tenantOidcMap s)) s))
  else if bool_decide (Method r = "GET") then
    match tenantOidcMap s !! tenantID with
    | Some cfg => (ok (PProvider cfg), s)
    | None => (ok (PProvider (default_provider tenantID)), with_oidc (<[tenantID := default_provider tenantID]> (tenantOidcMap s)) s)
    end
  else (httpError "Method not allowed" 405, s).

(** ** The server *)

Definition RevocationMiddleware (next : handler) : handler := fun r s =>
  let authHeader := Header r "Authorization" in
  let revoked :=
    if bool_decide (authHeader = "") then false
    else match ExtractTokenFromHeader authHeader with
         | inl _ => false
         | inr token => match Sessions s !! token with Some session => s_Revoked session | None => false end
         end in
  if revoked then (mkReply 401 (Error "Session has been revoked." "ERR_SESSION_REVOKED"), s) else next r s.

(** The routes of the multiplexer, the paths as they are registered. *)
Definition routes (c : Call) : list (string * handler) :=
  [("/healthz", fun _ s => (ok (PText "ok"), s));
   ("/health", fun _ s => (ok (PText "OK"), s));
   ("/api/auth/register", HandleRegister c);
   ("/api/auth/login", HandleLogin c);
   ("/api/auth/jwks", HandleJWKS);
   ("/.well-known/jwks.json", HandleJWKS);
   ("/api/auth/rotate-keys", HandleRotateJWKS c);
   ("/api/auth/reset-password/request", HandleResetRequest c);
   ("/api/auth/reset-password/confirm", HandleResetConfirm c);
   ("/oauth/token", HandleToken c);
   ("/api/auth/keys", HandleKeys c);
   ("/api/auth/keys/validate", HandleKeysValidate);
   ("/api/auth/keys/revoke", HandleKeysRevoke c);
   ("/api/auth/sessions/revoke", HandleSessionsRevoke c);
   ("/api/auth/mfa/setup", HandleMfaSetup c);
   ("/api/auth/mfa/verify", HandleMfaVerify c);
   ("/api/auth/social/login", HandleSocialLogin);
   ("/api/auth/social/callback", HandleSocialCallback c);
   ("/api/auth/users", HandleUsers);
   ("/api/auth/users/roles", HandleUsersRoles);
   ("/api/auth/sessions", HandleSessions c);
   ("/api/auth/secrets/encrypt", HandleSecretsEncrypt c);
   ("/api/auth/secrets/decrypt", HandleSecretsDecrypt);
   ("/api/auth/risk", HandleAdaptiveRiskScore c);
   ("/api/auth/security/stuffing-detector", HandleCredentialStuffing);
   ("/api/auth/magic-link/request", HandleMagicLinkRequest c);
   ("/api/auth/magic-link/verify", HandleMagicLinkVerify c);
   ("/api/auth/passkey/register/challenge", HandlePasskeyRegisterChallenge c);
   ("/api/auth/passkey/register/verify", HandlePasskeyRegisterVerify c);
   ("/api/auth/passkey/login/challenge", HandlePasskeyLoginChallenge c);
   ("/api/auth/passkey/login/verify", HandlePasskeyLoginVerify c);
   ("/api/auth/mfa/step-up", HandleAdaptiveMfaStepUp);
   ("/api/auth/devices", HandleTrustedDevices c);
   ("/api/auth/federation/oidc", HandleTenantOidCFederation);
   ("/scim/v2/Users", HandleSCIMUsers c)].

(** Of the registered paths only the provisioning one is also a prefix.  The
    version endpoints, which reply with constants, are left out. *)
Definition mux (c : Call) : handler := fun r s =>
  match List.find (fun x => bool_decide (x.1 = Path r)) (routes c) with
  | Some (_, h) => h r s
  | None => if HasPrefix (Path r) "/scim/v2/Users/" then HandleSCIMUsers c r s else (mkReply 404 (Error "404 page not found" ""), s)
  end.

Definition v1_path (path : string) : string :=
  if HasPrefix path "/api/v1/oauth/" then "/oauth/" +:+ TrimPrefix path "/api/v1/oauth/"
  else if HasPrefix path "/api/v1/" then "/api/" +:+ TrimPrefix path "/api/v1/"
  else path.

Definition v1Wrapper (c : Call) : handler := fun r s => mux c (with_path (v1_path (Path r)) r) s.

(** Behind the authentication of [core]; the validator keeps its cache of
    keys. *)
Definition serve (c : Call) (fetched : string + list (string * string)) : Request -> AuthValidator * Server -> reply * (AuthValidator * Server) :=
  AuthMiddleware (getenv "PRANOR_JWT_SECRET") (getenv "PRANOR_JWKS_URL") (fun n => clock c (1 + n)) fetched
    (RevocationMiddleware (TenantMiddleware (v1Wrapper c))).
End Handlers.
