(* ===== verification/AuthProps.v ===== *)
(** * The authentication service: what its handlers preserve

    Runs of the service are lists of events: requests that it serves,
    rotations of the encryption keys, restarts.  One lemma says what each
    handler can do to the users, one what it can do to the sessions; the
    theorems follow for runs. *)

From S2P Require Import Prelude GoStrings GoNumbers GoTime GoFloat Core AuthStores Auth.
Local Open Scope string_scope.
Local Open Scope Z_scope.
Local Open Scope list_scope.

Section Props.
Context `{jwt : Jwt} `{crypto : Crypto} `{json : Json} `{casing : Casing}.
Context (getenv : string -> string) (mfa : option MfaEngine) (social : option SocialAuthProvider)
  (detector : option (Server -> bool * list string)).

(** ** Users *)

(** Two versions of a user that differ in neither name, tenant, password nor
    the counting of failures. *)
Definition kept (u u' : User) : Prop :=
  u_Username u' = u_Username u /\ u_TenantID u' = u_TenantID u /\ u_Password u' = u_Password u /\
  u_FailedAttempts u' = u_FailedAttempts u /\ u_LockedUntil u' = u_LockedUntil u.

(** The users of one tenant, at most one of them, changed. *)
Inductive user_change (tenant : string) (m m' : gmap string User) : Prop :=
| uc_same : m' = m -> user_change tenant m m'
| uc_update name u u' : m !! userKey tenant name = Some u -> m' = <[userKey tenant name := u']> m -> kept u u' -> user_change tenant m m'
| uc_create name u' : m !! userKey tenant name = None -> m' = <[userKey tenant name := u']> m -> u_TenantID u' = tenant -> u_Username u' = name ->
    user_change tenant m m'.

Lemma Users_save_users c s : Users (SaveUsersToStore c s) = Users s.
Proof. unfold SaveUsersToStore. by destruct (put_ok c). Qed.
Lemma Users_save_sessions c s : Users (SaveSessionsToStore c s) = Users s.
Proof. unfold SaveSessionsToStore. by destruct (put_ok c). Qed.
Lemma Users_save_keys c s : Users (SaveAPIKeysToStore c s) = Users s.
Proof. unfold SaveAPIKeysToStore. by destruct (put_ok c). Qed.
Lemma user_at_some key s u : Users s !! key = Some u -> user_at key s = u.
Proof. unfold user_at. by intros ->. Qed.

Lemma issue_users c i name r s : Users (issueJWTForUser getenv c i name r s).2 = Users s.
Proof. unfold issueJWTForUser. case_match; cbn; [|done]. by rewrite Users_save_sessions. Qed.
Lemma challenge_users c name s : Users (new_challenge c name s).2 = Users s.
Proof. unfold new_challenge. by case_match. Qed.
Lemma take_challenge_users name ch s b s' : take_challenge name ch s = (b, s') -> Users s' = Users s.
Proof. unfold take_challenge. case_match; by intros [= <- <-]. Qed.
Lemma refresh_users c r s : Users (refresh_grant getenv c r s).2 = Users s.
Proof. unfold refresh_grant. repeat case_match; cbn; rewrite ?Users_save_sessions; cbn; rewrite ?Users_save_sessions; done. Qed.

(** Splits a handler at its conditions. *)
Ltac open_handler :=
  unfold only, validated, decoded_as, DecodeAndValidateJSON, no_validation; cbn zeta; repeat case_match; simplify_eq; cbn [snd fst];
  repeat match goal with H : take_challenge _ _ _ = _ |- _ => apply take_challenge_users in H end.

Ltac users :=
  repeat first [rewrite Users_save_users|rewrite Users_save_sessions|rewrite Users_save_keys|rewrite issue_users
               |rewrite challenge_users|rewrite refresh_users|progress cbn].

Ltac user_step := users; first
  [ apply uc_same; congruence
  | eapply uc_update; [eassumption|reflexivity|done]
  | eapply uc_create; [eassumption|reflexivity|done|done] ].

Definition preserves_users (h : handler) : Prop := forall r s, user_change (header_tenant r) (Users s) (Users (h r s).2).

Lemma register_users c : preserves_users (HandleRegister c).
Proof. intros r s. unfold HandleRegister. open_handler; user_step. Qed.
Lemma token_users c : preserves_users (HandleToken getenv c).
Proof. intros r s. unfold HandleToken. open_handler; user_step. Qed.
Lemma mfa_setup_users c : preserves_users (HandleMfaSetup mfa c).
Proof. intros r s. unfold HandleMfaSetup. open_handler; user_step. Qed.
Lemma mfa_verify_users c : preserves_users (HandleMfaVerify mfa c).
Proof. intros r s. unfold HandleMfaVerify. open_handler; user_step. Qed.
Lemma risk_users c : preserves_users (HandleAdaptiveRiskScore c).
Proof.
  intros r s. unfold HandleAdaptiveRiskScore. open_handler; try user_step. users.
  match goal with H : Users _ !! _ = Some _ |- _ => rewrite (user_at_some _ _ _ H) end. user_step.
Qed.
Lemma passkey_register_users c : preserves_users (HandlePasskeyRegisterVerify c).
Proof.
  intros r s. unfold HandlePasskeyRegisterVerify. open_handler; try user_step. users.
  match goal with H : Users _ = Users _ |- _ => rewrite H in * end. user_step.
Qed.

Create HintDb auth_handlers.
#[local] Hint Unfold HandleJWKS HandleRotateJWKS HandleKeys HandleKeysValidate HandleKeysRevoke HandleSessionsRevoke HandleSocialLogin HandleUsers
  HandleUsersRoles HandleSessions HandleSecretsEncrypt HandleSecretsDecrypt HandleCredentialStuffing HandleMagicLinkRequest HandleMagicLinkVerify
  HandlePasskeyRegisterChallenge HandlePasskeyLoginChallenge HandlePasskeyLoginVerify HandleAdaptiveMfaStepUp HandleTrustedDevices
  HandleTenantOidCFederation add_pair : auth_handlers.

Definition login_path : string := "/api/auth/login".
Definition request_path : string := "/api/auth/reset-password/request".
Definition confirm_path : string := "/api/auth/reset-password/confirm".
Definition social_path : string := "/api/auth/social/callback".
Definition scim_path : string := "/scim/v2/Users".

(** All routes but five change users only of the tenant of the request, and
    keep what a login looks at. *)
Inductive route_effect (c : Call) (x : string * handler) : Prop :=
| re_plain : preserves_users x.2 -> x.1 ∉ [login_path; request_path; confirm_path; social_path; scim_path] -> route_effect c x
| re_login : x = (login_path, HandleLogin getenv c) -> route_effect c x
| re_request : x = (request_path, HandleResetRequest c) -> route_effect c x
| re_confirm : x = (confirm_path, HandleResetConfirm c) -> route_effect c x
| re_social : x = (social_path, HandleSocialCallback getenv social c) -> route_effect c x
| re_scim : x = (scim_path, HandleSCIMUsers c) -> route_effect c x.

Lemma plain_routes c : Forall (route_effect c) (routes getenv mfa social detector c).
Proof.
  unfold routes. repeat (apply Forall_cons; split); [..|apply Forall_nil_2].
  all: first
    [ by apply re_login | by apply re_request | by apply re_confirm | by apply re_social | by apply re_scim
    | apply re_plain; [|by apply (bool_decide_unpack _)]; cbn [snd]; first
      [ apply register_users | apply token_users | apply mfa_setup_users | apply mfa_verify_users | apply risk_users | apply passkey_register_users
      | intros r s; autounfold with auth_handlers; open_handler; user_step ] ].
Qed.

(** *** The special routes *)

(** The user after a failed login. *)
Definition after_failure (c : Call) (u : User) : User :=
  let n := wrap64 (u_FailedAttempts u + 1) in
  set_attempts n (if 3 <=? n then Some (at_ c 2 + 5 * Minute) else u_LockedUntil u) u.

(** The message of an error. *)
Definition said (rep : reply) : option string := match content rep with Error m _ => Some m | Data _ => None end.

Definition wrong_message : string := "Invalid username or password".
Definition lockout_message : string := "Account is locked due to multiple failed login attempts.".
Definition token_message : string := "Token generation failed".

Definition wrong_password : reply := httpError wrong_message 401.
Definition lockout : reply := mkReply 403 (Error lockout_message "lockout").

(** The user whose account a request tries to use, with the password. *)
Definition login_of (r : Request) : option (string * string) :=
  if bool_decide (Method r = "POST") then
    match decode_login (Body r) with
    | inr req => if LoginRequest_Validate req is None then Some (userKey (header_tenant r) (l_Username req), l_Password req) else None
    | inl _ => None
    end
  else None.

(** What a login does: nothing, or it compares the password of a user that is
    not locked and counts. *)
Inductive login_effect (c : Call) (r : Request) (s : Server) : reply * Server -> Prop :=
| le_refused rep : login_of r = None -> Status rep <> 200 -> login_effect c r s (rep, s)
| le_locked key p u : login_of r = Some (key, p) -> Users s !! key = Some u -> locked (at_ c 0) u = true -> login_effect c r s (lockout, s)
| le_unknown key p s' : login_of r = Some (key, p) -> Users s !! key = None -> Users s' = Users s -> login_effect c r s (wrong_password, s')
| le_wrong key p u s' : login_of r = Some (key, p) -> Users s !! key = Some u -> locked (at_ c 0) u = false ->
    VerifyPassword p (u_Password u) = false -> Users s' = <[key := after_failure c u]> (Users s) -> login_effect c r s (wrong_password, s')
| le_right key p u rep s' : login_of r = Some (key, p) -> Users s !! key = Some u -> locked (at_ c 0) u = false ->
    VerifyPassword p (u_Password u) = true -> Users s' = <[key := set_attempts 0 None u]> (Users s) -> said rep ∈ [None; Some token_message] ->
    login_effect c r s (rep, s').

Lemma login_effects c r s : login_effect c r s (HandleLogin getenv c r s).
Proof.
  unfold HandleLogin, only. destruct (decide (Method r = "POST")) as [Hm|Hm].
  2:{ rewrite bool_decide_false by done. apply le_refused; [unfold login_of; by rewrite bool_decide_false|done]. }
  rewrite bool_decide_true by done. unfold validated, DecodeAndValidateJSON.
  destruct (decode_login (Body r)) as [err|req] eqn:Hd.
  { apply le_refused; [unfold login_of; by rewrite bool_decide_true, Hd|done]. }
  destruct (LoginRequest_Validate req) as [err|] eqn:Hv.
  { apply le_refused; [unfold login_of; by rewrite bool_decide_true, Hd, Hv|done]. }
  assert (Hl : login_of r = Some (userKey (header_tenant r) (l_Username req), l_Password req)).
  { unfold login_of. by rewrite bool_decide_true, Hd, Hv. }
  unfold login_check. destruct (Users s !! userKey (header_tenant r) (l_Username req)) as [u|] eqn:Hu; [|by eapply le_unknown].
  destruct (locked (at_ c 0) u) eqn:Hlk; [by eapply le_locked|]. unfold login_finish.
  destruct (VerifyPassword (l_Password req) (u_Password u)) eqn:Hp.
  - unfold login_succeeded. rewrite (user_at_some _ _ _ Hu).
    destruct (user_token _ _ _ _ _ _) as [t|]; (eapply le_right; [done|done|done|done|users; done|by apply (bool_decide_unpack _)]).
  - unfold login_failed. eapply le_wrong; eauto. users. unfold record_failure.
    rewrite (user_at_some (userKey (header_tenant r) (l_Username req)) (RecordFailedLogin _ _ s) u Hu).
    unfold after_failure. destruct (3 <=? wrap64 (u_FailedAttempts u + 1)) eqn:E; cbn; by rewrite ?E.
Qed.

Lemma find_user_some c p s name : find_user c p s = Some name -> exists u, Users s !! name = Some u /\ p u = true.
Proof.
  unfold find_user. intros Hn%list_elem_of_lookup_2. apply list_elem_of_fmap in Hn as ([k u] & -> & Hin).
  apply list_elem_of_In, List.filter_In in Hin as [Hin Hp]. exists u. split; [|done].
  by apply elem_of_map_to_list, list_elem_of_In.
Qed.

Lemma reset_request_users c r s : Users (HandleResetRequest c r s).2 = Users s \/
  exists name u u', Users s !! name = Some u /\ Users (HandleResetRequest c r s).2 = <[name := u']> (Users s) /\ kept u u'.
Proof.
  unfold HandleResetRequest. open_handler; try by left. right. users.
  match goal with H : find_user _ _ _ = Some ?n |- _ => destruct (find_user_some _ _ _ _ H) as (u & Hu & _) end.
  rewrite (user_at_some _ _ _ Hu). by eexists _, u, _.
Qed.

Lemma social_users c r s : Users (HandleSocialCallback getenv social c r s).2 = Users s \/
  exists name u', Users s !! name = None /\ Users (HandleSocialCallback getenv social c r s).2 = <[name := u']> (Users s).
Proof.
  unfold HandleSocialCallback. open_handler; users; try by left.
  all: match goal with H : Users _ !! _ = _ |- _ => first [by left|right; by eauto] end.
Qed.

Lemma scim_users c r s : user_change (header_tenant r) (Users s) (Users (HandleSCIMUsers c r s).2) \/
  Method r = "DELETE" /\ exists name, Users (HandleSCIMUsers c r s).2 = delete (userKey (header_tenant r) name) (Users s).
Proof.
  unfold HandleSCIMUsers. repeat case_bool_decide; [left|left|left| |left].
  - unfold scim_get. open_handler; user_step.
  - unfold scim_post. open_handler; user_step.
  - unfold scim_put. open_handler; user_step.
  - unfold scim_delete. open_handler; users; first [by left; apply uc_same|right; split; [done|]; by eexists].
  - apply uc_same. done.
Qed.

(** ** Sessions *)

Definition revoked_in (tok : string) (m : gmap string Session_) : Prop := exists x, m !! tok = Some x /\ s_Revoked x = true.

(** A reply hands out a token for which a session is made. *)
Definition issues (tok : string) (rep : reply) : Prop :=
  match content rep with
  | Data (PLogin t _) | Data (PGrant _ t) => t = tok
  | _ => False
  end.

Abbreviation vault s := (saved_sessions (saved s)).

(** A revoked session stays revoked unless its token is handed out again;
    the vault holds what it held, or the sessions as they are. *)
Definition session_change (rep : reply) (s s' : Server) : Prop :=
  (forall tok, revoked_in tok (Sessions s) -> issues tok rep \/ revoked_in tok (Sessions s')) /\
  (vault s' = vault s \/ vault s' = Some (Sessions s')).

Lemma Sessions_save_users c s : Sessions (SaveUsersToStore c s) = Sessions s /\ vault (SaveUsersToStore c s) = vault s.
Proof. unfold SaveUsersToStore. by destruct (put_ok c). Qed.
Lemma Sessions_save_keys c s : Sessions (SaveAPIKeysToStore c s) = Sessions s /\ vault (SaveAPIKeysToStore c s) = vault s.
Proof. unfold SaveAPIKeysToStore. by destruct (put_ok c). Qed.
Lemma Sessions_save c s : Sessions (SaveSessionsToStore c s) = Sessions s.
Proof. unfold SaveSessionsToStore. by destruct (put_ok c). Qed.
Lemma vault_save c s : vault (SaveSessionsToStore c s) = if put_ok c then Some (Sessions s) else vault s.
Proof. unfold SaveSessionsToStore. by destruct (put_ok c). Qed.

Ltac sessions :=
  repeat first [rewrite (proj1 (Sessions_save_users _ _))|rewrite (proj2 (Sessions_save_users _ _))|rewrite (proj1 (Sessions_save_keys _ _))
               |rewrite (proj2 (Sessions_save_keys _ _))|rewrite Sessions_save|rewrite vault_save|progress cbn].

Lemma sc_same rep s s' : Sessions s' = Sessions s -> vault s' = vault s -> session_change rep s s'.
Proof. intros H1 H2. split; [rewrite H1; auto|by left]. Qed.

Lemma sc_trans rep s s1 s2 : Sessions s1 = Sessions s -> vault s1 = vault s -> session_change rep s1 s2 -> session_change rep s s2.
Proof. intros H1 H2 [Hr Hv]. split; [by rewrite <- H1|by rewrite <- H2]. Qed.

(** A session is put under a token of the reply, and saved. *)
Lemma sc_put rep c t name r now s s' : Sessions s' = Sessions (put_session t name r now s) ->
  vault s' = (if put_ok c then Some (Sessions s') else vault s) -> issues t rep -> session_change rep s s'.
Proof.
  intros H1 H2 Hi. split; [|rewrite H2; destruct (put_ok c); auto].
  intros tok Hr. destruct (decide (t = tok)) as [->|Hne]; [by left|right].
  rewrite H1. unfold revoked_in. cbn. by rewrite lookup_insert_ne.
Qed.

Lemma sc_revoke rep c t x s s' : Sessions s' = <[t := revoke_session x]> (Sessions s) ->
  vault s' = (if put_ok c then Some (Sessions s') else vault s) -> session_change rep s s'.
Proof.
  intros H1 H2. split; [|rewrite H2; destruct (put_ok c); auto].
  intros tok [y [Hy Hr]]. right. rewrite H1. destruct (decide (t = tok)) as [->|Hne].
  - exists (revoke_session x). by rewrite lookup_insert, decide_True.
  - exists y. by rewrite lookup_insert_ne.
Qed.

Lemma issue_sessions c i name r s : session_change (issueJWTForUser getenv c i name r s).1 s (issueJWTForUser getenv c i name r s).2.
Proof.
  unfold issueJWTForUser. destruct (user_token _ _ _ _ _ _) as [t|]; [|by apply sc_same].
  eapply (sc_put _ c t name r); cbn [fst snd]; sessions; reflexivity.
Qed.

Lemma take_challenge_sessions name ch s b s' : take_challenge name ch s = (b, s') -> Sessions s' = Sessions s /\ vault s' = vault s /\ Users s' = Users s.
Proof. unfold take_challenge. case_match; by intros [= <- <-]. Qed.

Lemma new_challenge_sessions c name s : session_change (new_challenge c name s).1 s (new_challenge c name s).2.
Proof. unfold new_challenge. case_match; by apply sc_same. Qed.

Lemma refresh_sessions c r s : session_change (refresh_grant getenv c r s).1 s (refresh_grant getenv c r s).2.
Proof.
  unfold refresh_grant. repeat case_match; cbn [fst snd]; try by apply sc_same.
  split; [|sessions; destruct (put_ok c); cbn; auto]. intros tok [x [Hx Hr]]. cbn [issues content]. sessions.
  match goal with |- context [<[?a := _]> (<[?b := _]> _)] => destruct (decide (a = tok)) as [Ha|Ha]; [by left|right];
    destruct (decide (b = tok)) as [Hb|Hb] end.
  - eexists. rewrite lookup_insert_ne by done. rewrite Hb, lookup_insert, decide_True by done. done.
  - exists x. rewrite !lookup_insert_ne by done. done.
Qed.

Definition preserves_sessions (h : handler) : Prop := forall r s, session_change (h r s).1 s (h r s).2.

Ltac open_session_handler :=
  unfold only, validated, decoded_as, DecodeAndValidateJSON, no_validation; cbn zeta; repeat case_match; simplify_eq; cbn [snd fst];
  repeat match goal with H : take_challenge _ _ _ = _ |- _ => apply take_challenge_sessions in H as (? & ? & ?) end.

Ltac session_step := first
  [ apply sc_same; sessions; solve [done|congruence]
  | eapply sc_trans; [| |apply issue_sessions]; sessions; solve [done|congruence]
  | apply new_challenge_sessions
  | apply refresh_sessions ].

Lemma login_sessions c : preserves_sessions (HandleLogin getenv c).
Proof.
  intros r s. unfold HandleLogin, login_check, login_finish. open_session_handler; try session_step.
  - unfold login_succeeded. cbn zeta. set (s1 := SaveUsersToStore c _).
    assert (Hs : Sessions s1 = Sessions s /\ vault s1 = vault s) by (unfold s1; sessions; done). destruct Hs as [Hs Hvs].
    destruct (user_token _ _ _ _ _ _) as [t|]; [|by apply sc_same].
    apply (sc_trans _ s s1); [done|done|]. eapply (sc_put _ c t _ r); [sessions; reflexivity|sessions; reflexivity|done].
  - unfold login_failed, record_failure. case_match; session_step.
Qed.

Lemma token_sessions c : preserves_sessions (HandleToken getenv c).
Proof.
  intros r s. unfold HandleToken. open_session_handler; try session_step.
  eapply (sc_put _ c); [sessions; reflexivity|sessions; reflexivity|done].
Qed.

Lemma sessions_revoke_sessions c : preserves_sessions (HandleSessionsRevoke c).
Proof.
  intros r s. unfold HandleSessionsRevoke. open_session_handler; try session_step.
  - split; sessions; [auto|destruct (put_ok c); auto].
  - eapply (sc_revoke _ c); sessions; reflexivity.
  - split; sessions; [auto|destruct (put_ok c); auto].
Qed.

#[local] Hint Unfold HandleRegister HandleResetRequest HandleResetConfirm HandleMfaSetup HandleMfaVerify HandleSocialCallback
  HandleAdaptiveRiskScore HandlePasskeyRegisterVerify HandleSCIMUsers scim_get scim_post scim_put scim_delete : auth_handlers.

Lemma scim_sessions c : preserves_sessions (HandleSCIMUsers c).
Proof. intros r s. autounfold with auth_handlers. open_session_handler; session_step. Qed.

Lemma all_routes_sessions c : Forall (fun x => preserves_sessions x.2) (routes getenv mfa social detector c).
Proof.
  unfold routes. repeat (apply Forall_cons; split; cbn [fst snd]); [..|apply Forall_nil_2].
  all: first
    [ apply login_sessions | apply token_sessions | apply sessions_revoke_sessions | apply scim_sessions
    | intros r s; autounfold with auth_handlers; open_session_handler; session_step ].
Qed.

(** ** Requests from the middleware to a route *)

Abbreviation mux_ := (mux getenv mfa social detector).
Abbreviation serve_ := (serve getenv mfa social detector).

(** An error of the middleware, whose message is none of a login. *)
Definition is_error (rep : reply) : Prop :=
  exists m, said rep = Some m /\ m <> wrong_message /\ m <> token_message.

Lemma is_error_intro st m code : m <> wrong_message -> m <> token_message -> is_error (mkReply st (Error m code)).
Proof. intros H1 H2. exists m. done. Qed.
#[local] Hint Resolve is_error_intro : core.

(** What the routes see of a request: all of it but the path, which may be
    rewritten, and what the middleware adds. *)
Definition same_request (r r' : Request) : Prop :=
  Method r' = Method r /\ Path r' = v1_path (Path r) /\ Header r' = Header r /\ RemoteAddr r' = RemoteAddr r /\ Query r' = Query r /\
  FormValue r' = FormValue r /\ BasicAuth r' = BasicAuth r /\ Body r' = Body r.

(** The token of a request names a revoked session. *)
Definition bears_revoked (r : Request) (s : Server) : Prop :=
  exists tok, ExtractTokenFromHeader (Header r "Authorization") = inr tok /\ revoked_in tok (Sessions s).

Lemma tenant_cases c r s : let '(rep, s') := TenantMiddleware (v1Wrapper getenv mfa social detector c) r s in
  (s' = s /\ Status rep = 403 /\ is_error rep) \/
  exists r', same_request r r' /\ ctx_claims r' = ctx_claims r /\ (rep, s') = mux_ c r' s /\
    (forall cl, ctx_claims r = Some cl -> TenantID cl <> "" -> header_tenant r = TenantID cl).
Proof.
  unfold TenantMiddleware, v1Wrapper. destruct (ctx_claims r) as [cl|] eqn:Hcl.
  - destruct (decide (TenantID cl = "")) as [Ht|Ht]; [rewrite bool_decide_true by done|rewrite bool_decide_false by done]; cbn [negb].
    + destruct (mux_ c _ s) as [rep s'] eqn:Hm. right. eexists. split; [|split; [|split; [by rewrite Hm|]]]; [done|done|]. by intros ? [= <-].
    + case_bool_decide as Hh; cbn [negb]; [|left; split; [done|]; split; [done|by apply is_error_intro]].
      destruct (mux_ c _ s) as [rep s'] eqn:Hm. right. eexists. split; [|split; [|split; [by rewrite Hm|]]]; [done|done|]. by intros ? [= <-].
  - destruct (mux_ c _ s) as [rep s'] eqn:Hm. right. eexists. split; [|split; [|split; [by rewrite Hm|]]]; done.
Qed.

(** Whether a request has claims of its token when it reaches a route. *)
Definition claims_of (c : Call) (f : string + list (string * string)) (r : Request) (v : AuthValidator) : option Claims :=
  if bool_decide (getenv "PRANOR_JWT_SECRET" = "") && bool_decide (getenv "PRANOR_JWKS_URL" = "") then ctx_claims r
  else if public_path (Path r) then ctx_claims r
  else match ExtractTokenFromHeader (Header r "Authorization") with
       | inl _ => None
       | inr token => match (ValidateToken (fun n => clock c (1 + n)) f token v).1 with inr cl => Some cl | inl _ => None end
       end.

Lemma serve_cases c f r v s : let '(rep, (v', s')) := serve_ c f r (v, s) in
  (s' = s /\ (Status rep = 401 \/ Status rep = 403 /\ ~ bears_revoked r s) /\ is_error rep) \/
  ~ bears_revoked r s /\
  exists r', same_request r r' /\ ctx_claims r' = claims_of c f r v /\ (rep, s') = mux_ c r' s /\
    (forall cl, claims_of c f r v = Some cl -> TenantID cl <> "" -> header_tenant r = TenantID cl).
Proof.
  assert (Hnext : forall r1, Header r1 = Header r -> Path r1 = Path r -> same_request r (with_path (v1_path (Path r)) r1) ->
    let '(rep, s') := RevocationMiddleware (TenantMiddleware (v1Wrapper getenv mfa social detector c)) r1 s in
    (s' = s /\ (Status rep = 401 \/ Status rep = 403 /\ ~ bears_revoked r s) /\ is_error rep) \/
    ~ bears_revoked r s /\ exists r', same_request r r' /\ ctx_claims r' = ctx_claims r1 /\ (rep, s') = mux_ c r' s /\
      (forall cl, ctx_claims r1 = Some cl -> TenantID cl <> "" -> header_tenant r = TenantID cl)).
  { intros r1 Hh Hp Hsame. unfold RevocationMiddleware. rewrite Hh.
    set (b := if bool_decide _ then false else _). destruct b eqn:Hb; [left; split; [done|]; split; [by left|by apply is_error_intro]|].
    assert (Hn : ~ bears_revoked r s).
    { intros (tok & Htok & x & Hx & Hrev). subst b. case_bool_decide as Hemp; [by rewrite Hemp in Htok|].
      rewrite Htok, Hx in Hb. congruence. }
    pose proof (tenant_cases c r1 s) as Ht. destruct (TenantMiddleware _ r1 s) as [rep s'].
    destruct Ht as [(-> & Hst & He)|(r' & Hr' & Hc & Hm & Hten)]; [left; split; [done|]; split; [by right|done]|right]. split; [done|].
    - exists r'. split; [|split; [done|split; [done|]]].
      + unfold same_request in *. cbn in *. rewrite Hp, Hh in Hr'. intuition congruence.
      + intros cl Hcl Hne. specialize (Hten cl Hcl Hne). unfold header_tenant in *. by rewrite Hh in Hten. }
  unfold serve, AuthMiddleware, claims_of.
  destruct (bool_decide (getenv "PRANOR_JWT_SECRET" = "") && bool_decide (getenv "PRANOR_JWKS_URL" = "")).
  { specialize (Hnext r eq_refl eq_refl ltac:(done)). by destruct (RevocationMiddleware _ r s) as [rep s']. }
  destruct (public_path (Path r)).
  { specialize (Hnext r eq_refl eq_refl ltac:(done)). by destruct (RevocationMiddleware _ r s) as [rep s']. }
  destruct (ExtractTokenFromHeader _) as [err|token]; [left; split; [done|]; split; [by left|by apply is_error_intro]|].
  destruct (ValidateToken _ _ _ _) as [[err|cl] v']; [left; split; [done|]; split; [by left|by apply is_error_intro]|]. cbn [fst].
  specialize (Hnext (with_claims cl r) eq_refl eq_refl ltac:(done)). by destruct (RevocationMiddleware _ (with_claims cl r) s) as [rep s'].
Qed.

Lemma mux_cases c r s : let '(rep, s') := mux_ c r s in
  (s' = s /\ is_error rep) \/
  (exists h, (Path r, h) ∈ routes getenv mfa social detector c /\ (rep, s') = h r s) \/
  (HasPrefix (Path r) "/scim/v2/Users/" = true /\ (rep, s') = HandleSCIMUsers c r s).
Proof.
  unfold mux. destruct (List.find _ _) as [[p h]|] eqn:Hf.
  - apply List.find_some in Hf as [Hin Hp%bool_decide_eq_true]. cbn in Hp. subst p. destruct (h r s) as [rep s'] eqn:E. right. left.
    exists h. split; [by apply list_elem_of_In|done].
  - destruct (HasPrefix _ _) eqn:Hp; [|left; split; [done|by apply is_error_intro]]. destruct (HandleSCIMUsers c r s) as [rep s']. by right; right.
Qed.

Lemma mux_sessions c r s : session_change (mux_ c r s).1 s (mux_ c r s).2.
Proof.
  pose proof (mux_cases c r s) as H. destruct (mux_ c r s) as [rep s'].
  destruct H as [[-> He]|[(h & Hin & E)|[_ E]]]; [by apply sc_same| |].
  - pose proof (proj1 (List.Forall_forall _ _) (all_routes_sessions c) _ (proj1 (list_elem_of_In _ _) Hin)) as Hh.
    specialize (Hh r s). cbn [snd] in Hh. by rewrite <- E in Hh.
  - pose proof (scim_sessions c r s) as Hh. by rewrite <- E in Hh.
Qed.

(** ** Runs *)

Inductive Event :=
| Serve (c : Call) (fetched : string + list (string * string)) (r : Request)
| RotateKms (key : bytes)
| Restart (c : Call) (get_ok : bool * bool * bool).

Definition new_validator : AuthValidator := NewAuthValidator (getenv "PRANOR_JWT_SECRET") (getenv "PRANOR_JWKS_URL") "".

(** The reply to a request, and the next state; a process whose key
    generation fails does not start. *)
Definition step (e : Event) (st : AuthValidator * Server) : option (list reply * (AuthValidator * Server)) :=
  match e with
  | Serve c f r => let '(rep, st) := serve_ c f r st in Some ([rep], st)
  | RotateKms key => Some ([], (st.1, with_kms (Kms.rotate key (kms st.2)) st.2))
  | Restart c get_ok => (fun s => ([], (new_validator, s))) <$> start c get_ok (saved st.2)
  end.

Fixpoint exec (run : list Event) (st : AuthValidator * Server) : option (list reply * (AuthValidator * Server)) :=
  match run with
  | [] => Some ([], st)
  | e :: run => match step e st with
                | Some (reps, st) => match exec run st with Some (reps', st) => Some (reps ++ reps', st) | None => None end
                | None => None
                end
  end.

(** What holds of the server after every event of a run. *)
Lemma exec_invariant (P : Server -> Prop) (ok : Event -> Prop) (okr : reply -> Prop) :
  (forall e st reps st', ok e -> P st.2 -> step e st = Some (reps, st') -> Forall okr reps -> P st'.2) ->
  forall run st reps st', Forall ok run -> P st.2 -> exec run st = Some (reps, st') -> Forall okr reps -> P st'.2.
Proof.
  intros Hstep. induction run as [|e run IH]; intros st reps st' Hok HP; cbn [exec]; [by intros [= <- <-]|].
  inversion Hok; subst. destruct (step e st) as [[reps1 st1]|] eqn:Hs; [|done].
  destruct (exec run st1) as [[reps2 st2]|] eqn:Hr; [|done]. intros [= <- <-] [Hr1 Hr2]%Forall_app. by eapply IH; [| |exact Hr|]; [|by eapply Hstep|].
Qed.

(** ** Revoked sessions *)

(** Revoked in memory and in the vault. *)
Definition gone (tok : string) (s : Server) : Prop :=
  revoked_in tok (Sessions s) /\ exists m, vault s = Some m /\ revoked_in tok m.

Definition loads_sessions (e : Event) : Prop := match e with Restart _ (_, _, ok) => ok = true | _ => True end.

Lemma change_gone rep tok s s' : session_change rep s s' -> ~ issues tok rep -> gone tok s -> gone tok s'.
Proof.
  intros [Hr Hv] Hn (H1 & m & Hm & H2). destruct (Hr tok H1) as [?|H1']; [done|]. split; [done|].
  destruct Hv as [Hv|Hv]; [exists m; split; [by rewrite Hv|done]|by exists (Sessions s')].
Qed.

Lemma step_gone tok e st reps st' : loads_sessions e -> gone tok st.2 -> step e st = Some (reps, st') ->
  Forall (fun rep => ~ issues tok rep) reps -> gone tok st'.2.
Proof.
  destruct e as [c f r|key|c [[a b] d]], st as [v s]; cbn [step fst snd]; intros Hok Hg.
  - pose proof (serve_cases c f r v s) as Hc. destruct (serve_ c f r (v, s)) as [rep [v' s']].
    intros [= <- <-] Hrep. inversion Hrep; subst. cbn [snd].
    destruct Hc as [(-> & _)|(_ & r' & _ & _ & E & _)]; [done|].
    pose proof (mux_sessions c r' s) as Hm. rewrite <- E in Hm. by eapply change_gone.
  - by intros [= <- <-].
  - cbn in Hok. subst d. unfold start, InitJWKS. destruct (rsa_key c) as [key|]; [|done]. cbn. intros [= <- <-] _. cbn.
    destruct Hg as (_ & m & Hm & Hr). rewrite Hm. cbn. split; [done|by exists m].
Qed.

(** Every use of the token of such a session is refused. *)
Lemma gone_refused tok s : gone tok s ->
  (forall c f r v, ExtractTokenFromHeader (Header r "Authorization") = inr tok ->
     let '(rep, (_, s')) := serve_ c f r (v, s) in Status rep = 401 /\ is_error rep /\ s' = s) /\
  (forall c r, refresh_token_of c r = tok -> tok <> "" -> (refresh_grant getenv c r s).1 = mkReply 401 (Error "refresh token is invalid, expired, or already used" "invalid_grant") /\
     (refresh_grant getenv c r s).2 = s).
Proof.
  intros [(x & Hx & Hr) _]. split.
  - intros c f r v Htok. pose proof (serve_cases c f r v s) as Hc. destruct (serve_ c f r (v, s)) as [rep [v' s']].
    assert (Hb : bears_revoked r s) by (exists tok; split; [done|by exists x]).
    destruct Hc as [(-> & [?|[_ ?]] & ?)|(Hn & _)]; done.
  - intros c r Ht Hne. unfold refresh_grant. rewrite Ht. rewrite bool_decide_false by done. by rewrite Hx, Hr.
Qed.

Lemma revoked_gone c r s rep s' tok : put_ok c = true -> Status rep = 200 ->
  (decode_field "token" (Body r) = inr tok /\ HandleSessionsRevoke c r s = (rep, s')) \/
  (refresh_token_of c r = tok /\ refresh_grant getenv c r s = (rep, s') /\ ~ issues tok rep) -> gone tok s'.
Proof.
  intros Hput Hst [[Htok H]|(Htok & H & Hn)].
  - unfold HandleSessionsRevoke, only, decoded_as in H. rewrite Htok in H. repeat case_match; simplify_eq; try done.
    split; [|eexists; split; [sessions; by rewrite Hput|]]; (eexists; split; [sessions; by rewrite lookup_insert, decide_True|done]).
  - unfold refresh_grant in H. rewrite Htok in H. case_bool_decide as He; [by simplify_eq|].
    destruct (Sessions s !! tok) as [x|] eqn:Hx; [|by simplify_eq]. destruct (s_Revoked x || _); [by simplify_eq|]. simplify_eq.
    assert (Hne : default "" (GenerateUserToken (at_ c 3) (at_ c 4) (jwt_secret getenv) (s_Username x) ["user"] (Header r "X-Tenant-ID") (24 * Hour)) <> refresh_token_of c r).
    { intros E. apply Hn. by rewrite <- E at 1. }
    split; [|eexists; split; [sessions; by rewrite Hput|]];
      (eexists; split; [sessions; rewrite lookup_insert_ne by done; by rewrite lookup_insert, decide_True|done]).
Qed.

(** C12: Once a session was revoked, or its token was exchanged for new ones,
    and the vault has taken the change, every request that presents the token
    is refused with status 401 and changes nothing, and so is every exchange of the token,
    whatever the service does in between, until it hands out the same token
    again.  It may restart as well, provided that each restart succeeds in
    loading the sessions from the vault: the service ignores an error there
    and goes on with none ([Demo.restart_without_sessions]). *)
Theorem revoked_session_refused (c : Call) (r : Request) (s s' : Server) (rep : reply) (tok : string) (v : AuthValidator)
    (run : list Event) (reps : list reply) (st : AuthValidator * Server) :
  (decode_field "token" (Body r) = inr tok /\ HandleSessionsRevoke c r s = (rep, s')) \/
  (refresh_token_of c r = tok /\ refresh_grant getenv c r s = (rep, s') /\ ~ issues tok rep) ->
  Status rep = 200 -> put_ok c = true ->
  exec run (v, s') = Some (reps, st) -> Forall loads_sessions run -> Forall (fun rep => ~ issues tok rep) reps ->
  (forall c f r v, ExtractTokenFromHeader (Header r "Authorization") = inr tok ->
     let '(rep, (_, s2)) := serve_ c f r (v, st.2) in Status rep = 401 /\ is_error rep /\ s2 = st.2) /\
  (forall c r, refresh_token_of c r = tok -> tok <> "" ->
     (refresh_grant getenv c r st.2).1 = mkReply 401 (Error "refresh token is invalid, expired, or already used" "invalid_grant") /\
     (refresh_grant getenv c r st.2).2 = st.2).
Proof.
  intros Hrev Hst Hput Hex Hload Hreps. apply gone_refused.
  eapply (exec_invariant (gone tok) loads_sessions); [intros; by eapply step_gone|done| |done|done]. by eapply revoked_gone.
Qed.

(** ** Users along runs *)

Definition user_kept (key : string) (m m' : gmap string User) : Prop :=
  forall u, m !! key = Some u -> exists u', m' !! key = Some u' /\ kept u u'.

Lemma kept_refl u : kept u u.
Proof. done. Qed.

Lemma same_kept key m m' : m' = m -> user_kept key m m'.
Proof. intros -> u Hu. exists u. auto using kept_refl. Qed.

Lemma update_kept key m name u u' : m !! name = Some u -> kept u u' -> user_kept key m (<[name := u']> m).
Proof.
  intros Hn Hk x Hx. destruct (decide (name = key)) as [->|Hne].
  - exists u'. rewrite lookup_insert, decide_True by done. by simplify_eq.
  - exists x. rewrite lookup_insert_ne by done. auto using kept_refl.
Qed.

Lemma create_kept key m name u' : m !! name = None -> user_kept key m (<[name := u']> m).
Proof. intros Hn x Hx. exists x. rewrite lookup_insert_ne by congruence. auto using kept_refl. Qed.

Lemma change_kept tenant key m m' : user_change tenant m m' -> user_kept key m m'.
Proof. intros [->|name u u' Hu -> Hk|name u' Hu -> _ _]; [by apply same_kept|by eapply update_kept|by apply create_kept]. Qed.

(** The requests that may unlock an account: a reset of the password, the
    removal of the user; and a restart. *)
Definition unlocking_request (r : Request) (path : string) : bool :=
  bool_decide (path = confirm_path) || (bool_decide (Method r = "DELETE") && HasPrefix path scim_path).
Definition unlocking (e : Event) : bool :=
  match e with Serve _ _ r => unlocking_request r (v1_path (Path r)) | RotateKms _ => false | Restart _ _ => true end.

Lemma mux_users c r s key : unlocking_request r (Path r) = false ->
  (Path r <> login_path \/ is_error (mux_ c r s).1) /\ user_kept key (Users s) (Users (mux_ c r s).2) \/
  Path r = login_path /\ mux_ c r s = HandleLogin getenv c r s.
Proof.
  intros [Hc Hd]%orb_false_iff. apply bool_decide_eq_false in Hc.
  assert (Hscim : HasPrefix (Path r) scim_path = true -> user_kept key (Users s) (Users (HandleSCIMUsers c r s).2)).
  { intros Hp. rewrite Hp, andb_true_r in Hd. apply bool_decide_eq_false in Hd.
    destruct (scim_users c r s) as [H|[H _]]; [by eapply change_kept|done]. }
  pose proof (mux_cases c r s) as H. destruct (mux_ c r s) as [rep s'].
  destruct H as [[-> He]|[(h & Hin & E)|[Hp E]]]; [left; split; [by right|by apply same_kept]| |].
  2:{ left. split; [left; intros Hl; by rewrite Hl in Hp|]. cbn. replace s' with (HandleSCIMUsers c r s).2 by by rewrite <- E.
      apply Hscim. by eapply HasPrefix_trans. }
  pose proof (proj1 (List.Forall_forall _ _) (plain_routes c) _ (proj1 (list_elem_of_In _ _) Hin)) as Hr.
  destruct Hr as [Hh Hp|[= Hp ->]|[= Hp ->]|[= Hp ->]|[= Hp ->]|[= Hp ->]]; [|right; by rewrite E| |done| |]; left.
  all: split; [left; first [by rewrite Hp|intros Hl; apply Hp; cbn; rewrite Hl; by apply (bool_decide_unpack _)]|].
  - specialize (Hh r s). cbn [snd] in Hh. rewrite <- E in Hh. by eapply change_kept.
  - pose proof (reset_request_users c r s) as Hu. rewrite <- E in Hu.
    destruct Hu as [Hu|(name & u & u' & Hu & Hu' & Hk)]; [by apply same_kept|cbn in *; rewrite Hu'; by eapply update_kept].
  - pose proof (social_users c r s) as Hu. rewrite <- E in Hu.
    destruct Hu as [Hu|(name & u' & Hu & Hu')]; [by apply same_kept|cbn in *; rewrite Hu'; by apply create_kept].
  - cbn. replace s' with (HandleSCIMUsers c r s).2 by by rewrite <- E. apply Hscim. by rewrite Hp.
Qed.

(** ** Guessing passwords *)

(** A request to log in to an account, with its reply: a password was
    compared and was wrong; it was right. *)
Definition login_to (key : string) (e : Event) : bool :=
  match e with
  | Serve _ _ r => bool_decide (v1_path (Path r) = login_path) && match login_of r with Some (k, _) => bool_decide (k = key) | None => false end
  | _ => false
  end.
Definition guessed (key : string) (e : Event) (reps : list reply) : bool :=
  login_to key e && match reps with [rep] => bool_decide (said rep = Some wrong_message) | _ => false end.
Definition entered (key : string) (e : Event) (reps : list reply) : bool :=
  login_to key e && match reps with [rep] => bool_decide (said rep ∈ [None; Some token_message]) | _ => false end.

Definition call_of (e : Event) : option Call := match e with Serve c _ _ => Some c | _ => None end.

Lemma login_of_same r r' : same_request r r' -> login_of r' = login_of r.
Proof. intros (Hm & _ & Hh & _ & _ & _ & _ & Hb). unfold login_of, header_tenant. by rewrite Hm, Hh, Hb. Qed.

Lemma error_no_login key e rep : is_error rep -> guessed key e [rep] = false /\ entered key e [rep] = false.
Proof.
  intros (m & Hm & H1 & H2). unfold guessed, entered. rewrite Hm. rewrite !bool_decide_false; [by rewrite !andb_false_r| |congruence].
  rewrite !elem_of_cons, elem_of_nil. intros [?|[?|[]]]; congruence.
Qed.

(** What an event does to a user, and what its reply says about a login. *)
Lemma step_user key e st reps st' u : unlocking e = false -> step e st = Some (reps, st') -> Users st.2 !! key = Some u ->
  (guessed key e reps = false /\ entered key e reps = false /\ exists u', Users st'.2 !! key = Some u' /\ kept u u') \/
  (exists c, call_of e = Some c /\ guessed key e reps = true /\ entered key e reps = false /\ locked (at_ c 0) u = false /\
     Users st'.2 !! key = Some (after_failure c u)) \/
  (guessed key e reps = false /\ entered key e reps = true /\ Users st'.2 !! key = Some (set_attempts 0 None u)).
Proof.
  destruct e as [c f r|k|c g], st as [v s]; cbn [step fst snd]; intros Hun Hs Hu; [|injection Hs as <- <-; left; repeat split; exists u; auto using kept_refl|done].
  pose proof (serve_cases c f r v s) as Hc. destruct (serve_ c f r (v, s)) as [rep [v' s']]. injection Hs as <- <-. cbn [snd].
  destruct Hc as [(-> & _ & He)|(_ & r' & Hr' & _ & E & _)].
  { left. destruct (error_no_login key (Serve c f r) rep He) as [-> ->]. repeat split. exists u. auto using kept_refl. }
  cbn [unlocking] in Hun. pose proof Hr' as (Hm & Hp & _).
  assert (Hun' : unlocking_request r' (Path r') = false) by (unfold unlocking_request in *; by rewrite Hm, Hp).
  destruct (mux_users c r' s key Hun') as [[Hno Hk]|[Hlp Hlog]].
  - left. rewrite <- E in Hno, Hk. cbn [fst snd] in *. split_and?; [| |by apply Hk].
    all: destruct Hno as [Hno|He]; [|by apply (error_no_login key (Serve c f r)) in He as [? ?]].
    all: unfold guessed, entered, login_to; rewrite <- Hp; by rewrite bool_decide_false.
  - rewrite Hlog in E. pose proof (login_effects c r' s) as Hl. rewrite <- E in Hl.
    assert (Hto : login_to key (Serve c f r) = match login_of r' with Some (k, _) => bool_decide (k = key) | None => false end).
    { unfold login_to. rewrite <- Hp, Hlp. rewrite bool_decide_true by done. by rewrite (login_of_same r r'). }
    unfold guessed, entered. rewrite Hto. clear Hto E Hlog.
    inversion Hl as [rep0 Ho Hst|k p u0 Ho Hk Hlk|k p s0 Ho Hk Hus|k p u0 s0 Ho Hk Hlk Hv Hus|k p u0 rep0 s0 Ho Hk Hlk Hv Hus Hsaid]; subst; rewrite Ho.
    + left. repeat split. exists u. auto using kept_refl.
    + left. cbn. rewrite andb_false_r. repeat split; [by rewrite andb_false_r|]. exists u. auto using kept_refl.
    + left. rewrite (bool_decide_false (k = key)) by congruence. repeat split. exists u. rewrite Hus. auto using kept_refl.
    + destruct (decide (k = key)) as [->|Hne].
      * right. left. exists c. rewrite Hus, lookup_insert, decide_True by done. simplify_eq. rewrite bool_decide_true by done. done.
      * left. rewrite (bool_decide_false (k = key)) by done. repeat split. exists u. rewrite Hus, lookup_insert_ne by done. auto using kept_refl.
    + destruct (decide (k = key)) as [->|Hne].
      * right. right. rewrite Hus, lookup_insert, decide_True by done. simplify_eq. rewrite bool_decide_true by done.
        rewrite (bool_decide_true (_ ∈ _)) by done. repeat split. cbn. rewrite !elem_of_cons, elem_of_nil in Hsaid.
        apply bool_decide_eq_false. destruct Hsaid as [->|[->|[]]]; done.
      * left. rewrite (bool_decide_false (k = key)) by done. repeat split. exists u. rewrite Hus, lookup_insert_ne by done. auto using kept_refl.
Qed.

(** How often a run has an event and replies that satisfy a condition. *)
Fixpoint tally (p : Event -> list reply -> bool) (run : list Event) (st : AuthValidator * Server) : nat :=
  match run with
  | [] => 0
  | e :: run => match step e st with
                | Some (reps, st) => (if p e reps then 1 else 0) + tally p run st
                | None => 0
                end
  end.

(** The readings of the clock at a login lie between two instants. *)
Definition timely (T0 T1 : Z) (e : Event) : Prop :=
  match e with Serve c _ _ => T0 <= at_ c 0 /\ at_ c 0 <= at_ c 2 /\ at_ c 2 <= T1 | _ => True end.

(** After [n] wrong guesses: the account is locked for five minutes for each
    from the third on. *)
Definition guesses_so_far (T0 T1 : Z) (n : nat) (u : User) : Prop :=
  Z.of_nat n <= u_FailedAttempts u /\
  ((3 <= n)%nat -> exists L, u_LockedUntil u = Some L /\ T0 + (Z.of_nat n - 2) * (5 * Minute) <= L) /\
  ((4 <= n)%nat -> T0 + (Z.of_nat n - 3) * (5 * Minute) <= T1).

Lemma guess_again T0 T1 n u c : T0 <= at_ c 0 -> at_ c 0 <= at_ c 2 -> at_ c 2 <= T1 -> u_FailedAttempts u < max_int64 ->
  locked (at_ c 0) u = false -> guesses_so_far T0 T1 n u -> guesses_so_far T0 T1 (S n) (after_failure c u).
Proof.
  intros H0 H1 H2 Hmax Hlk (Ha & Hl & Ht). unfold guesses_so_far, after_failure. cbn [u_FailedAttempts u_LockedUntil set_attempts].
  rewrite wrap64_id by (unfold in_int64, min_int64; lia). rewrite Nat2Z.inj_succ. split; [lia|].
  assert (Hfree : (3 <= n)%nat -> T0 + (Z.of_nat n - 2) * (5 * Minute) <= at_ c 0).
  { intros Hn. destruct (Hl Hn) as (L & HL & Hle). unfold locked in Hlk. rewrite HL in Hlk. apply Z.ltb_ge in Hlk. lia. }
  split.
  - intros Hn. rewrite (proj2 (Z.leb_le 3 _)) by lia. eexists. split; [done|].
    destruct (decide (n = 2%nat)) as [->|]; [lia|]. specialize (Hfree ltac:(lia)). lia.
  - intros Hn. specialize (Hfree ltac:(lia)). lia.
Qed.

Lemma guesses_bound T0 T1 key run : forall st n u reps st', exec run st = Some (reps, st') ->
  Forall (fun e => unlocking e = false) run -> Forall (timely T0 T1) run -> tally (entered key) run st = 0%nat ->
  Users st.2 !! key = Some u -> u_FailedAttempts u + Z.of_nat (length run) <= max_int64 -> guesses_so_far T0 T1 n u ->
  exists u', guesses_so_far T0 T1 (n + tally (guessed key) run st) u'.
Proof.
  induction run as [|e run IH]; intros st n u reps st' Hex Hun Htm Hent Hu Hmax Hg; [exists u; by rewrite Nat.add_0_r|].
  cbn [exec tally] in *. inversion Hun; subst. inversion Htm as [|? ? Ht Htm']; subst. cbn [length] in Hmax.
  destruct (step e st) as [[reps1 st1]|] eqn:Hs; [|done]. destruct (exec run st1) as [[reps2 st2]|] eqn:Hr; [|done].
  destruct (step_user key e st reps1 st1 u) as [(-> & He & u' & Hu' & Hk)|[(c & Hc & -> & He & Hlk & Hu')|(_ & He & _)]]; [done|done|done|..];
    rewrite He in Hent; [..|done].
  - destruct Hk as (_ & _ & _ & Hf & Hlu). eapply (IH st1 n u'); eauto; [lia|].
    unfold guesses_so_far in *. by rewrite Hf, Hlu.
  - rewrite Nat.add_assoc, Nat.add_1_r. destruct e as [c' f r| |]; try done. injection Hc as <-. destruct Ht as (? & ? & ?).
    pose proof (guess_again T0 T1 n u c' ltac:(done) ltac:(done) ltac:(done) ltac:(lia) Hlk Hg) as Hg'.
    eapply (IH st1 (S n)); eauto. cbn. rewrite wrap64_id; [lia|]. destruct Hg as [? _]. unfold in_int64, min_int64. lia.
Qed.

(** C13: However many requests arrive one after the other, the passwords that
    are compared with that of an account between two instants, and are wrong,
    are at most three and one more for every five minutes between the
    instants; unless the right one is entered, the password is reset, the
    user removed or the service restarted. *)
Theorem lockout_bounds_guesses (key : string) (run : list Event) (v : AuthValidator) (s : Server) (u : User) (T0 T1 : Z)
    (reps : list reply) (st : AuthValidator * Server) :
  Users s !! key = Some u -> 0 <= u_FailedAttempts u -> u_FailedAttempts u + Z.of_nat (length run) <= max_int64 ->
  exec run (v, s) = Some (reps, st) -> T0 <= T1 -> Forall (timely T0 T1) run ->
  Forall (fun e => unlocking e = false) run -> tally (entered key) run (v, s) = 0%nat ->
  Z.of_nat (tally (guessed key) run (v, s)) <= 3 + (T1 - T0) / (5 * Minute).
Proof.
  intros Hu H0 Hmax Hex HT Htm Hun Hent.
  assert (HM : 0 < 5 * Minute) by (unfold Minute, Second; lia).
  destruct (guesses_bound T0 T1 key run (v, s) 0 u reps st) as (u' & _ & _ & Hb); try done.
  { split; [lia|]. split; intros; lia. }
  cbn [Nat.add] in Hb. set (n := tally (guessed key) run (v, s)) in *.
  assert (Hpos : 0 <= (T1 - T0) / (5 * Minute)) by (apply Z.div_pos; lia).
  destruct (decide (4 <= n)%nat) as [H4|H4]; [|lia]. specialize (Hb H4).
  assert (Z.of_nat n - 3 <= (T1 - T0) / (5 * Minute)); [|lia]. apply Z.div_le_lower_bound; lia.
Qed.

(** ** An account can be used *)

Lemma exec_kept key run : forall st u reps st', exec run st = Some (reps, st') -> Forall (fun e => unlocking e = false) run ->
  Users st.2 !! key = Some u -> exists u', Users st'.2 !! key = Some u' /\ u_Password u' = u_Password u /\ u_Username u' = u_Username u.
Proof.
  induction run as [|e run IH]; intros st u reps st' Hex Hun Hu; cbn [exec] in Hex; [by simplify_eq; exists u|].
  inversion Hun; subst. destruct (step e st) as [[reps1 st1]|] eqn:Hs; [|done]. destruct (exec run st1) as [[reps2 st2]|] eqn:Hr; [|done].
  injection Hex as <- <-.
  assert (H : exists u', Users st1.2 !! key = Some u' /\ u_Password u' = u_Password u /\ u_Username u' = u_Username u).
  { destruct (step_user key e st reps1 st1 u) as [(_ & _ & u' & Hu' & Hk)|[(c & _ & _ & _ & _ & Hu')|(_ & _ & Hu')]]; [done|done|done|..].
    - exists u'. split; [done|]. by destruct Hk as (? & ? & ? & _).
    - by exists (after_failure c u).
    - by exists (set_attempts 0 None u). }
  destruct H as (u' & Hu' & Hp & Hn). destruct (IH st1 u' reps2 st2 Hr) as (u2 & Hu2 & Hp2 & Hn2); [done|done|]. exists u2. by rewrite Hp2, Hn2.
Qed.

(** A user who registered can log in with the password, after anything
    the service has done but a reset of the password, the removal of the user
    or a restart, as soon as the account is not locked and tokens can be
    signed; the reply carries the token of a session that is in force. *)
Theorem registered_user_can_login (c c' : Call) (r r' : Request) (s s1 : Server) (rep : reply) (req : RegisterRequest)
    (v : AuthValidator) (run : list Event) (reps : list reply) (st : AuthValidator * Server) (u : User) :
  decode_register (Body r) = inr req -> HandleRegister c r s = (rep, s1) -> Status rep = 201 ->
  exec run (v, s1) = Some (reps, st) -> Forall (fun e => unlocking e = false) run ->
  Method r' = "POST" -> decode_login (Body r') = inr (mkLogin (r_Username req) (r_Password req)) -> header_tenant r' = header_tenant r ->
  Users st.2 !! userKey (header_tenant r) (r_Username req) = Some u -> locked (at_ c' 0) u = false ->
  (forall cl s, is_Some (sign_claims getenv cl s)) ->
  exists token s2, HandleLogin getenv c' r' st.2 = (ok (PLogin token (r_Username req)), s2) /\
    exists x, Sessions s2 !! token = Some x /\ s_Revoked x = false /\ s_Username x = r_Username req.
Proof.
  intros Hreq Hreg Hst Hex Hun Hm Hdec Hten Hu Hlk Hsign.
  assert (H1 : exists u1, Users s1 !! userKey (header_tenant r) (r_Username req) = Some u1 /\ u_Username u1 = r_Username req /\
                CompareHashAndPassword (u_Password u1) (r_Password req) = true /\ RegisterRequest_Validate req = None).
  { unfold HandleRegister, only, validated, DecodeAndValidateJSON in Hreg. rewrite Hreq in Hreg. repeat case_match; simplify_eq; try done.
    eexists. users. rewrite lookup_insert, decide_True by done. split_and!; [done|done| |done]. cbn.
    match goal with H : HashPassword _ _ = Some _ |- _ => unfold HashPassword in H; destruct (random c 1) as [b|]; [|done]; cbn in H end.
    by eapply Compare_Generate. }
  destruct H1 as (u1 & Hu1 & Hn1 & Hp1 & Hval). destruct (exec_kept _ run (v, s1) u1 reps st Hex Hun Hu1) as (u2 & Hu2 & Hpw & Hname).
  rewrite Hu in Hu2. injection Hu2 as <-.
  assert (Hlv : LoginRequest_Validate (mkLogin (r_Username req) (r_Password req)) = None).
  { unfold RegisterRequest_Validate in Hval. unfold LoginRequest_Validate. cbn.
    destruct (decide (r_Username req = "")) as [E|E]; [by rewrite bool_decide_true in Hval|]. rewrite !bool_decide_false in * by done.
    destruct (decide (r_Password req = "")) as [Hpe|Hpe]; [by rewrite Hpe in Hval|by rewrite bool_decide_false]. }
  unfold HandleLogin, only, validated, DecodeAndValidateJSON. rewrite Hm, Hdec, Hlv, Hten. rewrite bool_decide_true by done.
  unfold login_check. cbn [l_Username l_Password]. rewrite Hu, Hlk. unfold login_finish, VerifyPassword. cbn [l_Username l_Password].
  rewrite Hpw, Hp1. unfold login_succeeded. cbn zeta. rewrite Hname, Hn1.
  destruct (user_token _ _ _ _ _ _) as [token|] eqn:Htok.
  - exists token. eexists. split; [reflexivity|]. eexists. sessions. rewrite lookup_insert, decide_True by done. done.
  - exfalso. unfold user_token in Htok. edestruct Hsign as [x Hx]. rewrite Hx in Htok. done.
Qed.

(** ** Tenants *)

(** The keys of two tenants without a colon are different. *)
Lemma userKey_tenant t t' name name' : ":"%char ∉ byt t -> ":"%char ∉ byt t' -> userKey t name = userKey t' name' -> t = t'.
Proof. intros Ht Ht' E. apply (f_equal (fun x => SplitN2 x ":")) in E. unfold userKey in E. rewrite !cut_colon in E by done. by injection E. Qed.

Definition provisioning (path : string) : Prop := path = "/scim/v2/Users" \/ HasPrefix path "/scim/v2/Users/" = true.

Lemma mux_scim c r s : provisioning (Path r) -> mux_ c r s = HandleSCIMUsers c r s.
Proof.
  intros [Hp|Hp]; unfold mux, routes; [rewrite Hp; reflexivity|]. apply HasPrefix_iff in Hp as [x Hp]. rewrite Hp. reflexivity.
Qed.

(** What provisioning shows. *)
Lemma scim_shown c r s rep s' : HandleSCIMUsers c r s = (rep, s') ->
  (forall l x, content rep = Data (PScimList l) -> x ∈ l -> exists key u, Users s !! key = Some u /\ u_TenantID u = header_tenant r /\ x = scim_of u) /\
  (forall x, content rep = Data (PScim x) -> exists name u, Users s' !! userKey (header_tenant r) name = Some u /\ (x = scim_of u \/ sc_UserName x = name)).
Proof.
  unfold HandleSCIMUsers. repeat case_bool_decide.
  - unfold scim_get. case_bool_decide; cbn [negb]; [|destruct (Users s !! _) as [u|] eqn:Eu]; intros [= <- <-]; (split; [|]); cbn; try done.
    + intros l x [= <-] (u & -> & Hu)%list_elem_of_fmap. apply list_elem_of_In, List.filter_In in Hu as [Hu%list_elem_of_In Ht%bool_decide_eq_true].
      apply list_elem_of_fmap in Hu as ([key u'] & -> & Hin%elem_of_map_to_list). by exists key, u'.
    + intros x [= <-]. eauto.
  - unfold scim_post, decoded_as. destruct (decode_scim (Body r)) as [|x]; [intros [= <- <-]; done|]. case_bool_decide; [intros [= <- <-]; done|].
    destruct (Users s !! _) eqn:Eu; [intros [= <- <-]; done|]. intros [= <- <-]. split; cbn [content]; [done|]. intros y [= <-].
    exists (sc_UserName x). eexists. users. rewrite lookup_insert, decide_True by done. split; [done|by right].
  - unfold scim_put, decoded_as. case_bool_decide; [intros [= <- <-]; done|]. destruct (decode_scim (Body r)) as [|x]; [intros [= <- <-]; done|].
    destruct (Users s !! _) as [u|] eqn:Eu; [|intros [= <- <-]; done]. intros [= <- <-]. split; cbn [content]; [done|]. intros y [= <-].
    exists (scim_id (Path r)). eexists. users. rewrite lookup_insert, decide_True by done. split; [done|by right].
  - unfold scim_delete. case_bool_decide; [intros [= <- <-]; done|]. destruct (Users s !! _) as [u|] eqn:Eu; intros [= <- <-]; done.
  - intros [= <- <-]. done.
Qed.

(** C19: a request whose token names a tenant changes no user of another
    tenant; the users that the list of users and that of the provisioning
    interface show it are of its tenant, and a single user shown there is one
    of its tenant, as stored or as the request has just set it.  Names of
    tenants are to have no colon (with one, keys of different tenants are the
    same); resets of passwords and social logins, which do not go by tenant,
    are left out. *)
Theorem tenant_isolation (c : Call) (f : string + list (string * string)) (r : Request) (v v' : AuthValidator) (s s' : Server) (rep : reply)
    (cl : Claims) :
  serve_ c f r (v, s) = (rep, (v', s')) -> claims_of c f r v = Some cl -> TenantID cl <> "" -> ":"%char ∉ byt (TenantID cl) ->
  v1_path (Path r) ∉ [request_path; confirm_path; social_path] ->
  (forall tenant name, tenant <> TenantID cl -> ":"%char ∉ byt tenant -> Users s' !! userKey tenant name = Users s !! userKey tenant name) /\
  (forall l, v1_path (Path r) = "/api/auth/users" -> content rep = Data (PUsers l) -> Forall (fun x => x.1.2 = TenantID cl) l) /\
  (provisioning (v1_path (Path r)) ->
   (forall l x, content rep = Data (PScimList l) -> x ∈ l -> exists key u, Users s !! key = Some u /\ u_TenantID u = TenantID cl /\ x = scim_of u) /\
   (forall x, content rep = Data (PScim x) -> exists name u, Users s' !! userKey (TenantID cl) name = Some u /\ (x = scim_of u \/ sc_UserName x = name))).
Proof.
  intros Hs Hcl Hne Hcolon Hsp. pose proof (serve_cases c f r v s) as Hc. rewrite Hs in Hc.
  destruct Hc as [(-> & _ & m & Hm & _)|(_ & r' & Hr' & _ & E & Hten)].
  { unfold said in Hm. split; [done|]. split; [intros l _ Hl; by rewrite Hl in Hm|]. intros _. split; [intros l x Hl|intros x Hl]; by rewrite Hl in Hm. }
  specialize (Hten cl Hcl Hne). pose proof Hr' as (_ & Hp & Hh & _).
  assert (Ht : header_tenant r' = TenantID cl) by (rewrite <- Hten; unfold header_tenant; by rewrite Hh).
  assert (Hchange : user_change (TenantID cl) (Users s) (Users s') \/ (exists name, Users s' = delete (userKey (TenantID cl) name) (Users s)) \/
     exists name u', Users s' = <[userKey (TenantID cl) name := u']> (Users s)).
  { pose proof (mux_cases c r' s) as Hmux. rewrite <- E in Hmux.
    assert (Hscim : (rep, s') = HandleSCIMUsers c r' s -> user_change (TenantID cl) (Users s) (Users s') \/
       (exists name, Users s' = delete (userKey (TenantID cl) name) (Users s)) \/ exists name u', Users s' = <[userKey (TenantID cl) name := u']> (Users s)).
    { intros Es. pose proof (scim_users c r' s) as Hu. rewrite <- Es, Ht in Hu. naive_solver. }
    destruct Hmux as [[-> _]|[(h & Hin & Eh)|[_ Eh]]]; [by left; apply uc_same| |by apply Hscim].
    pose proof (proj1 (List.Forall_forall _ _) (plain_routes c) _ (proj1 (list_elem_of_In _ _) Hin)) as Hre.
    rewrite <- Hp in Hsp. rewrite !not_elem_of_cons in Hsp. destruct Hsp as (? & ? & ? & _).
    destruct Hre as [Hpl _|[= Hpp ->]|[= Hpp ->]|[= Hpp ->]|[= Hpp ->]|[= Hpp ->]]; try done; [| |by apply Hscim].
    - left. specialize (Hpl r' s). cbn [snd] in Hpl. by rewrite <- Eh, Ht in Hpl.
    - pose proof (login_effects c r' s) as Hl. rewrite <- Eh in Hl.
      inversion Hl as [? Ho|? ? ? Ho|? ? ? Ho ? Hus|? ? ? ? Ho ? ? ? Hus|? ? ? ? ? Ho ? ? ? Hus]; subst; try (left; by apply uc_same).
      all: right; right; unfold login_of in Ho; repeat case_match; try done; injection Ho as <- <-; rewrite Ht in *; by eauto. }
  split; [|split].
  - intros tenant name Ht' Hc'. assert (Hk : forall name', userKey (TenantID cl) name' <> userKey tenant name) by (intros name' Ek; apply Ht'; symmetry; by eapply userKey_tenant).
    destruct Hchange as [[->|name1 u u' _ -> _|name1 u' _ -> _ _]|[[name1 ->]|(name1 & u' & ->)]]; [done|..]; rewrite ?lookup_insert_ne, ?lookup_delete_ne by apply Hk; done.
  - intros l Hpath Hl. rewrite <- Hp in Hpath.
    assert (Em : (rep, s') = HandleUsers r' s) by (rewrite E; unfold mux, routes; rewrite Hpath; reflexivity).
    unfold HandleUsers, only in Em. case_match; [|by injection Em as -> ->]. injection Em as -> ->. cbn in Hl. injection Hl as <-.
    apply Forall_fmap, List.Forall_forall. intros u [_ Hu%bool_decide_eq_true]%List.filter_In. cbn. by rewrite Hu, Ht.
  - intros Hpath. rewrite <- Hp in Hpath. rewrite mux_scim in E by done. symmetry in E. apply scim_shown in E. by rewrite Ht in E.
Qed.
End Props.

(** ** Concrete runs *)

Module Demo.
#[local] Existing Instance ascii_casing.
#[local] Existing Instance KmsFacts.demo_crypto.

(** Tokens that are the text of their claims. *)
#[local] Instance demo_jwt : Jwt := {|
  sign_HS256 _ c := Some (Username c +:+ "@" +:+ TenantID c +:+ "@" +:+ FormatInt (IssuedAt c) +:+ "@" +:+ FormatInt (ExpiresAt c));
  sign_RS256 _ _ _ := None;
  token_header _ := Some ("HS256", "");
  verify _ _ tok := match Split tok "@" with
                    | [u; t; i; e] => inr (mkClaims u ["user"] [] t "Pranor" u (Atoi_value i) (Atoi_value e))
                    | _ => inl "malformed"
                    end |}.

(** Bodies whose fields are separated by bars. *)
#[local] Instance demo_json : Json := {|
  decode_register b := match Split b "|" with [u; e; p] => inr (mkRegister u e p) | _ => inl "EOF" end;
  decode_login b := match Split b "|" with [u; p] => inr (mkLogin u p) | _ => inl "EOF" end;
  decode_grant b := match Split b "|" with [i; x; g] => inr (mkGrant i x g) | _ => inl "EOF" end;
  decode_confirm b := match Split b "|" with [t; p] => inr (mkConfirm t p) | _ => inl "EOF" end;
  decode_risk _ := inl "EOF"; decode_passkey_register _ := inl "EOF";
  decode_passkey_login b := match Split b "|" with [u; c; g] => inr (mkPasskeyLogin u c g) | _ => inl "EOF" end;
  decode_step_up _ := inl "EOF"; decode_scim _ := inl "EOF";
  decode_provider b := inr (mkProvider "" b "" "" ∅);
  decode_field _ b := if bool_decide (b = "") then inl "EOF" else inr b;
  decode_scopes _ := inl "EOF" |}.

Definition env (name : string) : string := if bool_decide (name = "PRANOR_JWT_SECRET") then "secret" else "".

(** A request that meets the clock at [t] seconds. *)
Definition call (t : Z) : Call := mkCall (fun _ => t * Second) (fun _ => Some (byt "r")) true 0 "" (Some ("private", "public")).
Definition post (path auth body : string) : Request :=
  mkRequest "POST" path (fun h => if bool_decide (h = "Authorization") then auth else "") "10.0.0.1:5000" (fun _ => "") (fun _ => "") None body None None.

Abbreviation serve_demo t r := (Serve (call t) (inr []) r).
Abbreviation exec_demo := (exec env None None None).

Definition validator : AuthValidator := NewAuthValidator "secret" "" "".
Definition server : Server := (HandleRegister (call 1) (post "/api/auth/register" "" "ann|ann@x|password") (empty_server (mkSaved None None None))).2.

Definition login (t : Z) (password : string) : Event := serve_demo t (post "/api/auth/login" "" ("ann|" +:+ password)).

(** Ann logs in, her session is revoked, the service restarts: her token is
    refused. *)
Definition token : string := "ann@default@10@86410".
Definition logged_in : Server := (HandleLogin env (call 10) (post "/api/auth/login" "" "ann|password") server).2.
Definition revoked : Server := (HandleSessionsRevoke (call 11) (post "/api/auth/sessions/revoke" "" token) logged_in).2.

Definition later : list Event := [login 12 "password"; Restart (call 13) (true, true, true)].

Example revoked_session_refused_witness :
  exists reps st, exec_demo later (validator, revoked) = Some (reps, st) /\
  let '(rep, (_, s2)) := serve env None None None (call 14) (inr []) (post "/api/auth/users" ("Bearer " +:+ token) "") (validator, st.2) in
  Status rep = 401 /\ s2 = st.2.
Proof.
  destruct (exec_demo later (validator, revoked)) as [[reps st]|] eqn:E; [|vm_compute in E; discriminate E].
  exists reps, st. split; [done|].
  destruct (revoked_session_refused env None None None (call 11) (post "/api/auth/sessions/revoke" "" token) logged_in revoked
    (ok (PText "store.Session revoked successfully")) token validator later reps st) as [H _]; [|done|done|exact E| | |].
  - left. split; [vm_compute; reflexivity|vm_compute; reflexivity].
  - repeat constructor.
  - apply (f_equal (option_map fst)) in E. cbn [option_map fst] in E. vm_compute in E. injection E as <-. repeat constructor; vm_compute; done.
  - specialize (H (call 14) (inr []) (post "/api/auth/users" ("Bearer " +:+ token) "") validator eq_refl).
    destruct (serve _ _ _ _ _ _ _ _) as [rep [v s2]]. tauto.
Defined.

(** Tokens have whole seconds: a login in the second of the revoked one hands
    out the same token, and its session is in force again. *)
Example same_second_reissue :
  exists reps st, exec_demo [login 10 "password"] (validator, revoked) = Some (reps, st) /\ Forall (issues token) reps /\
  Status (serve env None None None (call 14) (inr []) (post "/api/auth/sessions/revoke" ("Bearer " +:+ token) "x") (validator, st.2)).1 = 404.
Proof. eexists _, _. split; [vm_compute; reflexivity|]. split; [repeat constructor; vm_compute; reflexivity|vm_compute; reflexivity]. Qed.

(** A restart that cannot load the sessions goes on with none, and a token
    without a session is not refused: the revoked one is accepted. *)
Example restart_without_sessions :
  exists reps st, exec_demo [Restart (call 13) (true, true, false)] (validator, revoked) = Some (reps, st) /\
  let asked s := Status (serve env None None None (call 14) (inr []) (post "/api/auth/sessions/revoke" ("Bearer " +:+ token) "x") (validator, s)).1 in
  asked revoked = 401 /\ asked st.2 = 404.
Proof. eexists _, _. split; [vm_compute; reflexivity|]. split; vm_compute; reflexivity. Qed.

(** Twelve wrong passwords within eleven minutes: four are compared. *)
Definition guesses : list Event := (fun i => login (60 * Z.of_nat i) "wrong-password") <$> seq 1 12.

Example lockout_bounds_guesses_witness :
  tally env None None None (guessed "default:ann") guesses (validator, server) = 4%nat /\ 4 <= 3 + (720 * Second - 60 * Second) / (5 * Minute).
Proof.
  split; [vm_compute; reflexivity|].
  assert (E : tally env None None None (guessed "default:ann") guesses (validator, server) = 4%nat) by (vm_compute; reflexivity).
  change 4 with (Z.of_nat 4). rewrite <- E.
  assert (Hsome : match exec_demo guesses (validator, server) with Some _ => true | None => false end = true) by (vm_compute; reflexivity).
  destruct (exec_demo guesses (validator, server)) as [[reps st]|] eqn:Hex; [|discriminate Hsome]. clear Hsome.
  assert (Ha : u_FailedAttempts <$> Users server !! "default:ann" = Some 0) by (vm_compute; reflexivity).
  destruct (Users server !! "default:ann") as [u|] eqn:Hu; [|discriminate Ha]. injection Ha as Ha.
  eapply (lockout_bounds_guesses env None None None "default:ann" guesses validator server u);
    [exact Hu|by rewrite Ha|rewrite Ha; vm_compute; discriminate|exact Hex|vm_compute; discriminate| | |vm_compute; reflexivity].
  - unfold guesses. apply Forall_fmap, Forall_seq. intros i Hi. unfold compose, timely, login, call, at_; cbn [clock].
    change Second with 1000000000. lia.
  - unfold guesses. apply Forall_fmap, Forall_seq. intros i Hi. vm_compute. done.
Defined.

(** Four logins that have all passed the check before one of them has failed
    are all compared: the lock does not count them. *)
Example parallel_guesses :
  let attempt s := login_finish env (call 5) (post "/api/auth/login" "" "ann|wrong") (mkLogin "ann" "wrong") "default:ann" (Users server !! "default:ann") s in
  login_check (call 5) "default:ann" server = inr (Users server !! "default:ann") /\
  let s3 := (attempt (attempt (attempt server).2).2).2 in
  login_check (call 5) "default:ann" s3 = inl lockout /\ (attempt s3).1 = wrong_password.
Proof. vm_compute. repeat split. Qed.

Example registered_user_can_login_witness :
  exists token s2, HandleLogin env (call 20) (post "/api/auth/login" "" "ann|password") server = (ok (PLogin token "ann"), s2) /\
    exists x, Sessions s2 !! token = Some x /\ s_Revoked x = false /\ s_Username x = "ann".
Proof.
  assert (Hlk : match Users server !! "default:ann" with Some u => negb (locked (at_ (call 20) 0) u) | None => false end = true) by (vm_compute; reflexivity).
  destruct (Users server !! "default:ann") as [u|] eqn:Hu; [|discriminate Hlk]. apply negb_true_iff in Hlk.
  destruct (HandleRegister (call 1) (post "/api/auth/register" "" "ann|ann@x|password") (empty_server (mkSaved None None None))) as [rep s1] eqn:Hreg.
  assert (Hs1 : s1 = server) by (unfold server; by rewrite Hreg).
  assert (Hst : Status rep = 201).
  { replace rep with (HandleRegister (call 1) (post "/api/auth/register" "" "ann|ann@x|password") (empty_server (mkSaved None None None))).1 by (by rewrite Hreg).
    vm_compute. reflexivity. }
  subst s1.
  refine (registered_user_can_login env None None None (call 1) (call 20) (post "/api/auth/register" "" "ann|ann@x|password")
    (post "/api/auth/login" "" "ann|password") (empty_server (mkSaved None None None)) server rep (mkRegister "ann" "ann@x" "password") validator []
    [] (validator, server) u _ Hreg Hst eq_refl _ eq_refl _ eq_refl Hu Hlk _).
  - vm_compute. reflexivity.
  - constructor.
  - vm_compute. reflexivity.
  - intros cl s. eexists. vm_compute. reflexivity.
Defined.

(** After a restart the passwords are gone: they are not part of what is
    saved. *)
Example restart_forgets_passwords :
  match exec_demo [Restart (call 3) (true, true, true); login 20 "password"] (validator, server) with
  | Some ([rep], _) => said rep = Some wrong_message
  | _ => False
  end.
Proof. vm_compute. reflexivity. Qed.

(** The versioned path of the login is not one of those that need no
    token. *)
Example versioned_login_needs_token :
  Status (serve env None None None (call 2) (inr []) (post "/api/v1/auth/login" "" "ann|password") (validator, server)).1 = 401.
Proof. vm_compute. reflexivity. Qed.

(** A refresh token in a JSON body is not found: the body has been read. *)
Example json_refresh_not_found : forall s,
  let r := mkRequest "POST" "/oauth/token" (fun _ => "application/json") "" (fun _ => "") (fun _ => "") None "||refresh_token" None None in
  (HandleToken env (call 2) r s).1 = mkReply 400 (Error "refresh_token is required" "invalid_request").
Proof. intros s. vm_compute. reflexivity. Qed.

(** Who knows the mail address of a user can set the password: the token for
    it is in the reply. *)
Example reset_without_mail :
  let r1 := post "/api/auth/reset-password/request" "" "ann@x" in
  match exec_demo [serve_demo 5 r1; serve_demo 6 (post "/api/auth/reset-password/confirm" "" "rst-5000000000|new-password"); login 7 "new-password"] (validator, server) with
  | Some ([rep; _; rep'], _) => content rep = Data (PToken "rst-5000000000") /\ content rep' = Data (PLogin "ann@default@7@86407" "ann")
  | _ => False
  end.
Proof. vm_compute. repeat split. Qed.

(** A passkey login takes any signature. *)
Example passkey_without_signature :
  let s := with_users {["default:ann" := set_passkey "id" "key" (new_user "ann" "" "" "" None "default")]} server in
  match exec_demo [serve_demo 5 (post "/api/auth/passkey/login/challenge" "" "ann"); serve_demo 6 (post "/api/auth/passkey/login/verify" "" "ann|cg|forged")] (validator, s) with
  | Some ([rep; rep'], _) => content rep = Data (PChallenge "cg") /\ content rep' = Data (PLogin "ann@default@6@86406" "ann")
  | _ => False
  end.
Proof. vm_compute. repeat split. Qed.

(** The federation of a tenant is set by whoever names it in the query. *)
Example federation_of_another_tenant :
  let r := mkRequest "POST" "/api/auth/federation/oidc" (fun h => if bool_decide (h = "Authorization") then "Bearer ann@default@1@2" else "")
             "" (fun _ => "other") (fun _ => "") None "evil" None None in
  o_TenantID <$> tenantOidcMap (serve env None None None (call 2) (inr []) r (validator, server)).2.2 !! "other" = Some "other".
Proof. vm_compute. reflexivity. Qed.

(** A request for one tenant changes the user of another whose name holds a
    colon. *)
Example keys_of_tenants_collide : userKey "a" "b:c" = userKey "a:b" "c".
Proof. reflexivity. Qed.

Example tenant_isolation_witness :
  exists rep v' s', serve env None None None (call 2) (inr []) (post "/api/auth/keys" "Bearer ann@default@1@2" "") (validator, server) = (rep, (v', s')) /\
    Users s' !! "other:bob" = Users server !! "other:bob".
Proof.
  destruct (serve env None None None (call 2) (inr []) (post "/api/auth/keys" "Bearer ann@default@1@2" "") (validator, server)) as [rep [v' s']] eqn:E.
  exists rep, v', s'. split; [done|].
  refine (proj1 (tenant_isolation env None None None (call 2) (inr []) (post "/api/auth/keys" "Bearer ann@default@1@2" "") validator v' server s' rep
    (mkClaims "ann" ["user"] [] "default" "Pranor" "ann" 1 2) E _ _ _ _) "other" "bob" _ _).
  - vm_compute. reflexivity.
  - done.
  - by apply (bool_decide_unpack _).
  - by apply (bool_decide_unpack _).
  - done.
  - by apply (bool_decide_unpack _).
Defined.
End Demo.
