(* ===== verification/GatewayParts.v ===== *)
(** * Parts of the API gateway ([gate/pkg/proxy])

    Headers, the response cache ([cache.go]), validation of bodies
    ([validation.go]), prompts ([ai.go]), IP lists, JSON transformation, gRPC
    framing, the concurrency limiter, the latency breaker and the choice of a
    target ([handler.go]), and the promotion of canaries ([canary.go]).

    Locks make each of these operations atomic.  A wait in the limiter is
    three steps: up to the [select], the grant, the end without a grant.  JSON,
    hashes, regular expressions and IP addresses are classes of operations. *)

From S2P Require Import Prelude GoStrings GoNumbers GoSort GoTime GoFloat.
Set Warnings "-register-all".
Local Open Scope string_scope.
Local Open Scope Z_scope.
Local Open Scope list_scope.

(** ** Headers *)

Definition Headers : Type := gmap string (list string).

Fixpoint canonical_bytes (up : bool) (s : bytes) : bytes :=
  match s with
  | [] => []
  | c :: s =>
      let n := N_of_ascii c in
      (if up && (97 <=? n)%N && (n <=? 122)%N then ascii_of_N (n - 32)
       else if negb up && (65 <=? n)%N && (n <=? 90)%N then ascii_of_N (n + 32) else c)
      :: canonical_bytes (bool_decide (c = "-"%char)) s
  end.

(** [textproto.CanonicalMIMEHeaderKey], on a key that is a token. *)
Definition CanonicalKey (k : string) : string := str (canonical_bytes true (byt k)).

Definition header_Get (h : Headers) (k : string) : string :=
  match h !! CanonicalKey k with Some (v :: _) => v | _ => "" end.
Definition header_Set (k v : string) (h : Headers) : Headers := <[CanonicalKey k := [v]]> h.
Definition header_Add (k v : string) (h : Headers) : Headers :=
  <[CanonicalKey k := default [] (h !! CanonicalKey k) ++ [v]]> h.

(** [for k, vs := range src { for _, v := range vs { dst.Add(k, v) } }] *)
Definition add_headers (src dst : Headers) : Headers :=
  fold_left (fun dst kv => fold_left (fun dst v => header_Add kv.1 v dst) kv.2 dst) (map_to_list src) dst.

(** ** The response cache *)

Class Hash := { Sum256 : string -> bytes }.

Record HTTPCacheEntry := mkEntry { e_Body : string; e_StatusCode : Z; e_Headers : Headers; e_ExpiresAt : Z }.
Record ResponseCache := mkCache { entries : gmap string HTTPCacheEntry; ttl : Z }.

Definition NewResponseCache (ttl : Z) : ResponseCache := mkCache ∅ ttl.

(** [now.After(entry.ExpiresAt)] *)
Definition expired (now : Z) (e : HTTPCacheEntry) : bool := e_ExpiresAt e <? now.

Definition cache_Get (now : Z) (key : string) (rc : ResponseCache) : option HTTPCacheEntry * ResponseCache :=
  match entries rc !! key with
  | None => (None, rc)
  | Some e => if expired now e then (None, mkCache (delete key (entries rc)) (ttl rc)) else (Some e, rc)
  end.

Definition cache_Set (now : Z) (key body : string) (statusCode : Z) (headers : Headers) (rc : ResponseCache) : ResponseCache :=
  mkCache (<[key := mkEntry body statusCode headers (now + ttl rc)]> (entries rc)) (ttl rc).

Definition Invalidate (prefix : string) (rc : ResponseCache) : Z * ResponseCache :=
  if bool_decide (prefix = "") then (Z.of_nat (size (entries rc)), mkCache ∅ (ttl rc))
  else
    (Z.of_nat (size (filter (fun kv : string * HTTPCacheEntry => HasPrefix kv.1 prefix = true) (entries rc))),
     mkCache (filter (fun kv : string * HTTPCacheEntry => HasPrefix kv.1 prefix = false) (entries rc)) (ttl rc)).

Definition cache_Size (rc : ResponseCache) : Z := Z.of_nat (size (entries rc)).

Definition evictExpired (now : Z) (rc : ResponseCache) : ResponseCache :=
  mkCache (filter (fun kv : string * HTTPCacheEntry => expired now kv.2 = false) (entries rc)) (ttl rc).

(** The text that is hashed. *)
Definition cache_text (method path rawQuery : string) : string :=
  method +:+ ":" +:+ path +:+
  (if bool_decide (rawQuery = "") then "" else "?" +:+ GoStrings.Join (sort_Strings (Split rawQuery "&"%char)) "&").

Definition CacheKey `{Hash} (method path rawQuery : string) : string := hex (Sum256 (cache_text method path rawQuery)).

Definition IsCacheableMethod `{Casing} (method : string) (allowedMethods : list string) : bool :=
  match allowedMethods with
  | [] => bool_decide (method = "GET")
  | ms => existsb (EqualFold method) ms
  end.

(** ** JSON values, validation of bodies *)

(** The fields of an object in the order in which a [range] visits them. *)
Inductive JValue :=
  | JNull | JBool (b : bool) | JNumber (x : float64) | JString (s : string)
  | JArray (l : list JValue) | JObject (fields : list (string * JValue)).

Class Json := { Unmarshal : string -> option JValue; Marshal : JValue -> option string }.

Fixpoint assoc {A} (key : string) (l : list (string * A)) : option A :=
  match l with
  | [] => None
  | (k, v) :: l => if bool_decide (k = key) then Some v else assoc key l
  end.

(** [json.Unmarshal] into a [map[string]interface{}]. *)
Definition as_map (v : JValue) : option (list (string * JValue)) :=
  match v with JObject fields => Some fields | JNull => Some [] | _ => None end.

Record FieldRule := mkFieldRule { required : bool; expectedType : string }.

(** The loop over the parts of a rule: the last word that is not "required"
    is the type. *)
Definition parse_rule (rule : string) : FieldRule :=
  fold_left (fun r p =>
    let p := TrimSpace p in
    if bool_decide (p = "required") then mkFieldRule true (expectedType r)
    else if negb (bool_decide (p = "")) then mkFieldRule (required r) p else r) (Split rule ","%char) (mkFieldRule false "").

Definition is_integral (x : float64) : bool := feqb x (float_of_Z (truncate_float x)).

Definition must_be (field what : string) : option string := Some ("Validation failed: field '" +:+ field +:+ "' must be " +:+ what).

Definition check_type (field ty : string) (v : JValue) : option string :=
  if bool_decide (ty = "string") then match v with JString _ => None | _ => must_be field "a string" end
  else if bool_decide (ty = "email") then
    match v with
    | JString s => if negb (Contains s "@") || negb (Contains s ".") then must_be field "a valid email" else None
    | _ => must_be field "a string"
    end
  else if bool_decide (ty ∈ ["int"; "integer"]) then
    match v with JNumber x => if is_integral x then None else must_be field "an integer" | _ => must_be field "an integer" end
  else if bool_decide (ty ∈ ["float"; "number"; "double"]) then match v with JNumber _ => None | _ => must_be field "a number" end
  else if bool_decide (ty ∈ ["bool"; "boolean"]) then match v with JBool _ => None | _ => must_be field "a boolean" end
  else None.

(** One round of the loop over the schema. *)
Definition check_field (data : list (string * JValue)) (fr : string * string) : option string :=
  let r := parse_rule fr.2 in
  match assoc fr.1 data with
  | None | Some JNull => if required r then Some ("Validation failed: field '" +:+ fr.1 +:+ "' is required") else None
  | Some v => check_type fr.1 (expectedType r) v
  end.

Fixpoint first_error {A} (f : A -> option string) (l : list A) : option string :=
  match l with [] => None | x :: l => match f x with Some e => Some e | None => first_error f l end end.

(** [None]: valid.  The schema is in the order in which the loop visits it. *)
Definition ValidateRequest `{Json} (body : string) (schema : list (string * string)) : option string :=
  if bool_decide (schema = []) then None
  else match (if bool_decide (body = "") then Some [] else Unmarshal body ≫= as_map) with
       | None => Some "Validation failed: request body is not valid JSON"
       | Some data => first_error (check_field data) schema
       end.

(** ** Prompts *)

Class Regexp := { MatchString : string -> string -> bool; ReplaceAllString : string -> string -> string -> string }.

Definition extractPrompt `{Json} (body : string) : string :=
  match Unmarshal body ≫= as_map with
  | None => ""
  | Some data =>
      match assoc "prompt" data with
      | Some (JString prompt) => prompt
      | _ =>
          match assoc "messages" data with
          | Some (JArray messages) =>
              match last messages with
              | Some (JObject lastMsg) => match assoc "content" lastMsg with Some (JString content) => content | _ => "" end
              | _ => ""
              end
          | _ => ""
          end
      end
  end.

Definition injectionPatterns : list string :=
  ["(?i)ignore previous instructions"; "(?i)system prompt override"; "(?i)you are now in developer mode"; "(?i)jailbreak"].

Definition IsPromptInjection `{Regexp} (prompt : string) : bool := existsb (fun p => MatchString p prompt) injectionPatterns.

Definition piiPatterns : list (string * string) :=
  [("[REDACTED_EMAIL]", "(?i)[a-zA-Z0-9._%+-]+@[a-zA-Z0-9.-]+\.[a-zA-Z]{2,}");
   ("[REDACTED_PHONE]", "\b(?:\+\d{1,3}[- ]?)?\(?\d{3}\)?[- ]?\d{3}[- ]?\d{4}\b");
   ("[REDACTED_SSN]", "\b\d{3}-\d{2}-\d{4}\b");
   ("[REDACTED_CARD]", "\b(?:\d{4}[- ]?){3}\d{4}\b")].

(** [patterns]: the table in the order in which the loop visits it. *)
Definition RedactPii `{Regexp} (patterns : list (string * string)) (text : string) : string :=
  fold_left (fun text p => ReplaceAllString p.2 text p.1) patterns text.

(** ** IP lists *)

Class Net := {
  IP : Type; ParseIP : string -> option IP; ip_Equal : IP -> IP -> bool;
  ParseCIDR : string -> option (IP -> bool) }.

Definition ipMatches `{Net} (ip : IP) (pattern : string) : bool :=
  match (if Contains pattern "/" then ParseCIDR pattern else None) with
  | Some contains => contains ip
  | None => match ParseIP pattern with Some p => ip_Equal p ip | None => false end
  end.

Definition checkIPAccess `{Net} (clientIP : string) (allowlist blocklist : list string) : bool :=
  match ParseIP clientIP with
  | None => true
  | Some ip => negb (existsb (ipMatches ip) blocklist) && (bool_decide (allowlist = []) || existsb (ipMatches ip) allowlist)
  end.

(** ** Transformation of JSON *)

(** [res[key] = v] *)
Fixpoint assoc_set {A} (key : string) (v : A) (l : list (string * A)) : list (string * A) :=
  match l with
  | [] => [(key, v)]
  | (k, x) :: l => if bool_decide (k = key) then (k, v) :: l else (k, x) :: assoc_set key v l
  end.

Definition renamed (mapping : gmap string string) (key : string) : string := default key (mapping !! key).

Fixpoint transformValue (mapping : gmap string string) (val : JValue) : JValue :=
  match val with
  | JObject fields =>
      JObject (fold_left (fun res kv => assoc_set (renamed mapping kv.1) kv.2 res)
                 ((fix go fields := match fields with [] => [] | (k, v) :: fields => (k, transformValue mapping v) :: go fields end) fields) [])
  | JArray l => JArray ((fix go l := match l with [] => [] | v :: l => transformValue mapping v :: go l end) l)
  | v => v
  end.

(** [inl]: the error. *)
Definition transformJSON `{Json} (body : string) (mapping : gmap string string) : string + string :=
  if bool_decide (body = "") || bool_decide (mapping = ∅) then inr body
  else match Unmarshal body with
       | None => inl "failed to unmarshal JSON"
       | Some data => match Marshal (transformValue mapping data) with None => inl "failed to marshal JSON" | Some out => inr out end
       end.

(** [data[f] = "[REDACTED]"] for the fields that are there. *)
Definition redact_field (data : list (string * JValue)) (f : string) : list (string * JValue) :=
  match assoc f data with Some _ => assoc_set f (JString "[REDACTED]") data | None => data end.

Definition redact_body `{Json} (redactFields : list string) (body : string) : string :=
  match Unmarshal body with
  | Some (JObject data) => default "" (Marshal (JObject (fold_left redact_field redactFields data)))
  (* a nil map is marshalled as null *)
  | Some JNull => default "" (Marshal JNull)
  | _ => body
  end.

(** ** gRPC framing *)

(** [binary.BigEndian]: 32 bits. *)
Definition PutUint32 (n : Z) : bytes :=
  (fun k => ascii_of_N (Z.to_N ((n / 2 ^ (8 * k)) mod 256))) <$> [3; 2; 1; 0].

Definition Uint32 (b : bytes) : Z := fold_left (fun acc c => acc * 256 + Z.of_N (N_of_ascii c)) b 0.

Definition wrapu32 (z : Z) : Z := z mod 2 ^ 32.

Definition pack_frame (body : bytes) : bytes := "000"%char :: PutUint32 (wrapu32 (Z.of_nat (length body))) ++ body.

Inductive Unpacked := Whole | Payload (b : bytes) | Panics.

(** The sum with the length is one of 32 bits. *)
Definition unpack_frame (body : bytes) : Unpacked :=
  if (5 <=? length body)%nat then
    let payloadLen := Uint32 (take 4 (drop 1 body)) in
    let high := wrapu32 (5 + payloadLen) in
    if high <=? Z.of_nat (length body)
    then if high <? 5 then Panics else Payload (take (Z.to_nat (high - 5)) (drop 5 body))
    else Whole
  else Whole.

(** ** The concurrency limiter *)

(** The lengths and the capacities of the channels [sem] and [queue]. *)
Record BackpressureLimiter := mkLimiter { sem : Z; queue : Z; sem_cap : Z; queue_cap : Z; timeout : Z }.

(** [None]: the panic of [make] with a negative size; the inner option is the
    nil pointer. *)
Definition NewBackpressureLimiter (maxConcurrent maxQueue timeoutMs : Z) : option (option BackpressureLimiter) :=
  if maxConcurrent <=? 0 then Some None
  else if maxQueue <? 0 then None
  else Some (Some (mkLimiter 0 0 maxConcurrent maxQueue (if 0 <? timeoutMs then wrap64 (timeoutMs * Millisecond) else 5000 * Millisecond))).

Inductive Acquired := Slot | Enqueued | QueueFull.

Definition Acquire (l : BackpressureLimiter) : Acquired * BackpressureLimiter :=
  if sem l <? sem_cap l then (Slot, mkLimiter (sem l + 1) (queue l) (sem_cap l) (queue_cap l) (timeout l))
  else if queue l <? queue_cap l then (Enqueued, mkLimiter (sem l) (queue l + 1) (sem_cap l) (queue_cap l) (timeout l))
  else (QueueFull, l).

(** In the second [select]: the send to [sem], possible only when there is
    room, with the deferred receive from [queue]. *)
Definition acquire_grant (l : BackpressureLimiter) : option BackpressureLimiter :=
  if sem l <? sem_cap l then Some (mkLimiter (sem l + 1) (queue l - 1) (sem_cap l) (queue_cap l) (timeout l)) else None.

(** The timer or the end of the context. *)
Definition acquire_giveup (l : BackpressureLimiter) : BackpressureLimiter :=
  mkLimiter (sem l) (queue l - 1) (sem_cap l) (queue_cap l) (timeout l).

Definition release (l : BackpressureLimiter) : BackpressureLimiter :=
  mkLimiter (sem l - 1) (queue l) (sem_cap l) (queue_cap l) (timeout l).

(** ** The latency breaker *)

Inductive CircuitState := StateClosed | StateOpen | StateHalfOpen.

Record CircuitBreaker := mkBreaker {
  state : CircuitState; latencies : list Z; successCount : Z; lastStateChange : Z; sloThreshold : Z }.

Definition NewCircuitBreaker (slo : Z) : CircuitBreaker := mkBreaker StateClosed [] 0 0 slo.

(** [t], [t']: the readings of the clock. *)
Definition Allow (t t' : Z) (cb : CircuitBreaker) : bool * CircuitBreaker :=
  match state cb with
  | StateClosed => (true, cb)
  | StateOpen =>
      if 5 * Second <? Sub t (lastStateChange cb)
      then (true, mkBreaker StateHalfOpen (latencies cb) 0 t' (sloThreshold cb))
      else (false, cb)
  | StateHalfOpen => (true, cb)
  end.

(** [sort.Slice] on a copy; [None]: index out of range. *)
Definition calculateP99 (latencies : list Z) : option Z :=
  let sorted := merge_sort Z.le latencies in
  let n := Z.of_nat (length sorted) in
  let idx := truncate_float (fmul (float_of_Z n) (float_of_ratio 99 100)) in
  let idx := if n <=? idx then n - 1 else idx in
  if idx <? 0 then None else sorted !! Z.to_nat idx.

Definition opened (now : Z) (cb : CircuitBreaker) : CircuitBreaker :=
  mkBreaker StateOpen (latencies cb) (successCount cb) now (sloThreshold cb).

Definition RecordRequest (now dur : Z) (success : bool) (cb : CircuitBreaker) : CircuitBreaker :=
  if negb success then opened now cb
  else
    let ls := latencies cb ++ [dur] in
    let ls := if (50 <? length ls)%nat then drop 1 ls else ls in
    let cb := mkBreaker (state cb) ls (successCount cb) (lastStateChange cb) (sloThreshold cb) in
    match state cb with
    | StateHalfOpen =>
        let cb := mkBreaker (state cb) ls (successCount cb + 1) (lastStateChange cb) (sloThreshold cb) in
        if (dur <=? sloThreshold cb) && (3 <=? successCount cb) then mkBreaker StateClosed [] (successCount cb) now (sloThreshold cb)
        else if sloThreshold cb <? dur then opened now cb
        else cb
    | StateClosed =>
        if (5 <=? length ls)%nat then
          match calculateP99 ls with
          | Some p99 => if sloThreshold cb <? p99 then opened now cb else cb
          | None => cb
          end
        else cb
    | StateOpen => cb
    end.

(** ** Routes and the choice of a target *)

Record WeightedTarget := mkTarget { URL : string; Weight : Z }.

(** Of the configuration for language models only the presence is read. *)
Record Route := mkRoute {
  Prefix : string; SchemaName : string; Target : string; Targets : list string; TargetsWeighted : list WeightedTarget;
  CanaryAutoPromote : bool; CanaryPromoteStep : Z; CanaryPromoteSec : Z; CanaryMaxErrorRate : float64; LoadBalancer : string;
  TranspileType : string; Middleware : string; ResponseMiddleware : string; r_RateLimitRPM : Z; PromptGuard : bool;
  PiiRedact : bool; SemanticCache : bool; ValidationSchema : list (string * string); IPAllowlist : list string;
  IPBlocklist : list string; AccessLog : bool; AccessLogPath : string; CacheTTLSeconds : Z; CacheMethods : list string;
  ClientCertPath : string; ClientKeyPath : string; RootCAPath : string; MaxConcurrentRequests : Z; MaxQueueSize : Z;
  QueueTimeoutMs : Z; GoMiddleware : string; RequireAPIKey : bool; AllowedTenants : list string;
  RequestTransform : gmap string string; ResponseTransform : gmap string string; GraphQLFederation : gmap string string;
  MCPEnabled : bool; LLMRouting : bool; WASMSplit : option (list (string * Z)); MaxBodySize : Z; PromptABTest : bool;
  ResponseQualityScore : bool; SemanticRateLimit : bool; AIWAFEnabled : bool }.

Definition set_TargetsWeighted (ts : list WeightedTarget) (r : Route) : Route :=
  mkRoute (Prefix r) (SchemaName r) (Target r) (Targets r) ts (CanaryAutoPromote r) (CanaryPromoteStep r) (CanaryPromoteSec r)
    (CanaryMaxErrorRate r) (LoadBalancer r) (TranspileType r) (Middleware r) (ResponseMiddleware r) (r_RateLimitRPM r)
    (PromptGuard r) (PiiRedact r) (SemanticCache r) (ValidationSchema r) (IPAllowlist r) (IPBlocklist r) (AccessLog r)
    (AccessLogPath r) (CacheTTLSeconds r) (CacheMethods r) (ClientCertPath r) (ClientKeyPath r) (RootCAPath r)
    (MaxConcurrentRequests r) (MaxQueueSize r) (QueueTimeoutMs r) (GoMiddleware r) (RequireAPIKey r) (AllowedTenants r)
    (RequestTransform r) (ResponseTransform r) (GraphQLFederation r) (MCPEnabled r) (LLMRouting r) (WASMSplit r) (MaxBodySize r)
    (PromptABTest r) (ResponseQualityScore r) (SemanticRateLimit r) (AIWAFEnabled r).
Definition set_CanaryAutoPromote (b : bool) (r : Route) : Route :=
  mkRoute (Prefix r) (SchemaName r) (Target r) (Targets r) (TargetsWeighted r) b (CanaryPromoteStep r) (CanaryPromoteSec r)
    (CanaryMaxErrorRate r) (LoadBalancer r) (TranspileType r) (Middleware r) (ResponseMiddleware r) (r_RateLimitRPM r)
    (PromptGuard r) (PiiRedact r) (SemanticCache r) (ValidationSchema r) (IPAllowlist r) (IPBlocklist r) (AccessLog r)
    (AccessLogPath r) (CacheTTLSeconds r) (CacheMethods r) (ClientCertPath r) (ClientKeyPath r) (RootCAPath r)
    (MaxConcurrentRequests r) (MaxQueueSize r) (QueueTimeoutMs r) (GoMiddleware r) (RequireAPIKey r) (AllowedTenants r)
    (RequestTransform r) (ResponseTransform r) (GraphQLFederation r) (MCPEnabled r) (LLMRouting r) (WASMSplit r) (MaxBodySize r)
    (PromptABTest r) (ResponseQualityScore r) (SemanticRateLimit r) (AIWAFEnabled r).
Definition set_r_RateLimitRPM (limit : Z) (r : Route) : Route :=
  mkRoute (Prefix r) (SchemaName r) (Target r) (Targets r) (TargetsWeighted r) (CanaryAutoPromote r) (CanaryPromoteStep r)
    (CanaryPromoteSec r) (CanaryMaxErrorRate r) (LoadBalancer r) (TranspileType r) (Middleware r) (ResponseMiddleware r) limit
    (PromptGuard r) (PiiRedact r) (SemanticCache r) (ValidationSchema r) (IPAllowlist r) (IPBlocklist r) (AccessLog r)
    (AccessLogPath r) (CacheTTLSeconds r) (CacheMethods r) (ClientCertPath r) (ClientKeyPath r) (RootCAPath r)
    (MaxConcurrentRequests r) (MaxQueueSize r) (QueueTimeoutMs r) (GoMiddleware r) (RequireAPIKey r) (AllowedTenants r)
    (RequestTransform r) (ResponseTransform r) (GraphQLFederation r) (MCPEnabled r) (LLMRouting r) (WASMSplit r) (MaxBodySize r)
    (PromptABTest r) (ResponseQualityScore r) (SemanticRateLimit r) (AIWAFEnabled r).
Definition set_CacheTTLSeconds (secs : Z) (r : Route) : Route :=
  mkRoute (Prefix r) (SchemaName r) (Target r) (Targets r) (TargetsWeighted r) (CanaryAutoPromote r) (CanaryPromoteStep r)
    (CanaryPromoteSec r) (CanaryMaxErrorRate r) (LoadBalancer r) (TranspileType r) (Middleware r) (ResponseMiddleware r)
    (r_RateLimitRPM r) (PromptGuard r) (PiiRedact r) (SemanticCache r) (ValidationSchema r) (IPAllowlist r) (IPBlocklist r)
    (AccessLog r) (AccessLogPath r) secs (CacheMethods r) (ClientCertPath r) (ClientKeyPath r) (RootCAPath r)
    (MaxConcurrentRequests r) (MaxQueueSize r) (QueueTimeoutMs r) (GoMiddleware r) (RequireAPIKey r) (AllowedTenants r)
    (RequestTransform r) (ResponseTransform r) (GraphQLFederation r) (MCPEnabled r) (LLMRouting r) (WASMSplit r) (MaxBodySize r)
    (PromptABTest r) (ResponseQualityScore r) (SemanticRateLimit r) (AIWAFEnabled r).
Definition set_CacheMethods (ms : list string) (r : Route) : Route :=
  mkRoute (Prefix r) (SchemaName r) (Target r) (Targets r) (TargetsWeighted r) (CanaryAutoPromote r) (CanaryPromoteStep r)
    (CanaryPromoteSec r) (CanaryMaxErrorRate r) (LoadBalancer r) (TranspileType r) (Middleware r) (ResponseMiddleware r)
    (r_RateLimitRPM r) (PromptGuard r) (PiiRedact r) (SemanticCache r) (ValidationSchema r) (IPAllowlist r) (IPBlocklist r)
    (AccessLog r) (AccessLogPath r) (CacheTTLSeconds r) ms (ClientCertPath r) (ClientKeyPath r) (RootCAPath r)
    (MaxConcurrentRequests r) (MaxQueueSize r) (QueueTimeoutMs r) (GoMiddleware r) (RequireAPIKey r) (AllowedTenants r)
    (RequestTransform r) (ResponseTransform r) (GraphQLFederation r) (MCPEnabled r) (LLMRouting r) (WASMSplit r) (MaxBodySize r)
    (PromptABTest r) (ResponseQualityScore r) (SemanticRateLimit r) (AIWAFEnabled r).

(** [for ... { accum += weight; if r < accum { return } }] *)
Fixpoint pick_weighted {A} (name : A -> string) (weight : A -> Z) (r accum : Z) (l : list A) : option string :=
  match l with
  | [] => None
  | t :: l => if r <? accum + weight t then Some (name t) else pick_weighted name weight r (accum + weight t) l
  end.

Definition total_weight {A} (weight : A -> Z) (l : list A) : Z := fold_left (fun n t => n + weight t) l 0.

(** The loops for the fewest connections and for the least load: [-1] marks
    the start. *)
Fixpoint least (value : string -> Z) (minVal : Z) (selected : string) (targets : list string) : string :=
  match targets with
  | [] => selected
  | t :: targets =>
      if (minVal =? -1) || (value t <? minVal) then least value (value t) t targets else least value minVal selected targets
  end.

Record Balancer := mkBalancer { rrIndices : gmap string Z; activeConns : gmap string Z; targetLoad : gmap string Z }.

(** [Intn]: the random number below a positive bound. *)
Definition selectTarget (Intn : Z -> Z) (route : Route) (b : Balancer) : string * Balancer :=
  let total := total_weight Weight (TargetsWeighted route) in
  match (if 0 <? total then head (TargetsWeighted route) else None) with
  | Some first => (default (URL first) (pick_weighted URL Weight (Intn total) 0 (TargetsWeighted route)), b)
  | None =>
      match Targets route with
      | [] => (Target route, b)
      | first :: _ =>
          let round_robin :=
            let idx := default 0 (rrIndices b !! Prefix route) in
            let n := Z.of_nat (length (Targets route)) in
            (default first (Targets route !! Z.to_nat (idx mod n)),
             mkBalancer (<[Prefix route := (idx + 1) mod n]> (rrIndices b)) (activeConns b) (targetLoad b)) in
          if bool_decide (LoadBalancer route = "least_conn") then
            (least (fun t => default 0 (activeConns b !! t)) (-1) "" (Targets route), b)
          else if bool_decide (LoadBalancer route = "backpressure") then
            let selected := least (fun t => default 0 (targetLoad b !! t)) (-1) "" (Targets route) in
            if negb (bool_decide (selected = "")) then (selected, b) else round_robin
          else round_robin
      end
  end.

Definition selectWASMMiddleware (Intn : Z -> Z) (route : Route) : string :=
  match WASMSplit route with
  | None | Some [] => Middleware route
  | Some ((first :: _) as targets) =>
      let total := total_weight snd targets in
      if total <=? 0 then Middleware route else default first.1 (pick_weighted fst snd (Intn total) 0 targets)
  end.

Definition incConn (target : string) (b : Balancer) : Balancer :=
  mkBalancer (rrIndices b) (<[target := default 0 (activeConns b !! target) + 1]> (activeConns b)) (targetLoad b).

Definition decConn (target : string) (b : Balancer) : Balancer :=
  let n := default 0 (activeConns b !! target) - 1 in
  mkBalancer (rrIndices b) (<[target := if n <? 0 then 0 else n]> (activeConns b)) (targetLoad b).

Definition set_load (target : string) (load : Z) (b : Balancer) : Balancer :=
  mkBalancer (rrIndices b) (activeConns b) (<[target := load]> (targetLoad b)).

(** ** Promotion of canaries *)

Record canaryStatsRecord := mkStats { TotalCalls : Z; ErrorCalls : Z }.

(** What a tick reads and writes for one route: the route, the statistics and
    the times of the last promotions. *)
Definition Tick : Type := gmap string canaryStatsRecord * gmap string Z.

Definition set_weights (route : Route) (stable canary : Z) : Route :=
  match TargetsWeighted route with
  | s :: c :: rest => set_TargetsWeighted (mkTarget (URL s) stable :: mkTarget (URL c) canary :: rest) route
  | _ => route
  end.

(** [float64(errors)/float64(total) > maxErrRate] *)
Definition error_rate_exceeds (errors total : Z) (maxErrRate : float64) : bool :=
  fltb maxErrRate (fdiv (float_of_Z errors) (float_of_Z total)).

Definition max_error_rate (route : Route) : float64 :=
  if fleb (CanaryMaxErrorRate route) fzero then float_of_ratio 1 100 else CanaryMaxErrorRate route.

Definition promote_interval (route : Route) : Z :=
  let i := wrap64 (CanaryPromoteSec route * Second) in if i <=? 0 then Second else i.

Definition promote_step (route : Route) : Z := if CanaryPromoteStep route <=? 0 then 10 else CanaryPromoteStep route.

(** One round of the loop; [t] is the clock. *)
Definition promote_route (t : Z) (route : Route) (k : Tick) : Route * Tick :=
  let '(stats, lastPromoted) := k in
  match TargetsWeighted route with
  | stable :: canary :: _ =>
      if negb (CanaryAutoPromote route) then (route, k)
      else if 100 <=? Weight canary then (set_CanaryAutoPromote false route, k)
      else
        let st := stats !! URL canary in
        let total := default 0 (TotalCalls <$> st) in
        let errors := default 0 (ErrorCalls <$> st) in
        if (3 <=? total) && error_rate_exceeds errors total (max_error_rate route) then
          (set_CanaryAutoPromote false (set_weights route 100 0), (delete (URL canary) stats, lastPromoted))
        else
          match lastPromoted !! Prefix route with
          | None => (route, (stats, <[Prefix route := t]> lastPromoted))
          | Some lastTime =>
              if promote_interval route <=? Sub t lastTime then
                let w := wrap64 (Weight canary + promote_step route) in
                let w := if 100 <? w then 100 else w in
                (set_weights route (wrap64 (100 - w)) w,
                 (match st with Some _ => <[URL canary := mkStats 0 0]> stats | None => stats end,
                  <[Prefix route := t]> lastPromoted))
              else (route, k)
          end
  | _ => (route, k)
  end.

(** A tick of the loop over all routes. *)
Fixpoint promote_routes (t : Z) (routes : list Route) (k : Tick) : list Route * Tick :=
  match routes with
  | [] => ([], k)
  | r :: routes =>
      let '(r, k) := promote_route t r k in
      let '(routes, k) := promote_routes t routes k in (r :: routes, k)
  end.

(** The statistics after a call that went to the second target. *)
Definition count_canary_call (target : string) (statusCode : Z) (stats : gmap string canaryStatsRecord) : gmap string canaryStatsRecord :=
  let s := default (mkStats 0 0) (stats !! target) in
  <[target := mkStats (TotalCalls s + 1) (if 500 <=? statusCode then ErrorCalls s + 1 else ErrorCalls s)]> stats.

(** ** The cache as a memory of responses *)

Inductive CacheOp :=
  | OGet (key : string) | OSet (key body : string) (statusCode : Z) (headers : Headers)
  | OInvalidate (prefix : string) | OEvict.

Definition cache_step (rc : ResponseCache) (op : Z * CacheOp) : ResponseCache :=
  match op.2 with
  | OGet key => (cache_Get op.1 key rc).2
  | OSet key body statusCode headers => cache_Set op.1 key body statusCode headers rc
  | OInvalidate prefix => (Invalidate prefix rc).2
  | OEvict => evictExpired op.1 rc
  end.

(** What is to be remembered under a key: the last response that was stored
    and not invalidated since. *)
Definition remember (ttl : Z) (key : string) (e : option HTTPCacheEntry) (op : Z * CacheOp) : option HTTPCacheEntry :=
  match op.2 with
  | OSet k body statusCode headers => if bool_decide (k = key) then Some (mkEntry body statusCode headers (op.1 + ttl)) else e
  | OInvalidate prefix => if HasPrefix key prefix then None else e
  | _ => e
  end.

(** The clock does not run backwards. *)
Fixpoint ordered (t0 : Z) (ops : list (Z * CacheOp)) : Prop :=
  match ops with [] => True | op :: ops => t0 <= op.1 /\ ordered op.1 ops end.

Definition last_time (t0 : Z) (ops : list (Z * CacheOp)) : Z := fold_left (fun _ op => op.1) ops t0.

(** The table may lack a response only when that is expired. *)
Definition holds (t : Z) (rc : ResponseCache) (key : string) (e : option HTTPCacheEntry) : Prop :=
  entries rc !! key = e \/ entries rc !! key = None /\ exists x, e = Some x /\ expired t x = true.

Lemma HasPrefix_empty s : HasPrefix s "" = true.
Proof. apply HasPrefix_iff. by exists s. Qed.

Lemma filter_lookup_key (P : string * HTTPCacheEntry -> Prop) `{!forall x, Decision (P x)} (m : gmap string HTTPCacheEntry) key :
  filter P m !! key = (e ← m !! key; if bool_decide (P (key, e)) then Some e else None).
Proof.
  rewrite map_lookup_filter. destruct (m !! key) as [e|]; cbn; [|done].
  case_guard; case_bool_decide; done.
Qed.

Lemma Invalidate_lookup prefix rc key :
  entries (Invalidate prefix rc).2 !! key = if HasPrefix key prefix then None else entries rc !! key.
Proof.
  unfold Invalidate. case_bool_decide as Hp; cbn [snd entries].
  - subst. rewrite HasPrefix_empty. apply lookup_empty.
  - rewrite filter_lookup_key. destruct (entries rc !! key), (HasPrefix key prefix) eqn:E; cbn; try done; by rewrite E.
Qed.

Lemma expired_mono t t' e : t <= t' -> expired t e = true -> expired t' e = true.
Proof. unfold expired. lia. Qed.

Lemma cache_step_ttl rc op : ttl (cache_step rc op) = ttl rc.
Proof. destruct op as [t []]; cbn; unfold cache_Get, Invalidate; split_matches; done. Qed.

Lemma cache_step_holds t0 rc key e op :
  t0 <= op.1 -> holds t0 rc key e -> holds op.1 (cache_step rc op) key (remember (ttl rc) key e op).
Proof.
  destruct op as [t op]. intros Ht [H | (H & x & -> & Hx)]; cbn in Ht;
    [|apply (expired_mono _ t) in Hx; [|done]]; unfold holds, cache_step, remember; cbn [fst snd]; destruct op as [k|k b s h|p|].
  - unfold cache_Get. destruct (entries rc !! k) as [x|] eqn:E; [|by left].
    destruct (expired t x) eqn:Ex; cbn; [|by left]. destruct (decide (k = key)) as [->|Hk].
    + right. rewrite lookup_delete_eq. split; [done|]. exists x. split; congruence.
    + left. by rewrite lookup_delete_ne.
  - left. unfold cache_Set. cbn. case_bool_decide; subst; [apply lookup_insert_eq | by rewrite lookup_insert_ne].
  - left. rewrite Invalidate_lookup. by destruct HasPrefix.
  - unfold evictExpired. cbn [entries]. rewrite filter_lookup_key, H. destruct e as [x|]; cbn; [|by left].
    destruct (expired t x) eqn:Ex; cbn; [|by left]. right. split; [done|]. by exists x.
  - right. split; [|by exists x]. unfold cache_Get. destruct (entries rc !! k) as [y|] eqn:E; [|done].
    destruct (expired t y); cbn; [|done]. destruct (decide (k = key)) as [->|]; [apply lookup_delete_eq | by rewrite lookup_delete_ne].
  - unfold cache_Set. cbn. case_bool_decide; subst; [left; apply lookup_insert_eq|]. right. rewrite lookup_insert_ne by done. by eauto.
  - rewrite Invalidate_lookup. destruct HasPrefix; [by left|]. right. by eauto.
  - right. split; [|by exists x]. unfold evictExpired. cbn [entries]. by rewrite filter_lookup_key, H.
Qed.

Lemma cache_run_holds key ops : forall t0 rc e,
  ordered t0 ops -> holds t0 rc key e ->
  holds (last_time t0 ops) (fold_left cache_step ops rc) key (fold_left (remember (ttl rc) key) ops e).
Proof.
  induction ops as [|op ops IH]; intros t0 rc e Ho Hh; [done|]. destruct Ho as [H1 H2].
  cbn. rewrite <- (cache_step_ttl rc op). apply IH; [done|]. rewrite cache_step_ttl. by apply (cache_step_holds t0).
Qed.

Definition fresh (now : Z) (e : HTTPCacheEntry) : option HTTPCacheEntry := if expired now e then None else Some e.

(** The response cache gives back exactly what is to be remembered: after any
    run of lookups, stores, invalidations and evictions, a lookup finds the
    response that was stored last under the key, unless it was invalidated
    since or its time to live is over. *)
Theorem response_cache_exact (lifetime t0 now : Z) (ops : list (Z * CacheOp)) (key : string) :
  ordered t0 ops -> last_time t0 ops <= now ->
  (cache_Get now key (fold_left cache_step ops (NewResponseCache lifetime))).1 = fold_left (remember lifetime key) ops None ≫= fresh now.
Proof.
  intros Ho Hn.
  destruct (cache_run_holds key ops t0 (NewResponseCache lifetime) None) as [H | (H & x & Hx & He)]; [done | by left | ..];
    cbn [ttl NewResponseCache] in *; unfold cache_Get; rewrite H.
  - destruct (fold_left (remember lifetime key) ops None) as [e|]; cbn; [|done]. unfold fresh. by destruct expired.
  - rewrite Hx. cbn. unfold fresh. by rewrite (expired_mono _ now _ Hn He).
Qed.

Lemma response_cache_exact_witness :
  let ops := [(1, OSet "k" "first" 200 ∅); (2, OEvict); (3, OSet "k" "second" 200 ∅); (4, OInvalidate "x"); (5, OGet "k")] in
  (cache_Get 6 "k" (fold_left cache_step ops (NewResponseCache 10))).1 = fold_left (remember 10 "k") ops None ≫= fresh 6.
Proof. intros ops. apply (response_cache_exact 10 0 6 ops "k"); [repeat split | ]; cbn; lia. Defined.

(** ** Keys of the cache *)

Lemma split_at_first (c : ascii) (a b x y : bytes) :
  c ∉ a -> c ∉ b -> (x = [] \/ exists r, x = c :: r) -> (y = [] \/ exists r, y = c :: r) -> a ++ x = b ++ y -> a = b /\ x = y.
Proof.
  revert b. induction a as [|d a IH]; intros [|e b] Ha Hb Hx Hy E; cbn in E.
  - done.
  - destruct Hx as [-> | [r ->]]; [done|]. injection E as -> _. by destruct Hb; left.
  - destruct Hy as [-> | [r ->]]; [done|]. injection E as -> _. by destruct Ha; left.
  - injection E as -> E. apply not_elem_of_cons in Ha as [_ Ha], Hb as [_ Hb].
    by destruct (IH b Ha Hb Hx Hy E) as [-> ->].
Qed.

Definition query_text (q : string) : bytes :=
  if bool_decide (q = "") then [] else "?"%char :: byt (GoStrings.Join (sort_Strings (Split q "&"%char)) "&").

Lemma cache_text_byt m p q : byt (cache_text m p q) = byt m ++ ":"%char :: byt p ++ query_text q.
Proof. unfold cache_text, query_text. rewrite !byt_app. case_bool_decide; [done|]. by rewrite byt_app. Qed.

Lemma joined_query_inj q q' :
  GoStrings.Join (sort_Strings (Split q "&"%char)) "&" = GoStrings.Join (sort_Strings (Split q' "&"%char)) "&" ->
  Split q "&"%char ≡ₚ Split q' "&"%char.
Proof.
  assert (H : forall q, Split (GoStrings.Join (sort_Strings (Split q "&"%char)) "&") "&"%char = sort_Strings (Split q "&"%char)).
  { intros q0. apply Split_Join.
    - intros E. pose proof (sort_Strings_perm (Split q0 "&"%char)) as Hp. rewrite E in Hp.
      apply Permutation_nil in Hp. by apply Split_nonempty in Hp.
    - rewrite sort_Strings_perm. apply Split_no_sep. }
  intros E. etransitivity; [symmetry; apply sort_Strings_perm|]. rewrite <- (H q), E, (H q'). apply sort_Strings_perm.
Qed.

(** Two requests share a key of the response cache only when they have the
    same method, the same path and the same parameters up to order, if the
    hash does not collide on their texts, no method holds a colon and no path
    a question mark. *)
Theorem cache_key_separates `{Hash} (m m' p p' q q' : string) :
  (Sum256 (cache_text m p q) = Sum256 (cache_text m' p' q') -> cache_text m p q = cache_text m' p' q') ->
  ":"%char ∉ byt m -> ":"%char ∉ byt m' -> "?"%char ∉ byt p -> "?"%char ∉ byt p' ->
  CacheKey m p q = CacheKey m' p' q' ->
  m = m' /\ p = p' /\ Split q "&"%char ≡ₚ Split q' "&"%char.
Proof.
  intros Hc Hm Hm' Hp Hp' E. unfold CacheKey in E.
  assert (E1 : cache_text m p q = cache_text m' p' q').
  { apply Hc. apply (f_equal (fun s => unhex (byt s))) in E. unfold hex in E. rewrite !byt_str, !unhex_hex in E. congruence. }
  apply (f_equal byt) in E1. rewrite !cache_text_byt in E1.
  apply (split_at_first ":") in E1 as [Em E1]; [|eauto..]. injection E1 as E1.
  assert (Hq : forall q, query_text q = [] \/ exists r, query_text q = "?"%char :: r).
  { intros q0. unfold query_text. case_bool_decide; eauto. }
  apply (split_at_first "?") in E1 as [Ep Eq]; [|auto..]. splits; [by apply byt_inj.. |].
  unfold query_text in Eq. do 2 case_bool_decide; try done; subst; [done|]. injection Eq as Eq. by apply joined_query_inj, byt_inj.
Qed.

(** The path is decoded before it is hashed: a path with an encoded question
    mark shares its key with another resource. *)
Example encoded_question_mark_collides `{Hash} : CacheKey "GET" "/a?b=1" "" = CacheKey "GET" "/a" "b=1".
Proof. reflexivity. Qed.

(** ** Frames *)

Lemma Uint32_PutUint32 n : 0 <= n < 2 ^ 32 -> Uint32 (PutUint32 n) = n.
Proof.
  intros Hn. unfold PutUint32, Uint32. cbn [fmap list_fmap fold_left].
  assert (H : forall k, 0 <= k -> Z.of_N (N_of_ascii (ascii_of_N (Z.to_N ((n / 2 ^ (8 * k)) mod 256)))) = (n / 2 ^ (8 * k)) mod 256).
  { intros k Hk. pose proof (Z.mod_pos_bound (n / 2 ^ (8 * k)) 256 eq_refl).
    rewrite N_ascii_embedding, Z2N.id; [done | lia |]. apply N2Z.inj_lt. rewrite Z2N.id; cbn; lia. }
  rewrite !H by lia. change (2 ^ (8 * 3)) with 16777216. change (2 ^ (8 * 2)) with 65536. change (2 ^ (8 * 1)) with 256.
  change (2 ^ (8 * 0)) with 1. Z.div_mod_to_equations. lia.
Qed.

(** A body that is packed into a gRPC frame is unpacked to itself, as long as
    the frame is shorter than 4 GiB. *)
Theorem frame_roundtrip (body : bytes) :
  Z.of_nat (length body) + 5 < 2 ^ 32 -> unpack_frame (pack_frame body) = Payload body.
Proof.
  intros Hb. unfold unpack_frame, pack_frame.
  rewrite (proj2 (Nat.leb_le 5 _)) by (cbn; lia).
  change (drop 1 (?c :: ?l)) with l. rewrite (take_app_length' _ body 4) by done.
  rewrite Uint32_PutUint32; unfold wrapu32; [|apply Z.mod_pos_bound; lia].
  rewrite !(Z.mod_small (Z.of_nat (length body))), Z.mod_small by lia.
  rewrite (proj2 (Z.leb_le _ _)), (proj2 (Z.ltb_ge _ _)) by (cbn; lia). f_equal.
  change (drop 5 (?c :: ?l)) with (drop 4 l). rewrite (drop_app_length' _ body 4) by done.
  rewrite take_ge; [done | lia].
Qed.

(** A length close to 2^32 makes the sum wrap, and the slice panics. *)
Example frame_panics : unpack_frame (byt "x" ++ replicate 4 "255"%char) = Panics.
Proof. reflexivity. Qed.

(** ** The breaker trips on the slowest of its samples *)

Lemma p99_index n :
  (1 <= n <= 50)%nat ->
  let idx := truncate_float (fmul (float_of_Z (Z.of_nat n)) (float_of_ratio 99 100)) in
  (if Z.of_nat n <=? idx then Z.of_nat n - 1 else idx) = Z.of_nat n - 1.
Proof.
  intros Hn. assert (H : forallb (fun n => let idx := truncate_float (fmul (float_of_Z (Z.of_nat n)) (float_of_ratio 99 100)) in
    (if Z.of_nat n <=? idx then Z.of_nat n - 1 else idx) =? Z.of_nat n - 1) (seq 1 50) = true) by (vm_compute; reflexivity).
  rewrite forallb_forall in H. apply Z.eqb_eq, H, in_seq. lia.
Qed.

(** With the samples that are kept, the percentile is the maximum. *)
Lemma p99_is_maximum ls :
  (1 <= length ls <= 50)%nat -> exists p, calculateP99 ls = Some p /\ p ∈ ls /\ forall x, x ∈ ls -> x <= p.
Proof.
  intros Hl. pose proof (merge_sort_Permutation Z.le ls) as Hp. pose proof (Permutation_length Hp) as Hlen.
  pose proof (p99_index (length ls) Hl) as Hx99. cbv zeta in Hx99. unfold calculateP99. cbv zeta. rewrite Hlen, Hx99.
  rewrite (proj2 (Z.ltb_ge (Z.of_nat (length ls) - 1) 0)) by lia.
  destruct (lookup_lt_is_Some_2 (merge_sort Z.le ls) (Z.to_nat (Z.of_nat (length ls) - 1))) as [p E]; [lia|].
  exists p. split; [done|]. split; [rewrite <- Hp; by eapply list_elem_of_lookup_2|].
  intros x Hx. rewrite <- Hp in Hx. apply list_elem_of_lookup in Hx as [i Hi].
  destruct (decide (i = Z.to_nat (Z.of_nat (length ls) - 1))) as [->|Hne]; [rewrite Hi in E; injection E as ->; lia|].
  pose proof (lookup_lt_Some _ _ _ Hi).
  apply (StronglySorted_lookup_lt Z.le (merge_sort Z.le ls) i (Z.to_nat (Z.of_nat (length ls) - 1)));
    [apply (StronglySorted_merge_sort Z.le) | done | done | lia].
Qed.

Definition window (ls : list Z) : list Z := if (50 <? length ls)%nat then drop 1 ls else ls.

(** The state after a recorded request: a failure opens the circuit; a closed
    one opens when one of its last 50 samples, of at least five, is slower
    than the objective; a half-open one opens on a slow request and closes
    with its third success. *)
Theorem latency_breaker_exact (now dur : Z) (success : bool) (cb : CircuitBreaker) :
  (length (latencies cb) <= 50)%nat ->
  let ls := window (latencies cb ++ [dur]) in
  (length (latencies (RecordRequest now dur success cb)) <= 50)%nat /\
  (state (RecordRequest now dur success cb) = StateOpen <->
   success = false \/ state cb = StateOpen \/
   state cb = StateClosed /\ (5 <= length ls)%nat /\ (exists x, x ∈ ls /\ sloThreshold cb < x) \/
   state cb = StateHalfOpen /\ sloThreshold cb < dur) /\
  (state (RecordRequest now dur success cb) = StateHalfOpen <->
   success = true /\ state cb = StateHalfOpen /\ dur <= sloThreshold cb /\ successCount cb < 2).
Proof.
  intros Hl ls. destruct success; [|cbn; naive_solver].
  assert (Hw : (1 <= length ls <= 50)%nat).
  { unfold ls, window. rewrite length_app. case (Nat.ltb_spec 50 (length (latencies cb) + length [dur])); intros; rewrite ?length_drop, ?length_app; cbn [length] in *; lia. }
  unfold RecordRequest. cbn [negb]. fold (window (latencies cb ++ [dur])). fold ls. cbn [state]. destruct (state cb) eqn:Es; cbn [sloThreshold successCount].
  - destruct (Nat.leb_spec 5 (length ls)) as [H5|H5].
    + destruct (p99_is_maximum ls Hw) as (p & -> & Hin & Hmax).
      destruct (Z.ltb_spec (sloThreshold cb) p) as [Hp|Hp]; cbn; rewrite ?Es; (split; [lia|]); split; split; try naive_solver.
      intros [|[|[(_ & _ & x & Hx & Hs)|]]]; [done.. | | naive_solver]. apply Hmax in Hx. lia.
    + cbn [state latencies]. rewrite ?Es. split; [lia|]. split; split; try naive_solver.
      intros [|[|[(_ & Hx & _)|]]]; [done.. | lia | naive_solver].
  - cbn. rewrite ?Es. split; [lia|]. split; split; naive_solver.
  - destruct (Z.leb_spec dur (sloThreshold cb)), (Z.leb_spec 3 (successCount cb + 1)), (Z.ltb_spec (sloThreshold cb) dur); cbn; try lia;
      rewrite ?Es; (split; [lia|]); split; split; intros; destruct_and?; destruct_or?; destruct_and?; try done; auto with lia.
Qed.

(** ** Targets *)

Definition route_targets (route : Route) : list string := (URL <$> TargetsWeighted route) ++ Targets route ++ [Target route].

Lemma pick_weighted_in {A} (name : A -> string) (weight : A -> Z) r l : forall accum s,
  pick_weighted name weight r accum l = Some s -> s ∈ name <$> l.
Proof.
  induction l as [|t l IH]; intros accum s; cbn; [done|]. destruct (r <? _); [intros [= <-]; left|].
  intros H. right. by eapply IH.
Qed.

Lemma least_in value l : forall m sel, least value m sel l = sel \/ least value m sel l ∈ l.
Proof.
  induction l as [|t l IH]; intros m sel; cbn; [by left|].
  destruct (_ || _); [destruct (IH (value t) t) as [->|]; right; [left | by right] | destruct (IH m sel); [by left | right; by right]].
Qed.

Lemma least_nonempty_in value t l : least value (-1) "" (t :: l) ∈ t :: l.
Proof. cbn. destruct (least_in value l (value t) t) as [->|]; [left | by right]. Qed.

(** The target of a request is one of its route. *)
Lemma selectTarget_in Intn route b : (selectTarget Intn route b).1 ∈ route_targets route.
Proof.
  unfold selectTarget, route_targets. rewrite !elem_of_app.
  destruct (if 0 <? _ then _ else None) as [first|] eqn:Ew.
  - left. cbn. assert (Hf : URL first ∈ URL <$> TargetsWeighted route).
    { destruct (0 <? _); [|done]. destruct (TargetsWeighted route); [done|]. injection Ew as ->. left. }
    destruct (pick_weighted _ _ _ _ _) as [s|] eqn:E; cbn; [|done]. by eapply pick_weighted_in.
  - destruct (Targets route) as [|first l] eqn:Et; [right; right; left|]. right. left.
    assert (Hr : default first ((first :: l) !! Z.to_nat (default 0 (rrIndices b !! Prefix route) mod Z.of_nat (length (first :: l)))) ∈ first :: l).
    { destruct (_ !! _) as [t|] eqn:E; cbn [default from_option]; [by eapply list_elem_of_lookup_2 | left]. }
    case_bool_decide; [apply least_nonempty_in|]. case_bool_decide; [|exact Hr].
    case_bool_decide; cbn [negb]; [exact Hr | apply least_nonempty_in].
Qed.

(** The counts of connections are changed by [incConn] and [decConn] only. *)
Lemma selectTarget_conns Intn route b : activeConns (selectTarget Intn route b).2 = activeConns b.
Proof. unfold selectTarget. by split_matches. Qed.

(** ** Canaries *)

Definition pair_weights (route : Route) : option (Z * Z) :=
  match TargetsWeighted route with s :: c :: _ => Some (Weight s, Weight c) | _ => None end.

(** The canary of a route has had too many errors. *)
Definition failing (stats : gmap string canaryStatsRecord) (route : Route) : bool :=
  match TargetsWeighted route with
  | _ :: c :: _ =>
      match stats !! URL c with
      | Some st => (3 <=? TotalCalls st) && error_rate_exceeds (ErrorCalls st) (TotalCalls st) (max_error_rate route)
      | None => false
      end
  | _ => false
  end.

Lemma set_weights_pair route s c :
  is_Some (pair_weights route) -> pair_weights (set_weights route s c) = Some (s, c).
Proof. unfold pair_weights, set_weights. intros [x Hx]. destruct (TargetsWeighted route) as [|? [|? ?]] eqn:E; [done..|]. done. Qed.

Lemma failing_eq stats route st ca rest :
  TargetsWeighted route = st :: ca :: rest ->
  (3 <=? default 0 (TotalCalls <$> stats !! URL ca)) &&
  error_rate_exceeds (default 0 (ErrorCalls <$> stats !! URL ca)) (default 0 (TotalCalls <$> stats !! URL ca)) (max_error_rate route) =
  failing stats route.
Proof. intros E. unfold failing. rewrite E. by destruct (stats !! URL ca). Qed.

(** When the canary of a route with two targets fails, the tick ends the
    promotion and no request is sent to the canary any more, whatever the
    random numbers. *)
Theorem canary_rollback_isolates (t : Z) (route : Route) (k : Tick) (stable canary : WeightedTarget) (Intn : Z -> Z) (b : Balancer) :
  TargetsWeighted route = [stable; canary] -> CanaryAutoPromote route = true -> Weight canary < 100 -> failing k.1 route = true ->
  (forall n, 0 < n -> 0 <= Intn n < n) ->
  let '(route', k') := promote_route t route k in
  CanaryAutoPromote route' = false /\ pair_weights route' = Some (100, 0) /\ k'.1 !! URL canary = None /\
  (selectTarget Intn route' b).1 = URL stable.
Proof.
  intros Ht Ha Hw Hf Hr. destruct k as [stats lp]. cbn [fst] in Hf. rewrite <- (failing_eq _ _ _ _ _ Ht) in Hf.
  unfold promote_route. rewrite Ht, Ha. cbn [negb]. rewrite (proj2 (Z.leb_gt _ _)) by lia. cbv zeta.
  rewrite Hf. unfold set_weights. rewrite Ht. splits; [done | done | apply lookup_delete_eq |].
  pose proof (Hr 100 eq_refl). change (default (URL stable) (pick_weighted URL Weight (Intn 100) 0 [mkTarget (URL stable) 100; mkTarget (URL canary) 0]) = URL stable).
  cbn [pick_weighted Weight URL]. by rewrite (proj2 (Z.ltb_lt (Intn 100) (0 + 100))) by lia.
Qed.

(** The ticks of a route, each with its time and what the statistics are
    then. *)
Fixpoint promote_run (route : Route) (lp : gmap string Z) (ticks : list (Z * gmap string canaryStatsRecord)) : Route * gmap string Z :=
  match ticks with
  | [] => (route, lp)
  | (t, stats) :: ticks => let '(r, (_, lp)) := promote_route t route (stats, lp) in promote_run r lp ticks
  end.

(** Each tick comes an interval after the one before, and the canary does not
    fail. *)
Fixpoint spaced (route : Route) (last : Z) (ticks : list (Z * gmap string canaryStatsRecord)) : Prop :=
  match ticks with
  | [] => True
  | (t, stats) :: ticks => promote_interval route <= Sub t last /\ failing stats route = false /\ spaced route t ticks
  end.

Lemma spaced_set_weights route s c last ticks : spaced (set_weights route s c) last ticks <-> spaced route last ticks.
Proof.
  assert (Hf : forall st, failing st (set_weights route s c) = failing st route).
  { intros st. unfold failing, set_weights. destruct (TargetsWeighted route) as [|? [|? ?]] eqn:E; cbn; rewrite ?E; done. }
  revert last. induction ticks as [|[t st] ticks IH]; intros last; cbn; [done|]. rewrite Hf, IH.
  assert (Hi : promote_interval (set_weights route s c) = promote_interval route) by (unfold promote_interval, set_weights; by destruct (TargetsWeighted route) as [|? [|? ?]]).
  by rewrite Hi.
Qed.

Lemma promote_step_range route : CanaryPromoteStep route <= 2 ^ 32 -> 0 < promote_step route <= 2 ^ 32.
Proof. unfold promote_step. case (Z.leb_spec (CanaryPromoteStep route) 0); lia. Qed.

Lemma promote_tick_healthy t route stats lp s c lastTime :
  pair_weights route = Some (s, c) -> CanaryAutoPromote route = true -> 0 <= c < 100 -> CanaryPromoteStep route <= 2 ^ 32 ->
  failing stats route = false -> lp !! Prefix route = Some lastTime -> promote_interval route <= Sub t lastTime ->
  let w := Z.min 100 (c + promote_step route) in
  exists stats', promote_route t route (stats, lp) = (set_weights route (100 - w) w, (stats', <[Prefix route := t]> lp)).
Proof.
  intros Hp Ha Hc Hs Hf Hl Hi w. apply promote_step_range in Hs as Hst.
  unfold promote_route. unfold pair_weights in Hp.
  destruct (TargetsWeighted route) as [|st [|ca rest]] eqn:Et; [done..|]. injection Hp as Es Ec.
  rewrite <- (failing_eq _ _ _ _ _ Et) in Hf. rewrite Ha. cbn [negb]. rewrite (proj2 (Z.leb_gt _ _)) by lia. cbv zeta.
  rewrite Hf, Hl, (proj2 (Z.leb_le _ _)) by lia. rewrite Ec, (wrap64_id (c + _)) by (unfold in_int64, min_int64, max_int64 in *; lia).
  assert (Hw : (if 100 <? c + promote_step route then 100 else c + promote_step route) = w) by (unfold w; case (Z.ltb_spec 100 (c + promote_step route)); lia).
  rewrite Hw. rewrite wrap64_id by (unfold in_int64, min_int64, max_int64, w in *; lia). by eexists.
Qed.

Lemma promote_run_done route lp ticks s c :
  pair_weights route = Some (s, c) -> 100 <= c -> pair_weights (promote_run route lp ticks).1 = Some (s, c).
Proof.
  revert route lp. induction ticks as [|[t stats] ticks IH]; intros route lp Hp Hc; [done|]. cbn [promote_run].
  destruct (promote_route t route (stats, lp)) as [r [st' lp']] eqn:E. apply IH; [|done].
  unfold promote_route in E. unfold pair_weights in Hp. destruct (TargetsWeighted route) as [|x [|y l]] eqn:Et; [done..|].
  injection Hp as Hx Hy. destruct (CanaryAutoPromote route); cbn in E; [rewrite (proj2 (Z.leb_le _ _)) in E by lia|];
    injection E as <- _ _; unfold pair_weights; cbn; rewrite Et; by rewrite Hx, Hy.
Qed.

(** A canary that does not fail is promoted step by step: after every tick
    that comes an interval later its weight has grown by the step, up to 100,
    and the stable target has the rest. *)
Theorem canary_promotion_progress (ticks : list (Z * gmap string canaryStatsRecord)) (route : Route) (lp : gmap string Z) (s c lastTime : Z) :
  pair_weights route = Some (s, c) -> s = 100 - c -> CanaryAutoPromote route = true -> 0 <= c <= 100 -> CanaryPromoteStep route <= 2 ^ 32 ->
  lp !! Prefix route = Some lastTime -> spaced route lastTime ticks ->
  let w := Z.min 100 (c + Z.of_nat (length ticks) * promote_step route) in
  pair_weights (promote_run route lp ticks).1 = Some (100 - w, w).
Proof.
  revert route lp s c lastTime. induction ticks as [|[t stats] ticks IH]; intros route lp s c lastTime Hp Hs Ha Hc Hstep Hl Hsp.
  - cbn. rewrite Hp. subst. repeat f_equal; lia.
  - destruct (promote_step_range _ Hstep) as [Hst _]. destruct (decide (c = 100)) as [->|Hne].
    + rewrite (promote_run_done _ _ _ s 100) by done. cbv zeta. subst. repeat f_equal; nia.
    + destruct Hsp as (Hi & Hf & Hsp).
      destruct (promote_tick_healthy t route stats lp s c lastTime) as [stats' E]; [done | done | lia | done.. |].
      cbn [promote_run]. rewrite E. set (w := Z.min 100 (c + promote_step route)).
      assert (Hpre : forall a b, Prefix (set_weights route a b) = Prefix route) by (intros; unfold set_weights; by destruct (TargetsWeighted route) as [|? [|? ?]]).
      assert (Hstp : forall a b, CanaryPromoteStep (set_weights route a b) = CanaryPromoteStep route) by (intros; unfold set_weights; by destruct (TargetsWeighted route) as [|? [|? ?]]).
      assert (Haut : forall a b, CanaryAutoPromote (set_weights route a b) = CanaryAutoPromote route) by (intros; unfold set_weights; by destruct (TargetsWeighted route) as [|? [|? ?]]).
      rewrite (IH _ _ (100 - w) w t).
      * unfold promote_step. rewrite Hstp. fold (promote_step route). cbn [length]. rewrite Nat2Z.inj_succ, Z.mul_succ_l.
        assert (0 <= Z.of_nat (length ticks) * promote_step route) by nia.
        assert (Z.min 100 (w + Z.of_nat (length ticks) * promote_step route) =
                Z.min 100 (c + (Z.of_nat (length ticks) * promote_step route + promote_step route))) as -> by (unfold w; lia). done.
      * apply set_weights_pair. by rewrite Hp.
      * done.
      * by rewrite Haut.
      * unfold w. lia.
      * by rewrite Hstp.
      * rewrite Hpre. apply lookup_insert_eq.
      * by apply spaced_set_weights.
Qed.

Module PartsDemo.
Definition route : Route :=
  mkRoute "/api" "" "" [] [mkTarget "http://stable" 90; mkTarget "http://canary" 10] true 30 1 fzero "" "" "" "" 0 false false false [] [] [] false ""
    0 [] "" "" "" 0 0 0 "" false [] ∅ ∅ ∅ false false None 0 false false false false.

(** After three ticks the weight is 100. *)
Lemma canary_promotion_progress_witness :
  let ticks := [(11 * Second, ∅); (12 * Second, {["http://canary" := mkStats 100 1]}); (14 * Second, ∅)] in
  pair_weights (promote_run route {["/api" := 10 * Second]} ticks).1 = Some (0, 100).
Proof.
  intros ticks. pose proof (canary_promotion_progress ticks route {["/api" := 10 * Second]} 90 10 (10 * Second)) as H.
  cbv zeta in H. rewrite H; [reflexivity | reflexivity | lia | reflexivity | lia | discriminate | reflexivity |].
  repeat split; vm_compute; done.
Defined.

Lemma canary_rollback_isolates_witness :
  let '(route', k') := promote_route 0 route ({["http://canary" := mkStats 3 1]}, ∅) in
  CanaryAutoPromote route' = false /\ pair_weights route' = Some (100, 0) /\ k'.1 !! "http://canary" = None /\
  (selectTarget (fun n => n - 1) route' (mkBalancer ∅ ∅ ∅)).1 = "http://stable".
Proof.
  apply (canary_rollback_isolates 0 route ({["http://canary" := mkStats 3 1]}, ∅) (mkTarget "http://stable" 90) (mkTarget "http://canary" 10) (fun n => n - 1));
    [reflexivity | reflexivity | cbn; lia | vm_compute; reflexivity | intros; lia].
Defined.

Lemma cache_key_separates_witness :
  let _ := {| Sum256 := byt |} : Hash in
  "GET" = "GET" /\ "/a" = "/a" /\ Split "x=1&y=2" "&"%char ≡ₚ Split "y=2&x=1" "&"%char.
Proof.
  intros hash. apply (@cache_key_separates hash); [intros E; by apply byt_inj | by vm_compute; set_solver.. | vm_compute; reflexivity].
Defined.
(** A target that reports the load -1 is passed over for any later one: -1
    also marks the start of the search. *)
Example load_minus_one : least (fun t => if bool_decide (t = "http://a") then -1 else 90) (-1) "" ["http://a"; "http://b"] = "http://b".
Proof. reflexivity. Qed.
End PartsDemo.
