(* ===== verification/Gateway.v ===== *)
(** * The API gateway ([gate/pkg/proxy/handler.go])

    The state is the record [GatewayHandler].  [ServeHTTP] is cut where a
    request waits: [arrive] goes up to the queue of the concurrency limiter,
    [proceed] from there to the call of the backend, [complete] handles the
    outcome.  Other requests and the administration run in between, see
    [step].  Each part is a sequence of stages; a stage ends the request with
    a reply or passes it on.  What is deferred runs when the reply is made.

    A body is what can be read of it, and whether the reading then fails.  The
    record [Env] holds what a part reads from outside: the clock, one reading
    per call site, random numbers, the environment, Redis, the schema
    registry, WASM and plugins.  Spans are not recorded, but their identifiers
    are.  The build is the open-source one: the stubs of the [_oss.go] files
    are used.  A route that is passed around keeps the weights it had when it
    was matched; the source shares their array with the promotion of
    canaries.  The replies for the documentation pages are not written out. *)

From Stdlib Require Import SpecFloat.
From S2P Require Import Prelude GoStrings GoNumbers GoSort GoTime GoFloat Core GatewayParts.
Local Open Scope string_scope.
Local Open Scope Z_scope.
Local Open Scope list_scope.

(** ** Requests and replies *)

Record BodyReader := mkBody { rest : string; broken : bool }.

Definition new_body (s : string) : BodyReader := mkBody s false.

(** [http.MaxBytesReader] *)
Definition MaxBytesReader (limit : Z) (b : BodyReader) : BodyReader :=
  if Z.of_nat (String.length (rest b)) <=? limit then b
  else mkBody (str (take (Z.to_nat limit) (byt (rest b)))) true.

(** A request with its context values. *)
Record Request := mkReq {
  Method : string; Path : string; RawQuery : string; Header : Headers; Host : string; RemoteAddr : string; Body : BodyReader;
  ContentLength : Z; ctx_tenant : option string; ctx_redact : option (list string) }.

Definition set_Method (x : string) (r : Request) : Request :=
  mkReq x (Path r) (RawQuery r) (Header r) (Host r) (RemoteAddr r) (Body r) (ContentLength r) (ctx_tenant r) (ctx_redact r).
Definition set_Path (x : string) (r : Request) : Request :=
  mkReq (Method r) x (RawQuery r) (Header r) (Host r) (RemoteAddr r) (Body r) (ContentLength r) (ctx_tenant r) (ctx_redact r).
Definition set_Header (x : Headers) (r : Request) : Request :=
  mkReq (Method r) (Path r) (RawQuery r) x (Host r) (RemoteAddr r) (Body r) (ContentLength r) (ctx_tenant r) (ctx_redact r).
Definition set_Host (x : string) (r : Request) : Request :=
  mkReq (Method r) (Path r) (RawQuery r) (Header r) x (RemoteAddr r) (Body r) (ContentLength r) (ctx_tenant r) (ctx_redact r).
Definition set_Body (x : BodyReader) (r : Request) : Request :=
  mkReq (Method r) (Path r) (RawQuery r) (Header r) (Host r) (RemoteAddr r) x (ContentLength r) (ctx_tenant r) (ctx_redact r).
Definition set_ContentLength (x : Z) (r : Request) : Request :=
  mkReq (Method r) (Path r) (RawQuery r) (Header r) (Host r) (RemoteAddr r) (Body r) x (ctx_tenant r) (ctx_redact r).
Definition set_ctx_tenant (x : option string) (r : Request) : Request :=
  mkReq (Method r) (Path r) (RawQuery r) (Header r) (Host r) (RemoteAddr r) (Body r) (ContentLength r) x (ctx_redact r).
Definition set_ctx_redact (x : option (list string)) (r : Request) : Request :=
  mkReq (Method r) (Path r) (RawQuery r) (Header r) (Host r) (RemoteAddr r) (Body r) (ContentLength r) (ctx_tenant r) x.

Definition Get (r : Request) (k : string) : string := header_Get (Header r) k.

(** [io.ReadAll(r.Body)]: what was read, whether that was all, and the
    request with its reader at the end. *)
Definition ReadAll (r : Request) : string * bool * Request :=
  (rest (Body r), negb (broken (Body r)), set_Body (mkBody "" (broken (Body r))) r).

(** [r.Body = io.NopCloser(bytes.NewReader(b))] *)
Definition with_body (b : string) (r : Request) : Request := set_Body (new_body b) r.
Definition with_sized_body (b : string) (r : Request) : Request := set_ContentLength (Z.of_nat (String.length b)) (with_body b r).

Record TenantPolicy := mkTenantPolicy { tp_TenantID : string; AllowedClusters : list string; AllowedRegions : list string; tp_RateLimitRPM : Z }.

Record APIKey := mkAPIKey { Key : string; Tenant : string; k_RateLimitRPM : Z; AllowedRoutes : list string }.

Inductive Content :=
  | ErrorJSON (msg code traceID : string) | Text (s : string) | PolicyTable (p : gmap string TenantPolicy)
  | Governance (score : Z) (warnings : list string) | Docs | OpenAPI (routes : list Route)
  | RPCError (id : JValue) (code : Z) (msg : string) | Tunnel | Aborted.

Record Reply := mkReply { Status : Z; reply_Header : Headers; content : Content }.

Record LogEntry := mkLog {
  l_Timestamp : Z; l_Method : string; l_Path : string; l_Route : string; l_ClientIP : string; l_Status : Z; l_LatencyMs : Z;
  l_RequestSize : Z; l_ResponseSize : Z; l_UserAgent : string; l_TraceID : string; l_Target : string; l_Tenant : string }.

(** ** The state *)

Record MetricsTracker := mkMetrics {
  totalRequests : Z; totalErrors : Z; lastRequests : Z; lastErrors : Z; reqRate : float64; errRate : float64 }.

Definition IncRequest (m : MetricsTracker) : MetricsTracker :=
  mkMetrics (wrapu64 (totalRequests m + 1)) (totalErrors m) (lastRequests m) (lastErrors m) (reqRate m) (errRate m).
Definition IncError (m : MetricsTracker) : MetricsTracker :=
  mkMetrics (totalRequests m) (wrapu64 (totalErrors m + 1)) (lastRequests m) (lastErrors m) (reqRate m) (errRate m).
Definition metrics_Tick (m : MetricsTracker) : MetricsTracker :=
  mkMetrics (totalRequests m) (totalErrors m) (totalRequests m) (totalErrors m)
    (float_of_Z (wrapu64 (totalRequests m - lastRequests m))) (float_of_Z (wrapu64 (totalErrors m - lastErrors m))).

(** [accessLoggers] are the routes with a logger, and [accessLog] what they
    have written; [transports] the routes with a transport of their own,
    through which the same is sent;
    [lastPromoted] is the variable of the promotion loop. *)
Record GatewayHandler := mkHandler {
  routes : list Route; authToken : string; ratLimiters : gmap string (list Z); balancer : Balancer; accessLoggers : gset string;
  accessLog : list LogEntry; responseCaches : gmap string ResponseCache; metricsTracker : MetricsTracker; transports : gset string;
  limiters : gmap string BackpressureLimiter; apiKeys : gmap string APIKey; redisClient : bool; policyVersion : Z;
  revokedSessions : gmap string Z; canaryStats : gmap string canaryStatsRecord; lastPromoted : gmap string Z;
  policySchema : option (list PolicyRule); tenantPolicies : gmap string TenantPolicy;
  circuitBreakers : gmap string CircuitBreaker }.

Definition set_routes (x : list Route) (r : GatewayHandler) : GatewayHandler :=
  mkHandler x (authToken r) (ratLimiters r) (balancer r) (accessLoggers r) (accessLog r) (responseCaches r) (metricsTracker r)
    (transports r) (limiters r) (apiKeys r) (redisClient r) (policyVersion r) (revokedSessions r) (canaryStats r) (lastPromoted r)
    (policySchema r) (tenantPolicies r) (circuitBreakers r).
Definition set_ratLimiters (x : gmap string (list Z)) (r : GatewayHandler) : GatewayHandler :=
  mkHandler (routes r) (authToken r) x (balancer r) (accessLoggers r) (accessLog r) (responseCaches r) (metricsTracker r)
    (transports r) (limiters r) (apiKeys r) (redisClient r) (policyVersion r) (revokedSessions r) (canaryStats r) (lastPromoted r)
    (policySchema r) (tenantPolicies r) (circuitBreakers r).
Definition set_balancer (x : Balancer) (r : GatewayHandler) : GatewayHandler :=
  mkHandler (routes r) (authToken r) (ratLimiters r) x (accessLoggers r) (accessLog r) (responseCaches r) (metricsTracker r)
    (transports r) (limiters r) (apiKeys r) (redisClient r) (policyVersion r) (revokedSessions r) (canaryStats r) (lastPromoted r)
    (policySchema r) (tenantPolicies r) (circuitBreakers r).
Definition set_accessLoggers (x : gset string) (r : GatewayHandler) : GatewayHandler :=
  mkHandler (routes r) (authToken r) (ratLimiters r) (balancer r) x (accessLog r) (responseCaches r) (metricsTracker r)
    (transports r) (limiters r) (apiKeys r) (redisClient r) (policyVersion r) (revokedSessions r) (canaryStats r) (lastPromoted r)
    (policySchema r) (tenantPolicies r) (circuitBreakers r).
Definition set_accessLog (x : list LogEntry) (r : GatewayHandler) : GatewayHandler :=
  mkHandler (routes r) (authToken r) (ratLimiters r) (balancer r) (accessLoggers r) x (responseCaches r) (metricsTracker r)
    (transports r) (limiters r) (apiKeys r) (redisClient r) (policyVersion r) (revokedSessions r) (canaryStats r) (lastPromoted r)
    (policySchema r) (tenantPolicies r) (circuitBreakers r).
Definition set_responseCaches (x : gmap string ResponseCache) (r : GatewayHandler) : GatewayHandler :=
  mkHandler (routes r) (authToken r) (ratLimiters r) (balancer r) (accessLoggers r) (accessLog r) x (metricsTracker r) (transports
    r) (limiters r) (apiKeys r) (redisClient r) (policyVersion r) (revokedSessions r) (canaryStats r) (lastPromoted r)
    (policySchema r) (tenantPolicies r) (circuitBreakers r).
Definition set_metricsTracker (x : MetricsTracker) (r : GatewayHandler) : GatewayHandler :=
  mkHandler (routes r) (authToken r) (ratLimiters r) (balancer r) (accessLoggers r) (accessLog r) (responseCaches r) x (transports
    r) (limiters r) (apiKeys r) (redisClient r) (policyVersion r) (revokedSessions r) (canaryStats r) (lastPromoted r)
    (policySchema r) (tenantPolicies r) (circuitBreakers r).
Definition set_transports (x : gset string) (r : GatewayHandler) : GatewayHandler :=
  mkHandler (routes r) (authToken r) (ratLimiters r) (balancer r) (accessLoggers r) (accessLog r) (responseCaches r)
    (metricsTracker r) x (limiters r) (apiKeys r) (redisClient r) (policyVersion r) (revokedSessions r) (canaryStats r)
    (lastPromoted r) (policySchema r) (tenantPolicies r) (circuitBreakers r).
Definition set_limiters (x : gmap string BackpressureLimiter) (r : GatewayHandler) : GatewayHandler :=
  mkHandler (routes r) (authToken r) (ratLimiters r) (balancer r) (accessLoggers r) (accessLog r) (responseCaches r)
    (metricsTracker r) (transports r) x (apiKeys r) (redisClient r) (policyVersion r) (revokedSessions r) (canaryStats r)
    (lastPromoted r) (policySchema r) (tenantPolicies r) (circuitBreakers r).
Definition set_apiKeys (x : gmap string APIKey) (r : GatewayHandler) : GatewayHandler :=
  mkHandler (routes r) (authToken r) (ratLimiters r) (balancer r) (accessLoggers r) (accessLog r) (responseCaches r)
    (metricsTracker r) (transports r) (limiters r) x (redisClient r) (policyVersion r) (revokedSessions r) (canaryStats r)
    (lastPromoted r) (policySchema r) (tenantPolicies r) (circuitBreakers r).
Definition set_policyVersion (x : Z) (r : GatewayHandler) : GatewayHandler :=
  mkHandler (routes r) (authToken r) (ratLimiters r) (balancer r) (accessLoggers r) (accessLog r) (responseCaches r)
    (metricsTracker r) (transports r) (limiters r) (apiKeys r) (redisClient r) x (revokedSessions r) (canaryStats r) (lastPromoted
    r) (policySchema r) (tenantPolicies r) (circuitBreakers r).
Definition set_revokedSessions (x : gmap string Z) (r : GatewayHandler) : GatewayHandler :=
  mkHandler (routes r) (authToken r) (ratLimiters r) (balancer r) (accessLoggers r) (accessLog r) (responseCaches r)
    (metricsTracker r) (transports r) (limiters r) (apiKeys r) (redisClient r) (policyVersion r) x (canaryStats r) (lastPromoted
    r) (policySchema r) (tenantPolicies r) (circuitBreakers r).
Definition set_canaryStats (x : gmap string canaryStatsRecord) (r : GatewayHandler) : GatewayHandler :=
  mkHandler (routes r) (authToken r) (ratLimiters r) (balancer r) (accessLoggers r) (accessLog r) (responseCaches r)
    (metricsTracker r) (transports r) (limiters r) (apiKeys r) (redisClient r) (policyVersion r) (revokedSessions r) x
    (lastPromoted r) (policySchema r) (tenantPolicies r) (circuitBreakers r).
Definition set_lastPromoted (x : gmap string Z) (r : GatewayHandler) : GatewayHandler :=
  mkHandler (routes r) (authToken r) (ratLimiters r) (balancer r) (accessLoggers r) (accessLog r) (responseCaches r)
    (metricsTracker r) (transports r) (limiters r) (apiKeys r) (redisClient r) (policyVersion r) (revokedSessions r) (canaryStats
    r) x (policySchema r) (tenantPolicies r) (circuitBreakers r).
Definition set_policySchema (x : option (list PolicyRule)) (r : GatewayHandler) : GatewayHandler :=
  mkHandler (routes r) (authToken r) (ratLimiters r) (balancer r) (accessLoggers r) (accessLog r) (responseCaches r)
    (metricsTracker r) (transports r) (limiters r) (apiKeys r) (redisClient r) (policyVersion r) (revokedSessions r) (canaryStats
    r) (lastPromoted r) x (tenantPolicies r) (circuitBreakers r).
Definition set_tenantPolicies (x : gmap string TenantPolicy) (r : GatewayHandler) : GatewayHandler :=
  mkHandler (routes r) (authToken r) (ratLimiters r) (balancer r) (accessLoggers r) (accessLog r) (responseCaches r)
    (metricsTracker r) (transports r) (limiters r) (apiKeys r) (redisClient r) (policyVersion r) (revokedSessions r) (canaryStats
    r) (lastPromoted r) (policySchema r) x (circuitBreakers r).
Definition set_circuitBreakers (x : gmap string CircuitBreaker) (r : GatewayHandler) : GatewayHandler :=
  mkHandler (routes r) (authToken r) (ratLimiters r) (balancer r) (accessLoggers r) (accessLog r) (responseCaches r)
    (metricsTracker r) (transports r) (limiters r) (apiKeys r) (redisClient r) (policyVersion r) (revokedSessions r) (canaryStats
    r) (lastPromoted r) (policySchema r) (tenantPolicies r) x.

(** ** Configuration *)

Section Configuration.
(** Whether the log of a route can be opened and its certificates loaded. *)
Variables (log_opens : string -> bool) (mtls_loads : string -> string -> string -> bool).

Definition log_path (route : Route) : string := if bool_decide (AccessLogPath route = "") then "./logs/access.jsonl" else AccessLogPath route.
Definition wants_mtls (route : Route) : bool := negb (bool_decide (ClientCertPath route = "")) || negb (bool_decide (RootCAPath route = "")).

Definition with_limiter (route : Route) (h : GatewayHandler) : option GatewayHandler :=
  l ← NewBackpressureLimiter (MaxConcurrentRequests route) (MaxQueueSize route) (QueueTimeoutMs route);
  Some (match l with Some l => set_limiters (<[Prefix route := l]> (limiters h)) h | None => h end).

(** The resources of a route that is new or changed; existing ones are kept.
    Semantic caches, which this build does not use, are left out.
    [None]: a panic. *)
Definition setup_route (route : Route) (h : GatewayHandler) : option GatewayHandler :=
  let p := Prefix route in
  let h := if (0 <? CacheTTLSeconds route) && bool_decide (responseCaches h !! p = None)
           then set_responseCaches (<[p := NewResponseCache (wrap64 (CacheTTLSeconds route * Second))]> (responseCaches h)) h else h in
  let h := if AccessLog route && bool_decide (p ∉ accessLoggers h) && log_opens (log_path route)
           then set_accessLoggers ({[p]} ∪ accessLoggers h) h else h in
  let h := if wants_mtls route && bool_decide (p ∉ transports h) && mtls_loads (ClientCertPath route) (ClientKeyPath route) (RootCAPath route)
           then set_transports ({[p]} ∪ transports h) h else h in
  if (0 <? MaxConcurrentRequests route) && bool_decide (limiters h !! p = None) then with_limiter route h else Some h.

Fixpoint setup_routes (rs : list Route) (h : GatewayHandler) : option GatewayHandler :=
  match rs with [] => Some h | r :: rs => h ← setup_route r h; setup_routes rs h end.

Definition UpdateRoutes (newRoutes : list Route) (h : GatewayHandler) : option GatewayHandler :=
  setup_routes newRoutes (set_routes newRoutes h).

(** The route with the same prefix is replaced, or the route is appended. *)
Fixpoint register (route : Route) (rs : list Route) : list Route :=
  match rs with
  | [] => [route]
  | r :: rs => if bool_decide (Prefix r = Prefix route) then route :: rs else r :: register route rs
  end.

Definition RegisterRoute (route : Route) (h : GatewayHandler) : option GatewayHandler :=
  setup_route route (set_routes (register route (routes h)) h).

(** Here a later route with the same prefix replaces the resources. *)
Definition init_route (h : option GatewayHandler) (route : Route) : option GatewayHandler :=
  h ← h;
  let p := Prefix route in
  let h := if AccessLog route && log_opens (log_path route) then set_accessLoggers ({[p]} ∪ accessLoggers h) h else h in
  let h := if 0 <? CacheTTLSeconds route
           then set_responseCaches (<[p := NewResponseCache (wrap64 (CacheTTLSeconds route * Second))]> (responseCaches h)) h else h in
  let h := if wants_mtls route && mtls_loads (ClientCertPath route) (ClientKeyPath route) (RootCAPath route)
           then set_transports ({[p]} ∪ transports h) h else h in
  if 0 <? MaxConcurrentRequests route then with_limiter route h else Some h.

Definition empty_handler (rs : list Route) (token : string) (redis : bool) : GatewayHandler :=
  mkHandler rs token ∅ (mkBalancer ∅ ∅ ∅) ∅ [] ∅ (mkMetrics 0 0 0 0 fzero fzero) ∅ ∅ ∅ redis 0 ∅ ∅ ∅ None ∅ ∅.

(** [redis]: a client could be made from the environment. *)
Definition NewGatewayHandler (rs : list Route) (token : string) (redis : bool) : option GatewayHandler :=
  fold_left init_route rs (Some (empty_handler rs token redis)).
End Configuration.

Definition SetAPIKeys (keys : list APIKey) (h : GatewayHandler) : GatewayHandler :=
  set_apiKeys (fold_left (fun m k => <[Key k := k]> m) keys ∅) h.

Definition RevokeUserSession (now : Z) (username : string) (h : GatewayHandler) : GatewayHandler :=
  set_revokedSessions (<[username := now]> (revokedSessions h)) h.

Definition IncrementPolicyVersion (h : GatewayHandler) : GatewayHandler := set_policyVersion (wrap64 (policyVersion h + 1)) h.

Definition UpdatePolicySchema (schema : list PolicyRule) (h : GatewayHandler) : GatewayHandler := set_policySchema (Some schema) h.

(** Every route with the prefix. *)
Definition EnableCacheOnRoute (prefix : string) (ttlSeconds : Z) (h : GatewayHandler) : GatewayHandler :=
  let on r := bool_decide (Prefix r = prefix) in
  let h' := set_routes ((fun r => if on r then set_CacheMethods ["GET"; "POST"] (set_CacheTTLSeconds ttlSeconds r) else r) <$> routes h) h in
  if existsb on (routes h) && bool_decide (responseCaches h !! prefix = None)
  then set_responseCaches (<[prefix := NewResponseCache (wrap64 (ttlSeconds * Second))]> (responseCaches h)) h' else h'.

Definition InvalidateCache (routePrefix keyPrefix : string) (h : GatewayHandler) : Z * GatewayHandler :=
  match responseCaches h !! routePrefix with
  | Some c => let '(n, c) := Invalidate keyPrefix c in (n, set_responseCaches (<[routePrefix := c]> (responseCaches h)) h)
  | None =>
      let hit (rp : string) := HasPrefix rp routePrefix || bool_decide (routePrefix = "") in
      (map_fold (fun rp c n => if hit rp then n + cache_Size c else n) 0 (responseCaches h),
       set_responseCaches (map_imap (fun rp c => Some (if hit rp then (Invalidate "" c).2 else c)) (responseCaches h)) h)
  end.

(** A tick of the promotion loop, of the metrics, of a cache's eviction. *)
Definition canary_tick (now : Z) (h : GatewayHandler) : GatewayHandler :=
  let '(rs, (stats, lp)) := promote_routes now (routes h) (canaryStats h, lastPromoted h) in
  set_lastPromoted lp (set_canaryStats stats (set_routes rs h)).

Definition metrics_tick (h : GatewayHandler) : GatewayHandler := set_metricsTracker (metrics_Tick (metricsTracker h)) h.

Definition evict_tick (now : Z) (prefix : string) (h : GatewayHandler) : GatewayHandler :=
  set_responseCaches (alter (evictExpired now) prefix (responseCaches h)) h.

(** ** The surroundings *)

(** [resp_Err]: the error after which the body cannot be read further. *)
Record Resp := mkResp { StatusCode : Z; resp_Header : Headers; resp_Body : string; resp_Err : option string }.

(** A plugin may change the request it is given, and the headers and the body
    of a response. *)
Record GoPlugin := mkPlugin {
  OnRequest : Request -> (string + option Resp) * Request;
  OnResponse : Request -> Headers -> Resp -> string + Headers * Resp }.

Record Env := mkEnv {
  clock : nat -> Z;
  Intn : Z -> Z;
  Getenv : string -> string;
  (** The number of entries under a key of Redis; [None]: an error. *)
  redis_count : string -> option Z;
  (** The answer of the schema registry: the status, and the decoded body. *)
  registry : string -> string -> string -> option (Z * option (bool * list string));
  span : option (string * string);
  pii_order : list (string * string);
  wasm_Run : string -> string -> string + string;
  plugins : gmap string GoPlugin }.

(** Decoding of JSON into structs, tokens, addresses of hosts and URLs. *)
Class Codecs := {
  decode_TenantPolicy : BodyReader -> string + TenantPolicy;
  ParsePolicySchema : string -> option (list PolicyRule);
  (** [username] and [exp]; [iat]; [policy_ver]; [roles]. *)
  decode_login : string -> option (string * Z);
  decode_iat : string -> option Z;
  decode_policy_ver : string -> option Z;
  decode_roles : string -> option (list string);
  (** The method, the id and the tool name of a call. *)
  decode_rpc : string -> option (string * JValue * string);
  (** [queue] of the discovery manifest. *)
  decode_queue : string -> option string;
  (** [APIError] as JSON. *)
  encode_error : string -> string -> string -> string;
  hmac_sha256 : string -> string -> string;
  base64_Std : string -> option string;
  SplitHostPort : string -> option string;
  (** Scheme, host and path. *)
  url_Parse : string -> option (string * string * string) }.

(** ** Stages *)

(** The state, and the headers of the reply so far. *)
Definition M (A : Type) : Type := GatewayHandler * Headers -> (Reply + A) * (GatewayHandler * Headers).

Definition ret {A} (a : A) : M A := fun s => (inr a, s).
Definition bind {A B} (m : M A) (k : A -> M B) : M B :=
  fun s => match m s with (inl r, s) => (inl r, s) | (inr a, s) => k a s end.
Notation "'let*' x ':=' m 'in' k" := (bind m (fun x => k)) (at level 10, x pattern, m at level 100, k at level 200).

Definition gets {A} (f : GatewayHandler -> A) : M A := fun s => (inr (f s.1), s).
Definition update (f : GatewayHandler -> GatewayHandler) : M () := fun s => (inr (), (f s.1, s.2)).
(** [w.Header().Set] *)
Definition reply_set (k v : string) : M () := fun s => (inr (), (s.1, header_Set k v s.2)).
Definition reply_add (hs : Headers) : M () := fun s => (inr (), (s.1, add_headers hs s.2)).
Definition stop {A} (status : Z) (c : Content) : M A := fun s => (inl (mkReply status s.2 c), s).
Definition count_error : M () := update (fun h => set_metricsTracker (IncError (metricsTracker h)) h).

(** [errors.go] *)
Definition trace_of (r : Request) : string :=
  let traceparent := Get r "traceparent" in
  if negb (bool_decide (traceparent = "")) then
    match Split traceparent "-"%char with _ :: t :: _ => t | _ => "" end
  else "".

Definition WriteJSONError {A} (r : Request) (msg code : string) (status : Z) : M A :=
  let* _ := reply_set "Content-Type" "application/json" in stop status (ErrorJSON msg code (trace_of r)).

(** [http.Error] *)
Definition http_Error {A} (msg : string) (status : Z) : M A :=
  let* _ := reply_set "Content-Type" "text/plain; charset=utf-8" in
  let* _ := reply_set "X-Content-Type-Options" "nosniff" in
  stop status (Text (msg +:+ str [nl])).

Section Serve.
Context `{casing : Casing} `{hash : Hash} `{json : Json} `{regexp : Regexp} `{net : Net} `{codecs : Codecs} (env : Env).

(** ** Rate limits *)

Definition isRateLimited_local (now : Z) (key : string) (limit : Z) (h : GatewayHandler) : bool * GatewayHandler :=
  let valid := List.filter (fun t => now - Minute <? t) (default [] (ratLimiters h !! key)) in
  if limit <=? Z.of_nat (length valid) then (true, set_ratLimiters (<[key := valid]> (ratLimiters h)) h)
  else (false, set_ratLimiters (<[key := valid ++ [now]]> (ratLimiters h)) h).

Definition isRateLimited (now : Z) (clientIP routePrefix : string) (limit : Z) : M bool :=
  fun '(h, w) =>
    if limit <=? 0 then (inr false, (h, w))
    else
      let key := clientIP +:+ ":" +:+ routePrefix in
      match (if redisClient h then redis_count env ("Pranor Gate:ratelimit:" +:+ key) else None) with
      | Some count => (inr (limit <=? count), (h, w))
      | None => let '(b, h) := isRateLimited_local now key limit h in (inr b, (h, w))
      end.

(** ** Tokens *)

Definition replace_byte (a b : ascii) (s : string) : string := str ((fun c => if bool_decide (c = a) then b else c) <$> byt s).

Definition base64UrlDecode (s : string) : option string :=
  let l := (String.length s mod 4)%nat in
  let s := if (0 <? l)%nat then s +:+ str (replicate (4 - l) "="%char) else s in
  base64_Std (replace_byte "_" "/" (replace_byte "-" "+" s)).

Definition ValidateJWT (now : Z) (tokenStr secret : string) : option string :=
  match Split tokenStr "."%char with
  | [headerPart; payloadPart; signaturePart] =>
      let expectedMac := hmac_sha256 secret (headerPart +:+ "." +:+ payloadPart) in
      sig ← base64UrlDecode signaturePart;
      if negb (bool_decide (sig = expectedMac)) then None
      else
        payload ← base64UrlDecode payloadPart;
        '(username, exp) ← decode_login payload;
        if (0 <? exp) && (exp <? now / Second) then None else Some username
  | _ => None
  end.

Definition jwt_payload (tokenStr : string) : option string :=
  match Split tokenStr "."%char with [_; p; _] => base64UrlDecode p | _ => None end.

Definition ValidateJWTWithPolicy (now : Z) (tokenStr secret : string) (h : GatewayHandler) : option string :=
  username ← ValidateJWT now tokenStr secret;
  match jwt_payload tokenStr ≫= decode_iat, revokedSessions h !! username with
  | Some iat, Some revTime => if (0 <? iat) && (iat * Second <? revTime) then None else Some username
  | _, _ => Some username
  end.

(** ** Before the routes *)

Definition reload_policy (r : Request) : M () :=
  let* token := gets authToken in
  if negb (bool_decide (token = "")) && negb (bool_decide (Get r "Authorization" = "Bearer " +:+ token))
  then WriteJSONError r "Unauthorized" "ERR_UNAUTHORIZED" 401
  else if negb (bool_decide (Method r = "POST")) then WriteJSONError r "Method not allowed" "ERR_METHOD_NOT_ALLOWED" 405
  else
    let '(body, ok, _) := ReadAll r in
    let* _ := (if ok && negb (bool_decide (body = "")) then
                 match ParsePolicySchema body with Some schema => update (UpdatePolicySchema schema) | None => ret () end
               else ret ()) in
    let* _ := update IncrementPolicyVersion in
    let* _ := reply_set "Content-Type" "application/json" in
    stop 200 (Text "Policy schema updated").

(** One route of the score. *)
Definition route_score (acc : Z * list string) (route : Route) : Z * list string :=
  let acc := if negb (RequireAPIKey route) then (acc.1 - 10, acc.2 ++ ["Route prefix " +:+ Prefix route +:+ " does not require API key"]) else acc in
  if MaxBodySize route <=? 0 then (acc.1 - 5, acc.2 ++ ["Route prefix " +:+ Prefix route +:+ " has default unlimited max body size"]) else acc.

Definition governance (h : GatewayHandler) : Z * list string :=
  let acc := if bool_decide (authToken h = "") then (80, ["Gateway authToken is disabled (no global auth token)"]) else (100, []) in
  let '(score, warnings) := fold_left route_score (routes h) acc in
  (if score <? 0 then 0 else score, warnings).

Definition handleGovernanceCheck (r : Request) : M () :=
  if negb (bool_decide (Method r = "GET")) then WriteJSONError r "Method not allowed" "ERR_METHOD_NOT_ALLOWED" 405
  else
    let* (score, warnings) := gets governance in
    let* _ := reply_set "Content-Type" "application/json" in
    stop 200 (Governance score warnings).

(** The addresses that are answered before the authentication. *)
Definition tenant_admin (r : Request) : M () :=
  if bool_decide (Method r = "GET") then
    let* ps := gets tenantPolicies in
    let* _ := reply_set "Content-Type" "application/json" in
    stop 200 (PolicyTable ps)
  else if bool_decide (Method r = "POST") then
    match decode_TenantPolicy (Body r) with
    | inl err => http_Error err 400
    | inr policy =>
        if bool_decide (tp_TenantID policy = "") then http_Error "tenant_id required" 400
        else
          let* _ := update (fun h => set_tenantPolicies (<[tp_TenantID policy := policy]> (tenantPolicies h)) h) in
          stop 201 (Text "")
    end
  else ret ().

Definition admin (r : Request) : M () :=
  let* _ := (if bool_decide (Path r = "/api/tenants/policies") then tenant_admin r else ret ()) in
  if bool_decide (Path r = "/api/v1/admin/policy/reload") then reload_policy r
  else if bool_decide (Path r = "/api/v1/governance/check") then handleGovernanceCheck r
  else ret ().

Definition or_default (s d : string) : string := if bool_decide (s = "") then d else s.

Definition listed (current : string) (l : list string) : bool :=
  bool_decide (l = []) || existsb (fun c => bool_decide (c = current) || bool_decide (c = "*")) l.

Definition tenant_policy (r : Request) : M () :=
  let tenantID := Get r "X-Tenant-ID" in
  let* ps := gets tenantPolicies in
  match (if bool_decide (tenantID = "") then None else ps !! tenantID) with
  | None => ret ()
  | Some policy =>
      if negb (listed (or_default (Getenv env "PRANOR_CLUSTER") "default") (AllowedClusters policy))
      then WriteJSONError r "Tenant policy violation: Cluster restricted" "ERR_TENANT_POLICY_VIOLATION" 403
      else if negb (listed (or_default (Getenv env "PRANOR_REGION") "us-east") (AllowedRegions policy))
      then WriteJSONError r "Tenant policy violation: Region restricted" "ERR_TENANT_POLICY_VIOLATION" 403
      else ret ()
  end.

Definition docs (r : Request) : M () :=
  if bool_decide (Path r = "/api/docs") then let* _ := reply_set "Content-Type" "text/html" in stop 200 Docs
  else if bool_decide (Path r = "/api/docs/openapi.json") then
    let* rs := gets routes in
    let* _ := reply_set "Content-Type" "application/json" in stop 200 (OpenAPI rs)
  else ret ().

Definition authenticate (r : Request) : M () :=
  let* secret := gets authToken in
  if bool_decide (secret = "") then ret ()
  else
    let token := TrimPrefix (Get r "Authorization") "Bearer " in
    if bool_decide (token = secret) then ret ()
    else
      let jwtSec := Getenv env "PRANOR_JWT_SECRET" in
      let* user := (if bool_decide (jwtSec = "") then ret None else gets (ValidateJWTWithPolicy (clock env 1) token jwtSec)) in
      match user with
      | None => WriteJSONError r "Unauthorized" "ERR_UNAUTHORIZED" 401
      | Some _ =>
          let* curVer := gets policyVersion in
          match jwt_payload token ≫= decode_policy_ver with
          | Some v => if v <? curVer then reply_set "X-Token-Refresh" "true" else ret ()
          | None => ret ()
          end
      end.

(** The first route in the list whose prefix fits. *)
Definition route_for (path : string) (rs : list Route) : option Route := List.find (fun route => HasPrefix path (Prefix route)) rs.

Definition match_route (r : Request) : M Route :=
  let* rs := gets routes in
  match route_for (Path r) rs with
  | Some route => ret route
  | None =>
      let* _ := count_error in
      WriteJSONError r "Bad gateway: route match not found" "ERR_ROUTE_NOT_FOUND" 502
  end.

(** 10 MB if the route does not say. *)
Definition body_limit (route : Route) : Z := if MaxBodySize route <=? 0 then 10 * 1024 * 1024 else MaxBodySize route.

Definition limit_body (route : Route) (r : Request) : Request := set_Body (MaxBytesReader (body_limit route) (Body r)) r.

(** ** Checks of a matched request *)

Definition api_key (route : Route) (r : Request) : M Request :=
  if negb (RequireAPIKey route) then ret r
  else
    let apiKeyVal := Get r "X-API-Key" in
    if bool_decide (apiKeyVal = "") then WriteJSONError r "Unauthorized: Missing API Key" "ERR_MISSING_API_KEY" 401
    else
      let* keys := gets apiKeys in
      match keys !! apiKeyVal with
      | None => WriteJSONError r "Unauthorized: Invalid API Key" "ERR_INVALID_API_KEY" 401
      | Some keyInfo =>
          if negb (bool_decide (AllowedRoutes keyInfo = [])) && negb (existsb (HasPrefix (Path r)) (AllowedRoutes keyInfo))
          then WriteJSONError r "Forbidden: API Key not allowed on this path" "ERR_FORBIDDEN_ROUTE" 403
          else if negb (bool_decide (AllowedTenants route = [])) && negb (bool_decide (Tenant keyInfo ∈ AllowedTenants route))
          then WriteJSONError r "Forbidden: Tenant access denied" "ERR_TENANT_ACCESS_DENIED" 403
          else
            let* limited := (if 0 <? k_RateLimitRPM keyInfo
                             then isRateLimited (clock env 2) ("apikey:" +:+ apiKeyVal) (Prefix route) (k_RateLimitRPM keyInfo) else ret false) in
            if limited : bool then WriteJSONError r "Too Many Requests: API Key rate limit exceeded" "ERR_RATE_LIMIT_EXCEEDED" 429
            else ret (set_ctx_tenant (Some (Tenant keyInfo)) r)
      end.

Definition writes (r : Request) : bool := bool_decide (Method r ∈ ["POST"; "PUT"; "PATCH"]).

Definition schema_registry (route : Route) (r : Request) : M Request :=
  if negb (bool_decide (SchemaName route = "")) && writes r then
    let '(body, ok, r') := ReadAll r in
    if ok then
      let url := TrimSuffix (or_default (Getenv env "PRANOR_REGISTRY_URL") "http://localhost:8088") "/" +:+ "/api/v1/schemas/validate" in
      match registry env url (SchemaName route) body with
      | Some (200, Some (false, errors)) =>
          WriteJSONError (with_body body r') ("Request schema validation failed: " +:+ GoStrings.Join errors ", ") "ERR_SCHEMA_VALIDATION_FAILED" 400
      | _ => ret (with_body body r')
      end
    else ret r'
  else ret r.

Definition validate_write (route : Route) (r : Request) : M Request :=
  if negb (bool_decide (ValidationSchema route = [])) && writes r then
    let '(body, ok, r') := ReadAll r in
    if ok then
      match ValidateRequest body (ValidationSchema route) with
      | Some err => WriteJSONError (with_body body r') err "ERR_VALIDATION_FAILED" 400
      | None => ret (with_body body r')
      end
    else ret r'
  else ret r.

Definition mcp (route : Route) (r : Request) : M Request :=
  if MCPEnabled route && bool_decide (Method r = "POST") then
    let '(body, ok, r') := ReadAll r in
    if ok then
      let r := with_body body r' in
      match decode_rpc body with
      | Some (method, id, toolName) =>
          if bool_decide (method = "tools/call") then
            let agentID := or_default (Get r "X-Agent-ID") "default-agent" in
            let* limited := isRateLimited (clock env 3) ("mcp-agent:" +:+ agentID) (Prefix route) 5 in
            if limited : bool then
              let* _ := reply_set "Content-Type" "application/json" in
              stop 429 (RPCError id (-32001) "Agent rate limit exceeded for tool calls")
            else
              let* _ := reply_set "X-MCP-Tool" toolName in
              let* _ := reply_set "X-MCP-Agent" agentID in ret r
          else ret r
      | None => ret r
      end
    else ret r'
  else ret r.

Definition client_ip (r : Request) : string :=
  let host := default "" (SplitHostPort (RemoteAddr r)) in
  if bool_decide (host = "") then
    if HasPrefix (RemoteAddr r) "[" && HasSuffix (RemoteAddr r) "]"
    then str (take (String.length (RemoteAddr r) - 2) (drop 1 (byt (RemoteAddr r)))) else RemoteAddr r
  else host.

Definition ip_access (route : Route) (clientIP : string) (r : Request) : M () :=
  if checkIPAccess clientIP (IPAllowlist route) (IPBlocklist route) then ret ()
  else WriteJSONError r "Forbidden: IP access denied" "ERR_IP_ACCESS_DENIED" 403.

(** The signature of the token is not checked here. *)
Definition extractUserRolesAndHeaders (r : Request) : list string * gmap string string :=
  (let auth := Get r "Authorization" in
   match (if HasPrefix auth "Bearer " then jwt_payload (TrimPrefix auth "Bearer ") ≫= decode_roles else None) with
   | Some (role :: roles) => role :: roles
   | _ => ["anonymous"]
   end,
   fold_left (fun m kv => match kv.2 with v :: _ => <[lower kv.1 := v]> m | [] => m end) (map_to_list (Header r)) ∅).

Definition policy_decision (schema : list PolicyRule) (r : Request) : Decision_ :=
  let '(roles, headers) := extractUserRolesAndHeaders r in
  EvaluatePolicySchema (Method r) (Path r) headers roles (Some schema).

Definition enforce_policy (route : Route) (r : Request) : M (Route * Request) :=
  let* schema := gets policySchema in
  match schema with
  | None => ret (route, r)
  | Some schema =>
      let d := policy_decision schema r in
      if negb (d_matched d) then ret (route, r)
      else if bool_decide (d_action d = "deny") then WriteJSONError r "Forbidden: Access denied by policy rule" "ERR_POLICY_DENIED" 403
      else ret (if 0 <? d_limit d then set_r_RateLimitRPM (d_limit d) route else route,
                if negb (bool_decide (d_redact d = [])) then set_ctx_redact (Some (d_redact d)) r else r)
  end.

Definition rate_limit (route : Route) (clientIP : string) (r : Request) : M () :=
  let* limited := isRateLimited (clock env 4) clientIP (Prefix route) (r_RateLimitRPM route) in
  if limited : bool then WriteJSONError r "Too Many Requests" "ERR_RATE_LIMIT_EXCEEDED" 429 else ret ().

(** ** Arrival *)

(** A request that passed the checks; [c_held]: it has a slot of the limiter
    of its route; [c_w]: the headers of its reply so far. *)
Record Ctx := mkCtx { c_req : Request; c_route : Route; c_ip : string; c_start : Z; c_held : bool; c_w : Headers }.

Definition checks (r : Request) : M (Request * Route * string) :=
  let* _ := update (fun h => set_metricsTracker (IncRequest (metricsTracker h)) h) in
  let* _ := admin r in
  let* _ := tenant_policy r in
  let* _ := docs r in
  let* _ := authenticate r in
  let* route := match_route r in
  let* r := api_key route (limit_body route r) in
  let* r := schema_registry route r in
  let* r := validate_write route r in
  let* r := mcp route r in
  let* _ := ip_access route (client_ip r) r in
  let* (route, r) := enforce_policy route r in
  let* _ := rate_limit route (client_ip r) r in
  ret (r, route, client_ip r).

Inductive Arrival := Answered (reply : Reply) | Accepted (c : Ctx) | Waiting (c : Ctx).

Definition arrive (r : Request) (h : GatewayHandler) : Arrival * GatewayHandler :=
  match checks r (h, ∅) with
  | (inl reply, (h, _)) => (Answered reply, h)
  | (inr (r, route, ip), (h, w)) =>
      let c held := mkCtx r route ip (clock env 0) held w in
      match limiters h !! Prefix route with
      | None => (Accepted (c false), h)
      | Some l =>
          let '(a, l) := Acquire l in
          let h := set_limiters (<[Prefix route := l]> (limiters h)) h in
          match a with
          | Slot => (Accepted (c true), h)
          | Enqueued => (Waiting (c false), h)
          | QueueFull =>
              (Answered (mkReply 429 (header_Set "Content-Type" "application/json" (header_Set "Retry-After" "5" w))
                 (ErrorJSON "Too Many Requests: backpressure queue full" "ERR_QUEUE_FULL" (trace_of r))), h)
          end
      end
  end.

(** The end of a wait: a slot, or not. *)
Definition with_slot (c : Ctx) : Ctx := mkCtx (c_req c) (c_route c) (c_ip c) (c_start c) true (c_w c).

Definition granted (c : Ctx) (h : GatewayHandler) : option (Ctx * GatewayHandler) :=
  l ← limiters h !! Prefix (c_route c);
  l ← acquire_grant l;
  Some (with_slot c, set_limiters (<[Prefix (c_route c) := l]> (limiters h)) h).

Definition timed_out (c : Ctx) (h : GatewayHandler) : Reply * GatewayHandler :=
  (mkReply 503 (header_Set "Content-Type" "application/json" (header_Set "Retry-After" "5" (c_w c)))
     (ErrorJSON "Service Unavailable: queue timeout" "ERR_BACKPRESSURE_TIMEOUT" (trace_of (c_req c))),
   set_limiters (alter acquire_giveup (Prefix (c_route c)) (limiters h)) h).

(** ** From the queue to the backend *)

Definition graphql (route : Route) (r : Request) : M () :=
  if negb (bool_decide (GraphQLFederation route = ∅)) && bool_decide (Method r = "POST")
  then WriteJSONError r "GraphQL Federation requires Pranor Gate Enterprise Edition" "ERR_EE_REQUIRED" 403 else ret ().

(** The request with the trace header, and the trace. *)
Definition traced (r : Request) : Request * string :=
  match span env with
  | None => (r, "")
  | Some (traceID, spanID) =>
      let r := set_Header (header_Set "traceparent" ("00-" +:+ traceID +:+ "-" +:+ spanID +:+ "-01") (Header r)) r in
      if writes r || (0 <? ContentLength r) then
        let '(body, ok, r') := ReadAll r in (if ok then with_body body r' else r', traceID)
      else (r, traceID)
  end.

Definition write_log (prefix : string) (e : LogEntry) (h : GatewayHandler) : GatewayHandler :=
  if bool_decide (prefix ∈ accessLoggers h) then set_accessLog (accessLog h ++ [e]) h else h.

(** [time.Since(start).Milliseconds()] *)
Definition latency_ms (start now : Z) : Z := Z.quot (Sub now start) Millisecond.

Definition str_len (s : string) : Z := Z.of_nat (String.length s).

(** A hit ends the request; a miss gives the key under which to store. *)
Definition cache_lookup (c : Ctx) (r : Request) (traceID : string) : M (option string) :=
  let route := c_route c in
  if (0 <? CacheTTLSeconds route) && IsCacheableMethod (Method r) (CacheMethods route) then
    let* caches := gets responseCaches in
    match caches !! Prefix route with
    | None => ret None
    | Some rc =>
        let key := CacheKey (Method r) (Path r) (RawQuery r) in
        let '(found, rc) := cache_Get (clock env 5) key rc in
        let* _ := update (fun h => set_responseCaches (<[Prefix route := rc]> (responseCaches h)) h) in
        match found with
        | None => ret (Some key)
        | Some e =>
            let* _ := reply_add (e_Headers e) in
            let* _ := reply_set "X-Cache" "HIT" in
            let* _ := update (write_log (Prefix route)
              (mkLog (c_start c) (Method r) (Path r) (Prefix route) (c_ip c) (e_StatusCode e) (latency_ms (c_start c) (clock env 6))
                 (ContentLength r) (str_len (e_Body e)) (Get r "User-Agent") traceID "cache" "")) in
            stop (e_StatusCode e) (Text (e_Body e))
        end
    end
  else ret None.

Definition validate_body (route : Route) (r : Request) : M Request :=
  if bool_decide (ValidationSchema route = []) then ret r
  else
    let '(body, ok, r') := ReadAll r in
    if negb ok then WriteJSONError r' "Bad request: failed to read body" "ERR_VALIDATION_FAILED" 400
    else match ValidateRequest body (ValidationSchema route) with
         | Some err => WriteJSONError r' err "ERR_VALIDATION_FAILED" 400
         | None => ret (with_sized_body body r')
         end.

(** [%.nf] of a float that is not negative. *)
Definition fmt_prec (n : nat) (x : float64) : string :=
  match x with
  | S754_finite _ m e =>
      let '(p, q) := scaled m e (Z.of_nat n) in
      let v := round_div p q in
      pretty (v / 10 ^ Z.of_nat n) +:+ "." +:+ pad_digits n (v mod 10 ^ Z.of_nat n)
  | _ => "0." +:+ pad_digits n 0
  end.

(** [0.000002] per token, at least [0.003]. *)
Definition estimated_cost (reqBody : string) : float64 :=
  let reqTokens := Z.max 1 (str_len reqBody / 4) in
  let estCost := fmul (float_of_Z (reqTokens + 500)) (float_of_ratio 2 1000000) in
  if fltb estCost (float_of_ratio 3 1000) then float_of_ratio 3 1000 else estCost.

Definition dry_run (r : Request) : bool := bool_decide (Get r "X-Dry-Run" = "true") || bool_decide (Get r "X-Estimate-Only" = "true").

Definition applyAIRequestExtensions (r : Request) (reqBody : string) : M () :=
  let estCost := estimated_cost reqBody in
  let* _ := reply_set "X-Estimated-Cost" ("$" +:+ fmt_prec 3 estCost) in
  if dry_run r then
    let* _ := reply_set "Content-Type" "application/json" in
    stop 200 (Text (str [ascii_of_nat 123; quote] +:+ "status" +:+ str [quote; ":"%char; quote] +:+ "dry-run" +:+ str [quote; ","%char; quote] +:+
      "estimated_cost_usd" +:+ str [quote; ":"%char] +:+ fmt_prec 6 estCost +:+ str [","%char; quote] +:+ "estimated_cost_str" +:+
      str [quote; ":"%char; quote] +:+ "$" +:+ fmt_prec 3 estCost +:+ str [quote; ascii_of_nat 125]))
  else ret ().

Definition inspects_body (route : Route) (r : Request) : bool :=
  PromptGuard route || PiiRedact route || SemanticCache route || SemanticRateLimit route || PromptABTest route ||
  ResponseQualityScore route || AIWAFEnabled route || Contains (Prefix route) "/ai" || dry_run r.

(** The checks of prompts; the request goes on with the redacted body. *)
Definition ai_checks (route : Route) (r : Request) : M Request :=
  if negb (inspects_body route r) then ret r
  else
    let '(reqBody, _, r') := ReadAll r in
    let* _ := applyAIRequestExtensions r' reqBody in
    let prompt := extractPrompt reqBody in
    if PromptGuard route && negb (bool_decide (prompt = "")) && IsPromptInjection prompt
    then WriteJSONError r' "AI Prompt Guard: Validation failed due to safety policy violation" "ERR_PROMPT_INJECTION_DETECTED" 400
    else
      let reqBody := if PiiRedact route then RedactPii (pii_order env) reqBody else reqBody in
      ret (with_sized_body reqBody r').

(** [input]: the metadata of the request as JSON. *)
Definition metadata (r : Request) : string :=
  default "" (Marshal (JObject [("headers", JObject ((fun kv => (kv.1, JString kv.2)) <$> map_to_list (extractUserRolesAndHeaders r).2));
                                ("method", JString (Method r)); ("path", JString (Path r))])).

Definition wasm_middleware (route : Route) (r : Request) : M Request :=
  let name := selectWASMMiddleware (Intn env) route in
  if bool_decide (name = "") then ret r
  else
    let isPolicy := Contains (lower name) "policy" in
    let '(body, _, r') := ReadAll r in
    match wasm_Run env name (if isPolicy then metadata r else body) with
    | inl _ =>
        let* _ := count_error in
        WriteJSONError (if isPolicy then r else r') "Internal Server Error: WASM Middleware execution failed" "ERR_WASM_MIDDLEWARE_FAILED" 500
    | inr output =>
        if isPolicy then
          if bool_decide (TrimSpace output = "deny") then WriteJSONError r "Forbidden: Access Denied by Policy" "ERR_ACCESS_DENIED" 403 else ret r
        else ret (with_sized_body output r')
    end.

Definition go_plugin (route : Route) (r : Request) : M Request :=
  match (if bool_decide (GoMiddleware route = "") then None else plugins env !! GoMiddleware route) with
  | None => ret r
  | Some p =>
      match OnRequest p r with
      | (inl _, r) =>
          let* _ := count_error in
          WriteJSONError r "Internal Server Error: Go Plugin execution failed" "ERR_GO_PLUGIN_FAILED" 500
      | (inr (Some resp), _) => let* _ := reply_add (resp_Header resp) in stop (StatusCode resp) (Text (resp_Body resp))
      | (inr None, r) => ret r
      end
  end.

(** What is known before a target is chosen: the request, the key in the
    cache and the trace. *)
Definition prepare (c : Ctx) : M (Request * option string * string) :=
  let route := c_route c in
  let* _ := graphql route (c_req c) in
  let (r, traceID) := traced (c_req c) in
  let* key := cache_lookup c r traceID in
  let* r := validate_body route r in
  let* r := ai_checks route r in
  let* r := wasm_middleware route r in
  let* r := go_plugin route r in
  ret (r, key, traceID).

(** What is called: the queue with a topic and a payload, a socket, or a
    backend by scheme, host and path of its address. *)
Inductive Callee := ToQueue (url topic payload : string) | ToSocket (host : string) | ToBackend (scheme host base : string).

Definition breaker (target : string) (r : Request) : M () :=
  let* cbs := gets circuitBreakers in
  let '(ok, cb) := Allow (clock env 7) (clock env 8) (default (NewCircuitBreaker (1000 * Millisecond)) (cbs !! target)) in
  let* _ := update (fun h => set_circuitBreakers (<[target := cb]> (circuitBreakers h)) h) in
  if ok : bool then ret () else WriteJSONError r "Service Unavailable: Circuit breaker open" "ERR_CIRCUIT_OPEN" 503.

Definition bridge (target : string) (r : Request) : M (Callee * Request) :=
  let '(body, ok, r') := ReadAll r in
  if negb ok then WriteJSONError r' "Bad Request: failed to read body" "ERR_BAD_REQUEST_BODY" 400
  else
    let rawDisc := Getenv env "PRANOR_DISCOVERY" in
    let queueUrl := match (if bool_decide (rawDisc = "") then None else decode_queue rawDisc) with
                    | Some q => or_default q "http://localhost:8082"
                    | None => "http://localhost:8082"
                    end in
    let publishUrl := TrimSuffix queueUrl "/" +:+ "/api/publish" in
    match url_Parse publishUrl with
    | None => WriteJSONError r' "Internal Server Error" "ERR_INTERNAL_SERVER_ERROR" 500
    | Some _ => ret (ToQueue publishUrl (TrimPrefix target "pranor://") body, r')
    end.

Definition transform_request (route : Route) (r : Request) : Request :=
  if bool_decide (RequestTransform route = ∅) then r
  else
    let '(body, ok, r') := ReadAll r in
    if ok then match transformJSON body (RequestTransform route) with inr b => with_sized_body b r' | inl _ => with_body body r' end
    else r'.

(** A frame that is not complete leaves the body read to its end. *)
Definition unpack_request (r : Request) : M Request :=
  let '(body, _, r') := ReadAll r in
  match unpack_frame (byt body) with
  | Panics => stop 0 Aborted
  | Whole => ret r'
  | Payload b => ret (set_Method "POST" (set_Header (header_Set "Content-Type" "application/json" (Header r')) (with_sized_body (str b) r')))
  end.

Definition pack_request (r : Request) : Request :=
  let '(body, _, r') := ReadAll r in
  set_Method "POST" (set_Header (header_Set "TE" "trailers" (header_Set "Content-Type" "application/grpc+json" (Header r')))
    (with_sized_body (str (pack_frame (byt body))) r')).

(** The path without the prefix of the route. *)
Definition stripped (route : Route) (path : string) : string := "/" +:+ TrimPrefix (TrimPrefix path (Prefix route)) "/".

Definition websocket_addr (scheme host : string) : string :=
  if Contains host ":" then host
  else if bool_decide (scheme ∈ ["https"; "wss"]) then host +:+ ":443" else host +:+ ":80".

(** The response is kept for the cache, for the tenant's billing or for its
    score. *)
Definition needCapture (route : Route) (key : option string) : bool :=
  bool_decide (is_Some key) || RequireAPIKey route || ResponseQualityScore route.

Definition dispatch (route : Route) (key : option string) (target : string) (r : Request) : M (Callee * Request) :=
  let* _ := breaker target r in
  if HasPrefix target "pranor://" then bridge target r
  else
    match url_Parse target with
    | None => let* _ := count_error in WriteJSONError r "Bad Gateway Target" "ERR_BAD_GATEWAY_TARGET" 502
    | Some (scheme, host, base) =>
        if LLMRouting route then
          WriteJSONError r "Cost-Aware LLM Routing requires Pranor Gate Enterprise Edition" "ERR_EE_REQUIRED" 403
        else if bool_decide (lower (Get r "Upgrade") = "websocket")
        then ret (ToSocket (websocket_addr scheme host), set_Header (header_Set "Host" host (Header r)) (set_Path (stripped route (Path r)) r))
        else
          let r := transform_request route r in
          let* r := (if bool_decide (TranspileType route = "grpc_to_rest") then unpack_request r else ret r) in
          let r := if bool_decide (TranspileType route = "rest_to_grpc") then pack_request r else r in
          let* _ := (if bool_decide (TargetsWeighted route = []) then ret () else reply_set "X-Canary-Target" target) in
          let r := set_Host host (set_Header (header_Set "X-Forwarded-Host" (Get r "Host") (Header r)) r) in
          let* _ := (if needCapture route key then reply_set "X-Cache" "MISS" else ret ()) in
          ret (ToBackend scheme host base, set_Path (stripped route (Path r)) r)
    end.

(** A request that is with its backend; [s_w]: the headers of the reply so
    far. *)
Record Sending := mkSending {
  s_ctx : Ctx; s_req : Request; s_target : string; s_to : Callee; s_key : option string; s_trace : string; s_w : Headers }.

(** What is deferred. *)
Definition release_slot (c : Ctx) (h : GatewayHandler) : GatewayHandler :=
  if c_held c then set_limiters (alter release (Prefix (c_route c)) (limiters h)) h else h.
Definition drop_conn (target : string) (h : GatewayHandler) : GatewayHandler := set_balancer (decConn target (balancer h)) h.

Definition proceed (c : Ctx) (h : GatewayHandler) : (Reply + Sending) * GatewayHandler :=
  match prepare c (h, c_w c) with
  | (inl reply, (h, _)) => (inl reply, release_slot c h)
  | (inr (r, key, traceID), (h, w)) =>
      let '(target, b) := selectTarget (Intn env) (c_route c) (balancer h) in
      let h := set_balancer (incConn target b) h in
      match dispatch (c_route c) key target r (h, w) with
      | (inl reply, (h, _)) => (inl reply, release_slot c (drop_conn target h))
      | (inr (to, r), (h, w)) => (inr (mkSending c r target to key traceID w), h)
      end
  end.

(** ** The outcome of a call *)

(** [RetryingTransport.RoundTrip]: the answer, and how often the request was
    sent.  [base] gives the outcome of each attempt. *)
Definition RoundTrip (base : nat -> string + Resp) : (string + Resp) * nat :=
  let fine i := match base i with inr resp => StatusCode resp <? 500 | inl _ => false end in
  if fine 0%nat then (base 0%nat, 1%nat) else if fine 1%nat then (base 1%nat, 2%nat) else (base 2%nat, 3%nat).

(** [fmt.Sscanf(s, "%d", &n)] *)
Definition scan_int (s : string) : option Z :=
  let b := drop_while (fun c => bool_decide (c = " "%char) || bool_decide (c = "009"%char)) (byt s) in
  let '(neg, b) := match b with
                   | "-"%char :: b => (true, b)
                   | "+"%char :: b => (false, b)
                   | b => (false, b)
                   end in
  match take_while isDigitb b with
  | [] => None
  | ds => let v := if neg : bool then - digits_val ds else digits_val ds in
          if (min_int64 <=? v) && (v <=? max_int64) then Some v else None
  end.

Definition report_load (target : string) (resp : Resp) (h : GatewayHandler) : GatewayHandler :=
  let loadStr := header_Get (resp_Header resp) "X-Backpressure" in
  if bool_decide (loadStr = "") then h
  else match scan_int loadStr with Some load => set_balancer (set_load target load (balancer h)) h | None => h end.

Inductive Modified := Replaced (w : Headers) (resp : Resp) | Refused (err : string) | ModifyPanics.

(** The response middleware, with the headers of the reply. *)
Definition plugin_response (route : Route) (r : Request) (w : Headers) (resp : Resp) : string + Headers * Resp :=
  match (if bool_decide (GoMiddleware route = "") then None else plugins env !! GoMiddleware route) with
  | None => inr (w, resp)
  | Some p =>
      match OnResponse p r w resp with
      | inl err => inl ("go plugin OnResponse failed: " +:+ err)
      | inr (w, resp') => inr (w, mkResp (StatusCode resp) (resp_Header resp') (resp_Body resp') None)
      end
  end.

Definition wasm_response (route : Route) (body : string) : string + string :=
  if bool_decide (ResponseMiddleware route = "") then inr body
  else match wasm_Run env (ResponseMiddleware route) body with
       | inl err => inl ("response middleware execution failed: " +:+ err)
       | inr body => inr body
       end.

(** The transpiling of a response: headers and body; [None]: a panic. *)
Definition transpile_response (route : Route) (hd : Headers) (body : string) : option (Headers * string) :=
  if bool_decide (TranspileType route = "rest_to_grpc") then
    match unpack_frame (byt body) with
    | Panics => None
    | Whole => Some (hd, body)
    | Payload b => Some (header_Set "Content-Type" "application/json" hd, str b)
    end
  else if bool_decide (TranspileType route = "grpc_to_rest")
  then Some (header_Set "Content-Type" "application/grpc+json" hd, str (pack_frame (byt body)))
  else Some (hd, body).

Definition ModifyResponse (route : Route) (r : Request) (w : Headers) (resp : Resp) : Modified :=
  match resp_Err resp with
  | Some err => Refused ("failed to read response body: " +:+ err)
  | None =>
      let body := match ctx_redact r with Some fields => redact_body fields (resp_Body resp) | None => resp_Body resp end in
      match plugin_response route r w (mkResp (StatusCode resp) (resp_Header resp) body None) with
      | inl err => Refused err
      | inr (w, resp') =>
          match wasm_response route (resp_Body resp') with
          | inl err => Refused err
          | inr body =>
              let body := if bool_decide (ResponseTransform route = ∅) then body
                          else match transformJSON body (ResponseTransform route) with inr b => b | inl _ => body end in
              match transpile_response route (resp_Header resp') body with
              | None => ModifyPanics
              | Some (hd, body) =>
                  Replaced w (mkResp (StatusCode resp) (header_Set "Content-Length" (FormatInt (str_len body)) hd) body None)
              end
          end
      end
  end.

(** What the proxy has written: the reply, and the state; [None]: a panic. *)
Definition proxy_ServeHTTP (s : Sending) (base : nat -> string + Resp) (h : GatewayHandler) : option (Reply * GatewayHandler) :=
  let failed err h :=
    Some (mkReply 502 (header_Set "Content-Type" "application/json" (s_w s)) (ErrorJSON ("Bad Gateway: " +:+ err) "ERR_BAD_GATEWAY" (trace_of (s_req s))),
          set_balancer (set_load (s_target s) 100 (balancer h)) h) in
  match (RoundTrip base).1 with
  | inl err => failed err h
  | inr resp =>
      let h := report_load (s_target s) resp h in
      match ModifyResponse (c_route (s_ctx s)) (s_req s) (s_w s) resp with
      | Refused err => failed err h
      | ModifyPanics => None
      | Replaced w resp => Some (mkReply (StatusCode resp) (add_headers (resp_Header resp) w) (Text (resp_Body resp)), h)
      end
  end.

Definition reply_size (reply : Reply) : Z :=
  match content reply with
  | Text s => str_len s
  | ErrorJSON msg code trace => str_len (encode_error msg code trace)
  | _ => 0
  end.

Definition extractClientIP (r : Request) : string :=
  let xff := Get r "X-Forwarded-For" in
  if negb (bool_decide (xff = "")) then
    match bytes_Cut (byt xff) (byt ",") with Some (first, _) => TrimSpace (str first) | None => TrimSpace xff end
  else default (RemoteAddr r) (SplitHostPort (RemoteAddr r)).

Definition BuildLogEntry (r : Request) (reply : Reply) (route target traceID : string) (start now : Z) : LogEntry :=
  mkLog start (Method r) (Path r) route (extractClientIP r) (Status reply) (latency_ms start now) (ContentLength r) (reply_size reply)
    (Get r "User-Agent") traceID target (default "" (ctx_tenant r)).

(** The second of the weighted targets was called. *)
Definition is_canary (route : Route) (target : string) : bool :=
  match TargetsWeighted route with _ :: c :: _ => bool_decide (target = URL c) | _ => false end.

(** After the proxy: statistics, cache, log, breaker. *)
Definition record_reply (s : Sending) (reply : Reply) (h : GatewayHandler) : GatewayHandler :=
  let route := c_route (s_ctx s) in
  let h := if is_canary route (s_target s) then set_canaryStats (count_canary_call (s_target s) (Status reply) (canaryStats h)) h else h in
  let h := if 500 <=? Status reply then set_metricsTracker (IncError (metricsTracker h)) h else h in
  let h := match s_key s, content reply with
           | Some key, Text body =>
               if (200 <=? Status reply) && (Status reply <? 300)
               then set_responseCaches (alter (cache_Set (clock env 9) key body (Status reply) (reply_Header reply)) (Prefix route) (responseCaches h)) h
               else h
           | _, _ => h
           end in
  let h := write_log (Prefix route) (BuildLogEntry (s_req s) reply (Prefix route) (s_target s) (s_trace s) (c_start (s_ctx s)) (clock env 10)) h in
  set_circuitBreakers
    (alter (RecordRequest (clock env 12) (Sub (clock env 11) (c_start (s_ctx s))) (Status reply <? 500)) (s_target s) (circuitBreakers h)) h.

Definition aborted : Reply := mkReply 0 ∅ Aborted.

(** The answer of the queue; how the tunnel of a socket ends. *)
Inductive Outcome :=
  | Backend (base : nat -> string + Resp)
  | Queue (answer : string + Z * string)
  | Socket (hijack : option string) | NoHijacker.

Definition json_error (w : Headers) (r : Request) (msg code : string) (status : Z) : Reply :=
  mkReply status (header_Set "Content-Type" "application/json" w) (ErrorJSON msg code (trace_of r)).

Definition bridged_text (topic : string) : string :=
  let q := str [quote] in
  str [ascii_of_nat 123] +:+ q +:+ "status" +:+ q +:+ ":" +:+ q +:+ "success" +:+ q +:+ "," +:+ q +:+ "message" +:+ q +:+ ":" +:+ q +:+
  "Event bridged to topic: " +:+ topic +:+ q +:+ str [ascii_of_nat 125].

Definition queue_reply (s : Sending) (topic : string) (answer : string + Z * string) (h : GatewayHandler) : Reply * GatewayHandler :=
  match answer with
  | inl _ => (json_error (s_w s) (s_req s) "Service Unavailable: failed to bridge to queue" "ERR_QUEUE_BRIDGE_FAILED" 503, h)
  | inr (status, body) =>
      if 400 <=? status then
        (json_error (s_w s) (s_req s) ("Queue Error: " +:+ body) "ERR_QUEUE_RESPONSE_ERROR" status,
         if 500 <=? status then set_metricsTracker (IncError (metricsTracker h)) h else h)
      else (mkReply 200 (header_Set "Content-Type" "application/json" (s_w s)) (Text (bridged_text topic)), h)
  end.

(** The call of a callee has the outcome of its kind; for another the result
    is [None]. *)
Definition finish (s : Sending) (o : Outcome) (h : GatewayHandler) : option (Reply * GatewayHandler) :=
  match s_to s, o with
  | ToQueue _ topic _, Queue answer => Some (queue_reply s topic answer h)
  | ToSocket _, NoHijacker => Some (json_error (s_w s) (s_req s) "Websocket hijacking not supported" "ERR_WS_HIJACK_NOT_SUPPORTED" 500, h)
  | ToSocket _, Socket (Some err) => Some (json_error (s_w s) (s_req s) ("Failed to hijack connection: " +:+ err) "ERR_WS_HIJACK_FAILED" 500, h)
  | ToSocket _, Socket None => Some (mkReply 101 ∅ Tunnel, h)
  | ToBackend _ _ _, Backend base =>
      Some (match proxy_ServeHTTP s base h with
            | None => (aborted, h)
            | Some (reply, h) => (reply, record_reply s reply h)
            end)
  | _, _ => None
  end.

Definition complete (s : Sending) (o : Outcome) (h : GatewayHandler) : option (Reply * GatewayHandler) :=
  '(reply, h) ← finish s o h;
  Some (reply, release_slot (s_ctx s) (drop_conn (s_target s) h)).
End Serve.

(** ** The gateway at work *)

Inductive AdminOp :=
  | AUpdateRoutes (rs : list Route) | ARegisterRoute (r : Route) | ASetAPIKeys (keys : list APIKey) | ARevoke (now : Z) (username : string)
  | APolicy (schema : list PolicyRule) | AVersion | AEnableCache (prefix : string) (secs : Z) | AInvalidate (routePrefix keyPrefix : string)
  | ACanary (now : Z) | AMetrics | AEvict (now : Z) (prefix : string).

Definition administer (log_opens : string -> bool) (mtls_loads : string -> string -> string -> bool) (op : AdminOp) (h : GatewayHandler) :
    option GatewayHandler :=
  match op with
  | AUpdateRoutes rs => UpdateRoutes log_opens mtls_loads rs h
  | ARegisterRoute r => RegisterRoute log_opens mtls_loads r h
  | ASetAPIKeys keys => Some (SetAPIKeys keys h)
  | ARevoke now username => Some (RevokeUserSession now username h)
  | APolicy schema => Some (UpdatePolicySchema schema h)
  | AVersion => Some (IncrementPolicyVersion h)
  | AEnableCache prefix secs => Some (EnableCacheOnRoute prefix secs h)
  | AInvalidate rp kp => Some (InvalidateCache rp kp h).2
  | ACanary now => Some (canary_tick now h)
  | AMetrics => Some (metrics_tick h)
  | AEvict now prefix => Some (evict_tick now prefix h)
  end.

(** A request between its arrival and its reply. *)
Inductive Phase := InQueue (c : Ctx) | AtBackend (s : Sending).

(** What is seen from outside: a request was sent, a reply was made. *)
Inductive Event := Sent (id : nat) (r : Request) (s : Sending) | Replied (id : nat) (reply : Reply).

(** The gateway, the requests under way with what they were on arrival, and
    what was seen. *)
Record System := mkSystem { gw : GatewayHandler; inflight : gmap nat (Request * Phase); events : list Event }.

Section System.
Context `{casing : Casing} `{hash : Hash} `{json : Json} `{regexp : Regexp} `{net : Net} `{codecs : Codecs}.

(** A request goes on from the queue: it is answered or sent. *)
Definition advance (env : Env) (id : nat) (r : Request) (c : Ctx) (h : GatewayHandler) (y : System) : System :=
  match proceed env c h with
  | (inl reply, h) => mkSystem h (delete id (inflight y)) (events y ++ [Replied id reply])
  | (inr s, h) => mkSystem h (<[id := (r, AtBackend s)]> (inflight y)) (events y ++ [Sent id r s])
  end.

Inductive step : System -> System -> Prop :=
  | s_answered env id r reply h y :
      inflight y !! id = None -> arrive env r (gw y) = (Answered reply, h) ->
      step y (mkSystem h (inflight y) (events y ++ [Replied id reply]))
  | s_admitted env id r c h y :
      inflight y !! id = None -> arrive env r (gw y) = (Accepted c, h) -> step y (advance env id r c h y)
  | s_waiting env id r c h y :
      inflight y !! id = None -> arrive env r (gw y) = (Waiting c, h) ->
      step y (mkSystem h (<[id := (r, InQueue c)]> (inflight y)) (events y))
  | s_granted env id r c c' h y :
      inflight y !! id = Some (r, InQueue c) -> granted c (gw y) = Some (c', h) -> step y (advance env id r c' h y)
  | s_timed_out id r c reply h y :
      inflight y !! id = Some (r, InQueue c) -> timed_out c (gw y) = (reply, h) ->
      step y (mkSystem h (delete id (inflight y)) (events y ++ [Replied id reply]))
  | s_complete env id r s o reply h y :
      inflight y !! id = Some (r, AtBackend s) -> complete env s o (gw y) = Some (reply, h) ->
      step y (mkSystem h (delete id (inflight y)) (events y ++ [Replied id reply]))
  | s_admin log_opens mtls_loads op h y :
      administer log_opens mtls_loads op (gw y) = Some h -> step y (mkSystem h (inflight y) (events y)).

Inductive reachable (y0 : System) : System -> Prop :=
  | r_refl : reachable y0 y0
  | r_step y y' : reachable y0 y -> step y y' -> reachable y0 y'.
End System.
