(* ===== verification/GatewayProps.v ===== *)
(** * Theorems on the API gateway *)

From S2P Require Import Prelude GoStrings GoNumbers GoSort GoTime GoFloat Core GatewayParts Gateway.
Local Open Scope string_scope.
Local Open Scope Z_scope.
Local Open Scope list_scope.

(** ** What a stage changes and what it lets through *)

(** The connections and the limiters. *)
Definition same_load (h h' : GatewayHandler) : Prop :=
  activeConns (balancer h') = activeConns (balancer h) /\ limiters h' = limiters h.

(** What decides on the admission of requests. *)
Definition same_config (h h' : GatewayHandler) : Prop :=
  routes h' = routes h /\ authToken h' = authToken h /\ apiKeys h' = apiKeys h /\ tenantPolicies h' = tenantPolicies h /\
  revokedSessions h' = revokedSessions h /\ policySchema h' = policySchema h /\ circuitBreakers h' = circuitBreakers h.

#[global] Instance same_load_preorder : PreOrder same_load.
Proof. split; [done|]. intros x y z [H1 H2] [H3 H4]. split; congruence. Qed.
#[global] Instance same_config_preorder : PreOrder same_config.
Proof. unfold same_config. split; [done|]. intros x y z H1 H2. naive_solver congruence. Qed.

(** Whatever the result of [m], the load is the same. *)
Definition keeps {A} (m : M A) : Prop := forall s, same_load s.1 (m s).2.1.

(** If [m] passes the request on, then [Q]. *)
Definition post {A} (m : M A) (Q : A -> GatewayHandler -> Prop) (s : GatewayHandler * Headers) : Prop :=
  match m s with (inr a, s') => Q a s'.1 | (inl _, _) => True end.

Lemma keeps_ret {A} (a : A) : keeps (ret a).
Proof. done. Qed.
Lemma keeps_stop {A} st c : keeps (@stop A st c).
Proof. done. Qed.
Lemma keeps_gets {A} (f : GatewayHandler -> A) : keeps (gets f).
Proof. done. Qed.
Lemma keeps_reply_set k v : keeps (reply_set k v).
Proof. done. Qed.
Lemma keeps_reply_add hs : keeps (reply_add hs).
Proof. done. Qed.
Lemma keeps_update f : (forall h, same_load h (f h)) -> keeps (update f).
Proof. intros H s. apply H. Qed.
Lemma keeps_bind {A B} (m : M A) (k : A -> M B) : keeps m -> (forall a, keeps (k a)) -> keeps (bind m k).
Proof.
  intros Hm Hk s. unfold bind. specialize (Hm s). destruct (m s) as [[r|a] s']; [done|].
  etransitivity; [exact Hm | apply Hk].
Qed.
Lemma keeps_count_error : keeps count_error.
Proof. by apply keeps_update. Qed.
Lemma keeps_error {A} r msg code st : keeps (@WriteJSONError A r msg code st).
Proof. unfold WriteJSONError. apply keeps_bind; [done | intros; done]. Qed.

Lemma post_bind {A B} (m : M A) (k : A -> M B) Q s :
  post m (fun a h => forall w, post (k a) Q (h, w)) s -> post (bind m k) Q s.
Proof. unfold post, bind. destruct (m s) as [[r|a] [h w]]; [done|]. intros H. apply H. Qed.
Lemma post_mono {A} (m : M A) (P Q : A -> GatewayHandler -> Prop) s :
  post m P s -> (forall a h, P a h -> Q a h) -> post m Q s.
Proof. unfold post. destruct (m s) as [[r|a] s']; auto. Qed.
Lemma post_error {A} r msg code st Q s : post (@WriteJSONError A r msg code st) Q s.
Proof. done. Qed.

Create HintDb gateway.
#[local] Hint Resolve keeps_ret keeps_stop keeps_gets keeps_reply_set keeps_reply_add keeps_count_error keeps_error : gateway.
#[local] Hint Extern 1 (same_load _ _) => done : gateway.
#[local] Hint Extern 2 (keeps (update _)) => apply keeps_update; intros : gateway.

Ltac keep := repeat first
  [ progress intros | progress auto with gateway | progress cbv zeta | match goal with |- keeps (bind _ _) => apply keeps_bind end
  | match goal with |- keeps (match ?x with _ => _ end) => destruct x end
  | match goal with |- keeps (if ?x then _ else _) => destruct x end ].

Section Facts.
Context `{casing : Casing} `{hash : Hash} `{json : Json} `{regexp : Regexp} `{net : Net} `{codecs : Codecs} (env : Env).

Lemma isRateLimited_keeps now ip prefix limit : keeps (isRateLimited env now ip prefix limit).
Proof.
  intros [h w]. unfold isRateLimited. destruct (limit <=? 0); [done|]. cbv zeta. destruct (if redisClient h then _ else None); [done|].
  unfold isRateLimited_local. cbv zeta. by destruct (limit <=? _).
Qed.
#[local] Hint Resolve isRateLimited_keeps : gateway.

Lemma checks_keeps r : keeps (checks env r).
Proof.
  unfold checks. apply keeps_bind; [by apply keeps_update|]. intros _.
  apply keeps_bind; [unfold admin, tenant_admin, reload_policy, handleGovernanceCheck, http_Error; keep|]. intros _.
  apply keeps_bind; [unfold tenant_policy; keep|]. intros _.
  apply keeps_bind; [unfold docs; keep|]. intros _.
  apply keeps_bind; [unfold authenticate; keep|]. intros _.
  apply keeps_bind; [unfold match_route; keep|]. intros route.
  apply keeps_bind; [unfold api_key; keep|]. intros r1.
  apply keeps_bind; [unfold schema_registry; keep|]. intros r2.
  apply keeps_bind; [unfold validate_write; keep|]. intros r3.
  apply keeps_bind; [unfold mcp; keep|]. intros r4.
  apply keeps_bind; [unfold ip_access; keep|]. intros _.
  apply keeps_bind; [unfold enforce_policy; keep|]. intros [route' r5].
  apply keeps_bind; [unfold rate_limit; keep|]. intros _. keep.
Qed.

Lemma write_log_load prefix e h : same_load h (write_log prefix e h).
Proof. unfold write_log. by case_bool_decide. Qed.
#[local] Hint Resolve write_log_load : gateway.

Lemma prepare_keeps c : keeps (prepare env c).
Proof.
  unfold prepare. cbv zeta. apply keeps_bind; [unfold graphql; keep|]. intros _. destruct (traced env (c_req c)) as [r traceID].
  apply keeps_bind; [unfold cache_lookup; keep|]. intros key.
  apply keeps_bind; [unfold validate_body; keep|]. intros r1.
  apply keeps_bind; [unfold ai_checks, applyAIRequestExtensions; keep|]. intros r2.
  apply keeps_bind; [unfold wasm_middleware; keep|]. intros r3.
  apply keeps_bind; [unfold go_plugin; keep|]. intros r4. keep.
Qed.

Lemma dispatch_keeps route key target r : keeps (dispatch env route key target r).
Proof. unfold dispatch, breaker, bridge, unpack_request. keep. Qed.
End Facts.

(** ** Bookkeeping *)

(** The state counts [conns] connections per target, [hold] slots in use and
    [wait] places in the queue per route. *)
Definition accounts (h : GatewayHandler) (conns hold wait : string -> Z) : Prop :=
  (forall t, default 0 (activeConns (balancer h) !! t) = conns t) /\
  forall p, match limiters h !! p with
            | Some l => sem l = hold p /\ queue l = wait p /\ sem l <= sem_cap l /\ queue l <= queue_cap l
            | None => hold p = 0 /\ wait p = 0
            end.

Definition bump (f : string -> Z) (b : bool) (k : string) (d : Z) : string -> Z :=
  fun x => f x + (if b && bool_decide (x = k) then d else 0).

Lemma accounts_ext h c c' hd hd' w w' :
  (forall x, c' x = c x) -> (forall x, hd' x = hd x) -> (forall x, w' x = w x) -> accounts h c hd w -> accounts h c' hd' w'.
Proof. intros E1 E2 E3 [H1 H2]. split; [intros t; by rewrite E1|]. intros p. rewrite E2, E3. apply H2. Qed.

Lemma same_load_accounts h h' c hd w : same_load h h' -> accounts h c hd w -> accounts h' c hd w.
Proof. intros [E1 E2] [H1 H2]. split; rewrite ?E1, ?E2; done. Qed.

Lemma bump_same f b k d : bump f b k d k = f k + (if b then d else 0).
Proof. unfold bump. rewrite bool_decide_eq_true_2 by done. by rewrite andb_true_r. Qed.
Lemma bump_other f b k d x : x <> k -> bump f b k d x = f x.
Proof. intros H. unfold bump. rewrite bool_decide_eq_false_2 by done. rewrite andb_false_r. lia. Qed.
Lemma bump_false f k d x : bump f false k d x = f x.
Proof. unfold bump. cbn. lia. Qed.

(** One limiter is replaced. *)
Lemma accounts_limiter h c hd w p l hd' w' :
  accounts h c hd w -> (forall x, x <> p -> hd' x = hd x /\ w' x = w x) ->
  sem l = hd' p -> queue l = w' p -> sem l <= sem_cap l -> queue l <= queue_cap l ->
  accounts (set_limiters (<[p := l]> (limiters h)) h) c hd' w'.
Proof.
  intros [H1 H2] Ho Hs Hq Hc Hd. split; [done|]. intros x. cbn. destruct (decide (x = p)) as [->|Hx].
  - by rewrite lookup_insert_eq.
  - rewrite lookup_insert_ne by done. destruct (Ho x Hx) as [-> ->]. apply H2.
Qed.

Lemma alter_limiter h p l f : limiters h !! p = Some l -> set_limiters (alter f p (limiters h)) h = set_limiters (<[p := f l]> (limiters h)) h.
Proof. intros E. f_equal. apply map_eq. intros q. destruct (decide (q = p)) as [->|]; [rewrite lookup_alter_eq, lookup_insert_eq, E | rewrite lookup_alter_ne, lookup_insert_ne]; done. Qed.

Section Accounts.
Context `{casing : Casing} `{hash : Hash} `{json : Json} `{regexp : Regexp} `{net : Net} `{codecs : Codecs}.

Lemma arrive_accounts env r h c hd w :
  accounts h c hd w ->
  match arrive env r h with
  | (Answered _, h') => accounts h' c hd w
  | (Accepted x, h') => accounts h' c (bump hd (c_held x) (Prefix (c_route x)) 1) w
  | (Waiting x, h') => accounts h' c hd (bump w true (Prefix (c_route x)) 1)
  end.
Proof.
  intros Ha. unfold arrive. pose proof (checks_keeps env r (h, ∅)) as Hk.
  destruct (checks env r (h, ∅)) as [[reply|[[r' route] ip]] [h' w']]; cbn [fst snd] in Hk; apply (same_load_accounts _ _ _ _ _ Hk) in Ha; [done|].
  pose proof Ha as [_ H2]. specialize (H2 (Prefix route)).
  destruct (limiters h' !! Prefix route) as [l|] eqn:El; [|cbn; eapply accounts_ext; [..|exact Ha]; intros; rewrite ?bump_false; done].
  destruct H2 as (Hs & Hq & Hc & Hd). unfold Acquire. destruct (sem l <? sem_cap l) eqn:E1; [|destruct (queue l <? queue_cap l) eqn:E2]; cbn [c_held c_route].
  - eapply accounts_limiter; [exact Ha | intros; by rewrite bump_other | cbn; rewrite ?bump_same; lia..].
  - eapply accounts_limiter; [exact Ha | intros; by rewrite bump_other | cbn; rewrite ?bump_same; lia..].
  - by eapply accounts_limiter.
Qed.

Lemma granted_accounts x x' h h' c hd w :
  granted x h = Some (x', h') -> accounts h c hd w ->
  x' = with_slot x /\ accounts h' c (bump hd true (Prefix (c_route x)) 1) (bump w true (Prefix (c_route x)) (-1)).
Proof.
  intros E Ha. unfold granted in E. pose proof Ha as [_ H2]. specialize (H2 (Prefix (c_route x))).
  destruct (limiters h !! Prefix (c_route x)) as [l|]; [|done]. cbn in E. unfold acquire_grant in E.
  destruct (sem l <? sem_cap l) eqn:E1; [|done]. injection E as <- <-. split; [done|].
  eapply accounts_limiter; [exact Ha | intros; by rewrite !bump_other | cbn; rewrite ?bump_same; lia..].
Qed.

Lemma timed_out_accounts x h c hd w :
  accounts h c hd w -> 1 <= w (Prefix (c_route x)) -> accounts (timed_out x h).2 c hd (bump w true (Prefix (c_route x)) (-1)).
Proof.
  intros Ha Hw. cbn. pose proof Ha as [_ H2]. specialize (H2 (Prefix (c_route x))).
  destruct (limiters h !! Prefix (c_route x)) as [l|] eqn:E; [|lia]. rewrite (alter_limiter _ _ l) by done.
  eapply accounts_limiter; [exact Ha | intros; by rewrite bump_other | cbn; rewrite ?bump_same; lia..].
Qed.

Lemma release_slot_accounts x h c hd w :
  accounts h c hd w -> (c_held x = true -> 1 <= hd (Prefix (c_route x))) ->
  accounts (release_slot x h) c (bump hd (c_held x) (Prefix (c_route x)) (-1)) w.
Proof.
  intros Ha Hx. unfold release_slot. destruct (c_held x); [|eapply accounts_ext; [..|exact Ha]; intros; rewrite ?bump_false; done].
  specialize (Hx eq_refl). pose proof Ha as [_ H2]. specialize (H2 (Prefix (c_route x))).
  destruct (limiters h !! Prefix (c_route x)) as [l|] eqn:E; [|lia]. rewrite (alter_limiter _ _ l) by done.
  eapply accounts_limiter; [exact Ha | intros; by rewrite bump_other | cbn; rewrite ?bump_same; lia..].
Qed.

Lemma drop_conn_accounts t h c hd w : accounts h c hd w -> 1 <= c t -> accounts (drop_conn t h) (bump c true t (-1)) hd w.
Proof.
  intros [H1 H2] Ht. split; [|exact H2]. intros x. cbn. destruct (decide (x = t)) as [->|Hx].
  - rewrite lookup_insert_eq, bump_same. cbn. pose proof (H1 t) as E. rewrite E. rewrite (proj2 (Z.ltb_ge _ _)) by lia. lia.
  - by rewrite lookup_insert_ne, bump_other.
Qed.

Lemma incConn_accounts t b h c hd w :
  accounts h c hd w -> activeConns b = activeConns (balancer h) -> accounts (set_balancer (incConn t b) h) (bump c true t 1) hd w.
Proof.
  intros [H1 H2] E. split; [|exact H2]. intros x. cbn. rewrite E. destruct (decide (x = t)) as [->|Hx].
  - rewrite lookup_insert_eq, bump_same. cbn. by rewrite H1.
  - by rewrite lookup_insert_ne, bump_other.
Qed.

Lemma proceed_accounts env x h c hd w :
  accounts h c hd w -> (forall t, 0 <= c t) -> (c_held x = true -> 1 <= hd (Prefix (c_route x))) ->
  match proceed env x h with
  | (inl _, h') => accounts h' c (bump hd (c_held x) (Prefix (c_route x)) (-1)) w
  | (inr s, h') => accounts h' (bump c true (s_target s) 1) hd w /\ s_ctx s = x
  end.
Proof.
  intros Ha Hc Hx. unfold proceed. pose proof (prepare_keeps env x (h, c_w x)) as Hk.
  destruct (prepare env x (h, c_w x)) as [[reply|[[r key] tr]] [h1 w1]]; cbn [fst snd] in Hk; apply (same_load_accounts _ _ _ _ _ Hk) in Ha;
    [by apply release_slot_accounts|].
  destruct (selectTarget (Intn env) (c_route x) (balancer h1)) as [t b] eqn:Es.
  assert (Hb : activeConns b = activeConns (balancer h1)).
  { pose proof (selectTarget_conns (Intn env) (c_route x) (balancer h1)) as H. by rewrite Es in H. }
  apply (incConn_accounts t b) in Ha; [|done].
  pose proof (dispatch_keeps env (c_route x) key t r (set_balancer (incConn t b) h1, w1)) as Hd.
  destruct (dispatch env (c_route x) key t r (set_balancer (incConn t b) h1, w1)) as [[reply|[to r']] [h2 w2]]; cbn [fst snd] in Hd;
    apply (same_load_accounts _ _ _ _ _ Hd) in Ha; [|by split].
  apply release_slot_accounts; [|done].
  eapply accounts_ext; [..|apply (drop_conn_accounts t); [exact Ha|]]; [| done.. |].
  - intros y. unfold bump. case_bool_decide; cbn; lia.
  - rewrite bump_same. specialize (Hc t). lia.
Qed.

Lemma report_load_keeps t resp h : same_load h (report_load t resp h).
Proof. unfold report_load. cbv zeta. split_matches; done. Qed.

Lemma finish_keeps env s o h reply h' : finish env s o h = Some (reply, h') -> same_load h h'.
Proof.
  unfold finish. destruct (s_to s) as [? topic ?|?|? ? ?], o; try done; [| by destruct hijack; intros [= _ <-] | by intros [= _ <-] |].
  - intros [= E]. revert E. unfold queue_reply. destruct answer as [err|[status b]]; [by intros [= _ <-]|].
    destruct (400 <=? status); [|by intros [= _ <-]]. destruct (500 <=? status); by intros [= _ <-].
  - unfold proxy_ServeHTTP. cbv zeta. intros [= E]. revert E.
    assert (Hr : forall rep x, same_load x (record_reply env s rep x)).
    { intros rep x. unfold record_reply. cbv zeta. unfold write_log. split_matches; done. }
    destruct (RoundTrip base0).1 as [err|resp]; [intros [= <- <-]; etransitivity; [|apply Hr]; done|].
    pose proof (report_load_keeps (s_target s) resp h) as Hl.
    destruct (ModifyResponse _ _ _ _ _); intros [= <- <-]; try done; (etransitivity; [exact Hl|]); [apply Hr|].
    etransitivity; [|apply Hr]. done.
Qed.

Lemma complete_accounts env s o h reply h' c hd w :
  complete env s o h = Some (reply, h') -> accounts h c hd w -> 1 <= c (s_target s) ->
  (c_held (s_ctx s) = true -> 1 <= hd (Prefix (c_route (s_ctx s)))) ->
  accounts h' (bump c true (s_target s) (-1)) (bump hd (c_held (s_ctx s)) (Prefix (c_route (s_ctx s))) (-1)) w.
Proof.
  unfold complete. intros E Ha Hc Hh. destruct (finish env s o h) as [[rep h1]|] eqn:Ef; [|done]. injection E as <- <-.
  apply finish_keeps in Ef. apply (same_load_accounts _ _ _ _ _ Ef) in Ha.
  apply release_slot_accounts; [|done]. by apply drop_conn_accounts.
Qed.

Lemma with_limiter_accounts route h h' c hd w :
  with_limiter route h = Some h' -> accounts h c hd w -> hd (Prefix route) = 0 -> w (Prefix route) = 0 -> accounts h' c hd w.
Proof.
  intros E Ha Hh Hw. unfold with_limiter, NewBackpressureLimiter in E.
  destruct (MaxConcurrentRequests route <=? 0) eqn:E1; [by injection E as <-|].
  destruct (MaxQueueSize route <? 0) eqn:E2; [done|]. injection E as <-. boolify.
  eapply accounts_limiter; [exact Ha | done | cbn; lia..].
Qed.

Lemma setup_route_accounts log mtls route h h' c hd w :
  setup_route log mtls route h = Some h' -> accounts h c hd w -> accounts h' c hd w.
Proof.
  intros E Ha. unfold setup_route in E. cbv zeta in E.
  match type of E with (if _ then with_limiter _ ?x else _) = _ => set (h1 := x) in E end.
  assert (H1 : same_load h h1) by (unfold h1; repeat case_match; done). clearbody h1.
  apply (same_load_accounts _ _ _ _ _ H1) in Ha. destruct (0 <? _); cbn [andb] in E; [|by injection E as <-].
  case_bool_decide as Hl; [|by injection E as <-].
  pose proof Ha as [_ H2]. specialize (H2 (Prefix route)). rewrite Hl in H2. destruct H2 as [Hh Hw].
  by eapply with_limiter_accounts.
Qed.

Lemma setup_routes_accounts log mtls rs : forall h h' c hd w,
  setup_routes log mtls rs h = Some h' -> accounts h c hd w -> accounts h' c hd w.
Proof.
  induction rs as [|r rs IH]; intros h h' c hd w E Ha; [by injection E as <-|]. cbn [setup_routes] in E.
  destruct (setup_route log mtls r h) as [h1|] eqn:E1; [|done]. cbn in E. eapply IH; [exact E|]. by eapply setup_route_accounts.
Qed.

Lemma administer_accounts log mtls op h h' c hd w :
  administer log mtls op h = Some h' -> accounts h c hd w -> accounts h' c hd w.
Proof.
  intros E Ha. destruct op; cbn in E.
  1: { eapply setup_routes_accounts; [exact E|]. by apply (same_load_accounts h). }
  1: { eapply setup_route_accounts; [exact E|]. by apply (same_load_accounts h). }
  all: injection E as <-; apply (same_load_accounts h); [|exact Ha]; try done.
  - unfold EnableCacheOnRoute. cbv zeta. by destruct (_ && _).
  - unfold InvalidateCache. destruct (responseCaches h !! routePrefix); [|done]. by destruct Invalidate.
  - unfold canary_tick. by destruct promote_routes as [? [? ?]].
Qed.

Lemma init_route_accounts log mtls rs : forall h h',
  fold_left (init_route log mtls) rs (Some h) = Some h' -> accounts h (fun _ => 0) (fun _ => 0) (fun _ => 0) ->
  accounts h' (fun _ => 0) (fun _ => 0) (fun _ => 0).
Proof.
  induction rs as [|r rs IH]; intros h h' E Ha; [by injection E as <-|]. cbn [fold_left] in E.
  destruct (init_route log mtls (Some h) r) as [h1|] eqn:E1.
  2: { assert (Hn : fold_left (init_route log mtls) rs None = None) by (clear; by induction rs). congruence. }
  apply (IH h1); [done|]. cbn in E1. cbv zeta in E1.
  match type of E1 with (if _ then with_limiter _ ?x else _) = _ => set (h2 := x) in E1 end.
  assert (H2 : same_load h h2) by (unfold h2; repeat case_match; done). clearbody h2.
  apply (same_load_accounts _ _ _ _ _ H2) in Ha. destruct (0 <? _); [|by injection E1 as <-].
  by eapply with_limiter_accounts.
Qed.
End Accounts.

(** ** Requests under way *)

Definition holding (p : string) (ph : Phase) : bool :=
  match ph with AtBackend s => c_held (s_ctx s) && bool_decide (p = Prefix (c_route (s_ctx s))) | InQueue _ => false end.
Definition waiting (p : string) (ph : Phase) : bool :=
  match ph with AtBackend _ => false | InQueue c => bool_decide (p = Prefix (c_route c)) end.
Definition at_target (t : string) (ph : Phase) : bool :=
  match ph with AtBackend s => bool_decide (t = s_target s) | InQueue _ => false end.

(** How many requests under way satisfy [f]. *)
Definition count (f : Phase -> bool) (m : gmap nat (Request * Phase)) : Z :=
  Z.of_nat (size (filter (fun kv : nat * (Request * Phase) => f kv.2.2 = true) m)).

Lemma count_insert f m id r ph :
  m !! id = None -> count f (<[id := (r, ph)]> m) = count f m + (if f ph then 1 else 0).
Proof.
  intros Hm. unfold count. destruct (f ph) eqn:E.
  - rewrite map_filter_insert_True by done. rewrite map_size_insert_None; [lia|]. apply map_lookup_filter_None. by left.
  - rewrite map_filter_insert_False by (cbn; congruence). rewrite delete_id by done. lia.
Qed.

Lemma count_delete f m id r ph :
  m !! id = Some (r, ph) -> count f (delete id m) = count f m - (if f ph then 1 else 0).
Proof.
  intros Hm. rewrite <- (insert_delete_id m id (r, ph)) at 2 by done. rewrite count_insert by apply lookup_delete_eq. lia.
Qed.

Lemma count_positive f m id r ph : m !! id = Some (r, ph) -> f ph = true -> 1 <= count f m.
Proof.
  intros Hm Hf. pose proof (count_delete f m id r ph Hm) as E. rewrite Hf in E. unfold count in *. lia.
Qed.

(** The books are in order: every count of the gateway is the number of the
    requests under way that it stands for. *)
Definition balanced (y : System) : Prop :=
  accounts (gw y) (fun t => count (at_target t) (inflight y)) (fun p => count (holding p) (inflight y)) (fun p => count (waiting p) (inflight y)) /\
  forall id r c, inflight y !! id = Some (r, InQueue c) -> c_held c = false.

Section Balance.
Context `{casing : Casing} `{hash : Hash} `{json : Json} `{regexp : Regexp} `{net : Net} `{codecs : Codecs}.

Lemma count_nonneg f m : 0 <= count f m.
Proof. unfold count. lia. Qed.

Lemma arrive_waiting_held env r h c h' : arrive env r h = (Waiting c, h') -> c_held c = false.
Proof.
  unfold arrive. destruct (checks env r (h, ∅)) as [[reply|[[r' route] ip]] [h1 w]]; [done|].
  destruct (limiters h1 !! Prefix route) as [l|]; [|done]. destruct (Acquire l) as [[] l']; [done | | done]. by intros [= <- _].
Qed.

(** A request that leaves the queue, whose slot the books of the handler have
    and whose number is free in the table. *)
Lemma advance_balanced env id r c h y m hd :
  m !! id = None -> inflight y = m \/ delete id (inflight y) = m ->
  accounts h (fun t => count (at_target t) m) hd (fun p => count (waiting p) m) ->
  (forall p, hd p = bump (fun p => count (holding p) m) (c_held c) (Prefix (c_route c)) 1 p) ->
  (forall id r c, m !! id = Some (r, InQueue c) -> c_held c = false) ->
  balanced (advance env id r c h y).
Proof.
  intros Hid Hm Ha Hhd Hq. unfold advance.
  assert (Hpre : c_held c = true -> 1 <= hd (Prefix (c_route c))).
  { intros Hc. rewrite Hhd, bump_same, Hc. pose proof (count_nonneg (holding (Prefix (c_route c))) m). lia. }
  pose proof (proceed_accounts env c h _ _ _ Ha (fun t => count_nonneg _ _) Hpre) as Hp.
  assert (Hdel : delete id (inflight y) = m) by (destruct Hm as [<-|<-]; [by apply delete_id | done]).
  destruct (proceed env c h) as [[reply|s] h']; split; cbn [gw inflight].
  - rewrite Hdel. eapply accounts_ext; [..|exact Hp]; try done. intros p. unfold bump. rewrite Hhd. unfold bump. case_bool_decide; cbn; destruct (c_held c); cbn; lia.
  - by rewrite Hdel.
  - destruct Hp as [Hp Hs]. rewrite <- (insert_delete_eq (inflight y)), Hdel.
    eapply accounts_ext; [..|exact Hp]; intros p; rewrite count_insert by done; cbn [at_target holding waiting].
    + unfold bump. cbn. by case_bool_decide.
    + rewrite Hhd, Hs. unfold bump. done.
    + lia.
  - rewrite <- (insert_delete_eq (inflight y)), Hdel. intros id' r' c'. destruct (decide (id' = id)) as [->|]; [by rewrite lookup_insert_eq|].
    rewrite lookup_insert_ne by done. apply Hq.
Qed.

Lemma step_balanced y y' : step y y' -> balanced y -> balanced y'.
Proof.
  intros Hs [Ha Hq]. destruct Hs as [env id r reply h y Hid E|env id r c h y Hid E|env id r c h y Hid E|env id r c c' h y Hid E|id r c reply h y Hid E|env id r s o reply h y Hid E|log mtls op h y E].
  - pose proof (arrive_accounts env r _ _ _ _ Ha) as H. rewrite E in H. by split.
  - pose proof (arrive_accounts env r _ _ _ _ Ha) as H. rewrite E in H. eapply (advance_balanced _ _ _ _ _ _ (inflight y)); [done | by left | exact H | done | done].
  - pose proof (arrive_accounts env r _ _ _ _ Ha) as H. rewrite E in H. split; cbn [gw inflight].
    + eapply accounts_ext; [..|exact H]; intros p; rewrite count_insert by done; cbn [at_target holding waiting]; [lia | lia |].
      unfold bump. cbn. by case_bool_decide.
    + intros id' r' c'. destruct (decide (id' = id)) as [->|].
      * rewrite lookup_insert_eq. intros [= <- <-]. by eapply arrive_waiting_held.
      * rewrite lookup_insert_ne by done. apply Hq.
  - pose proof (Hq _ _ _ Hid) as Hc. destruct (granted_accounts _ _ _ _ _ _ _ E Ha) as [-> H].
    eapply (advance_balanced _ _ _ _ _ _ (delete id (inflight y))); [apply lookup_delete_eq | by right | | |].
    + eapply accounts_ext; [..|exact H]; intros p; try reflexivity; rewrite (count_delete _ _ _ _ _ Hid); cbn [at_target waiting]; [lia|].
      unfold bump. cbn. case_bool_decide; lia.
    + intros p. cbn. unfold bump. rewrite (count_delete _ _ _ _ _ Hid). cbn. case_bool_decide; lia.
    + intros id' r' c'. rewrite lookup_delete_Some. intros [_ H']. by eapply Hq.
  - assert (H : accounts (timed_out c (gw y)).2 (fun t => count (at_target t) (inflight y)) (fun p => count (holding p) (inflight y)) (bump (fun p => count (waiting p) (inflight y)) true (Prefix (c_route c)) (-1))).
    { apply timed_out_accounts; [done|]. eapply count_positive; [exact Hid|]. cbn. by case_bool_decide. }
    rewrite E in H. split; cbn [gw inflight].
    + eapply accounts_ext; [..|exact H]; intros p; rewrite (count_delete _ _ _ _ _ Hid); cbn [at_target holding waiting]; [lia | lia |].
      unfold bump. cbn. case_bool_decide; lia.
    + intros id' r' c'. rewrite lookup_delete_Some. intros [_ H']. by eapply Hq.
  - eapply complete_accounts in E; [|exact Ha | |].
    + split; cbn [gw inflight].
      * eapply accounts_ext; [..|exact E]; intros p; rewrite (count_delete _ _ _ _ _ Hid); cbn [at_target holding waiting]; unfold bump; cbn; [case_bool_decide; lia | | lia].
        destruct (c_held (s_ctx s) && _); lia.
      * intros id' r' c'. rewrite lookup_delete_Some. intros [_ H']. by eapply Hq.
    + cbn. eapply count_positive; [exact Hid|]. cbn. by case_bool_decide.
    + intros Hc. cbn. eapply count_positive; [exact Hid|]. cbn. rewrite Hc. by case_bool_decide.
  - split; [|done]. by eapply administer_accounts.
Qed.

Definition start (h : GatewayHandler) : System := mkSystem h ∅ [].

Lemma start_balanced log mtls rs token redis h :
  NewGatewayHandler log mtls rs token redis = Some h -> balanced (start h).
Proof.
  intros E. split; [|done]. cbn [gw inflight start].
  apply init_route_accounts in E; [|split; intros; cbn; by rewrite ?lookup_empty].
  eapply accounts_ext; [..|exact E]; intros; done.
Qed.

Lemma reachable_balanced y0 y : balanced y0 -> reachable y0 y -> balanced y.
Proof. intros H0. induction 1 as [|y y' _ IH Hs]; [done|]. by eapply step_balanced. Qed.

(** C16: In every state that a gateway reaches, with requests and administration
    in any order, the number of active connections of each target is the
    number of the requests that are with it; the limiter of a route has as
    many slots and queue places taken as requests of the route are with a
    backend and wait; and neither exceeds the size it was made with. *)
Theorem gateway_accounting (log : string -> bool) (mtls : string -> string -> string -> bool) (rs : list Route) (token : string) (redis : bool)
    (h : GatewayHandler) (y : System) :
  NewGatewayHandler log mtls rs token redis = Some h -> reachable (start h) y ->
  (forall t, default 0 (activeConns (balancer (gw y)) !! t) = count (at_target t) (inflight y)) /\
  (forall p l, limiters (gw y) !! p = Some l ->
     sem l = count (holding p) (inflight y) /\ queue l = count (waiting p) (inflight y) /\ sem l <= sem_cap l /\ queue l <= queue_cap l).
Proof.
  intros Hn Hr. apply start_balanced in Hn. destruct (reachable_balanced _ _ Hn Hr) as [[H1 H2] _]. split; [exact H1|].
  intros p l E. specialize (H2 p). rewrite E in H2. exact H2.
Qed.
End Balance.

(** ** Admission *)

(** The method, the path, the headers and the address are those of [r], and
    the body is too, unless that could not be read. *)
Definition follows (r r' : Request) : Prop :=
  Method r' = Method r /\ Path r' = Path r /\ Header r' = Header r /\ RemoteAddr r' = RemoteAddr r /\
  (Body r' = Body r \/ broken (Body r) = true /\ broken (Body r') = true).

#[global] Instance follows_preorder : PreOrder follows.
Proof.
  unfold follows. split; [intros x; splits; auto|]. intros x y z (? & ? & ? & ? & Hb) (? & ? & ? & ? & Hb'). splits; try congruence.
  destruct Hb as [Hb|[? ?]], Hb' as [Hb'|[? ?]]; [left; congruence | right; split; congruence..].
Qed.

Lemma ReadAll_spec r body ok r' :
  ReadAll r = (body, ok, r') ->
  body = rest (Body r) /\ ok = negb (broken (Body r)) /\ follows r (if ok then with_body body r' else r').
Proof.
  intros [= <- <- <-]. splits; [done..|]. unfold follows. destruct (broken (Body r)) eqn:E; cbn; splits; try done; [by right | left].
  unfold new_body. rewrite <- E. by destruct (Body r).
Qed.

Section Admission.
Context `{casing : Casing} `{hash : Hash} `{json : Json} `{regexp : Regexp} `{net : Net} `{codecs : Codecs}.

(** The request has the token of the gateway, or a token that is signed with
    the secret, not expired and not revoked; or the gateway has no token. *)
Definition authentic (env : Env) (h : GatewayHandler) (r : Request) : Prop :=
  let token := TrimPrefix (Get r "Authorization") "Bearer " in
  let secret := Getenv env "PRANOR_JWT_SECRET" in
  authToken h = "" \/ token = authToken h \/ secret <> "" /\ is_Some (ValidateJWTWithPolicy (clock env 1) token secret h).

(** The key is known, allowed on the path, and of a tenant of the route. *)
Definition key_fits (h : GatewayHandler) (route : Route) (r : Request) : Prop :=
  RequireAPIKey route = true ->
  exists k, apiKeys h !! Get r "X-API-Key" = Some k /\
    (AllowedRoutes k = [] \/ exists p, p ∈ AllowedRoutes k /\ HasPrefix (Path r) p = true) /\
    (AllowedTenants route = [] \/ Tenant k ∈ AllowedTenants route).

Definition tenant_fits (env : Env) (h : GatewayHandler) (r : Request) : Prop :=
  forall policy, Get r "X-Tenant-ID" <> "" -> tenantPolicies h !! Get r "X-Tenant-ID" = Some policy ->
    listed (or_default (Getenv env "PRANOR_CLUSTER") "default") (AllowedClusters policy) = true /\
    listed (or_default (Getenv env "PRANOR_REGION") "us-east") (AllowedRegions policy) = true.

Definition policy_fits (h : GatewayHandler) (r : Request) : Prop :=
  forall schema, policySchema h = Some schema -> d_action (policy_decision schema r) <> "deny".

Definition admissible (env : Env) (h : GatewayHandler) (route : Route) (r : Request) : Prop :=
  authentic env h r /\ tenant_fits env h r /\ route_for (Path r) (routes h) = Some route /\ key_fits h route r /\
  checkIPAccess (client_ip r) (IPAllowlist route) (IPBlocklist route) = true /\ policy_fits h r.

(** What is proved of a stage: if it passes the request on, the configuration
    is as before, and [Q]. *)
Definition passes {A} (m : M A) (Q : GatewayHandler -> A -> Prop) : Prop :=
  forall s, post m (fun a h => same_config s.1 h /\ Q s.1 a) s.

Lemma passes_bind {A B} (m : M A) (k : A -> M B) P Q :
  passes m P -> (forall h a, P h a -> passes (k a) (fun h' b => same_config h h' -> Q h b)) -> passes (bind m k) Q.
Proof.
  intros Hm Hk s. apply post_bind. eapply post_mono; [apply Hm|]. intros a h [C1 HP] w. eapply post_mono; [apply (Hk _ _ HP)|].
  intros b h' [C2 HQ]. cbn [fst] in *. split; [by etransitivity | by apply HQ].
Qed.

Lemma passes_mono {A} (m : M A) (P Q : GatewayHandler -> A -> Prop) : passes m P -> (forall h a, P h a -> Q h a) -> passes m Q.
Proof. intros H HPQ s. eapply post_mono; [apply H|]. intros a h [? ?]. auto. Qed.

Lemma passes_ret {A} (a : A) (Q : GatewayHandler -> A -> Prop) : (forall h, Q h a) -> passes (ret a) Q.
Proof. intros H s. split; [done | apply H]. Qed.
Lemma passes_error {A} r msg code st Q : passes (@WriteJSONError A r msg code st) Q.
Proof. done. Qed.
Lemma passes_stop {A} st c Q : passes (@stop A st c) Q.
Proof. done. Qed.
Lemma passes_gets {A} (f : GatewayHandler -> A) : passes (gets f) (fun h a => a = f h).
Proof. by intros s. Qed.
Lemma passes_reply_set k v : passes (reply_set k v) (fun _ _ => True).
Proof. by intros s. Qed.
Lemma passes_update f : (forall h, same_config h (f h)) -> passes (update f) (fun _ _ => True).
Proof. intros H s. split; [apply H | done]. Qed.
(** A stage that ends every request. *)
Definition ends {A} (m : M A) : Prop := forall s, exists reply s', m s = (inl reply, s').
Lemma passes_ends {A} (m : M A) Q : ends m -> passes m Q.
Proof. intros H s. unfold post. by destruct (H s) as (reply & s' & ->). Qed.
Lemma ends_bind {A B} (m : M A) (k : A -> M B) : (forall a, ends (k a)) -> ends (bind m k).
Proof. intros H s. unfold bind. destruct (m s) as [[r|a] s'] eqn:E; [by eauto | apply H]. Qed.
Lemma ends_stop {A} st c : ends (@stop A st c).
Proof. intros s. by do 2 eexists. Qed.
Lemma ends_error {A} r msg code st : ends (@WriteJSONError A r msg code st).
Proof. apply ends_bind. intros. apply ends_stop. Qed.

#[local] Hint Resolve passes_ret passes_error passes_stop passes_reply_set ends_stop ends_error : gateway.

Lemma isRateLimited_passes env now ip prefix limit : passes (isRateLimited env now ip prefix limit) (fun _ _ => True).
Proof.
  intros [h w]. unfold post, isRateLimited. destruct (limit <=? 0); [done|]. cbv zeta. destruct (if redisClient h then _ else None); [done|].
  unfold isRateLimited_local. cbv zeta. by destruct (limit <=? _).
Qed.

Lemma admin_passes r : passes (admin r) (fun _ _ => True).
Proof.
  unfold admin. apply (passes_bind _ _ (fun _ _ => True)).
  - case_bool_decide; [|auto with gateway]. unfold tenant_admin. case_bool_decide.
    { apply passes_ends. do 2 (apply ends_bind; intros). auto with gateway. }
    case_bool_decide; [|auto with gateway]. apply passes_ends.
    destruct decode_TenantPolicy; [unfold http_Error; do 2 (apply ends_bind; intros); auto with gateway|].
    case_bool_decide; [unfold http_Error; do 2 (apply ends_bind; intros) | apply ends_bind; intros]; auto with gateway.
  - intros h0 [] _. case_bool_decide; [|case_bool_decide; [|auto with gateway]]; apply passes_ends.
    + unfold reload_policy. apply ends_bind. intros token. destruct (_ && _); [auto with gateway|]. destruct (negb _); [auto with gateway|].
      destruct (ReadAll r) as [[body ok] r']. do 3 (apply ends_bind; intros). auto with gateway.
    + unfold handleGovernanceCheck. destruct (negb _); [auto with gateway|]. apply ends_bind. intros [score warnings]. apply ends_bind. intros. auto with gateway.
Qed.

Lemma tenant_policy_passes env r : passes (tenant_policy env r) (fun h _ => tenant_fits env h r).
Proof.
  unfold tenant_policy. eapply passes_bind; [apply passes_gets|]. intros h ps ->. cbn. case_bool_decide as Ht.
  { apply passes_ret. intros h' _ policy H. done. }
  destruct (tenantPolicies h !! Get r "X-Tenant-ID") as [policy|] eqn:E.
  - destruct (negb (listed _ (AllowedClusters policy))) eqn:E1; [auto with gateway|].
    destruct (negb (listed _ (AllowedRegions policy))) eqn:E2; [auto with gateway|].
    boolify. apply passes_ret. intros h' _ p _ Ep. rewrite E in Ep. by injection Ep as <-.
  - apply passes_ret. intros h' _ p _ Ep. congruence.
Qed.

Lemma docs_passes r : passes (docs r) (fun _ _ => True).
Proof.
  unfold docs. case_bool_decide; [|case_bool_decide; [|auto with gateway]]; apply passes_ends; repeat (apply ends_bind; intros); auto with gateway.
Qed.

Lemma authenticate_passes env r : passes (authenticate env r) (fun h _ => authentic env h r).
Proof.
  unfold authenticate. eapply passes_bind; [apply passes_gets|]. intros h secret ->. cbn. case_bool_decide as H1.
  { apply passes_ret. intros h' _. by left. }
  cbv zeta. case_bool_decide as H2. { apply passes_ret. intros h' _. right. by left. }
  apply (passes_bind _ _ (fun h' user => user = None \/ Getenv env "PRANOR_JWT_SECRET" <> "" /\
    user = ValidateJWTWithPolicy (clock env 1) (TrimPrefix (Get r "Authorization") "Bearer ") (Getenv env "PRANOR_JWT_SECRET") h')).
  { case_bool_decide; [apply passes_ret; intros; by left|]. eapply passes_mono; [apply passes_gets|]. intros h' a ->. by right. }
  intros h' [user|] Hu; [|auto with gateway]. destruct Hu as [|[Hs Hu]]; [done|].
  eapply passes_bind; [apply passes_gets|]. intros h2 v ->. cbn.
  assert (HQ : same_config h h' -> authentic env h r).
  { intros C. right. right. split; [done|]. exists user. rewrite Hu. unfold ValidateJWTWithPolicy.
    destruct C as (_ & _ & _ & _ & -> & _). done. }
  destruct (_ ≫= _) as [x|]; [destruct (x <? _)|]; (eapply passes_mono; [first [apply passes_reply_set | by apply (passes_ret () (fun _ _ => True))]|]); intros; by apply HQ.
Qed.

Lemma match_route_passes r : passes (match_route r) (fun h route => route_for (Path r) (routes h) = Some route).
Proof.
  unfold match_route. eapply passes_bind; [apply passes_gets|]. intros h rs ->. cbn. destruct (route_for _ _) as [route|] eqn:E.
  - apply passes_ret. by intros h' _.
  - apply passes_ends. apply ends_bind. intros. auto with gateway.
Qed.

Lemma api_key_passes env route r : passes (api_key env route r) (fun h r' => key_fits h route r /\ follows r r').
Proof.
  unfold api_key. destruct (RequireAPIKey route) eqn:Er; cbn [negb]; [|apply passes_ret; intros; split; [unfold key_fits; congruence | done]].
  cbv zeta. case_bool_decide; [auto with gateway|]. eapply passes_bind; [apply passes_gets|]. intros h keys ->. cbn.
  destruct (apiKeys h !! Get r "X-API-Key") as [k|] eqn:Ek; [|auto with gateway].
  destruct (_ && _) eqn:E1; [auto with gateway|]. destruct (negb (bool_decide (AllowedTenants route = [])) && _) eqn:E2; [auto with gateway|].
  apply (passes_bind _ _ (fun _ _ => True)); [destruct (0 <? _); [apply isRateLimited_passes | auto with gateway]|].
  intros h' [] _; [auto with gateway|]. apply passes_ret. intros h2 _ _. split; [|unfold follows; splits; auto].
  intros _. exists k. splits; [done | |].
  - boolify. destruct E1 as [E1|E1]; boolify; [by left|]. right. apply existsb_exists in E1 as (p & Hp & Hh). exists p. by rewrite list_elem_of_In.
  - boolify. destruct E2 as [E2|E2]; boolify; auto.
Qed.

Lemma schema_registry_passes env route r : passes (schema_registry env route r) (fun _ r' => follows r r').
Proof.
  unfold schema_registry. destruct (_ && _); [|apply passes_ret; done].
  destruct (ReadAll r) as [[body ok] r'] eqn:E. apply ReadAll_spec in E as (_ & _ & Hf). destruct ok; [|by apply passes_ret].
  cbv zeta. destruct (registry env _ _ _) as [[st [[valid errs]|]]|]; [|split_matches; by apply passes_ret..].
  destruct (decide (st = 200)) as [->|Hst]; [destruct valid; [by apply passes_ret | auto with gateway]|].
  destruct st as [|p|p]; [by apply passes_ret | | by apply passes_ret]. repeat (destruct p as [p|p|]; try (by apply passes_ret)).
  all: destruct valid; first [by apply passes_ret | done].
Qed.

Lemma validate_write_passes route r : passes (validate_write route r) (fun _ r' => follows r r').
Proof.
  unfold validate_write. destruct (_ && _); [|by apply passes_ret].
  destruct (ReadAll r) as [[body ok] r'] eqn:E. apply ReadAll_spec in E as (_ & _ & Hf). destruct ok; [|by apply passes_ret].
  destruct (ValidateRequest _ _); [auto with gateway | by apply passes_ret].
Qed.

Lemma mcp_passes env route r : passes (mcp env route r) (fun _ r' => follows r r').
Proof.
  unfold mcp. destruct (_ && _); [|by apply passes_ret].
  destruct (ReadAll r) as [[body ok] r'] eqn:E. apply ReadAll_spec in E as (_ & _ & Hf). destruct ok; [|by apply passes_ret].
  cbv zeta. destruct (decode_rpc body) as [[[method id] tool]|]; [|by apply passes_ret]. case_bool_decide; [|by apply passes_ret].
  eapply passes_bind; [apply isRateLimited_passes|]. intros h [] _.
  - apply passes_ends. apply ends_bind. intros. auto with gateway.
  - do 2 (eapply passes_bind; [apply passes_reply_set|]; intros ? [] _). by apply passes_ret.
Qed.

Lemma ip_access_passes route ip r : passes (ip_access route ip r) (fun _ _ => checkIPAccess ip (IPAllowlist route) (IPBlocklist route) = true).
Proof. unfold ip_access. destruct checkIPAccess eqn:E; [by apply passes_ret | auto with gateway]. Qed.

Lemma policy_decision_unmatched schema r : d_matched (policy_decision schema r) = false -> d_action (policy_decision schema r) = "allow".
Proof. unfold policy_decision. destruct extractUserRolesAndHeaders. unfold EvaluatePolicySchema. by destruct (_ ≫= _). Qed.

Lemma same_rate_limit route : set_r_RateLimitRPM (r_RateLimitRPM route) route = route.
Proof. by destruct route. Qed.

Lemma enforce_policy_passes route r :
  passes (enforce_policy route r) (fun h a => policy_fits h r /\ (exists l, a.1 = set_r_RateLimitRPM l route) /\ follows r a.2).
Proof.
  unfold enforce_policy. eapply passes_bind; [apply passes_gets|]. intros h [schema|] Es.
  - cbv zeta. destruct (d_matched _) eqn:Em; cbn [negb].
    + case_bool_decide as Ha; [auto with gateway|]. apply passes_ret. intros h' _. splits.
      * intros s' Hs. rewrite Hs in Es. by injection Es as ->.
      * cbn. destruct (0 <? _); [by eexists | exists (r_RateLimitRPM route); by rewrite same_rate_limit].
      * cbn. destruct (negb _); [|done]. unfold follows. splits; auto.
    + apply passes_ret. intros h' _. splits; [|exists (r_RateLimitRPM route); by rewrite same_rate_limit | done].
      intros s' Hs. rewrite Hs in Es. injection Es as ->. by rewrite policy_decision_unmatched.
  - apply passes_ret. intros h' _. splits; [|exists (r_RateLimitRPM route); by rewrite same_rate_limit | done].
    intros s' Hs. congruence.
Qed.

Lemma rate_limit_passes env route ip r : passes (rate_limit env route ip r) (fun _ _ => True).
Proof. unfold rate_limit. eapply passes_bind; [apply isRateLimited_passes|]. intros h [] _; [auto with gateway | by apply passes_ret]. Qed.

(** The checks depend on what a request that follows has in common. *)
Lemma follows_client_ip r r' : follows r r' -> client_ip r' = client_ip r.
Proof. intros (_ & _ & _ & E & _). unfold client_ip. by rewrite E. Qed.
Lemma follows_Get r r' k : follows r r' -> Get r' k = Get r k.
Proof. intros (_ & _ & E & _). unfold Get. by rewrite E. Qed.
Lemma follows_policy h r r' : follows r r' -> policy_fits h r' -> policy_fits h r.
Proof.
  intros (E1 & E2 & E3 & _) H schema Hs. specialize (H schema Hs). revert H.
  unfold policy_decision, extractUserRolesAndHeaders, Get. by rewrite E1, E2, E3.
Qed.
Lemma limit_body_head route r :
  let r' := limit_body route r in Method r' = Method r /\ Path r' = Path r /\ Header r' = Header r /\ RemoteAddr r' = RemoteAddr r.
Proof. done. Qed.

Lemma authentic_config env h h' r : same_config h h' -> authentic env h' r -> authentic env h r.
Proof. intros (_ & E1 & _ & _ & E2 & _). unfold authentic, ValidateJWTWithPolicy. by rewrite E1, E2. Qed.
Lemma tenant_fits_config env h h' r : same_config h h' -> tenant_fits env h' r -> tenant_fits env h r.
Proof. intros (_ & _ & _ & E & _). unfold tenant_fits. by rewrite E. Qed.
Lemma key_fits_config h h' route r : same_config h h' -> key_fits h' route r -> key_fits h route r.
Proof. intros (_ & _ & E & _). unfold key_fits. by rewrite E. Qed.
Lemma policy_fits_config h h' r : same_config h h' -> policy_fits h' r -> policy_fits h r.
Proof. intros (_ & _ & _ & _ & _ & E & _). unfold policy_fits. by rewrite E. Qed.

(** The configuration is the same along a chain of states. *)
Ltac chain := repeat first [eassumption | reflexivity | etransitivity; [eassumption|]].

Lemma checks_pass env r :
  passes (checks env r) (fun h '(r', route', ip) =>
    exists route l, admissible env h route r /\ route' = set_r_RateLimitRPM l route /\ follows (limit_body route r) r').
Proof.
  unfold checks. eapply passes_bind; [by apply passes_update|]. intros h0 [] _.
  eapply passes_bind; [apply admin_passes|]. intros h1 [] _.
  eapply passes_bind; [apply tenant_policy_passes|]. intros h2 [] H2.
  eapply passes_bind; [apply docs_passes|]. intros h3 [] _.
  eapply passes_bind; [apply authenticate_passes|]. intros h4 [] H4.
  eapply passes_bind; [apply match_route_passes|]. intros h5 route H5.
  eapply passes_bind; [apply api_key_passes|]. intros h6 r1 [H6 F1].
  eapply passes_bind; [apply schema_registry_passes|]. intros h7 r2 F2.
  eapply passes_bind; [apply validate_write_passes|]. intros h8 r3 F3.
  eapply passes_bind; [apply mcp_passes|]. intros h9 r4 F4.
  eapply passes_bind; [apply ip_access_passes|]. intros h10 [] H10.
  eapply passes_bind; [apply enforce_policy_passes|]. intros h11 [route' r5] (H11 & [l Hl] & F5). cbn [fst snd] in *.
  eapply passes_bind; [apply rate_limit_passes|]. intros h12 [] _. apply passes_ret. intros h13.
  intros C12 C11 C10 C9 C8 C7 C6 C5 C4 C3 C2 C1 C0.
  assert (F : follows (limit_body route r) r4) by (do 4 (etransitivity; [eassumption|]); reflexivity).
  exists route, l. splits; [|done | by etransitivity].
  unfold admissible. splits.
  - eapply authentic_config; [|exact H4]. chain.
  - eapply tenant_fits_config; [|exact H2]. chain.
  - assert (C : same_config h0 h5) by chain. destruct C as [E _]. by rewrite <- E.
  - eapply key_fits_config; [|exact H6]. chain.
  - by rewrite (follows_client_ip _ _ F) in H10.
  - eapply policy_fits_config; [|eapply (follows_policy _ (limit_body route r)); [exact F | exact H11]]. chain.
Qed.

(** ** What is sent *)

(** The body fits the schema of the route and the prompt is harmless. *)
Definition content_fits (route : Route) (r : Request) : Prop :=
  (ValidationSchema route <> [] -> broken (Body r) = false /\ ValidateRequest (rest (Body r)) (ValidationSchema route) = None) /\
  (PromptGuard route = true -> broken (Body r) = false ->
   extractPrompt (rest (Body r)) = "" \/ IsPromptInjection (extractPrompt (rest (Body r))) = false).

(** The body that [r'] has is that of [r], unless that is broken. *)
Definition same_body (r r' : Request) : Prop := broken (Body r) = false -> Body r' = Body r.
Definition breaks (r r' : Request) : Prop := broken (Body r) = true -> broken (Body r') = true.

Lemma follows_body r r' : follows r r' -> same_body r r' /\ breaks r r'.
Proof. intros (_ & _ & _ & _ & [E|[E1 E2]]); unfold same_body, breaks; rewrite ?E; split; congruence. Qed.

Lemma traced_body env r : same_body r (traced env r).1 /\ breaks r (traced env r).1.
Proof.
  unfold traced. destruct (span env) as [[tid sid]|]; [|unfold same_body, breaks; by split]. cbv zeta.
  set (r1 := set_Header _ r). assert (H1 : Body r1 = Body r) by done. clearbody r1.
  destruct (writes r1 || _); [|unfold same_body, breaks; cbn; rewrite H1; done].
  destruct (ReadAll r1) as [[body ok] r'] eqn:E. apply ReadAll_spec in E as (_ & _ & Hf). apply follows_body in Hf as [Ha Hb].
  unfold same_body, breaks in *. rewrite H1 in *. done.
Qed.

Lemma cache_lookup_passes env c r tr : passes (cache_lookup env c r tr) (fun _ _ => True).
Proof.
  unfold cache_lookup. cbv zeta. destruct (_ && _); [|auto with gateway]. eapply passes_bind; [apply passes_gets|]. intros h caches _.
  destruct (caches !! Prefix (c_route c)) as [rc|]; [|by apply passes_ret]. destruct (cache_Get _ _ _) as [[e|] rc'].
  - apply passes_ends. repeat (apply ends_bind; intros). auto with gateway.
  - eapply passes_bind; [by apply passes_update|]. intros h' [] _. by apply passes_ret.
Qed.

Lemma validate_body_passes route r :
  passes (validate_body route r) (fun _ r' =>
    same_body r r' /\ (ValidationSchema route <> [] -> broken (Body r) = false /\ ValidateRequest (rest (Body r)) (ValidationSchema route) = None)).
Proof.
  unfold validate_body. case_bool_decide as Hs; [by apply passes_ret|]. cbn. destruct (broken (Body r)) eqn:Eb; cbn [negb]; [auto with gateway|].
  destruct (ValidateRequest _ _) eqn:Ev; [auto with gateway|]. apply passes_ret. intros _. split; [|done].
  intros _. cbn. unfold new_body. rewrite <- Eb. by destruct (Body r).
Qed.

Lemma ai_checks_passes env route r :
  passes (ai_checks env route r) (fun _ _ => PromptGuard route = true ->
    extractPrompt (rest (Body r)) = "" \/ IsPromptInjection (extractPrompt (rest (Body r))) = false).
Proof.
  unfold ai_checks. destruct (inspects_body route r) eqn:Ei; cbn [negb].
  - cbn [ReadAll]. eapply (passes_bind _ _ (fun _ _ => True)).
    { unfold applyAIRequestExtensions. cbv zeta. eapply passes_bind; [apply passes_reply_set|]. intros h [] _. destruct dry_run; [|by apply passes_ret].
      apply passes_ends. apply ends_bind. intros. auto with gateway. }
    intros h [] _. destruct (_ && _) eqn:E; [auto with gateway|]. apply passes_ret. intros h' _ Hp. rewrite Hp in E. cbn [andb] in E.
    apply andb_false_iff in E as [E|E]; [left; by boolify | by right].
  - apply passes_ret. intros h Hp. unfold inspects_body in Ei. by rewrite Hp in Ei.
Qed.

Lemma wasm_passes env route r : passes (wasm_middleware env route r) (fun _ _ => True).
Proof.
  unfold wasm_middleware. cbv zeta. case_bool_decide; [auto with gateway|]. cbn. destruct (wasm_Run _ _ _).
  - apply passes_ends. apply ends_bind. intros. auto with gateway.
  - destruct (Contains _ _); [case_bool_decide; auto with gateway | auto with gateway].
Qed.

Lemma go_plugin_passes env route r : passes (go_plugin env route r) (fun _ _ => True).
Proof.
  unfold go_plugin. destruct (if bool_decide _ then _ else _) as [p|]; [|auto with gateway].
  destruct (OnRequest p r) as [[err|[resp|]] r'].
  - apply passes_ends. apply ends_bind. intros. auto with gateway.
  - apply passes_ends. apply ends_bind. intros. auto with gateway.
  - by apply passes_ret.
Qed.

Lemma prepare_passes env c : passes (prepare env c) (fun _ _ => content_fits (c_route c) (c_req c)).
Proof.
  unfold prepare. cbv zeta. apply (passes_bind _ _ (fun _ _ => True)); [unfold graphql; destruct (_ && _); auto with gateway|]. intros h0 [] _.
  pose proof (traced_body env (c_req c)) as [Ht Hb]. destruct (traced env (c_req c)) as [r tr]; cbn [fst] in *.
  eapply passes_bind; [apply cache_lookup_passes|]. intros h1 key _.
  eapply passes_bind; [apply validate_body_passes|]. intros h2 r1 [B1 V1].
  eapply passes_bind; [apply ai_checks_passes|]. intros h3 r2 P2.
  eapply passes_bind; [apply wasm_passes|]. intros h4 r3 _.
  eapply passes_bind; [apply go_plugin_passes|]. intros h5 r4 _. apply passes_ret. intros h6 _ _ _ _ _ _. split.
  - intros Hs. destruct (V1 Hs) as [Eb Ev]. destruct (broken (Body (c_req c))) eqn:E; [apply Hb in E; congruence|].
    by rewrite <- (Ht E).
  - intros Hg Eb. specialize (P2 Hg). rewrite B1 in P2 by (by rewrite (Ht Eb)). by rewrite (Ht Eb) in P2.
Qed.

Definition breaker_admits (env : Env) (h : GatewayHandler) (target : string) : Prop :=
  (Allow (clock env 7) (clock env 8) (default (NewCircuitBreaker (1000 * Millisecond)) (circuitBreakers h !! target))).1 = true.

Lemma dispatch_breaker env route key target r s to s' :
  dispatch env route key target r s = (inr to, s') -> breaker_admits env s.1 target.
Proof.
  unfold dispatch, breaker, bind at 1 2 3, breaker_admits. cbn. destruct (Allow _ _ _) as [[] cb]; [done|]. done.
Qed.

Lemma proceed_sent env c h s h' :
  proceed env c h = (inr s, h') ->
  s_ctx s = c /\ content_fits (c_route c) (c_req c) /\ s_target s ∈ route_targets (c_route c) /\ breaker_admits env h (s_target s).
Proof.
  unfold proceed. pose proof (prepare_passes env c (h, c_w c)) as Hp. unfold post in Hp.
  destruct (prepare env c (h, c_w c)) as [[reply|[[r key] tr]] [h1 w1]]; [done|]. destruct Hp as [C Hc]. cbn [fst] in C, Hc.
  pose proof (selectTarget_in (Intn env) (c_route c) (balancer h1)) as Ht.
  destruct (selectTarget (Intn env) (c_route c) (balancer h1)) as [t b]. cbn [fst] in Ht.
  destruct (dispatch env (c_route c) key t r (set_balancer (incConn t b) h1, w1)) as [[reply|[to r']] [h2 w2]] eqn:Ed; [done|].
  intros [= <- _]. splits; [done | exact Hc | done |]. apply dispatch_breaker in Ed. unfold breaker_admits in *. cbn in Ed.
  destruct C as (_ & _ & _ & _ & _ & _ & <-). exact Ed.
Qed.

(** What is known of a request after its arrival at a gateway in state [h]. *)
Definition vetted (env : Env) (h : GatewayHandler) (r : Request) (c : Ctx) : Prop :=
  exists route l, admissible env h route r /\ c_route c = set_r_RateLimitRPM l route /\ follows (limit_body route r) (c_req c).

Lemma arrive_vetted env r h a h' :
  arrive env r h = (a, h') ->
  match a with Answered _ => True | Accepted c | Waiting c => vetted env h r c /\ circuitBreakers h' = circuitBreakers h end.
Proof.
  unfold arrive. pose proof (checks_pass env r (h, ∅)) as Hp. unfold post in Hp.
  destruct (checks env r (h, ∅)) as [[reply|[[r' route] ip]] [h1 w]]; [by intros [= <- <-]|]. destruct Hp as [C Hp]. cbn [fst] in C, Hp.
  destruct C as (_ & _ & _ & _ & _ & _ & C). destruct Hp as (route0 & l & Ha & -> & Hf).
  assert (Hv : forall b, vetted env h r (mkCtx r' (set_r_RateLimitRPM l route0) ip (clock env 0) b w)) by (intros b; by exists route0, l).
  destruct (limiters h1 !! _) as [lim|]; [|intros [= <- <-]; by split].
  destruct (Acquire lim) as [[] lim']; intros [= <- <-]; [by split.. | done].
Qed.
End Admission.

(** ** Runs *)

Section Runs.
Context `{casing : Casing} `{hash : Hash} `{json : Json} `{regexp : Regexp} `{net : Net} `{codecs : Codecs}.

(** A run as the actions that make it: what arrives, which waiting request
    gets its slot or gives its place up, which backend answers, and what the
    administration does, each with its surroundings. *)
Inductive action :=
  | AArrive (env : Env) (id : nat) (r : Request)
  | AGrant (env : Env) (id : nat)
  | ATimeOut (id : nat)
  | AComplete (env : Env) (id : nat) (o : Outcome)
  | AAdmin (log_opens : string -> bool) (mtls_loads : string -> string -> string -> bool) (op : AdminOp).

Definition perform (a : action) (y : System) : option System :=
  match a with
  | AArrive env id r =>
      match inflight y !! id with
      | Some _ => None
      | None =>
          Some match arrive env r (gw y) with
               | (Answered reply, h) => mkSystem h (inflight y) (events y ++ [Replied id reply])
               | (Accepted c, h) => advance env id r c h y
               | (Waiting c, h) => mkSystem h (<[id := (r, InQueue c)]> (inflight y)) (events y)
               end
      end
  | AGrant env id =>
      match inflight y !! id with
      | Some (r, InQueue c) => '(c', h) ← granted c (gw y); Some (advance env id r c' h y)
      | _ => None
      end
  | ATimeOut id =>
      match inflight y !! id with
      | Some (r, InQueue c) => let '(reply, h) := timed_out c (gw y) in Some (mkSystem h (delete id (inflight y)) (events y ++ [Replied id reply]))
      | _ => None
      end
  | AComplete env id o =>
      match inflight y !! id with
      | Some (r, AtBackend s) => '(reply, h) ← complete env s o (gw y); Some (mkSystem h (delete id (inflight y)) (events y ++ [Replied id reply]))
      | _ => None
      end
  | AAdmin log_opens mtls_loads op => h ← administer log_opens mtls_loads op (gw y); Some (mkSystem h (inflight y) (events y))
  end.

Fixpoint perform_all (acts : list action) (y : System) : option System :=
  match acts with [] => Some y | a :: acts => y' ← perform a y; perform_all acts y' end.

Lemma perform_snoc acts a y y' : perform_all (acts ++ [a]) y = Some y' -> exists y1, perform_all acts y = Some y1 /\ perform a y1 = Some y'.
Proof.
  revert y. induction acts as [|x acts IH]; intros y; cbn.
  - destruct (perform a y) as [y1|] eqn:E; [|done]. intros [= <-]. by exists y.
  - destruct (perform x y) as [y1|]; [|done]. cbn. apply IH.
Qed.

Lemma perform_all_app acts acts' y y1 : perform_all acts y = Some y1 -> perform_all (acts ++ acts') y = perform_all acts' y1.
Proof. revert y. induction acts as [|a acts IH]; intros y; cbn; [by intros [= <-]|]. destruct (perform a y); [apply IH|done]. Qed.

(** The runs are the sequences of steps. *)
Lemma step_perform y y' : step y y' <-> exists a, perform a y = Some y'.
Proof.
  split.
  - intros Hs. destruct Hs as [env id r reply h y Hid E|env id r c h y Hid E|env id r c h y Hid E|env id r c c' h y Hid E|id r c reply h y Hid E|env id r s o reply h y Hid E|log mtls op h y E];
      [exists (AArrive env id r)|exists (AArrive env id r)|exists (AArrive env id r)|exists (AGrant env id)|exists (ATimeOut id)|exists (AComplete env id o)|exists (AAdmin log mtls op)];
      cbn [perform]; rewrite ?Hid, E; done.
  - intros [[env id r|env id|id|env id o|log mtls op] E]; cbn [perform] in E.
    + destruct (inflight y !! id) eqn:Hid; [done|]. injection E as <-. destruct (arrive env r (gw y)) as [[reply|c|c] h] eqn:Ea; by econstructor.
    + destruct (inflight y !! id) as [[r [c|s]]|] eqn:Hid; [|done..]. destruct (granted c (gw y)) as [[c' h]|] eqn:Eg; [|done]. injection E as <-. by econstructor.
    + destruct (inflight y !! id) as [[r [c|s]]|] eqn:Hid; [|done..]. destruct (timed_out c (gw y)) as [reply h] eqn:Eg. injection E as <-. by econstructor.
    + destruct (inflight y !! id) as [[r [c|s]]|] eqn:Hid; [done| |done]. destruct (complete env s o (gw y)) as [[reply h]|] eqn:Eg; [|done]. injection E as <-. by econstructor.
    + destruct (administer log mtls op (gw y)) as [h|] eqn:Eg; [|done]. injection E as <-. by econstructor.
Qed.

Lemma reachable_perform y0 y : reachable y0 y <-> exists acts, perform_all acts y0 = Some y.
Proof.
  split.
  - induction 1 as [|y y' _ [acts Ha] Hs]; [by exists []|]. apply step_perform in Hs as [a E]. exists (acts ++ [a]). rewrite (perform_all_app _ _ _ _ Ha). cbn. by rewrite E.
  - intros [acts Ha]. revert y Ha. induction acts as [|a acts IH] using rev_ind; intros y Ha; [injection Ha as <-; constructor|].
    apply perform_snoc in Ha as (y1 & H1 & H2). eapply r_step; [by apply IH|]. apply step_perform. by exists a.
Qed.

(** Where in the run a request arrived, and was vetted. *)
Record arrived (y0 : System) (acts : list action) (id : nat) (r : Request) (c : Ctx) (i : nat) (env : Env) (y1 : System) : Prop := {
  arr_action : acts !! i = Some (AArrive env id r);
  arr_state : perform_all (take i acts) y0 = Some y1;
  arr_vetted : vetted env (gw y1) r c }.

(** Where in the run it was sent: on its arrival, or later out of the queue. *)
Record departed (y0 : System) (acts : list action) (id : nat) (r : Request) (s : Sending) (i : nat) (env : Env) (j : nat) (env' : Env) (y2 : System) : Prop := {
  dep_action : (j = i /\ env' = env) \/ ((i < j)%nat /\ acts !! j = Some (AGrant env' id));
  dep_state : perform_all (take j acts) y0 = Some y2;
  dep_sent : exists y3, perform_all (take (S j) acts) y0 = Some y3 /\ events y3 = events y2 ++ [Sent id r s];
  dep_content : content_fits (c_route (s_ctx s)) (c_req (s_ctx s));
  dep_target : s_target s ∈ route_targets (c_route (s_ctx s));
  dep_breaker : breaker_admits env' (gw y2) (s_target s) }.

Definition run_ok (y0 : System) (acts : list action) (y : System) : Prop :=
  (forall id r c, inflight y !! id = Some (r, InQueue c) -> exists i env y1, arrived y0 acts id r c i env y1) /\
  (forall id r s, Sent id r s ∈ events y -> exists i env y1 j env' y2, arrived y0 acts id r (s_ctx s) i env y1 /\ departed y0 acts id r s i env j env' y2).

Lemma take_snoc {A} (l : list A) x i : (i <= length l)%nat -> take i (l ++ [x]) = take i l.
Proof. intros H. rewrite take_app. replace (i - length l)%nat with 0%nat by lia. by rewrite app_nil_r. Qed.

Lemma arrived_snoc y0 acts a id r c i env y1 : arrived y0 acts id r c i env y1 -> arrived y0 (acts ++ [a]) id r c i env y1.
Proof. intros [H1 H2 H3]. pose proof (lookup_lt_Some _ _ _ H1). split; [by rewrite lookup_app_l|by rewrite take_snoc by lia|done]. Qed.

Lemma departed_snoc y0 acts a id r c s i env y1 j env' y2 : arrived y0 acts id r c i env y1 -> departed y0 acts id r s i env j env' y2 -> departed y0 (acts ++ [a]) id r s i env j env' y2.
Proof.
  intros [Hi _ _] [H1 H2 H3 H4 H5 H6]. apply lookup_lt_Some in Hi.
  assert (Hj : (j < length acts)%nat) by (destruct H1 as [[-> _]|[_ H1]]; [done|by apply lookup_lt_Some in H1]).
  split; [|by rewrite take_snoc by lia|by rewrite take_snoc by lia|done..]. destruct H1 as [H1|[H0 H1]]; [by left|right]. split; [done|]. by rewrite lookup_app_l.
Qed.

Lemma run_ok_snoc y0 acts a y : run_ok y0 acts y -> run_ok y0 (acts ++ [a]) y.
Proof.
  intros [H1 H2]. split.
  - intros id r c Hid. destruct (H1 _ _ _ Hid) as (i & env & y1 & H). exists i, env, y1. by apply arrived_snoc.
  - intros id r s Hin. destruct (H2 _ _ _ Hin) as (i & env & y1 & j & env' & y2 & Ha & Hd). exists i, env, y1, j, env', y2. split; [by apply arrived_snoc|by eapply departed_snoc].
Qed.

(** A state with no more queued requests and no more requests sent. *)
Lemma run_ok_less y0 acts y y' : run_ok y0 acts y -> (forall id r c, inflight y' !! id = Some (r, InQueue c) -> inflight y !! id = Some (r, InQueue c)) ->
  (forall id r s, Sent id r s ∈ events y' -> Sent id r s ∈ events y) -> run_ok y0 acts y'.
Proof. intros [H1 H2] Hq He. split; naive_solver. Qed.

Lemma no_reply_sent id r s id' reply l : Sent id r s ∈ l ++ [Replied id' reply] -> Sent id r s ∈ l.
Proof. rewrite elem_of_app, list_elem_of_singleton. by intros [?|?]. Qed.

(** A request that goes on, on its arrival or out of the queue. *)
Lemma advance_ok y0 acts a env env' id r c i y1 h y :
  run_ok y0 (acts ++ [a]) y -> perform_all acts y0 = Some y -> perform a y = Some (advance env' id r c h y) ->
  arrived y0 (acts ++ [a]) id r c i env y1 -> circuitBreakers h = circuitBreakers (gw y) ->
  (length acts = i /\ env' = env) \/ ((i < length acts)%nat /\ a = AGrant env' id) -> run_ok y0 (acts ++ [a]) (advance env' id r c h y).
Proof.
  intros Hok Hy Hp Ha Hc Hj. unfold advance in *. destruct (proceed env' c h) as [[reply|s] h'] eqn:Ep.
  - eapply run_ok_less; [done|cbn; intros id' r' c' [_ ?]%lookup_delete_Some; done|]. intros id' r' s'. apply no_reply_sent.
  - destruct Hok as [H1 H2]. split; cbn [inflight events].
    + intros id' r' c'. destruct (decide (id' = id)) as [->|]; [by rewrite lookup_insert_eq|]. rewrite lookup_insert_ne by done. apply H1.
    + intros id' r' s'. rewrite elem_of_app, list_elem_of_singleton. intros [E|E]; [by eapply H2|]. injection E as -> -> ->.
      apply proceed_sent in Ep as (Es & Hf & Ht & Hb). exists i, env, y1, (length acts), env', y. rewrite Es. split; [done|]. split; rewrite ?Es; try done.
      * destruct Hj as [|[Hlt ->]]; [by left|right]. split; [done|]. by rewrite lookup_app_r, Nat.sub_diag by lia.
      * by rewrite take_app_length.
      * eexists. rewrite take_ge by (rewrite length_app; cbn; lia). split; [rewrite (perform_all_app _ _ _ _ Hy); cbn; by rewrite Hp|done].
      * unfold breaker_admits in *. by rewrite <- Hc.
Qed.

Lemma perform_ok y0 acts a y y' : perform_all acts y0 = Some y -> perform a y = Some y' -> run_ok y0 acts y -> run_ok y0 (acts ++ [a]) y'.
Proof.
  intros Hy Hp Hok. apply (run_ok_snoc _ _ a) in Hok. pose proof Hp as Hp'.
  assert (Harr : forall env id r c, a = AArrive env id r -> vetted env (gw y) r c -> arrived y0 (acts ++ [a]) id r c (length acts) env y).
  { intros env id r c -> Hv. split; [by rewrite lookup_app_r, Nat.sub_diag by lia|by rewrite take_app_length|done]. }
  destruct a as [env id r|env id|id|env id o|log mtls op]; cbn [perform] in Hp.
  - destruct (inflight y !! id) eqn:Hid; [done|]. injection Hp as <-. destruct (arrive env r (gw y)) as [[reply|c|c] h] eqn:E; pose proof (arrive_vetted _ _ _ _ _ E) as Hv; cbn in Hv.
    + eapply run_ok_less; [done|done|]. intros id' r' s'. apply no_reply_sent.
    + destruct Hv as [Hv Hc]. eapply advance_ok; [done|done|exact Hp'|by apply Harr|done|by left].
    + destruct Hok as [H1 H2]. split; [|done]. cbn [inflight]. intros id' r' c'. destruct (decide (id' = id)) as [->|]; [|rewrite lookup_insert_ne by done; apply H1].
      rewrite lookup_insert_eq. intros [= <- <-]. exists (length acts), env, y. apply Harr; [done|apply Hv].
  - destruct (inflight y !! id) as [[r [c|s]]|] eqn:Hid; [|done..]. destruct (granted c (gw y)) as [[c' h]|] eqn:Eg; [|done]. injection Hp as <-.
    destruct (proj1 Hok _ _ _ Hid) as (i & env0 & y1 & Ha).
    unfold granted in Eg. destruct (limiters (gw y) !! _); [|done]. cbn in Eg. destruct acquire_grant; [|done]. injection Eg as <- <-.
    eapply advance_ok; [done|done|exact Hp'|destruct Ha as [H1 H2 H3]; split; [exact H1|exact H2|exact H3]|done|right]. split; [|done].
    pose proof (arr_action _ _ _ _ _ _ _ _ Ha) as Hi. pose proof (lookup_lt_Some _ _ _ Hi) as Hl. rewrite length_app in Hl. cbn in Hl. destruct (decide (i = length acts)) as [->|]; [|lia].
    by rewrite lookup_app_r, Nat.sub_diag in Hi by lia.
  - destruct (inflight y !! id) as [[r [c|s]]|] eqn:Hid; [|done..]. destruct (timed_out c (gw y)) as [reply h]. injection Hp as <-.
    eapply run_ok_less; [done|cbn; intros id' r' c' [_ ?]%lookup_delete_Some; done|]. intros id' r' s'. apply no_reply_sent.
  - destruct (inflight y !! id) as [[r [c|s]]|] eqn:Hid; [done| |done]. destruct (complete env s o (gw y)) as [[reply h]|]; [|done]. injection Hp as <-.
    eapply run_ok_less; [done|cbn; intros id' r' c' [_ ?]%lookup_delete_Some; done|]. intros id' r' s'. apply no_reply_sent.
  - destruct (administer log mtls op (gw y)) as [h|]; [|done]. injection Hp as <-. by eapply run_ok_less.
Qed.

Lemma perform_all_ok h acts y : perform_all acts (start h) = Some y -> run_ok (start h) acts y.
Proof.
  revert y. induction acts as [|a acts IH] using rev_ind; intros y Hy; [injection Hy as <-; split; cbn; set_solver|].
  apply perform_snoc in Hy as (y1 & H1 & H2). eapply perform_ok; [done..|by apply IH].
Qed.

(** A body within the limit is untouched by it. *)
Lemma limited_body route r :
  broken (Body (limit_body route r)) = false ->
  Body (limit_body route r) = Body r /\ broken (Body r) = false /\ Z.of_nat (String.length (rest (Body r))) <= body_limit route.
Proof. cbn. unfold MaxBytesReader. destruct (_ <=? _) eqn:E; [|done]. intros H. boolify. done. Qed.

Lemma within_limit route r :
  broken (Body r) = false -> Z.of_nat (String.length (rest (Body r))) <= body_limit route -> Body (limit_body route r) = Body r.
Proof. intros _ H. cbn. unfold MaxBytesReader. by rewrite (proj2 (Z.leb_le _ _)). Qed.

(** C11: whatever requests, answers and administration follow each other, a
    request that was sent to a backend arrived at some point of the run, and
    in the state of that point it was authenticated, its tenant was allowed in
    this cluster and region, its route was the first one whose prefix fits, and
    its API key, its IP address and the access policy allowed it.  It was sent
    at that point, or at the later one where it left the queue; it goes to a
    target of that route whose breaker let it through in the state of the
    sending.  And on a route with a schema the body was within the size limit
    and valid, on a guarded route the prompt was not taken for an injection.
    The checks of one request are one action: what others do between them is
    not seen. *)
Theorem gateway_admission (h : GatewayHandler) (acts : list action) (y : System) (id : nat) (r : Request) (s : Sending) :
  perform_all acts (start h) = Some y -> Sent id r s ∈ events y ->
  exists i env y1 j env' y2 route l,
    (* the arrival *)
    acts !! i = Some (AArrive env id r) /\ perform_all (take i acts) (start h) = Some y1 /\ admissible env (gw y1) route r /\
    (* the sending *)
    ((j = i /\ env' = env) \/ ((i < j)%nat /\ acts !! j = Some (AGrant env' id))) /\ perform_all (take j acts) (start h) = Some y2 /\
    (exists y3, perform_all (take (S j) acts) (start h) = Some y3 /\ events y3 = events y2 ++ [Sent id r s]) /\
    c_route (s_ctx s) = set_r_RateLimitRPM l route /\ s_target s ∈ route_targets route /\ breaker_admits env' (gw y2) (s_target s) /\
    (* its content *)
    (ValidationSchema route <> [] ->
     broken (Body r) = false /\ Z.of_nat (String.length (rest (Body r))) <= body_limit route /\
     ValidateRequest (rest (Body r)) (ValidationSchema route) = None) /\
    (PromptGuard route = true -> broken (Body r) = false -> Z.of_nat (String.length (rest (Body r))) <= body_limit route ->
     extractPrompt (rest (Body r)) = "" \/ IsPromptInjection (extractPrompt (rest (Body r))) = false).
Proof.
  intros Hy Hin. destruct (perform_all_ok h acts y Hy) as [_ H].
  destruct (H _ _ _ Hin) as (i & env & y1 & j & env' & y2 & [A1 A2 (route & l & Ha & El & Hf)] & [D1 D2 D3 Hc Ht Hb]).
  exists i, env, y1, j, env', y2, route, l. rewrite El in Hc, Ht. destruct Hc as [Hv Hp]. apply follows_body in Hf as [Hsame Hbr].
  splits; [done.. | |].
  - intros Hs. destruct (Hv Hs) as [Eb Ev].
    destruct (broken (Body (limit_body route r))) eqn:E; [apply Hbr in E; congruence|].
    pose proof (Hsame E) as Eq. rewrite Eq in Ev. apply limited_body in E as (Eq' & E1 & E2). by rewrite Eq' in Ev.
  - intros Hg Eb Hl. pose proof (within_limit route r Eb Hl) as Eq. specialize (Hp Hg). rewrite Hsame in Hp by (by rewrite Eq).
    rewrite Eq in Hp. by apply Hp.
Qed.
End Runs.

(** ** A gateway in use *)

Section Arrivals.
Context `{casing : Casing} `{hash : Hash} `{json : Json} `{regexp : Regexp} `{net : Net} `{codecs : Codecs}.

(** A run of arrivals, computed. *)
Definition arrive_in (env : Env) (id : nat) (r : Request) (y : System) : System :=
  match arrive env r (gw y) with
  | (Answered reply, h) => mkSystem h (inflight y) (events y ++ [Replied id reply])
  | (Accepted c, h) => advance env id r c h y
  | (Waiting c, h) => mkSystem h (<[id := (r, InQueue c)]> (inflight y)) (events y)
  end.

Lemma arrive_in_reachable y0 env id r y : reachable y0 y -> inflight y !! id = None -> reachable y0 (arrive_in env id r y).
Proof.
  intros Hr Hid. unfold arrive_in. destruct (arrive env r (gw y)) as [[reply|c|c] h] eqn:E.
  - eapply r_step; [exact Hr|]. by eapply s_answered.
  - eapply r_step; [exact Hr|]. by eapply s_admitted.
  - eapply r_step; [exact Hr|]. by eapply s_waiting.
Qed.

Definition complete_in (env : Env) (id : nat) (o : Outcome) (y : System) : System :=
  match inflight y !! id with
  | Some (r, AtBackend s) =>
      match complete env s o (gw y) with
      | Some (reply, h) => mkSystem h (delete id (inflight y)) (events y ++ [Replied id reply])
      | None => y
      end
  | _ => y
  end.
End Arrivals.

Module GatewayDemo.
#[local] Instance casing : Casing := GoStrings.ascii_casing.
#[local] Instance hash : Hash := {| Sum256 := byt |}.
#[local] Instance json : Json :=
  {| Unmarshal s := if bool_decide (s = "{}") then Some (JObject []) else None; Marshal _ := Some "{}" |}.
#[local] Instance regexp : Regexp := {| MatchString p s := Contains s "jailbreak"; ReplaceAllString _ s _ := s |}.
#[local] Instance net : Net := {| IP := string; ParseIP := Some; ip_Equal a b := bool_decide (a = b); ParseCIDR _ := None |}.
#[local] Instance codecs : Codecs := {|
  decode_TenantPolicy b := inr (mkTenantPolicy (rest b) ["elsewhere"] [] 0); ParsePolicySchema _ := None; decode_login _ := None; decode_iat _ := None;
  decode_policy_ver _ := None; decode_roles p := if bool_decide (p = "admin===") then Some ["admin"] else None; decode_rpc _ := None;
  decode_queue _ := None; encode_error _ _ _ := ""; hmac_sha256 _ _ := ""; base64_Std := Some; SplitHostPort s := Some s;
  url_Parse s := Some ("http", TrimPrefix s "http://", "") |}.

Definition env : Env :=
  mkEnv (fun n => 1000 * Second + Z.of_nat n) (fun _ => 0) (fun _ => "") (fun _ => None) (fun _ _ _ => None) None piiPatterns (fun _ _ => inl "") ∅.

(** One slot, one place in the queue, a minute in the cache. *)
Definition route : Route :=
  mkRoute "/api" "" "http://a" [] [] false 0 0 fzero "" "" "" "" 0 true false false [("name", "string")] [] ["10.0.0.1"] false ""
    60 [] "" "" "" 1 1 0 "" false [] ∅ ∅ ∅ false false None 0 false false false false.

Definition gateway : GatewayHandler := default (empty_handler [] "" false) (NewGatewayHandler (fun _ => true) (fun _ _ _ => true) [route] "secret" false).

Definition client (headers : list (string * string)) (query : string) : Request :=
  mkReq "GET" "/api/items" query (list_to_map ((fun kv => (kv.1, [kv.2])) <$> (("Authorization", "Bearer secret") :: headers))) "" "10.0.0.2" (new_body "{}") 2 None None.

Definition busy : System := arrive_in env 1 (client [] "b=2") (arrive_in env 0 (client [] "a=1") (start gateway)).

Lemma busy_reachable : reachable (start gateway) busy.
Proof. do 2 (apply arrive_in_reachable; [|vm_compute; reflexivity]). apply r_refl. Qed.

(** The first request is with the backend, the second waits. *)
Example busy_state :
  (default 0 (activeConns (balancer (gw busy)) !! "http://a"), count (at_target "http://a") (inflight busy), count (waiting "/api") (inflight busy)) = (1, 1, 1).
Proof. vm_compute. reflexivity. Qed.

Lemma busy_sent : exists s, events busy = [Sent 0 (client [] "a=1") s].
Proof. eexists. vm_compute. reflexivity. Qed.

Lemma gateway_accounting_witness :
  (forall t, default 0 (activeConns (balancer (gw busy)) !! t) = count (at_target t) (inflight busy)) /\
  (forall p l, limiters (gw busy) !! p = Some l ->
     sem l = count (holding p) (inflight busy) /\ queue l = count (waiting p) (inflight busy) /\ sem l <= sem_cap l /\ queue l <= queue_cap l).
Proof. apply (gateway_accounting (fun _ => true) (fun _ _ _ => true) [route] "secret" false gateway busy); [reflexivity | exact busy_reachable]. Defined.

Definition two_arrivals : list action := [AArrive env 0 (client [] "a=1"); AArrive env 1 (client [] "b=2")].

Lemma gateway_admission_witness :
  perform_all two_arrivals (start gateway) = Some busy /\
  exists s, Sent 0 (client [] "a=1") s ∈ events busy /\ exists i env y1 route, two_arrivals !! i = Some (AArrive env 0 (client [] "a=1")) /\
    perform_all (take i two_arrivals) (start gateway) = Some y1 /\ admissible env (gw y1) route (client [] "a=1") /\ s_target s ∈ route_targets route.
Proof.
  assert (Hb : perform_all two_arrivals (start gateway) = Some busy) by (vm_compute; reflexivity). split; [exact Hb|].
  destruct busy_sent as [s E]. exists s. assert (Hin : Sent 0 (client [] "a=1") s ∈ events busy) by (rewrite E; left). split; [exact Hin|].
  destruct (gateway_admission gateway two_arrivals busy 0 (client [] "a=1") s Hb Hin) as (i & e & y1 & j & e' & y2 & rt & l & H1 & H2 & H3 & _ & _ & _ & _ & H4 & _).
  exists i, e, y1, rt. exact (conj H1 (conj H2 (conj H3 H4))).
Defined.

(** The tenant's policies can be set without the token of the gateway. *)
Example tenant_policy_without_token :
  let r := mkReq "POST" "/api/tenants/policies" "" ∅ "" "10.0.0.2" (new_body "acme") 4 None None in
  match arrive env r gateway with
  | (Answered reply, h) => Status reply = 201 /\ is_Some (tenantPolicies h !! "acme")
  | _ => False
  end.
Proof. vm_compute. split; [reflexivity | by eexists]. Qed.

(** A response is stored for everyone: what one tenant was sent, another one
    gets from the cache. *)
Definition alice : Request := client [("X-Tenant-Id", "alice")] "".
Definition bob : Request := client [("X-Tenant-Id", "bob")] "".

Example cache_shared_by_tenants :
  let y := complete_in env 0 (Backend (fun _ => inr (mkResp 200 ∅ "for alice" None))) (arrive_in env 0 alice (start gateway)) in
  match events (arrive_in env 1 bob y) with
  | [Sent 0 _ _; Replied 0 _; Replied 1 reply] => content reply = Text "for alice"
  | _ => False
  end.
Proof. vm_compute. reflexivity. Qed.

(** The access policy takes the roles from a token whose signature is not
    checked. *)
Example roles_unverified :
  let token := "x.admin.y" in
  (extractUserRolesAndHeaders (mkReq "GET" "/" "" {["Authorization" := ["Bearer " +:+ token]]} "" "" (new_body "") 0 None None)).1 = ["admin"] /\
  ValidateJWT 0 token "key" = None.
Proof. vm_compute. split; reflexivity. Qed.

(** Prefixes are not cut at a slash, and the first one in the list wins. *)
Example prefix_inside_word : route_for "/apis" [route] = Some route.
Proof. reflexivity. Qed.

(** A frame that is cut off loses its body. *)
Example cut_frame_loses_body :
  match unpack_request (with_body (str (take 7 (pack_frame (byt "hello")))) (client [] "")) (gateway, ∅) with
  | (inr r, _) => Body r = new_body ""
  | _ => False
  end.
Proof. vm_compute. reflexivity. Qed.

(** A request that changes something is sent three times when the backend
    reports an error of its own. *)
Example post_sent_three_times : RoundTrip (fun _ => inr (mkResp 503 ∅ "" None)) = (inr (mkResp 503 ∅ "" None), 3%nat).
Proof. reflexivity. Qed.
End GatewayDemo.
