(* ===== verification/VaultAuth.v ===== *)
(** * Access to the object store ([vault/pkg/auth], [vault/pkg/ratelimit])

    Credentials, session tokens, signatures of requests in headers and in
    query strings, pre-signed addresses, policies, and the token buckets that
    limit tenants.  A request is what [net/http] hands over; the class [Keyed]
    has the keyed hash and the encoding of token claims.  The directory
    service is a field of the provider. *)

From S2P Require Import Prelude GoSort GoStrings GoNumbers GoTime GoFloat GatewayParts Vault.
Local Open Scope string_scope.
Local Open Scope Z_scope.
Local Open Scope list_scope.

(** ** Requests ([net/http], [net/url]) *)

Abbreviation Values := (gmap string (list string)).

Definition values_Get (q : Values) (k : string) : string := match q !! k with Some (v :: _) => v | _ => "" end.
Definition values_Has (q : Values) (k : string) : bool := match q !! k with Some _ => true | None => false end.

(** [Body] is [None] when reading it fails. *)
Record Request := mkRequest {
  Method : string; Path : string; Query : Values; Header : Headers; Host : string; Cookies : list (string * string);
  ContentLength : Z; Body : option bytes }.

Definition Get (r : Request) (k : string) : string := header_Get (Header r) k.

(** [r.Cookie]: the first one of that name. *)
Definition Cookie (r : Request) (name : string) : option string := assoc name (Cookies r).

(** *** Base 64 *)

Definition std_alphabet : bytes := byt "ABCDEFGHIJKLMNOPQRSTUVWXYZabcdefghijklmnopqrstuvwxyz0123456789+/".
Definition url_alphabet : bytes := byt "ABCDEFGHIJKLMNOPQRSTUVWXYZabcdefghijklmnopqrstuvwxyz0123456789-_".

Fixpoint position (c : ascii) (l : bytes) : option Z :=
  match l with [] => None | d :: l => if decide (c = d) then Some 0 else Z.succ <$> position c l end.

Definition sextet (alphabet : bytes) (n : Z) : ascii := nth (Z.to_nat n) alphabet NUL.

(** Without padding. *)
Fixpoint base64_encode (alphabet b : bytes) : bytes :=
  match b with
  | x :: y :: z :: b =>
      let n := (of_byte x * 256 + of_byte y) * 256 + of_byte z in
      sextet alphabet (n / 262144) :: sextet alphabet (n / 4096 mod 64) :: sextet alphabet (n / 64 mod 64) :: sextet alphabet (n mod 64)
        :: base64_encode alphabet b
  | [x; y] => let n := (of_byte x * 256 + of_byte y) * 4 in
      [sextet alphabet (n / 4096); sextet alphabet (n / 64 mod 64); sextet alphabet (n mod 64)]
  | [x] => let n := of_byte x * 16 in [sextet alphabet (n / 64); sextet alphabet (n mod 64)]
  | [] => []
  end.

(** The decoder, which does not look at the unused bits of the last group. *)
Fixpoint base64_decode (alphabet s : bytes) : option bytes :=
  match s with
  | a :: b :: c :: d :: s =>
      match position a alphabet, position b alphabet, position c alphabet, position d alphabet, base64_decode alphabet s with
      | Some p, Some q, Some r, Some t, Some rest =>
          let n := ((p * 64 + q) * 64 + r) * 64 + t in Some (byte_of (n / 65536) :: byte_of (n / 256) :: byte_of n :: rest)
      | _, _, _, _, _ => None
      end
  | [a; b; c] =>
      match position a alphabet, position b alphabet, position c alphabet with
      | Some p, Some q, Some r => let n := (p * 64 + q) * 64 + r in Some [byte_of (n / 1024); byte_of (n / 4)]
      | _, _, _ => None
      end
  | [a; b] => match position a alphabet, position b alphabet with Some p, Some q => Some [byte_of ((p * 64 + q) / 16)] | _, _ => None end
  | [_] => None
  | [] => Some []
  end.

Definition line_end (c : ascii) : bool := bool_decide (c = "010"%char) || bool_decide (c = "013"%char).
Definition no_lines (s : bytes) : bytes := List.filter (fun c => negb (line_end c)) s.

(** [base64.StdEncoding.DecodeString]: the length is a multiple of four, and
    only the last group is padded. *)
Definition base64_StdDecode (s : string) : option bytes :=
  let s := no_lines (byt s) in
  if negb (length s mod 4 =? 0)%nat then None else
  match reverse s with
  | "="%char :: "="%char :: rest => base64_decode std_alphabet (reverse rest)
  | "="%char :: rest => base64_decode std_alphabet (reverse rest)
  | _ => base64_decode std_alphabet s
  end.

Definition base64UrlEncode (b : bytes) : string := str (base64_encode url_alphabet b).
Definition base64UrlDecode (s : string) : option bytes := base64_decode url_alphabet (no_lines (byt s)).

(** [r.BasicAuth]: the scheme in any case. *)
Definition BasicAuth (r : Request) : option (string * string) :=
  let auth := byt (Get r "Authorization") in
  if negb (bool_decide (lower_ascii (take 6 auth) = byt "basic ")) then None else
  match base64_StdDecode (str (drop 6 auth)) with
  | None => None
  | Some c => match bytes_Cut c [":"%char] with Some (u, p) => Some (str u, str p) | None => None end
  end.

(** *** Query strings *)

(** [url.QueryUnescape]. *)
Fixpoint query_unescape (s : bytes) : option bytes :=
  match s with
  | [] => Some []
  | "%"%char :: s =>
      match s with
      | a :: b :: s' =>
          match from_hex a, from_hex b, query_unescape s' with
          | Some x, Some y, Some r => Some (ascii_of_N (16 * x + y) :: r)
          | _, _, _ => None
          end
      | _ => None
      end
  | c :: s => cons (if decide (c = "+"%char) then " "%char else c) <$> query_unescape s
  end.

Definition QueryUnescape (s : string) : option string := str <$> query_unescape (byt s).

(** One setting of a query string; a bad one is left out. *)
Definition add_setting (q : Values) (setting : string) : Values :=
  if ContainsByte setting ";"%char || bool_decide (setting = "") then q else
  let '(k, v) := match bytes_Cut (byt setting) ["="%char] with Some (k, v) => (str k, str v) | None => (setting, "") end in
  match QueryUnescape k, QueryUnescape v with
  | Some k, Some v => <[k := default [] (q !! k) ++ [v]]> q
  | _, _ => q
  end.

(** [url.ParseQuery], and [URL.Query] which drops the error. *)
Definition ParseQuery (s : string) : Values := fold_left add_setting (Split s "&"%char) ∅.

(** ** Tokens ([jwt.go]) *)

Record JWTClaims := mkClaims { Username : string; Role : string; ExpiresAt : Z; Issuer : string }.

Definition plain_claims (c : JWTClaims) : Prop := ascii_text (Username c) /\ ascii_text (Role c) /\ ascii_text (Issuer c) /\ in_int64 (ExpiresAt c).

(** [hmac.New(sha256.New, key)], and JSON of claims and of the token header. *)
Class Keyed := {
  hmacSHA256 : bytes -> bytes -> bytes;
  hmac_length : forall key data, length (hmacSHA256 key data) = 32%nat;
  header_json : bytes;
  Marshal_claims : JWTClaims -> bytes;
  Unmarshal_claims : bytes -> option JWTClaims;
  claims_roundtrip : forall c, plain_claims c -> Unmarshal_claims (Marshal_claims c) = Some c }.

Section Tokens.
Context `{keyed : Keyed}.

Definition GenerateToken (claims : JWTClaims) (secret : bytes) : string :=
  let signingInput := base64UrlEncode header_json +:+ "." +:+ base64UrlEncode (Marshal_claims claims) in
  signingInput +:+ "." +:+ base64UrlEncode (hmacSHA256 secret (byt signingInput)).

Inductive TokenErr := ErrInvalidToken | ErrExpiredToken.

Definition ValidateToken (now : Z) (tokenStr : string) (secret : bytes) : TokenErr + JWTClaims :=
  match Split tokenStr "."%char with
  | [headerB64; payloadB64; signatureB64] =>
      let signingInput := headerB64 +:+ "." +:+ payloadB64 in
      match base64UrlDecode signatureB64 with
      | None => inl ErrInvalidToken
      | Some actualSignature =>
          if negb (bool_decide (hmacSHA256 secret (byt signingInput) = actualSignature)) then inl ErrInvalidToken else
          match base64UrlDecode payloadB64 ≫= Unmarshal_claims with
          | None => inl ErrInvalidToken
          | Some claims => if ExpiresAt claims <? now / Second then inl ErrExpiredToken else inr claims
          end
      end
  | _ => inl ErrInvalidToken
  end.
End Tokens.

(** ** The provider ([auth.go]) *)

(** [ldapClient] answers whether it knows a user, or fails. *)
Record AuthProvider := mkProvider {
  credentials : gmap string string; enabled : bool; jwtSecret : bytes; ldapClient : option (string -> string -> option bool) }.

Section Provider.
Context `{casing : Casing} `{codec : Codec} `{keyed : Keyed}.

Definition fallback_secret : string := "default-Pranor Vault-jwt-fallback-secret-key-32bytes".

(** [shared] is the environment variable PRANOR_JWT_SECRET. *)
Definition NewAuthProvider (shared accessKey secretKey : string) (enabled : bool) : AuthProvider :=
  if negb (bool_decide (shared = "")) then mkProvider ∅ enabled (sha256 (byt shared)) None
  else if negb (bool_decide (accessKey = "")) && negb (bool_decide (secretKey = ""))
  then mkProvider {[accessKey := secretKey]} enabled (sha256 (byt secretKey)) None
  else mkProvider ∅ enabled (sha256 (byt fallback_secret)) None.

(** The values of [Credential=], [SignedHeaders=] and [Signature=]. *)
Record SignatureParts := mkParts { credentialPart : string; signedHeadersPart : string; signaturePart : string }.

Definition skip (n : nat) (s : string) : string := str (drop n (byt s)).

Definition add_part (p : SignatureParts) (part : string) : SignatureParts :=
  let part := TrimSpace part in
  if HasPrefix part "Credential=" then mkParts (skip 11 part) (signedHeadersPart p) (signaturePart p)
  else if HasPrefix part "SignedHeaders=" then mkParts (credentialPart p) (skip 14 part) (signaturePart p)
  else if HasPrefix part "Signature=" then mkParts (credentialPart p) (signedHeadersPart p) (skip 10 part)
  else p.

Definition GetIdentity (now : Z) (ap : AuthProvider) (r : Request) : string :=
  if negb (enabled ap) then "anonymous" else
  let authHeader := Get r "Authorization" in
  let by_basic := if HasPrefix authHeader "Basic " then fst <$> BasicAuth r else None in
  let by_token tokenStr := match ValidateToken now tokenStr (jwtSecret ap) with inr claims => Some (Username claims) | inl _ => None end in
  let by_bearer := if HasPrefix authHeader "Bearer " then by_token (TrimPrefix authHeader "Bearer ") else None in
  let by_cookie := Cookie r "token" ≫= by_token in
  let by_header :=
    if HasPrefix authHeader "AWS4-HMAC-SHA256 "
    then match List.find (fun part => HasPrefix (TrimSpace part) "Credential=") (Split (skip 17 authHeader) ","%char) with
         | Some part => head (Split (skip 11 (TrimSpace part)) "/"%char)
         | None => None
         end
    else None in
  let by_query :=
    let credential := values_Get (Query r) "X-Amz-Credential" in
    if bool_decide (credential = "") then None else head (Split credential "/"%char) in
  match by_basic, by_bearer, by_cookie, by_header, by_query with
  | Some u, _, _, _, _ | None, Some u, _, _, _ | None, None, Some u, _, _ | None, None, None, Some u, _ | None, None, None, None, Some u => u
  | None, None, None, None, None => ""
  end.

(** *** Signatures *)

(** [sortStrings]: the least of [x] and [l] comes out, the others stay in the
    order in which they were exchanged. *)
Fixpoint exchange (x : string) (l : list string) : string * list string :=
  match l with
  | [] => (x, [])
  | y :: l => if string_ltb y x then let '(m, l) := exchange y l in (m, x :: l) else let '(m, l) := exchange x l in (m, y :: l)
  end.

Fixpoint exchange_sort (rounds : nat) (l : list string) : list string :=
  match rounds, l with
  | S rounds, x :: l => let '(m, l) := exchange x l in m :: exchange_sort rounds l
  | _, _ => l
  end.

Definition sortStrings (strs : list string) : list string := exchange_sort (length strs) strs.

Definition shouldEscape (c : ascii) : bool :=
  let n := N_of_ascii c in
  negb ((65 <=? n)%N && (n <=? 90)%N || (97 <=? n)%N && (n <=? 122)%N || (48 <=? n)%N && (n <=? 57)%N || bool_decide (c ∈ byt "-_.~")).

Definition upper_hex (n : N) : ascii := nth (N.to_nat n) (byt "0123456789ABCDEF") NUL.

Definition escape_byte (c : ascii) : bytes :=
  if shouldEscape c then ["%"%char; upper_hex (N_of_ascii c / 16); upper_hex (N_of_ascii c mod 16)] else [c].

Definition pathEscape (s : string) : string := str (concat (escape_byte <$> byt s)).

(** The query without the parameters in [omitted], for the keys in the order
    in which the map yields them. *)
Definition canonical_query (omitted keys : list string) (q : Values) : string :=
  let queryKeys := sortStrings (List.filter (fun k => negb (bool_decide (k ∈ omitted))) keys) in
  Join (concat ((fun k => (fun v => pathEscape k +:+ "=" +:+ pathEscape v) <$> default [] (q !! k)) <$> queryKeys)) "&".

Definition canonical_header (r : Request) (h : string) : string :=
  let hLower := lower h in
  let val := if bool_decide (hLower = "host") then Host r else Get r hLower in
  hLower +:+ ":" +:+ TrimSpace val +:+ String nl "".

Definition canonical_headers (r : Request) (signedHeaders : string) : string :=
  String.concat "" (canonical_header r <$> Split signedHeaders ";"%char).

Definition lines (l : list string) : string := Join l (String nl "").

Definition canonical_uri (r : Request) : string := if bool_decide (Path r = "") then "/" else Path r.

(** The signature of a string under a key derived from secret, date, region
    and service. *)
Definition sign (secretKey dateStr region service stringToSign : string) : string :=
  let kDate := hmacSHA256 (byt ("AWS4" +:+ secretKey)) (byt dateStr) in
  let kRegion := hmacSHA256 kDate (byt region) in
  let kService := hmacSHA256 kRegion (byt service) in
  let kSigning := hmacSHA256 kService (byt "aws4_request") in
  hex (hmacSHA256 kSigning (byt stringToSign)).

Definition verifyHeaderSignature (ap : AuthProvider) (r : Request) (authHeader : string) : bool :=
  if negb (HasPrefix authHeader "AWS4-HMAC-SHA256 ") then false else
  let p := fold_left add_part (Split (skip 17 authHeader) ","%char) (mkParts "" "" "") in
  if bool_decide (credentialPart p = "") || bool_decide (signedHeadersPart p = "") || bool_decide (signaturePart p = "") then false else
  match Split (credentialPart p) "/"%char with
  | accessKey :: dateStr :: region :: service :: _ :: _ =>
      match credentials ap !! accessKey with
      | None => false
      | Some secretKey =>
          let canonicalQuery := canonical_query ["X-Amz-Signature"; "Signature"] (map_to_list (Query r)).*1 (Query r) in
          let payloadHash := if bool_decide (Get r "X-Amz-Content-Sha256" = "") then "UNSIGNED-PAYLOAD" else Get r "X-Amz-Content-Sha256" in
          let canonicalRequest := lines [Method r; canonical_uri r; canonicalQuery; canonical_headers r (signedHeadersPart p); signedHeadersPart p; payloadHash] in
          let amzDate := if bool_decide (Get r "X-Amz-Date" = "") then Get r "Date" else Get r "X-Amz-Date" in
          let stringToSign := lines ["AWS4-HMAC-SHA256"; amzDate; dateStr +:+ "/" +:+ region +:+ "/" +:+ service +:+ "/aws4_request"; hex (sha256 (byt canonicalRequest))] in
          bool_decide (sign secretKey dateStr region service stringToSign = signaturePart p)
      end
  | _ => false
  end.

(** Whether a pre-signed address is too old or malformed in its dates. *)
Definition out_of_date (now : Z) (expires date : string) : bool :=
  if bool_decide (expires = "") then false else
  match Atoi expires, time_Parse layout_compact date with
  | Some expiresSec, Some reqTime => reqTime + wrap64 (expiresSec * Second) <? now
  | _, _ => true
  end.

Definition verifyQuerySignature (now : Z) (ap : AuthProvider) (r : Request) : bool :=
  let q := Query r in
  if negb (bool_decide (values_Get q "X-Amz-Algorithm" = "AWS4-HMAC-SHA256")) then false else
  let credential := values_Get q "X-Amz-Credential" in
  let signedHeaders := values_Get q "X-Amz-SignedHeaders" in
  let signature := values_Get q "X-Amz-Signature" in
  let date := values_Get q "X-Amz-Date" in
  if bool_decide (credential = "") || bool_decide (signedHeaders = "") || bool_decide (signature = "") || bool_decide (date = "") then false else
  if out_of_date now (values_Get q "X-Amz-Expires") date then false else
  match Split credential "/"%char with
  | accessKey :: dateStr :: region :: service :: _ :: _ =>
      match credentials ap !! accessKey with
      | None => false
      | Some secretKey =>
          let canonicalQuery := canonical_query ["X-Amz-Signature"] (map_to_list q).*1 q in
          let canonicalRequest := lines [Method r; canonical_uri r; canonicalQuery; canonical_headers r signedHeaders; signedHeaders; "UNSIGNED-PAYLOAD"] in
          let stringToSign := lines ["AWS4-HMAC-SHA256"; date; dateStr +:+ "/" +:+ region +:+ "/" +:+ service +:+ "/aws4_request"; hex (sha256 (byt canonicalRequest))] in
          bool_decide (sign secretKey dateStr region service stringToSign = signature)
      end
  | _ => false
  end.

Definition VerifyRequest (now : Z) (ap : AuthProvider) (r : Request) : bool :=
  if negb (enabled ap) then true else
  let authHeader := Get r "Authorization" in
  let valid tokenStr := match ValidateToken now tokenStr (jwtSecret ap) with inr _ => true | inl _ => false end in
  match (if HasPrefix authHeader "Basic " then BasicAuth r else None) with
  | Some (username, password) => bool_decide (credentials ap !! username = Some password)
  | None =>
      if HasPrefix authHeader "Bearer " then valid (TrimPrefix authHeader "Bearer ")
      else if match Cookie r "token" with Some tokenStr => valid tokenStr | None => false end then true
      else if bool_decide (authHeader = "")
      then if bool_decide (values_Get (Query r) "X-Amz-Algorithm" = "") then false else verifyQuerySignature now ap r
      else verifyHeaderSignature ap r authHeader
  end.

Definition console_claims (now : Z) (username role : string) : JWTClaims :=
  mkClaims username role ((now + 24 * Hour) / Second) "github.com/vyuvaraj/pranor/vault".

Inductive LoginErr := LdapFailed | InvalidCredentials.

Definition AuthenticateConsole (now : Z) (ap : AuthProvider) (username password : string) : LoginErr + string :=
  if bool_decide (credentials ap !! username = Some password) then inr (GenerateToken (console_claims now username "admin") (jwtSecret ap))
  else match ldapClient ap with
       | None => inl InvalidCredentials
       | Some authenticate =>
           match authenticate username password with
           | None => inl LdapFailed
           | Some true => inr (GenerateToken (console_claims now username "ldap-user") (jwtSecret ap))
           | Some false => inl InvalidCredentials
           end
       end.

Definition GetAdminCredentials (ap : AuthProvider) : string * string := default ("minioadmin", "minioadmin") (head (map_to_list (credentials ap))).

(** *** Pre-signed addresses *)

Definition host_of (baseURL : string) : string := TrimSuffix (TrimPrefix (TrimPrefix baseURL "http://") "https://") "/".

Definition presigned_path (bucket key : string) : string := "/" +:+ bucket +:+ "/" +:+ key.

(** The parameters, and the signature that goes with them. *)
Definition presigned_parameters (now : Z) (accessKey : string) (expires : Z) : list string :=
  let credential := accessKey +:+ "/" +:+ time_Format layout_date now +:+ "/us-east-1/s3/aws4_request" in
  sortStrings ["X-Amz-Algorithm=AWS4-HMAC-SHA256"; "X-Amz-Credential=" +:+ pathEscape credential; "X-Amz-Date=" +:+ time_Format layout_compact now;
               "X-Amz-Expires=" +:+ FormatInt (truncate_float (Seconds expires)); "X-Amz-SignedHeaders=host"].

Definition presigned_signature (now : Z) (secretKey method path canonicalQuery host : string) : string :=
  let dateStr := time_Format layout_date now in
  let canonicalRequest := lines [method; path; canonicalQuery; "host:" +:+ host; ""; "host"; "UNSIGNED-PAYLOAD"] in
  let stringToSign := lines ["AWS4-HMAC-SHA256"; time_Format layout_compact now; dateStr +:+ "/us-east-1/s3/aws4_request"; hex (sha256 (byt canonicalRequest))] in
  sign secretKey dateStr "us-east-1" "s3" stringToSign.

Definition presigned_query (now : Z) (ap : AuthProvider) (baseURL method bucket key : string) (expires : Z) : string :=
  let '(accessKey, secretKey) := GetAdminCredentials ap in
  let canonicalQuery := Join (presigned_parameters now accessKey expires) "&" in
  canonicalQuery +:+ "&X-Amz-Signature=" +:+ presigned_signature now secretKey method (presigned_path bucket key) canonicalQuery (host_of baseURL).

Definition GeneratePresignedURL (now : Z) (ap : AuthProvider) (baseURL method bucket key : string) (expires : Z) : string :=
  baseURL +:+ presigned_path bucket key +:+ "?" +:+ presigned_query now ap baseURL method bucket key expires.
End Provider.

(** ** Policies ([policy.go]) *)

(** [StringOrArray.UnmarshalJSON].  What is neither a string nor a list of
    strings is handed to the decoder again, which calls this method again:
    [None] for every depth. *)
Fixpoint StringOrArray_UnmarshalJSON (depth : nat) (data : JValue) : option (list string) :=
  match depth with
  | O => None
  | S depth =>
      match data with
      | JString s => Some [s]
      | JNull => Some [""]
      | JArray l =>
          match mapM (fun v => match v with JString s => Some s | JNull => Some "" | _ => None end) l with
          | Some a => Some a
          | None => StringOrArray_UnmarshalJSON depth data
          end
      | _ => StringOrArray_UnmarshalJSON depth data
      end
  end.

Record Statement := mkStatement { Effect : string; Action : list string; Resource : list string }.

Record Policy := mkPolicy { p_Version : string; Statements : list Statement }.

(** The pieces of a pattern after the first one, in what is left of the value. *)
Fixpoint match_rest (parts : list bytes) (val : bytes) : bool :=
  match parts with
  | [] => true
  | [last] => bytes_HasPrefix (reverse val) (reverse last)
  | part :: parts => match bytes_Cut val part with Some (_, val) => match_rest parts val | None => false end
  end.

Definition matchWildcard (pattern val : string) : bool :=
  if bool_decide (pattern = "*") then true else
  match bytes_Split "*"%char (byt pattern) with
  | [] | [_] => bool_decide (pattern = val)
  | first :: rest => bytes_HasPrefix (byt val) first && match_rest rest (drop (length first) (byt val))
  end.

Section Decision.
Context `{casing : Casing}.

Definition statement_matches (action resource : string) (stmt : Statement) : bool :=
  existsb (fun act => matchWildcard (lower act) action) (Action stmt) && existsb (fun res => matchWildcard (lower res) resource) (Resource stmt).

Fixpoint evaluate (action resource : string) (matchedAllow : bool) (statements : list Statement) : bool :=
  match statements with
  | [] => matchedAllow
  | stmt :: statements =>
      let effect := lower (Effect stmt) in
      if negb (bool_decide (effect = "allow")) && negb (bool_decide (effect = "deny")) then evaluate action resource matchedAllow statements
      else if negb (statement_matches action resource stmt) then evaluate action resource matchedAllow statements
      else if bool_decide (effect = "deny") then false
      else evaluate action resource true statements
  end.

Definition IsAllowed (p : Policy) (action resource : string) : bool := evaluate (lower action) (lower resource) false (Statements p).
End Decision.

(** ** Rate limits ([ratelimit/limiter.go]) *)

Record bucket := mkTokens { tokens : float64; lastRefill : Z; rps : float64; burst : float64 }.

Definition refill (now : Z) (b : bucket) : bucket :=
  let elapsed := Seconds (Sub now (lastRefill b)) in
  if fleb elapsed fzero then b else
  let t := fadd (tokens b) (fmul elapsed (rps b)) in
  mkTokens (if fltb (burst b) t then burst b else t) now (rps b) (burst b).

Definition allow (now : Z) (b : bucket) : bool * bucket :=
  let b := refill now b in
  if fltb (tokens b) (float_of_Z 1) then (false, b) else (true, mkTokens (fsub (tokens b) (float_of_Z 1)) (lastRefill b) (rps b) (burst b)).

Definition retryAfterMs (b : bucket) : Z :=
  if fleb (rps b) fzero then 1000 else
  let ms := truncate_float (fmul (fdiv (float_of_Z 1) (rps b)) (float_of_Z 1000)) in if ms <? 1 then 1 else ms.

Record Limiter := mkLimits { defaultRPS : float64; defaultBurst : float64; tenants : gmap string bucket }.

Definition NewLimiter (rps burst : Z) : Limiter := mkLimits (float_of_Z rps) (float_of_Z burst) ∅.

Definition getOrCreate (now : Z) (tenantID : string) (l : Limiter) : bucket * Limiter :=
  match tenants l !! tenantID with
  | Some b => (b, l)
  | None => let b := mkTokens (defaultBurst l) now (defaultRPS l) (defaultBurst l) in
            (b, mkLimits (defaultRPS l) (defaultBurst l) (<[tenantID := b]> (tenants l)))
  end.

Definition with_tenant_bucket (tenantID : string) (b : bucket) (l : Limiter) : Limiter :=
  mkLimits (defaultRPS l) (defaultBurst l) (<[tenantID := b]> (tenants l)).

Definition limiter_Allow (now : Z) (tenantID : string) (l : Limiter) : bool * Limiter :=
  let '(b, l) := getOrCreate now tenantID l in
  let '(ok, b) := allow now b in (ok, with_tenant_bucket tenantID b l).

Definition RetryAfterSec (now : Z) (tenantID : string) (l : Limiter) : Z * Limiter :=
  let '(b, l) := getOrCreate now tenantID l in
  let secs := Z.quot (retryAfterMs b) 1000 in (if secs <? 1 then 1 else secs, l).

Definition SetLimit (now : Z) (tenantID : string) (rps burst : Z) (l : Limiter) : Limiter :=
  let '(b, l) := getOrCreate now tenantID l in
  with_tenant_bucket tenantID
    (mkTokens (if fltb (float_of_Z burst) (tokens b) then float_of_Z burst else tokens b) (lastRefill b) (float_of_Z rps) (float_of_Z burst)) l.

Definition limiter_Delete (tenantID : string) (l : Limiter) : Limiter :=
  mkLimits (defaultRPS l) (defaultBurst l) (delete tenantID (tenants l)).

(** ** Patterns

    What a pattern with stars means, and that the search for its pieces from
    the left decides it. *)

Inductive glob : bytes -> bytes -> Prop :=
| glob_end : glob [] []
| glob_byte c p v : c <> "*"%char -> glob p v -> glob (c :: p) (c :: v)
| glob_star p v : glob p v -> glob ("*"%char :: p) v
| glob_more p c v : glob ("*"%char :: p) v -> glob ("*"%char :: p) (c :: v).

(** The pieces occur in this order, the last one at the end. *)
Fixpoint spread (parts : list bytes) (v : bytes) : Prop :=
  match parts with
  | [] => v = []
  | part :: parts => exists w t, v = w ++ part ++ t /\ spread parts t
  end.

Lemma spread_more part parts w t : spread (part :: parts) t -> spread (part :: parts) (w ++ t).
Proof. intros (w' & t' & -> & H). exists (w ++ w'), t'. split; [by rewrite app_assoc|done]. Qed.

Lemma glob_star_spread first rest (v : bytes) (p : bytes) :
  (forall v, glob p v <-> exists t, v = first ++ t /\ spread rest t) -> (glob ("*"%char :: p) v <-> spread (first :: rest) v).
Proof.
  intros IH. split.
  - intros H. remember ("*"%char :: p) as q eqn:E. induction H as [|c q v Hc H _|q v H _|q c v H IHg]; simplify_eq.
    + apply IH in H as (t & -> & Ht). by exists [], t.
    + destruct (IHg eq_refl) as (w & t & -> & Ht). by exists (c :: w), t.
  - intros (w & t & -> & Ht). induction w as [|c w IHw]; cbn; [apply glob_star, IH; eauto|by apply glob_more].
Qed.

Lemma glob_spread p v : glob p v <-> match bytes_Split "*"%char p with first :: rest => exists t, v = first ++ t /\ spread rest t | [] => False end.
Proof.
  revert v. induction p as [|c p IH]; intros v; cbn [bytes_Split].
  - split; [inversion 1; subst; by exists []|]. intros (t & -> & ->). constructor.
  - pose proof (bytes_Split_nonempty "*"%char p) as Hne. case_decide as Hc.
    + subst c. destruct (bytes_Split "*"%char p) as [|first rest]; [done|]. rewrite (glob_star_spread first rest v p IH). split; [by exists v|by intros (t & -> & Ht)].
    + destruct (bytes_Split "*"%char p) as [|first rest]; [done|]. split.
      * inversion 1; subst; [|congruence..]. apply IH in H4 as (t & -> & Ht). by exists t.
      * intros (t & -> & Ht). constructor; [done|]. apply IH. eauto.
Qed.

(** The first occurrence leaves the most behind it. *)
Lemma bytes_Cut_sound s sep b a : bytes_Cut s sep = Some (b, a) -> s = b ++ sep ++ a.
Proof.
  revert b a. induction s as [|c s IH]; intros b a; cbn; destruct (bytes_HasPrefix _ sep) eqn:E; intros H; simplify_eq.
  - apply bytes_HasPrefix_iff in E as [r E]. destruct sep; [by rewrite drop_nil|done].
  - apply bytes_HasPrefix_iff in E as [r E]. cbn [app]. rewrite E. by rewrite drop_app_length.
  - destruct (bytes_Cut s sep) as [[b' a']|] eqn:E'; [|done]. simplify_eq. cbn. f_equal. by apply IH.
Qed.

Lemma bytes_Cut_leftmost w sep t : exists b x, bytes_Cut (w ++ sep ++ t) sep = Some (b, x ++ t).
Proof.
  induction w as [|c w IH].
  - cbn [app]. assert (H : bytes_HasPrefix (sep ++ t) sep = true) by (apply bytes_HasPrefix_iff; eauto).
    exists [], []. destruct (sep ++ t) as [|d l] eqn:E; cbn; rewrite H; rewrite <- E, drop_app_length; done.
  - cbn [app bytes_Cut]. destruct (bytes_HasPrefix (c :: w ++ sep ++ t) sep) eqn:E.
    + apply bytes_HasPrefix_iff in E as [r E].
      assert (Hr : exists x, r = x ++ t).
      { assert (Hl : (length t <= length r)%nat) by (apply (f_equal length) in E; revert E; cbn; rewrite !length_app; lia).
        change (c :: w ++ sep ++ t) with ((c :: w) ++ sep ++ t) in E. rewrite app_assoc in E.
        apply app_eq_inv in E as [(k & _ & ->)|(k & _ & ->)]; [by exists k|]. rewrite length_app in Hl.
        assert (k = []) as -> by (destruct k; [done|cbn in Hl; lia]). by exists []. }
      destruct Hr as [x Hx]. exists [], x. rewrite E, drop_app_length. by rewrite Hx.
    + destruct IH as (b & x & ->). by exists (c :: b), x.
Qed.

Lemma match_rest_spread part parts v : match_rest (part :: parts) v = true <-> spread (part :: parts) v.
Proof.
  revert part v. induction parts as [|part' parts IH]; intros part v.
  - cbn [match_rest spread]. rewrite bytes_HasPrefix_iff. split.
    + intros [r E]. exists (reverse r), []. split; [|done]. rewrite app_nil_r. apply (f_equal reverse) in E. by rewrite reverse_involutive, reverse_app, reverse_involutive in E.
    + intros (w & t & -> & ->). exists (reverse w). by rewrite app_nil_r, reverse_app.
  - change (match_rest (part :: part' :: parts) v) with (match bytes_Cut v part with Some (_, val) => match_rest (part' :: parts) val | None => false end). split.
    + destruct (bytes_Cut v part) as [[b a]|] eqn:E; [|done]. intros H. apply bytes_Cut_sound in E. apply IH in H. by exists b, a.
    + intros (w & t & -> & Ht). destruct (bytes_Cut_leftmost w part t) as (b & x & ->). apply IH. by apply spread_more.
Qed.

Lemma matchWildcard_glob pattern val : matchWildcard pattern val = true <-> glob (byt pattern) (byt val).
Proof.
  unfold matchWildcard. case_bool_decide as Hs.
  { subst pattern. split; [intros _|done]. change (byt "*") with ["*"%char]. induction (byt val) as [|c v IH]; [apply glob_star; constructor|by apply glob_more]. }
  rewrite glob_spread. pose proof (bytes_join_Split "*"%char (byt pattern)) as HJ.
  destruct (bytes_Split "*"%char (byt pattern)) as [|first [|part rest]] eqn:E; [by apply bytes_Split_nonempty in E| |].
  - cbn in HJ. rewrite bool_decide_eq_true. split.
    + intros ->. exists []. by rewrite app_nil_r, HJ.
    + intros (t & H & ->). rewrite app_nil_r, HJ in H. by apply byt_inj.
  - rewrite andb_true_iff, bytes_HasPrefix_iff, match_rest_spread. split.
    + intros [[t ->] H]. exists t. by rewrite drop_app_length in H.
    + intros (t & -> & H). split; [by exists t|]. by rewrite drop_app_length.
Qed.

(** ** Decisions *)

Section DecisionFacts.
Context `{casing : Casing}.

Definition covers (action resource : string) (stmt : Statement) : Prop :=
  (exists act, act ∈ Action stmt /\ glob (byt (lower act)) (byt (lower action))) /\
  (exists res, res ∈ Resource stmt /\ glob (byt (lower res)) (byt (lower resource))).

Lemma existsb_match l v : existsb (fun x => matchWildcard (lower x) v) l = true <-> exists x, x ∈ l /\ glob (byt (lower x)) (byt v).
Proof. rewrite existsb_exists. setoid_rewrite matchWildcard_glob. by setoid_rewrite list_elem_of_In. Qed.

Lemma statement_matches_covers action resource stmt : statement_matches (lower action) (lower resource) stmt = true <-> covers action resource stmt.
Proof. unfold statement_matches, covers. by rewrite andb_true_iff, !existsb_match. Qed.

(** The policy allows exactly what some statement allows and none denies. *)
Lemma IsAllowed_exact p action resource :
  IsAllowed p action resource = true <->
  (exists stmt, stmt ∈ Statements p /\ lower (Effect stmt) = "allow" /\ covers action resource stmt) /\
  (forall stmt, stmt ∈ Statements p -> lower (Effect stmt) = "deny" -> ~ covers action resource stmt).
Proof.
  unfold IsAllowed. assert (H : forall acc, evaluate (lower action) (lower resource) acc (Statements p) = true <->
    (acc = true \/ exists stmt, stmt ∈ Statements p /\ lower (Effect stmt) = "allow" /\ covers action resource stmt) /\
    (forall stmt, stmt ∈ Statements p -> lower (Effect stmt) = "deny" -> ~ covers action resource stmt)).
  2: { rewrite H. split; intros [H1 H2]; (split; [|done]); [by destruct H1 as [H1|H1]|by right]. }
  induction (Statements p) as [|stmt l IH]; intros acc; cbn [evaluate].
  { split; [intros ->; split; [by left|by intros stmt ?%not_elem_of_nil]|]. intros [[->|(stmt & ?%not_elem_of_nil & _)] _]; done. }
  assert (Hskip : forall acc', (lower (Effect stmt) = "deny" -> ~ covers action resource stmt) ->
    (acc' = true <-> acc = true \/ (lower (Effect stmt) = "allow" /\ covers action resource stmt)) ->
    evaluate (lower action) (lower resource) acc' l = true <->
    (acc = true \/ exists stmt', stmt' ∈ stmt :: l /\ lower (Effect stmt') = "allow" /\ covers action resource stmt') /\
    (forall stmt', stmt' ∈ stmt :: l -> lower (Effect stmt') = "deny" -> ~ covers action resource stmt')).
  { intros acc' Hd Ha. rewrite IH, Ha. setoid_rewrite elem_of_cons. clear -Hd. split.
    - intros [H1 H2]. split; [|intros s' [->|Hs]; eauto]. destruct H1 as [[?|[? ?]]|(s' & ? & ? & ?)]; eauto 6.
    - intros [H1 H2]. split; [|intros s' Hs; eauto]. destruct H1 as [?|(s' & [->|?] & ? & ?)]; eauto 6. }
  destruct (statement_matches (lower action) (lower resource) stmt) eqn:E.
  - apply statement_matches_covers in E. case_bool_decide as Ha; cbn [negb andb].
    { rewrite bool_decide_false by (rewrite Ha; done). apply Hskip; [by rewrite Ha|]. split; [by right|done]. }
    case_bool_decide as Hd; cbn [negb].
    { split; [done|]. intros [_ H]. exfalso. by apply (H stmt); [left|..]. }
    apply Hskip; [done|]. split; [by left|by intros [?|[? _]]].
  - assert (Hn : ~ covers action resource stmt) by (rewrite <- statement_matches_covers; congruence).
    destruct (negb _ && negb _); cbn [negb]; (apply Hskip; [done|]; split; [by left|by intros [?|[_ ?]]]).
Qed.
End DecisionFacts.

(** ** The order of query parameters *)

Lemma string_le_refl x : string_le x x.
Proof. unfold string_le, string_ltb. destruct (bytes_ltb (byt x) (byt x)) eqn:E; [|done]. by rewrite (bytes_ltb_asym _ _ E) in E. Qed.

Lemma exchange_spec x l : let '(m, l') := exchange x l in m :: l' ≡ₚ x :: l /\ Forall (string_le m) l'.
Proof.
  revert x. induction l as [|y l IH]; intros x; cbn; [by split|].
  destruct (string_ltb y x) eqn:E.
  - specialize (IH y). destruct (exchange y l) as [m l']. destruct IH as [Hp Hm]. split.
    + rewrite (Permutation_swap x m l'), Hp. constructor. done.
    + constructor; [|done]. assert (string_le m y).
      { assert (Hy : y ∈ m :: l') by (rewrite Hp; left). apply elem_of_cons in Hy as [->|Hy]; [apply string_le_refl|]. by eapply Forall_forall in Hm. }
      etransitivity; [done|]. unfold string_le. unfold string_ltb in *. by apply bytes_ltb_asym.
  - specialize (IH x). destruct (exchange x l) as [m l']. destruct IH as [Hp Hm]. split.
    + rewrite (Permutation_swap y m l'), Hp. apply Permutation_swap.
    + constructor; [|done]. assert (string_le m x).
      { assert (Hx : x ∈ m :: l') by (rewrite Hp; left). apply elem_of_cons in Hx as [->|Hx]; [apply string_le_refl|]. by eapply Forall_forall in Hm. }
      etransitivity; [done|]. exact E.
Qed.

Lemma sortStrings_sorts l : sortStrings l = sort_Strings l.
Proof.
  unfold sortStrings. assert (H : forall n l, (length l <= n)%nat -> exchange_sort n l ≡ₚ l /\ StronglySorted string_le (exchange_sort n l)).
  { clear l. induction n as [|n IH]; intros l Hl; [destruct l; [by repeat constructor|cbn in Hl; lia]|].
    destruct l as [|x l]; [by repeat constructor|]. cbn. pose proof (exchange_spec x l) as Hx. destruct (exchange x l) as [m l'].
    destruct Hx as [Hp Hm]. pose proof (Permutation_length Hp) as Hlen. cbn in Hl, Hlen. destruct (IH l' ltac:(lia)) as [Hp' Hs]. split.
    - rewrite Hp'. done.
    - constructor; [done|]. by rewrite Hp'. }
  destruct (H (length l) l (le_n _)) as [Hp Hs]. apply sort_Strings_unique; [done|]. by apply StronglySorted_Sorted.
Qed.

(** The canonical query is the same for every order in which the map yields
    its keys. *)
Lemma canonical_query_order omitted keys keys' q : keys ≡ₚ keys' -> canonical_query omitted keys q = canonical_query omitted keys' q.
Proof.
  intros H. unfold canonical_query. rewrite !sortStrings_sorts. do 3 f_equal.
  apply sort_Strings_unique; [|apply sort_Strings_sorted]. rewrite sort_Strings_perm.
  induction H as [|x l l' H IH|x y l|l1 l2 l3 _ IH1 _ IH2]; cbn; [done| | |by etrans].
  - destruct (negb _); [by constructor|done].
  - destruct (negb (bool_decide (x ∈ omitted))) eqn:Ex, (negb (bool_decide (y ∈ omitted))) eqn:Ey; cbn; rewrite ?Ex, ?Ey; first [done|apply Permutation_swap].
Qed.

(** ** Encodings are read back *)

Definition sextets_ok (alphabet : bytes) : bool :=
  forallb (fun n => bool_decide (position (sextet alphabet (Z.of_nat n)) alphabet = Some (Z.of_nat n))) (seq 0 64).

Lemma sextets alphabet n : sextets_ok alphabet = true -> 0 <= n < 64 -> position (sextet alphabet n) alphabet = Some n.
Proof.
  intros H Hn. unfold sextets_ok in H. rewrite forallb_forall in H. specialize (H (Z.to_nat n)). rewrite in_seq, Z2Nat.id in H by lia.
  specialize (H ltac:(lia)). by apply bool_decide_eq_true in H.
Qed.

Lemma of_byte_range c : 0 <= of_byte c < 256.
Proof. unfold of_byte. pose proof (N_ascii_bounded c). lia. Qed.

Lemma byte_of_byte c n : n mod 256 = of_byte c -> byte_of n = c.
Proof. intros H. unfold byte_of. rewrite H. unfold of_byte. rewrite N2Z.id. apply ascii_N_embedding. Qed.

Lemma base64_decode_encode alphabet b : sextets_ok alphabet = true -> base64_decode alphabet (base64_encode alphabet b) = Some b.
Proof.
  intros Ha. assert (Hs : forall n, 0 <= n < 64 -> position (sextet alphabet n) alphabet = Some n) by (intros; by apply sextets).
  clear Ha. revert b. fix IH 1. intros b. destruct b as [|x [|y [|z b]]]; [done| | |].
  - pose proof (of_byte_range x). cbn [base64_encode base64_decode]. rewrite !Hs by div_lia. do 2 f_equal. apply byte_of_byte. div_lia.
  - pose proof (of_byte_range x). pose proof (of_byte_range y). cbn [base64_encode base64_decode]. rewrite !Hs by div_lia.
    f_equal. f_equal; [|f_equal]; apply byte_of_byte; div_lia.
  - pose proof (of_byte_range x). pose proof (of_byte_range y). pose proof (of_byte_range z). cbn [base64_encode base64_decode]. rewrite !Hs by div_lia.
    rewrite IH. f_equal. f_equal; [|f_equal; [|f_equal]]; apply byte_of_byte; div_lia.
Qed.

(** The bytes of an encoding are bytes of the alphabet. *)
Lemma base64_encode_alphabet alphabet (P : ascii -> Prop) b :
  (forall n, 0 <= n < 64 -> P (sextet alphabet n)) -> Forall P (base64_encode alphabet b).
Proof.
  intros Hs. revert b. fix IH 1. intros b. destruct b as [|x [|y [|z b]]]; [constructor| | |].
  - pose proof (of_byte_range x). cbn [base64_encode]. repeat constructor; apply Hs; div_lia.
  - pose proof (of_byte_range x). pose proof (of_byte_range y). cbn [base64_encode]. repeat constructor; apply Hs; div_lia.
  - pose proof (of_byte_range x). pose proof (of_byte_range y). pose proof (of_byte_range z). cbn [base64_encode].
    repeat (constructor; [apply Hs; div_lia|]). apply IH.
Qed.

Lemma url_sextet n : 0 <= n < 64 -> sextet url_alphabet n <> "."%char /\ line_end (sextet url_alphabet n) = false.
Proof.
  intros H. assert (Hall : forallb (fun n => negb (bool_decide (sextet url_alphabet (Z.of_nat n) = "."%char)) && negb (line_end (sextet url_alphabet (Z.of_nat n)))) (seq 0 64) = true) by reflexivity.
  rewrite forallb_forall in Hall. specialize (Hall (Z.to_nat n)). rewrite in_seq, Z2Nat.id in Hall by lia. specialize (Hall ltac:(lia)).
  apply andb_prop in Hall as [H1 H2]. split; [by intros E; rewrite E in H1|by destruct (line_end _)].
Qed.

Lemma base64Url_roundtrip b : base64UrlDecode (base64UrlEncode b) = Some b.
Proof.
  unfold base64UrlDecode, base64UrlEncode. rewrite byt_str.
  assert (H : no_lines (base64_encode url_alphabet b) = base64_encode url_alphabet b).
  { assert (Hf : Forall (fun c => line_end c = false) (base64_encode url_alphabet b)) by (apply base64_encode_alphabet; apply url_sextet).
    unfold no_lines. induction Hf as [|c l Hc _ IH]; cbn; [done|]. by rewrite Hc, IH. }
  rewrite H. by apply base64_decode_encode.
Qed.

Lemma base64Url_dotless b : "."%char ∉ byt (base64UrlEncode b).
Proof.
  unfold base64UrlEncode. rewrite byt_str. assert (Hf : Forall (fun c => c <> "."%char) (base64_encode url_alphabet b)) by (apply base64_encode_alphabet; apply url_sextet).
  intros Hd. rewrite Forall_forall in Hf. by apply (Hf _ Hd).
Qed.

Lemma escape_roundtrip s : QueryUnescape (pathEscape s) = Some s.
Proof.
  unfold QueryUnescape, pathEscape. rewrite byt_str. assert (H : query_unescape (concat (escape_byte <$> byt s)) = Some (byt s)); [|rewrite H; cbn; by rewrite str_byt].
  induction (byt s) as [|c b IH]; [done|]. cbn [fmap list_fmap concat]. unfold escape_byte at 1. destruct (shouldEscape c) eqn:E.
  - cbn [app query_unescape]. rewrite IH.
    assert (Hh : forall n, (n < 16)%N -> from_hex (upper_hex n) = Some n).
    { intros n Hn. assert (Hall : forallb (fun n => bool_decide (from_hex (upper_hex (N.of_nat n)) = Some (N.of_nat n))) (seq 0 16) = true) by reflexivity.
      rewrite forallb_forall in Hall. specialize (Hall (N.to_nat n)). rewrite in_seq, N2Nat.id in Hall. specialize (Hall ltac:(lia)). by apply bool_decide_eq_true in Hall. }
    pose proof (N_ascii_bounded c) as Hc. rewrite !Hh by (apply N.Div0.div_lt_upper_bound || apply N.mod_lt; lia).
    do 2 f_equal. rewrite <- N.div_mod', ascii_N_embedding. done.
  - cbn [app]. assert (Hc : c <> "%"%char /\ c <> "+"%char) by (split; intros ->; by vm_compute in E). destruct Hc as [H1 H2].
    transitivity (cons (if decide (c = "+"%char) then " "%char else c) <$> query_unescape (concat (escape_byte <$> b))).
    + clear -H1. destruct c as [[] [] [] [] [] [] [] []]; try done.
    + rewrite IH. cbn. by rewrite decide_False.
Qed.

(** ** Session tokens *)

Section TokenFacts.
Context `{keyed : Keyed}.

Lemma GenerateToken_parts claims secret :
  Split (GenerateToken claims secret) "."%char =
  [base64UrlEncode header_json; base64UrlEncode (Marshal_claims claims);
   base64UrlEncode (hmacSHA256 secret (byt (base64UrlEncode header_json +:+ "." +:+ base64UrlEncode (Marshal_claims claims))))].
Proof.
  unfold GenerateToken. set (h := base64UrlEncode header_json). set (p := base64UrlEncode (Marshal_claims claims)).
  set (g := base64UrlEncode (hmacSHA256 _ _)). change ((h +:+ "." +:+ p) +:+ "." +:+ g) with ((h +:+ ("." +:+ p)) +:+ ("." +:+ g)).
  rewrite <- (Split_Join [h; p; g] "."%char); [cbn [Join fold_left]; by rewrite !str_app_assoc|done|].
  repeat constructor; apply base64Url_dotless.
Qed.

(** A token that was issued is accepted until it expires, with the claims it
    was issued for. *)
Lemma token_roundtrip now claims secret : plain_claims claims ->
  ValidateToken now (GenerateToken claims secret) secret = if ExpiresAt claims <? now / Second then inl ErrExpiredToken else inr claims.
Proof.
  intros Hc. unfold ValidateToken. rewrite GenerateToken_parts, !base64Url_roundtrip. rewrite bool_decide_true by done. cbn. by rewrite claims_roundtrip.
Qed.
End TokenFacts.

(** ** Pre-signed addresses *)

(** The bytes that are never escaped. *)
Definition unreserved (s : string) : Prop := Forall (fun c => shouldEscape c = false) (byt s).

Lemma pathEscape_unreserved s : unreserved s -> pathEscape s = s.
Proof.
  intros H. unfold pathEscape. rewrite <- (str_byt s) at 2. f_equal. unfold unreserved in H. induction H as [|c b Hc _ IH]; [done|].
  cbn. unfold escape_byte at 1. rewrite Hc. cbn. by rewrite IH.
Qed.

Lemma upper_hex_digit n : (n < 16)%N -> shouldEscape (upper_hex n) = false.
Proof.
  intros Hn. assert (Hall : forallb (fun n => negb (shouldEscape (upper_hex (N.of_nat n)))) (seq 0 16) = true) by reflexivity.
  rewrite forallb_forall in Hall. specialize (Hall (N.to_nat n)). rewrite in_seq, N2Nat.id in Hall. specialize (Hall ltac:(lia)). by apply negb_true_iff.
Qed.

(** Escaped text has no other reserved byte than the percent sign. *)
Lemma pathEscape_free s c : shouldEscape c = true -> c <> "%"%char -> c ∉ byt (pathEscape s).
Proof.
  intros Hc Hp. unfold pathEscape. rewrite byt_str. induction (byt s) as [|d b IH]; cbn; [by apply not_elem_of_nil|].
  rewrite elem_of_app. intros [H|H]; [|done]. unfold escape_byte in H. pose proof (N_ascii_bounded d) as Hd. destruct (shouldEscape d) eqn:E.
  - repeat (apply elem_of_cons in H as [->|H]; [try done|]); [..|by apply not_elem_of_nil in H]; rewrite upper_hex_digit in Hc; try done.
    + apply N.Div0.div_lt_upper_bound. lia.
    + by apply N.mod_lt.
  - apply list_elem_of_singleton in H as ->. congruence.
Qed.

Lemma digit_unreserved c : isDigitb c = true -> shouldEscape c = false.
Proof. destruct c as [[] [] [] [] [] [] [] []]; vm_compute; intros; discriminate || congruence. Qed.

Lemma digits_unreserved l : forallb isDigitb l = true -> Forall (fun c => shouldEscape c = false) l.
Proof. intros H. rewrite forallb_forall in H. apply Forall_forall. intros c Hc. apply digit_unreserved, H. by apply list_elem_of_In. Qed.

Lemma FormatInt_unreserved z : unreserved (FormatInt z).
Proof.
  unfold unreserved. pose proof (FormatInt_bytes z) as H. rewrite forallb_forall in H. apply Forall_forall. intros c Hc. apply list_elem_of_In, H in Hc.
  unfold int_byte in Hc. apply orb_prop in Hc as [Hc|Hc]; [by apply digit_unreserved|]. by apply bool_decide_eq_true in Hc as ->.
Qed.

Lemma appendInt_2_digits x : 0 <= x < 100 -> Forall (fun c => shouldEscape c = false) (appendInt x 2).
Proof. intros H. destruct (appendInt_2 x H) as (a & b & -> & Ha & Hb & _). apply digits_unreserved. cbn. by rewrite Ha, Hb. Qed.

Lemma appendInt_4_digits x : 0 <= x < 10000 -> Forall (fun c => shouldEscape c = false) (appendInt x 4).
Proof. intros H. destruct (appendInt_4 x H) as (a & b & c & d & -> & Hd & _). by apply digits_unreserved. Qed.

Lemma dates_unreserved t : 0 <= Year (date_of t) <= 9999 -> unreserved (time_Format layout_date t) /\ unreserved (time_Format layout_compact t).
Proof.
  intros Hy. pose proof (date_roundtrip (day_number t)) as (_ & Hm & Hd). fold (date_of t) in Hm, Hd. pose proof (clock_parts t) as (Hh & Hmi & Hs & _).
  assert (MDay (date_of t) <= 31) by (unfold daysIn in Hd; repeat case_match; lia).
  unfold unreserved, time_Format. rewrite !byt_str. unfold layout_date, layout_compact. cbn [fmap list_fmap concat format_chunk]. rewrite !app_nil_r.
  split; repeat first [apply appendInt_4_digits; lia|apply appendInt_2_digits; lia|apply Forall_app; split|by repeat constructor].
Qed.

Lemma unreserved_free s c : unreserved s -> shouldEscape c = true -> c ∉ byt s.
Proof. intros H Hc Hin. unfold unreserved in H. rewrite Forall_forall in H. apply H in Hin. congruence. Qed.

(** One parameter of a query string, read back. *)
Definition parameter (kv : string * string) : string := kv.1 +:+ "=" +:+ pathEscape kv.2.

Lemma add_setting_parameter q k v : unreserved k -> add_setting q (parameter (k, v)) = <[k := default [] (q !! k) ++ [v]]> q.
Proof.
  intros Hk. unfold add_setting, parameter. cbn [fst snd].
  assert (Hs : ContainsByte (k +:+ "=" +:+ pathEscape v) ";"%char = false).
  { rewrite ContainsByte_elem. apply bool_decide_false. rewrite !byt_app, !elem_of_app. intros [H|[H|H]].
    - by apply (unreserved_free k ";"%char).
    - by apply list_elem_of_singleton in H.
    - by apply (pathEscape_free v ";"%char). }
  rewrite Hs, bool_decide_false; [|by destruct k]. cbn [orb].
  rewrite !byt_app. change (byt "=" ++ byt (pathEscape v)) with ("="%char :: byt (pathEscape v)).
  rewrite bytes_Cut_first by (by apply unreserved_free). rewrite !str_byt. rewrite <- (pathEscape_unreserved k Hk) at 1. by rewrite !escape_roundtrip.
Qed.

Lemma parameter_free kv c : unreserved kv.1 -> shouldEscape c = true -> c <> "%"%char -> c <> "="%char -> c ∉ byt (parameter kv).
Proof.
  intros Hk Hc H1 H2. unfold parameter. rewrite !byt_app, !elem_of_app. intros [H|[H|H]].
  - by apply (unreserved_free kv.1 c).
  - by apply list_elem_of_singleton in H.
  - by apply (pathEscape_free kv.2 c).
Qed.

Lemma ParseQuery_parameters l : l <> [] -> Forall (fun kv => unreserved kv.1) l -> NoDup l.*1 ->
  ParseQuery (Join (parameter <$> l) "&") = list_to_map ((fun kv => (kv.1, [kv.2])) <$> l).
Proof.
  intros Hne Hl Hnd. unfold ParseQuery. change "&" with (String "&"%char ""). rewrite Split_Join.
  - assert (H : forall q : Values, (forall k, k ∈ l.*1 -> q !! k = None) ->
      fold_left add_setting (parameter <$> l) q = list_to_map ((fun kv => (kv.1, [kv.2])) <$> l) ∪ q); [|rewrite H; [apply (right_id_L ∅ (∪))|intros; apply lookup_empty]].
    clear Hne. induction l as [|[k v] l IH]; intros q Hq; cbn; [by rewrite (left_id_L ∅ (∪))|].
    apply Forall_cons in Hl as [Hk Hl]. apply NoDup_cons in Hnd as [Hkl Hnd]. rewrite add_setting_parameter by done. rewrite Hq by (cbn; left). cbn.
    rewrite IH; [|done|done|].
    + match goal with |- ?m ∪ _ = _ => transitivity (<[k := [v]]> (m ∪ q)) end; [symmetry; apply insert_union_r|apply insert_union_l].
      apply not_elem_of_list_to_map_1. intros Hin. apply Hkl. revert Hin. by rewrite <- list_fmap_compose.
    + intros k' Hk'. rewrite lookup_insert_ne; [apply Hq; cbn; by right|]. intros ->. done.
  - by destruct l.
  - apply Forall_fmap, Forall_forall. intros kv Hkv. rewrite Forall_forall in Hl. by apply parameter_free; [apply Hl|..].
Qed.

Section Presigned.
Context `{casing : Casing} `{codec : Codec} `{keyed : Keyed}.

(** The parameters that are signed, and their values. *)
Definition signed_parameters (now : Z) (accessKey : string) (seconds : Z) : list (string * string) :=
  [("X-Amz-Algorithm", "AWS4-HMAC-SHA256"); ("X-Amz-Credential", accessKey +:+ "/" +:+ time_Format layout_date now +:+ "/us-east-1/s3/aws4_request");
   ("X-Amz-Date", time_Format layout_compact now); ("X-Amz-Expires", FormatInt seconds); ("X-Amz-SignedHeaders", "host")].

Lemma presigned_parameters_signed now accessKey expires : 0 <= Year (date_of now) <= 9999 ->
  presigned_parameters now accessKey expires = parameter <$> signed_parameters now accessKey (truncate_float (Seconds expires)).
Proof.
  intros Hy. destruct (dates_unreserved now Hy) as [_ Hd]. unfold presigned_parameters. rewrite sortStrings_sorts. symmetry. apply sort_Strings_unique.
  - unfold signed_parameters, parameter. cbn [fmap list_fmap fst snd]. rewrite (pathEscape_unreserved _ Hd), (pathEscape_unreserved _ (FormatInt_unreserved _)). done.
  - unfold signed_parameters, parameter. cbn [fmap list_fmap fst snd]. repeat constructor.
Qed.

Lemma hex_nonempty b : b <> [] -> hex b <> "".
Proof. destruct b; [done|]. intros _ H. apply (f_equal byt) in H. unfold hex in H. by rewrite byt_str in H. Qed.

Lemma hex_unreserved b : unreserved (hex b).
Proof.
  unfold unreserved, hex. rewrite byt_str. induction b as [|c b IH]; [constructor|]. unfold hex_bytes. cbn.
  assert (H : forall n, (n < 16)%N -> shouldEscape (hex_digit n) = false).
  { intros n Hn. assert (Hall : forallb (fun n => negb (shouldEscape (hex_digit (N.of_nat n)))) (seq 0 16) = true) by reflexivity.
    rewrite forallb_forall in Hall. specialize (Hall (N.to_nat n)). rewrite in_seq, N2Nat.id in Hall. specialize (Hall ltac:(lia)). by apply negb_true_iff. }
  pose proof (N_ascii_bounded c). repeat constructor; [apply H; apply N.Div0.div_lt_upper_bound; lia|apply H; by apply N.mod_lt|exact IH].
Qed.

Lemma sign_nonempty secretKey dateStr region service text : sign secretKey dateStr region service text <> "".
Proof. unfold sign. apply hex_nonempty. intros H. apply (f_equal length) in H. by rewrite hmac_length in H. Qed.

(** The query string of a pre-signed address, as its parameters. *)
Definition all_parameters (now : Z) (ap : AuthProvider) (baseURL method bucket key : string) (expires : Z) : list (string * string) :=
  let '(accessKey, secretKey) := GetAdminCredentials ap in
  let ps := signed_parameters now accessKey (truncate_float (Seconds expires)) in
  ps ++ [("X-Amz-Signature", presigned_signature now secretKey method (presigned_path bucket key) (Join (parameter <$> ps) "&") (host_of baseURL))].

Lemma Join_snoc l x sep : l <> [] -> Join (l ++ [x]) sep = Join l sep +:+ sep +:+ x.
Proof. destruct l as [|y l]; [done|]. intros _. cbn. by rewrite fold_left_app. Qed.

Lemma presigned_query_parameters now ap baseURL method bucket key expires : 0 <= Year (date_of now) <= 9999 ->
  presigned_query now ap baseURL method bucket key expires = Join (parameter <$> all_parameters now ap baseURL method bucket key expires) "&".
Proof.
  intros Hy. unfold presigned_query, all_parameters. destruct (GetAdminCredentials ap) as [accessKey secretKey].
  rewrite presigned_parameters_signed by done. rewrite fmap_app. cbn [fmap list_fmap]. rewrite Join_snoc by done. f_equal.
  unfold parameter. cbn [fst snd]. rewrite (pathEscape_unreserved (presigned_signature _ _ _ _ _ _)); [done|apply hex_unreserved].
Qed.

Lemma presigned_query_parsed now ap baseURL method bucket key expires : 0 <= Year (date_of now) <= 9999 ->
  ParseQuery (presigned_query now ap baseURL method bucket key expires) =
  list_to_map ((fun kv => (kv.1, [kv.2])) <$> all_parameters now ap baseURL method bucket key expires).
Proof.
  intros Hy. rewrite presigned_query_parameters by done. unfold all_parameters. destruct (GetAdminCredentials ap). apply ParseQuery_parameters; [done| |].
  - unfold signed_parameters. cbn [app]. repeat constructor.
  - cbn. repeat (constructor; [by repeat (apply not_elem_of_cons; split; [done|]); apply not_elem_of_nil|]). constructor.
Qed.

(** What the server makes of these parameters is what was signed. *)
Lemma canonical_query_parsed now ap baseURL method bucket key expires q :
  q = list_to_map ((fun kv => (kv.1, [kv.2])) <$> all_parameters now ap baseURL method bucket key expires) ->
  canonical_query ["X-Amz-Signature"] (map_to_list q).*1 q =
  Join (parameter <$> signed_parameters now (GetAdminCredentials ap).1 (truncate_float (Seconds expires))) "&".
Proof.
  intros ->. unfold all_parameters. destruct (GetAdminCredentials ap) as [accessKey secretKey]. cbn [fst].
  set (sig := presigned_signature _ _ _ _ _ _). set (ps := signed_parameters _ _ _).
  rewrite (canonical_query_order _ _ ((ps ++ [("X-Amz-Signature", sig)]).*1)).
  - reflexivity.
  - rewrite map_to_list_to_map.
    + by rewrite <- list_fmap_compose.
    + rewrite <- list_fmap_compose. cbn. repeat (constructor; [by repeat (apply not_elem_of_cons; split; [done|]); apply not_elem_of_nil|]). constructor.
Qed.

Lemma canonical_headers_host r host : Host r = host -> TrimSpace host = host -> canonical_headers r "host" = "host:" +:+ host +:+ String nl "".
Proof.
  intros Hh Ht. unfold canonical_headers. change (Split "host" ";"%char) with ["host"]. cbn [fmap list_fmap String.concat].
  unfold canonical_header. assert (Hl : lower "host" = "host") by (rewrite lower_ascii_text; [done|by repeat constructor]).
  rewrite Hl. rewrite bool_decide_true by done. by rewrite Hh, Ht.
Qed.

Lemma split_credential accessKey now : "/"%char ∉ byt accessKey -> 0 <= Year (date_of now) <= 9999 ->
  Split (accessKey +:+ "/" +:+ time_Format layout_date now +:+ "/us-east-1/s3/aws4_request") "/"%char =
  [accessKey; time_Format layout_date now; "us-east-1"; "s3"; "aws4_request"].
Proof.
  intros Ha Hy. destruct (dates_unreserved now Hy) as [Hd _].
  rewrite <- (Split_Join [accessKey; time_Format layout_date now; "us-east-1"; "s3"; "aws4_request"] "/"%char); [|done|].
  - f_equal. cbn [Join fold_left]. rewrite !str_app_assoc. done.
  - constructor; [done|]. constructor; [by apply unreserved_free|].
    do 3 (apply Forall_cons; split; [by apply (bool_decide_unpack _)|]). constructor.
Qed.

(** A request made from a pre-signed address passes until the address
    expires, and no longer. *)
Lemma presigned_accepted now now' ap baseURL method bucket key expires r :
  let seconds := truncate_float (Seconds expires) in
  0 <= Year (date_of now) <= 9999 -> size (credentials ap) = 1%nat -> 0 <= seconds <= 10 ^ 9 ->
  (GetAdminCredentials ap).1 <> "" -> "/"%char ∉ byt (GetAdminCredentials ap).1 -> TrimSpace (host_of baseURL) = host_of baseURL ->
  Method r = method -> Path r = presigned_path bucket key -> Host r = host_of baseURL ->
  Query r = ParseQuery (presigned_query now ap baseURL method bucket key expires) ->
  verifyQuerySignature now' ap r = (now' <=? Truncate now Second + seconds * Second).
Proof.
  intros seconds Hy Hsize Hsec Hne Hslash Hhost Hm Hp Hh Hq.
  rewrite presigned_query_parsed in Hq by done. pose proof (canonical_query_parsed now ap baseURL method bucket key expires (Query r) Hq) as Hcq.
  assert (Hcred : credentials ap !! (GetAdminCredentials ap).1 = Some (GetAdminCredentials ap).2).
  { unfold GetAdminCredentials. rewrite <- elem_of_map_to_list. rewrite <- length_map_to_list in Hsize. destruct (map_to_list (credentials ap)) as [|[k v] l]; [done|]. cbn. left. }
  unfold all_parameters in Hq. destruct (GetAdminCredentials ap) as [accessKey secretKey] eqn:EG. cbn [fst snd] in *.
  set (ps := signed_parameters now accessKey (truncate_float (Seconds expires))) in *. set (sig := presigned_signature _ _ _ _ _ _) in Hq.
  assert (Hget : values_Get (Query r) "X-Amz-Algorithm" = "AWS4-HMAC-SHA256" /\
    values_Get (Query r) "X-Amz-Credential" = accessKey +:+ "/" +:+ time_Format layout_date now +:+ "/us-east-1/s3/aws4_request" /\
    values_Get (Query r) "X-Amz-Date" = time_Format layout_compact now /\ values_Get (Query r) "X-Amz-Expires" = FormatInt seconds /\
    values_Get (Query r) "X-Amz-SignedHeaders" = "host" /\ values_Get (Query r) "X-Amz-Signature" = sig).
  { rewrite Hq. unfold ps, signed_parameters, values_Get. cbn [app fmap list_fmap list_to_map foldr uncurry fst snd].
    repeat split; repeat (rewrite lookup_insert_ne by done); by rewrite lookup_insert_eq. }
  destruct Hget as (G1 & G2 & G3 & G4 & G5 & G6). unfold verifyQuerySignature. rewrite G1, G2, G3, G4, G5, G6, bool_decide_true by done. cbn [negb].
  rewrite (bool_decide_false (_ +:+ _ = "")) by (by destruct accessKey).
  rewrite (bool_decide_false (sig = "")) by apply sign_nonempty.
  rewrite (bool_decide_false (time_Format layout_compact now = "")) by (intros E; pose proof (compact_roundtrip now Hy) as H; by rewrite E in H).
  cbn [orb]. change (bool_decide ("host" = "")) with false. cbn [orb].
  assert (Hnum : in_int64 seconds) by (unfold in_int64, min_int64, max_int64; lia).
  assert (Hdate : out_of_date now' (FormatInt seconds) (time_Format layout_compact now) = (Truncate now Second + seconds * Second <? now')).
  { unfold out_of_date. rewrite bool_decide_false by (intros E; pose proof (Atoi_FormatInt seconds Hnum) as H; by rewrite E in H).
    rewrite Atoi_FormatInt, compact_roundtrip by done. rewrite wrap64_id; [done|]. unfold in_int64, min_int64, max_int64, Second. lia. }
  rewrite Hdate. destruct (Z.ltb_spec (Truncate now Second + seconds * Second) now') as [H|H]; [symmetry; apply Z.leb_gt; lia|].
  rewrite split_credential by done. rewrite Hcred, Hcq, (canonical_headers_host r (host_of baseURL) Hh Hhost). rewrite (proj2 (Z.leb_le _ _)) by lia.
  apply bool_decide_true. unfold sig, presigned_signature. unfold canonical_uri. rewrite Hp, bool_decide_false by done. rewrite Hm.
  do 6 f_equal. unfold lines. cbn [Join fold_left]. by rewrite !str_app_assoc.
Qed.
End Presigned.

(** ** Who a request comes from *)

Section Identity.
Context `{casing : Casing} `{codec : Codec} `{keyed : Keyed}.

Definition names_credential (part : string) : bool := HasPrefix (TrimSpace part) "Credential=".

(** The parts of an authorization header that name a credential. *)
Definition credential_parts (r : Request) : list string := List.filter names_credential (Split (skip 17 (Get r "Authorization")) ","%char).

(** The request shows a password, a token, or a signature of that user. *)
Definition proves (now : Z) (ap : AuthProvider) (r : Request) (user : string) : Prop :=
  (exists password, BasicAuth r = Some (user, password) /\ credentials ap !! user = Some password) \/
  (exists token claims, (TrimPrefix (Get r "Authorization") "Bearer " = token \/ Cookie r "token" = Some token) /\
     ValidateToken now token (jwtSecret ap) = inr claims /\ Username claims = user) \/
  (exists secret, credentials ap !! user = Some secret /\
     (verifyHeaderSignature ap r (Get r "Authorization") = true \/ verifyQuerySignature now ap r = true)).

Lemma add_part_other p part : names_credential part = false -> credentialPart (add_part p part) = credentialPart p.
Proof. unfold names_credential, add_part. intros ->. by repeat case_match. Qed.

Lemma fold_parts_none l p : List.filter names_credential l = [] -> credentialPart (fold_left add_part l p) = credentialPart p.
Proof.
  revert p. induction l as [|x l IH]; intros p; cbn; [done|]. destruct (names_credential x) eqn:E; [done|]. intros H. rewrite IH by done. by apply add_part_other.
Qed.

Lemma fold_parts_one l p : (length (List.filter names_credential l) <= 1)%nat ->
  match List.find names_credential l with
  | Some part => credentialPart (fold_left add_part l p) = skip 11 (TrimSpace part)
  | None => credentialPart (fold_left add_part l p) = credentialPart p
  end.
Proof.
  revert p. induction l as [|x l IH]; intros p; cbn; [done|]. destruct (names_credential x) eqn:E; cbn; intros H.
  - rewrite fold_parts_none; [|destruct (List.filter names_credential l); [done|cbn in H; lia]]. unfold add_part, names_credential in *. by rewrite E.
  - specialize (IH (add_part p x) H). destruct (List.find names_credential l); [done|]. rewrite IH. by apply add_part_other.
Qed.

Lemma header_signer ap r auth : verifyHeaderSignature ap r auth = true ->
  (length (List.filter names_credential (Split (skip 17 auth) ","%char)) <= 1)%nat ->
  HasPrefix auth "AWS4-HMAC-SHA256 " = true /\
  exists part user secret, List.find names_credential (Split (skip 17 auth) ","%char) = Some part /\
    head (Split (skip 11 (TrimSpace part)) "/"%char) = Some user /\ credentials ap !! user = Some secret.
Proof.
  unfold verifyHeaderSignature. intros H Hone. destruct (HasPrefix auth "AWS4-HMAC-SHA256 "); [|done]. cbn [negb] in H. split; [done|].
  pose proof (fold_parts_one (Split (skip 17 auth) ","%char) (mkParts "" "" "") Hone) as Hf.
  destruct (List.find names_credential (Split (skip 17 auth) ","%char)) as [part|].
  - rewrite Hf in H. destruct (_ || _ || _); [done|]. destruct (Split (skip 11 (TrimSpace part)) "/"%char) as [|user [|? [|? [|? [|? ?]]]]] eqn:ES; try done.
    destruct (credentials ap !! user) as [secret|] eqn:EC; [|done]. exists part, user, secret. repeat split; [by rewrite ES|done].
  - rewrite Hf in H. by rewrite bool_decide_true in H.
Qed.

Lemma query_signer now ap r : verifyQuerySignature now ap r = true ->
  exists user secret, values_Get (Query r) "X-Amz-Credential" <> "" /\ head (Split (values_Get (Query r) "X-Amz-Credential") "/"%char) = Some user /\
    credentials ap !! user = Some secret.
Proof.
  unfold verifyQuerySignature. intros H. destruct (negb _); [done|]. destruct (_ || _ || _ || _) eqn:E; [done|].
  apply orb_false_iff in E as [E _]. apply orb_false_iff in E as [E _]. apply orb_false_iff in E as [E _]. apply bool_decide_eq_false in E.
  destruct (out_of_date _ _ _); [done|]. destruct (Split _ "/"%char) as [|user [|? [|? [|? [|? ?]]]]] eqn:ES; try done.
  destruct (credentials ap !! user) as [secret|] eqn:EC; [|done]. by exists user, secret.
Qed.

(** The name that policies are applied to is one the request has shown to be
    its own, if its header names one credential. *)
Lemma identity_proved now ap r : enabled ap = true -> (length (credential_parts r) <= 1)%nat -> VerifyRequest now ap r = true ->
  proves now ap r (GetIdentity now ap r).
Proof.
  unfold credential_parts, VerifyRequest, GetIdentity, proves. intros -> Hone. cbn [negb]. set (auth := Get r "Authorization") in *.
  destruct (if HasPrefix auth "Basic " then BasicAuth r else None) as [[user password]|] eqn:EB.
  { destruct (HasPrefix auth "Basic "); [|done]. rewrite EB. cbn. intros H%bool_decide_eq_true. left. eauto. }
  assert (EB' : (if HasPrefix auth "Basic " then fst <$> BasicAuth r else None) = None) by (destruct (HasPrefix auth "Basic "); [by rewrite EB|done]).
  rewrite EB'. destruct (HasPrefix auth "Bearer ") eqn:EP.
  { destruct (ValidateToken now (TrimPrefix auth "Bearer ") (jwtSecret ap)) as [e|claims] eqn:EV; [done|]. intros _. right; left. by exists (TrimPrefix auth "Bearer "), claims; split; [left|]. }
  destruct (Cookie r "token" ≫= fun t => match ValidateToken now t (jwtSecret ap) with inr c => Some (Username c) | inl _ => None end) as [user|] eqn:EC.
  { intros _. right; left. destruct (Cookie r "token") as [token|] eqn:ET; [|done]. cbn in EC. destruct (ValidateToken now token (jwtSecret ap)) as [e|claims] eqn:EV; [done|]. simplify_eq. by exists token, claims; split; [right|]. }
  destruct (match Cookie r "token" with Some t => match ValidateToken now t (jwtSecret ap) with inr _ => true | inl _ => false end | None => false end) eqn:EC'.
  { destruct (Cookie r "token") as [token|]; [|done]. cbn in EC. by destruct (ValidateToken now token (jwtSecret ap)). }
  intros H. right; right. destruct (bool_decide (auth = "")) eqn:EA.
  - apply bool_decide_eq_true in EA. rewrite EA. destruct (bool_decide (_ = "")); [done|]. destruct (query_signer now ap r H) as (user & secret & Hne & Hu & Hs).
    cbn. rewrite bool_decide_false by done. rewrite Hu. eauto.
  - destruct (header_signer ap r auth H Hone) as (-> & part & user & secret & Hf & Hu & Hs). unfold names_credential in Hf. rewrite Hf, Hu. eauto.
Qed.
End Identity.
