(* ===== verification/VaultS3.v ===== *)
(** * The S3 interface of the object store ([vault/pkg/s3/api.go], [batch.go],
    [xml.go], [federation_oss.go], [cluster/raft_node.go])

    One node: a request is authenticated, authorized, limited, routed to the
    node that owns its object, and handled on the local store of [Vault].
    Bodies of replies are the documents of [xml.go] before they are written
    out, without what is constant in them (owner, name space).  What a request
    sends elsewhere (replicas, notifications, access log, replication to other
    regions) is appended to [sent].  Membership of the cluster and consensus
    are given by what their managers answer; a command
    that consensus commits is applied to the local store by [FSM_Apply].  The
    class [Outside] has the decoders of bodies, the texts of errors, the vector
    index, the sandbox for WebAssembly and the language model.  The open-source
    build has no federation and no cold tier.  A request for the pipeline or
    the select engine has no answer here. *)

From S2P Require Import Prelude GoSort GoStrings GoNumbers GoTime GoFloat GoPath HashRing GatewayParts Vault VaultObjects VaultBulk VaultAuth.
Local Open Scope string_scope.
Local Open Scope Z_scope.
Local Open Scope list_scope.

(** ** Data *)

Record ConsoleSession := mkSession { SessionID : string; s_Username : string; CreatedAt : Z; s_ExpiresAt : Z }.

(** The status is that of this node, unless another one answers; the trace
    identifier is an argument of [put_log], the source address is left out. *)
Record AccessLogEntry := mkLog {
  l_Timestamp : Z; Requester : string; l_Bucket : string; l_Key : string; l_Operation : string; l_Status : option Z }.

Record BatchJob := mkJob {
  JobID : string; JobStatus : string; JobOperation : string; JobBucket : string; Objects : list string; Params : gmap string string;
  TotalObjects : Z; ProcessedCount : Z; FailedCount : Z; JobError : string; JobCreatedAt : Z; CompletedAt : option Z }.

Record BatchRequest := mkBatchRequest { q_Operation : string; q_Bucket : string; q_Objects : list string; q_Params : gmap string string }.

(** What the cluster manager answers ([cluster/membership.go]). *)
Record Cluster := mkCluster { Ring : option HashRing; LocalNodeID : string; online : gset string; addresses : gmap string string }.

(** [None]: the command was committed. *)
Record Raft := mkRaft { IsLeader : bool; LeaderAddr : string; Committed : option string }.

Inductive MetadataCommand :=
| CmdCreateBucket (bucket : string) | CmdDeleteBucket (bucket : string) | CmdSetVersioning (bucket status : string)
| CmdSetLifecycle (bucket : string) (rules : list LifecycleRule) | CmdDeleteLifecycle (bucket : string)
| CmdPutPolicy (user : string) (policy : bytes) | CmdDeletePolicy (user : string) | CmdSetBucketQuota (bucket : string) (quota : Z)
| CmdSetBucketTriggers (bucket : string) (triggers : list WASMTrigger)
| CmdSetBucketNotifications (bucket : string) (rules : list EventNotificationRule)
| CmdSetBucketGeoPlacement (bucket : string) (cfg : GeoPlacementConfig).

(** Errors of the store, of consensus, of the sandbox, and of a stage of a
    transformation. *)
Inductive S3Err := Stored (e : Err) | NoLeader | NotLeader (leader : string) | CommitFailed (text : string) | SandboxFailed (text : string)
| Wrapped (stage : string) (e : Err).

Inductive Effect_ :=
| ReplicateObject (addr bucket key versionID : string)
| ReplicateDelete (addr bucket key versionID : string)
| EnqueueCRR (bucket key versionID : string) (delete : bool)
| NotifyEvent (event bucket key : string) (size : Z) (etag : string)
| DeleteShard (addr bucket key versionID : string) (i : nat)
| LogAccess (entry : AccessLogEntry)
| PutLog (entry : AccessLogEntry)
| RunJob (jobID : string).

(** The documents of replies ([xml.go]). *)
Record ObjectResult := mkObjectResult { o_Key : string; o_LastModified : string; o_ETag : string; o_Size : Z; o_StorageClass : string }.

Record ListBucketResult := mkListBucket {
  lb_Name : string; lb_Prefix : string; lb_Marker : string; lb_MaxKeys : Z; lb_Delimiter : string; lb_IsTruncated : bool;
  Contents : list ObjectResult; CommonPrefixes : list string }.

Record VersionResult := mkVersionResult { v_Object : ObjectResult; v_VersionId : string; v_IsLatest : bool }.

Record DeleteMarkerResult := mkMarkerResult { m_Key : string; m_VersionId : string; m_IsLatest : bool; m_LastModified : string }.

Record ListVersionsResult := mkListVersions {
  lv_Name : string; lv_Prefix : string; lv_KeyMarker : string; lv_VersionIdMarker : string; lv_MaxKeys : Z; lv_Delimiter : string; lv_IsTruncated : bool;
  lv_Version : list VersionResult; lv_DeleteMarker : list DeleteMarkerResult; lv_CommonPrefixes : list string }.

Record LifecycleXml := mkLifecycleXml { x_ID : string; x_Status : string; x_Prefix : string; x_Days : Z }.

Record DeletedResult := mkDeleted { d_Key : string; d_VersionId : string; DeleteMarker : bool; DeleteMarkerVersionId : string }.
Record DeleteErrorResult := mkDeleteError { de_Key : string; de_VersionId : string; de_Code : string; de_Message : string }.
Record DeleteRequest := mkDeleteRequest { Quiet : bool; del_Objects : list (string * string) }.

Inductive Document :=
| NoDocument
| Content (b : bytes)
| XmlError (code message requestID : string)
| JsonError (message code traceID : string)
| XBuckets (l : list (string * string))
| XListing (l : ListBucketResult)
| XVersions (l : ListVersionsResult)
| XVersioning (status : string)
| XLifecycle (rules : list LifecycleXml)
| XUpload (bucket key uploadID : string)
| XCompleted (location bucket key etag : string)
| XCopied (lastModified etag : string)
| XDeleted (deleted : list DeletedResult) (errors : list DeleteErrorResult)
| XTagging (tags : list (string * string))
| JQuota (quota : Z)
| JTriggers (t : list WASMTrigger)
| JNotifications (r : list EventNotificationRule)
| JGeo (cfg : GeoPlacementConfig)
| JSession (s : ConsoleSession)
| JSubmitted (jobID status : string)
| JJob (job : BatchJob)
| JAnswer (bucket question answer : string)
| JFixedAnswer (bucket question : string)
| JRows (bucket sql : string) (rows : list (string * Z * string * string * string)) (count : Z).

Record Response := mkResponse { Status : Z; Fields : list (string * string); Doc : Document }.

(** A reply, or the address of the node that replies instead. *)
Inductive Answer := Reply (r : Response) | ProxyTo (addr : string).

(** The bodies of requests that are XML or JSON, the index of vectors, the
    sandbox, and the language model. *)
Class Outside := {
  decode_versioning : bytes -> option string;
  decode_lifecycle : bytes -> option (list LifecycleXml);
  decode_parts : bytes -> option (list (Z * string));
  decode_tagging : bytes -> option (list (string * string));
  decode_delete : bytes -> option DeleteRequest;
  decode_geo : bytes -> option GeoPlacementConfig;
  decode_triggers : bytes -> option (list WASMTrigger);
  decode_notifications : bytes -> option (list EventNotificationRule);
  decode_credentials : bytes -> option (string * string);
  decode_batch : bytes -> option BatchRequest;
  decode_tags : string -> option (gmap string string);
  decode_cold_tier : option bytes -> string + unit;
  decode_policy : bytes -> option Policy;
  encode_log : AccessLogEntry -> bytes;
  Error : S3Err -> string;
  read_error : string;
  Search : LocalStore -> string -> string -> Z -> list string;
  Execute : bytes -> bytes -> Z -> Z -> string + bytes;
  completeLLM : string -> string + string }.

(** Those that are there. *)
Definition present {A} (l : list (option A)) : list A := omap (fun o : option A => o) l.

(** Reed-Solomon codes ([klauspost/reedsolomon]): [Split] and [Encode] of data
    into shards, [Reconstruct] and [Join] of the shards that are left.  Any
    [k] of the shards are enough. *)
Class ReedSolomon := {
  rs_encode : Z -> Z -> bytes -> string + list bytes;
  rs_join : Z -> Z -> list (option bytes) -> Z -> string + bytes;
  rs_encode_length : forall k m data shards, rs_encode k m data = inr shards -> Z.of_nat (length shards) = k + m;
  rs_recover : forall k m data shards pieces, rs_encode k m data = inr shards -> length pieces = length shards ->
    (forall i p, pieces !! i = Some (Some p) -> shards !! i = Some p) -> k <= Z.of_nat (length (present pieces)) ->
    rs_join k m pieces (Z.of_nat (length data)) = inr data }.

Record Gateway := mkGateway {
  store : LocalStore; auth : AuthProvider; raftNode : option Raft; cluster : option Cluster; replicationFactor : Z;
  erasureEnabled : bool; dataShards : Z; parityShards : Z; crrMgr : bool; rateLimiter : option Limiter;
  consoleSessionMap : gmap string ConsoleSession; jobs : gmap string BatchJob; mock : bool; sent : list Effect_ }.

Definition with_store (s : LocalStore) (g : Gateway) : Gateway :=
  mkGateway s (auth g) (raftNode g) (cluster g) (replicationFactor g) (erasureEnabled g) (dataShards g) (parityShards g) (crrMgr g) (rateLimiter g)
    (consoleSessionMap g) (jobs g) (mock g) (sent g).
Definition with_limiter (l : Limiter) (g : Gateway) : Gateway :=
  mkGateway (store g) (auth g) (raftNode g) (cluster g) (replicationFactor g) (erasureEnabled g) (dataShards g) (parityShards g) (crrMgr g) (Some l)
    (consoleSessionMap g) (jobs g) (mock g) (sent g).
Definition with_sessions (m : gmap string ConsoleSession) (g : Gateway) : Gateway :=
  mkGateway (store g) (auth g) (raftNode g) (cluster g) (replicationFactor g) (erasureEnabled g) (dataShards g) (parityShards g) (crrMgr g) (rateLimiter g)
    m (jobs g) (mock g) (sent g).
Definition with_jobs (m : gmap string BatchJob) (g : Gateway) : Gateway :=
  mkGateway (store g) (auth g) (raftNode g) (cluster g) (replicationFactor g) (erasureEnabled g) (dataShards g) (parityShards g) (crrMgr g) (rateLimiter g)
    (consoleSessionMap g) m (mock g) (sent g).
Definition send (es : list Effect_) (g : Gateway) : Gateway :=
  mkGateway (store g) (auth g) (raftNode g) (cluster g) (replicationFactor g) (erasureEnabled g) (dataShards g) (parityShards g) (crrMgr g) (rateLimiter g)
    (consoleSessionMap g) (jobs g) (mock g) (sent g ++ es).

Definition NewGateway (s : LocalStore) (ap : AuthProvider) (raft : option Raft) (cl : option Cluster) (replicationFactor : Z) (erasureEnabled : bool)
    (dataShards parityShards : Z) : Gateway :=
  mkGateway s ap raft cl (if replicationFactor <=? 0 then 2 else replicationFactor) erasureEnabled (if dataShards <=? 0 then 2 else dataShards)
    (if parityShards <=? 0 then 1 else parityShards) false None ∅ ∅ false [].

(** The values that a request puts into the context of a call of the store. *)
Definition with_version (v : string) (c : Call) : Call := mkCall (instant c) (random c) (is_restore c) (Some v) (ctx_timeTravel c) (NumCPU c).
Definition with_travel (t : Z) (c : Call) : Call := mkCall (instant c) (random c) (is_restore c) (ctx_versionID c) (Some t) (NumCPU c).

(** ** Replies *)

Definition parsePath (path : string) : string * string :=
  let path := TrimPrefix path "/" in
  match bytes_Cut (byt path) [slash] with Some (b, k) => (str b, str k) | None => (path, "") end.

Definition quoted (etag : string) : string := String quote etag +:+ String quote "".

Definition status_only (status : Z) : Response := mkResponse status [] NoDocument.
Definition writeXML (status : Z) (d : Document) : Response := mkResponse status [("Content-Type", "application/xml")] d.
Definition writeError (status : Z) (code message : string) : Response := writeXML status (XmlError code message "").
Definition json (status : Z) (d : Document) : Response := mkResponse status [("Content-Type", "application/json")] d.

Definition ExtractTraceparent (tp : string) : string * string :=
  match Split tp "-"%char with _ :: t :: p :: _ :: _ => (t, p) | _ => ("", "") end.

Definition writeErrorCtx (r : Request) (status : Z) (code message : string) : Response :=
  let traceID := (ExtractTraceparent (Get r "traceparent")).1 in
  if Contains (Get r "Accept") "application/json" || HasPrefix (Path r) "/console/" then json status (JsonError message code traceID)
  else writeXML status (XmlError code message traceID).

Definition no_such_bucket : Response := writeError 404 "NoSuchBucket" "The specified bucket does not exist.".
Definition no_such_key : Response := writeError 404 "NoSuchKey" "The specified key does not exist.".

(** A version identifier is shown unless it is "null". *)
Definition version_field (versionID : string) : list (string * string) :=
  if bool_decide (versionID = "") || bool_decide (versionID = "null") then [] else [("x-amz-version-id", versionID)].

Definition time_text (t : Z) : string := time_Format RFC3339 t.

(** ** Consensus *)

Section S3.
Context `{casing : Casing} `{codec : Codec} `{keyed : Keyed} `{outside : Outside} `{rs : ReedSolomon}.

Definition internal_error (e : S3Err) : Response := writeError 500 "InternalError" (Error e).

(** The two replies of the handlers that only know a missing bucket. *)
Definition bucket_error (e : S3Err) : Response := match e with Stored ErrBucketNotFound => no_such_bucket | _ => internal_error e end.

Definition FSM_Apply (c : Call) (cmd : MetadataCommand) (s : LocalStore) : option Err * LocalStore :=
  match cmd with
  | CmdCreateBucket b => CreateBucket c b s
  | CmdDeleteBucket b => DeleteBucket c b s
  | CmdSetVersioning b status => SetBucketVersioning b status s
  | CmdSetLifecycle b rules => SetBucketLifecycle b rules s
  | CmdDeleteLifecycle b => DeleteBucketLifecycle b s
  | CmdPutPolicy u p => (None, PutUserPolicy u p s)
  | CmdDeletePolicy u => (None, DeleteUserPolicy u s)
  | CmdSetBucketQuota b q => SetBucketQuota b q s
  | CmdSetBucketTriggers b t => SetBucketTriggers b t s
  | CmdSetBucketNotifications b l => SetBucketNotifications b l s
  | CmdSetBucketGeoPlacement b cfg => SetBucketGeoPlacement b (Some cfg) s
  end.

Definition Propose (rn : Raft) (c : Call) (cmd : MetadataCommand) (s : LocalStore) : option S3Err * LocalStore :=
  match Committed rn with
  | Some text => (Some (CommitFailed text), s)
  | None => let '(e, s) := FSM_Apply c cmd s in (Stored <$> e, s)
  end.

Definition proposeOrExecute (c : Call) (cmd : MetadataCommand) (fallback : LocalStore -> option Err * LocalStore) (g : Gateway) : option S3Err * Gateway :=
  match raftNode g with
  | None => let '(e, s) := fallback (store g) in (Stored <$> e, with_store s g)
  | Some rn =>
      if negb (IsLeader rn) then (Some (if bool_decide (LeaderAddr rn = "") then NoLeader else NotLeader (LeaderAddr rn)), g)
      else let '(e, s) := Propose rn c cmd (store g) in (e, with_store s g)
  end.

(** ** Buckets *)

Definition handleListBuckets (g : Gateway) : Response :=
  writeXML 200 (XBuckets ((fun b => (Name b, time_text (CreatedTime b))) <$> ListBuckets (store g))).

(** The name of this header has a space and is looked up as it is. *)
Definition content_addressable (r : Request) : bool :=
  match Header r !! "x-Pranor Vault-content-addressable" with Some (v :: _) => bool_decide (lower v = "true") | _ => false end.

Definition handleCreateBucket (c : Call) (r : Request) (bucket : string) (g : Gateway) : Response * Gateway :=
  let '(err, g) := proposeOrExecute c (CmdCreateBucket bucket) (CreateBucket c bucket) g in
  match err with
  | Some (Stored ErrBucketExists) => (writeError 409 "BucketAlreadyExists" "The requested bucket name is not available.", g)
  | Some e => (internal_error e, g)
  | None =>
      let g := if content_addressable r
               then with_store (SetBucketContentAddressable bucket true (store g)).2 g else g in
      (mkResponse 200 [("Location", "/" +:+ bucket)] NoDocument, g)
  end.

Definition handleDeleteBucket (c : Call) (bucket : string) (g : Gateway) : Response * Gateway :=
  let '(err, g) := proposeOrExecute c (CmdDeleteBucket bucket) (DeleteBucket c bucket) g in
  match err with
  | Some (Stored ErrBucketNotFound) => (no_such_bucket, g)
  | Some (Stored BucketNotEmpty) => (writeError 409 "BucketNotEmpty" "The bucket you tried to delete is not empty.", g)
  | Some e => (internal_error e, g)
  | None => (status_only 204, g)
  end.

Definition handleHeadBucket (bucket : string) (g : Gateway) : Response :=
  match GetBucket bucket (store g) with
  | inl ErrBucketNotFound => status_only 404
  | inl _ => status_only 500
  | inr _ => status_only 200
  end.

Definition handleGetBucketVersioning (bucket : string) (g : Gateway) : Response :=
  match GetBucket bucket (store g) with
  | inl e => bucket_error (Stored e)
  | inr b => writeXML 200 (XVersioning (if bool_decide (Versioning b ∈ ["Enabled"; "Suspended"]) then Versioning b else ""))
  end.

(** The end of the handlers that change one field of a bucket. *)
Definition changed (status : Z) (result : option S3Err * Gateway) : Response * Gateway :=
  let '(err, g) := result in (match err with Some e => bucket_error e | None => status_only status end, g).

Definition handlePutBucketVersioning (c : Call) (r : Request) (bucket : string) (g : Gateway) : Response * Gateway :=
  match Body r ≫= decode_versioning with
  | None => (writeError 400 "MalformedXML" "The XML body is malformed.", g)
  | Some status =>
      if negb (bool_decide (status ∈ ["Enabled"; "Suspended"; "Disabled"]))
      then (writeError 400 "InvalidArgument" "Versioning status must be Enabled or Suspended.", g)
      else changed 200 (proposeOrExecute c (CmdSetVersioning bucket status) (SetBucketVersioning bucket status) g)
  end.

Definition handlePutBucketQuota (c : Call) (r : Request) (bucket : string) (g : Gateway) : Response * Gateway :=
  match Atoi (values_Get (Query r) "quota") with
  | Some quota =>
      if quota <? 0 then (writeError 400 "InvalidQuota" "Quota parameter must be a non-negative integer.", g)
      else changed 200 (proposeOrExecute c (CmdSetBucketQuota bucket quota) (SetBucketQuota bucket quota) g)
  | None => (writeError 400 "InvalidQuota" "Quota parameter must be a non-negative integer.", g)
  end.

Definition handleGetBucketQuota (bucket : string) (g : Gateway) : Response :=
  match GetBucketQuota bucket (store g) with inl e => bucket_error (Stored e) | inr quota => json 200 (JQuota quota) end.

Definition handlePutBucketGeoPlacement (c : Call) (r : Request) (bucket : string) (g : Gateway) : Response * Gateway :=
  match Body r ≫= decode_geo with
  | None => (writeError 400 "InvalidJSON" "Failed to decode geo config JSON.", g)
  | Some cfg => changed 200 (proposeOrExecute c (CmdSetBucketGeoPlacement bucket cfg) (SetBucketGeoPlacement bucket (Some cfg)) g)
  end.

Definition handleGetBucketGeoPlacement (bucket : string) (g : Gateway) : Response :=
  match GetBucketGeoPlacement bucket (store g) with
  | inl e => bucket_error (Stored e)
  | inr None => writeError 404 "NoGeoPlacement" "No placement policy defined."
  | inr (Some cfg) => json 200 (JGeo cfg)
  end.

(** Limits that are not positive are replaced. *)
Definition complete_trigger (t : WASMTrigger) : WASMTrigger :=
  mkTrigger (Event t) (WASMKey t) (t_Prefix t) (Suffix t) (if MemoryLimit t <=? 0 then 64 else MemoryLimit t) (if Timeout t <=? 0 then 30 else Timeout t).

Definition handlePutBucketTriggers (c : Call) (r : Request) (bucket : string) (g : Gateway) : Response * Gateway :=
  match Body r ≫= decode_triggers with
  | None => (writeError 400 "InvalidJSON" "Failed to decode triggers JSON body.", g)
  | Some triggers =>
      if existsb (fun t => bool_decide (Event t = "") || bool_decide (WASMKey t = "")) triggers
      then (writeError 400 "InvalidTrigger" "Trigger must specify 'event' and 'wasm_key'.", g)
      else
        let triggers := complete_trigger <$> triggers in
        changed 200 (proposeOrExecute c (CmdSetBucketTriggers bucket triggers) (SetBucketTriggers bucket triggers) g)
  end.

Definition handleGetBucketTriggers (bucket : string) (g : Gateway) : Response :=
  match GetBucketTriggers bucket (store g) with inl e => bucket_error (Stored e) | inr t => json 200 (JTriggers t) end.

Definition handlePutBucketNotifications (c : Call) (r : Request) (bucket : string) (g : Gateway) : Response * Gateway :=
  match Body r ≫= decode_notifications with
  | None => (writeError 400 "InvalidJSON" "Failed to decode notifications JSON body.", g)
  | Some rules =>
      if existsb (fun l => bool_decide (n_ID l = "") || bool_decide (Events l = []) || bool_decide (WebhookURL l = "")) rules
      then (writeError 400 "InvalidRule" "Rule must specify 'id', 'events' and 'webhook_url'.", g)
      else changed 200 (proposeOrExecute c (CmdSetBucketNotifications bucket rules) (SetBucketNotifications bucket rules) g)
  end.

Definition handleGetBucketNotifications (bucket : string) (g : Gateway) : Response :=
  match GetBucketNotifications bucket (store g) with inl e => bucket_error (Stored e) | inr l => json 200 (JNotifications l) end.

Definition handleGetBucketLifecycle (bucket : string) (g : Gateway) : Response :=
  match GetBucketLifecycle bucket (store g) with
  | inl e => bucket_error (Stored e)
  | inr [] => writeError 404 "NoSuchLifecycleConfiguration" "The lifecycle configuration does not exist."
  | inr rules =>
      writeXML 200 (XLifecycle ((fun l => mkLifecycleXml (r_ID l) (if Enabled l then "Enabled" else "Disabled") (Prefix l) (ExpirationDays l)) <$> rules))
  end.

Definition handlePutBucketLifecycle (c : Call) (r : Request) (bucket : string) (g : Gateway) : Response * Gateway :=
  match Body r ≫= decode_lifecycle with
  | None => (writeError 400 "MalformedXML" "The XML body is malformed.", g)
  | Some cfg =>
      if existsb (fun l => x_Days l <=? 0) cfg then (writeError 400 "InvalidArgument" "Expiration Days must be a positive integer.", g)
      else
        let rules := (fun l => mkRule (x_ID l) (bool_decide (x_Status l = "Enabled")) (x_Prefix l) (x_Days l)) <$> cfg in
        changed 200 (proposeOrExecute c (CmdSetLifecycle bucket rules) (SetBucketLifecycle bucket rules) g)
  end.

Definition handleDeleteBucketLifecycle (c : Call) (bucket : string) (g : Gateway) : Response * Gateway :=
  changed 204 (proposeOrExecute c (CmdDeleteLifecycle bucket) (DeleteBucketLifecycle bucket) g).

(** *** Cold storage, which the open-source build does not have *)

Definition handlePutBucketColdTier (r : Request) (bucket : string) (g : Gateway) : Response :=
  match GetBucket bucket (store g) with
  | inl e => bucket_error (Stored e)
  | inr _ => match decode_cold_tier (Body r) with
             | inl e => writeError 400 "MalformedBody" ("Invalid cold-tier config JSON: " +:+ e)
             | inr _ => status_only 204
             end
  end.

Definition handleGetBucketColdTier (bucket : string) (g : Gateway) : Response :=
  match GetBucket bucket (store g) with
  | inl e => bucket_error (Stored e)
  | inr _ => writeError 404 "NoColdTierConfig" "Cold-tier is not configured on this store."
  end.

Definition handleRunColdSweep (bucket : string) (g : Gateway) : Response :=
  match GetBucket bucket (store g) with
  | inl e => bucket_error (Stored e)
  | inr _ => writeError 501 "NotImplemented" "Cold-tier sweep not available on this storage backend."
  end.

(** *** Listings *)

(** [key:value] or [key=value]. *)
Definition tag_filter (param : string) (objects : list ObjectVersion) : list ObjectVersion :=
  match (match SplitN2 param ":" with [k; v] => Some (k, v) | _ => match SplitN2 param "=" with [k; v] => Some (k, v) | _ => None end end) with
  | Some (k, v) => List.filter (fun obj => negb (bool_decide (Tags obj = ∅)) && bool_decide (default "" (Tags obj !! k) = v)) objects
  | None => objects
  end.

Definition parse_date (value : string) : option Z :=
  match time_Parse RFC3339 value with
  | Some t => Some t
  | None => match time_Parse layout_day value with Some t => Some t | None => time_Parse layout_utc value end
  end.

Definition date_filter (value : string) (keep : Z -> Z -> bool) (objects : list ObjectVersion) : list ObjectVersion :=
  if bool_decide (value = "") then objects else
  match parse_date value with Some t => List.filter (fun obj => keep (LastModified obj) t) objects | None => objects end.

Definition SemanticSearch (bucket query : string) (limit : Z) (s : LocalStore) : Err + list ObjectVersion :=
  match readBucketMeta s bucket with
  | inl e => inl e
  | inr _ =>
      inr (omap (fun key => match readObjectMeta s bucket key with
                            | inl _ => None
                            | inr om => match latest_of (Versions om) with Some v => if IsDeleteMarker v then None else Some v | None => None end
                            end) (Search s bucket query limit))
  end.

Definition number_or (d : Z) (text : string) : Z := default d (Atoi text).

Definition object_result (obj : ObjectVersion) : ObjectResult :=
  mkObjectResult (Key obj) (time_text (LastModified obj)) (quoted (ETag obj)) (Size obj) "STANDARD".

(** The objects that a listing shows, before the filter on tags. *)
Definition listed_objects (q : Values) (bucket : string) (maxKeys : Z) (s : LocalStore) : Err + (list ObjectVersion * list string) :=
  if bool_decide (values_Get q "query" = "semantic") && negb (bool_decide (values_Get q "q" = "")) then
    match SemanticSearch bucket (values_Get q "q") (number_or maxKeys (values_Get q "max-results")) s with
    | inl e => inl e
    | inr objects =>
        let objects := if bool_decide (values_Get q "filter" = "") then objects else tag_filter (values_Get q "filter") objects in
        let objects := date_filter (values_Get q "after") (fun m t => t <? m) objects in
        inr (date_filter (values_Get q "before") (fun m t => m <? t) objects, [])
    end
  else ListObjects bucket (values_Get q "prefix") (values_Get q "delimiter") (values_Get q "marker") maxKeys s.

Definition handleListObjects (r : Request) (bucket : string) (g : Gateway) : Response :=
  let q := Query r in
  if negb (bool_decide (values_Get q "ask" = "")) then
    json 200 (JFixedAnswer bucket (values_Get q "ask"))
  else
  let maxKeys := number_or 1000 (values_Get q "max-keys") in
  match listed_objects q bucket maxKeys (store g) with
  | inl e => bucket_error (Stored e)
  | inr (objects, commonPrefixes) =>
      let objects := if bool_decide (values_Get q "tag-filter" = "") then objects else tag_filter (values_Get q "tag-filter") objects in
      writeXML 200 (XListing (mkListBucket bucket (values_Get q "prefix") (values_Get q "marker") maxKeys (values_Get q "delimiter") false
                                (object_result <$> objects) commonPrefixes))
  end.

Definition handleListObjectVersions (r : Request) (bucket : string) (g : Gateway) : Response :=
  let q := Query r in
  let maxKeys := number_or 1000 (values_Get q "max-keys") in
  match ListObjectVersions bucket (values_Get q "prefix") (values_Get q "delimiter") (values_Get q "key-marker") (values_Get q "version-id-marker") maxKeys (store g) with
  | inl e => bucket_error (Stored e)
  | inr (versions, commonPrefixes) =>
      let markers := List.filter IsDeleteMarker versions in
      let others := List.filter (fun v => negb (IsDeleteMarker v)) versions in
      writeXML 200 (XVersions (mkListVersions bucket (values_Get q "prefix") (values_Get q "key-marker") (values_Get q "version-id-marker") maxKeys
        (values_Get q "delimiter") false
        ((fun v => mkVersionResult (object_result v) (VersionID v) (IsLatest v)) <$> others)
        ((fun v => mkMarkerResult (Key v) (VersionID v) (IsLatest v) (time_text (LastModified v))) <$> markers) commonPrefixes))
  end.

Definition handleSQLMetadataQuery (r : Request) (bucket : string) (g : Gateway) : Response :=
  let sql := values_Get (Query r) "sql" in
  if bool_decide (sql = "") then writeError 400 "InvalidArgument" "SQL query required in ?sql= query parameter" else
  match ListObjects bucket "" "" "" 1000 (store g) with
  | inl e => internal_error (Stored e)
  | inr (objects, _) =>
      let rows := (fun o => (Key o, Size o, time_text (LastModified o), ETag o, ContentType o)) <$> objects in
      json 200 (JRows bucket sql rows (Z.of_nat (length rows)))
  end.

(** The first ten documents that can be read. *)
Definition documents (c : Call) (bucket : string) (objects : list ObjectVersion) (s : LocalStore) : string :=
  let readable := omap (fun obj =>
    if HasSuffix (Key obj) ".txt" || HasSuffix (Key obj) ".md" || HasSuffix (Key obj) ".json"
    then match GetObjectBytes c bucket (Key obj) "" s with inr data => Some (Key obj, data) | inl _ => None end else None) objects in
  String.concat "" ((fun kd : string * bytes =>
    "--- Document: " +:+ kd.1 +:+ " ---" +:+ String nl "" +:+ str kd.2 +:+ String nl (String nl "")) <$> take 10 readable).

Definition handleConversationalQuery (c : Call) (r : Request) (bucket : string) (g : Gateway) : Response :=
  let question := values_Get (Query r) "ask" in
  match ListObjects bucket "" "" "" 1000 (store g) with
  | inl e => writeError 500 "InternalError" ("Failed to list objects in bucket: " +:+ Error (Stored e))
  | inr (objects, _) =>
      let prompt := "Context Documents:" +:+ String nl "" +:+ documents c bucket objects (store g) +:+ String nl "" +:+ "User Question: " +:+ question +:+
        String nl (String nl "") +:+ "Synthesize a clear and concise answer based ONLY on the provided context." in
      match completeLLM prompt with
      | inl e => writeError 500 "InternalError" ("Failed to synthesize answer: " +:+ e)
      | inr answer => json 200 (JAnswer bucket question answer)
      end
  end.

(** ** Other nodes *)

Definition GetNodeAddress (cl : Cluster) (node : string) : option string := addresses cl !! node.
Definition IsNodeOnline (cl : Cluster) (node : string) : bool := bool_decide (node ∈ online cl).
Definition ring_key (bucket key : string) : string := bucket +:+ "/" +:+ key.

Definition owners_of (g : Gateway) (count : Z) (bucket key : string) : option (Cluster * list string) :=
  match cluster g with
  | None => None
  | Some cl => match Ring cl with
               | None => None
               | Some ring => match GetNodes (ring_key bucket key) count ring with inl _ => None | inr owners => Some (cl, owners) end
               end
  end.

Definition replicated (r : Request) : bool := bool_decide (Get r "X-Pranor-Vault-Replicated" = "true").

(** The addresses of the other owners of an object. *)
Definition backup_nodes (r : Request) (bucket key : string) (g : Gateway) : list string :=
  if replicated r then [] else
  match owners_of g (replicationFactor g) bucket key with
  | None => []
  | Some (cl, owners) =>
      if (length owners <=? 1)%nat then []
      else omap (fun owner => if bool_decide (owner = LocalNodeID cl) then None else GetNodeAddress cl owner) owners
  end.

(** The first of the other owners that is online and has an address. *)
Definition online_backup (bucket key : string) (g : Gateway) : option string :=
  match owners_of g (replicationFactor g) bucket key with
  | None => None
  | Some (cl, owners) =>
      head (omap (fun owner => if negb (bool_decide (owner = LocalNodeID cl)) && IsNodeOnline cl owner then GetNodeAddress cl owner else None) owners)
  end.

(** Replication to other regions, unless the write came from one. *)
Definition other_regions (r : Request) (bucket key versionID : string) (delete : bool) (g : Gateway) : list Effect_ :=
  if crrMgr g && bool_decide (Get r "X-Pranor-Vault-Region-Source" = "") then [EnqueueCRR bucket key versionID delete] else [].

(** ** Objects *)

(** [filepath.Ext] *)
Fixpoint ext_of (rev_path acc : bytes) : bytes :=
  match rev_path with
  | [] => []
  | c :: l => if decide (c = "."%char) then c :: acc else if decide (c = slash) then [] else ext_of l (c :: acc)
  end.
Definition Ext (path : string) : string := str (ext_of (reverse (byt path)) []).

Definition content_type (r : Request) : string := if bool_decide (Get r "Content-Type" = "") then "application/octet-stream" else Get r "Content-Type".

(** Whether a replicated write is older than what is here. *)
Definition outdated (c : Call) (r : Request) (bucket key : string) (s : LocalStore) : bool :=
  replicated r &&
  match HeadObject c bucket key "" s with
  | inl _ => false
  | inr localMeta => match time_Parse RFC3339 (Get r "X-Pranor-Vault-Timestamp") with Some repTime => repTime <? LastModified localMeta | None => false end
  end.

(** Whether the request asks for objects of the same name to be refused, and
    one of the first ten has it. *)
Definition duplicate (r : Request) (bucket key : string) (s : LocalStore) : bool :=
  bool_decide (Get r "X-Pranor-Vault-Deduplicate" = "true") &&
  match ListObjects bucket "" "" "" 10 s with
  | inl _ => false
  | inr (existing, _) => existsb (fun ex => HasPrefix (Key ex) (TrimSuffix key (Ext key)) && negb (bool_decide (Key ex = key))) existing
  end.

Definition put_error (e : Err) : Response :=
  match e with
  | ErrBucketNotFound => no_such_bucket
  | QuotaExceeded _ => writeError 409 "QuotaExceeded" (Error (Stored e))
  | _ => internal_error (Stored e)
  end.

Definition put_call (r : Request) (c : Call) : Call :=
  if bool_decide (Get r "X-Pranor-Vault-Version-Id" = "") then c else with_version (Get r "X-Pranor-Vault-Version-Id") c.

Definition etag_field (etag : string) : string * string := ("ETag", quoted etag).

(** *** Copies *)

Definition setting_ok (setting : string) : bool :=
  bool_decide (setting = "") ||
  negb (ContainsByte setting ";"%char) &&
  match bytes_Cut (byt setting) ["="%char] with
  | Some (k, v) => match query_unescape k, query_unescape v with Some _, Some _ => true | _, _ => false end
  | None => match query_unescape (byt setting) with Some _ => true | None => false end
  end.

Definition unescaped (s fallback : string) : string := default fallback (QueryUnescape s).

(** Bucket, key and version of a copy source. *)
Definition copy_source (copySource : string) : option (string * string * string) :=
  match SplitN2 (TrimPrefix copySource "/") "/" with
  | [srcBucket; srcKeyAndQuery] =>
      let '(srcKey, srcVersionID) :=
        match bytes_Cut (byt srcKeyAndQuery) ["?"%char] with
        | Some (k, q) => (str k, if forallb setting_ok (Split (str q) "&"%char) then values_Get (ParseQuery (str q)) "versionId" else "")
        | None => (srcKeyAndQuery, "")
        end in
      Some (unescaped srcBucket srcBucket, unescaped srcKey srcKeyAndQuery, srcVersionID)
  | _ => None
  end.

Definition stream (rd : Reader) : option bytes := match ReadAll rd with inr b => Some b | inl _ => None end.

Definition handleCopyObject (c : Call) (r : Request) (destBucket destKey copySource : string) (g : Gateway) : Response * Gateway :=
  match copy_source copySource with
  | None => (writeError 400 "InvalidArgument" "Invalid x-amz-copy-source header format.", g)
  | Some (srcBucket, srcKey, srcVersionID) =>
      match GetObject c srcBucket srcKey srcVersionID (store g) with
      | inl (ErrObjectNotFound, _) | inl (ErrBucketNotFound, _) => (writeError 404 "NoSuchKey" "The source object does not exist.", g)
      | inl (e, _) => (internal_error (Stored e), g)
      | inr (reader, srcObj) =>
          let '(result, s) := PutObject c destBucket destKey (stream reader) (Size srcObj) (ContentType srcObj) (store g) in
          let g := with_store s g in
          match result with
          | inl e => (internal_error (Stored e), g)
          | inr destObj =>
              (writeXML 200 (XCopied (time_text (LastModified destObj)) (quoted (ETag destObj))),
               send ((fun addr => ReplicateObject addr destBucket destKey (VersionID destObj)) <$> backup_nodes r destBucket destKey g) g)
          end
      end
  end.

Definition handlePutObject (c : Call) (r : Request) (bucket key : string) (g : Gateway) : Response * Gateway :=
  if negb (bool_decide (Get r "x-amz-copy-source" = "")) then handleCopyObject c r bucket key (Get r "x-amz-copy-source") g else
  let c := put_call r c in
  if outdated c r bucket key (store g) then (status_only 200, g) else
  if duplicate r bucket key (store g) then (writeError 409 "DuplicateObjectException" "A semantically identical document already exists in the bucket.", g) else
  let '(result, s) := PutObject c bucket key (Body r) (ContentLength r) (content_type r) (store g) in
  let g := with_store s g in
  match result with
  | inl e => (put_error e, g)
  | inr obj =>
      (mkResponse 200 (etag_field (ETag obj) :: version_field (VersionID obj)) NoDocument,
       send (((fun addr => ReplicateObject addr bucket key (VersionID obj)) <$> backup_nodes r bucket key g) ++
             other_regions r bucket key (VersionID obj) false g ++ [NotifyEvent "ObjectCreated:Put" bucket key (Size obj) (ETag obj)]) g)
  end.

(** *** Reads *)

Definition travel_call (r : Request) (c : Call) : Call :=
  let at_ := values_Get (Query r) "at" in
  if bool_decide (at_ = "") then c else match time_Parse RFC3339 at_ with Some t => with_travel t c | None => c end.

Definition marker_fields (obj : option ObjectVersion) : list (string * string) :=
  match obj with
  | Some v => if IsDeleteMarker v then ("x-amz-delete-marker", "true") :: version_field (VersionID v) else []
  | None => []
  end.

(** The bytes of an object and its version, read to the end and checked. *)
Definition read_object (c : Call) (bucket key versionID : string) (s : LocalStore) : (Err * option ObjectVersion) + (bytes * ObjectVersion) :=
  match GetObject c bucket key versionID s with
  | inl e => inl e
  | inr (reader, obj) => match ReadAll reader with inl e => inl (e, Some obj) | inr buf => inr (buf, obj) end
  end.

Definition get_error (e : Err) (obj : option ObjectVersion) : Response :=
  match e with
  | ErrBucketNotFound => no_such_bucket
  | ErrObjectNotFound => mkResponse 404 (marker_fields obj ++ [("Content-Type", "application/xml")]) (XmlError "NoSuchKey" "The specified key does not exist." "")
  | _ => internal_error (Stored e)
  end.

(** Errors after which another owner is asked. *)
Definition fails_over (r : Request) (e : Err) : bool :=
  match e with
  | ErrObjectNotFound | ErrBucketNotFound => negb (replicated r)
  | Corrupt => true
  | _ => false
  end.

Definition handleGetObject (c : Call) (r : Request) (bucket key : string) (g : Gateway) : Answer :=
  match read_object (travel_call r c) bucket key (values_Get (Query r) "versionId") (store g) with
  | inl (e, obj) =>
      match (if fails_over r e then online_backup bucket key g else None) with
      | Some addr => ProxyTo addr
      | None => Reply (get_error e obj)
      end
  | inr (buf, obj) =>
      Reply (mkResponse 200 ([("Content-Length", FormatInt (Size obj)); ("Content-Type", ContentType obj); etag_field (ETag obj);
                              ("Cache-Control", "public, max-age=31536000, immutable")] ++ version_field (VersionID obj) ++
                             (if bool_decide (Checksum obj = "") then [] else [("x-amz-meta-blake3", Checksum obj)])) (Content buf))
  end.

Definition handleHeadObject (c : Call) (r : Request) (bucket key : string) (g : Gateway) : Answer :=
  match HeadObject (travel_call r c) bucket key (values_Get (Query r) "versionId") (store g) with
  | inl (e, _) =>
      let missing := match e with ErrObjectNotFound | ErrBucketNotFound => true | _ => false end in
      match (if missing && negb (replicated r) then online_backup bucket key g else None) with
      | Some addr => ProxyTo addr
      | None => Reply (status_only (if missing then 404 else 500))
      end
  | inr obj =>
      Reply (if IsDeleteMarker obj then mkResponse 404 (("x-amz-delete-marker", "true") :: version_field (VersionID obj)) NoDocument
             else mkResponse 200 ([("Content-Length", FormatInt (Size obj)); ("Content-Type", ContentType obj); etag_field (ETag obj)] ++ version_field (VersionID obj)) NoDocument)
  end.

(** *** Deletions *)

Definition handleDeleteObject (c : Call) (r : Request) (bucket key : string) (g : Gateway) : Response * Gateway :=
  let versionID := values_Get (Query r) "versionId" in
  let '(result, s) := DeleteObject c bucket key versionID (store g) in
  let g := with_store s g in
  match result with
  | inl ErrBucketNotFound => (no_such_bucket, g)
  | inl ErrObjectNotFound => (status_only 204, g)
  | inl ErrObjectLocked => (writeError 423 "ObjectLocked" (Error (Stored ErrObjectLocked)), g)
  | inl e => (internal_error (Stored e), g)
  | inr obj =>
      (mkResponse 204 ((if IsDeleteMarker obj then [("x-amz-delete-marker", "true")] else []) ++ version_field (VersionID obj)) NoDocument,
       send (((fun addr => ReplicateDelete addr bucket key versionID) <$> backup_nodes r bucket key g) ++
             other_regions r bucket key versionID true g ++ [NotifyEvent "ObjectRemoved:Delete" bucket key (Size obj) (ETag obj)]) g)
  end.

Definition delete_code (e : Err) : string :=
  match e with ErrObjectNotFound | ErrBucketNotFound => "NoSuchKey" | ErrObjectLocked => "ObjectLocked" | _ => "InternalError" end.

(** One object of a batch; the [i]-th call of the store. *)
Definition batch_delete_one (calls : nat -> Call) (r : Request) (bucket : string) (quiet : bool) (i : nat) (obj : string * string)
    (acc : list DeletedResult * list DeleteErrorResult * Gateway) : list DeletedResult * list DeleteErrorResult * Gateway :=
  let '(deleted, errors, g) := acc in
  let '(key, versionID) := obj in
  let '(result, s) := DeleteObject (calls i) bucket key versionID (store g) in
  let g := with_store s g in
  match result with
  | inl e => (deleted, errors ++ [mkDeleteError key versionID (delete_code e) (Error (Stored e))], g)
  | inr v =>
      (if quiet then deleted
       else deleted ++ [mkDeleted key versionID (IsDeleteMarker v) (if IsDeleteMarker v then VersionID v else "")],
       errors, send ((fun addr => ReplicateDelete addr bucket key versionID) <$> backup_nodes r bucket key g) g)
  end.

Fixpoint batch_delete (calls : nat -> Call) (r : Request) (bucket : string) (quiet : bool) (i : nat) (objs : list (string * string))
    (acc : list DeletedResult * list DeleteErrorResult * Gateway) : list DeletedResult * list DeleteErrorResult * Gateway :=
  match objs with
  | [] => acc
  | obj :: objs => batch_delete calls r bucket quiet (S i) objs (batch_delete_one calls r bucket quiet i obj acc)
  end.

Definition handleBatchDelete (calls : nat -> Call) (r : Request) (bucket : string) (g : Gateway) : Response * Gateway :=
  match Body r ≫= decode_delete with
  | None => (writeError 400 "MalformedXML" "XML body is malformed.", g)
  | Some req =>
      let '(deleted, errors, g) := batch_delete calls r bucket (Quiet req) 0 (del_Objects req) ([], [], g) in
      (writeXML 200 (XDeleted deleted errors), g)
  end.

(** *** Tags and locks *)

Definition tag_error (e : Err) : Response := match e with ErrObjectNotFound => no_such_key | _ => internal_error (Stored e) end.

Definition handlePutObjectTagging (c : Call) (r : Request) (bucket key : string) (g : Gateway) : Response * Gateway :=
  match Body r ≫= decode_tagging with
  | None => (writeError 400 "MalformedXML" "XML body is malformed.", g)
  | Some tagSet =>
      let tags := fold_left (fun m t => <[t.1 := t.2]> m) tagSet ∅ in
      let '(result, s) := PutObjectTagging c bucket key (values_Get (Query r) "versionId") tags (store g) in
      (match result with inl e => tag_error e | inr _ => status_only 200 end, with_store s g)
  end.

Definition handleGetObjectTagging (r : Request) (bucket key : string) (g : Gateway) : Response :=
  match GetObjectTagging bucket key (values_Get (Query r) "versionId") (store g) with
  | inl e => tag_error e
  | inr tags => writeXML 200 (XTagging (map_to_list tags))
  end.

Definition handleDeleteObjectTagging (c : Call) (r : Request) (bucket key : string) (g : Gateway) : Response * Gateway :=
  let '(result, s) := DeleteObjectTagging c bucket key (values_Get (Query r) "versionId") (store g) in
  (match result with inl e => tag_error e | inr _ => status_only 204 end, with_store s g).

Definition handleLockObject (c : Call) (r : Request) (bucket key : string) (g : Gateway) : Response * Gateway :=
  let retainUntilStr := values_Get (Query r) "retain-until" in
  if bool_decide (retainUntilStr = "")
  then (writeError 400 "InvalidArgument" "Missing required query param: retain-until (RFC3339 timestamp)", g) else
  match time_Parse RFC3339 retainUntilStr with
  | None => (writeError 400 "InvalidArgument" "retain-until must be a valid RFC3339 timestamp (e.g. 2026-12-31T00:00:00Z)", g)
  | Some retainUntil =>
      if retainUntil <=? instant c 0 then (writeError 400 "InvalidArgument" "retain-until must be a future timestamp", g) else
      let '(result, s) := LockObject bucket key (values_Get (Query r) "versionId") retainUntil (store g) in
      (match result with
       | inl ErrBucketNotFound => no_such_bucket
       | inl ErrObjectNotFound => no_such_key
       | inl ErrInvalidVersion => writeError 400 "InvalidArgument" "The specified version ID does not exist."
       | inl e => writeError 400 "InvalidArgument" (Error (Stored e))
       | inr ver => mkResponse 200 (("x-amz-object-lock-retain-until-date", time_text (default zero_time (RetainUntil ver))) :: version_field (VersionID ver)) NoDocument
       end, with_store s g)
  end.

(** *** Uploads in parts *)

Definition handleInitiateMultipart (c : Call) (bucket key : string) (g : Gateway) : Response * Gateway :=
  let '(result, s) := InitiateMultipartUpload c bucket key (store g) in
  (match result with inl e => bucket_error (Stored e) | inr uploadID => writeXML 200 (XUpload bucket key uploadID) end, with_store s g).

Definition handleUploadPart (c : Call) (r : Request) (bucket key : string) (g : Gateway) : Response * Gateway :=
  let bad := (writeError 400 "InvalidArgument" "Part number must be a positive integer.", g) in
  match Atoi (values_Get (Query r) "partNumber") with
  | None => bad
  | Some partNumber =>
      if partNumber <=? 0 then bad else
      let '(result, s) := UploadPart c bucket key (values_Get (Query r) "uploadId") partNumber (Body r) (ContentLength r) (store g) in
      (match result with inl e => internal_error (Stored e) | inr etag => mkResponse 200 [etag_field etag] NoDocument end, with_store s g)
  end.

(** [strings.Trim] of double quotes. *)
Definition trim_quotes (s : string) : string :=
  let is_quote c := bool_decide (c = quote) in
  str (reverse (drop_while is_quote (reverse (drop_while is_quote (byt s))))).

Definition handleCompleteMultipart (c : Call) (r : Request) (bucket key : string) (g : Gateway) : Response * Gateway :=
  match Body r ≫= decode_parts with
  | None => (writeError 400 "MalformedXML" "XML body is malformed.", g)
  | Some req =>
      let parts := (fun p : Z * string => mkPart p.1 (trim_quotes p.2)) <$> req in
      let '(result, s) := CompleteMultipartUpload c bucket key (values_Get (Query r) "uploadId") parts (content_type r) (store g) in
      (match result with
       | inl (QuotaExceeded q) => writeError 409 "QuotaExceeded" (Error (Stored (QuotaExceeded q)))
       | inl e => internal_error (Stored e)
       | inr obj => writeXML 200 (XCompleted ("/" +:+ bucket +:+ "/" +:+ key) bucket key (quoted (ETag obj)))
       end, with_store s g)
  end.

Definition handleAbortMultipart (r : Request) (bucket key : string) (g : Gateway) : Response * Gateway :=
  let '(err, s) := AbortMultipartUpload bucket key (values_Get (Query r) "uploadId") (store g) in
  (match err with Some e => internal_error (Stored e) | None => status_only 204 end, with_store s g).

(** *** Transformations *)

Definition positive_or (d : Z) (text : string) : Z := match Atoi text with Some v => if 0 <? v then v else d | None => d end.

(** Reading an object fails when it is opened or while it is read. *)
Definition read_stage (what : string) (c : Call) (bucket key versionID : string) (s : LocalStore) : S3Err + (bytes * ObjectVersion) :=
  match GetObject c bucket key versionID s with
  | inl (e, _) => inl (Wrapped ("get " +:+ what) e)
  | inr (reader, obj) => match ReadAll reader with inl e => inl (Wrapped ("read " +:+ what) e) | inr b => inr (b, obj) end
  end.

Definition WASMTransform (c : Call) (bucket wasmKey targetKey versionID : string) (memLimitMB timeoutSec : Z) (s : LocalStore) : S3Err + (bytes * string) :=
  match read_stage "wasm binary" c bucket wasmKey "" s with
  | inl e => inl e
  | inr (wasmBytes, _) =>
      match read_stage "target" c bucket targetKey versionID s with
      | inl e => inl e
      | inr (targetBytes, targetVer) =>
          match Execute wasmBytes targetBytes memLimitMB timeoutSec with
          | inl e => inl (SandboxFailed e)
          | inr output => inr (output, ContentType targetVer)
          end
      end
  end.

Definition handleWASMTransform (c : Call) (r : Request) (bucket wasmKey : string) (g : Gateway) : Response :=
  let q := Query r in
  match WASMTransform c bucket wasmKey (values_Get q "target-key") (values_Get q "versionId") (positive_or 64 (values_Get q "mem-limit"))
          (positive_or 30 (values_Get q "timeout")) (store g) with
  | inl (Wrapped _ ErrObjectNotFound as e) => writeError 404 "NoSuchKey" (Error e)
  | inl e => writeError 500 "TransformError" (Error e)
  | inr (output, contentType) =>
      mkResponse 200 [("Content-Type", if bool_decide (contentType = "") then "application/octet-stream" else contentType);
                      ("X-Pranor-Vault-Transform", "wasm"); ("Content-Length", FormatInt (Z.of_nat (length output)))] (Content output)
  end.

(** ** Erasure coding

    The shards of an object go to different nodes, each as an object of its
    own.  [Network] is what the other nodes answer. *)

Record Shard := mkShard { shard_data : bytes; shard_type : string; shard_version : string; shard_etag : string }.

Record Network := mkNetwork {
  put_shard : string -> nat -> bytes -> bool;
  get_shard : string -> nat -> option Shard;
  first_failure : string }.

Definition shard_key (key : string) (i : nat) : string := key +:+ ".shard." +:+ FormatInt (Z.of_nat i).

Definition shard_content_type (originalSize : Z) : string := "application/octet-stream; original-size=" +:+ FormatInt originalSize.

(** The local shard goes to the store, the others over the network; the
    result tells whether the write succeeded. *)
Definition writeShardToNode (c : Call) (net : Network) (cl : Cluster) (bucket key versionID : string) (originalSize : Z) (i : nat) (data : bytes) (node : string)
    (s : LocalStore) : bool * LocalStore :=
  if bool_decide (node = LocalNodeID cl) then
    let '(result, s) := PutObject (with_version versionID c) bucket (shard_key key i) (Some data) (Z.of_nat (length data)) (shard_content_type originalSize) s in
    (match result with inl _ => false | inr _ => true end, s)
  else match GetNodeAddress cl node with Some addr => (put_shard net addr i data, s) | None => (false, s) end.

(** The shards in the order of their numbers; at most one of them is local. *)
Fixpoint write_shards (c : Call) (net : Network) (cl : Cluster) (bucket key versionID : string) (originalSize : Z) (i : nat) (shards : list bytes) (owners : list string)
    (s : LocalStore) : nat * LocalStore :=
  match shards, owners with
  | data :: shards, node :: owners =>
      let '(ok, s) := writeShardToNode c net cl bucket key versionID originalSize i data node s in
      let '(failures, s) := write_shards c net cl bucket key versionID originalSize (S i) shards owners s in
      (if ok then failures else S failures, s)
  | _, _ => (0%nat, s)
  end.

Definition not_enough_nodes : Response := writeError 500 "InternalError" "Not enough nodes available for erasure coding placement".
Definition no_ring : Response := writeError 503 "ServiceUnavailable" "Cluster ring is unavailable".

(** The owners of the shards, one for each. *)
Definition shard_owners (cl : Cluster) (bucket key : string) (g : Gateway) : Response + list string :=
  match Ring cl with
  | None => inl no_ring
  | Some ring =>
      match GetNodes (ring_key bucket key) (dataShards g + parityShards g) ring with
      | inl _ => inl not_enough_nodes
      | inr owners => if Z.of_nat (length owners) <? dataShards g + parityShards g then inl not_enough_nodes else inr owners
      end
  end.

Definition erasure_version (c : Call) (r : Request) (cl : Cluster) : string :=
  if bool_decide (Get r "X-Pranor-Vault-Version-Id" = "") then LocalNodeID cl +:+ "-" +:+ FormatInt (instant c 0) else Get r "X-Pranor-Vault-Version-Id".

Definition handlePutObjectErasure (c : Call) (net : Network) (cl : Cluster) (r : Request) (bucket key : string) (g : Gateway) : Response * Gateway :=
  match Body r with
  | None => (writeError 500 "InternalError" ("Failed to read request body: " +:+ read_error), g)
  | Some data =>
      match rs_encode (dataShards g) (parityShards g) data with
      | inl e => (writeError 500 "InternalError" e, g)
      | inr shards =>
          match shard_owners cl bucket key g with
          | inl reply => (reply, g)
          | inr owners =>
              let versionID := erasure_version c r cl in
              let '(failures, s) := write_shards c net cl bucket key versionID (Z.of_nat (length data)) 0 shards owners (store g) in
              let g := with_store s g in
              if parityShards g <? Z.of_nat failures
              then (writeError 500 "InternalError" ("Erasure write failed (too many shard failures): " +:+ first_failure net), g)
              else (mkResponse 200 [etag_field (hex (md5 data)); ("x-amz-version-id", versionID)] NoDocument, g)
          end
      end
  end.

(** The size that the content type of a shard carries, and the type before it. *)
Definition leading_number (s : bytes) : Z :=
  let '(sign, s) := match s with "-"%char :: s => (-1, s) | "+"%char :: s => (1, s) | _ => (1, s) end in sign * digits_val (take_while isDigitb s).

Definition original_size (contentType : string) : Z * string :=
  match bytes_Cut (byt contentType) (byt "original-size=") with
  | None => (0, contentType)
  | Some (_, after) =>
      (leading_number after,
       match bytes_Cut (byt contentType) [";"%char] with Some (b, _) => TrimSpace (str b) | None => contentType end)
  end.

Definition readShardFromNode (c : Call) (net : Network) (cl : Cluster) (bucket key versionID : string) (i : nat) (node : string) (s : LocalStore) : option Shard :=
  if bool_decide (node = LocalNodeID cl) then
    match read_object c bucket (shard_key key i) versionID s with
    | inl _ => None
    | inr (data, obj) => Some (mkShard data (ContentType obj) (VersionID obj) (ETag obj))
    end
  else match GetNodeAddress cl node with
       | Some addr => (fun sh => mkShard (shard_data sh) (shard_type sh) (shard_version sh) (trim_quotes (shard_etag sh))) <$> get_shard net addr i
       | None => None
       end.

(** What the shards say of the object; the last one in the order of arrival
    decides. *)
Record Summary := mkSummary { sum_size : Z; sum_type : string; sum_version : string; sum_etag : string }.

Definition add_shard (m : Summary) (sh : Shard) : Summary :=
  let '(size, mimeType) := original_size (shard_type sh) in
  mkSummary (if 0 <? size then size else sum_size m) (if bool_decide (mimeType = "") then sum_type m else mimeType)
    (if bool_decide (shard_version sh = "") then sum_version m else shard_version sh) (if bool_decide (shard_etag sh = "") then sum_etag m else shard_etag sh).

Definition read_shards (c : Call) (net : Network) (cl : Cluster) (bucket key versionID : string) (owners : list string) (s : LocalStore) : list (option Shard) :=
  imap (fun i node => readShardFromNode c net cl bucket key versionID i node s) owners.

(** [arrival] is the order in which the shards arrive. *)
Definition handleGetObjectErasure (c : Call) (net : Network) (arrival : list nat) (cl : Cluster) (r : Request) (bucket key : string) (g : Gateway) : Response :=
  match shard_owners cl bucket key g with
  | inl reply => reply
  | inr owners =>
      let owners := take (Z.to_nat (dataShards g + parityShards g)) owners in
      let shards := read_shards c net cl bucket key (values_Get (Query r) "versionId") owners (store g) in
      let m := fold_left (fun m i => match shards !! i with Some (Some sh) => add_shard m sh | _ => m end) arrival (mkSummary 0 "" "" "") in
      if Z.of_nat (length (present shards)) <? dataShards g
      then writeError 404 "NoSuchKey" "The specified key does not exist or has too many missing shards to reconstruct"
      else match rs_join (dataShards g) (parityShards g) (option_map shard_data <$> shards) (sum_size m) with
           | inl e => writeError 500 "InternalError" e
           | inr buf =>
               let fields := [("Content-Length", FormatInt (sum_size m)); ("Content-Type", sum_type m); etag_field (sum_etag m)] in
               if bool_decide (Method r = "HEAD") then mkResponse 200 (fields ++ version_field (sum_version m)) NoDocument
               else mkResponse 200 (fields ++ [("Cache-Control", "public, max-age=31536000, immutable")] ++ version_field (sum_version m)) (Content buf)
           end
  end.

Definition deleteShardFromNode (c : Call) (cl : Cluster) (bucket key versionID : string) (g : Gateway) (io : nat * string) : Gateway :=
  if bool_decide (io.2 = LocalNodeID cl) then with_store (DeleteObject c bucket (shard_key key io.1) versionID (store g)).2 g
  else match GetNodeAddress cl io.2 with Some addr => send [DeleteShard addr bucket key versionID io.1] g | None => g end.

Definition handleDeleteObjectErasure (c : Call) (cl : Cluster) (r : Request) (bucket key : string) (g : Gateway) : Response * Gateway :=
  match shard_owners cl bucket key g with
  | inl reply => (reply, g)
  | inr owners =>
      let owners := take (Z.to_nat (dataShards g + parityShards g)) owners in
      (status_only 204, fold_left (deleteShardFromNode c cl bucket key (values_Get (Query r) "versionId")) (imap pair owners) g)
  end.

(** ** Permission *)

Definition authorize (now : Z) (r : Request) (action resource : string) (g : Gateway) : bool :=
  if negb (enabled (auth g)) then true else
  let identity := GetIdentity now (auth g) r in
  if bool_decide (identity = "") then false else
  match GetUserPolicy identity (store g) with
  | None => true
  | Some policyBytes => match decode_policy policyBytes with Some pol => IsAllowed pol action resource | None => false end
  end.

Definition Has (r : Request) (k : string) : bool := values_Has (Query r) k.

Definition bucket_action (r : Request) : option string :=
  let m := Method r in
  if bool_decide (m = "GET") then
    Some (if Has r "versioning" then "s3:GetBucketVersioning" else if Has r "versions" then "s3:ListBucketVersions"
          else if Has r "lifecycle" then "s3:GetLifecycleConfiguration" else "s3:ListBucket")
  else if bool_decide (m = "PUT") then
    Some (if Has r "versioning" then "s3:PutBucketVersioning" else if Has r "lifecycle" then "s3:PutLifecycleConfiguration" else "s3:CreateBucket")
  else if bool_decide (m = "DELETE") then Some (if Has r "lifecycle" then "s3:PutLifecycleConfiguration" else "s3:DeleteBucket")
  else if bool_decide (m = "HEAD") then Some "s3:ListBucket"
  else if bool_decide (m = "POST") then Some (if Has r "pipeline" then "s3:PutObject" else if Has r "delete" then "s3:DeleteObject" else "s3:PutObject")
  else None.

Definition object_action (r : Request) : option string :=
  let m := Method r in
  if bool_decide (m = "GET") then Some (if Has r "tagging" then "s3:GetObjectTagging" else "s3:GetObject")
  else if bool_decide (m = "PUT") then Some (if Has r "tagging" then "s3:PutObjectTagging" else "s3:PutObject")
  else if bool_decide (m = "DELETE") then Some (if Has r "tagging" then "s3:DeleteObjectTagging" else "s3:DeleteObject")
  else if bool_decide (m = "HEAD") then Some "s3:GetObject"
  else if bool_decide (m = "POST") then Some "s3:PutObject"
  else None.

(** The action and the resource of a request. *)
Definition wanted (r : Request) : option (string * string) :=
  let '(bucket, key) := parsePath (Path r) in
  if bool_decide (bucket = "") then Some ("s3:ListAllMyBuckets", "arn:aws:s3:::*")
  else if bool_decide (key = "") then (fun a => (a, "arn:aws:s3:::" +:+ bucket)) <$> bucket_action r
  else (fun a => (a, "arn:aws:s3:::" +:+ bucket +:+ "/" +:+ key)) <$> object_action r.

Definition checkAuthorization (now : Z) (r : Request) (g : Gateway) : bool :=
  if negb (enabled (auth g)) then true else
  match wanted r with Some (action, resource) => authorize now r action resource g | None => false end.

(** ** The console and administration *)

Definition handleConsoleLogin (c : Call) (r : Request) (g : Gateway) : Response * Gateway :=
  match Body r ≫= decode_credentials with
  | None => (writeErrorCtx r 400 "InvalidJSON" "Failed to decode credentials.", g)
  | Some (username, password) =>
      let '(adminUser, adminPass) := GetAdminCredentials (auth g) in
      if negb (bool_decide (username = adminUser)) || negb (bool_decide (password = adminPass))
      then (writeErrorCtx r 403 "AccessDenied" "Invalid username or password.", g)
      else
        let token := "token-" +:+ generateUUID c 0 in
        let session := mkSession token username (instant c 0) (instant c 1 + Hour) in
        (json 200 (JSession session), with_sessions (<[token := session]> (consoleSessionMap g)) g)
  end.

Definition session_token (r : Request) : string := TrimPrefix (Get r "Authorization") "Bearer ".

Definition handleConsoleLogout (r : Request) (g : Gateway) : Response * Gateway :=
  match consoleSessionMap g !! session_token r with
  | None => (writeError 401 "InvalidSession" "No active session found.", g)
  | Some _ => (status_only 200, with_sessions (delete (session_token r) (consoleSessionMap g)) g)
  end.

Definition handleConsoleSession (c : Call) (r : Request) (g : Gateway) : Response * Gateway :=
  let invalid := writeError 401 "InvalidSession" "Session has expired or is invalid." in
  match consoleSessionMap g !! session_token r with
  | None => (invalid, g)
  | Some session =>
      if s_ExpiresAt session <? instant c 0 then (invalid, with_sessions (delete (session_token r) (consoleSessionMap g)) g)
      else (json 200 (JSession session), g)
  end.

(** [RFC3339Nano] is parsed as [RFC3339], which accepts a fraction too. *)
Definition handleBackupRestore (c : Call) (r : Request) (g : Gateway) : Response * Gateway :=
  let bucket := values_Get (Query r) "bucket" in
  let timeStr := values_Get (Query r) "time" in
  if bool_decide (bucket = "") || bool_decide (timeStr = "")
  then (writeErrorCtx r 400 "InvalidArgument" "bucket and time query parameters are required", g) else
  match time_Parse RFC3339 timeStr with
  | None => (writeErrorCtx r 400 "InvalidArgument" "time parameter must be RFC3339 format", g)
  | Some targetTime =>
      (mkResponse 200 [] (Content (byt ("Bucket restored successfully to " +:+ timeStr))),
       with_store (RestoreBucketToPointInTime c bucket targetTime (store g)) g)
  end.

Definition handleRegisterFederation (r : Request) : Response :=
  writeErrorCtx r 403 "EnterpriseRequired" "Cross-cluster federation requires Pranor Vault Enterprise Edition.".

(** *** Jobs ([batch.go]) *)

Definition SubmitJob (c : Call) (req : BatchRequest) (g : Gateway) : string * Gateway :=
  let jobID := generateUUID c 0 in
  let job := mkJob jobID "Pending" (q_Operation req) (q_Bucket req) (q_Objects req) (q_Params req) (Z.of_nat (length (q_Objects req))) 0 0 "" (instant c 0) None in
  (jobID, send [RunJob jobID] (with_jobs (<[jobID := job]> (jobs g)) g)).

Definition handleCreateBatchJob (c : Call) (r : Request) (g : Gateway) : Response * Gateway :=
  match Body r ≫= decode_batch with
  | None => (writeErrorCtx r 400 "InvalidJSON" "Failed to decode request body.", g)
  | Some req =>
      if bool_decide (q_Operation req = "") || bool_decide (q_Bucket req = "") || bool_decide (q_Objects req = [])
      then (writeErrorCtx r 400 "InvalidArgument" "operation, bucket, and non-empty objects list are required", g)
      else let '(jobID, g) := SubmitJob c req g in (json 202 (JSubmitted jobID "Pending"), g)
  end.

Definition handleGetBatchJob (r : Request) (g : Gateway) : Response :=
  match Split (Path r) "/"%char with
  | _ :: _ :: _ :: jobID :: _ =>
      match jobs g !! jobID with
      | None => writeErrorCtx r 404 "NoSuchJob" "The specified batch job does not exist"
      | Some job => json 200 (JJob job)
      end
  | _ => writeErrorCtx r 400 "InvalidArgument" "missing job id"
  end.

(** An object read and written again under another name or type. *)
Definition rewrite_object (c : Call) (bucket key target : string) (contentType : option string) (s : LocalStore) : bool * LocalStore :=
  match GetObject c bucket key "" s with
  | inl _ => (false, s)
  | inr (reader, ov) =>
      let '(result, s) := PutObject c target key (stream reader) (Size ov) (default (ContentType ov) contentType) s in
      (match result with inl _ => false | inr _ => true end, s)
  end.

Definition version_result (result : (Err + ObjectVersion) * LocalStore) : bool * LocalStore :=
  (match result.1 with inl _ => false | inr _ => true end, result.2).

(** Whether it succeeded. *)
Definition processObject (c : Call) (op bucket key : string) (params : gmap string string) (s : LocalStore) : bool * LocalStore :=
  let param k := default "" (params !! k) in
  let op := lower op in
  if bool_decide (op = "copy") then
    if bool_decide (param "target_bucket" = "") then (false, s) else rewrite_object c bucket key (param "target_bucket") None s
  else if bool_decide (op = "delete") then version_result (DeleteObject c bucket key "" s)
  else if bool_decide (op = "tagging") then
    match decode_tags (param "tags") with None => (false, s) | Some tags => version_result (PutObjectTagging c bucket key "" tags s) end
  else if bool_decide (op = "metadata") then
    if bool_decide (param "content_type" = "") then (false, s) else rewrite_object c bucket key bucket (Some (param "content_type")) s
  else (false, s).

(** The steps of [executeJob]: between them other requests run. *)
Definition set_status (status : string) (j : BatchJob) : BatchJob :=
  mkJob (JobID j) status (JobOperation j) (JobBucket j) (Objects j) (Params j) (TotalObjects j) (ProcessedCount j) (FailedCount j) (JobError j) (JobCreatedAt j) (CompletedAt j).

Definition count_object (ok : bool) (j : BatchJob) : BatchJob :=
  mkJob (JobID j) (JobStatus j) (JobOperation j) (JobBucket j) (Objects j) (Params j) (TotalObjects j)
    (if ok then ProcessedCount j + 1 else ProcessedCount j) (if ok then FailedCount j else FailedCount j + 1) (JobError j) (JobCreatedAt j) (CompletedAt j).

Definition finish_job (now : Z) (j : BatchJob) : BatchJob :=
  let failed := (FailedCount j =? TotalObjects j) && (0 <? TotalObjects j) in
  mkJob (JobID j) (if failed then "Failed" else "Completed") (JobOperation j) (JobBucket j) (Objects j) (Params j) (TotalObjects j) (ProcessedCount j) (FailedCount j)
    (if failed then "All batch operations failed" else JobError j) (JobCreatedAt j) (Some now).

(** The next object of the job, and the state it leaves. *)
Definition job_object (c : Call) (key : string) (j : BatchJob) (s : LocalStore) : BatchJob * LocalStore :=
  let '(ok, s) := processObject c (JobOperation j) (JobBucket j) key (Params j) s in (count_object ok j, s).

Fixpoint job_objects (calls : nat -> Call) (i : nat) (keys : list string) (j : BatchJob) (s : LocalStore) : BatchJob * LocalStore :=
  match keys with
  | [] => (j, s)
  | key :: keys => let '(j, s) := job_object (calls i) key j s in job_objects calls (S i) keys j s
  end.

(** One step of the goroutine of a job: it begins, takes its next object, or
    finishes.  [None]: it has ended. *)
Definition job_step (c : Call) (j : BatchJob) (s : LocalStore) : option (BatchJob * LocalStore) :=
  if bool_decide (JobStatus j = "Pending") then Some (set_status "Running" j, s)
  else if bool_decide (JobStatus j = "Running") then
    Some match Objects j !! Z.to_nat (ProcessedCount j + FailedCount j) with
         | Some key => job_object c key j s
         | None => (finish_job (instant c 0) j, s)
         end
  else None.

(** A job that nothing interrupts. *)
Definition executeJob (calls : nat -> Call) (now : Z) (j : BatchJob) (s : LocalStore) : BatchJob * LocalStore :=
  let '(j, s) := job_objects calls 0 (Objects j) (set_status "Running" j) s in (finish_job now j, s).

(** ** The mock *)

Definition handleMockS3 (now : Z) (r : Request) : Response :=
  let '(bucket, key) := parsePath (Path r) in
  let m := Method r in
  let some_bucket := negb (bool_decide (bucket = "")) in
  let some_key := negb (bool_decide (key = "")) in
  if bool_decide (m = "OPTIONS") then status_only 200
  else if negb some_bucket && bool_decide (m = "GET") then writeXML 200 (XBuckets [("mock-bucket-1", time_text now); ("mock-bucket-2", time_text now)])
  else if some_bucket && negb some_key && bool_decide (m = "PUT") then status_only 200
  else if some_bucket && negb some_key && bool_decide (m = "DELETE") then status_only 204
  else if some_bucket && negb some_key && bool_decide (m = "GET") then
    writeXML 200 (XListing (mkListBucket bucket "" "" 1000 "" false [mkObjectResult "mock-object-1.txt" (time_text now) (quoted "mock-etag-1") 100 "STANDARD"] []))
  else if some_bucket && some_key && bool_decide (m = "GET") then
    mkResponse 200 [("Content-Type", "application/octet-stream"); etag_field "mock-etag"] (Content (byt "mock-s3-data"))
  else if some_bucket && some_key && bool_decide (m = "PUT") then mkResponse 200 [etag_field "mock-etag"] NoDocument
  else if some_bucket && some_key && bool_decide (m = "DELETE") then status_only 204
  else if some_bucket && some_key && bool_decide (m = "HEAD") then
    mkResponse 200 [("Content-Type", "application/octet-stream"); etag_field "mock-etag"; ("Content-Length", "12")] NoDocument
  else status_only 200.

(** ** Dispatch *)

(** What a request meets: the calls of the store it leads to, the network, the
    order in which shards arrive, and the clock for tokens and limits. *)
Record Occasion := mkOccasion { calls : nat -> Call; network : Network; arrivals : list nat; now : Z }.

Definition not_allowed (what : string) : Response := writeError 405 "MethodNotAllowed" ("Method not allowed on " +:+ what +:+ " level").

Definition read_only (resp : Response) (g : Gateway) : option (Answer * Gateway) := Some (Reply resp, g).
Definition acted (result : Response * Gateway) : option (Answer * Gateway) := Some (Reply result.1, result.2).

Definition bucket_level (e : Occasion) (r : Request) (bucket : string) (g : Gateway) : option (Answer * Gateway) :=
  let c := calls e 0 in
  let m := Method r in
  if bool_decide (m = "GET") then
    if Has r "versioning" then read_only (handleGetBucketVersioning bucket g) g
    else if Has r "versions" then read_only (handleListObjectVersions r bucket g) g
    else if Has r "lifecycle" then read_only (handleGetBucketLifecycle bucket g) g
    else if Has r "cold-tier" then read_only (handleGetBucketColdTier bucket g) g
    else if Has r "quota" then read_only (handleGetBucketQuota bucket g) g
    else if Has r "triggers" then read_only (handleGetBucketTriggers bucket g) g
    else if Has r "notification" then read_only (handleGetBucketNotifications bucket g) g
    else if Has r "geo-placement" then read_only (handleGetBucketGeoPlacement bucket g) g
    else if Has r "ask" then read_only (handleConversationalQuery c r bucket g) g
    else if Has r "sql" then read_only (handleSQLMetadataQuery r bucket g) g
    else read_only (handleListObjects r bucket g) g
  else if bool_decide (m = "PUT") then
    if Has r "versioning" then acted (handlePutBucketVersioning c r bucket g)
    else if Has r "lifecycle" then acted (handlePutBucketLifecycle c r bucket g)
    else if Has r "cold-tier" then read_only (handlePutBucketColdTier r bucket g) g
    else if Has r "quota" then acted (handlePutBucketQuota c r bucket g)
    else if Has r "triggers" then acted (handlePutBucketTriggers c r bucket g)
    else if Has r "notification" then acted (handlePutBucketNotifications c r bucket g)
    else if Has r "geo-placement" then acted (handlePutBucketGeoPlacement c r bucket g)
    else acted (handleCreateBucket c r bucket g)
  else if bool_decide (m = "POST") then
    if Has r "pipeline" then None
    else if Has r "cold-tier" && Has r "sweep" then read_only (handleRunColdSweep bucket g) g
    else if Has r "delete" then acted (handleBatchDelete (calls e) r bucket g)
    else read_only (not_allowed "bucket") g
  else if bool_decide (m = "DELETE") then
    if Has r "lifecycle" then acted (handleDeleteBucketLifecycle c bucket g) else acted (handleDeleteBucket c bucket g)
  else if bool_decide (m = "HEAD") then read_only (handleHeadBucket bucket g) g
  else read_only (not_allowed "bucket") g.

Definition object_level (e : Occasion) (r : Request) (bucket key : string) (g : Gateway) : option (Answer * Gateway) :=
  let c := calls e 0 in
  let m := Method r in
  if bool_decide (m = "GET") then
    if Has r "tagging" then read_only (handleGetObjectTagging r bucket key g) g else Some (handleGetObject c r bucket key g, g)
  else if bool_decide (m = "PUT") then
    if Has r "uploadId" && Has r "partNumber" then acted (handleUploadPart c r bucket key g)
    else if Has r "lock" then acted (handleLockObject c r bucket key g)
    else if Has r "tagging" then acted (handlePutObjectTagging c r bucket key g)
    else acted (handlePutObject c r bucket key g)
  else if bool_decide (m = "POST") then
    if Has r "transform" && negb (bool_decide (values_Get (Query r) "target-key" = "")) then read_only (handleWASMTransform c r bucket key g) g
    else if Has r "uploads" then acted (handleInitiateMultipart c bucket key g)
    else if Has r "uploadId" then acted (handleCompleteMultipart c r bucket key g)
    else if Has r "select" || negb (bool_decide (values_Get (Query r) "select-type" = "")) then None
    else read_only (not_allowed "object") g
  else if bool_decide (m = "DELETE") then
    if Has r "uploadId" then acted (handleAbortMultipart r bucket key g)
    else if Has r "tagging" then acted (handleDeleteObjectTagging c r bucket key g)
    else acted (handleDeleteObject c r bucket key g)
  else if bool_decide (m = "HEAD") then Some (handleHeadObject c r bucket key g, g)
  else read_only (not_allowed "object") g.

(** Bucket and key as the handlers see them. *)
Definition target (r : Request) : string * string :=
  let '(bucket, key) := parsePath (Path r) in
  let bucket := match bytes_Cut (byt bucket) ["@"%char] with Some (b, _) => str b | None => bucket end in
  let shardIdx := Get r "X-Pranor-Vault-Shard-Index" in
  (bucket, if bool_decide (shardIdx = "") then key else key +:+ ".shard." +:+ shardIdx).

(** The node that has to serve an object: this one, another one, or none that
    is online.  An owner that is online without an address counts as found. *)
Inductive Route_ := Here | There (addr : string) | Nowhere.

Fixpoint first_online (cl : Cluster) (found : option string) (owners : list string) : option (string * string) :=
  match owners with
  | [] => (fun owner => (owner, "")) <$> found
  | owner :: owners =>
      if IsNodeOnline cl owner
      then match GetNodeAddress cl owner with Some addr => Some (owner, addr) | None => first_online cl (Some owner) owners end
      else first_online cl found owners
  end.

Definition route (bucket key : string) (g : Gateway) : Route_ :=
  match owners_of g (replicationFactor g) bucket key with
  | None | Some (_, []) => Here
  | Some (cl, owners) =>
      match first_online cl None owners with
      | None => Nowhere
      | Some (owner, addr) =>
          if bool_decide (owner = "") then Nowhere else if bool_decide (owner = LocalNodeID cl) then Here else There addr
      end
  end.

Definition dispatch (e : Occasion) (r : Request) (g : Gateway) : option (Answer * Gateway) :=
  let '(bucket, key) := target r in
  let local :=
    if bool_decide (bucket = "") then
      if bool_decide (Method r = "GET") then read_only (handleListBuckets g) g else read_only (not_allowed "service") g
    else if bool_decide (key = "") then bucket_level e r bucket g
    else object_level e r bucket key g in
  if bool_decide (bucket = "") || bool_decide (key = "") || replicated r then local else
  match cluster g with
  | Some cl =>
      if erasureEnabled g then
        if bool_decide (Method r = "PUT") then acted (handlePutObjectErasure (calls e 0) (network e) cl r bucket key g)
        else if bool_decide (Method r = "GET") || bool_decide (Method r = "HEAD")
        then read_only (handleGetObjectErasure (calls e 0) (network e) (arrivals e) cl r bucket key g) g
        else if bool_decide (Method r = "DELETE") then acted (handleDeleteObjectErasure (calls e 0) cl r bucket key g)
        else local
      else match route bucket key g with
           | Here => local
           | There addr => Some (ProxyTo addr, g)
           | Nowhere => read_only (writeError 503 "ServiceUnavailable" "All replica nodes for this object are offline") g
           end
  | None => local
  end.

Definition tenant_of (r : Request) : string := if bool_decide (Get r "X-Pranor-Vault-Namespace" = "") then "default" else Get r "X-Pranor-Vault-Namespace".

(** The token bucket of the tenant; a refusal tells when to come back. *)
Definition limited (t : Z) (r : Request) (g : Gateway) : option Response * Gateway :=
  match rateLimiter g with
  | None => (None, g)
  | Some l =>
      let '(ok, l) := limiter_Allow t (tenant_of r) l in
      if ok then (None, with_limiter l g) else
      let '(retryAfter, l) := RetryAfterSec t (tenant_of r) l in
      let resp := writeErrorCtx r 429 "SlowDown" ("Request rate limit exceeded. Please retry after " +:+ FormatInt retryAfter +:+ "s.") in
      (Some (mkResponse (Status resp) (("Retry-After", FormatInt retryAfter) :: Fields resp) (Doc resp)), with_limiter l g)
  end.

Definition cors : list (string * string) :=
  [("Access-Control-Allow-Origin", "*"); ("Access-Control-Allow-Methods", "GET, PUT, POST, DELETE, HEAD, OPTIONS");
   ("Access-Control-Allow-Headers", "Content-Type, Authorization, X-Amz-Date, X-Amz-Content-Sha256, Content-Length");
   ("Access-Control-Expose-Headers", "ETag, x-amz-version-id, x-amz-delete-marker")].

Definition with_cors (a : Answer) : Answer :=
  match a with Reply resp => Reply (mkResponse (Status resp) (cors ++ Fields resp) (Doc resp)) | ProxyTo addr => ProxyTo addr end.

(** Authentication, permission, limit, and then the handler. *)
Definition guarded (e : Occasion) (r : Request) (g : Gateway) : option (Answer * Gateway) :=
  if bool_decide (Method r = "OPTIONS") then read_only (status_only 200) g
  else if negb (VerifyRequest (now e) (auth g) r) then read_only (writeErrorCtx r 403 "AccessDenied" "Access Denied") g
  else if negb (checkAuthorization (now e) r g) then read_only (writeErrorCtx r 403 "AccessDenied" "Access Denied by RBAC Policy") g
  else let '(refused, g) := limited (now e) r g in
       match refused with Some resp => read_only resp g | None => dispatch e r g end.

(** The line in the access log, which the node that answers writes. *)
Definition log_access (t : Z) (r : Request) (a : Answer) (g : Gateway) : Gateway :=
  let '(bucket, key) := parsePath (Path r) in
  if bool_decide (bucket = "") || bool_decide (bucket = "system-access-logs") then g else
  let username := match BasicAuth r with Some (u, _) => if bool_decide (u = "") then "anonymous" else u | None => "anonymous" end in
  send [LogAccess (mkLog t username bucket key (Method r) (match a with Reply resp => Some (Status resp) | ProxyTo _ => None end))] g.

Definition is_endpoint (path method : string) (r : Request) : bool := bool_decide (Path r = path) && bool_decide (Method r = method).

(** Requests that are answered before anything is checked. *)
Definition unguarded (e : Occasion) (r : Request) (g : Gateway) : option (option (Answer * Gateway)) :=
  let c := calls e 0 in
  if is_endpoint "/metrics" "GET" r then Some None
  else if is_endpoint "/console/login" "POST" r then Some (acted (handleConsoleLogin c r g))
  else if is_endpoint "/console/logout" "POST" r then Some (acted (handleConsoleLogout r g))
  else if is_endpoint "/console/session" "GET" r then Some (acted (handleConsoleSession c r g))
  else if is_endpoint "/admin/backup/restore" "POST" r then Some (acted (handleBackupRestore c r g))
  else if is_endpoint "/admin/federation" "POST" r then Some (read_only (handleRegisterFederation r) g)
  else if is_endpoint "/admin/batch" "POST" r then Some (acted (handleCreateBatchJob c r g))
  else if HasPrefix (Path r) "/admin/batch/" && bool_decide (Method r = "GET") then Some (read_only (handleGetBatchJob r g) g)
  else None.

(** [None]: the metrics, the pipeline and the select engine. *)
Definition ServeHTTP (e : Occasion) (r : Request) (g : Gateway) : option (Answer * Gateway) :=
  if mock g then Some (with_cors (Reply (handleMockS3 (now e) r)), g) else
  match unguarded e r g with
  | Some result => result
  | None =>
      match guarded e r g with
      | None => None
      | Some (a, g) => Some (with_cors a, log_access (now e) r a g)
      end
  end.

(** ** Goroutines

    What requests leave to be done in the background: the lines of the access
    log (the bucket is made first if need be, then the line is put into it) and
    the batch jobs.  The goroutine number [i] of [sent] takes one step, a call
    of the store at most; the other effects are done by other nodes. *)

Definition log_bucket : string := "system-access-logs".

Definition put_log (c : Call) (entry : AccessLogEntry) (requestID : string) (s : LocalStore) : LocalStore :=
  let logBytes := encode_log entry in
  let logKey := "logs/" +:+ FormatInt (l_Timestamp entry) +:+ "-" +:+ requestID +:+ ".json" in
  (PutObject c log_bucket logKey (Some logBytes) (Z.of_nat (length logBytes)) "application/json" s).2.

Definition with_sent (es : list Effect_) (g : Gateway) : Gateway :=
  mkGateway (store g) (auth g) (raftNode g) (cluster g) (replicationFactor g) (erasureEnabled g) (dataShards g) (parityShards g) (crrMgr g) (rateLimiter g)
    (consoleSessionMap g) (jobs g) (mock g) es.

Definition background (c : Call) (requestID : string) (i : nat) (g : Gateway) : option Gateway :=
  match sent g !! i with
  | Some (LogAccess entry) => Some (with_sent (<[i := PutLog entry]> (sent g)) (with_store (CreateBucket c log_bucket (store g)).2 g))
  | Some (PutLog entry) => Some (with_sent (delete i (sent g)) (with_store (put_log c entry requestID (store g)) g))
  | Some (RunJob jobID) =>
      match jobs g !! jobID with
      | None => None
      | Some j =>
          Some match job_step c j (store g) with
               | Some (j, s) => with_jobs (<[jobID := j]> (jobs g)) (with_store s g)
               | None => with_sent (delete i (sent g)) g
               end
      end
  | _ => None
  end.

(** A node at work: requests, and goroutines in between. *)
Inductive NodeEvent := NRequest (e : Occasion) (r : Request) | NBackground (c : Call) (requestID : string) (i : nat).

Definition node_step (ev : NodeEvent) (g : Gateway) : option Gateway :=
  match ev with
  | NRequest e r => match ServeHTTP e r g with Some (_, g) => Some g | None => None end
  | NBackground c requestID i => background c requestID i g
  end.

Fixpoint node_run (evs : list NodeEvent) (g : Gateway) : option Gateway :=
  match evs with [] => Some g | ev :: evs => match node_step ev g with Some g => node_run evs g | None => None end end.
End S3.
