(* ===== verification/VaultS3Props.v ===== *)
(** * What the S3 interface guarantees

    Every request acts on the store by operations of [VaultProps] on the
    bucket it names, so what holds of runs of the store holds of requests;
    what was put is what a get returns; nothing changes without permission;
    an object in shards is read back from enough of them. *)

From S2P Require Import Prelude GoSort GoStrings GoNumbers GoTime GoFloat GoFs HashRing GatewayParts Vault VaultObjects VaultBulk VaultFacts VaultProps VaultAuth VaultS3.
Local Open Scope string_scope.
Local Open Scope Z_scope.
Local Open Scope list_scope.

Section Props.
Context `{casing : Casing} `{codec : Codec} `{keyed : Keyed} `{outside : Outside} `{rs : ReedSolomon}.

(** ** Requests as runs of the store *)

Definition op_bucket (o : op) : option string :=
  match o with
  | OCreateBucket b | ODeleteBucket b | OVersioning b _ | OQuota b _ | ORules b _ | OTriggers b _ | ONotifications b _ | OGeo b _
  | OPut b _ _ _ _ | ODelete b _ _ | OLock b _ _ _ | OPutTags b _ _ _ | ODeleteTags b _ _ | OInitiate b _ | OUpload b _ _ _ _ _
  | OComplete b _ _ _ _ | OAbort b _ _ => Some b
  | OApplyLifecycle => None
  end.

(** [s'] is [s] after operations on bucket [b]. *)
Definition steps_to (b : string) (s s' : LocalStore) : Prop :=
  exists steps, Forall (fun co => op_bucket co.2 = Some b) steps /\ forall h, (run steps h s).2 = s'.

Lemma steps_refl b s : steps_to b s s.
Proof. by exists []. Qed.

Lemma steps_exec c o b s : op_bucket o = Some b -> steps_to b s (exec c o s).2.
Proof. intros H. exists [(c, o)]. split; [by repeat constructor|done]. Qed.

Lemma run_app steps1 steps2 h s : run (steps1 ++ steps2) h s = run steps2 (run steps1 h s).1 (run steps1 h s).2.
Proof. revert h s. induction steps1 as [|[c o] l IH]; intros h s; [done|]. cbn. apply IH. Qed.

Lemma steps_trans b s1 s2 s3 : steps_to b s1 s2 -> steps_to b s2 s3 -> steps_to b s1 s3.
Proof.
  intros (l1 & H1 & E1) (l2 & H2 & E2). exists (l1 ++ l2). split; [by apply Forall_app|]. intros h. rewrite run_app. by rewrite E1, E2.
Qed.

(** One call of the store by a handler, given by its result. *)
Ltac store_op c o :=
  match goal with
  | E : _ = (?res, ?s') |- steps_to ?b ?s ?s' =>
      let H := fresh in pose proof (steps_exec c o b s eq_refl) as H; cbn [exec] in H; rewrite E in H; exact H
  end.

Lemma steps_FSM c cmd b fb s :
  match cmd with
  | CmdCreateBucket b' => b' = b /\ fb = CreateBucket c b
  | CmdDeleteBucket b' => b' = b /\ fb = DeleteBucket c b
  | CmdSetVersioning b' st => b' = b /\ fb = SetBucketVersioning b st
  | CmdSetLifecycle b' l => b' = b /\ fb = SetBucketLifecycle b l
  | CmdDeleteLifecycle b' => b' = b /\ fb = DeleteBucketLifecycle b
  | CmdSetBucketQuota b' q => b' = b /\ fb = SetBucketQuota b q
  | CmdSetBucketTriggers b' t => b' = b /\ fb = SetBucketTriggers b t
  | CmdSetBucketNotifications b' l => b' = b /\ fb = SetBucketNotifications b l
  | CmdSetBucketGeoPlacement b' cfg => b' = b /\ fb = SetBucketGeoPlacement b (Some cfg)
  | CmdPutPolicy _ _ | CmdDeletePolicy _ => False
  end -> fb s = FSM_Apply c cmd s /\ steps_to b s (FSM_Apply c cmd s).2.
Proof.
  destruct cmd; intros H; try done; destruct H as [-> ->]; (split; [done|]); cbn [FSM_Apply];
    match goal with |- steps_to _ _ ?t.2 => destruct t as [res s'] eqn:E end; cbn [snd].
  - store_op c (OCreateBucket b).
  - store_op c (ODeleteBucket b).
  - store_op c (OVersioning b status).
  - store_op c (ORules b rules).
  - pose proof (steps_exec c (ORules b []) b s eq_refl) as H. cbn [exec] in H. change (SetBucketLifecycle b []) with (DeleteBucketLifecycle b) in H. by rewrite E in H.
  - store_op c (OQuota b quota).
  - store_op c (OTriggers b triggers).
  - store_op c (ONotifications b rules).
  - store_op c (OGeo b (Some cfg)).
Qed.

(** A change of a bucket, directly or by consensus, or none. *)
Lemma steps_propose c cmd fb b g :
  (forall s, fb s = FSM_Apply c cmd s /\ steps_to b s (FSM_Apply c cmd s).2) -> steps_to b (store g) (store (proposeOrExecute c cmd fb g).2).
Proof.
  intros H. destruct (H (store g)) as [Hf Hs]. unfold proposeOrExecute, Propose. destruct (raftNode g) as [rn|].
  - destruct (IsLeader rn); cbn [negb snd]; [|apply steps_refl]. destruct (Committed rn); [apply steps_refl|].
    destruct (FSM_Apply c cmd (store g)) as [res s']. exact Hs.
  - rewrite Hf. destruct (FSM_Apply c cmd (store g)) as [res s']. exact Hs.
Qed.

Lemma steps_changed c cmd fb b st g :
  (forall s, fb s = FSM_Apply c cmd s /\ steps_to b s (FSM_Apply c cmd s).2) -> steps_to b (store g) (store (changed st (proposeOrExecute c cmd fb g)).2).
Proof. intros H. pose proof (steps_propose c cmd fb b g H) as Hp. unfold changed. by destruct (proposeOrExecute c cmd fb g). Qed.

Ltac by_command := apply steps_changed; intros ?; by apply steps_FSM.

(** *** Buckets *)

Lemma steps_handleCreateBucket c r b g : content_addressable r = false -> steps_to b (store g) (store (handleCreateBucket c r b g).2).
Proof.
  intros Hc. unfold handleCreateBucket. rewrite Hc. pose proof (steps_propose c (CmdCreateBucket b) (CreateBucket c b) b g) as H.
  specialize (H ltac:(intros s; by apply steps_FSM)). destruct (proposeOrExecute _ _ _ g) as [[[[]| | | | |]|] g']; exact H.
Qed.

Lemma steps_handleDeleteBucket c b g : steps_to b (store g) (store (handleDeleteBucket c b g).2).
Proof.
  unfold handleDeleteBucket. pose proof (steps_propose c (CmdDeleteBucket b) (DeleteBucket c b) b g) as H.
  specialize (H ltac:(intros s; by apply steps_FSM)). destruct (proposeOrExecute _ _ _ g) as [[[[]| | | | |]|] g']; exact H.
Qed.

Lemma steps_bucket_settings c r b g :
  steps_to b (store g) (store (handlePutBucketVersioning c r b g).2) /\ steps_to b (store g) (store (handlePutBucketQuota c r b g).2) /\
  steps_to b (store g) (store (handlePutBucketGeoPlacement c r b g).2) /\ steps_to b (store g) (store (handlePutBucketTriggers c r b g).2) /\
  steps_to b (store g) (store (handlePutBucketNotifications c r b g).2) /\ steps_to b (store g) (store (handlePutBucketLifecycle c r b g).2) /\
  steps_to b (store g) (store (handleDeleteBucketLifecycle c b g).2).
Proof.
  repeat split.
  - unfold handlePutBucketVersioning. destruct (Body r ≫= decode_versioning); [|apply steps_refl]. destruct (negb _); [apply steps_refl|by_command].
  - unfold handlePutBucketQuota. destruct (Atoi _); [|apply steps_refl]. destruct (_ <? 0); [apply steps_refl|by_command].
  - unfold handlePutBucketGeoPlacement. destruct (Body r ≫= decode_geo); [by_command|apply steps_refl].
  - unfold handlePutBucketTriggers. destruct (Body r ≫= decode_triggers); [|apply steps_refl]. destruct (existsb _ _); [apply steps_refl|by_command].
  - unfold handlePutBucketNotifications. destruct (Body r ≫= decode_notifications); [|apply steps_refl]. destruct (existsb _ _); [apply steps_refl|by_command].
  - unfold handlePutBucketLifecycle. destruct (Body r ≫= decode_lifecycle); [|apply steps_refl]. destruct (existsb _ _); [apply steps_refl|by_command].
  - unfold handleDeleteBucketLifecycle. by_command.
Qed.

(** *** Objects *)

Lemma steps_handleCopyObject c r b k src g : steps_to b (store g) (store (handleCopyObject c r b k src g).2).
Proof.
  unfold handleCopyObject. destruct (copy_source src) as [[[sb sk] sv]|]; [|apply steps_refl].
  destruct (GetObject c sb sk sv (store g)) as [[[] o]|[reader obj]]; try apply steps_refl.
  destruct (PutObject c b k _ _ _ (store g)) as [res s'] eqn:E. destruct res; cbn [snd store with_store send]; store_op c (OPut b k (stream reader) (Size obj) (ContentType obj)).
Qed.

Lemma steps_handlePutObject c r b k g : steps_to b (store g) (store (handlePutObject c r b k g).2).
Proof.
  unfold handlePutObject. destruct (negb _); [apply steps_handleCopyObject|]. destruct (outdated _ _ _ _ _); [apply steps_refl|]. destruct (duplicate _ _ _ _); [apply steps_refl|].
  destruct (PutObject (put_call r c) b k _ _ _ (store g)) as [res s'] eqn:E. destruct res; cbn [snd store with_store send]; store_op (put_call r c) (OPut b k (Body r) (ContentLength r) (content_type r)).
Qed.

Lemma steps_handleDeleteObject c r b k g : steps_to b (store g) (store (handleDeleteObject c r b k g).2).
Proof.
  unfold handleDeleteObject. destruct (DeleteObject c b k _ (store g)) as [res s'] eqn:E.
  destruct res as [[]|]; cbn [snd store with_store send]; store_op c (ODelete b k (values_Get (Query r) "versionId")).
Qed.

Lemma steps_batch_delete cs r b quiet objs i acc : steps_to b (store acc.2) (store (batch_delete cs r b quiet i objs acc).2).
Proof.
  revert i acc. induction objs as [|[k v] objs IH]; intros i acc; [apply steps_refl|]. cbn [batch_delete]. eapply steps_trans; [|apply IH].
  destruct acc as [[deleted errors] g]. unfold batch_delete_one. cbn [snd]. destruct (DeleteObject (cs i) b k v (store g)) as [res s'] eqn:E.
  destruct res; cbn [snd store with_store send]; store_op (cs i) (ODelete b k v).
Qed.

Lemma steps_handleBatchDelete cs r b g : steps_to b (store g) (store (handleBatchDelete cs r b g).2).
Proof.
  unfold handleBatchDelete. destruct (Body r ≫= decode_delete) as [req|]; [|apply steps_refl].
  pose proof (steps_batch_delete cs r b (Quiet req) (del_Objects req) 0 ([], [], g)) as H. by destruct (batch_delete _ _ _ _ _ _ _) as [[d errs] g'].
Qed.

Lemma steps_handleTagging c r b k g :
  steps_to b (store g) (store (handlePutObjectTagging c r b k g).2) /\ steps_to b (store g) (store (handleDeleteObjectTagging c r b k g).2).
Proof.
  split.
  - unfold handlePutObjectTagging. destruct (Body r ≫= decode_tagging) as [tagSet|]; [|apply steps_refl].
    destruct (PutObjectTagging c b k _ _ (store g)) as [res s'] eqn:E. cbn [snd store with_store].
    store_op c (OPutTags b k (values_Get (Query r) "versionId") (fold_left (fun m t => <[t.1 := t.2]> m) tagSet ∅)).
  - unfold handleDeleteObjectTagging. destruct (DeleteObjectTagging c b k _ (store g)) as [res s'] eqn:E. cbn [snd store with_store].
    store_op c (ODeleteTags b k (values_Get (Query r) "versionId")).
Qed.

Lemma steps_handleLockObject c r b k g : steps_to b (store g) (store (handleLockObject c r b k g).2).
Proof.
  unfold handleLockObject. case_bool_decide; [apply steps_refl|]. destruct (time_Parse RFC3339 _) as [until|]; [|apply steps_refl]. destruct (until <=? _); [apply steps_refl|].
  destruct (LockObject b k _ until (store g)) as [res s'] eqn:E. cbn [snd store with_store]. store_op c (OLock b k (values_Get (Query r) "versionId") until).
Qed.

Lemma steps_uploads c r b k g :
  steps_to b (store g) (store (handleInitiateMultipart c b k g).2) /\ steps_to b (store g) (store (handleUploadPart c r b k g).2) /\
  steps_to b (store g) (store (handleCompleteMultipart c r b k g).2) /\ steps_to b (store g) (store (handleAbortMultipart r b k g).2).
Proof.
  repeat split.
  - unfold handleInitiateMultipart. destruct (InitiateMultipartUpload c b k (store g)) as [res s'] eqn:E. cbn [snd store with_store]. store_op c (OInitiate b k).
  - unfold handleUploadPart. destruct (Atoi _) as [n|]; [|apply steps_refl]. destruct (n <=? 0); [apply steps_refl|].
    destruct (UploadPart c b k _ n _ _ (store g)) as [res s'] eqn:E. cbn [snd store with_store]. store_op c (OUpload b k (values_Get (Query r) "uploadId") n (Body r) (ContentLength r)).
  - unfold handleCompleteMultipart. destruct (Body r ≫= decode_parts) as [req|]; [|apply steps_refl].
    destruct (CompleteMultipartUpload c b k _ _ _ (store g)) as [res s'] eqn:E. cbn [snd store with_store].
    store_op c (OComplete b k (values_Get (Query r) "uploadId") ((fun p : Z * string => mkPart p.1 (trim_quotes p.2)) <$> req) (content_type r)).
  - unfold handleAbortMultipart. destruct (AbortMultipartUpload b k _ (store g)) as [res s'] eqn:E. cbn [snd store with_store].
    store_op c (OAbort b k (values_Get (Query r) "uploadId")).
Qed.

(** *** Shards *)

Lemma steps_write_shards c net cl b k v n i shards owners s : steps_to b s (write_shards c net cl b k v n i shards owners s).2.
Proof.
  revert i owners s. induction shards as [|data shards IH]; intros i [|node owners] s; try apply steps_refl. cbn [write_shards].
  destruct (writeShardToNode c net cl b k v n i data node s) as [ok s1] eqn:E. specialize (IH (S i) owners s1). destruct (write_shards _ _ _ _ _ _ _ _ _ _ s1) as [f s2].
  eapply steps_trans; [|exact IH]. revert E. unfold writeShardToNode. case_bool_decide.
  - destruct (PutObject _ b (shard_key k i) _ _ _ s) as [res s'] eqn:E. intros [= _ <-]. store_op (with_version v c) (OPut b (shard_key k i) (Some data) (Z.of_nat (length data)) (shard_content_type n)).
  - destruct (GetNodeAddress cl node); intros [= _ <-]; apply steps_refl.
Qed.

Lemma steps_erasure c net cl r b k g :
  steps_to b (store g) (store (handlePutObjectErasure c net cl r b k g).2) /\ steps_to b (store g) (store (handleDeleteObjectErasure c cl r b k g).2).
Proof.
  split.
  - unfold handlePutObjectErasure. destruct (Body r) as [data|]; [|apply steps_refl]. destruct (rs_encode _ _ data) as [|shards]; [apply steps_refl|].
    destruct (shard_owners cl b k g) as [|owners]; [apply steps_refl|]. pose proof (steps_write_shards c net cl b k (erasure_version c r cl) (Z.of_nat (length data)) 0 shards owners (store g)) as H.
    destruct (write_shards _ _ _ _ _ _ _ _ _ _ (store g)) as [f s']. destruct (_ <? _); exact H.
  - unfold handleDeleteObjectErasure. destruct (shard_owners cl b k g) as [|owners]; [apply steps_refl|]. cbn [snd].
    generalize (imap pair (take (Z.to_nat (dataShards g + parityShards g)) owners)) as l. intros l. revert g. induction l as [|[i node] l IH]; intros g; [apply steps_refl|].
    cbn [fold_left]. eapply steps_trans; [|apply IH]. unfold deleteShardFromNode. cbn [fst snd]. case_bool_decide; [|destruct (GetNodeAddress cl node); apply steps_refl].
    destruct (DeleteObject c b (shard_key k i) _ (store g)) as [res s'] eqn:E. cbn [snd store with_store]. store_op c (ODelete b (shard_key k i) (values_Get (Query r) "versionId")).
Qed.

(** ** The whole server *)

Ltac split_ifs := repeat match goal with |- context [if ?b then _ else _] => destruct b end.

Lemma steps_bucket_level e r b g a g' : content_addressable r = false -> bucket_level e r b g = Some (a, g') -> steps_to b (store g) (store g').
Proof.
  intros Hc. pose proof (steps_bucket_settings (calls e 0) r b g) as (H1 & H2 & H3 & H4 & H5 & H6 & H7).
  pose proof (steps_handleCreateBucket (calls e 0) r b g Hc) as H8. pose proof (steps_handleDeleteBucket (calls e 0) b g) as H9. pose proof (steps_handleBatchDelete (calls e) r b g) as H10.
  unfold bucket_level, read_only, acted. split_ifs; intros [= <- <-]; first [done|apply steps_refl].
Qed.

Lemma steps_object_level e r b k g a g' : object_level e r b k g = Some (a, g') -> steps_to b (store g) (store g').
Proof.
  pose proof (steps_uploads (calls e 0) r b k g) as (H1 & H2 & H3 & H4). pose proof (steps_handleTagging (calls e 0) r b k g) as (H5 & H6).
  pose proof (steps_handleLockObject (calls e 0) r b k g) as H7. pose proof (steps_handlePutObject (calls e 0) r b k g) as H8. pose proof (steps_handleDeleteObject (calls e 0) r b k g) as H9.
  unfold object_level, read_only, acted. split_ifs; intros [= <- <-]; first [done|apply steps_refl].
Qed.

Lemma steps_dispatch e r g a g' : content_addressable r = false -> dispatch e r g = Some (a, g') -> steps_to (target r).1 (store g) (store g').
Proof.
  intros Hc. unfold dispatch. destruct (target r) as [b k]. cbn [fst].
  set (local := if bool_decide (b = "") then _ else _).
  assert (Hl : local = Some (a, g') -> steps_to b (store g) (store g')).
  { unfold local, read_only. destruct (bool_decide (b = "")); [destruct (bool_decide (Method r = "GET")); intros [= <- <-]; apply steps_refl|].
    destruct (bool_decide (k = "")); [by apply steps_bucket_level|apply steps_object_level]. }
  destruct (_ || _ || _); [done|]. destruct (cluster g) as [cl|]; [|done]. destruct (erasureEnabled g).
  - destruct (steps_erasure (calls e 0) (network e) cl r b k g) as [H1 H2]. unfold read_only, acted.
    split_ifs; try done; intros [= <- <-]; first [done|apply steps_refl].
  - destruct (route b k g); [done|..]; intros [= <- <-]; apply steps_refl.
Qed.

Lemma limited_store t r g : store (limited t r g).2 = store g.
Proof. unfold limited. destruct (rateLimiter g) as [l|]; [|done]. destruct (limiter_Allow _ _ l) as [[] l']; [done|]. by destruct (RetryAfterSec _ _ l'). Qed.

Lemma log_access_store t r a g : store (log_access t r a g) = store g.
Proof. unfold log_access. destruct (parsePath (Path r)). by destruct (_ || _). Qed.

(** *** Jobs *)

Lemma proposed_jobs c cmd fb g : jobs (proposeOrExecute c cmd fb g).2 = jobs g.
Proof. unfold proposeOrExecute, Propose. repeat case_match; by simplify_eq. Qed.

Lemma changed_jobs st x : jobs (changed st x).2 = jobs x.2.
Proof. unfold changed. by destruct x as [[]]. Qed.

Lemma batch_delete_jobs cs r b quiet objs i acc : jobs (batch_delete cs r b quiet i objs acc).2 = jobs acc.2.
Proof.
  revert i acc. induction objs as [|[k v] objs IH]; intros i acc; [done|]. cbn [batch_delete]. rewrite IH.
  destruct acc as [[deleted errors] g]. unfold batch_delete_one. cbn. destruct (DeleteObject _ _ _ _ _) as [[] ?]; done.
Qed.

Lemma deleted_shards_jobs c cl b k v l g : jobs (fold_left (deleteShardFromNode c cl b k v) l g) = jobs g.
Proof.
  revert g. induction l as [|[i node] l IH]; intros g; [done|]. cbn [fold_left]. rewrite IH. unfold deleteShardFromNode. cbn. repeat (case_match || case_bool_decide); done.
Qed.

Ltac jobs_of :=
  repeat match goal with
  | |- jobs ?x = jobs ?x => reflexivity
  | |- context [changed _ _] => rewrite changed_jobs
  | |- context [proposeOrExecute ?c ?cmd ?fb ?g] =>
      first [rewrite proposed_jobs | let H := fresh in pose proof (proposed_jobs c cmd fb g) as H; destruct (proposeOrExecute c cmd fb g) as [? ?]; cbn [snd] in H; rewrite <- H]
  | _ => case_match || case_bool_decide
  end; try done.

Lemma bucket_handlers_jobs c r b g :
  jobs (handleCreateBucket c r b g).2 = jobs g /\ jobs (handleDeleteBucket c b g).2 = jobs g /\ jobs (handlePutBucketVersioning c r b g).2 = jobs g /\
  jobs (handlePutBucketQuota c r b g).2 = jobs g /\ jobs (handlePutBucketGeoPlacement c r b g).2 = jobs g /\ jobs (handlePutBucketTriggers c r b g).2 = jobs g /\
  jobs (handlePutBucketNotifications c r b g).2 = jobs g /\ jobs (handlePutBucketLifecycle c r b g).2 = jobs g /\ jobs (handleDeleteBucketLifecycle c b g).2 = jobs g.
Proof.
  repeat split; unfold handleCreateBucket, handleDeleteBucket, handlePutBucketVersioning, handlePutBucketQuota, handlePutBucketGeoPlacement, handlePutBucketTriggers,
    handlePutBucketNotifications, handlePutBucketLifecycle, handleDeleteBucketLifecycle; jobs_of.
Qed.

Lemma object_handlers_jobs c r b k g :
  jobs (handlePutObject c r b k g).2 = jobs g /\ jobs (handleDeleteObject c r b k g).2 = jobs g /\ jobs (handlePutObjectTagging c r b k g).2 = jobs g /\
  jobs (handleDeleteObjectTagging c r b k g).2 = jobs g /\ jobs (handleLockObject c r b k g).2 = jobs g /\ jobs (handleInitiateMultipart c b k g).2 = jobs g /\
  jobs (handleUploadPart c r b k g).2 = jobs g /\ jobs (handleCompleteMultipart c r b k g).2 = jobs g /\ jobs (handleAbortMultipart r b k g).2 = jobs g.
Proof.
  repeat split; unfold handlePutObject, handleCopyObject, handleDeleteObject, handlePutObjectTagging, handleDeleteObjectTagging, handleLockObject, handleInitiateMultipart,
    handleUploadPart, handleCompleteMultipart, handleAbortMultipart; jobs_of.
Qed.

Lemma dispatch_jobs e r g a g' : dispatch e r g = Some (a, g') -> jobs g' = jobs g.
Proof.
  unfold dispatch. destruct (target r) as [b k].
  destruct (bucket_handlers_jobs (calls e 0) r b g) as (B1 & B2 & B3 & B4 & B5 & B6 & B7 & B8 & B9).
  destruct (object_handlers_jobs (calls e 0) r b k g) as (O1 & O2 & O3 & O4 & O5 & O6 & O7 & O8 & O9).
  assert (B10 : jobs (handleBatchDelete (calls e) r b g).2 = jobs g).
  { unfold handleBatchDelete. destruct (Body r ≫= decode_delete) as [req|]; [|done].
    pose proof (batch_delete_jobs (calls e) r b (Quiet req) (del_Objects req) 0 ([], [], g)) as H. by destruct (batch_delete _ _ _ _ _ _ _) as [[d errs] g1]. }
  set (local := if bool_decide (b = "") then _ else _).
  assert (Hl : local = Some (a, g') -> jobs g' = jobs g).
  { unfold local, bucket_level, object_level, read_only, acted. split_ifs; intros H; simplify_eq; done. }
  destruct (_ || _ || _); [done|]. destruct (cluster g) as [cl|]; [|done]. destruct (erasureEnabled g).
  - assert (E1 : jobs (handlePutObjectErasure (calls e 0) (network e) cl r b k g).2 = jobs g) by (unfold handlePutObjectErasure; jobs_of).
    assert (E2 : jobs (handleDeleteObjectErasure (calls e 0) cl r b k g).2 = jobs g).
    { unfold handleDeleteObjectErasure. destruct (shard_owners cl b k g) as [|owners]; [done|]. cbn [snd]. apply deleted_shards_jobs. }
    unfold read_only, acted. split_ifs; try done; intros H; simplify_eq; done.
  - destruct (route b k g); [done|..]; intros [= <- <-]; done.
Qed.

(** What is left of a request that is refused, or only answered: its line in
    the access log. *)
Definition is_log (x : Effect_) : bool := match x with LogAccess _ => true | _ => false end.

Record inert (g g' : Gateway) : Prop := {
  inert_store : store g' = store g;
  inert_jobs : jobs g' = jobs g;
  inert_sent : forall x, x ∈ sent g' -> x ∈ sent g \/ is_log x = true }.

Lemma inert_refl g : inert g g.
Proof. split; auto. Qed.

Lemma limited_inert t r g : inert g (limited t r g).2.
Proof. unfold limited. destruct (rateLimiter g) as [l|]; [|apply inert_refl]. destruct (limiter_Allow _ _ l) as [[] l']; [split; auto|]. destruct (RetryAfterSec _ _ l'). split; auto. Qed.

Lemma log_access_inert t r a g g' : inert g g' -> inert g (log_access t r a g').
Proof.
  intros [H1 H2 H3]. unfold log_access. destruct (parsePath (Path r)). destruct (_ || _); [by split|]. split; [done|done|]. cbn. intros x. rewrite elem_of_app, list_elem_of_singleton.
  intros [Hx| ->]; [by apply H3|by right].
Qed.

(** Neither the restore of a backup nor a batch job. *)
Definition no_admin (r : Request) : Prop := is_endpoint "/admin/backup/restore" "POST" r = false /\ is_endpoint "/admin/batch" "POST" r = false.

Lemma unguarded_inert e r g a g' : no_admin r -> unguarded e r g = Some (Some (a, g')) -> inert g g'.
Proof.
  intros [Hr Hb]. unfold unguarded. rewrite Hr, Hb. unfold read_only, acted, handleConsoleLogin, handleConsoleLogout, handleConsoleSession.
  destruct (is_endpoint "/metrics" "GET" r); [done|]. split_ifs; try done.
  all: try (intros [= <- <-]; repeat case_match; split; auto).
Qed.

(** The request of a batch job, and its buckets. *)
Definition batch_bucket (r : Request) (b : string) : Prop :=
  is_endpoint "/admin/batch" "POST" r = true /\ exists req, Body r ≫= decode_batch = Some req /\ (b = q_Bucket req \/ q_Params req !! "target_bucket" = Some b).
Definition job_bucket (j : BatchJob) (b : string) : Prop := b = JobBucket j \/ Params j !! "target_bucket" = Some b.

Lemma unguarded_effect e r g a g' : is_endpoint "/admin/backup/restore" "POST" r = false -> unguarded e r g = Some (Some (a, g')) ->
  store g' = store g /\ forall id j b, jobs g' !! id = Some j -> job_bucket j b -> batch_bucket r b \/ exists j', jobs g !! id = Some j' /\ job_bucket j' b.
Proof.
  intros Hr H. destruct (is_endpoint "/admin/batch" "POST" r) eqn:Eb.
  - assert (Hp : Path r = "/admin/batch" /\ Method r = "POST") by (unfold is_endpoint in Eb; apply andb_prop in Eb as [?%bool_decide_eq_true ?%bool_decide_eq_true]; done).
    destruct Hp as [Hp Hm]. unfold unguarded, is_endpoint in H. rewrite Hp, Hm in H. cbn in H. injection H as <- <-. unfold handleCreateBatchJob, SubmitJob.
    destruct (Body r ≫= decode_batch) as [req|] eqn:Ed; [|split; [done|]; cbn; eauto]. destruct (_ || _ || _); [split; [done|]; cbn; eauto|].
    split; [done|]. cbn. intros id j b Hj Hb. apply lookup_insert_Some in Hj as [[<- <-]|[_ Hj]]; [|eauto]. left. unfold batch_bucket. eauto.
  - destruct (unguarded_inert e r g a g' (conj Hr Eb) H) as [H1 H2 _]. split; [done|]. rewrite H2. eauto.
Qed.

(** What [guarded] lets through. *)
Lemma guarded_passed e r g a g' : guarded e r g = Some (a, g') ->
  inert g g' \/ (VerifyRequest (now e) (auth g) r = true /\ checkAuthorization (now e) r g = true /\
    (limited (now e) r g).1 = None /\ dispatch e r (limited (now e) r g).2 = Some (a, g')).
Proof.
  unfold guarded, read_only. case_bool_decide as Hopt; [intros [= <- <-]; left; apply inert_refl|].
  destruct (VerifyRequest _ _ r); cbn [negb]; [|intros [= <- <-]; left; apply inert_refl].
  destruct (checkAuthorization _ r g); cbn [negb]; [|intros [= <- <-]; left; apply inert_refl]. pose proof (limited_inert (now e) r g) as Hs.
  destruct (limited (now e) r g) as [[resp|] g1] eqn:E; cbn [snd] in Hs; [intros [= <- <-]; by left|]. intros Hd. right. cbn [fst snd]. by split_and!.
Qed.

(** A request is inert, or let through. *)
Lemma ServeHTTP_inert e r g a g' : no_admin r -> ServeHTTP e r g = Some (a, g') ->
  inert g g' \/ (VerifyRequest (now e) (auth g) r = true /\ checkAuthorization (now e) r g = true).
Proof.
  intros Hr. unfold ServeHTTP. destruct (mock g); [intros [= <- <-]; left; apply inert_refl|]. destruct (unguarded e r g) as [result|] eqn:E.
  - intros ->. left. by eapply unguarded_inert.
  - destruct (guarded e r g) as [[a1 g1]|] eqn:EG; [|done]. intros [= <- <-]. apply guarded_passed in EG as [EG|(H1 & H2 & _)]; [left; by apply log_access_inert|by right].
Qed.

(** Names of headers are tokens, and the restore of a backup is left out. *)
Definition ordinary (r : Request) : Prop := content_addressable r = false /\ is_endpoint "/admin/backup/restore" "POST" r = false.

(** Every request is a run of operations of the store on its bucket, and the
    jobs are as before, but for one of a batch request. *)
Lemma request_steps e r g a g' : ordinary r -> ServeHTTP e r g = Some (a, g') ->
  steps_to (target r).1 (store g) (store g') /\
  forall id j b, jobs g' !! id = Some j -> job_bucket j b -> batch_bucket r b \/ exists j', jobs g !! id = Some j' /\ job_bucket j' b.
Proof.
  intros [Hc Hr]. unfold ServeHTTP. destruct (mock g); [intros [= <- <-]; split; [apply steps_refl|eauto]|]. destruct (unguarded e r g) as [result|] eqn:E.
  - intros ->. destruct (unguarded_effect e r g a g' Hr E) as [-> H]. split; [apply steps_refl|exact H].
  - destruct (guarded e r g) as [[a1 g1]|] eqn:EG; [|done]. intros [= <- <-]. rewrite log_access_store.
    assert (Hlog : jobs (log_access (now e) r a1 g1) = jobs g1) by (unfold log_access; destruct (parsePath (Path r)); by destruct (_ || _)). rewrite Hlog.
    apply guarded_passed in EG as [[H1 H2 _]|(_ & _ & _ & Hd)]; [rewrite H1, H2; split; [apply steps_refl|eauto]|].
    rewrite (dispatch_jobs _ _ _ _ _ Hd), (inert_jobs _ _ (limited_inert (now e) r g)). split; [|eauto].
    apply steps_dispatch in Hd; [|done]. by rewrite limited_store in Hd.
Qed.

(** *** Goroutines *)

Lemma steps_rewrite c b k t ct s : steps_to t s (rewrite_object c b k t ct s).2.
Proof.
  unfold rewrite_object. destruct (GetObject c b k "" s) as [|[reader ov]]; [apply steps_refl|]. destruct (PutObject c t k _ _ _ s) as [res s'] eqn:E. cbn [snd].
  store_op c (OPut t k (stream reader) (Size ov) (default (ContentType ov) ct)).
Qed.

Lemma steps_processObject c op b k params s : exists t, (t = b \/ params !! "target_bucket" = Some t) /\ steps_to t s (processObject c op b k params s).2.
Proof.
  unfold processObject. cbv zeta. case_bool_decide; [|case_bool_decide; [|case_bool_decide; [|case_bool_decide]]].
  - case_bool_decide as Ht; [exists b; split; [by left|apply steps_refl]|]. destruct (params !! "target_bucket") as [t|] eqn:Et; [|done]. exists t. split; [by right|]. cbn [default]. apply steps_rewrite.
  - exists b. split; [by left|]. unfold version_result. destruct (DeleteObject c b k "" s) as [res s'] eqn:E. cbn [snd]. store_op c (ODelete b k "").
  - exists b. split; [by left|]. destruct (decode_tags _) as [tags|]; [|apply steps_refl]. unfold version_result. destruct (PutObjectTagging c b k "" tags s) as [res s'] eqn:E. cbn [snd].
    store_op c (OPutTags b k "" tags).
  - exists b. split; [by left|]. case_bool_decide; [apply steps_refl|]. apply steps_rewrite.
  - exists b. split; [by left|apply steps_refl].
Qed.

Lemma job_step_steps c j s j' s' : job_step c j s = Some (j', s') -> (forall b, job_bucket j' b <-> job_bucket j b) /\ exists b, job_bucket j b /\ steps_to b s s'.
Proof.
  unfold job_step. case_bool_decide; [intros [= <- <-]; split; [done|]; exists (JobBucket j); split; [by left|apply steps_refl]|]. case_bool_decide; [|done].
  destruct (Objects j !! _) as [key|]; [|intros [= <- <-]; split; [done|]; exists (JobBucket j); split; [by left|apply steps_refl]].
  unfold job_object. destruct (steps_processObject c (JobOperation j) (JobBucket j) key (Params j) s) as (t & Ht & Hs). destruct (processObject _ _ _ _ _ s) as [ok s1].
  intros [= <- <-]. split; [done|]. by exists t.
Qed.

(** A step of a goroutine: on the log bucket, or on a bucket of its job. *)
Lemma background_steps c requestID i g g' : background c requestID i g = Some g' ->
  (exists b, (b = log_bucket \/ exists id j, jobs g !! id = Some j /\ job_bucket j b) /\ steps_to b (store g) (store g')) /\
  forall id j b, jobs g' !! id = Some j -> job_bucket j b -> exists j', jobs g !! id = Some j' /\ job_bucket j' b.
Proof.
  unfold background. destruct (sent g !! i) as [[]|]; try done.
  - intros [= <-]. split; [|cbn; eauto]. exists log_bucket. split; [by left|]. cbn [store with_sent with_store]. destruct (CreateBucket c log_bucket (store g)) as [res s'] eqn:E. cbn [snd]. store_op c (OCreateBucket log_bucket).
  - intros [= <-]. split; [|cbn; eauto]. exists log_bucket. split; [by left|]. cbn [store with_sent with_store]. unfold put_log. cbv zeta.
    destruct (PutObject c log_bucket _ _ _ _ (store g)) as [res s'] eqn:E. cbn [snd].
    store_op c (OPut log_bucket ("logs/" +:+ FormatInt (l_Timestamp entry) +:+ "-" +:+ requestID +:+ ".json") (Some (encode_log entry)) (Z.of_nat (length (encode_log entry))) "application/json").
  - destruct (jobs g !! jobID) as [j|] eqn:Ej; [|done]. intros [= <-]. destruct (job_step c j (store g)) as [[j1 s1]|] eqn:Es.
    + apply job_step_steps in Es as (Hb & b & Hjb & Hs). split; [exists b; cbn; eauto 6|]. cbn. intros id j2 b2 Hj2 Hb2. apply lookup_insert_Some in Hj2 as [[<- <-]|[_ Hj2]]; [|eauto].
      exists j. split; [done|]. by apply Hb.
    + cbn. split; [|eauto]. exists log_bucket. split; [by left|apply steps_refl].
Qed.

(** ** The S3 interface and the store *)

(** The buckets that a run may touch: those that its requests name, in their
    path or as a batch job, those of the jobs there were, and the access log. *)
Inductive named (evs : list NodeEvent) (g : Gateway) (b : string) : Prop :=
| named_path e r : NRequest e r ∈ evs -> b = (target r).1 -> named evs g b
| named_batch e r : NRequest e r ∈ evs -> batch_bucket r b -> named evs g b
| named_job id j : jobs g !! id = Some j -> job_bucket j b -> named evs g b
| named_log : b = log_bucket -> named evs g b.

Lemma named_later ev evs g g1 b : (forall e r, ev = NRequest e r -> ordinary r) -> node_step ev g = Some g1 -> named evs g1 b -> named (ev :: evs) g b.
Proof.
  intros Ho Hs [e r Hin Hb|e r Hin Hb|id j Hj Hb|Hb]; [eapply named_path; [by right|done]|eapply named_batch; [by right|done]| |by apply named_log].
  destruct ev as [e r|c requestID i]; cbn in Hs.
  - destruct (ServeHTTP e r g) as [[a g2]|] eqn:E; [|done]. injection Hs as <-. destruct (request_steps e r g a g2 (Ho e r eq_refl) E) as [_ H].
    destruct (H _ _ _ Hj Hb) as [H1|(j' & H1 & H2)]; [eapply named_batch; [by left|done]|by eapply named_job].
  - apply background_steps in Hs as [_ H]. destruct (H _ _ _ Hj Hb) as (j' & H1 & H2). by eapply named_job.
Qed.

Lemma node_step_named ev evs g g1 : (forall e r, ev = NRequest e r -> ordinary r) -> node_step ev g = Some g1 ->
  exists b, named (ev :: evs) g b /\ steps_to b (store g) (store g1).
Proof.
  intros Ho Hs. destruct ev as [e r|c requestID i]; cbn in Hs.
  - destruct (ServeHTTP e r g) as [[a g2]|] eqn:E; [|done]. injection Hs as <-. exists (target r).1. split; [eapply named_path; [by left|done]|].
    by destruct (request_steps e r g a g2 (Ho e r eq_refl) E).
  - apply background_steps in Hs as [(b & [->|(id & j & H1 & H2)] & Hb) _]; exists b || exists log_bucket; (split; [|done]); [by apply named_log|by eapply named_job].
Qed.

(** C8: the S3 interface is a client of the store and nothing more.  Whatever
    requests a node gets and its goroutines (the lines of the access log, the
    batch jobs) do in between, in whatever configuration (mock, consensus,
    cluster, shards, with or without authentication), the store it ends with
    is the store it began with after a sequence of the operations [op], and
    every one of these is on a bucket that one of the requests names, in its
    path or as a batch job, on that of a job from before, or on the bucket of
    the access log.  So what is proved of runs of the store (contents, locks,
    quotas) is proved of requests.  The restore of a backup is left out, names
    of headers are tokens (so that no bucket is made content-addressable), and
    the metrics, the pipeline and the select engine are not modelled: a run
    with them has no result. *)
Theorem s3_refines_store evs g g' : (forall e r, NRequest e r ∈ evs -> ordinary r) -> node_run evs g = Some g' ->
  exists steps, Forall (fun co => exists b, op_bucket co.2 = Some b /\ named evs g b) steps /\ forall h, (run steps h (store g)).2 = store g'.
Proof.
  revert g. induction evs as [|ev evs IH]; intros g Ho H; cbn in H.
  { injection H as <-. by exists []. }
  destruct (node_step ev g) as [g1|] eqn:E; [|done].
  assert (Hev : forall e r, ev = NRequest e r -> ordinary r) by (intros e r ->; eapply Ho; by left).
  destruct (node_step_named ev evs g g1 Hev E) as (b & Hb & l1 & F1 & R1).
  destruct (IH g1) as (l2 & F2 & R2); [intros e r Hin; eapply Ho; by right|done|]. exists (l1 ++ l2). split.
  - apply Forall_app. split; (eapply Forall_impl; [eassumption|]); [intros co Hco; by exists b|].
    intros co (b2 & H1 & H2). exists b2. split; [done|]. by eapply named_later.
  - intros h. rewrite run_app. by rewrite R1, R2.
Qed.

(** ** Permission *)


(** ** What was put is what a get returns *)

(** Content addressing is off. *)
Definition by_name (b : string) (s : LocalStore) : Prop := forall B, buckets s !! b = Some B -> ContentAddressable B = false.

Lemma put_then_read c b k reader size ct s v s' c' :
  by_name b s -> PutObject c b k reader size ct s = (inr v, s') -> ctx_timeTravel c' = None ->
  exists p, reader = Some p /\ read_object c' b k "" s' = inr (p, v) /\ Size v = Z.of_nat (length p) /\ ContentType v = ct.
Proof.
  intros Hn. unfold PutObject. destruct reader as [p|]; [|done]. destruct (_ && _); [done|]. unfold readBucketMeta. destruct (buckets s !! b) as [B|] eqn:EB; [|done].
  rewrite (Hn B EB). cbn [andb]. rewrite orb_false_r. destruct (overwrite_locked _ _ _ _ _); [done|]. destruct (quota_exceeded _ _ _ _ _); [done|].
  set (vid := match ctx_versionID c with Some v => v | None => _ end). destruct (MkdirAll _ _) as [f1|] eqn:Em; [|done]. destruct (WriteFile _ _ f1) as [f2|] eqn:Ew; [|done].
  set (ver := mkVer vid _ _ _ _ _ _ _ _ _ _ _ _). intros [= <- <-] Hc. exists p. split; [done|]. split; [|done].
  set (s1 := with_fs f2 (with_fs f1 s)). set (s2 := add_version s1 b k _ ver _).
  assert (Hr : readable s2 b k ver p).
  { eapply (readable_written _ _ _ _ _ (nonce_of c)); [apply nonce_length|done|]. change (encode_payload s2) with (encode_payload s).
    change (getObjectDataPath s2 b k (VersionID ver)) with (getObjectDataPath s b k vid). subst s2. unfold add_version. cbn [fs writeObjectMeta with_objects with_fs].
    change (fs s1) with f2. assert (Hf2 : ReadFile (getObjectDataPath s b k vid) f2 = Some (encode_payload s (nonce_of c) (Compressed ver) p)).
    { rewrite (WriteFile_files _ _ _ _ _ Ew). by rewrite decide_True. }
    case_match eqn:Eb; [|done]. apply andb_prop in Eb as [_ Eb]. apply negb_true_iff, bool_decide_eq_false in Eb. rewrite Remove_files; [done|]. intros E. by apply Eb. }
  unfold read_object, GetObject, readBucketMeta, readObjectMeta, target_version. rewrite Hc.
  unfold writeWAL. set (s3 := if is_restore c then s2 else _).
  assert (Hs3 : buckets s3 = buckets s /\ objects s3 = objects s2 /\ open_version s3 b k ver = open_version s2 b k ver) by (subst s3; by destruct (is_restore c)).
  destruct Hs3 as (-> & -> & Ho). rewrite EB. subst s2. unfold add_version in *. cbn [objects writeObjectMeta with_objects] in *. rewrite lookup_insert_eq.
  cbn [Versions latest_of List.find IsLatest ver]. rewrite bool_decide_true by done. cbn [IsDeleteMarker ver]. rewrite Ho. unfold readable in Hr.
  destruct (open_version _ b k ver); [done|]. by rewrite Hr.
Qed.

(** An object as such: no part, lock, tags, copy, or replica. *)
Definition plain_put (r : Request) : Prop :=
  Method r = "PUT" /\ Has r "uploadId" && Has r "partNumber" = false /\ Has r "lock" = false /\ Has r "tagging" = false /\
  Get r "x-amz-copy-source" = "" /\ replicated r = false.

(** The latest version of an object. *)
Definition plain_get (r : Request) : Prop :=
  Method r = "GET" /\ Has r "tagging" = false /\ values_Get (Query r) "at" = "" /\ values_Get (Query r) "versionId" = "".

(** The request is let through, and this node serves it. *)
Definition served_here (e : Occasion) (r : Request) (g : Gateway) : Prop :=
  mock g = false /\ unguarded e r g = None /\ VerifyRequest (now e) (auth g) r = true /\ checkAuthorization (now e) r g = true /\
  (limited (now e) r g).1 = None /\
  (cluster g = None \/ replicated r = true \/ (erasureEnabled g = false /\ route (target r).1 (target r).2 g = Here)).

Lemma limited_config t r g :
  let g1 := (limited t r g).2 in cluster g1 = cluster g /\ erasureEnabled g1 = erasureEnabled g /\ replicationFactor g1 = replicationFactor g.
Proof. unfold limited. destruct (rateLimiter g) as [l|]; [|done]. destruct (limiter_Allow _ _ l) as [[] l']; [done|]. by destruct (RetryAfterSec _ _ l'). Qed.

Lemma limited_route t r b k g : route b k (limited t r g).2 = route b k g.
Proof. destruct (limited_config t r g) as (H1 & _ & H3). unfold route, owners_of. by rewrite H1, H3. Qed.

(** A refusal is no success. *)
Lemma limited_refusal t r g resp : (limited t r g).1 = Some resp -> Status resp = 429.
Proof.
  unfold limited. destruct (rateLimiter g) as [l|]; [|done]. destruct (limiter_Allow _ _ l) as [[] l']; [done|]. destruct (RetryAfterSec _ _ l').
  intros [= <-]. cbn. unfold writeErrorCtx. by destruct (_ || _).
Qed.

Lemma put_error_status e : Status (put_error e) <> 200.
Proof. by destruct e. Qed.

(** The object level is reached by requests that this node serves. *)
Lemma dispatch_here e r b k g : target r = (b, k) -> b <> "" -> k <> "" ->
  (cluster g = None \/ replicated r = true \/ (erasureEnabled g = false /\ route b k g = Here)) -> dispatch e r g = object_level e r b k g.
Proof.
  intros Ht Hb Hk H. unfold dispatch. rewrite Ht, !bool_decide_false by done. cbn [orb]. destruct H as [H|[H|[H H0]]]; rewrite H; [by destruct (replicated r)|done|rewrite H0].
  destruct (replicated r); [done|]. by destruct (cluster g).
Qed.

(** An accepted put has put the body into the store. *)
Lemma put_accepted e r b k g resp g1 : target r = (b, k) -> b <> "" -> k <> "" -> plain_put r -> mock g = false -> (cluster g = None \/ erasureEnabled g = false) ->
  ServeHTTP e r g = Some (Reply resp, g1) -> Status resp = 200 ->
  exists v, PutObject (put_call r (calls e 0)) b k (Body r) (ContentLength r) (content_type r) (store g) = (inr v, store g1) /\
    Fields resp = cors ++ etag_field (ETag v) :: version_field (VersionID v).
Proof.
  intros Ht Hb Hk (Hm & Hu & Hl & Htag & Hcopy & Hrep) Hmock Hcl. unfold ServeHTTP. rewrite Hmock.
  assert (Hun : unguarded e r g = None).
  { unfold unguarded, is_endpoint. rewrite Hm. cbn. by rewrite !andb_false_r. }
  rewrite Hun. unfold guarded, read_only. rewrite Hm. cbn [negb]. rewrite bool_decide_false by done.
  assert (Hctx : forall st code msg, Status (writeErrorCtx r st code msg) = st) by (intros; unfold writeErrorCtx; by destruct (_ || _)).
  destruct (VerifyRequest _ _ r); cbn [negb]; [|intros [= <- <-]; cbn; by rewrite Hctx].
  destruct (checkAuthorization _ r g); cbn [negb]; [|intros [= <- <-]; cbn; by rewrite Hctx].
  pose proof (limited_store (now e) r g) as Hs. destruct (limited_config (now e) r g) as (Hc1 & Hc2 & _).
  destruct (limited (now e) r g) as [[refusal|] g0] eqn:El; cbn [snd] in Hs, Hc1, Hc2.
  { pose proof (limited_refusal (now e) r g refusal ltac:(by rewrite El)) as H429. intros [= <- <-]. cbn. by rewrite H429. }
  assert (Hput : forall resp0 g1', acted (handlePutObject (calls e 0) r b k g0) = Some (Reply resp0, g1') -> Status resp0 = 200 ->
    exists v, PutObject (put_call r (calls e 0)) b k (Body r) (ContentLength r) (content_type r) (store g) = (inr v, store g1') /\
      Fields resp0 = etag_field (ETag v) :: version_field (VersionID v)).
  { intros resp0 g1'. unfold acted, handlePutObject. rewrite Hcopy, bool_decide_true by done. cbn [negb]. unfold outdated. rewrite Hrep. cbn [andb].
    destruct (duplicate _ _ _ _); [by intros [= <- <-]|]. rewrite Hs. destruct (PutObject _ b k _ _ _ (store g)) as [[err|v] s']; intros [= <- <-]; cbn; [|by eauto].
    intros H. by apply put_error_status in H. }
  unfold dispatch. rewrite Ht, !bool_decide_false by done. cbn [orb]. rewrite Hrep, Hc1, Hc2.
  assert (Hobj : object_level e r b k g0 = acted (handlePutObject (calls e 0) r b k g0)) by (unfold object_level; rewrite Hm, Hu, Hl, Htag; done).
  assert (Hfin : forall out, out = acted (handlePutObject (calls e 0) r b k g0) ->
    match out with Some (a, g) => Some (with_cors a, log_access (now e) r a g) | None => None end = Some (Reply resp, g1) -> Status resp = 200 ->
    exists v, PutObject (put_call r (calls e 0)) b k (Body r) (ContentLength r) (content_type r) (store g) = (inr v, store g1) /\
      Fields resp = cors ++ etag_field (ETag v) :: version_field (VersionID v)).
  { intros out Eo. destruct out as [[a g2]|]; [|done]. intros [= Ea <-]. rewrite log_access_store. destruct a as [resp0|]; [|done]. cbn in Ea. injection Ea as <-. cbn.
    intros H200. destruct (Hput resp0 g2 (eq_sym Eo) H200) as (v & Hp & ->). eauto. }
  rewrite Hobj. destruct (cluster g) as [cl|]; [|by apply Hfin]. destruct Hcl as [Hcl|Hcl]; [done|rewrite Hcl].
  destruct (route b k g0); [by apply Hfin|by intros [= ? <-]|by intros [= <- <-]].
Qed.

(** C7: what was put is what a get returns.  When a put of an object is
    answered 200, a get that follows it and that this node serves to somebody
    who may read the object is answered 200 too, with exactly the body of the
    put, its length, its content type and the ETag that the put was answered
    with: with and without encryption, compression, versions and consensus.
    The gateway is not the mock one, and has no shards or no cluster (with
    shards the content type is lost); the bucket is plain and not
    content-addressed; the put is of an object as such (no part, lock, tags,
    copy or replica) and the get of its latest version, now. *)
Theorem s3_put_then_get e r g resp g1 e' r' b k :
  by_name b (store g) -> target r = (b, k) -> b <> "" -> k <> "" -> plain_put r -> mock g = false -> cluster g = None \/ erasureEnabled g = false ->
  ServeHTTP e r g = Some (Reply resp, g1) -> Status resp = 200 ->
  target r' = (b, k) -> plain_get r' -> served_here e' r' g1 -> ctx_timeTravel (calls e' 0) = None ->
  exists p resp' g2, ServeHTTP e' r' g1 = Some (Reply resp', g2) /\ Body r = Some p /\ Status resp' = 200 /\ Doc resp' = Content p /\
    ("Content-Length", FormatInt (Z.of_nat (length p))) ∈ Fields resp' /\ ("Content-Type", content_type r) ∈ Fields resp' /\
    exists etag, ("ETag", etag) ∈ Fields resp /\ ("ETag", etag) ∈ Fields resp'.
Proof.
  intros Hn Ht Hb Hk Hput Hmock Hcl Hs H200 Ht' (Hm' & Htag' & Hat & Hvid) (Hmock' & Hun & Hv & Hc & Hlim & Hhere) Hctx.
  destruct (put_accepted e r b k g resp g1 Ht Hb Hk Hput Hmock Hcl Hs H200) as (v & Hp & Hf).
  destruct (put_then_read _ b k _ _ _ _ v _ (calls e' 0) Hn Hp Hctx) as (p & HB & Hr & Hsize & Hct).
  unfold ServeHTTP. rewrite Hmock', Hun. unfold guarded. rewrite Hm', bool_decide_false, Hv, Hc by done. cbn [negb].
  pose proof (limited_store (now e') r' g1) as Hls. destruct (limited_config (now e') r' g1) as (Hc1 & Hc2 & _). pose proof (limited_route (now e') r' b k g1) as Hc3.
  destruct (limited (now e') r' g1) as [refusal g0]. cbn [fst snd] in *. subst refusal. rewrite Ht' in Hhere. cbn [fst snd] in Hhere.
  rewrite (dispatch_here e' r' b k g0 Ht' Hb Hk) by (rewrite Hc1, Hc2, Hc3; done).
  unfold object_level. rewrite Hm', Htag', bool_decide_true by done. unfold handleGetObject, travel_call. rewrite Hat, Hvid, bool_decide_true, Hls, Hr by done.
  eexists p, _, _. split; [reflexivity|]. cbn [Status Doc Fields with_cors]. rewrite Hf, Hsize, Hct. split_and!; try done.
  1,2: set_solver. exists (quoted (ETag v)). split; set_solver.
Qed.

(** ** An object in shards *)

Lemma original_size_written n : original_size (shard_content_type (Z.of_nat n)) = (Z.of_nat n, "application/octet-stream").
Proof.
  unfold original_size, shard_content_type. rewrite byt_app.
  assert (Hcut : forall x, bytes_Cut (byt "application/octet-stream; original-size=" ++ x) (byt "original-size=") = Some (byt "application/octet-stream; ", x)) by done.
  assert (Hcut' : forall x, bytes_Cut (byt "application/octet-stream; original-size=" ++ x) [";"%char] = Some (byt "application/octet-stream", byt " original-size=" ++ x)) by done.
  rewrite Hcut, Hcut'. f_equal.
  assert (Hd : forallb isDigitb (byt (FormatInt (Z.of_nat n))) = true /\ digits_val (byt (FormatInt (Z.of_nat n))) = Z.of_nat n).
  { destruct (Z.of_nat n) as [|x|x] eqn:E; [done| |lia]. rewrite FormatInt_pos. destruct (pretty_N_digits (Npos x)) as (H1 & H2 & _). by rewrite H2. }
  destruct Hd as [Hd Hv]. unfold leading_number.
  assert (Htw : take_while isDigitb (byt (FormatInt (Z.of_nat n))) = byt (FormatInt (Z.of_nat n))).
  { pose proof (take_while_app isDigitb (byt (FormatInt (Z.of_nat n))) []) as H. rewrite app_nil_r in H. apply H; [done|by left]. }
  destruct (byt (FormatInt (Z.of_nat n))) as [|c l] eqn:E; [by rewrite <- Hv|].
  assert (Hc : c <> "-"%char /\ c <> "+"%char) by (cbn in Hd; apply andb_prop in Hd as [Hc _]; split; intros ->; discriminate Hc).
  transitivity (1 * digits_val (take_while isDigitb (c :: l))); [|rewrite Htw, Hv; lia]. destruct Hc as [H1 H2].
  destruct c as [[] [] [] [] [] [] [] []]; try done.
Qed.

(** The nodes of a ring that a walk takes are different. *)
Lemma walk_distinct hr idx rounds i count chosen seen : NoDup chosen -> (forall x, x ∈ chosen -> x ∈ seen) -> NoDup (walk hr idx rounds i count chosen seen).
Proof.
  revert i chosen seen. induction rounds as [|rounds IH]; intros i chosen seen Hnd Hs; [done|]. cbn [walk]. destruct (_ <? _); [|done].
  case_bool_decide as Hin; [by apply IH|]. apply IH; [|set_solver]. apply NoDup_app. split_and!; [done| |apply NoDup_singleton].
  intros x Hx ->%list_elem_of_singleton. by apply Hin, Hs.
Qed.

Lemma shard_owners_ok cl b k g owners : shard_owners cl b k g = inr owners -> NoDup owners /\ dataShards g + parityShards g <= Z.of_nat (length owners).
Proof.
  unfold shard_owners, GetNodes. destruct (Ring cl) as [hr|]; [|done]. destruct (keys hr); [done|]. set (owners' := walk _ _ _ _ _ _ _). destruct (Z.ltb_spec (Z.of_nat (length owners')) (dataShards g + parityShards g)) as [|H]; [done|].
  intros [= <-]. split; [|done]. apply walk_distinct; [constructor|set_solver].
Qed.

(** Which of the shards were written. *)
Fixpoint written (c : Call) (net : Network) (cl : Cluster) (b k vid : string) (n : Z) (i : nat) (shards : list bytes) (owners : list string) (s : LocalStore) : list bool :=
  match shards, owners with
  | data :: shards, node :: owners =>
      let '(ok, s) := writeShardToNode c net cl b k vid n i data node s in ok :: written c net cl b k vid n (S i) shards owners s
  | _, _ => []
  end.

Lemma written_failures c net cl b k vid n i shards owners s :
  (write_shards c net cl b k vid n i shards owners s).1 = length (filter (fun ok => ok = false) (written c net cl b k vid n i shards owners s)).
Proof.
  revert i owners s. induction shards as [|d shards IH]; intros i [|node owners] s; try done. cbn [write_shards written].
  destruct (writeShardToNode _ _ _ _ _ _ _ _ _ _ s) as [ok s1]. specialize (IH (S i) owners s1). destruct (write_shards _ _ _ _ _ _ _ _ _ _ s1) as [f s2]. cbn [fst] in IH |- *.
  destruct ok; [by rewrite filter_cons_False|]. rewrite filter_cons_True by done. cbn [length]. by rewrite IH.
Qed.

Lemma written_length c net cl b k vid n i shards owners s : (length shards <= length owners)%nat -> length (written c net cl b k vid n i shards owners s) = length shards.
Proof.
  revert i owners s. induction shards as [|d shards IH]; intros i [|node owners] s H; cbn in *; try lia. destruct (writeShardToNode _ _ _ _ _ _ _ _ _ _ s). cbn. rewrite IH; lia.
Qed.

(** A write to another node leaves the store alone. *)
Lemma write_elsewhere c net cl b k vid n i d node s : node <> LocalNodeID cl ->
  writeShardToNode c net cl b k vid n i d node s = (match GetNodeAddress cl node with Some addr => put_shard net addr i d | None => false end, s).
Proof. intros H. unfold writeShardToNode. rewrite bool_decide_false by done. by destruct (GetNodeAddress cl node). Qed.

Lemma write_shards_elsewhere c net cl b k vid n i shards owners s : LocalNodeID cl ∉ owners -> (write_shards c net cl b k vid n i shards owners s).2 = s.
Proof.
  revert i owners. induction shards as [|d shards IH]; intros i [|node owners] H; try done. apply not_elem_of_cons in H as [H1 H2]. cbn [write_shards].
  rewrite write_elsewhere by congruence. specialize (IH (S i) owners H2). by destruct (write_shards _ _ _ _ _ _ _ _ _ _ s).
Qed.

(** What became of the shard with number [j]. *)
Lemma written_lookup c net cl b k vid n i shards owners s j d node ok :
  NoDup owners -> shards !! j = Some d -> owners !! j = Some node -> written c net cl b k vid n i shards owners s !! j = Some ok ->
  ok = (writeShardToNode c net cl b k vid n (i + j) d node s).1 /\
  (node = LocalNodeID cl -> (write_shards c net cl b k vid n i shards owners s).2 = (writeShardToNode c net cl b k vid n (i + j) d node s).2).
Proof.
  revert i owners s j. induction shards as [|d0 shards IH]; intros i [|node0 owners] s j Hnd Hd Ho; try done. apply NoDup_cons in Hnd as [Hn0 Hnd]. cbn [written write_shards].
  destruct j as [|j]; cbn in Hd, Ho.
  - injection Hd as ->. injection Ho as ->. rewrite Nat.add_0_r. destruct (writeShardToNode c net cl b k vid n i d node s) as [ok0 s1] eqn:E. cbn. intros [= <-]. split; [done|].
    intros ->. pose proof (write_shards_elsewhere c net cl b k vid n (S i) shards owners s1 Hn0) as H. by destruct (write_shards _ _ _ _ _ _ _ _ _ _ s1).
  - destruct (decide (node0 = LocalNodeID cl)) as [->|Hne].
    + destruct (writeShardToNode c net cl b k vid n i d0 _ s) as [ok0 s1] eqn:E. cbn. intros Hok. destruct (IH (S i) owners s1 j Hnd Hd Ho Hok) as [-> _].
      assert (Hnode : node <> LocalNodeID cl) by (intros ->; apply Hn0; by eapply list_elem_of_lookup_2).
      rewrite !write_elsewhere by done. replace (S i + j)%nat with (i + S j)%nat by lia. by split.
    + rewrite write_elsewhere by done. cbn. intros Hok. destruct (IH (S i) owners s j Hnd Hd Ho Hok) as [H1 H2]. replace (i + S j)%nat with (S i + j)%nat by lia. split; [done|].
      intros Hl. specialize (H2 Hl). by destruct (write_shards _ _ _ _ _ _ _ _ _ _ s).
Qed.

Lemma later_sublist (i : nat) (l : list nat) : filter (fun x => (S i <= x)%nat) l `sublist_of` filter (fun x => (i <= x)%nat) l.
Proof. induction l as [|y l IH]; [constructor|]. rewrite !filter_cons. repeat case_decide; first [lia|done|by constructor]. Qed.

(** Pieces are missing where a write failed or a shard was lost. *)
Lemma present_bound {A} (l : list (option A)) (i : nat) (oks : list bool) (lost : list nat) :
  length l = length oks -> (forall j, oks !! j = Some true -> (i + j)%nat ∉ lost -> l !! j <> Some None) ->
  (length l <= length (present l) + length (filter (fun ok => ok = false) oks) + length (filter (fun x => (i <= x)%nat) lost))%nat.
Proof.
  revert i oks. induction l as [|a l IH]; intros i [|ok oks] Hl H; try done; [cbn; lia|]. injection Hl as Hl.
  specialize (IH (S i) oks Hl). assert (IH' : forall j, oks !! j = Some true -> (S i + j)%nat ∉ lost -> l !! j <> Some None).
  { intros j Hj Hlost. apply (H (S j)); [done|]. by replace (i + S j)%nat with (S i + j)%nat by lia. }
  specialize (IH IH').
  assert (Hmono : (length (filter (fun x => (S i <= x)%nat) lost) <= length (filter (fun x => (i <= x)%nat) lost))%nat).
  { apply sublist_length, later_sublist. }
  destruct a as [a|]; [cbn [present omap list_omap length]; fold (present l); rewrite filter_cons; case_decide; cbn [length]; lia|].
  change (present (None :: l)) with (present l). cbn [length]. destruct ok; [|rewrite filter_cons_True by done; cbn [length]; lia].
  rewrite filter_cons_False by done. assert (Hin : i ∈ lost).
  { destruct (decide (i ∈ lost)) as [|Hn]; [done|]. exfalso. apply (H 0%nat eq_refl); [by rewrite Nat.add_0_r|done]. }
  assert ((S (length (filter (fun x => (S i <= x)%nat) lost)) <= length (filter (fun x => (i <= x)%nat) lost))%nat); [|lia].
  clear -Hin. induction lost as [|y lost IH]; [by apply not_elem_of_nil in Hin|]. rewrite !filter_cons. apply elem_of_cons in Hin as [->|Hin].
  - rewrite (decide_True (P := (y <= y)%nat)), decide_False by lia. cbn [length]. apply le_n_S, sublist_length, later_sublist.
  - specialize (IH Hin). repeat case_decide; cbn [length]; lia.
Qed.

(** The size that the shards tell. *)
Lemma told_size (n : nat) (shards : list (option Shard)) arrival m :
  (forall i sh, shards !! i = Some (Some sh) -> shard_type sh = shard_content_type (Z.of_nat n)) ->
  sum_size m = Z.of_nat n \/ (sum_size m = 0 /\ exists i sh, i ∈ arrival /\ shards !! i = Some (Some sh)) ->
  sum_size (fold_left (fun m i => match shards !! i with Some (Some sh) => add_shard m sh | _ => m end) arrival m) = Z.of_nat n.
Proof.
  intros Ht. revert m. induction arrival as [|i arrival IH]; intros m H; cbn [fold_left].
  { destruct H as [H|(_ & i & sh & Hi & _)]; [done|by apply not_elem_of_nil in Hi]. }
  assert (Hadd : forall sh, shards !! i = Some (Some sh) -> sum_size m = Z.of_nat n \/ sum_size m = 0 -> sum_size (add_shard m sh) = Z.of_nat n).
  { intros sh Hsh Hm. unfold add_shard. rewrite (Ht i sh Hsh), original_size_written. cbn [sum_size]. destruct (Z.ltb_spec 0 (Z.of_nat n)); [done|]. destruct Hm; lia. }
  apply IH. destruct (shards !! i) as [[sh|]|] eqn:E.
  - left. apply Hadd; [done|]. destruct H as [H|[H _]]; tauto.
  - destruct H as [H|(H & j & sh & Hj & Hsh)]; [by left|right]. split; [done|]. apply elem_of_cons in Hj as [->|Hj]; [congruence|eauto].
  - destruct H as [H|(H & j & sh & Hj & Hsh)]; [by left|right]. split; [done|]. apply elem_of_cons in Hj as [->|Hj]; [congruence|eauto].
Qed.

(** A get that finds enough right shards joins them. *)
Lemma get_joins c net arrival cl r b k g owners data shards :
  let n := Z.to_nat (dataShards g + parityShards g) in
  let pieces := read_shards c net cl b k (values_Get (Query r) "versionId") (take n owners) (store g) in
  shard_owners cl b k g = inr owners -> rs_encode (dataShards g) (parityShards g) data = inr shards -> 0 < dataShards g -> Method r = "GET" ->
  (forall i sh, pieces !! i = Some (Some sh) -> shards !! i = Some (shard_data sh) /\ shard_type sh = shard_content_type (Z.of_nat (length data))) ->
  dataShards g <= Z.of_nat (length (present pieces)) -> (forall i, (i < n)%nat -> i ∈ arrival) ->
  exists fields, handleGetObjectErasure c net arrival cl r b k g = mkResponse 200 fields (Content data) /\ ("Content-Length", FormatInt (Z.of_nat (length data))) ∈ fields.
Proof.
  intros n pieces Ho Henc Hk Hm Hright Henough Harr. unfold handleGetObjectErasure. rewrite Ho. fold n. fold pieces.
  rewrite (proj2 (Z.ltb_ge _ _) Henough). destruct (shard_owners_ok _ _ _ _ _ Ho) as [_ Hlen]. pose proof (rs_encode_length _ _ _ _ Henc) as Hsl.
  assert (Hpl : length pieces = n) by (unfold pieces, read_shards; rewrite length_imap, length_take; lia).
  rewrite (told_size (length data)); [|intros i sh Hi; by destruct (Hright i sh Hi)|].
  2: { right. split; [done|]. destruct (present pieces) as [|sh l] eqn:E; [cbn in Henough; lia|].
       assert (Hin : sh ∈ present pieces) by (rewrite E; left). unfold present in Hin. rewrite list_elem_of_omap in Hin. destruct Hin as (o & Hin & ->).
       apply list_elem_of_lookup in Hin as [i Hi]. exists i, sh. split; [|done]. apply Harr. rewrite <- Hpl. by eapply lookup_lt_Some. }
  rewrite (rs_recover _ _ data shards); [| done | rewrite length_fmap; lia | |].
  - rewrite bool_decide_false by (by rewrite Hm). eexists. split; [reflexivity|]. left.
  - intros i p Hi. rewrite list_lookup_fmap in Hi. destruct (pieces !! i) as [[sh|]|] eqn:E; try done. injection Hi as <-. by apply Hright in E as [-> _].
  - assert (Hp : forall l : list (option Shard), length (present (option_map shard_data <$> l)) = length (present l)).
    { intros l. induction l as [|[sh|] l IH]; [done|..]; cbn; [f_equal|]; exact IH. }
    by rewrite Hp.
Qed.

(** The other nodes give back the shards that they were given, or, for those
    in [lost], nothing; they give back nothing else. *)
Definition keeps_shards (net net' : Network) (shards : list bytes) (size : Z) (lost : list nat) : Prop :=
  (forall addr i sh, get_shard net' addr i = Some sh -> shards !! i = Some (shard_data sh) /\ shard_type sh = shard_content_type size) /\
  (forall addr i d, shards !! i = Some d -> put_shard net addr i d = true -> i ∉ lost -> is_Some (get_shard net' addr i)).

(** The shard that this node reads: the one that was written. *)
Lemma read_local c net cl b k vid n i d s c' net' :
  by_name b s -> ctx_timeTravel c' = None ->
  let '(ok, s') := writeShardToNode c net cl b k vid n i d (LocalNodeID cl) s in
  match readShardFromNode c' net' cl b k "" i (LocalNodeID cl) s' with
  | Some sh => objects s !! object_key b (shard_key k i) = None \/ ok = true -> shard_data sh = d /\ shard_type sh = shard_content_type n
  | None => ok = false
  end.
Proof.
  intros Hn Hc. unfold writeShardToNode, readShardFromNode. rewrite bool_decide_true by done.
  destruct (PutObject _ b (shard_key k i) _ _ _ s) as [[err|v] s'] eqn:E.
  - destruct (read_object c' b (shard_key k i) "" s') as [|[data obj]] eqn:Er; [done|]. intros [H|H]; [|done]. exfalso.
    assert (Hs : objects s' = objects s) by (revert E; unfold PutObject; repeat case_match; intros E; simplify_eq; done).
    revert Er. unfold read_object, GetObject, readObjectMeta. rewrite Hs, H. by destruct (readBucketMeta s' b).
  - destruct (put_then_read _ _ _ _ _ _ _ _ _ c' Hn E Hc) as (p & [= <-] & -> & _ & Hct). by cbn.
Qed.

(** Every piece that is read is right, and one that was written and not lost
    is read. *)
Lemma pieces_right c net cl b k vid n shards owners s c' net' lost j d node ok :
  by_name b s -> ctx_timeTravel c' = None -> NoDup owners -> keeps_shards net net' shards n lost ->
  (forall i d, owners !! i = Some (LocalNodeID cl) -> shards !! i = Some d ->
     objects s !! object_key b (shard_key k i) = None \/ (writeShardToNode c net cl b k vid n i d (LocalNodeID cl) s).1 = true) ->
  shards !! j = Some d -> owners !! j = Some node -> written c net cl b k vid n 0 shards owners s !! j = Some ok ->
  match readShardFromNode c' net' cl b k "" j node (write_shards c net cl b k vid n 0 shards owners s).2 with
  | Some sh => shard_data sh = d /\ shard_type sh = shard_content_type n
  | None => ok = false \/ j ∈ lost
  end.
Proof.
  intros Hn Hc Hnd [Hk1 Hk2] Hold Hd Ho Hok. destruct (written_lookup _ _ _ _ _ _ _ _ _ _ _ _ _ _ _ Hnd Hd Ho Hok) as [-> Hstore]. cbn [plus] in *.
  destruct (decide (node = LocalNodeID cl)) as [->|Hne].
  - rewrite Hstore by done. pose proof (read_local c net cl b k vid n j d s c' net' Hn Hc) as H. specialize (Hold j d Ho Hd).
    destruct (writeShardToNode _ _ _ _ _ _ _ _ _ _ s) as [ok s']. cbn [fst snd] in *. destruct (readShardFromNode _ _ _ _ _ _ _ _ s'); [by apply H|by left].
  - rewrite write_elsewhere by done. cbn [fst]. unfold readShardFromNode. rewrite bool_decide_false by done. destruct (GetNodeAddress cl node) as [addr|]; [|by left].
    destruct (get_shard net' addr j) as [sh|] eqn:E; cbn.
    + apply Hk1 in E as [E1 E2]. split; [congruence|done].
    + destruct (put_shard net addr j d) eqn:Ep; [|by left]. right. destruct (decide (j ∈ lost)) as [|Hl]; [done|]. destruct (Hk2 addr j d Hd Ep Hl) as [sh Hsh]. congruence.
Qed.


(** ** Decisions about requests *)

(** C29: a policy decides exactly as its statements say.  For a user with a
    policy, a request passes if and only if some statement that allows covers
    its action and its resource and no statement that denies does; patterns
    match as globs, where a star stands for any text, in any case of letters. *)
Theorem policy_decision_exact t r g policy_bytes pol action resource :
  enabled (auth g) = true -> wanted r = Some (action, resource) -> GetIdentity t (auth g) r <> "" ->
  policies (store g) !! GetIdentity t (auth g) r = Some policy_bytes -> decode_policy policy_bytes = Some pol ->
  (checkAuthorization t r g = true <->
   (exists stmt, stmt ∈ Statements pol /\ lower (VaultAuth.Effect stmt) = "allow" /\ covers action resource stmt) /\
   (forall stmt, stmt ∈ Statements pol -> lower (VaultAuth.Effect stmt) = "deny" -> ~ covers action resource stmt)).
Proof.
  intros Hen Hw Hid Hp Hd. unfold checkAuthorization, authorize, GetUserPolicy. rewrite Hen. cbn [negb]. rewrite Hw, Hp, Hd, bool_decide_false by done. apply IsAllowed_exact.
Qed.

(** C30: a pre-signed address opens the store for the time it was made for.  A
    request that follows it, with nothing else to identify it, passes the
    authentication at a time [now'] if and only if [now'] is not after the
    second in which it was made plus the whole seconds it was to be valid. *)
Theorem presigned_url_window now now' ap baseURL method bucket key expires r :
  let seconds := truncate_float (Seconds expires) in
  enabled ap = true -> Get r "Authorization" = "" -> Cookie r "token" = None ->
  0 <= Year (date_of now) <= 9999 -> size (credentials ap) = 1%nat -> 0 <= seconds <= 10 ^ 9 ->
  (GetAdminCredentials ap).1 <> "" -> "/"%char ∉ byt (GetAdminCredentials ap).1 -> TrimSpace (host_of baseURL) = host_of baseURL ->
  Method r = method -> Path r = presigned_path bucket key -> Host r = host_of baseURL ->
  Query r = ParseQuery (presigned_query now ap baseURL method bucket key expires) ->
  VerifyRequest now' ap r = (now' <=? Truncate now Second + seconds * Second).
Proof.
  intros seconds Hen Ha Hc H1 H2 H3 H4 H5 H6 H7 H8 H9 H10. pose proof (presigned_accepted now now' ap baseURL method bucket key expires r) as H. cbn zeta in H.
  fold seconds in H. rewrite <- H by done. clear H.
  unfold VerifyRequest. rewrite Hen, Ha, Hc. change (bool_decide ("" = "")) with true. cbn -[verifyQuerySignature bool_decide].
  destruct (bool_decide (values_Get _ _ = "")) eqn:Hq; [|done]. apply bool_decide_eq_true in Hq. unfold verifyQuerySignature. by rewrite Hq.
Qed.
End Props.

(** ** A small node

    Codecs of [VaultProps], a keyed hash that pads, claims as escaped words,
    shards that are copies, and two policies. *)

#[local] Existing Instance ascii_casing.
#[local] Existing Instance demo_codec.

Definition demo_marshal (c : JWTClaims) : bytes := byt (Join [pathEscape (Username c); pathEscape (Role c); FormatInt (ExpiresAt c); pathEscape (Issuer c)] "/").

Definition demo_unmarshal (b : bytes) : option JWTClaims :=
  match Split (str b) "/"%char with
  | [u; role; exp; iss] =>
      match QueryUnescape u, QueryUnescape role, Atoi exp, QueryUnescape iss with
      | Some u, Some role, Some exp, Some iss => Some (mkClaims u role exp iss)
      | _, _, _, _ => None
      end
  | _ => None
  end.

Lemma demo_claims c : plain_claims c -> demo_unmarshal (demo_marshal c) = Some c.
Proof.
  intros (_ & _ & _ & Hexp). unfold demo_unmarshal, demo_marshal. rewrite str_byt.
  assert (Hs : forall s, "/"%char ∉ byt (pathEscape s)) by (intros s; by apply pathEscape_free).
  rewrite Split_Join; [|done|repeat constructor; try done; by apply FormatInt_without].
  rewrite !escape_roundtrip, Atoi_FormatInt by done. by destruct c.
Qed.

Definition demo_hmac (key data : bytes) : bytes := take 32 (data ++ key ++ replicate 32 NUL).

Lemma demo_hmac_length key data : length (demo_hmac key data) = 32%nat.
Proof. unfold demo_hmac. rewrite length_take, !length_app, length_replicate. lia. Qed.

#[local] Instance demo_keyed : Keyed := {
  hmacSHA256 := demo_hmac;
  hmac_length := demo_hmac_length;
  header_json := byt "{}";
  Marshal_claims := demo_marshal;
  Unmarshal_claims := demo_unmarshal;
  claims_roundtrip := demo_claims }.

(** May read everything, but nothing under [private]. *)
Definition reader_policy : Policy :=
  mkPolicy "2012-10-17" [mkStatement "Allow" ["s3:Get*"; "s3:List*"] ["*"]; mkStatement "Deny" ["*"] ["arn:aws:s3:::b/private/*"]].
Definition writer_policy : Policy := mkPolicy "2012-10-17" [mkStatement "Allow" ["s3:*"] ["arn:aws:s3:::b*"]].

#[local] Instance demo_outside : Outside := {
  decode_versioning := fun b => Some (str b);
  decode_lifecycle := fun _ => None; decode_parts := fun _ => None; decode_tagging := fun _ => None; decode_delete := fun _ => None;
  decode_geo := fun _ => None; decode_triggers := fun _ => None; decode_notifications := fun _ => None;
  decode_credentials := fun b => Some (str b, str b); decode_batch := fun b => if bool_decide (b = byt "job") then Some (mkBatchRequest "delete" "b" ["x.txt"] ∅) else None; decode_tags := fun _ => None; decode_cold_tier := fun _ => inr tt;
  decode_policy := fun b => if bool_decide (b = byt "reader") then Some reader_policy else if bool_decide (b = byt "writer") then Some writer_policy else None;
  encode_log := fun _ => []; Error := fun _ => "error"; read_error := "read"; Search := fun _ _ _ _ => []; Execute := fun _ b _ _ => inr b;
  completeLLM := fun p => inr p }.

Definition copies (k m : Z) (data : bytes) : string + list bytes :=
  if (k <=? 0) || (m <? 0) then inl "invalid" else if bool_decide (data = []) then inl "short data" else inr (replicate (Z.to_nat (k + m)) data).

Definition any_copy (pieces : list (option bytes)) (size : Z) : string + bytes :=
  match present pieces with p :: _ => inr (take (Z.to_nat size) p) | [] => inl "too few shards" end.

Lemma copies_length k m data shards : copies k m data = inr shards -> Z.of_nat (length shards) = k + m.
Proof.
  unfold copies. destruct (Z.leb_spec k 0), (Z.ltb_spec m 0); try done. cbn. case_bool_decide; [done|]. intros [= <-]. rewrite length_replicate. lia.
Qed.

Lemma any_copy_recovers k m data shards pieces : copies k m data = inr shards -> length pieces = length shards ->
  (forall i p, pieces !! i = Some (Some p) -> shards !! i = Some p) -> k <= Z.of_nat (length (present pieces)) ->
  any_copy pieces (Z.of_nat (length data)) = inr data.
Proof.
  unfold copies, any_copy. destruct (Z.leb_spec k 0), (Z.ltb_spec m 0); try done. cbn. case_bool_decide; [done|]. intros [= <-] _ Hp Hk.
  destruct (present pieces) as [|p l] eqn:E; [cbn in Hk; lia|]. assert (Hin : p ∈ present pieces) by (rewrite E; left).
  unfold present in Hin. rewrite list_elem_of_omap in Hin. destruct Hin as (o & Hin & ->). apply list_elem_of_lookup in Hin as [i Hi]. apply Hp in Hi.
  apply lookup_replicate in Hi as [-> _]. rewrite Nat2Z.id. by rewrite firstn_all.
Qed.

#[local] Instance demo_rs : ReedSolomon := {
  rs_encode := copies; rs_join := fun _ _ => any_copy; rs_encode_length := copies_length; rs_recover := any_copy_recovers }.

Definition quiet : Network := mkNetwork (fun _ _ _ => true) (fun _ _ => None) "".
Definition occasion (t : Z) : Occasion := mkOccasion (fun i => at_time (t + Z.of_nat i)) quiet [] t.
Definition request (method path : string) (query : Values) (header : list (string * list string)) (body : string) : Request :=
  mkRequest method path query (list_to_map header) "localhost" [] (Z.of_nat (String.length body)) (Some (byt body)).

Definition user_u : AuthProvider := NewAuthProvider "" "u" "p" true.
Definition as_u : list (string * list string) := [("Authorization", ["Basic dTpw"])].

(** An open node, and one that lets in the user [u] with a policy. *)
Definition open_node : Gateway := NewGateway no_key (NewAuthProvider "" "" "" false) None None 0 false 0 0.
Definition closed_node (policy : string) : Gateway :=
  NewGateway (PutUserPolicy "u" (byt policy) (run [(at_time 1, OCreateBucket "b"); (at_time 2, OVersioning "b" "Enabled")] empty_history no_key).2)
    user_u None None 0 false 0 0.

Definition put_x : Request := request "PUT" "/b/x.txt" ∅ as_u "hello".
Definition get_x : Request := request "GET" "/b/x.txt" ∅ as_u "".

Definition reply_of (result : option (Answer * Gateway)) : option Response := match result with Some (Reply resp, _) => Some resp | _ => None end.
Definition node_after (result : option (Answer * Gateway)) (g : Gateway) : Gateway := match result with Some (_, g) => g | None => g end.

(** A bucket, an object in it, the line of the access log on the first request,
    and a batch job that deletes the object. *)
Definition batch_delete_x : Request := request "POST" "/admin/batch" ∅ [] "job".
Definition some_events : list NodeEvent :=
  [NRequest (occasion 10) (request "PUT" "/b" ∅ [] ""); NRequest (occasion 20) put_x; NBackground (at_time 30) "id" 0; NBackground (at_time 31) "id" 0;
   NRequest (occasion 40) batch_delete_x; NBackground (at_time 50) "" 2; NBackground (at_time 51) "" 2; NBackground (at_time 52) "" 2].

Definition node_after_all (evs : list NodeEvent) (g : Gateway) : Gateway := default g (node_run evs g).
Definition object_names (g : Gateway) : list string := (map_to_list (objects (store g))).*1.

Lemma s3_refines_store_witness : exists g', node_run some_events open_node = Some g' /\
  (exists steps, Forall (fun co => exists b, op_bucket co.2 = Some b /\ named some_events open_node b) steps /\ forall h, (run steps h no_key).2 = store g') /\
  object_names (node_after_all (take 4 some_events) open_node) = ["system-access-logs:logs/10-id.json"; "b:x.txt"] /\ object_names g' = ["system-access-logs:logs/10-id.json"].
Proof.
  assert (Hs : object_names (node_after_all some_events open_node) = ["system-access-logs:logs/10-id.json"]) by (vm_compute; reflexivity).
  assert (Hg : is_Some (node_run some_events open_node)) by (vm_compute; eauto). unfold node_after_all in Hs.
  destruct (node_run some_events open_node) as [g'|] eqn:E; [|by destruct Hg]. exists g'. split; [done|]. split; [|split; [vm_compute; reflexivity|exact Hs]].
  apply (s3_refines_store some_events open_node g'); [|exact E]. intros e r Hin.
  repeat (apply elem_of_cons in Hin as [Heq|Hin]; [first [discriminate Heq|injection Heq as -> ->; split; reflexivity]|]). destruct (not_elem_of_nil _ Hin).
Defined.

(** The user [u] may write, and the object is there. *)
Definition after_put : option (Answer * Gateway) := ServeHTTP (occasion 20) put_x (closed_node "writer").
Definition put_reply : Response := default (status_only 0) (reply_of after_put).
Definition node_with_x : Gateway := node_after after_put (closed_node "writer").

Lemma after_put_eq : after_put = Some (Reply put_reply, node_with_x).
Proof. vm_compute. reflexivity. Qed.


Lemma s3_put_then_get_witness : exists resp g2, ServeHTTP (occasion 30) get_x node_with_x = Some (Reply resp, g2) /\ Doc resp = Content (byt "hello").
Proof.
  destruct (s3_put_then_get (occasion 20) put_x (closed_node "writer") put_reply node_with_x (occasion 30) get_x "b" "x.txt") as (p & resp & g2 & Hs & Hb & _ & Hd & _).
  - intros B HB. vm_compute in HB. injection HB as <-. reflexivity.
  - reflexivity.
  - done.
  - done.
  - by repeat split.
  - reflexivity.
  - by left.
  - exact after_put_eq.
  - reflexivity.
  - reflexivity.
  - by repeat split.
  - repeat split; try (vm_compute; reflexivity). by left.
  - reflexivity.
  - exists resp, g2. split; [exact Hs|]. injection Hb as <-. exact Hd.
Defined.

(** Three nodes, two of the shards data; the third shard is lost. *)
Definition three : Cluster := mkCluster (Some three_nodes) "a" {["a"; "b"; "c"]} {["a" := "a:1"; "b" := "b:1"; "c" := "c:1"]}.
Definition shard_node : Gateway :=
  NewGateway (run [(at_time 1, OCreateBucket "b")] empty_history no_key).2 (NewAuthProvider "" "" "" false) None (Some three) 2 true 2 1.
Definition x_shards : list bytes := replicate 3 (byt "hello").
Definition two_left : Network :=
  mkNetwork (fun _ _ _ => true) (fun _ i => if (i =? 2)%nat then None else (fun d => mkShard d (shard_content_type 5) "v" "e") <$> x_shards !! i) "".
Definition shard_owners_of_x : list string := match shard_owners three "b" "x" shard_node with inr l => l | inl _ => [] end.
Definition after_shards : Response * Gateway := handlePutObjectErasure (at_time 10) two_left three put_x "b" "x" shard_node.


(** What is under [private] is denied. *)
Definition get_private (bucket : string) : Request := request "GET" ("/" +:+ bucket +:+ "/private/k") ∅ as_u "".

Lemma policy_decision_exact_witness :
  ~ ((exists stmt, stmt ∈ Statements reader_policy /\ lower (VaultAuth.Effect stmt) = "allow" /\ covers "s3:GetObject" "arn:aws:s3:::b/private/k" stmt) /\
     (forall stmt, stmt ∈ Statements reader_policy -> lower (VaultAuth.Effect stmt) = "deny" -> ~ covers "s3:GetObject" "arn:aws:s3:::b/private/k" stmt)).
Proof.
  intros H. apply (policy_decision_exact 20 (get_private "b") (closed_node "reader") (byt "reader") reader_policy "s3:GetObject" "arn:aws:s3:::b/private/k") in H.
  - vm_compute in H. discriminate H.
  - reflexivity.
  - reflexivity.
  - vm_compute. discriminate.
  - reflexivity.
  - reflexivity.
Defined.

(** An address for a minute. *)
Definition made_at : Z := 1700000000 * Second + 500.
Definition signed_get : Request :=
  mkRequest "GET" "/b/x.txt" (ParseQuery (presigned_query made_at user_u "http://localhost/" "GET" "b" "x.txt" Minute)) ∅ "localhost" [] 0 (Some []).

Lemma presigned_url_window_witness :
  VerifyRequest (1700000060 * Second) user_u signed_get = true /\ VerifyRequest (1700000060 * Second + 1) user_u signed_get = false.
Proof.
  assert (H : forall t, VerifyRequest t user_u signed_get = (t <=? Truncate made_at Second + truncate_float (Seconds Minute) * Second)).
  { intros t. apply (presigned_url_window made_at t user_u "http://localhost/" "GET" "b" "x.txt" Minute signed_get).
    all: try reflexivity.
    - vm_compute. split; discriminate.
    - vm_compute. split; discriminate.
    - vm_compute. discriminate.
    - apply (bool_decide_unpack _). vm_compute. exact I. }
  split; rewrite H; vm_compute; reflexivity.
Defined.

(** ** What the interface does not guard against *)

(** The bucket of a request is authorized as it is written and served without
    what follows an [@]: what is denied under one name is allowed under the
    other. *)
Example at_sign_evades_policy :
  checkAuthorization 20 (get_private "b") (closed_node "reader") = false /\ checkAuthorization 20 (get_private "b@") (closed_node "reader") = true /\
  target (get_private "b@") = target (get_private "b").
Proof. vm_compute. auto. Qed.

(** The restore of a bucket needs no credentials: here it takes the object
    away. *)
Example restore_without_credentials :
  let r := request "POST" "/admin/backup/restore" {["bucket" := ["b"]; "time" := ["1969-12-31T00:00:00Z"]]} [] "" in
  Status <$> reply_of (ServeHTTP (occasion 30) r node_with_x) = Some 200 /\
  VerifyRequest 30 user_u r = false /\ is_Some (objects (store node_with_x) !! "b:x.txt") /\
  objects (store (node_after (ServeHTTP (occasion 30) r node_with_x) node_with_x)) !! "b:x.txt" = None.
Proof. vm_compute. repeat split. eauto. Qed.

(** Nor does a batch job: what it is told to delete is gone when its goroutine
    has run. *)
Example batch_without_credentials :
  let g := node_after_all [NRequest (occasion 30) batch_delete_x; NBackground (at_time 40) "" 2; NBackground (at_time 41) "" 2] node_with_x in
  VerifyRequest 30 user_u batch_delete_x = false /\ Status <$> reply_of (ServeHTTP (occasion 30) batch_delete_x node_with_x) = Some 202 /\
  Status <$> reply_of (ServeHTTP (occasion 35) get_x node_with_x) = Some 200 /\ Status <$> reply_of (ServeHTTP (occasion 50) get_x g) = Some 404.
Proof. vm_compute. auto. Qed.

(** With the shared secret set, the configured key is dropped, and the console
    accepts the built-in one. *)
Example shared_secret_opens_console :
  let g := NewGateway no_key (NewAuthProvider "shared" "u" "p" true) None None 0 false 0 0 in
  Status <$> reply_of (ServeHTTP (occasion 10) (request "POST" "/console/login" ∅ [] "minioadmin") g) = Some 200.
Proof. vm_compute. reflexivity. Qed.

(** A node that missed a write and has a shard of the version before is not
    found out: the put is accepted and the get mixes the versions. *)
Example stale_shard_is_used :
  let stale := mkNetwork (fun _ i _ => negb (i =? 0)%nat) (fun _ i => Some (mkShard (if (i =? 0)%nat then byt "HELLO" else byt "hello") (shard_content_type 5) "v" "e")) "" in
  let cl := mkCluster (Some three_nodes) "b" {["a"; "b"; "c"]} {["a" := "a:1"; "b" := "b:1"; "c" := "c:1"]} in
  let '(resp, g) := handlePutObjectErasure (at_time 10) stale cl put_x "b" "x" shard_node in
  Status resp = 200 /\ Doc (handleGetObjectErasure (at_time 20) stale [0; 1; 2]%nat cl get_x "b" "x" g) = Content (byt "HELLO").
Proof. vm_compute. auto. Qed.
