(* ===== verification/Secrets.v ===== *)
(** * The secret manager ([secret/pkg/storage], [secret/pkg/handlers],
    [secret/main.go])

    Three stores behind one interface (in memory, in an encrypted file, at an
    external provider), the audit log that every access appends to, and the
    HTTP handlers.  [Env] is what a call meets outside: clock, random bytes,
    and whether reading and writing files succeeds.  The class [SecretCodec]
    has the cipher, the keyed hash and the encodings.

    The file store gives the answers of the store in memory, across rotations
    of the key and restarts, as long as its file can be read and written; what
    happens otherwise is at the end. *)

From S2P Require Import Prelude GoStrings GoNumbers GoTime GatewayParts Core.
Local Open Scope string_scope.
Local Open Scope Z_scope.
Local Open Scope list_scope.

(** ** Data *)

(** For each tenant and key the values, the latest one last. *)
Abbreviation Data := (gmap string (gmap string (list string))).

Definition history (d : Data) (t k : string) : option (list string) := d !! t ≫= (fun m => m !! k).

Inductive SecretErr :=
| ErrSecretNotFound | ErrInvalidKey | NoOlderVersion | ReadFailed | CiphertextTooShort | DecryptFailed | DecodeFailed | WriteFailed | RandomFailed
| UnknownProvider (provider : string).

Record AuditRecord := mkAudit { a_Timestamp : string; a_TenantID : string; a_Action : string; a_Key : string; PrevHash : string; Hash : string }.

(** The end of the chain in memory, and the records in the file. *)
Record AuditLog := mkLog { lastHash : string; records : list AuditRecord }.

(** Writing a file fails before it is opened, or after some bytes. *)
Inductive Write_ := Writes | WriteFails (written : option nat).

Record Env := mkEnv { instant : nat -> Z; nonce : bytes; can_read : bool; write : Write_; audit_written : bool }.

Class SecretCodec := {
  Seal : bytes -> bytes -> bytes -> bytes;
  Open : bytes -> bytes -> bytes -> option bytes;
  Open_Seal : forall key nonce p, Open key nonce (Seal key nonce p) = Some p;
  encode : Data -> bytes;
  decode : bytes -> option Data;
  decode_legacy : bytes -> option (gmap string (gmap string string));
  (** JSON keeps text that is valid UTF-8; ASCII is. *)
  decode_encode : forall d, (forall t m k h, d !! t = Some m -> m !! k = Some h -> ascii_text k /\ Forall ascii_text h) ->
    (forall t m, d !! t = Some m -> ascii_text t) -> decode (encode d) = Some d;
  hmac_sha256 : bytes -> bytes -> bytes;
  hmac_size : forall k p, length (hmac_sha256 k p) = 32%nat;
  error_text : SecretErr -> string;
  decode_secret : string -> option (string * string);
  decode_rotate : string -> option string;
  decode_rollback : string -> option string;
  (** [net.SplitHostPort], the host. *)
  host_of : string -> string }.

(** ** The audit log ([audit.go]) *)

Section Secrets.
Context `{codec : SecretCodec}.

Definition auditKey : bytes := byt "Pranor Secret-audit-signing-key-12345".

Definition audit_payload (timestamp tenantID action key prev : string) : string :=
  timestamp +:+ "|" +:+ tenantID +:+ "|" +:+ action +:+ "|" +:+ key +:+ "|" +:+ prev.

Definition audit_hash (timestamp tenantID action key prev : string) : string := hex (hmac_sha256 auditKey (byt (audit_payload timestamp tenantID action key prev))).

(** Another file, and a chain that begins anew. *)
Definition SetAuditLogPath (existing : list AuditRecord) : AuditLog := mkLog "" existing.

Definition LogAuditEvent (e : Env) (i : nat) (tenantID action key : string) (a : AuditLog) : AuditLog :=
  let timestamp := time_Format RFC3339 (instant e i) in
  let currentHash := audit_hash timestamp tenantID action key (lastHash a) in
  let record := mkAudit timestamp tenantID action key (lastHash a) currentHash in
  mkLog currentHash (if audit_written e then records a ++ [record] else records a).

Fixpoint verify_records (expectedPrevHash : string) (rs : list AuditRecord) : bool :=
  match rs with
  | [] => true
  | r :: rs =>
      if negb (bool_decide (audit_hash (a_Timestamp r) (a_TenantID r) (a_Action r) (a_Key r) (PrevHash r) = Hash r)) then false
      else if negb (bool_decide (PrevHash r = expectedPrevHash)) then false
      else verify_records (Hash r) rs
  end.

Definition VerifyAuditLog (a : AuditLog) : bool := verify_records "" (records a).

(** ** In memory ([storage.go]) *)

Record InMemoryStore := mkMemory { m_data : Data; m_restrictions : gmap string (gmap string string) }.

Definition NewInMemoryStore : InMemoryStore := mkMemory ∅ ∅.

(** [data[t][k] = append(data[t][k], v)], the inner map made on demand. *)
Definition append_version (t k v : string) (d : Data) : Data :=
  let m := default ∅ (d !! t) in <[t := <[k := default [] (m !! k) ++ [v]]> m]> d.

Definition mem_Set (e : Env) (t k v : string) (s : InMemoryStore) (a : AuditLog) : option SecretErr * InMemoryStore * AuditLog :=
  (None, mkMemory (append_version t k v (m_data s)) (m_restrictions s), LogAuditEvent e 0 t "SET" k a).

Definition dynamic_credentials : string := "db_user_temp_abc:temp_pass_xyz_998".

Definition latest (d : Data) (t k : string) : option string := history d t k ≫= last.

Definition mem_Get (e : Env) (t k : string) (s : InMemoryStore) (a : AuditLog) : (SecretErr + string) * InMemoryStore * AuditLog :=
  match latest (m_data s) t k with
  | Some v => (inr v, s, LogAuditEvent e 0 t "GET" k a)
  | None => if bool_decide (k = "db-credentials") then (inr dynamic_credentials, s, LogAuditEvent e 0 t "DYNAMIC_DB_CRED_GEN" k a)
            else (inl ErrSecretNotFound, s, a)
  end.

(** [delete(data[t], k)]; [None] when there is nothing to delete. *)
Definition delete_key (t k : string) (d : Data) : option Data :=
  match d !! t with
  | None => None
  | Some m => match m !! k with None => None | Some _ => Some (<[t := delete k m]> d) end
  end.

Definition mem_Delete (e : Env) (t k : string) (s : InMemoryStore) (a : AuditLog) : option SecretErr * InMemoryStore * AuditLog :=
  match delete_key t k (m_data s) with
  | None => (Some ErrSecretNotFound, s, a)
  | Some d => (None, mkMemory d (m_restrictions s), LogAuditEvent e 0 t "DELETE" k a)
  end.

(** The keys in some order. *)
Definition mem_List (e : Env) (t : string) (s : InMemoryStore) (a : AuditLog) : (SecretErr + list string) * InMemoryStore * AuditLog :=
  match m_data s !! t with
  | None => (inr [], s, a)
  | Some m => (inr (map_to_list m).*1, s, LogAuditEvent e 0 t "LIST" "" a)
  end.

Definition mem_RotateMasterKey (e : Env) (newKey : bytes) (s : InMemoryStore) (a : AuditLog) : option SecretErr * InMemoryStore * AuditLog :=
  (None, s, LogAuditEvent e 0 "default" "ROTATE" "" a).

(** The history without its last value. *)
Definition drop_version (t k : string) (d : Data) : SecretErr + Data :=
  match d !! t with
  | None => inl ErrSecretNotFound
  | Some m =>
      match m !! k with
      | Some h => if (length h <=? 1)%nat then inl NoOlderVersion else inr (<[t := <[k := removelast h]> m]> d)
      | None => inl NoOlderVersion
      end
  end.

Definition mem_Rollback (e : Env) (t k : string) (s : InMemoryStore) (a : AuditLog) : option SecretErr * InMemoryStore * AuditLog :=
  match drop_version t k (m_data s) with
  | inl err => (Some err, s, a)
  | inr d => (None, mkMemory d (m_restrictions s), LogAuditEvent e 0 t "ROLLBACK" k a)
  end.

Definition set_restriction (t k cidr : string) (r : gmap string (gmap string string)) : gmap string (gmap string string) :=
  <[t := <[k := cidr]> (default ∅ (r !! t))]> r.

Definition verify_restriction `{Net} (t k ip : string) (r : gmap string (gmap string string)) : bool :=
  match r !! t ≫= (fun m => m !! k) with
  | None => true
  | Some cidr =>
      if bool_decide (cidr = "") then true else
      match ParseCIDR cidr with
      | None => true
      | Some contains => match ParseIP ip with Some addr => contains addr | None => false end
      end
  end.

Definition mem_SetIPRestriction (t k cidr : string) (s : InMemoryStore) : InMemoryStore := mkMemory (m_data s) (set_restriction t k cidr (m_restrictions s)).

Definition mem_VerifyIPRestriction `{Net} (t k ip : string) (s : InMemoryStore) : bool := verify_restriction t k ip (m_restrictions s).

(** ** In a file ([file_store.go]) *)

Record EncryptedFileStore := mkFileStore {
  file : option bytes; masterKey : bytes; cache : gmap string (gmap string (string * Z)); cacheTTL : Z; f_restrictions : gmap string (gmap string string) }.

Definition NewEncryptedFileStore (file : option bytes) (masterKey : bytes) : option EncryptedFileStore :=
  if negb (length masterKey =? 32)%nat then None else Some (mkFileStore file masterKey ∅ (5 * Minute) ∅).

Definition NonceSize : nat := 12.

Definition migrate_legacy (l : gmap string (gmap string string)) : Data := fmap (fun m : gmap string string => fmap (fun v : string => [v]) m) l.

Definition readData (e : Env) (s : EncryptedFileStore) : SecretErr + Data :=
  match file s with
  | None => inr ∅
  | Some ciphertext =>
      if negb (can_read e) then inl ReadFailed
      else if bool_decide (ciphertext = []) then inr ∅
      else if (length ciphertext <? NonceSize)%nat then inl CiphertextTooShort
      else match Open (masterKey s) (take NonceSize ciphertext) (drop NonceSize ciphertext) with
           | None => inl DecryptFailed
           | Some plaintext =>
               match decode plaintext with
               | Some data => inr data
               | None => match decode_legacy plaintext with Some l => inr (migrate_legacy l) | None => inl DecodeFailed end
               end
           end
  end.

Definition with_file (f : option bytes) (s : EncryptedFileStore) : EncryptedFileStore := mkFileStore f (masterKey s) (cache s) (cacheTTL s) (f_restrictions s).
Definition with_cache (c : gmap string (gmap string (string * Z))) (s : EncryptedFileStore) : EncryptedFileStore :=
  mkFileStore (file s) (masterKey s) c (cacheTTL s) (f_restrictions s).
Definition with_key (k : bytes) (s : EncryptedFileStore) : EncryptedFileStore := mkFileStore (file s) k (cache s) (cacheTTL s) (f_restrictions s).

(** [os.WriteFile] empties the file before it writes. *)
Definition writeData (e : Env) (d : Data) (s : EncryptedFileStore) : option SecretErr * EncryptedFileStore :=
  let ciphertext := nonce e ++ Seal (masterKey s) (nonce e) (encode d) in
  match write e with
  | Writes => (None, with_file (Some ciphertext) s)
  | WriteFails None => (Some WriteFailed, s)
  | WriteFails (Some n) => (Some WriteFailed, with_file (Some (take n ciphertext)) s)
  end.

Definition to_cache (e : Env) (i : nat) (t k v : string) (s : EncryptedFileStore) : EncryptedFileStore :=
  with_cache (<[t := <[k := (v, instant e i + cacheTTL s)]> (default ∅ (cache s !! t))]> (cache s)) s.

Definition from_cache (now : Z) (t k : string) (s : EncryptedFileStore) : option string :=
  match cache s !! t ≫= (fun m => m !! k) with
  | Some (v, expiresAt) => if now <? expiresAt then Some v else None
  | None => None
  end.

Definition uncache (t k : string) (s : EncryptedFileStore) : EncryptedFileStore :=
  match cache s !! t with Some m => with_cache (<[t := delete k m]> (cache s)) s | None => s end.

Definition file_Set (e : Env) (t k v : string) (s : EncryptedFileStore) (a : AuditLog) : option SecretErr * EncryptedFileStore * AuditLog :=
  match readData e s with
  | inl err => (Some err, s, a)
  | inr data => let '(err, s) := writeData e (append_version t k v data) (to_cache e 0 t k v s) in (err, s, LogAuditEvent e 1 t "SET" k a)
  end.

(** The part of [Get] under the write lock, with its second look into the
    cache; other calls may run before it. *)
Definition get_locked (e : Env) (t k : string) (s : EncryptedFileStore) (a : AuditLog) : (SecretErr + string) * EncryptedFileStore * AuditLog :=
  match from_cache (instant e 1) t k s with
  | Some v => (inr v, s, LogAuditEvent e 2 t "GET" k a)
  | None =>
      if bool_decide (k = "db-credentials") then
        match readData e s with
        | inr data => match latest data t k with
                      | Some v => (inr v, s, LogAuditEvent e 2 t "GET" k a)
                      | None => (inr dynamic_credentials, s, LogAuditEvent e 2 t "DYNAMIC_DB_CRED_GEN" k a)
                      end
        | inl _ => (inr dynamic_credentials, s, LogAuditEvent e 2 t "DYNAMIC_DB_CRED_GEN" k a)
        end
      else match readData e s with
           | inl err => (inl err, s, a)
           | inr data => match latest data t k with
                         | None => (inl ErrSecretNotFound, s, a)
                         | Some v => (inr v, to_cache e 2 t k v s, LogAuditEvent e 3 t "GET" k a)
                         end
           end
  end.

Definition file_Get (e : Env) (t k : string) (s : EncryptedFileStore) (a : AuditLog) : (SecretErr + string) * EncryptedFileStore * AuditLog :=
  match from_cache (instant e 0) t k s with
  | Some v => (inr v, s, LogAuditEvent e 1 t "GET" k a)
  | None => get_locked e t k s a
  end.

Definition file_Delete (e : Env) (t k : string) (s : EncryptedFileStore) (a : AuditLog) : option SecretErr * EncryptedFileStore * AuditLog :=
  match readData e s with
  | inl err => (Some err, s, a)
  | inr data =>
      match delete_key t k data with
      | None => (Some ErrSecretNotFound, s, a)
      | Some data => let '(err, s) := writeData e data (uncache t k s) in (err, s, LogAuditEvent e 0 t "DELETE" k a)
      end
  end.

Definition file_List (e : Env) (t : string) (s : EncryptedFileStore) (a : AuditLog) : (SecretErr + list string) * EncryptedFileStore * AuditLog :=
  match readData e s with
  | inl err => (inl err, s, a)
  | inr data => match data !! t with None => (inr [], s, a) | Some m => (inr (map_to_list m).*1, s, LogAuditEvent e 0 t "LIST" "" a) end
  end.

Definition file_RotateMasterKey (e : Env) (newKey : bytes) (s : EncryptedFileStore) (a : AuditLog) : option SecretErr * EncryptedFileStore * AuditLog :=
  if negb (length newKey =? 32)%nat then (Some ErrInvalidKey, s, a) else
  match readData e s with
  | inl err => (Some err, s, a)
  | inr data => let '(err, s) := writeData e data (with_key newKey (with_cache ∅ s)) in (err, s, LogAuditEvent e 0 "default" "ROTATE" "" a)
  end.

Definition file_Rollback (e : Env) (t k : string) (s : EncryptedFileStore) (a : AuditLog) : option SecretErr * EncryptedFileStore * AuditLog :=
  match readData e s with
  | inl err => (Some err, s, a)
  | inr data =>
      match drop_version t k data with
      | inl err => (Some err, s, a)
      | inr data => let '(err, s) := writeData e data (uncache t k s) in (err, s, LogAuditEvent e 0 t "ROLLBACK" k a)
      end
  end.

Definition file_SetIPRestriction (t k cidr : string) (s : EncryptedFileStore) : EncryptedFileStore :=
  mkFileStore (file s) (masterKey s) (cache s) (cacheTTL s) (set_restriction t k cidr (f_restrictions s)).

Definition file_VerifyIPRestriction `{Net} (t k ip : string) (s : EncryptedFileStore) : bool := verify_restriction t k ip (f_restrictions s).

(** ** At a provider ([provider_store.go]) *)

Record ExternalProviderStore := mkProviderStore {
  provider : string; vaultStore : gmap string (gmap string string); awsStore : gmap string (gmap string string); dopplerStore : gmap string (gmap string string) }.

Definition NewExternalProviderStore (provider : string) : ExternalProviderStore :=
  mkProviderStore provider {["default" := {["vault-secret" := "vault-value-123"]}]} {["default" := {["aws-secret" := "aws-value-456"]}]}
    {["default" := {["doppler-secret" := "doppler-value-789"]}]}.

Definition provider_store (s : ExternalProviderStore) : SecretErr + gmap string (gmap string string) :=
  if bool_decide (provider s = "vault") then inr (vaultStore s)
  else if bool_decide (provider s = "aws") then inr (awsStore s)
  else if bool_decide (provider s = "doppler") then inr (dopplerStore s)
  else inl (UnknownProvider (provider s)).

Definition with_provider_store (m : gmap string (gmap string string)) (s : ExternalProviderStore) : ExternalProviderStore :=
  if bool_decide (provider s = "vault") then mkProviderStore (provider s) m (awsStore s) (dopplerStore s)
  else if bool_decide (provider s = "aws") then mkProviderStore (provider s) (vaultStore s) m (dopplerStore s)
  else mkProviderStore (provider s) (vaultStore s) (awsStore s) m.

Definition prov_Set (e : Env) (t k v : string) (s : ExternalProviderStore) (a : AuditLog) : option SecretErr * ExternalProviderStore * AuditLog :=
  let a := LogAuditEvent e 0 t "PROVIDER_SET" k a in
  match provider_store s with
  | inl err => (Some err, s, a)
  | inr m => (None, with_provider_store (<[t := <[k := v]> (default ∅ (m !! t))]> m) s, a)
  end.

Definition prov_Get (e : Env) (t k : string) (s : ExternalProviderStore) (a : AuditLog) : (SecretErr + string) * ExternalProviderStore * AuditLog :=
  let a := LogAuditEvent e 0 t "PROVIDER_GET" k a in
  match provider_store s with
  | inl err => (inl err, s, a)
  | inr m => match m !! t ≫= (fun x => x !! k) with Some v => (inr v, s, a) | None => (inl ErrSecretNotFound, s, a) end
  end.

Definition prov_Delete (e : Env) (t k : string) (s : ExternalProviderStore) (a : AuditLog) : option SecretErr * ExternalProviderStore * AuditLog :=
  let a := LogAuditEvent e 0 t "PROVIDER_DELETE" k a in
  match provider_store s with
  | inl err => (Some err, s, a)
  | inr m =>
      match m !! t with
      | None => (Some ErrSecretNotFound, s, a)
      | Some x => match x !! k with None => (Some ErrSecretNotFound, s, a) | Some _ => (None, with_provider_store (<[t := delete k x]> m) s, a) end
      end
  end.

Definition prov_List (e : Env) (t : string) (s : ExternalProviderStore) (a : AuditLog) : (SecretErr + list string) * ExternalProviderStore * AuditLog :=
  let a := LogAuditEvent e 0 t "PROVIDER_LIST" "" a in
  match provider_store s with
  | inl err => (inl err, s, a)
  | inr m => (inr (map_to_list (default ∅ (m !! t))).*1, s, a)
  end.

Definition prov_RotateMasterKey (e : Env) (newKey : bytes) (s : ExternalProviderStore) (a : AuditLog) : option SecretErr * ExternalProviderStore * AuditLog :=
  (None, s, LogAuditEvent e 0 "default" "PROVIDER_ROTATE" "" a).

Definition prov_Rollback (e : Env) (t k : string) (s : ExternalProviderStore) (a : AuditLog) : option SecretErr * ExternalProviderStore * AuditLog := (None, s, a).

(** ** The interface *)

Class SecretStore `{Net} (St : Type) := {
  store_Set : Env -> string -> string -> string -> St -> AuditLog -> option SecretErr * St * AuditLog;
  store_Get : Env -> string -> string -> St -> AuditLog -> (SecretErr + string) * St * AuditLog;
  store_Delete : Env -> string -> string -> St -> AuditLog -> option SecretErr * St * AuditLog;
  store_List : Env -> string -> St -> AuditLog -> (SecretErr + list string) * St * AuditLog;
  store_RotateMasterKey : Env -> bytes -> St -> AuditLog -> option SecretErr * St * AuditLog;
  store_Rollback : Env -> string -> string -> St -> AuditLog -> option SecretErr * St * AuditLog;
  store_SetIPRestriction : string -> string -> string -> St -> St;
  store_VerifyIPRestriction : string -> string -> string -> St -> bool }.

#[global] Instance memory_store `{Net} : SecretStore InMemoryStore :=
  Build_SecretStore _ InMemoryStore mem_Set mem_Get mem_Delete mem_List mem_RotateMasterKey mem_Rollback mem_SetIPRestriction mem_VerifyIPRestriction.

#[global] Instance file_store `{Net} : SecretStore EncryptedFileStore :=
  Build_SecretStore _ EncryptedFileStore file_Set file_Get file_Delete file_List file_RotateMasterKey file_Rollback file_SetIPRestriction file_VerifyIPRestriction.

#[global] Instance external_store `{Net} : SecretStore ExternalProviderStore :=
  Build_SecretStore _ ExternalProviderStore prov_Set prov_Get prov_Delete prov_List prov_RotateMasterKey prov_Rollback (fun _ _ _ s => s) (fun _ _ _ _ => true).

(** ** Handlers ([handlers.go]) *)

Inductive Answer :=
| PSecret (key value : string) | PKeys (keys : list string) | PDeleted (key : string) | PRotated | PRolledBack | PText (t : string).

Section Handlers.
Context `{net : Net} `{!SecretStore St}.
Implicit Types (r : Request) (w : St * AuditLog).

Definition reply : Type := Reply Answer.

Definition not_allowed : reply := WriteJSONError "Method not allowed" "ERR_METHOD_NOT_ALLOWED" 405.
Definition bad_body : reply := WriteJSONError "Invalid request body" "ERR_BAD_REQUEST" 400.

Definition handleSet (e : Env) (r : Request) (t : string) (w : St * AuditLog) : reply * (St * AuditLog) :=
  match decode_secret (Body r) with
  | None => (bad_body, w)
  | Some (key, value) =>
      if bool_decide (key = "") || bool_decide (value = "") then (WriteJSONError "Key and Value are required fields" "ERR_BAD_REQUEST" 400, w) else
      let '(err, s, a) := store_Set e t key value w.1 w.2 in
      (match err with
       | Some err => WriteJSONError ("Failed to save secret: " +:+ error_text err) "ERR_INTERNAL" 500
       | None => mkReply 201 (Core.Data (PSecret key value))
       end, (s, a))
  end.

Definition handleGet (e : Env) (r : Request) (t key : string) (w : St * AuditLog) : reply * (St * AuditLog) :=
  let ip := host_of (RemoteAddr r) in
  let ip := if bool_decide (ip = "") then RemoteAddr r else ip in
  if negb (store_VerifyIPRestriction t key ip w.1) then (WriteJSONError "Forbidden: IP policy restriction" "ERR_FORBIDDEN" 403, w) else
  let '(result, s, a) := store_Get e t key w.1 w.2 in
  (match result with
   | inl ErrSecretNotFound => WriteJSONError "Secret not found" "ERR_NOT_FOUND" 404
   | inl err => WriteJSONError ("Failed to get secret: " +:+ error_text err) "ERR_INTERNAL" 500
   | inr v => mkReply 200 (Core.Data (PSecret key v))
   end, (s, a)).

Definition handleDelete (e : Env) (t key : string) (w : St * AuditLog) : reply * (St * AuditLog) :=
  let '(err, s, a) := store_Delete e t key w.1 w.2 in
  (match err with
   | Some ErrSecretNotFound => WriteJSONError "Secret not found" "ERR_NOT_FOUND" 404
   | Some err => WriteJSONError ("Failed to delete secret: " +:+ error_text err) "ERR_INTERNAL" 500
   | None => mkReply 200 (Core.Data (PDeleted key))
   end, (s, a)).

Definition handleList (e : Env) (t : string) (w : St * AuditLog) : reply * (St * AuditLog) :=
  let '(result, s, a) := store_List e t w.1 w.2 in
  (match result with
   | inl err => WriteJSONError ("Failed to list secrets: " +:+ error_text err) "ERR_INTERNAL" 500
   | inr keys => mkReply 200 (Core.Data (PKeys keys))
   end, (s, a)).

(** 64 hexadecimal digits, or 32 bytes as they are. *)
Definition parse_key (text : string) : option bytes :=
  match unhex (byt text) with
  | Some k => if (length k =? 32)%nat then Some k else if (length (byt text) =? 32)%nat then Some (byt text) else None
  | None => if (length (byt text) =? 32)%nat then Some (byt text) else None
  end.

Definition handleRotate (e : Env) (r : Request) (w : St * AuditLog) : reply * (St * AuditLog) :=
  match decode_rotate (Body r) with
  | None => (bad_body, w)
  | Some text =>
      match parse_key text with
      | None => (WriteJSONError "New master key must be 32 bytes (or 64-character hex)" "ERR_BAD_REQUEST" 400, w)
      | Some newKey =>
          let '(err, s, a) := store_RotateMasterKey e newKey w.1 w.2 in
          (match err with
           | Some err => WriteJSONError ("Failed to rotate master key: " +:+ error_text err) "ERR_INTERNAL" 500
           | None => mkReply 200 (Core.Data PRotated)
           end, (s, a))
      end
  end.

(** The tenant of the context, which [TenantMiddleware] sets. *)
Definition tenant_of (r : Request) : string :=
  let t := default "" (ctx_tenant r) in if bool_decide (t = "") then "default" else t.

Definition key_of (path : string) : string := TrimPrefix (TrimPrefix (TrimPrefix path "/api/secrets") "/v1") "/".

Definition HandleSecretRoute (e : Env) (r : Request) (w : St * AuditLog) : reply * (St * AuditLog) :=
  let t := tenant_of r in
  let key := key_of (Path r) in
  let m := Method r in
  if bool_decide (key = "rotate") then if bool_decide (m = "POST") then handleRotate e r w else (not_allowed, w)
  else if bool_decide (key = "") then
    if bool_decide (m = "GET") then handleList e t w else if bool_decide (m = "POST") then handleSet e r t w else (not_allowed, w)
  else if bool_decide (m = "GET") then handleGet e r t key w
  else if bool_decide (m = "DELETE") then handleDelete e t key w
  else (not_allowed, w).

Definition HandleSecretRollback (e : Env) (r : Request) (w : St * AuditLog) : reply * (St * AuditLog) :=
  if negb (bool_decide (Method r = "POST")) then (not_allowed, w) else
  let t := header_tenant r in
  match decode_rollback (Body r) with
  | None => (bad_body, w)
  | Some key =>
      if bool_decide (key = "") then (WriteJSONError "Key is required" "ERR_BAD_REQUEST" 400, w) else
      let '(err, s, a) := store_Rollback e t key w.1 w.2 in
      (match err with
       | Some err => WriteJSONError (error_text err) "ERR_BAD_REQUEST" 400
       | None => mkReply 200 (Core.Data PRolledBack)
       end, (s, a))
  end.

(** ** The server ([main.go]) *)

(** What the first three answer is of no matter here. *)
Definition mux (e : Env) : Handler Answer (St * AuditLog) := fun r w =>
  if bool_decide (Path r = "/healthz") || bool_decide (Path r = "/readyz") || bool_decide (Path r = "/api/version") then (mkReply 200 (Core.Data (PText "ok")), w)
  else if bool_decide (Path r = "/api/secrets/rollback") then HandleSecretRollback e r w
  else if bool_decide (Path r = "/api/secrets") || HasPrefix (Path r) "/api/secrets/" then HandleSecretRoute e r w
  else (mkReply 404 (Error "404 page not found" ""), w).

Definition v1_path (path : string) : string := if HasPrefix path "/api/v1/" then "/api/" +:+ TrimPrefix path "/api/v1/" else path.

Definition v1Wrapper (e : Env) : Handler Answer (St * AuditLog) := fun r w => mux e (with_path (v1_path (Path r)) r) w.

Definition presented_key (r : Request) : string :=
  if bool_decide (Header r "X-API-Key" = "")
  then if HasPrefix (Header r "Authorization") "Bearer " then TrimPrefix (Header r "Authorization") "Bearer " else ""
  else Header r "X-API-Key".

Definition apiKeyAuth (apiKeys : list string) (next : Handler Answer (St * AuditLog)) : Handler Answer (St * AuditLog) := fun r w =>
  if bool_decide (Path r = "/healthz") || bool_decide (Path r = "/readyz") then next r w
  else if existsb (fun allowed => bool_decide (presented_key r = allowed)) apiKeys then next r w
  else (mkReply 401 (Error "Unauthorized: invalid or missing API key" ""), w).

(** With keys configured, these are checked; otherwise the tokens of [core]. *)
Definition serve_keys (apiKeys : list string) (e : Env) : Handler Answer (St * AuditLog) := apiKeyAuth apiKeys (v1Wrapper e).

Definition serve_tokens `{jwt : Jwt} (secret jwksURL : string) (e : Env) (fetched : string + list (string * string)) : Handler Answer (AuthValidator * (St * AuditLog)) :=
  AuthMiddleware secret jwksURL (fun n => instant e (4 + n)) fetched (TenantMiddleware (v1Wrapper e)).

(** The master key of the configuration, as it is or cut or filled up, or a
    random one. *)
Definition configured_key (random : bytes) (text : string) : bytes :=
  if bool_decide (text = "") then random else
  match parse_key text with Some k => k | None => take 32 (byt text ++ replicate 32 NUL) end.
End Handlers.

(** The rotation every 90 days, with a key from the random source. *)
Definition PerformKeyRotation (e : Env) (random : option bytes) (s : EncryptedFileStore) (a : AuditLog) : option SecretErr * EncryptedFileStore * AuditLog :=
  match random with
  | None => (Some RandomFailed, s, a)
  | Some newKey => file_RotateMasterKey e newKey s a
  end.

(** The copy every 24 hours, under the time of its making. *)
Definition PerformBackup (e : Env) (s : EncryptedFileStore) (backups : gmap Z bytes) : option SecretErr * gmap Z bytes :=
  match file s with
  | None => (None, backups)
  | Some data =>
      if negb (can_read e) then (Some ReadFailed, backups) else
      match write e with
      | Writes => (None, <[instant e 0 := data]> backups)
      | WriteFails None => (Some WriteFailed, backups)
      | WriteFails (Some n) => (Some WriteFailed, <[instant e 0 := take n data]> backups)
      end
  end.

(** ** The file store is the store in memory

    The same operations on both; [GetLocked] is the second half of a [Get]
    that others overtook, and a restart opens the file again with the key of
    the configuration at that start. *)

Inductive secret_op :=
| OSet (t k v : string) | OGet (t k : string) | OGetLocked (t k : string) | ODelete (t k : string) | OList (t : string)
| ORotate (key : bytes) | ORollback (t k : string) | ORestart (key : bytes).

Inductive secret_out := Done (e : option SecretErr) | Value (r : SecretErr + string) | Keys (r : SecretErr + gset string).

(** A listing has its keys in no particular order. *)
Definition key_set (r : SecretErr + list string) : secret_out := Keys (sum_map id list_to_set r).

Definition out_of {A S} (f : A -> secret_out) (x : A * S * AuditLog) : secret_out * S := (f x.1.1, x.1.2).

Definition exec_file (e : Env) (o : secret_op) (a : AuditLog) (s : EncryptedFileStore) : secret_out * EncryptedFileStore :=
  match o with
  | OSet t k v => out_of Done (file_Set e t k v s a)
  | OGet t k => out_of Value (file_Get e t k s a)
  | OGetLocked t k => out_of Value (get_locked e t k s a)
  | ODelete t k => out_of Done (file_Delete e t k s a)
  | OList t => out_of key_set (file_List e t s a)
  | ORotate key => out_of Done (file_RotateMasterKey e key s a)
  | ORollback t k => out_of Done (file_Rollback e t k s a)
  | ORestart key => match NewEncryptedFileStore (file s) key with Some s => (Done None, s) | None => (Done (Some ErrInvalidKey), s) end
  end.

Definition exec_memory (e : Env) (o : secret_op) (a : AuditLog) (s : InMemoryStore) : secret_out * InMemoryStore :=
  match o with
  | OSet t k v => out_of Done (mem_Set e t k v s a)
  | OGet t k | OGetLocked t k => out_of Value (mem_Get e t k s a)
  | ODelete t k => out_of Done (mem_Delete e t k s a)
  | OList t => out_of key_set (mem_List e t s a)
  | ORotate key => out_of Done (mem_RotateMasterKey e key s a)
  | ORollback t k => out_of Done (mem_Rollback e t k s a)
  | ORestart _ => (Done None, s)
  end.

(** The file can be read and written; keys have 32 bytes; text is ASCII. *)
Definition undisturbed (e : Env) (o : secret_op) : Prop :=
  can_read e = true /\ write e = Writes /\ length (nonce e) = NonceSize /\
  match o with OSet t k v => ascii_text t /\ ascii_text k /\ ascii_text v | ORotate key => length key = 32%nat | _ => True end.

(** The key the file is under after an operation; a restart is to be given it
    by the configuration. *)
Definition key_after (o : secret_op) (key : bytes) : bytes := match o with ORotate key' => key' | _ => key end.
Definition restart_fits (key : bytes) (o : secret_op) : Prop := match o with ORestart key' => key' = key | _ => True end.
Fixpoint configured_with (key : bytes) (ops : list secret_op) : Prop :=
  match ops with [] => True | o :: ops => restart_fits key o /\ configured_with (key_after o key) ops end.

Definition plain_data (d : Data) : Prop :=
  (forall t m k h, d !! t = Some m -> m !! k = Some h -> ascii_text k /\ Forall ascii_text h) /\ (forall t m, d !! t = Some m -> ascii_text t).

(** The file holds the data, and the cache nothing but latest values. *)
Record mirrors (s : EncryptedFileStore) (d : Data) : Prop := {
  mirrors_file : forall e, can_read e = true -> readData e s = inr d;
  mirrors_cache : forall now t k v, from_cache now t k s = Some v -> latest d t k = Some v;
  mirrors_plain : plain_data d;
  mirrors_key : length (masterKey s) = 32%nat }.

Lemma latest_append t k v d t' k' : latest (append_version t k v d) t' k' = if decide (t' = t /\ k' = k) then Some v else latest d t' k'.
Proof.
  unfold latest, history, append_version. destruct (decide (t' = t)) as [->|Ht].
  - rewrite lookup_insert_eq. cbn. destruct (decide (k' = k)) as [->|Hk].
    + rewrite decide_True, lookup_insert_eq by done. cbn. by rewrite last_snoc.
    + rewrite decide_False, lookup_insert_ne by naive_solver. by destruct (d !! t).
  - rewrite decide_False, lookup_insert_ne by naive_solver. done.
Qed.

(** Another history for one key. *)
Lemma latest_other (d : Data) t m m' k t' k' : d !! t = Some m -> (forall k', k' <> k -> m' !! k' = m !! k') -> ~ (t' = t /\ k' = k) -> latest (<[t := m']> d) t' k' = latest d t' k'.
Proof.
  intros Hd Hm Hne. unfold latest, history. destruct (decide (t' = t)) as [->|Ht]; [|by rewrite lookup_insert_ne].
  rewrite lookup_insert_eq, Hd. cbn. rewrite Hm; [done|]. naive_solver.
Qed.

(** Data that may be written is read back, and the cache agrees with it. *)
Lemma mirrors_written e d s : can_read e = true -> write e = Writes -> length (nonce e) = NonceSize -> plain_data d -> length (masterKey s) = 32%nat ->
  (forall now t k v, from_cache now t k s = Some v -> latest d t k = Some v) ->
  exists s', writeData e d s = (None, s') /\ mirrors s' d.
Proof.
  intros Hr Hw Hn Hp Hk Hc. unfold writeData. rewrite Hw. eexists. split; [done|]. split; [|exact Hc|done|done].
  intros e' Hr'. unfold readData. cbn [file with_file masterKey]. rewrite Hr'. cbn [negb].
  rewrite bool_decide_false by (intros E; apply (f_equal length) in E; rewrite length_app, Hn in E; discriminate E).
  destruct (Nat.ltb_spec (length (nonce e ++ Seal (masterKey s) (nonce e) (encode d))) NonceSize) as [H|_]; [rewrite length_app in H; lia|].
  rewrite <- Hn, take_app_length, drop_app_length, Open_Seal. destruct Hp as [Hp1 Hp2]. by rewrite decode_encode.
Qed.

Lemma from_to_cache e i t k v s now t' k' v' : from_cache now t' k' (to_cache e i t k v s) = Some v' -> (t' = t /\ k' = k /\ v' = v) \/ (~ (t' = t /\ k' = k) /\ from_cache now t' k' s = Some v').
Proof.
  unfold from_cache, to_cache. cbn [cache with_cache]. destruct (decide (t' = t)) as [->|Ht]; [|rewrite lookup_insert_ne by done; naive_solver].
  rewrite lookup_insert_eq. cbn. destruct (decide (k' = k)) as [->|Hk].
  - rewrite lookup_insert_eq. destruct (_ <? _); [|done]. intros [= <-]. by left.
  - rewrite lookup_insert_ne by done. intros H. right. split; [naive_solver|]. by destruct (cache s !! t).
Qed.

Lemma from_uncache t k s now t' k' v' : from_cache now t' k' (uncache t k s) = Some v' -> ~ (t' = t /\ k' = k) /\ from_cache now t' k' s = Some v'.
Proof.
  unfold uncache. destruct (cache s !! t) as [m|] eqn:E.
  - unfold from_cache. cbn [cache with_cache]. destruct (decide (t' = t)) as [->|Ht]; [|rewrite lookup_insert_ne by done; naive_solver].
    rewrite lookup_insert_eq, E. cbn. destruct (decide (k' = k)) as [->|Hk]; [by rewrite lookup_delete_eq|]. rewrite lookup_delete_ne by done. naive_solver.
  - intros H. split; [|done]. intros [-> ->]. unfold from_cache in H. by rewrite E in H.
Qed.

Lemma removelast_prefix {A} (P : A -> Prop) (l : list A) : Forall P l -> Forall P (removelast l).
Proof. induction l as [|x [|y l] IH]; intros H; [done|constructor|]. apply Forall_cons in H as [Hx H]. constructor; [done|by apply IH]. Qed.

Lemma plain_append t k v d : plain_data d -> ascii_text t -> ascii_text k -> ascii_text v -> plain_data (append_version t k v d).
Proof.
  intros [H1 H2] Ht Hk Hv. unfold append_version. split.
  - intros t' m k' h Hm Hh. apply lookup_insert_Some in Hm as [[<- <-]|[_ Hm]]; [|by eapply H1]. apply lookup_insert_Some in Hh as [[<- <-]|[_ Hh]].
    + split; [done|]. apply Forall_app. split; [|by repeat constructor]. destruct (d !! t) as [m|] eqn:Ed; cbn; [|rewrite lookup_empty; constructor].
      destruct (m !! k) as [h|] eqn:Eh; cbn; [|constructor]. by eapply H1.
    + destruct (d !! t) as [m|] eqn:Ed; cbn in Hh; [by eapply H1|by rewrite lookup_empty in Hh].
  - intros t' m Hm. apply lookup_insert_Some in Hm as [[<- _]|[_ Hm]]; [done|by eapply H2].
Qed.

Lemma plain_change d t m m' : plain_data d -> d !! t = Some m -> (forall k h, m' !! k = Some h -> ascii_text k /\ Forall ascii_text h) -> plain_data (<[t := m']> d).
Proof.
  intros [H1 H2] Hd Hm. split.
  - intros t' x k h Hx Hh. apply lookup_insert_Some in Hx as [[<- <-]|[_ Hx]]; [by apply Hm|by eapply H1].
  - intros t' x Hx. apply lookup_insert_Some in Hx as [[<- _]|[_ Hx]]; by eapply H2.
Qed.

(** Reading the latest value. *)
Lemma mirrors_get e t k s a d m : can_read e = true -> mirrors s d -> m_data m = d ->
  let '(r, s', _) := get_locked e t k s a in r = (mem_Get e t k m a).1.1 /\ mirrors s' d.
Proof.
  intros Hr [Hf Hc Hp Hk] Hm. unfold get_locked, mem_Get. rewrite Hm, (Hf e Hr). destruct (from_cache (instant e 1) t k s) as [v|] eqn:E; [by rewrite (Hc _ _ _ _ E)|].
  case_bool_decide; [by destruct (latest d t k)|]. destruct (latest d t k) as [v|] eqn:El; [|by split].
  split; [done|]. split; [exact Hf| |done|done]. intros now t' k' v' [(-> & -> & ->)|[_ H']]%from_to_cache; [done|by eapply Hc].
Qed.

(** Only a rotation changes the key. *)
Lemma exec_key e o a s d : undisturbed e o -> restart_fits (masterKey s) o -> mirrors s d -> masterKey (exec_file e o a s).2 = key_after o (masterKey s).
Proof.
  intros (Hr & Hw & _ & Ho) Hfit [Hf _ _ Hk]. destruct o; cbn in Ho, Hfit |- *; subst;
    unfold file_Set, file_Get, get_locked, file_Delete, file_List, file_RotateMasterKey, file_Rollback, writeData, to_cache, uncache, NewEncryptedFileStore, out_of;
    rewrite ?(Hf e Hr), ?Hw, ?Ho, ?Hk; repeat (case_match || case_bool_decide); by simplify_eq/=.
Qed.

Lemma exec_refines e o a s m : undisturbed e o -> restart_fits (masterKey s) o -> mirrors s (m_data m) ->
  (exec_file e o a s).1 = (exec_memory e o a m).1 /\ mirrors (exec_file e o a s).2 (m_data (exec_memory e o a m).2).
Proof.
  intros (Hr & Hw & Hn & Ho) Hfit Hmir. pose proof Hmir as [Hf Hc Hp Hk]. destruct o as [t k v|t k|t k|t k|t|key|t k|key]; cbn [exec_file exec_memory].
  - unfold file_Set, mem_Set. rewrite (Hf e Hr). destruct (mirrors_written e (append_version t k v (m_data m)) (to_cache e 0 t k v s)) as (s' & -> & H); try done.
    + destruct Ho as (H1 & H2 & H3). by apply plain_append.
    + intros now t' k' v' H. rewrite latest_append. apply from_to_cache in H as [(-> & -> & ->)|[Hne H]]; [by rewrite decide_True|]. rewrite decide_False by done. by eapply Hc.
  - unfold file_Get. destruct (from_cache (instant e 0) t k s) as [v|] eqn:E.
    + cbn. unfold mem_Get. by rewrite (Hc _ _ _ _ E).
    + pose proof (mirrors_get e t k s a (m_data m) m Hr Hmir eq_refl) as H. destruct (get_locked e t k s a) as [[r s'] a']. cbn. destruct H as [-> H].
      unfold mem_Get in *. destruct (latest (m_data m) t k); [done|]. by destruct (bool_decide _).
  - pose proof (mirrors_get e t k s a (m_data m) m Hr Hmir eq_refl) as H. destruct (get_locked e t k s a) as [[r s'] a']. cbn. destruct H as [-> H].
    unfold mem_Get in *. destruct (latest (m_data m) t k); [done|]. by destruct (bool_decide _).
  - unfold file_Delete, mem_Delete. rewrite (Hf e Hr). unfold delete_key. destruct (m_data m !! t) as [x|] eqn:Ex; [|done]. destruct (x !! k) as [h|] eqn:Eh; [|done].
    destruct (mirrors_written e (<[t := delete k x]> (m_data m)) (uncache t k s)) as (s' & -> & H); try done.
    + eapply plain_change; [done..|]. intros k' h' Hh. apply lookup_delete_Some in Hh as [_ Hh]. by eapply (proj1 Hp).
    + unfold uncache. by destruct (cache s !! t).
    + intros now t' k' v' [Hne H]%from_uncache. erewrite latest_other; [by eapply Hc|done| |done]. intros k'' Hk''. by rewrite lookup_delete_ne.
  - unfold file_List, mem_List. rewrite (Hf e Hr). by destruct (m_data m !! t).
  - unfold file_RotateMasterKey. rewrite Ho, (Hf e Hr). cbn. destruct (mirrors_written e (m_data m) (with_key key (with_cache ∅ s))) as (s' & -> & H); done.
  - unfold file_Rollback, mem_Rollback. rewrite (Hf e Hr). unfold drop_version. destruct (m_data m !! t) as [x|] eqn:Ex; [|done]. destruct (x !! k) as [h|] eqn:Eh; [|done].
    destruct (length h <=? 1)%nat; [done|]. destruct (mirrors_written e (<[t := <[k := removelast h]> x]> (m_data m)) (uncache t k s)) as (s' & -> & H); try done.
    + eapply plain_change; [done..|]. intros k' h' Hh. apply lookup_insert_Some in Hh as [[<- <-]|[_ Hh]]; [|by eapply (proj1 Hp)].
      destruct (proj1 Hp _ _ _ _ Ex Eh) as [H1 H2]. split; [done|by apply removelast_prefix].
    + unfold uncache. by destruct (cache s !! t).
    + intros now t' k' v' [Hne H]%from_uncache. erewrite latest_other; [by eapply Hc|done| |done]. intros k'' Hk''. by rewrite lookup_insert_ne.
  - cbn in Hfit. subst key. unfold NewEncryptedFileStore. rewrite Hk. cbn. split; [done|]. split; [exact Hf| |done|done].
    intros now t k v H. unfold from_cache in H. cbn in H. by rewrite lookup_empty in H.
Qed.

(** Operations one after the other, and their answers. *)
Fixpoint answers {S} (exec : Env -> secret_op -> AuditLog -> S -> secret_out * S) (steps : list (Env * secret_op * AuditLog)) (s : S) : list secret_out :=
  match steps with
  | [] => []
  | (e, o, a) :: steps => let '(out, s) := exec e o a s in out :: answers exec steps s
  end.

(** C9: the encrypted file store is a store of histories.  Whatever sets, gets,
    deletions, listings, rollbacks, rotations of the master key and restarts
    follow each other, at whatever times, its answers are those of the store in
    memory: its cache never serves a value that was replaced, deleted or rolled
    back, and no rotation or restart loses one.  Each restart is to be
    configured with the key in force (that of the last rotation, which the
    service itself keeps nowhere); files are to be readable and writable, keys
    32 bytes long and text ASCII. *)
Theorem file_store_refines_memory key steps :
  length key = 32%nat -> Forall (fun x => undisturbed x.1.1 x.1.2) steps -> configured_with key ((fun x => x.1.2) <$> steps) ->
  answers exec_file steps (mkFileStore None key ∅ (5 * Minute) ∅) = answers exec_memory steps NewInMemoryStore.
Proof.
  intros Hkey. assert (Hm : mirrors (mkFileStore None key ∅ (5 * Minute) ∅) (m_data NewInMemoryStore)) by by split.
  change key with (masterKey (mkFileStore None key ∅ (5 * Minute) ∅)) at 1.
  revert Hm. generalize (mkFileStore None key ∅ (5 * Minute) ∅) NewInMemoryStore. induction steps as [|[[e o] a] steps IH]; intros s m Hm Hs Hc; [done|].
  apply Forall_cons in Hs as [Ho Hs]. cbn in Ho, Hc. destruct Hc as [Hfit Hc]. destruct (exec_refines e o a s m Ho Hfit Hm) as [H1 H2].
  rewrite <- (exec_key e o a s _ Ho Hfit Hm) in Hc. cbn [answers].
  destruct (exec_file e o a s) as [out s']. destruct (exec_memory e o a m) as [out' m']. cbn in H1, H2, Hc. subst out'. f_equal. by apply IH.
Qed.

(** ** The audit log holds what it says *)

(** The hash a next record has to continue. *)
Definition chain_end (prev : string) (rs : list AuditRecord) : string := from_option Hash prev (last rs).

Definition record_ok (prev : string) (r : AuditRecord) : bool :=
  bool_decide (audit_hash (a_Timestamp r) (a_TenantID r) (a_Action r) (a_Key r) (PrevHash r) = Hash r) && bool_decide (PrevHash r = prev).

(** The log in memory goes on where the file ends, and the file verifies. *)
Definition linked (a : AuditLog) : Prop := VerifyAuditLog a = true /\ lastHash a = chain_end "" (records a).

Definition separable (r : AuditRecord) : Prop := Forall (fun f => "|"%char ∉ byt f) [a_Timestamp r; a_TenantID r; a_Action r; a_Key r].

Lemma verify_snoc prev rs r : verify_records prev (rs ++ [r]) = verify_records prev rs && record_ok (chain_end prev rs) r.
Proof.
  revert prev. induction rs as [|x rs IH]; intros prev; cbn.
  - unfold record_ok. by repeat case_bool_decide.
  - rewrite IH. do 2 (case_bool_decide; [cbn|done]). f_equal. destruct rs as [|y rs]; [done|]. unfold chain_end. cbn [last]. destruct (last (y :: rs)) eqn:E; [done|]. by apply last_None in E.
Qed.

Lemma LogAuditEvent_linked e i t action k a : audit_written e = true -> linked a -> linked (LogAuditEvent e i t action k a).
Proof.
  intros Hw [Hv Hl]. unfold LogAuditEvent. rewrite Hw. split; unfold VerifyAuditLog, chain_end in *; cbn [records lastHash].
  - rewrite verify_snoc, Hv. unfold record_ok. cbn. rewrite !bool_decide_true; done.
  - by rewrite last_snoc.
Qed.

Lemma hex_inj x y : hex x = hex y -> x = y.
Proof. intros E. apply (f_equal (fun s => unhex (byt s))) in E. unfold hex in E. rewrite !byt_str, !unhex_hex in E. congruence. Qed.

Lemma audit_hash_nonempty ts t act k p : audit_hash ts t act k p <> "".
Proof.
  intros E. change "" with (hex []) in E. apply hex_inj in E. pose proof (hmac_size auditKey (byt (audit_payload ts t act k p))) as H. by rewrite E in H.
Qed.

(** What stands before the first bar is known. *)
Lemma before_bar f f' x x' : "|"%char ∉ byt f -> "|"%char ∉ byt f' -> f +:+ "|" +:+ x = f' +:+ "|" +:+ x' -> f = f' /\ x = x'.
Proof.
  intros Hf Hf' E. apply (f_equal (fun s => bytes_Cut (byt s) ["|"%char])) in E. rewrite !byt_app in E. change (byt "|") with ["|"%char] in E. cbn [app] in E.
  rewrite !bytes_Cut_first in E by done. injection E as E1 E2. split; by apply byt_inj.
Qed.

(** What a record's hash is taken of, and records of two logs that show two
    different texts with one keyed hash. *)
Definition payload_of (r : AuditRecord) : string := audit_payload (a_Timestamp r) (a_TenantID r) (a_Action r) (a_Key r) (PrevHash r).
Definition colliding (r r' : AuditRecord) : Prop :=
  payload_of r <> payload_of r' /\ hmac_sha256 auditKey (byt (payload_of r)) = hmac_sha256 auditKey (byt (payload_of r')).
Definition collide (rs rs' : list AuditRecord) : Prop := exists r r', r ∈ rs /\ r' ∈ rs' /\ colliding r r'.

(** Records with one hash are one record, if they verify. *)
Lemma record_bound r r' : separable r -> separable r' -> record_ok (PrevHash r) r = true -> record_ok (PrevHash r') r' = true -> Hash r = Hash r' -> r = r' \/ colliding r r'.
Proof.
  unfold separable, record_ok, audit_hash, colliding, payload_of. destruct r as [ts t act k p h], r' as [ts' t' act' k' p' h']. cbn. rewrite !andb_true_iff, !bool_decide_eq_true.
  intros Hs Hs' [<- _] [<- _] E. apply hex_inj in E.
  destruct (decide (audit_payload ts t act k p = audit_payload ts' t' act' k' p')) as [Ep|]; [left|by right].
  rewrite !Forall_cons in Hs, Hs'. destruct Hs as (H1 & H2 & H3 & H4 & _), Hs' as (H1' & H2' & H3' & H4' & _). unfold audit_payload in Ep.
  do 4 (apply before_bar in Ep as [-> Ep]; [|done..]). by subst.
Qed.

Lemma record_ok_prev p r : record_ok p r = true -> PrevHash r = p /\ record_ok (PrevHash r) r = true.
Proof. unfold record_ok. rewrite !andb_true_iff, !bool_decide_eq_true. naive_solver. Qed.

Lemma verified_end rs : verify_records "" rs = true -> chain_end "" rs = "" -> rs = [].
Proof.
  destruct rs as [|r rs _] using rev_ind; [done|]. rewrite verify_snoc, andb_true_iff. intros [_ H]. unfold chain_end. rewrite last_snoc. cbn.
  unfold record_ok in H. rewrite andb_true_iff, bool_decide_eq_true in H. destruct H as [<- _]. intros E. by apply audit_hash_nonempty in E.
Qed.

(** C21: the last hash of the audit log stands for the whole log.  Two logs
    that both pass the verification and end with the same hash are equal,
    record for record, unless a record of the one and a record of the other
    are a collision of the keyed hash: different texts, the same hash.  So
    whoever remembers the last hash finds any change, removal or insertion.
    Provided that no field of a record has a bar in it. *)
Theorem audit_chain_binding a b :
  VerifyAuditLog a = true -> VerifyAuditLog b = true -> Forall separable (records a) -> Forall separable (records b) ->
  chain_end "" (records a) = chain_end "" (records b) -> records a = records b \/ collide (records a) (records b).
Proof.
  unfold VerifyAuditLog. generalize (records a) (records b). clear a b. intros l. induction l as [|r l IH] using rev_ind; intros l' Hv Hv' Hs Hs' E.
  - left. symmetry. by apply verified_end.
  - destruct l' as [|r' l' _] using rev_ind; [left; by apply verified_end|].
    rewrite verify_snoc, andb_true_iff in Hv, Hv'. rewrite Forall_app, Forall_singleton in Hs, Hs'. destruct Hv as [Hv Hr], Hv' as [Hv' Hr'], Hs as [Hs Hsr], Hs' as [Hs' Hsr'].
    unfold chain_end in E. rewrite !last_snoc in E. cbn in E. apply record_ok_prev in Hr as [Hp Hr], Hr' as [Hp' Hr'].
    destruct (record_bound r r' Hsr Hsr' Hr Hr' E) as [->|Hcol]; [|right; exists r, r'; set_solver].
    destruct (IH l' Hv Hv' Hs Hs') as [->|(x & x' & Hx & Hx' & Hcol)]; [congruence|by left|right; exists x, x'; set_solver].
Qed.

(** ** Nothing is read without a trace *)

(** What the handlers rely on: a call leaves the log or appends one record,
    and it does append one when it hands out a value. *)
Definition logged (e : Env) (t k : string) (a a' : AuditLog) : Prop := exists i action, a' = LogAuditEvent e i t action k a.

Class AuditedStore `{Net} (St : Type) {store : SecretStore St} := {
  audited_Get : forall e t k (s s' : St) a a' v, store_Get e t k s a = (inr v, s', a') -> logged e t k a a';
  audited_Set : forall e t k v (s s' : St) a a', store_Set e t k v s a = (None, s', a') -> logged e t k a a';
  audited_Delete : forall e t k (s s' : St) a a', store_Delete e t k s a = (None, s', a') -> logged e t k a a' }.

Ltac logged := repeat (case_match || case_bool_decide); intros; simplify_eq; unfold logged; eauto.

#[global] Instance memory_audited `{Net} : AuditedStore InMemoryStore.
Proof. split; cbn; unfold mem_Get, mem_Set, mem_Delete; intros until a'; logged. Qed.

#[global] Instance file_audited `{Net} : AuditedStore EncryptedFileStore.
Proof. split; cbn; unfold file_Get, get_locked, file_Set, file_Delete; intros until a'; logged. Qed.

#[global] Instance external_audited `{Net} : AuditedStore ExternalProviderStore.
Proof. split; cbn; unfold prov_Get, prov_Set, prov_Delete; intros until a'; logged. Qed.

(** A secret in an answer: the value that was read, or the one just set. *)
Definition secret_shown (r : Request) (path key value : string) (code : Z) : Prop :=
  (Method r = "GET" /\ code = 200 /\ key = key_of path) \/ (Method r = "POST" /\ code = 201 /\ decode_secret (Body r) = Some (key, value)).

Lemma route_secret `{net : Net} {St} {store : SecretStore St} {audited : AuditedStore St} e r (s s' : St) a a' code key v :
  HandleSecretRoute e r (s, a) = (mkReply code (Core.Data (PSecret key v)), (s', a')) -> secret_shown r (Path r) key v code /\ logged e (tenant_of r) key a a'.
Proof.
  unfold HandleSecretRoute, handleRotate, handleSet, handleList, handleDelete, handleGet, secret_shown. cbn [fst snd]. intros Hs.
  repeat (case_bool_decide || case_match); simplify_eq/=; (split; [auto|]); first [by eapply audited_Set|by eapply audited_Get].
Qed.

(** The log goes on with one record of the access, and verifies. *)
Definition traced (tenant key : string) (a a' : AuditLog) : Prop :=
  linked a' /\ exists rec, records a' = records a ++ [rec] /\ a_TenantID rec = tenant /\ a_Key rec = key.

Lemma wrapper_secret `{net : Net} {St} {store : SecretStore St} {audited : AuditedStore St} e r (s s' : St) a a' code key v :
  v1Wrapper e r (s, a) = (mkReply code (Core.Data (PSecret key v)), (s', a')) -> audit_written e = true -> linked a ->
  secret_shown r (v1_path (Path r)) key v code /\ traced (tenant_of r) key a a' /\
  (v1_path (Path r) = "/api/secrets" \/ HasPrefix (v1_path (Path r)) "/api/secrets/" = true).
Proof.
  unfold v1Wrapper, mux. cbn [Path with_path]. intros H Hw Hl. destruct (_ || _ || _) in H; [done|].
  destruct (bool_decide _) in H; [unfold HandleSecretRollback in H; repeat (case_bool_decide || case_match); simplify_eq|].
  destruct (_ || _) eqn:Ep in H; [|done]. apply route_secret in H as (Hm & i & action & ->).
  split; [done|]. split; [split; [by apply LogAuditEvent_linked|unfold LogAuditEvent; rewrite Hw; by eexists]|].
  apply orb_true_iff in Ep as [Ep|Ep]; [left; by apply bool_decide_eq_true in Ep|by right].
Qed.

(** No secret is under an address that needs no token. *)
Lemma public_not_secret p : public_path p = true -> v1_path p = "/api/secrets" \/ HasPrefix (v1_path p) "/api/secrets/" = true -> False.
Proof.
  unfold public_path. rewrite orb_true_iff, !existsb_exists. intros [(x & Hx & Ex)|(x & Hx & Ex)].
  - apply bool_decide_eq_true in Ex as ->. cbn in Hx. by destruct Hx as [<-|[<-|[<-|[]]]]; cbn; intros [].
  - apply HasPrefix_iff in Ex as [y ->]. cbn in Hx. repeat (destruct Hx as [<-|Hx]; [by cbn; intros []|]). done.
Qed.

(** The tenant of the request is that of its header, which a token may fix. *)
Lemma tenant_secret `{net : Net} {St} {store : SecretStore St} {audited : AuditedStore St} e r (s s' : St) a a' code key v :
  TenantMiddleware (v1Wrapper e) r (s, a) = (mkReply code (Core.Data (PSecret key v)), (s', a')) -> audit_written e = true -> linked a ->
  secret_shown r (v1_path (Path r)) key v code /\ traced (header_tenant r) key a a' /\
  (v1_path (Path r) = "/api/secrets" \/ HasPrefix (v1_path (Path r)) "/api/secrets/" = true) /\
  (forall claims, ctx_claims r = Some claims -> TenantID claims = "" \/ TenantID claims = header_tenant r).
Proof.
  assert (Hd : header_tenant r <> "") by (unfold header_tenant; by case_bool_decide).
  assert (Ht : tenant_of (with_tenant (header_tenant r) r) = header_tenant r) by (unfold tenant_of; cbn; by rewrite bool_decide_false).
  unfold TenantMiddleware. intros H Hw Hl.
  assert (Hin : v1Wrapper e (with_tenant (header_tenant r) r) (s, a) = (mkReply code (Core.Data (PSecret key v)), (s', a')) /\
                (forall claims, ctx_claims r = Some claims -> TenantID claims = "" \/ TenantID claims = header_tenant r)).
  { destruct (ctx_claims r) as [cl|]; [|done]. case_bool_decide as E1; cbn [negb] in H; [split; [done|naive_solver]|].
    case_bool_decide as E2; cbn [negb] in H; [|done]. rewrite <- E2 in H. split; [done|]. intros ? [= <-]. by right. }
  destruct Hin as [Hin Hcl]. apply wrapper_secret in Hin as (H1 & H2 & H3); [|done..]. by rewrite Ht in H2.
Qed.

End Secrets.

(** ** Examples *)

(** Data as a number in binary digits; a cipher that appends the text to the
    key, which opening takes off again; and a hash of the first 32 bytes. *)
Fixpoint binary (p : positive) : bytes := match p with xH => [] | xO p => "0"%char :: binary p | xI p => "1"%char :: binary p end.
Fixpoint from_binary (b : bytes) : positive := match b with [] => xH | c :: b => if bool_decide (c = "0"%char) then xO (from_binary b) else xI (from_binary b) end.

Lemma from_binary_binary p : from_binary (binary p) = p.
Proof. induction p as [p IH|p IH|]; cbn; by rewrite ?IH. Qed.

#[local, refine] Instance demo_codec : SecretCodec := {|
  Seal key _ p := key ++ p; Open key _ c := if bool_decide (take (length key) c = key) then Some (drop (length key) c) else None;
  encode d := binary (countable.encode d); decode b := countable.decode (from_binary b); decode_legacy _ := None;
  hmac_sha256 _ p := take 32 (p ++ replicate 32 NUL); error_text _ := "";
  decode_secret b := match Split b "="%char with [k; v] => Some (k, v) | _ => None end; decode_rotate b := Some b; decode_rollback b := Some b;
  host_of a := match SplitN2 a ":" with [h; _] => h | _ => "" end |}.
Proof.
  - intros. by rewrite take_app_length, drop_app_length, bool_decide_true.
  - intros. by rewrite from_binary_binary, countable.decode_encode.
  - intros. rewrite length_take, length_app, length_replicate. lia.
Defined.

#[local] Instance demo_net : Net := {| IP := string; ParseIP s := if bool_decide (s = "") then None else Some s; ip_Equal a b := bool_decide (a = b); ParseCIDR c := Some (HasPrefix c) |}.

(** A token is the name of its tenant. *)
#[local] Instance demo_jwt : Jwt := {|
  sign_HS256 _ c := Some (TenantID c); sign_RS256 _ _ c := Some (TenantID c); token_header _ := Some ("HS256", "");
  verify _ _ t := inr (mkClaims t [] [] t "" t 0 0) |}.

Definition at_second (n : Z) : Env := mkEnv (fun _ => n * Second) (replicate 12 "n"%char) true Writes true.
Definition key_a : bytes := replicate 32 "a"%char.
Definition key_b : bytes := replicate 32 "b"%char.
Definition store_a : EncryptedFileStore := mkFileStore None key_a ∅ (5 * Minute) ∅.
Definition empty_log : AuditLog := mkLog "" [].

Definition some_steps : list (Env * secret_op * AuditLog) :=
  [(at_second 1, OSet "t" "k" "one", empty_log); (at_second 2, OSet "t" "k" "two", empty_log); (at_second 3, OGet "t" "k", empty_log);
   (at_second 4, ORotate key_b, empty_log); (at_second 5, ORestart key_b, empty_log); (at_second 6, OGet "t" "k", empty_log);
   (at_second 7, ORollback "t" "k", empty_log); (at_second 8, OGet "t" "k", empty_log); (at_second 9, OList "t", empty_log);
   (at_second 10, ODelete "t" "k", empty_log); (at_second 11, OGet "t" "k", empty_log)].

Example file_store_refines_memory_witness :
  answers exec_file some_steps store_a = [Done None; Done None; Value (inr "two"); Done None; Done None; Value (inr "two"); Done None; Value (inr "one"); Keys (inr {["k"]}); Done None; Value (inl ErrSecretNotFound)].
Proof.
  transitivity (answers exec_memory some_steps NewInMemoryStore).
  - apply file_store_refines_memory; [reflexivity| |]; repeat constructor.
  - vm_compute. reflexivity.
Defined.

(** A read and a list of two records; one hash, one log. *)
Definition two_records : AuditLog := LogAuditEvent (at_second 2) 0 "t" "GET" "k" (LogAuditEvent (at_second 1) 0 "t" "SET" "k" empty_log).

Example audit_chain_binding_witness : VerifyAuditLog two_records = true /\ (records two_records = records two_records \/ collide (records two_records) (records two_records)).
Proof.
  split; [vm_compute; reflexivity|]. apply (audit_chain_binding two_records two_records); [vm_compute; reflexivity..| | |reflexivity];
    repeat constructor; apply (bool_decide_unpack _); vm_compute; exact I.
Defined.

Definition get_secret (path key : string) : Request :=
  mkRequest "GET" path (fun h => if bool_decide (h = "X-API-Key") then key else "") "10.0.0.1:5000" (fun _ => "") (fun _ => "") None "" None None.
Definition post_secret (path key tenant body : string) : Request :=
  mkRequest "POST" path (fun h => if bool_decide (h = "X-API-Key") then key else if bool_decide (h = "X-Tenant-ID") then tenant else "") "10.0.0.1:5000" (fun _ => "") (fun _ => "") None body None None.

Abbreviation request n r w := (serve_keys ["api"] (at_second n) r w).

Definition filled : EncryptedFileStore * AuditLog := (request 1 (post_secret "/api/v1/secrets" "api" "" "k=v") (store_a, empty_log)).2.


(** *** What the stores do not do *)

Definition failing (n : Z) : Env := mkEnv (fun _ => n * Second) (replicate 12 "n"%char) true (WriteFails None) true.
Definition with_value (v : string) : EncryptedFileStore := (file_Set (at_second 1) "t" "k" v store_a empty_log).1.2.
Definition restarted (key : bytes) (s : EncryptedFileStore) : EncryptedFileStore := mkFileStore (file s) key ∅ (5 * Minute) ∅.
Abbreviation get n s := (file_Get (at_second n) "t" "k" s empty_log).1.1.

(** A value that was refused is read for five minutes, and then no more. *)
Example unsaved_value_is_served :
  let '(err, s, _) := file_Set (failing 2) "t" "k" "new" (with_value "old") empty_log in
  err = Some WriteFailed /\ get 3 s = inr "new" /\ get 400 s = inr "old".
Proof. vm_compute. done. Qed.

(** A rotation that cannot write leaves the new key with the old file. *)
Example failed_rotation_locks_out :
  let '(err, s, _) := file_RotateMasterKey (failing 2) key_b (with_value "old") empty_log in err = Some WriteFailed /\ get 3 s = inl DecryptFailed.
Proof. vm_compute. done. Qed.

(** After the scheduled rotation the file is under a key that is nowhere kept;
    the key of the configuration does not open it at the next start. *)
Example scheduled_rotation_loses_secrets :
  let '(err, s, _) := PerformKeyRotation (at_second 2) (Some key_b) (with_value "old") empty_log in
  err = None /\ get 3 s = inr "old" /\ get 4 (restarted key_a s) = inl DecryptFailed.
Proof. vm_compute. done. Qed.

(** The first record after a restart does not continue the file. *)
Example restart_breaks_chain :
  VerifyAuditLog two_records = true /\ VerifyAuditLog (LogAuditEvent (at_second 3) 0 "t" "GET" "k" (SetAuditLogPath (records two_records))) = false.
Proof. vm_compute. done. Qed.

(** A bar in a field moves the border between fields: the reading of the key
    [x] for the tenant [a] is rewritten into another access, with its hash. *)
Example bar_in_field_forges :
  let a := LogAuditEvent (at_second 1) 0 "a|b" "GET" "x" empty_log in
  let forged := mkLog (lastHash a) ((fun r => mkAudit (a_Timestamp r) "a" "b" "GET|x" (PrevHash r) (Hash r)) <$> records a) in
  VerifyAuditLog a = true /\ VerifyAuditLog forged = true /\ records forged <> records a.
Proof. vm_compute. done. Qed.

(** A key that begins with v1 is read as what follows; the secrets named v1
    and rotate are never read. *)
Example keys_are_mangled :
  key_of "/api/secrets/v1-token" = "-token" /\ key_of "/api/secrets/v1" = "" /\
  (request 2 (get_secret "/api/v1/secrets/rotate" "api") (request 1 (post_secret "/api/v1/secrets" "api" "" "rotate=v") (store_a, empty_log)).2).1 = not_allowed.
Proof. vm_compute. done. Qed.

(** With API keys the tenant of the header is not looked at: one tenant reads
    what another set, and nobody can roll his own secret back. *)
Example tenants_share_secrets :
  let w := (request 2 (post_secret "/api/v1/secrets" "api" "t" "k=two") (request 1 (post_secret "/api/v1/secrets" "api" "t" "k=one") (store_a, empty_log)).2).2 in
  (request 3 (get_secret "/api/v1/secrets/k" "api") w).1 = mkReply 200 (Core.Data (PSecret "k" "two")) /\
  Status (request 3 (post_secret "/api/v1/secrets/rollback" "api" "t" "k") w).1 = 400.
Proof. vm_compute. done. Qed.
