(* ===== verification/Pool.v ===== *)
(** * The connection pooler ([pool/pkg/pool], [pool/pkg/routing],
    [pool/pkg/cache], [pool/pkg/migration], [pool/pkg/analytics])

    The adaptive pool with its janitor, the checks around it, the splitting of
    reads and writes, the statement cache, migrations and the query handlers.

    Connections are pointers that the pool, waiting requests and their holders
    share; [objects] is the store they point to.  [World] is a pool with the
    requests that use it: each acquires a connection, may have to wait for it,
    and releases it.  As long as the janitor meets no connection that is held
    for longer than the limit, no two requests share a connection; otherwise
    they do, which is at the end. *)

From S2P Require Import Prelude GoStrings GoNumbers GoFloat GoTime Core.
Local Open Scope string_scope.
Local Open Scope Z_scope.
Local Open Scope list_scope.

(** ** The pool ([pool.go]) *)

Record PoolStats := mkStats { ActiveConnections : Z; IdleConnections : Z; MaxConnections : Z; TotalQueries : Z; s_Dialect : string }.

(** No time is the zero time. *)
Record DbConn := mkConn { CreatedAt : Z; CheckedOutAt : option Z }.

(** Connections go by their number; a waiter's channel by the number of the
    request that made it. *)
Record ConnectionPool := mkPool {
  baseMaxConns : Z; maxConns : Z; objects : gmap Z DbConn; activeConns : gset Z; idleConns : list Z; totalQueries : Z; nextConnID : Z;
  dialect : string; maxLifetime : Z; lastActive : Z; isShutdown : bool; waitQueue : list nat }.

Definition NewConnectionPool (now max : Z) (dialect : string) : ConnectionPool := mkPool max max ∅ ∅ [] 0 0 dialect (5 * Second) now false [].

Definition SetMaxLifetime (d : Z) (p : ConnectionPool) : ConnectionPool :=
  mkPool (baseMaxConns p) (maxConns p) (objects p) (activeConns p) (idleConns p) (totalQueries p) (nextConnID p) (dialect p) d (lastActive p) (isShutdown p) (waitQueue p).

Definition with_conns (objs : gmap Z DbConn) (active : gset Z) (idle : list Z) (p : ConnectionPool) : ConnectionPool :=
  mkPool (baseMaxConns p) (maxConns p) objs active idle (totalQueries p) (nextConnID p) (dialect p) (maxLifetime p) (lastActive p) (isShutdown p) (waitQueue p).
Definition with_max (m : Z) (p : ConnectionPool) : ConnectionPool :=
  mkPool (baseMaxConns p) m (objects p) (activeConns p) (idleConns p) (totalQueries p) (nextConnID p) (dialect p) (maxLifetime p) (lastActive p) (isShutdown p) (waitQueue p).
Definition with_queue (q : list nat) (p : ConnectionPool) : ConnectionPool :=
  mkPool (baseMaxConns p) (maxConns p) (objects p) (activeConns p) (idleConns p) (totalQueries p) (nextConnID p) (dialect p) (maxLifetime p) (lastActive p) (isShutdown p) q.
Definition touched (now : Z) (p : ConnectionPool) : ConnectionPool :=
  mkPool (baseMaxConns p) (maxConns p) (objects p) (activeConns p) (idleConns p) (totalQueries p) (nextConnID p) (dialect p) (maxLifetime p) now (isShutdown p) (waitQueue p).

(** [conn.CheckedOutAt = t], through the pointer. *)
Definition check (t : option Z) (id : Z) (objs : gmap Z DbConn) : gmap Z DbConn := alter (fun c => mkConn (CreatedAt c) t) id objs.

Definition older (now age : Z) (id : Z) (p : ConnectionPool) : bool :=
  match objects p !! id with Some c => age <? Sub now (CreatedAt c) | None => false end.

(** *** The janitor *)

(** The third part of a tick, in the order in which the map is visited. *)
Definition reclaim (now timeout : Z) (p : ConnectionPool) (id : Z) : ConnectionPool :=
  match objects p !! id ≫= CheckedOutAt with
  | Some t => if timeout <? Sub now t then with_conns (check None id (objects p)) (activeConns p ∖ {[id]}) (idleConns p ++ [id]) p else p
  | None => p
  end.

Definition conn_timeout (setting : string) : Z :=
  if bool_decide (setting = "") then 5 * Second else default (5 * Second) (ParseDuration setting).

Definition janitor (now : Z) (setting : string) (order : list Z) (p : ConnectionPool) : ConnectionPool :=
  let p := with_conns (objects p) (activeConns p) (filter (fun id => older now (maxLifetime p) id p = false) (idleConns p)) p in
  let p := if (Z.of_nat (size (activeConns p)) <? Z.quot (baseMaxConns p) 2) && (baseMaxConns p <? maxConns p) && (1 * Second <? Sub now (lastActive p))
           then with_max (baseMaxConns p) p else p in
  fold_left (reclaim now (conn_timeout setting)) order p.

(** *** Acquire and release *)

Inductive Acquired := Got (id : Z) | ShuttingDown | Waits.

(** The search for a fresh idle connection from the end of the list, with the
    clock readings it takes. *)
Fixpoint recycle (clock : nat -> Z) (i : nat) (rev_idle : list Z) (p : ConnectionPool) : option (Z * nat) * list Z :=
  match rev_idle with
  | [] => (None, [])
  | id :: rest => if older (clock i) (maxLifetime p) id p then recycle clock (S i) rest p else (Some (id, S i), rest)
  end.

Definition doubled (p : ConnectionPool) : Z := wrap64 (baseMaxConns p * 2).

Definition grow (p : ConnectionPool) : ConnectionPool :=
  if (maxConns p <=? Z.of_nat (size (activeConns p))) && (maxConns p <? doubled p) then with_max (doubled p) p else p.

Definition create (clock : nat -> Z) (p : ConnectionPool) : ConnectionPool :=
  let id := nextConnID p + 1 in
  mkPool (baseMaxConns p) (maxConns p) (<[id := mkConn (clock 1%nat) (Some (clock 2%nat))]> (objects p)) (activeConns p ∪ {[id]}) (idleConns p)
    (totalQueries p) id (dialect p) (maxLifetime p) (lastActive p) (isShutdown p) (waitQueue p).

(** Up to the waiting, all under the lock. *)
Definition Acquire (clock : nat -> Z) (ch : nat) (p : ConnectionPool) : Acquired * ConnectionPool :=
  if isShutdown p then (ShuttingDown, p) else
  let p := touched (clock 0%nat) p in
  match recycle clock 1 (rev (idleConns p)) p with
  | (Some (id, i), rest) => (Got id, with_conns (check (Some (clock i)) id (objects p)) (activeConns p ∪ {[id]}) (rev rest) p)
  | (None, _) =>
      let p := grow (with_conns (objects p) (activeConns p) [] p) in
      if Z.of_nat (size (activeConns p)) <? maxConns p then (Got (nextConnID p + 1), create clock p)
      else (Waits, with_queue (waitQueue p ++ [ch]) p)
  end.

(** A waiter that gives up takes its channel out of the queue. *)
Fixpoint remove_first (ch : nat) (q : list nat) : list nat :=
  match q with [] => [] | w :: q => if bool_decide (w = ch) then q else w :: remove_first ch q end.

Definition abandon (ch : nat) (p : ConnectionPool) : ConnectionPool := with_queue (remove_first ch (waitQueue p)) p.

(** The hand over to the first waiter whose channel, which has room for one,
    takes the connection; the answer is this waiter. *)
Fixpoint hand_over (clock : nat -> Z) (i : nat) (full : nat -> bool) (id : Z) (queue : list nat) (p : ConnectionPool) : option nat * ConnectionPool :=
  match queue with
  | [] => (None, with_queue [] p)
  | waiter :: queue =>
      let p := with_conns (check (Some (clock i)) id (objects p)) (activeConns p ∪ {[id]}) (idleConns p) p in
      if full waiter then hand_over clock (S i) full id queue (with_conns (check None id (objects p)) (activeConns p) (idleConns p) p)
      else (Some waiter, with_queue queue p)
  end.

Definition Release (clock : nat -> Z) (full : nat -> bool) (id : Z) (p : ConnectionPool) : option nat * ConnectionPool :=
  if isShutdown p then (None, with_conns (check None id (objects p)) (activeConns p ∖ {[id]}) (idleConns p) p) else
  match hand_over clock 0 full id (waitQueue p) p with
  | (Some waiter, p) => (Some waiter, p)
  | (None, p) => (None, with_conns (check None id (objects p)) (activeConns p ∖ {[id]}) (idleConns p ++ [id]) p)
  end.

Definition IncrementQueries (p : ConnectionPool) : ConnectionPool :=
  mkPool (baseMaxConns p) (maxConns p) (objects p) (activeConns p) (idleConns p) (wrap64 (totalQueries p + 1)) (nextConnID p) (dialect p) (maxLifetime p) (lastActive p) (isShutdown p) (waitQueue p).

Definition Stats (p : ConnectionPool) : PoolStats :=
  mkStats (Z.of_nat (size (activeConns p))) (Z.of_nat (length (idleConns p))) (maxConns p) (totalQueries p) (dialect p).

(** The first part of [Shutdown] closes the channels in the queue; the second
    waits until nothing is active. *)
Definition Shutdown (p : ConnectionPool) : list nat * ConnectionPool :=
  if isShutdown p then ([], p) else
  (waitQueue p, mkPool (baseMaxConns p) (maxConns p) (objects p) (activeConns p) (idleConns p) (totalQueries p) (nextConnID p) (dialect p) (maxLifetime p) (lastActive p) true []).

Definition drained (p : ConnectionPool) : bool := bool_decide (size (activeConns p) = 0%nat).

(** ** Requests that use a pool

    A request waits ([waiting]) with what its channel holds ([channel]) or
    that it is closed, or has a connection ([holds]). *)

Record World := mkWorld { pool : ConnectionPool; waiting : gset nat; channel : gmap nat Z; closed : gset nat; holds : gmap nat Z; next : nat }.

Inductive event :=
| EAcquire (clock : nat -> Z) | EReceive (r : nat) | EGiveUp (r : nat) | ERelease (clock : nat -> Z) (r : nat)
| EJanitor (now : Z) (setting : string) (order : list Z) | ELifetime (d : Z) | EQuery | EShutdown.

Definition full (w : World) (r : nat) : bool := bool_decide (is_Some (channel w !! r)).

Definition step (ev : event) (w : World) : World :=
  match ev with
  | EAcquire clock =>
      let r := next w in
      match Acquire clock r (pool w) with
      | (Got id, p) => mkWorld p (waiting w) (channel w) (closed w) (<[r := id]> (holds w)) (S r)
      | (ShuttingDown, p) => mkWorld p (waiting w) (channel w) (closed w) (holds w) (S r)
      | (Waits, p) => mkWorld p (waiting w ∪ {[r]}) (channel w) (closed w) (holds w) (S r)
      end
  | EReceive r =>
      if bool_decide (r ∈ waiting w) then
        match channel w !! r with
        | Some id => mkWorld (pool w) (waiting w ∖ {[r]}) (delete r (channel w)) (closed w) (<[r := id]> (holds w)) (next w)
        | None => if bool_decide (r ∈ closed w) then mkWorld (pool w) (waiting w ∖ {[r]}) (channel w) (closed w) (holds w) (next w) else w
        end
      else w
  | EGiveUp r =>
      if bool_decide (r ∈ waiting w) then mkWorld (abandon r (pool w)) (waiting w ∖ {[r]}) (delete r (channel w)) (closed w) (holds w) (next w) else w
  | ERelease clock r =>
      match holds w !! r with
      | Some id =>
          match Release clock (full w) id (pool w) with
          | (Some waiter, p) => mkWorld p (waiting w) (<[waiter := id]> (channel w)) (closed w) (delete r (holds w)) (next w)
          | (None, p) => mkWorld p (waiting w) (channel w) (closed w) (delete r (holds w)) (next w)
          end
      | None => w
      end
  | EJanitor now setting order => mkWorld (janitor now setting order (pool w)) (waiting w) (channel w) (closed w) (holds w) (next w)
  | ELifetime d => mkWorld (SetMaxLifetime d (pool w)) (waiting w) (channel w) (closed w) (holds w) (next w)
  | EQuery => mkWorld (IncrementQueries (pool w)) (waiting w) (channel w) (closed w) (holds w) (next w)
  | EShutdown => let '(chans, p) := Shutdown (pool w) in mkWorld p (waiting w) (channel w) (closed w ∪ list_to_set chans) (holds w) (next w)
  end.

Definition initial (now max : Z) (dialect : string) : World := mkWorld (NewConnectionPool now max dialect) ∅ ∅ ∅ ∅ 0.

(** Connections that a request has, or that lie in the channel it waits at. *)
Definition claims (w : World) (r : nat) (id : Z) : Prop := holds w !! r = Some id \/ channel w !! r = Some id.

(** The janitor visits each active connection once and finds none of the
    claimed ones overdue. *)
Definition prompt (ev : event) (w : World) : Prop :=
  match ev with
  | EJanitor now setting order =>
      order ≡ₚ elements (activeConns (pool w)) /\
      forall r id t, claims w r id -> objects (pool w) !! id ≫= CheckedOutAt = Some t -> Sub now t <= conn_timeout setting
  | _ => True
  end.

Inductive reachable (start : World) : World -> Prop :=
| reachable_start : reachable start start
| reachable_step ev w : reachable start w -> prompt ev w -> reachable start (step ev w).

(** ** What holds of a pool *)

Record pool_ok (max : Z) (p : ConnectionPool) : Prop := {
  ok_idle : NoDup (idleConns p);
  ok_apart : forall id, id ∈ idleConns p -> id ∉ activeConns p;
  ok_ids : forall id, id ∈ idleConns p \/ id ∈ activeConns p -> id <= nextConnID p;
  ok_size : Z.of_nat (size (activeConns p)) + Z.of_nat (length (idleConns p)) <= 2 * max;
  ok_base : baseMaxConns p = max;
  ok_max : max <= maxConns p <= 2 * max;
  ok_range : 0 <= max < 2 ^ 62 }.

Lemma size_add (x : Z) (s : gset Z) : x ∉ s -> size (s ∪ {[x]}) = S (size s).
Proof. intros H. rewrite size_union, size_singleton by set_solver. lia. Qed.

Lemma size_del (x : Z) (s : gset Z) : x ∈ s -> S (size (s ∖ {[x]})) = size s.
Proof. intros H. rewrite size_difference, size_singleton by set_solver. pose proof (subseteq_size {[x]} s ltac:(set_solver)) as Hs. rewrite size_singleton in Hs. lia. Qed.

(** Connections may leave the idle ones, and the limits do not change. *)
Lemma ok_fewer max p p' : pool_ok max p -> activeConns p' = activeConns p -> sublist (idleConns p') (idleConns p) -> nextConnID p' = nextConnID p ->
  baseMaxConns p' = baseMaxConns p -> max <= maxConns p' <= 2 * max -> pool_ok max p'.
Proof.
  intros [H1 H2 H3 H4 H5 H6 H7] Ha Hi Hn Hb Hm. pose proof (sublist_length _ _ Hi). split; rewrite ?Ha, ?Hn, ?Hb; try done.
  - by eapply sublist_NoDup.
  - intros id Hid. apply H2. by eapply elem_of_sublist.
  - intros id [Hid|Hid]; apply H3; [left; by eapply elem_of_sublist|by right].
  - lia.
Qed.

(** An idle connection, or a new one, becomes active. *)
Lemma ok_activate max p p' id : pool_ok max p' -> activeConns p = activeConns p' ∪ {[id]} -> idleConns p = idleConns p' -> id ∉ idleConns p' -> id ∉ activeConns p' ->
  id <= nextConnID p -> nextConnID p' <= nextConnID p -> Z.of_nat (size (activeConns p')) + Z.of_nat (length (idleConns p')) < 2 * max ->
  baseMaxConns p = baseMaxConns p' -> maxConns p = maxConns p' -> pool_ok max p.
Proof.
  intros [H1 H2 H3 H4 H5 H6 H7] Ha Hi Hid Hid' Hle Hle' Hs Hb Hm. split; rewrite ?Ha, ?Hi, ?Hb, ?Hm; try done.
  - intros x Hx. specialize (H2 x Hx). set_solver.
  - intros x Hx. destruct (decide (x = id)) as [->|]; [done|]. specialize (H3 x ltac:(set_solver)). lia.
  - rewrite size_add by done. lia.
Qed.

(** An active connection becomes idle. *)
Lemma ok_idled max p p' id : pool_ok max p -> id ∈ activeConns p -> activeConns p' = activeConns p ∖ {[id]} -> idleConns p' = idleConns p ++ [id] ->
  nextConnID p' = nextConnID p -> baseMaxConns p' = baseMaxConns p -> maxConns p' = maxConns p -> pool_ok max p'.
Proof.
  intros [H1 H2 H3 H4 H5 H6 H7] Hid Ha Hi Hn Hb Hm. pose proof (size_del _ _ Hid). split; rewrite ?Ha, ?Hi, ?Hn, ?Hb, ?Hm; try done.
  - apply NoDup_app. split; [done|]. split; [|apply NoDup_singleton]. intros x Hx. specialize (H2 x Hx). rewrite list_elem_of_singleton. set_solver.
  - intros x Hx. apply elem_of_app in Hx as [Hx|Hx]; [specialize (H2 x Hx)|apply list_elem_of_singleton in Hx]; set_solver.
  - intros x Hx. apply H3. rewrite elem_of_app, list_elem_of_singleton in Hx. set_solver.
  - rewrite length_app. cbn. lia.
Qed.

Lemma recycle_spec clock i l p :
  match recycle clock i l p with (Some (id, _), rest) => exists pre, l = pre ++ id :: rest | (None, rest) => rest = [] end.
Proof.
  revert i. induction l as [|x l IH]; intros i; cbn; [done|]. destruct (older (clock i) (maxLifetime p) x p); [|by exists []].
  specialize (IH (S i)). destruct (recycle clock (S i) l p) as [[[id j]|] rest]; [|done]. destruct IH as [pre ->]. by exists (x :: pre).
Qed.

Lemma doubled_id max p : pool_ok max p -> doubled p = 2 * max.
Proof. intros [_ _ _ _ H5 _ H7]. unfold doubled. rewrite H5, wrap64_id; [lia|]. unfold in_int64, min_int64, max_int64. lia. Qed.

(** What [Acquire] does, case by case. *)
Lemma Acquire_ok max clock ch p : pool_ok max p ->
  let '(r, p') := Acquire clock ch p in
  pool_ok max p' /\
  match r with
  | Got id => (id ∉ activeConns p) /\ activeConns p' = activeConns p ∪ {[id]} /\ waitQueue p' = waitQueue p
  | ShuttingDown => p' = p
  | Waits => activeConns p' = activeConns p /\ waitQueue p' = waitQueue p ++ [ch]
  end.
Proof.
  intros Hok. unfold Acquire. destruct (isShutdown p); [done|]. set (p1 := touched (clock 0%nat) p).
  pose proof (recycle_spec clock 1 (rev (idleConns p1)) p1) as Hr. destruct (recycle _ _ _ _) as [[[id i]|] rest].
  - destruct Hr as [pre Hr]. apply (f_equal (@rev Z)) in Hr. rewrite rev_involutive, rev_app_distr in Hr. cbn in Hr.
    rewrite <- app_assoc in Hr. cbn in Hr. pose proof Hok as [H1 H2 H3 H4 _ _ _]. rewrite Hr in H1, H2, H3, H4.
    apply NoDup_app in H1 as (_ & Hd & _). assert (Hid : id ∉ activeConns p) by (apply H2; set_solver). split; [|done].
    eapply (ok_activate max _ (with_conns (objects p) (activeConns p) (rev rest) p)); try done.
    + eapply ok_fewer; [exact Hok|done| |done|done|apply Hok]. cbn. rewrite Hr. by apply sublist_inserts_r.
    + cbn. intros Hx. specialize (Hd id Hx). set_solver.
    + cbn. apply H3. left. set_solver.
    + cbn. rewrite length_app in H4. cbn in H4. lia.
  - set (p2 := with_conns _ _ [] p1). assert (Hok2 : pool_ok max p2) by (eapply ok_fewer; [exact Hok|done|apply sublist_nil_l|done|done|apply Hok]).
    assert (Hg : pool_ok max (grow p2) /\ activeConns (grow p2) = activeConns p /\ idleConns (grow p2) = [] /\ waitQueue (grow p2) = waitQueue p).
    { unfold grow. destruct (_ && _); [|done]. split; [|done]. eapply ok_fewer; [exact Hok2|done..|]. cbn. rewrite (doubled_id max p2 Hok2). pose proof (ok_range _ _ Hok2). lia. }
    destruct Hg as (Hok3 & Ha & Hi & Hq). destruct (Z.ltb_spec (Z.of_nat (size (activeConns (grow p2)))) (maxConns (grow p2))) as [Hlt|_].
    + assert (Hid : nextConnID (grow p2) + 1 ∉ activeConns (grow p2)). { intros Hx. pose proof (ok_ids _ _ Hok3 _ (or_intror Hx)). lia. }
      split; [|rewrite <- Ha, <- Hq; done]. eapply (ok_activate max _ (grow p2)); try done; cbn; [rewrite Hi; set_solver|lia..|].
      rewrite Hi. cbn. pose proof (ok_max _ _ Hok3). lia.
    + split; [|by rewrite <- Ha, <- Hq]. eapply ok_fewer; [exact Hok3|done..|apply Hok3].
Qed.

(** A connection goes to the first waiter or to the idle ones. *)
Lemma Release_ok max clock full id p : pool_ok max p -> id ∈ activeConns p -> (forall r, r ∈ waitQueue p -> full r = false) ->
  let '(r, p') := Release clock full id p in
  pool_ok max p' /\
  match r with
  | Some q => waitQueue p = q :: waitQueue p' /\ activeConns p' = activeConns p
  | None => waitQueue p' = waitQueue p /\ activeConns p' = activeConns p ∖ {[id]}
  end.
Proof.
  intros Hok Hid Hf. unfold Release. destruct (isShutdown p).
  - split; [|done]. pose proof Hok as [H1 H2 H3 H4 H5 H6 H7]. pose proof (size_del _ _ Hid). split; try done; cbn; [|set_solver|lia]. intros x Hx. specialize (H2 x Hx). set_solver.
  - destruct (waitQueue p) as [|q queue] eqn:Eq; cbn [hand_over].
    + split; [|done]. by eapply ok_idled.
    + rewrite Hf by set_solver. split; [|cbn; split; [done|set_solver]]. eapply ok_fewer; [exact Hok| |done..|apply Hok]. cbn. set_solver.
Qed.

(** Checked out for longer than the limit. *)
Definition overdue (now limit : Z) (p : ConnectionPool) (id : Z) : Prop := exists t, objects p !! id ≫= CheckedOutAt = Some t /\ limit < Sub now t.

Lemma reclaim_all max now limit order p : pool_ok max p -> NoDup order -> (forall id, id ∈ order -> id ∈ activeConns p) ->
  let p' := fold_left (reclaim now limit) order p in
  pool_ok max p' /\ waitQueue p' = waitQueue p /\ activeConns p' ⊆ activeConns p /\
  forall id, id ∈ activeConns p -> id ∉ activeConns p' -> overdue now limit p id.
Proof.
  revert p. induction order as [|x order IH]; intros p Hok Hn Ha; cbn [fold_left]; [done|]. apply NoDup_cons in Hn as [Hx Hn].
  destruct (objects p !! x ≫= CheckedOutAt) as [t|] eqn:Et; unfold reclaim at 2 4 6 8; rewrite Et; [|apply IH; [done..|set_solver]].
  destruct (Z.ltb_spec limit (Sub now t)) as [Hlt|_]; [|apply IH; [done..|set_solver]].
  set (p1 := with_conns _ _ _ _). specialize (IH p1). destruct IH as (H1 & H2 & H3 & H4); [eapply (ok_idled max p p1 x); [done|set_solver|done..]|done|cbn; set_solver|].
  split; [done|]. split; [done|]. split; [cbn in H3; set_solver|]. intros id Hid Hid'. destruct (decide (id = x)) as [->|Hne]; [by exists t|].
  destruct (H4 id ltac:(cbn; set_solver) Hid') as (t' & E & Hl). exists t'. cbn in E. unfold check in E. by rewrite lookup_alter_ne in E.
Qed.

Lemma janitor_ok max now setting order p : pool_ok max p -> order ≡ₚ elements (activeConns p) ->
  let p' := janitor now setting order p in
  pool_ok max p' /\ waitQueue p' = waitQueue p /\ activeConns p' ⊆ activeConns p /\
  forall id, id ∈ activeConns p -> id ∉ activeConns p' -> overdue now (conn_timeout setting) p id.
Proof.
  intros Hok Ho. unfold janitor. set (p1 := with_conns _ _ _ _). match goal with |- context [fold_left _ _ ?q] => set (p2 := q) end.
  assert (Hok1 : pool_ok max p1). { eapply ok_fewer; [exact Hok|done|apply sublist_filter|done|done|apply Hok]. }
  assert (H2 : pool_ok max p2 /\ activeConns p2 = activeConns p /\ objects p2 = objects p /\ waitQueue p2 = waitQueue p).
  { subst p2. destruct (_ && _); [|done]. split; [|done]. eapply ok_fewer; [exact Hok1|done..|]. cbn. rewrite (ok_base _ _ Hok). pose proof (ok_range _ _ Hok). lia. }
  destruct H2 as (Hok2 & Ha & Hb & Hq). pose proof (reclaim_all max now (conn_timeout setting) order p2 Hok2) as H. unfold overdue in *. rewrite Ha, Hb, Hq in H. apply H.
  - rewrite Ho. apply NoDup_elements.
  - intros id. rewrite Ho. apply elem_of_elements.
Qed.

(** ** What holds of the requests *)

Record sound (max : Z) (w : World) : Prop := {
  s_pool : pool_ok max (pool w);
  s_claims : forall r r' id, claims w r id -> claims w r' id -> r = r';
  s_active : forall r id, claims w r id -> id ∈ activeConns (pool w);
  s_channel : forall r id, channel w !! r = Some id -> r ∈ waiting w;
  s_holds : forall r id, holds w !! r = Some id -> (r ∉ waiting w) /\ (r < next w)%nat;
  s_waiting : forall r, r ∈ waiting w -> (r < next w)%nat;
  s_queue : NoDup (waitQueue (pool w));
  s_queued : forall r, r ∈ waitQueue (pool w) -> r ∈ waiting w /\ channel w !! r = None;
  s_closed : forall r, r ∈ closed w -> (r ∉ waitQueue (pool w)) /\ (r < next w)%nat }.

Lemma sound_initial now max d : 0 <= max < 2 ^ 62 -> sound max (initial now max d).
Proof.
  intros H. assert (Hc : forall r id, ~ claims (initial now max d) r id) by (intros r id [Hr|Hr]; cbn in Hr; by rewrite lookup_empty in Hr).
  split; cbn; [|by intros ??? ?%Hc|by intros ?? ?%Hc|intros ?? Hr; by rewrite lookup_empty in Hr|intros ?? Hr; by rewrite lookup_empty in Hr|set_solver|constructor|set_solver|set_solver].
  split; cbn; [constructor|set_solver|set_solver|rewrite size_empty; lia|done|lia|done].
Qed.

(** A change of the pool that leaves what is claimed. *)
Lemma sound_pool max w p : sound max w -> pool_ok max p -> waitQueue p = waitQueue (pool w) -> (forall r id, claims w r id -> id ∈ activeConns p) ->
  sound max (mkWorld p (waiting w) (channel w) (closed w) (holds w) (next w)).
Proof. intros [H1 H2 H3 H4 H5 H6 H7 H8 H9] Hp Hq Ha. split; cbn; rewrite ?Hq; done. Qed.

(** A claim that goes from one place to another, and claims that go away. *)
Lemma sound_fewer max w p wt ch cl ho : sound max w -> pool_ok max p -> activeConns p = activeConns (pool w) -> wt ⊆ waiting w ->
  ch ⊆ channel w -> ho ⊆ holds w -> (forall r id, ch !! r = Some id -> r ∈ wt) -> NoDup (waitQueue p) -> (forall r, r ∈ waitQueue p -> r ∈ wt /\ r ∈ waitQueue (pool w)) -> (forall r, r ∈ cl -> (r ∉ waitQueue p) /\ (r < next w)%nat) ->
  sound max (mkWorld p wt ch cl ho (next w)).
Proof.
  intros [H1 H2 H3 H4 H5 H6 H7 H8 H9] Hp Ha Hw Hc Hh Hwc Hn Hq Hcd.
  assert (Hcl : forall r id, claims (mkWorld p wt ch cl ho (next w)) r id -> claims w r id) by (intros r id [H|H]; [left|right]; by eapply lookup_weaken).
  split; cbn; try done.
  - intros r r' id Hr Hr'. by eapply H2; apply Hcl.
  - intros r id Hr. rewrite Ha. by eapply H3, Hcl.
  - intros r id Hr. destruct (H5 r id) as [Hn1 Hn2]; [by eapply lookup_weaken|]. set_solver.
  - intros r Hr. apply H6. set_solver.
  - intros r Hr. destruct (Hq r Hr) as [Hr1 Hr2]. split; [done|]. by eapply lookup_weaken_None; [apply H8|].
Qed.

Lemma remove_first_spec ch q : NoDup q -> NoDup (remove_first ch q) /\ forall r, r ∈ remove_first ch q -> r ∈ q /\ r <> ch.
Proof.
  induction q as [|x q IH]; intros H; cbn; [set_solver|]. apply NoDup_cons in H as [Hx H]. case_bool_decide as E; [set_solver|].
  destruct (IH H) as [IH1 IH2]. split; [apply NoDup_cons; set_solver|]. intros r. rewrite !elem_of_cons. intros [->|Hr]; [set_solver|]. destruct (IH2 r Hr). set_solver.
Qed.

Lemma acquire_sound max clock w : sound max w -> sound max (step (EAcquire clock) w).
Proof.
  intros Hs. pose proof Hs as [H1 H2 H3 H4 H5 H6 H7 H8 H9]. cbn. pose proof (Acquire_ok max clock (next w) (pool w) H1) as H.
  destruct (Acquire clock (next w) (pool w)) as [[id| |] p]; destruct H as [Hp H].
  - destruct H as (Hid & Ha & Hq).
    assert (Hcl : forall r x, claims (mkWorld p (waiting w) (channel w) (closed w) (<[next w := id]> (holds w)) (S (next w))) r x -> (r = next w /\ x = id) \/ claims w r x).
    { intros r x [Hr|Hr]; cbn in Hr; [apply lookup_insert_Some in Hr as [[-> ->]|[_ Hr]]; [by left|right; by left]|right; by right]. }
    split; cbn; rewrite ?Hq; try done.
    + intros r r' x Hr Hr'. destruct (Hcl _ _ Hr) as [[-> ->]|Hr1], (Hcl _ _ Hr') as [[-> E]|Hr1']; [done| | |by eapply H2].
      * by apply H3 in Hr1'.
      * subst. by apply H3 in Hr1.
    + intros r x [[_ ->]|Hr]%Hcl; rewrite Ha; [set_solver|]. apply H3 in Hr. set_solver.
    + intros r x Hr. apply lookup_insert_Some in Hr as [[<- _]|[_ Hr]]; [split; [intros Hx; apply H6 in Hx|]; lia|]. destruct (H5 r x Hr). split; [done|lia].
    + intros r Hr. apply H6 in Hr. lia.
    + intros r Hr. destruct (H9 r Hr). split; [done|lia].
  - subst p. split; try done; cbn.
    + intros r x Hr. destruct (H5 r x Hr). split; [done|lia].
    + intros r Hr. apply H6 in Hr. lia.
    + intros r Hr. destruct (H9 r Hr). split; [done|lia].
  - destruct H as (Ha & Hq). assert (Hn : next w ∉ waiting w) by (intros Hx; apply H6 in Hx; lia).
    split; cbn; rewrite ?Hq; try done.
    + intros r x Hr. rewrite Ha. by eapply H3.
    + intros r x Hr. apply H4 in Hr. set_solver.
    + intros r x Hr. destruct (H5 r x Hr). split; [|lia]. rewrite elem_of_union, elem_of_singleton. intros [?| ->]; [done|lia].
    + intros r. rewrite elem_of_union, elem_of_singleton. intros [Hr| ->]; [apply H6 in Hr|]; lia.
    + apply NoDup_app. split; [done|]. split; [|apply NoDup_singleton]. intros r Hr. apply H8 in Hr as [Hr _]. rewrite list_elem_of_singleton. intros ->. done.
    + intros r. rewrite elem_of_app, list_elem_of_singleton. intros [Hr| ->]; [destruct (H8 r Hr); set_solver|]. split; [set_solver|].
      destruct (channel w !! next w) eqn:E; [|done]. by apply H4 in E.
    + intros r Hr. destruct (H9 r Hr). split; [|lia]. rewrite elem_of_app, list_elem_of_singleton. intros [?| ->]; [done|lia].
Qed.

Lemma receive_sound max r w : sound max w -> sound max (step (EReceive r) w).
Proof.
  intros Hs. pose proof Hs as [H1 H2 H3 H4 H5 H6 H7 H8 H9]. cbn. case_bool_decide as Hw; [|done]. destruct (channel w !! r) as [id|] eqn:Ec.
  - assert (Hcl : forall r' x, claims (mkWorld (pool w) (waiting w ∖ {[r]}) (delete r (channel w)) (closed w) (<[r := id]> (holds w)) (next w)) r' x -> claims w r' x).
    { intros r' x [Hr|Hr]; cbn in Hr; [apply lookup_insert_Some in Hr as [[<- <-]|[_ Hr]]; [by right|by left]|]. apply lookup_delete_Some in Hr as [_ Hr]. by right. }
    split; cbn; try done.
    + intros r1 r2 x Hr1 Hr2. by eapply H2; apply Hcl.
    + intros r1 x Hr. by eapply H3, Hcl.
    + intros r1 x Hr. apply lookup_delete_Some in Hr as [Hne Hr]. apply H4 in Hr. set_solver.
    + intros r1 x Hr. apply lookup_insert_Some in Hr as [[<- _]|[_ Hr]]; [split; [set_solver|by apply H6]|]. destruct (H5 r1 x Hr). set_solver.
    + intros r1 Hr. apply H6. set_solver.
    + intros r1 Hr. destruct (H8 r1 Hr) as [Hr1 Hr2]. assert (r1 <> r) by congruence. rewrite lookup_delete_ne by done. set_solver.
  - case_bool_decide as Hc; [|done]. destruct (H9 r Hc) as [Hq _]. eapply (sound_fewer max w); try done; [set_solver|..].
    + intros r1 x Hr. assert (r1 <> r) by congruence. apply H4 in Hr. set_solver.
    + intros r1 Hr. destruct (H8 r1 Hr). assert (r1 <> r) by congruence. set_solver.
Qed.

Lemma abandon_sound max r w : sound max w -> sound max (step (EGiveUp r) w).
Proof.
  intros Hs. pose proof Hs as [H1 H2 H3 H4 H5 H6 H7 H8 H9]. cbn. case_bool_decide as Hw; [|done]. destruct (remove_first_spec r _ H7) as [Hn Hr].
  eapply (sound_fewer max w); try done.
  - eapply ok_fewer; [exact H1|done..|apply H1].
  - set_solver.
  - apply delete_subseteq.
  - intros r1 x Hx. apply lookup_delete_Some in Hx as [Hne Hx]. apply H4 in Hx. set_solver.
  - intros r1 Hx. destruct (Hr r1 Hx) as [Hx1 Hx2]. destruct (H8 r1 Hx1). set_solver.
  - intros r1 Hx. destruct (H9 r1 Hx). split; [|done]. intros Hx1. by destruct (Hr r1 Hx1).
Qed.

Lemma release_sound max clock r w : sound max w -> sound max (step (ERelease clock r) w).
Proof.
  intros Hs. pose proof Hs as [H1 H2 H3 H4 H5 H6 H7 H8 H9]. cbn. destruct (holds w !! r) as [id|] eqn:Eh; [|done].
  assert (Hid : id ∈ activeConns (pool w)) by (apply (H3 r); by left). assert (Hone : forall r' x, r' <> r -> claims w r' x -> x <> id). { intros r' x Hne Hc ->. apply Hne. eapply H2; [exact Hc|by left]. }
  assert (Hch : forall x, channel w !! r <> Some x). { intros x Hx. apply H4 in Hx. by destruct (H5 r id Eh). }
  pose proof (Release_ok max clock (full w) id (pool w) H1 Hid) as H. destruct (Release clock (full w) id (pool w)) as [[q|] p].
  - destruct H as (Hp & Hq & Ha). { intros r1 Hr. unfold full. rewrite (proj2 (H8 r1 Hr)). apply bool_decide_false. by intros [? ?]. }
    rewrite Hq in H7, H8, H9. apply NoDup_cons in H7 as [Hq1 Hq2]. destruct (H8 q ltac:(set_solver)) as [Hqw Hqc].
    assert (Hcl : forall r' x, claims (mkWorld p (waiting w) (<[q := id]> (channel w)) (closed w) (delete r (holds w)) (next w)) r' x -> (r' = q /\ x = id) \/ (r' <> r /\ claims w r' x)).
    { intros r' x [Hx|Hx]; cbn in Hx; [apply lookup_delete_Some in Hx as [Hne Hx]; right; split; [done|by left]|].
      apply lookup_insert_Some in Hx as [[<- <-]|[_ Hx]]; [by left|]. right. split; [|by right]. intros ->. by apply Hch in Hx. }
    split; cbn; try done.
    + intros r1 r2 x Hx1 Hx2. destruct (Hcl _ _ Hx1) as [[-> ->]|[Hn1 Hc1]], (Hcl _ _ Hx2) as [[-> E]|[Hn2 Hc2]]; [done| | |by eapply H2].
      * by apply (Hone r2 id) in Hc2.
      * subst x. by apply (Hone r1 id) in Hc1.
    + intros r1 x [[_ ->]|[_ Hx]]%Hcl; rewrite Ha; [done|by eapply H3].
    + intros r1 x Hx. apply lookup_insert_Some in Hx as [[<- _]|[_ Hx]]; [done|by eapply H4].
    + intros r1 x Hx. apply lookup_delete_Some in Hx as [_ Hx]. by eapply H5.
    + intros r1 Hr. assert (r1 <> q) by (intros ->; done). rewrite lookup_insert_ne by done. apply H8. set_solver.
    + intros r1 Hr. destruct (H9 r1 Hr). set_solver.
  - destruct H as (Hp & Hq & Ha). { intros r1 Hr. unfold full. rewrite (proj2 (H8 r1 Hr)). apply bool_decide_false. by intros [? ?]. }
    assert (Hcl : forall r' x, claims (mkWorld p (waiting w) (channel w) (closed w) (delete r (holds w)) (next w)) r' x -> r' <> r /\ claims w r' x).
    { intros r' x [Hx|Hx]; cbn in Hx; [apply lookup_delete_Some in Hx as [Hne Hx]; split; [done|by left]|]. split; [|by right]. intros ->. by apply Hch in Hx. }
    split; cbn; rewrite ?Hq; try done.
    + intros r1 r2 x [_ Hx1]%Hcl [_ Hx2]%Hcl. by eapply H2.
    + intros r1 x [Hne Hx]%Hcl. rewrite Ha. pose proof (Hone _ _ Hne Hx). apply H3 in Hx. set_solver.
    + intros r1 x Hx. apply lookup_delete_Some in Hx as [_ Hx]. by eapply H5.
Qed.

Lemma janitor_sound max now setting order w : prompt (EJanitor now setting order) w -> sound max w -> sound max (step (EJanitor now setting order) w).
Proof.
  intros [Ho Hp] Hs. destruct (janitor_ok max now setting order (pool w) (s_pool _ _ Hs) Ho) as (Hok & Hq & Ha & Hd). cbn. apply sound_pool; try done.
  intros r id Hc. destruct (decide (id ∈ activeConns (janitor now setting order (pool w)))) as [|Hn]; [done|].
  destruct (Hd id (s_active _ _ Hs _ _ Hc) Hn) as (t & Et & Hlt). specialize (Hp r id t Hc Et). lia.
Qed.

Lemma shutdown_sound max w : sound max w -> sound max (step EShutdown w).
Proof.
  intros Hs. pose proof Hs as [H1 H2 H3 H4 H5 H6 H7 H8 H9]. cbn. unfold Shutdown. destruct (isShutdown (pool w)).
  - replace (closed w ∪ list_to_set []) with (closed w) by set_solver. by apply sound_pool.
  - eapply (sound_fewer max w); try done; cbn; [|constructor|set_solver|].
    + eapply ok_fewer; [exact H1|done..|apply H1].
    + intros r. rewrite elem_of_union, elem_of_list_to_set. intros [Hr|Hr]; (split; [set_solver|]); [by apply H9|]. apply H6, H8, Hr.
Qed.

Lemma reachable_sound max start w : sound max start -> reachable start w -> sound max w.
Proof.
  intros Hs. induction 1 as [|ev w Hr IH Hp]; [done|]. destruct ev.
  - by apply acquire_sound.
  - by apply receive_sound.
  - by apply abandon_sound.
  - by apply release_sound.
  - by apply janitor_sound.
  - cbn. apply sound_pool; [done| |done|apply IH]. eapply ok_fewer; [apply IH|done..|apply IH].
  - cbn. apply sound_pool; [done| |done|apply IH]. eapply ok_fewer; [apply IH|done..|apply IH].
  - by apply shutdown_sound.
Qed.

(** C10: the pool gives a connection to one request at a time.  Whatever
    requests acquire, wait for, give up on and release connections, and
    whenever the janitor runs, the lifetime is set and the pool is shut down:
    no two requests have the same connection, none that a request has is idle,
    and there are at most twice as many connections as configured.  Provided
    that the janitor meets no request that has had its connection for longer
    than the limit. *)
Theorem pool_exclusive now max d w :
  0 <= max < 2 ^ 62 -> reachable (initial now max d) w ->
  (forall r r' id, holds w !! r = Some id -> holds w !! r' = Some id -> r = r') /\
  (forall r id, holds w !! r = Some id -> id ∈ activeConns (pool w) /\ id ∉ idleConns (pool w)) /\
  NoDup (idleConns (pool w)) /\ ActiveConnections (Stats (pool w)) + IdleConnections (Stats (pool w)) <= 2 * max.
Proof.
  intros Hm Hr. apply (reachable_sound max) in Hr as [H1 H2 H3 _ _ _ _ _ _]; [|by apply sound_initial]. destruct H1 as [Hi Ha _ Hsz _ _ _].
  split; [|split; [|by split]].
  - intros r r' id Hr Hr'. apply (H2 r r' id); by left.
  - intros r id Hr. assert (Hid : id ∈ activeConns (pool w)) by (apply (H3 r); by left). split; [done|]. intros Hx. by apply Ha in Hx.
Qed.

(** *** Waiters are served in turn *)

Definition release_all (clock : nat -> Z) (rs : list nat) (w : World) : World := fold_left (fun w r => step (ERelease clock r) w) rs w.

(** One release, with somebody waiting. *)
Lemma release_serves max clock r id w q queue : sound max w -> isShutdown (pool w) = false -> waitQueue (pool w) = q :: queue -> holds w !! r = Some id ->
  let w' := step (ERelease clock r) w in
  channel w' = <[q := id]> (channel w) /\ holds w' = delete r (holds w) /\ waitQueue (pool w') = queue /\ isShutdown (pool w') = false.
Proof.
  intros Hs Hd Hq Hh. cbn. rewrite Hh. unfold Release. rewrite Hd, Hq. cbn [hand_over].
  assert (Hf : full w q = false). { unfold full. rewrite (proj2 (s_queued _ _ Hs q ltac:(rewrite Hq; set_solver))). apply bool_decide_false. by intros [? ?]. }
  by rewrite Hf.
Qed.

(** What lies in a channel that is not in the queue stays there. *)
Lemma release_keeps max clock rs w q : sound max w -> q ∉ waitQueue (pool w) -> channel (release_all clock rs w) !! q = channel w !! q.
Proof.
  revert w. induction rs as [|r rs IH]; intros w Hs Hq; [done|]. change (release_all clock (r :: rs) w) with (release_all clock rs (step (ERelease clock r) w)).
  assert (H : channel (step (ERelease clock r) w) !! q = channel w !! q /\ q ∉ waitQueue (pool (step (ERelease clock r) w))).
  { pose proof Hs as [H1 H2 H3 H4 H5 H6 H7 H8 H9]. cbn. destruct (holds w !! r) as [id|] eqn:Eh; [|done].
    pose proof (Release_ok max clock (full w) id (pool w) H1 ltac:(apply (H3 r); by left)) as H. destruct (Release clock (full w) id (pool w)) as [[q'|] p].
    - destruct H as (_ & E & _). { intros r1 Hr. unfold full. rewrite (proj2 (H8 r1 Hr)). apply bool_decide_false. by intros [? ?]. }
      cbn. rewrite E in Hq. apply not_elem_of_cons in Hq as [Hne Hq]. by rewrite lookup_insert_ne.
    - destruct H as (_ & E & _). { intros r1 Hr. unfold full. rewrite (proj2 (H8 r1 Hr)). apply bool_decide_false. by intros [? ?]. }
      cbn. by rewrite E. }
  destruct H as [<- H]. apply IH; [by apply release_sound|done].
Qed.

(** The first to wait gets the first connection that is released, the second
    the second, and so on. *)
Theorem waiters_served_in_turn now max d w clock rs i r q :
  0 <= max < 2 ^ 62 -> reachable (initial now max d) w -> isShutdown (pool w) = false ->
  NoDup rs -> Forall (fun r => is_Some (holds w !! r)) rs -> rs !! i = Some r -> waitQueue (pool w) !! i = Some q ->
  channel (release_all clock rs w) !! q = holds w !! r.
Proof.
  intros Hm Hr. apply (reachable_sound max) in Hr; [|by apply sound_initial]. clear Hm. revert w i Hr.
  induction rs as [|r0 rs IH]; intros w i Hs Hd Hn Hh Hi Hq; [done|]. apply NoDup_cons in Hn as [Hr0 Hn]. apply Forall_cons in Hh as [[id Hid] Hh].
  destruct (waitQueue (pool w)) as [|q0 queue] eqn:Eq; [done|]. destruct (release_serves max clock r0 id w q0 queue Hs Hd Eq Hid) as (E1 & E2 & E3 & E4).
  change (release_all clock (r0 :: rs) w) with (release_all clock rs (step (ERelease clock r0) w)). pose proof (release_sound max clock r0 w Hs) as Hs'. destruct i as [|i]; cbn in Hi, Hq.
  - injection Hi as <-. injection Hq as <-. rewrite (release_keeps max) by (rewrite ?E3; try done; pose proof (s_queue _ _ Hs) as Hnd; rewrite Eq in Hnd; by apply NoDup_cons in Hnd as [? _]).
    by rewrite E1, lookup_insert_eq.
  - assert (Hne : r <> r0) by (intros ->; apply Hr0; by eapply list_elem_of_lookup_2). rewrite (IH _ i Hs' E4 Hn); try done.
    + by rewrite E2, lookup_delete_ne.
    + rewrite E2. apply Forall_forall. intros r1 Hr1. rewrite Forall_forall in Hh. rewrite lookup_delete_ne by (intros ->; done). by apply Hh.
    + by rewrite E3.
Qed.

(** ** The interface of pools

    A pool as one request meets it whom nobody disturbs: it waits in vain. *)

Class Manager (P : Type) := {
  m_Acquire : (nat -> Z) -> P -> (string + Z) * P;
  m_Release : (nat -> Z) -> Z -> P -> P;
  m_IncrementQueries : P -> P;
  m_Stats : P -> PoolStats;
  m_Dialect : P -> string;
  m_Shutdown : P -> option string * P }.

Definition acquire_alone (clock : nat -> Z) (p : ConnectionPool) : (string + Z) * ConnectionPool :=
  match Acquire clock 0 p with
  | (Got id, p) => (inr id, p)
  | (ShuttingDown, p) => (inl "connection pool is shutting down", p)
  | (Waits, p) => (inl "connection pool exhausted (wait timeout)", abandon 0 p)
  end.

#[global] Instance pool_manager : Manager ConnectionPool := {|
  m_Acquire := acquire_alone; m_Release clock id p := (Release clock (fun _ => false) id p).2; m_IncrementQueries := IncrementQueries; m_Stats := Stats; m_Dialect := dialect;
  m_Shutdown p := if isShutdown p then (None, p) else let p := (Shutdown p).2 in (if drained p then None else Some "context deadline exceeded", p) |}.

(** *** Health checks ([health_checker.go]) *)

Section HealthChecker.
Context `{Manager P}.

(** The check may answer differently at each call. *)
Record HealthChecker := mkChecker { inner : P; ValidateFn : option (nat -> Z -> bool); healthyAcquires : Z; staleDiscarded : Z }.

Definition validate (hc : HealthChecker) : nat -> Z -> bool := default (fun _ _ => true) (ValidateFn hc).

Definition NewHealthChecker (inner : P) (validateFn : option (nat -> Z -> bool)) : HealthChecker :=
  mkChecker inner (Some (default (fun _ _ => true) validateFn)) 0 0.

Fixpoint attempts (clocks : nat -> nat -> Z) (attempt remaining : nat) (hc : HealthChecker) : (string + Z) * HealthChecker :=
  match remaining with
  | O => (inl "health check failed after 3 attempts: connections invalid", hc)
  | S remaining =>
      match m_Acquire (clocks attempt) (inner hc) with
      | (inl err, p) => (inl err, mkChecker p (ValidateFn hc) (healthyAcquires hc) (staleDiscarded hc))
      | (inr conn, p) =>
          if validate hc attempt conn then (inr conn, mkChecker p (ValidateFn hc) (wrap64 (healthyAcquires hc + 1)) (staleDiscarded hc))
          else attempts clocks (S attempt) remaining (mkChecker (m_Release (clocks attempt) conn p) (ValidateFn hc) (healthyAcquires hc) (wrap64 (staleDiscarded hc + 1)))
      end
  end.

Definition hc_Acquire (clocks : nat -> nat -> Z) (hc : HealthChecker) : (string + Z) * HealthChecker := attempts clocks 0 3 hc.

Definition hc_Release (clock : nat -> Z) (conn : Z) (hc : HealthChecker) : HealthChecker :=
  mkChecker (m_Release clock conn (inner hc)) (ValidateFn hc) (healthyAcquires hc) (staleDiscarded hc).

Definition hc_HealthStats (hc : HealthChecker) : Z * Z := (healthyAcquires hc, staleDiscarded hc).

(** Each of the attempts reads the clock anew. *)
#[global] Instance checked_manager : Manager HealthChecker := {|
  m_Acquire clock := hc_Acquire (fun k i => clock (3 * i + k)%nat); m_Release := hc_Release;
  m_IncrementQueries hc := mkChecker (m_IncrementQueries (inner hc)) (ValidateFn hc) (healthyAcquires hc) (staleDiscarded hc);
  m_Stats hc := m_Stats (inner hc); m_Dialect hc := m_Dialect (inner hc);
  m_Shutdown hc := let '(err, p) := m_Shutdown (inner hc) in (err, mkChecker p (ValidateFn hc) (healthyAcquires hc) (staleDiscarded hc)) |}.

(** A connection that is handed out has passed the check. *)
Lemma attempts_valid clocks attempt remaining hc conn hc' : attempts clocks attempt remaining hc = (inr conn, hc') -> exists k, (attempt <= k < attempt + remaining)%nat /\ validate hc k conn = true.
Proof.
  revert attempt hc. induction remaining as [|remaining IH]; intros attempt hc; cbn; [done|]. destruct (m_Acquire _ _) as [[|c] p]; [done|].
  destruct (validate hc attempt c) eqn:E; [intros [= <- _]; exists attempt; split; [lia|done]|]. intros Ha%IH. destruct Ha as (k & Hk & Hv). exists k. split; [lia|done].
Qed.
End HealthChecker.
Arguments HealthChecker : clear implicits.

(** *** Leaks ([leak_detector.go]) *)

Record CheckedOutConnection := mkCheckout { ConnID : string; co_At : Z; MaxAllowedHold : Z; AllocationStack : string }.

Record ConnectionLeakDetector := mkDetector { checkouts : gmap string CheckedOutConnection; defaultMaxHold : Z; leakedCount : Z }.

Definition NewConnectionLeakDetector (defaultMaxHold : Z) : ConnectionLeakDetector :=
  mkDetector ∅ (if defaultMaxHold <=? 0 then 30 * Second else defaultMaxHold) 0.

Definition RecordCheckout (now : Z) (stack connID : string) (d : ConnectionLeakDetector) : ConnectionLeakDetector :=
  mkDetector (<[connID := mkCheckout connID now (defaultMaxHold d) (String.substring 0 1024 stack)]> (checkouts d)) (defaultMaxHold d) (leakedCount d).

Definition RecordCheckin (connID : string) (d : ConnectionLeakDetector) : ConnectionLeakDetector := mkDetector (delete connID (checkouts d)) (defaultMaxHold d) (leakedCount d).

Definition sweep_one (now : Z) (acc : list string * ConnectionLeakDetector) (connID : string) : list string * ConnectionLeakDetector :=
  let '(leaked, d) := acc in
  match checkouts d !! connID with
  | Some info => if MaxAllowedHold info <? Sub now (co_At info) then (leaked ++ [connID], mkDetector (delete connID (checkouts d)) (defaultMaxHold d) (wrap64 (leakedCount d + 1))) else (leaked, d)
  | None => (leaked, d)
  end.

(** In the order in which the map is visited; what is in the answer is handed
    to the reclaiming function. *)
Definition SweepLeaks (now : Z) (order : list string) (d : ConnectionLeakDetector) : list string * ConnectionLeakDetector := fold_left (sweep_one now) order ([], d).

(** *** Analytics *)

Record SlowQueryLog := mkSlow { sl_Query : string; DurationMs : float64; sl_Timestamp : Z }.

Record QueryHistogram := mkHistogram { buckets : gmap string Z; slowQueries : list SlowQueryLog; slowThreshold : Z; maxSlowRecords : nat }.

Definition NewQueryHistogram (slowThreshold : Z) : QueryHistogram :=
  mkHistogram {["le_5ms" := 0; "le_50ms" := 0; "le_200ms" := 0; "gt_200ms" := 0]} [] (if slowThreshold <=? 0 then 200 * Millisecond else slowThreshold) 100.

Definition latency_bucket (duration : Z) : string :=
  if duration <=? 5 * Millisecond then "le_5ms" else if duration <=? 50 * Millisecond then "le_50ms" else if duration <=? 200 * Millisecond then "le_200ms" else "gt_200ms".

Definition RecordQuery (now : Z) (query : string) (duration : Z) (h : QueryHistogram) : QueryHistogram :=
  let durMs := fdiv (float_of_Z (Z.quot duration Microsecond)) (float_of_Z 1000) in
  let b := latency_bucket duration in
  let slow := if slowThreshold h <=? duration
              then (if (maxSlowRecords h <=? length (slowQueries h))%nat then tail (slowQueries h) else slowQueries h) ++ [mkSlow query durMs now] else slowQueries h in
  mkHistogram (<[b := wrap64 (default 0 (buckets h !! b) + 1)]> (buckets h)) slow (slowThreshold h) (maxSlowRecords h).

Definition GetSnapshot (h : QueryHistogram) : gmap string Z * list SlowQueryLog := (buckets h, slowQueries h).

Record PoolSaturationAlert := mkAlert { PoolName : string; ActiveConns : Z; MaxConns : Z; UtilizationPct : float64; WaitCount : Z; AlertTriggered : bool; al_Timestamp : Z }.

Record SaturationMonitor := mkMonitor { poolName : string; highWatermarkPct : float64; lastAlert : option PoolSaturationAlert }.

Definition NewSaturationMonitor (poolName : string) (highWatermarkPct : float64) : SaturationMonitor :=
  mkMonitor poolName (if fleb highWatermarkPct fzero then float_of_Z 85 else highWatermarkPct) None.

Definition Evaluate (now activeConns maxConns waitCount : Z) (sm : SaturationMonitor) : PoolSaturationAlert * SaturationMonitor :=
  let utilPct := if 0 <? maxConns then fmul (fdiv (float_of_Z activeConns) (float_of_Z maxConns)) (float_of_Z 100) else fzero in
  let triggered := fleb (highWatermarkPct sm) utilPct || (10 <? waitCount) in
  let alert := mkAlert (poolName sm) activeConns maxConns utilPct waitCount triggered now in
  (alert, mkMonitor (poolName sm) (highWatermarkPct sm) (Some alert)).

(** ** Reads and writes ([rw_splitter.go]) *)

Inductive QueryType := QueryTypeRead | QueryTypeWrite.
#[global] Instance QueryType_eq_dec : EqDecision QueryType. Proof. solve_decision. Defined.

Definition newline : ascii := "010"%char.

(** [n] rounds; each takes off two bytes at least. *)
Fixpoint strip (n : nat) (sql : bytes) : bytes :=
  let sql := trim_left (length sql) space_at sql in
  match n with
  | O => sql
  | S n =>
      if bytes_HasPrefix sql (byt "--") then match bytes_Cut sql [newline] with Some (_, rest) => strip n rest | None => [] end
      else if bytes_HasPrefix sql (byt "/*") then match bytes_Cut sql (byt "*/") with Some (_, rest) => strip n rest | None => [] end
      else sql
  end.

Definition stripLeadingWhitespaceAndComments (sql : bytes) : bytes := strip (length sql) sql.

Definition ends_verb (s : bytes) : bool :=
  match s with
  | [] => false
  | c :: _ => bool_decide (is_Some (space_at s)) || bool_decide (c ∈ [";"%char; "("%char; ")"%char])
  end.

Fixpoint verb_of (s : bytes) : bytes :=
  match s with
  | [] => []
  | c :: rest => if ends_verb s then [] else c :: verb_of rest
  end.

Definition ClassifyQuery `{Casing} (sql : string) : QueryType :=
  let clean := stripLeadingWhitespaceAndComments (byt sql) in
  if bool_decide (clean = []) then QueryTypeWrite else
  let verb := upper (str (verb_of clean)) in
  if bool_decide (verb = "SELECT") || bool_decide (verb = "WITH") then QueryTypeRead else QueryTypeWrite.

(** The pool for a query, by its place among the replicas, and the next index. *)
Inductive Target := ToPrimary | ToReplica (i : nat).

Definition Route `{Casing} (sql : string) (replicas : nat) (rrIndex : Z) : Target * Z :=
  if bool_decide (ClassifyQuery sql = QueryTypeWrite) || (replicas =? 0)%nat then (ToPrimary, rrIndex)
  else let next := wrapu64 (rrIndex + 1) in (ToReplica (Z.to_nat (wrapu64 (next - 1) mod Z.of_nat replicas)), next).

(** ** Statements ([stmt_cache.go]) *)

Inductive SQLDialect := DialectPostgres | DialectSQLite | DialectMySQL | OtherDialect (name : string).

Record PreparedStatement := mkStatement { st_ID : string; RawQuery : string; NormalizedQuery : string; st_Dialect : SQLDialect; HitCount : Z }.

Record StatementCache := mkStatements { statements : gmap string PreparedStatement; capacity : Z }.

Definition NewStatementCache (capacity : Z) : StatementCache := mkStatements ∅ (if capacity <=? 0 then 500 else capacity).

Fixpoint number_placeholders (q : bytes) (paramIdx : Z) : bytes :=
  match q with
  | [] => []
  | c :: q => if bool_decide (c = "?"%char) then byt ("$" +:+ pretty paramIdx) ++ number_placeholders q (paramIdx + 1) else c :: number_placeholders q paramIdx
  end.

Definition NormalizeSQL (query : string) (dialect : SQLDialect) : string :=
  let q := TrimSpace query in
  match dialect with DialectPostgres => str (number_placeholders (byt q) 1) | _ => q end.

(** [first] is the key the iteration over the full cache begins with. *)
Definition GetOrPrepare (first : string) (query : string) (dialect : SQLDialect) (sc : StatementCache) : PreparedStatement * bool * StatementCache :=
  let norm := NormalizeSQL query dialect in
  match statements sc !! norm with
  | Some stmt =>
      let stmt := mkStatement (st_ID stmt) (RawQuery stmt) (NormalizedQuery stmt) (st_Dialect stmt) (wrap64 (HitCount stmt + 1)) in
      (stmt, true, mkStatements (<[norm := stmt]> (statements sc)) (capacity sc))
  | None =>
      let m := if capacity sc <=? Z.of_nat (size (statements sc)) then delete first (statements sc) else statements sc in
      let stmt := mkStatement ("stmt-" +:+ pretty (Z.of_nat (size m) + 1)) query norm dialect 1 in
      (stmt, false, mkStatements (<[norm := stmt]> m) (capacity sc))
  end.

(** ** Migrations ([migration.go]) *)

Record Migration := mkMigration { Version : Z; mg_Name : string; AppliedAt : Z; SQL : string; Rollback : string }.

(** The white space and the word bytes of regular expressions. *)
Definition re_space (c : ascii) : bool := bool_decide (c ∈ ["009"; "010"; "012"; "013"; " "]%char).
Definition re_word (c : ascii) : bool :=
  let n := N_of_ascii c in ((48 <=? n) && (n <=? 57) || (65 <=? n) && (n <=? 90) || (97 <=? n) && (n <=? 122) || (n =? 95))%N.

(** [s] without the word [w] at its start, letters of either case. *)
Definition strip_fold (w s : bytes) : option bytes := if bool_decide (lower_ascii (take (length w) s) = lower_ascii w) then Some (drop (length w) s) else None.

Definition skip_space (s : bytes) : option bytes := match take_while re_space s with [] => None | _ => Some (drop_while re_space s) end.

(** [(?i)VERB\s+TABLE\s+(\w+)] at the start of the text, then anywhere: the
    name in the leftmost match. *)
Definition table_at (verb s : bytes) : option string :=
  match ((strip_fold verb s ≫= skip_space) ≫= strip_fold (byt "table")) ≫= skip_space with
  | Some s => match take_while re_word s with [] => None | name => Some (str name) end
  | None => None
  end.

Fixpoint find_table (verb s : bytes) : option string :=
  match table_at verb s with
  | Some name => Some name
  | None => match s with [] => None | _ :: s => find_table verb s end
  end.

Definition statements_of (sql : string) : list string := filter (fun q => q <> "") (TrimSpace <$> Split sql ";"%char).

Definition ParseTablesFromSQL (sql : string) : list string * list string :=
  let queries := statements_of sql in
  (omap (fun q => find_table (byt "create") (byt q)) queries, omap (fun q => find_table (byt "drop") (byt q)) queries).

(** ** The query server ([routing.go]) *)

(** The store for migrations, the decoders, and the hooks of the enterprise
    build. *)
Record MigrateRequest := mkMigrate { rq_Version : Z; rq_Name : string; rq_SQL : string; rq_Rollback : string; rq_Action : string }.
Record Row := mkRow { row_query : string; conn_id : Z; row_pool : string }.
Inductive Pool_ := Primary | Replica | Region (name : string).

Class QueryCodec := {
  decode_query : string -> option string;
  decode_migrate : string -> string + MigrateRequest;
  encode_migrations : list Migration -> bytes;
  decode_migrations : bytes -> option (list Migration) }.

Class QueryOptimizer (T : Type) := {
  o_Route : T -> string -> string -> option (Pool_ * string);
  GetCached : T -> string -> option (list Row);
  SetCached : string -> list Row -> T -> T;
  ClearCache : T -> T }.

Section Server.
Context `{QueryCodec} `{Casing} `{Manager P} `{QueryOptimizer T}.

(** [optimizer] and [stored] are [None] where the pointers are nil; [locked]
    is a write lock on the migrations that is never released. *)
Record Server := mkServer {
  primaryPool : P; replicaPool : P; regionPools : gmap string P; stored : option (option bytes); queryAnalytics : gmap string (Z * Z);
  migrations : list Migration; locked : bool; peers : list string; activeTables : gset string; optimizer : option T }.

Definition NewServer (primary replica : P) (store : option (option bytes)) (optimizer : option T) : Server :=
  let loaded := match store with Some (Some data) => default [] (decode_migrations data) | _ => [] end in
  mkServer primary replica ∅ store ∅ loaded false [] ∅ optimizer.

Definition with_pool (t : Pool_) (p : P) (s : Server) : Server :=
  match t with
  | Primary => mkServer p (replicaPool s) (regionPools s) (stored s) (queryAnalytics s) (migrations s) (locked s) (peers s) (activeTables s) (optimizer s)
  | Replica => mkServer (primaryPool s) p (regionPools s) (stored s) (queryAnalytics s) (migrations s) (locked s) (peers s) (activeTables s) (optimizer s)
  | Region r => mkServer (primaryPool s) (replicaPool s) (<[r := p]> (regionPools s)) (stored s) (queryAnalytics s) (migrations s) (locked s) (peers s) (activeTables s) (optimizer s)
  end.

Definition AddRegionPool (region : string) (p : P) (s : Server) : Server := with_pool (Region region) p s.

Definition HasActiveTable (name : string) (s : Server) : bool := bool_decide (name ∈ activeTables s).

Definition SetPeers (l : list string) (s : Server) : Server :=
  mkServer (primaryPool s) (replicaPool s) (regionPools s) (stored s) (queryAnalytics s) (migrations s) (locked s) l (activeTables s) (optimizer s).

Definition pool_of (t : Pool_) (s : Server) : option P :=
  match t with Primary => Some (primaryPool s) | Replica => Some (replicaPool s) | Region r => regionPools s !! r end.

(** The pools one after the other; the errors are joined. *)
Definition shut (label : string) (t : Pool_) (acc : list string * Server) : list string * Server :=
  let '(errs, s) := acc in
  match pool_of t s with
  | Some p => let '(err, p) := m_Shutdown p in (errs ++ match err with Some e => [label +:+ e] | None => [] end, with_pool t p s)
  | None => acc
  end.

Definition srv_Shutdown (order : list string) (s : Server) : option string * Server :=
  let acc := shut "primary pool shutdown error: " Primary ([], s) in
  let acc := shut "replica pool shutdown error: " Replica acc in
  let '(errs, s) := fold_left (fun acc r => shut ("region pool " +:+ r +:+ " shutdown error: ") (Region r) acc) order acc in
  (match errs with [] => None | _ => Some ("shutdown errors: " +:+ Join errs "; ") end, s).

Inductive Answer :=
| PQuery (rows : list Row) (duration_ms : Z) | PStats (primary replica : PoolStats) | PAnalytics (m : gmap string (Z * Z))
| PRolledBack (version : Z) (name : string) | PSkipped | PApplied (m : Migration) | PCleared
| PHealth (primary replica : PoolStats) (deadlock_alert : bool) (active_leases : Z) | PMetrics (text : string).

Definition code_of (status : Z) : string :=
  if status =? 405 then "ERR_METHOD_NOT_ALLOWED" else if status =? 400 then "ERR_BAD_REQUEST" else if status =? 401 then "ERR_UNAUTHORIZED"
  else if status =? 403 then "ERR_FORBIDDEN" else if status =? 404 then "ERR_NOT_FOUND" else if status =? 409 then "ERR_CONFLICT"
  else if status =? 501 then "ERR_NOT_IMPLEMENTED" else if status =? 503 then "ERR_SERVICE_UNAVAILABLE" else "ERR_INTERNAL_SERVER_ERROR".

Definition writeJSONError (msg : string) (status : Z) : Reply Answer := WriteJSONError msg (code_of status) status.
Definition not_allowed : Reply Answer := writeJSONError "Method Not Allowed" 405.

(** What is sent to the peers. *)
Definition replicateQuery (query : string) (s : Server) : list (string * string) :=
  (fun addr => (if negb (HasPrefix addr "http://") && negb (HasPrefix addr "https://") then "http://" +:+ addr else addr, query)) <$> peers s.

Definition mismatch (dialect query : string) : option string :=
  if bool_decide (dialect = "postgres") && Contains query "?" then Some "PostgreSQL dialect requires '$1' placeholders, found '?'"
  else if bool_decide (dialect = "mysql") && Contains query "$1" then Some "MySQL dialect requires '?' placeholders, found '$1'"
  else None.

Definition target_of (query region : string) (s : Server) : Pool_ * P * string :=
  match optimizer s ≫= (fun o => o_Route o query region) with
  | Some (t, name) => match pool_of t s with Some p => (t, p, name) | None => (Primary, primaryPool s, "primary") end
  | None => (Primary, primaryPool s, "primary")
  end.

Definition count_query (query : string) (ms : Z) (m : gmap string (Z * Z)) : gmap string (Z * Z) :=
  let '(n, total) := default (0, 0) (m !! query) in <[query := (wrap64 (n + 1), wrap64 (total + ms))]> m.

Definition with_query (m : gmap string (Z * Z)) (o : option T) (s : Server) : Server :=
  mkServer (primaryPool s) (replicaPool s) (regionPools s) (stored s) m (migrations s) (locked s) (peers s) (activeTables s) o.

(** [clock 0] at the start, [clock 1] after the work; [acquired] and
    [released] are those of the pool. *)
Definition HandleQuery (clock acquired released : nat -> Z) (r : Request) (s : Server) : Reply Answer * list (string * string) * Server :=
  if negb (bool_decide (Method r = "POST")) then (not_allowed, [], s) else
  match decode_query (Body r) with
  | None => (writeJSONError "Invalid payload" 400, [], s)
  | Some query =>
      match optimizer s ≫= (fun o => GetCached o query) with
      | Some rows => (mkReply 200 (Core.Data (PQuery rows (Z.quot (Sub (clock 1%nat) (clock 0%nat)) Millisecond))), [], s)
      | None =>
          let '(t, p, name) := target_of query (Header r "X-Region") s in
          match mismatch (m_Dialect p) query with
          | Some msg => (mkReply 400 (Error msg "dialect_mismatch"), [], s)
          | None =>
              match m_Acquire acquired p with
              | (inl err, p) => (writeJSONError ("Database unavailable: " +:+ err) 503, [], with_pool t p s)
              | (inr conn, p) =>
                  let ms := Z.quot (Sub (clock 1%nat) (clock 0%nat)) Millisecond in
                  let rows := [mkRow query conn name] in
                  let sent := if bool_decide (name = "primary") && negb (bool_decide (Header r "X-ServDB-Replicated" = "true")) then replicateQuery query s else [] in
                  let p := m_Release released conn (m_IncrementQueries p) in
                  (mkReply 200 (Core.Data (PQuery rows ms)), sent,
                   with_query (count_query query ms (queryAnalytics s)) (SetCached query rows <$> optimizer s) (with_pool t p s))
              end
          end
      end
  end.

Definition HandleStats (r : Request) (s : Server) : Reply Answer :=
  if negb (bool_decide (Method r = "GET")) then not_allowed else mkReply 200 (Core.Data (PStats (m_Stats (primaryPool s)) (m_Stats (replicaPool s)))).

Definition HandleAnalytics (r : Request) (s : Server) : Reply Answer :=
  if negb (bool_decide (Method r = "GET")) then not_allowed else mkReply 200 (Core.Data (PAnalytics (queryAnalytics s))).

Definition HandleClearCache (r : Request) (s : Server) : Reply Answer * Server :=
  if negb (bool_decide (Method r = "POST")) then (not_allowed, s) else
  (mkReply 200 (Core.Data PCleared), with_query (queryAnalytics s) (ClearCache <$> optimizer s) s).

Definition HandleDbHealth (r : Request) (s : Server) : Reply Answer :=
  if negb (bool_decide (Method r = "GET")) then not_allowed else
  let p := m_Stats (primaryPool s) in
  let q := m_Stats (replicaPool s) in
  mkReply 200 (Core.Data (PHealth p q (MaxConnections p <=? ActiveConnections p) (ActiveConnections p + ActiveConnections q))).

(** One gauge in the text format of Prometheus. *)
Definition gauge (name help kind label : string) (v : Z) : string :=
  let nl := str [newline] in
  "# HELP " +:+ name +:+ " " +:+ help +:+ nl +:+ "# TYPE " +:+ name +:+ " " +:+ kind +:+ nl +:+ name +:+ "{" +:+ label +:+ "} " +:+ pretty v +:+ nl +:+ nl.

Definition pool_metrics (entry : string * PoolStats) : string :=
  let q := str ["034"%char] in
  let label := "pool=" +:+ q +:+ entry.1 +:+ q in
  gauge "servdb_pool_active_connections" "Active connections in pool." "gauge" label (ActiveConnections entry.2) +:+
  gauge "servdb_pool_idle_connections" "Idle connections waiting in pool." "gauge" label (IdleConnections entry.2) +:+
  gauge "servdb_pool_max_connections" "Maximum allowed connections for pool." "gauge" label (MaxConnections entry.2) +:+
  gauge "servdb_pool_total_queries_total" "Total queries processed by pool." "counter" label (TotalQueries entry.2).

Definition HandlePrometheusMetrics (order : list string) (r : Request) (s : Server) : Reply Answer :=
  if negb (bool_decide (Method r = "GET")) then not_allowed else
  let regions := omap (fun n => (fun p => ("region_" +:+ n, m_Stats p)) <$> regionPools s !! n) order in
  mkReply 200 (Core.Data (PMetrics (Join (pool_metrics <$> ("primary", m_Stats (primaryPool s)) :: ("replica", m_Stats (replicaPool s)) :: regions) ""))).

(** *** Migrations *)

Definition apply_sql (sql : string) (tables : gset string) : gset string :=
  let '(created, dropped) := ParseTablesFromSQL sql in (tables ∪ list_to_set created) ∖ list_to_set dropped.

Definition with_migrations (ms : list Migration) (tables : gset string) (lk : bool) (s : Server) : Server :=
  mkServer (primaryPool s) (replicaPool s) (regionPools s) (stored s) (queryAnalytics s) ms lk (peers s) tables (optimizer s).

(** The store may refuse the data, which is not noticed. *)
Definition saveMigrationsToStore (put_ok : bool) (s : Server) : Server :=
  match stored s with
  | Some _ => if put_ok then mkServer (primaryPool s) (replicaPool s) (regionPools s) (Some (Some (encode_migrations (migrations s)))) (queryAnalytics s) (migrations s) (locked s) (peers s) (activeTables s) (optimizer s) else s
  | None => s
  end.

Definition has_version (v : Z) (ms : list Migration) : bool := existsb (fun m => Version m =? v) ms.

Definition rollback_target (version : Z) (ms : list Migration) : option (nat * Migration) :=
  if 0 <? version then list_find (fun m => Version m = version) ms
  else (fun m => ((length ms - 1)%nat, m)) <$> last ms.

(** No answer when the request waits for a lock for ever: a rollback holds the
    lock on the migrations and, if there is a store, asks for it again. *)
Definition rollback (req : MigrateRequest) (s : Server) : option (Reply Answer) * Server :=
  match rollback_target (rq_Version req) (migrations s) with
  | None => (Some (mkReply 404 (Error "Migration version not found to rollback" "not_found")), s)
  | Some (i, target) =>
      let sql := if bool_decide (Rollback target = "") then rq_Rollback req else Rollback target in
      let s := with_migrations (delete i (migrations s)) (apply_sql sql (activeTables s)) false s in
      match stored s with
      | Some _ => (None, with_migrations (migrations s) (activeTables s) true s)
      | None => (Some (mkReply 200 (Core.Data (PRolledBack (Version target) (mg_Name target)))), s)
      end
  end.

Definition migrate (now : Z) (put_ok : bool) (req : MigrateRequest) (s : Server) : Reply Answer * Server :=
  if has_version (rq_Version req) (migrations s) then (mkReply 200 (Core.Data PSkipped), s) else
  let m := mkMigration (rq_Version req) (rq_Name req) now (rq_SQL req) (rq_Rollback req) in
  (mkReply 201 (Core.Data (PApplied m)), saveMigrationsToStore put_ok (with_migrations (migrations s ++ [m]) (apply_sql (rq_SQL req) (activeTables s)) (locked s) s)).

Definition HandleMigrate (now : Z) (put_ok : bool) (r : Request) (s : Server) : option (Reply Answer) * Server :=
  if negb (bool_decide (Method r = "POST")) then (Some not_allowed, s) else
  match decode_migrate (Body r) with
  | inl err => (Some (writeJSONError ("Invalid payload: " +:+ err) 400), s)
  | inr req =>
      if locked s then (None, s)
      else if bool_decide (rq_Action req = "rollback") then rollback req s
      else let '(reply, s) := migrate now put_ok req s in (Some reply, s)
  end.
End Server.

(** ** Which pool a query goes to *)

(** White space and comments; [/*/] is a whole comment to the code. *)
Inductive lead : bytes -> Prop :=
| lead_nil : lead []
| lead_space w s : w ∈ spaces -> lead s -> lead (w ++ s)
| lead_line c s : newline ∉ c -> lead s -> lead (byt "--" ++ c ++ newline :: s)
| lead_block c s : bytes_Contains c (byt "*/") = false -> head c <> Some "/"%char -> lead s -> lead (byt "/*" ++ c ++ byt "*/" ++ s)
| lead_short s : lead s -> lead (byt "/*/" ++ s).

(** A word ends before white space, a semicolon or a parenthesis. *)
Inductive separator : bytes -> Prop :=
| sep_space w s : w ∈ spaces -> separator (w ++ s)
| sep_mark c s : c ∈ [";"%char; "("%char; ")"%char] -> separator (c :: s).

(** The first word of a query after white space and comments.  A query that is
    empty, ends within a comment or begins with a mark has none. *)
Record first_word (sql word : bytes) : Prop := {
  fw_nonempty : word <> [];
  fw_place : exists pre rest, sql = pre ++ word ++ rest /\ lead pre /\ bytes_HasPrefix (word ++ rest) (byt "--") = false /\ bytes_HasPrefix (word ++ rest) (byt "/*") = false /\
    (rest = [] \/ separator rest) /\ forall a b, word = a ++ b -> b <> [] -> ~ separator (b ++ rest) }.

Lemma space_at_space w s : w ∈ spaces -> space_at (w ++ s) = Some (length w) /\ (1 <= length w)%nat.
Proof. intros H. rewrite list_elem_of_In in H. repeat (destruct H as [<-|H]; [split; [reflexivity|cbn; lia]|]). destruct H. Qed.

Lemma space_at_pos s k : space_at s = Some k -> (1 <= k)%nat.
Proof.
  unfold space_at. destruct (list_find _ spaces) as [[i w]|] eqn:E; [|done]. apply list_find_Some in E as (E & _). intros [= <-].
  apply (space_at_space w []). by eapply list_elem_of_lookup_2.
Qed.

Lemma trim_left_enough n m s : (length s <= n)%nat -> (length s <= m)%nat -> trim_left n space_at s = trim_left m space_at s.
Proof.
  revert m s. induction n as [|n IH]; intros [|m] s Hn Hm; try done.
  - destruct s; [|cbn in Hn; lia]. done.
  - destruct s; [|cbn in Hm; lia]. done.
  - cbn. destruct (space_at s) as [k|] eqn:E; [|done]. apply space_at_pos in E. destruct s as [|c s]; [rewrite drop_nil; apply IH; cbn; lia|]. apply IH; rewrite length_drop; cbn in *; lia.
Qed.

Lemma trim_space w s : w ∈ spaces -> trim_left (length (w ++ s)) space_at (w ++ s) = trim_left (length s) space_at s.
Proof.
  intros Hw. destruct (space_at_space w s Hw) as [E Hl]. rewrite length_app. destruct (length w + length s)%nat as [|n] eqn:En; [lia|]. cbn [trim_left].
  rewrite E, drop_app_length. apply trim_left_enough; lia.
Qed.

Lemma strip_space n w s : w ∈ spaces -> strip n (w ++ s) = strip n s.
Proof. intros Hw. destruct n; cbn [strip]; by rewrite (trim_space w s Hw). Qed.

(** A comment ends at its first end. *)
Lemma cut_block c s : bytes_Contains c (byt "*/") = false -> bytes_Cut (c ++ byt "*/" ++ s) (byt "*/") = Some (c, s).
Proof.
  induction c as [|x c IH]; intros Hc; [reflexivity|].
  cbn [bytes_Contains] in Hc. apply orb_false_iff in Hc as [Hp Hc]. rewrite <- app_comm_cons. cbn [bytes_Cut]. rewrite (IH Hc).
  destruct (bytes_HasPrefix (x :: c ++ _) _) eqn:E; [|done]. exfalso. apply bytes_HasPrefix_iff in E as [r E]. injection E as -> E.
  destruct c as [|y c]; [discriminate E|]. injection E as -> E. assert (Ht : bytes_HasPrefix ("*" :: "/" :: c)%char (byt "*/") = true) by (apply bytes_HasPrefix_iff; by exists c). congruence.
Qed.

Lemma strip_lead pre body n : lead pre -> space_at body = None -> bytes_HasPrefix body (byt "--") = false -> bytes_HasPrefix body (byt "/*") = false ->
  (length pre <= n)%nat -> strip n (pre ++ body) = body.
Proof.
  intros Hl Hs H1 H2. revert n. induction Hl as [|w s Hw Hl IH|c s Hc Hl IH|c s Hc Hh Hl IH|s Hl IH]; intros n Hn.
  - destruct n; cbn [strip app]; rewrite trim_left_stop by done; [done|]. by rewrite H1, H2.
  - rewrite <- app_assoc, strip_space by done. apply IH. rewrite length_app in Hn. lia.
  - rewrite <- !app_assoc. rewrite !length_app in Hn. cbn in Hn. destruct n as [|n]; [lia|]. cbn [strip]. rewrite trim_left_stop by reflexivity.
    replace (bytes_HasPrefix (byt "--" ++ _) (byt "--")) with true by (symmetry; apply bytes_HasPrefix_iff; eauto).
    rewrite app_assoc. cbn [app]. rewrite (bytes_Cut_first newline (byt "--" ++ c)) by (cbn; set_solver). apply IH. lia.
  - rewrite <- !app_assoc. rewrite !length_app in Hn. change (length (byt "/*")) with 2%nat in Hn. destruct n as [|n]; [lia|]. cbn [strip]. rewrite trim_left_stop by reflexivity.
    replace (bytes_HasPrefix (byt "/*" ++ _) (byt "--")) with false by reflexivity.
    replace (bytes_HasPrefix (byt "/*" ++ _) (byt "/*")) with true by (symmetry; apply bytes_HasPrefix_iff; eauto).
    rewrite (app_assoc (byt "/*") c), (cut_block (byt "/*" ++ c)); [apply IH; lia|].
    change (byt "*/") with ["*"%char; "/"%char] in *. change (byt "/*") with ["/"%char; "*"%char]. cbn [app bytes_Contains]. rewrite Hc. destruct c as [|x c]; [done|].
    cbn [bytes_HasPrefix]. cbn in Hh. rewrite orb_false_r. rewrite (bool_decide_false ("/"%char = x)); [|congruence]. done.
  - rewrite length_app in Hn. change (length (byt "/*/")) with 3%nat in Hn. destruct n as [|n]; [lia|]. cbn [strip]. rewrite trim_left_stop by reflexivity. cbn. apply IH. lia.
Qed.

Lemma space_at_Some s k : space_at s = Some k -> exists w, w ∈ spaces /\ s = w ++ drop k s.
Proof.
  unfold space_at. destruct (list_find _ spaces) as [[i w]|] eqn:E; [|done]. apply list_find_Some in E as (E & [r ->]%bytes_HasPrefix_iff & _). intros [= <-].
  exists w. split; [by eapply list_elem_of_lookup_2|by rewrite drop_app_length].
Qed.

Lemma ends_verb_iff s : ends_verb s = true <-> separator s.
Proof.
  split.
  - destruct s as [|c s]; [done|]. unfold ends_verb. rewrite orb_true_iff, !bool_decide_eq_true. intros [[k (w & Hw & ->)%space_at_Some]|Hc]; by constructor.
  - intros [w x Hw|c x Hc].
    + destruct (space_at_space w x Hw) as [E Hl]. destruct w as [|c w]; [cbn in Hl; lia|]. cbn [app] in *. unfold ends_verb. by rewrite E, bool_decide_true.
    + unfold ends_verb. by rewrite (bool_decide_true (c ∈ _)), orb_true_r.
Qed.

Lemma trim_left_lead n s : (length s <= n)%nat -> exists pre, s = pre ++ trim_left n space_at s /\ space_at (trim_left n space_at s) = None /\ forall t, lead t -> lead (pre ++ t).
Proof.
  revert s. induction n as [|n IH]; intros s Hn; cbn [trim_left].
  - destruct s; [|cbn in Hn; lia]. by exists [].
  - destruct (space_at s) as [k|] eqn:E; [|by exists []]. pose proof (space_at_pos s k E) as Hk. apply space_at_Some in E as (w & Hw & E).
    destruct (IH (drop k s)) as (pre & E2 & Hs & Hp); [destruct s; [cbn in *; rewrite drop_nil; cbn; lia|rewrite length_drop; cbn in *; lia]|].
    exists (w ++ pre). rewrite <- app_assoc, <- E2. split; [done|]. split; [done|]. intros t Ht. rewrite <- app_assoc. by apply lead_space, Hp.
Qed.

Lemma bytes_Cut_Some s sep b a : sep <> [] -> bytes_Cut s sep = Some (b, a) -> s = b ++ sep ++ a /\ bytes_Contains b sep = false.
Proof.
  intros Hsep. revert b. induction s as [|c s IH]; intros b; cbn [bytes_Cut]; [by destruct sep|].
  destruct (bytes_HasPrefix (c :: s) sep) eqn:E.
  - intros [= <- <-]. apply bytes_HasPrefix_iff in E as [r ->]. rewrite drop_app_length. split; [done|]. by destruct sep.
  - destruct (bytes_Cut s sep) as [[b' a']|]; [|done]. intros [= <- <-]. destruct (IH _ eq_refl) as [-> Hc]. split; [done|]. cbn [bytes_Contains]. rewrite Hc, orb_false_r.
    destruct (bytes_HasPrefix (c :: b') sep) eqn:E2; [|done]. apply bytes_HasPrefix_iff in E2 as [r E2].
    assert (bytes_HasPrefix (c :: b' ++ sep ++ a') sep = true); [|congruence]. apply bytes_HasPrefix_iff. exists (r ++ sep ++ a'). by rewrite app_comm_cons, E2, <- app_assoc.
Qed.

(** A whole comment at the beginning, as it is cut off. *)
Lemma line_lead s b a t : bytes_HasPrefix s (byt "--") = true -> bytes_Cut s [newline] = Some (b, a) -> lead t -> exists c, s = c ++ a /\ lead (c ++ t).
Proof.
  intros [x ->]%bytes_HasPrefix_iff (E & Hc)%bytes_Cut_Some Ht; [|done].
  assert (Hn : newline ∉ b).
  { clear -Hc. induction b as [|y b IH]; [set_solver|]. cbn in Hc. apply orb_false_iff in Hc as [Hy Hb]. rewrite andb_true_r in Hy. apply bool_decide_eq_false in Hy. set_solver. }
  destruct b as [|x1 [|x2 b]]; [discriminate E|discriminate E|]. injection E as <- <- E. exists (byt "--" ++ b ++ [newline]). split; [by rewrite E, <- !app_assoc|].
  rewrite <- !app_assoc. apply lead_line; [set_solver|done].
Qed.

Lemma block_lead s b a t : bytes_HasPrefix s (byt "/*") = true -> bytes_Cut s (byt "*/") = Some (b, a) -> lead t -> exists c, s = c ++ a /\ lead (c ++ t).
Proof.
  intros [x ->]%bytes_HasPrefix_iff (E & Hc)%bytes_Cut_Some Ht; [|done].
  destruct b as [|x1 [|x2 b]]; [discriminate E| |].
  - injection E as <- E. exists (byt "/*/"). split; [by rewrite E|by apply lead_short].
  - injection E as <- <- E. exists (byt "/*" ++ b ++ byt "*/"). split; [by rewrite E, <- !app_assoc|]. rewrite <- !app_assoc.
    cbn [bytes_Contains] in Hc. apply orb_false_iff in Hc as [_ Hc]. apply orb_false_iff in Hc as [Hh Hc]. apply lead_block; [done| |done].
    intros Hb. destruct b as [|y b]; [done|]. injection Hb as ->. discriminate Hh.
Qed.

(** What is left begins neither with white space nor with a comment. *)
Lemma strip_whole n s : (length s <= n)%nat -> strip n s = [] \/
  exists pre, s = pre ++ strip n s /\ lead pre /\ bytes_HasPrefix (strip n s) (byt "--") = false /\ bytes_HasPrefix (strip n s) (byt "/*") = false.
Proof.
  revert s. induction n as [|n IH]; intros s Hn; [left; destruct s; [done|cbn in Hn; lia]|]. cbn [strip].
  destruct (trim_left_lead (length s) s) as (pre & E & _ & Hp); [lia|]. remember (trim_left (length s) space_at s) as u eqn:Eu. clear Eu.
  assert (Hlen : (length u <= S n)%nat) by (rewrite E, length_app in Hn; lia).
  assert (Hrec : forall b a sep, sep <> [] -> bytes_Cut u sep = Some (b, a) -> (forall t, lead t -> exists c, u = c ++ a /\ lead (c ++ t)) -> strip n a = [] \/
    exists pre', s = pre' ++ strip n a /\ lead pre' /\ bytes_HasPrefix (strip n a) (byt "--") = false /\ bytes_HasPrefix (strip n a) (byt "/*") = false).
  { intros b a sep Hsep [Ea _]%bytes_Cut_Some Hl; [|done]. destruct (IH a) as [|(p' & Ep & Hp' & H1 & H2)]; [|by left|].
    { apply (f_equal length) in Ea. rewrite !length_app in Ea. destruct sep; [done|]. cbn in Ea. lia. }
    right. destruct (Hl p' Hp') as (c & Ec & Hc). exists (pre ++ c ++ p'). rewrite <- !app_assoc, <- Ep, <- Ec. split; [done|]. split; [by apply Hp|done]. }
  destruct (bytes_HasPrefix u (byt "--")) eqn:E1; [|destruct (bytes_HasPrefix u (byt "/*")) eqn:E2].
  - destruct (bytes_Cut u [newline]) as [[b a]|] eqn:Ec; [|by left]. eapply Hrec; [|exact Ec|]; [done|]. intros t Ht. by eapply line_lead.
  - destruct (bytes_Cut u (byt "*/")) as [[b a]|] eqn:Ec; [|by left]. eapply Hrec; [|exact Ec|]; [done|]. intros t Ht. by eapply block_lead.
  - right. exists pre. split; [done|]. split; [|done]. specialize (Hp [] lead_nil). by rewrite app_nil_r in Hp.
Qed.

Lemma verb_of_spec s : exists rest, s = verb_of s ++ rest /\ (rest = [] \/ separator rest) /\ forall a b, verb_of s = a ++ b -> b <> [] -> ~ separator (b ++ rest).
Proof.
  induction s as [|c s (rest & E & Hr & Hn)]; cbn [verb_of].
  - exists []. split; [done|]. split; [by left|]. intros a b Eb Hb. by symmetry in Eb; apply app_eq_nil in Eb as [_ ->].
  - destruct (ends_verb (c :: s)) eqn:Es.
    + exists (c :: s). split; [done|]. split; [right; by apply ends_verb_iff|]. intros a b Eb Hb. by symmetry in Eb; apply app_eq_nil in Eb as [_ ->].
    + exists rest. split; [by rewrite E at 1|]. split; [done|]. intros [|x a] b Eb Hb; [|injection Eb as -> Eb; by eapply Hn].
      cbn in Eb. subst b. rewrite <- app_comm_cons, <- E. intros Hs%ends_verb_iff. congruence.
Qed.

Lemma verb_of_word verb rest : (rest = [] \/ separator rest) -> (forall a b, verb = a ++ b -> b <> [] -> ~ separator (b ++ rest)) -> verb_of (verb ++ rest) = verb.
Proof.
  intros Hr. induction verb as [|c verb IH]; intros Hn; cbn [app].
  - destruct rest as [|x rest]; [done|]. destruct Hr as [|Hr]; [done|]. apply ends_verb_iff in Hr. cbn [verb_of]. by rewrite Hr.
  - cbn [verb_of]. destruct (ends_verb (c :: verb ++ rest)) eqn:E; [by apply ends_verb_iff, (Hn [] (c :: verb)) in E|]. f_equal. apply IH. intros a b -> Hb. by apply (Hn (c :: a) b).
Qed.

(** The first word is a reading one, as [strings.ToUpper] writes it. *)
Definition reads `{Casing} (sql : string) : Prop := exists word, first_word (byt sql) word /\ (upper (str word) = "SELECT" \/ upper (str word) = "WITH").

Lemma ClassifyQuery_reads `{Casing} sql : ClassifyQuery sql = QueryTypeRead <-> reads sql.
Proof.
  unfold ClassifyQuery, reads, stripLeadingWhitespaceAndComments. split.
  - case_bool_decide as Ec; [done|]. intros Hu. destruct (strip_whole (length (byt sql)) (byt sql)) as [|(pre & E & Hl & H1 & H2)]; [lia|done|].
    remember (strip _ _) as body eqn:Eb. destruct (verb_of_spec body) as (rest & Er & Hr & Hn). remember (verb_of body) as word eqn:Ew.
    assert (Hw : upper (str word) = "SELECT" \/ upper (str word) = "WITH") by (repeat case_bool_decide; naive_solver).
    exists word. split; [|done]. split.
    + intros ->. rewrite upper_ascii_text in Hw by constructor. by destruct Hw.
    + exists pre, rest. by rewrite <- Er.
  - intros (word & [Hne (pre & rest & E & Hl & H1 & H2 & Hr & Hn)] & Hw). rewrite E.
    assert (Hs : space_at (word ++ rest) = None).
    { destruct (space_at (word ++ rest)) as [k|] eqn:Es; [|done]. exfalso. apply space_at_Some in Es as (w & Hw' & Es). apply (Hn [] word eq_refl Hne). rewrite Es. by constructor. }
    rewrite strip_lead; [|done..|rewrite length_app; lia]. rewrite bool_decide_false by (intros [? _]%app_eq_nil; done). rewrite verb_of_word by done.
    destruct Hw as [-> | ->]; [done|by rewrite (bool_decide_true (_ = "WITH")), orb_true_r].
Qed.

(** C32: a query goes by its first word.  The first word is what stands after
    white space and whole comments, up to white space, a semicolon, a
    parenthesis or the end.  A query whose first word is, in upper case,
    SELECT or WITH goes to the next of the replicas in turn, if there are any;
    every other query, one without a first word included, goes to the primary
    and leaves the turn where it is. *)
Theorem query_routing_exact `{Casing} sql replicas rrIndex : 0 <= rrIndex < 2 ^ 64 ->
  (reads sql /\ replicas <> 0%nat -> Route sql replicas rrIndex = (ToReplica (Z.to_nat (rrIndex mod Z.of_nat replicas)), (rrIndex + 1) mod 2 ^ 64)) /\
  (~ (reads sql /\ replicas <> 0%nat) -> Route sql replicas rrIndex = (ToPrimary, rrIndex)).
Proof.
  intros Hi. assert (Hw : wrapu64 (wrapu64 (rrIndex + 1) - 1) = rrIndex).
  { unfold wrapu64. rewrite Zminus_mod_idemp_l. rewrite Z.mod_small; lia. }
  unfold Route. rewrite Hw. rewrite <- ClassifyQuery_reads. split.
  - intros [-> Hr]. rewrite bool_decide_false by done. by rewrite (proj2 (Nat.eqb_neq _ _) Hr).
  - intros Hn. destruct (ClassifyQuery sql); [|done]. destruct (Nat.eqb_spec replicas 0); [by rewrite orb_true_r|]. by destruct Hn.
Qed.

(** ** A version is applied once *)

Section Migrations.
Context `{QueryCodec} `{Manager P} `{QueryOptimizer T}.
Implicit Types (s : Server (P := P) (T := T)).

Definition versions_once s : Prop := NoDup (Version <$> migrations s).

Lemma has_version_spec v ms : has_version v ms = false -> v ∉ Version <$> ms.
Proof.
  intros Hv Hx. apply list_elem_of_fmap in Hx as (m & -> & Hm). rewrite <- not_true_iff_false in Hv. apply Hv. apply existsb_exists. exists m.
  split; [by apply list_elem_of_In|]. by apply Z.eqb_eq.
Qed.

Lemma save_migrations put_ok s : migrations (saveMigrationsToStore put_ok s) = migrations s.
Proof. unfold saveMigrationsToStore. destruct (stored s); [|done]. by destruct put_ok. Qed.

(** Whatever requests arrive, no version is twice in the list of what was
    applied; and a version that is in the list is skipped. *)
Theorem migrations_applied_once now put_ok r s :
  versions_once s ->
  versions_once (HandleMigrate now put_ok r s).2 /\
  forall req, decode_migrate (Body r) = inr req -> Method r = "POST" -> rq_Action req <> "rollback" -> locked s = false -> rq_Version req ∈ Version <$> migrations s ->
    HandleMigrate now put_ok r s = (Some (mkReply 200 (Core.Data PSkipped)), s).
Proof.
  intros Hs. split.
  - unfold HandleMigrate. destruct (negb _); [done|]. destruct (decode_migrate (Body r)) as [|req]; [done|]. destruct (locked s); [done|]. case_bool_decide.
    + unfold rollback. destruct (rollback_target _ _) as [[i m]|]; [|done]. cbn [stored with_migrations]. unfold versions_once in *.
      assert (Hd : NoDup (Version <$> delete i (migrations s))) by (eapply sublist_NoDup; [exact Hs|]; apply fmap_sublist, sublist_delete).
      by destruct (stored s).
    + unfold migrate. destruct (has_version _ _) eqn:Ev; [done|]. cbn [snd]. unfold versions_once in *. rewrite save_migrations. cbn [migrations with_migrations]. rewrite fmap_app.
      apply NoDup_app. split; [done|]. split; [|apply NoDup_singleton]. intros v Hv Hx. apply list_elem_of_singleton in Hx as ->. by apply has_version_spec in Ev.
  - intros req Hd Hm Ha Hk Hv. unfold HandleMigrate, migrate. rewrite Hm, (bool_decide_true ("POST" = "POST")) by done. cbn [negb]. rewrite Hd, Hk, bool_decide_false by done.
    destruct (has_version _ _) eqn:Ev; [done|]. by apply has_version_spec in Ev.
Qed.
End Migrations.

(** ** Examples *)

#[local] Existing Instance ascii_casing.

Definition clock_at (t : Z) : nat -> Z := fun _ => t * Second.
Definition run_events (evs : list event) (w : World) : World := fold_left (fun w ev => step ev w) evs w.
Definition small_pool : World := initial 0 1 "postgres".

(** Two connections at most, the third request waits and gets the first that
    is released. *)
Definition handing_over : list event :=
  [EAcquire (clock_at 1); EAcquire (clock_at 1); EAcquire (clock_at 1); EJanitor (2 * Second) "" [1; 2]; ERelease (clock_at 2) 1; EReceive 2; EGiveUp 0].

Lemma handing_over_reachable : reachable small_pool (run_events handing_over small_pool).
Proof.
  unfold handing_over. cbn [run_events fold_left]. repeat (apply reachable_step; [|try exact I]); [apply reachable_start|]. split; [vm_compute; apply perm_swap|].
  intros r id t Hc. assert (Hid : id = 1 \/ id = 2).
  { destruct Hc as [Hc|Hc]; apply elem_of_map_to_list, list_elem_of_In in Hc; vm_compute in Hc; intuition congruence. }
  destruct Hid as [-> | ->]; intros Et; vm_compute in Et; injection Et as <-; vm_compute; discriminate.
Qed.

Example pool_exclusive_witness :
  let w := run_events handing_over small_pool in holds w !! 0%nat = Some 1 /\ holds w !! 2%nat = Some 2 /\ NoDup (idleConns (pool w)).
Proof.
  split; [reflexivity|]. split; [reflexivity|]. apply (pool_exclusive 0 1 "postgres" (run_events handing_over small_pool)); [split; vm_compute; congruence|exact handing_over_reachable].
Defined.

(** [SELECT*] is another word than SELECT, and a parenthesis begins none. *)
Example query_routing_exact_witness : Route "-- all  
 /* of them */ select(1)" 3 7 = (ToReplica 1, 8) /\ Route "SELECT* FROM t" 3 7 = (ToPrimary, 7) /\ Route "(SELECT 1)" 3 7 = (ToPrimary, 7) /\ Route "SELECT 1" 0 7 = (ToPrimary, 7).
Proof.
  assert (Hi : 0 <= 7 < 2 ^ 64) by (split; vm_compute; congruence).
  split; [|split; [reflexivity|split; [reflexivity|]]].
  - apply (query_routing_exact _ 3 7 Hi). split; [|done]. apply ClassifyQuery_reads. reflexivity.
  - apply (query_routing_exact _ 0 7 Hi). by intros [_ ?].
Defined.

(** *** What the pool does not do *)

(** With a limit below the lifetime of connections (by default both are five
    seconds, and what is taken back is too old to be handed out), a request
    that is still at work after the limit loses its connection to another one,
    and both have it. *)
Example overdue_connection_is_shared :
  let w := run_events [EAcquire (clock_at 1); EJanitor (4 * Second) "2s" [1]; EAcquire (clock_at 4)] (initial 0 5 "") in
  is_Some (holds w !! 0%nat) /\ holds w !! 0%nat = holds w !! 1%nat /\
  (* and after both have released it, it is idle twice, for two more *)
  idleConns (pool (run_events [ERelease (clock_at 5) 0; ERelease (clock_at 5) 1] w)) = [1; 1].
Proof. vm_compute. split; [by eexists|done]. Qed.

(** A waiter that gives up while the connection is on its way loses it: nobody
    has it, and the pool counts it as active until the janitor finds it. *)
Example connection_is_lost :
  let w := run_events [EAcquire (clock_at 1); EAcquire (clock_at 1); EAcquire (clock_at 1); ERelease (clock_at 2) 0; EGiveUp 2; ERelease (clock_at 2) 1] small_pool in
  holds w = ∅ /\ ActiveConnections (Stats (pool w)) = 1.
Proof. vm_compute. done. Qed.

(** What the janitor takes back goes to no waiter. *)
Example waiter_is_passed_over :
  let w := run_events [EAcquire (clock_at 1); EAcquire (clock_at 1); EAcquire (clock_at 4); EJanitor (4 * Second) "2s" [1; 2]; EAcquire (clock_at 4)] small_pool in
  waitQueue (pool w) = [2%nat] /\ holds w !! 3%nat = Some 2 /\ idleConns (pool w) = [1].
Proof. vm_compute. done. Qed.

(** The invalid connection that the health check gives back is the one it gets
    next, while a valid one stays idle. *)
Example same_connection_three_times :
  let p := run_events [EAcquire (clock_at 1); EAcquire (clock_at 1); ERelease (clock_at 1) 0; ERelease (clock_at 1) 1] (initial 0 5 "") in
  let hc := NewHealthChecker (pool p) (Some (fun _ id => bool_decide (id = 1))) in
  (hc_Acquire (fun _ => clock_at 2) hc).1 = inl "health check failed after 3 attempts: connections invalid" /\ idleConns (pool p) = [1; 2].
Proof. vm_compute. done. Qed.

(** A statement that writes after WITH is a read. *)
Example with_delete_is_a_read : ClassifyQuery "WITH old AS (SELECT 1) DELETE FROM t" = QueryTypeRead.
Proof. vm_compute. done. Qed.

(** Placeholders are counted inside of literals too; two statements in a full
    cache have the same identifier; a statement of one dialect is returned for
    another. *)
Example statement_cache_confuses :
  NormalizeSQL "SELECT '?', ?" DialectPostgres = "SELECT '$1', $2" /\
  (let '(a, _, c) := GetOrPrepare "" "a" DialectMySQL (NewStatementCache 2) in
   let '(b, _, c) := GetOrPrepare "" "b" DialectMySQL c in
   let '(d, _, c) := GetOrPrepare "a" "c" DialectMySQL c in
   let '(e, hit, _) := GetOrPrepare "a" "b" DialectSQLite c in
   st_ID b = st_ID d /\ hit = true /\ st_Dialect e = DialectMySQL).
Proof. vm_compute. done. Qed.

(** The word IF is taken for a table. *)
Example table_if : ParseTablesFromSQL "CREATE TABLE IF NOT EXISTS users (id int); drop  table old" = (["IF"], ["old"]).
Proof. vm_compute. done. Qed.

(** With a store, as the server has, a rollback is never answered and neither
    is any migration after it. *)
#[local] Instance demo_query : QueryCodec := {|
  decode_query b := Some b; decode_migrate b := inr (mkMigrate 1 "m" "CREATE TABLE t" "DROP TABLE t" b); encode_migrations _ := []; decode_migrations _ := None |}.
#[local] Instance no_optimizer : QueryOptimizer unit := {| o_Route _ _ _ := None; GetCached _ _ := None; SetCached _ _ o := o; ClearCache o := o |}.

Definition migrate_request (action : string) : Request := mkRequest "POST" "/api/db/migrate" (fun _ => "") "" (fun _ => "") (fun _ => "") None action None None.
Definition demo_pool : ConnectionPool := NewConnectionPool 0 5 "postgres".
Definition demo_server (store : option (option bytes)) : Server := NewServer demo_pool demo_pool store (@None unit).

Example rollback_deadlocks :
  let s := (HandleMigrate 1 true (migrate_request "") (demo_server (Some None))).2 in
  HasActiveTable "t" s = true /\
  let '(reply, s) := HandleMigrate 2 true (migrate_request "rollback") s in
  reply = None /\ (HandleMigrate 3 true (migrate_request "") s).1 = None.
Proof. vm_compute. done. Qed.

Example rollback_without_store :
  let s := (HandleMigrate 1 true (migrate_request "") (demo_server None)).2 in
  let '(reply, s) := HandleMigrate 2 true (migrate_request "rollback") s in
  reply = Some (mkReply 200 (Core.Data (PRolledBack 1 "m"))) /\ HasActiveTable "t" s = false.
Proof. vm_compute. done. Qed.
